(* ===== verification/_CoqProject ===== *)
-Q . S2P
Prelude.v
Bytes.v
Field.v
Primes.v
FieldInstance.v
ConstraintSystem.v
Shape.v
CheckSystem.v
Bellpepper.v
BellpepperInstance.v
Lc.v
Values.v
Bits.v
Gadgets.v
Select.v
Limbs.v
BigNat.v
BigNatRules.v
CborUint.v
OneHotCursor.v
DigestId.v
Sha256.v
Sha256Trace.v
Table.v
Window.v
Circuit.v
Step.v
Packing.v
Sha256Var.v
Sha256Mc.v
Hasher.v
HonestSteps.v
StepValues.v
AgeFolded.v
StepInstance.v
Curve.v
P256.v
Ecc.v
Ecdsa.v
P256Constants.v
Cbor.v
OffsetBind.v
AgeAcceptance.v
OffsetRules.v
AgeDates.v
AgeRules.v
AgeSound.v
AgeStatement.v
MsoSplice.v
Mso.v
MdocCore.v
Binding.v
Assembled.v
Challenge.v
Request.v
Calendar.v
Presentation.v
Pseudonym.v
Mdoc.v
MdocRules.v
MdocSound.v
App.v
Setup.v
Statement.v
NymAuth.v
Witnesses.v
GadgetInstance.v
CircuitWitnesses.v
GadgetWitnesses.v
FoldedWitnesses.v
AgeWitnesses.v
MsoWitnesses.v
StepWitnesses.v
MdocWitnesses.v
StatementWitnesses.v
