(* ===== verification/Prelude.v ===== *)
(** Verification of zk-cred-vega: zero-knowledge statements about ISO/IEC
    18013-5 mdoc credentials, proved with Microsoft's vega-prover.

    * The program

    A holder proves, without showing an mdoc, that its birth date lies in a
    range, that it is valid now and bound to the device key that signed the
    verifier's challenge, and reveals a pseudonym of its secret seed and the
    verifier's input. The rules are R1CS: products of weighted sums of slots
    over the field of P-256 coordinates. [src/nymauth_vega/engine/] splits them
    in instances over one shared table of SHA-256 blocks and states: the step
    instances check a few compressions each, at the position they report; the
    core instance checks the rest once. The application accepts a proof when
    the prover's library verifies it, each step reports its own position and
    the core reports the expected values. The modules at the top of [src/] are
    an older engine with gadgets of its own, in part modelled here.

    * How it is modelled

    A circuit of the sources is generic in its constraint system, so it is a
    value of the free monad [ConstraintSystem.Synth] over the trait's methods,
    with the code's names, rules, allocations and early returns. It has three
    readings: [Shape.shape] (the rules and the number of slots), with the
    predicate transformers [wp] and [gadget] (what the rules force of any
    assignment, a dishonest prover's too); [CheckSystem.run] (the constraint
    system [Check] of [app.rs]: values, rules checked as they are added), with
    [emits] and [completes] (what an honest run allocates); and
    [Circuit.generate] and [replay] (the witness generator). Fallible code
    returns [Prelude.outcome]: [Ok], [Err], or [Panic] for a failed assertion,
    an index out of range or an unwrap. Bytes are [Byte.byte], strings of the
    holder [list byte], machine integers [Z] or [N] with their wrap-around
    where the code can reach it.

    * Files and sources (under [src/src/], engine = nymauth_vega/engine)

    Shared: [Prelude] (outcomes, loops, slices, chunks), [Bytes] (bytes, bits
    and integers), [Field] and [Primes] (the scalar field; its prime and the
    group order are prime), [ConstraintSystem], [Shape], [CheckSystem]
    (engine/app.rs [Check]), [Bellpepper].
    Gadgets of the engine: [Lc] (gadgets/lc.rs), [Values] (gadgets/values.rs),
    [Bits] (gadgets/bits.rs), [Select] (gadgets/select.rs), [Sha256]
    (gadgets/sha256.rs), [Sha256Trace] (the values of FIPS 180-4 in the order
    of bellpepper's gadget), [Window] (gadgets/window.rs), [P256],
    [P256Constants] and [Curve] (gadgets/p256.rs).
    Table and circuits: [Table] (engine/table.rs), [Circuit] (engine/app.rs
    segments and replay), [Step] and [StepValues] (engine/step.rs), [Mdoc],
    [MdocRules] and [MdocSound] (engine/mdoc.rs), [Request]
    (engine/request.rs), [Calendar] and [Presentation]
    (engine/presentation.rs, dates of engine/statement.rs), [Pseudonym]
    (engine/pseudonym.rs).
    Application: [App] and [Setup] (engine/app.rs), [Cbor]
    (engine/fixtures/cbor.rs), [Challenge] (engine/challenge.rs), [Statement]
    (engine/statement.rs), [NymAuth] (nymauth_vega.rs).
    Older engine: [Gadgets] (gadget_utils.rs), [Limbs], [BigNat] and
    [BigNatRules] (nonnative/), [Ecc] (p256_ecc.rs), [Ecdsa] (ecdsa.rs),
    [OneHotCursor] (onehot_cursor.rs), [CborUint] (cbor_uint.rs), [DigestId]
    (digest_id_extract.rs), [Packing] (loops over packed coefficients),
    [Sha256Var] (sha256_var.rs), [Sha256Mc] and [HonestSteps] (sha256_mc.rs:
    what the rules force, and honest runs), [Hasher] (the enum of
    mdoc_age.rs, the steps of [verify_age] of mdoc_age_mc.rs), [AgeFolded]
    (mdoc_age_mc.rs: the folded witness and the step circuits),
    [AgeAcceptance] (mdoc_age_circuit.rs and mdoc_age_mc.rs: the public values
    and the verifier's checks of them), [OffsetBind] and [OffsetRules]
    (offset_bind.rs: the windows, the digest region and the validity window,
    and what their rules force), [AgeDates] (mdoc_age.rs: the birth date in an
    item, the order of dates; the digest as a number of mdoc_core.rs),
    [AgeRules] (the two halves of mdoc_age.rs, the circuits of
    mdoc_age_circuit.rs and mdoc_age_mc.rs), [AgeSound] and [AgeStatement]
    (what the halves show, and the verifier's checks with them).
    Its other form, which assembles the signed structure: [MsoSplice]
    (mso_splice.rs: identifiers and tails at places chained by one-hot
    selectors), [Mso] (mso.rs: the template of the structure, natively and by
    rules), [MdocCore] (mdoc_core.rs and the step circuit of lib.rs), [Binding]
    (lib.rs: the padded claims and the verifier's checks) and [Assembled] (the
    form as a whole).
    Concrete inputs: [FieldInstance], [BellpepperInstance], [StepInstance],
    [GadgetInstance] and the files whose names end in [Witnesses].

    * What is proved

    - Soundness of the rules, for any assignment: bits and comparisons
      ([Bits]), one-hot selection ([Select], [OneHotCursor]), windows of a
      signed message ([Window.read_sound]), the ECDSA equation with every step
      defined ([P256.verify_sound]), patterns ([Request.check_sound]), the
      statement of a presentation ([Presentation.presentation_sound]), hash
      chains in the table ([Step.steps_sound]), and from these the statement
      about a credential whose issuer signed it, [MdocSound.statement_sound].
      For the older engine, the complete group law ([Ecc.add_group_law]),
      products and reductions of numbers in limbs over the integers
      ([BigNatRules.mult_mod_sound]) and the ECDSA equation
      ([Ecdsa.ecdsa_sound]), and one contract for the two hashes of a message
      ([Hasher.hash_sound]): in the circuit, or in folded steps whose published
      indices the verifier checks. There a multiple is a value of the reference
      [Ecc.scalar_mul_ref], which is undefined where an incomplete addition
      meets equal coordinates. [Ecdsa.chain_meets] is that case, under which
      the rules leave a slope free; it takes a point of an order below 2^254,
      and that the curve has none is not proved. The equation admits [r = 0]
      and a sum at infinity, as the code does. From these, [AgeStatement.age_sound]: a
      satisfied circuit of either form whose public values the verifier
      accepts shows [age_statement], in which the signature covers a prefix of
      the message only, and the published namespace is at a place of its own.
    - Refinement: [Statement.verify_statement] says of the bytes that a
      verifier accepts that the abstract statement holds for the values it
      named; [Statement.prove_verifies] that a returned proof is accepted.
      In the assembled form, [Assembled.assembled_sound]: satisfied circuits
      whose public values pass the checks show that a structure of this shape
      was signed with the returned key and times, and tie each claim's bytes to
      the digest that the core blinds; no rule ties that digest or the
      identifiers to those inside the structure.
    - Equivalence of the native values with the rules an honest prover
      evaluates: [Select.select_native], [Window.read_native],
      [P256.verify_exact], [P256.batched_values] (batched inversions),
      [StepValues.step_native], [Ecc.scalar_mul_exact]; SHA-256 padding,
      compression and table against FIPS 180-4 ([Sha256], [Table]).
    - Round trips and parsers: CBOR, dates and times, pseudonyms, digest
      identifiers; challenges are injective in the request.
    - Honest provers of the older engine: from two messages to steps that
      satisfy their rules and are accepted ([AgeFolded.honest_fold]); its
      verifier accepts exactly the values that show what it asked for
      ([AgeAcceptance.check_public_values_iff], [AgeAcceptance.verify_age_iff]),
      those of an honest prover among them ([honest_values_checked]). In the
      assembled form, what is signed is canonical CBOR
      ([Mso.sig_structure_canonical]), the checks are characterised exactly
      ([Assembled.verify_and_check_binding_spec]) and accept what the prover
      makes ([Assembled.presentation_binds]).
    - Error paths: the first broken rule, stored shapes, the limits of a
      challenge, the calls of the bindings, which never panic and always
      overwrite the seed.

    * Bounds and fuel

    [chunks] and the padding loop take the length as fuel, and lemmas say that
    it is enough. [Cbor] reads with the depth limit of the code as the measure
    of its nesting and the input's length for its items; [Cbor.read_encode]
    and [read_depth] say that the limit is reached exactly. The search of
    [P256Constants] has no bound in the code; its theorems hold for any fuel,
    and say that it stops at the first counter that gives a point. Slots and
    positions are [nat]; the rules check the room after an offset in
    [Table.OFFSET_BITS] bits, and the code's [u64] and [u32] conversions are
    proved in range where they are used. Sizes that
    come from data ([Setup]) are [N] with the checked and the wrapping
    additions of the code.

    * Parameters

    Code that is not in the repository is a class, with documented behaviour
    as its laws: the field [ScalarField], weighted sums, numbers and bits of
    bellpepper ([LinearCombinations], [Bellpepper], [NumOps], [NumOpsRuns],
    [BooleanOps], [BooleanLogic]), its SHA-256 gadgets ([CompressionGadget],
    whose values are those of [Sha256Trace], and [Sha256Gadget]), [Sha2], the
    curve's arithmetic and parameters ([OrderField], [CurveLibrary],
    [P256Library], [P256Group]), decimal texts of the field and the rounded
    logarithm of floating point ([NonNative]), the prover and its serialization
    ([VegaProver], [ShapeCodec], [ProofCodec]). The instances above show that
    the laws can hold. That the prover's verification is sound is a named
    hypothesis of the theorems that need it ([Statement.keys_sound]), with a
    prover in [StatementWitnesses] that has it.

    * Not modelled

    The setup, the prepared state and the proofs of the library; that an honest
    prover satisfies the rules of [AgeRules] and of [MdocCore]; that the rules
    of a circuit do not depend on its values, so the theorems about circuits
    are about those of the given witness. [from_be] asserts at most 32 bytes,
    which all its callers pass, and is modelled without the assertion.
    Foreign interfaces (ffi_api.rs, go_ffi.rs, nymauth_go_ffi.rs) marshal
    pointers and lengths; binaries, examples, tests
    and fixtures only use the library. Wiping of memory is modelled for the
    seed that the bindings own, not for its copies; the texts of errors are
    the values they show. Zero knowledge and the cryptographic strength of
    SHA-256, ECDSA and the prover are outside. *)
From Stdlib Require Import ZArith Lia Strings.Byte Strings.String.
From stdpp Require Import base list strings numbers option pretty.

(** * Outcomes of Rust code *)

(** [Result<A, E>], with a third case for a panic (a failed [assert!], an
    index out of range). *)
Inductive outcome (E A : Type) : Type :=
  | Ok (a : A)
  | Err (e : E)
  | Panic (what : string).
Arguments Ok {E A} a.
Arguments Err {E A} e.
Arguments Panic {E A} what.

#[export] Instance outcome_ret E : MRet (outcome E) := λ A a, Ok a.
#[export] Instance outcome_bind E : MBind (outcome E) := λ A B f m,
  match m with Ok a => f a | Err e => Err e | Panic w => Panic w end.
#[export] Instance outcome_fmap E : FMap (outcome E) := λ A B f m,
  match m with Ok a => Ok (f a) | Err e => Err e | Panic w => Panic w end.

(** [Result::map_err]. *)
Definition map_err {E E' A} (f : E → E') (m : outcome E A) : outcome E' A :=
  match m with Ok a => Ok a | Err e => Err (f e) | Panic w => Panic w end.

(** [Option::ok_or]. *)
Definition ok_or {E A} (e : E) (o : option A) : outcome E A :=
  match o with Some a => Ok a | None => Err e end.

(** [Iterator::fold] whose body may fail: the loops with an early return. *)
Definition foldM {M : Type → Type} `{!MBind M, !MRet M} {A B}
    (f : B → A → M B) : B → list A → M B :=
  fix go acc l := match l with [] => mret acc | x :: l' => acc' ← f acc x; go acc' l' end.

(** * Ranges and slices *)

(** [(0..n)]. *)
Definition range (n : nat) : list nat := seq 0 n.

(** [v[a..b]], for [a <= b <= v.len()]. *)
Definition slice {A} (a b : nat) (l : list A) : list A := take (b - a) (drop a l).

(** [v.chunks(n)]: the pieces of [n] elements, the last one possibly shorter.
    The fuel is the length, which is enough for [n >= 1]. *)
Fixpoint chunks_fuel {A} (fuel n : nat) (l : list A) : list (list A) :=
  match fuel, l with
  | S fuel, _ :: _ => take n l :: chunks_fuel fuel n (drop n l)
  | _, _ => []
  end.
Definition chunks {A} (n : nat) (l : list A) : list (list A) := chunks_fuel (length l) n l.

(** [a.div_ceil(b)]. *)
Definition div_ceil (a b : nat) : nat := (a + b - 1) / b.

(** * Bytes *)

(** A [u8] is a [byte]; [b2z] reads it as an integer and [z2b] is the cast
    [as u8], which keeps the low eight bits. *)
Definition b2z (b : byte) : Z := Z.of_N (Byte.to_N b).
Definition z2b (z : Z) : byte := default x00 (Byte.of_N (Z.to_N (z mod 256))).

#[export] Instance byte_eq_dec : EqDecision byte := Byte.byte_eq_dec.

(** The bytes of a string literal. *)
Definition bytes_of (s : string) : list byte := list_byte_of_string s.

(** The integer of big-endian and of little-endian bytes. *)
Definition be_int (bs : list byte) : Z := foldl (λ v b, v * 256 + b2z b)%Z 0%Z bs.
Definition le_int (bs : list byte) : Z := be_int (reverse bs).

(** The [n] low bytes of an integer, most significant first ([to_be_bytes]). *)
Fixpoint be_bytes (n : nat) (z : Z) : list byte :=
  match n with
  | O => []
  | S n' => z2b (z / 256 ^ Z.of_nat n') :: be_bytes n' z
  end.
Definition le_bytes (n : nat) (z : Z) : list byte := reverse (be_bytes n z).

(** * Bits *)

(** The integer of a bit list, most significant bit first. *)
Definition bits_int (bs : list bool) : Z := foldl (λ v b, v * 2 + Z.b2z b)%Z 0%Z bs.

(** The [n] low bits of an integer, most significant first. *)
Definition int_bits (n : nat) (z : Z) : list bool :=
  (λ i, Z.testbit z (Z.of_nat i)) <$> reverse (seq 0 n).

Definition byte_bits (b : byte) : list bool := int_bits 8 (b2z b).

(** * Automation *)

Create HintDb vega discriminated.

(** * Lemmas: outcomes *)

Lemma outcome_bind_ok {E A B} (f : A → outcome E B) m b :
  m ≫= f = Ok b ↔ ∃ a, m = Ok a ∧ f a = Ok b.
Proof. destruct m; simpl; split; [eauto|by intros (? & [= <-] & ?)|done|by intros (? & ? & ?)|done|by intros (? & ? & ?)]. Qed.

Lemma foldM_app {E A B} (f : B → A → outcome E B) l1 l2 acc :
  foldM f acc (l1 ++ l2) = (acc' ← foldM f acc l1; foldM f acc' l2).
Proof.
  revert acc. induction l1 as [|x l1 IH]; intros acc; [done|].
  simpl. destruct (f acc x); simpl; auto.
Qed.

(** * Lemmas: slices and chunks *)

Lemma length_slice {A} a b (l : list A) :
  b ≤ length l → length (slice a b l) = b - a.
Proof. intros. unfold slice. rewrite length_take, length_drop. lia. Qed.

Lemma lookup_slice {A} a b (l : list A) i :
  i < b - a → slice a b l !! i = l !! (a + i).
Proof. intros. unfold slice. rewrite lookup_take_lt by lia. by rewrite lookup_drop. Qed.

Lemma slice_app_l {A} (l1 l2 : list A) : slice 0 (length l1) (l1 ++ l2) = l1.
Proof. unfold slice. rewrite drop_0, Nat.sub_0_r. apply take_app_length. Qed.

Lemma chunks_fuel_enough {A} (n : nat) (l : list A) f1 f2 :
  0 < n → length l ≤ f1 → length l ≤ f2 → chunks_fuel f1 n l = chunks_fuel f2 n l.
Proof.
  intros Hn. revert l f2. induction f1 as [|f1 IH]; intros l f2 H1 H2.
  - destruct l; [|simpl in H1; lia]. by destruct f2.
  - destruct l as [|x l]; [by destruct f2|]. destruct f2 as [|f2]; [simpl in H2; lia|].
    simpl in *. f_equal. apply IH; rewrite length_drop; simpl; lia.
Qed.

Lemma chunks_nil {A} n : chunks n ([] : list A) = [].
Proof. done. Qed.

Lemma chunks_cons {A} n (l : list A) :
  0 < n → l ≠ [] → chunks n l = take n l :: chunks n (drop n l).
Proof.
  intros Hn Hl. unfold chunks. destruct l as [|x l]; [done|].
  change (length (x :: l)) with (S (length l)). simpl chunks_fuel at 1. f_equal.
  apply chunks_fuel_enough; [done| |]; rewrite length_drop; simpl; lia.
Qed.

(** One whole piece in front is the first chunk. *)
Lemma chunks_app {A} n (l1 l2 : list A) :
  0 < n → length l1 = n → chunks n (l1 ++ l2) = l1 :: chunks n l2.
Proof.
  intros Hn <-. rewrite chunks_cons; [|done|by destruct l1; simpl in *; [lia|]].
  by rewrite take_app_length, drop_app_length.
Qed.

Lemma concat_chunks {A} n (l : list A) : 0 < n → concat (chunks n l) = l.
Proof.
  intros Hn. unfold chunks. generalize (le_n (length l)).
  generalize (length l) at 2 3 as f. intros f. revert l.
  induction f as [|f IH]; intros l Hl; [by destruct l; simpl in *; [|lia]|].
  destruct l as [|x l]; [done|]. cbn [chunks_fuel concat].
  rewrite IH; [apply take_drop|]. rewrite length_drop; simpl in *; lia.
Qed.

Lemma chunks_lengths {A} n k (l : list A) :
  0 < n → length l = k * n → Forall (λ c, length c = n) (chunks n l) ∧ length (chunks n l) = k.
Proof.
  intros Hn. revert l. induction k as [|k IH]; intros l Hl.
  - by destruct l; simpl in *; [|lia].
  - rewrite chunks_cons by (try done; by intros ->; simpl in *; lia).
    destruct (IH (drop n l)) as [H1 H2]; [rewrite length_drop; lia|].
    split; [constructor; [rewrite length_take; lia|done]|simpl; lia].
Qed.

(** * Lemmas: loops over indexed lists *)

Lemma prefix_snoc_lookup {A} (l done : list A) x :
  done ++ [x] `prefix_of` l → l !! length done = Some x ∧ done = take (length done) l.
Proof.
  intros [k ->]. rewrite <-app_assoc, take_app_length. split; [|done].
  by apply list_lookup_middle.
Qed.

(** The element a loop over [l.iter().zip(l').enumerate()] is at. *)
Lemma lookup_imap_zip {A B} (l : list A) (l' : list B) k x :
  imap (λ i x, (i, x)) (zip l l') !! k = Some x →
  ∃ a b, x = (k, (a, b)) ∧ l !! k = Some a ∧ l' !! k = Some b.
Proof.
  rewrite list_lookup_imap. intros (y & E & ->)%fmap_Some.
  apply lookup_zip_with_Some in E as (a & b & -> & ? & ?). eauto.
Qed.

Lemma bind_singleton {A B} (f : A → B) l : (l ≫= λ x, [f x]) = f <$> l.
Proof. induction l as [|x l IH]; [done|]. rewrite bind_cons, IH. done. Qed.

(** A list is its elements at every index. *)
Lemma range_lookup {A B} (d : A) (f : A → B) l :
  (λ i, f (default d (l !! i))) <$> range (length l) = f <$> l.
Proof.
  apply list_eq. intros i. rewrite !list_lookup_fmap. unfold range.
  destruct (decide (i < length l)) as [L|L].
  - rewrite lookup_seq_lt by done. simpl.
    by destruct (lookup_lt_is_Some_2 l i L) as [x ->].
  - rewrite (lookup_ge_None_2 l i), lookup_ge_None_2; [done| |lia].
    rewrite length_seq. lia.
Qed.

Lemma Forall2_concat_bind {A B C} (R : A → B → Prop) (f : C → list B) ls cs :
  Forall2 (λ l c, Forall2 R l (f c)) ls cs → Forall2 R (concat ls) (cs ≫= f).
Proof. induction 1 as [|l c ls cs Hl _ IH]; [constructor|]. rewrite bind_cons. by apply Forall2_app. Qed.

Lemma chunks_Forall2 {A B} (R : A → B → Prop) n l k :
  0 < n → Forall2 R l k → Forall2 (Forall2 R) (chunks n l) (chunks n k).
Proof.
  intros Hn. remember (length l) as m eqn:Em. revert l Em k.
  induction (lt_wf m) as [m _ IH]. intros l -> k HF.
  destruct HF as [|x y l k Hxy HF]; [constructor|].
  rewrite (chunks_cons n (x :: l)), (chunks_cons n (y :: k)) by done.
  constructor; [by apply Forall2_take; constructor|].
  apply (IH (length (drop n (x :: l)))); [rewrite length_drop; simpl; lia|done|].
  apply Forall2_drop. by constructor.
Qed.

Lemma length_chunks {A} n (l : list A) : 0 < n → length (chunks n l) = div_ceil (length l) n.
Proof.
  intros Hn. unfold div_ceil. remember (length l) as m eqn:Em. revert l Em.
  induction (lt_wf m) as [m _ IH]. intros l ->. destruct l as [|x l].
  - simpl. symmetry. apply Nat.div_small. lia.
  - rewrite chunks_cons by done. cbn [length].
    rewrite (IH (length (drop n (x :: l)))) by (done || rewrite length_drop; simpl; lia).
    rewrite length_drop. cbn [length]. destruct (decide (S (length l) ≤ n)) as [L|L].
    + replace (S (length l) - n) with 0 by lia. rewrite (Nat.div_small (0 + n - 1)) by lia.
      replace (S (length l) + n - 1) with (length l + 1 * n) by lia.
      rewrite Nat.div_add, Nat.div_small by lia. done.
    + replace (S (length l) + n - 1) with ((S (length l) - n + n - 1) + 1 * n) by lia.
      rewrite Nat.div_add by lia. lia.
Qed.
