(* ===== verification/Bytes.v ===== *)
(** Bytes and bit lists as integers: ranges, concatenation, injectivity and
    the round trips between a byte string, its bits and its integer. *)
From Stdlib Require Import ZArith Lia Strings.Byte.
From stdpp Require Import base list numbers option.
From S2P Require Import Prelude.
Local Open Scope Z_scope.

(** * Single bytes *)

Lemma b2z_range b : 0 ≤ b2z b < 256.
Proof. unfold b2z. pose proof (Byte.to_N_bounded b). lia. Qed.

Lemma z2b_b2z b : z2b (b2z b) = b.
Proof.
  unfold z2b. rewrite Z.mod_small by apply b2z_range.
  unfold b2z. by rewrite N2Z.id, Byte.of_to_N.
Qed.

Lemma b2z_z2b z : b2z (z2b z) = z mod 256.
Proof.
  unfold z2b. assert (0 ≤ z mod 256 < 256) as Hz by (apply Z.mod_pos_bound; lia).
  destruct (Byte.of_N (Z.to_N (z mod 256))) as [b|] eqn:E; simpl.
  - apply Byte.to_of_N in E. unfold b2z. rewrite E. lia.
  - apply Byte.of_N_None_iff in E. lia.
Qed.

Lemma b2z_inj b b' : b2z b = b2z b' → b = b'.
Proof. intros H. by rewrite <-(z2b_b2z b), <-(z2b_b2z b'), H. Qed.

Lemma z2b_small z : 0 ≤ z < 256 → b2z (z2b z) = z.
Proof. intros. rewrite b2z_z2b. by apply Z.mod_small. Qed.

#[export] Hint Resolve b2z_range : vega.

(** * Positional integers

    Both [be_int] and [bits_int] read digits most significant first; the
    lemmas are proved once, for any digits below a base. *)
Section Digits.
Context {D : Type} (base : Z) (val : D → Z).
Context (base_pos : 1 < base) (val_range : ∀ d, 0 ≤ val d < base).

Definition digits_int (ds : list D) : Z := foldl (λ v d, v * base + val d) 0 ds.

Lemma digits_int_acc ds v :
  foldl (λ v d, v * base + val d) v ds = v * base ^ Z.of_nat (length ds) + digits_int ds.
Proof.
  unfold digits_int. revert v. induction ds as [|d ds IH]; intros v; [simpl; lia|].
  cbn [foldl length]. rewrite IH, (IH (0 * base + val d)).
  rewrite Nat2Z.inj_succ, Z.pow_succ_r by lia. ring.
Qed.

Lemma digits_int_cons d ds :
  digits_int (d :: ds) = val d * base ^ Z.of_nat (length ds) + digits_int ds.
Proof. unfold digits_int at 1. cbn [foldl]. by rewrite digits_int_acc. Qed.

Lemma digits_int_app ds ds' :
  digits_int (ds ++ ds') = digits_int ds * base ^ Z.of_nat (length ds') + digits_int ds'.
Proof. unfold digits_int at 1. rewrite foldl_app. apply digits_int_acc. Qed.

Lemma digits_int_range ds : 0 ≤ digits_int ds < base ^ Z.of_nat (length ds).
Proof.
  induction ds as [|d ds IH]; [unfold digits_int; simpl; lia|].
  rewrite digits_int_cons. pose proof (val_range d). cbn [length].
  rewrite Nat2Z.inj_succ, Z.pow_succ_r by lia. nia.
Qed.

Lemma digits_int_inj (val_inj : ∀ d d', val d = val d' → d = d') ds ds' :
  length ds = length ds' → digits_int ds = digits_int ds' → ds = ds'.
Proof.
  revert ds'. induction ds as [|d ds IH]; intros [|d' ds'] Hl; try done.
  injection Hl as Hl. rewrite !digits_int_cons, Hl. intros H.
  pose proof (digits_int_range ds). pose proof (digits_int_range ds') as R'.
  rewrite Hl in *. assert (val d = val d') as Hd by nia.
  f_equal; [by apply val_inj|]. apply IH; [done|]. rewrite Hd in H. lia.
Qed.
End Digits.

Lemma be_int_cons b bs : be_int (b :: bs) = b2z b * 256 ^ Z.of_nat (length bs) + be_int bs.
Proof. apply (digits_int_cons 256 b2z). Qed.

Lemma be_int_app bs bs' :
  be_int (bs ++ bs') = be_int bs * 256 ^ Z.of_nat (length bs') + be_int bs'.
Proof. apply (digits_int_app 256 b2z). Qed.

Lemma be_int_range bs : 0 ≤ be_int bs < 256 ^ Z.of_nat (length bs).
Proof. apply (digits_int_range 256 b2z); [lia|apply b2z_range]. Qed.

Lemma be_int_inj bs bs' : length bs = length bs' → be_int bs = be_int bs' → bs = bs'.
Proof. apply (digits_int_inj 256 b2z); [lia|apply b2z_range|apply b2z_inj]. Qed.

Lemma be_int_snoc bs b : be_int (bs ++ [b]) = be_int bs * 256 + b2z b.
Proof. rewrite be_int_app. unfold be_int at 2. simpl. lia. Qed.

Lemma bits_int_cons b bs : bits_int (b :: bs) = Z.b2z b * 2 ^ Z.of_nat (length bs) + bits_int bs.
Proof. apply (digits_int_cons 2 Z.b2z). Qed.

Lemma bits_int_app bs bs' :
  bits_int (bs ++ bs') = bits_int bs * 2 ^ Z.of_nat (length bs') + bits_int bs'.
Proof. apply (digits_int_app 2 Z.b2z). Qed.

Lemma bits_int_range bs : 0 ≤ bits_int bs < 2 ^ Z.of_nat (length bs).
Proof. apply (digits_int_range 2 Z.b2z); [lia|intros []; simpl; lia]. Qed.

Lemma bits_int_inj bs bs' : length bs = length bs' → bits_int bs = bits_int bs' → bs = bs'.
Proof.
  apply (digits_int_inj 2 Z.b2z); [lia|intros []; simpl; lia|by intros [] []].
Qed.

#[export] Hint Resolve be_int_range bits_int_range : vega.

(** * Splitting an integer into bytes and bits *)

Lemma length_be_bytes n z : length (be_bytes n z) = n.
Proof. induction n; simpl; congruence. Qed.

Lemma be_int_be_bytes n z : be_int (be_bytes n z) = z mod 256 ^ Z.of_nat n.
Proof.
  induction n as [|n IH]; [by rewrite Z.mod_1_r|].
  cbn [be_bytes]. rewrite be_int_cons, length_be_bytes, b2z_z2b, IH, Nat2Z.inj_succ.
  rewrite Z.pow_succ_r by lia. rewrite (Z.mul_comm 256).
  rewrite Z.rem_mul_r by lia. ring.
Qed.

Lemma be_bytes_be_int bs n : length bs = n → be_bytes n (be_int bs) = bs.
Proof.
  intros <-. apply be_int_inj; [apply length_be_bytes|].
  rewrite be_int_be_bytes. apply Z.mod_small, be_int_range.
Qed.

Lemma length_int_bits n z : length (int_bits n z) = n.
Proof. unfold int_bits. by rewrite length_fmap, length_reverse, length_seq. Qed.

Lemma int_bits_S n z : int_bits (S n) z = Z.testbit z (Z.of_nat n) :: int_bits n z.
Proof. unfold int_bits. by rewrite seq_S, reverse_app. Qed.

Lemma bits_int_int_bits n z : bits_int (int_bits n z) = z mod 2 ^ Z.of_nat n.
Proof.
  induction n as [|n IH]; [by rewrite Z.mod_1_r|].
  rewrite int_bits_S, bits_int_cons, length_int_bits, IH, Nat2Z.inj_succ.
  rewrite Z.pow_succ_r, (Z.mul_comm 2), Z.rem_mul_r by lia.
  rewrite Z.testbit_spec' by lia. ring.
Qed.

Lemma int_bits_bits_int bs n : length bs = n → int_bits n (bits_int bs) = bs.
Proof.
  intros <-. apply bits_int_inj; [apply length_int_bits|].
  rewrite bits_int_int_bits. apply Z.mod_small, bits_int_range.
Qed.

Lemma int_bits_mod n z : int_bits n (z mod 2 ^ Z.of_nat n) = int_bits n z.
Proof.
  apply bits_int_inj; [by rewrite !length_int_bits|].
  by rewrite !bits_int_int_bits, Zmod_mod.
Qed.

Lemma lookup_int_bits n z i :
  (i < n)%nat → int_bits n z !! i = Some (Z.testbit z (Z.of_nat (n - 1 - i))).
Proof.
  intros Hi. unfold int_bits. rewrite list_lookup_fmap.
  rewrite reverse_lookup by (rewrite length_seq; lia). rewrite length_seq.
  rewrite lookup_seq_lt by lia. simpl. do 3 f_equal. lia.
Qed.

(** * Bits of byte strings *)

Lemma length_byte_bits b : length (byte_bits b) = 8%nat.
Proof. apply length_int_bits. Qed.

Lemma bits_int_byte_bits b : bits_int (byte_bits b) = b2z b.
Proof. unfold byte_bits. rewrite bits_int_int_bits. apply Z.mod_small, b2z_range. Qed.

Lemma length_bind_byte_bits bs : length (bs ≫= byte_bits) = (8 * length bs)%nat.
Proof.
  induction bs as [|b bs IH]; [done|].
  rewrite bind_cons, length_app, length_byte_bits, IH. simpl. lia.
Qed.

(** The bits of a run of bytes are a run of the bits. *)
Lemma take_drop_bind_byte_bits n l :
  take (8 * n) (l ≫= byte_bits) = take n l ≫= byte_bits ∧ drop (8 * n) (l ≫= byte_bits) = drop n l ≫= byte_bits.
Proof.
  destruct (decide (n ≤ length l)%nat) as [L|L].
  - rewrite <- (take_drop n l) at 1 3. rewrite bind_app.
    rewrite take_app_length', drop_app_length' by (rewrite length_bind_byte_bits, length_take; lia). done.
  - rewrite (take_ge l), (drop_ge l) by lia.
    rewrite take_ge, drop_ge by (rewrite length_bind_byte_bits; lia). done.
Qed.

Lemma slice_bind_byte_bits a b l :
  slice (8 * a) (8 * b) (l ≫= byte_bits) = slice a b l ≫= byte_bits.
Proof.
  unfold slice. rewrite (proj2 (take_drop_bind_byte_bits a l)).
  replace (8 * b - 8 * a)%nat with (8 * (b - a))%nat by lia. apply take_drop_bind_byte_bits.
Qed.

Lemma bits_int_bind_byte_bits bs : bits_int (bs ≫= byte_bits) = be_int bs.
Proof.
  induction bs as [|b bs IH]; [done|].
  rewrite be_int_cons, bind_cons, bits_int_app, IH, bits_int_byte_bits.
  replace (256 ^ Z.of_nat (length bs)) with (2 ^ Z.of_nat (length (bs ≫= byte_bits))); [done|].
  rewrite length_bind_byte_bits, Nat2Z.inj_mul, Z.pow_mul_r by lia. done.
Qed.

Lemma bind_byte_bits_be_bytes n z :
  be_bytes n z ≫= byte_bits = int_bits (8 * n) z.
Proof.
  apply bits_int_inj.
  - by rewrite length_bind_byte_bits, length_be_bytes, length_int_bits.
  - rewrite bits_int_bind_byte_bits, be_int_be_bytes, bits_int_int_bits.
    by rewrite Nat2Z.inj_mul, Z.pow_mul_r by lia.
Qed.
