(* ===== verification/Field.v ===== *)
(** The scalar field of the proof engine, [t256::Scalar] of
    [vega_prover::provider::pt256], which is the field of P-256 coordinates.

    The field is the prover's code, so it is the class [ScalarField]: its
    operations as the sources call them, and their documented behaviour, the
    arithmetic modulo [p] of the integers that [to_repr] writes.  The rest of
    the file derives the ring and field theory from that, and the embedding
    [of_int] of the integers, in which the specifications of the rules are
    stated.  [FieldInstance] has a concrete instance. *)
From Stdlib Require Import ZArith Lia Znumtheory Strings.Byte Field_theory Ring_theory Setoid.
From Stdlib Require Import Field_tac Ring.
From stdpp Require Import base list numbers option.
From S2P Require Import Prelude Bytes.
Local Open Scope Z_scope.

(** The field prime. *)
Definition p : Z := 2 ^ 256 - 2 ^ 224 + 2 ^ 192 + 2 ^ 96 - 1.

(** [PrimeField::NUM_BITS], the bits of the modulus. *)
Definition NUM_BITS : nat := 256.

Class ScalarField := {
  Scalar : Type;
  ZERO : Scalar;
  ONE : Scalar;
  sc_add : Scalar → Scalar → Scalar;
  sc_sub : Scalar → Scalar → Scalar;
  sc_mul : Scalar → Scalar → Scalar;
  sc_neg : Scalar → Scalar;
  double : Scalar → Scalar;
  square : Scalar → Scalar;
  is_zero : Scalar → bool;
  (** [invert], a [CtOption]. *)
  invert : Scalar → option Scalar;
  (** [From<u64>]. *)
  from_u64 : Z → Scalar;
  (** The 32 little-endian bytes of the canonical integer. *)
  to_repr : Scalar → list byte;
  (** 64 little-endian bytes, reduced modulo the prime. *)
  from_uniform_bytes : list byte → Scalar;

  to_repr_length x : length (to_repr x) = 32%nat;
  to_repr_inj x y : to_repr x = to_repr y → x = y;
  to_repr_range x : le_int (to_repr x) < p;
  zero_repr : le_int (to_repr ZERO) = 0;
  one_repr : le_int (to_repr ONE) = 1;
  add_repr x y : le_int (to_repr (sc_add x y)) = (le_int (to_repr x) + le_int (to_repr y)) mod p;
  sub_repr x y : le_int (to_repr (sc_sub x y)) = (le_int (to_repr x) - le_int (to_repr y)) mod p;
  mul_repr x y : le_int (to_repr (sc_mul x y)) = (le_int (to_repr x) * le_int (to_repr y)) mod p;
  neg_repr x : le_int (to_repr (sc_neg x)) = (- le_int (to_repr x)) mod p;
  from_u64_repr n : 0 ≤ n < 2 ^ 64 → le_int (to_repr (from_u64 n)) = n mod p;
  from_uniform_repr bs :
    length bs = 64%nat → le_int (to_repr (from_uniform_bytes bs)) = le_int bs mod p;
  double_add x : double x = sc_add x x;
  square_mul x : square x = sc_mul x x;
  is_zero_true x : is_zero x = true ↔ x = ZERO;
  invert_zero : invert ZERO = None;
  invert_mul x : x ≠ ZERO → ∃ y, invert x = Some y ∧ sc_mul y x = ONE;
}.

Declare Scope scalar_scope.
Delimit Scope scalar_scope with S.
Bind Scope scalar_scope with Scalar.
Infix "+" := sc_add : scalar_scope.
Infix "-" := sc_sub : scalar_scope.
Infix "*" := sc_mul : scalar_scope.
Notation "- x" := (sc_neg x) : scalar_scope.

Section Field.
Context `{ScalarField}.
Implicit Types x y z : Scalar.

(** The canonical integer of a scalar. *)
Definition repr x : Z := le_int (to_repr x).

(** The scalar of an integer. *)
Definition of_int (n : Z) : Scalar := from_uniform_bytes (le_bytes 64 (n mod p)).

(** The scalar of a bit. *)
Definition of_bool (b : bool) : Scalar := if b then ONE else ZERO.

Lemma p_pos : 0 < p.
Proof. done. Qed.

Lemma repr_inj x y : repr x = repr y → x = y.
Proof.
  intros E. apply to_repr_inj, (inj reverse), be_int_inj; [|done].
  by rewrite !length_reverse, !to_repr_length.
Qed.

Lemma repr_range x : 0 ≤ repr x < p.
Proof. split; [apply be_int_range|apply to_repr_range]. Qed.

Lemma repr_of_int n : repr (of_int n) = n mod p.
Proof.
  unfold repr, of_int. rewrite from_uniform_repr.
  2: { unfold le_bytes. by rewrite length_reverse, length_be_bytes. }
  unfold le_int, le_bytes. rewrite reverse_involutive, be_int_be_bytes.
  pose proof (Z.mod_pos_bound n p p_pos).
  rewrite (Z.mod_small (n mod p)); [apply Zmod_mod|].
  split; [lia|]. apply Z.lt_trans with p; [lia|done].
Qed.

Lemma of_int_repr x : of_int (repr x) = x.
Proof. apply repr_inj. rewrite repr_of_int. apply Z.mod_small, repr_range. Qed.

Lemma of_int_mod n : of_int (n mod p) = of_int n.
Proof. apply repr_inj. by rewrite !repr_of_int, Zmod_mod. Qed.

Lemma of_int_eq n m : n mod p = m mod p → of_int n = of_int m.
Proof. intros E. rewrite <-(of_int_mod n), E. apply of_int_mod. Qed.

Lemma of_int_inj_mod n m : of_int n = of_int m → n mod p = m mod p.
Proof. intros E. by rewrite <-!repr_of_int, E. Qed.

Lemma of_int_inj n m : 0 ≤ n < p → 0 ≤ m < p → of_int n = of_int m → n = m.
Proof. intros Hn Hm E%of_int_inj_mod. by rewrite !Z.mod_small in E. Qed.

Lemma of_int_0 : of_int 0 = ZERO.
Proof. apply repr_inj. rewrite repr_of_int. symmetry. apply zero_repr. Qed.
Lemma of_int_1 : of_int 1 = ONE.
Proof. apply repr_inj. rewrite repr_of_int. symmetry. apply one_repr. Qed.
Lemma of_int_add n m : of_int (n + m) = (of_int n + of_int m)%S.
Proof.
  apply repr_inj. unfold repr. rewrite add_repr. fold (repr (of_int n)) (repr (of_int m)).
  fold (repr (of_int (n + m))). rewrite !repr_of_int. apply Zplus_mod.
Qed.
Lemma of_int_sub n m : of_int (n - m) = (of_int n - of_int m)%S.
Proof.
  apply repr_inj. unfold repr. rewrite sub_repr. fold (repr (of_int n)) (repr (of_int m)).
  fold (repr (of_int (n - m))). rewrite !repr_of_int. apply Zminus_mod.
Qed.
Lemma of_int_mul n m : of_int (n * m) = (of_int n * of_int m)%S.
Proof.
  apply repr_inj. unfold repr. rewrite mul_repr. fold (repr (of_int n)) (repr (of_int m)).
  fold (repr (of_int (n * m))). rewrite !repr_of_int. apply Zmult_mod.
Qed.
Lemma of_int_opp n : of_int (- n) = (- of_int n)%S.
Proof.
  apply repr_inj. unfold repr. rewrite neg_repr. fold (repr (of_int n)).
  fold (repr (of_int (- n))). rewrite !repr_of_int.
  replace (- n) with (0 - n) by lia. replace (- (n mod p)) with (0 - n mod p) by lia.
  by rewrite Zminus_mod_idemp_r.
Qed.
Lemma from_u64_of_int n : 0 ≤ n < 2 ^ 64 → from_u64 n = of_int n.
Proof. intros. apply repr_inj. unfold repr at 1. by rewrite from_u64_repr, repr_of_int. Qed.
Lemma of_bool_of_int b : of_bool b = of_int (Z.b2z b).
Proof. destruct b; simpl; by rewrite ?of_int_0, ?of_int_1. Qed.

(** Every equation of the ring holds because it holds of the integers. *)
Lemma scalar_ring_theory : ring_theory ZERO ONE sc_add sc_mul sc_sub sc_neg eq.
Proof.
  rewrite <-of_int_0, <-of_int_1.
  split; intros; repeat match goal with x : Scalar |- _ =>
    rewrite <-(of_int_repr x); generalize (repr x); clear x; intros ? end;
    rewrite <-?of_int_add, <-?of_int_mul, <-?of_int_sub, <-?of_int_opp,
    <-?of_int_add, <-?of_int_mul, <-?of_int_sub, <-?of_int_add; f_equal; ring.
Qed.

Lemma of_int_morph :
  ring_morph ZERO ONE sc_add sc_mul sc_sub sc_neg eq 0 1 Z.add Z.mul Z.sub Z.opp Z.eqb of_int.
Proof.
  split; intros; [apply of_int_0|apply of_int_1|apply of_int_add|apply of_int_sub
    |apply of_int_mul|apply of_int_opp|]. f_equal. by apply Z.eqb_eq.
Qed.

(** The inverse, or zero for zero. *)
Definition sc_inv x : Scalar := default ZERO (invert x).
Definition sc_div x y : Scalar := (x * sc_inv y)%S.

Lemma one_nonzero : ONE ≠ ZERO.
Proof. intros E%(f_equal repr). unfold repr in E. by rewrite one_repr, zero_repr in E. Qed.

Lemma sc_inv_l x : x ≠ ZERO → (sc_inv x * x)%S = ONE.
Proof. intros (y & E & Hy)%invert_mul. unfold sc_inv. by rewrite E. Qed.

Lemma sc_inv_0 : sc_inv ZERO = ZERO.
Proof. unfold sc_inv. by rewrite invert_zero. Qed.

Lemma scalar_field_theory :
  field_theory ZERO ONE sc_add sc_mul sc_sub sc_neg sc_div sc_inv eq.
Proof.
  split; [apply scalar_ring_theory|apply one_nonzero|done|apply sc_inv_l].
Qed.
End Field.

Infix "/" := sc_div : scalar_scope.

(** The constants that [ring] and [field] compute with. *)
Ltac scalar_const t :=
  lazymatch t with
  | of_int ?n => lazymatch isZcst n with true => n | _ => constr:(NotConstant) end
  | _ => constr:(NotConstant)
  end.

#[export] Instance scalar_eq_dec `{ScalarField} : EqDecision Scalar := λ x y,
  match decide (to_repr x = to_repr y) with
  | left E => left (to_repr_inj x y E)
  | right N => right (λ E, N (f_equal to_repr E))
  end.

Section FieldFacts.
Context `{ScalarField}.
Implicit Types x y z : Scalar.
Add Field scalar_field : scalar_field_theory (morphism of_int_morph, constants [scalar_const]).

Lemma sc_mul_0 x y : (x * y)%S = ZERO → x = ZERO ∨ y = ZERO.
Proof.
  intros E. destruct (decide (x = ZERO)) as [|N]; [by left|right].
  transitivity (sc_inv x * x * y)%S; [rewrite sc_inv_l by done; ring|].
  transitivity (sc_inv x * (x * y))%S; [ring|]. rewrite E. ring.
Qed.

Lemma sc_mul_nonzero x y : x ≠ ZERO → y ≠ ZERO → (x * y)%S ≠ ZERO.
Proof. intros ?? [?|?]%sc_mul_0; done. Qed.

Lemma sc_mul_cancel x y z : x ≠ ZERO → (x * y)%S = (x * z)%S → y = z.
Proof.
  intros N E. transitivity (sc_inv x * (x * y))%S; [|rewrite E].
  - transitivity (sc_inv x * x * y)%S; [rewrite sc_inv_l by done|]; ring.
  - transitivity (sc_inv x * x * z)%S; [|rewrite sc_inv_l by done]; ring.
Qed.

Lemma sc_sub_0 x y : (x - y)%S = ZERO ↔ x = y.
Proof.
  split; [|intros ->; ring]. intros E. transitivity (x - y + y)%S; [ring|]. rewrite E. ring.
Qed.

Lemma sc_inv_unique x y : (x * y)%S = ONE → y = sc_inv x.
Proof.
  intros E. assert (x ≠ ZERO) as N.
  { intros ->. apply one_nonzero. rewrite <-E. ring. }
  apply (sc_mul_cancel x); [done|]. rewrite E. symmetry. rewrite <-(sc_inv_l x N). ring.
Qed.

Lemma sc_inv_nonzero x : x ≠ ZERO → sc_inv x ≠ ZERO.
Proof.
  intros N E. apply one_nonzero. rewrite <-(sc_inv_l x N), E. ring.
Qed.

Lemma of_int_nonzero n : 0 < n < p → of_int n ≠ ZERO.
Proof. rewrite <-of_int_0. intros ? E%of_int_inj; lia. Qed.

Lemma of_bool_inj b b' : of_bool b = of_bool b' → b = b'.
Proof.
  destruct b, b'; simpl; intros E; [done| | |done]; destruct one_nonzero; done.
Qed.
End FieldFacts.
