(* ===== verification/Primes.v ===== *)
(** The prime of the field and the order of the P-256 group are prime, by
    Pocklington's criterion with certificates for the prime factors, down to
    numbers small enough for trial division. *)
From Stdlib Require Import ZArith Lia Znumtheory Zpow_facts Zmod Strings.Byte.
From stdpp Require Import base list numbers option.
From S2P Require Import Prelude Bytes Field.
Local Open Scope Z_scope.

(** * Pocklington's criterion *)

Lemma prime_divisor n : 1 < n → ∃ r, Z.prime r ∧ (r | n).
Proof.
  intros Hn. induction n as [n IH] using (well_founded_induction (Z.lt_wf 1)).
  destruct (prime_dec n) as [P%prime_alt|P]; [by exists n|].
  destruct (not_prime_divide n Hn P) as (d & Hd & D).
  destruct (IH d) as (r & Pr & R); [lia..|]. exists r. split; [done|by transitivity d].
Qed.

(** A number without a prime divisor up to its square root is prime. *)
Lemma prime_by_divisors n :
  1 < n → (∀ r, Z.prime r → (r | n) → r * r ≤ n → False) → Z.prime n.
Proof.
  intros Hn Hr. split; [done|]. intros d Hd [e E].
  assert (1 < e) by nia.
  destruct (Z.le_gt_cases (d * d) n) as [L|L].
  - destruct (prime_divisor d) as (r & Pr & R); [lia|].
    apply (Hr r Pr); [transitivity d; [done|by exists e]|].
    apply Z.divide_pos_le in R; [|lia]. pose proof (Z.prime_ge_2 r Pr). nia.
  - destruct (prime_divisor e) as (r & Pr & R); [lia|].
    apply (Hr r Pr); [transitivity e; [done|by exists d; lia]|].
    apply Z.divide_pos_le in R; [|lia]. pose proof (Z.prime_ge_2 r Pr). assert (e < d) by nia. nia.
Qed.

(** [q] divides [r - 1] for every prime divisor [r] of [n]. *)
Lemma pocklington_divides n q a r :
  Z.prime q → (q | n - 1) → 1 < n →
  a ^ (n - 1) mod n = 1 → Z.gcd (a ^ ((n - 1) / q) - 1) n = 1 →
  Z.prime r → (r | n) → (q | r - 1).
Proof.
  intros Pq [k Hk] Hn Hf Hg Pr Hr. pose proof (Z.prime_ge_2 q Pq). pose proof (Z.prime_ge_2 r Pr).
  rewrite Hk, Z.div_mul in Hg by lia. set (b := a ^ k) in *.
  assert (Hb : b ^ q mod r = 1).
  { unfold b. rewrite <-Z.pow_mul_r, <-Hk by nia.
    assert ((n | a ^ (n - 1) - 1)) as D by (apply Z.mod_divide; [lia|];
      by rewrite Zminus_mod, Hf, (Z.mod_small 1), Z.sub_diag by lia).
    apply (Z.divide_trans _ _ _ Hr) in D. destruct D as [c D].
    replace (a ^ (n - 1)) with (1 + c * r) by lia.
    rewrite Z_mod_plus_full. apply Z.mod_small. lia. }
  destruct (Z.eq_dec ((r - 1) mod q) 0) as [E|N'].
  { apply Z.mod_divide; [lia|done]. }
  exfalso. assert (¬ (q | r - 1)) as N by (by intros D; apply N', Z.mod_divide; [lia|]).
  assert (Z.coprime q (r - 1)) as Cq by (by apply Z.coprime_prime_l).
  apply Z.Bezout_coprime in Cq. destruct Cq as (u & v & B).
  assert (b mod r ≠ 0) as Nb.
  { intros E. rewrite <-Z.mod_pow_l, E, Z.pow_0_l, Z.mod_0_l in Hb by lia. done. }
  assert (Hr1 : b ^ (r - 1) mod r = 1).
  { pose proof (Z.fermat r b Pr) as F.
    assert ((r | b * (b ^ (r - 1) - 1))) as D.
    { apply Z.mod_divide; [lia|]. rewrite Z.mul_sub_distr_l, Z.mul_1_r.
      rewrite <-Z.pow_succ_r by lia. replace (Z.succ (r - 1)) with r by lia.
      rewrite Zminus_mod, F, Z.sub_diag. done. }
    apply Z.divide_prime_mul in D; [|done]. destruct D as [D|[c D]].
    - apply Z.mod_divide in D; [done|lia].
    - replace (b ^ (r - 1)) with (1 + c * r) by lia.
      rewrite Z_mod_plus_full. apply Z.mod_small. lia. }
  assert (∀ x k, b ^ x mod r = 1 → 0 ≤ x → 0 ≤ k → b ^ (x * k) mod r = 1) as Hpow.
  { intros x j E Hx Hj. rewrite Z.pow_mul_r, <-Z.mod_pow_l, E, Z.pow_1_l by lia.
    apply Z.mod_small. lia. }
  assert (b mod r = 1) as Hb1.
  { destruct (Z.le_gt_cases v 0) as [Hv|Hv].
    - pose proof (Hpow q u Hb ltac:(lia) ltac:(nia)) as E.
      replace (q * u) with (1 + (r - 1) * - v) in E by nia.
      rewrite Z.pow_add_r, Z.pow_1_r, Zmult_mod, Hpow, Z.mul_1_r, Zmod_mod in E by (done || nia).
      done.
    - pose proof (Hpow (r - 1) v Hr1 ltac:(lia) ltac:(lia)) as E.
      replace ((r - 1) * v) with (1 + q * - u) in E by nia.
      rewrite Z.pow_add_r, Z.pow_1_r, Zmult_mod, Hpow, Z.mul_1_r, Zmod_mod in E by (done || nia).
      done. }
  assert (r | 1) as D1.
  { rewrite <-Hg. apply Z.gcd_greatest; [|done]. apply Z.mod_divide; [lia|].
    by rewrite Zminus_mod, Hb1, (Z.mod_small 1), Z.sub_diag by lia. }
  apply Z.divide_pos_le in D1; lia.
Qed.

(** The criterion: witnesses [a] for prime factors [q] of [n - 1] whose
    product exceeds the square root of [n]. *)
Definition pocklington_step (n : Z) (qa : Z * Z) : bool :=
  let '(q, a) := qa in
  ((n - 1) mod q =? 0) && (Zpow_mod a (n - 1) n =? 1)
  && (Z.gcd (Zpow_mod a ((n - 1) / q) n - 1) n =? 1).

Lemma pocklington_step_divides n q a r :
  Z.prime q → 1 < n → pocklington_step n (q, a) = true →
  Z.prime r → (r | n) → (q | r - 1).
Proof.
  intros Pq Hn Hs. pose proof (Z.prime_ge_2 q Pq) as Hq. simpl in Hs.
  apply andb_prop in Hs as [[Hd Hf]%andb_prop Hg].
  apply Z.eqb_eq in Hd, Hf, Hg. rewrite Zpow_mod_correct in Hf, Hg by lia.
  apply pocklington_divides with a; [done|by apply Z.mod_divide; [lia|]|done|done|].
  revert Hg. set (m := a ^ ((n - 1) / q)).
  assert (∀ x, Z.gcd x n = Z.gcd (x mod n) n) as Hgcd.
  { intros x. by rewrite Z.gcd_mod, Z.gcd_comm by lia. }
  by rewrite (Hgcd (m mod n - 1)), Zminus_mod_idemp_l, <-Hgcd.
Qed.

Definition product (qs : list Z) : Z := foldr Z.mul 1 qs.

Lemma product_pos qs : Forall Z.prime qs → 0 < product qs.
Proof.
  induction 1 as [|q qs Pq _ IH]; simpl; [lia|]. pose proof (Z.prime_ge_2 q Pq). nia.
Qed.

Lemma coprime_product q qs :
  Z.prime q → Forall Z.prime qs → q ∉ qs → Z.coprime q (product qs).
Proof.
  intros Pq Pqs. induction Pqs as [|q' qs Pq' Pqs IH]; intros N; [apply Z.coprime_1_r|].
  apply not_elem_of_cons in N as [N1 N2]. simpl. apply Z.coprime_mul_r; [|by apply IH].
  apply Z.coprime_prime_l; [done|]. intros D. by apply N1, Z.divide_prime_prime.
Qed.

Lemma product_divides qs m :
  Forall Z.prime qs → NoDup qs → Forall (λ q, (q | m)) qs → (product qs | m).
Proof.
  intros Pqs Nd. revert m. induction Nd as [|q qs Nq Nd IH]; intros m Ds; [by apply Z.divide_1_l|].
  apply list.Forall_cons_1 in Pqs as [Pq Pqs]. apply list.Forall_cons_1 in Ds as [[k ->] Ds].
  simpl. rewrite (Z.mul_comm k). apply Z.mul_divide_mono_l, IH; [done|].
  apply list.Forall_forall. intros q' Hq'. rewrite list.Forall_forall in Ds, Pqs.
  assert (Z.prime q') as Pq' by by apply Pqs.
  destruct (proj1 (Z.divide_prime_mul k q q' Pq') (Ds q' Hq')) as [D|D]; [done|].
  pose proof (Z.divide_prime_prime q' q Pq' Pq D) as ->. done.
Qed.

Lemma pocklington n (qas : list (Z * Z)) :
  Forall Z.prime qas.*1 → bool_decide (NoDup qas.*1) = true → (1 <? n) = true →
  forallb (pocklington_step n) qas = true →
  (n <? product qas.*1 * product qas.*1) = true → Z.prime n.
Proof.
  intros Pqs Nd%bool_decide_eq_true Hn%Z.ltb_lt Hs Hsize%Z.ltb_lt.
  apply prime_by_divisors; [done|]. intros r Pr Hr Hle. pose proof (Z.prime_ge_2 r Pr).
  assert (product qas.*1 | r - 1) as D.
  { apply product_divides; [done..|]. rewrite list.Forall_forall in Pqs.
    apply Forall_fmap, list.Forall_forall. intros [q a] Hq. simpl.
    apply pocklington_step_divides with n a; [|done| |done..].
    - apply Pqs, list_elem_of_fmap. by exists (q, a).
    - rewrite forallb_forall in Hs. apply Hs. by apply list_elem_of_In. }
  pose proof (product_pos _ Pqs). apply Z.divide_pos_le in D; nia.
Qed.

(** Trial division for the small factors. *)
Definition no_divisor (n : Z) (k : nat) : bool :=
  forallb (λ d, negb (n mod Z.of_nat d =? 0)) (seq 2 k).

Lemma prime_by_trial n k :
  no_divisor n k = true → (1 <? n) = true → (n <? (Z.of_nat k + 2) * (Z.of_nat k + 2)) = true →
  Z.prime n.
Proof.
  intros Hd Hn%Z.ltb_lt Hk%Z.ltb_lt. apply prime_by_divisors; [done|].
  intros r Pr Hr Hle. pose proof (Z.prime_ge_2 r Pr).
  unfold no_divisor in Hd. rewrite forallb_forall in Hd.
  specialize (Hd (Z.to_nat r)). rewrite in_seq, Z2Nat.id in Hd by lia.
  apply Z.mod_divide in Hr; [|lia]. rewrite Hr in Hd. discriminate Hd. nia.
Qed.

(** ** The certificates *)

Lemma prime_704251 : Z.prime 704251.
Proof. by apply (prime_by_trial _ 840); vm_compute. Qed.
Lemma prime_78283 : Z.prime 78283.
Proof. by apply (prime_by_trial _ 280); vm_compute. Qed.
Lemma prime_3769 : Z.prime 3769.
Proof. by apply (prime_by_trial _ 60); vm_compute. Qed.
Lemma prime_107 : Z.prime 107.
Proof. by apply (prime_by_trial _ 9); vm_compute. Qed.
Lemma prime_204061199 : Z.prime 204061199.
Proof.
  apply (pocklington _ [(3769, 2); (107, 2)]); [|by vm_compute..].
  apply list.Forall_cons; split; [apply prime_3769|].
  apply list.Forall_cons; split; [apply prime_107|done].
Qed.
Lemma prime_34282281433 : Z.prime 34282281433.
Proof.
  apply (pocklington _ [(204061199, 2)]); [|by vm_compute..].
  repeat constructor; apply prime_204061199.
Qed.
Lemma prime_46076956964474543 : Z.prime 46076956964474543.
Proof.
  apply (pocklington _ [(704251, 2); (78283, 2)]); [|by vm_compute..].
  apply list.Forall_cons; split; [apply prime_704251|].
  apply list.Forall_cons; split; [apply prime_78283|done].
Qed.
Lemma prime_150 : Z.prime 774023187263532362759620327192479577272145303.
Proof.
  apply (pocklington _ [(46076956964474543, 2); (34282281433, 2)]); [|by vm_compute..].
  apply list.Forall_cons; split; [apply prime_46076956964474543|].
  apply list.Forall_cons; split; [apply prime_34282281433|done].
Qed.
Lemma prime_160 : Z.prime 835945042244614951780389953367877943453916927241.
Proof.
  apply (pocklington _ [(774023187263532362759620327192479577272145303, 2)]); [|by vm_compute..].
  apply list.Forall_cons; split; [apply prime_150|done].
Qed.
Lemma prime_p : Z.prime p.
Proof.
  apply (pocklington _ [(835945042244614951780389953367877943453916927241, 2)]); [|by vm_compute..].
  apply list.Forall_cons; split; [apply prime_160|done].
Qed.

(** The order of the group. *)
Lemma prime_155317 : Z.prime 155317.
Proof. by apply (prime_by_trial _ 394); vm_compute. Qed.
Lemma prime_3023 : Z.prime 3023.
Proof. by apply (prime_by_trial _ 54); vm_compute. Qed.
Lemma prime_104471 : Z.prime 104471.
Proof. by apply (prime_by_trial _ 323); vm_compute. Qed.
Lemma prime_3969899 : Z.prime 3969899.
Proof.
  apply (pocklington _ [(104471, 2)]); [|by vm_compute..].
  apply list.Forall_cons; split; [apply prime_104471|done].
Qed.
Lemma prime_1002328039319 : Z.prime 1002328039319.
Proof.
  apply (pocklington _ [(3969899, 2)]); [|by vm_compute..].
  apply list.Forall_cons; split; [apply prime_3969899|done].
Qed.
Lemma prime_191039911 : Z.prime 191039911.
Proof.
  apply (pocklington _ [(155317, 2)]); [|by vm_compute..].
  apply list.Forall_cons; split; [apply prime_155317|done].
Qed.
Lemma prime_208150935158385979 : Z.prime 208150935158385979.
Proof.
  apply (pocklington _ [(191039911, 2); (3023, 2)]); [|by vm_compute..].
  apply list.Forall_cons; split; [apply prime_191039911|].
  apply list.Forall_cons; split; [apply prime_3023|done].
Qed.
Lemma prime_91 : Z.prime 2624747550333869278416773953.
Proof.
  apply (pocklington _ [(208150935158385979, 2)]); [|by vm_compute..].
  apply list.Forall_cons; split; [apply prime_208150935158385979|done].
Qed.
Lemma prime_order :
  Z.prime 115792089210356248762697446949407573529996955224135760342422259061068512044369.
Proof.
  apply (pocklington _ [(2624747550333869278416773953, 2); (1002328039319, 2)]); [|by vm_compute..].
  apply list.Forall_cons; split; [apply prime_91|].
  apply list.Forall_cons; split; [apply prime_1002328039319|done].
Qed.
