(* ===== verification/FieldInstance.v ===== *)
(** A concrete scalar field: the integers modulo [p].  It shows that the
    behaviour assumed of the prover's field can hold, and the witnesses of the
    development compute in it. *)
From Stdlib Require Import ZArith Lia Znumtheory Zmod Strings.Byte.
From stdpp Require Import base list numbers option.
From S2P Require Import Prelude Bytes Field Primes.
Local Open Scope Z_scope.

(** * The instance *)

Definition zp_to_repr (x : Zmod p) : list byte := le_bytes 32 (Zmod.unsigned x).
Definition zp_invert (x : Zmod p) : option (Zmod p) :=
  if Zmod.eqb x Zmod.zero then None else Some (Zmod.inv x).

Lemma zp_repr (x : Zmod p) : le_int (zp_to_repr x) = Zmod.unsigned x.
Proof.
  unfold zp_to_repr, le_int, le_bytes. rewrite reverse_involutive, be_int_be_bytes.
  apply Z.mod_small. pose proof (Zmod.unsigned_pos_bound x p_pos).
  split; [lia|]. apply Z.lt_trans with p; [lia|done].
Qed.

#[export, refine] Instance zp_field : ScalarField := {|
  Scalar := Zmod p;
  ZERO := Zmod.zero;
  ONE := Zmod.one;
  sc_add := Zmod.add;
  sc_sub := Zmod.sub;
  sc_mul := Zmod.mul;
  sc_neg := Zmod.opp;
  double x := Zmod.add x x;
  square x := Zmod.mul x x;
  is_zero x := Zmod.eqb x Zmod.zero;
  invert := zp_invert;
  from_u64 n := Zmod.of_Z p n;
  to_repr := zp_to_repr;
  from_uniform_bytes bs := Zmod.of_Z p (le_int bs);
|}.
Proof.
  all: intros; rewrite ?zp_repr; try done; try rename select (zp_to_repr _ = _) into E.
  - apply Zmod.unsigned_inj. by rewrite <-!zp_repr, E.
  - apply (Zmod.unsigned_pos_bound x p_pos).
  - apply Zmod.unsigned_add.
  - apply Zmod.unsigned_sub.
  - apply Zmod.unsigned_mul.
  - apply Zmod.unsigned_opp.
  - apply Zmod.unsigned_of_Z.
  - apply Zmod.unsigned_of_Z.
  - apply Zmod.eqb_eq.
  - unfold zp_invert. destruct (Zmod.eqb x Zmod.zero) eqn:E.
    + by apply Zmod.eqb_eq in E.
    + exists (Zmod.inv x). split; [done|]. by apply Zmod.mul_inv_same_l_prime; [apply prime_p|].
Defined.
