(* ===== verification/ConstraintSystem.v ===== *)
(** Constraint systems: how a circuit allocates slots and adds rules.

    Every circuit of the sources is generic in the constraint system [CS] of
    [bellpepper_core], so a circuit is a value of the free monad [Synth] over
    the trait's methods.  Two interpretations give it a meaning:
    - [Check.run], the constraint system [Check] of [app.rs], which records the
      values and the first broken rule;
    - [shape], the slots and the rules every constraint system other than a
      witness generator builds; [wp] is its predicate transformer, for any
      assignment of the slots, a dishonest prover's included.

    Weighted sums are [bellpepper_core]'s code: the class [LinearCombinations]
    states what the sources use of them. *)
From Stdlib Require Import ZArith Lia Strings.String.
From Stdlib Require Import Field_tac Ring.
From stdpp Require Import base list numbers option strings.
From S2P Require Import Prelude Bytes Field.

(** [bellpepper_core::Index]: an input (a public value, the first of which is
    the constant one) or an auxiliary slot. *)
Inductive Index :=
  | Input (i : nat)
  | Aux (i : nat).
(** [bellpepper_core::Variable], a wrapper of its index. *)
Definition Var : Set := Index.

#[export] Instance Index_eq_dec : EqDecision Index.
Proof. solve_decision. Defined.

(** The cases of [bellpepper_core::SynthesisError] the sources use. *)
Inductive SynthesisError :=
  | AssignmentMissing
  | Unsatisfiable.

(** [bellpepper_core::LinearCombination]: the operations the sources call,
    and what the terms of their results are. *)
Class LinearCombinations `{ScalarField} := {
  LinearCombination : Type;
  lc_zero : LinearCombination;
  lc_from_variable : Var → LinearCombination;
  (** [lc + var], [lc - var], [lc + (c, var)], [lc - (c, var)], [lc + &lc],
      [lc - &lc], [lc + (c, &lc)], [lc - (c, &lc)]. *)
  lc_add_var : LinearCombination → Var → LinearCombination;
  lc_sub_var : LinearCombination → Var → LinearCombination;
  lc_add_term : LinearCombination → Scalar * Var → LinearCombination;
  lc_sub_term : LinearCombination → Scalar * Var → LinearCombination;
  lc_add : LinearCombination → LinearCombination → LinearCombination;
  lc_sub : LinearCombination → LinearCombination → LinearCombination;
  lc_add_scaled : LinearCombination → Scalar * LinearCombination → LinearCombination;
  lc_sub_scaled : LinearCombination → Scalar * LinearCombination → LinearCombination;
  (** [lc.iter()]: the variables and their coefficients. *)
  lc_iter : LinearCombination → list (Var * Scalar);

  lc_eval_terms (σ : Var → Scalar) (ts : list (Var * Scalar)) : Scalar :=
    foldl (λ sum '(v, c), sum + c * σ v)%S ZERO ts;
  lc_zero_eval σ : lc_eval_terms σ (lc_iter lc_zero) = ZERO;
  lc_from_variable_eval σ v : lc_eval_terms σ (lc_iter (lc_from_variable v)) = σ v;
  lc_add_var_eval σ a v :
    lc_eval_terms σ (lc_iter (lc_add_var a v)) = (lc_eval_terms σ (lc_iter a) + σ v)%S;
  lc_sub_var_eval σ a v :
    lc_eval_terms σ (lc_iter (lc_sub_var a v)) = (lc_eval_terms σ (lc_iter a) - σ v)%S;
  lc_add_term_eval σ a c v :
    lc_eval_terms σ (lc_iter (lc_add_term a (c, v))) = (lc_eval_terms σ (lc_iter a) + c * σ v)%S;
  lc_sub_term_eval σ a c v :
    lc_eval_terms σ (lc_iter (lc_sub_term a (c, v))) = (lc_eval_terms σ (lc_iter a) - c * σ v)%S;
  lc_add_eval σ a b :
    lc_eval_terms σ (lc_iter (lc_add a b))
    = (lc_eval_terms σ (lc_iter a) + lc_eval_terms σ (lc_iter b))%S;
  lc_sub_eval σ a b :
    lc_eval_terms σ (lc_iter (lc_sub a b))
    = (lc_eval_terms σ (lc_iter a) - lc_eval_terms σ (lc_iter b))%S;
  lc_add_scaled_eval σ a c b :
    lc_eval_terms σ (lc_iter (lc_add_scaled a (c, b)))
    = (lc_eval_terms σ (lc_iter a) + c * lc_eval_terms σ (lc_iter b))%S;
  lc_sub_scaled_eval σ a c b :
    lc_eval_terms σ (lc_iter (lc_sub_scaled a (c, b)))
    = (lc_eval_terms σ (lc_iter a) - c * lc_eval_terms σ (lc_iter b))%S;
  (** No operation invents a variable. *)
  lc_zero_vars : lc_iter lc_zero = [];
  lc_from_variable_vars w v : v ∈ (lc_iter (lc_from_variable w)).*1 → v = w;
  lc_add_var_vars a w v : v ∈ (lc_iter (lc_add_var a w)).*1 → v ∈ (lc_iter a).*1 ∨ v = w;
  lc_sub_var_vars a w v : v ∈ (lc_iter (lc_sub_var a w)).*1 → v ∈ (lc_iter a).*1 ∨ v = w;
  lc_add_term_vars a c w v : v ∈ (lc_iter (lc_add_term a (c, w))).*1 → v ∈ (lc_iter a).*1 ∨ v = w;
  lc_sub_term_vars a c w v : v ∈ (lc_iter (lc_sub_term a (c, w))).*1 → v ∈ (lc_iter a).*1 ∨ v = w;
  lc_add_vars a b v : v ∈ (lc_iter (lc_add a b)).*1 → v ∈ (lc_iter a).*1 ∨ v ∈ (lc_iter b).*1;
  lc_sub_vars a b v : v ∈ (lc_iter (lc_sub a b)).*1 → v ∈ (lc_iter a).*1 ∨ v ∈ (lc_iter b).*1;
  lc_add_scaled_vars a c b v :
    v ∈ (lc_iter (lc_add_scaled a (c, b))).*1 → v ∈ (lc_iter a).*1 ∨ v ∈ (lc_iter b).*1;
  lc_sub_scaled_vars a c b v :
    v ∈ (lc_iter (lc_sub_scaled a (c, b))).*1 → v ∈ (lc_iter a).*1 ∨ v ∈ (lc_iter b).*1;
}.

(** The value of a weighted sum under an assignment of the variables. *)
Definition eval `{LinearCombinations} (σ : Var → Scalar) (lc : LinearCombination) : Scalar :=
  lc_eval_terms σ (lc_iter lc).

(** * Circuits *)

(** A circuit that returns an [A]: a call of a method of the constraint
    system and what follows it. [Panic'] is a failed assertion. *)
Inductive Synth `{LinearCombinations} (A : Type) : Type :=
  | Return (a : A)
  | Fail' (e : SynthesisError)
  | Panic' (what : string)
  | Alloc (name : string) (value : outcome SynthesisError Scalar) (k : Var → Synth A)
  | AllocInput (name : string) (value : outcome SynthesisError Scalar) (k : Var → Synth A)
  | Enforce (name : string) (a b c : LinearCombination) (k : Synth A)
  | PushNamespace (name : string) (k : Synth A)
  | PopNamespace (k : Synth A)
  | IsWitnessGenerator (k : bool → Synth A)
  | ExtendAux (values : list Scalar) (k : Synth A)
  | ExtendInputs (values : list Scalar) (k : Synth A).
Arguments Return {_ _ A} a.
Arguments Fail' {_ _ A} e.
Arguments Panic' {_ _ A} what.
Arguments Alloc {_ _ A} name value k.
Arguments AllocInput {_ _ A} name value k.
Arguments Enforce {_ _ A} name a b c k.
Arguments PushNamespace {_ _ A} name k.
Arguments PopNamespace {_ _ A} k.
Arguments IsWitnessGenerator {_ _ A} k.
Arguments ExtendAux {_ _ A} values k.
Arguments ExtendInputs {_ _ A} values k.

Fixpoint synth_bind `{LinearCombinations} {A B} (f : A → Synth B) (m : Synth A) : Synth B :=
  match m with
  | Return a => f a
  | Fail' e => Fail' e
  | Panic' w => Panic' w
  | Alloc n v k => Alloc n v (λ x, synth_bind f (k x))
  | AllocInput n v k => AllocInput n v (λ x, synth_bind f (k x))
  | Enforce n a b c k => Enforce n a b c (synth_bind f k)
  | PushNamespace n k => PushNamespace n (synth_bind f k)
  | PopNamespace k => PopNamespace (synth_bind f k)
  | IsWitnessGenerator k => IsWitnessGenerator (λ b, synth_bind f (k b))
  | ExtendAux vs k => ExtendAux vs (synth_bind f k)
  | ExtendInputs vs k => ExtendInputs vs (synth_bind f k)
  end.

#[export] Instance synth_mret `{LinearCombinations} : MRet Synth := @Return _ _.
#[export] Instance synth_mbind `{LinearCombinations} : MBind Synth := @synth_bind _ _.

(** The trait's methods, and the sources' [assert!] and [?]. *)
Section Methods.
Context `{LinearCombinations}.

Definition alloc (name : string) (value : outcome SynthesisError Scalar) : Synth Var :=
  Alloc name value Return.
Definition alloc_input (name : string) (value : outcome SynthesisError Scalar) : Synth Var :=
  AllocInput name value Return.
Definition enforce (name : string) (a b c : LinearCombination) : Synth unit :=
  Enforce name a b c (Return tt).
(** [cs.namespace(|| name)]: the namespace is open while [m] runs. *)
Definition ns {A} (name : string) (m : Synth A) : Synth A :=
  PushNamespace name (a ← m; PopNamespace (Return a)).
Definition is_witness_generator : Synth bool := IsWitnessGenerator Return.
Definition extend_aux (values : list Scalar) : Synth unit := ExtendAux values (Return tt).
Definition extend_inputs (values : list Scalar) : Synth unit := ExtendInputs values (Return tt).

(** [assert!(b)]. *)
Definition assert (b : bool) (what : string) : Synth unit :=
  if b then Return tt else Panic' what.
(** The error path of [?] on a [Result]. *)
Definition lift {A} (m : outcome SynthesisError A) : Synth A :=
  match m with Ok a => Return a | Err e => Fail' e | Panic w => Panic' w end.
End Methods.
