(* ===== verification/Shape.v ===== *)
(** The rules of a circuit, and what they force.

    [shape] lists the rules a circuit adds, with the result it computes while
    the prover's setup builds its shape; slots are numbered in the order of
    their allocation and no value is looked at.  [wp] is the weakest
    precondition of the rules for one assignment of the slots: whoever chose
    the values, if they satisfy the rules, the postcondition holds
    ([wp_shape]).  [gadget] is the form the rule libraries state their
    specifications in. *)
From Stdlib Require Import ZArith Lia Strings.String.
From Stdlib Require Import Field_tac Ring.
From stdpp Require Import base list numbers option strings.
From S2P Require Import Prelude Bytes Field ConstraintSystem.

(** A rule: the product of two weighted sums equals a third one. *)
Record Rule `{LinearCombinations} := {
  rule_a : LinearCombination;
  rule_b : LinearCombination;
  rule_c : LinearCombination;
}.

(** An assignment of every slot; the first input is the constant one. *)
Record Assignment `{ScalarField} := {
  assign :> Var → Scalar;
  assign_one : assign (Input 0) = ONE;
}.

Section Shape.
Context `{LinearCombinations}.

Definition holds (σ : Var → Scalar) (r : Rule) : Prop :=
  (eval σ (rule_a r) * eval σ (rule_b r))%S = eval σ (rule_c r).

(** The rules in their order, the result, and the slots allocated after. *)
Fixpoint shape {A} (m : Synth A) (na ni : nat)
  : list Rule * outcome SynthesisError A * (nat * nat) :=
  match m with
  | Return a => ([], Ok a, (na, ni))
  | Fail' e => ([], Err e, (na, ni))
  | Panic' w => ([], Panic w, (na, ni))
  | Alloc _ _ k => shape (k (Aux na)) (S na) ni
  | AllocInput _ _ k => shape (k (Input ni)) na (S ni)
  | Enforce _ a b c k =>
  let '(rs, r, n) := shape k na ni in
  ({| rule_a := a; rule_b := b; rule_c := c |} :: rs, r, n)
  | PushNamespace _ k | PopNamespace k => shape k na ni
  | IsWitnessGenerator k => shape (k false) na ni
  | ExtendAux _ _ | ExtendInputs _ _ => ([], Panic "only for witness generators", (na, ni))
  end.

Definition satisfies (σ : Var → Scalar) {A} (m : Synth A) (na ni : nat) : Prop :=
  Forall (holds σ) (shape m na ni).1.1.

Fixpoint wp (σ : Var → Scalar) {A} (m : Synth A) (na ni : nat)
  (Q : A → nat → nat → Prop) : Prop :=
  match m with
  | Return a => Q a na ni
  | Fail' _ | Panic' _ | ExtendAux _ _ | ExtendInputs _ _ => False
  | Alloc _ _ k => wp σ (k (Aux na)) (S na) ni Q
  | AllocInput _ _ k => wp σ (k (Input ni)) na (S ni) Q
  | Enforce _ a b c k => (eval σ a * eval σ b)%S = eval σ c → wp σ k na ni Q
  | PushNamespace _ k | PopNamespace k => wp σ k na ni Q
  | IsWitnessGenerator k => wp σ (k false) na ni Q
  end.

(** The predicate transformer is exact: it holds when satisfying the rules
    implies that the circuit returns a result with the postcondition. *)
Lemma wp_shape σ {A} (m : Synth A) na ni Q :
  wp σ m na ni Q ↔
  (satisfies σ m na ni →
  ∃ a, (shape m na ni).1.2 = Ok a ∧ Q a (shape m na ni).2.1 (shape m na ni).2.2).
Proof.
  unfold satisfies. revert na ni.
  induction m as [a|e|w|n v k IH|n v k IH|n a b c k IH|n k IH|k IH|k IH|vs k IH|vs k IH];
    intros na ni; simpl; auto.
  - split; [eauto|]. intros Hr. destruct Hr as (a' & [= ->] & ?); done.
  - split; [done|]. intros Hr. by destruct Hr as (? & ? & ?).
  - split; [done|]. intros Hr. by destruct Hr as (? & ? & ?).
  - rewrite IH. destruct (shape k na ni) as [[rs r] n']; simpl.
    split; intros Hr.
    + intros [H1 H2]%list.Forall_cons_1. by apply Hr.
    + intros H1 H2. apply Hr. by constructor.
  - split; [done|]. intros Hr. by destruct Hr as (? & ? & ?).
  - split; [done|]. intros Hr. by destruct Hr as (? & ? & ?).
Qed.

Lemma wp_mono σ {A} (m : Synth A) na ni (Q Q' : A → nat → nat → Prop) :
  wp σ m na ni Q → (∀ a na' ni', Q a na' ni' → Q' a na' ni') → wp σ m na ni Q'.
Proof.
  intros Hm HQ. revert na ni Hm.
  induction m; intros na ni Hm; simpl in *; eauto.
Qed.

Lemma wp_bind σ {A B} (m : Synth A) (f : A → Synth B) na ni Q :
  wp σ (m ≫= f) na ni Q ↔ wp σ m na ni (λ a na' ni', wp σ (f a) na' ni' Q).
Proof.
  change (m ≫= f) with (synth_bind f m). revert na ni.
  induction m as [a|e|w|n v k IH|n v k IH|n a b c k IH|n k IH|k IH|k IH|vs k IH|vs k IH];
    intros na ni; simpl; auto; try done.
  by rewrite IH.
Qed.

Lemma wp_ns σ {A} name (m : Synth A) na ni Q :
  wp σ (ns name m) na ni Q ↔ wp σ m na ni Q.
Proof. unfold ns. cbn [wp]. rewrite wp_bind. done. Qed.

(** * Gadgets

    A gadget adds rules that force [P] of its result, and allocates no
    public value. *)
Definition gadget (σ : Var → Scalar) {A} (m : Synth A) (P : A → Prop) : Prop :=
  ∀ na ni, wp σ m na ni (λ a _ ni', ni' = ni ∧ P a).

Lemma gadget_ret σ {A} (a : A) (P : A → Prop) : P a → gadget σ (mret a) P.
Proof. intros Ha na ni. simpl. done. Qed.

Lemma gadget_bind σ {A B} (m : Synth A) (f : A → Synth B) P Q :
  gadget σ m P → (∀ a, P a → gadget σ (f a) Q) → gadget σ (m ≫= f) Q.
Proof.
  intros Hm Hf na ni. apply wp_bind. eapply wp_mono; [apply Hm|].
  intros a na' ni' [-> Ha]. by apply Hf.
Qed.

Lemma gadget_mono σ {A} (m : Synth A) (P Q : A → Prop) :
  gadget σ m P → (∀ a, P a → Q a) → gadget σ m Q.
Proof.
  intros Hm HPQ na ni. eapply wp_mono; [apply Hm|]. intros a na' ni' [-> Ha]. auto.
Qed.

Lemma gadget_ns σ {A} name (m : Synth A) P : gadget σ m P → gadget σ (ns name m) P.
Proof. intros Hm na ni. by apply wp_ns. Qed.

Lemma gadget_enforce σ name a b c :
  gadget σ (enforce name a b c) (λ _, (eval σ a * eval σ b)%S = eval σ c).
Proof. intros na ni. simpl. done. Qed.

Lemma gadget_alloc σ name v : gadget σ (alloc name v) (λ _, True).
Proof. intros na ni. simpl. done. Qed.

Lemma gadget_is_witness_generator σ : gadget σ is_witness_generator (λ b, b = false).
Proof. intros na ni. simpl. done. Qed.

Lemma gadget_assert σ b what : b = true → gadget σ (assert b what) (λ _, True).
Proof. intros -> na ni. simpl. done. Qed.

Lemma gadget_lift σ {A} (m : outcome SynthesisError A) a : m = Ok a → gadget σ (lift m) (λ x, x = a).
Proof. intros ->. by apply gadget_ret. Qed.

Lemma wp_gadget σ {A} (m : Synth A) P na ni (Q : A → nat → nat → Prop) :
  gadget σ m P → (∀ a na', P a → Q a na' ni) → wp σ m na ni Q.
Proof.
  intros Hm HQ. eapply wp_mono; [apply Hm|]. intros a na' ni' [-> Ha]. auto.
Qed.

(** What the rules of a gadget force, said with its rules. *)
Lemma gadget_satisfies σ {A} (m : Synth A) P na ni :
  gadget σ m P → satisfies σ m na ni → ∃ a, (shape m na ni).1.2 = Ok a ∧ P a.
Proof.
  intros Hm Hs. destruct (proj1 (wp_shape _ _ _ _ _) (Hm na ni) Hs) as (a & E & _ & Ha). eauto.
Qed.

(** Loops: an invariant over the elements done, and the results so far. *)
Lemma gadget_mapM σ {A B} (f : A → Synth B) l (I : list A → list B → Prop) :
  I [] [] →
  (∀ done x ys, done ++ [x] `prefix_of` l → I done ys →
  gadget σ (f x) (λ y, I (done ++ [x]) (ys ++ [y]))) →
  gadget σ (mapM f l) (I l).
Proof.
  intros Hinit Hs.
  assert (∀ todo done ys, l = done ++ todo → I done ys →
    gadget σ (mapM f todo) (λ zs, I l (ys ++ zs))) as Hgen.
  { induction todo as [|x todo IH]; intros done ys Hl HI.
    - apply gadget_ret. rewrite app_nil_r in Hl |- *. by subst.
    - simpl. eapply gadget_bind.
      { apply (Hs done x ys); [|done]. subst. exists todo. by rewrite <-app_assoc. }
      intros y Hy. eapply gadget_bind.
      { apply (IH (done ++ [x]) (ys ++ [y])); [|done]. by rewrite <-app_assoc. }
      intros zs Hzs. apply gadget_ret. by rewrite cons_middle, app_assoc. }
  by apply (Hgen l [] []).
Qed.

Lemma gadget_foldM σ {A B} (f : B → A → Synth B) l b0 (I : list A → B → Prop) :
  I [] b0 →
  (∀ done x b, done ++ [x] `prefix_of` l → I done b → gadget σ (f b x) (I (done ++ [x]))) →
  gadget σ (foldM f b0 l) (I l).
Proof.
  intros Hinit Hs.
  assert (∀ todo done b, l = done ++ todo → I done b → gadget σ (foldM f b todo) (I l)) as Hgen.
  { induction todo as [|x todo IH]; intros done b Hl HI.
    - apply gadget_ret. rewrite app_nil_r in Hl. by subst.
    - simpl. eapply gadget_bind.
      { apply (Hs done x b); [|done]. subst. exists todo. by rewrite <-app_assoc. }
      intros b' Hb'. apply (IH (done ++ [x])); [|done]. by rewrite <-app_assoc. }
  by apply (Hgen l [] b0).
Qed.

(** A loop whose results are related to its elements one by one. *)
Lemma gadget_mapM_Forall2 σ {A B} (f : A → Synth B) l (R : A → B → Prop) :
  (∀ x, x ∈ l → gadget σ (f x) (R x)) → gadget σ (mapM f l) (Forall2 R l).
Proof.
  intros Hf. apply (gadget_mapM σ f l (Forall2 R)); [constructor|].
  intros done x ys [todo ->] HI. eapply gadget_mono; [apply Hf; rewrite !elem_of_app, list_elem_of_singleton; auto|].
  intros y Hy. apply Forall2_app; [done|]. by repeat constructor.
Qed.
End Shape.

#[export] Hint Resolve gadget_enforce gadget_alloc gadget_is_witness_generator : vega.

(** Steps into a bind, closing the first part with a known specification. *)
Tactic Notation "step" constr(spec) "as" simple_intropattern_list(pats) :=
  eapply gadget_bind; [try apply gadget_ns; eapply spec|intros pats].
