(* ===== verification/CheckSystem.v ===== *)
(** The constraint system of [first_broken] ([app.rs]): it records the values
    a circuit allocates, evaluates each rule on them, and keeps the path of
    the first rule they break.

    [emits] is the form in which the rule libraries state what an honest
    prover's synthesis does: it breaks no rule, allocates a given list of
    values, and returns a result with a given property. *)
From Stdlib Require Import ZArith Lia Strings.String.
From Stdlib Require Import Field_tac Ring.
From stdpp Require Import base list numbers option strings.
From S2P Require Import Prelude Bytes Field ConstraintSystem Shape.

(** [struct Check]. *)
Record CheckState `{ScalarField} := {
  cs_aux : list Scalar;
  cs_inputs : list Scalar;
  cs_path : list string;
  cs_broken : option string;
}.

(** [v.join("/")]. *)
Fixpoint join (sep : string) (l : list string) : string :=
  match l with
  | [] => ""
  | [s] => s
  | s :: l' => s +:+ sep +:+ join sep l'
  end%string.

Section CheckSystem.
Context `{LinearCombinations}.

(** [self.inputs[i]] and [self.aux[i]]. *)
Definition cs_lookup (st : CheckState) (v : Var) : option Scalar :=
  match v with Input i => cs_inputs st !! i | Aux i => cs_aux st !! i end.

(** [Check::value]; a variable out of range panics. *)
Definition cs_value (st : CheckState) (lc : LinearCombination) : outcome SynthesisError Scalar :=
  foldM (λ sum '(v, c),
  match cs_lookup st v with
  | Some x => Ok (sum + c * x)%S
  | None => Panic "index out of bounds"
  end) ZERO (lc_iter lc).

Definition cs_alloc (v : outcome SynthesisError Scalar) (st : CheckState)
  : outcome SynthesisError Var * CheckState :=
  match cs_broken st with
  | Some _ => (Err Unsatisfiable, st)
  | None =>
  match v with
  | Ok x => (Ok (Aux (length (cs_aux st))),
  {| cs_aux := cs_aux st ++ [x]; cs_inputs := cs_inputs st;
  cs_path := cs_path st; cs_broken := cs_broken st |})
  | Err e => (Err e, st)
  | Panic w => (Panic w, st)
  end
  end.

Definition cs_alloc_input (v : outcome SynthesisError Scalar) (st : CheckState)
  : outcome SynthesisError Var * CheckState :=
  match cs_broken st with
  | Some _ => (Err Unsatisfiable, st)
  | None =>
  match v with
  | Ok x => (Ok (Input (length (cs_inputs st))),
  {| cs_aux := cs_aux st; cs_inputs := cs_inputs st ++ [x];
  cs_path := cs_path st; cs_broken := cs_broken st |})
  | Err e => (Err e, st)
  | Panic w => (Panic w, st)
  end
  end.

Definition cs_enforce (name : string) (a b c : LinearCombination) (st : CheckState)
  : outcome SynthesisError unit * CheckState :=
  match cs_broken st with
  | Some _ => (Ok tt, st)
  | None =>
  match (va ← cs_value st a; vb ← cs_value st b; vc ← cs_value st c;
  mret (bool_decide (va * vb = vc)%S)) with
  | Ok true => (Ok tt, st)
  | Ok false => (Ok tt,
  {| cs_aux := cs_aux st; cs_inputs := cs_inputs st; cs_path := cs_path st;
  cs_broken := Some (join "/" (cs_path st ++ [name])) |})
  | Err e => (Err e, st)
  | Panic w => (Panic w, st)
  end
  end.

Definition cs_push_namespace (name : string) (st : CheckState) : CheckState :=
  {| cs_aux := cs_aux st; cs_inputs := cs_inputs st;
  cs_path := cs_path st ++ [name]; cs_broken := cs_broken st |}.

(** [Vec::pop]. *)
Definition cs_pop_namespace (st : CheckState) : CheckState :=
  {| cs_aux := cs_aux st; cs_inputs := cs_inputs st;
  cs_path := take (length (cs_path st) - 1) (cs_path st); cs_broken := cs_broken st |}.

(** A circuit run on the system. The trait's default methods say that it is
    not a witness generator, and panic on its values. After an error the
    open namespaces are closed on the way out, which no caller sees. *)
Fixpoint run {A} (m : Synth A) (st : CheckState) : outcome SynthesisError A * CheckState :=
  match m with
  | Return a => (Ok a, st)
  | Fail' e => (Err e, st)
  | Panic' w => (Panic w, st)
  | Alloc _ v k =>
  match cs_alloc v st with
  | (Ok x, st) => run (k x) st
  | (Err e, st) => (Err e, st)
  | (Panic w, st) => (Panic w, st)
  end
  | AllocInput _ v k =>
  match cs_alloc_input v st with
  | (Ok x, st) => run (k x) st
  | (Err e, st) => (Err e, st)
  | (Panic w, st) => (Panic w, st)
  end
  | Enforce name a b c k =>
  match cs_enforce name a b c st with
  | (Ok _, st) => run k st
  | (Err e, st) => (Err e, st)
  | (Panic w, st) => (Panic w, st)
  end
  | PushNamespace name k => run k (cs_push_namespace name st)
  | PopNamespace k => run k (cs_pop_namespace st)
  | IsWitnessGenerator k => run (k false) st
  | ExtendAux _ _ | ExtendInputs _ _ => (Panic "only for witness generators", st)
  end.

Lemma run_bind {A B} (m : Synth A) (f : A → Synth B) st :
  run (m ≫= f) st =
  match run m st with
  | (Ok a, st) => run (f a) st
  | (Err e, st) => (Err e, st)
  | (Panic w, st) => (Panic w, st)
  end.
Proof.
  change (m ≫= f) with (synth_bind f m). revert st.
  induction m as [a|e|w|n v k IH|n v k IH|n a b c k IH|n k IH|k IH|k IH|vs k IH|vs k IH];
    intros st; simpl; auto.
  - destruct (cs_alloc v st) as [[] ?]; auto.
  - destruct (cs_alloc_input v st) as [[] ?]; auto.
  - destruct (cs_enforce n a b c st) as [[] ?]; auto.
Qed.

(** * Honest runs

    While no rule breaks, the path plays no part: what an honest run reads
    and extends is the store of values. *)
Record Store := { s_aux : list Scalar; s_inputs : list Scalar }.

Definition store (st : CheckState) : Store :=
  {| s_aux := cs_aux st; s_inputs := cs_inputs st |}.

(** The store and the state after the private values [vs] are allocated. *)
Definition push (s : Store) (vs : list Scalar) : Store :=
  {| s_aux := s_aux s ++ vs; s_inputs := s_inputs s |}.
Definition cs_push (st : CheckState) (vs : list Scalar) : CheckState :=
  {| cs_aux := cs_aux st ++ vs; cs_inputs := cs_inputs st;
  cs_path := cs_path st; cs_broken := cs_broken st |}.

Definition s_lookup (s : Store) (v : Var) : option Scalar :=
  match v with Input i => s_inputs s !! i | Aux i => s_aux s !! i end.

(** The assignment recorded so far. *)
Definition recorded (s : Store) (v : Var) : Scalar := default ZERO (s_lookup s v).

Lemma recorded_lookup s v x : s_lookup s v = Some x → recorded s v = x.
Proof. unfold recorded. by intros ->. Qed.

(** The variables of a weighted sum have values. *)
Definition within (s : Store) (lc : LinearCombination) : Prop :=
  Forall (λ v, is_Some (s_lookup s v)) (lc_iter lc).*1.

(** A weighted sum of slots that have values, whose value is [x]. *)
Definition valued (s : Store) (lc : LinearCombination) (x : Scalar) : Prop :=
  within s lc ∧ eval (recorded s) lc = x.

(** From the store [s], [m] breaks no rule, allocates the private values
    [vs] and no public one, and returns a result with [P]. *)
Definition emits {A} (m : Synth A) (s : Store) (vs : list Scalar)
  (P : A → Store → Prop) : Prop :=
  ∃ a, P a (push s vs) ∧
  ∀ st, store st = s → cs_broken st = None → run m st = (Ok a, cs_push st vs).

Lemma emits_run {A} (m : Synth A) vs (P : A → Store → Prop) st :
  emits m (store st) vs P → cs_broken st = None →
  ∃ a, run m st = (Ok a, cs_push st vs) ∧ P a (store (cs_push st vs)).
Proof. intros (a & Ha & R) Hb. exists a. split; [by apply R|exact Ha]. Qed.

Lemma push_push s vs vs' : push (push s vs) vs' = push s (vs ++ vs').
Proof. unfold push. simpl. by rewrite <-app_assoc. Qed.

Lemma push_nil s : push s [] = s.
Proof. destruct s. unfold push. simpl. by rewrite app_nil_r. Qed.

Lemma lookup_push s vs v x : s_lookup s v = Some x → s_lookup (push s vs) v = Some x.
Proof. destruct v; simpl; [done|]. apply lookup_app_l_Some. Qed.

Lemma lc_eval_terms_agree σ σ' ts :
  (∀ v, v ∈ ts.*1 → σ v = σ' v) → lc_eval_terms σ ts = lc_eval_terms σ' ts.
Proof.
  unfold lc_eval_terms. generalize ZERO as sum.
  induction ts as [|[v c] ts IH]; intros sum Hv; simpl; [done|].
  rewrite (Hv v) by (simpl; left). apply IH. intros w Hw. apply Hv. by right.
Qed.

(** A weighted sum keeps its value while more slots are allocated. *)
Lemma valued_push s vs lc x : valued s lc x → valued (push s vs) lc x.
Proof.
  intros [W <-]. split.
  - eapply list.Forall_impl; [exact W|]. intros v [y Hy]. exists y. by apply lookup_push.
  - apply lc_eval_terms_agree. intros v Hv. unfold within in W.
    rewrite list.Forall_forall in W. destruct (W v Hv) as [y Hy].
    unfold recorded. by rewrite Hy, (lookup_push _ _ _ _ Hy).
Qed.

Lemma cs_lookup_store st v : cs_lookup st v = s_lookup (store st) v.
Proof. by destruct v. Qed.

Lemma cs_value_within st lc :
  within (store st) lc → cs_value st lc = Ok (eval (recorded (store st)) lc).
Proof.
  unfold within, cs_value, eval, lc_eval_terms. generalize (recorded_lookup (store st)).
  generalize (recorded (store st)) as σ. intros σ Hσ. generalize ZERO as sum.
  induction (lc_iter lc) as [|[v c] ts IH]; intros sum W; [done|].
  simpl in W. apply list.Forall_cons_1 in W as [[x Hx] W].
  cbn [foldM foldl]. rewrite cs_lookup_store, Hx, (Hσ _ _ Hx). by apply IH.
Qed.

Lemma emits_ret {A} (a : A) s (P : A → Store → Prop) : P a s → emits (mret a) s [] P.
Proof.
  intros Ha. exists a. rewrite push_nil. split; [done|]. intros st _ _.
  destruct st. unfold cs_push. simpl. by rewrite app_nil_r.
Qed.

Lemma emits_bind {A B} (m : Synth A) (f : A → Synth B) s vs vs' P Q :
  emits m s vs P → (∀ a, P a (push s vs) → emits (f a) (push s vs) vs' Q) →
  emits (m ≫= f) s (vs ++ vs') Q.
Proof.
  intros (a & Ha & R) Hf. destruct (Hf a Ha) as (b & Hb & R').
  exists b. rewrite push_push in Hb. split; [done|]. intros st Hs Hst.
  rewrite run_bind, R by done. rewrite R' by (by subst).
  unfold cs_push. simpl. by rewrite app_assoc.
Qed.

(** The cases where the second, or the first, part allocates nothing. *)
Lemma emits_bind_r {A B} (m : Synth A) (f : A → Synth B) s vs P Q :
  emits m s vs P → (∀ a, P a (push s vs) → emits (f a) (push s vs) [] Q) →
  emits (m ≫= f) s vs Q.
Proof. intros. rewrite <-(app_nil_r vs). by eapply emits_bind. Qed.

Lemma emits_bind_l {A B} (m : Synth A) (f : A → Synth B) s vs P Q :
  emits m s [] P → (∀ a, P a s → emits (f a) s vs Q) → emits (m ≫= f) s vs Q.
Proof.
  intros Hm Hf. change vs with ([] ++ vs). eapply emits_bind; [exact Hm|].
  intros a. rewrite push_nil. apply Hf.
Qed.

Lemma emits_mono {A} (m : Synth A) s vs (P Q : A → Store → Prop) :
  emits m s vs P → (∀ a, P a (push s vs) → Q a (push s vs)) → emits m s vs Q.
Proof. intros (a & Ha & R) HPQ. exists a. auto. Qed.

Lemma emits_alloc name x s :
  emits (alloc name (Ok x)) s [x]
  (λ v s', v = Aux (length (s_aux s)) ∧ s_lookup s' v = Some x).
Proof.
  exists (Aux (length (s_aux s))). split.
  - split; [done|]. simpl. by apply list_lookup_middle.
  - intros st <- Hb. unfold alloc. simpl run. unfold cs_alloc. rewrite Hb.
    unfold cs_push. by rewrite Hb.
Qed.

Lemma emits_enforce name a b c s x y z :
  valued s a x → valued s b y → valued s c z → (x * y)%S = z →
  emits (enforce name a b c) s [] (λ _ _, True).
Proof.
  intros [Wa Ea] [Wb Eb] [Wc Ec] E. exists tt. split; [done|]. intros st <- Hb.
  simpl. unfold cs_enforce. rewrite Hb, !cs_value_within by done. simpl.
  rewrite Ea, Eb, Ec, bool_decide_eq_true_2 by done.
  unfold cs_push. rewrite app_nil_r. by destruct st.
Qed.

Lemma emits_ns {A} name (m : Synth A) s vs (P : A → Store → Prop) :
  emits m s vs P → emits (ns name m) s vs P.
Proof.
  intros (a & Ha & R). exists a. split; [done|]. intros st Hs Hb.
  unfold ns. cbn [run]. rewrite run_bind, R by done. cbn [run].
  unfold cs_pop_namespace, cs_push, cs_push_namespace. simpl.
  by rewrite length_app, Nat.add_sub, take_app_length.
Qed.

Lemma emits_is_witness_generator s : emits is_witness_generator s [] (λ b _, b = false).
Proof.
  exists false. split; [done|]. intros st _ _. unfold cs_push. simpl.
  rewrite app_nil_r. by destruct st.
Qed.

Lemma emits_assert b what s : b = true → emits (assert b what) s [] (λ _ _, True).
Proof. intros ->. by apply emits_ret. Qed.

(** A loop: each round emits its values, which depend on the round and on
    what is carried; [I] relates what was done to the results and store. *)
Lemma emits_mapM {A B} (f : A → Synth B) (vals : A → list Scalar) l s
  (I : list A → list B → Store → Prop) :
  I [] [] s →
  (∀ done x ys s', done ++ [x] `prefix_of` l → I done ys s' →
  emits (f x) s' (vals x) (λ y s'', I (done ++ [x]) (ys ++ [y]) s'')) →
  emits (mapM f l) s (l ≫= vals) (I l).
Proof.
  intros Hinit Hs.
  assert (∀ todo done ys s', l = done ++ todo → I done ys s' →
    emits (mapM f todo) s' (todo ≫= vals) (λ zs s'', I l (ys ++ zs) s'')) as Hgen.
  { induction todo as [|x todo IH]; intros done ys s' Hl HI.
    - apply emits_ret. rewrite app_nil_r in Hl |- *. by subst.
    - rewrite bind_cons. simpl. eapply emits_bind.
      { apply (Hs done x ys); [|done]. subst. exists todo. by rewrite <-app_assoc. }
      intros y Hy. rewrite <-(app_nil_r (todo ≫= vals)). eapply emits_bind.
      { apply (IH (done ++ [x]) (ys ++ [y])); [|done]. by rewrite <-app_assoc. }
      intros zs Hzs. apply emits_ret. by rewrite cons_middle, app_assoc. }
  by apply (Hgen l [] []).
Qed.

(** A fold, whose rounds' values may depend on what is carried: [vals] of a
    prefix is all the values up to there. *)
Lemma emits_foldM {A B} (f : B → A → Synth B) (vals : list A → list Scalar) l b0 s
  (I : list A → B → Store → Prop) :
  vals [] = [] → I [] b0 s →
  (∀ done x b s', done ++ [x] `prefix_of` l → I done b s' →
  ∃ vs, vals (done ++ [x]) = vals done ++ vs ∧ emits (f b x) s' vs (I (done ++ [x]))) →
  emits (foldM f b0 l) s (vals l) (I l).
Proof.
  intros Hnil Hinit Hs.
  assert (∀ todo done b s', l = done ++ todo → I done b s' →
    ∃ vs, vals l = vals done ++ vs ∧ emits (foldM f b todo) s' vs (I l)) as Hgen.
  { induction todo as [|x todo IH]; intros done b s' Hl HI.
    - rewrite app_nil_r in Hl. subst. exists []. rewrite app_nil_r. split; [done|].
      by apply emits_ret.
    - destruct (Hs done x b s') as (vs & E & Hx); [|done|].
      { subst. exists todo. by rewrite <-app_assoc. }
      pose proof Hx as (b' & Hb' & _).
      destruct (IH (done ++ [x]) b' (push s' vs)) as (vs' & E' & Hr);
        [by rewrite <-app_assoc|done|].
      exists (vs ++ vs'). split; [by rewrite E', E, app_assoc|].
      destruct Hx as (b1 & Hb1 & R1). destruct Hr as (b2 & Hb2 & R2).
      destruct (IH (done ++ [x]) b1 (push s' vs)) as (vs2 & E2 & b3 & Hb3 & R3);
        [by rewrite <-app_assoc|done|].
      assert (vs2 = vs') as -> by (rewrite E' in E2; by apply app_inv_head in E2).
      rewrite push_push in Hb3. exists b3. split; [done|]. intros st Hst Hb.
      simpl. rewrite run_bind, R1 by done. rewrite R3 by (by subst).
      unfold cs_push. simpl. by rewrite app_assoc. }
  destruct (Hgen l [] b0 s) as (vs & E & R); [done|done|].
  rewrite Hnil in E. simpl in E. by rewrite E.
Qed.

(** * An unbroken run satisfies the rules

    The converse of [emits], for every run and not only an honest one: when
    the check ends without a broken rule, the values it recorded satisfy every
    rule of the shape. *)

(** An assignment that gives the recorded slots their values. *)
Definition agrees (σ : Var → Scalar) (st : CheckState) : Prop :=
  ∀ v x, cs_lookup st v = Some x → σ v = x.

Lemma agrees_recorded st : agrees (recorded (store st)) st.
Proof. intros v x E. apply recorded_lookup. by rewrite <-cs_lookup_store. Qed.

Lemma cs_value_eval σ st lc x : agrees σ st → cs_value st lc = Ok x → eval σ lc = x.
Proof.
  intros Hσ. unfold cs_value, eval, lc_eval_terms. generalize ZERO as sum.
  induction (lc_iter lc) as [|[v c] ts IH]; intros sum; [by intros [= <-]|]. cbn [foldM foldl].
  destruct (cs_lookup st v) as [y|] eqn:E; [|done]. cbn [mbind outcome_bind].
  rewrite (Hσ _ _ E). apply IH.
Qed.

Lemma cs_lookup_app st st' v x l l' :
  cs_aux st' = cs_aux st ++ l → cs_inputs st' = cs_inputs st ++ l' →
  cs_lookup st v = Some x → cs_lookup st' v = Some x.
Proof. intros Ea Ei. destruct v; cbn; rewrite ?Ea, ?Ei; apply lookup_app_l_Some. Qed.

(** The values of [st'] continue those of [st]. *)
Definition continues (st st' : CheckState) : Prop :=
  (∃ l, cs_aux st' = cs_aux st ++ l) ∧ (∃ l, cs_inputs st' = cs_inputs st ++ l).

Lemma agrees_continues σ st st' : continues st st' → agrees σ st' → agrees σ st.
Proof. intros [[l Ha] [l' Hi]] Hσ v x E. by apply Hσ, (cs_lookup_app st st' v x l l'). Qed.

Lemma continues_trans st1 st2 st3 : continues st1 st2 → continues st2 st3 → continues st1 st3.
Proof.
  intros [[l1 H1] [l2 H2]] [[l3 H3] [l4 H4]].
  split; [exists (l1 ++ l3)|exists (l2 ++ l4)]; rewrite ?H3, ?H4, ?H1, ?H2; by rewrite <-app_assoc.
Qed.

Lemma continues_refl st st' : cs_aux st' = cs_aux st → cs_inputs st' = cs_inputs st → continues st st'.
Proof. intros Ea Ei. split; exists []; by rewrite app_nil_r. Qed.

(** What a run that breaks no rule has to do with the shape. *)
Definition unbroken_run (σ : Var → Scalar) {A} (m : Synth A) st (a : A) st' : Prop :=
  cs_broken st = None ∧ continues st st' ∧
  (agrees σ st' →
   let '(rules, result, slots) := shape m (length (cs_aux st)) (length (cs_inputs st)) in
   Forall (holds σ) rules ∧ result = Ok a ∧ slots = (length (cs_aux st'), length (cs_inputs st'))).

Lemma cs_enforce_unbroken name a b c st st' :
  cs_enforce name a b c st = (Ok tt, st') → cs_broken st' = None →
  st' = st ∧ cs_broken st = None ∧
  ∀ σ, agrees σ st → holds σ {| rule_a := a; rule_b := b; rule_c := c |}.
Proof.
  unfold cs_enforce. destruct (cs_broken st) eqn:Eb; [by intros [= <-] ?; congruence|].
  destruct (cs_value st a) as [x| |] eqn:Ea; [|done..]. cbn [mbind outcome_bind].
  destruct (cs_value st b) as [y| |] eqn:Eb'; [|done..]. cbn [mbind outcome_bind].
  destruct (cs_value st c) as [z| |] eqn:Ec; [|done..]. cbn [mbind outcome_bind mret outcome_ret].
  case_bool_decide as E; intros [= <-]; [|done]. intros _. split_and!; [done..|]. intros σ Hσ.
  unfold holds. cbn. by rewrite (cs_value_eval σ _ _ _ Hσ Ea), (cs_value_eval σ _ _ _ Hσ Eb'),
    (cs_value_eval σ _ _ _ Hσ Ec).
Qed.

Lemma run_unbroken σ {A} (m : Synth A) st a st' :
  run m st = (Ok a, st') → cs_broken st' = None → unbroken_run σ m st a st'.
Proof.
  unfold unbroken_run. revert st.
  induction m as [a'| | |? v k IH|? v k IH|name ra rb rc k IH|? k IH|k IH|k IH| |]; intros st; cbn [run shape];
    try done.
  - intros [= -> <-] Hb. split_and!; [done|by apply continues_refl|done].
  - unfold cs_alloc. destruct (cs_broken st) eqn:Eb; [done|]. destruct v as [x| |]; [|done..].
    intros R Hb. destruct (IH _ _ R Hb) as (_ & Hc & HS). split_and!; [done| |].
    + eapply continues_trans; [|exact Hc]. split; [by exists [x]|exists []; by rewrite app_nil_r].
    + intros Hσ. specialize (HS Hσ). cbn [cs_aux cs_inputs] in HS. by rewrite length_app, Nat.add_1_r in HS.
  - unfold cs_alloc_input. destruct (cs_broken st) eqn:Eb; [done|]. destruct v as [x| |]; [|done..].
    intros R Hb. destruct (IH _ _ R Hb) as (_ & Hc & HS). split_and!; [done| |].
    + eapply continues_trans; [|exact Hc]. split; [exists []; by rewrite app_nil_r|by exists [x]].
    + intros Hσ. specialize (HS Hσ). cbn [cs_aux cs_inputs] in HS. by rewrite length_app, Nat.add_1_r in HS.
  - destruct (cs_enforce _ _ _ _ _) as [[[]| |] st1] eqn:Ee; [|done..]. intros R Hb.
    destruct (IH _ R Hb) as (Hb1 & Hc & HS).
    destruct (cs_enforce_unbroken _ _ _ _ _ _ Ee Hb1) as (-> & _ & Hh). split_and!; [done..|].
    intros Hσ. specialize (HS Hσ). destruct (shape k _ _) as [[rules result] slots].
    destruct HS as (Hr & -> & ->). split_and!; [|done..]. apply Forall_cons_2; [|done].
    by eapply Hh, agrees_continues.
  - intros R Hb. by apply IH in R.
  - intros R Hb. by apply IH in R.
  - intros R Hb. by apply IH in R.
Qed.

Lemma run_satisfies (σ : Var → Scalar) {A} (m : Synth A) st a st' :
  run m st = (Ok a, st') → cs_broken st' = None → agrees σ st' →
  satisfies σ m (length (cs_aux st)) (length (cs_inputs st)).
Proof.
  intros R Hb Hσ. destruct (run_unbroken σ m st a st' R Hb) as (_ & _ & HS). specialize (HS Hσ).
  unfold satisfies. by destruct (shape _ _ _) as [[rules result] slots], HS as [Hr _].
Qed.
End CheckSystem.

#[export] Hint Resolve valued_push : vega.
