(* ===== verification/Bellpepper.v ===== *)
(** The slots of [bellpepper_core]: numbers, bits and Booleans.

    This is third-party code, so it is a class: its constructors as circuits,
    and their documented behaviour, a number is one slot, a bit is one slot
    that the rules restrict to zero and one. [BellpepperInstance] has a
    concrete instance. *)
From Stdlib Require Import ZArith Lia Strings.String.
From Stdlib Require Import Field_tac Ring.
From stdpp Require Import base list numbers option strings.
From S2P Require Import Prelude Bytes Field ConstraintSystem Shape CheckSystem.

(** The slot that always holds one ([gadgets::lc::one]). *)
Definition one : Var := Input 0.

(** The state after the public value [x] is allocated. *)
Definition cs_push_input `{ScalarField} (st : CheckState) (x : Scalar) : CheckState :=
  {| cs_aux := cs_aux st; cs_inputs := cs_inputs st ++ [x];
     cs_path := cs_path st; cs_broken := cs_broken st |}.

Class Bellpepper `{LinearCombinations} := {
  (** [num::AllocatedNum]. *)
  AllocatedNum : Type;
  AllocatedNum_alloc : outcome SynthesisError Scalar → Synth AllocatedNum;
  AllocatedNum_alloc_input : outcome SynthesisError Scalar → Synth AllocatedNum;
  get_variable : AllocatedNum → Var;
  get_value : AllocatedNum → option Scalar;
  (** [boolean::AllocatedBit] and [boolean::Boolean]. *)
  AllocatedBit : Type;
  AllocatedBit_alloc : option bool → Synth AllocatedBit;
  bit_get_variable : AllocatedBit → Var;
  bit_get_value : AllocatedBit → option bool;
  Boolean : Type;
  Boolean_from : AllocatedBit → Boolean;
  Boolean_lc : Boolean → Var → Scalar → LinearCombination;
  Boolean_get_value : Boolean → option bool;

  num_alloc_wp (σ : Assignment) v na ni (Q : AllocatedNum → nat → nat → Prop) :
    (∀ n, get_variable n = Aux na → Q n (S na) ni) → wp σ (AllocatedNum_alloc v) na ni Q;
  num_alloc_input_wp (σ : Assignment) v na ni (Q : AllocatedNum → nat → nat → Prop) :
    (∀ n, get_variable n = Input ni → Q n na (S ni)) → wp σ (AllocatedNum_alloc_input v) na ni Q;
  bit_alloc_wp (σ : Assignment) v na ni (Q : AllocatedBit → nat → nat → Prop) :
    (∀ b, bit_get_variable b = Aux na → σ (Aux na) = ZERO ∨ σ (Aux na) = ONE →
       Q b (S na) ni) → wp σ (AllocatedBit_alloc v) na ni Q;
  num_alloc_emits x s :
    emits (AllocatedNum_alloc (Ok x)) s [x]
      (λ n _, get_variable n = Aux (length (s_aux s)) ∧ get_value n = Some x);
  num_alloc_input_run x st :
    cs_broken st = None →
    ∃ n, run (AllocatedNum_alloc_input (Ok x)) st = (Ok n, cs_push_input st x) ∧
      get_variable n = Input (length (cs_inputs st)) ∧ get_value n = Some x;
  bit_alloc_emits b s :
    s_inputs s !! 0%nat = Some ONE →
    emits (AllocatedBit_alloc (Some b)) s [of_bool b]
      (λ x _, bit_get_variable x = Aux (length (s_aux s)) ∧ bit_get_value x = Some b);
  Boolean_lc_eval σ b :
    eval σ (Boolean_lc (Boolean_from b) one ONE) = σ (bit_get_variable b);
  Boolean_lc_vars b v :
    v ∈ (lc_iter (Boolean_lc (Boolean_from b) one ONE)).*1 → v = bit_get_variable b;
  Boolean_from_value b : Boolean_get_value (Boolean_from b) = bit_get_value b;
}.
