(* ===== verification/BellpepperInstance.v ===== *)
(** A concrete instance of the classes [LinearCombinations] and [Bellpepper]:
    a weighted sum is the list of its terms, a bit is a slot with the rule
    (1 − a) · a = 0.  It shows that the behaviour assumed of [bellpepper_core]
    can hold; the witnesses of the development run circuits on it. *)
From Stdlib Require Import ZArith Lia Strings.String.
From Stdlib Require Import Field_tac Ring.
From stdpp Require Import base list numbers option strings.
From S2P Require Import Prelude Bytes Field FieldInstance ConstraintSystem Shape CheckSystem Bellpepper.

Section Terms.
Context `{ScalarField}.
Add Field scalar_field : scalar_field_theory (morphism of_int_morph, constants [scalar_const]).

Definition terms_eval (σ : Var → Scalar) (ts : list (Var * Scalar)) : Scalar :=
  foldl (λ sum '(v, c), sum + c * σ v)%S ZERO ts.

Lemma terms_eval_app σ ts ts' :
  terms_eval σ (ts ++ ts') = (terms_eval σ ts + terms_eval σ ts')%S.
Proof.
  unfold terms_eval. rewrite foldl_app.
  generalize (foldl (λ sum '(v, c), sum + c * σ v)%S ZERO ts) as s.
  induction ts' as [|[v c] ts' IH]; intros s; simpl; [ring|].
  rewrite (IH (s + c * σ v)%S), (IH (ZERO + c * σ v)%S). ring.
Qed.

Definition terms_scale (c : Scalar) (ts : list (Var * Scalar)) : list (Var * Scalar) :=
  (λ '(v, d), (v, c * d)%S) <$> ts.

Lemma terms_eval_scale σ c ts : terms_eval σ (terms_scale c ts) = (c * terms_eval σ ts)%S.
Proof.
  induction ts as [|[v d] ts IH]; [unfold terms_eval; simpl; ring|].
  change ((v, d) :: ts) with ([(v, d)] ++ ts). unfold terms_scale in *. rewrite fmap_app.
  rewrite !terms_eval_app, IH. unfold terms_eval. simpl. ring.
Qed.

Lemma terms_vars_app v (ts ts' : list (Var * Scalar)) :
  v ∈ (ts ++ ts').*1 → v ∈ ts.*1 ∨ v ∈ ts'.*1.
Proof. by rewrite fmap_app, elem_of_app. Qed.

Lemma terms_vars_scale v c ts : v ∈ (terms_scale c ts).*1 → v ∈ ts.*1.
Proof.
  unfold terms_scale. rewrite <-list_fmap_compose.
  by rewrite (list_fmap_ext _ fst) by by intros ? [].
Qed.

#[export, refine] Instance lc_terms : LinearCombinations := {|
  LinearCombination := list (Var * Scalar);
  lc_zero := [];
  lc_from_variable v := [(v, ONE)];
  lc_add_var a v := a ++ [(v, ONE)];
  lc_sub_var a v := a ++ [(v, - ONE)%S];
  lc_add_term a '(c, v) := a ++ [(v, c)];
  lc_sub_term a '(c, v) := a ++ [(v, - c)%S];
  lc_add a b := a ++ b;
  lc_sub a b := a ++ terms_scale (- ONE)%S b;
  lc_add_scaled a '(c, b) := a ++ terms_scale c b;
  lc_sub_scaled a '(c, b) := a ++ terms_scale (- c)%S b;
  lc_iter a := a;
  |}.
Proof.
  all: intros; try exact eq_refl; try (by apply terms_vars_app);
    try match goal with Hv : _ |- _ => apply terms_vars_app in Hv as [?|Hv]; [by left|right] end.
  all: try (by apply terms_vars_scale in H0).
  all: try (by simpl in *; apply list_elem_of_singleton in H0).
  all: repeat match goal with |- context [foldl _ ?z ?ts] =>
    change (foldl _ z ts) with (terms_eval σ ts) end.
  all: rewrite ?terms_eval_app, ?terms_eval_scale; try (unfold terms_eval; simpl; ring); try ring.
Defined.
End Terms.

Section Slots.
Context `{ScalarField}.
Add Field scalar_field : scalar_field_theory (morphism of_int_morph, constants [scalar_const]).

Definition ok_value {E A} (v : outcome E A) : option A :=
  match v with Ok a => Some a | _ => None end.

Definition slot_alloc (v : outcome SynthesisError Scalar) : Synth (Var * option Scalar) :=
  x ← alloc "num" v; mret (x, ok_value v).
Definition slot_alloc_input (v : outcome SynthesisError Scalar) : Synth (Var * option Scalar) :=
  x ← alloc_input "input num" v; mret (x, ok_value v).
Definition bit_alloc (b : option bool) : Synth (Var * option bool) :=
  x ← alloc "boolean" (ok_or AssignmentMissing (of_bool <$> b));
  enforce "boolean constraint" [(one, ONE); (x, (- ONE)%S)] [(x, ONE)] [] ;;
  mret (x, b).

Lemma bit_rule (x : Scalar) : ((ONE + - ONE * x) * x)%S = ZERO → x = ZERO ∨ x = ONE.
Proof.
  intros [E|E]%sc_mul_0; [right|by left]. apply sc_sub_0.
  transitivity (- (ONE + - ONE * x))%S; [ring|]. rewrite E. ring.
Qed.

Lemma bit_alloc_wp_list (σ : Assignment) v na ni (Q : Var * option bool → nat → nat → Prop) :
  (∀ b, b.1 = Aux na → σ (Aux na) = ZERO ∨ σ (Aux na) = ONE → Q b (S na) ni) →
  wp σ (bit_alloc v) na ni Q.
Proof.
  intros HQ. simpl. unfold eval. simpl. intros E. apply HQ; [done|]. apply bit_rule.
  pose proof (assign_one σ) as Eo. fold one in Eo. unfold lc_eval_terms in E. simpl in E. rewrite Eo in E. rewrite <-E. ring.
Qed.

Lemma bit_alloc_emits_list b s :
  s_inputs s !! 0%nat = Some ONE →
  emits (bit_alloc (Some b)) s [of_bool b]
  (λ x _, x.1 = Aux (length (s_aux s)) ∧ x.2 = Some b).
Proof.
  intros Ho. eapply emits_bind_r; [apply emits_alloc|].
  intros x [Ex El]. eapply emits_bind_l.
  - pose proof (recorded_lookup (push s [of_bool b]) one ONE Ho) as Eo.
    pose proof (recorded_lookup _ _ _ El) as Ex'.
    assert (∀ ts, Forall (λ v, v = one ∨ v = x) ts.*1 → within (push s [of_bool b]) ts) as Hw.
    { intros ts Hts. eapply list.Forall_impl; [exact Hts|].
      intros v [-> | ->]; [by exists ONE|by exists (of_bool b)]. }
    apply (emits_enforce _ _ _ _ _ (ONE + - ONE * of_bool b)%S (of_bool b) ZERO).
    + split; [apply Hw; repeat (constructor; [by (left + right)|]); constructor|].
      unfold eval, lc_eval_terms. simpl. rewrite Eo, Ex'. ring.
    + split; [apply Hw; repeat (constructor; [by (left + right)|]); constructor|].
      unfold eval, lc_eval_terms. simpl. rewrite Ex'. ring.
    + split; [constructor|done].
    + destruct b; simpl; ring.
  - intros [] _. apply emits_ret. done.
Qed.

(** [boolean::Boolean]: the bit of a slot, its negation, or a constant. *)
Inductive Bool :=
  | Is (b : Var * option bool)
  | Not (b : Var * option bool)
  | Constant (v : bool).
Definition bool_terms `{ScalarField} (b : Bool) (one : Var) (c : Scalar) : list (Var * Scalar) :=
  match b with
  | Is b => [(b.1, c)]
  | Not b => [(one, c); (b.1, (- c)%S)]
  | Constant true => [(one, c)]
  | Constant false => []
  end.
Definition bool_value (b : Bool) : option bool :=
  match b with Is b => b.2 | Not b => negb <$> b.2 | Constant v => Some v end.

#[export, refine] Instance bellpepper_terms : Bellpepper := {|
  AllocatedNum := Var * option Scalar;
  AllocatedNum_alloc := slot_alloc;
  AllocatedNum_alloc_input := slot_alloc_input;
  get_variable n := n.1;
  get_value n := n.2;
  AllocatedBit := Var * option bool;
  AllocatedBit_alloc := bit_alloc;
  bit_get_variable b := b.1;
  bit_get_value b := b.2;
  Boolean := Bool;
  Boolean_from := Is;
  Boolean_lc := bool_terms;
  Boolean_get_value := bool_value;
  |}.
Proof.
  - intros σ v na ni Q HQ. by apply HQ.
  - intros σ v na ni Q HQ. by apply HQ.
  - apply bit_alloc_wp_list.
  - intros x s. eapply emits_bind_r; [apply emits_alloc|].
    intros v [-> _]. apply emits_ret. done.
  - intros x st Hb. exists (Input (length (cs_inputs st)), Some x).
    simpl. unfold cs_alloc_input, cs_push_input. by rewrite Hb.
  - apply bit_alloc_emits_list.
  - intros σ b. unfold eval, lc_eval_terms. simpl. ring.
  - intros b v Hv. simpl in Hv. by apply list_elem_of_singleton in Hv.
  - done.
Defined.
End Slots.
