(* ===== verification/Lc.v ===== *)
(** [gadgets/lc.rs]: weighted sums with their values, products, equalities
    and choices.

    [Spec] section: what the rules of each gadget force of any assignment,
    and what an honest run allocates. *)
From Stdlib Require Import ZArith Lia Strings.String Strings.Byte.
From Stdlib Require Import Field_tac Ring.
From stdpp Require Import base list numbers option strings.
From S2P Require Import Prelude Bytes Field ConstraintSystem Shape CheckSystem Bellpepper.

(** A weighted sum of slots, with its value when the value is known. *)
Record Lc `{LinearCombinations} := mkLc {
  lc : LinearCombination;
  value : option Scalar;
}.

Section Lc.
Context `{Bellpepper}.

Definition lc_of_zero : Lc := {| lc := lc_zero; value := Some ZERO |}.

Definition constant (c : Scalar) : Lc :=
  {| lc := lc_add_term lc_zero (c, one); value := Some c |}.

Definition small (c : Z) : Lc := constant (from_u64 c).

Definition num (n : AllocatedNum) : Lc :=
  {| lc := lc_from_variable (get_variable n); value := get_value n |}.

Definition bit (b : Boolean) : Lc :=
  {| lc := Boolean_lc b one ONE; value := of_bool <$> Boolean_get_value b |}.

(** [value.ok_or(SynthesisError::AssignmentMissing)]. *)
Definition known (v : option Scalar) : outcome SynthesisError Scalar :=
  ok_or AssignmentMissing v.

(** A new slot holding [v] ([Lc::alloc]). *)
Definition alloc_lc (v : option Scalar) : Synth Lc :=
  var ← alloc "value" (known v);
  mret {| lc := lc_from_variable var; value := v |}.

Definition scale (x : Lc) (c : Scalar) : Lc :=
  {| lc := lc_add_scaled lc_zero (c, lc x); value := (λ v, v * c)%S <$> value x |}.

(** Applies [f] to the values when all of them are known. An array is a
    list here, and [on2] to [on4] are the closures' array patterns. *)
Definition val (inputs : list (option Scalar)) (f : list Scalar → Scalar) : option Scalar :=
  f <$> mapM (λ input, input) inputs.
Definition on2 (f : Scalar → Scalar → Scalar) (l : list Scalar) : Scalar :=
  match l with [a; b] => f a b | _ => ZERO end.
Definition on3 (f : Scalar → Scalar → Scalar → Scalar) (l : list Scalar) : Scalar :=
  match l with [a; b; c] => f a b c | _ => ZERO end.
Definition on4 (f : Scalar → Scalar → Scalar → Scalar → Scalar) (l : list Scalar) : Scalar :=
  match l with [a; b; c; d] => f a b c d | _ => ZERO end.

(** [impl Add], [impl Sub]. *)
Definition add_lc (x y : Lc) : Lc :=
  {| lc := lc_add (lc x) (lc y); value := val [value x; value y] (on2 sc_add) |}.
Definition sub_lc (x y : Lc) : Lc :=
  {| lc := lc_sub (lc x) (lc y); value := val [value x; value y] (on2 sc_sub) |}.

(** The inverse of a value, or zero for zero. *)
Definition inverse (v : Scalar) : Scalar := default ZERO (invert v).

(** Replaces each value by its inverse with one inversion: the products of
    the nonzero values before each, then, from the last value back, the
    inverse of the products. *)
Definition inverse_all (values : list Scalar) : list Scalar :=
  let '(before, product) :=
  foldl (λ '(before, product) v,
  (before ++ [product], if is_zero v then product else product * v)%S)
  ([], ONE) values in
  let '(_, out) :=
  foldr (λ '(v, before) '(inv, out),
  if is_zero v then (inv, v :: out)
  else (inv * v, inv * before :: out)%S)
  (inverse product, []) (zip values before) in
  out.

(** The rule a · b = c. *)
Definition product (a b c : Lc) : Synth unit :=
  enforce "product" (lc_add lc_zero (lc a)) (lc_add lc_zero (lc b)) (lc_add lc_zero (lc c)).

(** The rule a = b, written as (a − b) · 1 = 0. *)
Definition equal (a b : Lc) : Synth unit :=
  enforce "equal" (lc_sub (lc_add lc_zero (lc a)) (lc b)) (lc_add_var lc_zero one) lc_zero.

(** A new slot holding a · b. *)
Definition mul (a b : Lc) : Synth Lc :=
  c ← ns "value" (alloc_lc (val [value a; value b] (on2 sc_mul)));
  ns "rule" (product a b c) ;;
  mret c.

(** A new slot holding [if0] or [if1]: bit · (if1 − if0) = out − if0. *)
Definition mux (bit if0 if1 : Lc) : Synth Lc :=
  out ← ns "value" (alloc_lc (val [value bit; value if0; value if1]
          (on3 (λ b x y, x + b * (y - x))%S)));
  ns "rule" (product bit (sub_lc if1 if0) (sub_lc out if0)) ;;
  mret out.

(** The rule that [a] is not zero. *)
Definition nonzero (a : Lc) : Synth unit :=
  inv ← ns "inverse" (alloc_lc (inverse <$> value a));
  ns "rule" (product a inv (constant ONE)).

(** A new slot holding the value of [a], with one rule. *)
Definition to_num (a : Lc) : Synth AllocatedNum :=
  n ← ns "value" (AllocatedNum_alloc (known (value a)));
  ns "rule" (equal (num n) a) ;;
  mret n.

(** The field element of a big-endian integer; the callers' byte strings
    have at most 32 bytes, which the code asserts. *)
Definition from_be (bytes : list byte) : Scalar :=
  from_uniform_bytes (reverse bytes ++ replicate (64 - length bytes) x00).

(** The 32 big-endian bytes of a field element. *)
Definition to_be (x : Scalar) : list byte := reverse (to_repr x).

(** The low 16 bytes of a field element's integer. *)
Definition low_bytes (x : Scalar) : list byte := drop 16 (to_be x).
End Lc.

(** * What the rules force *)
Section Rules.
Context `{Bellpepper}.
Context (σ : Assignment).
Add Field scalar_field : scalar_field_theory (morphism of_int_morph, constants [scalar_const]).
Implicit Types a b c x y : Lc.

(** The value of a weighted sum under the assignment. *)
Definition lval x : Scalar := eval σ (lc x).

Lemma lval_zero : lval lc_of_zero = ZERO.
Proof. apply lc_zero_eval. Qed.
Lemma lval_constant (c : Scalar) : lval (constant c) = c.
Proof.
  unfold lval, constant, eval. simpl. rewrite lc_add_term_eval, lc_zero_eval.
  fold one. unfold one. rewrite (assign_one σ). ring.
Qed.
Lemma lval_small n : (0 ≤ n < 2 ^ 64)%Z → lval (small n) = of_int n.
Proof. intros. unfold small. rewrite lval_constant. by apply from_u64_of_int. Qed.
Lemma lval_num n : lval (num n) = σ (get_variable n).
Proof. apply lc_from_variable_eval. Qed.
Lemma lval_scale x (c : Scalar) : lval (scale x c) = (lval x * c)%S.
Proof.
  unfold lval, scale, eval. simpl. rewrite lc_add_scaled_eval, lc_zero_eval. ring.
Qed.
Lemma lval_add x y : lval (add_lc x y) = (lval x + lval y)%S.
Proof. apply lc_add_eval. Qed.
Lemma lval_sub x y : lval (sub_lc x y) = (lval x - lval y)%S.
Proof. apply lc_sub_eval. Qed.

Lemma gadget_alloc_lc v : gadget σ (alloc_lc v) (λ _, True).
Proof. eapply gadget_bind; [apply gadget_alloc|]. intros var _. by apply gadget_ret. Qed.

Lemma gadget_product a b c : gadget σ (product a b c) (λ _, (lval a * lval b)%S = lval c).
Proof.
  eapply gadget_mono; [apply gadget_enforce|]. unfold lval, eval. intros [].
  rewrite !lc_add_eval, !lc_zero_eval. intros E.
  transitivity ((ZERO + lc_eval_terms σ (lc_iter (lc a)))
  * (ZERO + lc_eval_terms σ (lc_iter (lc b))))%S; [ring|]. rewrite E. ring.
Qed.

Lemma gadget_equal a b : gadget σ (equal a b) (λ _, lval a = lval b).
Proof.
  eapply gadget_mono; [apply gadget_enforce|]. unfold lval, eval. intros [].
  rewrite lc_sub_eval, lc_add_eval, lc_add_var_eval, !lc_zero_eval.
  unfold one. rewrite (assign_one σ). intros E. apply sc_sub_0. rewrite <-E. ring.
Qed.

Lemma gadget_mul a b : gadget σ (mul a b) (λ c, lval c = (lval a * lval b)%S).
Proof.
  step gadget_alloc_lc as c _. step gadget_product as [] E. by apply gadget_ret.
Qed.

Lemma gadget_mux b x y :
  gadget σ (mux b x y) (λ out, lval out = (lval x + lval b * (lval y - lval x))%S).
Proof.
  step gadget_alloc_lc as out _. step gadget_product as [] E. apply gadget_ret.
  rewrite !lval_sub in E. rewrite E. ring.
Qed.

Lemma gadget_nonzero a : gadget σ (nonzero a) (λ _, lval a ≠ ZERO).
Proof.
  step gadget_alloc_lc as inv _. eapply gadget_mono; [apply gadget_ns, gadget_product|].
  intros [] E E0. rewrite E0, lval_constant in E. apply one_nonzero. rewrite <-E. ring.
Qed.

Lemma gadget_AllocatedNum_alloc v : gadget σ (AllocatedNum_alloc v) (λ _, True).
Proof. intros na ni. apply num_alloc_wp. done. Qed.

Lemma gadget_to_num a : gadget σ (to_num a) (λ n, σ (get_variable n) = lval a).
Proof.
  step gadget_AllocatedNum_alloc as n _. step gadget_equal as [] E. apply gadget_ret.
  by rewrite <-lval_num.
Qed.
End Rules.


Create Rewrite HintDb lval.
#[export] Hint Rewrite @lval_zero @lval_constant @lval_num @lval_scale @lval_add @lval_sub : lval.

(** * Honest runs *)
Section Honest.
Context `{Bellpepper}.
Add Field scalar_field : scalar_field_theory (morphism of_int_morph, constants [scalar_const]).

(** The store holds the constant one. *)
Definition has_one (s : Store) : Prop := s_inputs s !! 0%nat = Some ONE.

(** A weighted sum that carries its value, which is the store's. *)
Definition knows (s : Store) (x : Lc) (v : Scalar) : Prop :=
  value x = Some v ∧ valued s (lc x) v.

Lemma has_one_push s vs : has_one s → has_one (push s vs).
Proof. done. Qed.
Lemma knows_push s vs x v : knows s x v → knows (push s vs) x v.
Proof. intros [E V]. split; [done|by apply valued_push]. Qed.

Lemma valued_of_zero s : valued s lc_zero ZERO.
Proof. split; [|apply lc_zero_eval]. unfold within. rewrite lc_zero_vars. constructor. Qed.

Lemma within_in s lc : (∀ v, v ∈ (lc_iter lc).*1 → is_Some (s_lookup s v)) → within s lc.
Proof. intros Hv. by apply list.Forall_forall. Qed.
Lemma within_out s lc v : within s lc → v ∈ (lc_iter lc).*1 → is_Some (s_lookup s v).
Proof. unfold within. rewrite list.Forall_forall. auto. Qed.

Lemma valued_variable s v x : s_lookup s v = Some x → valued s (lc_from_variable v) x.
Proof.
  intros E. split.
  - apply within_in. intros w ->%lc_from_variable_vars. by exists x.
  - unfold eval. rewrite lc_from_variable_eval. by apply recorded_lookup.
Qed.
Lemma valued_add s a b x y : valued s a x → valued s b y → valued s (lc_add a b) (x + y)%S.
Proof.
  intros [Wa <-] [Wb <-]. split; [|apply lc_add_eval]. apply within_in.
  intros v [?|?]%lc_add_vars; eauto using within_out.
Qed.
Lemma valued_sub s a b x y : valued s a x → valued s b y → valued s (lc_sub a b) (x - y)%S.
Proof.
  intros [Wa <-] [Wb <-]. split; [|apply lc_sub_eval]. apply within_in.
  intros v [?|?]%lc_sub_vars; eauto using within_out.
Qed.
Lemma valued_add_var s a v x y :
  valued s a x → s_lookup s v = Some y → valued s (lc_add_var a v) (x + y)%S.
Proof.
  intros [Wa <-] E. split.
  - apply within_in. intros w [? | ->]%lc_add_var_vars; eauto using within_out.
  - unfold eval. by rewrite lc_add_var_eval, (recorded_lookup _ _ _ E).
Qed.
Lemma valued_add_term s a c v x y :
  valued s a x → s_lookup s v = Some y → valued s (lc_add_term a (c, v)) (x + c * y)%S.
Proof.
  intros [Wa <-] E. split.
  - apply within_in. intros w [? | ->]%lc_add_term_vars; eauto using within_out.
  - unfold eval. by rewrite lc_add_term_eval, (recorded_lookup _ _ _ E).
Qed.
Lemma valued_add_scaled s a c b x y :
  valued s a x → valued s b y → valued s (lc_add_scaled a (c, b)) (x + c * y)%S.
Proof.
  intros [Wa <-] [Wb <-]. split; [|apply lc_add_scaled_eval]. apply within_in.
  intros v [?|?]%lc_add_scaled_vars; eauto using within_out.
Qed.
Lemma valued_eq s a x y : valued s a x → x = y → valued s a y.
Proof. by intros ? <-. Qed.

Lemma knows_zero s : knows s lc_of_zero ZERO.
Proof. split; [done|apply valued_of_zero]. Qed.
Lemma knows_constant s c : has_one s → knows s (constant c) c.
Proof.
  intros Ho. split; [done|]. simpl.
  eapply valued_eq; [apply valued_add_term; [apply valued_of_zero|exact Ho]|ring].
Qed.
Lemma knows_num s n x :
  get_value n = Some x → s_lookup s (get_variable n) = Some x → knows s (num n) x.
Proof. intros Ev El. split; [done|]. by apply valued_variable. Qed.
Lemma knows_scale s x v c : knows s x v → knows s (scale x c) (v * c)%S.
Proof.
  intros [E V]. split; [simpl; by rewrite E|]. simpl.
  eapply valued_eq; [apply valued_add_scaled; [apply valued_of_zero|exact V]|ring].
Qed.
Lemma knows_add s x y v w : knows s x v → knows s y w → knows s (add_lc x y) (v + w)%S.
Proof.
  intros [E V] [E' V']. split; [|by apply valued_add].
  unfold add_lc, val. simpl. by rewrite E, E'.
Qed.
Lemma knows_sub s x y v w : knows s x v → knows s y w → knows s (sub_lc x y) (v - w)%S.
Proof.
  intros [E V] [E' V']. split; [|by apply valued_sub].
  unfold sub_lc, val. simpl. by rewrite E, E'.
Qed.
Lemma knows_eq s x v w : knows s x v → v = w → knows s x w.
Proof. by intros ? <-. Qed.

Lemma emits_alloc_lc x s : emits (alloc_lc (Some x)) s [x] (λ c s', knows s' c x).
Proof.
  eapply emits_bind_r; [apply emits_alloc|].
  intros v [-> E]. apply emits_ret. split; [done|]. by apply valued_variable.
Qed.

Lemma emits_product s a b c x y z :
  knows s a x → knows s b y → knows s c z → (x * y)%S = z →
  emits (product a b c) s [] (λ _ _, True).
Proof.
  intros [_ Va] [_ Vb] [_ Vc] E.
  assert (∀ l v, valued s l v → valued s (lc_add lc_zero l) v) as Hz.
  { intros l v V. eapply valued_eq; [by apply valued_add; [apply valued_of_zero|]|ring]. }
  eapply emits_enforce; eauto.
Qed.

Lemma emits_equal s a b x :
  has_one s → knows s a x → knows s b x → emits (equal a b) s [] (λ _ _, True).
Proof.
  intros Ho [_ Va] [_ Vb]. eapply emits_enforce.
  - apply valued_sub; [|exact Vb]. apply valued_add; [apply valued_of_zero|exact Va].
  - apply valued_add_var; [apply valued_of_zero|exact Ho].
  - apply valued_of_zero.
  - ring.
Qed.

Lemma emits_mul s a b x y :
  knows s a x → knows s b y →
  emits (mul a b) s [(x * y)%S] (λ c s', knows s' c (x * y)%S).
Proof.
  intros Ka Kb. unfold mul. rewrite (proj1 Ka), (proj1 Kb).
  change (val _ _) with (Some (x * y)%S).
  eapply emits_bind_r; [apply emits_ns, emits_alloc_lc|]. intros c Kc.
  eapply emits_bind_l.
  { apply emits_ns. apply (emits_product _ _ _ _ x y (x * y)%S); try done;
      by apply knows_push. }
  intros [] _. by apply emits_ret.
Qed.

Lemma emits_mux s b t f x y v :
  knows s b v → knows s f x → knows s t y →
  emits (mux b f t) s [(x + v * (y - x))%S] (λ c s', knows s' c (x + v * (y - x))%S).
Proof.
  intros Kb Kf Kt. unfold mux. rewrite (proj1 Kb), (proj1 Kf), (proj1 Kt).
  change (val _ _) with (Some (x + v * (y - x))%S).
  eapply emits_bind_r; [apply emits_ns, emits_alloc_lc|]. intros c Kc.
  eapply emits_bind_l.
  { apply emits_ns. eapply emits_product; [by apply knows_push| | |].
    - apply knows_sub; by apply knows_push.
    - apply knows_sub; [exact Kc|by apply knows_push].
    - ring. }
  intros [] _. by apply emits_ret.
Qed.

Lemma emits_nonzero s a x :
  has_one s → knows s a x → x ≠ ZERO →
  emits (nonzero a) s [inverse x] (λ _ _, True).
Proof.
  intros Ho Ka N. unfold nonzero. rewrite (proj1 Ka).
  change (inverse <$> Some x) with (Some (inverse x)).
  eapply emits_bind_r; [apply emits_ns, emits_alloc_lc|]. intros c Kc.
  apply emits_ns. eapply emits_product; [by apply knows_push|exact Kc|by apply knows_constant|].
  transitivity (sc_inv x * x)%S; [unfold sc_inv, inverse; ring|by apply sc_inv_l].
Qed.

Lemma emits_to_num s a x :
  has_one s → knows s a x →
  emits (to_num a) s [x] (λ n s', get_value n = Some x ∧ s_lookup s' (get_variable n) = Some x).
Proof.
  intros Ho Ka. unfold to_num. rewrite (proj1 Ka).
  eapply emits_bind_r; [apply emits_ns, num_alloc_emits|]. intros n [En Ex].
  assert (s_lookup (push s [x]) (get_variable n) = Some x) as El.
  { rewrite En. simpl. by apply list_lookup_middle. }
  eapply emits_bind_l.
  { apply emits_ns. apply (emits_equal _ _ _ x); [done|by apply knows_num|by apply knows_push]. }
  intros [] _. by apply emits_ret.
Qed.
End Honest.

#[export] Hint Resolve has_one_push knows_push knows_zero knows_constant knows_num
  knows_scale knows_add knows_sub : vega.

(** * Values *)
Section Values.
Context `{Bellpepper}.
Add Field scalar_field : scalar_field_theory (morphism of_int_morph, constants [scalar_const]).

(** The product of the nonzero values, from [pr]. *)
Definition nonzero_product (pr : Scalar) (l : list Scalar) : Scalar :=
  foldl (λ product v, if is_zero v then product else product * v)%S pr l.

Fixpoint products_before (pr : Scalar) (l : list Scalar) : list Scalar :=
  match l with
  | [] => []
  | v :: l => pr :: products_before (if is_zero v then pr else pr * v)%S l
  end.

Lemma inverse_all_forward l bs pr :
  foldl (λ '(before, product) v,
  (before ++ [product], if is_zero v then product else product * v)%S) (bs, pr) l
  = (bs ++ products_before pr l, nonzero_product pr l).
Proof.
  revert bs pr. induction l as [|v l IH]; intros bs pr; simpl; [by rewrite app_nil_r|].
  rewrite IH. by rewrite <-app_assoc.
Qed.

Lemma inverse_all_back l pr :
  pr ≠ ZERO →
  foldr (λ '(v, before) '(inv, out),
  if is_zero v then (inv, v :: out) else (inv * v, inv * before :: out)%S)
  (inverse (nonzero_product pr l), []) (zip l (products_before pr l))
  = (inverse pr, inverse <$> l).
Proof.
  revert pr. induction l as [|v l IH]; intros pr N; [done|].
  cbn [nonzero_product foldl products_before zip zip_with foldr].
  fold (nonzero_product (if is_zero v then pr else (pr * v)%S) l).
  destruct (is_zero v) eqn:Ez.
  - apply is_zero_true in Ez. subst. rewrite IH by done.
    rewrite fmap_cons. do 2 f_equal. symmetry. apply sc_inv_0.
  - assert (v ≠ ZERO) as Nv by (intros ?%is_zero_true; congruence).
    rewrite IH by by apply sc_mul_nonzero. rewrite fmap_cons. do 2 f_equal.
    + apply (sc_inv_unique pr). change (inverse (pr * v)%S) with (sc_inv (pr * v)%S).
      transitivity (sc_inv (pr * v) * (pr * v))%S; [ring|].
      by apply sc_inv_l, sc_mul_nonzero.
    + apply (sc_inv_unique v). change (inverse (pr * v)%S) with (sc_inv (pr * v)%S).
      transitivity (sc_inv (pr * v) * (pr * v))%S; [ring|].
      by apply sc_inv_l, sc_mul_nonzero.
Qed.

(** Montgomery's trick computes the inverse of every value. *)
Lemma inverse_all_inverse l : inverse_all l = inverse <$> l.
Proof.
  unfold inverse_all. rewrite inverse_all_forward. simpl.
  rewrite inverse_all_back; [done|apply one_nonzero].
Qed.

Lemma from_be_of_int bytes : length bytes ≤ 32 → from_be bytes = of_int (be_int bytes).
Proof.
  intros Hl. apply repr_inj. rewrite repr_of_int. unfold repr, from_be.
  rewrite from_uniform_repr.
  - f_equal. unfold le_int. rewrite reverse_app, reverse_replicate, reverse_involutive.
    rewrite be_int_app. enough (be_int (replicate (64 - length bytes) x00) = 0)%Z as -> by lia.
    induction (64 - length bytes) as [|n IH]; [done|]. simpl. rewrite be_int_cons, IH. done.
  - rewrite length_app, length_reverse, length_replicate. lia.
Qed.

Lemma length_to_be x : length (to_be x) = 32.
Proof. unfold to_be. by rewrite length_reverse, to_repr_length. Qed.

Lemma to_be_int x : be_int (to_be x) = repr x.
Proof. done. Qed.

Lemma to_be_be_bytes x : to_be x = be_bytes 32 (repr x).
Proof. symmetry. rewrite <-to_be_int. apply be_bytes_be_int, length_to_be. Qed.

Lemma be_bytes_drop n m z : n ≤ m → drop n (be_bytes m z) = be_bytes (m - n) z.
Proof.
  revert m. induction n as [|n IH]; intros m Hm; [by rewrite drop_0, Nat.sub_0_r|].
  destruct m as [|m]; [lia|]. simpl. apply IH. lia.
Qed.

(** The low bytes are those of the integer modulo 2^128. *)
Lemma low_bytes_be_bytes x : low_bytes x = be_bytes 16 (repr x).
Proof. unfold low_bytes. by rewrite to_be_be_bytes, be_bytes_drop by lia. Qed.

Lemma to_be_from_be bytes :
  length bytes = 32 → (be_int bytes < p)%Z → to_be (from_be bytes) = bytes.
Proof.
  intros Hl Hp. rewrite to_be_be_bytes, from_be_of_int, repr_of_int by lia.
  rewrite Z.mod_small by (split; [apply be_int_range|done]). by apply be_bytes_be_int.
Qed.
End Values.

(** * What a weighted sum denotes

    Sums denote scalars both under an assignment ([lval]) and in an honest
    prover's store ([knows]); what the gadgets compute with sums alone is
    proved once for both. *)
Class LcSem `{Bellpepper} (R : Lc → Scalar → Prop) := {
  sem_zero : R lc_of_zero ZERO;
  sem_constant c : R (constant c) c;
  sem_add x y v w : R x v → R y w → R (add_lc x y) (v + w)%S;
  sem_sub x y v w : R x v → R y w → R (sub_lc x y) (v - w)%S;
  sem_scale x v c : R x v → R (scale x c) (v * c)%S;
}.

Definition denotes `{Bellpepper} (σ : Assignment) (x : Lc) (v : Scalar) : Prop := lval σ x = v.

#[export] Instance denotes_sem `{Bellpepper} σ : LcSem (denotes σ).
Proof.
  unfold denotes. split; intros; subst;
    [apply lval_zero|apply lval_constant|apply lval_add|apply lval_sub|apply lval_scale].
Qed.

Lemma knows_sem `{Bellpepper} s : has_one s → LcSem (knows s).
Proof.
  split; intros; [apply knows_zero|by apply knows_constant|by apply knows_add
    |by apply knows_sub|by apply knows_scale].
Qed.
