(* ===== verification/Values.v ===== *)
(** [gadgets/values.rs]: the values of a circuit in the order a witness
    generator records them, computed natively. A [&mut Values] is passed on as
    the list of the values so far. *)
From Stdlib Require Import ZArith Lia Strings.Byte.
From stdpp Require Import base list numbers option.
From S2P Require Import Prelude Bytes Field.

Section Values.
Context `{ScalarField}.

Definition Values : Type := list Scalar.

Definition value_push (values : Values) (v : Scalar) : Values := values ++ [v].

(** A bit, as one or zero. *)
Definition value_bit (values : Values) (b : bool) : Values :=
  values ++ [if b then ONE else ZERO].

(** Bits in their order. *)
Definition value_bits (values : Values) (bits : list bool) : Values :=
  values ++ ((λ b, if b : bool then ONE else ZERO) <$> bits).

(** The [n] low bits of [v], least significant first. *)
Definition low_bits (values : Values) (v : Z) (n : nat) : Values :=
  values ++ ((λ i, if Z.testbit v (Z.of_nat i) then ONE else ZERO) <$> range n).

(** The bits of bytes, most significant first. *)
Definition value_byte_bits (values : Values) (bytes : list byte) : Values :=
  foldl (λ values byte, values ++ ((λ i, if Z.testbit (b2z byte) (Z.of_nat i) then ONE else ZERO)
  <$> reverse (range 8))) values bytes.

(** The [n] low bits of a field element's integer, most significant first;
    [le[i / 8]] is in range for [n] up to 256. *)
Definition field_bits (values : Values) (x : Scalar) (n : nat) : Values :=
  let le := to_repr x in
  values ++ ((λ i, if Z.testbit (b2z (default x00 (le !! (i / 8)%nat))) (Z.of_nat (i mod 8))
  then ONE else ZERO) <$> reverse (range n)).

(** ** What the values are *)

Lemma value_bits_of_bool values bits : value_bits values bits = values ++ (of_bool <$> bits).
Proof. done. Qed.

Lemma low_bits_of_bool values v n :
  low_bits values v n = values ++ (of_bool <$> reverse (int_bits n v)).
Proof.
  unfold low_bits, int_bits, range. f_equal.
  rewrite !fmap_reverse, reverse_involutive, <-list_fmap_compose. done.
Qed.

Lemma value_byte_bits_of_bool values bytes :
  value_byte_bits values bytes = values ++ (of_bool <$> (bytes ≫= byte_bits)).
Proof.
  unfold value_byte_bits. revert values. induction bytes as [|b bytes IH]; intros values.
  - simpl. by rewrite app_nil_r.
  - cbn [foldl]. rewrite IH, bind_cons, fmap_app, <-app_assoc. f_equal.
Qed.

(** A bit of the canonical integer is a bit of one of its bytes. *)
Lemma le_int_testbit (le : list byte) (i : nat) :
  i < 8 * length le →
  Z.testbit (b2z (default x00 (le !! (i / 8)))) (Z.of_nat (i mod 8))
  = Z.testbit (le_int le) (Z.of_nat i).
Proof.
  unfold le_int. revert i. induction le as [|b le IH]; intros i Hi; [simpl in Hi; lia|].
  rewrite reverse_cons, be_int_snoc. pose proof (b2z_range b).
  destruct (decide (i < 8)) as [L|L].
  - rewrite Nat.div_small, Nat.mod_small by lia. simpl.
    rewrite <-(Z.mod_pow2_bits_low (be_int (reverse le) * 256 + b2z b) 8) by lia.
    change (2 ^ 8)%Z with 256%Z. rewrite Z.add_comm, Z_mod_plus_full.
    by rewrite Z.mod_small by lia.
  - assert (i / 8 = S ((i - 8) / 8)) as ->.
    { replace i with ((i - 8) + 1 * 8) at 1 by lia. rewrite Nat.div_add by lia. lia. }
    assert (i mod 8 = (i - 8) mod 8) as ->.
    { replace i with ((i - 8) + 1 * 8) at 1 by lia. by rewrite Nat.Div0.mod_add. }
    change ((b :: le) !! S ((i - 8) / 8)) with (le !! ((i - 8) / 8)).
    rewrite IH by (simpl in Hi; lia).
    replace (be_int (reverse le)) with ((be_int (reverse le) * 256 + b2z b) / 2 ^ 8)%Z at 1.
    + rewrite Z.div_pow2_bits by lia. f_equal. lia.
    + change (2 ^ 8)%Z with 256%Z. rewrite Z.div_add_l, Z.div_small by lia. lia.
Qed.

Lemma field_bits_of_bool values x n :
  n ≤ 256 → field_bits values x n = values ++ (of_bool <$> int_bits n (repr x)).
Proof.
  intros Hn. unfold field_bits, int_bits, range. f_equal. rewrite <-list_fmap_compose.
  apply list_fmap_ext. intros _ i Hi%list_elem_of_lookup_2. unfold compose.
  rewrite elem_of_reverse, elem_of_seq in Hi.
  rewrite le_int_testbit by (rewrite to_repr_length; lia). done.
Qed.
End Values.
