(* ===== verification/Bits.v ===== *)
(** [gadgets/bits.rs]: range constraints, bytes and comparisons with
    constants. Bit lists are most significant bit first. *)
From Stdlib Require Import ZArith Lia Strings.String Strings.Byte.
From Stdlib Require Import Field_tac Ring.
From stdpp Require Import base list numbers option strings pretty.
From S2P Require Import Prelude Bytes Field ConstraintSystem Shape CheckSystem Bellpepper Lc Values.

Section Bits.
Context `{Bellpepper}.

(** The bits of a field element, least significant first. *)
Definition le_bits (x : Scalar) : list bool :=
  to_repr x ≫= λ byte, (λ i, Z.testbit (b2z byte) (Z.of_nat i)) <$> range 8.

(** The bits of a byte string, most significant first. *)
Definition be_bits (bytes : list byte) : list bool :=
  bytes ≫= λ byte, (λ i, Z.testbit (b2z byte) (Z.of_nat i)) <$> reverse (range 8).

(** The [n] low bits of an integer, most significant first. *)
Definition small_bits (v : Z) (n : nat) : list bool :=
  (λ i, Z.testbit v (Z.of_nat i)) <$> reverse (range n).

(** [v[i]], which panics out of range. *)
Definition index {A} (l : list A) (i : nat) : Synth A :=
  match l !! i with Some a => mret a | None => Panic' "index out of bounds" end.

(** [n] new bit slots, each with its bit rule. *)
Definition alloc_bits (bits : option (list bool)) (n : nat) : Synth (list Boolean) :=
  mapM (λ i,
  bit ← match bits with
  | None => mret None
  | Some b => x ← index b i; mret (Some x)
  end;
  b ← ns ("bit " +:+ pretty i) (AllocatedBit_alloc bit);
  mret (Boolean_from b)) (range n).

(** The integer with these bits. *)
Definition pack (bits : list Boolean) : Lc :=
  (foldl (λ '(sum, weight) b, (add_lc sum (scale (bit b) weight), double weight))
  (lc_of_zero, ONE) (reverse bits)).1.

(** Splits [x] into [n] bits: one bit rule per bit and one rule that
    reassembles [x]. The indices are in range after the assertion. *)
Definition bits (x : Lc) (n : nat) : Synth (list Boolean) :=
  assert (n <? NUM_BITS)%nat "2^n must stay below the field modulus" ;;
  let value := (λ v, let le := le_bits v in
  (λ i, default false (le !! i)) <$> reverse (range n)) <$> value x in
  bits ← ns "bits" (alloc_bits value n);
  ns "reassemble" (equal (pack bits) x) ;;
  mret bits.

(** The 256 bits of a digest held as two 128-bit halves, high half first. *)
Definition digest_bits (halves : Lc * Lc) : Synth (list Boolean) :=
  out ← ns "high half" (bits halves.1 128);
  out' ← ns "low half" (bits halves.2 128);
  mret (out ++ out').

(** The rules that [x] is an integer from 0 through 2^n − 1. *)
Definition range_check (x : Lc) (n : nat) : Synth unit :=
  bits x n ;; mret tt.

(** The rules that the integer with these bits is less than the constant [c]. *)
Definition less_than (bits : list Boolean) (c : list byte) : Synth unit :=
  let c_bits := be_bits c in
  assert (length bits =? length c_bits)%nat "assert_eq" ;;
  '(equal_so_far, less) ←
  foldM (λ '(equal_so_far, less) '(i, (b, c_bit)),
  let bit := bit b in
  ns ("bit " +:+ pretty (i : nat)) (
  if c_bit : bool then
  still ← ns "agree at one" (mul equal_so_far bit);
  mret (still, add_lc less (sub_lc equal_so_far still))
  else
  let not_bit := sub_lc (constant ONE) bit in
  equal_so_far' ← ns "agree at zero" (mul equal_so_far not_bit);
  mret (equal_so_far', less)))
  (constant ONE, lc_of_zero) (imap (λ i x, (i, x)) (zip bits c_bits));
  ns "less" (equal less (constant ONE)).

(** The values of [less_than] for the bits [bits], computed natively. *)
Definition less_than_values (values : Values) (bits : list bool) (c : list byte) : Values :=
  (foldl (λ '(values, equal_so_far) '(bit, c_bit),
  let equal_so_far := equal_so_far && bool_decide (bit = c_bit) in
  (value_bit values equal_so_far, equal_so_far))
  (values, true) (zip bits (be_bits c))).1.

(** The bytes of a bit list, eight bits per byte. *)
Definition bytes (bits : list Boolean) : list Lc := pack <$> chunks 8 bits.

(** The big-endian integer of a byte list. *)
Definition pack_bytes (bytes : list Lc) : Lc :=
  (foldl (λ '(sum, weight) byte, (add_lc sum (scale byte weight), (weight * from_u64 256)%S))
  (lc_of_zero, ONE) (reverse bytes)).1.

(** The rules that bytes equal a constant string, sixteen bytes per rule. *)
Definition expect (bytes : list Lc) (pattern : list byte) : Synth unit :=
  assert (length bytes =? length pattern)%nat "assert_eq" ;;
  mapM (λ '(i, (group, const)),
  ns ("bytes from " +:+ pretty (16 * i)%nat)
  (equal (pack_bytes group) (constant (from_be const))))
  (imap (λ i x, (i, x)) (zip (chunks 16 bytes) (chunks 16 pattern))) ;;
  mret tt.

(** The number that a run of ASCII decimal digits writes. *)
Definition decimal (digits : list Lc) : Lc :=
  (foldl (λ '(sum, weight) digit,
  (add_lc sum (scale (sub_lc digit (small (b2z "0"%byte))) weight),
  (weight * from_u64 10)%S))
  (lc_of_zero, ONE) (reverse digits)).1.
End Bits.

(** * What the sums denote *)
Section Sums.
Context `{Bellpepper} (R : Lc → Scalar → Prop) {sem : LcSem R}.
Add Field scalar_field : scalar_field_theory (morphism of_int_morph, constants [scalar_const]).

(** Booleans with known bits, and sums that are bytes. *)
Definition bits_are : list Boolean → list bool → Prop :=
  Forall2 (λ b v, R (bit b) (of_bool v)).
Definition bytes_are : list Lc → list byte → Prop :=
  Forall2 (λ x b, R x (of_int (b2z b))).

(** The loops that add weighted digits, from the last digit. *)
Lemma weighted_sum {X} (f : X → Lc) (g : Scalar → Scalar) (base : Z) xs (ds : list Z) :
  (∀ w, g w = (w * of_int base)%S) → Forall2 (λ x d, R (f x) (of_int d)) xs ds →
  R (foldl (λ '(sum, weight) x, (add_lc sum (scale (f x) weight), g weight))
  (lc_of_zero, ONE) (reverse xs)).1 (of_int (digits_int base id ds)).
Proof.
  intros Hg HF.
  enough (∃ sum, foldl (λ '(sum, weight) x, (add_lc sum (scale (f x) weight), g weight))
    (lc_of_zero, ONE) (reverse xs) = (sum, of_int (base ^ Z.of_nat (length xs)))
    ∧ R sum (of_int (digits_int base id ds))) as (sum & -> & Hsum) by done.
  induction HF as [|x d xs ds Hx HF IH].
  - exists lc_of_zero. simpl. rewrite of_int_1. split; [done|].
    unfold digits_int. simpl. rewrite of_int_0. apply sem_zero.
  - destruct IH as (sum & E & Hsum). rewrite reverse_cons, foldl_app, E. cbn [foldl length].
    eexists. split.
    + f_equal. rewrite Hg, <-of_int_mul. f_equal.
      rewrite Nat2Z.inj_succ, Z.pow_succ_r by lia. lia.
    + rewrite digits_int_cons, of_int_add, of_int_mul.
      replace (of_int (id d) * _ + of_int (digits_int base id ds))%S with
        (of_int (digits_int base id ds) + of_int d * of_int (base ^ Z.of_nat (length xs)))%S.
      * apply sem_add; [done|]. by apply sem_scale.
      * rewrite (Forall2_length _ _ _ HF). unfold id. ring.
Qed.

Lemma digits_int_fmap {D} base (val : D → Z) ds :
  digits_int base id (val <$> ds) = digits_int base val ds.
Proof. unfold digits_int. by rewrite foldl_fmap. Qed.

Lemma pack_sem bs vs : bits_are bs vs → R (pack bs) (of_int (bits_int vs)).
Proof.
  intros HF. change (bits_int vs) with (digits_int 2 Z.b2z vs). rewrite <-digits_int_fmap.
  apply (weighted_sum bit double 2).
  - intros w. rewrite double_add. ring.
  - apply Forall2_fmap_r. eapply Forall2_impl; [exact HF|]. intros b v Hb.
    unfold compose. by rewrite <-of_bool_of_int.
Qed.

Lemma pack_bytes_sem xs bs : bytes_are xs bs → R (pack_bytes xs) (of_int (be_int bs)).
Proof.
  intros HF. change (be_int bs) with (digits_int 256 b2z bs). rewrite <-digits_int_fmap.
  apply (weighted_sum (λ x, x) (λ w, w * from_u64 256)%S 256).
  - intros w. by rewrite from_u64_of_int by lia.
  - by apply Forall2_fmap_r.
Qed.

(** Digits as ASCII writes them. *)
Definition decimal_int (bs : list byte) : Z := digits_int 10 (λ b, b2z b - 48)%Z bs.

Lemma decimal_sem xs bs : bytes_are xs bs → R (decimal xs) (of_int (decimal_int bs)).
Proof.
  intros HF. unfold decimal_int. rewrite <-digits_int_fmap.
  apply (weighted_sum (λ x, sub_lc x (small 48)) (λ w, w * from_u64 10)%S 10).
  - intros w. by rewrite from_u64_of_int by lia.
  - apply Forall2_fmap_r. eapply Forall2_impl; [exact HF|]. intros x b Hx.
    unfold compose. rewrite of_int_sub. apply sem_sub; [done|]. unfold small.
    rewrite from_u64_of_int by lia. apply sem_constant.
Qed.

Lemma bits_are_take bs vs n : bits_are bs vs → bits_are (take n bs) (take n vs).
Proof. apply Forall2_take. Qed.

(** Eight bits a byte. *)
Lemma bytes_sem bs l : bits_are bs (l ≫= byte_bits) → bytes_are (bytes bs) l.
Proof.
  revert bs. induction l as [|b l IH]; intros bs HF.
  - simpl in HF. apply Forall2_nil_inv_r in HF as ->. constructor.
  - rewrite bind_cons in HF. apply Forall2_app_inv_r in HF as (b1 & b2 & HF1 & HF2 & ->).
    pose proof (Forall2_length _ _ _ HF1) as L1. rewrite length_byte_bits in L1.
    unfold bytes. rewrite chunks_app by lia. rewrite fmap_cons. constructor; [|by apply IH].
    rewrite <-bits_int_byte_bits. by apply pack_sem.
Qed.
End Sums.

(** * Bit lists and integers *)
Section BitLists.
Context `{ScalarField}.

Lemma be_bits_byte_bits l : be_bits l = l ≫= byte_bits.
Proof. done. Qed.

Lemma small_bits_int_bits v n : small_bits v n = int_bits n v.
Proof. done. Qed.

Lemma le_bits_lookup (x : Scalar) i :
  (i < 256)%nat → le_bits x !! i = Some (Z.testbit (repr x) (Z.of_nat i)).
Proof.
  intros Hi. unfold repr. rewrite <-le_int_testbit by (rewrite to_repr_length; lia).
  unfold le_bits. assert (i < 8 * length (to_repr x))%nat as Hi' by (rewrite to_repr_length; lia).
  clear Hi. revert i Hi'. induction (to_repr x) as [|b l IH]; intros i Hi; [simpl in Hi; lia|].
  rewrite bind_cons. destruct (decide (i < 8)%nat) as [L|L].
  - rewrite lookup_app_l by (by simpl). rewrite list_lookup_fmap. unfold range.
    rewrite lookup_seq_lt, Nat.div_small, Nat.mod_small by done. done.
  - rewrite lookup_app_r by (simpl; lia). cbn [length fmap list_fmap range seq].
    assert (i = (i - 8) + 1 * 8)%nat as E by lia. simpl in Hi.
    rewrite IH by lia. rewrite E at 3 4. rewrite Nat.div_add, Nat.Div0.mod_add by lia.
    by rewrite Nat.add_1_r.
Qed.

Lemma small_repr_testbits (x : Scalar) n :
  (n ≤ 256)%nat → (λ i, default false (le_bits x !! i)) <$> reverse (range n) = int_bits n (repr x).
Proof.
  intros Hn. apply list_fmap_ext. intros _ i Hi%list_elem_of_lookup_2.
  unfold range in Hi. rewrite elem_of_reverse, elem_of_seq in Hi.
  by rewrite le_bits_lookup by lia.
Qed.

Lemma lt_pow_p n : (n < 256)%nat → (2 ^ Z.of_nat n < p)%Z.
Proof.
  intros Hn. apply Z.le_lt_trans with (2 ^ 255)%Z; [|done].
  apply Z.pow_le_mono_r; lia.
Qed.

(** An integer below a power of two that the field holds is the canonical one. *)
Lemma repr_bits (x : Scalar) vs :
  (length vs < 256)%nat → x = of_int (bits_int vs) →
  int_bits (length vs) (repr x) = vs ∧ (repr x < 2 ^ Z.of_nat (length vs))%Z.
Proof.
  intros Hl ->. pose proof (bits_int_range vs). pose proof (lt_pow_p _ Hl).
  rewrite repr_of_int, Z.mod_small by lia. split; [by apply int_bits_bits_int|lia].
Qed.

(** The bits of a prefix decide the comparison where they first differ. *)
Lemma less_than_values_emits values vs c :
  less_than_values values vs c = values ++ less_than_values [] vs c.
Proof.
  unfold less_than_values. generalize true as e. generalize (zip vs (be_bits c)) as l.
  intros l. revert values. enough (∀ values e,
    (foldl (λ '(values, e) '(bit, c_bit), let e := e && bool_decide (bit = c_bit) in
    (value_bit values e, e)) (values, e) l).1 =
    values ++ (foldl (λ '(values, e) '(bit, c_bit), let e := e && bool_decide (bit = c_bit) in
    (value_bit values e, e)) ([], e) l).1) as Hg by (intros; apply Hg).
  induction l as [|[b c'] l IH]; intros values e; simpl; [by rewrite app_nil_r|].
  rewrite IH, (IH (value_bit [] _)). unfold value_bit. simpl. by rewrite <-app_assoc.
Qed.
End BitLists.

(** * Comparison with a constant, from the top bit *)
Section Compare.
Implicit Types vs cs : list bool.

Lemma compare_step vs cs k v c :
  vs !! k = Some v → cs !! k = Some c →
  bool_decide (take (S k) vs = take (S k) cs)
  = bool_decide (take k vs = take k cs) && bool_decide (v = c) ∧
  (bits_int (take (S k) vs) <? bits_int (take (S k) cs))%Z
  = (bits_int (take k vs) <? bits_int (take k cs))%Z
  || (bool_decide (take k vs = take k cs) && negb v && c).
Proof.
  intros Ev Ec. rewrite !(take_S_r _ _ _ Ev), !(take_S_r _ _ _ Ec), !bits_int_app.
  assert (length (take k vs) = length (take k cs)) as Hl.
  { apply lookup_lt_Some in Ev, Ec. rewrite !length_take. lia. }
  assert (bits_int [v] = Z.b2z v ∧ bits_int [c] = Z.b2z c) as [-> ->] by done.
  change (2 ^ Z.of_nat (length [v]))%Z with 2%Z. change (2 ^ Z.of_nat (length [c]))%Z with 2%Z.
  destruct (bool_decide_reflect (take k vs = take k cs)) as [E|N].
  - rewrite E. split.
    + apply bool_decide_ext. split; [|by intros ->]. by intros [_ [= ->]]%app_inj_1.
    + rewrite Z.ltb_irrefl. destruct v, c; simpl; apply Z.ltb_ge || apply Z.ltb_lt; lia.
  - split.
    + apply bool_decide_eq_false. by intros [? _]%app_inj_1.
    + rewrite orb_false_r.
      assert (bits_int (take k vs) ≠ bits_int (take k cs)) as N'.
      { intros E%bits_int_inj; done. }
      apply Bool.eq_iff_eq_true. rewrite !Z.ltb_lt. destruct v, c; simpl; lia.
Qed.

(** The values of the loop up to bit [k]. *)
Context `{ScalarField}.
Definition agreements vs cs (k : nat) : list Scalar :=
  (λ j, of_bool (bool_decide (take (S j) vs = take (S j) cs))) <$> seq 0 k.

Lemma less_than_values_agreements vs c :
  length vs = length (be_bits c) →
  less_than_values [] vs c = agreements vs (be_bits c) (length vs).
Proof.
  intros Hl. unfold less_than_values. set (cs := be_bits c) in *.
  enough (∀ k, k ≤ length vs → foldl (λ '(values, e) '(bit, c_bit),
    let e := e && bool_decide (bit = c_bit) in (value_bit values e, e)) ([], true)
    (take k (zip vs cs)) = (agreements vs cs k, bool_decide (take k vs = take k cs)))%nat as Hk.
  { specialize (Hk (length vs) ltac:(lia)). rewrite take_ge in Hk by (rewrite length_zip_with; lia).
    exact (f_equal fst Hk). }
  induction k as [|k IH]; intros Hk; [done|].
  destruct (lookup_lt_is_Some_2 vs k) as [v Ev]; [lia|].
  destruct (lookup_lt_is_Some_2 cs k) as [c' Ec]; [lia|].
  rewrite (take_S_r _ _ (v, c')) by (by rewrite lookup_zip_with, Ev, Ec).
  rewrite foldl_app, IH by lia. cbn [foldl]. unfold agreements.
  rewrite seq_S, fmap_app. cbn [fmap list_fmap Nat.add].
  destruct (compare_step _ _ _ _ _ Ev Ec) as [-> _]. done.
Qed.
End Compare.

(** The arithmetic of one bit of [less_than]: [e] and [l] exclude each other. *)
Section CompareField.
Context `{Bellpepper} (R : Lc → Scalar → Prop) {sem : LcSem R}.
Add Field scalar_field : scalar_field_theory (morphism of_int_morph, constants [scalar_const]).
Variables (vs cs : list bool) (k : nat) (v : bool).
Hypothesis (Ev : vs !! k = Some v).

(** What the loop carries after [k] bits. *)
Definition compared (k : nat) (st : Lc * Lc) : Prop :=
  R st.1 (of_bool (bool_decide (take k vs = take k cs))) ∧
  R st.2 (of_bool (bits_int (take k vs) <? bits_int (take k cs))%Z).

Lemma of_bool_and a b : (of_bool a * of_bool b)%S = of_bool (a && b).
Proof. destruct a, b; simpl; ring. Qed.
Lemma of_bool_not a : (ONE - of_bool a)%S = of_bool (negb a).
Proof. destruct a; simpl; ring. Qed.

Lemma compared_start : compared 0 (constant ONE, lc_of_zero).
Proof. split; [apply sem_constant|apply sem_zero]. Qed.

Lemma compared_one e l still :
  cs !! k = Some true → compared k (e, l) →
  R still (of_bool (bool_decide (take k vs = take k cs)) * of_bool v)%S →
  compared (S k) (still, add_lc l (sub_lc e still)).
Proof.
  intros Ec [He Hl] Hs. destruct (compare_step _ _ _ _ _ Ev Ec) as [E1 E2].
  unfold compared. simpl in *. rewrite E1, E2. split.
  - rewrite of_bool_and in Hs. by destruct v, (bool_decide _).
  - eassert (R (add_lc l (sub_lc e still)) _) as HR by (by apply sem_add, sem_sub).
    revert HR. rewrite andb_true_r. destruct (bool_decide_reflect (take k vs = take k cs)) as [->|].
    + rewrite Z.ltb_irrefl. destruct v; simpl.
      * by replace (ZERO + (ONE - ONE * ONE))%S with ZERO by ring.
      * by replace (ZERO + (ONE - ONE * ZERO))%S with ONE by ring.
    + rewrite andb_false_l, orb_false_r. destruct (_ <? _)%Z, v; simpl; intros HR;
        [replace ONE with (ONE + (ZERO - ZERO * ONE))%S by ring
        |replace ONE with (ONE + (ZERO - ZERO * ZERO))%S by ring
        |replace ZERO with (ZERO + (ZERO - ZERO * ONE))%S by ring
        |replace ZERO with (ZERO + (ZERO - ZERO * ZERO))%S by ring]; done.
Qed.

Lemma compared_zero e l e' :
  cs !! k = Some false → compared k (e, l) →
  R e' (of_bool (bool_decide (take k vs = take k cs)) * of_bool (negb v))%S →
  compared (S k) (e', l).
Proof.
  intros Ec [He Hl] Hs. destruct (compare_step _ _ _ _ _ Ev Ec) as [E1 E2].
  unfold compared. simpl in *. rewrite E1, E2, andb_false_r, orb_false_r. split; [|done].
  rewrite of_bool_and in Hs. by destruct v, (bool_decide _).
Qed.
End CompareField.

(** * What the rules force *)
Section BitsRules.
Context `{Bellpepper} (σ : Assignment).

Lemma gadget_bit v :
  gadget σ (AllocatedBit_alloc v) (λ b, ∃ w, denotes σ (bit (Boolean_from b)) (of_bool w)).
Proof.
  intros na ni. apply bit_alloc_wp. intros b E Hb. split; [done|].
  unfold denotes, lval, bit. simpl. rewrite Boolean_lc_eval, E.
  destruct Hb; [by exists false|by exists true].
Qed.

Lemma gadget_index {A} (l : list A) i : i < length l → gadget σ (index l i) (λ _, True).
Proof. intros Hi. unfold index. destruct (lookup_lt_is_Some_2 l i Hi) as [a ->]. by apply gadget_ret. Qed.

(** Every slot holds a bit, whatever the prover puts there. *)
Lemma gadget_alloc_bits bits n :
  (∀ bs, bits = Some bs → length bs = n) →
  gadget σ (alloc_bits bits n) (λ bs, ∃ vs, bits_are (denotes σ) bs vs ∧ length vs = n).
Proof.
  intros Hn. unfold alloc_bits.
  eapply gadget_mono; [apply (gadget_mapM _ _ _
    (λ done bs, ∃ vs, bits_are (denotes σ) bs vs ∧ length vs = length done))|].
  - exists []. split; [constructor|done].
  - intros done i ys Hp (vs & HF & Hl). eapply (gadget_bind _ _ _ (λ _, True)).
    { destruct bits as [bs|]; [|by apply gadget_ret].
      eapply gadget_bind; [apply gadget_index|intros; by apply gadget_ret].
      rewrite (Hn bs) by done. apply prefix_snoc_lookup in Hp as [Hi _].
      unfold range in Hi. apply lookup_seq in Hi. lia. }
    intros v _. step gadget_bit as b (w & Hw). apply gadget_ret.
    exists (vs ++ [w]). rewrite !length_app, Hl. split; [|done].
    apply Forall2_app; [done|]. by repeat constructor.
  - intros bs (vs & HF & Hl). exists vs. split; [done|]. unfold range in Hl.
    by rewrite length_seq in Hl.
Qed.

(** The rules hold exactly of integers below 2^n, and the bits are theirs. *)
Lemma gadget_bits x n :
  n < 256 →
  gadget σ (bits x n) (λ bs, bits_are (denotes σ) bs (int_bits n (repr (lval σ x))) ∧
  (repr (lval σ x) < 2 ^ Z.of_nat n)%Z).
Proof.
  intros Hn. unfold bits. eapply gadget_bind.
  { apply gadget_assert. by apply Nat.ltb_lt. }
  intros _ _. eapply gadget_bind.
  { apply gadget_ns, gadget_alloc_bits. intros bs. destruct (value x); [|done].
    intros [= <-]. unfold range. by rewrite length_fmap, length_reverse, length_seq. }
  intros bs (vs & HF & Hl). step gadget_equal as [] E. apply gadget_ret.
  rewrite (pack_sem (denotes σ) _ _ HF) in E.
  destruct (repr_bits (lval σ x) vs) as [E1 E2]; [lia|done|].
  rewrite Hl in E1, E2. by rewrite E1.
Qed.

Lemma gadget_range_check x n :
  n < 256 → gadget σ (range_check x n) (λ _, repr (lval σ x) < 2 ^ Z.of_nat n)%Z.
Proof.
  intros Hn. eapply gadget_bind; [by apply gadget_bits|]. intros bs [_ E]. by apply gadget_ret.
Qed.

Lemma gadget_digest_bits x y :
  gadget σ (digest_bits (x, y)) (λ bs,
  bits_are (denotes σ) bs (int_bits 128 (repr (lval σ x)) ++ int_bits 128 (repr (lval σ y))) ∧
  (repr (lval σ x) < 2 ^ 128)%Z ∧ (repr (lval σ y) < 2 ^ 128)%Z).
Proof.
  unfold digest_bits. eapply gadget_bind; [apply gadget_ns, gadget_bits; lia|].
  intros b1 [HF1 L1]. eapply gadget_bind; [apply gadget_ns, gadget_bits; lia|].
  intros b2 [HF2 L2]. apply gadget_ret. split; [by apply Forall2_app|done].
Qed.

(** The comparison accepts exactly the integers below the constant. *)
Lemma gadget_less_than bs vs c :
  bits_are (denotes σ) bs vs → length vs = length (be_bits c) →
  gadget σ (less_than bs c) (λ _, (bits_int vs < be_int c)%Z).
Proof.
  intros HF Hl. pose proof (Forall2_length _ _ _ HF) as Hl'.
  unfold less_than. eapply gadget_bind.
  { apply gadget_assert. apply Nat.eqb_eq. lia. }
  intros _ _. eapply gadget_bind.
  { apply (gadget_foldM _ _ _ _ (λ done st,
      compared (denotes σ) vs (be_bits c) (length done) st)); [by apply (compared_start (denotes σ))|].
    intros done x [e l] Hp Hst. apply prefix_snoc_lookup in Hp as [Hx _].
    apply lookup_imap_zip in Hx as (b & cb & -> & Eb & Ec).
    destruct (Forall2_lookup_l _ _ _ _ _ HF Eb) as (v & Ev & Hv).
    pose proof (proj1 Hst) as He. simpl in He.
    rewrite length_app, Nat.add_1_r. apply gadget_ns. destruct cb.
    - step gadget_mul as still Hs. apply gadget_ret. eapply (compared_one (denotes σ)); [done..|].
      unfold denotes in *. by rewrite Hs, He, Hv.
    - step gadget_mul as e' Hs. apply gadget_ret. eapply (compared_zero (denotes σ)); [done..|].
      unfold denotes in *. rewrite Hs, He, <-of_bool_not.
      by rewrite lval_sub, lval_constant, Hv. }
  intros [e l] Hst. eapply gadget_mono; [apply gadget_ns, gadget_equal|].
  intros [] E. rewrite lval_constant in E. destruct Hst as [_ Hl2]. unfold denotes in Hl2.
  simpl in Hl2. rewrite E, length_imap, length_zip_with, Hl', <-Hl, Nat.min_id in Hl2.
  rewrite !take_ge in Hl2 by lia. change ONE with (of_bool true) in Hl2.
  apply of_bool_inj in Hl2. rewrite be_bits_byte_bits, bits_int_bind_byte_bits in Hl2.
  by apply Z.ltb_lt.
Qed.

(** A packed group of at most 31 bytes determines them. *)
Lemma pack_bytes_inj xs bs bs' :
  bytes_are (denotes σ) xs bs → length bs = length bs' → length bs ≤ 31 →
  denotes σ (pack_bytes xs) (of_int (be_int bs')) → bs = bs'.
Proof.
  intros HF Hl Hn E. pose proof (pack_bytes_sem _ _ _ HF) as E'. unfold denotes in *.
  rewrite E' in E. apply be_int_inj; [done|].
  assert (∀ l, length l ≤ 31 → (0 ≤ be_int l < p)%Z) as Hb.
  { intros l Hl'. pose proof (be_int_range l). split; [lia|].
    apply Z.lt_le_trans with (256 ^ Z.of_nat (length l))%Z; [lia|].
    apply Z.le_trans with (256 ^ 31)%Z; [|done]. apply Z.pow_le_mono_r; lia. }
  apply of_int_inj in E; [done|apply Hb; lia..].
Qed.

(** The bytes are the constant string. *)
Lemma gadget_expect xs bs pattern :
  bytes_are (denotes σ) xs bs → length bs = length pattern →
  gadget σ (expect xs pattern) (λ _, bs = pattern).
Proof.
  intros HF Hl. pose proof (Forall2_length _ _ _ HF) as Hl'.
  unfold expect. eapply gadget_bind.
  { apply gadget_assert. apply Nat.eqb_eq. lia. }
  intros _ _.
  assert (∀ k (xs : list Lc) (bs pattern : list byte),
    bytes_are (denotes σ) xs bs → length bs = length pattern →
    gadget σ (mapM (λ '((i, (group, const)) : nat * (list Lc * list byte)),
    ns ("bytes from " +:+ pretty (16 * i)%nat)
    (equal (pack_bytes group) (constant (from_be const))))
    (imap (λ i x, ((k + i)%nat, x)) (zip (chunks 16 xs) (chunks 16 pattern))))
    (λ _, bs = pattern)) as Hg.
  { clear. intros k xs. remember (length xs) as n eqn:En. revert k xs En.
    induction (lt_wf n) as [n _ IH]. intros k xs -> bs pattern HF Hl.
    pose proof (Forall2_length _ _ _ HF) as Hl'. destruct xs as [|x xs].
    - apply gadget_ret. destruct bs, pattern; done.
    - rewrite (chunks_cons 16 (x :: xs)) by (lia || done).
      rewrite (chunks_cons 16 pattern) by (lia || by intros ->; destruct bs).
      cbn [zip zip_with]. rewrite imap_cons, Nat.add_0_r. cbn [mapM].
      eapply gadget_bind; [apply gadget_ns, gadget_equal|]. intros ? E.
      rewrite lval_constant, from_be_of_int in E by (rewrite length_take; lia).
      eapply (pack_bytes_inj _ (take 16 bs)) in E;
        [|by apply Forall2_take|rewrite !length_take; lia|rewrite length_take; lia].
      eapply gadget_bind.
      { eapply gadget_mono.
        - erewrite (imap_ext _ (λ i x, ((S k + i)%nat, x))) by (intros; simpl; f_equal; lia).
          apply (IH (length (drop 16 (x :: xs)))); [|done|by apply Forall2_drop
            |rewrite !length_drop; lia].
          rewrite length_drop. cbn [length]. lia.
        - intros ? Hd. exact Hd. }
      intros ? Hd. apply gadget_ret.
      by rewrite <-(take_drop 16 bs), <-(take_drop 16 pattern), E, Hd. }
  eapply gadget_bind; [apply (Hg 0%nat xs bs pattern HF Hl)|]. intros ? ?. by apply gadget_ret.
Qed.
End BitsRules.

(** * Honest runs *)
Section BitsHonest.
Context `{Bellpepper}.

Lemma knows_bit s b v :
  bit_get_value b = Some v → s_lookup s (bit_get_variable b) = Some (of_bool v) →
  knows s (bit (Boolean_from b)) (of_bool v).
Proof.
  intros Ev El. split.
  - unfold bit. simpl. by rewrite Boolean_from_value, Ev.
  - split.
    + apply within_in. intros w ->%Boolean_lc_vars. by exists (of_bool v).
    + unfold bit. simpl. rewrite Boolean_lc_eval. by apply recorded_lookup.
Qed.

Lemma emits_bit s v :
  has_one s →
  emits (AllocatedBit_alloc (Some v)) s [of_bool v]
  (λ b s', knows s' (bit (Boolean_from b)) (of_bool v)).
Proof.
  intros Ho. eapply emits_mono; [by apply bit_alloc_emits|]. intros b [E1 E2].
  apply knows_bit; [done|]. rewrite E1. simpl. by apply list_lookup_middle.
Qed.

Lemma bits_are_push s vs bs l : bits_are (knows s) bs l → bits_are (knows (push s vs)) bs l.
Proof. intros HF. eapply Forall2_impl; [exact HF|]. intros. by apply knows_push. Qed.

Lemma bytes_are_push s vs bs l : bytes_are (knows s) bs l → bytes_are (knows (push s vs)) bs l.
Proof. intros HF. eapply Forall2_impl; [exact HF|]. intros. by apply knows_push. Qed.

(** The slots of bits, in their order. *)
Lemma emits_alloc_bits s vs :
  has_one s →
  emits (alloc_bits (Some vs) (length vs)) s (of_bool <$> vs)
  (λ bs s', bits_are (knows s') bs vs).
Proof.
  intros Ho. unfold alloc_bits.
  rewrite <-(range_lookup false), <-bind_singleton.
  eapply emits_mono; [apply (emits_mapM _ _ _ _ (λ done bs s',
    has_one s' ∧ bits_are (knows s') bs (take (length done) vs)))|].
  - split; [done|constructor].
  - intros done i ys s' Hp [Ho' HF]. apply prefix_snoc_lookup in Hp as [Hi _].
    unfold range in Hi. apply lookup_seq in Hi as [E Hi]. rewrite Nat.add_0_l in E. subst i.
    destruct (lookup_lt_is_Some_2 vs _ Hi) as [v Ev]. unfold index. rewrite Ev.
    eapply (emits_bind_l _ _ _ _ (λ b _, b = Some v)); [by apply (emits_ret (Some v))|].
    intros ? ->. eapply emits_bind_r; [by apply emits_ns, emits_bit|].
    intros b Hb. apply emits_ret. split; [done|].
    rewrite length_app, Nat.add_1_r, (take_S_r _ _ _ Ev). apply Forall2_app.
    + by apply bits_are_push.
    + constructor; [exact Hb|constructor].
  - intros bs [_ HF]. unfold range in HF. by rewrite length_seq, take_ge in HF.
Qed.

(** The bits of a value in range. *)
Lemma emits_bits s x v n :
  has_one s → n < 256 → knows s x v → (repr v < 2 ^ Z.of_nat n)%Z →
  emits (bits x n) s (of_bool <$> int_bits n (repr v))
  (λ bs s', bits_are (knows s') bs (int_bits n (repr v))).
Proof.
  intros Ho Hn Kx Hv. unfold bits. rewrite (proj1 Kx). cbn [fmap option_fmap option_map].
  rewrite small_repr_testbits by lia.
  eapply emits_bind_l; [apply emits_assert; by apply Nat.ltb_lt|]. intros _ _.
  assert (∀ m l, length l = m → alloc_bits (Some l) m = alloc_bits (Some l) (length l))
    as E by by intros ? ? <-.
  rewrite E by apply length_int_bits. eapply emits_bind_r; [by apply emits_ns, emits_alloc_bits|].
  intros bs HF. eapply emits_bind_l; [|intros [] _; by apply emits_ret].
  apply emits_ns. eapply emits_equal; [done| |by apply knows_push].
  eapply knows_eq; [apply (pack_sem (knows _) (sem := knows_sem (push s _) Ho)); exact HF|].
  rewrite bits_int_int_bits. apply repr_inj.
  pose proof (repr_range v). rewrite repr_of_int, (Z.mod_small _ (2 ^ _)) by lia.
  by apply Z.mod_small.
Qed.

Lemma emits_digest_bits s x y v w :
  has_one s → knows s x v → knows s y w →
  (repr v < 2 ^ 128)%Z → (repr w < 2 ^ 128)%Z →
  let bits := int_bits 128 (repr v) ++ int_bits 128 (repr w) in
  emits (digest_bits (x, y)) s (of_bool <$> bits) (λ bs s', bits_are (knows s') bs bits).
Proof.
  intros Ho Kx Ky Hv Hw bits. unfold digest_bits, bits. rewrite fmap_app.
  eapply emits_bind; [apply emits_ns, (emits_bits _ _ v); [done|lia|done..]|].
  intros b1 HF1. eapply emits_bind_r.
  { apply emits_ns, (emits_bits _ _ w); [done|lia|by apply knows_push|done]. }
  intros b2 HF2. apply emits_ret. apply Forall2_app; [by apply bits_are_push|done].
Qed.

(** An honest comparison breaks no rule and allocates the native values. *)
Lemma emits_less_than s bs vs c :
  has_one s → bits_are (knows s) bs vs → length vs = length (be_bits c) →
  (bits_int vs < be_int c)%Z →
  emits (less_than bs c) s (less_than_values [] vs c) (λ _ _, True).
Proof.
  intros Ho HF Hl Hlt. pose proof (Forall2_length _ _ _ HF) as Hl'.
  unfold less_than. eapply emits_bind_l; [apply emits_assert, Nat.eqb_eq; lia|]. intros _ _.
  rewrite less_than_values_agreements by done.
  set (elems := imap _ _).
  assert (length elems = length vs) as Hle.
  { unfold elems. rewrite length_imap, length_zip_with. lia. }
  rewrite <-Hle. eapply emits_bind_r.
  { apply (emits_foldM _ (λ l, agreements vs (be_bits c) (length l)) elems _ _ (λ done st s',
      has_one s' ∧ bits_are (knows s') bs vs ∧
      compared (knows s') vs (be_bits c) (length done) st)); [done| |].
    { split; [done|]. split; [done|]. by apply compared_start, knows_sem. }
    intros done x [e l] s' Hp (Ho' & HF' & He & Hls).
    apply prefix_snoc_lookup in Hp as [Hx _].
    apply lookup_imap_zip in Hx as (b & cb & -> & Eb & Ec). simpl in He, Hls.
    destruct (Forall2_lookup_l _ _ _ _ _ HF' Eb) as (v & Ev & Hv).
    exists [of_bool (bool_decide (take (S (length done)) vs = take (S (length done)) (be_bits c)))].
    split. { rewrite length_app, Nat.add_1_r. unfold agreements. by rewrite seq_S, fmap_app. }
    destruct (compare_step _ _ _ _ _ Ev Ec) as [E1 _].
    rewrite length_app, Nat.add_1_r. apply emits_ns. destruct cb.
    - assert (of_bool (bool_decide (take (S (length done)) vs = take (S (length done)) (be_bits c)))
        = of_bool (bool_decide (take (length done) vs = take (length done) (be_bits c))) * of_bool v)%S as ->.
      { rewrite E1, of_bool_and. by destruct v, (bool_decide _). }
      eapply emits_bind_r; [by apply emits_ns, emits_mul|].
      intros still Hs. apply emits_ret. split; [done|]. split; [by apply bits_are_push|].
      apply (compared_one (knows _) (sem := knows_sem (push s' _) Ho') _ _ _ v); try done.
      split; by apply knows_push.
    - assert (of_bool (bool_decide (take (S (length done)) vs = take (S (length done)) (be_bits c)))
        = of_bool (bool_decide (take (length done) vs = take (length done) (be_bits c)))
      * (ONE - of_bool v))%S as ->.
        { rewrite E1, of_bool_not, of_bool_and. by destruct v, (bool_decide _). }
        eapply emits_bind_r.
        { apply emits_ns, emits_mul; [done|]. apply knows_sub; [by apply knows_constant|done]. }
        intros e' Hs. apply emits_ret. split; [done|]. split; [by apply bits_are_push|].
        eapply (compared_zero (knows (push s' _)) _ _ _ v); [done|done| |by rewrite <-of_bool_not].
        split; by apply knows_push. }
  intros [e l] (Ho' & _ & _ & Hls). apply emits_ns. rewrite Hle in Hls |- *. rewrite !take_ge in Hls by lia.
  rewrite be_bits_byte_bits, bits_int_bind_byte_bits in Hls. simpl in Hls.
  rewrite (proj2 (Z.ltb_lt _ _)) in Hls by done.
  eapply emits_equal; [done|exact Hls|by apply knows_constant].
Qed.
End BitsHonest.

(** * Properties *)
Section BitsProperties.
Context `{Bellpepper}.

(** C39: Whoever assigns the slots, the rules of [bits] hold only of an
    integer below 2^n, and the Booleans it returns are that integer's bits. *)
Theorem bits_sound (σ : Assignment) x n na ni :
  n < 256 → satisfies σ (bits x n) na ni →
  ∃ bs, (shape (bits x n) na ni).1.2 = Ok bs ∧
  bits_are (denotes σ) bs (int_bits n (repr (lval σ x))) ∧
  (repr (lval σ x) < 2 ^ Z.of_nat n)%Z.
Proof. intros Hn. apply gadget_satisfies. by apply gadget_bits. Qed.

(** For an integer below 2^n the synthesis of [bits] breaks no rule and
    allocates exactly the integer's bits, most significant first. *)
Lemma bits_complete st x v n :
  has_one (store st) → cs_broken st = None → n < 256 →
  knows (store st) x v → (repr v < 2 ^ Z.of_nat n)%Z →
  ∃ bs, run (bits x n) st = (Ok bs, cs_push st (of_bool <$> int_bits n (repr v))) ∧
  bits_are (knows (store (cs_push st (of_bool <$> int_bits n (repr v))))) bs (int_bits n (repr v)).
Proof.
  intros Ho Hb Hn Hk Hv.
  exact (emits_run _ _ _ _ (emits_bits _ _ _ _ Ho Hn Hk Hv) Hb).
Qed.

(** The rules of [less_than] hold only when the integer of the bits is
    below the constant; and then an honest synthesis breaks none of them and
    allocates the values that [less_than_values] lists. *)
Theorem less_than_exact bs vs c :
  length vs = length (be_bits c) →
  (∀ (σ : Assignment) na ni, bits_are (denotes σ) bs vs →
  satisfies σ (less_than bs c) na ni → (bits_int vs < be_int c)%Z) ∧
  (∀ st, has_one (store st) → cs_broken st = None → bits_are (knows (store st)) bs vs →
  (bits_int vs < be_int c)%Z →
  run (less_than bs c) st = (Ok tt, cs_push st (less_than_values [] vs c))).
Proof.
  intros Hl. split.
  - intros σ na ni HF Hs.
    by destruct (gadget_satisfies _ _ _ _ _ (gadget_less_than σ bs vs c HF Hl) Hs) as (_ & _ & ?).
  - intros st Ho Hb HF Hlt.
    destruct (emits_run _ _ _ _ (emits_less_than _ _ _ _ Ho HF Hl Hlt) Hb) as ([] & R & _). exact R.
Qed.

(** The rules of [expect] hold only when the bytes are the constant
    string. *)
Theorem expect_sound (σ : Assignment) xs bs pattern na ni :
  bytes_are (denotes σ) xs bs → length bs = length pattern →
  satisfies σ (expect xs pattern) na ni → bs = pattern.
Proof.
  intros HF Hl Hs.
  by destruct (gadget_satisfies _ _ _ _ _ (gadget_expect σ xs bs pattern HF Hl) Hs) as (_ & _ & ?).
Qed.
End BitsProperties.
