(* ===== verification/Gadgets.v ===== *)
(** [gadget_utils.rs]: choices between numbers, the equality bit, constants,
    and the change of field, of the circuits over [AllocatedNum].

    A number denotes the value of its slot. [gadget_...] lemmas say what the
    rules force of any assignment; [emits_...] lemmas what an honest run
    allocates. The one operation on a [BigNat] is not here. *)
From Stdlib Require Import ZArith Lia Strings.String Strings.Byte.
From Stdlib Require Import Field_tac Ring.
From stdpp Require Import base list numbers option strings.
From S2P Require Import Prelude Bytes Field ConstraintSystem Shape CheckSystem Bellpepper Lc Bits.

(** What more the gadgets use of [bellpepper_core]: an allocation that cannot
    fail, products and squares of numbers. A product is a new slot and one
    rule. *)
Class NumOps `{Bellpepper} := {
  AllocatedNum_alloc_infallible : Scalar → Synth AllocatedNum;
  AllocatedNum_mul : AllocatedNum → AllocatedNum → Synth AllocatedNum;
  AllocatedNum_square : AllocatedNum → Synth AllocatedNum;
  num_alloc_infallible_rules (σ : Assignment) v :
    gadget σ (AllocatedNum_alloc_infallible v) (λ _, True);
  num_mul_rules (σ : Assignment) a b :
    gadget σ (AllocatedNum_mul a b) (λ c,
      σ (get_variable c) = (σ (get_variable a) * σ (get_variable b))%S);
  num_square_rules (σ : Assignment) a :
    gadget σ (AllocatedNum_square a) (λ c,
      σ (get_variable c) = (σ (get_variable a) * σ (get_variable a))%S);
}.

Section Gadgets.
Context `{NumOps}.
Implicit Types a b condition : AllocatedNum.

(** [bellpepper::gadgets::Assignment::get]. *)
Definition get {A} (v : option A) : outcome SynthesisError A := ok_or AssignmentMissing v.
(** [x.invert().unwrap()]. *)
Definition invert_unwrap (x : Scalar) : outcome SynthesisError Scalar :=
  match invert x with Some y => Ok y | None => Panic "unwrap" end.

Definition alloc_zero : Synth AllocatedNum :=
  zero ← ns "alloc" (AllocatedNum_alloc_infallible ZERO);
  enforce "check zero is valid" lc_zero lc_zero (lc_add_var lc_zero (get_variable zero)) ;;
  mret zero.

(** [field_switch], from a field's little-endian bits to another field. *)
Definition field_switch (input_bits : list bool) : Scalar :=
  (foldl (λ '(val, mult) (bit : bool),
    (if bit then val + mult else val, mult + mult)%S) (ZERO, ONE) input_bits).1.

Definition alloc_num_equals a b : Synth AllocatedBit :=
  let r_value :=
    match get_value a, get_value b with
    | Some a, Some b => Some (bool_decide (a = b))
    | _, _ => None
    end in
  r ← ns "r" (AllocatedBit_alloc r_value);
  t ← ns "t" (AllocatedNum_alloc (
    a ← get (get_value a);
    b ← get (get_value b);
    if bool_decide (a = b) then Ok ONE else invert_unwrap (a - b)%S));
  enforce "t*(a - b) = 1 - r"
    (lc_add_var lc_zero (get_variable t))
    (lc_sub_var (lc_add_var lc_zero (get_variable a)) (get_variable b))
    (lc_sub_var (lc_add_var lc_zero one) (bit_get_variable r)) ;;
  enforce "r*(a - b) = 0"
    (lc_add_var lc_zero (bit_get_variable r))
    (lc_sub_var (lc_add_var lc_zero (get_variable a)) (get_variable b))
    lc_zero ;;
  mret r.

Definition conditionally_select a b (condition : Boolean) : Synth AllocatedNum :=
  c ← ns "conditional select result" (AllocatedNum_alloc (
    condition ← get (Boolean_get_value condition);
    if (condition : bool) then get (get_value a) else get (get_value b)));
  enforce "conditional select constraint"
    (lc_sub_var (lc_add_var lc_zero (get_variable a)) (get_variable b))
    (Boolean_lc condition one ONE)
    (lc_sub_var (lc_add_var lc_zero (get_variable c)) (get_variable b)) ;;
  mret c.

(** [*condition.get_value().get()? == F::ONE]. *)
Definition is_one condition : outcome SynthesisError bool :=
  c ← get (get_value condition); Ok (bool_decide (c = ONE)).

Definition conditionally_select2 a b condition : Synth AllocatedNum :=
  c ← ns "conditional select result" (AllocatedNum_alloc (
    condition ← is_one condition;
    if (condition : bool) then get (get_value a) else get (get_value b)));
  enforce "conditional select constraint"
    (lc_sub_var (lc_add_var lc_zero (get_variable a)) (get_variable b))
    (lc_add_var lc_zero (get_variable condition))
    (lc_sub_var (lc_add_var lc_zero (get_variable c)) (get_variable b)) ;;
  mret c.

Definition select_zero_or_num2 a condition : Synth AllocatedNum :=
  c ← ns "conditional select result" (AllocatedNum_alloc (
    condition ← is_one condition;
    if (condition : bool) then Ok ZERO else get (get_value a)));
  enforce "conditional select constraint"
    (lc_add_var lc_zero (get_variable a))
    (lc_sub_var (lc_add_var lc_zero one) (get_variable condition))
    (lc_add_var lc_zero (get_variable c)) ;;
  mret c.

Definition select_num_or_zero2 a condition : Synth AllocatedNum :=
  c ← ns "conditional select result" (AllocatedNum_alloc (
    condition ← is_one condition;
    if (condition : bool) then get (get_value a) else Ok ZERO));
  enforce "conditional select constraint"
    (lc_add_var lc_zero (get_variable a))
    (lc_add_var lc_zero (get_variable condition))
    (lc_add_var lc_zero (get_variable c)) ;;
  mret c.

Definition select_num_or_zero a (condition : Boolean) : Synth AllocatedNum :=
  c ← ns "conditional select result" (AllocatedNum_alloc (
    condition ← get (Boolean_get_value condition);
    if (condition : bool) then get (get_value a) else Ok ZERO));
  enforce "conditional select constraint"
    (lc_add_var lc_zero (get_variable a))
    (Boolean_lc condition one ONE)
    (lc_add_var lc_zero (get_variable c)) ;;
  mret c.

Definition select_one_or_num2 a condition : Synth AllocatedNum :=
  c ← ns "conditional select result" (AllocatedNum_alloc (
    condition ← is_one condition;
    if (condition : bool) then Ok ONE else get (get_value a)));
  enforce "conditional select constraint"
    (lc_sub_var (lc_add_var lc_zero one) (get_variable a))
    (lc_add_var lc_zero (get_variable condition))
    (lc_sub_var (lc_add_var lc_zero (get_variable c)) (get_variable a)) ;;
  mret c.

Definition select_one_or_diff2 a b condition : Synth AllocatedNum :=
  c ← ns "conditional select result" (AllocatedNum_alloc (
    condition ← is_one condition;
    if (condition : bool) then Ok ONE
    else a ← get (get_value a); b ← get (get_value b); Ok (a - b)%S));
  enforce "conditional select constraint"
    (lc_add_var (lc_sub_var (lc_add_var lc_zero one) (get_variable a)) (get_variable b))
    (lc_add_var lc_zero (get_variable condition))
    (lc_add_var (lc_sub_var (lc_add_var lc_zero (get_variable c)) (get_variable a)) (get_variable b)) ;;
  mret c.

Definition select_num_or_one a (condition : Boolean) : Synth AllocatedNum :=
  c ← ns "conditional select result" (AllocatedNum_alloc (
    condition ← get (Boolean_get_value condition);
    if (condition : bool) then get (get_value a) else Ok ONE));
  enforce "conditional select constraint"
    (lc_sub_var (lc_add_var lc_zero (get_variable a)) one)
    (Boolean_lc condition one ONE)
    (lc_sub_var (lc_add_var lc_zero (get_variable c)) one) ;;
  mret c.

Definition alloc_constant (c : Scalar) : Synth AllocatedNum :=
  constant ← ns "constant" (AllocatedNum_alloc (Ok c));
  enforce "check eq given constant"
    (lc_add_var lc_zero (get_variable constant))
    (lc_add_var lc_zero one)
    (lc_add_term lc_zero (c, one)) ;;
  mret constant.
End Gadgets.

(** * The values of the sums *)
Section Evals.
Context `{LinearCombinations} (σ : Var → Scalar).

Lemma eval_zero : eval σ lc_zero = ZERO.
Proof. apply lc_zero_eval. Qed.
Lemma eval_add_var l v : eval σ (lc_add_var l v) = (eval σ l + σ v)%S.
Proof. apply lc_add_var_eval. Qed.
Lemma eval_sub_var l v : eval σ (lc_sub_var l v) = (eval σ l - σ v)%S.
Proof. apply lc_sub_var_eval. Qed.
Lemma eval_add_term l c v : eval σ (lc_add_term l (c, v)) = (eval σ l + c * σ v)%S.
Proof. apply lc_add_term_eval. Qed.
Lemma eval_sub_term l c v : eval σ (lc_sub_term l (c, v)) = (eval σ l - c * σ v)%S.
Proof. apply lc_sub_term_eval. Qed.
Lemma eval_add l l' : eval σ (lc_add l l') = (eval σ l + eval σ l')%S.
Proof. apply lc_add_eval. Qed.
Lemma eval_sub l l' : eval σ (lc_sub l l') = (eval σ l - eval σ l')%S.
Proof. apply lc_sub_eval. Qed.
Lemma eval_add_scaled l c l' : eval σ (lc_add_scaled l (c, l')) = (eval σ l + c * eval σ l')%S.
Proof. apply lc_add_scaled_eval. Qed.
Lemma eval_sub_scaled l c l' : eval σ (lc_sub_scaled l (c, l')) = (eval σ l - c * eval σ l')%S.
Proof. apply lc_sub_scaled_eval. Qed.
End Evals.

Lemma eval_one `{ScalarField} (σ : Assignment) : σ one = ONE.
Proof. apply assign_one. Qed.

Create Rewrite HintDb evals.
#[export] Hint Rewrite @eval_zero @eval_add_var @eval_sub_var @eval_add_term @eval_sub_term
  @eval_add @eval_sub @eval_add_scaled @eval_sub_scaled @eval_one @Boolean_lc_eval : evals.

(** * What the rules force *)

(** The value of a number, a number that is a bit, and an allocated bit. *)
Definition nval `{Bellpepper} (σ : Assignment) (a : AllocatedNum) : Scalar := σ (get_variable a).
Definition nbit `{Bellpepper} (σ : Assignment) (a : AllocatedNum) (v : bool) : Prop := nval σ a = of_bool v.
Definition bbit `{Bellpepper} (σ : Assignment) (r : AllocatedBit) (v : bool) : Prop :=
  σ (bit_get_variable r) = of_bool v.

(** Runs an allocation; runs a rule and leaves it as the equation [E] of the
    slots' values; proves an equation that is the rule [E] up to the laws of
    the field. *)
Ltac alloc_rule :=
  eapply gadget_bind; [apply gadget_ns; apply gadget_AllocatedNum_alloc|]; intros ? _.
Ltac fold_nval E :=
  repeat match type of E with context [assign ?s (get_variable ?n)] =>
    change (assign s (get_variable n)) with (nval s n) in E end.
Ltac rule_as E :=
  eapply gadget_bind; [apply gadget_enforce|]; intros [] E; autorewrite with evals in E; fold_nval E.
Ltac by_rule E :=
  match type of E with
  | ?l = ?r => apply sc_sub_0;
      first [transitivity (l - r)%S; [ring|rewrite E; ring]
            |transitivity (r - l)%S; [ring|rewrite E; ring]]
  end.

Section GadgetRules.
Context `{NumOps} (σ : Assignment).
Add Field scalar_field : scalar_field_theory (morphism of_int_morph, constants [scalar_const]).
Implicit Types a b condition : AllocatedNum.
Local Abbreviation nval := (nval σ).
Local Abbreviation nbit := (nbit σ).
Local Abbreviation bbit := (bbit σ).

Lemma gadget_alloc_zero : gadget σ alloc_zero (λ z, nval z = ZERO).
Proof.
  unfold alloc_zero. step num_alloc_infallible_rules as z _. rule_as E. apply gadget_ret. by_rule E.
Qed.

Lemma gadget_alloc_constant c : gadget σ (alloc_constant c) (λ n, nval n = c).
Proof. unfold alloc_constant. alloc_rule. rule_as E. apply gadget_ret. by_rule E. Qed.

Lemma gadget_AllocatedBit_alloc v : gadget σ (AllocatedBit_alloc v) (λ r, ∃ w, bbit r w).
Proof.
  intros na ni. apply bit_alloc_wp. intros r E [Z|Z]; (split; [done|]); unfold bbit; rewrite E, Z;
    [by exists false|by exists true].
Qed.

(** The bit is one exactly when the two numbers are equal. *)
Lemma gadget_alloc_num_equals a b :
  gadget σ (alloc_num_equals a b) (λ r, bbit r (bool_decide (nval a = nval b))).
Proof.
  unfold alloc_num_equals. step gadget_AllocatedBit_alloc as r (w & Hr). alloc_rule.
  rule_as E1. rule_as E2. apply gadget_ret. unfold bbit in *. rewrite Hr in *.
  destruct w; simpl of_bool in *.
  - rewrite bool_decide_eq_true_2; [done|]. by_rule E2.
  - rewrite bool_decide_eq_false_2; [done|]. intros E. rewrite E in E1. apply one_nonzero. by_rule E1.
Qed.

(** A choice by a number that is a bit, or by a Boolean of a bit: one rule,
    which says the same of both values of the bit. *)
Ltac choice Hc :=
  let E := fresh in alloc_rule; rule_as E; apply gadget_ret;
  rewrite Hc in E; match type of Hc with Gadgets.nbit _ _ ?c => destruct c | Gadgets.bbit _ _ ?c => destruct c end; simpl in E; by_rule E.

Lemma gadget_conditionally_select a b r c :
  bbit r c →
  gadget σ (conditionally_select a b (Boolean_from r)) (λ n, nval n = if c then nval a else nval b).
Proof. intros Hc. unfold conditionally_select. choice Hc. Qed.

Lemma gadget_conditionally_select2 a b condition c :
  nbit condition c →
  gadget σ (conditionally_select2 a b condition) (λ n, nval n = if c then nval a else nval b).
Proof. intros Hc. unfold conditionally_select2. choice Hc. Qed.

Lemma gadget_select_zero_or_num2 a condition c :
  nbit condition c →
  gadget σ (select_zero_or_num2 a condition) (λ n, nval n = if c then ZERO else nval a).
Proof. intros Hc. unfold select_zero_or_num2. choice Hc. Qed.

Lemma gadget_select_num_or_zero2 a condition c :
  nbit condition c →
  gadget σ (select_num_or_zero2 a condition) (λ n, nval n = if c then nval a else ZERO).
Proof. intros Hc. unfold select_num_or_zero2. choice Hc. Qed.

Lemma gadget_select_num_or_zero a r c :
  bbit r c →
  gadget σ (select_num_or_zero a (Boolean_from r)) (λ n, nval n = if c then nval a else ZERO).
Proof. intros Hc. unfold select_num_or_zero. choice Hc. Qed.

Lemma gadget_select_one_or_num2 a condition c :
  nbit condition c →
  gadget σ (select_one_or_num2 a condition) (λ n, nval n = if c then ONE else nval a).
Proof. intros Hc. unfold select_one_or_num2. choice Hc. Qed.

Lemma gadget_select_one_or_diff2 a b condition c :
  nbit condition c →
  gadget σ (select_one_or_diff2 a b condition)
    (λ n, nval n = if c then ONE else (nval a - nval b)%S).
Proof. intros Hc. unfold select_one_or_diff2. choice Hc. Qed.

Lemma gadget_select_num_or_one a r c :
  bbit r c →
  gadget σ (select_num_or_one a (Boolean_from r)) (λ n, nval n = if c then nval a else ONE).
Proof. intros Hc. unfold select_num_or_one. choice Hc. Qed.
End GadgetRules.

(** * Honest runs *)

(** From the store [s], [m] breaks no rule, allocates some private values and
    no public one, and returns a result with [P]. *)
Definition completes `{LinearCombinations} {A} (m : Synth A) (s : Store) (P : A → Store → Prop) : Prop :=
  ∃ vs, emits m s vs P.

(** What the honest run also uses of the products. *)
Class NumOpsRuns `{NumOps} := {
  num_alloc_infallible_runs s x :
    emits (AllocatedNum_alloc_infallible x) s [x]
      (λ n s', get_value n = Some x ∧ s_lookup s' (get_variable n) = Some x);
  num_mul_runs s a b x y :
    get_value a = Some x → s_lookup s (get_variable a) = Some x →
    get_value b = Some y → s_lookup s (get_variable b) = Some y →
    completes (AllocatedNum_mul a b) s
      (λ n s', get_value n = Some (x * y)%S ∧ s_lookup s' (get_variable n) = Some (x * y)%S);
  num_square_runs s a x :
    get_value a = Some x → s_lookup s (get_variable a) = Some x →
    completes (AllocatedNum_square a) s
      (λ n s', get_value n = Some (x * x)%S ∧ s_lookup s' (get_variable n) = Some (x * x)%S);
}.

Section Completes.
Context `{LinearCombinations}.
Add Field scalar_field : scalar_field_theory (morphism of_int_morph, constants [scalar_const]).

Lemma completes_ret {A} (a : A) s (P : A → Store → Prop) : P a s → completes (mret a) s P.
Proof. intros. exists []. by apply emits_ret. Qed.

(** The rest of a circuit runs on a store that continues the first. *)
Lemma completes_bind {A B} (m : Synth A) (f : A → Synth B) s P Q :
  completes m s P → (∀ a vs, P a (push s vs) → completes (f a) (push s vs) Q) →
  completes (m ≫= f) s Q.
Proof.
  intros (vs & a & Ha & Hr) Hf. destruct (Hf a vs Ha) as (vs' & Hf').
  exists (vs ++ vs'). eapply emits_bind with (P := λ a' s', a' = a ∧ P a s').
  - exists a. split; [done|]. exact Hr.
  - intros ? [-> _]. done.
Qed.

Lemma completes_ns {A} name (m : Synth A) s (P : A → Store → Prop) :
  completes m s P → completes (ns name m) s P.
Proof. intros [vs ?]. exists vs. by apply emits_ns. Qed.

Lemma completes_mono {A} (m : Synth A) s (P Q : A → Store → Prop) :
  completes m s P → (∀ a vs, P a (push s vs) → Q a (push s vs)) → completes m s Q.
Proof. intros [vs Hm] HQ. exists vs. eapply emits_mono; [exact Hm|]. auto. Qed.

Lemma completes_enforce name a b c s x y z :
  valued s a x → valued s b y → valued s c z → (x * y)%S = z →
  completes (enforce name a b c) s (λ _ _, True).
Proof. intros. exists []. by eapply emits_enforce. Qed.

(** A loop: [I] relates what is done to what is carried, on a store that
    continues the first. *)
Lemma completes_foldM {A B} (f : B → A → Synth B) l b0 s (I : list A → B → Store → Prop) :
  I [] b0 s →
  (∀ done x b vs, done ++ [x] `prefix_of` l → I done b (push s vs) →
     completes (f b x) (push s vs) (I (done ++ [x]))) →
  completes (foldM f b0 l) s (I l).
Proof.
  intros H0' Hf.
  enough (∀ todo done b vs, l = done ++ todo → I done b (push s vs) →
    completes (foldM f b todo) (push s vs) (I l)) as Hg.
  { rewrite <-(push_nil s). apply (Hg l []); [done|]. by rewrite push_nil. }
  induction todo as [|x todo IH]; intros done b vs El Hb.
  - apply completes_ret. by rewrite El, app_nil_r.
  - cbn [foldM]. eapply completes_bind.
    + apply Hf; [|exact Hb]. rewrite El. exists todo. by rewrite <-app_assoc.
    + intros b' vs' Hb'. rewrite push_push in *. apply (IH (done ++ [x])); [|done].
      by rewrite <-app_assoc.
Qed.

Lemma valued_sub_var s a v x y :
  valued s a x → s_lookup s v = Some y → valued s (lc_sub_var a v) (x - y)%S.
Proof.
  intros [Wa <-] E. split.
  - apply within_in. intros w [? | ->]%lc_sub_var_vars; eauto using within_out.
  - unfold eval. by rewrite lc_sub_var_eval, (recorded_lookup _ _ _ E).
Qed.
End Completes.


Section Known.
Context `{NumOpsRuns}.
Add Field scalar_field : scalar_field_theory (morphism of_int_morph, constants [scalar_const]).

(** A number and a bit whose slots hold the value they carry. *)
Definition num_knows (s : Store) a (x : Scalar) : Prop :=
  get_value a = Some x ∧ s_lookup s (get_variable a) = Some x.
Definition bit_knows (s : Store) (r : AllocatedBit) (c : bool) : Prop :=
  bit_get_value r = Some c ∧ s_lookup s (bit_get_variable r) = Some (of_bool c).

Lemma num_knows_push s vs a x : num_knows s a x → num_knows (push s vs) a x.
Proof. intros [? ?]. split; [done|by apply lookup_push]. Qed.
Lemma bit_knows_push s vs r c : bit_knows s r c → bit_knows (push s vs) r c.
Proof. intros [? ?]. split; [done|by apply lookup_push]. Qed.

Lemma valued_Boolean s r c : bit_knows s r c → valued s (Boolean_lc (Boolean_from r) one ONE) (of_bool c).
Proof. intros [E1 E2]. by apply knows_bit. Qed.

Lemma completes_num v x s :
  v = Ok x → completes (AllocatedNum_alloc v) s (λ n s', num_knows s' n x).
Proof.
  intros ->. exists [x]. eapply emits_mono; [apply num_alloc_emits|]. intros n [E1 E2].
  split; [done|]. rewrite E1. simpl. by apply list_lookup_middle.
Qed.

Lemma completes_bit s c :
  has_one s → completes (AllocatedBit_alloc (Some c)) s (λ r s', bit_knows s' r c).
Proof.
  intros Ho. exists [of_bool c]. eapply emits_mono; [by apply bit_alloc_emits|].
  intros r [E1 E2]. split; [done|]. rewrite E1. simpl. by apply list_lookup_middle.
Qed.

Lemma is_one_knows s condition c : num_knows s condition (of_bool c) → is_one condition = Ok c.
Proof.
  intros [E _]. unfold is_one. rewrite E. simpl. f_equal. destruct c; simpl.
  - by apply bool_decide_eq_true.
  - apply bool_decide_eq_false. intros Z. by apply one_nonzero.
Qed.

Lemma get_knows s a x : num_knows s a x → get (get_value a) = Ok x.
Proof. by intros [-> _]. Qed.
Lemma get_bit_knows s r c : bit_knows s r c → get (Boolean_get_value (Boolean_from r)) = Ok c.
Proof. intros [E _]. by rewrite Boolean_from_value, E. Qed.

End Known.

(** The value of a closure, from what the numbers it reads carry. *)
Ltac closure :=
  repeat match goal with
  | K : num_knows _ ?n (of_bool _) |- context [is_one ?n] => rewrite (is_one_knows _ _ _ K)
  | K : num_knows _ ?n _ |- context [get (get_value ?n)] => rewrite (get_knows _ _ _ K)
  | K : bit_knows _ ?r _ |- context [get (Boolean_get_value (Boolean_from ?r))] =>
      rewrite (get_bit_knows _ _ _ K)
  | K : bit_knows _ ?r _ |- context [get (bit_get_value ?r)] => rewrite (proj1 K)
  end; simpl.

(** The value of a sum of known slots. *)
Ltac sum_value :=
  repeat first [apply valued_of_zero | eapply valued_add_var | eapply valued_sub_var
               | eapply valued_add_term | eapply valued_Boolean; eassumption];
  match goal with
  | K : num_knows ?s ?n _ |- s_lookup ?s (get_variable ?n) = Some _ => exact (proj2 K)
  | K : bit_knows ?s ?n _ |- s_lookup ?s (bit_get_variable ?n) = Some _ => exact (proj2 K)
  | K : has_one ?s |- s_lookup ?s one = Some _ => exact K
  end.

(** What is known stays known on a store that continues; [keep_more] says it
    of facts that later files define. *)
Ltac keep_more vs := idtac.
Ltac keep vs :=
  keep_more vs;
  repeat match goal with
  | K : num_knows ?s _ _ |- _ => lazymatch s with push _ vs => fail | _ => apply (num_knows_push s vs) in K end
  | K : bit_knows ?s _ _ |- _ => lazymatch s with push _ vs => fail | _ => apply (bit_knows_push s vs) in K end
  | K : has_one ?s |- _ => lazymatch s with push _ vs => fail | _ => apply (has_one_push s vs) in K end
  end;
  let st := fresh "s" in
  match goal with |- completes _ (push ?before vs) _ =>
    set (st := push before vs) in *; clearbody st; try clear before; try clear vs end.
Ltac allocates x :=
  eapply completes_bind; [apply completes_ns; apply (completes_num _ x); closure; try reflexivity
    |let vs := fresh "vs" in let K := fresh "K" in intros ? vs K; cbv beta in K; keep vs].
Ltac enforces :=
  eapply completes_bind; [eapply completes_enforce; [sum_value|sum_value|sum_value|]
    |let vs := fresh "vs" in intros [] vs _; keep vs].

Section GadgetRuns.
Context `{NumOpsRuns}.
Add Field scalar_field : scalar_field_theory (morphism of_int_morph, constants [scalar_const]).
Implicit Types a b condition : AllocatedNum.

Ltac both_values := match goal with c : bool |- _ => destruct c end; simpl.
(** An honest choice: its value, and the rule at that value. *)
Ltac chooses v :=
  let Ho := fresh "Ho" in intros Ho; intros; allocates v; [try by both_values|enforces; [both_values; ring|by apply completes_ret]].

Lemma completes_conditionally_select s a b r x y c :
  has_one s → num_knows s a x → num_knows s b y → bit_knows s r c →
  completes (conditionally_select a b (Boolean_from r)) s
    (λ n s', num_knows s' n (if c then x else y)).
Proof. unfold conditionally_select. chooses (if c then x else y). Qed.

Lemma completes_conditionally_select2 s a b condition x y c :
  has_one s → num_knows s a x → num_knows s b y → num_knows s condition (of_bool c) →
  completes (conditionally_select2 a b condition) s
    (λ n s', num_knows s' n (if c then x else y)).
Proof. unfold conditionally_select2. chooses (if c then x else y). Qed.

Lemma completes_select_zero_or_num2 s a condition x c :
  has_one s → num_knows s a x → num_knows s condition (of_bool c) →
  completes (select_zero_or_num2 a condition) s
    (λ n s', num_knows s' n (if c then ZERO else x)).
Proof. unfold select_zero_or_num2. chooses (if c then ZERO else x). Qed.

Lemma completes_select_num_or_zero2 s a condition x c :
  has_one s → num_knows s a x → num_knows s condition (of_bool c) →
  completes (select_num_or_zero2 a condition) s
    (λ n s', num_knows s' n (if c then x else ZERO)).
Proof. unfold select_num_or_zero2. chooses (if c then x else ZERO). Qed.

Lemma completes_select_num_or_zero s a r x c :
  has_one s → num_knows s a x → bit_knows s r c →
  completes (select_num_or_zero a (Boolean_from r)) s
    (λ n s', num_knows s' n (if c then x else ZERO)).
Proof. unfold select_num_or_zero. chooses (if c then x else ZERO). Qed.

Lemma completes_select_one_or_num2 s a condition x c :
  has_one s → num_knows s a x → num_knows s condition (of_bool c) →
  completes (select_one_or_num2 a condition) s
    (λ n s', num_knows s' n (if c then ONE else x)).
Proof. unfold select_one_or_num2. chooses (if c then ONE else x). Qed.

Lemma completes_select_one_or_diff2 s a b condition x y c :
  has_one s → num_knows s a x → num_knows s b y → num_knows s condition (of_bool c) →
  completes (select_one_or_diff2 a b condition) s
    (λ n s', num_knows s' n (if c then ONE else (x - y)%S)).
Proof. unfold select_one_or_diff2. chooses (if c then ONE else (x - y)%S). Qed.

Lemma completes_select_num_or_one s a r x c :
  has_one s → num_knows s a x → bit_knows s r c →
  completes (select_num_or_one a (Boolean_from r)) s
    (λ n s', num_knows s' n (if c then x else ONE)).
Proof. unfold select_num_or_one. chooses (if c then x else ONE). Qed.

Lemma completes_alloc_zero s : has_one s → completes alloc_zero s (λ n s', num_knows s' n ZERO).
Proof.
  intros Ho. unfold alloc_zero. eapply completes_bind.
  { apply completes_ns. eexists. apply num_alloc_infallible_runs. }
  intros z vs K. change (num_knows (push s vs) z ZERO) in K. keep vs. enforces; [ring|].
  by apply completes_ret.
Qed.

Lemma completes_alloc_constant s c :
  has_one s → completes (alloc_constant c) s (λ n s', num_knows s' n c).
Proof.
  intros Ho. unfold alloc_constant. allocates c. enforces; [ring|]. by apply completes_ret.
Qed.

Lemma sc_sub_nonzero (x y : Scalar) : x ≠ y → (x - y)%S ≠ ZERO.
Proof. intros N E. by apply N, sc_sub_0. Qed.

Lemma invert_unwrap_knows x : x ≠ ZERO → invert_unwrap x = Ok (sc_inv x).
Proof. intros (y & E & _)%invert_mul. unfold invert_unwrap, sc_inv. by rewrite E. Qed.

Lemma completes_alloc_num_equals s a b x y :
  has_one s → num_knows s a x → num_knows s b y →
  completes (alloc_num_equals a b) s (λ r s', bit_knows s' r (bool_decide (x = y))).
Proof.
  intros Ho Ka Kb. unfold alloc_num_equals. rewrite (proj1 Ka), (proj1 Kb).
  eapply completes_bind; [by apply completes_ns, completes_bit|]. intros r vs Kr. cbv beta in Kr. keep vs.
  allocates (if bool_decide (x = y) then ONE else sc_inv (x - y)).
  { case_bool_decide; [done|]. apply invert_unwrap_knows. by apply sc_sub_nonzero. }
  enforces.
  { case_bool_decide as E; simpl; [rewrite E; ring|].
    transitivity (sc_inv (x - y) * (x - y))%S; [ring|]. rewrite sc_inv_l; [ring|].
    by apply sc_sub_nonzero. }
  enforces.
  { case_bool_decide as E; simpl; [rewrite E|]; ring. }
  by apply completes_ret.
Qed.
End GadgetRuns.
