(* ===== verification/Select.v ===== *)
(** [gadgets/select.rs]: the one-hot selector. One bit per index, exactly one
    of them set; an entry is read by a sum of products with the bits. *)
From Stdlib Require Import ZArith Lia Strings.String Strings.Byte.
From Stdlib Require Import Field_tac Ring.
From stdpp Require Import base list numbers option strings pretty.
From S2P Require Import Prelude Bytes Field ConstraintSystem Shape CheckSystem Bellpepper Lc Values Bits.

Section Select.
Context `{Bellpepper}.

(** [struct OneHot]. *)
Record OneHot := { one_hot_bits : list Boolean }.

(** [OneHot::alloc]. *)
Definition one_hot_alloc (n : nat) (index : option nat) : Synth OneHot :=
  bits ← mapM (λ j,
  b ← ns ("bit " +:+ pretty j) (AllocatedBit_alloc ((λ i, bool_decide (i = j)) <$> index));
  mret (Boolean_from b)) (range n);
  let sum := foldl (λ sum b, add_lc sum (bit b)) lc_of_zero bits in
  ns "one bit set" (equal sum (constant ONE)) ;;
  mret {| one_hot_bits := bits |}.

(** [OneHot::index]: the sum of j · s_j. *)
Definition one_hot_index (o : OneHot) : Lc :=
  foldl (λ sum '(j, b), add_lc sum (scale (bit b) (from_u64 (Z.of_nat j))))
  lc_of_zero (imap (λ j b, (j, b)) (one_hot_bits o)).

(** [OneHot::select]; [entries[0]] panics when there is none. *)
Definition select (o : OneHot) (entries : list Lc) : Synth Lc :=
  assert (length entries =? length (one_hot_bits o))%nat "assert_eq" ;;
  first ← index entries 0;
  foldM (λ sum '(j, (b, entry)),
  let difference := sub_lc entry first in
  product ← ns ("entry " +:+ pretty (j : nat)) (mul (bit b) difference);
  mret (add_lc sum product))
  first (drop 1 (imap (λ j x, (j, x)) (zip (one_hot_bits o) entries))).

Definition one_hot_values (values : Values) (n index : nat) : Values :=
  values ++ ((λ j, if bool_decide (j = index) then ONE else ZERO) <$> range n).

Definition select_values (values : Values) (n index : nat) (entry : nat → Scalar)
  : Scalar * Values :=
  let first := entry 0%nat in
  let selected := (if bool_decide (1 ≤ index < n)%nat then entry index - first else ZERO)%S in
  ((first + selected)%S,
  values ++ ((λ j, if bool_decide (j = index) then selected else ZERO) <$> seq 1 (n - 1))).
End Select.

(** * One-hot bit lists *)
Section OneHotBits.
Definition one_hot (n k : nat) : list bool := (λ j, bool_decide (j = k)) <$> range n.

Lemma length_one_hot n k : length (one_hot n k) = n.
Proof. unfold one_hot, range. by rewrite length_fmap, length_seq. Qed.

Lemma lookup_one_hot n k j : j < n → one_hot n k !! j = Some (bool_decide (j = k)).
Proof. intros Hj. unfold one_hot, range. by rewrite list_lookup_fmap, lookup_seq_lt. Qed.

Definition count (bs : list bool) : Z := foldl (λ n b, n + Z.b2z b)%Z 0%Z bs.

Lemma count_snoc bs b : count (bs ++ [b]) = (count bs + Z.b2z b)%Z.
Proof. unfold count. by rewrite foldl_app. Qed.

Lemma count_range bs : (0 ≤ count bs ≤ Z.of_nat (length bs))%Z.
Proof.
  induction bs as [|b bs IH] using rev_ind; [done|].
  rewrite count_snoc, length_app, Nat.add_1_r. destruct b; simpl; lia.
Qed.

Lemma count_0 bs : count bs = 0%Z → bs = replicate (length bs) false.
Proof.
  induction bs as [|b bs IH] using rev_ind; [done|].
  rewrite count_snoc, length_app, replicate_add. pose proof (count_range bs).
  destruct b; simpl; intros; [lia|]. f_equal. apply IH. lia.
Qed.

Lemma one_hot_none n k : n ≤ k → one_hot n k = replicate n false.
Proof.
  intros Hk. apply list_eq. intros i. destruct (decide (i < n)) as [L|L].
  - rewrite lookup_one_hot, lookup_replicate_2 by done. f_equal.
    apply bool_decide_eq_false. lia.
  - rewrite !lookup_ge_None_2; [done|rewrite length_replicate; lia|rewrite length_one_hot; lia].
Qed.

Lemma one_hot_S n k : one_hot (S n) k = one_hot n k ++ [bool_decide (n = k)].
Proof. unfold one_hot, range. by rewrite seq_S, fmap_app. Qed.

(** Exactly one bit is set when the bits add up to one. *)
Lemma count_1 bs : count bs = 1%Z → ∃ k, k < length bs ∧ bs = one_hot (length bs) k.
Proof.
  induction bs as [|b bs IH] using rev_ind; [done|].
  rewrite count_snoc, length_app, Nat.add_1_r. destruct b; simpl; intros Hc.
  - exists (length bs). split; [lia|]. rewrite one_hot_S, bool_decide_eq_true_2 by done.
    f_equal. rewrite one_hot_none by done. apply count_0. lia.
  - destruct IH as (k & Hk & E); [lia|]. exists k. split; [lia|].
    rewrite one_hot_S, bool_decide_eq_false_2 by lia. by f_equal.
Qed.

Lemma count_one_hot n k : k < n → count (one_hot n k) = 1%Z.
Proof.
  induction n as [|n IH]; [lia|]. intros Hk. rewrite one_hot_S, count_snoc.
  destruct (decide (n = k)) as [<-|N].
  - rewrite bool_decide_eq_true_2, one_hot_none by done.
    enough (count (replicate n false) = 0%Z) as -> by done. clear.
    induction n as [|n IH]; [done|]. by rewrite replicate_S_end, count_snoc, IH.
  - rewrite bool_decide_eq_false_2, IH by (done || lia). done.
Qed.
End OneHotBits.

(** * What the selector's sums denote *)
Section SelectSem.
Context `{Bellpepper} (R : Lc → Scalar → Prop) {sem : LcSem R}.
Add Field scalar_field : scalar_field_theory (morphism of_int_morph, constants [scalar_const]).

(** A selector of [n] bits set at [k]. *)
Definition selects (o : OneHot) (n k : nat) : Prop :=
  k < n ∧ bits_are R (one_hot_bits o) (one_hot n k).

Lemma count_sem bs vs :
  bits_are R bs vs →
  R (foldl (λ sum b, add_lc sum (bit b)) lc_of_zero bs) (of_int (count vs)).
Proof.
  revert vs. induction bs as [|b bs IH] using rev_ind; intros vs HF.
  - apply Forall2_nil_inv_l in HF as ->. unfold count. simpl. rewrite of_int_0. apply sem_zero.
  - apply Forall2_app_inv_l in HF as (vs1 & vs2 & HF1 & HF2 & ->).
    apply Forall2_cons_inv_l in HF2 as (v & l & Hv & HF2 & ->).
    apply Forall2_nil_inv_l in HF2 as ->.
    rewrite foldl_app, count_snoc, of_int_add, <-of_bool_of_int. apply sem_add; auto.
Qed.

Lemma index_sem o n k :
  (Z.of_nat n < 2 ^ 64)%Z → selects o n k → R (one_hot_index o) (of_int (Z.of_nat k)).
Proof.
  intros Hn [Hk HF]. unfold one_hot_index.
  enough (∀ m bs, m = length bs → (Z.of_nat m < 2 ^ 64)%Z → bits_are R bs (one_hot m k) →
    R (foldl (λ sum '(j, b), add_lc sum (scale (bit b) (from_u64 (Z.of_nat j))))
    lc_of_zero (imap (λ j b, (j, b)) bs))
    (if decide (k < m) then of_int (Z.of_nat k) else ZERO)) as Hg.
  { specialize (Hg n (one_hot_bits o)). rewrite decide_True in Hg by done. apply Hg; [|done..].
    symmetry. rewrite (Forall2_length _ _ _ HF). apply length_one_hot. }
  clear n Hn o Hk HF. intros m bs. revert m.
  induction bs as [|b bs IH] using rev_ind; intros m -> Hm HF.
  - rewrite decide_False by (simpl; lia). apply sem_zero.
  - rewrite length_app, Nat.add_1_r in *. rewrite one_hot_S in HF.
    apply Forall2_app_inv in HF as [HF Hb]; [|by rewrite length_one_hot].
    apply Forall2_cons_1 in Hb as [Hb _].
    specialize (IH _ eq_refl ltac:(lia) HF). rewrite imap_app, foldl_app. simpl.
    rewrite Nat.add_0_r.
    pose proof (sem_add _ _ _ _ IH (sem_scale _ _ (from_u64 (Z.of_nat (length bs))) Hb)) as HR.
    rewrite from_u64_of_int in HR by lia. revert HR.
    destruct (decide (k < S (length bs))), (decide (k < length bs)); try lia.
    + rewrite bool_decide_eq_false_2 by lia. simpl. intros HR.
      match type of HR with R _ ?v => replace v with (of_int (Z.of_nat k)) in HR by ring end.
      rewrite from_u64_of_int by lia. done.
    + rewrite bool_decide_eq_true_2 by lia. simpl. assert (k = length bs) as <- by lia. intros HR.
      match type of HR with R _ ?v => replace v with (of_int (Z.of_nat k)) in HR by ring end.
      rewrite from_u64_of_int by lia. done.
    + rewrite bool_decide_eq_false_2 by lia. simpl. intros HR.
      match type of HR with R _ ?v => replace v with ZERO in HR by ring end.
      rewrite from_u64_of_int by lia. done.
Qed.

(** The sum of the first entry and the products up to entry [j]. *)
Definition selected (vs : list Scalar) (k j : nat) : Scalar :=
  let t0 := default ZERO (vs !! 0) in
  if decide (1 ≤ k < S j) then default ZERO (vs !! k) else t0.

Lemma selected_end vs n k : 0 < n → k < n → selected vs k (n - 1) = default ZERO (vs !! k).
Proof.
  intros ??. unfold selected. destruct (decide _); [done|]. by assert (k = 0) as -> by lia.
Qed.

Lemma selected_step vs k j :
  selected vs k (S j) = (selected vs k j
  + of_bool (bool_decide (S j = k)) * (default ZERO (vs !! S j) - default ZERO (vs !! 0)))%S.
Proof.
  unfold selected. destruct (decide (S j = k)) as [<-|N].
  - rewrite bool_decide_eq_true_2, decide_True, decide_False by lia. simpl. ring.
  - rewrite bool_decide_eq_false_2 by done.
    destruct (decide (1 ≤ k < S (S j))), (decide (1 ≤ k < S j)); try lia; simpl; ring.
Qed.
End SelectSem.

(** * What the rules force *)
Section SelectRules.
Context `{Bellpepper} (σ : Assignment).
Add Field scalar_field : scalar_field_theory (morphism of_int_morph, constants [scalar_const]).

(** The slots of any assignment that meets the rules select one index. *)
Lemma gadget_one_hot_alloc n i :
  (Z.of_nat n < p)%Z →
  gadget σ (one_hot_alloc n i) (λ o, ∃ k, selects (denotes σ) o n k).
Proof.
  intros Hn. unfold one_hot_alloc. eapply gadget_bind.
  { apply (gadget_mapM _ _ _
      (λ done bs, ∃ vs, bits_are (denotes σ) bs vs ∧ length vs = length done)).
    - exists []. split; [constructor|done].
    - intros done j ys Hp (vs & HF & Hl). step gadget_bit as b (w & Hw). apply gadget_ret.
      exists (vs ++ [w]). rewrite !length_app, Hl. split; [|done].
      apply Forall2_app; [done|]. by repeat constructor. }
  intros bs (vs & HF & Hl). step gadget_equal as [] E. apply gadget_ret.
  pose proof (count_sem (denotes σ) _ _ HF) as Hc. unfold denotes in Hc.
  rewrite Hc, lval_constant, <-of_int_1 in E. unfold range in Hl. rewrite length_seq in Hl.
  pose proof (count_range vs). apply of_int_inj in E; [|lia|done].
  apply count_1 in E as (k & Hk & E). rewrite Hl in Hk, E. exists k. split; [done|].
  by rewrite <-E.
Qed.

Lemma gadget_index_nth {A} (l : list A) i a :
  l !! i = Some a → gadget σ (index l i) (λ x, x = a).
Proof. intros E. unfold index. rewrite E. by apply gadget_ret. Qed.

(** The entry at the selected index. *)
Lemma gadget_select o n k entries vs :
  selects (denotes σ) o n k → Forall2 (denotes σ) entries vs → length vs = n →
  gadget σ (select o entries) (λ x, lval σ x = default ZERO (vs !! k)).
Proof.
  intros [Hk HF] HE Hn. pose proof (Forall2_length _ _ _ HF) as Hl.
  pose proof (Forall2_length _ _ _ HE) as Hle. rewrite length_one_hot in Hl.
  unfold select. eapply gadget_bind; [apply gadget_assert, Nat.eqb_eq; lia|]. intros _ _.
  destruct (lookup_lt_is_Some_2 entries 0) as [t0 Et0]; [lia|].
  destruct (Forall2_lookup_l _ _ _ _ _ HE Et0) as (v0 & Ev0 & H0').
  eapply gadget_bind; [by apply gadget_index_nth|]. intros ? ->.
  eapply gadget_mono.
  { apply (gadget_foldM _ _ _ _ (λ done x, lval σ x = selected vs k (length done))).
    - unfold selected. rewrite decide_False by (simpl; lia). rewrite Ev0. exact H0'.
    - intros done [j [b entry]] x Hp Hx. apply prefix_snoc_lookup in Hp as [Hp _].
      rewrite lookup_drop in Hp. apply lookup_imap_zip in Hp as (b' & e' & [= -> -> ->] & Eb & Ee).
      destruct (Forall2_lookup_l _ _ _ _ _ HF Eb) as (w & Ew & Hw).
      destruct (Forall2_lookup_l _ _ _ _ _ HE Ee) as (v & Ev & Hv).
      assert (1 + length done < n) as Hd by (apply lookup_lt_Some in Eb; lia).
      rewrite lookup_one_hot in Ew by done. injection Ew as <-.
      step gadget_mul as y Hy. apply gadget_ret. rewrite length_app, Nat.add_1_r.
      rewrite selected_step, lval_add, Hx, Hy, lval_sub. unfold denotes in *.
      simpl Nat.add in *. by rewrite Hw, Hv, H0', Ev0, Ev. }
  intros x ->. rewrite length_drop, length_imap, length_zip_with, Hl, Hle, Hn, Nat.min_id.
  apply selected_end; lia.
Qed.
End SelectRules.

(** * Honest runs *)
Section SelectHonest.
Context `{Bellpepper}.
Add Field scalar_field : scalar_field_theory (morphism of_int_morph, constants [scalar_const]).

Lemma selects_push s vs o n k : selects (knows s) o n k → selects (knows (push s vs)) o n k.
Proof. intros [? ?]. split; [done|by apply bits_are_push]. Qed.

Lemma one_hot_values_of_bool values n k :
  one_hot_values values n k = values ++ (of_bool <$> one_hot n k).
Proof.
  unfold one_hot_values, one_hot. rewrite <-list_fmap_compose. f_equal.
Qed.

(** An honest selector allocates the native values. *)
Lemma emits_one_hot_alloc s n k :
  has_one s → k < n → (Z.of_nat n < p)%Z →
  emits (one_hot_alloc n (Some k)) s (one_hot_values [] n k) (λ o s', selects (knows s') o n k).
Proof.
  intros Ho Hk Hn. rewrite one_hot_values_of_bool. unfold one_hot_alloc.
  assert ([] ++ (of_bool <$> one_hot n k) = range n ≫= λ j, [of_bool (bool_decide (k = j))]) as ->.
  { rewrite bind_singleton. unfold one_hot. rewrite <-list_fmap_compose.
    apply list_fmap_ext. intros _ j _. unfold compose. f_equal. apply bool_decide_ext. lia. }
  eapply emits_bind_r.
  { apply (emits_mapM _ _ _ _ (λ done bs s',
      has_one s' ∧ bits_are (knows s') bs (take (length done) (one_hot n k)))).
    - split; [done|constructor].
    - intros done i ys s' Hp [Ho' HF]. apply prefix_snoc_lookup in Hp as [Hi _].
      unfold range in Hi. apply lookup_seq in Hi as [E Hi]. rewrite Nat.add_0_l in E. subst i.
      eapply emits_bind_r; [by apply emits_ns, emits_bit|].
      intros b Hb. apply emits_ret. split; [done|].
      rewrite length_app, Nat.add_1_r, (take_S_r _ _ _ (lookup_one_hot n k _ Hi)).
      apply Forall2_app; [by apply bits_are_push|]. constructor; [|constructor].
      rewrite (bool_decide_ext (length done = k) (k = length done)) by lia. exact Hb. }
  intros bs [Ho' HF]. unfold range in HF at 2. rewrite length_seq, take_ge in HF
    by by rewrite length_one_hot.
  eapply emits_bind_l; [|intros [] _; by apply emits_ret].
  apply emits_ns. eapply emits_equal; [done| |by apply knows_constant].
  eapply knows_eq; [apply (count_sem (knows _) (sem := knows_sem (push s _) Ho)); exact HF|].
  by rewrite count_one_hot, of_int_1.
Qed.

(** The values of the products up to entry [j]. *)
Definition products (vs : list Scalar) (k m : nat) : list Scalar :=
  (λ j, of_bool (bool_decide (j = k)) * (default ZERO (vs !! j) - default ZERO (vs !! 0)))%S
  <$> seq 1 m.

Lemma select_values_products values vs n k :
  length vs = n → k < n →
  select_values values n k (λ j, default ZERO (vs !! j))
  = (default ZERO (vs !! k), values ++ products vs k (n - 1)).
Proof.
  intros Hn Hk. unfold select_values, products. f_equal.
  - destruct (decide (1 ≤ k)) as [L|L].
    + rewrite bool_decide_eq_true_2 by lia. ring.
    + rewrite bool_decide_eq_false_2 by lia. assert (k = 0) as -> by lia. ring.
  - f_equal. apply list_fmap_ext. intros _ j Hj%list_elem_of_lookup_2%elem_of_seq.
    destruct (bool_decide_reflect (j = k)) as [->|]; simpl; [|ring].
    rewrite bool_decide_eq_true_2 by lia. ring.
Qed.

(** Reading an entry allocates the native products and knows the entry. *)
Lemma emits_select s o n k entries vs :
  has_one s → selects (knows s) o n k → Forall2 (knows s) entries vs → length vs = n →
  emits (select o entries) s (select_values [] n k (λ j, default ZERO (vs !! j))).2
  (λ x s', knows s' x (default ZERO (vs !! k))).
Proof.
  intros Ho [Hk HF] HE Hn. pose proof (Forall2_length _ _ _ HF) as Hl.
  pose proof (Forall2_length _ _ _ HE) as Hle. rewrite length_one_hot in Hl.
  rewrite select_values_products by done. cbn [snd app].
  unfold select. eapply emits_bind_l; [apply emits_assert, Nat.eqb_eq; lia|]. intros _ _.
  destruct (lookup_lt_is_Some_2 entries 0) as [t0 Et0]; [lia|].
  destruct (Forall2_lookup_l _ _ _ _ _ HE Et0) as (v0 & Ev0 & K0).
  unfold index. rewrite Et0.
  eapply (emits_bind_l _ _ _ _ (λ x _, x = t0)); [by apply emits_ret|]. intros ? ->.
  set (elems := drop 1 _).
  assert (length elems = n - 1) as Hel.
  { unfold elems. rewrite length_drop, length_imap, length_zip_with. lia. }
  rewrite <-Hel. eapply emits_mono.
  { apply (emits_foldM _ (λ l, products vs k (length l)) elems _ _ (λ done x s',
      bits_are (knows s') (one_hot_bits o) (one_hot n k) ∧ Forall2 (knows s') entries vs ∧
      knows s' x (selected vs k (length done)))); [done| |].
    - split; [done|]. split; [done|].
      unfold selected. rewrite decide_False by (simpl; lia). by rewrite Ev0.
    - intros done [j [b entry]] x s' Hp (HF' & HE' & Kx).
      apply prefix_snoc_lookup in Hp as [Hp _]. unfold elems in Hp.
      rewrite lookup_drop in Hp. apply lookup_imap_zip in Hp as (b' & e' & [= -> -> ->] & Eb & Ee).
      destruct (Forall2_lookup_l _ _ _ _ _ HF' Eb) as (w & Ew & Hw).
      destruct (Forall2_lookup_l _ _ _ _ _ HE' Ee) as (v & Ev & Hv).
      destruct (Forall2_lookup_l _ _ _ _ _ HE' Et0) as (v0' & Ev0' & K0').
      rewrite Ev0 in Ev0'. injection Ev0' as <-.
      assert (1 + length done < n) as Hd by (apply lookup_lt_Some in Eb; lia).
      rewrite lookup_one_hot in Ew by done. injection Ew as <-.
      eexists [_]. split.
      { rewrite length_app, Nat.add_1_r. unfold products. rewrite seq_S, fmap_app. done. }
      rewrite Ev, Ev0. simpl default.
      eapply emits_bind_r; [by apply emits_ns, emits_mul, knows_sub|].
      intros y Ky. apply emits_ret. split; [by apply bits_are_push|].
      split; [eapply Forall2_impl; [exact HE'|]; intros; by apply knows_push|].
      rewrite length_app, Nat.add_1_r, selected_step. simpl Nat.add in *. rewrite Ev, Ev0.
      apply knows_add; [by apply knows_push|done]. }
  intros x (_ & _ & Kx). rewrite Hel in Kx |- *. by rewrite selected_end in Kx by lia.
Qed.
End SelectHonest.

(** * Properties *)
Section SelectProperties.
Context `{Bellpepper}.

(** Whoever assigns the slots, the rules of a selector hold only when
    exactly one index is selected, its index sum is that index, and each
    entry read is the one at that index. *)
Theorem select_sound (σ : Assignment) n i entries vs na ni :
  (Z.of_nat n < 2 ^ 64)%Z → length vs = n → Forall2 (denotes σ) entries vs →
  let m := o ← one_hot_alloc n i; x ← select o entries; mret (o, x) in
  satisfies σ m na ni →
  ∃ o x k, (shape m na ni).1.2 = Ok (o, x) ∧ k < n ∧
  lval σ (one_hot_index o) = of_int (Z.of_nat k) ∧ vs !! k = Some (lval σ x).
Proof.
  intros Hn Hl HE m Hs.
  assert (gadget σ m (λ '(o, x), ∃ k, k < n ∧ lval σ (one_hot_index o) = of_int (Z.of_nat k) ∧
    vs !! k = Some (lval σ x))) as Hm.
  { unfold m. eapply gadget_bind; [apply gadget_one_hot_alloc|].
    { apply Z.lt_le_trans with (2 ^ 64)%Z; [done|]. by vm_compute. }
    intros o [k Ho]. eapply gadget_bind; [exact (gadget_select σ o n k entries vs Ho HE Hl)|].
    intros x Hx. apply gadget_ret. exists k. split; [apply Ho|].
    split; [by apply (index_sem (denotes σ) _ n)|].
    destruct Ho as [Hk _]. destruct (lookup_lt_is_Some_2 vs k) as [v Ev]; [lia|].
    by rewrite Hx, Ev. }
  destruct (gadget_satisfies _ _ _ _ _ Hm Hs) as ([o x] & E & k & ?). eauto.
Qed.

(** An honest selector allocates the values that the native
    [one_hot_values] and [select_values] list, and reads the selected entry. *)
Theorem select_native st n k entries vs :
  has_one (store st) → cs_broken st = None → k < n → (Z.of_nat n < p)%Z → length vs = n →
  Forall2 (knows (store st)) entries vs →
  let '(v, values) := select_values (one_hot_values [] n k) n k (λ j, default ZERO (vs !! j)) in
  ∃ o x, run (o ← one_hot_alloc n (Some k); x ← select o entries; mret (o, x)) st
  = (Ok (o, x), cs_push st values) ∧
  value x = Some v ∧ vs !! k = Some v.
Proof.
  intros Ho Hb Hk Hp Hl HE. rewrite select_values_products by done.
  assert (emits (o ← one_hot_alloc n (Some k); x ← select o entries; mret (o, x)) (store st)
    (one_hot_values [] n k ++ products vs k (n - 1))
    (λ ox s, knows s ox.2 (default ZERO (vs !! k)))) as He.
  { eapply emits_bind; [by apply emits_one_hot_alloc|]. intros o Hs.
    eapply (emits_bind_r _ _ _ _ (λ x s', knows s' x (default ZERO (vs !! k))));
      [|intros x Kx; by apply emits_ret].
    pose proof (emits_select (push (store st) (one_hot_values [] n k)) o n k entries vs) as Hsel.
    rewrite select_values_products in Hsel by done. apply Hsel; try done.
    eapply Forall2_impl; [exact HE|]. intros. by apply knows_push. }
  destruct (emits_run _ _ _ _ He Hb) as ([o x] & R & Kx & _). exists o, x. split; [done|].
  split; [done|]. destruct (lookup_lt_is_Some_2 vs k) as [v Ev]; [lia|]. by rewrite Ev.
Qed.
End SelectProperties.
