(* ===== verification/Limbs.v ===== *)
(** Numbers in limbs: polynomials over the integers and over the field, their
    products and sums, and limbs in groups; the mathematics behind
    [nonnative/bignat.rs]. A number in limbs of [w] bits is the value at
    [2^w] of the polynomial of its limbs. *)
From Stdlib Require Import ZArith Lia Strings.Byte.
From Stdlib Require Import Field_tac Ring.
From stdpp Require Import base list numbers option.
From S2P Require Import Prelude Bytes Field.
Local Open Scope Z_scope.

(** * Polynomials over the integers *)
(** The value at [x], least significant coefficient first. *)
Definition zeval (x : Z) (zs : list Z) : Z := foldr (λ z acc, z + x * acc) 0 zs.

(** The number of limbs [zs], of [w] bits each. *)
Definition limbs_int (w : nat) (zs : list Z) : Z := zeval (2 ^ Z.of_nat w) zs.

(** The sum of two polynomials, and their product: the coefficients of a
    product are the convolution. *)
Fixpoint zsum (a b : list Z) : list Z :=
  match a, b with
  | [], _ => b
  | _, [] => a
  | x :: a, y :: b => x + y :: zsum a b
  end.
Fixpoint zconv (a b : list Z) : list Z :=
  match a with
  | [] => replicate (length b - 1) 0
  | x :: a => zsum (Z.mul x <$> b) (0 :: zconv a b)
  end.

Definition between (m : Z) (z : Z) : Prop := 0 ≤ z ≤ m.

Lemma zeval_app x l l' : zeval x (l ++ l') = zeval x l + x ^ Z.of_nat (length l) * zeval x l'.
Proof.
  induction l as [|z l IH]; [change (zeval x l' = 0 + x ^ 0 * zeval x l'); rewrite Z.pow_0_r; lia|].
  cbn [app zeval foldr length]. fold (zeval x l) (zeval x (l ++ l')). rewrite IH, Nat2Z.inj_succ, Z.pow_succ_r by lia. ring.
Qed.

Lemma zeval_snoc x l z : zeval x (l ++ [z]) = zeval x l + x ^ Z.of_nat (length l) * z.
Proof. rewrite zeval_app. simpl. ring. Qed.

Lemma zeval_zeros x n : zeval x (replicate n 0) = 0.
Proof. induction n as [|n IH]; [done|]. cbn. fold (zeval x (replicate n 0)). lia. Qed.

Lemma zeval_range w m zs :
  Forall (between m) zs → m < 2 ^ Z.of_nat w → 0 ≤ limbs_int w zs < 2 ^ Z.of_nat (w * length zs).
Proof.
  intros Hzs Hm. unfold limbs_int. induction Hzs as [|z zs [? ?] _ IH].
  - simpl. split; [lia|]. apply Z.pow_pos_nonneg; lia.
  - cbn [zeval foldr length]. fold (zeval (2 ^ Z.of_nat w) zs).
    rewrite Nat2Z.inj_mul, Nat2Z.inj_succ, Z.mul_succ_r, Z.pow_add_r by lia.
    rewrite <-Nat2Z.inj_mul. nia.
Qed.

Lemma length_zsum a b : length (zsum a b) = (length a `max` length b)%nat.
Proof. revert b. induction a as [|x a IH]; intros [|y b]; simpl; [done..|]. by rewrite IH. Qed.

Lemma zeval_zsum x a b : zeval x (zsum a b) = zeval x a + zeval x b.
Proof.
  revert b. induction a as [|y a IH]; intros [|z b]; cbn; try lia.
  fold (zeval x (zsum a b)) (zeval x a) (zeval x b). rewrite IH. ring.
Qed.

Lemma zsum_between ma mb a b :
  0 ≤ ma → 0 ≤ mb → Forall (between ma) a → Forall (between mb) b → Forall (between (ma + mb)) (zsum a b).
Proof.
  intros ? ? Ha. revert b. induction Ha as [|x a [? ?] _ IH]; intros b Hb.
  - eapply list.Forall_impl; [exact Hb|]. unfold between. lia.
  - destruct Hb as [|y b [? ?] Hb]; simpl zsum.
    + constructor; [unfold between; lia|]. specialize (IH [] ltac:(constructor)).
      destruct a; exact IH.
    + constructor; [unfold between; lia|]. by apply IH.
Qed.

Lemma zsum_lookup a b i :
  zsum a b !! i = match a !! i, b !! i with
                  | Some x, Some y => Some (x + y)
                  | Some x, None | None, Some x => Some x
                  | None, None => None
                  end.
Proof.
  revert b i. induction a as [|x a IH]; intros b i; simpl; [by destruct (b !! i)|].
  destruct b as [|y b]; [by destruct i as [|i]; simpl; [|destruct (a !! i)]|]. destruct i as [|i]; simpl; [done|]. apply IH.
Qed.

Lemma length_zconv a b : b ≠ [] → length (zconv a b) = (length a + length b - 1)%nat.
Proof.
  intros Hb. destruct b as [|y b]; [done|]. induction a as [|x a IH]; simpl.
  - by rewrite length_replicate.
  - rewrite length_zsum, length_fmap, IH. simpl. lia.
Qed.

Lemma zeval_scale x c b : zeval x (Z.mul c <$> b) = c * zeval x b.
Proof. induction b as [|y b IH]; cbn; [lia|]. fold (zeval x b) (zeval x (Z.mul c <$> b)). rewrite IH. ring. Qed.

Lemma zeval_zconv x a b : zeval x (zconv a b) = zeval x a * zeval x b.
Proof.
  induction a as [|y a IH]; cbn [zconv].
  - rewrite zeval_zeros. done.
  - rewrite zeval_zsum, zeval_scale. cbn. fold (zeval x a) (zeval x (zconv a b)). rewrite IH. ring.
Qed.

(** The sum of the first coefficients. *)
Definition total (l : list Z) : Z := foldr Z.add 0 l.

Lemma total_range m l : Forall (between m) l → 0 ≤ total l ≤ Z.of_nat (length l) * m.
Proof. induction 1 as [|z l [? ?] _ IH]; cbn; [lia|]. unfold total in IH. lia. Qed.

Lemma total_take_S k l : total (take (S k) l) = total (take k l) + default 0 (l !! k).
Proof.
  revert k. induction l as [|z l IH]; intros k; [by destruct k|]. destruct k as [|k].
  - unfold total. simpl. lia.
  - change (z + total (take (S k) l) = z + total (take k l) + default 0 (l !! k)). rewrite IH. lia.
Qed.

(** Coefficient [k] of a product is at most the largest coefficient of the
    one times the first [k + 1] of the other. *)
Lemma zconv_partial m a b k z :
  0 ≤ m → Forall (between m) a → Forall (λ y, 0 ≤ y) b → zconv a b !! k = Some z →
  0 ≤ z ≤ m * total (take (S k) b).
Proof.
  intros Hm Ha Hb. revert k z.
  assert (∀ k, 0 ≤ default 0 (b !! k)) as Hnn.
  { intros j. destruct (b !! j) as [y|] eqn:E; [|done]. exact (proj1 (list.Forall_lookup _ _) Hb j y E). }
  assert (∀ k, 0 ≤ total (take k b)) as Htot.
  { induction k as [|k IH]; [done|]. rewrite total_take_S. specialize (Hnn k). lia. }
  induction Ha as [|x a [? ?] _ IH]; intros k z; cbn [zconv].
  - intros [-> _]%lookup_replicate_1. specialize (Htot (S k)). nia.
  - rewrite zsum_lookup, list_lookup_fmap. rewrite total_take_S. specialize (Hnn k).
    assert (∀ z', (0 :: zconv a b) !! k = Some z' → 0 ≤ z' ≤ m * total (take k b)) as Hrest.
    { destruct k as [|k]; simpl; [intros ? [= <-]; lia|]. apply IH. }
    specialize (Htot k).
    destruct (b !! k) as [y|] eqn:Ey; simpl in *; destruct ((0 :: zconv a b) !! k) as [z'|] eqn:Ez;
      intros [= <-]; try specialize (Hrest _ eq_refl); nia.
Qed.

Lemma total_take m k l : Forall (between m) l → 0 ≤ m → total (take k l) ≤ Z.of_nat (length l) * m.
Proof.
  intros Hl Hm. pose proof (total_range m (take k l) (Forall_take _ _ _ Hl)).
  rewrite length_take in *. nia.
Qed.

Lemma zconv_short ma mb a b :
  0 ≤ ma → 0 ≤ mb → Forall (between ma) a → Forall (between mb) b →
  Forall (between (Z.of_nat (length a) * ma * mb)) (zconv a b).
Proof.
  intros Hma Hmb Ha Hb. induction Ha as [|x a [? ?] _ IH]; cbn [zconv length].
  - apply Forall_replicate. split; lia.
  - replace (Z.of_nat (S (length a)) * ma * mb) with (ma * mb + Z.of_nat (length a) * ma * mb) by nia.
    apply zsum_between; [nia|nia| |].
    + apply list.Forall_fmap. eapply list.Forall_impl; [exact Hb|]. intros y [? ?]. split; cbn; nia.
    + constructor; [split; nia|done].
Qed.

(** No coefficient is larger than the shorter length times the largest
    coefficients. *)
Lemma zconv_between ma mb a b :
  0 ≤ ma → 0 ≤ mb → Forall (between ma) a → Forall (between mb) b →
  Forall (between (Z.of_nat (length a `min` length b) * ma * mb)) (zconv a b).
Proof.
  intros Hma Hmb Ha Hb. apply list.Forall_lookup. intros k z Ez.
  pose proof (proj1 (list.Forall_lookup _ _) (zconv_short ma mb a b Hma Hmb Ha Hb) k z Ez) as [Hz Hz1].
  assert (z ≤ ma * total (take (S k) b)) as Hz2.
  { apply (zconv_partial ma a b k z); [done|done| |done].
    eapply list.Forall_impl; [exact Hb|]. by intros ? [? ?]. }
  pose proof (total_take mb (S k) b Hb Hmb). split; [done|].
  destruct (Nat.min_spec (length a) (length b)) as [[_ ->]|[_ ->]]; nia.
Qed.

(** Limbs that are themselves in digits. *)
Lemma zeval_concat x w (zss : list (list Z)) :
  Forall (λ zs, length zs = w) zss → zeval (x ^ Z.of_nat w) (zeval x <$> zss) = zeval x (concat zss).
Proof.
  induction 1 as [|zs zss <- _ IH]; [done|].
  change (zeval x zs + x ^ Z.of_nat (length zs) * zeval (x ^ Z.of_nat (length zs)) (zeval x <$> zss)
    = zeval x (zs ++ concat zss)).
  by rewrite zeval_app, IH.
Qed.

(** * Digits *)
(** The [n] low digits of [w] bits, least significant first. *)
Fixpoint zdigits (w n : nat) (v : Z) : list Z :=
  match n with
  | O => []
  | S n => v mod 2 ^ Z.of_nat w :: zdigits w n (v / 2 ^ Z.of_nat w)
  end.

Lemma length_zdigits w n v : length (zdigits w n v) = n.
Proof. revert v. induction n as [|n IH]; intros v; simpl; [done|]. by rewrite IH. Qed.

Lemma zdigits_between w n v : Forall (between (2 ^ Z.of_nat w - 1)) (zdigits w n v).
Proof.
  revert v. induction n as [|n IH]; intros v; simpl; constructor; [|done].
  pose proof (Z.mod_pos_bound v (2 ^ Z.of_nat w) ltac:(lia)). split; lia.
Qed.

Lemma zdigits_int w n v : limbs_int w (zdigits w n v) = v mod 2 ^ Z.of_nat (w * n).
Proof.
  revert v. induction n as [|n IH]; intros v.
  - rewrite Nat.mul_0_r. symmetry. apply Z.mod_1_r.
  - unfold limbs_int. cbn [zdigits zeval foldr].
    change (foldr _ 0 ?l) with (limbs_int w l). rewrite IH.
    rewrite Nat.mul_succ_r, Nat.add_comm, Nat2Z.inj_add, Z.pow_add_r by lia. rewrite Z.rem_mul_r by lia. done.
Qed.

(** * Groups of limbs *)
(** Group [j] of [g] limbs. *)
Definition group (w g : nat) (zs : list Z) (j : nat) : Z := limbs_int w (take g (drop (j * g) zs)).
Definition zgroups (w g n : nat) (zs : list Z) : list Z := group w g zs <$> range n.
(** What a group of limbs equal to one is. *)
Definition ones (w g : nat) : Z := limbs_int w (replicate g 1).

Lemma group_S w g zs j : group w g zs (S j) = group w g (drop g zs) j.
Proof. unfold group. rewrite drop_drop. by rewrite Nat.mul_succ_l, (Nat.add_comm (j * g)). Qed.

(** Grouping keeps the number. *)
Lemma zgroups_int w g n zs :
  (length zs ≤ n * g)%nat → limbs_int (w * g) (zgroups w g n zs) = limbs_int w zs.
Proof.
  revert zs. induction n as [|n IH]; intros zs Hn.
  { destruct zs; [done|simpl in Hn; lia]. }
  assert (zgroups w g (S n) zs = group w g zs 0 :: zgroups w g n (drop g zs)) as ->.
  { unfold zgroups, range. cbn [seq fmap list_fmap]. f_equal. rewrite <-fmap_S_seq, <-list_fmap_compose.
    apply list_fmap_ext. intros i j _. apply group_S. }
  unfold limbs_int at 1. cbn [zeval foldr].
  change (foldr _ 0 ?l) with (limbs_int (w * g) (zgroups w g n (drop g zs))).
  rewrite IH by (rewrite length_drop; lia). unfold group. rewrite drop_0.
  destruct (decide (g ≤ length zs)%nat).
  - rewrite <-(take_drop g zs) at 3. unfold limbs_int. rewrite zeval_app, length_take, Nat.min_l by done.
    by rewrite <-Z.pow_mul_r, Nat2Z.inj_mul by lia.
  - rewrite (drop_ge zs g), take_ge by lia. cbn. lia.
Qed.

(** One more limb goes to the last group that there is. *)
Lemma group_snoc w g zs z j :
  (0 < g)%nat →
  group w g (zs ++ [z]) j = group w g zs j +
    (if decide (j = length zs / g)%nat then 2 ^ Z.of_nat (w * (length zs mod g)) * z else 0).
Proof.
  intros Hg. unfold group. pose proof (Nat.div_mod (length zs) g ltac:(lia)).
  pose proof (Nat.mod_upper_bound (length zs) g ltac:(lia)). case_decide as Ej.
  - subst j. rewrite drop_app_le by lia.
    rewrite !take_ge by (rewrite ?length_app, length_drop; simpl; lia).
    unfold limbs_int. rewrite zeval_snoc, length_drop, <-Z.pow_mul_r by lia.
    assert (length zs - length zs / g * g = length zs mod g)%nat as -> by lia. by rewrite Nat2Z.inj_mul.
  - rewrite Z.add_0_r. f_equal. destruct (decide (j < length zs / g)%nat).
    + rewrite drop_app_le by nia. rewrite take_app_le; [done|]. rewrite length_drop. nia.
    + rewrite !drop_ge; [done| |]; rewrite ?length_app; simpl; nia.
Qed.

Lemma zgroups_snoc w g n zs z :
  (0 < g)%nat →
  let q := (length zs / g)%nat in
  zgroups w g n (zs ++ [z]) = <[q := group w g zs q + 2 ^ Z.of_nat (w * (length zs mod g)) * z]> (zgroups w g n zs).
Proof.
  intros Hg q. unfold zgroups, range. apply list_eq. intros j. rewrite list_lookup_fmap.
  destruct (decide (j < n)%nat) as [Hj|].
  - rewrite lookup_seq_lt by done. simpl. rewrite group_snoc by done. fold q.
    destruct (decide (j = q)) as [->|Hne].
    + rewrite list_lookup_insert_eq; [done|]. by rewrite length_fmap, length_seq.
    + rewrite list_lookup_insert_ne, list_lookup_fmap, lookup_seq_lt by done. simpl. f_equal. lia.
  - rewrite lookup_seq_ge by lia. symmetry. apply lookup_ge_None. rewrite length_insert, length_fmap, length_seq. lia.
Qed.

Lemma zeval_le x m zs :
  0 ≤ x → 0 ≤ m → Forall (between m) zs → 0 ≤ zeval x zs ≤ zeval x (replicate (length zs) 1) * m.
Proof.
  intros Hx Hm. induction 1 as [|z zs [? ?] _ IH]; cbn; [lia|].
  fold (zeval x zs) (zeval x (replicate (length zs) 1)). nia.
Qed.

Lemma zeval_ones_mono x n n' :
  0 ≤ x → (n ≤ n')%nat → 0 ≤ zeval x (replicate n 1) ≤ zeval x (replicate n' 1).
Proof.
  intros Hx.
  assert (∀ k, 0 ≤ zeval x (replicate k 1)) as Hpos.
  { intros k. eapply (zeval_le x 1); [done|lia|]. apply Forall_replicate. split; lia. }
  intros Hn. split; [apply Hpos|].
  replace n' with (n + (n' - n))%nat by lia. rewrite replicate_add, zeval_app.
  pose proof (Hpos (n' - n)%nat). assert (0 ≤ x ^ Z.of_nat (length (replicate n 1))) by (apply Z.pow_nonneg; lia). nia.
Qed.

(** A group of limbs is bounded as the limbs are. *)
Lemma zgroups_between w g n m zs :
  0 ≤ m → Forall (between m) zs → Forall (between (ones w g * m)) (zgroups w g n zs).
Proof.
  intros Hm Hzs. apply list.Forall_fmap, list.Forall_forall. intros j _. cbn. unfold group, limbs_int, ones.
  pose proof (zeval_le (2 ^ Z.of_nat w) m (take g (drop (j * g) zs)) ltac:(lia) Hm
    ltac:(apply Forall_take, Forall_drop, Hzs)) as [? Hle].
  pose proof (zeval_ones_mono (2 ^ Z.of_nat w) (length (take g (drop (j * g) zs))) g ltac:(lia)
    ltac:(rewrite length_take; lia)). split; [done|]. unfold limbs_int. nia.
Qed.

Lemma setbit_above a n : 0 ≤ a < 2 ^ n → 0 ≤ n → Z.setbit a n = a + 2 ^ n.
Proof.
  intros Ha Hn. unfold Z.setbit. rewrite Z.shiftl_1_l.
  assert (Z.land a (2 ^ n) = 0) as E.
  { apply Z.bits_inj'. intros k Hk. rewrite Z.land_spec, Z.bits_0, Z.pow2_bits_eqb by done.
    destruct (Z.eqb_spec n k) as [<-|]; [|by rewrite andb_false_r].
    rewrite andb_true_r. apply Z.testbit_false; [done|]. by rewrite Z.div_small. }
  by rewrite Z.add_nocarry_lxor, Z.lxor_lor by done.
Qed.

(** The bits that the code sets, one for each limb of a group. *)
Lemma setbit_ones w g :
  (0 < w)%nat → foldl (λ acc i, Z.setbit acc (Z.of_nat (i * w))) 0 (range g) = ones w g.
Proof.
  intros Hw. unfold ones, limbs_int. induction g as [|g IH]; [done|].
  unfold range in *. rewrite seq_S, foldl_app, IH. cbn [foldl].
  rewrite replicate_S_end, zeval_snoc, length_replicate, Z.mul_1_r.
  rewrite <-Z.pow_mul_r by lia. replace (Z.of_nat w * Z.of_nat g) with (Z.of_nat ((0 + g) * w)) by lia.
  apply setbit_above; [|lia].
  pose proof (zeval_range w 1 (replicate g 1)) as Hr. rewrite length_replicate in Hr.
  replace ((0 + g) * w)%nat with (w * g)%nat by lia.
  apply Hr; [apply Forall_replicate; split; lia|].
  change 1 with (2 ^ 0). apply Z.pow_lt_mono_r; lia.
Qed.

(** * Carries *)
(** One carry: an equation modulo [q] of small integers is one of integers. *)
Lemma carry_step q base m bound c c' e a b :
  2 ≤ base → between m e → between m a → between m b → 0 ≤ c < bound → 0 ≤ c' →
  bound + 2 * m < q → base * c' + base + m < q →
  (c + a - b + m - base * c' - (e + m) mod base) mod q = 0 →
  c - e + (a - b) = base * (c' - (e + m) / base) ∧ between m ((e + m) / base).
Proof.
  unfold between. intros Hb He Ha Hb' Hc Hc' H1 H2 E.
  pose proof (Z.mod_pos_bound (e + m) base ltac:(lia)). pose proof (Z.div_mod (e + m) base ltac:(lia)).
  assert (c + a - b + m - base * c' - (e + m) mod base = 0) as E'.
  { apply Z.mod_divide in E as [k E]; [|lia]. assert (k = 0) by nia. nia. }
  split; [lia|]. split; [apply Z.div_pos; lia|]. apply Z.div_le_upper_bound; nia.
Qed.

Lemma zeval_take_S x k l z :
  l !! k = Some z → zeval x (take (S k) l) = zeval x (take k l) + x ^ Z.of_nat k * z.
Proof.
  intros E. rewrite (take_S_r _ _ z E), zeval_snoc, length_take, Nat.min_l; [done|].
  apply lookup_lt_Some in E. lia.
Qed.

Lemma zeval_all_zero x l : Forall (λ z, z = 0) l → zeval x l = 0.
Proof. induction 1 as [|z l -> _ IH]; [done|]. change (0 + x * zeval x l = 0). rewrite IH. lia. Qed.

(** When what is carried over the first limbs comes out as the carry of the
    constants alone, and the other limbs are zero, the numbers are equal. *)
Lemma zeval_equal x n l l' :
  zeval x (take n l) = zeval x (take n l') → Forall (λ z, z = 0) (drop n l) → Forall (λ z, z = 0) (drop n l') →
  zeval x l = zeval x l'.
Proof.
  intros E Hl Hl'. rewrite <-(take_drop n l), <-(take_drop n l'), !zeval_app, E.
  by rewrite (zeval_all_zero x (drop n l)), (zeval_all_zero x (drop n l')), !Z.mul_0_r.
Qed.

(** * Polynomials over the field *)
Section FieldPolynomials.
Context `{ScalarField}.
Add Field scalar_field : scalar_field_theory (morphism of_int_morph, constants [scalar_const]).
Implicit Types (x r : Scalar) (cs qs : list Scalar).

Definition feval x cs : Scalar := foldr (λ c acc, c + x * acc)%S ZERO cs.

Lemma feval_of_int n zs : feval (of_int n) (of_int <$> zs) = of_int (zeval n zs).
Proof.
  induction zs as [|z zs IH]; cbn; [by rewrite of_int_0|].
  fold (zeval n zs) (feval (of_int n) (of_int <$> zs)). by rewrite IH, of_int_add, of_int_mul.
Qed.

Lemma feval_sub x cs ds :
  length cs = length ds → feval x (zip_with sc_sub cs ds) = (feval x cs - feval x ds)%S.
Proof.
  revert ds. induction cs as [|c cs IH]; intros [|d ds] E; try done; cbn; [ring|].
  fold (feval x cs) (feval x ds) (feval x (zip_with sc_sub cs ds)). rewrite IH by (simpl in E; lia). ring.
Qed.

(** Division by [X - r]. *)
Lemma feval_divide r c cs : ∃ qs,
  length qs = length cs ∧
  (∀ x, feval x (c :: cs) = ((x - r) * feval x qs + feval r (c :: cs))%S) ∧
  (Forall (λ q, q = ZERO) qs → feval r (c :: cs) = ZERO → Forall (λ c, c = ZERO) (c :: cs)).
Proof.
  revert c. induction cs as [|c' cs IH]; intros c.
  - exists []. split; [done|]. split; [intros x; cbn; ring|].
    intros _. cbn. intros E. constructor; [|done]. rewrite <-E. ring.
  - destruct (IH c') as (qs & El & Ev & Ez). exists (feval r (c' :: cs) :: qs).
    split; [by simpl; rewrite El|]. split.
    + intros x. cbn [feval foldr]. fold (feval x cs) (feval r cs) (feval x qs).
      specialize (Ev x). cbn [feval foldr] in Ev. fold (feval x cs) (feval r cs) in Ev.
      rewrite Ev. ring.
    + intros [E' Hq']%list.Forall_cons E. specialize (Ez Hq' E').
      constructor; [|done].
      change (c + r * feval r (c' :: cs) = ZERO)%S in E. rewrite E' in E. rewrite <-E. ring.
Qed.

(** A polynomial with as many roots as coefficients is zero. *)
Lemma roots_zero rs cs :
  NoDup rs → (length cs ≤ length rs)%nat → (∀ r, r ∈ rs → feval r cs = ZERO) → Forall (λ c, c = ZERO) cs.
Proof.
  intros Hd. revert cs. induction Hd as [|r rs Hr _ IH]; intros cs Hl Hz.
  - destruct cs; [constructor|simpl in Hl; lia].
  - destruct cs as [|c cs]; [constructor|].
    destruct (feval_divide r c cs) as (qs & El & Ev & Ez).
    pose proof (Hz r ltac:(left)) as E. apply Ez; [|done]. apply IH; [simpl in Hl; lia|].
    intros x Hx. specialize (Ev x). rewrite (Hz x) in Ev by (by right). rewrite E in Ev.
    assert ((x - r) * feval x qs = ZERO)%S as [E'|E']%sc_mul_0; [|by rewrite (proj1 (sc_sub_0 _ _) E') in Hx|done].
    rewrite Ev. ring.
Qed.

(** Two polynomials that agree at [1], ..., [n] have the same [n] coefficients. *)
Lemma agree_equal n cs ds :
  (Z.of_nat n < p) → length cs = n → length ds = n →
  (∀ k, (0 < k ≤ n)%nat → feval (of_int (Z.of_nat k)) cs = feval (of_int (Z.of_nat k)) ds) →
  cs = ds.
Proof.
  intros Hn Hc Hd Heq.
  assert (Forall (λ c, c = ZERO) (zip_with sc_sub cs ds)) as Hz.
  { apply (roots_zero ((λ k, of_int (Z.of_nat k)) <$> seq 1 n)).
    - apply NoDup_fmap_2_strong; [|apply NoDup_ListNoDup, seq_NoDup].
      intros a b [Ha ?]%elem_of_seq [Hb ?]%elem_of_seq E. apply of_int_inj in E; lia.
    - rewrite length_fmap, length_seq, length_zip_with. lia.
    - intros r (k & -> & [? ?]%elem_of_seq)%list_elem_of_fmap.
      rewrite feval_sub by lia. rewrite Heq by lia. ring. }
  clear Heq Hn. subst n. revert ds Hd Hz. induction cs as [|c cs IH]; intros [|d ds] E Hz; try done.
  cbn in Hz. inversion Hz as [|? ? E1 Hz']; subst. f_equal; [by apply sc_sub_0|]. apply IH; [simpl in E; lia|done].
Qed.
End FieldPolynomials.
