(* ===== verification/BigNat.v ===== *)
(** [nonnative/util.rs] and [nonnative/bignat.rs]: big natural numbers in
    limbs, for arithmetic modulo a number that is not the circuit's.

    A [BigInt] of num_bigint is an integer [Z]. What a closure would give is
    the value of a new slot ([alloc_from_nat] and the others keep the values
    their closures read), as for the numbers of bellpepper. *)
From Stdlib Require Import ZArith Lia Strings.String Strings.Byte.
From Stdlib Require Import Field_tac Ring.
From stdpp Require Import base list numbers option strings pretty.
From S2P Require Import Prelude Bytes Field ConstraintSystem Shape CheckSystem Bellpepper Lc Bits Gadgets Select.

(** What the code uses of ff and of floating point: a decimal text as a field
    element ([from_str_vartime] of a [BigInt]'s digits, which reduces), and
    the rounded-up logarithm [(m as f64).log2().ceil()] of a positive integer,
    exact up to one. *)
Class NonNative `{ScalarField} := {
  from_decimal : Z → option Scalar;
  ceil_log2_f64 : Z → Z;
  (** The [Debug] text of an element, in the names of rules. *)
  debug : Scalar → string;
  from_decimal_spec n : from_decimal n = if (n <? 0)%Z then None else Some (of_int n);
  ceil_log2_f64_spec m : (0 < m)%Z → (Z.log2_up m - 1 ≤ ceil_log2_f64 m ≤ Z.log2_up m + 1)%Z;
}.

(** [PrimeField::CAPACITY]. *)
Definition CAPACITY : nat := 255.

(** [Option::grab], [Option::unwrap]. *)
Definition grab {A} (v : option A) : outcome SynthesisError A := ok_or AssignmentMissing v.
Definition unwrap {A} (v : option A) : outcome SynthesisError A :=
  match v with Some a => Ok a | None => Panic "unwrap" end.
(** What a closure's value would be. *)
Definition closure_value {A} (v : outcome SynthesisError A) : option A :=
  match v with Ok a => Some a | _ => None end.
Definition nth_value {A} (l : list A) (i : nat) : outcome SynthesisError A :=
  match l !! i with Some a => Ok a | None => Panic "index out of bounds" end.
(** [l[i] = f(l[i])]. *)
Definition update {A} (f : A → A) (l : list A) (i : nat) : outcome SynthesisError (list A) :=
  a ← nth_value l i; Ok (<[i := f a]> l).
(** [a / b] and [a - b] of [usize]. *)
Definition div_usize (a b : nat) : outcome SynthesisError nat :=
  if (b =? 0)%nat then Panic "attempt to divide by zero" else Ok (a / b)%nat.
Definition sub_usize (a b : nat) : outcome SynthesisError nat :=
  if (a <? b)%nat then Panic "attempt to subtract with overflow" else Ok (a - b)%nat.
(** [a / b] and [a % b] of [BigInt], which truncate. *)
Definition div_int (a b : Z) : outcome SynthesisError Z :=
  if (b =? 0)%Z then Panic "attempt to divide by zero" else Ok (Z.quot a b).
Definition rem_int (a b : Z) : outcome SynthesisError Z :=
  if (b =? 0)%Z then Panic "attempt to divide by zero" else Ok (Z.rem a b).

Section Util.
Context `{NumOps} `{!NonNative}.

(** [BitAccess::get_bit]. *)
Definition get_bit (f : Scalar) (i : nat) : option bool :=
  if (NUM_BITS <=? i)%nat then None else
  byte ← to_repr f !! (i / 8)%nat;
  Some (Z.testbit (b2z byte) (Z.of_nat (i mod 8))).

Definition f_to_nat (f : Scalar) : Z := le_int (to_repr f).
Definition nat_to_f (n : Z) : option Scalar := from_decimal n.

(** [struct Num], [struct Bit], [struct Bitvector]. *)
Record Num := mkNum { n_num : LinearCombination; n_value : option Scalar }.
Definition Bit : Type := LinearCombination.
Record Bitvector := mkBitvector {
  bv_bits : list LinearCombination;
  bv_values : option (list bool);
  bv_allocations : list Bit;
}.

(** [Bit::alloc]. *)
Definition Bit_alloc (value : option bool) : Synth Bit :=
  var ← alloc "boolean" (b ← grab value; Ok (if (b : bool) then ONE else ZERO));
  enforce "boolean constraint"
    (lc_sub_var (lc_add_var lc_zero one) var) (lc_add_var lc_zero var) lc_zero ;;
  mret (lc_add_var lc_zero var).

(** [Num::alloc], [From<AllocatedNum>]. *)
Definition Num_alloc (value : outcome SynthesisError Scalar) : Synth Num :=
  var ← alloc "num" value;
  mret {| n_num := lc_add_var lc_zero var; n_value := closure_value value |}.
Definition Num_from (a : AllocatedNum) : Num :=
  {| n_num := lc_add_var lc_zero (get_variable a); n_value := get_value a |}.

(** [Num::fits_in_bits]; the first bit has no slot of its own. *)
Definition fits_in_bits (self : Num) (n_bits : nat) : Synth unit :=
  bits ← mapM (λ i,
    alloc ("bit " +:+ pretty (i : nat))
      (v ← grab (n_value self); r ← grab (get_bit v i); Ok (if (r : bool) then ONE else ZERO)))
    (seq 1 (n_bits - 1));
  mapM (λ '(i, v),
    enforce (pretty (i : nat) +:+ " is bit")
      (lc_add_var lc_zero v) (lc_sub_var (lc_add_var lc_zero one) v) lc_zero)
    (imap (λ i v, (i, v)) bits) ;;
  enforce "last bit"
    (foldl (λ '(lc, f) v, let f := Field.double f in (lc_sub_term lc (f, v), f))
      (lc_add lc_zero (n_num self), ONE) bits).1
    (foldl (λ '(lc, f) v, let f := Field.double f in (lc_add_term lc (f, v), f))
      (lc_sub (lc_add_var lc_zero one) (n_num self), ONE) bits).1
    lc_zero.

(** The weighted sum of bits, least significant first, that [is_equal] and
    [decompose] build. *)
Definition bits_sum (bits : list Bit) : LinearCombination :=
  (foldl (λ '(lc, f) bit, (lc_add_scaled lc (f, bit), Field.double f)) (lc_zero, ONE) bits).1.

Definition is_equal (self : Num) (other : Bitvector) : Synth unit :=
  let sum := bits_sum (bv_allocations other) in
  let sum_lc := lc_sub (lc_add lc_zero (n_num self)) sum in
  enforce "sum" (lc_add lc_zero sum_lc) (lc_add_var lc_zero one) lc_zero.

(** [Num::decompose]. *)
Definition num_decompose (self : Num) (n_bits : nat) : Synth Bitvector :=
  values ← lift (
    match n_value self with
    | Some v => values ← unwrap (mapM (get_bit v) (range n_bits)); Ok (Some values)
    | None => Ok None
    end);
  allocations ← mapM (λ bit_i,
    ns ("bit" +:+ pretty (bit_i : nat)) (Bit_alloc (vs ← values; vs !! bit_i))) (range n_bits);
  let sum := bits_sum allocations in
  let sum_lc := lc_sub (lc_add lc_zero (n_num self)) sum in
  enforce "sum" (lc_add lc_zero sum_lc) (lc_add_var lc_zero one) lc_zero ;;
  mret {| bv_bits := lc_add lc_zero <$> allocations; bv_values := values; bv_allocations := allocations |}.

Definition as_allocated_num (self : Num) : Synth AllocatedNum :=
  new ← ns "alloc" (AllocatedNum_alloc (grab (n_value self)));
  enforce "eq" lc_zero lc_zero (lc_sub (lc_add_var lc_zero (get_variable new)) (n_num self)) ;;
  mret new.
End Util.

(** * Limbs *)
Section Limbs.
Context `{NumOps} `{!NonNative}.

Definition limbs_to_nat (limbs : list Scalar) (limb_width : nat) : Z :=
  foldr (λ limb acc, Z.shiftl acc (Z.of_nat limb_width) + f_to_nat limb)%Z 0%Z limbs.

Definition int_with_n_ones (n : nat) : Z := (Z.shiftl 1 (Z.of_nat n) - 1)%Z.

(** [BigInt::bits], of the magnitude. *)
Definition bits_of (n : Z) : nat := if (n =? 0)%Z then 0 else S (Z.to_nat (Z.log2 (Z.abs n))).

Definition nat_to_limbs (n : Z) (limb_width n_limbs : nat) : outcome SynthesisError (list Scalar) :=
  let mask := int_with_n_ones limb_width in
  if (bits_of n <=? n_limbs * limb_width)%nat then
    '(limbs, _) ← foldM (λ '(limbs, n) _,
      let r := Z.land n mask in
      let n := Z.shiftr n (Z.of_nat limb_width) in
      limb ← unwrap (nat_to_f r);
      Ok (limbs ++ [limb], n)) ([], n) (range n_limbs);
    Ok limbs
  else Err Unsatisfiable.

(** [struct BigNatParams], [BigNatParams::new]. *)
Record BigNatParams := mkBigNatParams {
  min_bits : nat;
  max_word : Z;
  limb_width : nat;
  n_limbs : nat;
}.
Definition params_new (limb_width n_limbs : nat) : BigNatParams :=
  {| min_bits := 0; max_word := (Z.shiftl 1 (Z.of_nat limb_width) - 1)%Z;
     limb_width := limb_width; n_limbs := n_limbs |}.

(** [struct BigNat], [struct Polynomial]. *)
Record BigNat := mkBigNat {
  limbs : list LinearCombination;
  limb_values : option (list Scalar);
  nat_value : option Z;
  params : BigNatParams;
}.
Record Polynomial := mkPolynomial {
  coefficients : list LinearCombination;
  poly_values : option (list Scalar);
}.
Definition to_polynomial (b : BigNat) : Polynomial :=
  {| coefficients := limbs b; poly_values := limb_values b |}.

(** A new slot for each limb, with its value. *)
Definition alloc_limbs (value : nat → outcome SynthesisError Scalar) (n : nat) : Synth (list LinearCombination) :=
  mapM (λ limb_i,
    v ← alloc ("limb " +:+ pretty (limb_i : nat)) (value limb_i);
    mret (lc_add_var lc_zero v)) (range n).

(** [BigNat::alloc_from_limbs]. The closures of the slots store the value and
    the limbs that they read, when there is a slot. *)
Definition alloc_from_limbs (f : outcome SynthesisError (list Scalar)) (max_word : option Z)
    (limb_width n_limbs : nat) : Synth BigNat :=
  values_cell ← lift (match f with Panic w => Panic w | f => Ok f end);
  let value limb_i :=
    match values_cell with
    | Ok vs => if negb (length vs =? n_limbs)%nat then Err Unsatisfiable else nth_value vs limb_i
    | _ => Err AssignmentMissing
    end in
  let stored :=
    match values_cell with
    | Ok vs => if (length vs =? n_limbs)%nat && (0 <? n_limbs)%nat then Some vs else None
    | _ => None
    end in
  limbs ← alloc_limbs value n_limbs;
  mret {|
    nat_value := (λ vs, limbs_to_nat vs limb_width) <$> stored;
    limb_values := stored;
    limbs := limbs;
    params := {| min_bits := 0; n_limbs := n_limbs;
      max_word := default (int_with_n_ones limb_width) max_word; limb_width := limb_width |} |}.

Definition alloc_from_nat (f : outcome SynthesisError Z) (limb_width n_limbs : nat) : Synth BigNat :=
  let all_values := v ← f; vs ← nat_to_limbs v limb_width n_limbs; Ok (vs, v) in
  all_values_cell ← lift (match all_values with Panic w => Panic w | r => Ok r end);
  let value limb_i :=
    match all_values_cell with
    | Ok (vs, _) => nth_value vs limb_i
    | _ => Err AssignmentMissing
    end in
  let stored :=
    match all_values_cell with
    | Ok (vs, v) => if (0 <? n_limbs)%nat then Some (vs, v) else None
    | _ => None
    end in
  limbs ← alloc_limbs value n_limbs;
  mret {| nat_value := snd <$> stored; limb_values := fst <$> stored; limbs := limbs;
          params := params_new limb_width n_limbs |}.

(** [limb_values.as_ref().map(|vs| vs[i])]. *)
Definition limb_value (self : BigNat) (i : nat) : outcome SynthesisError (option Scalar) :=
  match limb_values self with
  | Some vs => v ← nth_value vs i; Ok (Some v)
  | None => Ok None
  end.

Definition as_limbs (self : BigNat) : outcome SynthesisError (list Num) :=
  mapM (λ '(i, lc), v ← limb_value self i; Ok {| n_value := v; n_num := lc |})
    (imap (λ i lc, (i, lc)) (limbs self)).

Definition assert_well_formed (self : BigNat) : Synth unit :=
  mapM (λ '(i, limb),
    v ← lift (limb_value self i);
    ns (pretty (i : nat)) (fits_in_bits {| n_value := v; n_num := limb |} (limb_width (params self))))
    (imap (λ i limb, (i, limb)) (limbs self)) ;;
  mret tt.

(** [BigNat::decompose]. *)
Definition nat_decompose (self : BigNat) : Synth Bitvector :=
  bitvectors ← mapM (λ '(i, limb),
    v ← lift (limb_value self i);
    ns ("subdecmop " +:+ pretty (i : nat))
      (num_decompose {| n_value := v; n_num := limb |} (limb_width (params self))))
    (imap (λ i limb, (i, limb)) (limbs self));
  let values := bitvectors ≫= λ bv, default [] (bv_values bv) in
  mret {|
    bv_bits := bitvectors ≫= bv_bits;
    bv_values := if decide (values = []) then None else Some values;
    bv_allocations := bitvectors ≫= bv_allocations |}.

Definition from_num (n : Num) (limb_width n_limbs : nat) : Synth BigNat :=
  bignat ← ns "bignat" (alloc_from_nat (ok_or AssignmentMissing (f_to_nat <$> n_value n)) limb_width n_limbs);
  bv ← ns "bv" (nat_decompose bignat);
  ns "n" (is_equal n bv) ;;
  mret bignat.

Definition enforce_limb_width_agreement (self other : BigNat) : outcome SynthesisError nat :=
  if (limb_width (params self) =? limb_width (params other))%nat then Ok (limb_width (params self))
  else Err Unsatisfiable.

Definition from_poly (poly : Polynomial) (limb_width : nat) (max_word : Z) : BigNat := {|
  params := {| min_bits := 0; max_word := max_word; n_limbs := length (coefficients poly);
    limb_width := limb_width |};
  limbs := coefficients poly;
  nat_value := (λ vs, limbs_to_nat vs limb_width) <$> poly_values poly;
  limb_values := poly_values poly |}.

(** [((2 m as f64).log2() - w).ceil() + 0.1) as usize], which saturates. *)
Definition carry_bits (max_word : Z) (limb_width : nat) : nat :=
  Z.to_nat (ceil_log2_f64 (max_word * 2) - Z.of_nat limb_width).

(** The carry of one limb, as its closure computes it. *)
Definition carry_value (self other : BigNat) (carry_in : Num) (max_word target_base : Z) (i : nat)
    : outcome SynthesisError Scalar :=
  a ← grab (limb_values self); a ← nth_value a i;
  c ← unwrap (n_value carry_in);
  b ← grab (limb_values other); b ← nth_value b i;
  unwrap (nat_to_f (Z.quot (f_to_nat a + f_to_nat c + max_word - f_to_nat b) target_base)).

(** [BigNat::equal_when_carried]. *)
Definition equal_when_carried (self other : BigNat) : Synth unit :=
  lift (enforce_limb_width_agreement self other) ;;
  let width := limb_width (params self) in
  let n := (length (limbs self) `min` length (limbs other))%nat in
  let target_base := Z.shiftl 1 (Z.of_nat width) in
  let max_word := Z.max (max_word (params self)) (max_word (params other)) in
  let carry_bits := carry_bits max_word width in
  foldM (λ '(carry_in, accumulated_extra) i,
    carry ← ns ("carry value " +:+ pretty (i : nat))
      (Num_alloc (carry_value self other carry_in max_word target_base i));
    let accumulated_extra := (accumulated_extra + max_word)%Z in
    a ← index (limbs self) i;
    b ← index (limbs other) i;
    m ← lift (unwrap (nat_to_f max_word));
    base ← lift (unwrap (nat_to_f target_base));
    extra ← lift (unwrap (nat_to_f (Z.rem accumulated_extra target_base)));
    enforce ("carry " +:+ pretty i) lc_zero lc_zero
      (lc_sub_term
        (lc_sub_scaled
          (lc_add_term (lc_sub (lc_add (lc_add lc_zero (n_num carry_in)) a) b) (m, one))
          (base, n_num carry))
        (extra, one)) ;;
    let accumulated_extra := Z.quot accumulated_extra target_base in
    (if (i <? n - 1)%nat then
       ns ("carry " +:+ pretty i +:+ " decomp") (fits_in_bits carry carry_bits)
     else
       extra ← lift (unwrap (nat_to_f accumulated_extra));
       enforce ("carry " +:+ pretty i +:+ " is out") lc_zero lc_zero
         (lc_sub_term (lc_add lc_zero (n_num carry)) (extra, one))) ;;
    mret (carry, accumulated_extra))
    ({| n_value := Some ZERO; n_num := lc_zero |}, 0%Z) (range n) ;;
  mapM (λ '(i, zero_limb), enforce ("zero self " +:+ pretty (i : nat)) lc_zero lc_zero (lc_add lc_zero zero_limb))
    (drop n (imap (λ i limb, (i, limb)) (limbs self))) ;;
  mapM (λ '(i, zero_limb), enforce ("zero other " +:+ pretty (i : nat)) lc_zero lc_zero (lc_add lc_zero zero_limb))
    (drop n (imap (λ i limb, (i, limb)) (limbs other))) ;;
  mret tt.

(** [BigNat::group_limbs]: for the values and for the sums, the code shifts
    the limbs of a group by powers of the width. *)
Definition limb_block (limb_width : nat) : Scalar :=
  foldl (λ l (_ : nat), Field.double l) ONE (range limb_width).
Definition grouped {A} (add : Scalar → A → A → A) (zero : A) (limb_width limbs_per_group n_groups : nat)
    (l : list A) : outcome SynthesisError (list A) :=
  '(groups, _) ← foldM (λ '(groups, shift) '(i, a),
    let shift := if (i mod limbs_per_group =? 0)%nat then ONE else shift in
    groups ← update (add shift a) groups (i / limbs_per_group)%nat;
    Ok (groups, (shift * limb_block limb_width)%S))
    (replicate n_groups zero, ONE) (imap (λ i a, (i, a)) l);
  Ok groups.
Definition group_limbs (self : BigNat) (limbs_per_group : nat) : outcome SynthesisError BigNat :=
  let width := limb_width (params self) in
  last ← sub_usize (length (limbs self)) 1;
  last_group ← div_usize last limbs_per_group;
  let n_groups := S last_group in
  values ← match limb_values self with
    | Some vs =>
        values ← grouped (λ shift v sum, sum + shift * v)%S ZERO width limbs_per_group n_groups vs;
        Ok (Some values)
    | None => Ok None
    end;
  groups ← grouped (λ shift limb sum, lc_add_scaled sum (shift, limb)) lc_zero
    width limbs_per_group n_groups (limbs self);
  let max_word :=
    (foldl (λ acc i, Z.setbit acc (Z.of_nat (i * width))) 0%Z (range limbs_per_group)
     * max_word (params self))%Z in
  Ok {| params := {| min_bits := min_bits (params self); limb_width := width * limbs_per_group;
          n_limbs := length groups; max_word := max_word |};
        limbs := groups; limb_values := values; nat_value := nat_value self |}.

Definition equal_when_carried_regroup (self other : BigNat) : Synth unit :=
  lift (enforce_limb_width_agreement self other) ;;
  let max_word := Z.max (max_word (params self)) (max_word (params other)) in
  let carry_bits := carry_bits max_word (limb_width (params self)) in
  room ← lift (sub_usize CAPACITY carry_bits);
  limbs_per_group ← lift (div_usize room (limb_width (params self)));
  self_grouped ← lift (group_limbs self limbs_per_group);
  other_grouped ← lift (group_limbs other limbs_per_group);
  ns "grouped" (equal_when_carried self_grouped other_grouped).

(** Limbs of two numbers side by side, up to [n]. *)
Definition both_limbs {A} (add : A → A → A) (n : nat) (l l' : list A) : outcome SynthesisError (list A) :=
  mapM (λ i,
    match l !! i, l' !! i with
    | Some a, Some b => Ok (add a b)
    | Some a, None | None, Some a => Ok a
    | None, None => Panic "unreachable"
    end) (range n).
(** [BigNat::add]. *)
Definition nat_add (self other : BigNat) : outcome SynthesisError BigNat :=
  enforce_limb_width_agreement self other ;;
  let n := (n_limbs (params self) `max` n_limbs (params other))%nat in
  limbs ← both_limbs lc_add n (limbs self) (limbs other);
  limb_values ← match limb_values self, limb_values other with
    | Some x, Some y => vs ← both_limbs sc_add n x y; Ok (Some vs)
    | _, _ => Ok None
    end;
  Ok {| limb_values := limb_values;
        nat_value := x ← nat_value self; y ← nat_value other; Some (x + y)%Z;
        limbs := limbs;
        params := {| min_bits := (min_bits (params self) `max` min_bits (params other))%nat;
          n_limbs := n; max_word := (max_word (params self) + max_word (params other))%Z;
          limb_width := limb_width (params self) |} |}.

Definition n_bits (self : BigNat) : outcome SynthesisError nat :=
  if (0 <? n_limbs (params self))%nat then
    Ok (limb_width (params self) * (n_limbs (params self) - 1) + bits_of (max_word (params self)))%nat
  else Panic "assertion failed".

Definition as_limb_values (self : BigNat) : option (list Scalar) := limb_values self.

(** * Polynomials *)
(** [lc + c0 + x c1 + x^2 c2 + ...]. *)
Definition poly_at (cs : list LinearCombination) (x : Scalar) : LinearCombination :=
  (foldl (λ '(lc, i) c, (lc_add_scaled lc (i, c), i * x)%S) (lc_zero, ONE) cs).1.

Definition product_values (self_vs other_vs : list Scalar) (n : nat) : outcome SynthesisError (list Scalar) :=
  foldM (λ values '(self_i, self_v),
    foldM (λ values '(other_i, other_v),
      update (λ s, s + self_v * other_v)%S values (self_i + other_i : nat))
      values (imap (λ i v, (i, v)) other_vs))
    (replicate n ZERO) (imap (λ i v, (i, v)) self_vs).

(** [Polynomial::alloc_product]: the coefficients of a product, checked at
    as many points as there are coefficients. *)
Definition alloc_product (self other : Polynomial) : Synth Polynomial :=
  n ← lift (sub_usize (length (coefficients self) + length (coefficients other)) 1);
  values ← lift (
    match poly_values self, poly_values other with
    | Some self_vs, Some other_vs => vs ← product_values self_vs other_vs n; Ok (Some vs)
    | _, _ => Ok None
    end);
  cs ← mapM (λ i,
    v ← alloc ("prod " +:+ pretty (i : nat)) (vs ← grab values; nth_value vs i);
    mret (lc_add_var lc_zero v)) (range n);
  foldM (λ x _,
    let x := (x + ONE)%S in
    enforce ("pointwise product @ " +:+ debug x)
      (poly_at (coefficients self) x) (poly_at (coefficients other) x) (poly_at cs x) ;;
    mret x) ZERO (range n) ;;
  mret {| coefficients := cs; poly_values := values |}.

(** [Polynomial::sum]. *)
Definition sum_at {A} (add : A → A → A) (zero : A) (l l' : list A) (i : nat) : A :=
  let s := match l !! i with Some a => add zero a | None => zero end in
  match l' !! i with Some a => add s a | None => s end.
Definition poly_sum (self other : Polynomial) : Polynomial :=
  let n := (length (coefficients self) `max` length (coefficients other))%nat in
  {| poly_values :=
       self_vs ← poly_values self; other_vs ← poly_values other;
       Some (sum_at sc_add ZERO self_vs other_vs <$> range n);
     coefficients := sum_at lc_add lc_zero (coefficients self) (coefficients other) <$> range n |}.

(** * Arithmetic modulo a number *)
(** The largest word of [q * m + r]. *)
Definition right_max_word (quotient modulus remainder : BigNat) : Z :=
  (Z.of_nat (length (limbs quotient) `min` length (limbs modulus))
   * max_word (params quotient) * max_word (params modulus) + max_word (params remainder))%Z.

(** A quotient and a remainder, which both functions allocate and range
    check, with the sum [q * m + r]. *)
Definition alloc_division (value : outcome SynthesisError Z) (quotient_bits : nat) (width : nat) (modulus : BigNat)
    : Synth (BigNat * BigNat) :=
  let divided (div : Z → Z → outcome SynthesisError Z) :=
    x ← value; m ← grab (nat_value modulus); div x m in
  last ← lift (div_usize (quotient_bits - 1) width);
  quotient ← ns "quotient" (alloc_from_nat (divided div_int) width (last + 1));
  ns "quotient rangecheck" (assert_well_formed quotient) ;;
  remainder ← ns "remainder" (alloc_from_nat (divided rem_int) width (length (limbs modulus)));
  ns "remainder rangecheck" (assert_well_formed remainder) ;;
  mret (quotient, remainder).

Definition mult_mod (self other modulus : BigNat) : Synth (BigNat * BigNat) :=
  lift (enforce_limb_width_agreement self other) ;;
  let width := limb_width (params self) in
  self_bits ← lift (n_bits self);
  other_bits ← lift (n_bits other);
  '(quotient, remainder) ← alloc_division
    (x ← grab (nat_value self); y ← grab (nat_value other); Ok (x * y)%Z)
    (self_bits + other_bits - min_bits (params modulus)) width modulus;
  left ← ns "left" (alloc_product (to_polynomial self) (to_polynomial other));
  right_product ← ns "right_product" (alloc_product (to_polynomial quotient) (to_polynomial modulus));
  let right := poly_sum right_product (to_polynomial remainder) in
  let left_max_word :=
    (Z.of_nat (length (limbs self) `min` length (limbs other))
     * max_word (params self) * max_word (params other))%Z in
  let left_int := from_poly left width left_max_word in
  let right_int := from_poly right width (right_max_word quotient modulus remainder) in
  ns "carry" (equal_when_carried_regroup left_int right_int) ;;
  mret (quotient, remainder).

Definition red_mod (self modulus : BigNat) : Synth BigNat :=
  lift (enforce_limb_width_agreement self modulus) ;;
  let width := limb_width (params self) in
  self_bits ← lift (n_bits self);
  '(quotient, remainder) ← alloc_division (grab (nat_value self))
    (self_bits - min_bits (params modulus)) width modulus;
  right_product ← ns "right_product" (alloc_product (to_polynomial quotient) (to_polynomial modulus));
  let right := poly_sum right_product (to_polynomial remainder) in
  let right_int := from_poly right width (right_max_word quotient modulus remainder) in
  ns "carry" (equal_when_carried_regroup self right_int) ;;
  mret remainder.

Definition sub_mod (self other modulus : BigNat) : Synth BigNat :=
  diff ← ns "sub_mod: compute diff" (alloc_from_nat
    (s ← grab (nat_value self); m ← grab (nat_value modulus); o ← grab (nat_value other);
     rem_int (s + m - o) m)
    (limb_width (params self)) (n_limbs (params self)));
  sum ← lift (nat_add other diff);
  sum ← ns "sub_mod: reduce sum" (red_mod sum modulus);
  ns "sub_mod: equality check" (equal_when_carried_regroup self sum) ;;
  mret diff.

Definition decompose_allocated (self : BigNat) : Synth (list AllocatedBit) :=
  let width := limb_width (params self) in
  assert (width <=? NUM_BITS)%nat "limb_width exceeds Scalar::NUM_BITS" ;;
  foldM (λ scalar_bits i,
    v ← lift (limb_value self i);
    let limb_bytes := to_repr <$> v in
    bits ← mapM (λ j,
      ns ("limb_" +:+ pretty (i : nat) +:+ "_bit_" +:+ pretty (j : nat))
        (AllocatedBit_alloc (
          bytes ← limb_bytes; byte ← bytes !! (j / 8)%nat;
          Some (Z.testbit (b2z byte) (Z.of_nat (j mod 8)))))) (range width);
    let packed_lc :=
      (foldl (λ '(lc, coeff) bit, (lc_add_term lc (coeff, bit_get_variable bit), Field.double coeff))
        (lc_zero, ONE) bits).1 in
    limb ← index (limbs self) i;
    enforce ("pack_eq limb_" +:+ pretty i) packed_lc (lc_add_var lc_zero one) limb ;;
    mret (scalar_bits ++ bits)) [] (range (n_limbs (params self))).

(** [gadget_utils.rs], [alloc_bignat_constant]. *)
Definition alloc_bignat_constant (val : Z) (limb_width n_limbs : nat) : Synth BigNat :=
  limb_values ← lift (match nat_to_limbs val limb_width n_limbs with Err _ => Panic "unwrap" | r => r end);
  bignat ← ns "alloc bignat" (alloc_from_limbs (Ok limb_values) None limb_width n_limbs);
  mapM (λ i,
    limb ← index (limbs bignat) i;
    v ← index limb_values i;
    enforce ("check limb " +:+ pretty (i : nat)) (lc_add lc_zero limb) (lc_add_var lc_zero one)
      (lc_add_term lc_zero (v, one))) (range n_limbs) ;;
  mret bignat.
End Limbs.
