(* ===== verification/BigNatRules.v ===== *)
(** What the rules of [nonnative/] force: ranges, decompositions, equality
    after carrying, products and reductions of numbers in limbs. *)
From Stdlib Require Import ZArith Lia Strings.String Strings.Byte.
From Stdlib Require Import Field_tac Ring.
From stdpp Require Import base list numbers option strings pretty.
From S2P Require Import Prelude Bytes Field ConstraintSystem Shape CheckSystem Bellpepper Lc Bits Gadgets Select Limbs BigNat.

(** * Sums *)
Section Sums.
Context `{LinearCombinations} (σ : Var → Scalar).
Add Field scalar_field : scalar_field_theory (morphism of_int_morph, constants [scalar_const]).

(** The loops that add terms with a growing factor. *)
Lemma eval_fold {A} (add : LinearCombination → Scalar → A → LinearCombination) (val : A → Scalar)
    (next : Scalar → Scalar) (x : Scalar) l f (xs : list A) :
  (∀ l f a, eval σ (add l f a) = (eval σ l + f * val a)%S) → (∀ f, next f = (f * x)%S) →
  eval σ (foldl (λ '(l, f) a, (add l f a, next f)) (l, f) xs).1 = (eval σ l + f * feval x (val <$> xs))%S.
Proof.
  intros Hadd Hnext. revert l f. induction xs as [|a xs IH]; intros l f; cbn; [ring|].
  fold (feval x (val <$> xs)). rewrite IH, Hadd, Hnext. ring.
Qed.

(** The same when the terms are integers. *)
Lemma eval_fold_int {A} (add : LinearCombination → Scalar → A → LinearCombination) (val : A → Scalar)
    (next : Scalar → Scalar) (n : Z) l f (xs : list A) (ds : list Z) :
  (∀ l f a, eval σ (add l f a) = (eval σ l + f * val a)%S) → (∀ f, next f = (f * of_int n)%S) →
  Forall2 (λ a d, val a = of_int d) xs ds →
  eval σ (foldl (λ '(l, f) a, (add l f a, next f)) (l, f) xs).1 = (eval σ l + f * of_int (zeval n ds))%S.
Proof.
  intros Hadd Hnext Hds. rewrite (eval_fold add val next (of_int n)) by done.
  rewrite <-feval_of_int. do 3 f_equal. by apply list_eq_Forall2, Forall2_fmap.
Qed.

Lemma double_of_int (f : Scalar) : Field.double f = (f * of_int 2)%S.
Proof. rewrite double_add. ring. Qed.

(** Bits, least significant first. *)
Definition bits_le (bs : list bool) : Z := zeval 2 (Z.b2z <$> bs).
Definition lcs_are : list LinearCombination → list Z → Prop := Forall2 (λ l z, eval σ l = of_int z).

Lemma eval_bits_sum bits bs :
  lcs_are bits (Z.b2z <$> bs) → eval σ (bits_sum bits) = of_int (bits_le bs).
Proof.
  intros Hb. unfold bits_sum.
  rewrite (eval_fold_int (λ l f bit, lc_add_scaled l (f, bit)) (eval σ) Field.double 2 _ _ _ (Z.b2z <$> bs)).
  - rewrite eval_zero. unfold bits_le. ring.
  - intros. apply eval_add_scaled.
  - apply double_of_int.
  - done.
Qed.
End Sums.

Lemma bits_le_range bs : (0 ≤ bits_le bs < 2 ^ Z.of_nat (length bs))%Z.
Proof.
  pose proof (zeval_range 1 1 (Z.b2z <$> bs)) as Hr. rewrite length_fmap, Nat.mul_1_l in Hr.
  apply Hr; [|lia]. apply list.Forall_fmap, list.Forall_true. intros []; split; cbn; lia.
Qed.

(** One step of a sum. *)
Ltac by_evals := intros; cbv beta; autorewrite with evals; rewrite ?double_of_int; ring.

(** * Loops *)
Lemma Forall_choose {A B} (R : A → B → Prop) l : Forall (λ a, ∃ b, R a b) l → ∃ bs, Forall2 R l bs.
Proof. induction 1 as [|a l [b Hb] _ [bs IH]]; [by exists []|]. exists (b :: bs). by constructor. Qed.

Lemma Forall2_indexed {A B} (P : A → Prop) l (ys : list B) :
  Forall2 (λ ia _, P ia.2) (imap (λ i a, (i, a)) l) ys → Forall P l.
Proof.
  intros Hf. apply list.Forall_lookup. intros i a Ea.
  destruct (Forall2_lookup_l _ _ _ i (i, a) Hf) as (y & _ & Hy); [|done].
  by rewrite list_lookup_imap, Ea.
Qed.

(** * Ranges *)
Section Ranges.
Context `{NumOps} `{!NonNative} (σ : Assignment).
Add Field scalar_field : scalar_field_theory (morphism of_int_morph, constants [scalar_const]).
Local Abbreviation lcs_are := (lcs_are σ).

(** A value that a rule [x (1 - x) = 0] restricts. *)
Lemma two_values (x a b : Scalar) :
  (a * b)%S = ZERO → a = x → b = (ONE - x)%S → ∃ v, x = of_bool v.
Proof.
  intros E -> ->. destruct (sc_mul_0 _ _ E) as [E'|E'].
  - by exists false.
  - exists true. symmetry. by apply sc_sub_0.
Qed.

(** The numbers that fit; the first bit is always there. *)
Lemma gadget_fits_in_bits num n :
  gadget σ (fits_in_bits num n)
    (λ _, ∃ z, (0 ≤ z < 2 ^ Z.of_nat (n `max` 1))%Z ∧ eval σ (n_num num) = of_int z).
Proof.
  unfold fits_in_bits. eapply gadget_bind.
  { apply (gadget_mapM_Forall2 σ _ _ (λ _ _, True)). intros. eapply gadget_alloc. }
  intros bits Hl%Forall2_length. rewrite length_seq in Hl. eapply gadget_bind.
  { apply (gadget_mapM_Forall2 σ _ _ (λ iv _, ∃ b, σ iv.2 = of_bool b)). intros [i v] _.
    eapply gadget_mono; [apply gadget_enforce|]. intros [] E. autorewrite with evals in E. simpl.
    eapply two_values; [exact E|ring|ring]. }
  intros ? Hbs. apply (Forall2_indexed (λ v, ∃ b, σ v = of_bool b)), Forall_choose in Hbs as [bs Hbs].
  eapply gadget_mono; [apply gadget_enforce|]. intros [] E.
  assert (∀ c, Forall2 (λ v d, (of_int c * σ v)%S = of_int d) bits (Z.mul c <$> (Z.b2z <$> bs))) as Hc.
  { intros c. rewrite <-list_fmap_compose, Forall2_fmap_r. eapply Forall2_impl; [exact Hbs|].
    intros v b Eb. cbn. by rewrite Eb, of_bool_of_int, of_int_mul. }
  rewrite (eval_fold_int σ (λ l f v, lc_sub_term l (Field.double f, v)) (λ v, of_int (-2) * σ v)%S Field.double 2
    _ _ _ _ ltac:(by_evals) double_of_int (Hc (-2)%Z)) in E.
  rewrite (eval_fold_int σ (λ l f v, lc_add_term l (Field.double f, v)) (λ v, of_int 2 * σ v)%S Field.double 2
    _ _ _ _ ltac:(by_evals) double_of_int (Hc 2%Z)) in E.
  rewrite !zeval_scale in E. fold (bits_le bs) in E. autorewrite with evals in E. rewrite !of_int_mul in E.
  edestruct (two_values (eval σ (n_num num) - of_int (2 * bits_le bs))) as [b Eb];
    [exact E|rewrite of_int_mul; ring|rewrite of_int_mul; ring|].
  exists (Z.b2z b + 2 * bits_le bs)%Z. split.
  - pose proof (bits_le_range bs) as Hr. rewrite <-(Forall2_length _ _ _ Hbs), <-Hl in Hr.
    replace (n `max` 1) with (S (n - 1)) by lia. rewrite Nat2Z.inj_succ, Z.pow_succ_r by lia.
    destruct b; cbn [Z.b2z]; lia.
  - rewrite of_int_add, <-of_bool_of_int, <-Eb. ring.
Qed.
Lemma gadget_Bit_alloc v : gadget σ (Bit_alloc v) (λ l, ∃ b, eval σ l = of_bool b).
Proof.
  unfold Bit_alloc. eapply gadget_bind; [apply gadget_alloc|]. intros var _.
  rule_as E. apply gadget_ret. autorewrite with evals. apply (two_values _ (σ var) (ONE - σ var)); [etransitivity; [|exact E]| |]; ring.
Qed.

Lemma get_bit_some (f : Scalar) i : (i < NUM_BITS)%nat → is_Some (get_bit f i).
Proof.
  intros Hi. unfold get_bit. destruct (Nat.leb_spec NUM_BITS i); [lia|].
  destruct (lookup_lt_is_Some_2 (to_repr f) (i / 8)) as [b Eb].
  { rewrite to_repr_length. apply Nat.Div0.div_lt_upper_bound. unfold NUM_BITS in Hi. lia. }
  rewrite Eb. by eexists.
Qed.

(** Bits whose rules hold are zeros and ones, and add up to the number. *)
Lemma gadget_num_decompose num n :
  n ≤ NUM_BITS →
  gadget σ (num_decompose num n) (λ bv, ∃ bs, lcs_are (bv_allocations bv) (Z.b2z <$> bs) ∧
    length bs = n ∧ eval σ (n_num num) = of_int (bits_le bs)).
Proof.
  intros Hn. unfold num_decompose.
  assert (∃ values, (match n_value num with
    | Some v => values ← unwrap (mapM (get_bit v) (range n)); Ok (Some values)
    | None => Ok None end : outcome SynthesisError _) = Ok values) as [values ->].
  { destruct (n_value num) as [v|]; [|by eexists].
    assert (is_Some (mapM (get_bit v) (range n))) as [vs ->].
    { apply mapM_is_Some, list.Forall_forall. intros i [_ Hi]%elem_of_seq. apply get_bit_some. simpl in Hi. lia. }
    by eexists. }
  eapply gadget_bind; [by apply gadget_lift|]. intros ? ->. eapply gadget_bind.
  { apply (gadget_mapM_Forall2 σ _ _ (λ _ l, ∃ b, eval σ l = of_bool b)). intros i _.
    apply gadget_ns, gadget_Bit_alloc. }
  intros bits Hb. pose proof (Forall2_length _ _ _ Hb) as Hl. unfold range in Hl; rewrite length_seq in Hl.
  apply (Forall2_Forall_r _ (λ l, ∃ b, eval σ l = of_bool b)) in Hb; [|by apply list.Forall_true].
  apply Forall_choose in Hb as [bs Hbs].
  assert (lcs_are bits (Z.b2z <$> bs)) as Hbits.
  { apply Forall2_fmap_r. eapply Forall2_impl; [exact Hbs|]. intros l b ->. apply of_bool_of_int. }
  rule_as E. apply gadget_ret. exists bs. split; [done|]. split; [by rewrite <-(Forall2_length _ _ _ Hbs)|].
  rewrite (eval_bits_sum σ bits bs Hbits) in E. by_rule E.
Qed.

Lemma gadget_is_equal num bv bs :
  lcs_are (bv_allocations bv) (Z.b2z <$> bs) →
  gadget σ (is_equal num bv) (λ _, eval σ (n_num num) = of_int (bits_le bs)).
Proof.
  intros Hb. unfold is_equal. eapply gadget_mono; [apply gadget_enforce|]. intros [] E.
  autorewrite with evals in E. rewrite (eval_bits_sum σ _ bs Hb) in E. by_rule E.
Qed.
End Ranges.

(** * Limbs *)
Section Limbs.
Context `{NumOps} `{!NonNative} (σ : Assignment).
Add Field scalar_field : scalar_field_theory (morphism of_int_morph, constants [scalar_const]).
Local Abbreviation lcs_are := (lcs_are σ).

Lemma nat_to_f_of_int n : (0 ≤ n)%Z → nat_to_f n = Some (of_int n).
Proof. intros Hn. unfold nat_to_f. rewrite from_decimal_spec. by destruct (Z.ltb_spec n 0); [lia|]. Qed.

Lemma int_with_n_ones_eq w : int_with_n_ones w = (2 ^ Z.of_nat w - 1)%Z.
Proof. unfold int_with_n_ones. by rewrite Z.shiftl_1_l. Qed.

(** The limbs of a number that has few enough bits, and never a panic. *)
Lemma nat_to_limbs_spec n w k :
  nat_to_limbs n w k = if (bits_of n <=? k * w)%nat then Ok (of_int <$> zdigits w k n) else Err Unsatisfiable.
Proof.
  unfold nat_to_limbs. destruct (bits_of n <=? k * w)%nat; [|done].
  set (step := λ '(limbs, n) (_ : nat), _).
  assert (∀ l acc n, ∃ n', foldM step (acc, n) l = Ok (acc ++ (of_int <$> zdigits w (length l) n), n')) as Hf.
  { induction l as [|i l IH]; intros acc m; [exists m; by rewrite app_nil_r|].
    assert (step (acc, m) i = Ok (acc ++ [of_int (m mod 2 ^ Z.of_nat w)], (m / 2 ^ Z.of_nat w)%Z)) as Es.
    { unfold step. rewrite int_with_n_ones_eq. change (2 ^ Z.of_nat w - 1)%Z with (Z.pred (2 ^ Z.of_nat w)).
      rewrite <-Z.ones_equiv, Z.land_ones, Z.shiftr_div_pow2 by lia.
      rewrite nat_to_f_of_int; [done|]. apply Z.mod_pos_bound. lia. }
    cbn [foldM]. rewrite Es. cbn [mbind outcome_bind].
    destruct (IH (acc ++ [of_int (m mod 2 ^ Z.of_nat w)%Z]) (m / 2 ^ Z.of_nat w)%Z) as [n' ->].
    exists n'. by rewrite <-app_assoc. }
  destruct (Hf (range k) [] n) as [n' ->]. unfold range. by rewrite length_seq.
Qed.

Lemma bits_of_le n k : (0 ≤ n < 2 ^ Z.of_nat k)%Z → (bits_of n <= k)%nat.
Proof.
  intros Hn. unfold bits_of. destruct (Z.eqb_spec n 0); [lia|]. rewrite Z.abs_eq by lia.
  assert (Z.log2 n < Z.of_nat k)%Z by (apply Z.log2_lt_pow2; lia).
  pose proof (Z.log2_nonneg n). lia.
Qed.

(** The value of a number's limbs. *)
Lemma limbs_to_nat_int vs w : limbs_to_nat vs w = limbs_int w (repr <$> vs).
Proof.
  unfold limbs_to_nat, limbs_int. induction vs as [|v vs IH]; [done|]. cbn [foldr fmap list_fmap zeval].
  change (foldr _ 0%Z (repr <$> vs)) with (zeval (2 ^ Z.of_nat w) (repr <$> vs)). rewrite IH.
  rewrite Z.shiftl_mul_pow2 by lia. unfold f_to_nat, repr. lia.
Qed.

(** A number whose parameters and values fit its limbs. *)
Definition sized (b : BigNat) : Prop :=
  n_limbs (params b) = length (limbs b) ∧ ∀ vs, limb_values b = Some vs → length vs = length (limbs b).
(** Its limbs hold the integers [zs], each at most its largest word. *)
Definition nat_is (b : BigNat) (zs : list Z) : Prop :=
  sized b ∧ lcs_are (limbs b) zs ∧ Forall (between (max_word (params b))) zs.

Lemma limb_value_ok b i l : sized b → limbs b !! i = Some l → ∃ v, limb_value b i = Ok v.
Proof.
  intros [_ Hv] Hi%lookup_lt_Some. unfold limb_value. destruct (limb_values b) as [vs|]; [|by eexists].
  destruct (lookup_lt_is_Some_2 vs i) as [v Ev]; [by rewrite (Hv vs)|].
  exists (Some v). unfold nth_value. by rewrite Ev.
Qed.

Lemma gadget_alloc_limbs value n : gadget σ (alloc_limbs value n) (λ l, length l = n).
Proof.
  eapply gadget_mono.
  { apply (gadget_mapM_Forall2 σ _ _ (λ _ _, True)). intros i _.
    eapply gadget_bind; [apply gadget_alloc|]. intros v _. by apply gadget_ret. }
  intros l Hl%Forall2_length. unfold range in Hl. by rewrite length_seq in Hl.
Qed.

(** A new number has the limbs it was asked for, and a value when its closure
    gave one. *)
Lemma gadget_alloc_from_nat f w n :
  (∀ e, f ≠ Panic e) →
  gadget σ (alloc_from_nat f w n) (λ b, sized b ∧ params b = params_new w n ∧ length (limbs b) = n).
Proof.
  intros Hf. unfold alloc_from_nat.
  set (all_values := v ← f; _).
  assert (∀ vs v, all_values = Ok (vs, v) → length vs = n) as Hlen.
  { intros vs v. unfold all_values. destruct f as [x| |]; simpl; [|done..].
    rewrite nat_to_limbs_spec. case_match; [|done]. intros [= <- <-]. by rewrite length_fmap, length_zdigits. }
  assert (∀ e, all_values ≠ Panic e) as Hp.
  { intros e. unfold all_values. destruct f as [x| |s]; simpl; [|done|by destruct (Hf s)].
    rewrite nat_to_limbs_spec. by case_match. }
  eapply gadget_bind; [apply (gadget_lift σ _ all_values); destruct all_values; done || by destruct (Hp what)|].
  intros ? ->. eapply gadget_bind; [apply gadget_alloc_limbs|]. intros l Hl. apply gadget_ret.
  split; [|done]. split; simpl; [done|]. intros vs. destruct all_values as [[vs' v]| |]; [|done..].
  destruct (0 <? n)%nat; [|done]. simpl. intros [= <-]. rewrite Hl. by apply (Hlen _ v).
Qed.

(** Range checks make the limbs of a new number integers below the width. *)
Lemma gadget_assert_well_formed b w n :
  sized b → params b = params_new w n → 0 < w →
  gadget σ (assert_well_formed b) (λ _, ∃ zs, nat_is b zs).
Proof.
  intros Hs Hp Hw. unfold assert_well_formed. eapply gadget_bind.
  { apply (gadget_mapM_Forall2 σ _ _ (λ il _, ∃ z, eval σ il.2 = of_int z ∧ between (2 ^ Z.of_nat w - 1) z)).
    intros [i0 l0] (j & l & Eq & Ei)%elem_of_lookup_imap; injection Eq as -> ->.
    destruct (limb_value_ok b j l Hs Ei) as [v Ev].
    eapply gadget_bind; [by apply gadget_lift|]. intros ? ->. apply gadget_ns.
    eapply gadget_mono; [apply gadget_fits_in_bits|]. intros _ (z & Hz & E). exists z. split; [done|].
    rewrite Hp in Hz. simpl in Hz. rewrite Nat.max_l in Hz by lia. split; lia. }
  intros ? Hl. apply gadget_ret.
  apply (Forall2_indexed (λ l, ∃ z, eval σ l = of_int z ∧ between (2 ^ Z.of_nat w - 1) z)), Forall_choose in Hl as [zs Hzs].
  exists zs. split; [done|]. split.
  - eapply Forall2_impl; [exact Hzs|]. by intros ?? [? _].
  - rewrite Hp. simpl. rewrite Z.shiftl_1_l. eapply Forall2_Forall_r; [exact Hzs|]. apply list.Forall_true. by intros ?? [_ ?].
Qed.
(** The bits of a number are the bits of its limbs. *)
Lemma gadget_nat_decompose b :
  sized b → limb_width (params b) ≤ NUM_BITS →
  gadget σ (nat_decompose b) (λ bv, ∃ bss : list (list bool),
    lcs_are (bv_allocations bv) (Z.b2z <$> concat bss) ∧ lcs_are (limbs b) (bits_le <$> bss) ∧
    Forall (λ bs, length bs = limb_width (params b)) bss).
Proof.
  intros Hs Hw. unfold nat_decompose. eapply gadget_bind.
  { apply (gadget_mapM_Forall2 σ _ _ (λ il bv, ∃ bs, lcs_are (bv_allocations bv) (Z.b2z <$> bs) ∧
      length bs = limb_width (params b) ∧ eval σ il.2 = of_int (bits_le bs))).
    intros [i0 l0] (j & l & Eq & Ei)%elem_of_lookup_imap; injection Eq as -> ->.
    destruct (limb_value_ok b j l Hs Ei) as [v Ev].
    eapply gadget_bind; [by apply gadget_lift|]. intros ? ->. apply gadget_ns.
    by apply (gadget_num_decompose σ {| n_num := l; n_value := v |}). }
  intros bvs Hbvs. apply gadget_ret. simpl. revert Hbvs. generalize (limbs b) as ls. clear Hs.
  assert (∀ k ls, Forall2 (λ il bv, ∃ bs, lcs_are (bv_allocations bv) (Z.b2z <$> bs) ∧
      length bs = limb_width (params b) ∧ eval σ il.2 = of_int (bits_le bs)) (imap (λ i l, (k + i, l)) ls) bvs →
    ∃ bss : list (list bool), lcs_are (bvs ≫= bv_allocations) (Z.b2z <$> concat bss) ∧
      lcs_are ls (bits_le <$> bss) ∧ Forall (λ bs, length bs = limb_width (params b)) bss) as Hgen;
    [|intros ls; apply (Hgen 0)].
  induction bvs as [|bv bvs IH]; intros k [|l ls] Hf; simpl in Hf; try by inversion Hf.
  - exists []. by repeat constructor.
  - apply Forall2_cons_1 in Hf as [(bs & Hbs & Hlen & El) Hf].
    destruct (IH (S k) ls) as (bss & H1' & H2' & H3').
    { erewrite imap_ext; [exact Hf|]. intros i x _. simpl. f_equal. lia. }
    exists (bs :: bss). cbn [concat fmap list_fmap mbind list_bind]. rewrite fmap_app. split.
    + by apply Forall2_app.
    + split; by constructor.
Qed.

Lemma limbs_int_bits w bss :
  Forall (λ bs, length bs = w) bss → limbs_int w (bits_le <$> bss) = bits_le (concat bss).
Proof.
  intros Hb. unfold limbs_int, bits_le.
  change (Z.b2z <$> concat bss) with (List.map Z.b2z (concat bss)). rewrite concat_map.
  change (List.map (List.map Z.b2z) bss) with (fmap (M:=list) Z.b2z <$> bss). rewrite <-(zeval_concat 2 w (fmap (M:=list) Z.b2z <$> bss)).
  - by rewrite <-list_fmap_compose.
  - apply list.Forall_fmap. eapply list.Forall_impl; [exact Hb|]. intros bs <-. cbn. apply length_fmap.
Qed.

(** The rules of [from_num] make the limbs a number that is congruent to the
    value modulo the field's prime; nothing says that it is the smallest. *)
Lemma gadget_from_num num w n :
  w ≤ NUM_BITS →
  gadget σ (from_num num w n) (λ b, params b = params_new w n ∧
    ∃ zs, nat_is b zs ∧ length zs = n ∧ eval σ (n_num num) = of_int (limbs_int w zs)).
Proof.
  intros Hw. unfold from_num. eapply gadget_bind.
  { apply gadget_ns, gadget_alloc_from_nat. intros e. by destruct (n_value num). }
  intros b (Hs & Hp & Hl). eapply gadget_bind.
  { apply gadget_ns, gadget_nat_decompose; [done|]. by rewrite Hp. }
  rewrite Hp. cbn [limb_width params_new]. intros bv (bss & Hbv & Hlimbs & Hlen). eapply gadget_bind.
  { by apply gadget_ns, gadget_is_equal. }
  intros [] E. cbv beta in E. apply gadget_ret. split; [done|]. exists (bits_le <$> bss).
  pose proof (Forall2_length _ _ _ Hlimbs) as Hlz. split; [|split; [congruence|]].
  - split; [done|]. split; [done|]. rewrite Hp. simpl. rewrite Z.shiftl_1_l.
    apply list.Forall_fmap. eapply list.Forall_impl; [exact Hlen|]. intros bs <-.
    pose proof (bits_le_range bs). split; cbn; lia.
  - rewrite limbs_int_bits by done. exact E.
Qed.

(** A constant holds its digits and carries its value. *)
Lemma gadget_alloc_bignat_constant v w n :
  (0 ≤ v < 2 ^ Z.of_nat (w * n))%Z → 0 < n → w < 256 →
  gadget σ (alloc_bignat_constant v w n) (λ b, params b = params_new w n ∧
    nat_is b (zdigits w n v) ∧ nat_value b = Some v).
Proof.
  intros Hv Hn Hw. unfold alloc_bignat_constant. rewrite nat_to_limbs_spec.
  assert ((bits_of v <=? n * w) = true) as ->.
  { apply Nat.leb_le. rewrite Nat.mul_comm. by apply bits_of_le. }
  eapply gadget_bind; [by apply gadget_lift|]. intros ? ->.
  eapply (gadget_bind _ _ _ (λ b, params b = params_new w n ∧ sized b ∧ nat_value b = Some v)).
  { apply gadget_ns. unfold alloc_from_limbs. eapply gadget_bind; [by apply gadget_lift|]. intros ? ->.
    eapply gadget_bind; [apply gadget_alloc_limbs|]. intros l Hl. apply gadget_ret.
    rewrite length_fmap, length_zdigits, Nat.eqb_refl. assert ((0 <? n) = true) as -> by by apply Nat.ltb_lt.
    split; [done|]. split; [split; simpl; [done|]|simpl].
    - intros vs [= <-]. by rewrite length_fmap, length_zdigits.
    - f_equal. rewrite limbs_to_nat_int, <-list_fmap_compose.
      assert (repr ∘ of_int <$> zdigits w n v = zdigits w n v) as ->; [|rewrite zdigits_int; by apply Z.mod_small].
      rewrite <-(list_fmap_id (zdigits w n v)) at 2. apply list_fmap_ext. intros i z Ez. cbn. rewrite repr_of_int. apply Z.mod_small.
      pose proof (proj1 (list.Forall_lookup _ _) (zdigits_between w n v) i z Ez) as [? ?].
      pose proof (lt_pow_p w Hw). lia. }
  intros b (Hp & Hs & Hv'). eapply gadget_bind.
  { apply (gadget_mapM_Forall2 σ _ _ (λ i _, ∃ l z, limbs b !! i = Some l ∧ zdigits w n v !! i = Some z ∧
      eval σ l = of_int z)). intros i [_ Hi]%elem_of_seq. simpl in Hi.
    destruct (lookup_lt_is_Some_2 (limbs b) i) as [l El]; [rewrite <-(proj1 Hs), Hp; simpl; lia|].
    destruct (lookup_lt_is_Some_2 (zdigits w n v) i) as [z Ez]; [by rewrite length_zdigits|].
    eapply gadget_bind; [by apply gadget_index_nth|]. intros ? ->.
    eapply gadget_bind; [apply (gadget_index_nth _ _ i (of_int z)); by rewrite list_lookup_fmap, Ez|]. intros ? ->.
    eapply gadget_mono; [apply gadget_enforce|]. intros [] E. autorewrite with evals in E.
    exists l, z. split; [done|]. split; [done|]. by_rule E. }
  intros ? Hall. apply gadget_ret. split; [done|]. split; [|done]. split; [done|]. split.
  - apply Forall2_same_length_lookup_2; [rewrite length_zdigits, <-(proj1 Hs), Hp; done|].
    intros i l z El Ez. assert (i < n) as Hi by (rewrite <-(length_zdigits w n v); by eapply lookup_lt_Some).
    destruct (Forall2_lookup_l _ _ _ i i Hall) as (? & _ & l' & z' & El' & Ez' & E).
    { unfold range. by apply lookup_seq_lt. }
    congruence.
  - rewrite Hp. simpl. rewrite Z.shiftl_1_l. apply zdigits_between.
Qed.
End Limbs.

(** * Equality after carrying *)
Section Carry.
Context `{NumOps} `{!NonNative} (σ : Assignment).
Add Field scalar_field : scalar_field_theory (morphism of_int_morph, constants [scalar_const]).
Local Abbreviation lcs_are := (lcs_are σ).
Local Abbreviation nat_is := (nat_is σ).

(** Carries of [cb] bits over limbs of [w] bits, of words up to [m], stay
    below the field's prime. *)
Definition carries_fit (m : Z) (w cb : nat) : Prop :=
  (0 ≤ m ∧ 2 ^ Z.of_nat (cb `max` 1) + 2 * m < p ∧
   2 ^ Z.of_nat w * 2 ^ Z.of_nat (cb `max` 1) + 2 ^ Z.of_nat w + m < p ∧
   2 ^ Z.of_nat w + 3 * m < p)%Z.

Lemma gadget_Num_alloc v : gadget σ (Num_alloc v) (λ _, True).
Proof. unfold Num_alloc. eapply gadget_bind; [apply gadget_alloc|]. intros x _. by apply gadget_ret. Qed.

Lemma of_int_zero n : of_int n = ZERO → (n mod p = 0)%Z.
Proof. rewrite <-of_int_0. by intros ->%of_int_inj_mod. Qed.

Lemma gadget_zero_limbs name n ls zs m :
  lcs_are ls zs → Forall (between m) zs → (m < p)%Z →
  gadget σ (mapM (λ '(i, zero_limb), enforce (name +:+ pretty (i : nat)) lc_zero lc_zero (lc_add lc_zero zero_limb))
    (drop n (imap (λ i limb, (i, limb)) ls))) (λ _, Forall (λ z, z = 0%Z) (drop n zs)).
Proof.
  intros Hl Hz Hm. eapply gadget_mono.
  { apply (gadget_mapM_Forall2 σ _ _ (λ il _, eval σ il.2 = ZERO)). intros [i l] _.
    eapply gadget_mono; [apply gadget_enforce|]. intros [] E. autorewrite with evals in E. simpl. by_rule E. }
  intros ys Hys. apply list.Forall_lookup. intros i z Ei. rewrite lookup_drop in Ei.
  destruct (Forall2_lookup_r _ _ _ _ _ Hl Ei) as (l & El & E).
  destruct (Forall2_lookup_l _ _ _ i (n + i, l) Hys) as (_ & _ & E').
  { by rewrite lookup_drop, list_lookup_imap, El. }
  simpl in E'. rewrite E' in E. symmetry in E. apply of_int_zero in E.
  pose proof (proj1 (list.Forall_lookup _ _) Hz _ _ Ei) as [? ?]. rewrite Z.mod_small in E by lia. done.
Qed.

Lemma gadget_equal_when_carried a b za zb w :
  nat_is a za → nat_is b zb → limb_width (params a) = w → limb_width (params b) = w → 0 < w →
  let m := Z.max (max_word (params a)) (max_word (params b)) in
  carries_fit m w (carry_bits m w) →
  gadget σ (equal_when_carried a b) (λ _, limbs_int w za = limbs_int w zb).
Proof.
  intros (_ & Ha & Hma) (_ & Hb & Hmb) Hwa Hwb Hw m (Hm & Hf1 & Hf2 & Hf3). unfold equal_when_carried.
  unfold enforce_limb_width_agreement. rewrite Hwa, Hwb, Nat.eqb_refl.
  eapply gadget_bind; [by apply gadget_lift|]. intros ? _. fold m.
  set (n := length (limbs a) `min` length (limbs b)). set (cb := carry_bits m w) in *.
  set (bound := (2 ^ Z.of_nat (cb `max` 1))%Z) in *. set (base := (2 ^ Z.of_nat w)%Z) in *.
  rewrite Z.shiftl_1_l. fold base.
  assert (2 ≤ base)%Z as Hbase.
  { unfold base. change 2%Z with (2 ^ 1)%Z at 1. apply Z.pow_le_mono_r; lia. }
  eapply gadget_bind.
  { apply (gadget_foldM σ _ _ _ (λ done '(carry, e), let k := length done in ∃ c,
      eval σ (n_num carry) = of_int c ∧ between m e ∧ (0 ≤ c)%Z ∧ (k < n → (c < bound)%Z) ∧ (k = n → c = e) ∧
      (zeval base (take k za) - zeval base (take k zb) = base ^ Z.of_nat k * (c - e))%Z)).
    - exists 0%Z. cbn [n_num length]. rewrite eval_zero, of_int_0, !take_0. unfold between. simpl. repeat split; lia.
    - intros done i [carry e] Hpre (c & Ec & He & Hc0 & Hc & _ & Hsum).
      apply prefix_snoc_lookup in Hpre as [Ei _]. unfold range in Ei. apply lookup_seq in Ei as [Ei Hi]. simpl in Ei. subst i.
      set (k := length done) in *. rewrite length_app. simpl length. rewrite Nat.add_1_r.
      eapply gadget_bind; [apply gadget_ns, gadget_Num_alloc|]. intros carry' _.
      destruct (lookup_lt_is_Some_2 (limbs a) k) as [la Ela]; [lia|].
      destruct (lookup_lt_is_Some_2 (limbs b) k) as [lb Elb]; [lia|].
      destruct (Forall2_lookup_l _ _ _ _ _ Ha Ela) as (xa & Exa & Va).
      destruct (Forall2_lookup_l _ _ _ _ _ Hb Elb) as (xb & Exb & Vb).
      eapply gadget_bind; [by apply gadget_index_nth|]. intros ? ->.
      eapply gadget_bind; [by apply gadget_index_nth|]. intros ? ->.
      unfold between in He.
      eapply gadget_bind; [by apply gadget_lift; rewrite nat_to_f_of_int|]. intros ? ->.
      eapply gadget_bind; [apply gadget_lift; rewrite nat_to_f_of_int; [done|lia]|]. intros ? ->.
      rewrite Z.rem_mod_nonneg, Z.quot_div_nonneg by lia.
      pose proof (Z.mod_pos_bound (e + m) base ltac:(lia)).
      eapply gadget_bind; [apply gadget_lift; rewrite nat_to_f_of_int; [done|lia]|]. intros ? ->.
      rule_as E. rewrite Va, Vb, Ec in E.
      assert (∀ c', eval σ (n_num carry') = of_int c' →
        (c + xa - xb + m - base * c' - (e + m) mod base) mod p = 0)%Z as Heq.
      { intros c' Ec'. apply of_int_zero. rewrite Ec' in E. rewrite !of_int_sub, of_int_add, of_int_sub, of_int_add, of_int_mul.
        match type of E with _ = ?r => transitivity r; [ring|rewrite <-E; ring] end. }
      assert (∀ c', eval σ (n_num carry') = of_int c' → (0 ≤ c')%Z → (base * c' + base + m < p)%Z →
        c - e + (xa - xb) = base * (c' - (e + m) / base) ∧ between m ((e + m) / base))%Z as Hstep.
      { intros c' Ec' ? ?. pose proof (proj1 (list.Forall_lookup _ _) Hma _ _ Exa) as [? ?].
        pose proof (proj1 (list.Forall_lookup _ _) Hmb _ _ Exb) as [? ?].
        apply (carry_step p base m bound); [done| | | | | | |done|by apply Heq]; unfold between; lia. }
      assert (∀ c', (c - e + (xa - xb) = base * (c' - (e + m) / base))%Z →
        (zeval base (take (S k) za) - zeval base (take (S k) zb) = base ^ Z.of_nat (S k) * (c' - (e + m) / base))%Z) as Hnext.
      { intros c' Hc'. rewrite (zeval_take_S _ _ _ _ Exa), (zeval_take_S _ _ _ _ Exb).
        rewrite Nat2Z.inj_succ, Z.pow_succ_r by lia. nia. }
      fold n. destruct (Nat.ltb_spec k (n - 1)).
      + eapply gadget_bind; [apply gadget_ns, gadget_fits_in_bits|]. intros [] (c' & Hc' & Ec'). fold bound in Hc'.
        destruct (Hstep c' Ec') as [Hs He']; [lia|nia|]. apply gadget_ret. exists c'. split; [done|].
        split; [done|]. split; [lia|]. split; [lia|]. split; [lia|]. by apply Hnext.
      + assert (0 ≤ (e + m) / base)%Z by (apply Z.div_pos; lia).
        eapply gadget_bind.
        { eapply gadget_bind; [apply gadget_lift; rewrite nat_to_f_of_int; [done|lia]|]. intros ? ->. apply gadget_enforce. }
        intros [] E'. cbv beta in E'. autorewrite with evals in E'.
        assert (eval σ (n_num carry') = of_int ((e + m) / base)) as Ec' by by_rule E'.
        pose proof (Z.mul_div_le (e + m) base ltac:(lia)).
        destruct (Hstep _ Ec') as [Hs He']; [done|lia|]. apply gadget_ret. exists ((e + m) / base)%Z.
        split; [done|]. split; [done|]. split; [done|]. split; [lia|]. split; [done|]. by apply Hnext. }
  intros [carry e] (c & _ & _ & _ & _ & Hce & Hsum). unfold range in *. rewrite length_seq in *.
  rewrite (Hce eq_refl), Z.sub_diag, Z.mul_0_r in Hsum.
  assert (m < p)%Z as Hmp by lia.
  eapply gadget_bind; [eapply (gadget_zero_limbs _ n _ za m); [done| |done]|].
  { eapply list.Forall_impl; [exact Hma|]. intros x [? ?]. unfold between, m. lia. }
  intros ? Hza. eapply gadget_bind; [eapply (gadget_zero_limbs _ n _ zb m); [done| |done]|].
  { eapply list.Forall_impl; [exact Hmb|]. intros x [? ?]. unfold between, m. lia. }
  intros ? Hzb. apply gadget_ret. apply (zeval_equal base n); [lia|done|done].
Qed.
End Carry.

(** * Groups *)
Section Groups.
Context `{NumOps} `{!NonNative} (σ : Assignment).
Add Field scalar_field : scalar_field_theory (morphism of_int_morph, constants [scalar_const]).
Local Abbreviation lcs_are := (lcs_are σ).
Local Abbreviation nat_is := (nat_is σ).

Lemma limb_block_eq w : limb_block w = of_int (2 ^ Z.of_nat w).
Proof.
  unfold limb_block, range. induction w as [|w IH]; [by rewrite <-of_int_1|].
  rewrite seq_S, foldl_app, IH. cbn [foldl]. rewrite double_of_int, Nat2Z.inj_succ, Z.pow_succ_r by lia.
  rewrite of_int_mul. ring.
Qed.

Lemma update_ok {A} (f : A → A) l i a : l !! i = Some a → update f l i = Ok (<[i := f a]> l).
Proof. intros E. unfold update, nth_value. by rewrite E. Qed.

(** The loop over the limbs adds each to its group, whatever the limbs are. *)
Lemma grouped_spec {A} (R : A → Z → Prop) add zero w g n l zs :
  0 < g → length l ≤ n * g → Forall2 R l zs → R zero 0%Z →
  (∀ s a sum z t, R a z → R sum t → R (add (of_int s) a sum) (t + s * z)%Z) →
  ∃ groups, grouped add zero w g n l = Ok groups ∧ Forall2 R groups (zgroups w g n zs).
Proof.
  intros Hg Hn Hl Hz Hadd. unfold grouped. set (step := λ '(groups, shift) '(i, a), _).
  enough (∃ groups shift, foldM step (replicate n zero, ONE) (imap (λ i a, (i, a)) l) = Ok (groups, of_int shift) ∧
    Forall2 R groups (zgroups w g n zs) ∧
    (length zs mod g ≠ 0 → shift = (2 ^ Z.of_nat (w * (length zs mod g)))%Z)) as (groups & shift & -> & Hgr & _).
  { by exists groups. }
  revert zs Hl. induction l as [|a l IH] using rev_ind; intros zs Hl.
  - apply Forall2_nil_inv_l in Hl as ->. exists (replicate n zero), 1%Z. split; [by rewrite of_int_1|].
    split; [|by rewrite Nat.Div0.mod_0_l].
    apply Forall2_same_length_lookup_2.
    { unfold zgroups, range. by rewrite length_replicate, length_fmap, length_seq. }
    intros j x y [-> _]%lookup_replicate_1. unfold zgroups. intros (j' & -> & _)%list_lookup_fmap_Some.
    unfold group. by rewrite drop_nil, take_nil.
  - apply Forall2_app_inv_l in Hl as (zs' & ? & Hl & (z & ? & Ha & ->%Forall2_nil_inv_l & ->)%Forall2_cons_inv_l & ->).
    rewrite length_app in Hn. simpl in Hn. pose proof (Forall2_length _ _ _ Hl) as Hlen.
    destruct (IH ltac:(lia) zs' Hl) as (groups & shift & Hrun & Hgr & Hsh).
    rewrite imap_app, foldM_app, Hrun. cbn [mbind outcome_bind]. simpl imap. rewrite Nat.add_0_r. cbn [foldM].
    assert (length zs' / g < n) as Hq by (apply Nat.Div0.div_lt_upper_bound; lia).
    assert (zgroups w g n zs' !! (length zs' / g) = Some (group w g zs' (length zs' / g))) as Eg.
    { unfold zgroups, range. by rewrite list_lookup_fmap, lookup_seq_lt. }
    destruct (Forall2_lookup_r _ _ _ _ _ Hgr Eg) as (x & Ex & Hx).
    set (s := (2 ^ Z.of_nat (w * (length zs' mod g)))%Z).
    assert (step (groups, of_int shift) (length l, a)
      = Ok (<[length zs' / g := add (of_int s) a x]> groups, of_int (s * 2 ^ Z.of_nat w))) as ->.
    { unfold step. rewrite Hlen.
      assert ((if length zs' mod g =? 0 then ONE else of_int shift) = of_int s) as ->.
      { unfold s. destruct (Nat.eqb_spec (length zs' mod g) 0) as [->|]; [|by rewrite Hsh].
        by rewrite Nat.mul_0_r, <-of_int_1. }
      rewrite (update_ok _ _ _ x Ex). cbn [mbind outcome_bind]. by rewrite limb_block_eq, of_int_mul. }
    eexists _, _. split; [done|]. rewrite zgroups_snoc by done. split.
    + apply Forall2_insert; [done|]. by apply Hadd.
    + intros Hm. unfold s. rewrite <-Z.pow_add_r, <-Nat2Z.inj_add by lia. do 2 f_equal.
      rewrite length_app in *. simpl length in *. rewrite <-Nat.Div0.add_mod_idemp_l in *.
      pose proof (Nat.mod_upper_bound (length zs') g ltac:(lia)).
      destruct (decide (length zs' mod g + 1 = g)) as [Eq|]; [by rewrite Eq, Nat.Div0.mod_same in Hm|].
      rewrite (Nat.mod_small (length zs' mod g + 1) g) by lia. lia.
Qed.

(** A number in groups is the same number. *)
Lemma group_limbs_is b zs g w :
  nat_is b zs → limb_width (params b) = w → 0 < g → 0 < w → limbs b ≠ [] → (0 ≤ max_word (params b))%Z →
  ∃ b' zs', group_limbs b g = Ok b' ∧ nat_is b' zs' ∧ limb_width (params b') = w * g ∧
    max_word (params b') = (ones w g * max_word (params b))%Z ∧ limbs_int (w * g) zs' = limbs_int w zs.
Proof.
  intros ((Hn & Hv) & Hl & Hm) Hw Hg Hw0 Hne Hm0. unfold group_limbs. rewrite Hw.
  assert (0 < length (limbs b)) as Hpos by (by destruct (limbs b); simpl; [|lia]).
  unfold sub_usize at 1. destruct (Nat.ltb_spec (length (limbs b)) 1); [lia|]. cbn [mbind outcome_bind].
  unfold div_usize at 1. destruct (Nat.eqb_spec g 0) as [|_]; [lia|]. cbn [mbind outcome_bind].
  set (n := S ((length (limbs b) - 1) / g)).
  assert (length (limbs b) ≤ n * g) as Hng.
  { unfold n. pose proof (Nat.div_mod (length (limbs b) - 1) g ltac:(lia)).
    pose proof (Nat.mod_upper_bound (length (limbs b) - 1) g ltac:(lia)). nia. }
  pose proof (Forall2_length _ _ _ Hl) as Hlen.
  assert (∃ values, (match limb_values b with
    | Some vs => values ← grouped (λ shift v sum, sum + shift * v)%S ZERO w g n vs; Ok (Some values)
    | None => Ok None end : outcome SynthesisError _) = Ok values ∧ (∀ vs, values = Some vs → length vs = n)) as (values & -> & Hvl).
  { destruct (limb_values b) as [vs|]; [|by eexists].
    destruct (grouped_spec (λ _ _, True) (λ shift v sum, sum + shift * v)%S ZERO w g n vs zs) as (gs & -> & Hgs); try done.
    - by rewrite (Hv vs).
    - apply Forall2_same_length_lookup_2; [by rewrite (Hv vs), Hlen|done].
    - exists (Some gs). split; [done|]. intros ? [= <-]. rewrite (Forall2_length _ _ _ Hgs).
      unfold zgroups, range. by rewrite length_fmap, length_seq. }
  destruct (grouped_spec (λ l z, eval σ l = of_int z) (λ shift limb sum, lc_add_scaled sum (shift, limb))
    lc_zero w g n (limbs b) zs) as (gs & -> & Hgs); [done..| | |].
  { by rewrite eval_zero, of_int_0. }
  { intros s l sum z t El Es. cbv beta. rewrite eval_add_scaled, El, Es, of_int_add, of_int_mul. ring. }
  pose proof (Forall2_length _ _ _ Hgs) as Hgl. unfold zgroups, range in Hgl. rewrite length_fmap, length_seq in Hgl.
  eexists _, (zgroups w g n zs). split; [done|]. cbn [params limb_width max_word limbs limb_values n_limbs].
  rewrite setbit_ones by done. split; [|split; [done|split; [done|apply zgroups_int; by rewrite <-Hlen]]].
  split; [|split; [done|by apply zgroups_between]].
  split; [done|]. simpl. intros vs Evs. by rewrite Hgl, (Hvl vs).
Qed.
(** The groups that the code makes of limbs of [w] bits, for words up to [m],
    leave room for the carries. *)
Definition group_size (m : Z) (w : nat) : nat := (CAPACITY - carry_bits m w) / w.
Definition regroup_fits (m : Z) (w : nat) : Prop :=
  let g := group_size m w in
  carry_bits m w ≤ CAPACITY ∧ 0 < g ∧
  carries_fit (ones w g * m) (w * g) (carry_bits (ones w g * m) (w * g)).

Lemma gadget_equal_when_carried_regroup a b za zb w :
  nat_is a za → nat_is b zb → limb_width (params a) = w → limb_width (params b) = w → 0 < w →
  limbs a ≠ [] → limbs b ≠ [] → (0 ≤ max_word (params a))%Z → (0 ≤ max_word (params b))%Z →
  regroup_fits (Z.max (max_word (params a)) (max_word (params b))) w →
  gadget σ (equal_when_carried_regroup a b) (λ _, limbs_int w za = limbs_int w zb).
Proof.
  intros Ha Hb Hwa Hwb Hw Hna Hnb Hma Hmb (Hcb & Hg & Hfit). unfold equal_when_carried_regroup, enforce_limb_width_agreement.
  rewrite Hwa, Hwb, Nat.eqb_refl. set (m := Z.max _ _) in *. set (g := group_size m w) in *.
  eapply gadget_bind; [by apply gadget_lift|]. intros ? _.
  eapply (gadget_bind _ _ _ (λ room, room = CAPACITY - carry_bits m w)).
  { apply gadget_lift. unfold sub_usize. by destruct (Nat.ltb_spec CAPACITY (carry_bits m w)); [lia|]. }
  intros ? ->. eapply (gadget_bind _ _ _ (λ g', g' = g)).
  { apply gadget_lift. unfold div_usize. by destruct (Nat.eqb_spec w 0); [lia|]. }
  intros ? ->.
  destruct (group_limbs_is a za g w) as (a' & za' & -> & Ha' & Hwa' & Hma' & <-); [done..|].
  destruct (group_limbs_is b zb g w) as (b' & zb' & -> & Hb' & Hwb' & Hmb' & <-); [done..|].
  eapply gadget_bind; [by apply gadget_lift|]. intros ? ->.
  eapply gadget_bind; [by apply gadget_lift|]. intros ? ->. apply gadget_ns.
  apply (gadget_equal_when_carried σ); try done; [lia|].
  rewrite Hma', Hmb'. assert (0 ≤ ones w g)%Z as Hones.
  { apply (zeval_le _ 1); [lia|lia|]. apply Forall_replicate. split; lia. }
  rewrite Z.mul_max_distr_nonneg_l by done. exact Hfit.
Qed.
End Groups.

(** * Products *)
Section Products.
Context `{NumOps} `{!NonNative} (σ : Assignment).
Add Field scalar_field : scalar_field_theory (morphism of_int_morph, constants [scalar_const]).
Local Abbreviation lcs_are := (lcs_are σ).
Local Abbreviation nat_is := (nat_is σ).

(** A polynomial with a value for each coefficient. *)
Definition poly_is (q : Polynomial) (zs : list Z) : Prop :=
  lcs_are (coefficients q) zs ∧ ∀ vs, poly_values q = Some vs → length vs = length (coefficients q).

Lemma eval_poly_at cs x : eval σ (poly_at cs x) = feval x (eval σ <$> cs).
Proof.
  unfold poly_at. rewrite (eval_fold σ (λ l i c, lc_add_scaled l (i, c)) (eval σ) (λ i, i * x)%S x) by by_evals.
  rewrite eval_zero. ring.
Qed.

Lemma lcs_are_fmap ls zs : lcs_are ls zs ↔ eval σ <$> ls = of_int <$> zs.
Proof. unfold BigNatRules.lcs_are. rewrite list_eq_Forall2, Forall2_fmap. done. Qed.

Lemma product_values_ok vs ws n :
  length vs + length ws - 1 ≤ n → ∃ values, product_values vs ws n = Ok values ∧ length values = n.
Proof.
  intros Hn. unfold product_values.
  assert (∀ (ws' : list Scalar) k j (v : Scalar) values, length values = n → k + j + length ws' ≤ n →
    ∃ values', foldM (λ values '(other_i, other_v), update (λ s, s + v * other_v)%S values (k + other_i : nat)) values
      (imap (λ i w, (j + i, w)) ws') = Ok values' ∧ length values' = n) as Hinner.
  { induction ws' as [|w ws' IH]; intros k j v values Hl Hj; [by eexists|]. simpl in Hj.
    cbn [imap foldM]. destruct (lookup_lt_is_Some_2 values (k + (j + 0))) as [x Ex]; [lia|].
    rewrite (update_ok _ _ _ x Ex). cbn [mbind outcome_bind].
    destruct (IH k (S j) v (<[k + (j + 0) := (x + v * w)%S]> values)) as (values' & Er & Hl'); [by rewrite length_insert|lia|].
    exists values'. split; [|done]. rewrite <-Er. f_equal. apply imap_ext. intros i y _. simpl. f_equal. lia. }
  assert (∀ (vs' : list Scalar) k values, length values = n → k + length vs' + length ws - 1 ≤ n →
    ∃ values', foldM (λ values '(self_i, self_v), foldM (λ values '(other_i, other_v),
      update (λ s, s + self_v * other_v)%S values (self_i + other_i : nat)) values (imap (λ i v, (i, v)) ws))
      values (imap (λ i v, (k + i, v)) vs') = Ok values' ∧ length values' = n) as Houter.
  { induction vs' as [|v vs' IH]; intros k values Hl Hk; [by eexists|]. simpl in Hk.
    cbn [imap foldM]. destruct (Hinner ws (k + 0) 0 v values Hl) as (values1 & E1 & Hl1); [lia|].
    cbn [Nat.add] in E1. rewrite E1.
    cbn [mbind outcome_bind]. destruct (IH (S k) values1 Hl1) as (values' & Er & Hl'); [lia|].
    exists values'. split; [|done]. rewrite <-Er. f_equal. apply imap_ext. intros i y _. simpl. f_equal. lia. }
  apply (Houter vs 0); [by rewrite length_replicate|lia].
Qed.

(** The product's coefficients are the convolution, whatever the slots hold:
    two polynomials that agree at as many points as they have coefficients. *)
Lemma gadget_alloc_product q r zs ws :
  poly_is q zs → poly_is r ws → zs ≠ [] → ws ≠ [] → (Z.of_nat (length zs + length ws) ≤ p)%Z →
  gadget σ (alloc_product q r) (λ s, poly_is s (zconv zs ws)).
Proof.
  intros (Hq & Hqv) (Hr & Hrv) Hzs Hws Hp. unfold alloc_product.
  pose proof (Forall2_length _ _ _ Hq) as Hlq. pose proof (Forall2_length _ _ _ Hr) as Hlr.
  set (n := length (coefficients q) + length (coefficients r) - 1).
  assert (0 < length zs) by (by destruct zs; simpl; [|lia]). assert (0 < length ws) by (by destruct ws; simpl; [|lia]).
  eapply (gadget_bind _ _ _ (λ m, m = n)).
  { apply gadget_lift. unfold sub_usize. by destruct (Nat.ltb_spec (length (coefficients q) + length (coefficients r)) 1); [lia|]. }
  intros ? ->. eapply (gadget_bind _ _ _ (λ values, ∀ vs, values = Some vs → length vs = n)).
  { destruct (poly_values q) as [vs|]; [|by apply gadget_ret]. destruct (poly_values r) as [vs'|]; [|by apply gadget_ret].
    destruct (product_values_ok vs vs' n) as (values & -> & Hl); [unfold n; rewrite (Hqv vs), (Hrv vs') by done; done|].
    apply gadget_ret. by intros ? [= <-]. }
  intros values Hv. eapply (gadget_bind _ _ _ (λ cs, length cs = n)).
  { eapply gadget_mono.
    - apply (gadget_mapM_Forall2 σ _ _ (λ _ _, True)). intros i _.
      eapply gadget_bind; [apply gadget_alloc|]. intros v _. by apply gadget_ret.
    - intros cs Hcs%Forall2_length. unfold range in Hcs. by rewrite length_seq in Hcs. }
  intros cs Hcs. eapply gadget_bind.
  { apply (gadget_foldM σ _ _ _ (λ done x, x = of_int (Z.of_nat (length done)) ∧
      ∀ k, 0 < k ≤ length done → feval (of_int (Z.of_nat k)) (eval σ <$> cs)
        = (feval (of_int (Z.of_nat k)) (of_int <$> zs) * feval (of_int (Z.of_nat k)) (of_int <$> ws))%S)).
    - split; [by rewrite of_int_0|]. intros k. simpl. lia.
    - intros done ? x _ [-> Hk].
      assert (of_int (Z.of_nat (length done)) + ONE = of_int (Z.of_nat (length done + 1)))%S as ->.
      { by rewrite Nat2Z.inj_add, of_int_add, <-of_int_1. }
      eapply gadget_bind; [apply gadget_enforce|]. intros [] E. apply gadget_ret. rewrite length_app. simpl length.
      split; [done|]. intros k Hk'. destruct (decide (k = length done + 1)) as [->|]; [|apply Hk; lia].
      rewrite !eval_poly_at, (proj1 (lcs_are_fmap _ _) Hq), (proj1 (lcs_are_fmap _ _) Hr) in E. by rewrite E. }
  intros x [_ Hk]. unfold range in Hk. rewrite length_seq in Hk. apply gadget_ret. split; simpl; [|by rewrite Hcs].
  assert (length (zconv zs ws) = n) as Hlc by (rewrite length_zconv by done; unfold n; congruence).
  apply lcs_are_fmap, (agree_equal n); [unfold n; lia|by rewrite length_fmap..|].
  intros k Hk'. rewrite Hk by done. by rewrite !feval_of_int, zeval_zconv, of_int_mul.
Qed.

(** Sums of polynomials are sums of coefficients. *)
Lemma poly_sum_is q r zs ws : poly_is q zs → poly_is r ws → poly_is (poly_sum q r) (zsum zs ws).
Proof.
  intros (Hq & Hqv) (Hr & Hrv). pose proof (Forall2_length _ _ _ Hq) as Hlq. pose proof (Forall2_length _ _ _ Hr) as Hlr.
  split; cbn [poly_sum coefficients poly_values].
  - apply Forall2_same_length_lookup_2.
    { unfold range. rewrite length_fmap, length_seq, length_zsum. congruence. }
    intros i l z (i' & -> & [-> Hi]%lookup_seq)%list_lookup_fmap_Some Ez. simpl in *. rewrite zsum_lookup in Ez.
    unfold sum_at.
    destruct (coefficients q !! i) as [a|] eqn:Ea.
    + destruct (Forall2_lookup_l _ _ _ _ _ Hq Ea) as (x & Ex & Vx). rewrite Ex in Ez.
      destruct (coefficients r !! i) as [b|] eqn:Eb.
      * destruct (Forall2_lookup_l _ _ _ _ _ Hr Eb) as (y & Ey & Vy). rewrite Ey in Ez. injection Ez as <-.
        rewrite !eval_add, eval_zero, Vx, Vy, of_int_add. ring.
      * apply lookup_ge_None in Eb. rewrite (lookup_ge_None_2 ws) in Ez by lia. injection Ez as <-.
        rewrite !eval_add, eval_zero, Vx. ring.
    + apply lookup_ge_None in Ea. rewrite (lookup_ge_None_2 zs) in Ez by lia.
      destruct (coefficients r !! i) as [b|] eqn:Eb.
      * destruct (Forall2_lookup_l _ _ _ _ _ Hr Eb) as (y & Ey & Vy). rewrite Ey in Ez. injection Ez as <-.
        rewrite !eval_add, eval_zero, Vy. ring.
      * apply lookup_ge_None in Eb. lia.
  - intros vs. destruct (poly_values q) as [vs1|]; [|done]. destruct (poly_values r) as [vs2|]; [|done]. simpl.
    intros [= <-]. by rewrite !length_fmap.
Qed.

Lemma to_polynomial_is b zs : nat_is b zs → poly_is (to_polynomial b) zs.
Proof. intros ((_ & Hv) & Hl & _). by split. Qed.

(** A polynomial whose coefficients are words is a number. *)
Lemma from_poly_is q zs w m :
  poly_is q zs → Forall (between m) zs → nat_is (from_poly q w m) zs.
Proof. intros (Hq & Hv) Hm. by repeat split. Qed.
End Products.

(** * Arithmetic modulo a number *)
Section Modular.
Context `{NumOps} `{!NonNative} (σ : Assignment).
Add Field scalar_field : scalar_field_theory (morphism of_int_morph, constants [scalar_const]).
Local Abbreviation nat_is := (nat_is σ).

(** A number in one or more limbs of [w] bits. *)
Definition in_limbs (w : nat) (b : BigNat) (zs : list Z) : Prop :=
  nat_is b zs ∧ limb_width (params b) = w ∧ zs ≠ [].

Lemma number_word w b zs : in_limbs w b zs → (0 ≤ max_word (params b))%Z.
Proof. intros ((_ & _ & Hm) & _ & Hne). destruct Hm as [|z zs [? ?] _]; [done|lia]. Qed.

Lemma number_limbs w b zs : in_limbs w b zs → length (limbs b) = length zs ∧ limbs b ≠ [].
Proof.
  intros ((_ & Hl & _) & _ & Hne). pose proof (Forall2_length _ _ _ Hl). split; [done|].
  by destruct zs, (limbs b).
Qed.

Lemma number_n_bits w b zs :
  in_limbs w b zs → n_bits b = Ok (w * (length zs - 1) + bits_of (max_word (params b))).
Proof.
  intros Hb. destruct (number_limbs _ _ _ Hb) as [Hl Hne]. destruct Hb as (((Hn & _) & _) & <- & _).
  unfold n_bits. rewrite Hn, Hl. destruct zs; [by destruct (limbs b)|done].
Qed.

Lemma same_widths w a b za zb : in_limbs w a za → in_limbs w b zb → enforce_limb_width_agreement a b = Ok w.
Proof.
  intros (_ & Ha & _) (_ & Hb & _). unfold enforce_limb_width_agreement. by rewrite Ha, Hb, Nat.eqb_refl.
Qed.

Lemma gadget_numbers_equal w a b za zb :
  0 < w → in_limbs w a za → in_limbs w b zb → regroup_fits (Z.max (max_word (params a)) (max_word (params b))) w →
  gadget σ (equal_when_carried_regroup a b) (λ _, limbs_int w za = limbs_int w zb).
Proof.
  intros Hw Ha Hb Hf. apply gadget_equal_when_carried_regroup; try done.
  1, 3: apply Ha. 1, 2: apply Hb. 1: apply (number_limbs _ _ _ Ha). 1: apply (number_limbs _ _ _ Hb).
  1: exact (number_word _ _ _ Ha). exact (number_word _ _ _ Hb).
Qed.

(** The quotient's limbs for a number of [bits] bits, and the largest word of
    [q * m + r] for [k] of them. *)
Definition quotient_limbs (bits w : nat) : nat := (bits - 1) / w + 1.
Definition right_word (w k n : nat) (m : Z) : Z :=
  (Z.of_nat (k `min` n) * (2 ^ Z.of_nat w - 1) * m + (2 ^ Z.of_nat w - 1))%Z.

Lemma new_number w n b zs : nat_is b zs → params b = params_new w n → 0 < n → in_limbs w b zs ∧ length zs = n.
Proof.
  intros Hb Hp Hn. pose proof Hb as ((Hl & _) & Hz & _). pose proof (Forall2_length _ _ _ Hz) as Hlz.
  rewrite Hp in Hl. simpl in Hl. split; [|congruence]. split; [done|]. split; [by rewrite Hp|].
  intros ->. simpl in Hlz. lia.
Qed.

(** The quotient and the remainder are any numbers that fit. *)
Lemma gadget_alloc_division value bits w modulus :
  (∀ e, value ≠ Panic e) → nat_value modulus ≠ Some 0%Z → 0 < w → limbs modulus ≠ [] →
  gadget σ (alloc_division value bits w modulus) (λ '(q, r), ∃ qs rs,
    (in_limbs w q qs ∧ params q = params_new w (quotient_limbs bits w) ∧ length qs = quotient_limbs bits w) ∧
    (in_limbs w r rs ∧ params r = params_new w (length (limbs modulus)) ∧ length rs = length (limbs modulus))).
Proof.
  intros Hv Hm Hw Hne. unfold alloc_division.
  set (divided := λ div : Z → Z → outcome SynthesisError Z,
    x ← value; m ← grab (nat_value modulus); div x m).
  assert (∀ div : Z → Z → outcome SynthesisError Z, (∀ x y e, y ≠ 0%Z → div x y ≠ Panic e) →
    ∀ e, divided div ≠ Panic e) as Hp.
  { intros div Hdiv e. unfold divided. destruct value as [x| |s]; simpl; [|done|by destruct (Hv s)].
    unfold grab. destruct (nat_value modulus) as [m|]; simpl; [|done]. apply Hdiv. congruence. }
  eapply (gadget_bind _ _ _ (λ l, l = (bits - 1) / w)).
  { apply gadget_lift. unfold div_usize. by destruct (Nat.eqb_spec w 0); [lia|]. }
  intros ? ->. fold (quotient_limbs bits w).
  eapply gadget_bind.
  { apply gadget_ns, gadget_alloc_from_nat, Hp. intros x y e Hy. unfold div_int. by destruct (Z.eqb_spec y 0). }
  intros q (Hqs & Hqp & _).
  eapply gadget_bind; [by eapply gadget_ns, gadget_assert_well_formed|]. intros [] (qs & Hq).
  eapply gadget_bind.
  { apply gadget_ns, gadget_alloc_from_nat, Hp. intros x y e Hy. unfold rem_int. by destruct (Z.eqb_spec y 0). }
  intros r (Hrs & Hrp & _).
  eapply gadget_bind; [by eapply gadget_ns, gadget_assert_well_formed|]. intros [] (rs & Hr). apply gadget_ret.
  assert (0 < length (limbs modulus)) by (by destruct (limbs modulus); simpl; [|lia]).
  destruct (new_number _ _ _ _ Hq Hqp) as [Hq' Hlq]; [unfold quotient_limbs; lia|].
  destruct (new_number _ _ _ _ Hr Hrp) as [Hr' Hlr]; [done|]. by exists qs, rs.
Qed.

(** The number [q * m + r] that both reductions compare with. *)
Lemma gadget_right w q r modulus qs rs ms :
  in_limbs w q qs → in_limbs w r rs → in_limbs w modulus ms → (Z.of_nat (length qs + length ms) ≤ p)%Z →
  gadget σ (alloc_product (to_polynomial q) (to_polynomial modulus)) (λ s,
    in_limbs w (from_poly (poly_sum s (to_polynomial r)) w (right_max_word q modulus r)) (zsum (zconv qs ms) rs)).
Proof.
  intros Hq Hr Hm Hp. eapply gadget_mono.
  { apply gadget_alloc_product; [apply to_polynomial_is, Hq|apply to_polynomial_is, Hm|apply Hq|apply Hm|done]. }
  intros s Hs. split; [|split; [done|]].
  - apply from_poly_is; [apply poly_sum_is; [done|apply to_polynomial_is, Hr]|].
    pose proof (number_word _ _ _ Hq). pose proof (number_word _ _ _ Hr). pose proof (number_word _ _ _ Hm).
    apply zsum_between; [|done| |apply Hr].
    + destruct (Nat.min (length (limbs q)) (length (limbs modulus))); nia.
    + rewrite (proj1 (number_limbs _ _ _ Hq)), (proj1 (number_limbs _ _ _ Hm)).
      apply zconv_between; [done|done|apply Hq|apply Hm].
  - intros E. apply (f_equal length) in E. rewrite length_zsum, length_zconv in E by apply Hm.
    destruct Hm as (_ & _ & Hm), Hq as (_ & _ & Hq). destruct qs, ms; simpl in E; try done. lia.
Qed.

Lemma right_int w qs ms rs :
  limbs_int w (zsum (zconv qs ms) rs) = (limbs_int w qs * limbs_int w ms + limbs_int w rs)%Z.
Proof. unfold limbs_int. by rewrite zeval_zsum, zeval_zconv. Qed.

Lemma right_max_word_eq w q m r qs ms k n :
  in_limbs w q qs → in_limbs w m ms → params q = params_new w k → length qs = k → params r = params_new w n →
  right_max_word q m r = right_word w k (length ms) (max_word (params m)).
Proof.
  intros Hq Hm Pq Hk Pr. unfold right_max_word, right_word.
  rewrite (proj1 (number_limbs _ _ _ Hq)), (proj1 (number_limbs _ _ _ Hm)), Pq, Pr, Hk. simpl. by rewrite Z.shiftl_1_l.
Qed.

(** The bits of a number's parameters. *)
Definition number_bits (w n : nat) (m : Z) : nat := w * (n - 1) + bits_of m.

(** The product of two numbers is the quotient times the modulus and the
    remainder, over the integers, for the limbs that satisfy the rules. *)
Lemma gadget_mult_mod w a b m za zb zm k :
  0 < w → in_limbs w a za → in_limbs w b zb → in_limbs w m zm → nat_value m ≠ Some 0%Z →
  quotient_limbs (number_bits w (length za) (max_word (params a))
    + number_bits w (length zb) (max_word (params b)) - min_bits (params m)) w = k →
  (Z.of_nat (length za + length zb) ≤ p)%Z → (Z.of_nat (k + length zm) ≤ p)%Z →
  regroup_fits (Z.max (Z.of_nat (length za `min` length zb) * max_word (params a) * max_word (params b))
    (right_word w k (length zm) (max_word (params m)))) w →
  gadget σ (mult_mod a b m) (λ '(q, r), ∃ qs rs,
    in_limbs w q qs ∧ params q = params_new w k ∧
    in_limbs w r rs ∧ params r = params_new w (length zm) ∧ length rs = length zm ∧
    limbs_int w za * limbs_int w zb = limbs_int w qs * limbs_int w zm + limbs_int w rs)%Z.
Proof.
  intros Hw Ha Hb Hm Hm0 Hk Hp1 Hp2 Hf. unfold mult_mod.
  rewrite (same_widths _ _ _ _ _ Ha Hb), (number_n_bits _ _ _ Ha), (number_n_bits _ _ _ Hb).
  rewrite (proj1 (proj2 Ha)).
  eapply gadget_bind; [by apply gadget_lift|]. intros ? _. eapply gadget_bind; [by apply gadget_lift|]. intros ? ->.
  eapply gadget_bind; [by apply gadget_lift|]. intros ? ->.
  eapply gadget_bind; [apply gadget_alloc_division; [|done|done|by eapply number_limbs]|].
  { intros e. unfold grab. by destruct (nat_value a), (nat_value b). }
  fold (number_bits w (length za) (max_word (params a))). fold (number_bits w (length zb) (max_word (params b))).
  rewrite Hk, (proj1 (number_limbs _ _ _ Hm)).
  intros [q r] (qs & rs & (Hq & Pq & Hlq) & (Hr & Pr & Hlr)).
  eapply gadget_bind; [apply gadget_ns, gadget_alloc_product; [apply to_polynomial_is, Ha|apply to_polynomial_is, Hb|apply Ha|apply Hb|done]|].
  intros left Hleft. eapply gadget_bind; [apply gadget_ns, (gadget_right w q r m qs rs zm); [done..|by rewrite Hlq]|].
  intros right Hright. cbv beta in Hright.
  eapply gadget_bind.
  { apply gadget_ns, (gadget_numbers_equal w _ _ (zconv za zb) (zsum (zconv qs zm) rs)); [done| |exact Hright|].
    - split; [|split; [done|]].
      + apply from_poly_is; [exact Hleft|]. rewrite (proj1 (number_limbs _ _ _ Ha)), (proj1 (number_limbs _ _ _ Hb)).
        apply zconv_between; [by eapply number_word|by eapply number_word|apply Ha|apply Hb].
      + intros E%(f_equal length). rewrite length_zconv in E by apply Hb. destruct Ha as (_ & _ & Ha), Hb as (_ & _ & Hb).
        destruct za, zb; simpl in E; try done. lia.
    - cbn [from_poly params max_word]. rewrite (proj1 (number_limbs _ _ _ Ha)), (proj1 (number_limbs _ _ _ Hb)).
      by rewrite (right_max_word_eq w q m r qs zm k (length zm)). }
  intros [] E. cbv beta in E. apply gadget_ret. exists qs, rs.
  rewrite right_int in E. unfold limbs_int in E at 1. rewrite zeval_zconv in E.
  split; [exact Hq|]. split; [exact Pq|]. split; [exact Hr|]. split; [exact Pr|]. split; [exact Hlr|exact E].
Qed.

Lemma gadget_red_mod w a m za zm k :
  0 < w → in_limbs w a za → in_limbs w m zm → nat_value m ≠ Some 0%Z →
  quotient_limbs (number_bits w (length za) (max_word (params a)) - min_bits (params m)) w = k →
  (Z.of_nat (k + length zm) ≤ p)%Z →
  regroup_fits (Z.max (max_word (params a)) (right_word w k (length zm) (max_word (params m)))) w →
  gadget σ (red_mod a m) (λ r, ∃ qs rs,
    Forall (between (2 ^ Z.of_nat w - 1)) qs ∧
    in_limbs w r rs ∧ params r = params_new w (length zm) ∧ length rs = length zm ∧
    limbs_int w za = limbs_int w qs * limbs_int w zm + limbs_int w rs)%Z.
Proof.
  intros Hw Ha Hm Hm0 Hk Hp2 Hf. unfold red_mod.
  rewrite (same_widths _ _ _ _ _ Ha Hm), (number_n_bits _ _ _ Ha), (proj1 (proj2 Ha)).
  eapply gadget_bind; [by apply gadget_lift|]. intros ? _. eapply gadget_bind; [by apply gadget_lift|]. intros ? ->.
  eapply gadget_bind; [apply gadget_alloc_division; [|done|done|by eapply number_limbs]|].
  { intros e. unfold grab. by destruct (nat_value a). }
  fold (number_bits w (length za) (max_word (params a))).
  rewrite Hk, (proj1 (number_limbs _ _ _ Hm)).
  intros [q r] (qs & rs & (Hq & Pq & Hlq) & (Hr & Pr & Hlr)).
  eapply gadget_bind; [apply gadget_ns, (gadget_right w q r m qs rs zm); [done..|by rewrite Hlq]|].
  intros right Hright. cbv beta in Hright. eapply gadget_bind.
  { apply gadget_ns, (gadget_numbers_equal w _ _ za (zsum (zconv qs zm) rs)); [done|done|exact Hright|].
    cbn [from_poly params max_word]. by rewrite (right_max_word_eq w q m r qs zm k (length zm)). }
  intros [] E. cbv beta in E. apply gadget_ret. exists qs, rs. rewrite right_int in E.
  split. { destruct Hq as ((_ & _ & Hq) & _). rewrite Pq in Hq. simpl in Hq. by rewrite Z.shiftl_1_l in Hq. }
  split; [exact Hr|]. split; [exact Pr|]. split; [exact Hlr|exact E].
Qed.
(** The bits of a number in range are its bits, least significant first. *)
Lemma gadget_decompose_allocated w n b zs :
  w < 256 → in_limbs w b zs → params b = params_new w n →
  gadget σ (decompose_allocated b) (λ bits, ∃ bs,
    Forall2 (bbit σ) bits bs ∧ length bs = w * n ∧ bits_le bs = limbs_int w zs).
Proof.
  intros Hw Hb Pb. unfold decompose_allocated. rewrite (proj1 (proj2 Hb)).
  eapply gadget_bind; [apply gadget_assert; apply Nat.leb_le; unfold NUM_BITS; lia|]. intros [] _.
  destruct Hb as ((Hs & Hl & Hm) & _). pose proof (Forall2_length _ _ _ Hl) as Hlz.
  assert (n_limbs (params b) = n) as Hn by by rewrite Pb. rewrite Hn.
  assert (length zs = n) as Hzn by (rewrite <-Hlz, <-(proj1 Hs); done).
  rewrite Pb in Hm. simpl in Hm. rewrite Z.shiftl_1_l in Hm.
  eapply gadget_mono.
  { apply (gadget_foldM σ _ _ _ (λ done bits, ∃ bs, Forall2 (bbit σ) bits bs ∧
      length bs = w * length done ∧ bits_le bs = limbs_int w (take (length done) zs))).
    - exists []. rewrite take_0, Nat.mul_0_r. by repeat constructor.
    - intros done i bits Hpre (bs & Hbs & Hbl & Hbv). apply prefix_snoc_lookup in Hpre as [Ei _].
      unfold range in Ei. apply lookup_seq in Ei as [Ei Hi]. simpl in Ei. subst i.
      set (k := length done) in *. rewrite length_app. simpl length. rewrite Nat.add_1_r.
      destruct (lookup_lt_is_Some_2 (limbs b) k) as [l El]; [lia|].
      destruct (Forall2_lookup_l _ _ _ _ _ Hl El) as (z & Ez & Vz).
      destruct (limb_value_ok b k l Hs El) as [v Ev].
      eapply gadget_bind; [by apply gadget_lift|]. intros ? ->. eapply gadget_bind.
      { apply (gadget_mapM_Forall2 σ _ _ (λ _ r, ∃ c, bbit σ r c)). intros j _.
        apply gadget_ns, gadget_AllocatedBit_alloc. }
      intros new Hnew. pose proof (Forall2_length _ _ _ Hnew) as Hln. unfold range in Hln. rewrite length_seq in Hln.
      apply (Forall2_Forall_r _ (λ r, ∃ c, bbit σ r c)) in Hnew; [|by apply list.Forall_true].
      apply Forall_choose in Hnew as [cs Hcs].
      eapply gadget_bind; [by apply gadget_index_nth|]. intros ? ->.
      assert (eval σ (foldl (λ '(lc, coeff) bit, (lc_add_term lc (coeff, bit_get_variable bit), Field.double coeff))
        (lc_zero, ONE) new).1 = of_int (bits_le cs)) as Esum.
      { rewrite (eval_fold_int σ (λ l f bit, lc_add_term l (f, bit_get_variable bit)) (λ bit, σ (bit_get_variable bit))
          Field.double 2 _ _ _ (Z.b2z <$> cs)); [|by_evals|apply double_of_int|].
        - rewrite eval_zero. unfold bits_le. ring.
        - apply Forall2_fmap_r. eapply Forall2_impl; [exact Hcs|]. intros r c E. unfold bbit in E. by rewrite E, of_bool_of_int. }
      eapply gadget_bind; [apply gadget_enforce|]. intros [] E. rewrite Esum in E. autorewrite with evals in E.
      rewrite Vz in E. apply gadget_ret. exists (bs ++ cs). split; [by apply Forall2_app|].
      pose proof (Forall2_length _ _ _ Hcs) as Hlc. split; [rewrite length_app, Hbl; lia|].
      assert (bits_le cs = z) as <-.
      { pose proof (bits_le_range cs) as Hr. rewrite <-Hlc, <-Hln in Hr. pose proof (lt_pow_p w Hw).
        pose proof (proj1 (list.Forall_lookup _ _) Hm _ _ Ez) as [? ?].
        apply of_int_inj; [lia|lia|]. rewrite <-E. ring. }
      unfold limbs_int. rewrite (zeval_take_S _ _ _ _ Ez). unfold bits_le. rewrite fmap_app, zeval_app.
      fold (bits_le bs) (bits_le cs). rewrite Hbv, length_fmap, Hbl. unfold limbs_int.
      by rewrite <-Z.pow_mul_r, <-Nat2Z.inj_mul by lia. }
  intros bits (bs & Hbs & Hbl & Hbv). unfold range in *. rewrite length_seq in *. exists bs.
  rewrite take_ge in Hbv by lia. done.
Qed.
End Modular.

(** * Properties *)
Section BigNatProperties.
Context `{NumOps} `{!NonNative}.

(** C16: Whoever assigns the slots, the rules of [mult_mod] make the product of
    the two numbers, over the integers, the quotient times the modulus and the
    remainder; the quotient and the remainder are numbers in range, and the
    carries of groups of limbs do not wrap around the field's prime. *)
Theorem mult_mod_sound (σ : Assignment) w a b m za zb zm k :
  0 < w → in_limbs σ w a za → in_limbs σ w b zb → in_limbs σ w m zm → nat_value m ≠ Some 0%Z →
  quotient_limbs (number_bits w (length za) (max_word (params a))
    + number_bits w (length zb) (max_word (params b)) - min_bits (params m)) w = k →
  (Z.of_nat (length za + length zb) ≤ p)%Z → (Z.of_nat (k + length zm) ≤ p)%Z →
  regroup_fits (Z.max (Z.of_nat (length za `min` length zb) * max_word (params a) * max_word (params b))
    (right_word w k (length zm) (max_word (params m)))) w →
  gadget σ (mult_mod a b m) (λ '(q, r), ∃ qs rs,
    in_limbs σ w q qs ∧ params q = params_new w k ∧
    in_limbs σ w r rs ∧ params r = params_new w (length zm) ∧ length rs = length zm ∧
    limbs_int w za * limbs_int w zb = limbs_int w qs * limbs_int w zm + limbs_int w rs)%Z.
Proof. apply gadget_mult_mod. Qed.

(** Whoever assigns the slots, the rules of an allocated product force its
    coefficients to be the convolution of the factors' coefficients. *)
Theorem alloc_product_exact (σ : Assignment) q r zs ws :
  poly_is σ q zs → poly_is σ r ws → zs ≠ [] → ws ≠ [] → (Z.of_nat (length zs + length ws) ≤ p)%Z →
  gadget σ (alloc_product q r) (λ s, poly_is σ s (zconv zs ws) ∧
    ∀ x, zeval x (zconv zs ws) = (zeval x zs * zeval x ws)%Z).
Proof.
  intros. eapply gadget_mono; [by apply gadget_alloc_product|]. intros s Hs. split; [done|].
  intros x. apply zeval_zconv.
Qed.
End BigNatProperties.
