(* ===== verification/CborUint.v ===== *)
(** [cbor_uint.rs]: the variable-width encoding of a [digestID], a CBOR
    unsigned integer below 2^31. Values of [u32] are integers [Z]; the casts
    [as u8] and [as u16] keep the low bits. *)
From Stdlib Require Import ZArith Lia Strings.String Strings.Byte.
From stdpp Require Import base list numbers option strings.
From S2P Require Import Prelude Bytes.
Local Open Scope Z_scope.

Definition MAX_DIGEST_ID : Z := Z.shiftl 1 31 - 1.
Definition MAX_CBOR_UINT_BYTES : nat := 5.

Definition length_class (value : Z) : nat :=
  if value <? 24 then 0
  else if value <? 256 then 1
  else if value <? 65536 then 2
  else 3.

(** The index panics past the fourth class. *)
Definition class_byte_width (class : nat) : outcome Empty_set nat :=
  match [1; 2; 3; MAX_CBOR_UINT_BYTES]%nat !! class with
  | Some width => Ok width
  | None => Panic "index out of bounds"
  end.

Definition encode_cbor_uint (value : Z) : outcome Empty_set (list byte) :=
  if negb (value <=? MAX_DIGEST_ID) then Panic "digestID must be < 2^31" else
  Ok match length_class value with
     | 0%nat => [z2b value]
     | 1%nat => [x18; z2b value]
     | 2%nat => x19 :: be_bytes 2 value
     | _ => x1a :: be_bytes 4 value
     end.

(** [bytes.get(a..b)]. *)
Definition get_range (a b : nat) (bytes : list byte) : option (list byte) :=
  if (b <=? length bytes)%nat then Some (slice a b bytes) else None.

Definition decode_cbor_uint (bytes : list byte) : option (Z * nat) :=
  marker ← head bytes;
  if b2z marker <? 0x18 then Some (b2z marker, 1%nat)
  else if decide (marker = x18) then b ← bytes !! 1%nat; Some (b2z b, 2%nat)
  else if decide (marker = x19) then b ← get_range 1 3 bytes; Some (be_int b, 3%nat)
  else if decide (marker = x1a) then b ← get_range 1 5 bytes; Some (be_int b, 5%nat)
  else None.

(** * Encodings *)

Lemma Ok_inj {E A} (a b : A) : @Ok E A a = Ok b → a = b.
Proof. by intros [= <-]. Qed.

Lemma get_range_app m n b rest :
  length b = n → get_range 1 (S n) (m :: b ++ rest) = Some b.
Proof.
  intros <-. unfold get_range, slice. rewrite (proj2 (Nat.leb_le _ _)) by (cbn; rewrite length_app; lia).
  cbn [drop]. by rewrite drop_0, Nat.sub_succ, Nat.sub_0_r, take_app_length.
Qed.

Lemma get_range_Some n bytes b :
  get_range 1 (S n) bytes = Some b → length b = n ∧ ∃ m rest, bytes = m :: b ++ rest.
Proof.
  unfold get_range. destruct (Nat.leb_spec (S n) (length bytes)) as [L|]; [|done]. intros [= <-].
  destruct bytes as [|m bytes]; [cbn in L; lia|]. cbn in L. unfold slice. cbn [drop].
  rewrite drop_0, Nat.sub_succ, Nat.sub_0_r. split; [rewrite length_take; lia|].
  exists m, (drop n bytes). by rewrite take_drop.
Qed.

Lemma class_ranges v :
  (length_class v = 0%nat ∧ v < 24) ∨ (length_class v = 1%nat ∧ 24 ≤ v < 256) ∨
  (length_class v = 2%nat ∧ 256 ≤ v < 65536) ∨ (length_class v = 3%nat ∧ 65536 ≤ v).
Proof.
  unfold length_class. destruct (Z.ltb_spec v 24); [by left|right].
  destruct (Z.ltb_spec v 256); [by left|right]. destruct (Z.ltb_spec v 65536); [by left|by right].
Qed.

(** A marker that is not below 24 leaves the three others. *)
Lemma decode_marked m rest :
  0x18 ≤ b2z m → decode_cbor_uint (m :: rest) =
    if decide (m = x18) then (λ b, (b2z b, 2%nat)) <$> rest !! 0%nat
    else if decide (m = x19) then (λ b, (be_int b, 3%nat)) <$> get_range 1 3 (m :: rest)
    else if decide (m = x1a) then (λ b, (be_int b, 5%nat)) <$> get_range 1 5 (m :: rest)
    else None.
Proof.
  intros Hm. unfold decode_cbor_uint. cbn [head mbind option_bind].
  destruct (Z.ltb_spec (b2z m) 0x18); [lia|].
  destruct (decide (m = x18)); [by destruct rest|].
  destruct (decide (m = x19)); [by destruct (get_range 1 3 _)|].
  destruct (decide (m = x1a)); [by destruct (get_range 1 5 _)|]. done.
Qed.

Lemma decode_encode v bs rest :
  0 ≤ v → encode_cbor_uint v = Ok bs →
  class_byte_width (length_class v) = Ok (length bs) ∧
  decode_cbor_uint (bs ++ rest) = Some (v, length bs).
Proof.
  intros Hv. unfold encode_cbor_uint. destruct (Z.leb_spec v MAX_DIGEST_ID) as [M|]; [|done].
  cbn [negb]. change MAX_DIGEST_ID with 2147483647 in M.
  destruct (class_ranges v) as [[-> C]|[[-> C]|[[-> C]|[-> C]]]]; intros <-%Ok_inj; (split; [done|]).
  - unfold decode_cbor_uint. cbn [app head mbind option_bind].
    rewrite b2z_z2b, Z.mod_small by lia. by rewrite (proj2 (Z.ltb_lt _ _)) by lia.
  - rewrite <-app_comm_cons, decode_marked by done. cbn [decide app lookup list_lookup fmap option_fmap option_map].
    rewrite decide_True, b2z_z2b, Z.mod_small by (done || lia). done.
  - rewrite <-app_comm_cons, decode_marked, decide_False, decide_True by done.
    rewrite (get_range_app _ 2) by apply length_be_bytes. cbn [fmap option_fmap option_map length].
    by rewrite be_int_be_bytes, Z.mod_small, length_be_bytes by (simpl; lia).
  - rewrite <-app_comm_cons, decode_marked, !decide_False, decide_True by done.
    rewrite (get_range_app _ 4) by apply length_be_bytes. cbn [fmap option_fmap option_map length].
    by rewrite be_int_be_bytes, Z.mod_small, length_be_bytes by (simpl; lia).
Qed.

(** The only integers read from more bytes than they need are those of a
    longer form: what is read in the width of its class is its encoding. *)
Lemma encode_decode bs v n :
  decode_cbor_uint bs = Some (v, n) → v ≤ MAX_DIGEST_ID → class_byte_width (length_class v) = Ok n →
  encode_cbor_uint v = Ok (take n bs).
Proof.
  intros Hd M. unfold encode_cbor_uint. rewrite (proj2 (Z.leb_le _ _)) by done. cbn [negb].
  destruct bs as [|m rest]; [done|]. destruct (Z.lt_ge_cases (b2z m) 0x18) as [L|L].
  - unfold decode_cbor_uint in Hd. cbn [head mbind option_bind] in Hd.
    rewrite (proj2 (Z.ltb_lt _ _)) in Hd by done. injection Hd as <- <-.
    destruct (class_ranges (b2z m)) as [[-> C]|[[-> C]|[[-> C]|[-> C]]]]; intros E; try discriminate E; try lia.
    by rewrite z2b_b2z.
  - rewrite decode_marked in Hd by done.
    destruct (decide (m = x18)) as [->|]; [|destruct (decide (m = x19)) as [->|]; [|destruct (decide (m = x1a)) as [->|]; [|done]]].
    + destruct rest as [|b rest]; [done|]. injection Hd as <- <-.
      destruct (class_ranges (b2z b)) as [[-> C]|[[-> C]|[[-> C]|[-> C]]]]; intros E; try discriminate E.
      by rewrite z2b_b2z.
    + destruct (get_range 1 3 _) as [b|] eqn:Eb; [|done]. injection Hd as <- <-.
      apply get_range_Some in Eb as (Lb & m & rest' & [= <- ->]).
      destruct (class_ranges (be_int b)) as [[-> C]|[[-> C]|[[-> C]|[-> C]]]]; intros E; try discriminate E.
      rewrite be_bytes_be_int by done. cbn [take]. by rewrite take_app_length'.
    + destruct (get_range 1 5 _) as [b|] eqn:Eb; [|done]. injection Hd as <- <-.
      apply get_range_Some in Eb as (Lb & m & rest' & [= <- ->]).
      destruct (class_ranges (be_int b)) as [[-> C]|[[-> C]|[[-> C]|[-> C]]]]; intros E; try discriminate E.
      rewrite be_bytes_be_int by done. cbn [take]. by rewrite take_app_length'.
Qed.

(** A [u32] below 2^31 is encoded in the bytes of its class and read back
    from them, whatever follows; a larger one panics; and what is read in the
    width of its class is exactly its encoding. *)
Theorem digest_id_roundtrip :
  (∀ v, 0 ≤ v < 2 ^ 32 → match encode_cbor_uint v with
    | Ok bs => v < 2 ^ 31 ∧ class_byte_width (length_class v) = Ok (length bs) ∧
        ∀ rest, decode_cbor_uint (bs ++ rest) = Some (v, length bs)
    | _ => 2 ^ 31 ≤ v
    end) ∧
  (∀ bs v n, decode_cbor_uint bs = Some (v, n) → v < 2 ^ 31 →
    class_byte_width (length_class v) = Ok n → encode_cbor_uint v = Ok (take n bs)).
Proof.
  split.
  - intros v Hv. pose proof (decode_encode v) as Hd. unfold encode_cbor_uint in *.
    change MAX_DIGEST_ID with (2 ^ 31 - 1) in *. destruct (Z.leb_spec v (2 ^ 31 - 1)); cbn [negb] in *; [|lia].
    split; [lia|]. split; [by apply (Hd _ []); [lia|]|]. intros rest. by apply (Hd _ rest); [lia|].
  - intros bs v n Hd M. apply encode_decode; [done|]. change MAX_DIGEST_ID with (2 ^ 31 - 1). lia.
Qed.

(** The reader also accepts forms longer than the class of the value, and
    integers past the largest [digestID]. *)
Lemma decode_not_canonical :
  decode_cbor_uint [x18; x05] = Some (5, 2%nat) ∧ encode_cbor_uint 5 = Ok [x05] ∧
  decode_cbor_uint [x1a; xff; xff; xff; xff] = Some (2 ^ 32 - 1, 5%nat).
Proof. by vm_compute. Qed.
