(* ===== verification/OneHotCursor.v ===== *)
(** [onehot_cursor.rs]: one-hot selectors over explicit sets of values, and
    the selector of the sum of two selected values. The sums are the distinct
    ones, so a chain of them stays small. *)
From Stdlib Require Import ZArith Lia Strings.String Strings.Byte Sorted Permutation.
From Stdlib Require Import Field_tac Ring.
From stdpp Require Import base list numbers option sorting strings pretty.
From S2P Require Import Prelude Bytes Field ConstraintSystem Shape CheckSystem Bellpepper Lc Bits Select.

(** [bellpepper_core]'s [Boolean::constant], [Boolean::and], [Boolean::or] and
    the weighted sums of [Boolean::lc]. *)
Class BooleanOps `{Bellpepper} := {
  Boolean_constant : bool → Boolean;
  Boolean_and : Boolean → Boolean → Synth Boolean;
  Boolean_or : Boolean → Boolean → Synth Boolean;
  Boolean_constant_denotes (σ : Assignment) v : denotes σ (bit (Boolean_constant v)) (of_bool v);
  Boolean_lc_scaled (σ : Var → Scalar) b c :
    eval σ (Boolean_lc b one c) = (c * eval σ (Boolean_lc b one ONE))%S;
  Boolean_lc_scaled_vars b c v :
    v ∈ (lc_iter (Boolean_lc b one c)).*1 → v ∈ (lc_iter (Boolean_lc b one ONE)).*1;
  Boolean_and_rules (σ : Assignment) a b v w :
    denotes σ (bit a) (of_bool v) → denotes σ (bit b) (of_bool w) →
    gadget σ (Boolean_and a b) (λ c, denotes σ (bit c) (of_bool (v && w)));
  Boolean_or_rules (σ : Assignment) a b v w :
    denotes σ (bit a) (of_bool v) → denotes σ (bit b) (of_bool w) →
    gadget σ (Boolean_or a b) (λ c, denotes σ (bit c) (of_bool (v || w)));
}.

(** [Iterator::position]. *)
Fixpoint position_of {A} `{EqDecision A} (x : A) (l : list A) : option nat :=
  match l with
  | [] => None
  | y :: l => if decide (y = x) then Some 0%nat else S <$> position_of x l
  end.

(** [Vec::dedup]: drops an element equal to the one before it. *)
Fixpoint dedup {A} `{EqDecision A} (l : list A) : list A :=
  match l with
  | [] => []
  | x :: l' =>
      match l' with
      | y :: _ => if decide (x = y) then dedup l' else x :: dedup l'
      | [] => [x]
      end
  end.

Section OneHotCursor.
Context `{BooleanOps}.

Definition alloc_one_hot (values : list nat) (real_value : nat) : Synth (list Boolean) :=
  match position_of real_value values with
  | None => Panic' "real_value not in the provided value set"
  | Some real_idx =>
      onehot ← mapM (λ '(idx, _),
        bit ← ns ("one_hot " +:+ pretty (idx : nat)) (AllocatedBit_alloc (Some (bool_decide (idx = real_idx))));
        mret (Boolean_from bit)) (imap (λ idx v, (idx, v : nat)) values);
      let lc := foldl (λ lc b, lc_add lc (Boolean_lc b one ONE)) lc_zero onehot in
      enforce "one_hot sums to exactly 1" lc (lc_add_var lc_zero one) (lc_add_var lc_zero one) ;;
      mret onehot
  end.

(** The distinct sums in increasing order. *)
Definition sums (a_values b_values : list nat) : list nat :=
  dedup (merge_sort (≤) (a_values ≫= λ av, (λ bv, av + bv)%nat <$> b_values)).

Definition convolve_sum (a : list Boolean) (a_values : list nat) (b : list Boolean) (b_values : list nat)
    : Synth (list Boolean * list nat) :=
  assert (length a =? length a_values)%nat "assert_eq" ;;
  assert (length b =? length b_values)%nat "assert_eq" ;;
  let sum_values := sums a_values b_values in
  sum_onehot ← mapM (λ '(out_idx, sv),
    acc ← foldM (λ acc '(i, av),
      foldM (λ acc '(j, bv),
        if negb (av + bv =? sv)%nat then mret acc else
        let name := " sum=" +:+ pretty (sv : nat) +:+ " out=" +:+ pretty (out_idx : nat)
          +:+ " a=" +:+ pretty (i : nat) +:+ " b=" +:+ pretty (j : nat) in
        a_i ← index a i;
        b_j ← index b j;
        term ← ns ("convolve" +:+ name) (Boolean_and a_i b_j);
        match acc with
        | None => mret (Some term)
        | Some prev => c ← ns ("convolve-or" +:+ name) (Boolean_or prev term); mret (Some c)
        end) acc (imap (λ j bv, (j, bv)) b_values)) None (imap (λ i av, (i, av)) a_values);
    match acc with
    | Some acc => mret acc
    | None => Panic' "every sum_values entry came from at least one (i,j) pair"
    end) (imap (λ out_idx sv, (out_idx, sv)) sum_values);
  mret (sum_onehot, sum_values).
End OneHotCursor.

(** * The distinct sums *)
Section Sums.

Lemma position_of_Some {A} `{EqDecision A} (x : A) l : x ∈ l → ∃ k, position_of x l = Some k ∧ l !! k = Some x.
Proof.
  induction l as [|y l IH]; [by intros ?%not_elem_of_nil|]. cbn [position_of]. intros Hx.
  destruct (decide (y = x)) as [->|N]; [by exists 0|].
  apply elem_of_cons in Hx as [->|(k & -> & Ek)%IH]; [done|]. by exists (S k).
Qed.

Lemma dedup_cons {A} `{EqDecision A} (x : A) l :
  dedup (x :: l) = if decide (head l = Some x) then dedup l else x :: dedup l.
Proof.
  destruct l as [|y l]; [done|]. cbn [dedup head].
  destruct (decide (x = y)) as [->|]; [by rewrite decide_True|by rewrite decide_False by congruence].
Qed.

Lemma elem_of_dedup {A} `{EqDecision A} (x : A) l : x ∈ dedup l ↔ x ∈ l.
Proof.
  induction l as [|y l IH]; [done|]. rewrite dedup_cons.
  destruct (decide _) as [E|]; rewrite ?elem_of_cons, IH; [|done].
  destruct l as [|z l]; [done|]. injection E as ->. rewrite !elem_of_cons. tauto.
Qed.

(** Dropping repetitions of a sorted list leaves no duplicate. *)
Lemma NoDup_dedup (l : list nat) : StronglySorted (≤) l → NoDup (dedup l).
Proof.
  induction 1 as [|x l Hs IH Hx]; [constructor|]. rewrite dedup_cons.
  destruct (decide (head l = Some x)) as [|N]; [done|]. constructor; [|done].
  rewrite elem_of_dedup. intros Hin. destruct l as [|y l]; [by apply not_elem_of_nil in Hin|].
  apply N. cbn [head]. f_equal. rewrite list.Forall_forall in Hx.
  apply Nat.le_antisymm; [|apply Hx; left].
  apply elem_of_cons in Hin as [->|Hin]; [done|].
  apply StronglySorted_inv in Hs as [_ Hs]. rewrite list.Forall_forall in Hs. by apply Hs.
Qed.

Lemma elem_of_sums s a_values b_values :
  s ∈ sums a_values b_values ↔ ∃ av bv, av ∈ a_values ∧ bv ∈ b_values ∧ s = (av + bv)%nat.
Proof.
  unfold sums. rewrite elem_of_dedup, (merge_sort_Permutation (≤)), list_elem_of_bind.
  split.
  - intros (av & (bv & -> & Hb)%list_elem_of_fmap & Ha). eauto.
  - intros (av & bv & Ha & Hb & ->). exists av. split; [|done]. apply list_elem_of_fmap. eauto.
Qed.

Lemma NoDup_sums a_values b_values : NoDup (sums a_values b_values).
Proof. apply NoDup_dedup, StronglySorted_merge_sort; [apply _|]. intros x y. lia. Qed.

(** In a list without duplicates, the test for one element is one-hot. *)
Lemma NoDup_one_hot (l : list nat) k s :
  NoDup l → l !! k = Some s → (λ x, bool_decide (x = s)) <$> l = one_hot (length l) k.
Proof.
  intros Hl Hk. apply list_eq. intros i. rewrite list_lookup_fmap.
  destruct (l !! i) as [x|] eqn:Ei; cbn [fmap option_fmap option_map].
  - rewrite lookup_one_hot by by eapply lookup_lt_Some. f_equal. apply bool_decide_ext.
    split; [intros ->|intros ->; congruence]. by apply (NoDup_lookup l i k s).
  - symmetry. apply lookup_ge_None. rewrite length_one_hot. by apply lookup_ge_None.
Qed.
End Sums.

(** * What the rules force *)
Section OneHotRules.
Context `{BooleanOps} (σ : Assignment).
Add Field scalar_field : scalar_field_theory (morphism of_int_morph, constants [scalar_const]).
Local Abbreviation D := (denotes σ).

(** New bits, whatever the prover puts there. *)
Lemma gadget_new_bit name v :
  gadget σ (bit ← ns name (AllocatedBit_alloc v); mret (Boolean_from bit))
    (λ b, ∃ w, D (bit b) (of_bool w)).
Proof. step gadget_bit as b Hb. by apply gadget_ret. Qed.

Lemma gadget_bit_list {A} (f : A → Synth Boolean) l :
  (∀ x, gadget σ (f x) (λ b, ∃ w, D (bit b) (of_bool w))) →
  gadget σ (mapM f l) (λ bs, ∃ vs, bits_are D bs vs ∧ length vs = length l).
Proof.
  intros Hf. apply (gadget_mapM _ _ _ (λ done bs, ∃ vs, bits_are D bs vs ∧ length vs = length done)).
  - exists []. split; [constructor|done].
  - intros done x ys Hp (vs & HF & Hl). eapply gadget_mono; [apply Hf|]. intros b (w & Hw).
    exists (vs ++ [w]). rewrite !length_app, Hl. split; [|done].
    apply Forall2_app; [done|]. by repeat constructor.
Qed.

(** The rule that exactly one of the bits is set. *)
Lemma gadget_exactly_one name bs vs :
  bits_are D bs vs → (Z.of_nat (length vs) < p)%Z →
  gadget σ (enforce name (foldl (λ lc b, lc_add lc (Boolean_lc b one ONE)) lc_zero bs)
    (lc_add_var lc_zero one) (lc_add_var lc_zero one))
    (λ _, ∃ k, k < length vs ∧ vs = one_hot (length vs) k).
Proof.
  intros HF Hn. eapply gadget_mono; [apply gadget_enforce|]. intros [] E. cbv beta in E.
  assert (∀ l, foldl (λ lc b, lc_add lc (Boolean_lc b one ONE)) lc_zero l
    = lc (foldl (λ sum b, add_lc sum (bit b)) lc_of_zero l)) as El.
  { induction l as [|b l IH] using rev_ind; [done|]. by rewrite !foldl_app, IH. }
  rewrite El in E. pose proof (count_sem D _ _ HF) as Hc. unfold denotes, lval in Hc. rewrite Hc in E.
  assert (eval σ (lc_add_var lc_zero one) = ONE) as Eo.
  { unfold eval. rewrite lc_add_var_eval, lc_zero_eval. change (σ one) with (σ (Input 0)). rewrite assign_one. ring. }
  rewrite Eo, <-of_int_1, <-of_int_mul, Z.mul_1_r in E. pose proof (count_range vs).
  apply of_int_inj in E; [|lia|done]. by apply count_1 in E.
Qed.

Lemma gadget_one_hot values v :
  v ∈ values → (Z.of_nat (length values) < p)%Z →
  gadget σ (alloc_one_hot values v)
    (λ bs, ∃ k, k < length values ∧ bits_are D bs (one_hot (length values) k)).
Proof.
  intros Hv Hn. unfold alloc_one_hot. destruct (position_of_Some v values Hv) as (k0 & -> & _).
  eapply gadget_bind.
  { apply gadget_bit_list. intros [i x]. apply gadget_new_bit. }
  intros bs (vs & HF & Hl). rewrite length_imap in Hl.
  eapply gadget_bind; [apply (gadget_exactly_one _ _ _ HF); by rewrite Hl|].
  intros [] (k & Hk & E). apply gadget_ret. rewrite Hl in Hk, E. exists k. split; [done|]. by rewrite <-E.
Qed.

(** What the loops carry: nothing before the first pair of the sum, then the
    disjunction of the pairs' conjunctions. *)
Definition acc_is (acc : option Boolean) (seen v : bool) : Prop :=
  match acc with None => seen = false ∧ v = false | Some c => seen = true ∧ D (bit c) (of_bool v) end.

(** One more candidate in the disjunction. *)
Lemma gadget_or_candidate name acc term seen v w :
  acc_is acc seen v → D (bit term) (of_bool w) →
  gadget σ (match acc with
    | None => mret (Some term)
    | Some prev => c ← ns name (Boolean_or prev term); mret (Some c)
    end) (λ acc, acc_is acc true (v || w)).
Proof.
  intros Hacc Ht. destruct acc as [prev|]; destruct Hacc as [-> Hv].
  - eapply gadget_bind; [eapply gadget_ns, Boolean_or_rules; [exact Hv|exact Ht]|]. intros c Hc.
    apply gadget_ret. by split.
  - apply gadget_ret. rewrite Hv. by split.
Qed.

(** The pairs of one sum, and whether the selected pair is among them. *)
Definition indexed (l : list nat) : list (nat * nat) := imap (λ i v, (i, v)) l.
Definition seen_in (sv av : nat) : list (nat * nat) → bool := existsb (λ '(_, bv), av + bv =? sv)%nat.
Definition hit_in (sv i0 j0 i av : nat) : list (nat * nat) → bool :=
  existsb (λ '(j, bv), (av + bv =? sv) && ((i =? i0) && (j =? j0)))%nat.

Lemma gadget_pairs (name name' : nat → string) a i a_i b bvals sv av i0 j0 acc seen w :
  a !! i = Some a_i → D (bit a_i) (of_bool (i =? i0)%nat) → bits_are D b (one_hot (length bvals) j0) →
  acc_is acc seen w →
  gadget σ (foldM (λ acc '(j, bv),
    if negb (av + bv =? sv)%nat then mret acc else
    a_i ← index a i;
    b_j ← index b j;
    term ← ns (name j) (Boolean_and a_i b_j);
    match acc with
    | None => mret (Some term)
    | Some prev => c ← ns (name' j) (Boolean_or prev term); mret (Some c)
    end) acc (indexed bvals))
    (λ acc, acc_is acc (seen || seen_in sv av (indexed bvals)) (w || hit_in sv i0 j0 i av (indexed bvals))).
Proof.
  intros Ea Ha Hb Hacc.
  apply (gadget_foldM σ _ _ _ (λ done acc,
    acc_is acc (seen || seen_in sv av done) (w || hit_in sv i0 j0 i av done))).
  - cbn. by rewrite !orb_false_r.
  - intros done [j bv] acc' Hp Hacc'. apply prefix_snoc_lookup in Hp as [Hj _].
    apply list_lookup_imap_Some in Hj as (bv' & Ej & [= -> ->]). set (j := length done) in *.
    unfold seen_in, hit_in in *. rewrite !existsb_app. cbn [existsb].
    rewrite !orb_false_r, !orb_assoc. set (s := seen || _) in *. set (x := w || _) in *.
    destruct (av + bv' =? sv)%nat; cbn [negb andb].
    2: { apply gadget_ret. by rewrite !orb_false_r. }
    assert (j < length bvals) as Lj by by eapply lookup_lt_Some.
    destruct (Forall2_lookup_r _ _ _ _ _ Hb (lookup_one_hot _ j0 _ Lj)) as (b_j & Eb & Hbj).
    eapply gadget_bind; [by apply gadget_index_nth|]. intros ? ->.
    eapply gadget_bind; [by apply gadget_index_nth|]. intros ? ->.
    eapply gadget_bind; [by eapply gadget_ns, Boolean_and_rules|]. intros term Ht.
    assert (bool_decide (j = j0) = (j =? j0)%nat) as Ej0 by (case_bool_decide; symmetry; by apply Nat.eqb_eq || apply Nat.eqb_neq).
    rewrite Ej0 in Ht. rewrite orb_true_r. by eapply gadget_or_candidate.
Qed.

(** All the pairs of one sum. *)
Definition any_seen (sv : nat) (bvals : list nat) : list (nat * nat) → bool :=
  existsb (λ '(_, av), seen_in sv av (indexed bvals)).
Definition any_hit (sv i0 j0 : nat) (bvals : list nat) : list (nat * nat) → bool :=
  existsb (λ '(i, av), hit_in sv i0 j0 i av (indexed bvals)).

Lemma any_seen_sum sv avals bvals : sv ∈ sums avals bvals → any_seen sv bvals (indexed avals) = true.
Proof.
  intros (av & bv & Ha & Hb & ->)%elem_of_sums. apply existsb_exists.
  apply list_elem_of_lookup in Ha as [i Ei], Hb as [j Ej]. exists (i, av). split.
  - apply list_elem_of_In, list_elem_of_lookup. exists i. unfold indexed. by rewrite list_lookup_imap, Ei.
  - apply existsb_exists. exists (j, bv). split; [|by apply Nat.eqb_eq].
    apply list_elem_of_In, list_elem_of_lookup. exists j. unfold indexed. by rewrite list_lookup_imap, Ej.
Qed.

Lemma any_hit_sum sv avals bvals i0 j0 av bv :
  avals !! i0 = Some av → bvals !! j0 = Some bv →
  any_hit sv i0 j0 bvals (indexed avals) = bool_decide (sv = av + bv)%nat.
Proof.
  intros Ei Ej. apply eq_true_iff_eq. rewrite bool_decide_eq_true. unfold any_hit, hit_in, indexed.
  rewrite existsb_exists. split.
  - intros ([i av'] & [k Hk]%list_elem_of_In%list_elem_of_lookup & Hx).
    apply list_lookup_imap_Some in Hk as (? & Ek & [= -> ->]).
    apply existsb_exists in Hx as ([j bv'] & [k' Hk']%list_elem_of_In%list_elem_of_lookup & Hy).
    apply list_lookup_imap_Some in Hk' as (? & Ek' & [= -> ->]).
    apply andb_true_iff in Hy as [Hs [Hi Hj]%andb_true_iff].
    apply Nat.eqb_eq in Hs, Hi, Hj. subst. congruence.
  - intros ->. exists (i0, av). split.
    + apply list_elem_of_In, list_elem_of_lookup. exists i0. by rewrite list_lookup_imap, Ei.
    + apply existsb_exists. exists (j0, bv). split.
      * apply list_elem_of_In, list_elem_of_lookup. exists j0. by rewrite list_lookup_imap, Ej.
      * by rewrite !Nat.eqb_refl.
Qed.

Lemma gadget_convolve_sum a avals b bvals i0 j0 av bv :
  bits_are D a (one_hot (length avals) i0) → bits_are D b (one_hot (length bvals) j0) →
  avals !! i0 = Some av → bvals !! j0 = Some bv →
  gadget σ (convolve_sum a avals b bvals) (λ '(bs, vals),
    vals = sums avals bvals ∧
    ∃ k, vals !! k = Some (av + bv)%nat ∧ bits_are D bs (one_hot (length vals) k)).
Proof.
  intros Ha Hb Ei Ej. unfold convolve_sum.
  pose proof (Forall2_length _ _ _ Ha) as La. pose proof (Forall2_length _ _ _ Hb) as Lb.
  rewrite length_one_hot in La, Lb.
  eapply gadget_bind; [by apply gadget_assert, Nat.eqb_eq|]. intros _ _.
  eapply gadget_bind; [by apply gadget_assert, Nat.eqb_eq|]. intros _ _.
  set (f (sv : nat) := bool_decide (sv = av + bv)%nat).
  eapply gadget_bind.
  { apply (gadget_mapM_Forall2 _ _ _ (λ '(_, sv) c, D (bit c) (of_bool (f sv)))).
    intros [k sv] [n Hn]%list_elem_of_lookup. apply list_lookup_imap_Some in Hn as (sv' & Ek & [= -> ->]).
    eapply gadget_bind.
    { apply (gadget_foldM σ _ _ _ (λ done acc, acc_is acc (any_seen sv' bvals done) (any_hit sv' i0 j0 bvals done))).
      - by split.
      - intros done [i av'] acc Hp Hacc. apply prefix_snoc_lookup in Hp as [Hi _].
        apply list_lookup_imap_Some in Hi as (? & Ei' & [= -> ->]).
        assert (length done < length avals) as Ld by by eapply lookup_lt_Some.
        destruct (Forall2_lookup_r _ _ _ _ _ Ha (lookup_one_hot _ i0 _ Ld)) as (a_i & Ea & Hai).
        assert (bool_decide (length done = i0) = (length done =? i0)%nat) as Ed
          by (case_bool_decide; symmetry; by apply Nat.eqb_eq || apply Nat.eqb_neq).
        rewrite Ed in Hai. unfold any_seen, any_hit. rewrite !existsb_app. cbn [existsb]. rewrite !orb_false_r.
        by apply gadget_pairs with (a_i := a_i). }
    intros acc Hacc.
    change (acc_is acc (any_seen sv' bvals (indexed avals)) (any_hit sv' i0 j0 bvals (indexed avals))) in Hacc.
    rewrite (any_seen_sum sv' avals bvals) in Hacc by (by eapply list_elem_of_lookup_2).
    rewrite (any_hit_sum _ _ _ _ _ av bv) in Hacc by done.
    destruct acc as [c|]; [|by destruct Hacc]. apply gadget_ret, Hacc. }
  intros bs HF. apply gadget_ret. split; [done|].
  assert ((av + bv)%nat ∈ sums avals bvals) as [k Hk]%list_elem_of_lookup.
  { apply elem_of_sums. exists av, bv. split_and!; [by eapply list_elem_of_lookup_2..|done]. }
  exists k. split; [done|]. rewrite <-(NoDup_one_hot _ k _ (NoDup_sums avals bvals) Hk).
  apply Forall2_same_length_lookup. apply Forall2_same_length_lookup in HF as [Hl HF].
  rewrite length_imap in Hl. split; [by rewrite length_fmap|]. intros i c v Ec Ev.
  rewrite list_lookup_fmap in Ev. destruct (sums avals bvals !! i) as [s|] eqn:Es; [|done].
  injection Ev as <-. apply (HF i (i, s) c); [|done]. by rewrite list_lookup_imap, Es.
Qed.

(** Two selectors and the selector of their sum: whoever assigns the
    slots, each selector selects one of its values, and the third one selects
    their sum among the distinct sums, in increasing order. *)
Theorem convolve_sum_selects avals av bvals bv :
  av ∈ avals → bv ∈ bvals → (Z.of_nat (length avals) < p)%Z → (Z.of_nat (length bvals) < p)%Z →
  gadget σ (a ← ns "a" (alloc_one_hot avals av);
            b ← ns "b" (alloc_one_hot bvals bv);
            '(s, vals) ← ns "sum" (convolve_sum a avals b bvals);
            mret (a, b, s, vals)) (λ '(a, b, s, vals),
    ∃ i j k x y, avals !! i = Some x ∧ bvals !! j = Some y ∧ vals !! k = Some (x + y)%nat ∧
      bits_are D a (one_hot (length avals) i) ∧ bits_are D b (one_hot (length bvals) j) ∧
      bits_are D s (one_hot (length vals) k) ∧ NoDup vals).
Proof.
  intros Ha Hb La Lb.
  eapply gadget_bind; [by apply gadget_ns, gadget_one_hot|]. intros a (i & Hi & HFa).
  eapply gadget_bind; [by apply gadget_ns, gadget_one_hot|]. intros b (j & Hj & HFb).
  destruct (lookup_lt_is_Some_2 avals i Hi) as [x Ex], (lookup_lt_is_Some_2 bvals j Hj) as [y Ey].
  eapply gadget_bind; [by apply gadget_ns, (gadget_convolve_sum _ _ _ _ _ _ x y HFa HFb)|].
  intros [s vals] (-> & k & Ek & HFs). apply gadget_ret. exists i, j, k, x, y.
  split_and!; [done..|apply NoDup_sums].
Qed.
End OneHotRules.
