(* ===== verification/DigestId.v ===== *)
(** [digest_id_extract.rs]: the identifier of a digest, read from the bytes of
    an item inside the rules. The class of its encoding is a one-hot selector
    of four bits. *)
From Stdlib Require Import ZArith Lia Strings.String Strings.Byte.
From Stdlib Require Import Field_tac Ring.
From stdpp Require Import base list numbers option strings pretty.
From S2P Require Import Prelude Bytes Field ConstraintSystem Shape CheckSystem Bellpepper Lc Bits Gadgets Select OneHotCursor CborUint.

Definition DIGEST_ID_OFFSET_BYTES : nat := 2 + 2 + 1 + 7 + 34 + 9.

Section Extract.
Context `{BooleanOps}.

(** [struct ExtractedDigestId]. *)
Record ExtractedDigestId := mkExtractedDigestId {
  value_bits : list Boolean;
  encoded_bits : list Boolean;
}.

Definition CLASS_MARKERS : list Z := [0; 0x18; 0x19; 0x1a]%Z.

(** The width of one of the four classes. *)
Definition class_width (c : nat) : nat := match class_byte_width c with Ok w => w | _ => 0 end.
Definition byte_active_in_class (byte_idx class : nat) : bool := (byte_idx <? class_width class)%nat.
Definition value_byte_out_pos (c byte_idx : nat) : option nat :=
  let width := class_width c in
  if (width <=? byte_idx)%nat then None else
  let value_byte_indices := if (c =? 0)%nat then [0%nat] else seq 1 (width - 1) in
  let pad := (4 - length value_byte_indices)%nat in
  (λ pos, pad + pos)%nat <$> position_of byte_idx value_byte_indices.

(** [b.lc(CS::one(), Scalar::ONE)]. *)
Definition bool_lc (b : Boolean) : LinearCombination := Boolean_lc b one ONE.

(** The bit that the encoding has at a place: the marker's or the value's, of
    the selected class. *)
Definition expected_bit (class_selector value_bits : list Boolean) (byte_idx bit_idx : nat) : Synth (option Boolean) :=
  let name := " byte " +:+ pretty byte_idx +:+ " bit " +:+ pretty bit_idx +:+ " class " in
  foldM (λ acc '(c, marker),
    if negb (byte_active_in_class byte_idx c) then mret acc else
    term ←
      (if (byte_idx =? 0)%nat && negb (c =? 0)%nat then
         if Z.testbit marker (Z.of_nat (7 - bit_idx)) then index class_selector c
         else mret (Boolean_constant false)
       else
         match value_byte_out_pos c byte_idx with
         | None => Panic' "byte_idx active in c implies a value-byte mapping"
         | Some out_pos =>
             vbit ← index value_bits (out_pos * 8 + bit_idx);
             selected ← index class_selector c;
             ns ("digest_id expected" +:+ name +:+ pretty (c : nat)) (Boolean_and selected vbit)
         end);
    match acc with
    | None => mret (Some term)
    | Some prev => acc ← ns ("digest_id expected-or" +:+ name +:+ pretty c) (Boolean_or prev term); mret (Some acc)
    end) None (imap (λ c marker, (c, marker)) CLASS_MARKERS).

Definition extract_digest_id (item_bits : list Boolean) (offset_bytes : nat) (digest_id : Z) : Synth ExtractedDigestId :=
  assert ((offset_bytes + MAX_CBOR_UINT_BYTES) * 8 <=? length item_bits)%nat
    "item_bits too short to cover the digestID window" ;;
  assert (digest_id <=? MAX_DIGEST_ID)%Z "digestID must be < 2^31" ;;
  let window_bits := slice (offset_bytes * 8) ((offset_bytes + MAX_CBOR_UINT_BYTES) * 8) item_bits in
  let window_bit byte_idx bit_idx := index window_bits (byte_idx * 8 + bit_idx) in
  let real_class := length_class digest_id in
  class_selector ← mapM (λ c,
    bit ← ns ("digest_id class " +:+ pretty c) (AllocatedBit_alloc (Some (bool_decide (c = real_class))));
    mret (Boolean_from bit)) (range 4);
  enforce "digest_id class_selector is one-hot"
    (foldl (λ lc b, lc_add lc (bool_lc b)) lc_zero class_selector)
    (lc_add_var lc_zero one) (lc_add_var lc_zero one) ;;
  active ← mapM (λ byte_idx,
    let lc := foldl (λ lc '(c, b), if byte_active_in_class byte_idx c then lc_add lc (bool_lc b) else lc)
      lc_zero (imap (λ c b, (c, b)) class_selector) in
    bit ← ns ("digest_id byte " +:+ pretty byte_idx +:+ " active")
      (AllocatedBit_alloc (Some (byte_active_in_class byte_idx real_class)));
    enforce ("digest_id byte " +:+ pretty byte_idx +:+ " active matches selector sum")
      lc (lc_add_var lc_zero one) (lc_add_var lc_zero (bit_get_variable bit)) ;;
    mret (Boolean_from bit)) (range MAX_CBOR_UINT_BYTES);
  value_bits ← mapM (λ i,
    bit ← ns ("digest_id value bit " +:+ pretty i)
      (AllocatedBit_alloc (Some (Z.testbit digest_id (Z.of_nat (31 - i)))));
    mret (Boolean_from bit)) (range 32);
  encoded_bits ← mapM (λ '(byte_idx, active),
    mapM (λ bit_idx,
      acc ← expected_bit class_selector value_bits byte_idx bit_idx;
      let expected_bit := default (Boolean_constant false) acc in
      window_bit ← window_bit byte_idx bit_idx;
      enforce ("digest_id window byte " +:+ pretty byte_idx +:+ " bit " +:+ pretty bit_idx
          +:+ " matches expected encoding when active")
        (lc_sub (bool_lc window_bit) (bool_lc expected_bit)) (bool_lc active) lc_zero ;;
      ns ("digest_id mask byte " +:+ pretty byte_idx +:+ " bit " +:+ pretty bit_idx)
        (Boolean_and window_bit active)) (range 8)) (imap (λ byte_idx active, (byte_idx, active)) active);
  mapM (λ '(c, selected),
    let covered := omap (value_byte_out_pos c) (range MAX_CBOR_UINT_BYTES) in
    mapM (λ out_pos,
      if bool_decide (out_pos ∈ covered) then mret [] else
      mapM (λ bit_idx,
        vbit ← index value_bits (out_pos * 8 + bit_idx);
        enforce ("digest_id class " +:+ pretty (c : nat) +:+ " forces value byte " +:+ pretty out_pos
            +:+ " bit " +:+ pretty bit_idx +:+ " to zero")
          (bool_lc vbit) (bool_lc selected) lc_zero) (range 8)) (range 4))
    (imap (λ c selected, (c, selected)) class_selector) ;;
  class0 ← index class_selector 0;
  b0 ← window_bit 0%nat 0%nat;
  b1 ← window_bit 0%nat 1%nat;
  bit128_or_64 ← ns "digest_id class0 top3 or a" (Boolean_or b0 b1);
  b2 ← window_bit 0%nat 2%nat;
  top3_nonzero ← ns "digest_id class0 top3 or b" (Boolean_or bit128_or_64 b2);
  b3 ← window_bit 0%nat 3%nat;
  b4 ← window_bit 0%nat 4%nat;
  bit16_and_8 ← ns "digest_id class0 bit16 and bit8" (Boolean_and b3 b4);
  too_big ← ns "digest_id class0 too_big" (Boolean_or top3_nonzero bit16_and_8);
  enforce "digest_id class0 value < 24 when class 0 selected" (bool_lc too_big) (bool_lc class0) lc_zero ;;
  class3 ← index class_selector 3;
  arg0_top_bit ← window_bit 1%nat 0%nat;
  enforce "digest_id class3 value < 2^31 when class 3 selected" (bool_lc arg0_top_bit) (bool_lc class3) lc_zero ;;
  mret {| value_bits := value_bits; encoded_bits := concat encoded_bits |}.
End Extract.

(** * The bytes of an encoding *)
Section Window.
Implicit Types (w vb : list byte) (i j k o : nat).

(** The byte that the selected class has at a place: the marker or a byte of
    the value; and its bits as the code reads them. *)
Definition expected_byte k vb i : byte :=
  if (i =? 0)%nat && negb (k =? 0)%nat then z2b (default 0%Z (CLASS_MARKERS !! k))
  else match value_byte_out_pos k i with Some o => default x00 (vb !! o) | None => x00 end.
Definition expected k (vs : list bool) i j : bool :=
  if (i =? 0)%nat && negb (k =? 0)%nat then Z.testbit (default 0%Z (CLASS_MARKERS !! k)) (Z.of_nat (7 - j))
  else match value_byte_out_pos k i with Some o => default false (vs !! (o * 8 + j)%nat) | None => false end.

Lemma lookup_bind_bits w i j :
  j < 8 → (w ≫= byte_bits) !! (i * 8 + j)%nat = (λ b, Z.testbit (b2z b) (Z.of_nat (7 - j))) <$> w !! i.
Proof.
  intros Hj. revert i. induction w as [|b w IH]; intros i; [by rewrite !lookup_nil|].
  rewrite bind_cons. destruct i as [|i].
  - cbn [Nat.mul Nat.add]. rewrite lookup_app_l by by rewrite length_byte_bits. unfold byte_bits. by rewrite lookup_int_bits.
  - rewrite lookup_app_r by (rewrite length_byte_bits; lia). rewrite length_byte_bits.
    replace (S i * 8 + j - 8) with (i * 8 + j) by lia. apply IH.
Qed.

Lemma byte_ext b b' :
  (∀ j, j < 8 → Z.testbit (b2z b) (Z.of_nat (7 - j)) = Z.testbit (b2z b') (Z.of_nat (7 - j))) → b = b'.
Proof.
  intros Hb. apply b2z_inj. rewrite <-!bits_int_byte_bits. f_equal. apply list_eq. intros j.
  destruct (decide (j < 8)) as [L|L].
  - unfold byte_bits. rewrite !lookup_int_bits by done. f_equal. by apply Hb.
  - by rewrite !lookup_ge_None_2 by (rewrite length_byte_bits; lia).
Qed.

Lemma marker_bits k j : k < 4 → j < 8 →
  Z.testbit (default 0%Z (CLASS_MARKERS !! k)) (Z.of_nat (7 - j))
  = Z.testbit (b2z (z2b (default 0%Z (CLASS_MARKERS !! k)))) (Z.of_nat (7 - j)).
Proof.
  intros Hk _. rewrite b2z_z2b, Z.mod_small; [done|]. by do 4 (destruct k as [|k]; [done|]); lia.
Qed.

Lemma expected_bits k vb i j :
  k < 4 → j < 8 → length vb = 4%nat →
  expected k (vb ≫= byte_bits) i j = Z.testbit (b2z (expected_byte k vb i)) (Z.of_nat (7 - j)).
Proof.
  intros Hk Hj Hl. unfold expected, expected_byte. destruct (_ && _); [by apply marker_bits|].
  destruct (value_byte_out_pos k i) as [o|]; [|by destruct (7 - j)].
  rewrite lookup_bind_bits by done. destruct (vb !! o); [done|]. by destruct (7 - j).
Qed.

Lemma small_byte b :
  (Z.testbit (b2z b) 7 || Z.testbit (b2z b) 6 || Z.testbit (b2z b) 5
   || (Z.testbit (b2z b) 4 && Z.testbit (b2z b) 3)) = false → (b2z b < 24)%Z.
Proof. by destruct b. Qed.

(** The range of the checked forms. *)
Lemma high_bit_range b l :
  length l = 3%nat → Z.testbit (b2z b) 7 = false → (be_int (b :: l) < 2 ^ 31)%Z.
Proof.
  intros Hl Hb. rewrite be_int_cons, Hl. pose proof (be_int_range l) as Hr. rewrite Hl in Hr.
  assert (b2z b < 128)%Z by (revert Hb; by destruct b). cbn [Z.of_nat] in *. lia.
Qed.

Lemma out_pos_active c i :
  c < 4 → i < 5 → byte_active_in_class i c = true → (i =? 0)%nat && negb (c =? 0)%nat = false →
  ∃ o, o < 4 ∧ value_byte_out_pos c i = Some o.
Proof.
  intros Hc Hi.
  do 4 (destruct c as [|c]; [do 5 (destruct i as [|i];
    [intros Ha Hn; (discriminate Ha || discriminate Hn || by (eexists; split; [|vm_compute; reflexivity]; lia))|]); lia|]).
  lia.
Qed.

Lemma class_width_range k : k < 4 → 0 < class_width k ≤ 5.
Proof. intros Hk. do 4 (destruct k as [|k]; [split; by apply Nat.leb_le|]). lia. Qed.

(** The bytes of the encoding and zeros after them. *)
Lemma lookup_masked k w i :
  length w = 5%nat → i < 5 → k < 4 →
  (take (class_width k) w ++ replicate (5 - class_width k) x00) !! i
  = (λ c, if byte_active_in_class i k then c else x00) <$> w !! i.
Proof.
  intros Hw Hi Hk. pose proof (class_width_range k Hk) as Hn.
  destruct (lookup_lt_is_Some_2 w i) as [c Ec]; [lia|]. rewrite Ec. cbn [fmap option_fmap option_map].
  unfold byte_active_in_class. destruct (Nat.ltb_spec i (class_width k)).
  - rewrite lookup_app_l by (rewrite length_take; lia). by rewrite lookup_take_lt.
  - rewrite lookup_app_r, length_take, Hw by (rewrite length_take; lia). rewrite Nat.min_l by lia.
    apply lookup_replicate_2. lia.
Qed.

(** What the rules say of the window says that it is read as the value. *)
Lemma window_decodes k w vb rest :
  k < 4 → length w = 5%nat → length vb = 4%nat →
  (∀ i, i < 5 → byte_active_in_class i k = true → w !! i = Some (expected_byte k vb i)) →
  (∀ o, o < 4 → o ∉ omap (value_byte_out_pos k) (range MAX_CBOR_UINT_BYTES) → vb !! o = Some x00) →
  (k = 0%nat → ∀ b, w !! 0%nat = Some b → (b2z b < 24)%Z) →
  (k = 3%nat → ∀ b, w !! 1%nat = Some b → Z.testbit (b2z b) 7 = false) →
  decode_cbor_uint (w ++ rest) = Some (be_int vb, class_width k) ∧ (be_int vb < 2 ^ 31)%Z.
Proof.
  intros Hk Hw Hv HB HZ H0 H3.
  destruct w as [|w0 [|w1 [|w2 [|w3 [|w4 [|]]]]]]; try discriminate Hw.
  destruct vb as [|v0 [|v1 [|v2 [|v3 [|]]]]]; try discriminate Hv.
  assert (∀ o, o < 4 → bool_decide (o ∈ omap (value_byte_out_pos k) (range MAX_CBOR_UINT_BYTES)) = false →
    [v0; v1; v2; v3] !! o = Some x00) as HZ' by (intros o Ho E%bool_decide_eq_false; by apply HZ).
  pose proof (λ i L, HB i (L : i < 5)) as HB'.
  destruct k as [|[|[|[|k]]]]; [..|lia].
  - specialize (HB' 0%nat ltac:(lia) eq_refl). injection HB' as ->.
    pose proof (HZ' 0%nat ltac:(lia) eq_refl) as [= ->]. pose proof (HZ' 1%nat ltac:(lia) eq_refl) as [= ->].
    pose proof (HZ' 2%nat ltac:(lia) eq_refl) as [= ->].
    specialize (H0 eq_refl _ eq_refl). cbn in H0. unfold decode_cbor_uint. cbn [app head mbind option_bind].
    rewrite (proj2 (Z.ltb_lt _ _)) by done. split; [done|].
    change (be_int [x00; x00; x00; v3]) with (b2z v3). pose proof (b2z_range v3). lia.
  - pose proof (HB' 0%nat ltac:(lia) eq_refl) as [= ->]. pose proof (HB' 1%nat ltac:(lia) eq_refl) as [= ->].
    pose proof (HZ' 0%nat ltac:(lia) eq_refl) as [= ->]. pose proof (HZ' 1%nat ltac:(lia) eq_refl) as [= ->].
    pose proof (HZ' 2%nat ltac:(lia) eq_refl) as [= ->].
    split; [done|]. change (be_int [x00; x00; x00; v3]) with (b2z v3). pose proof (b2z_range v3). lia.
  - pose proof (HB' 0%nat ltac:(lia) eq_refl) as [= ->]. pose proof (HB' 1%nat ltac:(lia) eq_refl) as [= ->].
    pose proof (HB' 2%nat ltac:(lia) eq_refl) as [= ->].
    pose proof (HZ' 0%nat ltac:(lia) eq_refl) as [= ->]. pose proof (HZ' 1%nat ltac:(lia) eq_refl) as [= ->].
    split; [done|]. change (be_int [x00; x00; v2; v3]) with (be_int [v2; v3]).
    pose proof (be_int_range [v2; v3]) as [_ Hr].
    change (be_int [v2; v3] < 65536)%Z in Hr. lia.
  - pose proof (HB' 0%nat ltac:(lia) eq_refl) as [= ->]. pose proof (HB' 1%nat ltac:(lia) eq_refl) as [= ->].
    pose proof (HB' 2%nat ltac:(lia) eq_refl) as [= ->]. pose proof (HB' 3%nat ltac:(lia) eq_refl) as [= ->].
    pose proof (HB' 4%nat ltac:(lia) eq_refl) as [= ->].
    split; [done|]. apply high_bit_range; [done|]. by apply (H3 eq_refl).
Qed.
End Window.

(** * What the rules force *)
Section DigestIdRules.
Context `{BooleanOps} (σ : Assignment).
Add Field scalar_field : scalar_field_theory (morphism of_int_morph, constants [scalar_const]).
Local Abbreviation D := (denotes σ).

Lemma bool_lc_eval b v : D (bit b) v → eval σ (bool_lc b) = v.
Proof. done. Qed.

(** A rule that a bit switches on. *)
Lemma gadget_when name a g v :
  D (bit g) (of_bool v) → gadget σ (enforce name a (bool_lc g) lc_zero) (λ _, v = true → eval σ a = ZERO).
Proof.
  intros Hg. eapply gadget_mono; [apply gadget_enforce|]. intros [] E ->. cbv beta in E.
  rewrite (bool_lc_eval _ _ Hg), eval_zero in E. simpl in E. by_rule E.
Qed.

(** The sum of the bits of a selector that a condition chooses. *)
Lemma chosen_sum (P : nat → bool) sel n k :
  bits_are D sel (one_hot n k) →
  eval σ (foldl (λ lc '(c, b), if P c then lc_add lc (bool_lc b) else lc) lc_zero (imap (λ c b, (c, b)) sel))
  = of_bool (bool_decide (k < n) && P k).
Proof.
  revert sel. induction n as [|n IH]; intros sel HF.
  - apply Forall2_nil_inv_r in HF as ->. apply eval_zero.
  - rewrite one_hot_S in HF. apply Forall2_app_inv_r in HF as (sel' & l & HF & Hl & ->).
    apply Forall2_cons_inv_r in Hl as (b & l' & Hb & ->%Forall2_nil_inv_r & ->).
    rewrite imap_app, foldl_app. cbn [imap foldl]. rewrite Nat.add_0_r.
    pose proof (Forall2_length _ _ _ HF) as Hn. rewrite length_one_hot in Hn. subst n.
    specialize (IH _ HF).
    assert (bool_decide (k < S (length sel')) && P k =
      (bool_decide (k < length sel') && P k) || (bool_decide (length sel' = k) && P (length sel'))) as ->.
    { repeat case_bool_decide; subst; try lia; by destruct (P _). }
    case_bool_decide as N; [rewrite bool_decide_eq_false_2 in * by lia|]; cbn [andb orb] in *.
    + destruct (P (length sel')); [|exact IH]. rewrite eval_add, (bool_lc_eval _ _ Hb), IH. simpl. ring.
    + rewrite orb_false_r. destruct (P (length sel')); [|exact IH]. rewrite eval_add, (bool_lc_eval _ _ Hb), IH.
      simpl. ring.
Qed.

Lemma gadget_expected_bit sel k vb vs i j :
  k < 4 → i < 5 → j < 8 → length vs = 32%nat → bits_are D sel (one_hot 4 k) → bits_are D vb vs →
  gadget σ (expected_bit sel vb i j) (λ acc,
    D (bit (default (Boolean_constant false) acc)) (of_bool (byte_active_in_class i k && expected k vs i j))).
Proof.
  intros Hk Hi Hj Hl HS HV. unfold expected_bit.
  set (on := (λ x, byte_active_in_class i x.1) : nat * Z → bool).
  set (hit := (λ x, byte_active_in_class i x.1 && (bool_decide (x.1 = k) && expected x.1 vs i j)) : nat * Z → bool).
  eapply gadget_mono.
  { apply (gadget_foldM σ _ _ _ (λ done acc, acc_is σ acc (existsb on done) (existsb hit done))); [by split|].
    intros done [c marker] acc Hp Hacc. apply prefix_snoc_lookup in Hp as [Hc _].
    apply list_lookup_imap_Some in Hc as (m & Em & [= -> ->]). set (c := length done) in *.
    assert (c < 4) as Lc by (by apply lookup_lt_Some in Em).
    rewrite !existsb_app. cbn [existsb]. unfold on at 2, hit at 2. cbn [fst]. rewrite !orb_false_r.
    destruct (byte_active_in_class i c) eqn:Ea; cbn [negb andb]; [|apply gadget_ret; by rewrite !orb_false_r].
    rewrite orb_true_r.
    destruct (Forall2_lookup_r _ _ _ _ _ HS (lookup_one_hot 4 k c Lc)) as (b & Eb & Hb).
    apply (gadget_bind _ _ _ (λ term, D (bit term) (of_bool (bool_decide (c = k) && expected c vs i j)))).
    2: { intros term Ht. by eapply gadget_or_candidate. }
    unfold expected. destruct ((i =? 0)%nat && negb (c =? 0)%nat) eqn:E0.
    - rewrite Em. change (default 0%Z (Some m)) with m. destruct (Z.testbit m (Z.of_nat (7 - j))).
      + eapply gadget_mono; [by apply gadget_index_nth|]. intros ? ->. by rewrite andb_true_r.
      + apply gadget_ret. rewrite andb_false_r. apply Boolean_constant_denotes.
    - destruct (out_pos_active c i Lc Hi Ea E0) as (o & Lo & ->).
      destruct (lookup_lt_is_Some_2 vs (o * 8 + j)) as [v Ev]; [lia|].
      destruct (Forall2_lookup_r _ _ _ _ _ HV Ev) as (bv & Ebv & Hbv). rewrite Ev. cbn [default].
      eapply gadget_bind; [by apply gadget_index_nth|]. intros ? ->.
      eapply gadget_bind; [by apply gadget_index_nth|]. intros ? ->.
      eapply gadget_ns, Boolean_and_rules; [exact Hb|exact Hbv]. }
  intros acc Hacc. cbv beta in Hacc.
  assert (existsb hit (imap (λ c marker, (c, marker)) CLASS_MARKERS)
    = byte_active_in_class i k && expected k vs i j) as E.
  { unfold hit. cbn [imap CLASS_MARKERS existsb].
    do 4 (destruct k as [|k]; [by cbn; rewrite ?andb_false_r, ?orb_false_r|]). lia. }
  rewrite E in Hacc. destruct acc as [c|]; cbn [default].
  - apply Hacc.
  - destruct Hacc as [_ ->]. apply Boolean_constant_denotes.
Qed.

(** A bit of the window. *)
Lemma gadget_window_bit wb ws i j b :
  bits_are D wb (ws ≫= byte_bits) → ws !! i = Some b → j < 8 →
  gadget σ (index wb (i * 8 + j)) (λ x, D (bit x) (of_bool (Z.testbit (b2z b) (Z.of_nat (7 - j))))).
Proof.
  intros HF Hb Hj.
  assert ((ws ≫= byte_bits) !! (i * 8 + j)%nat = Some (Z.testbit (b2z b) (Z.of_nat (7 - j)))) as E
    by by rewrite lookup_bind_bits, Hb.
  destruct (Forall2_lookup_r _ _ _ _ _ HF E) as (x & Ex & Hx).
  eapply gadget_mono; [by apply gadget_index_nth|]. by intros ? ->.
Qed.

(** The bit that says whether a place belongs to the encoding. *)
Lemma gadget_active sel k i name name' v :
  k < 4 → bits_are D sel (one_hot 4 k) →
  gadget σ (let lc := foldl (λ lc '(c, b), if byte_active_in_class i c then lc_add lc (bool_lc b) else lc)
      lc_zero (imap (λ c b, (c, b)) sel) in
    bit ← ns name (AllocatedBit_alloc v);
    enforce name' lc (lc_add_var lc_zero one) (lc_add_var lc_zero (bit_get_variable bit)) ;;
    mret (Boolean_from bit)) (λ b, D (bit b) (of_bool (byte_active_in_class i k))).
Proof.
  intros Hk HS. cbv zeta. step gadget_AllocatedBit_alloc as r (w & Hr).
  eapply gadget_bind; [apply gadget_enforce|]. intros [] E. apply gadget_ret.
  rewrite (chosen_sum _ _ _ _ HS), bool_decide_eq_true_2 in E by done. autorewrite with evals in E. cbn [andb] in E.
  unfold denotes, lval, bit. simpl. rewrite Boolean_lc_eval. by_rule E.
Qed.

(** One byte of the window: where it belongs to the encoding it is the
    expected one, and elsewhere it is masked. *)
Lemma gadget_window_byte sel wb vb active k w vs i b :
  k < 4 → i < 5 → w !! i = Some b → length vs = 4%nat →
  bits_are D sel (one_hot 4 k) → bits_are D wb (w ≫= byte_bits) → bits_are D vb (vs ≫= byte_bits) →
  D (bit active) (of_bool (byte_active_in_class i k)) →
  gadget σ (mapM (λ bit_idx,
      acc ← expected_bit sel vb i bit_idx;
      let expected_bit := default (Boolean_constant false) acc in
      window_bit ← index wb (i * 8 + bit_idx);
      enforce ("digest_id window byte " +:+ pretty i +:+ " bit " +:+ pretty bit_idx
          +:+ " matches expected encoding when active")
        (lc_sub (bool_lc window_bit) (bool_lc expected_bit)) (bool_lc active) lc_zero ;;
      ns ("digest_id mask byte " +:+ pretty i +:+ " bit " +:+ pretty bit_idx)
        (Boolean_and window_bit active)) (range 8))
    (λ bs, (byte_active_in_class i k = true → b = expected_byte k vs i) ∧
      bits_are D bs (byte_bits (if byte_active_in_class i k then b else x00))).
Proof.
  intros Hk Hi Hb Hl HS HW HV Ha. set (on := byte_active_in_class i k) in *.
  eapply gadget_mono.
  { apply (gadget_mapM_Forall2 _ _ _ (λ j c,
      (on = true → Z.testbit (b2z b) (Z.of_nat (7 - j)) = Z.testbit (b2z (expected_byte k vs i)) (Z.of_nat (7 - j))) ∧
      D (bit c) (of_bool (Z.testbit (b2z b) (Z.of_nat (7 - j)) && on)))).
    intros j [_ Lj]%elem_of_seq. cbn in Lj. eapply gadget_bind.
    { apply (gadget_expected_bit _ k _ (vs ≫= byte_bits)); try done. by rewrite length_bind_byte_bits, Hl. }
    intros acc Hacc. cbv beta zeta in *. eapply gadget_bind; [by eapply gadget_window_bit|]. intros x Hx. cbv beta in Hx.
    eapply gadget_bind; [by eapply gadget_when|]. intros [] E. cbv beta in E.
    eapply gadget_mono; [by eapply gadget_ns, Boolean_and_rules|]. intros c Hc. split; [|exact Hc].
    intros Eon. specialize (E Eon). fold on in Hacc. rewrite Eon, expected_bits in Hacc by done. cbn [andb] in Hacc.
    rewrite eval_sub, (bool_lc_eval _ _ Hx), (bool_lc_eval _ _ Hacc) in E. apply of_bool_inj. by apply (proj1 (sc_sub_0 _ _)). }
  intros bs HF. cbv beta in HF. split.
  - intros Eon. apply byte_ext. intros j Lj.
    destruct (Forall2_lookup_l _ (range 8) bs j j HF) as (c & _ & E & _); [by apply lookup_seq_lt|by apply E].
  - unfold byte_bits. apply Forall2_same_length_lookup_2.
    { rewrite length_int_bits. by rewrite <-(Forall2_length _ _ _ HF). }
    intros j c v Ec Ev. assert (j < 8) as Lj by (apply lookup_lt_Some in Ev; by rewrite length_int_bits in Ev).
    rewrite lookup_int_bits in Ev by done. injection Ev as <-.
    assert (range 8 !! j = Some j) as Ej by by apply lookup_seq_lt.
    destruct (Forall2_lookup_l _ _ _ _ _ HF Ej) as (c' & Ec' & _ & Hc). rewrite Ec in Ec'. injection Ec' as <-.
    replace (8 - 1 - j) with (7 - j) by lia. destruct on; [by rewrite andb_true_r in Hc|].
    rewrite andb_false_r in Hc. change (b2z x00) with 0%Z. by rewrite Z.testbit_0_l.
Qed.

(** The bytes that the selected class does not cover are zero. *)
Lemma gadget_uncovered sel vb k vs :
  k < 4 → length vs = 4%nat → bits_are D sel (one_hot 4 k) → bits_are D vb (vs ≫= byte_bits) →
  gadget σ (mapM (λ '(c, selected),
    let covered := omap (value_byte_out_pos c) (range MAX_CBOR_UINT_BYTES) in
    mapM (λ out_pos,
      if bool_decide (out_pos ∈ covered) then mret [] else
      mapM (λ bit_idx,
        vbit ← index vb (out_pos * 8 + bit_idx);
        enforce ("digest_id class " +:+ pretty (c : nat) +:+ " forces value byte " +:+ pretty out_pos
            +:+ " bit " +:+ pretty bit_idx +:+ " to zero")
          (bool_lc vbit) (bool_lc selected) lc_zero) (range 8)) (range 4))
    (imap (λ c selected, (c, selected)) sel))
    (λ _, ∀ o, o < 4 → o ∉ omap (value_byte_out_pos k) (range MAX_CBOR_UINT_BYTES) → vs !! o = Some x00).
Proof.
  intros Hk Hl HS HV. destruct (Forall2_lookup_r _ _ _ _ _ HS (lookup_one_hot 4 k k Hk)) as (sk & Ek & Hsk).
  rewrite bool_decide_eq_true_2 in Hsk by done.
  assert ((k, sk) ∈ imap (λ c selected, (c, selected)) sel) as [n Hin]%list_elem_of_lookup.
  { apply list_elem_of_lookup. exists k. by rewrite list_lookup_imap, Ek. }
  eapply gadget_mono.
  { apply (gadget_mapM_Forall2 _ _ _ (λ '(c, selected) _, D (bit selected) ONE → ∀ o, o < 4 →
      o ∉ omap (value_byte_out_pos c) (range MAX_CBOR_UINT_BYTES) → vs !! o = Some x00)).
    intros [c selected] [m Hm]%list_elem_of_lookup. apply list_lookup_imap_Some in Hm as (sm & Em & [= -> ->]).
    destruct (Forall2_lookup_l _ _ _ _ _ HS Em) as (v & _ & Hv). eapply gadget_mono.
    { apply (gadget_mapM_Forall2 _ _ _ (λ o _, D (bit sm) ONE →
        o ∉ omap (value_byte_out_pos m) (range MAX_CBOR_UINT_BYTES) → vs !! o = Some x00)).
      intros o [_ Lo]%elem_of_seq. cbn in Lo. case_bool_decide as Ec; [by apply gadget_ret|].
      destruct (lookup_lt_is_Some_2 vs o) as [b Eb]; [lia|]. eapply gadget_mono.
      { apply (gadget_mapM_Forall2 _ _ _ (λ j _, v = true → Z.testbit (b2z b) (Z.of_nat (7 - j)) = false)).
        intros j [_ Lj]%elem_of_seq. cbn in Lj.
        eapply gadget_bind; [by eapply gadget_window_bit|]. intros x Hx. cbv beta in Hx.
        eapply gadget_mono; [by eapply gadget_when|]. intros [] E Ev. specialize (E Ev).
        rewrite (bool_lc_eval _ _ Hx) in E. by apply of_bool_inj. }
      intros us HF HD _. assert (v = true) as Ev.
      { apply of_bool_inj. unfold denotes in *. by rewrite <-Hv, HD. }
      rewrite Eb. f_equal. apply byte_ext. intros j Lj. change (b2z x00) with 0%Z. rewrite Z.testbit_0_l.
      destruct (Forall2_lookup_l _ (range 8) us j j HF) as (? & _ & E); [by apply lookup_seq_lt|by apply E]. }
    intros us HF HD o Lo Hno.
    destruct (Forall2_lookup_l _ (range 4) us o o HF) as (? & _ & E); [by apply lookup_seq_lt|by apply E]. }
  intros us HF. destruct (Forall2_lookup_l _ _ _ _ _ HF Hin) as (? & _ & E). by apply E.
Qed.

Lemma bits_as_bytes n bs : length bs = (8 * n)%nat → ∃ l, length l = n ∧ bs = l ≫= byte_bits.
Proof.
  intros Hl. exists (be_bytes n (bits_int bs)). split; [apply length_be_bytes|].
  by rewrite bind_byte_bits_be_bytes, int_bits_bits_int.
Qed.

(** Reads a bit of the window; combines two bits. *)
Tactic Notation "read" constr(spec) "as" simple_intropattern(x) ident(Hx) :=
  eapply gadget_bind; [apply spec; lia|]; intros x Hx; cbv beta in Hx.
Tactic Notation "operate" constr(spec) "as" simple_intropattern(x) ident(Hx) :=
  eapply gadget_bind; [by eapply gadget_ns, spec|]; intros x Hx; cbv beta in Hx.

(** The last two rules: the range of the class without a marker, and of the
    widest one. *)
Lemma gadget_range_rules {A} sel wb k w b0 b1 (r : A) :
  k < 4 → bits_are D sel (one_hot 4 k) → bits_are D wb (w ≫= byte_bits) →
  w !! 0%nat = Some b0 → w !! 1%nat = Some b1 →
  let window_bit byte_idx bit_idx := index wb (byte_idx * 8 + bit_idx) in
  gadget σ (class0 ← index sel 0;
    b0 ← window_bit 0%nat 0%nat;
    b1 ← window_bit 0%nat 1%nat;
    bit128_or_64 ← ns "digest_id class0 top3 or a" (Boolean_or b0 b1);
    b2 ← window_bit 0%nat 2%nat;
    top3_nonzero ← ns "digest_id class0 top3 or b" (Boolean_or bit128_or_64 b2);
    b3 ← window_bit 0%nat 3%nat;
    b4 ← window_bit 0%nat 4%nat;
    bit16_and_8 ← ns "digest_id class0 bit16 and bit8" (Boolean_and b3 b4);
    too_big ← ns "digest_id class0 too_big" (Boolean_or top3_nonzero bit16_and_8);
    enforce "digest_id class0 value < 24 when class 0 selected" (bool_lc too_big) (bool_lc class0) lc_zero ;;
    class3 ← index sel 3;
    arg0_top_bit ← window_bit 1%nat 0%nat;
    enforce "digest_id class3 value < 2^31 when class 3 selected" (bool_lc arg0_top_bit) (bool_lc class3) lc_zero ;;
    mret r)
  (λ r', r' = r ∧ (k = 0%nat → (b2z b0 < 24)%Z) ∧ (k = 3%nat → Z.testbit (b2z b1) 7 = false)).
Proof.
  intros Hk HS HW E0 E1 window_bit. unfold window_bit.
  pose proof (λ j L, gadget_window_bit wb w 0 j b0 HW E0 (L : j < 8)) as HB.
  destruct (Forall2_lookup_r _ _ _ _ _ HS (lookup_one_hot 4 k 0 ltac:(lia))) as (s0 & Es0 & Hs0).
  destruct (Forall2_lookup_r _ _ _ _ _ HS (lookup_one_hot 4 k 3 ltac:(lia))) as (s3 & Es3 & Hs3).
  eapply gadget_bind; [by apply gadget_index_nth|]. intros ? ->.
  read (HB 0) as x0 Hx0. read (HB 1) as x1 Hx1. operate Boolean_or_rules as y1 Hy1.
  read (HB 2) as x2 Hx2. operate Boolean_or_rules as y2 Hy2.
  read (HB 3) as x3 Hx3. read (HB 4) as x4 Hx4. operate Boolean_and_rules as y3 Hy3.
  operate Boolean_or_rules as y4 Hy4.
  eapply gadget_bind; [by eapply gadget_when|]. intros [] R0. cbv beta in R0.
  eapply gadget_bind; [by apply gadget_index_nth|]. intros ? ->.
  read (gadget_window_bit wb w 1 0 b1 HW E1) as x5 Hx5.
  eapply gadget_bind; [by eapply gadget_when|]. intros [] R3. cbv beta in R3. apply gadget_ret.
  rewrite (bool_lc_eval _ _ Hy4) in R0. rewrite (bool_lc_eval _ _ Hx5) in R3. split_and!; [done|intros ->..].
  - apply small_byte. apply of_bool_inj. by apply R0.
  - apply of_bool_inj. by apply R3.
Qed.

Lemma gadget_extract_digest_id item_bits item offset d :
  bits_are D item_bits (item ≫= byte_bits) →
  (offset + MAX_CBOR_UINT_BYTES ≤ length item)%nat → (d ≤ MAX_DIGEST_ID)%Z →
  gadget σ (extract_digest_id item_bits offset d) (λ r, ∃ v n,
    decode_cbor_uint (drop offset item) = Some (v, n) ∧ (0 ≤ v < 2 ^ 31)%Z ∧
    bits_are D (value_bits r) (int_bits 32 v) ∧
    bits_are D (encoded_bits r)
      ((take n (drop offset item) ++ replicate (MAX_CBOR_UINT_BYTES - n) x00) ≫= byte_bits)).
Proof.
  intros HI Hl Hd. unfold extract_digest_id. change MAX_CBOR_UINT_BYTES with 5%nat in *.
  eapply gadget_bind.
  { apply gadget_assert, Nat.leb_le. rewrite (Forall2_length _ _ _ HI), length_bind_byte_bits. lia. }
  intros _ _. eapply gadget_bind; [by apply gadget_assert, Z.leb_le|]. intros _ _. cbv zeta.
  set (w := take 5 (drop offset item)).
  assert (length w = 5%nat) as Hw by (unfold w; rewrite length_take, length_drop; lia).
  assert (bits_are D (slice (offset * 8) ((offset + 5) * 8) item_bits) (w ≫= byte_bits)) as HW.
  { replace ((offset + 5) * 8)%nat with (8 * (offset + 5))%nat by lia. rewrite (Nat.mul_comm offset).
    unfold w. replace (take 5 (drop offset item)) with (slice offset (offset + 5) item)
      by (unfold slice; f_equal; lia).
    rewrite <-slice_bind_byte_bits. unfold slice. by apply Forall2_take, Forall2_drop. }
  generalize dependent (slice (offset * 8) ((offset + 5) * 8) item_bits). intros wb HW.
  eapply gadget_bind; [apply gadget_bit_list; intros c; apply gadget_new_bit|]. intros sel (sv & HS & Hsv).
  eapply gadget_bind; [by apply (gadget_exactly_one σ _ _ _ HS); rewrite Hsv|]. intros [] (k & Hk & Esv).
  rewrite Esv in HS. rewrite Hsv in Hk, HS. cbn [length range seq] in Hk, HS.
  eapply gadget_bind.
  { apply (gadget_mapM_Forall2 _ _ _ (λ i b, D (bit b) (of_bool (byte_active_in_class i k)))).
    intros i _. by apply gadget_active. }
  intros active HA. cbv beta in HA.
  eapply gadget_bind; [apply gadget_bit_list; intros i; apply gadget_new_bit|]. intros vb (vs' & HV & Hvs).
  destruct (bits_as_bytes 4 vs' Hvs) as (vs & Hlv & ->).
  eapply gadget_bind.
  { apply (gadget_mapM_Forall2 _ _ _ (λ '(i, _) bs, ∀ b, w !! i = Some b →
      (byte_active_in_class i k = true → b = expected_byte k vs i) ∧
      bits_are D bs (byte_bits (if byte_active_in_class i k then b else x00)))).
    intros [i a] [m Hm]%list_elem_of_lookup. apply list_lookup_imap_Some in Hm as (am & Em & [= -> ->]).
    destruct (Forall2_lookup_r _ _ _ _ _ HA Em) as (i & [-> Hi]%lookup_seq & Ha). cbn [Nat.add] in *.
    destruct (lookup_lt_is_Some_2 w m) as [b Eb]; [lia|].
    eapply gadget_mono; [by apply (gadget_window_byte sel wb vb am k w vs m b)|].
    intros bs Hbs b' Eb'. rewrite Eb in Eb'. by injection Eb' as <-. }
  intros ebs HE. cbv beta in HE. eapply gadget_bind; [by apply (gadget_uncovered sel vb k vs)|]. intros us HZ.
  destruct (lookup_lt_is_Some_2 w 0) as [b0 E0]; [lia|]. destruct (lookup_lt_is_Some_2 w 1) as [b1 E1]; [lia|].
  eapply gadget_mono; [by apply (gadget_range_rules sel wb k w b0 b1)|]. intros r (-> & H0' & H3').
  destruct (window_decodes k w vs (drop 5 (drop offset item))) as [Ed Lv]; try done.
  { intros i Hi Ha. destruct (lookup_lt_is_Some_2 w i) as [b Eb]; [lia|].
    destruct (Forall2_lookup_l _ _ _ _ _ HA (lookup_seq_lt 0 5 i ltac:(lia))) as (a & Ea & _).
    assert (imap (λ byte_idx active, (byte_idx, active)) active !! i = Some (i, a)) as Em
      by by rewrite list_lookup_imap, Ea.
    destruct (Forall2_lookup_l _ _ _ _ _ HE Em) as (bs & _ & Hb). destruct (Hb b Eb) as [E _].
    rewrite Eb. f_equal. by apply E. }
  { intros E b Eb. rewrite E0 in Eb. injection Eb as <-. by apply H0'. }
  { intros E b Eb. rewrite E1 in Eb. injection Eb as <-. by apply H3'. }
  unfold w in Ed. rewrite take_drop in Ed. exists (be_int vs), (class_width k).
  pose proof (be_int_range vs). split_and!; [done|lia|done| |].
  - cbn [value_bits]. change (int_bits 32 (be_int vs)) with (int_bits (8 * 4) (be_int vs)).
    by rewrite <-bind_byte_bits_be_bytes, be_bytes_be_int.
  - cbn [encoded_bits]. apply Forall2_concat_bind.
    replace (take _ (drop offset item)) with (take (class_width k) w).
    2: { unfold w. rewrite take_take. f_equal. pose proof (class_width_range k Hk). lia. }
    apply Forall2_same_length_lookup_2.
    { rewrite <-(Forall2_length _ _ _ HE), length_imap, <-(Forall2_length _ _ _ HA), length_app, length_take,
        length_replicate, Hw. pose proof (class_width_range k Hk). change (length (range 5)) with 5. lia. }
    intros i bs b Ei Eb. destruct (Forall2_lookup_r _ _ _ _ _ HE Ei) as ([i' a] & Em & Hb).
    apply list_lookup_imap_Some in Em as (am & Em & [= -> ->]).
    destruct (Forall2_lookup_r _ _ _ _ _ HA Em) as (i' & [-> Hi]%lookup_seq & _). cbn [Nat.add] in *.
    destruct (lookup_lt_is_Some_2 w i) as [c Ec]; [lia|]. destruct (Hb c Ec) as [_ HF].
    assert (b = if byte_active_in_class i k then c else x00) as ->; [|exact HF].
    rewrite lookup_masked, Ec in Eb by lia. by injection Eb as <-.
Qed.

(** C24: Whoever assigns the slots, the rules of an extraction make the bytes
    at the offset a CBOR unsigned integer below 2^31 of one of the four forms,
    the 32 value bits that integer, and the encoded bits the bytes it is read
    from, followed by zeros. *)
Theorem extract_sound item_bits item offset d :
  bits_are D item_bits (item ≫= byte_bits) →
  (offset + MAX_CBOR_UINT_BYTES ≤ length item)%nat → (d ≤ MAX_DIGEST_ID)%Z →
  gadget σ (extract_digest_id item_bits offset d) (λ r, ∃ v n,
    decode_cbor_uint (drop offset item) = Some (v, n) ∧ (0 ≤ v < 2 ^ 31)%Z ∧
    bits_are D (value_bits r) (int_bits 32 v) ∧
    bits_are D (encoded_bits r)
      ((take n (drop offset item) ++ replicate (MAX_CBOR_UINT_BYTES - n) x00) ≫= byte_bits)).
Proof. apply gadget_extract_digest_id. Qed.
End DigestIdRules.
