(* ===== verification/Sha256.v ===== *)
(** [gadgets/sha256.rs]: the native SHA-256 compression that also lists the
    values of the compression gadget.

    Words are integers below 2^32. The compression of FIPS 180-4, clause
    6.2.2, is the specification [fips_compress]; the code's, which defers the
    sums that give e and a, computes the same words, and its sums fit in the
    bits it lists for them. *)
From Stdlib Require Import ZArith Lia Strings.Byte.
From stdpp Require Import base list numbers option.
From S2P Require Import Prelude Bytes Field Values.
Local Open Scope Z_scope.

(** * 32-bit words *)

(** [u64 as u32]. *)
Definition as_u32 (x : Z) : Z := x mod 2 ^ 32.
(** [u32::rotate_right]. *)
Definition rotate_right (x : Z) (n : Z) : Z :=
  Z.lor (Z.shiftr x n) (as_u32 (Z.shiftl x (32 - n))).
(** [!x]. *)
Definition not32 (x : Z) : Z := Z.lxor x (2 ^ 32 - 1).

(** The eight 32-bit words of a 256-bit integer. *)
Definition row (z : Z) : list Z := (λ i, as_u32 (Z.shiftr z (224 - 32 * Z.of_nat i))) <$> seq 0 8.

(** The sixty-four constants, eight to a row. *)
Definition ROUND_CONSTANTS : list Z := Eval vm_compute in ([
  0x428a2f9871374491b5c0fbcfe9b5dba53956c25b59f111f1923f82a4ab1c5ed5;
  0xd807aa9812835b01243185be550c7dc372be5d7480deb1fe9bdc06a7c19bf174;
  0xe49b69c1efbe47860fc19dc6240ca1cc2de92c6f4a7484aa5cb0a9dc76f988da;
  0x983e5152a831c66db00327c8bf597fc7c6e00bf3d5a7914706ca635114292967;
  0x27b70a852e1b21384d2c6dfc53380d13650a7354766a0abb81c2c92e92722c85;
  0xa2bfe8a1a81a664bc24b8b70c76c51a3d192e819d6990624f40e3585106aa070;
  0x19a4c1161e376c082748774c34b0bcb5391c0cb34ed8aa4a5b9cca4f682e6ff3;
  0x748f82ee78a5636f84c878148cc7020890befffaa4506cebbef9a3f7c67178f2]
  ≫= row).

(** The eight working variables. *)
Record Working := {
  wa : Z; wb : Z; wc : Z; wd : Z; we : Z; wf : Z; wg : Z; wh : Z;
}.
Definition working_of (state : list Z) : Working :=
  {| wa := state !!! 0%nat; wb := state !!! 1%nat; wc := state !!! 2%nat; wd := state !!! 3%nat;
     we := state !!! 4%nat; wf := state !!! 5%nat; wg := state !!! 6%nat; wh := state !!! 7%nat |}.

Section Sha256.
Context `{ScalarField}.

(** One word of the schedule: [for i in 16..64]. *)
Definition schedule_step (st : Values * list Z) (i : nat) : Values * list Z :=
  let '(values, w) := st in
  let x := w !!! (i - 15)%nat in
  let first := Z.lxor (rotate_right x 7) (rotate_right x 18) in
  let values := low_bits values first 32 in
  let s0 := Z.lxor first (Z.shiftr x 3) in
  let values := low_bits values s0 29 in
  let y := w !!! (i - 2)%nat in
  let first := Z.lxor (rotate_right y 17) (rotate_right y 19) in
  let values := low_bits values first 32 in
  let s1 := Z.lxor first (Z.shiftr y 10) in
  let values := low_bits values s1 22 in
  let sum := w !!! (i - 16)%nat + s0 + w !!! (i - 7)%nat + s1 in
  (low_bits values sum 34, <[i := as_u32 sum]> w).

(** One round: [for i in 0..64], with the sums it leaves to the next. *)
Definition round_step (w : list Z) (st : Values * Working * option (Z * Z)) (i : nat)
  : Values * Working * option (Z * Z) :=
  let '(values, v, deferred) := st in
  let '(values, e) := match deferred with
  | Some (e_sum, _) => (low_bits values e_sum 35, as_u32 e_sum)
  | None => (values, we v) end in
  let first := Z.lxor (rotate_right e 6) (rotate_right e 11) in
  let values := low_bits values first 32 in
  let s1 := Z.lxor first (rotate_right e 25) in
  let values := low_bits values s1 32 in
  let ch := Z.lxor (Z.land e (wf v)) (Z.land (not32 e) (wg v)) in
  let values := low_bits values ch 32 in
  let temp1 := wh v + s1 + ch + ROUND_CONSTANTS !!! i + w !!! i in
  let '(values, a) := match deferred with
  | Some (_, a_sum) => (low_bits values a_sum 35, as_u32 a_sum)
  | None => (values, wa v) end in
  let first := Z.lxor (rotate_right a 2) (rotate_right a 13) in
  let values := low_bits values first 32 in
  let s0 := Z.lxor first (rotate_right a 22) in
  let values := low_bits values s0 32 in
  let maj := Z.lxor (Z.lxor (Z.land a (wb v)) (Z.land a (wc v))) (Z.land (wb v) (wc v)) in
  let bc := Z.land (wb v) (wc v) in
  let values := foldl (λ values k,
  value_bit (value_bit values (Z.testbit maj (Z.of_nat k))) (Z.testbit bc (Z.of_nat k)))
  values (range 32) in
  let temp2 := s0 + maj in
  (values,
  {| wa := a; wb := a; wc := wb v; wd := wc v; we := e; wf := e; wg := wf v; wh := wg v |},
  Some (wd v + temp1, temp1 + temp2)).

(** [compression]; the deferred sums are there after 64 rounds. *)
Definition compression (values : Values) (block state : list Z) : list Z * Values :=
  let '(values, w) :=
  foldl schedule_step (values, block ++ replicate 48 0) (seq 16 48) in
  let '(values, v, deferred) :=
  foldl (round_step w) (values, working_of state, None) (range 64) in
  let '(e_sum, a_sum) := default (0, 0) deferred in
  let sums := [
  (a_sum + state !!! 0%nat, 35%nat);
  (state !!! 1%nat + wb v, 33%nat);
  (state !!! 2%nat + wc v, 33%nat);
  (state !!! 3%nat + wd v, 33%nat);
  (e_sum + state !!! 4%nat, 35%nat);
  (state !!! 5%nat + wf v, 33%nat);
  (state !!! 6%nat + wg v, 33%nat);
  (state !!! 7%nat + wh v, 33%nat)] in
  foldl (λ '(after, values) '(sum, n), (after ++ [as_u32 sum], low_bits values sum n))
  ([], values) sums.
End Sha256.

(** * FIPS 180-4 *)
Definition add32 (x y : Z) : Z := (x + y) mod 2 ^ 32.

Definition sigma0 (x : Z) : Z :=
  Z.lxor (Z.lxor (rotate_right x 7) (rotate_right x 18)) (Z.shiftr x 3).
Definition sigma1 (x : Z) : Z :=
  Z.lxor (Z.lxor (rotate_right x 17) (rotate_right x 19)) (Z.shiftr x 10).
Definition Sigma0 (x : Z) : Z :=
  Z.lxor (Z.lxor (rotate_right x 2) (rotate_right x 13)) (rotate_right x 22).
Definition Sigma1 (x : Z) : Z :=
  Z.lxor (Z.lxor (rotate_right x 6) (rotate_right x 11)) (rotate_right x 25).
Definition Ch (x y z : Z) : Z := Z.lxor (Z.land x y) (Z.land (not32 x) z).
Definition Maj (x y z : Z) : Z := Z.lxor (Z.lxor (Z.land x y) (Z.land x z)) (Z.land y z).

(** The message schedule. *)
Definition fips_schedule (block : list Z) : list Z :=
  foldl (λ w t, w ++ [add32 (add32 (sigma1 (w !!! (t - 2)%nat)) (w !!! (t - 7)%nat))
                            (add32 (sigma0 (w !!! (t - 15)%nat)) (w !!! (t - 16)%nat))])
    block (seq 16 48).

Definition fips_round (w : list Z) (v : Working) (t : nat) : Working :=
  let T1 := add32 (add32 (wh v) (add32 (Sigma1 (we v)) (Ch (we v) (wf v) (wg v))))
                  (add32 (ROUND_CONSTANTS !!! t) (w !!! t)) in
  let T2 := add32 (Sigma0 (wa v)) (Maj (wa v) (wb v) (wc v)) in
  {| wa := add32 T1 T2; wb := wa v; wc := wb v; wd := wc v;
     we := add32 (wd v) T1; wf := we v; wg := wf v; wh := wg v |}.

Definition fips_compress (state block : list Z) : list Z :=
  let v := foldl (fips_round (fips_schedule block)) (working_of state) (seq 0 64) in
  [add32 (wa v) (state !!! 0%nat); add32 (wb v) (state !!! 1%nat);
   add32 (wc v) (state !!! 2%nat); add32 (wd v) (state !!! 3%nat);
   add32 (we v) (state !!! 4%nat); add32 (wf v) (state !!! 5%nat);
   add32 (wg v) (state !!! 6%nat); add32 (wh v) (state !!! 7%nat)].

(** * Word ranges *)
Section Words.
Definition word (x : Z) : Prop := 0 ≤ x < 2 ^ 32.

Lemma as_u32_word x : word (as_u32 x).
Proof. apply Z.mod_pos_bound. lia. Qed.

Lemma add32_word x y : word (add32 x y).
Proof. apply Z.mod_pos_bound. lia. Qed.

Lemma word_bits x : 0 ≤ x → (∀ n, 32 ≤ n → Z.testbit x n = false) → word x.
Proof.
  intros Hx Hb. split; [done|]. destruct (decide (x = 0)) as [->|N]; [done|].
  apply Z.log2_lt_pow2; [lia|]. destruct (Z.lt_ge_cases (Z.log2 x) 32) as [|G]; [done|].
  specialize (Hb (Z.log2 x) G). rewrite Z.bit_log2 in Hb by lia. done.
Qed.

Lemma word_high x n : word x → 32 ≤ n → Z.testbit x n = false.
Proof.
  intros [H1 H2] Hn. destruct (decide (x = 0)) as [->|N]; [apply Z.bits_0|].
  apply Z.bits_above_log2; [done|]. apply Z.lt_le_trans with 32; [|done].
  apply Z.log2_lt_pow2; lia.
Qed.

Lemma lxor_word x y : word x → word y → word (Z.lxor x y).
Proof.
  intros Hx Hy. apply word_bits; [apply Z.lxor_nonneg; unfold word in *; lia|].
  intros n Hn. by rewrite Z.lxor_spec, !word_high.
Qed.
Lemma land_word x y : word x → 0 ≤ y → word (Z.land x y).
Proof.
  intros Hx Hy. apply word_bits; [apply Z.land_nonneg; unfold word in *; lia|].
  intros n Hn. by rewrite Z.land_spec, word_high.
Qed.
Lemma lor_word x y : word x → word y → word (Z.lor x y).
Proof.
  intros Hx Hy. apply word_bits; [apply Z.lor_nonneg; unfold word in *; lia|].
  intros n Hn. by rewrite Z.lor_spec, !word_high.
Qed.
Lemma shiftr_word x n : 0 ≤ n → word x → word (Z.shiftr x n).
Proof.
  intros Hn [H1 H2]. split; [by apply Z.shiftr_nonneg|].
  rewrite Z.shiftr_div_pow2 by done. apply Z.le_lt_trans with x; [|done].
  apply Z.div_le_upper_bound; [lia|]. assert (0 < 2 ^ n) by lia. nia.
Qed.
Lemma rotate_right_word x n : 0 ≤ n → word x → word (rotate_right x n).
Proof. intros. apply lor_word; [by apply shiftr_word|apply as_u32_word]. Qed.
Lemma not32_word x : word x → word (not32 x).
Proof. intros. by apply lxor_word. Qed.

Lemma word_nonneg x : word x → 0 ≤ x.
Proof. by intros []. Qed.
End Words.
#[export] Hint Resolve as_u32_word add32_word lxor_word land_word rotate_right_word
  shiftr_word not32_word word_nonneg : vega.

Lemma word_lookup l i : Forall word l → word (l !!! i).
Proof.
  intros HF. rewrite list_lookup_total_alt. destruct (l !! i) eqn:E; simpl.
  - eapply list.Forall_forall; [exact HF|]. by eapply list_elem_of_lookup_2.
  - done.
Qed.
#[export] Hint Resolve word_lookup : vega.

(** Sums modulo 2^32 may reduce at any point. *)
#[local] Existing Instances eqm_setoid Zplus_eqm.
Ltac mod32 :=
  unfold add32, as_u32;
  match goal with |- ?x mod _ = ?y mod _ => change (eqm (2 ^ 32) x y) end;
  rewrite ?Zmod_eqm; unfold eqm; f_equal; lia.

(** * The code computes the specification *)
Section Refinement.
Context `{ScalarField}.

Lemma schedule_length n block :
  length block = 16%nat →
  length (foldl (λ w t, w ++ [add32 (add32 (sigma1 (w !!! (t - 2)%nat)) (w !!! (t - 7)%nat))
  (add32 (sigma0 (w !!! (t - 15)%nat)) (w !!! (t - 16)%nat))]) block (seq 16 n))
  = (16 + n)%nat.
Proof.
  intros Hb. induction n as [|n IH]; [done|].
  rewrite seq_S, foldl_app. cbn [foldl]. rewrite length_app, IH. simpl. lia.
Qed.

Lemma schedule_step_word values w i :
  (16 ≤ i)%nat →
  (schedule_step (values, w) i).2 = <[i := add32 (add32 (sigma1 (w !!! (i - 2)%nat)) (w !!! (i - 7)%nat))
  (add32 (sigma0 (w !!! (i - 15)%nat)) (w !!! (i - 16)%nat))]> w.
Proof.
  intros Hi. unfold schedule_step. cbn [snd]. f_equal.
  fold (sigma0 (w !!! (i - 15)%nat)). fold (sigma1 (w !!! (i - 2)%nat)). mod32.
Qed.

(** The array the loop fills is the schedule. *)
Lemma schedule_loop values block n :
  length block = 16%nat → (n ≤ 48)%nat →
  (foldl schedule_step (values, block ++ replicate 48 0) (seq 16 n)).2
  = foldl (λ w t, w ++ [add32 (add32 (sigma1 (w !!! (t - 2)%nat)) (w !!! (t - 7)%nat))
  (add32 (sigma0 (w !!! (t - 15)%nat)) (w !!! (t - 16)%nat))]) block (seq 16 n)
  ++ replicate (48 - n) 0.
Proof.
  intros Hb. induction n as [|n IH]; intros Hn; [done|].
  rewrite seq_S, !foldl_app. cbn [foldl].
  destruct (foldl schedule_step _ _) as [vs w]. specialize (IH ltac:(lia)). cbn [snd] in IH.
  rewrite schedule_step_word, IH by lia. set (r := foldl _ block _).
  assert (length r = 16 + n)%nat as Hr by by apply schedule_length.
  rewrite !lookup_total_app_l by lia. rewrite insert_app_r_alt by lia. rewrite Hr.
  replace (16 + n - (16 + n))%nat with 0%nat by lia.
  replace (48 - n)%nat with (S (48 - S n)) by lia. simpl. by rewrite <-app_assoc.
Qed.

Lemma schedule_fips values block :
  length block = 16%nat →
  (foldl schedule_step (values, block ++ replicate 48 0) (seq 16 48)).2 = fips_schedule block.
Proof.
  intros Hb. rewrite schedule_loop by (exact Hb || lia).
  change (replicate (48 - 48) 0) with ([] : list Z). rewrite app_nil_r. unfold fips_schedule. exact eq_refl.
Qed.

(** What the deferred sums stand for: the code's state after a round. *)
Definition settled (v : Working) (deferred : option (Z * Z)) : Working :=
  match deferred with
  | None => v
  | Some (e_sum, a_sum) =>
  {| wa := as_u32 a_sum; wb := wb v; wc := wc v; wd := wd v;
  we := as_u32 e_sum; wf := wf v; wg := wg v; wh := wh v |}
  end.

Lemma round_step_settled w values v deferred i :
  let '(_, v', deferred') := round_step w (values, v, deferred) i in
  settled v' deferred' = fips_round w (settled v deferred) i ∧ is_Some deferred'.
Proof.
  unfold round_step. destruct deferred as [[e_sum a_sum]|]; cbn beta iota zeta.
  all: split; [|eauto].
  all: unfold settled, fips_round; cbn [wa wb wc wd we wf wg wh].
  all: repeat match goal with |- context [as_u32 ?x] => is_var x; generalize (as_u32 x); intros ? end.
  all: f_equal; unfold Sigma0, Sigma1, Maj, Ch; mod32.
Qed.

Lemma rounds_fips w values state n :
  let '(_, v, deferred) := foldl (round_step w) (values, working_of state, None) (seq 0 n) in
  settled v deferred = foldl (fips_round w) (working_of state) (seq 0 n)
  ∧ (0 < n → is_Some deferred)%nat.
Proof.
  induction n as [|n IH]; [split; [done|lia]|].
  rewrite seq_S, !foldl_app. cbn [foldl].
  destruct (foldl (round_step w) _ _) as [[vs v] deferred]. destruct IH as [IH _].
  rewrite <-IH. pose proof (round_step_settled w vs v deferred (0 + n)) as Hr.
  destruct (round_step _ _ _) as [[vs' v'] deferred']. destruct Hr as [-> ?]. done.
Qed.

(** The code's compression is the one of FIPS 180-4. *)
Lemma compression_fips values block state :
  length block = 16%nat → (compression values block state).1 = fips_compress state block.
Proof.
  intros Hb. unfold compression, fips_compress.
  pose proof (schedule_fips values block Hb) as Hw.
  destruct (foldl schedule_step _ _) as [vs w]. cbn [snd] in Hw. subst w.
  pose proof (rounds_fips (fips_schedule block) vs state 64) as Hr. unfold range.
  destruct (foldl (round_step _) _ _) as [[vs' v] deferred]. destruct Hr as [Hr Hs].
  rewrite <-Hr. destruct (Hs ltac:(lia)) as [[e_sum a_sum] ->].
  cbn [default from_option id foldl app fst settled wa wb wc wd we wf wg wh].
  repeat match goal with |- _ :: _ = _ :: _ => f_equal end; mod32.
Qed.
End Refinement.

(** * The values are appended *)
Section Appends.
Context `{ScalarField}.

Lemma low_bits_app vs vs' x n : low_bits (vs ++ vs') x n = vs ++ low_bits vs' x n.
Proof. unfold low_bits. by rewrite app_assoc. Qed.

Lemma schedule_step_app (vs vs' : Values) w i :
  schedule_step (@pair Values _ (vs ++ vs') w) i = (vs ++ (schedule_step (vs', w) i).1, (schedule_step (vs', w) i).2).
Proof. unfold schedule_step. cbv zeta. by rewrite !low_bits_app. Qed.

Lemma schedule_loop_app (vs vs' : Values) w l :
  foldl schedule_step (@pair Values _ (vs ++ vs') w) l
  = (vs ++ (foldl schedule_step (vs', w) l).1, (foldl schedule_step (vs', w) l).2).
Proof.
  revert vs' w. induction l as [|i l IH]; intros vs' w; [done|].
  cbn [foldl]. rewrite schedule_step_app. destruct (schedule_step (vs', w) i). apply IH.
Qed.

Lemma round_bits_app vs vs' maj bc l :
  foldl (λ values k,
    value_bit (value_bit values (Z.testbit maj (Z.of_nat k))) (Z.testbit bc (Z.of_nat k))) (vs ++ vs') l
  = vs ++ foldl (λ values k,
    value_bit (value_bit values (Z.testbit maj (Z.of_nat k))) (Z.testbit bc (Z.of_nat k))) vs' l.
Proof.
  revert vs'. induction l as [|k l IH]; intros vs'; [done|].
  cbn [foldl]. rewrite <- IH. f_equal. unfold value_bit. by rewrite !app_assoc.
Qed.

Lemma round_step_app w (vs vs' : Values) v d i :
  round_step w (@pair Values _ (vs ++ vs') v, d) i
  = (vs ++ (round_step w (vs', v, d) i).1.1, (round_step w (vs', v, d) i).1.2, (round_step w (vs', v, d) i).2).
Proof.
  destruct d as [[e a]|]; unfold round_step; cbv zeta; rewrite !low_bits_app, round_bits_app; done.
Qed.

Lemma rounds_app w (vs vs' : Values) v d l :
  foldl (round_step w) (@pair Values _ (vs ++ vs') v, d) l
  = (vs ++ (foldl (round_step w) (vs', v, d) l).1.1, (foldl (round_step w) (vs', v, d) l).1.2,
     (foldl (round_step w) (vs', v, d) l).2).
Proof.
  revert vs' v d. induction l as [|i l IH]; intros vs' v d; [done|].
  cbn [foldl]. rewrite round_step_app. destruct (round_step w (vs', v, d) i) as [[vs2 v2] d2]. apply IH.
Qed.

Lemma sums_app (vs vs' : Values) (after : list Z) (l : list (Z * nat)) :
  foldl (λ '(after, values) '(sum, n), (after ++ [as_u32 sum], low_bits values sum n)) (@pair _ Values after (vs ++ vs')) l
  = ((foldl (λ '(after, values) '(sum, n), (after ++ [as_u32 sum], low_bits values sum n)) (after, vs') l).1,
     vs ++ (foldl (λ '(after, values) '(sum, n), (after ++ [as_u32 sum], low_bits values sum n)) (after, vs') l).2).
Proof.
  revert after vs'. induction l as [|[sum n] l IH]; intros after vs'; [done|].
  cbn [foldl]. rewrite low_bits_app. apply IH.
Qed.

(** The values are listed after those before, and do not depend on them. *)
Lemma compression_app (vs vs' : Values) block state :
  compression (vs ++ vs') block state
  = ((compression vs' block state).1, vs ++ (compression vs' block state).2).
Proof.
  unfold compression.
  pose proof (schedule_loop_app vs vs' (block ++ replicate 48 0) (seq 16 48)) as E.
  destruct (foldl schedule_step (vs', _) _) as [vs1 w]. cbn [fst snd] in E. rewrite E. clear E.
  pose proof (rounds_app w vs vs1 (working_of state) None (range 64)) as E.
  destruct (foldl (round_step w) (vs1, working_of state, None) (range 64)) as [[vs2 v] d]. cbn [fst snd] in E. rewrite E. clear E.
  destruct (default (0, 0) d) as [e a].
  match goal with |- foldl _ _ ?l = _ => generalize l end. intros l. apply sums_app.
Qed.
End Appends.

(** * The sums fit in the bits listed for them *)
Ltac solve_word :=
  repeat first [done | apply lxor_word | apply land_word | apply rotate_right_word
    | apply not32_word | apply shiftr_word | apply word_nonneg | lia].

Section Bounds.
Context `{ScalarField}.

Record words (v : Working) : Prop := {
  words_a : word (wa v); words_b : word (wb v); words_c : word (wc v); words_d : word (wd v);
  words_e : word (we v); words_f : word (wf v); words_g : word (wg v); words_h : word (wh v);
  }.

(** The deferred sums have six and seven operands. *)
Definition sums_fit (deferred : option (Z * Z)) : Prop :=
  match deferred with
  | None => True
  | Some (e_sum, a_sum) => 0 ≤ e_sum ≤ 6 * (2 ^ 32 - 1) ∧ 0 ≤ a_sum ≤ 7 * (2 ^ 32 - 1)
  end.

Lemma working_of_words state : Forall word state → words (working_of state).
Proof. intros Hs. split; simpl; auto with vega. Qed.

Lemma round_constants_words : Forall word ROUND_CONSTANTS.
Proof. unfold ROUND_CONSTANTS, word. repeat constructor; lia. Qed.

Lemma round_step_bounded w values v deferred i :
  Forall word w → words v → sums_fit deferred →
  let '(_, v', deferred') := round_step w (values, v, deferred) i in
  words v' ∧ sums_fit deferred'.
Proof.
  intros Hw [] Hd. unfold round_step.
  set (e := match deferred with Some (x, _) => as_u32 x | None => we v end).
  set (a := match deferred with Some (_, x) => as_u32 x | None => wa v end).
  assert (word e ∧ word a) as [He Ha].
  { unfold e, a. destruct deferred as [[]|]; auto with vega. }
  assert (word (Ch e (wf v) (wg v)) ∧ word (Maj a (wb v) (wc v)) ∧
    word (Sigma1 e) ∧ word (Sigma0 a)) as (H1 & H2 & H3 & H4).
  { unfold Ch, Maj, Sigma0, Sigma1. repeat split_and; solve_word. }
  pose proof (word_lookup w i Hw). pose proof (word_lookup _ i round_constants_words).
  assert (words {| wa := a; wb := a; wc := wb v; wd := wc v;
    we := e; wf := e; wg := wf v; wh := wg v |}) as Hwords by by split.
  assert (0 ≤ wd v + (wh v + Sigma1 e + Ch e (wf v) (wg v) + ROUND_CONSTANTS !!! i + w !!! i)
    ≤ 6 * (2 ^ 32 - 1) ∧
    0 ≤ wh v + Sigma1 e + Ch e (wf v) (wg v) + ROUND_CONSTANTS !!! i + w !!! i
  + (Sigma0 a + Maj a (wb v) (wc v)) ≤ 7 * (2 ^ 32 - 1)) as Hs.
    { unfold word in *. lia. }
    destruct deferred as [[e_sum a_sum]|]; exact (conj Hwords Hs).
Qed.

Lemma rounds_bounded w values state n :
  Forall word w → Forall word state →
  let '(_, v, deferred) := foldl (round_step w) (values, working_of state, None) (seq 0 n) in
  words v ∧ sums_fit deferred.
Proof.
  intros Hw Hs. induction n as [|n IH]; [split; [by apply working_of_words|done]|].
  rewrite seq_S, foldl_app. cbn [foldl].
  destruct (foldl (round_step w) _ _) as [[vs v] deferred]. destruct IH as [IH1 IH2].
  by apply round_step_bounded.
Qed.

Lemma fips_schedule_words block : Forall word block → Forall word (fips_schedule block).
Proof.
  intros Hb. unfold fips_schedule. generalize (seq 16 48). intros l. revert block Hb.
  induction l as [|t l IH]; intros block Hb; [done|]. cbn [foldl]. apply IH.
  apply Forall_app. split; [done|]. constructor; [apply add32_word|constructor].
Qed.

Lemma fips_compress_words state block : Forall word (fips_compress state block).
Proof. unfold fips_compress. repeat constructor; apply add32_word. Qed.

Lemma length_fips_compress state block : length (fips_compress state block) = 8%nat.
Proof. done. Qed.
End Bounds.
