(* ===== verification/Sha256Trace.v ===== *)
(** The values that bellpepper's SHA-256 compression allocates, from FIPS 180-4:
    the order that [gadgets/sha256.rs] documents, and that its native
    compression lists. *)
From Stdlib Require Import ZArith Lia Strings.Byte.
From stdpp Require Import base list numbers option.
From S2P Require Import Prelude Bytes Field Values Sha256.
Local Open Scope Z_scope.

(** * The order of the gadget *)

(** The low bits of a value, least significant first. *)
Definition low_first (n : nat) (x : Z) : list bool := reverse (int_bits n x).

(** A sum of n words: as many bits as n · (2^32 − 1) has. *)
Definition words_total (operands : list Z) : Z := foldr Z.add 0 operands.
Definition sum_trace (operands : list Z) : list bool :=
  low_first (Z.to_nat (Z.log2 (Z.of_nat (length operands) * (2 ^ 32 - 1)) + 1)) (words_total operands).

(** A word of the schedule: the two XORs of σ0, without the bits that the shift
    leaves as they are, those of σ1, and the sum of the four words. *)
Definition schedule_trace (w : list Z) (t : nat) : list bool :=
  let x := w !!! (t - 15)%nat in
  let y := w !!! (t - 2)%nat in
  low_first 32 (Z.lxor (rotate_right x 7) (rotate_right x 18)) ++ low_first (32 - 3) (sigma0 x) ++
  low_first 32 (Z.lxor (rotate_right y 17) (rotate_right y 19)) ++ low_first (32 - 10) (sigma1 y) ++
  sum_trace [w !!! (t - 16)%nat; sigma0 x; w !!! (t - 7)%nat; sigma1 y].

(** The words whose sums are the next e and a. *)
Definition temp1_words (w : list Z) (v : Working) (t : nat) : list Z :=
  [wh v; Sigma1 (we v); Ch (we v) (wf v) (wg v); ROUND_CONSTANTS !!! t; w !!! t].
Definition e_words (w : list Z) (v : Working) (t : nat) : list Z := wd v :: temp1_words w v t.
Definition a_words (w : list Z) (v : Working) (t : nat) : list Z :=
  temp1_words w v t ++ [Sigma0 (wa v); Maj (wa v) (wb v) (wc v)].

(** The working variables before round [t]. *)
Definition rounds_at (w state : list Z) (t : nat) : Working := foldl (fips_round w) (working_of state) (range t).

(** The sums of the round before, if any; Σ1's two XORs, Ch; Σ0's two XORs; and
    each bit of Maj with that of the AND of b and c. *)
Definition round_trace (w state : list Z) (t : nat) : list bool :=
  let v := rounds_at w state t in
  let before words := match t with O => [] | S t => sum_trace (words w (rounds_at w state t) t) end in
  before e_words ++
  low_first 32 (Z.lxor (rotate_right (we v) 6) (rotate_right (we v) 11)) ++ low_first 32 (Sigma1 (we v)) ++
  low_first 32 (Ch (we v) (wf v) (wg v)) ++
  before a_words ++
  low_first 32 (Z.lxor (rotate_right (wa v) 2) (rotate_right (wa v) 13)) ++ low_first 32 (Sigma0 (wa v)) ++
  (range 32 ≫= λ k, [Z.testbit (Maj (wa v) (wb v) (wc v)) (Z.of_nat k); Z.testbit (Z.land (wb v) (wc v)) (Z.of_nat k)]).

(** The new state, with the sums of the last round. *)
Definition state_trace (w state : list Z) : list bool :=
  let u := rounds_at w state 63 in
  let v := rounds_at w state 64 in
  sum_trace (a_words w u 63 ++ [state !!! 0%nat]) ++ sum_trace [state !!! 1%nat; wb v] ++
  sum_trace [state !!! 2%nat; wc v] ++ sum_trace [state !!! 3%nat; wd v] ++
  sum_trace (e_words w u 63 ++ [state !!! 4%nat]) ++ sum_trace [state !!! 5%nat; wf v] ++
  sum_trace [state !!! 6%nat; wg v] ++ sum_trace [state !!! 7%nat; wh v].

Definition compression_trace (block state : list Z) : list bool :=
  let w := fips_schedule block in
  (seq 16 48 ≫= schedule_trace w) ++ (range 64 ≫= round_trace w state) ++ state_trace w state.

(** * The native compression lists them *)
Section Trace.
Context `{ScalarField}.

Lemma low_bits_low values x n : low_bits values x n = values ++ (of_bool <$> low_first n x).
Proof. apply low_bits_of_bool. Qed.

Lemma sum_trace_low words n x :
  Z.to_nat (Z.log2 (Z.of_nat (length words) * (2 ^ 32 - 1)) + 1) = n → words_total words = x → sum_trace words = low_first n x.
Proof. by intros <- <-. Qed.

Lemma sum_trace_pair x y : sum_trace [x; y] = low_first 33 (x + y).
Proof. apply sum_trace_low; [done|]. unfold words_total. cbn [foldr]. lia. Qed.

Lemma sum_trace_more words x n :
  Z.to_nat (Z.log2 (Z.of_nat (length (words ++ [x])) * (2 ^ 32 - 1)) + 1) = n → sum_trace (words ++ [x]) = low_first n (words_total words + x).
Proof.
  intros Hn. apply sum_trace_low; [done|]. clear Hn. unfold words_total. induction words as [|y words IH]; cbn [foldr app]; lia.
Qed.

Lemma bits_pairs values (f g : nat → bool) l :
  foldl (λ values k, value_bit (value_bit values (f k)) (g k)) values l
  = values ++ (of_bool <$> (l ≫= λ k, [f k; g k])).
Proof.
  revert values. induction l as [|k l IH]; intros values; [by rewrite app_nil_r|].
  cbn [foldl]. rewrite IH. unfold value_bit. rewrite bind_cons, fmap_app, !app_assoc. f_equal. by rewrite <-app_assoc.
Qed.

(** The schedule. *)
Lemma schedule_prefix block n k :
  length block = 16%nat → (n ≤ 48)%nat → (k < 16 + n)%nat →
  (foldl (λ w t, w ++ [add32 (add32 (sigma1 (w !!! (t - 2)%nat)) (w !!! (t - 7)%nat))
    (add32 (sigma0 (w !!! (t - 15)%nat)) (w !!! (t - 16)%nat))]) block (seq 16 n)) !!! k = fips_schedule block !!! k.
Proof.
  intros Hb. unfold fips_schedule. set (f := λ (w : list Z) t, _). intros Hn Hk.
  replace 48%nat with (n + (48 - n))%nat by lia. generalize (48 - n)%nat. intros m. rewrite seq_app, foldl_app.
  assert (k < length (foldl f block (seq 16 n)))%nat as Hl by (unfold f; by rewrite schedule_length).
  clear Hk Hn. generalize dependent (foldl f block (seq 16 n)). generalize (seq (16 + n) m).
  intros l. induction l as [|t l IH]; intros w Hl; [done|]. cbn [foldl]. rewrite <-IH.
  - unfold f. by rewrite lookup_total_app_l.
  - unfold f. rewrite length_app. lia.
Qed.

Lemma schedule_step_traced values w w' i :
  (16 ≤ i)%nat → (∀ k, (k < i)%nat → w !!! k = w' !!! k) →
  (schedule_step (values, w) i).1 = values ++ (of_bool <$> schedule_trace w' i).
Proof.
  intros Hi Hk. unfold schedule_step. cbv zeta. cbn [fst]. rewrite !Hk by lia. unfold schedule_trace. cbv zeta.
  rewrite (sum_trace_low _ 34 (w' !!! (i - 16)%nat + sigma0 (w' !!! (i - 15)%nat) + w' !!! (i - 7)%nat + sigma1 (w' !!! (i - 2)%nat)))
    by (done || (unfold words_total; cbn [foldr]; lia)).
  rewrite !low_bits_low, !fmap_app, !app_assoc. done.
Qed.

Lemma schedule_traced values block n :
  length block = 16%nat → (n ≤ 48)%nat →
  (foldl schedule_step (values, block ++ replicate 48 0) (seq 16 n)).1
  = values ++ (of_bool <$> (seq 16 n ≫= schedule_trace (fips_schedule block))).
Proof.
  intros Hb. induction n as [|n IH]; intros Hn; [by rewrite app_nil_r|].
  pose proof (schedule_loop values block n Hb ltac:(lia)) as Hw. specialize (IH ltac:(lia)).
  rewrite seq_S, foldl_app, bind_app, fmap_app, app_assoc, <-IH.
  destruct (foldl schedule_step _ _) as [vs w]. cbn [fst snd] in *. cbn [foldl mbind list_bind]. rewrite app_nil_r.
  apply schedule_step_traced; [lia|]. intros k Hk.
  rewrite Hw, lookup_total_app_l by (by rewrite schedule_length). by apply schedule_prefix; [|lia|].
Qed.

(** The sums left by the round before. *)
Definition left_by (w state : list Z) (n : nat) : option (Z * Z) :=
  match n with
  | O => None
  | S t => let v := rounds_at w state t in Some (words_total (e_words w v t), words_total (a_words w v t))
  end.

Lemma rounds_S w state n : rounds_at w state (S n) = fips_round w (rounds_at w state n) n.
Proof. unfold rounds_at, range. by rewrite seq_S, foldl_app. Qed.

Local Ltac sums := unfold words_total, Sigma0, Sigma1, Ch, Maj; cbn [foldr app]; do 2 f_equal; lia.

Lemma round_step_traced w values v n state :
  settled v (left_by w state n) = rounds_at w state n →
  let '(values', v', deferred) := round_step w (values, v, left_by w state n) n in
  values' = values ++ (of_bool <$> round_trace w state n) ∧ deferred = left_by w state (S n) ∧
  settled v' deferred = rounds_at w state (S n).
Proof.
  intros Ev. pose proof (round_step_settled w values v (left_by w state n) n) as Hr. rewrite Ev, <-rounds_S in Hr.
  assert (rounds_at w state n = settled v (left_by w state n)) as Es by done.
  destruct (round_step w (values, v, left_by w state n) n) as [[values' v'] deferred] eqn:E. destruct Hr as [Hr _].
  unfold round_step in E. unfold round_trace. cbn [left_by].
  set (r := rounds_at w state n) in *.
  assert (wb r = wb v ∧ wc r = wc v ∧ wd r = wd v ∧ wf r = wf v ∧ wg r = wg v ∧ wh r = wh v) as (Eb & Ec & Ed & Ef & Eg & Eh).
  { rewrite Es. by destruct (left_by w state n) as [[]|]. }
  unfold a_words, e_words, temp1_words. cbv zeta. rewrite Eb, Ec, Ed, Ef, Eg, Eh.
  destruct n as [|n]; cbn [left_by settled] in *; apply pair_equal_spec in E as [[<- <-]%pair_equal_spec <-];
    rewrite Es; cbn [wa we]; (split; [|split; [|exact Hr]]); [| sums | |sums];
    rewrite bits_pairs, !low_bits_low, !fmap_app, ?fmap_nil, !app_assoc, ?app_nil_r; reflexivity.
Qed.

Lemma rounds_traced values w state n :
  let '(values', v, deferred) := foldl (round_step w) (values, working_of state, None) (range n) in
  values' = values ++ (of_bool <$> (range n ≫= round_trace w state)) ∧
  deferred = left_by w state n ∧ settled v deferred = rounds_at w state n.
Proof.
  induction n as [|n IH]; [cbn; by rewrite app_nil_r|]. unfold range in *. rewrite seq_S, foldl_app, bind_app.
  destruct (foldl (round_step w) _ _) as [[vs v] deferred]. destruct IH as (-> & -> & Ev).
  cbn [foldl mbind list_bind]. rewrite app_nil_r, fmap_app, app_assoc. by apply round_step_traced.
Qed.

Lemma state_sums values (l : list (Z * nat)) after :
  (foldl (λ '(after, values) '(sum, n), (after ++ [as_u32 sum], low_bits values sum n)) (@pair _ Values after values) l).2
  = values ++ (of_bool <$> (l ≫= λ '(sum, n), low_first n sum)).
Proof.
  revert values after. induction l as [|[x n] l IH]; intros values after; [by rewrite app_nil_r|].
  cbn [foldl]. by rewrite IH, low_bits_low, bind_cons, fmap_app, app_assoc.
Qed.

(** The native compression lists the words of FIPS 180-4's rounds in the order
    of the gadget. *)
Lemma compression_traced values block state :
  length block = 16%nat →
  (compression values block state).2 = values ++ (of_bool <$> compression_trace block state).
Proof.
  intros Hb. unfold compression, compression_trace. cbv zeta.
  pose proof (schedule_fips values block Hb) as Hw. pose proof (schedule_traced values block 48 Hb ltac:(lia)) as Ht.
  destruct (foldl schedule_step _ _) as [vs w]. cbn [fst snd] in Hw, Ht. subst w vs.
  set (w := fips_schedule block) in *.
  pose proof (rounds_traced (values ++ (of_bool <$> (seq 16 48 ≫= schedule_trace w))) w state 64) as Hr.
  destruct (foldl (round_step _) _ _) as [[vs' v] deferred]. destruct Hr as (-> & -> & Hv).
  change (left_by w state 64) with (Some (words_total (e_words w (rounds_at w state 63) 63), words_total (a_words w (rounds_at w state 63) 63))) in *.
  cbn [default from_option id]. rewrite state_sums by done. rewrite !fmap_app, <-!app_assoc. do 4 f_equal.
  unfold state_trace. cbv zeta. rewrite <-Hv. cbn [settled wa wb wc wd we wf wg wh mbind list_bind]. rewrite app_nil_r.
  by rewrite !sum_trace_pair, (sum_trace_more (a_words _ _ _) _ 35), (sum_trace_more (e_words _ _ _) _ 35).
Qed.
End Trace.
