(* ===== verification/Table.v ===== *)
(** [table.rs]: the shared table of SHA-256 blocks and states.

    The hash functions are the [sha2] crate's: the class [Sha2], whose laws are
    FIPS 180-4 ([Sha256.fips_compress], [fips_pad]). *)
From Stdlib Require Import ZArith Lia Strings.String Strings.Byte.
From stdpp Require Import base list numbers option strings pretty.
From S2P Require Import Prelude Bytes Field ConstraintSystem Shape CheckSystem Bellpepper Lc Values Bits Sha256.

(** * Layouts *)
Definition POSITIONS : nat := 32.
Definition OFFSET_BITS : nat := 11.
Definition CHUNK_BYTES : nat := 16.
Definition CHUNKS_PER_BLOCK : nat := 4.
Definition CELLS_PER_POSITION : nat := CHUNKS_PER_BLOCK + 2.
Definition START : nat := CELLS_PER_POSITION * POSITIONS.

Record Region := mkRegion { first : nat; blocks : nat }.

Definition SIGNED : Region := {| first := 0; blocks := 30 |}.
Definition ATTRIBUTE : Region := {| first := 30; blocks := 2 |}.

Record PseudonymRegions := { ssc : Region; seed : Region; nym : Region }.

Record Layout := {
  signed : Region;
  attribute : Region;
  pseudonym : option PseudonymRegions;
  per_instance : nat;
  budget : nat;
}.

Definition AGE : Layout := {|
  signed := SIGNED;
  attribute := ATTRIBUTE;
  pseudonym := None;
  per_instance := 1;
  budget := 2 ^ 15;
|}.

Definition FULL_REGIONS : PseudonymRegions := {|
  ssc := {| first := 24; blocks := 3 |};
  seed := {| first := 30; blocks := 1 |};
  nym := {| first := 28; blocks := 2 |};
|}.

Definition FULL_MDOC : Layout := {|
  signed := {| first := 0; blocks := 22 |};
  attribute := {| first := 22; blocks := 2 |};
  pseudonym := Some FULL_REGIONS;
  per_instance := 1;
  budget := 2 ^ 15;
|}.

(** [Layout::instances]. *)
Definition instances (l : Layout) : nat := POSITIONS / per_instance l.

(** [Layout::starts_from_iv]. *)
Definition starts_from_iv (l : Layout) (j : nat) : bool :=
  (j =? first (attribute l))%nat
  || match pseudonym l with
     | Some p => (j =? first (ssc p))%nat || (j =? first (seed p))%nat || (j =? first (nym p))%nat
     | None => false
     end.

(** * Words and blocks *)
Definition IV : list Z := [
  0x6a09e667; 0xbb67ae85; 0x3c6ef372; 0xa54ff53a; 0x510e527f; 0x9b05688c; 0x1f83d9ab; 0x5be0cd19]%Z.

Definition last_block (len : nat) : nat := (len + 8) / 64.
Definition blocks_before (offset : nat) : nat := offset / 64.

Definition words_to_bytes (words : list Z) : list byte := words ≫= be_bytes 4.
Definition bytes_to_words (bytes : list byte) : list Z := be_int <$> chunks 4 bytes.
Definition iv_bytes : list byte := words_to_bytes IV.

(** The [while] loop of [pad]: fewer than 64 rounds. *)
Fixpoint pad_zeros (fuel : nat) (padded : list byte) : list byte :=
  match fuel with
  | O => padded
  | S fuel => if (length padded mod 64 =? 56)%nat then padded else pad_zeros fuel (padded ++ [x00])
  end.
Definition pad (message : list byte) : list byte :=
  pad_zeros 64 (message ++ [x80]) ++ be_bytes 8 (8 * Z.of_nat (length message)).

(** FIPS 180-4, clause 5.1.1: the least number of zeros. *)
Definition fips_pad (message : list byte) : list byte :=
  message ++ [x80] ++ replicate (Z.to_nat ((55 - Z.of_nat (length message)) mod 64)) x00
    ++ be_bytes 8 (8 * Z.of_nat (length message)).

(** FIPS 180-4, clause 6.2: the digest. *)
Definition fips_sha256 (message : list byte) : list byte :=
  words_to_bytes
    (foldl (λ state block, fips_compress state (bytes_to_words block)) IV
       (chunks 64 (fips_pad message))).

(** The [sha2] crate, for messages shorter than 2^61 bytes. *)
Class Sha2 := {
  sha256_digest : list byte → list byte;
  compress256 : list Z → list byte → list Z;
  sha256_digest_fips m :
    (Z.of_nat (length m) < 2 ^ 61)%Z → sha256_digest m = fips_sha256 m;
  compress256_fips state block :
    length state = 8%nat → Forall word state → length block = 64%nat →
    compress256 state block = fips_compress state (bytes_to_words block);
}.

Section Table.
Context `{Bellpepper} `{Sha2}.

(** [sha256]. *)
Definition sha256 (message : list byte) : list byte := sha256_digest message.

(** [compress]. *)
Definition compress (state : list Z) (blocks : list byte) : list Z :=
  foldl compress256 state (chunks 64 blocks).

Definition state_half (state : list byte) (h : nat) : Scalar :=
  from_be (slice (CHUNK_BYTES * h) (CHUNK_BYTES * (h + 1)) state).

(** [struct Table]. *)
Record Table := mkTable {
  t_blocks : list (list byte);
  t_states : list (list byte);
  t_start : list byte;
  t_layout : Layout;
  }.

(** The states of the blocks from position [j] on, after [state]. *)
Fixpoint chain (layout : Layout) (start : list byte) (j : nat) (state : list Z)
  (blocks : list (list byte)) : list (list byte) :=
  match blocks with
  | [] => []
  | block :: blocks =>
  let state := if (j =? first (signed layout))%nat then bytes_to_words start else state in
  let state := if starts_from_iv layout j then IV else state in
  let state := compress state block in
  words_to_bytes state :: chain layout start (S j) state blocks
  end.

(** [Table::from_blocks_in]. *)
Definition from_blocks_in (layout : Layout) (blocks : list (list byte)) (start : list byte)
  : outcome string Table :=
  if (length blocks =? POSITIONS)%nat then
  Ok {| t_blocks := blocks; t_states := chain layout start 0 IV blocks;
  t_start := start; t_layout := layout |}
  else Panic "assert_eq".

(** [blocks.0[i].copy_from_slice(block)]. *)
Definition copy_block (blocks : list (list byte)) (i : nat) (block : list byte)
  : outcome string (list (list byte)) :=
  if (i <? length blocks)%nat then
  if (length block =? 64)%nat then Ok (<[i := block]> blocks)
  else Panic "source slice length does not match destination slice length"
  else Panic "index out of bounds".

(** The message [padded] in its region. *)
Definition place (acc : list (list byte)) (region : Region) (padded : list byte)
  : outcome string (list (list byte)) :=
  if (64 * blocks region <? length padded)%nat then
  Err ("a message of " +:+ pretty (length padded / 64)%nat +:+ " blocks does not fit in "
  +:+ pretty (blocks region) +:+ " blocks")
  else
  foldM (λ acc '(j, block), copy_block acc (first region + j) block)
  acc (imap (λ j block, (j, block)) (chunks 64 padded)).

(** [Table::with_messages]. *)
Definition with_messages (layout : Layout) (message : list byte) (skipped : nat)
  (messages : list (Region * list byte)) : outcome string Table :=
  let padded_signed := pad message in
  let at_ := ((64 * skipped) `min` length padded_signed)%nat in
  let before := take at_ padded_signed in
  let kept := drop at_ padded_signed in
  let start := compress IV before in
  let acc := replicate POSITIONS (replicate 64 x00) in
  let padded := (signed layout, kept)
  :: ((λ '(region, message), (region, pad message)) <$> messages) in
  acc ← foldM (λ acc '(region, padded), place acc region padded) acc padded;
  from_blocks_in layout acc (words_to_bytes start).

(** [Table::chunk_value], [Table::state_value], [Table::state_before_value]. *)
Definition chunk_value (t : Table) (c : nat) : Scalar :=
  if (c <? CHUNKS_PER_BLOCK * POSITIONS)%nat then
  let k := (c mod CHUNKS_PER_BLOCK)%nat in
  from_be (slice (CHUNK_BYTES * k) (CHUNK_BYTES * (k + 1))
  (default [] (t_blocks t !! (c / CHUNKS_PER_BLOCK)%nat)))
  else ZERO.
Definition state_value (t : Table) (j h : nat) : Scalar :=
  state_half (default [] (t_states t !! j)) h.
Definition state_before_value (t : Table) (layout : Layout) (j h : nat) : Scalar :=
  if (j =? first (signed layout))%nat then state_half (t_start t) h
  else if starts_from_iv layout j then state_half iv_bytes h
  else state_value t (j - 1) h.

(** [allocate]: the cells of each position, then the start state. *)
Definition alloc_cell (name : string) (v : option Scalar) : Synth AllocatedNum :=
  ns name (AllocatedNum_alloc (known v)).
Definition allocate (table : option Table) : Synth (list AllocatedNum) :=
  positions ← mapM (λ j,
  chunks ← mapM (λ k,
  alloc_cell ("block " +:+ pretty j +:+ " chunk " +:+ pretty k)
  ((λ t, from_be (slice (CHUNK_BYTES * k) (CHUNK_BYTES * (k + 1))
  (default [] (t_blocks t !! j)))) <$> table)) (range CHUNKS_PER_BLOCK);
  halves ← mapM (λ h,
  alloc_cell ("state " +:+ pretty j +:+ " half " +:+ pretty h)
  ((λ t, state_half (default [] (t_states t !! j)) h) <$> table)) (range 2);
  mret (chunks ++ halves)) (range POSITIONS);
  start ← mapM (λ h,
  alloc_cell ("start state half " +:+ pretty h) ((λ t, state_half (t_start t) h) <$> table))
  (range 2);
  mret (concat positions ++ start).

(** [Cells]: the shared segment as the circuits read it. *)
Definition Cells : Type := list AllocatedNum.
Definition cells_chunk (cells : Cells) (c : nat) : Synth Lc :=
  if (c <? CHUNKS_PER_BLOCK * POSITIONS)%nat then
  let j := (c / CHUNKS_PER_BLOCK)%nat in
  n ← index cells (CELLS_PER_POSITION * j + c mod CHUNKS_PER_BLOCK);
  mret (num n)
  else mret lc_of_zero.
Definition cells_state (cells : Cells) (j h : nat) : Synth Lc :=
  n ← index cells (CELLS_PER_POSITION * j + CHUNKS_PER_BLOCK + h); mret (num n).
Definition cells_state_before_in (cells : Cells) (layout : Layout) (j h : nat) : Synth Lc :=
  if (j =? first (signed layout))%nat then n ← index cells (START + h); mret (num n)
  else if starts_from_iv layout j then mret (constant (state_half iv_bytes h))
  else cells_state cells (j - 1) h.
End Table.

(** A hash library that is the specification. *)
#[export] Instance sha2_fips : Sha2.
Proof.
  refine {| sha256_digest := fips_sha256;
    compress256 := λ state block, fips_compress state (bytes_to_words block) |}; done.
Defined.

(** * Padding *)
Section Padding.
Local Open Scope Z_scope.

Lemma pad_zeros_spec fuel k l :
  (k < fuel)%nat → Z.of_nat (length l + k) mod 64 = 56 →
  (∀ i, (i < k)%nat → Z.of_nat (length l + i) mod 64 ≠ 56) →
  pad_zeros fuel l = l ++ replicate k x00.
Proof.
  assert (∀ l : list byte, (length l mod 64 =? 56)%nat = (Z.of_nat (length l) mod 64 =? 56)%Z) as E.
  { intros l'. apply Bool.eq_iff_eq_true. rewrite Nat.eqb_eq, Z.eqb_eq.
    change 64 with (Z.of_nat 64). rewrite <-Nat2Z.inj_mod. lia. }
  revert k l. induction fuel as [|fuel IH]; intros k l Hk Hm Hi; [lia|].
  cbn [pad_zeros]. rewrite E. destruct k as [|k].
  - rewrite Nat.add_0_r in Hm. rewrite (proj2 (Z.eqb_eq _ _)) by done. by rewrite app_nil_r.
  - rewrite (proj2 (Z.eqb_neq _ _)).
    2: { specialize (Hi 0%nat ltac:(lia)). by rewrite Nat.add_0_r in Hi. }
    rewrite (IH k); [by rewrite <-app_assoc|lia| |].
    + rewrite length_app. simpl. by rewrite <-Nat.add_assoc.
    + intros i Hik. rewrite length_app. simpl. rewrite <-Nat.add_assoc. apply (Hi (S i)). lia.
Qed.

(** The loop adds the zeros of the standard. *)
Lemma pad_fips m : pad m = fips_pad m.
Proof.
  unfold pad, fips_pad. set (k := Z.to_nat _).
  pose proof (Z.mod_pos_bound (55 - Z.of_nat (length m)) 64 ltac:(lia)) as Hk.
  pose proof (Z.div_mod (55 - Z.of_nat (length m)) 64 ltac:(lia)) as Hd.
  rewrite (pad_zeros_spec 64 k).
  - by rewrite <-!app_assoc.
  - unfold k. lia.
  - rewrite length_app. simpl. unfold k.
    symmetry. eapply Z.mod_unique_pos with (q := - ((55 - Z.of_nat (length m)) / 64)); lia.
  - intros i Hi Hm. rewrite length_app in Hm. simpl in Hm. unfold k in Hi.
    pose proof (Z.div_mod (Z.of_nat (length m + 1 + i)) 64 ltac:(lia)) as Hd2. rewrite Hm in Hd2.
    lia.
Qed.

Lemma length_pad m : length (pad m) = (64 * (last_block (length m) + 1))%nat.
Proof.
  rewrite pad_fips. unfold fips_pad, last_block.
  rewrite !length_app, length_replicate, length_be_bytes. cbn [length].
  pose proof (Z.mod_pos_bound (55 - Z.of_nat (length m)) 64 ltac:(lia)) as Hk.
  pose proof (Z.div_mod (55 - Z.of_nat (length m)) 64 ltac:(lia)) as Hd.
  pose proof (Nat.div_mod_eq (length m + 8) 64). pose proof (Nat.mod_upper_bound (length m + 8) 64).
  lia.
Qed.
End Padding.

(** * Words and bytes *)
Section WordBytes.
Lemma length_words_to_bytes ws : length (words_to_bytes ws) = 4 * length ws.
Proof.
  unfold words_to_bytes. induction ws as [|w ws IH]; [done|].
  rewrite bind_cons, length_app, length_be_bytes, IH. simpl. lia.
Qed.

Lemma bytes_to_words_to_bytes ws : Forall word ws → bytes_to_words (words_to_bytes ws) = ws.
Proof.
  unfold bytes_to_words, words_to_bytes. induction 1 as [|w ws [Hw1 Hw2] HF IH]; [done|].
  rewrite bind_cons, chunks_app, fmap_cons, IH by done || apply length_be_bytes || lia.
  f_equal. rewrite be_int_be_bytes. by apply Z.mod_small.
Qed.

Lemma bytes_to_words_range bs n : length bs = 4 * n →
  length (bytes_to_words bs) = n ∧ Forall word (bytes_to_words bs).
Proof.
  intros Hl. unfold bytes_to_words. destruct (chunks_lengths 4 n bs) as [H1 H2]; [lia|lia|].
  split; [by rewrite length_fmap|]. apply Forall_fmap.
  eapply list.Forall_impl; [exact H1|]. intros c Hc. unfold compose, word.
  pose proof (be_int_range c) as R. rewrite Hc in R. exact R.
Qed.

Lemma words_to_bytes_to_words bs n : length bs = 4 * n → words_to_bytes (bytes_to_words bs) = bs.
Proof.
  unfold bytes_to_words, words_to_bytes. revert bs. induction n as [|n IH]; intros bs Hl.
  - by destruct bs.
  - rewrite <-(take_drop 4 bs). rewrite chunks_app by (try lia; rewrite length_take; lia).
    rewrite fmap_cons, bind_cons, IH by (rewrite length_drop; lia). f_equal.
    apply be_bytes_be_int. rewrite length_take. lia.
Qed.

Lemma IV_words : length IV = 8 ∧ Forall word IV.
Proof. split; [done|]. unfold IV, word. repeat constructor; lia. Qed.
End WordBytes.

(** * Hash chains *)
Section Chains.
Context `{Sha2}.

Definition hash_state (state : list Z) : Prop := length state = 8 ∧ Forall word state.

Lemma fips_hash_state state block : hash_state (fips_compress state block).
Proof. split; [done|apply fips_compress_words]. Qed.

Lemma compress256_hash_state state block :
  hash_state state → length block = 64 → hash_state (compress256 state block).
Proof. intros [??] ?. rewrite compress256_fips by done. apply fips_hash_state. Qed.

Lemma compress_block state block : length block = 64 → compress state block = compress256 state block.
Proof.
  intros Hl. unfold compress. rewrite <-(app_nil_r block) at 1. rewrite chunks_app by (done || lia). done.
Qed.

(** Blocks one after the other. *)
Definition run_blocks (state : list Z) (bs : list (list byte)) : list Z :=
  foldl compress state bs.

Lemma run_blocks_compress state n l :
  length l = 64 * n → compress state l = run_blocks state (chunks 64 l).
Proof.
  intros Hl. unfold compress, run_blocks.
  destruct (chunks_lengths 64 n l) as [HF _]; [lia|lia|]. revert state.
  induction HF as [|b bs Hb HF IH]; intros state; [done|]. simpl. by rewrite compress_block, IH.
Qed.

Lemma run_blocks_fips state bs :
  hash_state state → Forall (λ b, length b = 64) bs →
  run_blocks state bs = foldl (λ state block, fips_compress state (bytes_to_words block)) state bs
  ∧ hash_state (run_blocks state bs).
Proof.
  intros Hs HF. unfold run_blocks. revert state Hs.
  induction HF as [|b bs Hb HF IH]; intros state Hs; [done|]. simpl.
  rewrite compress_block by done. destruct Hs as [Hs1 Hs2]. rewrite compress256_fips by done.
  apply IH, fips_hash_state.
Qed.

Lemma pad_chunks m :
  Forall (λ b, length b = 64) (chunks 64 (pad m))
  ∧ length (chunks 64 (pad m)) = S (last_block (length m)).
Proof.
  pose proof (length_pad m). destruct (chunks_lengths 64 (S (last_block (length m))) (pad m));
    [lia|lia|done].
Qed.

(** The digest of the library is the chain over the padded message. *)
Lemma sha256_chain m :
  (Z.of_nat (length m) < 2 ^ 61)%Z →
  sha256 m = words_to_bytes (run_blocks IV (chunks 64 (pad m))).
Proof.
  intros Hm. unfold sha256. rewrite sha256_digest_fips by done. unfold fips_sha256.
  rewrite <-pad_fips. destruct (run_blocks_fips IV (chunks 64 (pad m))) as [<- _]; [|apply pad_chunks|done].
  split; [done|apply IV_words].
Qed.

Lemma length_chain l start j st bs : length (chain l start j st bs) = length bs.
Proof. revert j st. induction bs as [|b bs IH]; intros j st; simpl; [done|by rewrite IH]. Qed.

(** The state a chain starts from at [j], if one starts there. *)
Definition starts (l : Layout) (start : list byte) (j : nat) : option (list Z) :=
  if starts_from_iv l j then Some IV
  else if (j =? first (signed l))%nat then Some (bytes_to_words start) else None.

Lemma chain_cons l start j st b bs :
  let st' := compress (default st (starts l start j)) b in
  chain l start j st (b :: bs) = words_to_bytes st' :: chain l start (S j) st' bs.
Proof. unfold starts. cbn [chain]. destruct (starts_from_iv l j), (j =? first (signed l))%nat; reflexivity. Qed.

Lemma chain_drop l start k j st bs :
  ∃ st', drop k (chain l start j st bs) = chain l start (j + k) st' (drop k bs).
Proof.
  revert j st bs. induction k as [|k IH]; intros j st bs.
  - rewrite Nat.add_0_r. by exists st.
  - destruct bs as [|b bs]; [by exists st|]. rewrite chain_cons. cbn [drop].
    rewrite <-Nat.add_succ_comm. apply IH.
Qed.

(** Where no chain starts, the states continue the state before. *)
Lemma chain_run l start seg rest j st i :
  (∀ k, j ≤ k < j + length seg → starts l start k = None) → i < length seg →
  chain l start j st (seg ++ rest) !! i = Some (words_to_bytes (run_blocks st (take (S i) seg))).
Proof.
  revert j st i. induction seg as [|b seg IH]; intros j st i Hn Hi; [simpl in Hi; lia|].
  rewrite <-app_comm_cons, chain_cons. rewrite Hn by (simpl; lia). cbn [default from_option].
  destruct i as [|i]; [done|]. cbn [lookup list_lookup]. simpl in Hi.
  change ((chain l start (S j) (compress st b) (seg ++ rest)) !! i = Some (words_to_bytes (run_blocks (compress st b) (take (S i) seg)))).
  apply IH; [|lia]. intros k Hk. apply Hn. simpl. lia.
Qed.

(** The states of a message that starts a chain at [f]. *)
Lemma chain_message l start bs f seg st0 i st :
  seg `prefix_of` drop f bs → starts l start f = Some st0 →
  (∀ k, f < k < f + length seg → starts l start k = None) → i < length seg →
  chain l start 0 st bs !! (f + i) = Some (words_to_bytes (run_blocks st0 (take (S i) seg))).
Proof.
  intros [rest Hd] Hs Hn Hi. rewrite <-lookup_drop.
  destruct (chain_drop l start f 0 st bs) as [st' ->]. rewrite Hd. simpl Nat.add.
  destruct seg as [|b seg]; [simpl in Hi; lia|].
  rewrite <-app_comm_cons, chain_cons, Hs. cbn [default from_option id].
  destruct i as [|i]; [done|]. simpl in Hi.
  change (chain l start (S f) (compress st0 b) (seg ++ rest) !! i
    = Some (words_to_bytes (run_blocks (compress st0 b) (take (S i) seg)))).
  apply chain_run; [|lia]. intros k Hk. apply Hn. simpl. lia.
Qed.
End Chains.

(** * Placing the messages *)
Section Placing.
Context `{Sha2}.
Implicit Types r : Region.

Definition in_table r : Prop := first r + blocks r ≤ POSITIONS.
Definition apart r r' : Prop :=
  first r + blocks r ≤ first r' ∨ first r' + blocks r' ≤ first r.
Definition fits r (padded : list byte) : Prop := length padded ≤ 64 * blocks r.

Lemma copy_block_ok acc i b :
  i < length acc → length b = 64 → copy_block acc i b = Ok (<[i := b]> acc).
Proof.
  intros Hi Hb. unfold copy_block. rewrite (proj2 (Nat.ltb_lt _ _)) by done.
  by rewrite (proj2 (Nat.eqb_eq _ _)) by done.
Qed.

Lemma copy_blocks acc f bs n :
  Forall (λ b, length b = 64) bs → f + n + length bs ≤ length acc →
  foldM (λ acc '(j, block), copy_block acc (f + j) block) acc
  (imap (λ j block, ((n + j)%nat, block)) bs) = Ok (list_inserts (f + n) bs acc).
Proof.
  intros HF. revert acc n. induction HF as [|b bs Hb HF IH]; intros acc n Hl; [done|].
  cbn [length] in Hl. rewrite imap_cons, Nat.add_0_r. cbn [foldM].
  rewrite copy_block_ok by (done || lia). cbn [mbind outcome_bind].
  rewrite (imap_ext _ (λ j block, ((S n + j)%nat, block))) by (intros; simpl; f_equal; lia).
  rewrite IH by (rewrite length_insert; lia). cbn [list_inserts].
  rewrite <-list_insert_inserts_lt by lia. by rewrite Nat.add_succ_r.
Qed.

Lemma place_ok acc r padded n :
  length padded = 64 * n → fits r padded → in_table r → length acc = POSITIONS →
  place acc r padded = Ok (list_inserts (first r) (chunks 64 padded) acc).
Proof.
  unfold fits, in_table. intros Hn Hf Ht Ha. unfold place.
  rewrite (proj2 (Nat.ltb_ge _ _)) by lia.
  destruct (chunks_lengths 64 n padded) as [HF Hl]; [lia|lia|].
  rewrite (copy_blocks _ _ _ 0) by (done || lia). by rewrite Nat.add_0_r.
Qed.

Lemma place_err acc r padded :
  ¬ fits r padded → ∃ e, place acc r padded = Err e.
Proof. unfold fits, place. intros Hf. rewrite (proj2 (Nat.ltb_lt _ _)) by lia. eauto. Qed.

(** The table's blocks after the messages of [l]. *)
Definition placed (acc : list (list byte)) (l : list (Region * list byte)) : list (list byte) :=
  foldl (λ acc '(r, padded), list_inserts (first r) (chunks 64 padded) acc) acc l.

Lemma length_placed l acc : length (placed acc l) = length acc.
Proof.
  unfold placed. revert acc. induction l as [|[r padded] l IH]; intros acc; [done|].
  cbn [foldl]. by rewrite IH, length_inserts.
Qed.

(** Every padded message is placed when all fit, and none when one does not. *)
Lemma place_all_ok acc (l : list (Region * list byte)) :
  Forall (λ '(r, padded), in_table r ∧ fits r padded ∧ ∃ n, length padded = 64 * n) l →
  length acc = POSITIONS →
  foldM (λ acc '(region, padded), place acc region padded) acc l
  = Ok (placed acc l).
Proof.
  unfold placed. intros HF. revert acc. induction HF as [|[r padded] l (Ht & Hf & n & Hn) HF IH]; intros acc Ha; [done|].
  cbn [foldM foldl]. rewrite (place_ok _ _ _ n) by done. cbn [mbind outcome_bind].
  apply IH. by rewrite length_inserts.
Qed.

Lemma place_all_err acc (l : list (Region * list byte)) :
  Forall (λ '(r, padded), in_table r ∧ ∃ n, length padded = 64 * n) l →
  length acc = POSITIONS → ¬ Forall (λ '(r, padded), fits r padded) l →
  ∃ e, foldM (λ acc '(region, padded), place acc region padded) acc l = Err e.
Proof.
  intros HF. revert acc. induction HF as [|[r padded] l (Ht & n & Hn) HF IH]; intros acc Ha Hnf.
  { by destruct Hnf. }
  cbn [foldM]. destruct (decide (length padded ≤ 64 * blocks r)) as [Hf|Hf].
  - rewrite (place_ok _ _ _ n) by done. cbn [mbind outcome_bind].
    apply IH; [by rewrite length_inserts|]. intros HF'. apply Hnf. by constructor.
  - destruct (place_err acc r padded Hf) as [e ->]. by exists e.
Qed.

(** A message is where its region says when no later one overlaps it. *)
Lemma lookup_placed acc l1 l2 r padded n i :
  length padded = 64 * n → fits r padded → in_table r → i < n → length acc = POSITIONS →
  Forall (λ '(r', padded'), apart r r' ∧ fits r' padded' ∧ ∃ n, length padded' = 64 * n) l2 →
  placed acc (l1 ++ (r, padded) :: l2) !! (first r + i) = chunks 64 padded !! i.
Proof.
  unfold placed. intros Hn Hf Ht Hi Ha HF. rewrite foldl_app. cbn [foldl].
  set (acc1 := foldl _ acc l1). assert (length acc1 = POSITIONS) as Ha1.
  { unfold acc1. by fold (placed acc l1); rewrite length_placed. }
  clearbody acc1. destruct (chunks_lengths 64 n padded) as [_ Hl]; [lia|lia|].
  unfold fits, in_table in *.
  assert (list_inserts (first r) (chunks 64 padded) acc1 !! (first r + i) = chunks 64 padded !! i) as E.
  { rewrite list_lookup_inserts by lia. f_equal. lia. }
  revert E. generalize (list_inserts (first r) (chunks 64 padded) acc1).
  induction HF as [|[r' padded'] l2 (Hap & Hf' & m & Hm) HF IH]; intros acc2 E; [done|].
  cbn [foldl]. apply IH. destruct (chunks_lengths 64 m padded') as [_ Hl']; [lia|lia|].
  rewrite <-E. unfold apart in Hap. destruct Hap.
  - apply list_lookup_inserts_lt. lia.
  - apply list_lookup_inserts_ge. lia.
Qed.
End Placing.

(** * Building a table *)
Section WithMessages.
Context `{Sha2}.

(** The padded messages, in the order they are placed. *)
Definition padded_messages (layout : Layout) (message : list byte) (skipped : nat)
  (messages : list (Region * list byte)) : list (Region * list byte) :=
  (signed layout, drop (64 * skipped) (pad message))
  :: ((λ '(region, message), (region, pad message)) <$> messages).

Definition regions_in_table (layout : Layout) (messages : list (Region * list byte)) : Prop :=
  Forall in_table (signed layout :: messages.*1).

Definition all_fit (l : list (Region * list byte)) : Prop :=
  Forall (λ '(r, padded), fits r padded) l.

Lemma padded_messages_blocks layout message skipped messages :
  regions_in_table layout messages →
  Forall (λ '(r, padded), in_table r ∧ ∃ n, length padded = 64 * n)
  (padded_messages layout message skipped messages).
Proof.
  intros [Hs HF]%list.Forall_cons_1. constructor.
  - split; [done|]. rewrite length_drop, length_pad.
    exists (last_block (length message) + 1 - skipped). lia.
  - apply Forall_fmap, list.Forall_forall. intros [r m] Hin. rewrite list.Forall_forall in HF.
    split; [apply HF, list_elem_of_fmap; by exists (r, m)|]. eexists. apply length_pad.
Qed.

Lemma drop_min {A} n (l : list A) : drop (n `min` length l) l = drop n l.
Proof.
  destruct (decide (n ≤ length l)) as [L|L]; [by rewrite Nat.min_l|].
  rewrite Nat.min_r by lia. by rewrite !drop_ge by lia.
Qed.
Lemma take_min {A} n (l : list A) : take (n `min` length l) l = take n l.
Proof.
  destruct (decide (n ≤ length l)) as [L|L]; [by rewrite Nat.min_l|].
  rewrite Nat.min_r by lia. by rewrite !take_ge by lia.
Qed.

Definition empty_blocks : list (list byte) := replicate POSITIONS (replicate 64 x00).

(** The table that [with_messages] builds when every message fits. *)
Definition built (layout : Layout) (message : list byte) (skipped : nat)
  (messages : list (Region * list byte)) : Table :=
  let start := words_to_bytes (compress IV (take (64 * skipped) (pad message))) in
  let bs := placed empty_blocks (padded_messages layout message skipped messages) in
  {| t_blocks := bs; t_states := chain layout start 0 IV bs;
  t_start := start; t_layout := layout |}.

Lemma with_messages_built layout message skipped messages :
  regions_in_table layout messages →
  all_fit (padded_messages layout message skipped messages) →
  with_messages layout message skipped messages = Ok (built layout message skipped messages).
Proof.
  intros Hr Hf. unfold with_messages. cbv zeta. rewrite drop_min, take_min.
  fold empty_blocks. fold (padded_messages layout message skipped messages).
  rewrite place_all_ok; [| |done].
  - cbn [mbind outcome_bind]. unfold from_blocks_in. rewrite length_placed. done.
  - pose proof (padded_messages_blocks layout message skipped _ Hr) as Hb. unfold all_fit in Hf.
    rewrite list.Forall_forall in Hb, Hf |- *. intros [r padded] Hin.
    specialize (Hb _ Hin). specialize (Hf _ Hin). simpl in *. tauto.
Qed.

Lemma with_messages_err layout message skipped messages :
  regions_in_table layout messages →
  ¬ all_fit (padded_messages layout message skipped messages) →
  ∃ e, with_messages layout message skipped messages = Err e.
Proof.
  intros Hr Hf. unfold with_messages. cbv zeta. rewrite drop_min.
  fold empty_blocks. fold (padded_messages layout message skipped messages).
  destruct (place_all_err empty_blocks (padded_messages layout message skipped messages))
    as [e ->]; [by apply padded_messages_blocks|done|done|]. by exists e.
Qed.

(** No chain starts inside the region but at its first position. *)
Definition unbroken (l : Layout) (r : Region) : Prop :=
  ∀ k, first r < k < first r + blocks r →
  starts_from_iv l k = false ∧ k ≠ first (signed l).

Lemma unbroken_starts l start r n :
  unbroken l r → n ≤ blocks r →
  ∀ k, first r < k < first r + n → starts l start k = None.
Proof.
  intros Hu Hn k Hk. destruct (Hu k) as [H1 H2]; [lia|]. unfold starts.
  rewrite H1. by rewrite (proj2 (Nat.eqb_neq _ _)).
Qed.

(** The chunks of a message lie in the table from the region's start. *)
Lemma placed_prefix acc l1 l2 r padded n :
  length padded = 64 * n → fits r padded → in_table r → length acc = POSITIONS →
  Forall (λ '(r', padded'), apart r r' ∧ fits r' padded' ∧ ∃ n, length padded' = 64 * n) l2 →
  chunks 64 padded `prefix_of` drop (first r) (placed acc (l1 ++ (r, padded) :: l2)).
Proof.
  intros Hn Hf Ht Ha HF. destruct (chunks_lengths 64 n padded) as [_ Hl]; [lia|lia|].
  exists (drop (first r + n) (placed acc (l1 ++ (r, padded) :: l2))).
  apply list_eq. intros i. rewrite lookup_drop.
  destruct (decide (i < n)) as [L|L].
  - rewrite lookup_app_l by lia. by rewrite (lookup_placed _ _ _ _ _ n) by done.
  - rewrite lookup_app_r, lookup_drop by lia. f_equal. lia.
Qed.

(** What the messages after one in the list must satisfy. *)
Lemma later_apart layout message skipped messages l1 l2 r padded :
  regions_in_table layout messages →
  all_fit (padded_messages layout message skipped messages) →
  padded_messages layout message skipped messages = l1 ++ (r, padded) :: l2 →
  Forall (λ '(r', _), apart r r') l2 →
  in_table r ∧ fits r padded ∧ (∃ n, length padded = 64 * n) ∧
  Forall (λ '(r', padded'), apart r r' ∧ fits r' padded' ∧ ∃ n, length padded' = 64 * n) l2.
Proof.
  intros Hr Hf E Ha. pose proof (padded_messages_blocks layout message skipped _ Hr) as Hb.
  rewrite E in Hb, Hf. unfold all_fit in Hf.
  apply Forall_app in Hb as [_ [[Ht Hn] Hb]%list.Forall_cons_1].
  apply Forall_app in Hf as [_ [Hfr Hf]%list.Forall_cons_1].
  repeat split; [done..|]. rewrite list.Forall_forall in *. intros [r' p'] Hin.
  specialize (Hb _ Hin). specialize (Hf _ Hin). specialize (Ha _ Hin). simpl in *. tauto.
Qed.

(** The state after the message's last block. *)
Lemma built_state layout message skipped messages l1 l2 r padded st0 n :
  regions_in_table layout messages →
  all_fit (padded_messages layout message skipped messages) →
  padded_messages layout message skipped messages = l1 ++ (r, padded) :: l2 →
  Forall (λ '(r', _), apart r r') l2 → unbroken layout r →
  starts layout (t_start (built layout message skipped messages)) (first r) = Some st0 →
  length padded = 64 * S n →
  t_states (built layout message skipped messages) !! (first r + n)
  = Some (words_to_bytes (run_blocks st0 (chunks 64 padded))).
Proof.
  intros Hr Hf E Ha Hu Hs Hn.
  destruct (later_apart _ _ _ _ _ _ _ _ Hr Hf E Ha) as (Ht & Hfr & _ & HF).
  destruct (chunks_lengths 64 (S n) padded) as [_ Hl]; [lia|lia|].
  unfold built in *. cbn [t_states t_start] in *. rewrite E in *.
  assert (length (chunks 64 padded) ≤ blocks r) as Hle by (unfold fits in Hfr; lia).
  rewrite (chain_message _ _ _ _ (chunks 64 padded) st0).
  - by rewrite take_ge by lia.
  - by eapply placed_prefix.
  - done.
  - intros k Hk. by apply (unbroken_starts _ _ r (length (chunks 64 padded))).
  - lia.
Qed.

(** The state after the skipped blocks starts the signed message's chain. *)
Lemma run_blocks_skip m skipped :
  skipped ≤ last_block (length m) →
  run_blocks (bytes_to_words (words_to_bytes (compress IV (take (64 * skipped) (pad m)))))
  (chunks 64 (drop (64 * skipped) (pad m))) = run_blocks IV (chunks 64 (pad m)).
Proof.
  intros Hs. pose proof (length_pad m) as Hl.
  assert (length (take (64 * skipped) (pad m)) = 64 * skipped) as Ht.
  { rewrite length_take. lia. }
  assert (hash_state (compress IV (take (64 * skipped) (pad m)))) as Hst.
  { rewrite (run_blocks_compress _ skipped) by done. apply run_blocks_fips; [|].
    - split; [done|apply IV_words].
    - by apply (chunks_lengths 64 skipped); [lia|lia]. }
  rewrite bytes_to_words_to_bytes by apply Hst.
  rewrite (run_blocks_compress _ skipped) by done. unfold run_blocks.
  rewrite <-foldl_app. f_equal. rewrite <-(take_drop (64 * skipped) (pad m)) at 3.
  revert Ht. generalize (take (64 * skipped) (pad m)) as a, (drop (64 * skipped) (pad m)) as b.
  clear. intros a b. revert a. induction skipped as [|k IH]; intros a Ha.
  - by destruct a.
  - rewrite <-(take_drop 64 a), <-app_assoc, (chunks_app 64 (take 64 a)), (chunks_app 64 (take 64 a))
      by (lia || (rewrite length_take; lia)).
    rewrite <-app_comm_cons, IH by (rewrite length_drop; lia). done.
Qed.
End WithMessages.

(** * Properties *)
Section TableProperties.
Context `{Sha2}.

(** The regions lie in the table, apart from each other, and no chain starts
    in the middle of one. *)
Record well_laid (layout : Layout) (regions : list Region) : Prop := {
  laid_in : Forall in_table regions;
  laid_apart i j r r' : i < j → regions !! i = Some r → regions !! j = Some r' → apart r r';
  laid_unbroken : Forall (unbroken layout) regions;
  }.

Lemma well_laid_split layout message skipped messages l1 r padded l2 :
  well_laid layout (signed layout :: messages.*1) →
  padded_messages layout message skipped messages = l1 ++ (r, padded) :: l2 →
  Forall (λ '(r', _), apart r r') l2 ∧ unbroken layout r.
Proof.
  intros [_ Ha Hu] E.
  assert (signed layout :: messages.*1 = (l1 ++ (r, padded) :: l2).*1) as E'.
  { rewrite <-E. unfold padded_messages. rewrite fmap_cons, <-list_fmap_compose. simpl. f_equal.
    apply list_fmap_ext. by intros _ [] _. }
  rewrite E', fmap_app, fmap_cons in *. split.
  - apply list.Forall_forall. intros [r' p'] [i Hi]%list_elem_of_lookup_1.
    apply (Ha (length l1) (length l1 + S i)); [lia| |].
    + by rewrite lookup_app_r, length_fmap, Nat.sub_diag by (rewrite length_fmap; lia).
    + rewrite lookup_app_r, length_fmap by (rewrite length_fmap; lia).
      replace (length l1 + S i - length l1) with (S i) by lia. simpl.
      by rewrite list_lookup_fmap, Hi.
  - apply Forall_app in Hu as [_ Hu]. by apply list.Forall_cons_1 in Hu as [Hu _].
Qed.

(** The table holds the SHA-256 digest of every message it was built
    from: the state after a message's last block is the message's digest,
    for the signed message whatever number of its blocks were skipped, and
    for each other message, which chains from the initial value. *)
Theorem with_messages_digests layout message skipped messages :
  well_laid layout (signed layout :: messages.*1) →
  all_fit (padded_messages layout message skipped messages) →
  starts_from_iv layout (first (signed layout)) = false →
  Forall (λ r, starts_from_iv layout (first r) = true) messages.*1 →
  skipped ≤ last_block (length message) → (Z.of_nat (length message) < 2 ^ 61)%Z →
  Forall (λ '(_, m), Z.of_nat (length m) < 2 ^ 61)%Z messages →
  ∃ t, with_messages layout message skipped messages = Ok t ∧
  t_states t !! (first (signed layout) + (last_block (length message) - skipped))
  = Some (sha256 message) ∧
  Forall (λ '(r, m), t_states t !! (first r + last_block (length m)) = Some (sha256 m)) messages.
Proof.
  intros Hw Hf Hsig Hiv Hsk Hlen Hlens. assert (regions_in_table layout messages) as Hr by apply Hw.
  exists (built layout message skipped messages). split; [by apply with_messages_built|]. split.
  - destruct (well_laid_split layout message skipped messages [] _ _ _ Hw eq_refl) as [Ha Hu].
    rewrite (built_state _ _ _ _ [] _ _ _
      (bytes_to_words (t_start (built layout message skipped messages))) _ Hr Hf eq_refl Ha Hu).
    + unfold built. cbn [t_start]. by rewrite run_blocks_skip, sha256_chain.
    + unfold starts. by rewrite Hsig, Nat.eqb_refl.
    + rewrite length_drop, length_pad. lia.
  - apply list.Forall_forall. intros [r m] Hin. pose proof Hin as [l1 [l2 El]]%list_elem_of_split.
    assert (padded_messages layout message skipped messages
      = ((signed layout, drop (64 * skipped) (pad message))
      :: ((λ '(r, m), (r, pad m)) <$> l1)) ++ (r, pad m) :: ((λ '(r, m), (r, pad m)) <$> l2)) as E.
    { unfold padded_messages. by rewrite El, fmap_app, fmap_cons. }
    destruct (well_laid_split _ _ _ _ _ _ _ _ Hw E) as [Ha Hu].
    rewrite (built_state _ _ _ _ _ _ _ _ IV _ Hr Hf E Ha Hu).
    + rewrite sha256_chain; [done|]. rewrite list.Forall_forall in Hlens. by apply (Hlens _ Hin).
    + unfold starts. rewrite list.Forall_forall in Hiv.
      rewrite (Hiv r); [done|]. apply list_elem_of_fmap. by exists (r, m).
    + rewrite length_pad. lia.
Qed.

(** A message that does not fit in its region is an error, never a
    panic and never a table. *)
Theorem with_messages_rejects layout message skipped messages :
  regions_in_table layout messages →
  ((∃ t, with_messages layout message skipped messages = Ok t)
  ↔ all_fit (padded_messages layout message skipped messages)) ∧
  ((∃ e, with_messages layout message skipped messages = Err e)
  ↔ ¬ all_fit (padded_messages layout message skipped messages)).
Proof.
  intros Hr.
  assert (Decision (all_fit (padded_messages layout message skipped messages))) as D.
  { apply Forall_dec. intros [r padded]. unfold fits. apply _. }
  destruct D as [Hf|Hf].
  - rewrite with_messages_built by done. split; split; [done|eauto|by intros [e [=]]|done].
  - destruct (with_messages_err _ _ _ _ Hr Hf) as [e ->].
    split; split; [by intros [t [=]]|done|done|eauto].
Qed.

(** The padding loop ends within its 64 rounds with the padding of FIPS
    180-4, and [last_block] is the index of the padded message's last block. *)
Lemma pad_standard m :
  pad m = fips_pad m ∧ length (pad m) = 64 * (last_block (length m) + 1) ∧
  fips_sha256 m = words_to_bytes (compress IV (pad m)).
Proof.
  split; [apply pad_fips|]. split; [apply length_pad|].
  unfold fips_sha256. rewrite <-pad_fips.
  rewrite (run_blocks_compress _ _ _ (length_pad m)).
  destruct (run_blocks_fips IV (chunks 64 (pad m))) as [-> _]; [|apply pad_chunks|done].
  split; [done|apply IV_words].
Qed.
End TableProperties.

Section TableWitnesses.
Definition example_messages : list (Region * list byte) :=
  [(attribute FULL_MDOC, bytes_of "attribute"); (ssc FULL_REGIONS, bytes_of "ssc")].

Lemma example_well_laid : well_laid FULL_MDOC (signed FULL_MDOC :: example_messages.*1).
Proof.
  split.
  - repeat constructor; unfold in_table; simpl; unfold POSITIONS; lia.
  - intros [|[|[|i]]] [|[|[|j]]] r r' Hij; simpl; try lia; try done;
      intros [= <-] [= <-]; unfold apart; simpl; lia.
  - repeat (apply Forall_cons_2 || apply Forall_nil_2); intros k Hk; simpl in Hk;
      (split; [|simpl; lia]);
      unfold starts_from_iv; simpl; repeat (rewrite (proj2 (Nat.eqb_neq _ _)) by lia); done.
Qed.

Lemma with_messages_digests_witness :
  ∃ t, with_messages FULL_MDOC (replicate 150 x01) 1 example_messages = Ok t ∧
  t_states t !! 1 = Some (sha256 (replicate 150 x01)) ∧
  Forall (λ '(r, m), t_states t !! (first r + last_block (length m)) = Some (sha256 m))
  example_messages.
Proof.
  apply (with_messages_digests FULL_MDOC (replicate 150 x01) 1 example_messages);
    [apply example_well_laid| |reflexivity| |vm_compute; lia|reflexivity|].
  - repeat (apply Forall_cons_2 || apply Forall_nil_2); apply Nat.leb_le; vm_compute; reflexivity.
  - repeat (apply Forall_cons_2 || apply Forall_nil_2); reflexivity.
  - repeat (apply Forall_cons_2 || apply Forall_nil_2); reflexivity.
Defined.

Lemma with_messages_rejects_witness :
  ¬ (∃ t, with_messages FULL_MDOC (replicate 1500 x01) 1 [] = Ok t).
Proof.
  assert (regions_in_table FULL_MDOC []) as Hr.
  { apply Forall_cons_2, Forall_nil_2. apply Nat.leb_le. reflexivity. }
  rewrite (proj1 (with_messages_rejects FULL_MDOC (replicate 1500 x01) 1 [] Hr)).
  intros [Hf _]%list.Forall_cons_1. unfold fits in Hf. apply Nat.leb_le in Hf.
  vm_compute in Hf. done.
Defined.
End TableWitnesses.
