(* ===== verification/Window.v ===== *)
(** [gadgets/window.rs]: the bytes of a signed message at a private offset.
    [find] is the prover's native search; [message_open] and [message_read]
    are the rules that select the last block and the window of bytes, and
    [read_values] computes the window's values natively. *)
From Stdlib Require Import ZArith Lia Strings.String Strings.Byte.
From Stdlib Require Import Field_tac Ring.
From stdpp Require Import base list numbers option strings pretty.
From S2P Require Import Prelude Bytes Field ConstraintSystem Shape CheckSystem Bellpepper Lc Values Bits Select Sha256 Table.

(** [find]; [bytes.windows(0)] panics. *)
Definition find (bytes pattern : list byte) (what : string) : outcome string nat :=
  if (length pattern =? 0)%nat then Panic "window size must be non-zero"
  else
    ok_or (what +:+ " not found")
      (fst <$> list_find (λ i, slice i (i + length pattern) bytes = pattern)
                 (range (length bytes + 1 - length pattern))).

Section Window.
Context `{Bellpepper}.

(** [struct Message] and [struct Window]. *)
Record Message := mkMessage { m_cells : Cells; m_region : Region; m_last : OneHot }.
Record Window := mkWindow { w_bytes : list Lc; w_offset : Lc }.

(** [Message::open]. *)
Definition message_open (cells : Cells) (region : Region) (last : option nat)
    : Synth (Message * (Lc * Lc)) :=
  last ← ns "last block" (one_hot_alloc (blocks region) last);
  digest ← mapM (λ h,
    states ← mapM (λ j, cells_state cells (first region + j) h) (range (blocks region));
    ns ("digest half " +:+ pretty h) (select last states)) (range 2);
  high ← index digest 0;
  low ← index digest 1;
  mret ({| m_cells := cells; m_region := region; m_last := last |}, (high, low)).

(** The window's chunks, and the chunks at the positions it can reach. *)
Definition window_chunks (len : nat) : nat := div_ceil (len + CHUNK_BYTES - 1) CHUNK_BYTES.
Definition reached_count (chunks : nat) : nat := chunks + CHUNKS_PER_BLOCK - 1.

(** The four stages of the shifter. *)
Definition stages {A} (shift : list A) : list (nat * (A * nat)) :=
  imap (λ stage x, (stage, x)) (zip shift [8; 4; 2; 1]).

(** [Message::read_values] up to [extend_aux]: the values it lists, and the
      window's bytes. *)
Definition window_values (m : Message) (at_ len chunks : nat) : Synth (Values * list Scalar) :=
  let n := blocks (m_region m) in
  let block := (at_ / 64)%nat in
  let chunk := (at_ mod 64 / CHUNK_BYTES)%nat in
  '(values, reached) ← foldM (λ '(values, reached) r,
    let entry b :=
      c ← cells_chunk (m_cells m) (CHUNKS_PER_BLOCK * (first (m_region m) + b) + r);
      lift (known (value c)) in
    first ← entry 0%nat;
    chosen ← (if (block <? n)%nat then entry block else mret first);
    let '(v, values) := select_values values n block
                          (λ b, if (b =? 0)%nat then first else chosen) in
    mret (values, reached ++ [v])) ([], []) (range (reached_count chunks));
  let '(values, window) := foldl (λ '(values, window) k,
    let '(value, values) := select_values values CHUNKS_PER_BLOCK chunk
                              (λ j, default ZERO (reached !! (k + j)%nat)) in
    (field_bits values value (8 * CHUNK_BYTES),
     window ++ ((λ b, from_u64 (b2z b)) <$> low_bytes value))) (values, []) (range chunks) in
  mret (foldl (λ '(values, window) '(stage, (bit, step)),
    let keep := (len + step - 1)%nat in
    let window := (λ t, default ZERO (window !! (if bit : bool then t + step else t)%nat))
                    <$> range keep in
    (if (stage <? 3)%nat then values ++ window else values, window))
    (values, window) (stages (small_bits (Z.of_nat (at_ mod CHUNK_BYTES)) 4))).

(** [Message::read_values]. *)
Definition read_values (m : Message) (at_ len chunks : nat) : Synth (list Lc) :=
  '(values, window) ← window_values m at_ len chunks;
  extend_aux values ;;
  mapM (λ byte, alloc_lc (Some byte)) window.

(** The part of [Message::read] that a witness generator skips. *)
Definition read_rules (m : Message) (block chunk : OneHot) (shift : list Boolean) (len chunks : nat)
    : Synth (list Lc) :=
  reached ← mapM (λ r,
    entries ← mapM (λ b,
      cells_chunk (m_cells m) (CHUNKS_PER_BLOCK * (first (m_region m) + b) + r))
      (range (blocks (m_region m)));
    ns ("reached " +:+ pretty r) (select block entries)) (range (reached_count chunks));
  window ← mapM (λ k,
    let entries := slice k (k + CHUNKS_PER_BLOCK) reached in
    value ← ns ("chunk " +:+ pretty k) (select chunk entries);
    chunk_bits ← ns ("chunk " +:+ pretty k +:+ " bits") (Bits.bits value (8 * CHUNK_BYTES));
    mret (bytes chunk_bits)) (range chunks);
  foldM (λ window '(stage, (b, step)),
    let keep := (len + step - 1)%nat in
    mapM (λ t,
      if0 ← index window t;
      if1 ← index window (t + step);
      ns ("shift " +:+ pretty (stage : nat) +:+ " byte " +:+ pretty t) (mux (bit b) if0 if1))
      (range keep))
    (concat window) (stages shift).

(** [Message::read]. *)
Definition message_read (m : Message) (at_ : option nat) (len : nat) : Synth Window :=
  let chunks := window_chunks len in
  block ← ns "block" (one_hot_alloc (blocks (m_region m)) ((λ a, a / 64)%nat <$> at_));
  let chunk_in_block := (λ a, a mod 64 / CHUNK_BYTES)%nat <$> at_ in
  chunk ← ns "chunk" (one_hot_alloc CHUNKS_PER_BLOCK chunk_in_block);
  shift ← ns "shift"
    (alloc_bits ((λ a, small_bits (Z.of_nat (a mod CHUNK_BYTES)) 4) <$> at_) 4);
  let offset :=
    add_lc (add_lc (scale (one_hot_index block) (from_u64 64))
                   (scale (one_hot_index chunk) (from_u64 (Z.of_nat CHUNK_BYTES))))
           (pack shift) in
  let end_of_last := scale (add_lc (one_hot_index (m_last m)) (constant ONE)) (from_u64 64) in
  let room := sub_lc (sub_lc end_of_last offset) (small (Z.of_nat len)) in
  ns "inside the signed blocks" (range_check room OFFSET_BITS) ;;
  generator ← is_witness_generator;
  if generator : bool then
    at_ ← lift (ok_or AssignmentMissing at_);
    bytes ← read_values m at_ len chunks;
    mret {| w_bytes := bytes; w_offset := offset |}
  else
    window ← read_rules m block chunk shift len chunks;
    mret {| w_bytes := window; w_offset := offset |}.
End Window.

(** * The bytes of the cells *)
Section CellBytes.
Context `{Bellpepper}.
Implicit Types f : nat → Scalar.

(** The bytes of a chunk and of a block of the table. *)
Definition chunk_bytes (f : nat → Scalar) (c : nat) : list byte := be_bytes 16 (repr (f c)).
Definition block_bytes (f : nat → Scalar) (j : nat) : list byte :=
  chunk_bytes f (4 * j) ++ chunk_bytes f (4 * j + 1) ++ chunk_bytes f (4 * j + 2) ++ chunk_bytes f (4 * j + 3).

(** Byte [i] of the table whose chunk [c] is the scalar [f c]. *)
Definition cell_byte f (i : nat) : byte :=
  default x00 (be_bytes 16 (repr (f (i / 16)%nat)) !! (i mod 16)%nat).

Lemma cell_bytes_chunk f c : cell_byte f <$> seq (16 * c) 16 = be_bytes 16 (repr (f c)).
Proof.
  apply list_eq. intros i. rewrite list_lookup_fmap. destruct (decide (i < 16)) as [L|L].
  - rewrite lookup_seq_lt by done. unfold cell_byte. cbn [fmap option_fmap option_map].
    replace (16 * c + i) with (i + c * 16) by lia.
    rewrite Nat.div_add, Nat.Div0.mod_add, Nat.div_small, Nat.mod_small by lia.
    rewrite Nat.add_0_l.
    destruct (lookup_lt_is_Some_2 (be_bytes 16 (repr (f c))) i) as [b ->]; [|done].
    by rewrite length_be_bytes.
  - rewrite lookup_seq_ge by lia. symmetry. apply lookup_ge_None. rewrite length_be_bytes. lia.
Qed.

Lemma cell_bytes_chunks f a n :
  concat ((λ k, be_bytes 16 (repr (f (a + k)))) <$> range n) = cell_byte f <$> seq (16 * a) (16 * n).
Proof.
  unfold range. induction n as [|n IH]; [done|].
  rewrite seq_S, fmap_app, concat_app, IH. cbn [fmap list_fmap concat].
  rewrite app_nil_r, <-cell_bytes_chunk, <-fmap_app. f_equal. replace (16 * S n) with (16 * n + 16) by lia.
  rewrite seq_app. do 2 f_equal. lia.
Qed.

(** The cells of a table hold the table's bytes. *)
Lemma cell_byte_table t c :
  length (t_blocks t) = POSITIONS → Forall (λ b, length b = 64) (t_blocks t) →
  c < CHUNKS_PER_BLOCK * POSITIONS →
  be_bytes 16 (repr (chunk_value t c)) = slice (16 * c) (16 * c + 16) (concat (t_blocks t)).
Proof.
  intros Hl HF Hc. unfold chunk_value. rewrite (proj2 (Nat.ltb_lt _ _)) by done.
  unfold CHUNKS_PER_BLOCK, CHUNK_BYTES, POSITIONS in *. cbv zeta.
  assert (c / 4 < 32) as Hj by (apply Nat.Div0.div_lt_upper_bound; lia).
  destruct (lookup_lt_is_Some_2 (t_blocks t) (c / 4)) as [b Eb]; [lia|].
  rewrite Eb. simpl default.
  pose proof (Forall_lookup_1 _ _ _ _ HF Eb) as Hb. simpl in Hb.
  pose proof (Nat.mod_upper_bound c 4). set (k := c mod 4) in *.
  assert (length (slice (16 * k) (16 * (k + 1)) b) = 16) as H16 by (rewrite length_slice; lia).
  rewrite from_be_of_int by lia. rewrite repr_of_int, Z.mod_small.
  2: { pose proof (be_int_range (slice (16 * k) (16 * (k + 1)) b)) as Hr. rewrite H16 in Hr.
  split; [lia|]. eapply Z.lt_trans; [apply Hr|]. by vm_compute. }
  rewrite be_bytes_be_int by done.
  rewrite <-(take_drop_middle _ _ _ Eb) at 1. rewrite concat_app. cbn [concat].
  assert (length (concat (take (c / 4) (t_blocks t))) = 64 * (c / 4)) as Ht.
  { assert (∀ l : list (list byte), Forall (λ b, length b = 64) l → length (concat l) = 64 * length l) as Hcat.
    { induction 1 as [|x l Hx _ IH]; [done|]. simpl. rewrite length_app, IH, Hx. lia. }
    rewrite Hcat by by apply Forall_take. rewrite length_take. lia. }
  pose proof (Nat.div_mod_eq c 4) as Ec. fold k in Ec.
  unfold slice. rewrite drop_app_ge by lia. rewrite Ht.
  replace (16 * c - 64 * (c / 4)) with (16 * k) by lia.
  rewrite drop_app_le by lia. rewrite take_app_le by (rewrite length_drop; lia).
  f_equal; lia.
Qed.
End CellBytes.

(** * The cells as the rules read them *)
Section CellSums.
Context `{Bellpepper} (R : Lc → Scalar → Prop).

(** Every chunk sum exists and denotes [f]; every state sum denotes [g]. *)
Definition holds_chunks (cells : Cells) (f : nat → Scalar) : Prop :=
  ∀ c, ∃ x, cells_chunk cells c = mret x ∧ R x (f c).
Definition holds_states (cells : Cells) (g : nat → nat → Scalar) : Prop :=
  ∀ j h, j < POSITIONS → h < 2 → ∃ x, cells_state cells j h = mret x ∧ R x (g j h).

(** A loop whose rounds only read. *)
Lemma mapM_reads {A B C} (f : A → Synth B) (S : B → C → Prop) (g : A → C) l :
  (∀ a, a ∈ l → ∃ b, f a = mret b ∧ S b (g a)) →
  ∃ bs, mapM f l = mret bs ∧ Forall2 S bs (g <$> l).
Proof.
  induction l as [|a l IH]; intros Hf; [by exists []|].
  destruct (Hf a) as (b & Eb & Hb); [left|].
  destruct IH as (bs & Ebs & HF); [intros; apply Hf; by right|].
  exists (b :: bs). split; [|by constructor]. cbn [mapM]. rewrite Eb, Ebs. done.
Qed.
End CellSums.

(** * The loops of the window, for both meanings of the sums *)
Section WindowSums.
Context `{Bellpepper}.

(** The chunks at the positions the window reaches. *)
Definition reached_chunk (f : nat → Scalar) (r0 b : nat) (r : nat) : Scalar :=
  f (4 * (r0 + b) + r).

Lemma slice_range {A} (g : nat → A) n a b :
  b ≤ n → slice a b (g <$> range n) = g <$> seq a (b - a).
Proof.
  intros Hb. unfold slice, range. destruct (decide (a ≤ b)).
  2: { replace (b - a) with 0 by lia. by rewrite take_0. }
  rewrite <-fmap_drop, <-fmap_take. f_equal. rewrite drop_seq, take_seq. f_equal; lia.
Qed.

Lemma lookup_range {A} (g : nat → A) n i : i < n → (g <$> range n) !! i = Some (g i).
Proof. intros Hi. unfold range. by rewrite list_lookup_fmap, lookup_seq_lt. Qed.

Lemma bytes_at (R : Lc → Scalar → Prop) xs (g : nat → byte) a n i :
  bytes_are R xs (g <$> seq a n) → i < n → ∃ x, xs !! i = Some x ∧ R x (of_int (b2z (g (a + i)))).
Proof.
  intros HF Hi. assert ((g <$> seq a n) !! i = Some (g (a + i))) as E
    by by rewrite list_lookup_fmap, lookup_seq_lt.
  destruct (Forall2_lookup_r _ _ _ _ _ HF E) as (x & Ex & Hx). by exists x.
Qed.

Lemma Forall2_concat {A B} (S : A → B → Prop) xs ys :
  Forall2 (Forall2 S) xs ys → Forall2 S (concat xs) (concat ys).
Proof. induction 1; [constructor|]. by apply Forall2_app. Qed.

Lemma window_chunks_enough len : len + 15 ≤ 16 * window_chunks len.
Proof.
  unfold window_chunks, div_ceil, CHUNK_BYTES.
  pose proof (Nat.div_mod_eq (len + 16 - 1 + 16 - 1) 16).
  pose proof (Nat.mod_upper_bound (len + 16 - 1 + 16 - 1) 16). lia.
Qed.
End WindowSums.

(** * What the rules force *)
Section WindowRules.
Context `{Bellpepper} (σ : Assignment).
Add Field scalar_field : scalar_field_theory (morphism of_int_morph, constants [scalar_const]).
Local Abbreviation D := (denotes σ).

(** The reached chunks are the table's from the selected block on. *)
Lemma gadget_reached cells r block k f n :
  holds_chunks D cells f → selects D block (blocks r) k →
  gadget σ (mapM (λ i,
    entries ← mapM (λ b, cells_chunk cells (CHUNKS_PER_BLOCK * (first r + b) + i))
                (range (blocks r));
    ns ("reached " +:+ pretty i) (select block entries)) (range n))
    (λ xs, Forall2 D xs (reached_chunk f (first r) k <$> range n)).
Proof.
  intros Hf Hs. eapply gadget_mono.
  { apply (gadget_mapM_Forall2 σ _ _ (λ i x, D x (reached_chunk f (first r) k i))). intros i _.
    destruct (mapM_reads (λ b, cells_chunk cells (CHUNKS_PER_BLOCK * (first r + b) + i)) D
      (λ b, reached_chunk f (first r) b i) (range (blocks r))) as (xs & -> & HF).
    { intros b _. apply Hf. }
    apply (gadget_bind _ _ _ (λ x, x = xs)); [by apply gadget_ret|]. intros ? ->. apply gadget_ns.
    eapply gadget_mono; [eapply gadget_select; [exact Hs|exact HF|]|].
    - unfold range. by rewrite length_fmap, length_seq.
    - intros x E. unfold denotes. rewrite E. destruct Hs as [Hk _].
      by rewrite lookup_range by done. }
  intros xs HF. apply Forall2_fmap_r. eapply Forall2_flip, Forall2_impl; [exact HF|done].
Qed.

(** The bytes of the chunks from the selected one on. *)
Lemma gadget_window_bytes reached chunk c f chunks :
  Forall2 D reached (f <$> range (reached_count chunks)) → selects D chunk CHUNKS_PER_BLOCK c →
  gadget σ (mapM (λ k,
    let entries := slice k (k + CHUNKS_PER_BLOCK) reached in
    value ← ns ("chunk " +:+ pretty k) (select chunk entries);
    chunk_bits ← ns ("chunk " +:+ pretty k +:+ " bits") (Bits.bits value (8 * CHUNK_BYTES));
    mret (bytes chunk_bits)) (range chunks))
    (λ xs, bytes_are D (concat xs) (cell_byte f <$> seq (16 * c) (16 * chunks))).
Proof.
  intros HR Hs. eapply gadget_mono.
  { apply (gadget_mapM_Forall2 σ _ _ (λ k x, bytes_are D x (be_bytes 16 (repr (f (c + k)))))).
    intros k Hk%elem_of_seq. assert (c < 4) as Hc by apply Hs.
    eapply gadget_bind.
    { apply gadget_ns. eapply gadget_select; [exact Hs| |].
      - unfold slice. eapply Forall2_take, Forall2_drop, HR.
      - change (take ?a (drop ?b ?l)) with (take a (drop b l)).
        rewrite length_take, length_drop, length_fmap. unfold range, reached_count, CHUNKS_PER_BLOCK in *.
        rewrite length_seq. lia. }
    intros v Ev.
    change (take (k + CHUNKS_PER_BLOCK - k) (drop k ?l)) with (slice k (k + CHUNKS_PER_BLOCK) l) in Ev.
    rewrite slice_range in Ev by (unfold reached_count, CHUNKS_PER_BLOCK in *; lia).
    rewrite list_lookup_fmap, lookup_seq_lt in Ev by (unfold CHUNKS_PER_BLOCK; lia).
    cbn [fmap option_fmap option_map default] in Ev.
    eapply gadget_bind; [apply gadget_ns, gadget_bits; unfold CHUNK_BYTES; lia|].
    intros bs [HF _]. apply gadget_ret.
    apply (bytes_sem _). rewrite bind_byte_bits_be_bytes, Nat.add_comm. unfold id in Ev. rewrite <-Ev. exact HF. }
  intros xs HF. rewrite <-cell_bytes_chunks. unfold bytes_are.
  apply Forall2_concat, Forall2_fmap_r. eapply Forall2_flip, Forall2_impl; [exact HF|done].
Qed.

(** One stage of the shifter. *)
Lemma gadget_stage xs (g : nat → byte) a n b (v : bool) step keep (name : nat → string) :
  bytes_are D xs (g <$> seq a n) → keep + step ≤ n → D (bit b) (of_bool v) →
  gadget σ (mapM (λ t, if0 ← index xs t; if1 ← index xs (t + step);
                       ns (name t) (mux (bit b) if0 if1)) (range keep))
    (λ ys, bytes_are D ys (g <$> seq (a + if v then step else 0) keep)).
Proof.
  intros HF Hn Hb. eapply gadget_mono.
  { apply (gadget_mapM_Forall2 σ _ _
      (λ t y, D y (of_int (b2z (g (a + (if v then step else 0) + t)))))).
    intros t Ht%elem_of_seq.
    destruct (bytes_at _ _ _ _ _ t HF) as (x & Ex & Hx); [lia|].
    destruct (bytes_at _ _ _ _ _ (t + step) HF) as (y & Ey & Hy); [lia|].
    eapply gadget_bind; [by apply gadget_index_nth|]. intros ? ->.
    eapply gadget_bind; [by apply gadget_index_nth|]. intros ? ->.
    eapply gadget_mono; [apply gadget_ns, gadget_mux|]. intros z Ez. unfold denotes in *.
    rewrite Ez, Hb, Hx, Hy. destruct v; simpl of_bool.
    - replace (a + step + t) with (a + (t + step)) by lia. ring.
    - replace (a + 0 + t) with (a + t) by lia. ring. }
  intros ys HF'. apply Forall2_fmap_r. rewrite <-(Nat.add_0_r (a + _)), <-fmap_add_seq.
  apply Forall2_fmap_r. eapply Forall2_flip, Forall2_impl; [exact HF'|done].
Qed.
End WindowRules.

(** * The whole window *)
Section ReadRules.
Context `{Bellpepper} (σ : Assignment).
Add Field scalar_field : scalar_field_theory (morphism of_int_morph, constants [scalar_const]).
Local Abbreviation D := (denotes σ).

(** The shifter drops as many bytes as its bits write. *)
Lemma gadget_shifter xs (g : nat → byte) a n shift vs len :
  bytes_are D xs (g <$> seq a n) → len + 15 ≤ n → bits_are D shift vs → length vs = 4 →
  gadget σ (foldM (λ window '(stage, (b, step)),
    let keep := (len + step - 1)%nat in
    mapM (λ t,
      if0 ← index window t;
      if1 ← index window (t + step);
      ns ("shift " +:+ pretty (stage : nat) +:+ " byte " +:+ pretty t) (mux (bit b) if0 if1))
      (range keep)) xs (stages shift))
    (λ ys, bytes_are D ys (g <$> seq (a + Z.to_nat (bits_int vs)) len)).
Proof.
  intros HF Hn Hb Hl. pose proof (Forall2_length _ _ _ Hb) as Hs.
  destruct vs as [|v1 [|v2 [|v3 [|v4 [|]]]]]; try done.
  destruct shift as [|b1 [|b2 [|b3 [|b4 [|]]]]]; try done.
  apply Forall2_cons in Hb as [H1' Hb]. apply Forall2_cons in Hb as [H2' Hb].
  apply Forall2_cons in Hb as [H3' Hb]. apply Forall2_cons in Hb as [H4' _].
  unfold stages. cbn [zip zip_with imap compose foldM].
  eapply gadget_bind; [eapply (gadget_stage σ xs g a n b1 v1 8); [done|lia|done]|]. intros w1 F1.
  eapply gadget_bind; [eapply (gadget_stage σ w1 g _ _ b2 v2 4); [exact F1|lia|done]|]. intros w2 F2.
  eapply gadget_bind; [eapply (gadget_stage σ w2 g _ _ b3 v3 2); [exact F2|lia|done]|]. intros w3 F3.
  eapply gadget_bind; [eapply (gadget_stage σ w3 g _ _ b4 v4 1); [exact F3|lia|done]|]. intros w4 F4.
  apply gadget_ret. replace (len + 1 - 1) with len in F4 by lia.
  replace (a + Z.to_nat (bits_int [v1; v2; v3; v4]))
    with (a + (if v1 then 8 else 0) + (if v2 then 4 else 0) + (if v3 then 2 else 0)
  + (if v4 then 1 else 0)); [exact F4|].
    destruct v1, v2, v3, v4; vm_compute Z.to_nat; lia.
Qed.

Lemma gadget_read_rules m block chunk shift len f k c vs :
  holds_chunks D (m_cells m) f →
  selects D block (blocks (m_region m)) k → selects D chunk CHUNKS_PER_BLOCK c →
  bits_are D shift vs → length vs = 4 →
  gadget σ (read_rules m block chunk shift len (window_chunks len)) (λ xs,
    bytes_are D xs (cell_byte f <$>
      seq (64 * first (m_region m) + (64 * k + 16 * c + Z.to_nat (bits_int vs))) len)).
Proof.
  intros Hf Hk Hc Hs Hl. unfold read_rules.
  eapply gadget_bind; [eapply gadget_reached; [exact Hf|exact Hk]|]. intros reached HR.
  eapply gadget_bind; [eapply gadget_window_bytes; [exact HR|exact Hc]|]. intros window HW.
  set (r0 := first (m_region m)) in *.
  assert (∀ i n, cell_byte (reached_chunk f r0 k) <$> seq i n
    = cell_byte f <$> seq (64 * (r0 + k) + i) n) as Ecell.
  { intros i n. rewrite <-fmap_add_seq, <-list_fmap_compose. apply list_fmap_ext. intros _ j _.
    unfold compose, cell_byte, reached_chunk.
    replace (64 * (r0 + k) + j) with (j + (4 * (r0 + k)) * 16) by lia.
    rewrite Nat.div_add, Nat.Div0.mod_add by lia. by rewrite (Nat.add_comm (j / 16)). }
  eapply gadget_mono.
  { eapply gadget_shifter; [exact HW|apply window_chunks_enough|exact Hs|exact Hl]. }
  intros xs HF. rewrite Ecell in HF. unfold denotes in *.
  replace (64 * r0 + (64 * k + 16 * c + Z.to_nat (bits_int vs)))
    with (64 * (r0 + k) + (16 * c + Z.to_nat (bits_int vs))) by lia. exact HF.
Qed.

(** The offset and the room left, as integers. *)
Lemma small_range_nonneg z n : n < 256 → (- 2 ^ 255 < z < 2 ^ 255)%Z →
  (repr (of_int z) < 2 ^ Z.of_nat n)%Z → (2 ^ Z.of_nat n ≤ 2 ^ 16)%Z → (0 ≤ z)%Z.
Proof.
  intros Hn Hz Hr H16. rewrite repr_of_int in Hr. destruct (Z.leb_spec 0 z); [done|].
  exfalso. rewrite <-(Z.mod_unique z p (-1) (z + p)) in Hr.
  - assert (2 ^ 255 + 2 ^ 16 < p)%Z by by vm_compute. lia.
  - left. assert (2 ^ 255 < p)%Z by by vm_compute. lia.
  - lia.
Qed.

Lemma gadget_message_read m at_ len f last :
  (Z.of_nat (blocks (m_region m)) ≤ 2 ^ 16)%Z → (Z.of_nat len ≤ 2 ^ 16)%Z →
  holds_chunks D (m_cells m) f → selects D (m_last m) (blocks (m_region m)) last →
  gadget σ (message_read m at_ len) (λ w, ∃ at_,
    at_ + len ≤ 64 * (last + 1) ∧ D (w_offset w) (of_int (Z.of_nat at_)) ∧
    bytes_are D (w_bytes w) (cell_byte f <$> seq (64 * first (m_region m) + at_) len)).
Proof.
  intros Hn Hlen Hf Hlast. set (n := blocks (m_region m)) in *.
  assert (∀ i, Z.of_nat i ≤ 2 ^ 16 → Z.of_nat i < 2 ^ 64)%Z as H64 by (intros; lia).
  assert (∀ i, Z.of_nat i ≤ 2 ^ 16 → Z.of_nat i < p)%Z as Hp.
  { intros. assert (2 ^ 16 < p)%Z by by vm_compute. lia. }
  unfold message_read. fold n.
  eapply gadget_bind; [apply gadget_ns, gadget_one_hot_alloc, Hp, Hn|]. intros block [k Hk].
  eapply gadget_bind; [apply gadget_ns, gadget_one_hot_alloc; by vm_compute|]. intros chunk [c Hc].
  eapply gadget_bind; [apply gadget_ns, gadget_alloc_bits|].
  { intros bs. destruct at_; [|done]. intros [= <-]. by vm_compute. }
  intros shift (vs & Hs & Hl).
  pose proof (index_sem D _ _ _ (H64 _ Hn) Hk) as Ek.
  pose proof (index_sem D _ _ _ (eq_refl : (Z.of_nat CHUNKS_PER_BLOCK < 2 ^ 64)%Z) Hc) as Ec.
  pose proof (index_sem D _ _ _ (H64 _ Hn) Hlast) as El.
  pose proof (pack_sem D _ _ Hs) as Es. pose proof (bits_int_range vs) as Hr.
  rewrite Hl in Hr. change (2 ^ Z.of_nat 4)%Z with 16%Z in Hr.
  set (off := Z.of_nat (64 * k + 16 * c + Z.to_nat (bits_int vs))).
  match goal with |- context [sub_lc (sub_lc _ ?o) _] => set (offset := o) end.
  assert (D offset (of_int off)) as Eo.
  { unfold offset, denotes in *. rewrite !lval_add, !lval_scale, Ek, Ec, Es.
    rewrite !from_u64_of_int by (unfold CHUNK_BYTES; lia). unfold off, CHUNK_BYTES.
    rewrite !Nat2Z.inj_add, !Nat2Z.inj_mul, Z2Nat.id by lia.
    rewrite !of_int_add, !of_int_mul. ring. }
  destruct Hk as [Lk HFk]. destruct Hc as [Lc HFc]. destruct Hlast as [Ll _].
  unfold CHUNKS_PER_BLOCK in Lc.
  eapply gadget_bind; [apply gadget_ns, gadget_range_check; unfold OFFSET_BITS; lia|].
  intros [] Hroom.
  assert (64 * k + 16 * c + Z.to_nat (bits_int vs) + len ≤ 64 * (last + 1)) as Hin.
  { rewrite !lval_sub, lval_scale, lval_add, lval_constant, lval_small in Hroom by lia.
    unfold denotes in *. rewrite El, Eo, from_u64_of_int, <-of_int_1, <-of_int_add, <-of_int_mul,
      <-!of_int_sub in Hroom by lia.
    apply small_range_nonneg in Hroom; unfold OFFSET_BITS in *; [|lia|..|by vm_compute];
      unfold off in *; lia. }
  step gadget_is_witness_generator as ? ->.
  eapply gadget_bind; [by eapply gadget_read_rules|]. intros window HW.
  apply gadget_ret. eexists. split; [exact Hin|]. split; [exact Eo|exact HW].
Qed.

(** The digest halves are the state after the selected last block. *)
Lemma gadget_message_open cells region last g :
  (Z.of_nat (blocks region) < p)%Z → first region + blocks region ≤ POSITIONS →
  holds_states D cells g →
  gadget σ (message_open cells region last) (λ '(m, (high, low)), ∃ k,
    m_cells m = cells ∧ m_region m = region ∧ selects D (m_last m) (blocks region) k ∧
    D high (g (first region + k) 0) ∧ D low (g (first region + k) 1)).
Proof.
  intros Hn Hin Hg. unfold message_open.
  eapply gadget_bind; [by apply gadget_ns, gadget_one_hot_alloc|]. intros o [k Ho].
  eapply gadget_bind.
  { apply (gadget_mapM_Forall2 σ _ _ (λ h x, D x (g (first region + k) h))). intros h Hh%elem_of_seq.
    destruct (mapM_reads (λ j, cells_state cells (first region + j) h) D
      (λ j, g (first region + j) h) (range (blocks region))) as (xs & -> & HF).
    { intros j Hj%elem_of_seq. apply Hg; lia. }
    apply (gadget_bind _ _ _ (λ x, x = xs)); [by apply gadget_ret|]. intros ? ->. apply gadget_ns.
    eapply gadget_mono; [eapply gadget_select; [exact Ho|exact HF|]|].
    - unfold range. by rewrite length_fmap, length_seq.
    - intros x E. unfold denotes. rewrite E. destruct Ho as [Hk _]. by rewrite lookup_range. }
  intros digest HF. apply Forall2_cons_inv_l in HF as (high & d1 & Hh & HF & ->).
  apply Forall2_cons_inv_l in HF as (low & d2 & Hl & HF & ->).
  eapply gadget_bind; [by apply gadget_index_nth|]. intros ? ->.
  eapply gadget_bind; [by apply gadget_index_nth|]. intros ? ->.
  apply gadget_ret. by exists k.
Qed.
End ReadRules.

(** * Honest runs *)
Section WindowHonest.
Context `{Bellpepper}.
Add Field scalar_field : scalar_field_theory (morphism of_int_morph, constants [scalar_const]).

(** A loop whose rounds are related to their elements one by one. *)
Lemma emits_mapM_Forall2 {A B} (f : A → Synth B) (vals : A → list Scalar) l s
    (K : Store → Prop) (S : Store → A → B → Prop) :
  (∀ s vs, K s → K (push s vs)) → (∀ s vs a b, S s a b → S (push s vs) a b) → K s →
  (∀ x s', x ∈ l → K s' → emits (f x) s' (vals x) (λ y s'', S s'' x y)) →
  emits (mapM f l) s (l ≫= vals) (λ ys s', K s' ∧ Forall2 (S s') l ys).
Proof.
  intros HK HS Hs Hf.
  apply (emits_mapM f vals l s (λ done ys s', K s' ∧ Forall2 (S s') done ys)); [by split|].
  intros done x ys s' Hp [Hs' HF]. apply prefix_snoc_lookup in Hp as [Hx _].
  eapply emits_mono; [apply Hf; [by eapply list_elem_of_lookup_2|done]|].
  intros y Hy. split; [by apply HK|]. apply Forall2_app; [|by constructor].
  eapply Forall2_impl; [exact HF|]. intros. by apply HS.
Qed.

Lemma holds_chunks_push s vs cells f :
  holds_chunks (knows s) cells f → holds_chunks (knows (push s vs)) cells f.
Proof. intros Hf c. destruct (Hf c) as (x & E & K). exists x. split; [done|by apply knows_push]. Qed.

Definition byte_scalars (l : list byte) : list Scalar := (λ b, of_int (b2z b)) <$> l.

Lemma bytes_are_values s xs l : bytes_are (knows s) xs l → value <$> xs = Some <$> byte_scalars l.
Proof.
  revert xs. induction l as [|b l IH]; intros xs HB.
  - by apply Forall2_nil_inv_r in HB as ->.
  - apply Forall2_cons_inv_r in HB as (x & xs' & [Hx _] & HB & ->). cbn [fmap list_fmap byte_scalars].
    rewrite Hx, (IH xs' HB). done.
Qed.

(** The entries the block selector reads at position [i] of the window. *)
Definition block_entries (f : nat → Scalar) (r : Region) (i : nat) : list Scalar :=
  (λ b, reached_chunk f (first r) b i) <$> range (blocks r).

Lemma emits_reached s cells r block k f n :
  has_one s → holds_chunks (knows s) cells f → selects (knows s) block (blocks r) k →
  emits (mapM (λ i,
    entries ← mapM (λ b, cells_chunk cells (CHUNKS_PER_BLOCK * (first r + b) + i))
                (range (blocks r));
    ns ("reached " +:+ pretty i) (select block entries)) (range n)) s
    (range n ≫= λ i, products (block_entries f r i) k (blocks r - 1))
    (λ xs s', Forall2 (knows s') xs (reached_chunk f (first r) k <$> range n)).
Proof.
  intros Ho Hf Hs. eapply emits_mono.
  { apply (emits_mapM_Forall2 _ _ _ _
      (λ s, has_one s ∧ holds_chunks (knows s) cells f ∧ selects (knows s) block (blocks r) k)
      (λ s i x, knows s x (reached_chunk f (first r) k i))).
    - intros s' vs (? & ? & ?). split_and!; [done|by apply holds_chunks_push|by apply selects_push].
    - intros. by apply knows_push.
    - done.
    - intros i s' _ (Ho' & Hf' & Hs').
      destruct (mapM_reads (λ b, cells_chunk cells (CHUNKS_PER_BLOCK * (first r + b) + i)) (knows s')
        (λ b, reached_chunk f (first r) b i) (range (blocks r))) as (xs & -> & HF).
      { intros b _. apply Hf'. }
      eapply (emits_bind_l _ _ _ _ (λ x _, x = xs)); [by apply emits_ret|]. intros ? ->. apply emits_ns.
      assert (length (block_entries f r i) = blocks r) as Hl
        by (unfold block_entries, range; by rewrite length_fmap, length_seq).
      pose proof (emits_select s' block (blocks r) k xs (block_entries f r i) Ho' Hs' HF Hl) as E.
      destruct Hs' as [Hk _]. rewrite select_values_products in E by done.
      eapply emits_mono; [exact E|]. intros x Kx. unfold block_entries in Kx.
      by rewrite lookup_range in Kx. }
  intros xs [_ HF]. apply Forall2_fmap_r. eapply Forall2_flip, Forall2_impl; [exact HF|done].
Qed.

Lemma emits_window_bytes s reached chunk c f chunks :
  has_one s → Forall2 (knows s) reached (f <$> range (reached_count chunks)) →
  selects (knows s) chunk CHUNKS_PER_BLOCK c → (∀ i, (repr (f i) < 2 ^ 128)%Z) →
  emits (mapM (λ k,
    let entries := slice k (k + CHUNKS_PER_BLOCK) reached in
    value ← ns ("chunk " +:+ pretty k) (select chunk entries);
    chunk_bits ← ns ("chunk " +:+ pretty k +:+ " bits") (Bits.bits value (8 * CHUNK_BYTES));
    mret (bytes chunk_bits)) (range chunks)) s
    (range chunks ≫= λ k, products (f <$> seq k CHUNKS_PER_BLOCK) c 3
                          ++ (of_bool <$> int_bits 128 (repr (f (c + k)))))
    (λ xs s', bytes_are (knows s') (concat xs) (cell_byte f <$> seq (16 * c) (16 * chunks))).
Proof.
  intros Ho HR Hs Hr. eapply emits_mono.
  { apply (emits_mapM_Forall2 _ _ _ _
      (λ s, has_one s ∧ Forall2 (knows s) reached (f <$> range (reached_count chunks)) ∧
      selects (knows s) chunk CHUNKS_PER_BLOCK c)
      (λ s k x, bytes_are (knows s) x (be_bytes 16 (repr (f (c + k)))))).
    - intros s' vs (? & HR' & ?). split_and!; [done| |by apply selects_push].
      eapply Forall2_impl; [exact HR'|]. intros. by apply knows_push.
    - intros. by apply bytes_are_push.
    - done.
    - intros k s' Hk%elem_of_seq (Ho' & HR' & Hs'). assert (c < 4) as Hc by apply Hs.
      assert (Forall2 (knows s') (slice k (k + CHUNKS_PER_BLOCK) reached)
        (f <$> seq k CHUNKS_PER_BLOCK)) as HE.
      { assert (f <$> seq k CHUNKS_PER_BLOCK = slice k (k + CHUNKS_PER_BLOCK)
          (f <$> range (reached_count chunks))) as ->.
        { rewrite slice_range by (unfold reached_count, CHUNKS_PER_BLOCK; lia).
          by replace (k + CHUNKS_PER_BLOCK - k) with CHUNKS_PER_BLOCK by lia. }
        unfold slice. by apply Forall2_take, Forall2_drop. }
      eapply emits_bind.
      { pose proof (emits_select s' chunk CHUNKS_PER_BLOCK c _ _ Ho' Hs' HE) as E.
        rewrite length_fmap, length_seq in E. specialize (E eq_refl).
        rewrite select_values_products in E by (rewrite ?length_fmap, ?length_seq; done).
        apply emits_ns, E. }
      intros v Kv. rewrite list_lookup_fmap, lookup_seq_lt in Kv by done.
      cbn [fmap option_fmap option_map default] in Kv. rewrite (Nat.add_comm k c) in Kv.
      eapply emits_bind_r.
      { apply emits_ns, emits_bits; [by apply has_one_push|unfold CHUNK_BYTES; lia|exact Kv|apply Hr]. }
      intros bs HF. apply emits_ret. eapply (bytes_sem _ (sem := knows_sem (push (push s' _) _) Ho')).
      rewrite bind_byte_bits_be_bytes. exact HF. }
  intros xs [_ HF]. rewrite <-cell_bytes_chunks. unfold bytes_are.
  apply Forall2_concat, Forall2_fmap_r. eapply Forall2_flip, Forall2_impl; [exact HF|done].
Qed.

Lemma emits_stage s xs (g : nat → byte) a n b (v : bool) step keep (name : nat → string) :
  bytes_are (knows s) xs (g <$> seq a n) → keep + step ≤ n → knows s (bit b) (of_bool v) →
  emits (mapM (λ t, if0 ← index xs t; if1 ← index xs (t + step);
                    ns (name t) (mux (bit b) if0 if1)) (range keep)) s
    (byte_scalars (g <$> seq (a + if v then step else 0) keep))
    (λ ys s', bytes_are (knows s') ys (g <$> seq (a + if v then step else 0) keep)).
Proof.
  intros HF Hn Hb. set (a' := a + if v then step else 0).
  assert (byte_scalars (g <$> seq a' keep)
    = range keep ≫= λ t, [of_int (b2z (g (a' + t)))]) as ->.
  { rewrite bind_singleton. unfold byte_scalars, range.
    rewrite <-(Nat.add_0_r a'), <-fmap_add_seq, <-!list_fmap_compose.
    apply list_fmap_ext. intros _ t _. unfold compose. by rewrite Nat.add_0_r. }
  eapply emits_mono.
  { apply (emits_mapM_Forall2 _ _ _ _
      (λ s, bytes_are (knows s) xs (g <$> seq a n) ∧ knows s (bit b) (of_bool v))
      (λ s t y, knows s y (of_int (b2z (g (a' + t)))))).
    - intros s' vs [? ?]. split; [by apply bytes_are_push|by apply knows_push].
    - intros. by apply knows_push.
    - done.
    - intros t s' Ht%elem_of_seq [HF' Hb'].
      destruct (bytes_at _ _ _ _ _ t HF') as (x & Ex & Hx); [lia|].
      destruct (bytes_at _ _ _ _ _ (t + step) HF') as (y & Ey & Hy); [lia|].
      unfold index. rewrite Ex, Ey.
      eapply (emits_bind_l _ _ _ _ (λ z _, z = x)); [by apply emits_ret|]. intros ? ->.
      eapply (emits_bind_l _ _ _ _ (λ z _, z = y)); [by apply emits_ret|]. intros ? ->.
      assert (of_int (b2z (g (a' + t)%nat))
        = of_int (b2z (g (a + t)%nat))
      + of_bool v * (of_int (b2z (g (a + (t + step))%nat)) - of_int (b2z (g (a + t)%nat))))%S as ->.
        { unfold a'. destruct v; simpl of_bool.
          - replace (a + step + t) with (a + (t + step)) by lia. ring.
          - replace (a + 0 + t) with (a + t) by lia. ring. }
        apply emits_ns, emits_mux; done. }
  intros ys [_ HF']. apply Forall2_fmap_r. rewrite <-(Nat.add_0_r a'), <-fmap_add_seq.
  apply Forall2_fmap_r. eapply Forall2_flip, Forall2_impl; [exact HF'|].
  intros ? ? ?. by rewrite Nat.add_0_r.
Qed.
End WindowHonest.

(** * The native values *)
Section WindowNative.
Context `{Bellpepper}.
Add Field scalar_field : scalar_field_theory (morphism of_int_morph, constants [scalar_const]).

(** The bytes after each stage of the shifter. *)
Definition shift_outputs (g : nat → byte) (a : nat) (vs : list bool) (len : nat) : list (list byte) :=
  match vs with
  | [v1; v2; v3; v4] =>
      let a1 := (a + if v1 then 8 else 0)%nat in
      let a2 := (a1 + if v2 then 4 else 0)%nat in
      let a3 := (a2 + if v3 then 2 else 0)%nat in
      let a4 := (a3 + if v4 then 1 else 0)%nat in
      [g <$> seq a1 (len + 8 - 1); g <$> seq a2 (len + 4 - 1);
       g <$> seq a3 (len + 2 - 1); g <$> seq a4 (len + 1 - 1)]
  | _ => []
  end.

Lemma emits_shifter s xs (g : nat → byte) a n shift vs len :
  bytes_are (knows s) xs (g <$> seq a n) → len + 15 ≤ n → bits_are (knows s) shift vs →
  length vs = 4 →
  emits (foldM (λ window '(stage, (b, step)),
    let keep := (len + step - 1)%nat in
    mapM (λ t,
      if0 ← index window t;
      if1 ← index window (t + step);
      ns ("shift " +:+ pretty (stage : nat) +:+ " byte " +:+ pretty t) (mux (bit b) if0 if1))
      (range keep)) xs (stages shift)) s
    (byte_scalars (concat (shift_outputs g a vs len)))
    (λ ys s', bytes_are (knows s') ys (g <$> seq (a + Z.to_nat (bits_int vs)) len)).
Proof.
  intros HF Hn Hb Hl. pose proof (Forall2_length _ _ _ Hb) as Hs.
  destruct vs as [|v1 [|v2 [|v3 [|v4 [|]]]]]; try done.
  destruct shift as [|b1 [|b2 [|b3 [|b4 [|]]]]]; try done.
  apply Forall2_cons in Hb as [H1' Hb]. apply Forall2_cons in Hb as [H2' Hb].
  apply Forall2_cons in Hb as [H3' Hb]. apply Forall2_cons in Hb as [H4' _].
  assert (byte_scalars (concat (shift_outputs g a [v1; v2; v3; v4] len))
    = byte_scalars (g <$> seq (a + (if v1 then 8 else 0)) (len + 8 - 1))
  ++ byte_scalars (g <$> seq (a + (if v1 then 8 else 0) + (if v2 then 4 else 0)) (len + 4 - 1))
  ++ byte_scalars (g <$> seq (a + (if v1 then 8 else 0) + (if v2 then 4 else 0)
    + (if v3 then 2 else 0)) (len + 2 - 1))
  ++ byte_scalars (g <$> seq (a + (if v1 then 8 else 0) + (if v2 then 4 else 0)
    + (if v3 then 2 else 0) + (if v4 then 1 else 0)) (len + 1 - 1))) as ->.
      { unfold byte_scalars. rewrite <-!fmap_app. f_equal.
        unfold shift_outputs. cbv zeta. cbn [concat]. by rewrite app_nil_r, !fmap_app. }
      unfold stages. cbn [zip zip_with imap compose foldM].
      eapply emits_bind; [eapply (emits_stage s xs g a n b1 v1 8); [done|lia|done]|]. intros w1 F1.
      eapply emits_bind; [eapply (emits_stage _ w1 g _ _ b2 v2 4); [exact F1|lia|by apply knows_push]|].
      intros w2 F2.
      eapply emits_bind;
        [eapply (emits_stage _ w2 g _ _ b3 v3 2); [exact F2|lia|by do 2 apply knows_push]|]. intros w3 F3.
      eapply emits_bind_r;
        [eapply (emits_stage _ w3 g _ _ b4 v4 1); [exact F3|lia|by do 3 apply knows_push]|]. intros w4 F4.
      apply emits_ret. replace (len + 1 - 1) with len in F4 by lia. cbv beta in F4.
      replace (a + Z.to_nat (bits_int [v1; v2; v3; v4]))
        with (a + (if v1 then 8 else 0) + (if v2 then 4 else 0) + (if v3 then 2 else 0)
    + (if v4 then 1 else 0)).
      - replace (len + 1 - 1) with len by lia. exact F4.
      - destruct v1, v2, v3, v4; vm_compute Z.to_nat; lia.
Qed.

(** The native stage takes the bytes the rules choose. *)
Lemma native_stage (g : nat → byte) a n (v : bool) step keep :
  keep + step ≤ n →
  (λ t, default ZERO (byte_scalars (g <$> seq a n) !! (if v then t + step else t)%nat)) <$> range keep
  = byte_scalars (g <$> seq (a + if v then step else 0) keep).
Proof.
  intros Hn. unfold byte_scalars, range. set (a' := a + _).
  rewrite <-(Nat.add_0_r a'), <-fmap_add_seq, <-!list_fmap_compose.
  apply list_fmap_ext. intros i t Ht%list_elem_of_lookup_2%elem_of_seq. unfold compose, a'.
  rewrite !list_lookup_fmap.
  rewrite lookup_seq_lt by (destruct v; lia). cbn [fmap option_fmap option_map default].
  unfold id. do 3 f_equal. destruct v; lia.
Qed.

Lemma select_values_ext values n k (e e' : nat → Scalar) :
  e 0 = e' 0 → e k = e' k → select_values values n k e = select_values values n k e'.
Proof. intros E0 Ek. unfold select_values. by rewrite E0, Ek. Qed.

(** Loops that append to two lists. *)
Lemma foldM_appends {A B C} (f : list A * list B → C → Synth (list A * list B)) P Q l acc :
  (∀ acc x, x ∈ l → f acc x = mret (acc.1 ++ P x, acc.2 ++ Q x)) →
  foldM f acc l = mret (acc.1 ++ (l ≫= P), acc.2 ++ (l ≫= Q)).
Proof.
  revert acc. induction l as [|x l IH]; intros acc Hf.
  - rewrite !app_nil_r. by destruct acc.
  - cbn [foldM]. rewrite (Hf acc x) by left. cbn [mbind synth_mbind synth_bind mret synth_mret].
    rewrite IH by (intros; apply Hf; by right). by rewrite !bind_cons, !app_assoc.
Qed.
Lemma foldl_appends {A B C} (f : list A * list B → C → list A * list B) P Q l acc :
  (∀ acc x, x ∈ l → f acc x = (acc.1 ++ P x, acc.2 ++ Q x)) →
  foldl f acc l = (acc.1 ++ (l ≫= P), acc.2 ++ (l ≫= Q)).
Proof.
  revert acc. induction l as [|x l IH]; intros acc Hf.
  - rewrite !app_nil_r. by destruct acc.
  - cbn [foldl]. rewrite (Hf acc x) by left.
    rewrite IH by (intros; apply Hf; by right). by rewrite !bind_cons, !app_assoc.
Qed.

(** What the rules allocate after the range check, in closed form. *)
Definition rule_values (f : nat → Scalar) (r : Region) (k c : nat) (vs : list bool) (len : nat)
    : list Scalar :=
  let fk := reached_chunk f (first r) k in
  (range (reached_count (window_chunks len)) ≫= λ i, products (block_entries f r i) k (blocks r - 1))
  ++ (range (window_chunks len) ≫= λ i, products (fk <$> seq i CHUNKS_PER_BLOCK) c 3
        ++ (of_bool <$> int_bits 128 (repr (fk (c + i)))))
  ++ byte_scalars (concat (shift_outputs (cell_byte fk) (16 * c) vs len)).

Lemma emits_read_rules s m block chunk shift len f k c vs :
  has_one s → holds_chunks (knows s) (m_cells m) f → (∀ i, (repr (f i) < 2 ^ 128)%Z) →
  selects (knows s) block (blocks (m_region m)) k → selects (knows s) chunk CHUNKS_PER_BLOCK c →
  bits_are (knows s) shift vs → length vs = 4 →
  emits (read_rules m block chunk shift len (window_chunks len)) s
    (rule_values f (m_region m) k c vs len) (λ xs s',
    bytes_are (knows s') xs (cell_byte (reached_chunk f (first (m_region m)) k)
                               <$> seq (16 * c + Z.to_nat (bits_int vs)) len)).
Proof.
  intros Ho Hf Hr Hk Hc Hs Hl. unfold read_rules, rule_values.
  eapply emits_bind; [by apply emits_reached|]. intros reached HR.
  eapply emits_bind.
  { eapply emits_window_bytes; [by apply has_one_push|exact HR|by apply selects_push|].
    intros i. apply Hr. }
  intros window HW. eapply emits_shifter; [exact HW|apply window_chunks_enough| |exact Hl].
  by do 2 apply bits_are_push.
Qed.
End WindowNative.

Section WindowValues.
Context `{Bellpepper}.
Add Field scalar_field : scalar_field_theory (morphism of_int_morph, constants [scalar_const]).

(** The native values are those the rules allocate, and the native bytes are
      the window's. *)
Lemma window_values_closed s m f a len :
  let n := blocks (m_region m) in
  let vs := small_bits (Z.of_nat (a mod CHUNK_BYTES)) 4 in
  let k := (a / 64)%nat in
  let c := (a mod 64 / CHUNK_BYTES)%nat in
  let fk := reached_chunk f (first (m_region m)) k in
  holds_chunks (knows s) (m_cells m) f → k < n →
  ∃ V, window_values m a len (window_chunks len)
       = mret (V, byte_scalars (cell_byte fk <$> seq (16 * c + Z.to_nat (bits_int vs)) len)) ∧
     rule_values f (m_region m) k c vs len
     = V ++ byte_scalars (cell_byte fk <$> seq (16 * c + Z.to_nat (bits_int vs)) len).
Proof.
  intros n vs k c fk Hf Hk.
  assert (c < 4) as Hc.
  { unfold c, CHUNK_BYTES. pose proof (Nat.mod_upper_bound a 64). apply Nat.Div0.div_lt_upper_bound. lia. }
  unfold window_values. fold n k c vs.
  rewrite (foldM_appends _ (λ i, products (block_entries f (m_region m) i) k (n - 1)) (λ i, [fk i])).
  2: { intros [values reached] i _. unfold block_entries.
  assert (∀ b, (x ← cells_chunk (m_cells m) (CHUNKS_PER_BLOCK * (first (m_region m) + b) + i);
    lift (known (value x))) = mret (reached_chunk f (first (m_region m)) b i)) as Hentry.
  { intros b. destruct (Hf (CHUNKS_PER_BLOCK * (first (m_region m) + b) + i)) as (x & -> & [Ex _]).
    cbn [mbind synth_mbind synth_bind mret synth_mret]. by rewrite Ex. }
  rewrite !Hentry, (proj2 (Nat.ltb_lt _ _) Hk).
  cbn [mbind synth_mbind synth_bind mret synth_mret].
  rewrite (select_values_ext _ _ _ _
    (λ j, default ZERO (((λ b, reached_chunk f (first (m_region m)) b i) <$> range n) !! j))).
  - rewrite select_values_products by (unfold range; rewrite ?length_fmap, ?length_seq; done).
    by rewrite lookup_range by done.
  - by rewrite lookup_range by lia.
  - rewrite lookup_range by done. destruct (Nat.eqb_spec k 0) as [->|]; done. }
    cbn [fst snd app mbind synth_mbind synth_bind mret synth_mret].
    rewrite bind_singleton.
    rewrite (foldl_appends _ (λ i, products (fk <$> seq i CHUNKS_PER_BLOCK) c 3
    ++ (of_bool <$> int_bits 128 (repr (fk (c + i)))))
        (λ i, byte_scalars (be_bytes 16 (repr (fk (c + i)))))).
      2: { intros [values window] i Hi%elem_of_seq.
      rewrite (select_values_ext _ _ _ _ (λ j, default ZERO ((fk <$> seq i CHUNKS_PER_BLOCK) !! j))).
  - rewrite select_values_products by (rewrite ?length_fmap, ?length_seq; done).
    rewrite list_lookup_fmap, lookup_seq_lt by done.
    cbn [fmap option_fmap option_map default fst snd]. unfold id.
    rewrite field_bits_of_bool, low_bytes_be_bytes, (Nat.add_comm i) by (unfold CHUNK_BYTES; lia).
    rewrite <-app_assoc. f_equal. f_equal. unfold byte_scalars.
    apply list_fmap_ext. intros. apply from_u64_of_int. pose proof (b2z_range x). lia.
  - rewrite lookup_range, list_lookup_fmap, lookup_seq_lt by (unfold reached_count, CHUNKS_PER_BLOCK; lia).
    done.
  - rewrite lookup_range, list_lookup_fmap, lookup_seq_lt by (unfold reached_count, CHUNKS_PER_BLOCK; lia).
    done. }
    cbn [app fst snd].
    assert ((range (window_chunks len) ≫= λ i, byte_scalars (be_bytes 16 (repr (fk (c + i)))))
      = byte_scalars (cell_byte fk <$> seq (16 * c) (16 * window_chunks len))) as ->.
    { rewrite <-cell_bytes_chunks. unfold byte_scalars, range.
      induction (seq 0 _) as [|i l IH]; [done|]. rewrite bind_cons, IH. cbn [fmap list_fmap concat].
      by rewrite fmap_app. }
    pose proof (window_chunks_enough len) as Hw. set (W := 16 * window_chunks len) in *.
    unfold rule_values. fold fk n. clearbody fk W.
    assert (length vs = 4) as Hvs by done.
    destruct vs as [|v1 [|v2 [|v3 [|v4 [|]]]]]; try done.
    unfold stages. cbn [zip zip_with imap compose foldl Nat.ltb Nat.leb].
    rewrite !native_stage by lia.
    eexists. split.
  - f_equal. f_equal. f_equal. f_equal. f_equal; [|lia].
    destruct v1, v2, v3, v4; vm_compute Z.to_nat; lia.
  - unfold shift_outputs. cbv zeta. cbn [concat]. rewrite app_nil_r.
    unfold byte_scalars. rewrite !fmap_app, <-!app_assoc. do 5 f_equal.
    f_equal. f_equal. f_equal; [|lia]. destruct v1, v2, v3, v4; vm_compute Z.to_nat; lia.
Qed.

(** An honest read, from its selectors to its last byte. *)
Lemma emits_message_read s m f a len last :
  let n := blocks (m_region m) in
  let vs := small_bits (Z.of_nat (a mod CHUNK_BYTES)) 4 in
  let k := (a / 64)%nat in
  let c := (a mod 64 / CHUNK_BYTES)%nat in
  let room := (64 * (Z.of_nat last + 1)
    - (64 * Z.of_nat k + 16 * Z.of_nat c + bits_int vs) - Z.of_nat len)%Z in
  has_one s → holds_chunks (knows s) (m_cells m) f → (∀ i, (repr (f i) < 2 ^ 128)%Z) →
  selects (knows s) (m_last m) n last → (Z.of_nat n ≤ 2 ^ 16)%Z → k < n →
  (Z.of_nat len < 2 ^ 64)%Z → (0 ≤ room < 2 ^ 11)%Z →
  emits (message_read m (Some a) len) s
    (one_hot_values [] n k ++ one_hot_values [] CHUNKS_PER_BLOCK c ++ (of_bool <$> vs)
      ++ (of_bool <$> int_bits OFFSET_BITS room) ++ rule_values f (m_region m) k c vs len)
    (λ w s', bytes_are (knows s') (w_bytes w) (cell_byte (reached_chunk f (first (m_region m)) k)
                                                 <$> seq (16 * c + Z.to_nat (bits_int vs)) len)).
Proof.
  intros n vs k c room Ho Hf Hr Hl Hn Hk Hlen Hroom.
  assert (c < 4) as Hc.
  { unfold c, CHUNK_BYTES. pose proof (Nat.mod_upper_bound a 64). apply Nat.Div0.div_lt_upper_bound. lia. }
  assert (2 ^ 64 < p)%Z as Hp by by vm_compute.
  unfold message_read. fold n. cbn [fmap option_fmap option_map]. fold vs k c.
  eapply emits_bind; [apply emits_ns, emits_one_hot_alloc; [done..|lia]|]. intros block Hb.
  eapply emits_bind; [apply emits_ns, emits_one_hot_alloc; [done|done|by vm_compute]|]. intros chunk Hch.
  eapply emits_bind; [apply emits_ns, (emits_alloc_bits _ vs); done|]. intros shift Hs.
  cbv beta in Hs. match goal with |- emits _ ?st _ _ => set (s3 := st) in * end.
  assert (selects (knows s3) block n k ∧ selects (knows s3) chunk CHUNKS_PER_BLOCK c ∧
    selects (knows s3) (m_last m) n last ∧ holds_chunks (knows s3) (m_cells m) f ∧ has_one s3)
    as (Hb' & Hc' & Hl' & Hf' & Ho').
  { unfold s3. split_and!; [|by apply selects_push|..].
    - do 2 apply selects_push. exact Hb.
    - by do 3 apply selects_push.
    - by do 3 apply holds_chunks_push.
    - done. }
  clearbody s3. clear Hb Hch Hl Hf Ho.
  pose proof (knows_sem s3 Ho') as Hsem.
  assert (knows s3 (one_hot_index block) (of_int (Z.of_nat k))) as Kk
    by (refine (index_sem (knows s3) (sem := Hsem) _ _ _ _ Hb'); lia).
  assert (knows s3 (one_hot_index chunk) (of_int (Z.of_nat c))) as Kc
    by (refine (index_sem (knows s3) (sem := Hsem) _ _ _ _ Hc'); by vm_compute).
  assert (knows s3 (one_hot_index (m_last m)) (of_int (Z.of_nat last))) as Kl
    by (refine (index_sem (knows s3) (sem := Hsem) _ _ _ _ Hl'); lia).
  assert (knows s3 (pack shift) (of_int (bits_int vs))) as Ks by (apply (pack_sem _); exact Hs).
  set (roomlc := sub_lc (sub_lc _ _) (small _)).
  assert (knows s3 roomlc (of_int room)) as Kr.
  { unfold roomlc, small. eapply knows_eq.
    - apply knows_sub; [apply knows_sub|by apply knows_constant].
      + apply knows_scale, knows_add; [exact Kl|by apply knows_constant].
      + apply knows_add; [apply knows_add; apply knows_scale; done|exact Ks].
    - unfold CHUNK_BYTES, room. rewrite !from_u64_of_int by lia.
      rewrite !of_int_sub, !of_int_add, !of_int_mul, !of_int_add. rewrite of_int_1. ring. }
  assert (repr (of_int room) = room) as Er.
  { rewrite repr_of_int. apply Z.mod_small. lia. }
  eapply (emits_bind _ _ _ _ _ (λ _ _, True)).
  { unfold range_check. apply emits_ns. rewrite <-Er.
    eapply (emits_bind_r _ _ _ _ (λ _ _, True)); [|intros ? _; by apply emits_ret].
    eapply emits_mono; [apply emits_bits; [done|unfold OFFSET_BITS; lia|exact Kr|]|done].
    rewrite Er. apply Hroom. }
  intros [] _. eapply emits_bind_l; [apply emits_is_witness_generator|]. intros ? ->.
  eapply emits_bind_r.
  { eapply emits_read_rules; [by apply has_one_push|by apply holds_chunks_push|exact Hr
      |by apply selects_push|by apply selects_push|by apply bits_are_push|done]. }
  intros window HW. by apply emits_ret.
Qed.
End WindowValues.

(** * Properties *)
Section FindProperties.
(** [find] returns the first place where the pattern occurs, and an error
      exactly when it occurs nowhere. *)
Lemma find_first bytes pattern what :
  pattern ≠ [] →
  (∃ i, find bytes pattern what = Ok i ∧ i + length pattern ≤ length bytes ∧
     slice i (i + length pattern) bytes = pattern ∧
     ∀ j, j < i → slice j (j + length pattern) bytes ≠ pattern) ∨
  ((∃ e, find bytes pattern what = Err e) ∧
     ∀ j, j + length pattern ≤ length bytes → slice j (j + length pattern) bytes ≠ pattern).
Proof.
  intros Hp. unfold find. destruct (Nat.eqb_spec (length pattern) 0) as [E|Hl].
  { by destruct pattern. }
  destruct (list_find _ _) as [[i j]|] eqn:E.
  - left. apply list_find_Some in E as (Ei & Es & Hn). unfold range in Ei.
    apply lookup_seq in Ei as [-> Hi]. exists i. split_and!; [done|lia|exact Es|].
    intros k Hk. apply (Hn k k); [|done]. unfold range. apply lookup_seq. lia.
  - right. split; [by eexists|]. intros j Hj. apply list_find_None in E.
    rewrite list.Forall_forall in E. apply E. unfold range. apply elem_of_seq. lia.
Qed.
End FindProperties.

Section WindowProperties.
Context `{Bellpepper}.

(** C31: Whoever assigns the slots, the rules of [read] hold only when the
      window's bytes are those of the table at the offset it returns, counted
      from the message's first block, and the window ends within the message's
      last block. *)
Theorem read_sound (σ : Assignment) m at_ len f last na ni :
  (Z.of_nat (blocks (m_region m)) ≤ 2 ^ 16)%Z → (Z.of_nat len ≤ 2 ^ 16)%Z →
  holds_chunks (denotes σ) (m_cells m) f →
  selects (denotes σ) (m_last m) (blocks (m_region m)) last →
  satisfies σ (message_read m at_ len) na ni →
  ∃ w o, (shape (message_read m at_ len) na ni).1.2 = Ok w ∧
    o + len ≤ 64 * (last + 1) ∧ denotes σ (w_offset w) (of_int (Z.of_nat o)) ∧
    bytes_are (denotes σ) (w_bytes w) (cell_byte f <$> seq (64 * first (m_region m) + o) len).
Proof.
  intros Hn Hlen Hf Hl Hs.
  destruct (gadget_satisfies _ _ _ _ _ (gadget_message_read σ m at_ len f last Hn Hlen Hf Hl) Hs)
    as (w & E & o & ?). eauto.
Qed.

(** An honest [read] within the message breaks no rule; it allocates the
      selectors, the shift and the room as bits and then exactly the values
      that [read_values] lists natively, and its bytes are the window's. *)
Theorem read_native st m f last a len :
  let n := blocks (m_region m) in
  let room := (64 * (Z.of_nat last + 1) - Z.of_nat (a + len))%Z in
  has_one (store st) → cs_broken st = None →
  holds_chunks (knows (store st)) (m_cells m) f → (∀ i, (repr (f i) < 2 ^ 128)%Z) →
  selects (knows (store st)) (m_last m) n last → (Z.of_nat n ≤ 2 ^ 16)%Z →
  0 < len → (0 ≤ room < 2 ^ 11)%Z →
  ∃ V W w,
    window_values m a len (window_chunks len) = mret (V, W) ∧
    W = byte_scalars (cell_byte f <$> seq (64 * first (m_region m) + a) len) ∧
    run (message_read m (Some a) len) st =
      (Ok w, cs_push st (one_hot_values [] n (a / 64) ++ one_hot_values [] 4 (a mod 64 / 16)
        ++ (of_bool <$> small_bits (Z.of_nat (a mod 16)) 4)
        ++ (of_bool <$> int_bits 11 room) ++ V ++ W)) ∧
    value <$> w_bytes w = Some <$> W.
Proof.
  intros n room Ho Hb Hf Hr Hl Hn Hlen Hroom.
  assert (last < n) as Hln by apply Hl.
  assert (a / 64 < n) as Hk by (apply Nat.Div0.div_lt_upper_bound; unfold room in *; lia).
  pose proof (Nat.mod_upper_bound a 64) as Ha64. pose proof (Nat.mod_upper_bound a 16) as Ha16.
  assert (a mod 64 / 16 < 4) as Hc by (apply Nat.Div0.div_lt_upper_bound; lia).
  set (vs := small_bits (Z.of_nat (a mod 16)) 4) in *.
  assert (bits_int vs = Z.of_nat (a mod 16)) as Evs.
  { unfold vs. rewrite small_bits_int_bits, bits_int_int_bits. apply Z.mod_small. lia. }
  assert (64 * (a / 64) + 16 * (a mod 64 / 16) + a mod 16 = a) as Ea.
  { pose proof (Nat.div_mod_eq a 64). pose proof (Nat.div_mod_eq (a mod 64) 16).
    assert (a mod 64 mod 16 = a mod 16) by (change 64 with (16 * 4); by rewrite Nat.Div0.mod_mul_r, Nat.Div0.add_mod, Nat.mul_comm, Nat.Div0.mod_mul, Nat.add_0_r, !Nat.Div0.mod_mod). lia. }
  destruct (window_values_closed (store st) m f a len Hf Hk) as (V & EV & ER).
  unfold CHUNK_BYTES in EV, ER. fold vs in EV, ER. rewrite Evs, Nat2Z.id in EV, ER.
  set (W := byte_scalars _) in EV, ER.
  assert (W = byte_scalars (cell_byte f <$> seq (64 * first (m_region m) + a) len)) as EW.
  { unfold W, byte_scalars. rewrite <-!list_fmap_compose.
    rewrite <-(Nat.add_0_r (16 * _ + _)), <-(Nat.add_0_r (64 * _ + a)), <-!fmap_add_seq,
      <-!list_fmap_compose.
    apply list_fmap_ext. intros _ j _. unfold compose, cell_byte, reached_chunk. do 2 f_equal.
    replace (64 * first (m_region m) + a + j)
      with (16 * (a mod 64 / 16) + a mod 16 + j + (4 * (first (m_region m) + a / 64)) * 16) by lia.
    rewrite Nat.div_add, Nat.Div0.mod_add by lia. by rewrite (Nat.add_comm (4 * _)). }
  assert (Z.of_nat len < 2 ^ 64)%Z as Hlen' by (unfold room in *; lia).
  pose proof (emits_message_read (store st) m f a len last) as He. cbv zeta in He.
  unfold CHUNK_BYTES, CHUNKS_PER_BLOCK, OFFSET_BITS in He. fold n vs in He.
  rewrite Evs, Nat2Z.id, ER in He. fold W in ER.
  assert (64 * (Z.of_nat last + 1) - (64 * Z.of_nat (a / 64) + 16 * Z.of_nat (a mod 64 / 16)
  + Z.of_nat (a mod 16)) - Z.of_nat len = room)%Z as Eroom by (unfold room; lia).
    rewrite Eroom in He. specialize (He Ho Hf Hr Hl Hn Hk Hlen' Hroom).
    destruct (emits_run _ _ _ _ He Hb) as (w & R & HB). exists V, W, w. split_and!; try done.
    exact (bytes_are_values _ _ _ HB).
Qed.
End WindowProperties.
