(* ===== verification/Circuit.v ===== *)
(** Circuits in segments ([vega_prover]'s trait [VegaCircuit]) and the values
    that a witness generator records of them ([app.rs]: [Segment], [Instance],
    [instance], [Replay]).

    The trait is the class [VegaCircuit]. A witness generator answers
    [is_witness_generator] with true, records the values in their order and
    ignores the rules: the interpretation [generate] of the circuits. *)
From Stdlib Require Import ZArith Lia Strings.String.
From stdpp Require Import base list numbers option strings.
From S2P Require Import Prelude Bytes Field ConstraintSystem Shape CheckSystem Bellpepper Lc.

(** The trait: the public values a circuit reports, and the rules of its three
    segments, each of which receives the slots of those before it. *)
Class VegaCircuit `{Bellpepper} (C : Type) := {
  public_values : C → outcome SynthesisError (list Scalar);
  shared : C → Synth (list AllocatedNum);
  precommitted : C → list AllocatedNum → Synth (list AllocatedNum);
  num_challenges : C → nat;
  synthesize : C → list AllocatedNum → list AllocatedNum → option (list Scalar) → Synth unit;
}.

Section Generate.
Context `{LinearCombinations}.

Definition push_inputs (s : Store) (vs : list Scalar) : Store :=
  {| s_aux := s_aux s; s_inputs := s_inputs s ++ vs |}.

(** A circuit synthesized in a witness generator. *)
Fixpoint generate {A} (m : Synth A) (s : Store) : outcome SynthesisError A * Store :=
  match m with
  | Return a => (Ok a, s)
  | Fail' e => (Err e, s)
  | Panic' w => (Panic w, s)
  | Alloc _ v k =>
      match v with
      | Ok x => generate (k (Aux (length (s_aux s)))) (push s [x])
      | Err e => (Err e, s)
      | Panic w => (Panic w, s)
      end
  | AllocInput _ v k =>
      match v with
      | Ok x => generate (k (Input (length (s_inputs s)))) (push_inputs s [x])
      | Err e => (Err e, s)
      | Panic w => (Panic w, s)
      end
  | Enforce _ _ _ _ k | PushNamespace _ k | PopNamespace k => generate k s
  | IsWitnessGenerator k => generate (k true) s
  | ExtendAux vs k => generate k (push s vs)
  | ExtendInputs vs k => generate k (push_inputs s vs)
  end.

(** [SatisfyingAssignment::new]: the first input is the constant one. *)
Definition generator_new : Store := {| s_aux := []; s_inputs := [ONE] |}.
End Generate.

Section Segments.
Context `{Bellpepper}.

(** [struct Segment]. *)
Record Segment := mkSegment { private : list Scalar; seg_public : list Scalar }.

(** [Segment::since], [Segment::mark]: the values after the first ones. *)
Definition since (s : Store) (at_ : nat * nat) : Segment :=
  {| private := drop at_.1 (s_aux s); seg_public := drop at_.2 (s_inputs s) |}.
Definition mark (s : Store) : nat * nat := (length (s_aux s), length (s_inputs s)).

(** [Segment::replay]. *)
Definition replay (seg : Segment) : Synth unit :=
  generator ← is_witness_generator;
  if negb generator then Fail' AssignmentMissing else
  extend_inputs (seg_public seg) ;;
  extend_aux (private seg).

(** [struct Instance]. *)
Record Instance := mkInstance {
  i_precommitted : Segment;
  i_rest : Segment;
  i_public_values : list Scalar;
}.
(** [struct Replay] and its circuit. *)
Record Replay := mkReplay { r_shared : Segment; r_instance : Instance }.
#[export] Instance replay_circuit : VegaCircuit Replay := {|
  public_values r := Ok (i_public_values (r_instance r));
  shared r := replay (r_shared r) ;; mret [];
  precommitted r _ := replay (i_precommitted (r_instance r)) ;; mret [];
  num_challenges _ := 0;
  synthesize r _ _ _ := replay (i_rest (r_instance r));
|}.

(** [instance]. *)
Definition instance {C} `{!VegaCircuit C} (circuit : C) (shared : list AllocatedNum)
    : outcome SynthesisError Instance :=
  let cs := generator_new in
  let start := mark cs in
  let '(precommitted_values, cs) := generate (precommitted circuit shared) cs in
  precommitted_values ← precommitted_values;
  let precommitted := since cs start in
  let mark := mark cs in
  let '(done, cs) := generate (synthesize circuit shared precommitted_values (Some [])) cs in
  done ;;
  let rest := since cs mark in
  values ← public_values circuit;
  mret {| i_precommitted := precommitted; i_rest := rest; i_public_values := values |}.

(** All rules of a circuit, as [first_broken] and the prover build them. *)
Definition synthesis {C} `{!VegaCircuit C} (circuit : C) : Synth unit :=
  shared ← ns "shared" (shared circuit);
  precommitted ← ns "precommitted" (precommitted circuit shared);
  ns "rest" (synthesize circuit shared precommitted (Some [])).
End Segments.

(** * Lemmas *)
Section GenerateFacts.
Context `{LinearCombinations}.

Lemma generate_bind {A B} (m : Synth A) (f : A → Synth B) s :
  generate (m ≫= f) s =
  match generate m s with
  | (Ok a, s) => generate (f a) s
  | (Err e, s) => (Err e, s)
  | (Panic w, s) => (Panic w, s)
  end.
Proof.
  revert s. unfold mbind, synth_mbind.
  induction m as [| | |? v k IH|? v k IH|? ? ? ? k IH|? k IH|k IH|k IH|? k IH|? k IH]; intros s; cbn; try done;
    try (destruct v; try done); apply IH.
Qed.

(** A generator only adds values. *)
Lemma generate_grows {A} (m : Synth A) s :
  ∃ l l', s_aux (generate m s).2 = s_aux s ++ l ∧ s_inputs (generate m s).2 = s_inputs s ++ l'.
Proof.
  revert s.
  induction m as [| | |? v k IH|? v k IH|? ? ? ? k IH|? k IH|k IH|k IH|? k IH|? k IH]; intros s; cbn;
    try (exists [], []; by rewrite !app_nil_r); try apply IH;
    try (destruct v as [x| |]; try (exists [], []; by rewrite !app_nil_r)).
  - destruct (IH (Aux (length (s_aux s))) (push s [x])) as (l & l' & E1 & E2); cbn in E1, E2.
    exists (x :: l), l'. by rewrite E1, E2, <- app_assoc.
  - destruct (IH (Input (length (s_inputs s))) (push_inputs s [x])) as (l & l' & E1 & E2); cbn in E1, E2.
    exists l, (x :: l'). by rewrite E1, E2, <- app_assoc.
  - destruct (IH (push s values)) as (l & l' & E1 & E2); cbn in E1, E2.
    exists (values ++ l), l'. by rewrite E1, E2, <- app_assoc.
  - destruct (IH (push_inputs s values)) as (l & l' & E1 & E2); cbn in E1, E2.
    exists l, (values ++ l'). by rewrite E1, E2, <- app_assoc.
Qed.
End GenerateFacts.

Section ReplayFacts.
Context `{Bellpepper}.

Lemma generate_replay seg s :
  generate (replay seg) s = (Ok tt, push (push_inputs s (seg_public seg)) (private seg)).
Proof. done. Qed.

(** What is recorded since a mark is what was added. *)
Lemma since_replay seg s :
  since (push (push_inputs s (seg_public seg)) (private seg)) (mark s) = seg.
Proof. destruct seg. unfold since; cbn. by rewrite !drop_app_length. Qed.

(** A replay of recorded values records, in a witness generator, the same
    values in the same segments and reports the same public values, whatever
    slots it is passed; and every other constraint system, which would lack the
    circuit's rules, is refused. *)
Theorem replay_instance i seg slots :
  let r := {| r_shared := seg; r_instance := i |} in
  instance r slots = Ok i ∧
  since (generate (shared r) generator_new).2 (mark generator_new) = seg ∧
  ∀ st, (run (synthesis r) st).1 = Err AssignmentMissing ∧
  ∀ na ni, (shape (synthesis r) na ni).1 = ([], Err AssignmentMissing).
Proof.
  intros r. repeat split.
  - unfold instance. cbn [precommitted synthesize public_values replay_circuit r_instance r].
    rewrite generate_bind, generate_replay. cbn [generate mret synth_mret].
    rewrite since_replay. cbn -[replay since mark push push_inputs].
    rewrite generate_replay, since_replay. by destruct i.
  - cbn [shared replay_circuit r_shared r]. rewrite generate_bind, generate_replay. cbn [snd].
    apply since_replay.
Qed.
End ReplayFacts.

(** * Honest runs that allocate public values *)
Section Allocates.
Context `{Bellpepper}.

(** The rule checker as [first_broken] creates it. *)
Definition check_new : CheckState :=
  {| cs_aux := []; cs_inputs := [ONE]; cs_path := []; cs_broken := None |}.

(** The values that a check recorded, as an assignment. *)
Definition recorded_as (st : CheckState) : Assignment := {|
  assign v := if decide (v = Input 0) then ONE else recorded (store st) v;
  assign_one := decide_True ONE (recorded (store st) (Input 0)) eq_refl;
|}.

Lemma agrees_recorded_as st : has_one (store st) → agrees (recorded_as st) st.
Proof.
  intros Ho v x Hv. cbn. destruct (decide (v = Input 0)) as [->|N]; [|by apply recorded_lookup].
  rewrite cs_lookup_store in Hv. unfold has_one in Ho. cbn in Hv, Ho. congruence.
Qed.

Definition extend (s : Store) (vs ins : list Scalar) : Store :=
  {| s_aux := s_aux s ++ vs; s_inputs := s_inputs s ++ ins |}.
Definition cs_extend (st : CheckState) (vs ins : list Scalar) : CheckState :=
  {| cs_aux := cs_aux st ++ vs; cs_inputs := cs_inputs st ++ ins;
     cs_path := cs_path st; cs_broken := cs_broken st |}.

(** From the store [s], [m] breaks no rule, allocates the private values [vs]
    and the public values [ins], and returns a result with [P]. *)
Definition allocates {A} (m : Synth A) (s : Store) (vs ins : list Scalar) (P : A → Store → Prop) : Prop :=
  ∀ st, store st = s → cs_broken st = None →
  ∃ a, P a (extend s vs ins) ∧ run m st = (Ok a, cs_extend st vs ins).

Lemma extend_nil s vs : extend s vs [] = push s vs.
Proof. unfold extend, push. by rewrite app_nil_r. Qed.

Lemma allocates_emits {A} (m : Synth A) s vs P : emits m s vs P → allocates m s vs [] P.
Proof.
  intros (a & Ha & R) st Hs Hb. exists a. rewrite extend_nil. split; [done|].
  rewrite R by done. unfold cs_extend, cs_push. by rewrite app_nil_r.
Qed.

Lemma allocates_ret {A} (a : A) s (P : A → Store → Prop) : P a s → allocates (mret a) s [] [] P.
Proof. intros Ha. by apply allocates_emits, emits_ret. Qed.

Lemma allocates_bind {A B} (m : Synth A) (f : A → Synth B) s vs vs' ins ins' P Q :
  allocates m s vs ins P → (∀ a, P a (extend s vs ins) → allocates (f a) (extend s vs ins) vs' ins' Q) →
  allocates (m ≫= f) s (vs ++ vs') (ins ++ ins') Q.
Proof.
  intros Hm Hf st Hs Hb. destruct (Hm st Hs Hb) as (a & Ha & R).
  destruct (Hf a Ha (cs_extend st vs ins)) as (b & Hq & R'); [by subst|done|].
  exists b. unfold extend, cs_extend in *. cbn in *. rewrite <- !app_assoc in *. split; [done|].
  by rewrite run_bind, R, R'.
Qed.

Lemma allocates_mono {A} (m : Synth A) s vs ins (P Q : A → Store → Prop) :
  allocates m s vs ins P → (∀ a, P a (extend s vs ins) → Q a (extend s vs ins)) → allocates m s vs ins Q.
Proof. intros Hm HP st Hs Hb. destruct (Hm st Hs Hb) as (a & Ha & R). exists a. split; [by apply HP|done]. Qed.

Lemma allocates_ns {A} name (m : Synth A) s vs ins P : allocates m s vs ins P → allocates (ns name m) s vs ins P.
Proof.
  intros Hm st Hs Hb. destruct (Hm (cs_push_namespace name st) Hs Hb) as (a & Ha & R).
  exists a. split; [done|]. unfold ns. cbn [run]. rewrite run_bind, R. cbn [run].
  unfold cs_pop_namespace, cs_extend, cs_push_namespace. cbn.
  by rewrite length_app, Nat.add_sub, take_app_length.
Qed.

Lemma allocates_input x s :
  allocates (AllocatedNum_alloc_input (Ok x)) s [] [x]
    (λ n s', get_value n = Some x ∧ s_lookup s' (get_variable n) = Some x).
Proof.
  intros st Hs Hb. destruct (num_alloc_input_run x st Hb) as (n & R & En & Ev).
  exists n. rewrite R. split; [|unfold cs_extend; by rewrite app_nil_r].
  split; [done|]. rewrite En, <- Hs. cbn. by rewrite list_lookup_middle.
Qed.

(** What is known stays known. *)
Lemma lookup_extend s vs ins v x : s_lookup s v = Some x → s_lookup (extend s vs ins) v = Some x.
Proof. destruct v; cbn; apply lookup_app_l_Some. Qed.

Lemma knows_extend s vs ins x v : knows s x v → knows (extend s vs ins) x v.
Proof.
  intros [Ev [Hw He]]. split; [done|].
  assert (within (extend s vs ins) (lc x)) as Hw'.
  { eapply Forall_impl; [exact Hw|]. intros w [y Ey]. exists y. by apply lookup_extend. }
  split; [done|]. rewrite <- He. apply lc_eval_terms_agree. intros w Hin.
  unfold within in Hw. rewrite list.Forall_forall in Hw. destruct (Hw w Hin) as [y Ey].
  rewrite (recorded_lookup s w y Ey). by apply recorded_lookup, lookup_extend.
Qed.

Lemma has_one_extend s vs ins : has_one s → has_one (extend s vs ins).
Proof. apply lookup_app_l_Some. Qed.
End Allocates.
