(* ===== verification/Step.v ===== *)
(** [step.rs]: the step circuit, SHA-256 compressions at a public position of
    the shared table.

    bellpepper's compression and its 32-bit words are the class
    [CompressionGadget]: whatever the slots hold, its rules force the
    compression of FIPS 180-4, and an honest synthesis allocates the bits of
    [Sha256Trace.compression_trace]: the words of FIPS 180-4's rounds in the
    order that [gadgets/sha256.rs] documents of the gadget. *)
From Stdlib Require Import ZArith Lia Strings.String Strings.Byte.
From stdpp Require Import base list numbers option strings pretty.
From S2P Require Import Prelude Bytes Field ConstraintSystem Shape CheckSystem Bellpepper Lc Values Bits Select Sha256 Sha256Trace Table Window Circuit.

(** The integers of 512 bits and more, as 32-bit words. *)
Definition bit_words (bs : list bool) : list Z := bits_int <$> chunks 32 bs.

Class CompressionGadget `{Bellpepper} := {
  UInt32 : Type;
  from_bits_be : list Boolean → UInt32;
  into_bits_be : UInt32 → list Boolean;
  sha256_compression_function : list Boolean → list UInt32 → Synth (list UInt32);

  from_into_bits bs : length bs = 32%nat → into_bits_be (from_bits_be bs) = bs;
  compression_rules (σ : Assignment) block words bs ws :
    bits_are (denotes σ) block bs → length bs = 512%nat →
    Forall2 (λ u w, bits_are (denotes σ) (into_bits_be u) (int_bits 32 w)) words ws →
    length ws = 8%nat → Forall word ws →
    gadget σ (sha256_compression_function block words) (λ out,
      Forall2 (λ u w, bits_are (denotes σ) (into_bits_be u) (int_bits 32 w))
        out (fips_compress ws (bit_words bs)));
  compression_emits s block words bs ws :
    has_one s → bits_are (knows s) block bs → length bs = 512%nat →
    Forall2 (λ u w, bits_are (knows s) (into_bits_be u) (int_bits 32 w)) words ws →
    length ws = 8%nat → Forall word ws →
    emits (sha256_compression_function block words) s (of_bool <$> compression_trace (bit_words bs) ws)
      (λ out s', Forall2 (λ u w, bits_are (knows s') (into_bits_be u) (int_bits 32 w))
        out (fips_compress ws (bit_words bs)));
}.

(** [struct Step]. *)
Record Step := mkStep { st_position : nat; st_table : option Table; st_layout : Layout }.

(** [Step::blank_in], [Step::new]. *)
Definition step_blank_in (layout : Layout) (position : nat) : Step :=
  {| st_position := position; st_table := None; st_layout := layout |}.
Definition step_new (position : nat) (table : Table) : Step :=
  {| st_position := position; st_table := Some table; st_layout := t_layout table |}.

(** [words]: the first [n] big-endian words of bytes. *)
Definition words (n : nat) (bytes : list byte) : list Z :=
  (λ i, be_int (slice (4 * i) (4 * i + 4) bytes)) <$> range n.

Section Step.
Context `{CompressionGadget} `{Sha2}.

(** [compression_values]: the block, the state after it, and the values. *)
Definition compression_values (values : Values) (table : Table) (layout : Layout) (index k : nat)
    (before : option (list Z)) : (list byte * list Z) * Values :=
  let n := instances layout in
  let position i := (per_instance layout * i + k)%nat in
  let '(values, block) := foldl (λ '(values, block) c,
    let '(chunk, values) := select_values values n index
      (λ i, chunk_value table (CHUNKS_PER_BLOCK * position i + c)) in
    let bytes := low_bytes chunk in
    (value_byte_bits values bytes, block ++ bytes)) (values, []) (range CHUNKS_PER_BLOCK) in
  let '(values, state) :=
    match before with
    | Some words => (values, words)
    | None =>
        let '(values, state) := foldl (λ '(values, state) h,
          let '(half, values) := select_values values n index
            (λ i, state_before_value table layout (position i) h) in
          let bytes := low_bytes half in
          (value_byte_bits values bytes, state ++ bytes)) (values, []) (range 2) in
        (values, words 8 state)
    end in
  let '(after, values) := Sha256.compression values (words 16 block) state in
  let values := foldl (λ values h,
    (select_values values n index (λ i, state_value table (position i) h)).2) values (range 2) in
  ((block, after), values).

(** [Step::precommitted_values]. *)
Definition precommitted_values (s : Step) : outcome SynthesisError Values :=
  table ← ok_or AssignmentMissing (st_table s);
  let layout := st_layout s in
  let values := one_hot_values [] (instances layout) (st_position s) in
  let '(values, result) := foldl (λ '(values, result) k,
    let '((_, words), values) := compression_values values table layout (st_position s) k result in
    (values, Some words)) (values, None) (range (per_instance layout)) in
  Ok values.

(** [Step::assignment]. *)
Definition step_assignment (s : Step) : outcome SynthesisError Instance :=
  let position := from_u64 (Z.of_nat (st_position s)) in
  private ← precommitted_values s;
  Ok {| i_precommitted := {| private := private; seg_public := [position] |};
        i_rest := {| private := []; seg_public := [] |};
        i_public_values := [position] |}.

(** [compression]. *)
Definition compression (cells : Cells) (layout : Layout) (selector : OneHot) (k : nat)
    (before : option (list UInt32)) : Synth (list Boolean * list UInt32) :=
  let positions := (λ i, per_instance layout * i + k)%nat <$> range (instances layout) in
  block ← foldM (λ block c,
    entries ← mapM (λ j, cells_chunk cells (CHUNKS_PER_BLOCK * j + c)) positions;
    chunk ← ns ("chunk " +:+ pretty c) (select selector entries);
    chunk_bits ← ns ("chunk " +:+ pretty c +:+ " bits") (Bits.bits chunk 128);
    mret (block ++ chunk_bits)) [] (range CHUNKS_PER_BLOCK);
  words ←
    match before with
    | Some words => mret words
    | None =>
        before ← foldM (λ before h,
          entries ← mapM (λ j, cells_state_before_in cells layout j h) positions;
          half ← ns ("state before half " +:+ pretty h) (select selector entries);
          half_bits ← ns ("state before half " +:+ pretty h +:+ " bits") (Bits.bits half 128);
          mret (before ++ half_bits)) [] (range 2);
        mret (from_bits_be <$> chunks 32 before)
    end;
  words ← ns "compression" (sha256_compression_function block words);
  let after := words ≫= into_bits_be in
  mapM (λ h,
    entries ← mapM (λ j, cells_state cells j h) positions;
    half ← ns ("state after half " +:+ pretty h) (select selector entries);
    let computed := pack (slice (128 * h) (128 * (h + 1)) after) in
    ns ("state after half " +:+ pretty h +:+ " matches") (equal computed half)) (range 2) ;;
  mret (block, words).

(** [Step::precommitted]. *)
Definition step_precommitted (s : Step) (shared : list AllocatedNum) : Synth (list AllocatedNum) :=
  generator ← is_witness_generator;
  if generator : bool then
    extend_inputs [from_u64 (Z.of_nat (st_position s))] ;;
    values ← lift (precommitted_values s);
    extend_aux values ;;
    mret []
  else
    let cells := shared in
    let layout := st_layout s in
    position ← ns "position" (AllocatedNum_alloc_input (Ok (from_u64 (Z.of_nat (st_position s)))));
    selector ← ns "selector" (one_hot_alloc (instances layout) (Some (st_position s)));
    ns "selected position" (equal (one_hot_index selector) (num position)) ;;
    foldM (λ result k,
      '(_, words) ← ns ("compression " +:+ pretty k) (compression cells layout selector k result);
      mret (Some words)) None (range (per_instance layout)) ;;
    mret [].

#[export] Instance step_circuit : VegaCircuit Step := {|
  public_values s := Ok [from_u64 (Z.of_nat (st_position s))];
  shared s := ns "table" (allocate (st_table s));
  precommitted := step_precommitted;
  num_challenges _ := 0;
  synthesize _ _ _ _ := mret tt;
|}.
End Step.

(** * The cells and what they hold *)
Section TableCells.
Context `{Bellpepper} `{Sha2}.

(** The state before position [j] of a table whose states are [g]. *)
Definition before_value (layout : Layout) (g : nat → nat → Scalar) (start : nat → Scalar)
    (j h : nat) : Scalar :=
  if (j =? first (signed layout))%nat then start h
  else if starts_from_iv layout j then state_half iv_bytes h
  else g (j - 1)%nat h.

Definition holds_start (R : Lc → Scalar → Prop) (cells : Cells) (start : nat → Scalar) : Prop :=
  ∀ h, h < 2 → ∃ x, (n ← index cells (START + h); mret (num n)) = mret x ∧ R x (start h).

(** Every sum of the cells denotes the table's value. *)
Record table_cells (R : Lc → Scalar → Prop) (cells : Cells) (f : nat → Scalar)
    (g : nat → nat → Scalar) (start : nat → Scalar) : Prop := {
  tc_chunks : holds_chunks R cells f;
  tc_states : holds_states R cells g;
  tc_start : holds_start R cells start;
}.

(** The instances' positions lie in the table. *)
Definition layout_ok (layout : Layout) : Prop :=
  first (signed layout) = 0 ∧ 0 < per_instance layout.

Lemma position_bound layout i k :
  layout_ok layout → i < instances layout → k < per_instance layout →
  per_instance layout * i + k < POSITIONS.
Proof.
  intros [_ Hp] Hi Hk. unfold instances in Hi.
  apply Nat.lt_le_trans with (per_instance layout * S i); [lia|].
  transitivity (per_instance layout * (POSITIONS / per_instance layout));
    [by apply Nat.mul_le_mono_l|apply Nat.Div0.mul_div_le].
Qed.

Context (R : Lc → Scalar → Prop) {sem : LcSem R}.

Lemma reads_before cells f g start layout j h :
  table_cells R cells f g start → layout_ok layout → j < POSITIONS → h < 2 →
  ∃ x, cells_state_before_in cells layout j h = mret x ∧ R x (before_value layout g start j h).
Proof.
  intros [_ Hg Hs] [H0' _] Hj Hh. unfold cells_state_before_in, before_value.
  destruct (Nat.eqb_spec j (first (signed layout))) as [|N]; [by apply Hs|].
  destruct (starts_from_iv layout j).
  - eexists; split; [done|apply sem_constant].
  - apply Hg; [lia|done].
Qed.

(** The entries of a selector are read from the cells alone. *)
Lemma reads_entries (entry : nat → Synth Lc) (e : nat → Scalar) pos n :
  (∀ i, i < n → ∃ x, entry (pos i) = mret x ∧ R x (e (pos i))) →
  ∃ xs, mapM entry (pos <$> range n) = mret xs ∧ Forall2 R xs ((λ i, e (pos i)) <$> range n).
Proof.
  intros Hr. destruct (mapM_reads entry R e (pos <$> range n)) as (xs & E & HF).
  - intros j (i & -> & Hi%elem_of_seq)%list_elem_of_fmap. apply Hr. lia.
  - exists xs. split; [done|]. by rewrite <- list_fmap_compose in HF.
Qed.
End TableCells.

(** * Words of the table *)
Section TableWords.
Context `{Bellpepper}.

Lemma bit_words_bytes l : bit_words (l ≫= byte_bits) = bytes_to_words l.
Proof.
  unfold bit_words, bytes_to_words. remember (length l) as n eqn:En.
  revert l En. induction n as [n IH] using lt_wf_ind. intros l ->.
  destruct (decide (l = [])) as [->|N]; [done|].
  assert (0 < length l) by (destruct l; [done|cbn; lia]).
  assert (l ≫= byte_bits ≠ []) as N'.
  { intros E. apply (f_equal length) in E. rewrite length_bind_byte_bits in E. cbn in E. lia. }
  rewrite (chunks_cons 4 l), (chunks_cons 32) by (lia || done). cbn [fmap list_fmap].
  destruct (take_drop_bind_byte_bits 4 l) as [E1 E2]. cbn [Nat.mul Nat.add] in E1, E2. rewrite E1, E2.
  f_equal; [apply bits_int_bind_byte_bits|]. apply IH with (m := length (drop 4 l)); [rewrite length_drop; lia|done].
Qed.

Lemma int_bits_chunk f c : int_bits 128 (repr (f c)) = chunk_bytes f c ≫= byte_bits.
Proof. unfold chunk_bytes. by rewrite bind_byte_bits_be_bytes. Qed.

(** The bits of a word's bytes. *)
Lemma words_bits ws :
  Forall word ws → words_to_bytes ws ≫= byte_bits = ws ≫= int_bits 32.
Proof.
  induction 1 as [|w ws Hw _ IH]; [done|]. unfold words_to_bytes in *. cbn [mbind list_bind].
  rewrite bind_app, IH, bind_byte_bits_be_bytes. done.
Qed.

Lemma words_lookup n bytes : length bytes = 4 * n → words n bytes = bytes_to_words bytes.
Proof.
  revert bytes. induction n as [|n IH]; intros bytes Hl; [by destruct bytes|].
  assert (bytes ≠ []) by (intros ->; cbn in Hl; lia).
  unfold bytes_to_words. rewrite chunks_cons by (lia || done). cbn [fmap list_fmap].
  change (be_int <$> chunks 4 (drop 4 bytes)) with (bytes_to_words (drop 4 bytes)).
  rewrite <- IH by (rewrite length_drop; lia). unfold words, range.
  cbn [seq fmap list_fmap]. f_equal. rewrite <- fmap_S_seq, <- list_fmap_compose.
  apply list_fmap_ext. intros _ i _. unfold compose, slice. rewrite drop_drop.
  replace (4 * S i + 4 - 4 * S i) with (4 * i + 4 - 4 * i) by lia.
  by replace (4 * S i) with (4 + 4 * i) by lia.
Qed.
End TableWords.

(** * What the rules force *)
Section StepRules.
Context `{CompressionGadget} `{Sha2} (σ : Assignment).
Local Abbreviation D := (denotes σ).

Lemma gadget_entry sel n i xs (e : nat → Scalar) pos :
  selects D sel n i → Forall2 D xs ((λ i, e (pos i)) <$> range n) →
  gadget σ (select sel xs) (λ x, D x (e (pos i))).
Proof.
  intros Hs HF. eapply gadget_mono; [eapply gadget_select; [exact Hs|exact HF|]|].
  - unfold range. by rewrite length_fmap, length_seq.
  - intros x E. unfold denotes. rewrite E. destruct Hs as [Hi _]. by rewrite lookup_range by done.
Qed.

(** A loop that selects 128-bit values and splits them into bits. *)
Lemma gadget_selected_bits sel n i pos (entry : nat → nat → Synth Lc) (e : nat → nat → Scalar)
    (name name' : nat → string) m :
  selects D sel n i →
  (∀ c i, c < m → i < n → ∃ x, entry c (pos i) = mret x ∧ D x (e c (pos i))) →
  gadget σ (foldM (λ block c,
    entries ← mapM (entry c) (pos <$> range n);
    chunk ← ns (name c) (select sel entries);
    chunk_bits ← ns (name' c) (Bits.bits chunk 128);
    mret (block ++ chunk_bits)) [] (range m))
    (λ bs, bits_are D bs (range m ≫= λ c, int_bits 128 (repr (e c (pos i)))) ∧
      ∀ c, c < m → (repr (e c (pos i)) < 2 ^ 128)%Z).
Proof.
  intros Hs Hr. eapply gadget_mono.
  { apply (gadget_foldM σ _ _ _ (λ done bs,
      bits_are D bs (done ≫= λ c, int_bits 128 (repr (e c (pos i)))) ∧
      ∀ c, c ∈ done → (repr (e c (pos i)) < 2 ^ 128)%Z)).
    - split; [constructor|]. by intros c []%not_elem_of_nil.
    - intros done c bs Hp [HB Hlt]. apply prefix_snoc_lookup in Hp as [Hc _].
      assert (c < m) as Hcm by (apply lookup_seq in Hc; lia).
      destruct (reads_entries D (entry c) (e c) pos n) as (xs & -> & HF); [by intros; apply Hr|].
      eapply gadget_bind; [by apply gadget_ret with (P := λ x, x = xs)|]. intros ? ->.
      eapply gadget_bind; [apply gadget_ns; by eapply gadget_entry|]. intros chunk Hch.
      eapply gadget_bind; [apply gadget_ns, gadget_bits; lia|]. intros b [Hb Hlt'].
      unfold denotes in Hch. cbv beta in Hch. rewrite Hch in Hb, Hlt'.
      apply gadget_ret. split.
      + rewrite bind_app. cbn [mbind list_bind]. rewrite app_nil_r. by apply Forall2_app.
      + intros c' [Hin| ->%list_elem_of_singleton]%elem_of_app; [by apply Hlt|done]. }
  intros bs [HB Hlt]. split; [done|]. intros c Hc. apply Hlt. apply elem_of_seq. lia.
Qed.

(** The block of position [j], and the state before it when it is read. *)
Definition state_bytes (v : nat → Scalar) : list byte :=
  be_bytes 16 (repr (v 0)) ++ be_bytes 16 (repr (v 1)).

Lemma block_bits f j :
  range CHUNKS_PER_BLOCK ≫= (λ c, int_bits 128 (repr (f (CHUNKS_PER_BLOCK * j + c))))
  = block_bytes f j ≫= byte_bits.
Proof.
  unfold block_bytes. rewrite !bind_app, <- !int_bits_chunk.
  cbn [range seq mbind list_bind CHUNKS_PER_BLOCK]. rewrite app_nil_r. by rewrite Nat.add_0_r.
Qed.

Lemma state_bits (v : nat → Scalar) :
  range 2 ≫= (λ h, int_bits 128 (repr (v h))) = state_bytes v ≫= byte_bits.
Proof.
  unfold state_bytes. rewrite bind_app, !bind_byte_bits_be_bytes.
  cbn [range seq mbind list_bind]. by rewrite app_nil_r.
Qed.

Lemma length_block_bytes f j : length (block_bytes f j) = 64.
Proof. unfold block_bytes, chunk_bytes. by rewrite !length_app, !length_be_bytes. Qed.

Lemma length_state_bytes v : length (state_bytes v) = 32.
Proof. unfold state_bytes. by rewrite !length_app, !length_be_bytes. Qed.

(** Words with the bits of a state. *)
Lemma from_bits_words (R : Lc → Scalar → Prop) bs bytes n :
  length bytes = 4 * n → bits_are R bs (bytes ≫= byte_bits) →
  Forall2 (λ u w, bits_are R (into_bits_be u) (int_bits 32 w))
    (from_bits_be <$> chunks 32 bs) (bytes_to_words bytes).
Proof.
  intros Hl HB. apply Forall2_fmap_l. rewrite <- bit_words_bytes.
  apply Forall2_fmap_r. pose proof (chunks_Forall2 _ 32 _ _ ltac:(lia) HB) as HC.
  assert (Forall (λ c, length c = 32) (chunks 32 (bytes ≫= byte_bits))) as HL.
  { apply (chunks_lengths 32 n); [lia|]. rewrite length_bind_byte_bits. lia. }
  induction HC as [|c vs cs vss Hcv _ IH]; [constructor|].
  apply Forall_cons in HL as [Hlv HL]. constructor; [|by apply IH].
  unfold compose. rewrite int_bits_bits_int by done. rewrite from_into_bits; [done|]. by rewrite (Forall2_length _ _ _ Hcv).
Qed.

(** The packed half of a state. *)
Lemma pack_half (R : Lc → Scalar → Prop) {sem : LcSem R} us ws h :
  Forall2 (λ u w, bits_are R (into_bits_be u) (int_bits 32 w)) us ws →
  length ws = 8 → h < 2 → Forall word ws →
  R (pack (slice (128 * h) (128 * (h + 1)) (us ≫= into_bits_be))) (state_half (words_to_bytes ws) h).
Proof.
  intros HF Hl Hh HW.
  assert (bits_are R (us ≫= into_bits_be) (words_to_bytes ws ≫= byte_bits)) as HB.
  { rewrite words_bits by done. clear Hl HW. induction HF as [|u w us ws Hu HF IH]; [constructor|].
    cbn [mbind list_bind]. by apply Forall2_app. }
  pose proof (length_words_to_bytes ws) as Hlw. rewrite Hl in Hlw.
  unfold state_half. rewrite from_be_of_int
    by (unfold CHUNK_BYTES; rewrite length_slice by lia; lia).
  rewrite <- bits_int_bind_byte_bits. apply pack_sem; [done|].
  replace (slice (CHUNK_BYTES * h) (CHUNK_BYTES * (h + 1)) (words_to_bytes ws) ≫= byte_bits)
    with (slice (128 * h) (128 * (h + 1)) (words_to_bytes ws ≫= byte_bits)).
  { unfold slice. by apply Forall2_take, Forall2_drop. }
  unfold CHUNK_BYTES. clear -Hlw Hh. remember (words_to_bytes ws) as l. clear Heql.
  do 32 (destruct l as [|? l]; [done|]). destruct l; [|done].
  destruct h as [|[|]]; [reflexivity|reflexivity|lia].
Qed.

Lemma bytes_to_words_state l : length l = 32 → hash_state (bytes_to_words l).
Proof. intros Hl. by apply (bytes_to_words_range l 8). Qed.

Lemma compress_fips ws block :
  hash_state ws → length block = 64 → compress ws block = fips_compress ws (bytes_to_words block).
Proof. intros [Hl HW] Hb. rewrite compress_block by done. by apply compress256_fips. Qed.

(** The gadget's words are those of a state. *)
Definition words_are (R : Lc → Scalar → Prop) (us : list UInt32) (ws : list Z) : Prop :=
  Forall2 (λ u w, bits_are R (into_bits_be u) (int_bits 32 w)) us ws.

(** The state that the compression at [j] starts from: the previous result, or
    the table's. *)
Definition starting (v : nat → Scalar) (before : option (list Z)) : list Z :=
  default (bytes_to_words (state_bytes v)) before.

Definition before_known (R : Lc → Scalar → Prop) (us : option (list UInt32)) (ws : option (list Z)) : Prop :=
  match us, ws with
  | None, None => True
  | Some us, Some ws => words_are R us ws ∧ hash_state ws
  | _, _ => False
  end.

(** What one compression forces of the table's position [j]. *)
Record position_ok (layout : Layout) (f : nat → Scalar) (g : nat → nat → Scalar) (start : nat → Scalar)
    (j : nat) (before : option (list Z)) : Prop := {
  po_chunks c : c < CHUNKS_PER_BLOCK → (repr (f (CHUNKS_PER_BLOCK * j + c)%nat) < 2 ^ 128)%Z;
  po_before h : before = None → h < 2 → (repr (before_value layout g start j h) < 2 ^ 128)%Z;
  po_state h : h < 2 →
    g j h = state_half (words_to_bytes
      (compress (starting (before_value layout g start j) before) (block_bytes f j))) h;
}.

Lemma starting_hash_state v before :
  (∀ ws, before = Some ws → hash_state ws) → hash_state (starting v before).
Proof.
  intros Hb. destruct before as [ws|]; [by apply Hb|].
  apply bytes_to_words_state, length_state_bytes.
Qed.

Section Compression.
Variables (cells : Cells) (f : nat → Scalar) (g : nat → nat → Scalar) (start : nat → Scalar).
Variables (layout : Layout) (sel : OneHot) (i k : nat).
Hypotheses (Hcells : table_cells D cells f g start) (Hok : layout_ok layout).
Hypotheses (Hk : k < per_instance layout) (Hsel : selects D sel (instances layout) i).
Local Abbreviation pos := (λ i, per_instance layout * i + k).

Lemma position_in i' : i' < instances layout → pos i' < POSITIONS.
Proof. intros. by apply position_bound. Qed.

(** The state after the block is the table's. *)
Lemma gadget_state_after us ws :
  words_are D us ws → hash_state ws →
  gadget σ (mapM (λ h,
    entries ← mapM (λ j, cells_state cells j h) (pos <$> range (instances layout));
    half ← ns ("state after half " +:+ pretty h) (select sel entries);
    let computed := pack (slice (128 * h) (128 * (h + 1)) (us ≫= into_bits_be)) in
    ns ("state after half " +:+ pretty h +:+ " matches") (equal computed half)) (range 2))
    (λ _, ∀ h, h < 2 → g (pos i) h = state_half (words_to_bytes ws) h).
Proof.
  intros Hus [Hlw HW]. eapply gadget_mono.
  { apply (gadget_mapM_Forall2 σ _ _ (λ h (_ : unit), g (pos i) h = state_half (words_to_bytes ws) h)).
    intros h Hh%elem_of_seq.
    destruct (reads_entries D (λ j, cells_state cells j h) (λ j, g j h) pos (instances layout))
      as (xs & -> & HF).
    { intros i' Hi'. apply (tc_states _ _ _ _ _ Hcells); [by apply position_in|lia]. }
    eapply gadget_bind; [by apply gadget_ret with (P := λ x, x = xs)|]. intros ? ->.
    eapply gadget_bind; [apply gadget_ns; by apply (gadget_entry sel (instances layout) i xs (λ j, g j h) pos)|].
    intros half Hhalf. apply gadget_ns. eapply gadget_mono; [apply gadget_equal|].
    intros [] E. cbv beta in E, Hhalf. unfold denotes in Hhalf. rewrite <- Hhalf, <- E.
    apply (pack_half D); [done|done|lia|done]. }
  intros us' HF h Hh.
  destruct (Forall2_lookup_l _ _ _ h h HF) as (? & _ & E); [by apply lookup_seq_lt|done].
Qed.

Lemma gadget_compression us before :
  before_known D us before →
  gadget σ (compression cells layout sel k us) (λ '(_, us'),
    let after := compress (starting (before_value layout g start (pos i)) before) (block_bytes f (pos i)) in
    words_are D us' after ∧ hash_state after ∧ position_ok layout f g start (pos i) before).
Proof.
  intros Hb. unfold compression. cbv zeta. set (v := before_value layout g start (pos i)).
  eapply gadget_bind.
  { apply (gadget_selected_bits sel (instances layout) i pos
      (λ c j, cells_chunk cells (CHUNKS_PER_BLOCK * j + c)) (λ c j, f (CHUNKS_PER_BLOCK * j + c))); [done|].
    intros. apply (tc_chunks _ _ _ _ _ Hcells). }
  intros block [HB Hchunks]. cbv beta in HB, Hchunks. rewrite block_bits in HB.
  eapply (gadget_bind _ _ _ (λ us', words_are D us' (starting v before) ∧
    (before = None → ∀ h, h < 2 → (repr (v h) < 2 ^ 128)%Z))).
  { destruct us as [us|], before as [ws|]; cbn in Hb; try done.
    - apply gadget_ret. split; [apply Hb|done].
    - eapply gadget_bind.
      { apply (gadget_selected_bits sel (instances layout) i pos
          (λ h j, cells_state_before_in cells layout j h)
          (λ h j, before_value layout g start j h)); [done|].
        intros h i' Hh Hi'. apply (reads_before D cells f); [done|done|by apply position_in|done]. }
      intros bs [HB' Hlt]. cbv beta in HB', Hlt.
      apply gadget_ret. split; [|by intros _].
      apply from_bits_words with (n := 8); [apply length_state_bytes|]. rewrite <- state_bits. exact HB'. }
  intros us' [Hus Hlt].
  assert (hash_state (starting v before)) as Hst.
  { apply starting_hash_state. intros ws ->. destruct us; [apply Hb|done]. }
  eapply gadget_bind.
  { apply gadget_ns. eapply compression_rules; [exact HB| |exact Hus|apply Hst|apply Hst].
    rewrite length_bind_byte_bits, length_block_bytes. done. }
  intros out Hout. cbv beta in Hout. rewrite bit_words_bytes in Hout.
  rewrite <- compress_fips in Hout by (done || apply length_block_bytes).
  assert (hash_state (compress (starting v before) (block_bytes f (pos i)))) as Ha.
  { rewrite compress_fips by (done || apply length_block_bytes). apply fips_hash_state. }
  eapply gadget_bind; [by apply gadget_state_after|]. intros ? Hafter. cbv beta in Hafter.
  apply gadget_ret. split_and!; [done|done|].
  split; [exact Hchunks|intros h E Hh; by apply Hlt|exact Hafter].
Qed.
End Compression.
End StepRules.

(** * The slots of the table *)
Section SlotValues.
Context `{Bellpepper}.

(** The table as an assignment of the shared slots. *)
Definition slot_chunk (τ : Assignment) (c : nat) : Scalar :=
  if (c <? CHUNKS_PER_BLOCK * POSITIONS)%nat
  then τ (Aux (CELLS_PER_POSITION * (c / CHUNKS_PER_BLOCK) + c mod CHUNKS_PER_BLOCK)) else ZERO.
Definition slot_state (τ : Assignment) (j h : nat) : Scalar := τ (Aux (CELLS_PER_POSITION * j + CHUNKS_PER_BLOCK + h)).
Definition slot_start (τ : Assignment) (h : nat) : Scalar := τ (Aux (START + h)).

(** Instances share the table's slots. *)
Definition share_table (σ τ : Assignment) : Prop := ∀ k, k < START + 2 → σ (Aux k) = τ (Aux k).
End SlotValues.

Section Slots.
Context `{CompressionGadget} `{Sha2} (σ : Assignment).

(** Slots numbered one after the other. *)
Definition slots_from (na : nat) (ns : list AllocatedNum) : Prop :=
  get_variable <$> ns = Aux <$> seq na (length ns).

Lemma wp_mapM_slots {A B} (flat : B → list AllocatedNum) (f : A → Synth B) c l na ni :
  (∀ x na, wp σ (f x) na ni (λ y na' ni',
     na' = na + c ∧ ni' = ni ∧ length (flat y) = c ∧ slots_from na (flat y))) →
  wp σ (mapM f l) na ni (λ ys na' ni', na' = na + c * length l ∧ ni' = ni ∧
    length (ys ≫= flat) = c * length l ∧ slots_from na (ys ≫= flat)).
Proof.
  intros Hf. revert na. induction l as [|x l IH]; intros na; cbn [mapM].
  - cbn. split_and!; [lia|done|lia|done].
  - apply wp_bind. eapply wp_mono; [apply Hf|]. intros y na' ni' (-> & -> & Hl & Hs). cbv beta.
    apply wp_bind. eapply wp_mono; [apply IH|]. intros ys na' ni' (-> & -> & Hl' & Hs').
    cbn. rewrite length_app. split_and!; [lia|done|lia|].
    unfold slots_from in *. rewrite fmap_app, length_app, seq_app, fmap_app, Hs, Hs'. by rewrite Hl.
Qed.

Lemma wp_alloc_cell name v na ni :
  wp σ (alloc_cell name v) na ni (λ y na' ni',
    na' = na + 1 ∧ ni' = ni ∧ length [y] = 1 ∧ slots_from na [y]).
Proof.
  unfold alloc_cell. apply wp_ns, num_alloc_wp. intros n En.
  split_and!; [lia|done|done|]. unfold slots_from. cbn. by rewrite En.
Qed.

Lemma bind_one {A} (l : list A) : (l ≫= λ y, [y]) = l.
Proof. by rewrite (bind_singleton id), list_fmap_id. Qed.

(** The cells are the first slots of every instance. *)
Lemma wp_allocate t na ni :
  wp σ (allocate t) na ni (λ cells na' ni', na' = na + 194 ∧ ni' = ni ∧
    length cells = 194 ∧ slots_from na cells).
Proof.
  unfold allocate. apply wp_bind. eapply wp_mono.
  { apply (wp_mapM_slots id _ 6). intros j na'. apply wp_bind. eapply wp_mono.
    { apply (wp_mapM_slots (λ y, [y]) _ 1). intros. apply wp_alloc_cell. }
    intros chunks na1 ni1 (-> & -> & Hl1 & H1'). apply wp_bind. eapply wp_mono.
    { apply (wp_mapM_slots (λ y, [y]) _ 1). intros. apply wp_alloc_cell. }
    intros halves na1 ni1 (-> & -> & Hl2 & H2'). rewrite bind_one in *. cbn in *.
    unfold slots_from in *. rewrite length_app, fmap_app, Hl1, Hl2, H1', H2', Hl1, Hl2.
    split_and!; [lia|done|done|]. change 6 with (4 + 2). rewrite seq_app, fmap_app. done. }
  intros pos na1 ni1 (-> & -> & Hl1 & H1'). apply wp_bind. eapply wp_mono.
  { apply (wp_mapM_slots (λ y, [y]) _ 1). intros. apply wp_alloc_cell. }
  intros start na1 ni1 (-> & -> & Hl2 & H2'). rewrite bind_one in *.
  assert (pos ≫= id = concat pos) as E by (clear; induction pos; cbn; [done|by rewrite IHpos]).
  rewrite E in *. cbn [length range seq Nat.mul] in Hl1, Hl2 |- *.
  unfold slots_from in *. cbn. rewrite length_app, fmap_app, Hl1, Hl2, H1', H2', Hl1, Hl2.
  split_and!; [done || lia|done|done|]. by rewrite <- fmap_app, <- seq_app.
Qed.

Lemma slot_cell τ cells k : share_table σ τ → length cells = 194 → slots_from 0 cells → k < 194 →
  ∃ x, (n ← index cells k; mret (num n)) = mret x ∧ denotes σ x (τ (Aux k)).
Proof.
  intros Hτ Hl Hs Hk. destruct (lookup_lt_is_Some_2 cells k) as [n En]; [lia|].
  unfold index. rewrite En. exists (num n). split; [done|].
  unfold denotes. rewrite lval_num, <- Hτ by done. f_equal.
  apply (f_equal (.!! k)) in Hs. rewrite !list_lookup_fmap, En, lookup_seq_lt in Hs by lia.
  cbn in Hs. congruence.
Qed.

Lemma slots_table_cells τ cells :
  share_table σ τ → length cells = 194 → slots_from 0 cells →
  table_cells (denotes σ) cells (slot_chunk τ) (slot_state τ) (slot_start τ).
Proof.
  intros Hτ Hl Hs. split.
  - intros c. unfold cells_chunk, slot_chunk. destruct (Nat.ltb_spec c (CHUNKS_PER_BLOCK * POSITIONS)) as [L|L].
    + apply slot_cell; [done|done|done|]. unfold CELLS_PER_POSITION, CHUNKS_PER_BLOCK, POSITIONS in *.
      pose proof (Nat.div_mod_eq c 4). pose proof (Nat.mod_upper_bound c 4). lia.
    + eexists; split; [done|]. apply sem_zero.
  - intros j h Hj Hh. apply slot_cell; [done|done|done|].
    unfold CELLS_PER_POSITION, CHUNKS_PER_BLOCK, POSITIONS in *. lia.
  - intros h Hh. apply slot_cell; [done|done|done|].
    unfold START, CELLS_PER_POSITION, CHUNKS_PER_BLOCK, POSITIONS. lia.
Qed.

(** * An instance *)
Section OneInstance.
Variables (f : nat → Scalar) (g : nat → nat → Scalar) (start : nat → Scalar) (layout : Layout).

(** The result of the instance's compressions before the [k]th. *)
Definition result_before (i k : nat) : option (list Z) :=
  foldl (λ before k, let j := (per_instance layout * i + k)%nat in
    Some (compress (starting (before_value layout g start j) before) (block_bytes f j)))
    None (range k).

Definition instance_ok (i : nat) : Prop :=
  ∀ k, k < per_instance layout →
  position_ok layout f g start (per_instance layout * i + k) (result_before i k).

Lemma gadget_compressions cells sel i :
  table_cells (denotes σ) cells f g start → layout_ok layout →
  selects (denotes σ) sel (instances layout) i →
  gadget σ (foldM (λ result k,
    '(_, words) ← ns ("compression " +:+ pretty k) (compression cells layout sel k result);
    mret (Some words)) None (range (per_instance layout))) (λ _, instance_ok i).
Proof.
  intros Hc Hok Hs. eapply gadget_mono.
  { apply (gadget_foldM σ _ _ _ (λ done us,
      before_known (denotes σ) us (result_before i (length done)) ∧
      ∀ k, k < length done → position_ok layout f g start (per_instance layout * i + k) (result_before i k))).
    - split; [done|]. cbn. lia.
    - intros done x us Hp [Hb Hd]. apply prefix_snoc_lookup in Hp as [Hx _].
      apply lookup_seq in Hx as [Hx Hlt]. cbn in Hx. subst x.
      eapply gadget_bind; [apply gadget_ns; by eapply (gadget_compression σ cells f g start layout sel i)|].
      intros [? us'] (Hw & Ha & Hpo). apply gadget_ret. rewrite length_app. cbn [length].
      split.
      + unfold result_before, range. rewrite seq_app, foldl_app. cbn. by split.
      + intros k Hk. destruct (decide (k = length done)) as [->|N]; [exact Hpo|]. apply Hd. lia. }
  intros us [_ Hd] k Hk. apply Hd. unfold range. by rewrite length_seq.
Qed.

(** The rules of an instance: its public value is a position of the table,
    where the compression is right. *)
Lemma wp_step_precommitted s cells na ni :
  st_layout s = layout → layout_ok layout → table_cells (denotes σ) cells f g start →
  wp σ (step_precommitted s cells) na ni (λ _ _ ni', ni' = S ni ∧
    ∃ i, i < instances layout ∧ σ (Input ni) = of_int (Z.of_nat i) ∧ instance_ok i).
Proof.
  intros El Hok Hc. unfold step_precommitted. apply wp_bind. cbn [is_witness_generator wp].
  cbv zeta. rewrite El. apply wp_bind, wp_ns, num_alloc_input_wp. intros position Ep.
  assert (instances layout ≤ 32) as Hi.
  { unfold instances. destruct Hok as [_ Hp]. apply Nat.Div0.div_le_upper_bound. unfold POSITIONS. nia. }
  assert (gadget σ (
    selector ← ns "selector" (one_hot_alloc (instances layout) (Some (st_position s)));
    ns "selected position" (equal (one_hot_index selector) (num position)) ;;
    foldM (λ result k,
      '(_, words) ← ns ("compression " +:+ pretty k) (compression cells layout selector k result);
      mret (Some words)) None (range (per_instance layout)) ;;
    mret ([] : list AllocatedNum)) (λ _, ∃ i, i < instances layout ∧
      σ (Input ni) = of_int (Z.of_nat i) ∧ instance_ok i)) as HG.
  { eapply gadget_bind; [apply gadget_ns, gadget_one_hot_alloc; unfold p; lia|]. intros sel [i Hs].
    eapply gadget_bind; [apply gadget_ns, gadget_equal|]. intros [] E. cbv beta in E.
    eapply gadget_bind; [by apply gadget_compressions|]. intros ? HI. apply gadget_ret.
    exists i. split_and!; [apply Hs| |done].
    rewrite lval_num, Ep in E. rewrite <- E.
    apply (index_sem (denotes σ) sel (instances layout)); [lia|done]. }
  eapply wp_gadget; [apply HG|]. intros ? na' HP. by split.
Qed.
End OneInstance.

(** The whole step circuit, from its first slot. *)
Lemma wp_step τ s Q :
  layout_ok (st_layout s) → share_table σ τ →
  (∀ na ni i, i < instances (st_layout s) → σ (Input 1) = of_int (Z.of_nat i) →
     instance_ok (slot_chunk τ) (slot_state τ) (slot_start τ) (st_layout s) i → Q tt na ni) →
  wp σ (synthesis s) 0 1 Q.
Proof.
  intros Hok Hτ HQ. unfold synthesis. apply wp_bind, wp_ns. cbn [shared step_circuit].
  apply wp_ns. eapply wp_mono; [apply wp_allocate|]. intros cells na ni (_ & -> & Hl & Hs).
  cbv beta. apply wp_bind, wp_ns. cbn [precommitted]. eapply wp_mono.
  { eapply wp_step_precommitted; [done|done|by apply slots_table_cells]. }
  intros pv na' ni (_ & i & Hi & E & HI). cbv beta. apply wp_ns. cbn. by eapply HQ.
Qed.
End Slots.

(** * The hash chains of the table *)
Section HashChains.
Context `{CompressionGadget} `{Sha2}.

Lemma state_bytes_halves l : length l = 32 → state_bytes (state_half l) = l.
Proof.
  intros Hl. unfold state_bytes, state_half, CHUNK_BYTES.
  assert (∀ h, h < 2 → be_bytes 16 (repr (from_be (slice (16 * h) (16 * (h + 1)) l))) = slice (16 * h) (16 * (h + 1)) l) as E.
  { intros h Hh. assert (length (slice (16 * h) (16 * (h + 1)) l) = 16) as Hs by (rewrite length_slice; lia).
    pose proof (be_int_range (slice (16 * h) (16 * (h + 1)) l)) as R. rewrite Hs in R.
    rewrite from_be_of_int, repr_of_int by lia.
    rewrite Z.mod_small by (unfold p; lia). by apply be_bytes_be_int. }
  rewrite !E by lia. unfold slice. change (16 * 0) with 0. rewrite drop_0.
  change (16 * (0 + 1) - 0) with 16. change (16 * (1 + 1) - 16 * 1) with 16. change (16 * 1) with 16.
  rewrite (take_ge (drop 16 l)) by (rewrite length_drop; lia). apply take_drop.
Qed.

Lemma state_bytes_ext v w : (∀ h, h < 2 → v h = w h) → state_bytes v = state_bytes w.
Proof. intros E. unfold state_bytes. by rewrite !E by lia. Qed.

Context (f : nat → Scalar) (g : nat → nat → Scalar) (start : nat → Scalar) (layout : Layout).

(** Every instance's compression is right. *)
Definition table_ok : Prop := ∀ i, i < instances layout → instance_ok f g start layout i.

(** The states of position [j] are those of the words [ws]. *)
Definition state_is (j : nat) (ws : list Z) : Prop :=
  ∀ h, h < 2 → g j h = state_half (words_to_bytes ws) h.

(** The words that the chain of a region starts from. *)
Definition region_start (r : Region) : list Z :=
  bytes_to_words (state_bytes (before_value layout g start (first r))).

Lemma region_start_hash r : hash_state (region_start r).
Proof. apply bytes_to_words_state, length_state_bytes. Qed.

Lemma region_start_iv r :
  first r ≠ first (signed layout) → starts_from_iv layout (first r) = true → region_start r = IV.
Proof.
  intros N E. unfold region_start.
  rewrite (state_bytes_ext _ (state_half iv_bytes)).
  - rewrite state_bytes_halves by done. unfold iv_bytes. apply bytes_to_words_to_bytes, IV_words.
  - intros h _. unfold before_value. destruct (Nat.eqb_spec (first r) (first (signed layout))); [done|]. by rewrite E.
Qed.

Lemma run_blocks_hash_state st bs :
  hash_state st → Forall (λ b, length b = 64) bs → hash_state (run_blocks st bs).
Proof. intros Hs Hb. apply run_blocks_fips; [done|done]. Qed.

Definition region_blocks (r : Region) (k : nat) : list (list byte) := block_bytes f <$> seq (first r) k.

Lemma region_blocks_64 r k : Forall (λ b, length b = 64) (region_blocks r k).
Proof. apply Forall_fmap, Forall_forall. intros j _. apply length_block_bytes. Qed.

(** The states of a region are the hash chain of its blocks. *)
Lemma region_states r k :
  per_instance layout = 1 → table_ok → in_table r → unbroken layout r →
  k < blocks r → state_is (first r + k) (run_blocks (region_start r) (region_blocks r (S k))).
Proof.
  intros Hp Ht Hin Hu. unfold in_table in Hin. induction k as [|k IH]; intros Hk h Hh.
  - destruct (Ht (first r)) with (k := 0) as [_ _ Hs];
      [unfold instances; rewrite Hp, Nat.div_1_r; lia|lia|].
    rewrite Hp, Nat.mul_1_l, Nat.add_0_r in Hs. rewrite Nat.add_0_r, (Hs h Hh). done.
  - destruct (Ht (first r + S k)) with (k := 0) as [_ _ Hs];
      [unfold instances; rewrite Hp, Nat.div_1_r; lia|lia|].
    rewrite Hp, Nat.mul_1_l, Nat.add_0_r in Hs. rewrite (Hs h Hh). cbn [starting result_before foldl range seq default].
    rewrite (state_bytes_ext _ (state_half (words_to_bytes (run_blocks (region_start r) (region_blocks r (S k)))))).
    + assert (hash_state (run_blocks (region_start r) (region_blocks r (S k)))) as [Hl HW]
        by (apply run_blocks_hash_state; [apply region_start_hash|apply region_blocks_64]).
      rewrite state_bytes_halves by (rewrite length_words_to_bytes; lia).
      rewrite bytes_to_words_to_bytes by done. unfold region_blocks at 2, run_blocks.
      replace (S (S k)) with (S k + 1) by lia. rewrite seq_app, fmap_app, foldl_app. done.
    + intros h' Hh'. unfold before_value. destruct (Hu (first r + S k)) as [-> N]; [lia|].
      rewrite (proj2 (Nat.eqb_neq _ _)) by done. rewrite <- IH by lia. f_equal. lia.
Qed.

Lemma table_chunks_small c :
  per_instance layout = 1 → table_ok → c < CHUNKS_PER_BLOCK * POSITIONS →
  (repr (f c) < 2 ^ 128)%Z.
Proof.
  intros Hp Ht Hc. unfold CHUNKS_PER_BLOCK, POSITIONS in Hc.
  pose proof (Nat.div_mod_eq c 4) as E. pose proof (Nat.mod_upper_bound c 4).
  destruct (Ht (c / 4)) with (k := 0) as [Hch _ _]; [|lia|].
  - unfold instances, POSITIONS. rewrite Hp, Nat.div_1_r. lia.
  - rewrite Hp, Nat.mul_1_l, Nat.add_0_r in Hch. rewrite E. apply Hch. unfold CHUNKS_PER_BLOCK. lia.
Qed.
End HashChains.

(** * Properties *)
Section StepsSound.
Context `{CompressionGadget} `{Sha2}.

(** The instances of a layout: each satisfies the step's rules with its own
    position as its public value, over the shared slots of [τ]. *)
Definition steps_hold (layout : Layout) (σ : nat → Assignment) (τ : Assignment) : Prop :=
  ∀ i, i < instances layout →
    share_table (σ i) τ ∧ σ i (Input 1) = from_u64 (Z.of_nat i) ∧
    ∃ s, st_layout s = layout ∧ satisfies (σ i) (synthesis s) 0 1.

Lemma steps_table_ok layout σ τ :
  layout_ok layout → steps_hold layout σ τ →
  table_ok (slot_chunk τ) (slot_state τ) (slot_start τ) layout.
Proof.
  intros Hok Hσ i Hi. destruct (Hσ i Hi) as (Hτ & Hp & s & <- & Hs).
  assert (instances (st_layout s) ≤ 32) as Hn.
  { unfold instances. destruct Hok as [_ Hp0]. apply Nat.Div0.div_le_upper_bound. unfold POSITIONS. nia. }
  pose proof (wp_step (σ i) τ s (λ _ _ _,
    instance_ok (slot_chunk τ) (slot_state τ) (slot_start τ) (st_layout s) i) Hok Hτ) as W.
  apply wp_shape in W as (_ & _ & W); [exact W| |exact Hs].
  intros _ _ i' Hi' E HI. rewrite Hp, from_u64_of_int in E by lia.
  apply of_int_inj in E; [|unfold p; lia|unfold p; lia]. by replace i with i' by lia.
Qed.

Lemma slot_chunks_small layout τ :
  per_instance layout = 1 → table_ok (slot_chunk τ) (slot_state τ) (slot_start τ) layout →
  ∀ c, (repr (slot_chunk τ c) < 2 ^ 128)%Z.
Proof.
  intros Hp HT c. destruct (decide (c < CHUNKS_PER_BLOCK * POSITIONS)) as [L|L].
  - by eapply table_chunks_small.
  - unfold slot_chunk. rewrite (proj2 (Nat.ltb_ge _ _)) by lia. by rewrite <- of_int_0, repr_of_int.
Qed.

(** C28: Whoever assigns the slots, when every instance satisfies the rules of
    the step and reports its own position, the shared table is a table of
    hash chains: each of its chunks is a number of 128 bits, and the state
    after every block of a region is the SHA-256 compression of the region's
    blocks up to it, from the initial value or, for the signed message, from
    the table's start state. *)
Theorem steps_sound layout (σ : nat → Assignment) (τ : Assignment) :
  layout_ok layout → per_instance layout = 1 → steps_hold layout σ τ →
  (∀ c, (repr (slot_chunk τ c) < 2 ^ 128)%Z) ∧
  ∀ r k, in_table r → unbroken layout r → k < blocks r →
    (first r = first (signed layout) ∨ starts_from_iv layout (first r) = true) →
    state_is (slot_state τ) (first r + k)
      (run_blocks (if bool_decide (first r = first (signed layout))
                   then bytes_to_words (state_bytes (slot_start τ)) else IV)
         (region_blocks (slot_chunk τ) r (S k))).
Proof.
  intros Hok Hp Hσ. pose proof (steps_table_ok _ _ _ Hok Hσ) as HT. split.
  - by eapply slot_chunks_small.
  - intros r k Hin Hu Hk Hs. pose proof (region_states _ _ _ _ r k Hp HT Hin Hu Hk) as HR.
    destruct (bool_decide_reflect (first r = first (signed layout))) as [E|N].
    + replace (bytes_to_words (state_bytes (slot_start τ)))
        with (region_start (slot_state τ) (slot_start τ) layout r); [done|].
      unfold region_start. f_equal. apply state_bytes_ext. intros h _.
      unfold before_value. by rewrite E, Nat.eqb_refl.
    + rewrite <- (region_start_iv (slot_state τ) (slot_start τ) layout r); [done|done|]. by destruct Hs.
Qed.
End StepsSound.
