(* ===== verification/Packing.v ===== *)
(** Bytes and bits packed into field elements by the older engine: the loops
    that double or scale a coefficient, and the sums they build. Shared by
    [Sha256Mc] and [OffsetBind]. *)
From Stdlib Require Import ZArith Lia Strings.String Strings.Byte.
From Stdlib Require Import Field_tac Ring.
From stdpp Require Import base list numbers option strings pretty.
From S2P Require Import Prelude Bytes Field ConstraintSystem Shape CheckSystem Bellpepper Lc Bits Gadgets Select Limbs OneHotCursor.

(** [for _ in 0..n { coeff = coeff.double() }], and the same with a factor of
    256. *)
Definition doublings `{ScalarField} (n : nat) (coeff : Scalar) : Scalar := Nat.iter n double coeff.
Definition byte_shifts `{ScalarField} (n : nat) (coeff : Scalar) : Scalar :=
  Nat.iter n (λ c, c * from_u64 256)%S coeff.

(** [bytes.iter().fold(ZERO, |a, b| a * 256 + b)]. *)
Definition pack_be `{ScalarField} (bytes : list byte) : Scalar :=
  foldl (λ a b, a * from_u64 256 + from_u64 (b2z b))%S ZERO bytes.

Lemma bind_bind {A B C} (f : A → list B) (g : B → list C) l : (l ≫= f) ≫= g = l ≫= λ x, f x ≫= g.
Proof. induction l as [|x l IH]; [done|]. by rewrite !bind_cons, bind_app, IH. Qed.

Section Coefficients.
Context `{ScalarField}.
Add Field scalar_field : scalar_field_theory (morphism of_int_morph, constants [scalar_const]).

Lemma from_u64_256 : from_u64 256 = of_int 256.
Proof. by apply from_u64_of_int. Qed.

Lemma doublings_int n c : doublings n (of_int c) = of_int (c * 2 ^ Z.of_nat n).
Proof.
  induction n as [|n IH]; [by rewrite Z.mul_1_r|]. cbn [doublings Nat.iter nat_rect].
  change (nat_rect _ _ _ n) with (doublings n (of_int c)). rewrite IH, double_add, <-of_int_add. f_equal.
  rewrite Nat2Z.inj_succ, Z.pow_succ_r by lia. ring.
Qed.

Lemma byte_shifts_int n c : byte_shifts n (of_int c) = of_int (c * 256 ^ Z.of_nat n).
Proof.
  induction n as [|n IH]; [by rewrite Z.mul_1_r|]. cbn [byte_shifts Nat.iter nat_rect].
  change (nat_rect _ _ _ n) with (byte_shifts n (of_int c)). rewrite IH, from_u64_256, <-of_int_mul. f_equal.
  rewrite Nat2Z.inj_succ, Z.pow_succ_r by lia. ring.
Qed.

Lemma pack_be_int bytes : pack_be bytes = of_int (be_int bytes).
Proof.
  unfold pack_be. rewrite <-of_int_0. change (be_int bytes) with (foldl (λ v b, v * 256 + b2z b)%Z 0%Z bytes).
  generalize 0%Z as v. induction bytes as [|b bytes IH]; intros v; [done|]. cbn [foldl].
  assert (of_int v * from_u64 256 + from_u64 (b2z b) = of_int (v * 256 + b2z b))%S as ->; [|apply IH].
  pose proof (b2z_range b). rewrite from_u64_256, (from_u64_of_int (b2z b)) by lia.
  by rewrite <-of_int_mul, <-of_int_add.
Qed.
End Coefficients.

(** * Packs of sixteen bytes *)
Section Packs.
Context `{ScalarField}.

Definition pack_bytes_of (x : Scalar) : list byte := be_bytes 16 (repr x).

Lemma bind_slices {A} w c (l : list A) : (range c ≫= λ k, slice (w * k) (w * (k + 1)) l) = take (w * c) l.
Proof.
  induction c as [|c IH]; [by rewrite Nat.mul_0_r|]. unfold range in *. rewrite seq_S, bind_app, IH.
  cbn [mbind list_bind Nat.add]. rewrite app_nil_r. unfold slice.
  replace (w * (c + 1) - w * c) with w by lia. rewrite take_take_drop. f_equal. lia.
Qed.

(** Elements that are the packs of a list of bytes. *)
Lemma packs_of_bytes (v : nat → Scalar) c l :
  length l = 16 * c → (∀ k, k < c → v k = of_int (be_int (slice (16 * k) (16 * (k + 1)) l))) →
  (range c ≫= λ k, pack_bytes_of (v k)) = l ∧ ∀ k, k < c → (repr (v k) < 2 ^ 128)%Z.
Proof.
  intros Hl Hv.
  assert (∀ k, k < c → length (slice (16 * k) (16 * (k + 1)) l) = 16 ∧
    repr (v k) = be_int (slice (16 * k) (16 * (k + 1)) l)) as Hk.
  { intros k L. assert (length (slice (16 * k) (16 * (k + 1)) l) = 16) as Ll by (rewrite length_slice; lia).
    split; [done|]. rewrite (Hv k L), repr_of_int, Z.mod_small; [done|].
    pose proof (be_int_range (slice (16 * k) (16 * (k + 1)) l)) as R. rewrite Ll in R. split; [apply R|].
    eapply Z.lt_trans; [apply R|]. apply (lt_pow_p 128). lia. }
  split.
  - rewrite <-(firstn_all l) at 1. rewrite Hl, <-bind_slices.
    apply Forall_bind_ext, list.Forall_forall. intros k Hk'%elem_of_seq.
    destruct (Hk k ltac:(lia)) as [Ll E]. unfold pack_bytes_of. by rewrite E, be_bytes_be_int.
  - intros k L. destruct (Hk k L) as [Ll ->]. pose proof (be_int_range (slice (16 * k) (16 * (k + 1)) l)) as R.
    rewrite Ll in R. apply R.
Qed.
End Packs.

(** * Weighted sums *)
Section Weighted.
Context `{LinearCombinations} (σ : Var → Scalar).
Add Field scalar_field : scalar_field_theory (morphism of_int_morph, constants [scalar_const]).

(** A loop that adds terms worth the integers [zs]. *)
Lemma eval_terms {A} (add : LinearCombination → A → LinearCombination) (R : A → Z → Prop) l zs lc :
  (∀ lc a z, R a z → eval σ (add lc a) = (eval σ lc + of_int z)%S) → Forall2 R l zs →
  eval σ (foldl add lc l) = (eval σ lc + of_int (total zs))%S.
Proof.
  intros Hadd HF. revert lc. induction HF as [|a z l zs Ha _ IH]; intros lc; cbn [foldl].
  - change (total []) with 0%Z. rewrite of_int_0. ring.
  - rewrite IH, (Hadd _ _ _ Ha). change (total (z :: zs)) with (z + total zs)%Z. rewrite of_int_add. ring.
Qed.

Lemma total_app a b : total (a ++ b) = (total a + total b)%Z.
Proof.
  induction a as [|x a IH]; [done|].
  change (total ((x :: a) ++ b)) with (x + total (a ++ b))%Z. change (total (x :: a)) with (x + total a)%Z. lia.
Qed.

Lemma total_scale c l : total (Z.mul c <$> l) = (c * total l)%Z.
Proof.
  induction l as [|x l IH]; [cbn; lia|]. rewrite fmap_cons.
  change (total (c * x :: (Z.mul c <$> l)))%Z with (c * x + total (Z.mul c <$> l))%Z.
  change (total (x :: l)) with (x + total l)%Z. lia.
Qed.

(** The weights of bits, most significant first. *)
Definition bit_weights (vs : list bool) : list Z :=
  imap (λ i v, Z.b2z v * 2 ^ Z.of_nat (length vs - 1 - i))%Z vs.

Lemma bit_weights_cons v vs :
  bit_weights (v :: vs) = (Z.b2z v * 2 ^ Z.of_nat (length vs))%Z :: bit_weights vs.
Proof.
  unfold bit_weights. cbn [imap length]. f_equal; [f_equal; f_equal; lia|].
  apply imap_ext. intros i b _. cbn. f_equal. f_equal. lia.
Qed.

Lemma total_bits vs : total (bit_weights vs) = bits_int vs.
Proof.
  induction vs as [|v vs IH]; [done|]. rewrite bit_weights_cons, bits_int_cons, <-IH. done.
Qed.
End Weighted.

(** * Bits in weighted sums *)
Section PackedBits.
Context `{BooleanOps} (σ : Assignment).
Add Field scalar_field : scalar_field_theory (morphism of_int_morph, constants [scalar_const]).
Local Abbreviation D := (denotes σ).

(** A Boolean with a coefficient, a new bit with a coefficient. *)
Lemma eval_boolean_term lc b v c :
  D (bit b) (of_bool v) → eval σ (lc_add lc (Boolean_lc b one (of_int c))) = (eval σ lc + of_int (Z.b2z v * c))%S.
Proof.
  intros Hb. rewrite eval_add, Boolean_lc_scaled. change (eval σ (Boolean_lc b one ONE)) with (lval σ (bit b)).
  unfold denotes in Hb. rewrite Hb, of_int_mul. destruct v; simpl; rewrite ?of_int_1, ?of_int_0; ring.
Qed.

Lemma eval_slot_term lc b v c :
  bbit σ b v → eval σ (lc_add_term lc (of_int c, bit_get_variable b)) = (eval σ lc + of_int (Z.b2z v * c))%S.
Proof.
  intros Hb. rewrite eval_add_term, Hb, of_int_mul. destruct v; simpl; rewrite ?of_int_1, ?of_int_0; ring.
Qed.

(** The weights of a list that a predicate relates to bits. *)
Lemma weights_Forall2 {A} (R : A → bool → Prop) l vs (w : nat → Z) :
  Forall2 R l vs →
  Forall2 (λ '(i, a) z, ∃ v, R a v ∧ i < length l ∧ z = (Z.b2z v * w i)%Z) (imap (λ i a, (i, a)) l) (imap (λ i v, Z.b2z v * w i)%Z vs).
Proof.
  intros HF. apply Forall2_same_length_lookup. split; [by rewrite !length_imap, (Forall2_length _ _ _ HF)|].
  intros k [i a] z Ha Hz. apply list_lookup_imap_Some in Ha as (a' & Ea & [= -> ->]).
  apply list_lookup_imap_Some in Hz as (v & Ev & ->). exists v. split_and!; [|by eapply lookup_lt_Some|done].
  by apply (Forall2_lookup_lr _ _ _ _ _ _ HF Ea Ev).
Qed.

(** Bits packed most significant first. *)
Lemma eval_packed_booleans bs vs n lc :
  bits_are D bs vs → length vs = n →
  eval σ (foldl (λ lc '(i, b), lc_add lc (Boolean_lc b one (doublings (n - 1 - i) ONE))) lc (imap (λ i b, (i, b)) bs))
  = (eval σ lc + of_int (bits_int vs))%S.
Proof.
  intros HF <-. rewrite <-total_bits.
  apply (eval_terms _ _ (λ '(i, b) z, ∃ v, D (bit b) (of_bool v) ∧ (i < length bs)%nat ∧ z = Z.b2z v * 2 ^ Z.of_nat (length vs - 1 - i))%Z).
  - intros lc' [i b] z (v & Hv & _ & ->). rewrite <-of_int_1, doublings_int, Z.mul_1_l. by apply eval_boolean_term.
  - by apply weights_Forall2.
Qed.

Lemma eval_packed_slots bs vs n lc :
  Forall2 (bbit σ) bs vs → length vs = n →
  eval σ (foldl (λ lc '(i, b), lc_add_term lc (doublings (n - 1 - i) ONE, bit_get_variable b)) lc (imap (λ i b, (i, b)) bs))
  = (eval σ lc + of_int (bits_int vs))%S.
Proof.
  intros HF <-. rewrite <-total_bits.
  apply (eval_terms _ _ (λ '(i, b) z, ∃ v, bbit σ b v ∧ (i < length bs)%nat ∧ z = Z.b2z v * 2 ^ Z.of_nat (length vs - 1 - i))%Z).
  - intros lc' [i b] z (v & Hv & _ & ->). rewrite <-of_int_1, doublings_int, Z.mul_1_l. by apply eval_slot_term.
  - by apply weights_Forall2.
Qed.

(** A sum of the values of a one-hot selector. *)
Lemma total_one_hot n k (w : nat → Z) :
  total (imap (λ i v, Z.b2z v * w i)%Z (one_hot n k)) = if (k <? n)%nat then w k else 0%Z.
Proof.
  induction n as [|n IH]; [done|]. rewrite one_hot_S, imap_app, total_app, IH, length_one_hot. cbn [imap].
  rewrite Nat.add_0_r. change (total [?x]) with (x + 0)%Z.
  destruct (Nat.ltb_spec k n), (Nat.ltb_spec k (S n)); try lia.
  - rewrite bool_decide_eq_false_2 by lia. cbn. lia.
  - assert (n = k) as -> by lia. rewrite bool_decide_eq_true_2 by done. cbn [Z.b2z]. lia.
  - rewrite bool_decide_eq_false_2 by lia. cbn. lia.
Qed.

Lemma eval_selected_slots sel n k (f : nat → Z) lc :
  Forall2 (bbit σ) sel (one_hot n k) → k < n → (∀ j, j < n → (0 ≤ f j < 2 ^ 64)%Z) →
  eval σ (foldl (λ lc '(j, b), lc_add_term lc (from_u64 (f j), bit_get_variable b)) lc (imap (λ j b, (j, b)) sel))
  = (eval σ lc + of_int (f k))%S.
Proof.
  intros HF Hk Hf. pose proof (Forall2_length _ _ _ HF) as Hl. rewrite length_one_hot in Hl.
  rewrite (eval_terms σ _ (λ '(i, b) z, ∃ v, bbit σ b v ∧ (i < length sel)%nat ∧ z = Z.b2z v * f i)%Z
    _ (imap (λ i v, Z.b2z v * f i)%Z (one_hot n k))).
  - by rewrite total_one_hot, (proj2 (Nat.ltb_lt _ _)).
  - intros lc' [i b] z (v & Hv & Hi & ->). rewrite from_u64_of_int by (apply Hf; lia). by apply eval_slot_term.
  - by apply weights_Forall2.
Qed.

(** The bits of an integer that a slot of less than 255 bits holds. *)
Lemma slots_booleans bs vs : Forall2 (bbit σ) bs vs → bits_are D (Boolean_from <$> bs) vs.
Proof.
  intros HF. apply Forall2_fmap_l. eapply Forall2_impl; [exact HF|]. intros b v Hb.
  unfold denotes, lval, bit. simpl. by rewrite Boolean_lc_eval.
Qed.
End PackedBits.
