(* ===== verification/Sha256Var.v ===== *)
(** [sha256_var.rs]: SHA-256 of a message whose length the prover chooses, in
    a circuit of one shape. A one-hot selector holds the length; the padding
    is a sum of its bits; every block is compressed, and the state after the
    last block of the padding is selected. *)
From Stdlib Require Import ZArith Lia Strings.String Strings.Byte.
From Stdlib Require Import Field_tac Ring.
From stdpp Require Import base list numbers option strings pretty.
From S2P Require Import Prelude Bytes Field ConstraintSystem Shape CheckSystem Bellpepper Lc Bits Gadgets Select Sha256 Table Window Circuit Step OneHotCursor DigestId.

Definition SHA256_IV : list Z :=
  [0x6a09e667; 0xbb67ae85; 0x3c6ef372; 0xa54ff53a; 0x510e527f; 0x9b05688c; 0x1f83d9ab; 0x5be0cd19]%Z.
Definition MAX_VAR_MESSAGE_BYTES : nat := 176.
Definition NUM_BLOCKS : nat := 3.
Definition BUFFER_BYTES : nat := NUM_BLOCKS * 64.

(** bellpepper's [UInt32::constant]. *)
Class Uint32Constants `{CompressionGadget} := {
  UInt32_constant : Z → UInt32;
  UInt32_constant_rules (σ : Assignment) v :
    word v → bits_are (denotes σ) (into_bits_be (UInt32_constant v)) (int_bits 32 v);
}.

(** The sum in [usize] does not carry for a message whose length in bits, with
    the padding, is a word; every budget of the program is far below. *)
Definition terminal_block_for_len (n : nat) : nat :=
  let total_bits := n * 8 + 1 + 64 in
  div_ceil total_bits 512.

(** The byte of the padding of a message of [real_len] bytes. *)
Definition injected_byte (byte_idx real_len : nat) : option byte :=
  if byte_idx <? real_len then None else
  if byte_idx =? real_len then Some x80 else
  let terminal_block := terminal_block_for_len real_len in
  let len_field_start := terminal_block * 64 - 8 in
  if byte_idx <? len_field_start then Some x00 else
  if byte_idx <? len_field_start + 8 then
    let len_bits := (Z.of_nat real_len * 8)%Z in
    let offset := byte_idx - len_field_start in
    be_bytes 8 len_bits !! offset
  else Some x00.

(** [checked_mul], [checked_add] of a [usize] of 64 bits. *)
Definition checked_usize (z : Z) : option nat := if (z <? 2 ^ 64)%Z then Some (Z.to_nat z) else None.

(** The size of [vec![0u8; n]]: past [isize::MAX] the allocation panics. *)
Definition vec_capacity {E} (n : nat) : outcome E unit :=
  if (2 ^ 63 <=? Z.of_nat n)%Z then Panic "capacity overflow" else Ok tt.

Definition native_padded_buffer_sized (message : list byte) (real_len max_message_bytes num_blocks : nat)
    : outcome SynthesisError (list byte) :=
  buffer_bytes ← ok_or Unsatisfiable (checked_usize (Z.of_nat num_blocks * 64));
  needed ← ok_or Unsatisfiable (checked_usize (Z.of_nat max_message_bytes + 9));
  if (length message <? real_len) || (max_message_bytes <? real_len) || (buffer_bytes <? needed)
  then Err Unsatisfiable else
  vec_capacity buffer_bytes ;;
  tail ← mapM (λ byte_idx, ok_or Unsatisfiable (injected_byte byte_idx real_len))
    (seq real_len (buffer_bytes - real_len));
  Ok (take real_len message ++ tail).

Definition native_padded_buffer (message : list byte) (real_len : nat) : outcome SynthesisError (list byte) :=
  buf ← native_padded_buffer_sized message real_len MAX_VAR_MESSAGE_BYTES NUM_BLOCKS;
  if length buf =? BUFFER_BYTES then Ok buf else Err Unsatisfiable.

Section Sha256Var.
Context `{BooleanOps} `{!CompressionGadget} `{!Uint32Constants}.

(** The sum of the selector's bits at the indices that a condition chooses. *)
Definition selector_sum (len_selector : list AllocatedBit) (chosen : nat → bool) (ns : list nat)
    : Synth LinearCombination :=
  foldM (λ lc n,
    if chosen n then b ← index len_selector n; mret (lc_add_var lc (bit_get_variable b)) else mret lc) lc_zero ns.

(** [v >> (7 - bit_idx) & 1 == 1]. *)
Definition bit_of (v : byte) (bit_idx : nat) : bool := Z.testbit (b2z v) (Z.of_nat (7 - bit_idx)).
Definition injected_bit (byte_idx bit_idx n : nat) : bool :=
  match injected_byte byte_idx n with Some v => bit_of v bit_idx | None => false end.

(** Whether a place is in the message. *)
Definition message_active (len_selector : list AllocatedBit) (real_len max_message_bytes byte_idx : nat)
    : Synth (option Boolean) :=
  if byte_idx <? max_message_bytes then
    lc ← selector_sum len_selector (λ _, true) (seq (byte_idx + 1) (max_message_bytes - byte_idx));
    bit ← ns ("msg_active " +:+ pretty byte_idx) (AllocatedBit_alloc (Some (byte_idx <? real_len)));
    enforce ("msg_active " +:+ pretty byte_idx +:+ " matches selector sum")
      lc (lc_add_var lc_zero one) (lc_add_var lc_zero (bit_get_variable bit)) ;;
    mret (Some (Boolean_from bit))
  else mret None.

(** One bit of the buffer: of the message where it is active, of the padding
    elsewhere. *)
Definition padded_bit (len_selector : list AllocatedBit) (raw_bits : list Boolean)
    (real_len max_message_bytes byte_idx : nat) (msg_active : option Boolean) (bit_idx : nat) : Synth Boolean :=
  injected_lc ← selector_sum len_selector (injected_bit byte_idx bit_idx)
    (range (S (byte_idx `min` max_message_bytes)));
  '(combined_lc, expected_value) ←
    match msg_active with
    | Some active =>
        raw_bit ← index raw_bits (byte_idx * 8 + bit_idx);
        msg_contrib ← ns ("msg contribution byte " +:+ pretty byte_idx +:+ " bit " +:+ pretty bit_idx)
          (Boolean_and active raw_bit);
        expected ←
          (if byte_idx <? real_len then mret (Boolean_get_value raw_bit) else
           match injected_byte byte_idx real_len with
           | Some v => mret (Some (bit_of v bit_idx))
           | None => Panic' "byte_idx >= real_len"
           end);
        mret (lc_add (bool_lc msg_contrib) injected_lc, expected)
    | None =>
        match injected_byte byte_idx real_len with
        | Some v => mret (injected_lc, Some (bit_of v bit_idx))
        | None => Panic' "byte_idx >= real_len for byte_idx >= max"
        end
    end;
  out_bit ← ns ("buffer bit " +:+ pretty byte_idx +:+ " " +:+ pretty bit_idx) (AllocatedBit_alloc expected_value);
  enforce ("buffer bit " +:+ pretty byte_idx +:+ " " +:+ pretty bit_idx +:+ " matches combination")
    combined_lc (lc_add_var lc_zero one) (lc_add_var lc_zero (bit_get_variable out_bit)) ;;
  mret (Boolean_from out_bit).

Definition padded_buffer_bits (raw_bits : list Boolean) (real_len max_message_bytes num_blocks : nat)
    : Synth (list Boolean * list Boolean * list AllocatedBit) :=
  assert (length raw_bits =? max_message_bytes * 8) "raw_bits must be max_message_bytes*8 long" ;;
  assert (real_len <=? max_message_bytes) "real_len exceeds max_message_bytes" ;;
  let buffer_bytes := num_blocks * 64 in
  len_selector ← mapM (λ n,
    ns ("len_selector " +:+ pretty n) (AllocatedBit_alloc (Some (n =? real_len)))) (range (S max_message_bytes));
  let lc := foldl (λ lc b, lc_add_var lc (bit_get_variable b)) lc_zero len_selector in
  enforce "len_selector is one-hot (sums to exactly 1)" lc (lc_add_var lc_zero one) (lc_add_var lc_zero one) ;;
  bytes ← mapM (λ byte_idx,
    msg_active ← message_active len_selector real_len max_message_bytes byte_idx;
    bits ← mapM (padded_bit len_selector raw_bits real_len max_message_bytes byte_idx msg_active) (range 8);
    mret (bits, msg_active)) (range buffer_bytes);
  mret (concat bytes.*1, omap snd bytes, len_selector).

Definition sha256_var_sized (raw_bits : list Boolean) (real_len max_message_bytes num_blocks : nat)
    : Synth (list Boolean * list Boolean) :=
  '(buffer_bits, msg_active_bits, len_selector) ←
    padded_buffer_bits raw_bits real_len max_message_bytes num_blocks;
  '(_, block_states) ← foldM (λ '(state, block_states) i,
    let block := slice (i * 512) ((i + 1) * 512) buffer_bits in
    state ← ns ("compress block " +:+ pretty i) (sha256_compression_function block state);
    mret (state, block_states ++ [state])) (UInt32_constant <$> SHA256_IV, []) (range num_blocks);
  in_block ← mapM (λ k,
    lc ← selector_sum len_selector (λ n, terminal_block_for_len n =? k) (range (S max_message_bytes));
    bit ← ns ("in_block " +:+ pretty k) (AllocatedBit_alloc (Some (terminal_block_for_len real_len =? k)));
    enforce ("in_block " +:+ pretty k +:+ " matches selector sum")
      lc (lc_add_var lc_zero one) (lc_add_var lc_zero (bit_get_variable bit)) ;;
    mret (Boolean_from bit)) (seq 1 num_blocks);
  let per_block_bits := (λ s, s ≫= into_bits_be) <$> block_states in
  digest_bits ← mapM (λ bit_idx,
    acc ← foldM (λ acc k,
      selected ← index in_block k;
      bits ← index per_block_bits k;
      bit ← index bits bit_idx;
      term ← ns ("select digest bit " +:+ pretty bit_idx +:+ " block " +:+ pretty k) (Boolean_and selected bit);
      match acc with
      | None => mret (Some term)
      | Some prev =>
          c ← ns ("select-or digest bit " +:+ pretty bit_idx +:+ " block " +:+ pretty k) (Boolean_or prev term);
          mret (Some c)
      end) None (range num_blocks);
    match acc with Some acc => mret acc | None => Panic' "num_blocks >= 1" end) (range 256);
  mret (digest_bits, msg_active_bits).

Definition sha256_var (raw_bits : list Boolean) (real_len : nat) : Synth (list Boolean * list Boolean) :=
  sha256_var_sized raw_bits real_len MAX_VAR_MESSAGE_BYTES NUM_BLOCKS.
End Sha256Var.

(** * The padding *)
Section Padding.
Implicit Types (m : list byte) (n i : nat).

Lemma terminal_block_bounds n :
  n + 9 ≤ 64 * terminal_block_for_len n < n + 73 ∧ 0 < terminal_block_for_len n.
Proof.
  unfold terminal_block_for_len, div_ceil. set (x := (n * 8 + 1 + 64 + 512 - 1)%nat).
  pose proof (Nat.div_mod_eq x 512). pose proof (Nat.mod_upper_bound x 512). unfold x in *. lia.
Qed.

(** Past the message there is always a byte; before its end, never. *)
Lemma injected_some i n : n ≤ i → is_Some (injected_byte i n).
Proof.
  intros Hi. unfold injected_byte. destruct (Nat.ltb_spec i n); [lia|].
  destruct (i =? n)%nat; [done|]. destruct (i <? _)%nat; [done|].
  destruct (Nat.ltb_spec i (terminal_block_for_len n * 64 - 8 + 8)); [|done].
  apply lookup_lt_is_Some_2. rewrite length_be_bytes. pose proof (terminal_block_bounds n). lia.
Qed.

(** The buffer of a message of [n] bytes. *)
Definition buffer_byte m n i : byte :=
  if (i <? n)%nat then default x00 (m !! i) else default x00 (injected_byte i n).
Definition buffer m n len : list byte := buffer_byte m n <$> range len.

Lemma fips_zeros n :
  Z.to_nat ((55 - Z.of_nat n) mod 64) = (64 * terminal_block_for_len n - 9 - n)%nat.
Proof.
  pose proof (terminal_block_bounds n) as [[H1 H2] _]. set (t := terminal_block_for_len n) in *.
  rewrite <-(Z.mod_unique_pos (55 - Z.of_nat n) 64 (1 - Z.of_nat t) (Z.of_nat (64 * t - 9 - n))); lia.
Qed.

Lemma length_fips_pad m : length (fips_pad m) = (64 * terminal_block_for_len (length m))%nat.
Proof.
  unfold fips_pad. rewrite !length_app, length_replicate, length_be_bytes, fips_zeros. cbn [length].
  pose proof (terminal_block_bounds (length m)). lia.
Qed.

(** The first blocks of the buffer are the standard's padding. *)
Lemma buffer_fips m n len :
  n ≤ length m → 64 * terminal_block_for_len n ≤ len →
  take (64 * terminal_block_for_len n) (buffer m n len) = fips_pad (take n m).
Proof.
  intros Hn Hl. assert (length (take n m) = n) as Hm by (rewrite length_take; lia).
  pose proof (terminal_block_bounds n) as [[B1 B2] _]. set (t := terminal_block_for_len n) in *.
  apply list_eq. intros i. destruct (decide (i < 64 * t)) as [L|L].
  2: { rewrite !lookup_ge_None_2; [done| |].
    - rewrite length_fips_pad, Hm. fold t. lia.
    - rewrite length_take. lia. }
  rewrite lookup_take_lt by done. unfold buffer, range. rewrite list_lookup_fmap, lookup_seq_lt by lia.
  cbn [fmap option_fmap option_map Nat.add]. unfold buffer_byte, fips_pad. rewrite Hm, fips_zeros. fold t.
  destruct (Nat.ltb_spec i n) as [Li|Li].
  { rewrite lookup_app_l, lookup_take_lt by (rewrite ?Hm; lia).
    destruct (lookup_lt_is_Some_2 m i) as [b Eb]; [lia|]. by rewrite Eb. }
  rewrite lookup_app_r, Hm by lia. unfold injected_byte. rewrite (proj2 (Nat.ltb_ge _ _)) by done. fold t.
  destruct (Nat.eqb_spec i n) as [->|N]; [by rewrite Nat.sub_diag|].
  rewrite lookup_app_r by (cbn; lia). cbn [length].
  destruct (Nat.ltb_spec i (t * 64 - 8)) as [L1|L1].
  { rewrite lookup_app_l by (rewrite length_replicate; lia). symmetry. apply lookup_replicate_2. lia. }
  rewrite lookup_app_r, length_replicate by (rewrite length_replicate; lia).
  rewrite (proj2 (Nat.ltb_lt _ _)) by lia. rewrite (Z.mul_comm (Z.of_nat n)).
  replace (i - n - 1 - (64 * t - 9 - n))%nat with (i - (t * 64 - 8))%nat by lia.
  destruct (lookup_lt_is_Some_2 (be_bytes 8 (8 * Z.of_nat n)) (i - (t * 64 - 8))) as [b Eb];
    [rewrite length_be_bytes; lia|]. by rewrite Eb.
Qed.

(** A block of a list of bytes. *)
Definition block_at (l : list byte) i : list byte := slice (64 * i) (64 * (i + 1)) l.
Definition block_chain (l : list byte) (k : nat) : list Z :=
  foldl (λ state i, fips_compress state (bytes_to_words (block_at l i))) IV (range k).

Lemma chunks_blocks k l : length l = (64 * k)%nat → chunks 64 l = block_at l <$> range k.
Proof.
  revert l. induction k as [|k IH]; intros l Hl; [by destruct l|].
  rewrite chunks_cons by (try lia; by intros ->). rewrite IH by (rewrite length_drop; lia).
  unfold range. cbn [seq fmap list_fmap]. rewrite <-fmap_S_seq, <-list_fmap_compose. f_equal.
  apply list_fmap_ext. intros _ i _. unfold compose, block_at, slice. rewrite drop_drop.
  replace (64 * (i + 1) - 64 * i)%nat with (64 * (S i + 1) - 64 * S i)%nat by lia. do 2 f_equal. lia.
Qed.

Lemma chain_fips m :
  words_to_bytes (block_chain (fips_pad m) (terminal_block_for_len (length m))) = fips_sha256 m.
Proof.
  unfold fips_sha256, block_chain. rewrite (chunks_blocks _ _ (length_fips_pad m)).
  by rewrite foldl_fmap.
Qed.

Lemma chain_S l k : block_chain l (S k) = fips_compress (block_chain l k) (bytes_to_words (block_at l k)).
Proof. unfold block_chain, range. by rewrite seq_S, foldl_app. Qed.

Lemma chain_take l k : block_chain (take (64 * k) l) k = block_chain l k.
Proof.
  enough (∀ j, j ≤ k → block_chain (take (64 * k) l) j = block_chain l j) as Hj by by apply Hj.
  induction j as [|j IH]; intros Hj; [done|]. assert (block_at (take (64 * k) l) j = block_at l j) as E.
  { unfold block_at, slice. rewrite skipn_firstn_comm, take_take. f_equal. lia. }
  by rewrite !chain_S, IH, E by lia.
Qed.

Lemma chain_words l k : length (block_chain l k) = 8%nat ∧ Forall word (block_chain l k).
Proof.
  unfold block_chain, range. destruct k as [|k]; [apply IV_words|]. rewrite seq_S, foldl_app. cbn [foldl].
  split; [apply length_fips_compress|apply fips_compress_words].
Qed.

(** The digest is in the chain of the blocks of the buffer. *)
Lemma buffer_digest m n len :
  n ≤ length m → 64 * terminal_block_for_len n ≤ len →
  words_to_bytes (block_chain (buffer m n len) (terminal_block_for_len n)) = fips_sha256 (take n m).
Proof.
  intros Hn Hl. rewrite <-chain_take, buffer_fips, <-chain_fips by done. by rewrite length_take, Nat.min_l.
Qed.

(** The bytes after the message, and the two parts of the buffer. *)
Lemma injected_tail n k :
  mapM (λ i, ok_or Unsatisfiable (injected_byte i n)) (seq n k) = Ok (buffer_byte [] n <$> seq n k).
Proof.
  enough (∀ a, n ≤ a → mapM (λ i, ok_or Unsatisfiable (injected_byte i n)) (seq a k)
    = Ok (buffer_byte [] n <$> seq a k)) as Ha by by apply Ha.
  induction k as [|k IH]; intros a Ha; [done|]. cbn [seq mapM fmap list_fmap].
  destruct (injected_some a n Ha) as [b Eb]. rewrite Eb. cbn [ok_or mbind outcome_bind].
  rewrite IH by lia. cbn [mbind outcome_bind mret outcome_ret]. do 2 f_equal.
  unfold buffer_byte. rewrite (proj2 (Nat.ltb_ge _ _)) by done. by rewrite Eb.
Qed.

Lemma buffer_split m n len :
  n ≤ length m → n ≤ len → buffer m n len = take n m ++ (buffer_byte [] n <$> seq n (len - n)).
Proof.
  intros Hn Hl. unfold buffer, range. replace len with (n + (len - n)) at 1 by lia.
  rewrite seq_app, fmap_app. f_equal.
  - apply list_eq. intros i. rewrite list_lookup_fmap. destruct (decide (i < n)) as [L|L].
    + rewrite lookup_seq_lt, lookup_take_lt by done. cbn. unfold buffer_byte. rewrite (proj2 (Nat.ltb_lt _ _)) by done.
      destruct (lookup_lt_is_Some_2 m i) as [b Eb]; [lia|]. by rewrite Eb.
    + rewrite !lookup_ge_None_2; [done|rewrite length_take; lia|rewrite length_seq; lia].
  - apply list_fmap_ext. intros _ i Hi%list_elem_of_lookup_2. apply elem_of_seq in Hi.
    unfold buffer_byte. by rewrite (proj2 (Nat.ltb_ge i n)) by lia.
Qed.
End Padding.

(** * The native buffer *)

(** The sizes that a buffer fits. *)
Definition buffer_fits (message : list byte) (real_len max_message_bytes num_blocks : nat) : Prop :=
  (Z.of_nat num_blocks * 64 < 2 ^ 64)%Z ∧ (Z.of_nat max_message_bytes + 9 < 2 ^ 64)%Z ∧
  real_len ≤ length message ∧ real_len ≤ max_message_bytes ∧ max_message_bytes + 9 ≤ 64 * num_blocks.

Lemma native_buffer message real_len max_message_bytes num_blocks :
  match native_padded_buffer_sized message real_len max_message_bytes num_blocks with
  | Ok buf => buffer_fits message real_len max_message_bytes num_blocks ∧ (Z.of_nat (64 * num_blocks) < 2 ^ 63)%Z ∧
      buf = buffer message real_len (64 * num_blocks)
  | Err e => ¬ buffer_fits message real_len max_message_bytes num_blocks ∧ e = Unsatisfiable
  | Panic _ => buffer_fits message real_len max_message_bytes num_blocks ∧ (2 ^ 63 ≤ Z.of_nat (64 * num_blocks))%Z
  end.
Proof.
  unfold native_padded_buffer_sized, checked_usize, buffer_fits.
  destruct (Z.ltb_spec (Z.of_nat num_blocks * 64) (2 ^ 64)) as [L1|L1]; [|split; [|done]; lia].
  destruct (Z.ltb_spec (Z.of_nat max_message_bytes + 9) (2 ^ 64)) as [L2|L2]; [|split; [|done]; lia].
  cbn [ok_or mbind outcome_bind].
  replace (Z.to_nat (Z.of_nat num_blocks * 64)) with (64 * num_blocks) by lia.
  replace (Z.to_nat (Z.of_nat max_message_bytes + 9)) with (max_message_bytes + 9) by lia.
  destruct (Nat.ltb_spec (length message) real_len) as [L3|L3]; cbn [orb]; [split; [lia|done]|].
  destruct (Nat.ltb_spec max_message_bytes real_len) as [L4|L4]; cbn [orb]; [split; [lia|done]|].
  destruct (Nat.ltb_spec (64 * num_blocks) (max_message_bytes + 9)) as [L5|L5]; [split; [lia|done]|].
  unfold vec_capacity. destruct (Z.leb_spec (2 ^ 63) (Z.of_nat (64 * num_blocks))) as [L6|L6]; cbn [mbind outcome_bind];
    [by split_and!|].
  rewrite injected_tail by lia. cbn [mbind outcome_bind].
  split; [by split_and!|]. split; [done|]. symmetry. apply buffer_split; lia.
Qed.

(** For a message whose length in bits is a machine word, and any sizes,
    the native buffer is the padding of FIPS 180-4 filled up to the blocks: it
    starts with the padded message and has the size asked for; a length past
    the message or the budget, a budget without room for the padding and sizes
    that overflow are rejected; and the call panics exactly for the sizes that
    pass these checks and are past the capacity of a vector. *)
Theorem native_buffer_spec message real_len max_message_bytes num_blocks :
  (8 * Z.of_nat (length message) + 65 < 2 ^ 64)%Z →
  let fits := buffer_fits message real_len max_message_bytes num_blocks in
  match native_padded_buffer_sized message real_len max_message_bytes num_blocks with
  | Ok buf => fits ∧ (Z.of_nat (64 * num_blocks) < 2 ^ 63)%Z ∧ length buf = 64 * num_blocks ∧
      take (length (fips_pad (take real_len message))) buf = fips_pad (take real_len message) ∧
      length (fips_pad (take real_len message)) ≤ length buf
  | Err e => ¬ fits ∧ e = Unsatisfiable
  | Panic _ => fits ∧ (2 ^ 63 ≤ Z.of_nat (64 * num_blocks))%Z
  end.
Proof.
  intros _. cbv zeta. pose proof (native_buffer message real_len max_message_bytes num_blocks) as HN.
  destruct (native_padded_buffer_sized _ _ _ _) as [buf|e|]; [|done..].
  destruct HN as (Hf & Hc & ->). pose proof Hf as (_ & _ & L3 & L4 & L5). pose proof (terminal_block_bounds real_len) as [[B1 B2] _].
  split; [done|]. split; [done|]. rewrite length_fips_pad, length_take, Nat.min_l by done.
  unfold buffer at 1 3, range. rewrite length_fmap, length_seq.
  split_and!; [done|apply buffer_fips; lia|lia].
Qed.

Lemma into_bits_are `{CompressionGadget} (R : Lc → Scalar → Prop) us ws :
  Forall2 (λ u w, bits_are R (into_bits_be u) (int_bits 32 w)) us ws → bits_are R (us ≫= into_bits_be) (ws ≫= int_bits 32).
Proof. induction 1 as [|u w us ws Hu _ IH]; [constructor|]. rewrite !bind_cons. by apply Forall2_app. Qed.

(** * What the rules force *)
Section Sha256VarRules.
Context `{BooleanOps} `{!CompressionGadget} `{!Uint32Constants} (σ : Assignment).
Add Field scalar_field : scalar_field_theory (morphism of_int_morph, constants [scalar_const]).
Local Abbreviation D := (denotes σ).

(** The selector's bits: set at one length. *)
Definition selects_length (sel : list AllocatedBit) (size n : nat) : Prop :=
  n < size ∧ Forall2 (bbit σ) sel (one_hot size n).

Lemma slots_sum sel vs :
  Forall2 (bbit σ) sel vs →
  eval σ (foldl (λ lc b, lc_add_var lc (bit_get_variable b)) lc_zero sel) = of_int (count vs).
Proof.
  revert vs. induction sel as [|b sel IH] using rev_ind; intros vs HF.
  - apply Forall2_nil_inv_l in HF as ->. cbn [foldl]. by rewrite eval_zero, <-of_int_0.
  - apply Forall2_app_inv_l in HF as (vs' & l & HF & Hl & ->).
    apply Forall2_cons_inv_l in Hl as (v & l' & Hb & ->%Forall2_nil_inv_l & ->).
    rewrite foldl_app, count_snoc, of_int_add. cbn [foldl]. rewrite eval_add_var, (IH _ HF), Hb.
    destruct v; simpl; [by rewrite of_int_1|by rewrite of_int_0].
Qed.

Lemma gadget_slots {A} (f : A → Synth AllocatedBit) l :
  (∀ x, gadget σ (f x) (λ b, ∃ w, bbit σ b w)) →
  gadget σ (mapM f l) (λ bs, ∃ vs, Forall2 (bbit σ) bs vs ∧ length vs = length l).
Proof.
  intros Hf. apply (gadget_mapM _ _ _ (λ done bs, ∃ vs, Forall2 (bbit σ) bs vs ∧ length vs = length done)).
  - exists []. split; [constructor|done].
  - intros done x ys Hp (vs & HF & Hl). eapply gadget_mono; [apply Hf|]. intros b (w & Hw).
    exists (vs ++ [w]). rewrite !length_app, Hl. split; [|done]. apply Forall2_app; [done|]. by repeat constructor.
Qed.

Lemma one_slot sel vs :
  Forall2 (bbit σ) sel vs → (Z.of_nat (length vs) < p)%Z →
  eval σ (foldl (λ lc b, lc_add_var lc (bit_get_variable b)) lc_zero sel) = ONE →
  ∃ n, selects_length sel (length vs) n.
Proof.
  intros HF Hn E. rewrite (slots_sum _ _ HF), <-of_int_1 in E.
  pose proof (count_range vs). apply of_int_inj in E; [|lia|done].
  apply count_1 in E as (k & Hk & E). exists k. split; [done|]. by rewrite <-E.
Qed.

Lemma gadget_one_slot name sel vs :
  Forall2 (bbit σ) sel vs → (Z.of_nat (length vs) < p)%Z →
  gadget σ (enforce name (foldl (λ lc b, lc_add_var lc (bit_get_variable b)) lc_zero sel)
    (lc_add_var lc_zero one) (lc_add_var lc_zero one)) (λ _, ∃ n, selects_length sel (length vs) n).
Proof.
  intros HF Hn. eapply gadget_mono; [apply gadget_enforce|]. intros [] E. cbv beta in E.
  apply one_slot; [done..|]. autorewrite with evals in E. by_rule E.
Qed.

(** A sum of the selector's bits is one where it contains the length. *)
Lemma gadget_selector_sum sel size n P ns :
  selects_length sel size n → NoDup ns → Forall (λ m, m < size) ns →
  gadget σ (selector_sum sel P ns) (λ lc, eval σ lc = of_bool (bool_decide (n ∈ ns) && P n)).
Proof.
  intros [Hn HS] HN Hlt. unfold selector_sum.
  apply (gadget_foldM σ _ _ _ (λ done lc, eval σ lc = of_bool (bool_decide (n ∈ done) && P n))).
  - by rewrite eval_zero.
  - intros done m lc Hp E. destruct Hp as [todo Ens]. rewrite Ens, <-app_assoc in HN, Hlt.
    assert (m < size) as Hm by (by apply Forall_app in Hlt as [_ Hlt%Forall_inv]).
    assert (m ∉ done) as Hd.
    { apply NoDup_app in HN as (_ & HN & _). intros Hin. apply (HN _ Hin). by left. }
    assert (bool_decide (n ∈ done ++ [m]) && P n
      = (bool_decide (n ∈ done) && P n) || (bool_decide (m = n) && P m)) as ->.
    { destruct (decide (m = n)) as [->|N].
      - rewrite (bool_decide_eq_true_2 (n = n)), (bool_decide_eq_false_2 (n ∈ done)) by done.
        by rewrite bool_decide_eq_true_2 by (apply elem_of_app; right; by left).
      - rewrite (bool_decide_eq_false_2 (m = n)), orb_false_r by done. f_equal. apply bool_decide_ext.
        rewrite elem_of_app, list_elem_of_singleton. split; [intros [|E']; [done|by destruct N]|by left]. }
    destruct (P m) eqn:EP.
    + destruct (Forall2_lookup_r _ _ _ _ _ HS (lookup_one_hot size n m Hm)) as (b & Eb & Hb).
      eapply gadget_bind; [by apply gadget_index_nth|]. intros ? ->. apply gadget_ret.
      rewrite eval_add_var, E, Hb, !andb_true_r. destruct (decide (m = n)) as [->|N].
      * rewrite (bool_decide_eq_false_2 (n ∈ done)), (bool_decide_eq_true_2 (n = n)) by done. simpl. ring.
      * rewrite (bool_decide_eq_false_2 (m = n)), orb_false_r by done. simpl. ring.
    + apply gadget_ret. by rewrite andb_false_r, orb_false_r.
Qed.

(** A new bit that a rule makes the value of a sum. *)
Lemma gadget_summed_bit name name' v lc w :
  eval σ lc = of_bool w →
  gadget σ (bit ← ns name (AllocatedBit_alloc v);
    enforce name' lc (lc_add_var lc_zero one) (lc_add_var lc_zero (bit_get_variable bit)) ;;
    mret (Boolean_from bit)) (λ b, D (bit b) (of_bool w)).
Proof.
  intros E. step gadget_AllocatedBit_alloc as b (x & Hb). eapply gadget_bind; [apply gadget_enforce|].
  intros [] R. apply gadget_ret. cbv beta in R. rewrite E in R. autorewrite with evals in R.
  unfold denotes, lval, bit. simpl. rewrite Boolean_lc_eval. by_rule R.
Qed.

Lemma gadget_message_active sel max n real_len i :
  selects_length sel (S max) n →
  gadget σ (message_active sel real_len max i) (λ act,
    match act with Some b => i < max ∧ D (bit b) (of_bool (i <? n)) | None => max ≤ i end).
Proof.
  intros HS. unfold message_active. destruct (Nat.ltb_spec i max) as [L|L]; [|by apply gadget_ret].
  eapply gadget_bind.
  { apply (gadget_selector_sum _ _ _ _ _ HS); [apply NoDup_seq|]. apply list.Forall_forall. intros m Hm%elem_of_seq. lia. }
  intros lc E. cbv beta in E.
  assert (eval σ lc = of_bool (i <? n)) as E'.
  { rewrite E, andb_true_r. f_equal. apply eq_true_iff_eq. rewrite bool_decide_eq_true, Nat.ltb_lt, elem_of_seq.
    destruct HS. lia. }
  step gadget_AllocatedBit_alloc as b (x & Hb). eapply gadget_bind; [apply gadget_enforce|].
  intros [] R. apply gadget_ret. split; [done|]. cbv beta in R. rewrite E' in R. autorewrite with evals in R.
  unfold denotes, lval, bit. simpl. rewrite Boolean_lc_eval. by_rule R.
Qed.

Lemma gadget_padded_bit sel raw max n m real_len i j act :
  selects_length sel (S max) n → length m = max → bits_are D raw (m ≫= byte_bits) → real_len ≤ max → j < 8 →
  match act with Some b => i < max ∧ D (bit b) (of_bool (i <? n)) | None => max ≤ i end →
  gadget σ (padded_bit sel raw real_len max i act j) (λ b, D (bit b) (of_bool (bit_of (buffer_byte m n i) j))).
Proof.
  intros HS Hm HR Hr Hj Hact. unfold padded_bit. eapply gadget_bind.
  { apply (gadget_selector_sum _ _ _ _ _ HS); [apply NoDup_seq|]. apply list.Forall_forall. intros k Hk%elem_of_seq. lia. }
  intros lc E. cbv beta in E. destruct HS as [Hn HS].
  assert (eval σ lc = of_bool ((n <=? i) && bit_of (buffer_byte m n i) j)) as E'.
  { rewrite E. f_equal. destruct (Nat.leb_spec n i) as [L|L].
    - rewrite bool_decide_eq_true_2 by (apply elem_of_seq; lia). cbn [andb]. unfold injected_bit, buffer_byte.
      rewrite (proj2 (Nat.ltb_ge _ _)) by done. by destruct (injected_some i n L) as [b ->].
    - rewrite bool_decide_eq_false_2; [done|]. unfold range. rewrite elem_of_seq. lia. }
  clear E. destruct act as [b|].
  - destruct Hact as [Li Hb]. destruct (lookup_lt_is_Some_2 m i) as [x Ex]; [lia|].
    eapply gadget_bind.
    { eapply gadget_bind; [by apply (gadget_window_bit σ raw m i j x)|]. intros rb Hrb. cbv beta in Hrb.
      eapply gadget_bind; [by eapply gadget_ns, Boolean_and_rules|]. intros mc Hmc. cbv beta in Hmc.
      eapply (gadget_bind _ _ _ (λ _, True)).
      { destruct (Nat.ltb_spec i real_len) as [|L]; [by apply gadget_ret|].
        destruct (injected_some i real_len L) as [y ->]. by apply gadget_ret. }
      intros ex _. apply (gadget_ret _ _ (λ r, eval σ r.1 = of_bool (bit_of (buffer_byte m n i) j))).
      cbn [fst]. rewrite eval_add, (bool_lc_eval _ _ _ Hmc), E'. unfold buffer_byte.
      destruct (Nat.ltb_spec i n) as [L|L]; [rewrite Ex, (proj2 (Nat.leb_gt _ _)) by done|rewrite (proj2 (Nat.leb_le _ _)) by done];
        simpl; unfold bit_of; ring. }
    intros [lc' ex] El. cbn in El. by apply gadget_summed_bit.
  - eapply gadget_bind.
    { destruct (injected_some i real_len) as [y ->]; [lia|].
      apply (gadget_ret _ _ (λ r, eval σ r.1 = of_bool (bit_of (buffer_byte m n i) j))). cbn [fst].
      rewrite E', (proj2 (Nat.leb_le _ _)) by lia. done. }
    intros [lc' ex] El. cbn in El. by apply gadget_summed_bit.
Qed.

(** The mask that the bytes of the message leave. *)
Lemma masked_prefix {X} (bytes : list (X * option Boolean)) (f : nat → bool) len max :
  max ≤ len →
  Forall2 (λ i r, match r.2 with Some b => i < max ∧ D (bit b) (of_bool (f i)) | None => max ≤ i end) (range len) bytes →
  bits_are D (omap snd bytes) (f <$> range max).
Proof.
  intros Hl HF. unfold range in *. replace len with (max + (len - max)) in HF by lia. rewrite seq_app in HF.
  apply Forall2_app_inv_l in HF as (b1 & b2 & H1' & H2' & ->). rewrite omap_app.
  assert (omap snd b2 = []) as ->.
  { cbn [Nat.add] in H2'. assert (∀ i, i ∈ seq max (len - max) → max ≤ i) as Hi by (intros i Hi%elem_of_seq; lia).
    revert Hi. induction H2' as [|i [x [b|]] l b2 Hr _ IH]; intros Hi; [done| |].
    - destruct Hr as [Hr _]. specialize (Hi i (list_elem_of_here _ _)). cbn in Hr. lia.
    - cbn. apply IH. intros j Hj. apply Hi. by right. }
  rewrite app_nil_r. assert (∀ i, i ∈ seq 0 max → i < max) as Hi by (intros i Hi%elem_of_seq; lia).
  revert Hi. induction H1' as [|i [x [b|]] l b1 Hr _ IH]; intros Hi; [constructor| |].
  - cbn. constructor; [apply Hr|]. apply IH. intros j Hj. apply Hi. by right.
  - specialize (Hi i (list_elem_of_here _ _)). cbn in Hr. lia.
Qed.

(** The length is some number of bytes within the budget, and the buffer, the
    mask and the selector are those of that length. *)
Lemma gadget_padded_buffer_bits raw m real_len max num_blocks :
  length m = max → bits_are D raw (m ≫= byte_bits) → real_len ≤ max → (Z.of_nat (S max) < p)%Z →
  max ≤ num_blocks * 64 →
  gadget σ (padded_buffer_bits raw real_len max num_blocks) (λ '(buf, act, sel), ∃ n,
    selects_length sel (S max) n ∧
    bits_are D buf (buffer m n (num_blocks * 64) ≫= byte_bits) ∧
    bits_are D act ((λ i, i <? n) <$> range max)).
Proof.
  intros Hm HR Hr Hp Hb. unfold padded_buffer_bits.
  eapply gadget_bind.
  { apply gadget_assert, Nat.eqb_eq. rewrite (Forall2_length _ _ _ HR), length_bind_byte_bits. lia. }
  intros _ _. eapply gadget_bind; [by apply gadget_assert, Nat.leb_le|]. intros _ _. cbv zeta.
  eapply gadget_bind; [apply gadget_slots; intros k; apply gadget_ns, gadget_AllocatedBit_alloc|].
  intros sel (vs & HS & Hl). unfold range in Hl. rewrite length_seq in Hl.
  eapply gadget_bind; [apply (gadget_one_slot _ _ _ HS); by rewrite Hl|]. intros [] (n & Hn). rewrite Hl in Hn.
  eapply gadget_bind.
  { apply (gadget_mapM_Forall2 _ _ _ (λ i r, bits_are D r.1 (byte_bits (buffer_byte m n i)) ∧
      match r.2 with Some b => i < max ∧ D (bit b) (of_bool (i <? n)) | None => max ≤ i end)).
    intros i _. eapply gadget_bind; [by eapply gadget_message_active|]. intros act Hact. cbv beta in Hact.
    eapply gadget_bind.
    { apply (gadget_mapM_Forall2 _ _ _ (λ j b, D (bit b) (of_bool (bit_of (buffer_byte m n i) j)))).
      intros j [_ Lj]%elem_of_seq. cbn in Lj. by eapply gadget_padded_bit. }
    intros bits HF. apply gadget_ret. split; [|done]. cbn [fst]. cbv beta in HF.
    replace (byte_bits (buffer_byte m n i)) with (bit_of (buffer_byte m n i) <$> range 8) by done.
    apply Forall2_fmap_r. by apply Forall2_flip. }
  intros bytes HF. cbv beta in HF. apply gadget_ret. exists n. split_and!; [done|..].
  - unfold buffer. apply Forall2_concat_bind. apply Forall2_fmap_l, Forall2_fmap_r, Forall2_flip.
    eapply Forall2_impl; [exact HF|]. by intros i r [H' _].
  - eapply masked_prefix; [exact Hb|]. eapply Forall2_impl; [exact HF|]. by intros i r [_ H'].
Qed.

(** The words after each block. *)
Definition words_are (words : list UInt32) (ws : list Z) : Prop :=
  Forall2 (λ u w, bits_are D (into_bits_be u) (int_bits 32 w)) words ws.

Lemma IV_constants : words_are (UInt32_constant <$> SHA256_IV) IV.
Proof.
  change IV with SHA256_IV. apply Forall2_fmap_l, Forall_Forall2_diag.
  eapply list.Forall_impl; [apply IV_words|]. intros w Hw. by apply UInt32_constant_rules.
Qed.

Lemma gadget_block_states buf l num_blocks :
  length l = 64 * num_blocks → bits_are D buf (l ≫= byte_bits) →
  gadget σ (foldM (λ '(state, block_states) i,
    let block := slice (i * 512) ((i + 1) * 512) buf in
    state ← ns ("compress block " +:+ pretty i) (sha256_compression_function block state);
    mret (state, block_states ++ [state])) (UInt32_constant <$> SHA256_IV, []) (range num_blocks))
    (λ r, Forall2 (λ s k, words_are s (block_chain l (S k))) r.2 (range num_blocks)).
Proof.
  intros Hl HF. eapply gadget_mono.
  { apply (gadget_foldM σ _ _ _ (λ done r, words_are r.1 (block_chain l (length done)) ∧
      Forall2 (λ s k, words_are s (block_chain l (S k))) r.2 done)).
    - split; [apply IV_constants|constructor].
    - intros done i [st states] Hp [Hst HS]. apply prefix_snoc_lookup in Hp as [[-> Hi]%lookup_seq _].
      cbn [Nat.add fst snd] in *. set (i := length done) in *.
      assert (bits_are D (slice (i * 512) ((i + 1) * 512) buf) (block_at l i ≫= byte_bits)) as HB.
      { unfold block_at. rewrite <-slice_bind_byte_bits.
        replace (8 * (64 * i)) with (i * 512) by lia. replace (8 * (64 * (i + 1))) with ((i + 1) * 512) by lia.
        unfold slice. by apply Forall2_take, Forall2_drop. }
      assert (length (block_at l i) = 64) as Hb by (unfold block_at; rewrite length_slice; lia).
      pose proof (chain_words l i) as [Hc Hw].
      eapply gadget_bind.
      { apply gadget_ns. eapply compression_rules; [exact HB| |exact Hst|exact Hc|exact Hw].
        by rewrite length_bind_byte_bits, Hb. }
      intros st' Hst'. cbv beta in Hst'. rewrite bit_words_bytes, <-chain_S in Hst'. apply gadget_ret.
      cbn [fst snd]. rewrite length_app, Nat.add_1_r. split; [done|]. apply Forall2_app; [done|]. by repeat constructor. }
  by intros r [_ HS].
Qed.

Lemma gadget_in_block sel max n real_len num_blocks :
  selects_length sel (S max) n →
  gadget σ (mapM (λ k,
    lc ← selector_sum sel (λ n, terminal_block_for_len n =? k) (range (S max));
    bit ← ns ("in_block " +:+ pretty k) (AllocatedBit_alloc (Some (terminal_block_for_len real_len =? k)));
    enforce ("in_block " +:+ pretty k +:+ " matches selector sum")
      lc (lc_add_var lc_zero one) (lc_add_var lc_zero (bit_get_variable bit)) ;;
    mret (Boolean_from bit)) (seq 1 num_blocks))
    (Forall2 (λ k b, D (bit b) (of_bool (terminal_block_for_len n =? k))) (seq 1 num_blocks)).
Proof.
  intros HS. apply gadget_mapM_Forall2. intros k _. eapply gadget_bind.
  { apply (gadget_selector_sum _ _ _ _ _ HS); [apply NoDup_seq|]. apply list.Forall_forall. intros j Hj%elem_of_seq. lia. }
  intros lc E. cbv beta in E. apply gadget_summed_bit. rewrite E, bool_decide_eq_true_2; [done|].
  apply elem_of_seq. destruct HS. lia.
Qed.

(** One bit of the digest: that of the block at which the selector is set. *)
Lemma gadget_digest_bit in_block per_block (f : nat → nat → bool) num_blocks t i :
  Forall2 (λ k b, D (bit b) (of_bool (t =? k))) (seq 1 num_blocks) in_block →
  Forall2 (λ bits k, ∃ b, bits !! i = Some b ∧ D (bit b) (of_bool (f k i))) per_block (range num_blocks) →
  0 < t ≤ num_blocks →
  gadget σ (acc ← foldM (λ acc k,
      selected ← index in_block k;
      bits ← index per_block k;
      bit ← index bits i;
      term ← ns ("select digest bit " +:+ pretty i +:+ " block " +:+ pretty k) (Boolean_and selected bit);
      match acc with
      | None => mret (Some term)
      | Some prev =>
          c ← ns ("select-or digest bit " +:+ pretty i +:+ " block " +:+ pretty k) (Boolean_or prev term);
          mret (Some c)
      end) None (range num_blocks);
    match acc with Some acc => mret acc | None => Panic' "num_blocks >= 1" end)
    (λ b, D (bit b) (of_bool (f (t - 1) i))).
Proof.
  intros HB HP Ht. set (hit := λ k, (t =? S k) && f k i). eapply gadget_bind.
  { apply (gadget_foldM σ _ _ _ (λ done acc, acc_is σ acc (bool_decide (done ≠ [])) (existsb hit done))); [by split|].
    intros done k acc Hp Hacc. apply prefix_snoc_lookup in Hp as [[-> Hk]%lookup_seq _]. cbn [Nat.add] in *.
    set (k := length done) in *.
    destruct (Forall2_lookup_l _ _ _ k (S k) HB) as (sel & Es & Hs); [by apply lookup_seq_lt|].
    destruct (Forall2_lookup_r _ _ _ k k HP) as (bits & Eb & b & Ebi & Hb); [by apply lookup_seq_lt|].
    eapply gadget_bind; [by apply gadget_index_nth|]. intros ? ->.
    eapply gadget_bind; [by apply gadget_index_nth|]. intros ? ->.
    eapply gadget_bind; [by apply gadget_index_nth|]. intros ? ->.
    eapply gadget_bind; [eapply gadget_ns, Boolean_and_rules; [exact Hs|exact Hb]|]. intros term Hterm. cbv beta in Hterm.
    rewrite existsb_app, (bool_decide_eq_true_2 (done ++ [k] ≠ [])) by (by destruct done).
    cbn [existsb]. rewrite orb_false_r. by eapply gadget_or_candidate. }
  intros acc Hacc. cbv beta in Hacc. rewrite bool_decide_eq_true_2 in Hacc by (destruct num_blocks; [lia|done]).
  assert (existsb hit (range num_blocks) = f (t - 1) i) as E.
  { apply eq_true_iff_eq. rewrite existsb_exists. unfold hit. split.
    - intros (k & _ & [Hk%Nat.eqb_eq Hf]%andb_true_iff). by replace (t - 1) with k by lia.
    - intros Hf. exists (t - 1). split; [apply list_elem_of_In, elem_of_seq; lia|].
      apply andb_true_iff. split; [apply Nat.eqb_eq; lia|done]. }
  rewrite E in Hacc. destruct acc as [c|]; [|by destruct Hacc]. by apply gadget_ret, Hacc.
Qed.

Lemma words_are_bits us ws : words_are us ws → bits_are D (us ≫= into_bits_be) (ws ≫= int_bits 32).
Proof. apply into_bits_are. Qed.

Lemma length_words_bits (ws : list Z) : length (ws ≫= int_bits 32) = 32 * length ws.
Proof. induction ws as [|w ws IH]; [done|]. rewrite bind_cons, length_app, length_int_bits, IH. cbn. lia. Qed.

(** Bits that are those of a list at every index. *)
Lemma bits_by_index l bs n :
  length l = n → Forall2 (λ i b, D (bit b) (of_bool (default false (l !! i)))) (range n) bs → bits_are D bs l.
Proof.
  intros Hl HF. rewrite <-(list_fmap_id l), <-(range_lookup false id l), Hl.
  apply Forall2_fmap_r. by apply Forall2_flip.
Qed.

Lemma gadget_sha256_var_sized raw m real_len max num_blocks :
  length m = max → bits_are D raw (m ≫= byte_bits) → real_len ≤ max → (Z.of_nat (S max) < p)%Z →
  max + 9 ≤ 64 * num_blocks →
  gadget σ (sha256_var_sized raw real_len max num_blocks) (λ '(digest, act), ∃ n, n ≤ max ∧
    bits_are D digest (fips_sha256 (take n m) ≫= byte_bits) ∧
    bits_are D act ((λ i, i <? n) <$> range max)).
Proof.
  intros Hm HR Hr Hp Hb. unfold sha256_var_sized.
  eapply gadget_bind; [by apply gadget_padded_buffer_bits; try done; lia|].
  intros [[buf act] sel] (n & HS & HB & HA). assert (n ≤ max) as Hn by (destruct HS; lia).
  set (l := buffer m n (num_blocks * 64)) in *.
  assert (length l = 64 * num_blocks) as Hl by (unfold l, buffer, range; rewrite length_fmap, length_seq; lia).
  eapply gadget_bind; [by apply (gadget_block_states buf l)|]. intros [st states] HT. cbv beta in HT. cbn [snd] in HT.
  eapply gadget_bind; [by eapply gadget_in_block|]. intros in_block HI. cbv beta zeta in *.
  pose proof (terminal_block_bounds n) as [[T1 T2] T3]. set (t := terminal_block_for_len n) in *.
  eapply gadget_bind.
  { apply (gadget_mapM_Forall2 _ _ _ (λ i b,
      D (bit b) (of_bool (default false ((block_chain l (S (t - 1)) ≫= int_bits 32) !! i))))).
    intros i [_ Hi]%elem_of_seq. cbn in Hi.
    apply (gadget_digest_bit in_block _ (λ k i, default false ((block_chain l (S k) ≫= int_bits 32) !! i)) num_blocks t i HI);
      [|lia].
    apply Forall2_fmap_l. eapply Forall2_impl; [exact HT|]. intros s k Hs.
    apply words_are_bits in Hs.
    assert (i < length (block_chain l (S k) ≫= int_bits 32)) as [v Ev]%lookup_lt_is_Some_2
      by (rewrite length_words_bits, (proj1 (chain_words l (S k))); lia).
    destruct (Forall2_lookup_r _ _ _ _ _ Hs Ev) as (b & Eb & Hb'). exists b. by rewrite Ev. }
  intros digest HD. cbv beta in HD. apply gadget_ret. exists n. split_and!; [done| |done].
  replace (S (t - 1)) with t in HD by lia.
  rewrite <-(buffer_digest m n (num_blocks * 64)) by lia. fold l t. rewrite words_bits by apply chain_words.
  apply (bits_by_index _ _ 256); [|exact HD]. by rewrite length_words_bits, (proj1 (chain_words l t)).
Qed.
End Sha256VarRules.
