(* ===== verification/Sha256Mc.v ===== *)
(** [sha256_mc.rs]: SHA-256 of several messages, one compression to a folded
    instance of the step circuit. The blocks and the digests after them are a
    vector shared by every instance, sixteen bytes to an element; a step reads
    its block by a one-hot selector of its public index, and the core binds
    its messages to the blocks and selects its digests. *)
From Stdlib Require Import ZArith Lia Strings.String Strings.Byte.
From Stdlib Require Import Field_tac Ring.
From stdpp Require Import base list numbers option strings pretty.
From S2P Require Import Prelude Bytes Field ConstraintSystem Shape CheckSystem Bellpepper Lc Bits Gadgets Select Limbs CborUint OneHotCursor DigestId Values Sha256 Table Window Circuit Step Sha256Var Packing.

Definition BYTES_PER_PACK : nat := 16.
Definition PACKS_PER_BLOCK : nat := 64 / BYTES_PER_PACK.
Definition PACKS_PER_DIGEST : nat := 32 / BYTES_PER_PACK.

Definition mc_IV : list Z :=
  [0x6a09e667; 0xbb67ae85; 0x3c6ef372; 0xa54ff53a; 0x510e527f; 0x9b05688c; 0x1f83d9ab; 0x5be0cd19]%Z.

(** * The compression, natively *)
(** The 64 words of [K], eight to a row. *)
Definition compress_K : list Z := Eval vm_compute in ([
  0x428a2f9871374491b5c0fbcfe9b5dba53956c25b59f111f1923f82a4ab1c5ed5;
  0xd807aa9812835b01243185be550c7dc372be5d7480deb1fe9bdc06a7c19bf174;
  0xe49b69c1efbe47860fc19dc6240ca1cc2de92c6f4a7484aa5cb0a9dc76f988da;
  0x983e5152a831c66db00327c8bf597fc7c6e00bf3d5a7914706ca635114292967;
  0x27b70a852e1b21384d2c6dfc53380d13650a7354766a0abb81c2c92e92722c85;
  0xa2bfe8a1a81a664bc24b8b70c76c51a3d192e819d6990624f40e3585106aa070;
  0x19a4c1161e376c082748774c34b0bcb5391c0cb34ed8aa4a5b9cca4f682e6ff3;
  0x748f82ee78a5636f84c878148cc7020890befffaa4506cebbef9a3f7c67178f2]%Z ≫= row).

(** [u32::wrapping_add]. *)
Definition wrapping_add (x y : Z) : Z := as_u32 (x + y).

Definition schedule_word (w : list Z) (i : nat) : list Z :=
  let x := w !!! (i - 15)%nat in
  let y := w !!! (i - 2)%nat in
  let s0 := Z.lxor (Z.lxor (rotate_right x 7) (rotate_right x 18)) (Z.shiftr x 3) in
  let s1 := Z.lxor (Z.lxor (rotate_right y 17) (rotate_right y 19)) (Z.shiftr y 10) in
  <[i := wrapping_add (wrapping_add (wrapping_add (w !!! (i - 16)%nat) s0) (w !!! (i - 7)%nat)) s1]> w.

Definition compress_round (w : list Z) (v : Working) (i : nat) : Working :=
  let s1 := Z.lxor (Z.lxor (rotate_right (we v) 6) (rotate_right (we v) 11)) (rotate_right (we v) 25) in
  let ch := Z.lxor (Z.land (we v) (wf v)) (Z.land (not32 (we v)) (wg v)) in
  let t1 := wrapping_add (wrapping_add (wrapping_add (wrapping_add (wh v) s1) ch) (compress_K !!! i)) (w !!! i) in
  let s0 := Z.lxor (Z.lxor (rotate_right (wa v) 2) (rotate_right (wa v) 13)) (rotate_right (wa v) 22) in
  let maj := Z.lxor (Z.lxor (Z.land (wa v) (wb v)) (Z.land (wa v) (wc v))) (Z.land (wb v) (wc v)) in
  let t2 := wrapping_add s0 maj in
  {| wa := wrapping_add t1 t2; wb := wa v; wc := wb v; wd := wc v;
     we := wrapping_add (wd v) t1; wf := we v; wg := wf v; wh := wg v |}.

Definition compress_native (h : list Z) (block : list byte) : list Z :=
  let w := ((λ i, be_int (slice (i * 4) (i * 4 + 4) block)) <$> range 16) ++ replicate 48 0%Z in
  let w := foldl schedule_word w (seq 16 48) in
  let v := foldl (compress_round w) (working_of h) (range 64) in
  zip_with wrapping_add h [wa v; wb v; wc v; wd v; we v; wf v; wg v; wh v].

(** * The layout of the blocks *)
(** [struct HashLayout]. *)
Record HashLayout := mkHashLayout { message_blocks : list nat }.

Definition total_blocks (l : HashLayout) : nat := sum_list (message_blocks l).

Fixpoint first_of_message_from (at_ : nat) (blocks : list nat) (block : nat) : bool :=
  match blocks with
  | [] => false
  | n :: blocks => if (block =? at_)%nat then true else first_of_message_from (at_ + n) blocks block
  end.
Definition is_first_of_message (l : HashLayout) (block : nat) : bool :=
  first_of_message_from 0 (message_blocks l) block.
Definition message_start (l : HashLayout) (m : nat) : nat := sum_list (take m (message_blocks l)).

Definition block_pack (total_blocks j k : nat) : nat := j * PACKS_PER_BLOCK + k.
Definition digest_pack (total_blocks j k : nat) : nat := total_blocks * PACKS_PER_BLOCK + j * PACKS_PER_DIGEST + k.

(** [AllocatedNum::inputize]: a new public value that a rule makes the
    number's. *)
Class PublicNums `{Bellpepper} := {
  AllocatedNum_inputize : AllocatedNum → Synth unit;
  inputize_wp (σ : Assignment) a na ni (Q : unit → nat → nat → Prop) :
    (σ (Input ni) = nval σ a → Q tt na (S ni)) → wp σ (AllocatedNum_inputize a) na ni Q;
  inputize_run a x st :
    has_one (store st) → num_knows (store st) a x → cs_broken st = None →
    run (AllocatedNum_inputize a) st = (Ok tt, cs_push_input st x);
}.

(** * The circuits *)
Section Sha256Mc.
Context `{BooleanOps} `{!CompressionGadget} `{!PublicNums}.

Definition alloc_shared (blocks digests : list (list byte)) : Synth (list AllocatedNum) :=
  bs ← mapM (λ '(j, b),
    mapM (λ k,
      let v := pack_be (slice (k * BYTES_PER_PACK) ((k + 1) * BYTES_PER_PACK) b) in
      ns ("block " +:+ pretty (j : nat) +:+ " pack " +:+ pretty k) (AllocatedNum_alloc (Ok v)))
      (range PACKS_PER_BLOCK)) (imap (λ j b, (j, b)) blocks);
  ds ← mapM (λ '(j, d),
    mapM (λ k,
      let v := pack_be (slice (k * BYTES_PER_PACK) ((k + 1) * BYTES_PER_PACK) d) in
      ns ("digest " +:+ pretty (j : nat) +:+ " pack " +:+ pretty k) (AllocatedNum_alloc (Ok v)))
      (range PACKS_PER_DIGEST)) (imap (λ j d, (j, d)) digests);
  mret (concat bs ++ concat ds).

Definition index_one_hot (n real : nat) : Synth (list AllocatedBit) :=
  bits ← mapM (λ j, ns ("sel " +:+ pretty j) (AllocatedBit_alloc (Some (j =? real)%nat))) (range n);
  let sum := foldl (λ sum b, lc_add_var sum (bit_get_variable b)) lc_zero bits in
  enforce "one-hot sums to one" (lc_add lc_zero sum) (lc_add_var lc_zero one) (lc_add_var lc_zero one) ;;
  mret bits.

(** Σ sel[j] · value(j), where a value is a constant, an element of the shared
    vector or zero. *)
Definition readout (sel : list AllocatedBit) (shared : list AllocatedNum)
    (index_of : nat → option nat) (constant_for : nat → option Scalar) (tag : string) : Synth AllocatedNum :=
  '(acc, value) ← foldM (λ '(acc, value) '(j, s),
    term_value ←
      match index_of j, constant_for j with
      | _, Some c => mret (Some c)
      | Some idx, None => n ← index shared idx; mret (get_value n)
      | None, None => mret (Some ZERO)
      end;
    let live := default false (bit_get_value s) in
    t ← ns (tag +:+ " term " +:+ pretty (j : nat))
      (AllocatedNum_alloc (if live : bool then ok_or AssignmentMissing term_value else Ok ZERO));
    let name := tag +:+ " select " +:+ pretty j in
    match index_of j, constant_for j with
    | _, Some c =>
        enforce name (lc_add_var lc_zero (bit_get_variable s)) (lc_add_term lc_zero (c, one))
          (lc_add_var lc_zero (get_variable t))
    | Some idx, None =>
        n ← index shared idx;
        enforce name (lc_add_var lc_zero (bit_get_variable s)) (lc_add_var lc_zero (get_variable n))
          (lc_add_var lc_zero (get_variable t))
    | None, None =>
        enforce name (lc_add_var lc_zero (bit_get_variable s)) lc_zero (lc_add_var lc_zero (get_variable t))
    end ;;
    mret (lc_add_var acc (get_variable t), if live : bool then term_value else value))
    (lc_zero, Some ZERO) (imap (λ j s, (j, s)) sel);
  out ← ns (tag +:+ " value") (AllocatedNum_alloc (ok_or AssignmentMissing value));
  enforce (tag +:+ " sums") (lc_add lc_zero acc) (lc_add_var lc_zero one) (lc_add_var lc_zero (get_variable out)) ;;
  mret out.

Definition unpack (p : AllocatedNum) (tag : string) : Synth (list Boolean) :=
  let native := (λ v, reverse (take BYTES_PER_PACK (to_repr v))) <$> get_value p in
  let n := (BYTES_PER_PACK * 8)%nat in
  bits ← mapM (λ i,
    ns (tag +:+ " bit " +:+ pretty i) (AllocatedBit_alloc
      ((λ bytes, Z.testbit (b2z (default x00 (bytes !! (i / 8)%nat))) (Z.of_nat (7 - i mod 8))) <$> native))) (range n);
  let recomposed := foldl (λ lc '(i, b), lc_add_term lc (doublings (n - 1 - i) ONE, bit_get_variable b))
    lc_zero (imap (λ i b, (i, b)) bits) in
  enforce (tag +:+ " recomposes") (lc_add lc_zero recomposed) (lc_add_var lc_zero one)
    (lc_add_var lc_zero (get_variable p)) ;;
  mret (Boolean_from <$> bits).

Definition repack (bits : list Boolean) : LinearCombination :=
  foldl (λ lc '(i, b), lc_add lc (Boolean_lc b one (doublings (length bits - 1 - i) ONE)))
    lc_zero (imap (λ i b, (i, b)) bits).

(** The bytes of the initial state. *)
Definition iv_pack (k : nat) : Scalar :=
  let bytes := mc_IV ≫= be_bytes 4 in
  pack_be (slice (k * BYTES_PER_PACK) ((k + 1) * BYTES_PER_PACK) bytes).

Definition synthesize_step (shared : list AllocatedNum) (layout : HashLayout) (step : nat) : Synth unit :=
  let n := total_blocks layout in
  sel ← ns "step index" (index_one_hot n step);
  idx ← ns "public step index" (AllocatedNum_alloc (Ok (from_u64 (Z.of_nat step))));
  ns "inputize step index" (AllocatedNum_inputize idx) ;;
  let weighted := foldl (λ lc '(j, b), lc_add_term lc (from_u64 (Z.of_nat j), bit_get_variable b))
    lc_zero (imap (λ j b, (j, b)) sel) in
  enforce "the published index is the block actually selected"
    (lc_add lc_zero weighted) (lc_add_var lc_zero one) (lc_add_var lc_zero (get_variable idx)) ;;
  block_bits ← mapM (λ k,
    p ← ns ("block pack " +:+ pretty k)
      (readout sel shared (λ j, Some (block_pack n j k)) (λ _, None) ("M" +:+ pretty k));
    ns ("block bits " +:+ pretty k) (unpack p ("M" +:+ pretty k))) (range PACKS_PER_BLOCK);
  state_bits ← mapM (λ k,
    p ← ns ("state pack " +:+ pretty k)
      (readout sel shared
        (λ j, if is_first_of_message layout j then None else Some (digest_pack n (j - 1) k))
        (λ j, if is_first_of_message layout j then Some (iv_pack k) else None) ("Hin" +:+ pretty k));
    ns ("state bits " +:+ pretty k) (unpack p ("Hin" +:+ pretty k))) (range PACKS_PER_DIGEST);
  let state := from_bits_be <$> chunks 32 (concat state_bits) in
  out ← ns "compress" (sha256_compression_function (concat block_bits) state);
  let out_bits := out ≫= into_bits_be in
  mapM (λ k,
    expected ← ns ("digest pack " +:+ pretty k)
      (readout sel shared (λ j, Some (digest_pack n j k)) (λ _, None) ("Hout" +:+ pretty k));
    let got := repack (slice (k * BYTES_PER_PACK * 8) ((k + 1) * BYTES_PER_PACK * 8) out_bits) in
    enforce ("compression output matches shared digest " +:+ pretty k)
      (lc_add lc_zero got) (lc_add_var lc_zero one) (lc_add_var lc_zero (get_variable expected)))
    (range PACKS_PER_DIGEST) ;;
  mret tt.

Definition bind_message_to_shared (shared : list AllocatedNum) (layout : HashLayout) (message : nat)
    (padded_bits : list Boolean) : Synth unit :=
  let n := total_blocks layout in
  budget ← index (message_blocks layout) message;
  let start := message_start layout message in
  if negb (length padded_bits =? budget * 512)%nat then Fail' Unsatisfiable else
  mapM (λ b,
    mapM (λ k,
      let lo := (b * 512 + k * BYTES_PER_PACK * 8)%nat in
      let got := repack (slice lo (lo + BYTES_PER_PACK * 8) padded_bits) in
      cell ← index shared (block_pack n (start + b) k);
      enforce ("message " +:+ pretty message +:+ " block " +:+ pretty b +:+ " pack " +:+ pretty k +:+ " matches shared")
        (lc_add lc_zero got) (lc_add_var lc_zero one) (lc_add_var lc_zero (get_variable cell)))
      (range PACKS_PER_BLOCK)) (range budget) ;;
  mret tt.

Definition select_digest (shared : list AllocatedNum) (layout : HashLayout) (message terminal_block : nat)
    (length_selector : option (list AllocatedBit)) : Synth (list Boolean) :=
  let n := total_blocks layout in
  budget ← index (message_blocks layout) message;
  if (budget <=? terminal_block)%nat then Fail' Unsatisfiable else
  let start := message_start layout message in
  sel ← ns "terminal block" (index_one_hot budget terminal_block);
  match length_selector with
  | Some len_sel =>
      let from_selection := foldl (λ lc '(j, s), lc_add_term lc (from_u64 (Z.of_nat j), bit_get_variable s))
        lc_zero (imap (λ j s, (j, s)) sel) in
      let from_padding := foldl (λ lc '(n, s),
        lc_add_term lc (from_u64 (Z.of_nat (terminal_block_for_len n - 1)), bit_get_variable s))
        lc_zero (imap (λ n s, (n, s)) len_sel) in
      enforce "selected block is the padding boundary"
        (lc_sub (lc_add lc_zero from_selection) from_padding) (lc_add_var lc_zero one) lc_zero
  | None => mret tt
  end ;;
  bits ← mapM (λ k,
    p ← ns ("selected digest pack " +:+ pretty k)
      (readout sel shared (λ j, Some (digest_pack n (start + j) k)) (λ _, None) ("D" +:+ pretty k));
    ns ("selected digest bits " +:+ pretty k) (unpack p ("D" +:+ pretty k))) (range PACKS_PER_DIGEST);
  mret (concat bits).
End Sha256Mc.

(** * The native compression is that of FIPS 180-4 *)
Section Native.
Context `{ScalarField}.
#[local] Existing Instances eqm_setoid Zplus_eqm.

Lemma compress_K_constants : compress_K = ROUND_CONSTANTS.
Proof. reflexivity. Qed.

Lemma schedule_word_step (values : Values) w i : schedule_word w i = (schedule_step (values, w) i).2.
Proof. unfold schedule_step, schedule_word, wrapping_add. cbn [snd]. f_equal. mod32. Qed.

Lemma schedule_words (values : Values) w l :
  foldl schedule_word w l = (foldl schedule_step (values, w) l).2.
Proof.
  revert values w. induction l as [|i l IH]; intros values w; [done|]. cbn [foldl].
  rewrite (schedule_word_step values). destruct (schedule_step (values, w) i) as [values' w']. apply IH.
Qed.

Lemma compress_round_fips w v i : compress_round w v i = fips_round w v i.
Proof.
  unfold compress_round, fips_round, wrapping_add. rewrite compress_K_constants.
  fold (Sigma0 (wa v)) (Sigma1 (we v)) (Ch (we v) (wf v) (wg v)) (Maj (wa v) (wb v) (wc v)).
  generalize (ROUND_CONSTANTS !!! i) (w !!! i) (Sigma0 (wa v)) (Sigma1 (we v)) (Ch (we v) (wf v) (wg v))
    (Maj (wa v) (wb v) (wc v)). intros k x s0 s1 ch maj.
  f_equal; mod32.
Qed.

Lemma block_words block : length block = 64%nat →
  (λ i, be_int (slice (i * 4) (i * 4 + 4) block)) <$> range 16 = bytes_to_words block.
Proof.
  intros Hb. rewrite <-(words_lookup 16) by done. apply list_fmap_ext. intros _ i _.
  by rewrite (Nat.mul_comm i).
Qed.

(** The compression by which the prover computes the shared digests is
    that of FIPS 180-4. *)
Lemma compress_native_fips h block :
  length h = 8%nat → length block = 64%nat →
  compress_native h block = fips_compress h (bytes_to_words block).
Proof.
  intros Hh Hb. unfold compress_native. rewrite block_words by done.
  assert (length (bytes_to_words block) = 16%nat) as Hw by by apply (bytes_to_words_range block 16).
  rewrite (schedule_words ([] : Values)), schedule_fips by done. unfold fips_compress, range.
  assert (∀ l v, foldl (compress_round (fips_schedule (bytes_to_words block))) v l
    = foldl (fips_round (fips_schedule (bytes_to_words block))) v l) as ->.
  { intros l. induction l as [|i l IH]; intros v; [done|]. cbn [foldl]. by rewrite compress_round_fips, IH. }
  destruct h as [|h0 [|h1 [|h2 [|h3 [|h4 [|h5 [|h6 [|h7 [|]]]]]]]]]; try discriminate Hh.
  set (v := foldl _ _ _). clearbody v. clear. cbn [zip_with].
  unfold wrapping_add. repeat match goal with |- _ :: _ = _ :: _ => f_equal end; cbn; mod32.
Qed.
End Native.

(** * What the rules force *)
Section Readout.
Context `{BooleanOps} (σ : Assignment).
Add Field scalar_field : scalar_field_theory (morphism of_int_morph, constants [scalar_const]).
Local Abbreviation D := (denotes σ).

Lemma gadget_index_one_hot n real :
  (Z.of_nat n < p)%Z → gadget σ (index_one_hot n real) (λ sel, ∃ k, selects_length σ sel n k).
Proof.
  intros Hn. unfold index_one_hot.
  eapply gadget_bind; [apply gadget_slots; intros k; apply gadget_ns, gadget_AllocatedBit_alloc|].
  intros sel (vs & HS & Hl). unfold range in Hl. rewrite length_seq in Hl.
  eapply gadget_bind; [apply gadget_enforce|]. intros [] E. apply gadget_ret. cbv beta zeta in E. rewrite <-Hl.
  apply one_slot; [done|by rewrite Hl|]. autorewrite with evals in E. by_rule E.
Qed.

(** The value at the selected index. *)
Lemma gadget_readout sel n k shared index_of constant_for tag (v : nat → Scalar) :
  selects_length σ sel n k →
  (∀ j, j < n → match index_of j, constant_for j with
    | _, Some c => v j = c
    | Some idx, None => ∃ a, shared !! idx = Some a ∧ nval σ a = v j
    | None, None => v j = ZERO
    end) →
  gadget σ (readout sel shared index_of constant_for tag) (λ out, nval σ out = v k).
Proof.
  intros [Hk HS] Hv. unfold readout. eapply gadget_bind.
  { apply (gadget_foldM σ _ _ _ (λ done acc, eval σ acc.1 = if (k <? length done)%nat then v k else ZERO)).
    - apply eval_zero.
    - intros done [j s] [acc value] Hp E. apply prefix_snoc_lookup in Hp as [Hj _].
      apply list_lookup_imap_Some in Hj as (s' & Es & [= -> ->]). set (j := length done) in *. cbn [fst] in E.
      assert (j < n) as Lj by (apply lookup_lt_Some in Es; by rewrite (Forall2_length _ _ _ HS), length_one_hot in Es).
      pose proof (Forall2_lookup_lr _ _ _ _ _ _ HS Es (lookup_one_hot n k j Lj)) as Hs.
      specialize (Hv j Lj).
      eapply (gadget_bind _ _ _ (λ _, True)).
      { destruct (index_of j) as [idx|], (constant_for j) as [c|]; try (by apply gadget_ret).
        destruct Hv as (a & Ea & _). eapply gadget_bind; [by apply gadget_index_nth|]. intros; by apply gadget_ret. }
      intros tv _. cbv zeta. eapply gadget_bind; [apply gadget_ns, gadget_AllocatedNum_alloc|]. intros t _.
      eapply (gadget_bind _ _ _ (λ _, nval σ t = (of_bool (bool_decide (j = k)) * v j)%S)).
      { destruct (index_of j) as [idx|], (constant_for j) as [c|];
          try (eapply gadget_mono; [apply gadget_enforce|]; intros [] R; autorewrite with evals in R; fold_nval R;
            rewrite Hs in R; rewrite Hv; by_rule R).
        destruct Hv as (a & Ea & Ha). eapply gadget_bind; [by apply gadget_index_nth|]. intros ? ->.
        eapply gadget_mono; [apply gadget_enforce|]; intros [] R; autorewrite with evals in R; fold_nval R.
        rewrite Hs, Ha in R. by_rule R. }
      intros [] Ht. cbv beta in Ht. apply gadget_ret. cbn [fst]. rewrite eval_add_var, E, length_app. cbn [length].
      change (σ (get_variable t)) with (nval σ t). rewrite Ht. fold j.
      destruct (Nat.ltb_spec k j), (Nat.ltb_spec k (j + 1)); try lia.
      + rewrite bool_decide_eq_false_2 by lia. simpl. ring.
      + assert (j = k) as -> by lia. rewrite bool_decide_eq_true_2 by done. simpl. ring.
      + rewrite bool_decide_eq_false_2 by lia. simpl. ring. }
  intros [acc value] E. cbn [fst] in E. rewrite length_imap in E.
  rewrite (proj2 (Nat.ltb_lt _ _)) in E by (by rewrite (Forall2_length _ _ _ HS), length_one_hot).
  alloc_rule. rule_as R. apply gadget_ret. rewrite E in R. by_rule R.
Qed.

Lemma gadget_unpack p tag :
  gadget σ (unpack p tag) (λ bits,
    bits_are D bits (int_bits 128 (repr (nval σ p))) ∧ (repr (nval σ p) < 2 ^ 128)%Z).
Proof.
  unfold unpack. cbv zeta. change (BYTES_PER_PACK * 8)%nat with 128%nat.
  eapply gadget_bind; [apply gadget_slots; intros k; apply gadget_ns, gadget_AllocatedBit_alloc|].
  intros bs (vs & HS & Hl). change (length (range 128)) with 128%nat in Hl.
  eapply gadget_bind; [apply gadget_enforce|]. intros [] E. apply gadget_ret.
  rewrite eval_add, (eval_packed_slots σ bs vs 128 lc_zero HS Hl) in E. autorewrite with evals in E. fold_nval E.
  assert (nval σ p = of_int (bits_int vs)) as Ep by by_rule E.
  destruct (repr_bits (nval σ p) vs) as [E1 E2]; [lia|done|]. rewrite Hl in E1, E2.
  split; [|exact E2]. rewrite E1. by apply slots_booleans.
Qed.

Lemma eval_repack bs vs : bits_are D bs vs → eval σ (repack bs) = of_int (bits_int vs).
Proof.
  intros HF. unfold repack. rewrite (eval_packed_booleans σ bs vs); [|done|by rewrite (Forall2_length _ _ _ HF)].
  rewrite eval_zero. ring.
Qed.
End Readout.

(** * The shared vector *)
Section Shared.
Context `{ScalarField}.
Implicit Types (s : list Scalar) (layout : HashLayout).

(** The bytes of a block and of a digest, and the state a block starts from. *)
Definition cell (s : list Scalar) (i : nat) : Scalar := default ZERO (s !! i).
Definition shared_block layout s (j : nat) : list byte :=
  range 4 ≫= λ k, pack_bytes_of (cell s (block_pack (total_blocks layout) j k)).
Definition shared_digest layout s (j : nat) : list byte :=
  range 2 ≫= λ k, pack_bytes_of (cell s (digest_pack (total_blocks layout) j k)).
Definition shared_state layout s (j : nat) : list Z :=
  if is_first_of_message layout j then IV else bytes_to_words (shared_digest layout s (j - 1)).

(** What the step of block [j] shows. *)
Record step_holds layout s (j : nat) : Prop := {
  sh_small k : k < 4 → (repr (cell s (block_pack (total_blocks layout) j k)) < 2 ^ 128)%Z;
  sh_small_digest k : k < 2 → (repr (cell s (digest_pack (total_blocks layout) j k)) < 2 ^ 128)%Z;
  sh_digest : shared_digest layout s j
    = words_to_bytes (fips_compress (shared_state layout s j) (bytes_to_words (shared_block layout s j)));
}.

Lemma length_shared_digest layout s j : length (shared_digest layout s j) = 32.
Proof. done. Qed.
Lemma length_shared_block layout s j : length (shared_block layout s j) = 64.
Proof. done. Qed.

Lemma shared_digest_S layout s j :
  step_holds layout s j →
  bytes_to_words (shared_digest layout s j)
  = fips_compress (shared_state layout s j) (bytes_to_words (shared_block layout s j)).
Proof. intros Hs. rewrite (sh_digest _ _ _ Hs). apply bytes_to_words_to_bytes, fips_compress_words. Qed.

(** The digests of a message are the chain of its blocks. *)
Lemma first_of_message_iff at_ blocks block :
  first_of_message_from at_ blocks block = true ↔
  ∃ i, i < length blocks ∧ block = at_ + sum_list (take i blocks).
Proof.
  revert at_. induction blocks as [|n blocks IH]; intros at_.
  - cbn. split; [done|]. intros (i & Hi & _). cbn in Hi. lia.
  - cbn [first_of_message_from]. destruct (Nat.eqb_spec block at_) as [->|N].
    + split; [|done]. intros _. exists 0. cbn. lia.
    + rewrite IH. split.
      * intros (i & Hi & ->). exists (S i). cbn. lia.
      * intros ([|i] & Hi & E); [cbn in E; lia|]. exists i. cbn in *. lia.
Qed.

Lemma sum_list_take_le (l : list nat) i i' : i ≤ i' → sum_list (take i l) ≤ sum_list (take i' l).
Proof.
  revert i i'. induction l as [|x l IH]; intros i i' Hi; [by rewrite !take_nil|].
  destruct i as [|i], i' as [|i']; cbn; try lia. specialize (IH i i'). lia.
Qed.

Lemma sum_list_take_S (l : list nat) i n : l !! i = Some n → sum_list (take (S i) l) = sum_list (take i l) + n.
Proof. intros Hi. rewrite (take_S_r _ _ _ Hi), sum_list_with_app. cbn. lia. Qed.

(** Of the blocks of a message, the first one is a first one. *)
Lemma first_of_message_start layout m budget i :
  message_blocks layout !! m = Some budget → i < budget →
  is_first_of_message layout (message_start layout m + i) = bool_decide (i = 0).
Proof.
  intros Hm Hi. apply eq_true_iff_eq. unfold is_first_of_message. rewrite first_of_message_iff, bool_decide_eq_true.
  cbn [Nat.add]. unfold message_start. split.
  - intros (m' & Hm' & E). destruct (decide (m' ≤ m)) as [L|L].
    + pose proof (sum_list_take_le (message_blocks layout) m' m L). lia.
    + pose proof (sum_list_take_le (message_blocks layout) (S m) m' ltac:(lia)).
      rewrite (sum_list_take_S _ _ _ Hm) in *. lia.
  - intros ->. exists m. split; [by eapply lookup_lt_Some|lia].
Qed.

Lemma message_in_layout layout m budget i :
  message_blocks layout !! m = Some budget → i < budget → message_start layout m + i < total_blocks layout.
Proof.
  intros Hm Hi. unfold message_start, total_blocks.
  pose proof (sum_list_take_le (message_blocks layout) (S m) (length (message_blocks layout)) (lookup_lt_Some _ _ _ Hm)) as HL.
  rewrite (sum_list_take_S _ _ _ Hm), firstn_all in HL. lia.
Qed.

(** The blocks of message [m] hold the bytes [l]. *)
Definition holds_message layout s (m : nat) (l : list byte) : Prop :=
  ∀ b, b < default 0 (message_blocks layout !! m) →
    shared_block layout s (message_start layout m + b) = block_at l b.

Lemma message_chain layout s m budget l :
  message_blocks layout !! m = Some budget → (∀ j, j < total_blocks layout → step_holds layout s j) →
  holds_message layout s m l →
  ∀ t, t < budget → bytes_to_words (shared_digest layout s (message_start layout m + t)) = block_chain l (S t).
Proof.
  intros Hm Hs Hl. unfold holds_message in Hl. rewrite Hm in Hl. cbn [default] in Hl.
  induction t as [|t IH]; intros Ht.
  - rewrite shared_digest_S, Hl by (apply Hs || done; by eapply message_in_layout).
    unfold shared_state. by rewrite (first_of_message_start _ _ _ _ Hm).
  - rewrite shared_digest_S, Hl by (apply Hs || done; by eapply message_in_layout).
    rewrite (chain_S _ (S t)), <-IH by lia. unfold shared_state. rewrite (first_of_message_start _ _ _ _ Hm) by done.
    rewrite bool_decide_eq_false_2 by done. by replace (message_start layout m + S t - 1) with (message_start layout m + t) by lia.
Qed.
End Shared.

(** The places of the packs. *)
Lemma block_pack_lt n j k : j < n → k < 4 → block_pack n j k < 6 * n.
Proof. intros. unfold block_pack. change PACKS_PER_BLOCK with 4. lia. Qed.
Lemma digest_pack_lt n j k : j < n → k < 2 → digest_pack n j k < 6 * n.
Proof. intros. unfold digest_pack. change PACKS_PER_BLOCK with 4. change PACKS_PER_DIGEST with 2. lia. Qed.

(** * The step, the binding of a message, the choice of a digest *)
Section Sha256McRules.
Context `{BooleanOps} `{!CompressionGadget} `{!PublicNums} (σ : Assignment).
Add Field scalar_field : scalar_field_theory (morphism of_int_morph, constants [scalar_const]).
Local Abbreviation D := (denotes σ).
Variables (shared : list AllocatedNum) (s : list Scalar) (layout : HashLayout).
Local Abbreviation n := (total_blocks layout).
Hypothesis (Hn : (Z.of_nat n < 2 ^ 64)%Z).
Hypothesis (Hs : Forall2 (λ a v, nval σ a = v) shared s).
Hypothesis (Hl : length s = 6 * n).

Lemma shared_cell i : i < 6 * n → ∃ a, shared !! i = Some a ∧ nval σ a = cell s i.
Proof.
  intros Hi. destruct (lookup_lt_is_Some_2 s i) as [v Ev]; [lia|].
  destruct (Forall2_lookup_r _ _ _ _ _ Hs Ev) as (a & Ea & Ha). exists a. unfold cell. by rewrite Ev.
Qed.

(** The packs that a loop reads and splits into bits. *)
Lemma gadget_read_packs sel m i index_of constant_for (tag name name' : nat → string) (v : nat → nat → Scalar) c :
  selects_length σ sel m i →
  (∀ k j, k < c → j < m → match index_of k j, constant_for k j with
    | _, Some x => v k j = x
    | Some idx, None => ∃ a, shared !! idx = Some a ∧ nval σ a = v k j
    | None, None => v k j = ZERO
    end) →
  gadget σ (mapM (λ k,
      p ← ns (name k) (readout sel shared (index_of k) (constant_for k) (tag k));
      ns (name' k) (unpack p (tag k))) (range c))
    (λ bs, bits_are D (concat bs) ((range c ≫= λ k, pack_bytes_of (v k i)) ≫= Prelude.byte_bits) ∧
      ∀ k, k < c → (repr (v k i) < 2 ^ 128)%Z).
Proof.
  intros HS Hv. eapply gadget_mono.
  { apply (gadget_mapM_Forall2 _ _ _ (λ k bs, bits_are D bs (pack_bytes_of (v k i) ≫= Prelude.byte_bits) ∧
      (repr (v k i) < 2 ^ 128)%Z)).
    intros k [_ Hk]%elem_of_seq. cbn in Hk.
    eapply gadget_bind; [apply gadget_ns, (gadget_readout _ _ _ _ _ _ _ _ (v k) HS); intros j Hj; by apply Hv|].
    intros x Hx. cbv beta in Hx. eapply gadget_mono; [apply gadget_ns, gadget_unpack|].
    intros bs [HB HR]. rewrite Hx in HB, HR. split; [|done]. unfold pack_bytes_of. by rewrite bind_byte_bits_be_bytes. }
  intros bs HF. cbv beta in HF. split.
  - rewrite bind_bind. apply Forall2_concat_bind, Forall2_flip. eapply Forall2_impl; [exact HF|]. by intros k b [HB _].
  - intros k Hk. assert (range c !! k = Some k) as Ek by by apply lookup_seq_lt.
    by destruct (Forall2_lookup_l _ _ _ _ _ HF Ek) as (b & _ & _ & HR).
Qed.

(** What a state selects: the initial state, or the digest before. *)
Lemma gadget_state_value j k :
  j < n → k < 2 →
  match (if is_first_of_message layout j then None else Some (digest_pack n (j - 1) k)),
        (if is_first_of_message layout j then Some (iv_pack k) else None) with
  | _, Some x => (if is_first_of_message layout j then iv_pack k else cell s (digest_pack n (j - 1) k)) = x
  | Some idx, None => ∃ a, shared !! idx = Some a ∧
      nval σ a = (if is_first_of_message layout j then iv_pack k else cell s (digest_pack n (j - 1) k))
  | None, None => (if is_first_of_message layout j then iv_pack k else cell s (digest_pack n (j - 1) k)) = ZERO
  end.
Proof.
  intros Hj Hk. destruct (is_first_of_message layout j); [done|].
  apply shared_cell, digest_pack_lt; [lia|done].
Qed.

Lemma iv_packs :
  (range 2 ≫= λ k, pack_bytes_of (iv_pack k)) = words_to_bytes IV ∧ ∀ k, k < 2 → (repr (iv_pack k) < 2 ^ 128)%Z.
Proof.
  apply packs_of_bytes; [done|]. intros k Hk. unfold iv_pack. rewrite pack_be_int.
  change (mc_IV ≫= be_bytes 4) with (words_to_bytes IV). change BYTES_PER_PACK with 16.
  by rewrite !(Nat.mul_comm 16).
Qed.

Lemma state_packs j :
  (range 2 ≫= λ k, pack_bytes_of (if is_first_of_message layout j then iv_pack k else cell s (digest_pack n (j - 1) k)))
  = words_to_bytes (shared_state layout s j).
Proof.
  unfold shared_state. destruct (is_first_of_message layout j); [apply (proj1 iv_packs)|].
  by rewrite (words_to_bytes_to_words _ 8) by apply length_shared_digest.
Qed.

Lemma shared_state_words j : length (shared_state layout s j) = 8 ∧ Forall word (shared_state layout s j).
Proof.
  unfold shared_state. destruct (is_first_of_message layout j); [apply IV_words|].
  by apply (bytes_to_words_range _ 8), length_shared_digest.
Qed.

(** The output of the compression, compared in packs. *)
Lemma gadget_matches_digest sel j out_bits l :
  selects_length σ sel n j → bits_are D out_bits (l ≫= Prelude.byte_bits) → length l = 32 →
  gadget σ (mapM (λ k,
    expected ← ns ("digest pack " +:+ pretty k)
      (readout sel shared (λ j, Some (digest_pack n j k)) (λ _, None) ("Hout" +:+ pretty k));
    let got := repack (slice (k * BYTES_PER_PACK * 8) ((k + 1) * BYTES_PER_PACK * 8) out_bits) in
    enforce ("compression output matches shared digest " +:+ pretty k)
      (lc_add lc_zero got) (lc_add_var lc_zero one) (lc_add_var lc_zero (get_variable expected)))
    (range PACKS_PER_DIGEST))
    (λ _, shared_digest layout s j = l ∧ ∀ k, k < 2 → (repr (cell s (digest_pack n j k)) < 2 ^ 128)%Z).
Proof.
  intros HS HB Hl32. eapply gadget_mono.
  { apply (gadget_mapM_Forall2 _ _ _ (λ k _,
      cell s (digest_pack n j k) = of_int (be_int (slice (16 * k) (16 * (k + 1)) l)))).
    intros k [_ Hk]%elem_of_seq. cbn in Hk.
    eapply gadget_bind.
    { apply gadget_ns, (gadget_readout _ _ _ _ _ _ _ _ (λ j, cell s (digest_pack n j k)) HS).
      intros i Hi. by apply shared_cell, digest_pack_lt. }
    intros e He. cbv beta zeta in *. eapply gadget_mono; [apply gadget_enforce|]. intros [] R. cbv beta in R.
    change BYTES_PER_PACK with 16 in R.
    rewrite eval_add, (eval_repack σ _ (slice (16 * k) (16 * (k + 1)) l ≫= Prelude.byte_bits)) in R.
    2: { rewrite <-slice_bind_byte_bits. replace (8 * (16 * k)) with (k * 16 * 8) by lia.
         replace (8 * (16 * (k + 1))) with ((k + 1) * 16 * 8) by lia. unfold slice. by apply Forall2_take, Forall2_drop. }
    rewrite bits_int_bind_byte_bits in R. autorewrite with evals in R. fold_nval R. rewrite He in R. by_rule R. }
  intros us HF. cbv beta in HF. apply packs_of_bytes; [by rewrite Hl32|]. intros k Hk.
  assert (range PACKS_PER_DIGEST !! k = Some k) as Ek by by apply lookup_seq_lt.
  by destruct (Forall2_lookup_l _ _ _ _ _ HF Ek) as (u & _ & E).
Qed.

(** A step of a folded instance: it holds for the block whose index it
    publishes. *)
Lemma wp_synthesize_step step na ni :
  wp σ (synthesize_step shared layout step) na ni (λ _ _ ni',
    ni' = S ni ∧ ∃ j, j < n ∧ σ (Input ni) = of_int (Z.of_nat j) ∧ step_holds layout s j).
Proof.
  assert (Z.of_nat n < p)%Z as Hnp by (eapply Z.lt_trans; [exact Hn|]; apply (lt_pow_p 64); lia).
  unfold synthesize_step. cbv zeta.
  apply wp_bind. eapply wp_gadget; [apply gadget_ns, gadget_index_one_hot, Hnp|]. intros sel na1 (j & HS).
  apply wp_bind. eapply wp_gadget; [apply gadget_ns, gadget_AllocatedNum_alloc|]. intros idx na2 _.
  apply wp_bind, wp_ns, inputize_wp. intros Hidx.
  apply wp_bind. eapply wp_gadget; [apply gadget_enforce|]. intros [] na3 E. cbv beta in E.
  rewrite eval_add, (eval_selected_slots σ sel n j (λ j, Z.of_nat j)) in E by (apply HS || (intros; lia)).
  autorewrite with evals in E. fold_nval E.
  assert (σ (Input ni) = of_int (Z.of_nat j)) as Ej by (rewrite Hidx; by_rule E). clear E Hidx.
  pose proof HS as [Hj _].
  apply wp_bind. eapply wp_gadget.
  { apply (gadget_read_packs sel n j (λ k j, Some (block_pack n j k)) (λ _ _, None) _ _ _
      (λ k j, cell s (block_pack n j k)) PACKS_PER_BLOCK HS).
    intros k i Hk Hi. by apply shared_cell, block_pack_lt. }
  intros block_bits na4 [HB HB']. cbv beta in HB, HB'.
  apply wp_bind. eapply wp_gadget.
  { apply (gadget_read_packs sel n j _ _ _ _ _
      (λ k j, if is_first_of_message layout j then iv_pack k else cell s (digest_pack n (j - 1) k)) PACKS_PER_DIGEST HS).
    intros k i Hk Hi. by apply gadget_state_value. }
  intros state_bits na5 [HT _]. cbv beta in HT. change PACKS_PER_DIGEST with 2 in HT. rewrite state_packs in HT.
  change (range PACKS_PER_BLOCK ≫= _) with (shared_block layout s j) in HB.
  pose proof (shared_state_words j) as [HTl HTw].
  apply wp_bind. eapply wp_gadget.
  { apply gadget_ns. eapply compression_rules; [exact HB| | |exact HTl|exact HTw].
    - by rewrite length_bind_byte_bits, length_shared_block.
    - rewrite <-(bytes_to_words_to_bytes _ HTw). eapply from_bits_words; [|exact HT].
      rewrite length_words_to_bytes, HTl. done. }
  intros out na6 HO. cbv beta in HO. rewrite bit_words_bytes in HO.
  apply words_are_bits in HO. rewrite <-words_bits in HO by apply fips_compress_words.
  apply wp_bind. eapply wp_gadget.
  { apply (gadget_matches_digest sel j _ _ HS HO). by rewrite length_words_to_bytes, length_fips_compress. }
  intros us na7 [HD HD']. cbv beta in HD. cbn. split; [done|]. exists j. split_and!; [done..|].
  split; [exact HB'|exact HD'|exact HD].
Qed.

Lemma slice_block l b k :
  k < 4 → slice (16 * k) (16 * (k + 1)) (block_at l b) = slice (64 * b + 16 * k) (64 * b + 16 * k + 16) l.
Proof.
  intros Hk. unfold block_at, slice. rewrite skipn_firstn_comm, take_take, drop_drop. f_equal. lia.
Qed.

(** The core's message is in the blocks. *)
Lemma gadget_bind_message m budget buf l :
  message_blocks layout !! m = Some budget → bits_are D buf (l ≫= Prelude.byte_bits) → length l = 64 * budget →
  gadget σ (bind_message_to_shared shared layout m buf) (λ _, holds_message layout s m l).
Proof.
  intros Hm HB Hlb. unfold bind_message_to_shared. cbv zeta.
  eapply gadget_bind; [by apply gadget_index_nth|]. intros ? ->.
  pose proof (Forall2_length _ _ _ HB) as Hbl. rewrite length_bind_byte_bits, Hlb in Hbl.
  rewrite (proj2 (Nat.eqb_eq _ _)) by lia. cbn [negb].
  eapply gadget_bind; [|intros us HF; apply gadget_ret; exact HF].
  eapply gadget_mono.
  { apply (gadget_mapM_Forall2 _ _ _ (λ b _, shared_block layout s (message_start layout m + b) = block_at l b)).
    intros b [_ Hb]%elem_of_seq. cbn in Hb. pose proof (message_in_layout _ _ _ _ Hm Hb) as Hj.
    assert (length (block_at l b) = 64) as Hlk by (unfold block_at; rewrite length_slice; lia).
    eapply gadget_mono.
    { apply (gadget_mapM_Forall2 _ _ _ (λ k _, cell s (block_pack n (message_start layout m + b) k)
        = of_int (be_int (slice (16 * k) (16 * (k + 1)) (block_at l b))))).
      intros k [_ Hk]%elem_of_seq. cbn in Hk. change BYTES_PER_PACK with 16.
      destruct (shared_cell _ (block_pack_lt n _ k Hj ltac:(exact Hk))) as (a & Ea & Ha).
      eapply gadget_bind; [by apply gadget_index_nth|]. intros ? ->.
      eapply gadget_mono; [apply gadget_enforce|]. intros [] R. cbv beta in R.
      rewrite eval_add, (eval_repack σ _ (slice (16 * k) (16 * (k + 1)) (block_at l b) ≫= Prelude.byte_bits)) in R.
      2: { change (k < 4) in Hk. rewrite slice_block by lia.
           rewrite <-slice_bind_byte_bits. replace (8 * (64 * b + 16 * k)) with (b * 512 + k * 16 * 8) by lia.
           replace (8 * (64 * b + 16 * k + 16)) with (b * 512 + k * 16 * 8 + 16 * 8) by lia.
           unfold slice. by apply Forall2_take, Forall2_drop. }
      rewrite bits_int_bind_byte_bits in R. autorewrite with evals in R. fold_nval R. rewrite Ha in R. by_rule R. }
    intros us HF. cbv beta in HF. apply (packs_of_bytes _ 4); [done|]. intros k Hk.
    assert (range PACKS_PER_BLOCK !! k = Some k) as Ek by by apply lookup_seq_lt.
    by destruct (Forall2_lookup_l _ _ _ _ _ HF Ek) as (u & _ & E). }
  intros us HF b Hb. rewrite Hm in Hb. cbn in Hb.
  assert (range budget !! b = Some b) as Ek by by apply lookup_seq_lt.
  by destruct (Forall2_lookup_l _ _ _ _ _ HF Ek) as (u & _ & E).
Qed.

Lemma message_budget_le m budget : message_blocks layout !! m = Some budget → budget ≤ n.
Proof.
  intros Hm. destruct budget as [|b]; [lia|]. pose proof (message_in_layout layout m _ b Hm ltac:(lia)). lia.
Qed.

(** The digest selected is that after the block at which the padding ends. *)
Lemma gadget_select_digest m budget terminal len_sel size len :
  message_blocks layout !! m = Some budget → terminal < budget → selects_length σ len_sel size len →
  (Z.of_nat size < 2 ^ 63)%Z →
  gadget σ (select_digest shared layout m terminal (Some len_sel))
    (λ bits, ∃ t, t < budget ∧ S t = terminal_block_for_len len ∧
      bits_are D bits (shared_digest layout s (message_start layout m + t) ≫= Prelude.byte_bits)).
Proof.
  intros Hm Hterm [Hlen HL] Hsize. pose proof (message_budget_le _ _ Hm) as Hb.
  unfold select_digest. cbv zeta. eapply gadget_bind; [by apply gadget_index_nth|]. intros ? ->.
  rewrite (proj2 (Nat.leb_gt _ _) Hterm).
  assert (Z.of_nat budget < p)%Z as Hbp by (eapply Z.lt_trans; [|apply (lt_pow_p 64)]; lia).
  eapply gadget_bind; [apply gadget_ns, gadget_index_one_hot, Hbp|]. intros sel (t & HS). pose proof HS as [Ht HT].
  eapply gadget_bind; [apply gadget_enforce|]. intros [] E. cbv beta in E.
  assert (∀ k, k < size → (0 ≤ Z.of_nat (terminal_block_for_len k - 1) < 2 ^ 64)%Z) as Hk.
  { intros k Hk. pose proof (terminal_block_bounds k). lia. }
  rewrite eval_sub, eval_add, (eval_selected_slots σ sel budget t (λ j, Z.of_nat j)) in E
    by (exact HT || exact Ht || (intros; lia)).
  rewrite (eval_selected_slots σ len_sel size len (λ k, Z.of_nat (terminal_block_for_len k - 1))) in E
    by (exact HL || exact Hlen || exact Hk).
  autorewrite with evals in E.
  assert (of_int (Z.of_nat t) = of_int (Z.of_nat (terminal_block_for_len len - 1))) as E' by by_rule E.
  apply of_int_inj in E'; [|split; [lia|]; eapply Z.lt_trans; [|apply (lt_pow_p 64)]; [specialize (Hk len Hlen); lia|lia]..].
  pose proof (terminal_block_bounds len).
  eapply gadget_bind.
  { apply (gadget_read_packs sel budget t (λ k j, Some (digest_pack n (message_start layout m + j) k)) (λ _ _, None) _ _ _
      (λ k j, cell s (digest_pack n (message_start layout m + j) k)) PACKS_PER_DIGEST HS).
    intros k i Hk' Hi. apply shared_cell, digest_pack_lt; [by eapply message_in_layout|exact Hk']. }
  intros bits [HB _]. cbv beta in HB. apply gadget_ret. exists t. split_and!; [done|lia|exact HB].
Qed.
End Sha256McRules.
