(* ===== verification/Hasher.v ===== *)
(** [enum Hasher] of [mdoc_age.rs]: where the compressions of a message
    happen, in the circuit or in folded steps ([sha256_mc.rs]), and the
    acceptance of the folded steps by [verify_age] of [mdoc_age_mc.rs]. The
    contract of [hash] is the same for both. *)
From Stdlib Require Import ZArith Lia Strings.String Strings.Byte.
From stdpp Require Import base list numbers option strings pretty.
From S2P Require Import Prelude Bytes Field ConstraintSystem Shape CheckSystem Bellpepper Lc Bits Gadgets Select Limbs CborUint OneHotCursor DigestId Values Sha256 Table Window Circuit Step Sha256Var Packing Sha256Mc.

(** The loop of [verify_age] over the public values of the folded steps. *)
Fixpoint in_order `{ScalarField} (i : nat) (step_values : list (list Scalar)) : bool :=
  match step_values with
  | [] => true
  | v :: rest =>
      if bool_decide (length v ≠ 1 ∨ v !! 0 ≠ Some (from_u64 (Z.of_nat i))) then false else in_order (S i) rest
  end.
Definition check_step_values `{ScalarField} (n : nat) (step_values : list (list Scalar)) : outcome SynthesisError unit :=
  if negb (length step_values =? n) then Err Unsatisfiable else
  if in_order 0 step_values then Ok tt else Err Unsatisfiable.

Section Hasher.
Context `{BooleanOps} `{!CompressionGadget} `{!Uint32Constants} `{!PublicNums}.

Inductive Hasher :=
  | SingleCircuit
  | Folded (shared : list AllocatedNum) (layout : HashLayout) (message : nat).

Definition hash (h : Hasher) (raw_bits : list Boolean) (real_len max_bytes blocks : nat)
    : Synth (list Boolean * list Boolean) :=
  match h with
  | SingleCircuit => ns "hash" (sha256_var_sized raw_bits real_len max_bytes blocks)
  | Folded shared layout message =>
      '(buffer_bits, active, len_selector) ← padded_buffer_bits raw_bits real_len max_bytes blocks;
      bind_message_to_shared shared layout message buffer_bits ;;
      let terminal := (terminal_block_for_len real_len - 1)%nat in
      digest ← select_digest shared layout message terminal (Some len_selector);
      mret (digest, active)
  end.

(** The instances of the step circuit: each one's slots satisfy its rules,
    hold the shared vector [s], and publish its values. *)
Definition step_instance (layout : HashLayout) (s : list Scalar) (values : list Scalar) : Prop :=
  ∃ (σ : Assignment) shared step na ni,
    Forall2 (λ a v, nval σ a = v) shared s ∧
    satisfies σ (synthesize_step shared layout step) na ni ∧
    let ni' := (shape (synthesize_step shared layout step) na ni).2.2 in
    values = (λ k, σ (Input k)) <$> seq ni (ni' - ni).

Lemma in_order_lookup k step_values i v :
  in_order k step_values = true → step_values !! i = Some v → v = [from_u64 (Z.of_nat (k + i))].
Proof.
  revert k i. induction step_values as [|w rest IH]; intros k i; [done|]. cbn [in_order].
  case_bool_decide as Hw; [done|]. intros Hi Ev.
  destruct i as [|i]; cbn in Ev.
  - injection Ev as ->. rewrite Nat.add_0_r. destruct v as [|x [|]]; [destruct Hw; by left| |destruct Hw; by left].
    destruct (decide (x = from_u64 (Z.of_nat k))) as [->|N]; [done|]. destruct Hw. right. cbn. by intros [= ->].
  - rewrite (IH _ _ Hi Ev). by replace (S k + i) with (k + S i) by lia.
Qed.

(** Accepted steps hold at every block. *)
Lemma steps_hold layout s step_values :
  (Z.of_nat (total_blocks layout) < 2 ^ 64)%Z → length s = 6 * total_blocks layout →
  Forall (step_instance layout s) step_values → check_step_values (total_blocks layout) step_values = Ok tt →
  ∀ j, j < total_blocks layout → step_holds layout s j.
Proof.
  intros Hn Hl HF Hc j Hj. unfold check_step_values in Hc.
  destruct (Nat.eqb_spec (length step_values) (total_blocks layout)) as [E|]; [|done]. cbn [negb] in Hc.
  destruct (in_order 0 step_values) eqn:Ho; [|done].
  destruct (lookup_lt_is_Some_2 step_values j) as [v Ev]; [lia|].
  pose proof (in_order_lookup _ _ _ _ Ho Ev) as Ev'.
  destruct (list.Forall_lookup_1 _ _ _ _ HF Ev) as (σ & shared & step & na & ni & Hs & Hsat & Hv).
  destruct (proj1 (wp_shape _ _ _ _ _) (wp_synthesize_step σ shared s layout Hn Hs Hl step na ni) Hsat)
    as (u & _ & Hni & i & Hi & Ei & Hstep).
  cbv zeta in Hv. rewrite Hni in Hv. replace (S ni - ni) with 1 in Hv by lia. cbn in Hv. rewrite Ev', Ei in Hv.
  injection Hv as E2. rewrite from_u64_of_int in E2 by lia.
  apply of_int_inj in E2; [|split; [lia|]; eapply Z.lt_trans; [|apply (lt_pow_p 64)]; lia..].
  by replace j with i by lia.
Qed.

(** Where the compressions happen, they are right: in the circuit, or in
    steps that the verifier accepted over the vector the circuit shares. *)
Definition compressions_done (σ : Assignment) (h : Hasher) (blocks : nat) : Prop :=
  match h with
  | SingleCircuit => True
  | Folded shared layout message =>
      message_blocks layout !! message = Some blocks ∧ (Z.of_nat (total_blocks layout) < 2 ^ 64)%Z ∧
      ∃ s step_values, Forall2 (λ a v, nval σ a = v) shared s ∧ length s = 6 * total_blocks layout ∧
        Forall (step_instance layout s) step_values ∧
        check_step_values (total_blocks layout) step_values = Ok tt
  end.

Lemma gadget_hash (σ : Assignment) h raw m real_len blocks :
  compressions_done σ h blocks →
  bits_are (denotes σ) raw (m ≫= Prelude.byte_bits) → real_len ≤ length m →
  (Z.of_nat (S (length m)) < 2 ^ 63)%Z → length m + 9 ≤ 64 * blocks →
  gadget σ (hash h raw real_len (length m) blocks) (λ '(digest, act), ∃ n, n ≤ length m ∧
    bits_are (denotes σ) digest (fips_sha256 (take n m) ≫= Prelude.byte_bits) ∧
    bits_are (denotes σ) act ((λ i, (i <? n)%nat) <$> range (length m))).
Proof.
  intros Hh HB Hr Hm Hb.
  assert (Z.of_nat (S (length m)) < p)%Z as Hp by (eapply Z.lt_trans; [|apply (lt_pow_p 63)]; lia).
  destruct h as [|shared layout message]; cbn [hash].
  { apply gadget_ns. by apply gadget_sha256_var_sized. }
  destruct Hh as (Hbl & Hn & s & step_values & Hs & Hl & HF & Hc).
  pose proof (steps_hold _ _ _ Hn Hl HF Hc) as Hst.
  eapply gadget_bind; [apply (gadget_padded_buffer_bits _ _ m); done || lia|].
  intros [[buf act] sel] (n & HS & HBuf & HA). pose proof HS as [Hn' _].
  eapply gadget_bind.
  { apply (gadget_bind_message σ shared s layout Hs Hl _ _ _ (buffer m n (blocks * 64)) Hbl HBuf). unfold buffer, range. rewrite length_fmap, length_seq. lia. }
  intros ? HM. cbv beta in HM. pose proof (terminal_block_bounds real_len) as Ht.
  eapply gadget_bind; [apply (gadget_select_digest σ shared s layout Hn Hs Hl message blocks _ sel (S (length m)) n Hbl); [lia|exact HS|lia]|].
  intros digest (t & Ht1 & Ht2 & HD). apply gadget_ret. exists n. split_and!; [lia| |done].
  rewrite <-(buffer_digest m n (blocks * 64)) by lia. rewrite <-Ht2.
  rewrite <-(message_chain layout s message blocks (buffer m n (blocks * 64)) Hbl Hst HM t Ht1).
  by rewrite (words_to_bytes_to_words _ 8) by apply length_shared_digest.
Qed.

(** C19: The contract of [hash], the same for the hash in the circuit and for
    the folded one: whoever assigns the slots of the circuit and of the steps
    that the verifier accepts, the bits returned are the SHA-256 digest of
    some prefix of the message within the budget, and the mask of that
    prefix. *)
Theorem hash_sound (σ : Assignment) h raw m real_len blocks :
  compressions_done σ h blocks →
  bits_are (denotes σ) raw (m ≫= Prelude.byte_bits) → real_len ≤ length m →
  (Z.of_nat (S (length m)) < 2 ^ 63)%Z → length m + 9 ≤ 64 * blocks →
  gadget σ (hash h raw real_len (length m) blocks) (λ '(digest, act), ∃ n, n ≤ length m ∧
    bits_are (denotes σ) digest (fips_sha256 (take n m) ≫= Prelude.byte_bits) ∧
    bits_are (denotes σ) act ((λ i, (i <? n)%nat) <$> range (length m))).
Proof. apply gadget_hash. Qed.
End Hasher.
