(* ===== verification/HonestSteps.v ===== *)
(** The honest direction of [sha256_mc.rs]: over the vector of the blocks and
    the digests after them, the step circuit of every block breaks no rule and
    publishes the block's index. *)
From Stdlib Require Import ZArith Lia Strings.String Strings.Byte.
From Stdlib Require Import Field_tac Ring.
From stdpp Require Import base list numbers option strings pretty.
From S2P Require Import Prelude Bytes Field ConstraintSystem Shape CheckSystem Bellpepper Lc Bits Gadgets Select Limbs CborUint OneHotCursor DigestId Values Sha256 Table Window Circuit Step Sha256Var Packing Sha256Mc Hasher.

(** * Values of weighted sums, by an assignment *)
Section Stored.
Context `{BooleanOps}.
Add Field scalar_field : scalar_field_theory (morphism of_int_morph, constants [scalar_const]).
Implicit Types (s : Store) (lc : LinearCombination).

(** The assignment of the values of a store. *)
Definition stored s : Assignment := {|
  assign v := if decide (v = Input 0) then ONE else recorded s v;
  assign_one := decide_True ONE (recorded s (Input 0)) eq_refl;
|}.

Lemma stored_lookup s v x : has_one s → s_lookup s v = Some x → stored s v = x.
Proof.
  intros Ho Hv. cbn. destruct (decide (v = Input 0)) as [->|N]; [|by apply recorded_lookup].
  unfold has_one in Ho. cbn in Hv. congruence.
Qed.

Lemma valued_stored s lc x : has_one s → within s lc → eval (stored s) lc = x → valued s lc x.
Proof.
  intros Ho Hw <-. split; [done|]. apply lc_eval_terms_agree. intros v Hv.
  destruct (within_out _ _ _ Hw Hv) as [y Ey]. by rewrite (recorded_lookup _ _ _ Ey), (stored_lookup s _ y).
Qed.

Lemma stored_valued s lc x : has_one s → valued s lc x → eval (stored s) lc = x.
Proof.
  intros Ho [Hw <-]. apply lc_eval_terms_agree. intros v Hv.
  destruct (within_out _ _ _ Hw Hv) as [y Ey]. by rewrite (recorded_lookup _ _ _ Ey), (stored_lookup s _ y).
Qed.

Lemma knows_stored s x v : has_one s → knows s x v → denotes (stored s) x v.
Proof. intros Ho [_ Hv]. by apply stored_valued. Qed.

Lemma bits_know_denote s bs vs : has_one s → bits_are (knows s) bs vs → bits_are (denotes (stored s)) bs vs.
Proof. intros Ho HF. eapply Forall2_impl; [exact HF|]. intros. by apply knows_stored. Qed.

Lemma slots_know_denote s bs vs : has_one s → Forall2 (bit_knows s) bs vs → Forall2 (bbit (stored s)) bs vs.
Proof. intros Ho HF. eapply Forall2_impl; [exact HF|]. intros b v [_ Hb]. by apply stored_lookup. Qed.

Lemma slots_know_booleans s bs vs : Forall2 (bit_knows s) bs vs → bits_are (knows s) (Boolean_from <$> bs) vs.
Proof. intros HF. apply Forall2_fmap_l. eapply Forall2_impl; [exact HF|]. intros b v [E1 E2]. by apply knows_bit. Qed.

Lemma within_foldl {A} (add : LinearCombination → A → LinearCombination) s (l : list A) lc :
  within s lc → Forall (λ a, ∀ lc, within s lc → within s (add lc a)) l → within s (foldl add lc l).
Proof. revert lc. induction l as [|a l IH]; intros lc Hw; [done|]. intros [Ha Hl]%list.Forall_cons_1. cbn. auto. Qed.

Lemma within_zero s : within s lc_zero.
Proof. apply valued_of_zero. Qed.

Lemma within_add s a b : within s a → within s b → within s (lc_add a b).
Proof. intros Ha Hb. apply within_in. intros v [?|?]%lc_add_vars; eauto using within_out. Qed.

Lemma within_add_term s a c v x : within s a → s_lookup s v = Some x → within s (lc_add_term a (c, v)).
Proof. intros Ha Hv. apply within_in. intros w [?| ->]%lc_add_term_vars; eauto using within_out. Qed.

Lemma within_scaled s b v c : knows s (bit b) v → within s (Boolean_lc b one c).
Proof. intros [_ [Hw _]]. apply within_in. intros w Hv%Boolean_lc_scaled_vars. by eapply within_out. Qed.

(** A loop over a list, each result with its own fact. *)
Lemma completes_mapM {A B} (f : A → Synth B) l s (R : A → B → Store → Prop) :
  (∀ x y s vs, R x y s → R x y (push s vs)) →
  (∀ x vs, x ∈ l → completes (f x) (push s vs) (R x)) →
  completes (mapM f l) s (λ ys s', Forall2 (λ x y, R x y s') l ys).
Proof.
  intros HR. revert s. induction l as [|x l IH]; intros s Hf.
  - by apply completes_ret.
  - cbn [mapM]. eapply completes_bind; [rewrite <-(push_nil s); apply Hf; by left|].
    intros y vs Hy. eapply completes_bind.
    + apply IH. intros x' vs' Hx'. rewrite !push_push. apply Hf. by right.
    + intros ys vs' Hys. apply completes_ret. constructor; [|done]. by apply HR.
Qed.
End Stored.

(** What a selector, a vector and bits know stays known. *)
#[local] Ltac keep_more vs ::= repeat match goal with
  | K : Forall2 (bit_knows ?s) _ _ |- _ => lazymatch s with push _ vs => fail | _ =>
      apply (λ H, Forall2_impl _ _ _ _ H (λ r c, bit_knows_push s vs r c)) in K end
  | K : Forall2 (num_knows ?s) _ _ |- _ => lazymatch s with push _ vs => fail | _ =>
      apply (λ H, Forall2_impl _ _ _ _ H (λ r c, num_knows_push s vs r c)) in K end
  | K : bits_are (knows ?s) _ _ |- _ => lazymatch s with push _ vs => fail | _ =>
      apply (bits_are_push s vs) in K end
  end.

(** * The gadgets of a step *)
Section Gadgets.
Context `{BooleanOps}.
Add Field scalar_field : scalar_field_theory (morphism of_int_morph, constants [scalar_const]).

Lemma one_hot_slots s sel n k :
  Forall2 (λ j b, bit_knows s b (j =? k)%nat) (range n) sel → Forall2 (bit_knows s) sel (one_hot n k).
Proof.
  intros HF. apply Forall2_fmap_r, Forall2_flip. eapply Forall2_impl; [exact HF|]. intros j b Hb. cbn in Hb |- *.
  destruct (Nat.eqb_spec j k); [by rewrite bool_decide_eq_true_2|by rewrite bool_decide_eq_false_2].
Qed.

Lemma within_indexed {B} (add : LinearCombination → nat * B → LinearCombination) (P : B → Prop) s bs lc :
  Forall P bs → (∀ j b lc, P b → within s lc → within s (add lc (j, b))) → within s lc →
  within s (foldl add lc (imap (λ i b, (i, b)) bs)).
Proof.
  intros HP Ha Hw. apply within_foldl; [done|]. apply list.Forall_forall. intros [j b] Hj lc'.
  apply list_elem_of_lookup_1 in Hj as (i & Hi). apply list_lookup_imap_Some in Hi as (b' & Eb & [= -> ->]).
  apply Ha. by eapply list.Forall_lookup_1.
Qed.

Lemma slots_have_values s bs vs : Forall2 (bit_knows s) bs vs → Forall (λ b, ∃ x, s_lookup s (bit_get_variable b) = Some x) bs.
Proof. intros HF. eapply Forall2_Forall_l; [exact HF|]. apply Forall_true. intros v b [_ Hb]. by exists (of_bool v). Qed.

Lemma completes_index_one_hot s n k :
  has_one s → k < n → completes (index_one_hot n k) s (λ sel s', Forall2 (bit_knows s') sel (one_hot n k)).
Proof.
  intros Ho Hk. unfold index_one_hot. eapply completes_bind.
  { apply (completes_mapM _ _ _ (λ j b s', bit_knows s' b (j =? k)%nat)).
    - intros. by apply bit_knows_push.
    - intros j vs _. by apply completes_ns, completes_bit. }
  intros sel vs HF%one_hot_slots. apply (has_one_push s vs) in Ho. set (s' := push s vs) in *. clearbody s'. cbv zeta.
  eapply completes_bind.
  { eapply (completes_enforce _ _ _ _ _ ONE); [|sum_value|sum_value|ring].
    - apply valued_stored; [done| |].
      + apply within_add; [apply within_zero|]. apply within_foldl; [apply within_zero|].
        eapply list.Forall_impl; [by eapply slots_have_values|]. intros b [x Ex] lc Hw.
        apply within_in. intros w [?| ->]%lc_add_var_vars; eauto using within_out.
      + rewrite eval_add, eval_zero, (slots_sum _ _ (one_hot n k)), count_one_hot, of_int_1 by (done || by apply slots_know_denote).
        ring. }
  intros _ vs' _. apply completes_ret. eapply Forall2_impl; [exact HF|]. intros. by apply bit_knows_push.
Qed.
(** The value that each place of a selection has. *)
Definition known_at s (shared : list AllocatedNum) (index_of : option nat) (constant_for : option Scalar) (x : Scalar) : Prop :=
  match index_of, constant_for with
  | _, Some c => x = c
  | Some idx, None => ∃ a, shared !! idx = Some a ∧ num_knows s a x
  | None, None => x = ZERO
  end.

Lemma known_at_push s vs shared idx c x : known_at s shared idx c x → known_at (push s vs) shared idx c x.
Proof. destruct idx, c; cbn; try done. intros (a & Ea & Ha). exists a. split; [done|by apply num_knows_push]. Qed.

Lemma completes_index {A} (l : list A) i a s : l !! i = Some a → completes (index l i) s (λ x _, x = a).
Proof. intros E. unfold index. rewrite E. by apply completes_ret. Qed.

Lemma completes_term_value s shared idx c x :
  known_at s shared idx c x →
  completes (match idx, c with
    | _, Some c => mret (Some c)
    | Some idx, None => n ← index shared idx; mret (get_value n)
    | None, None => mret (Some ZERO)
    end) s (λ r _, r = Some x).
Proof.
  destruct idx as [idx|], c as [c|]; cbn; try (intros ->; by apply completes_ret).
  intros (a & Ea & [Ha _]). eapply completes_bind; [by apply completes_index|].
  intros ? vs ->. by apply completes_ret.
Qed.

Lemma completes_select_rule s shared idx c x name b v t :
  known_at s shared idx c x → has_one s → bit_knows s b v → num_knows s t (of_bool v * x)%S →
  completes (match idx, c with
    | _, Some c =>
        enforce name (lc_add_var lc_zero (bit_get_variable b)) (lc_add_term lc_zero (c, one))
          (lc_add_var lc_zero (get_variable t))
    | Some idx, None =>
        n ← index shared idx;
        enforce name (lc_add_var lc_zero (bit_get_variable b)) (lc_add_var lc_zero (get_variable n))
          (lc_add_var lc_zero (get_variable t))
    | None, None =>
        enforce name (lc_add_var lc_zero (bit_get_variable b)) lc_zero (lc_add_var lc_zero (get_variable t))
    end) s (λ _ _, True).
Proof.
  intros Hx Ho Hb Ht. destruct idx as [idx|], c as [c|]; cbn in Hx;
    try (subst x; eapply completes_enforce; [sum_value..|ring]).
  destruct Hx as (a & Ea & Ha). eapply completes_bind; [by apply completes_index|]. intros ? vs ->.
  apply (has_one_push s vs) in Ho. apply (num_knows_push s vs) in Ha, Ht. apply (bit_knows_push s vs) in Hb.
  eapply completes_enforce; [sum_value..|ring].
Qed.

Lemma completes_readout s sel n k shared index_of constant_for tag (v : nat → Scalar) :
  has_one s → k < n → Forall2 (bit_knows s) sel (one_hot n k) →
  (∀ j, j < n → known_at s shared (index_of j) (constant_for j) (v j)) →
  completes (readout sel shared index_of constant_for tag) s (λ out s', num_knows s' out (v k)).
Proof.
  intros Ho Hk HS Hv. unfold readout. eapply completes_bind.
  { apply (completes_foldM _ _ _ _ (λ done acc s', let x := if (k <? length done)%nat then v k else ZERO in
      valued s' acc.1 x ∧ acc.2 = Some x)).
    - split; [apply valued_of_zero|done].
    - intros done [j b] [acc value] vs Hp [Ha Hvl]. apply prefix_snoc_lookup in Hp as [Hj _].
      apply list_lookup_imap_Some in Hj as (b' & Eb & [= -> ->]). set (j := length done) in *. cbn [fst snd] in *.
      assert (j < n) as Lj by (apply lookup_lt_Some in Eb; by rewrite (Forall2_length _ _ _ HS), length_one_hot in Eb).
      pose proof (Forall2_lookup_lr _ _ _ _ _ _ HS Eb (lookup_one_hot n k j Lj)) as Hb.
      specialize (Hv j Lj). apply (known_at_push s vs) in Hv. apply (bit_knows_push s vs) in Hb.
      pose proof (has_one_push s vs Ho) as Ho'. set (s1 := push s vs) in *. clearbody s1. clear HS Ho vs s.
      rename s1 into s.
      eapply completes_bind; [by apply completes_term_value|]. intros ? vs ->.
      apply (known_at_push s vs) in Hv. apply (valued_push s vs) in Ha. keep vs. cbv zeta.
      rewrite (proj1 Hb). cbn [default].
      eapply completes_bind; [apply completes_ns, (completes_num _ (of_bool (bool_decide (j = k)) * v j)%S)|].
      { case_bool_decide; cbn; f_equal; ring. }
      intros t vs Ht. cbv beta in Ht. apply (known_at_push s0 vs) in Hv. apply (valued_push s0 vs) in Ha. keep vs.
      eapply completes_bind; [by eapply completes_select_rule|]. intros _ vs _.
      apply (valued_push s vs) in Ha. keep vs. apply completes_ret. cbn [fst snd].
      rewrite length_app. cbn [length]. fold j.
      assert ((if (k <? j + 1)%nat then v k else ZERO) = (if (k <? j)%nat then v k else ZERO) + of_bool (bool_decide (j = k)) * v j)%S as ->.
      { destruct (Nat.ltb_spec k j), (Nat.ltb_spec k (j + 1)), (bool_decide_reflect (j = k)); subst; try lia; simpl; ring. }
      split; [eapply valued_add_var; [exact Ha|exact (proj2 Ht)]|].
      rewrite Hvl. destruct (Nat.ltb_spec k j), (bool_decide_reflect (j = k)); subst; try lia; simpl; f_equal; ring. }
  intros [acc value] vs Hi. cbv beta zeta in Hi. cbn [fst snd] in Hi. rewrite length_imap in Hi.
  rewrite (proj2 (Nat.ltb_lt _ _)) in Hi by (by rewrite (Forall2_length _ _ _ HS), length_one_hot). destruct Hi as [Ha ->].
  clear HS Hv. keep vs.
  eapply completes_bind; [apply completes_ns, (completes_num _ (v k)); done|].
  intros out vs Kout. cbv beta in Kout. apply (valued_push s0 vs) in Ha. keep vs.
  eapply completes_bind.
  { eapply (completes_enforce _ _ _ _ _ (ZERO + v k)%S); [|sum_value|sum_value|ring].
    apply valued_add; [apply valued_of_zero|exact Ha]. }
  intros _ vs _. keep vs. by apply completes_ret.
Qed.
(** The bits that [unpack] reads off the canonical bytes. *)
Definition native_bit (bytes : list byte) (i : nat) : bool :=
  Z.testbit (b2z (default x00 (bytes !! (i / 8)%nat))) (Z.of_nat (7 - i mod 8)).

Lemma native_bits (x : Scalar) :
  native_bit (reverse (take BYTES_PER_PACK (to_repr x))) <$> range 128 = int_bits 128 (repr x).
Proof.
  unfold int_bits. assert (reverse (seq 0 128) = (λ i, 127 - i) <$> range 128) as -> by reflexivity.
  rewrite <-list_fmap_compose. apply list_fmap_ext. intros _ i Hi%list_elem_of_lookup_2%elem_of_seq.
  unfold native_bit, compose. assert (length (take BYTES_PER_PACK (to_repr x)) = 16) as Hl
    by by rewrite length_take, to_repr_length.
  assert (i / 8 < 16) by (apply Nat.Div0.div_lt_upper_bound; lia).
  assert ((127 - i) / 8 = 15 - i / 8 ∧ (127 - i) mod 8 = 7 - i mod 8) as [E1 E2].
  { pose proof (Nat.div_mod_eq i 8). pose proof (Nat.mod_upper_bound i 8 ltac:(lia)).
    split; symmetry; [eapply (Nat.div_unique _ _ _ (7 - i mod 8))|eapply (Nat.mod_unique _ _ (15 - i / 8))]; lia. }
  rewrite reverse_lookup, Hl by lia. replace (16 - S (i / 8)) with (15 - i / 8) by lia.
  rewrite lookup_take_lt by (change BYTES_PER_PACK with 16; lia).
  unfold repr. rewrite <-le_int_testbit by (rewrite to_repr_length; lia). by rewrite E1, E2.
Qed.

Lemma completes_unpack s a x tag :
  has_one s → num_knows s a x → (repr x < 2 ^ 128)%Z →
  completes (unpack a tag) s (λ bits s', bits_are (knows s') bits (int_bits 128 (repr x))).
Proof.
  intros Ho Ha Hx. unfold unpack. rewrite (proj1 Ha). cbn [fmap option_fmap option_map]. cbv zeta.
  change (BYTES_PER_PACK * 8)%nat with 128%nat. eapply completes_bind.
  { apply (completes_mapM _ _ _ (λ i b s', bit_knows s' b (native_bit (reverse (take BYTES_PER_PACK (to_repr x))) i))).
    - intros. by apply bit_knows_push.
    - intros i vs _. by apply completes_ns, completes_bit. }
  intros bits vs HF. cbv beta in HF.
  assert (Forall2 (bit_knows (push s vs)) bits (int_bits 128 (repr x))) as HB
    by (rewrite <-native_bits; by apply Forall2_fmap_r, Forall2_flip).
  clear HF. keep vs. eapply completes_bind.
  { eapply (completes_enforce _ _ _ _ _ x); [|sum_value|sum_value|ring].
    apply valued_stored; [done| |].
    - apply within_add; [apply within_zero|]. eapply within_indexed; [by eapply slots_have_values| |apply within_zero].
      intros j b lc [y Hy] Hw. by eapply within_add_term.
    - rewrite eval_add, eval_zero, (eval_packed_slots _ _ (int_bits 128 (repr x)) 128)
        by (by apply slots_know_denote || by rewrite length_int_bits).
      rewrite eval_zero, bits_int_int_bits, Z.mod_small by (pose proof (repr_range x); lia).
      rewrite of_int_repr. ring. }
  intros _ vs _. keep vs. apply completes_ret. by apply slots_know_booleans.
Qed.
Lemma valued_repack s bs vs :
  has_one s → bits_are (knows s) bs vs → valued s (repack bs) (of_int (bits_int vs)).
Proof.
  intros Ho HB. apply valued_stored; [done| |by apply eval_repack, bits_know_denote].
  apply (within_indexed _ (λ b, ∃ v, knows s (bit b) v)); [| |apply within_zero].
  - eapply Forall2_Forall_l; [exact HB|]. apply Forall_true. intros v b Hb. by eexists.
  - intros j b lc [v Hb] Hw. apply within_add; [done|]. by eapply within_scaled.
Qed.

Lemma completes_read_packs s sel m i shared index_of constant_for (tag name name' : nat → string) (v : nat → nat → Scalar) c :
  has_one s → i < m → Forall2 (bit_knows s) sel (one_hot m i) →
  (∀ k j, k < c → j < m → known_at s shared (index_of k j) (constant_for k j) (v k j)) →
  (∀ k, k < c → (repr (v k i) < 2 ^ 128)%Z) →
  completes (mapM (λ k,
      p ← ns (name k) (readout sel shared (index_of k) (constant_for k) (tag k));
      ns (name' k) (unpack p (tag k))) (range c)) s
    (λ bs s', bits_are (knows s') (concat bs) ((range c ≫= λ k, pack_bytes_of (v k i)) ≫= Prelude.byte_bits)).
Proof.
  intros Ho Hi HS Hv Hx. eapply completes_mono.
  { apply (completes_mapM _ _ _ (λ k b s', bits_are (knows s') b (pack_bytes_of (v k i) ≫= Prelude.byte_bits))).
    - intros. by apply bits_are_push.
    - intros k vs [_ Hk]%elem_of_seq. cbn in Hk.
      assert (∀ j, j < m → known_at (push s vs) shared (index_of k j) (constant_for k j) (v k j)) as Hv'
        by (intros; apply known_at_push; auto).
      keep vs. eapply completes_bind; [by apply completes_ns, (completes_readout _ _ m i _ _ _ _ (v k))|].
      intros x vs Kx. cbv beta in Kx. clear Hv'. keep vs.
      unfold pack_bytes_of. rewrite bind_byte_bits_be_bytes. apply completes_ns, completes_unpack; auto. }
  intros bs vs HF. cbv beta in HF. rewrite bind_bind. apply Forall2_concat_bind, Forall2_flip. exact HF.
Qed.
End Gadgets.

(** * The step of a block *)
Section HonestStep.
Context `{BooleanOps} `{!CompressionGadget} `{!PublicNums}.
Add Field scalar_field : scalar_field_theory (morphism of_int_morph, constants [scalar_const]).
Variables (shared : list AllocatedNum) (v : list Scalar) (layout : HashLayout).
Local Abbreviation n := (total_blocks layout).
Hypothesis (Hl : length v = 6 * n).

Lemma known_cell s i : Forall2 (num_knows s) shared v → i < 6 * n → known_at s shared (Some i) None (cell v i).
Proof.
  intros HF Hi. destruct (lookup_lt_is_Some_2 v i) as [x Ex]; [lia|].
  destruct (Forall2_lookup_r _ _ _ _ _ HF Ex) as (a & Ea & Ha). exists a. unfold cell. by rewrite Ex.
Qed.

(** The packs of the digest that a step shows. *)
Lemma digest_cells j k :
  step_holds layout v j → k < 2 →
  cell v (digest_pack n j k) = of_int (be_int (slice (16 * k) (16 * (k + 1)) (shared_digest layout v j))).
Proof.
  intros Hs Hk. pose proof (sh_small_digest _ _ _ Hs) as Hx.
  assert (slice (16 * k) (16 * (k + 1)) (shared_digest layout v j) = pack_bytes_of (cell v (digest_pack n j k))) as ->.
  { unfold shared_digest. cbn [range seq mbind list_bind]. rewrite app_nil_r.
    destruct k as [|[|]]; [reflexivity|reflexivity|lia]. }
  unfold pack_bytes_of. rewrite be_int_be_bytes, Z.mod_small; [by rewrite of_int_repr|].
  split; [apply repr_range|]. specialize (Hx k Hk). exact Hx.
Qed.

Lemma completes_matches_digest s sel j out_bits :
  has_one s → j < n → Forall2 (bit_knows s) sel (one_hot n j) → Forall2 (num_knows s) shared v →
  bits_are (knows s) out_bits (shared_digest layout v j ≫= Prelude.byte_bits) → step_holds layout v j →
  completes (mapM (λ k,
    expected ← ns ("digest pack " +:+ pretty k)
      (readout sel shared (λ j, Some (digest_pack n j k)) (λ _, None) ("Hout" +:+ pretty k));
    let got := repack (slice (k * BYTES_PER_PACK * 8) ((k + 1) * BYTES_PER_PACK * 8) out_bits) in
    enforce ("compression output matches shared digest " +:+ pretty k)
      (lc_add lc_zero got) (lc_add_var lc_zero one) (lc_add_var lc_zero (get_variable expected)))
    (range PACKS_PER_DIGEST)) s (λ _ _, True).
Proof.
  intros Ho Hj HS Hv HB Hst. eapply completes_mono; [|done].
  apply (completes_mapM _ _ _ (λ _ _ _, True)); [done|].
  intros k vs [_ Hk]%elem_of_seq. cbn in Hk.
  keep vs. eapply completes_bind.
  { apply completes_ns, (completes_readout _ _ n j _ _ _ _ (λ j, cell v (digest_pack n j k))); [done..|].
    intros i Hi. cbv beta. eapply known_cell; [eassumption|]. by apply digest_pack_lt. }
  intros e vs Ke. cbv beta zeta in *. keep vs.
  eapply completes_enforce; [|sum_value|sum_value|].
  - apply valued_add; [apply valued_of_zero|]. apply valued_repack; [done|].
    instantiate (1 := slice (16 * k) (16 * (k + 1)) (shared_digest layout v j) ≫= Prelude.byte_bits).
    rewrite <-slice_bind_byte_bits. change BYTES_PER_PACK with 16. replace (8 * (16 * k)) with (k * 16 * 8) by lia.
    replace (8 * (16 * (k + 1))) with ((k + 1) * 16 * 8) by lia. unfold slice. by apply Forall2_take, Forall2_drop.
  - rewrite bits_int_bind_byte_bits, (digest_cells j k Hst Hk). ring.
Qed.

Lemma completes_compression s block words bs ws :
  has_one s → bits_are (knows s) block bs → length bs = 512 →
  Forall2 (λ u w, bits_are (knows s) (into_bits_be u) (int_bits 32 w)) words ws → length ws = 8 → Forall word ws →
  completes (sha256_compression_function block words) s
    (λ out s', bits_are (knows s') (out ≫= into_bits_be) (fips_compress ws (bit_words bs) ≫= int_bits 32)).
Proof.
  intros Ho HB Hl1 HW Hl2 Hw. eexists.
  eapply emits_mono; [exact (compression_emits s block words bs ws Ho HB Hl1 HW Hl2 Hw)|]. intros out HO. by apply (into_bits_are (knows _)).
Qed.

Lemma completes_step_state s sel j :
  has_one s → j < n → Forall2 (bit_knows s) sel (one_hot n j) → Forall2 (num_knows s) shared v →
  (∀ i, i < n → step_holds layout v i) →
  completes (mapM (λ k,
    p ← ns ("state pack " +:+ pretty k)
      (readout sel shared
        (λ j, if is_first_of_message layout j then None else Some (digest_pack n (j - 1) k))
        (λ j, if is_first_of_message layout j then Some (iv_pack k) else None) ("Hin" +:+ pretty k));
    ns ("state bits " +:+ pretty k) (unpack p ("Hin" +:+ pretty k))) (range PACKS_PER_DIGEST)) s
    (λ bs s', bits_are (knows s') (concat bs) (words_to_bytes (shared_state layout v j) ≫= Prelude.byte_bits)).
Proof.
  intros Ho Hj HS Hv Hst. rewrite <-state_packs.
  apply (completes_read_packs _ _ n j _ _ _ _ _ _
    (λ k j, if is_first_of_message layout j then iv_pack k else cell v (digest_pack n (j - 1) k))); [done..| |].
  - intros k i Hk Hi. destruct (is_first_of_message layout i); [done|].
    eapply known_cell; [done|]. apply digest_pack_lt; [lia|done].
  - intros k Hk. destruct (is_first_of_message layout j); [by apply iv_packs|].
    apply (sh_small_digest _ _ _ (Hst (j - 1) ltac:(lia))), Hk.
Qed.

Lemma completes_step_rules s sel idx j :
  (Z.of_nat n < 2 ^ 64)%Z → j < n → (∀ i, i < n → step_holds layout v i) → has_one s →
  Forall2 (num_knows s) shared v → Forall2 (bit_knows s) sel (one_hot n j) → num_knows s idx (of_int (Z.of_nat j)) →
  completes (
    enforce "the published index is the block actually selected"
      (lc_add lc_zero (foldl (λ lc '(j, b), lc_add_term lc (from_u64 (Z.of_nat j), bit_get_variable b))
        lc_zero (imap (λ j b, (j, b)) sel))) (lc_add_var lc_zero one) (lc_add_var lc_zero (get_variable idx)) ;;
    block_bits ← mapM (λ k,
      p ← ns ("block pack " +:+ pretty k)
        (readout sel shared (λ j, Some (block_pack n j k)) (λ _, None) ("M" +:+ pretty k));
      ns ("block bits " +:+ pretty k) (unpack p ("M" +:+ pretty k))) (range PACKS_PER_BLOCK);
    state_bits ← mapM (λ k,
      p ← ns ("state pack " +:+ pretty k)
        (readout sel shared
          (λ j, if is_first_of_message layout j then None else Some (digest_pack n (j - 1) k))
          (λ j, if is_first_of_message layout j then Some (iv_pack k) else None) ("Hin" +:+ pretty k));
      ns ("state bits " +:+ pretty k) (unpack p ("Hin" +:+ pretty k))) (range PACKS_PER_DIGEST);
    out ← ns "compress" (sha256_compression_function (concat block_bits) (from_bits_be <$> chunks 32 (concat state_bits)));
    mapM (λ k,
      expected ← ns ("digest pack " +:+ pretty k)
        (readout sel shared (λ j, Some (digest_pack n j k)) (λ _, None) ("Hout" +:+ pretty k));
      enforce ("compression output matches shared digest " +:+ pretty k)
        (lc_add lc_zero (repack (slice (k * BYTES_PER_PACK * 8) ((k + 1) * BYTES_PER_PACK * 8) (out ≫= into_bits_be))))
        (lc_add_var lc_zero one) (lc_add_var lc_zero (get_variable expected))) (range PACKS_PER_DIGEST) ;;
    mret tt) s (λ _ _, True).
Proof.
  intros Hn Hj Hst Ho Hv HS Hi. eapply completes_bind.
  { eapply completes_enforce; [|sum_value|sum_value|].
    - apply valued_stored; [done| |reflexivity]. apply within_add; [apply within_zero|].
      eapply within_indexed; [by eapply slots_have_values| |apply within_zero].
      intros i b lc [y Hy] Hw. by eapply within_add_term.
    - rewrite eval_add, (eval_selected_slots _ sel n j (λ j, Z.of_nat j)), eval_zero
        by (by apply slots_know_denote || done || (intros; lia)). ring. }
  intros _ vs _. keep vs. eapply completes_bind.
  { apply (completes_read_packs _ _ n j _ (λ k j, Some (block_pack n j k)) (λ _ _, None) _ _ _ (λ k j, cell v (block_pack n j k)));
      [done..| |].
    - intros k i Hk Hi'. eapply known_cell; [done|]. by apply block_pack_lt.
    - intros k Hk. by apply (sh_small _ _ _ (Hst j Hj)). }
  intros block_bits vs HB. cbv beta in HB. change (range PACKS_PER_BLOCK ≫= _) with (shared_block layout v j) in HB.
  keep vs. eapply completes_bind; [by apply (completes_step_state _ _ j)|].
  intros state_bits vs HT. cbv beta in HT. keep vs.
  destruct (shared_state_words v layout j) as [HTl HTw].
  eapply completes_bind.
  { apply completes_ns, (completes_compression _ _ _ (shared_block layout v j ≫= Prelude.byte_bits) (shared_state layout v j));
      [done|done|by rewrite length_bind_byte_bits, length_shared_block| |done|done].
    rewrite <-(bytes_to_words_to_bytes _ HTw). eapply from_bits_words; [|exact HT].
    rewrite length_words_to_bytes, HTl. done. }
  intros out vs HO. cbv beta in HO. keep vs.
  rewrite bit_words_bytes, <-words_bits, <-(sh_digest _ _ _ (Hst j Hj)) in HO by apply fips_compress_words.
  eapply completes_bind; [apply (completes_matches_digest _ _ j); auto|]. intros ? vs' _. by apply completes_ret.
Qed.

(** A run that goes on after values were allocated. *)
Lemma completes_runs {A} (m : Synth A) st vs ins P :
  completes m (store (cs_extend st vs ins)) P → cs_broken st = None →
  ∃ a vs', run m (cs_extend st vs ins) = (Ok a, cs_extend st (vs ++ vs') ins) ∧ P a (store (cs_extend st (vs ++ vs') ins)).
Proof.
  intros (vs' & Hm) Hb. destruct (emits_run m vs' P (cs_extend st vs ins) Hm Hb) as (a & R & HP).
  exists a, vs'. unfold cs_push, cs_extend, store in *. cbn in *. rewrite R. by rewrite app_assoc.
Qed.

Lemma inputize_runs name a x st vs ins :
  has_one (store (cs_extend st vs ins)) → num_knows (store (cs_extend st vs ins)) a x → cs_broken st = None →
  run (ns name (AllocatedNum_inputize a)) (cs_extend st vs ins) = (Ok tt, cs_extend st vs (ins ++ [x])).
Proof.
  intros Ho Ha Hb.
  assert (allocates (AllocatedNum_inputize a) (store (cs_extend st vs ins)) [] [x] (λ _ _, True)) as HA.
  { intros st' Hs Hb'. exists tt. split; [done|]. rewrite (inputize_run a x st') by (rewrite ?Hs; done).
    unfold cs_push_input, cs_extend. by rewrite app_nil_r. }
  destruct (allocates_ns name _ _ _ _ _ HA (cs_extend st vs ins) eq_refl Hb) as ([] & _ & ->).
  unfold cs_extend. cbn. by rewrite !app_nil_r, app_assoc.
Qed.

Lemma num_knows_extend s vs ins a x : num_knows s a x → num_knows (extend s vs ins) a x.
Proof. intros [? ?]. split; [done|by apply lookup_extend]. Qed.
Lemma bit_knows_extend s vs ins r c : bit_knows s r c → bit_knows (extend s vs ins) r c.
Proof. intros [? ?]. split; [done|by apply lookup_extend]. Qed.

Lemma run_step {A B} (m : Synth A) (f : A → Synth B) st vs ins ins' (P : A → Store → Prop) b :
  completes m (store (cs_extend st vs ins)) P → cs_broken st = None →
  (∀ a w, let s' := push (store (cs_extend st vs ins)) w in
    store (cs_extend st (vs ++ w) ins) = s' → P a s' →
    ∃ vs'', run (f a) (cs_extend st (vs ++ w) ins) = (Ok b, cs_extend st vs'' ins')) →
  ∃ vs'', run (m ≫= f) (cs_extend st vs ins) = (Ok b, cs_extend st vs'' ins').
Proof.
  intros Hm Hb Hf. destruct (completes_runs m st vs ins P Hm Hb) as (a & w & R & HP).
  assert (store (cs_extend st (vs ++ w) ins) = push (store (cs_extend st vs ins)) w) as E
    by (unfold store, cs_extend, push; cbn; by rewrite app_assoc).
  rewrite E in HP. destruct (Hf a w E HP) as (vs'' & R'). exists vs''. by rewrite run_bind, R.
Qed.

(** The step of every block is satisfiable by the honest prover: when the
    vector holds at the blocks, synthesis over slots that know the vector
    breaks no rule, does not panic, and publishes the block's index. *)
Lemma honest_step_run st j :
  (Z.of_nat n < 2 ^ 64)%Z → j < n → (∀ i, i < n → step_holds layout v i) →
  has_one (store st) → cs_broken st = None → Forall2 (num_knows (store st)) shared v →
  ∃ vs, run (synthesize_step shared layout j) st = (Ok tt, cs_extend st vs [of_int (Z.of_nat j)]).
Proof.
  intros Hn Hj Hst Ho Hb Hv. unfold synthesize_step. cbv zeta.
  enough (∃ vs, run (synthesize_step shared layout j) (cs_extend st [] []) = (Ok tt, cs_extend st vs [of_int (Z.of_nat j)])) as E.
  { unfold cs_extend at 1 in E. rewrite !app_nil_r in E. by destruct st. }
  assert (store (cs_extend st [] []) = store st) as E0 by (unfold store, cs_extend; cbn; by rewrite !app_nil_r).
  unfold synthesize_step. cbv zeta. rewrite <-E0 in Ho, Hv. clear E0.
  eapply run_step; [by apply completes_ns, completes_index_one_hot|exact Hb|]. intros sel w s' E HS. cbv beta in HS.
  apply (has_one_push _ w) in Ho. apply (λ H, Forall2_impl _ _ _ _ H (λ r c, num_knows_push _ w r c)) in Hv.
  fold s' in Ho, Hv. rewrite <-E in HS, Ho, Hv. clear E s'.
  eapply run_step; [by apply completes_ns, (completes_num _ (from_u64 (Z.of_nat j)))|exact Hb|]. intros idx w' s' E Hi. cbv beta in Hi.
  apply (has_one_push _ w') in Ho. apply (λ H, Forall2_impl _ _ _ _ H (λ r c, num_knows_push _ w' r c)) in Hv.
  apply (λ H, Forall2_impl _ _ _ _ H (λ r c, bit_knows_push _ w' r c)) in HS.
  fold s' in Ho, Hv, HS. rewrite <-E in Hi, HS, Ho, Hv. clear E s'.
  rewrite run_bind, (inputize_runs _ _ _ _ _ _ Ho Hi Hb).
  change (@app Scalar [] [from_u64 (Z.of_nat j)]) with [from_u64 (Z.of_nat j)].
  match goal with |- ∃ vs, run ?m (cs_extend st ?w _) = _ => set (rest := m) end.
  rewrite from_u64_of_int in * by lia. set (x := of_int (Z.of_nat j)) in *.
  apply (λ H, Forall2_impl _ _ _ _ H (λ r c, num_knows_extend _ [] [x] r c)) in Hv.
  apply (λ H, Forall2_impl _ _ _ _ H (λ r c, bit_knows_extend _ [] [x] r c)) in HS.
  apply (num_knows_extend _ [] [x]) in Hi. apply (has_one_extend _ [] [x]) in Ho.
  assert (extend (store (cs_extend st (([] ++ w) ++ w') [])) [] [x] = store (cs_extend st (([] ++ w) ++ w') [x])) as E
    by (unfold store, extend, cs_extend; cbn; by rewrite !app_nil_r).
  rewrite E in *. clear E.
  enough (completes rest (store (cs_extend st (([] ++ w) ++ w') [x])) (λ _ _, True)) as C.
  { destruct (completes_runs rest st _ [x] _ C Hb) as ([] & vs & R & _). by exists ((([] ++ w) ++ w') ++ vs). }
  unfold rest. clear rest. set (s0 := store _) in *. clearbody s0. clear Hb st w w'.
  by apply (completes_step_rules s0 sel idx j).
Qed.
End HonestStep.
