(* ===== verification/StepValues.v ===== *)
(** [step.rs]: the values of an honest step.  An honest instance breaks no
    rule exactly where the table's compression is right, and allocates the
    values that [compression_values] computes natively. *)
From Stdlib Require Import ZArith Lia Strings.String Strings.Byte.
From Stdlib Require Import Field_tac Ring.
From stdpp Require Import base list numbers option strings pretty.
From S2P Require Import Prelude Bytes Field ConstraintSystem Shape CheckSystem Bellpepper Lc Values Bits Select Sha256 Sha256Trace Table Window Circuit Step.

(** * Honest rules *)
Section StepHonest.
Context `{CompressionGadget} `{Sha2}.

Lemma emits_entry s sel n i xs (e : nat → Scalar) pos :
  has_one s → selects (knows s) sel n i → Forall2 (knows s) xs ((λ i, e (pos i)) <$> range n) →
  emits (select sel xs) s (select_values [] n i (λ i, e (pos i))).2 (λ x s', knows s' x (e (pos i))).
Proof.
  intros Ho Hs HF.
  assert (length ((λ i, e (pos i)) <$> range n) = n) as Hl by (unfold range; by rewrite length_fmap, length_seq).
  pose proof (emits_select s sel n i xs _ Ho Hs HF Hl) as E. destruct Hs as [Hi _].
  rewrite lookup_range in E by done. cbn [default] in E.
  rewrite (select_values_ext [] n i _ (λ i, e (pos i))) in E; [exact E| |].
  - by rewrite lookup_range by lia.
  - by rewrite lookup_range by done.
Qed.

Lemma table_cells_push s vs cells f g start :
  table_cells (knows s) cells f g start → table_cells (knows (push s vs)) cells f g start.
Proof.
  intros [Hf Hg Hs]. split.
  - by apply holds_chunks_push.
  - intros j h Hj Hh. destruct (Hg j h Hj Hh) as (x & E & K). exists x. split; [done|by apply knows_push].
  - intros h Hh. destruct (Hs h Hh) as (x & E & K). exists x. split; [done|by apply knows_push].
Qed.

(** The values of a loop that selects and splits. *)
Definition selected_bits (n i : nat) (pos : nat → nat) (e : nat → nat → Scalar) (l : list nat) : list Scalar :=
  l ≫= λ c, (select_values [] n i (λ i, e c (pos i))).2 ++ (of_bool <$> int_bits 128 (repr (e c (pos i)))).

Lemma emits_selected_bits s sel n i pos (entry : nat → nat → Synth Lc) (e : nat → nat → Scalar)
    (name name' : nat → string) m (K : Store → Prop) :
  (∀ s vs, K s → K (push s vs)) → K s →
  (∀ s, K s → has_one s ∧ selects (knows s) sel n i ∧
    ∀ c i, c < m → i < n → ∃ x, entry c (pos i) = mret x ∧ knows s x (e c (pos i))) →
  (∀ c, c < m → (repr (e c (pos i)) < 2 ^ 128)%Z) →
  emits (foldM (λ block c,
    entries ← mapM (entry c) (pos <$> range n);
    chunk ← ns (name c) (select sel entries);
    chunk_bits ← ns (name' c) (Bits.bits chunk 128);
    mret (block ++ chunk_bits)) [] (range m)) s (selected_bits n i pos e (range m))
    (λ bs s', bits_are (knows s') bs (range m ≫= λ c, int_bits 128 (repr (e c (pos i)))) ∧ K s').
Proof.
  intros Hpush HK0 HK Hlt.
  apply (emits_foldM _ (selected_bits n i pos e) _ _ _ (λ done bs s',
    bits_are (knows s') bs (done ≫= λ c, int_bits 128 (repr (e c (pos i)))) ∧ K s')).
  - done.
  - split; [constructor|done].
  - intros done c bs s' Hp [HB HK']. apply prefix_snoc_lookup in Hp as [Hc _].
    assert (c < m) as Hcm by (apply lookup_seq in Hc; lia).
    eexists. split; [unfold selected_bits; rewrite bind_app; cbn [mbind list_bind]; by rewrite app_nil_r|].
    destruct (HK s' HK') as (Ho & Hs & Hr).
    destruct (reads_entries (knows s') (entry c) (e c) pos n) as (xs & -> & HF); [by intros; apply Hr|].
    eapply (emits_bind_l _ _ _ _ (λ x _, x = xs)); [by apply emits_ret|]. intros ? ->.
    eapply emits_bind; [apply emits_ns; by apply (emits_entry s' sel n i xs (e c) pos)|].
    intros chunk Kc. cbv beta in Kc.
    eapply emits_bind_r.
    { apply emits_ns, emits_bits; [by apply has_one_push|lia|exact Kc|by apply Hlt]. }
    intros b Kb. cbv beta in Kb. apply emits_ret. split.
    + rewrite bind_app. cbn [mbind list_bind]. rewrite app_nil_r.
      apply Forall2_app; [|done]. by apply bits_are_push, bits_are_push.
    + by apply Hpush, Hpush.
Qed.

Lemma words_are_push s vs us ws : words_are (knows s) us ws → words_are (knows (push s vs)) us ws.
Proof. intros HW. eapply Forall2_impl; [exact HW|]. intros. by apply bits_are_push. Qed.

Section HonestCompression.
Variables (cells : Cells) (f : nat → Scalar) (g : nat → nat → Scalar) (start : nat → Scalar).
Variables (layout : Layout) (sel : OneHot) (i k : nat).
Hypotheses (Hok : layout_ok layout) (Hi : i < instances layout) (Hk : k < per_instance layout).
Local Abbreviation pos := (λ i, per_instance layout * i + k).
Local Abbreviation n := (instances layout).

(** What an honest instance knows. *)
Definition instance_known (s : Store) : Prop :=
  has_one s ∧ table_cells (knows s) cells f g start ∧ selects (knows s) sel (instances layout) i.

Lemma instance_known_push s vs : instance_known s → instance_known (push s vs).
Proof.
  intros (Ho & Hc & Hs). split_and!; [by apply has_one_push|by apply table_cells_push|by apply selects_push].
Qed.

(** The values of one compression. *)
Definition compression_list (before : option (list Z)) : list Scalar :=
  selected_bits n i pos (λ c j, f (CHUNKS_PER_BLOCK * j + c)) (range CHUNKS_PER_BLOCK)
  ++ (match before with
      | Some _ => []
      | None => selected_bits n i pos (λ h j, before_value layout g start j h) (range 2)
      end)
  ++ (of_bool <$> compression_trace (bytes_to_words (block_bytes f (pos i)))
        (starting (before_value layout g start (pos i)) before))
  ++ (range 2 ≫= λ h, (select_values [] n i (λ i, g (pos i) h)).2).

Lemma emits_state_after s us ws :
  instance_known s → words_are (knows s) us ws → hash_state ws →
  (∀ h, h < 2 → g (pos i) h = state_half (words_to_bytes ws) h) →
  emits (mapM (λ h,
    entries ← mapM (λ j, cells_state cells j h) (pos <$> range n);
    half ← ns ("state after half " +:+ pretty h) (select sel entries);
    let computed := pack (slice (128 * h) (128 * (h + 1)) (us ≫= into_bits_be)) in
    ns ("state after half " +:+ pretty h +:+ " matches") (equal computed half)) (range 2)) s
    (range 2 ≫= λ h, (select_values [] n i (λ i, g (pos i) h)).2)
    (λ _ s', words_are (knows s') us ws ∧ instance_known s').
Proof.
  intros HK Hus [Hl HW] Hg.
  apply (emits_mapM _ _ _ _ (λ _ _ s', words_are (knows s') us ws ∧ instance_known s')); [done|].
  intros done h ys s' Hp [Hus' (Ho & Hc & Hs)]. apply prefix_snoc_lookup in Hp as [Hh _].
  assert (h < 2) as Hh2 by (apply lookup_seq in Hh; lia).
  destruct (reads_entries (knows s') (λ j, cells_state cells j h) (λ j, g j h) pos n) as (xs & -> & HF).
  { intros i' Hi'. apply (tc_states _ _ _ _ _ Hc); [by apply position_bound|done]. }
  eapply (emits_bind_l _ _ _ _ (λ x _, x = xs)); [by apply emits_ret|]. intros ? ->.
  eapply emits_bind_r; [apply emits_ns; by apply (emits_entry s' sel n i xs (λ j, g j h) pos)|].
  intros half Kh. cbv beta in Kh. rewrite Hg in Kh by done.
  eapply emits_mono.
  { apply emits_ns. eapply emits_equal; [by apply has_one_push| |exact Kh].
    apply (pack_half (knows _) (sem := knows_sem _ (has_one_push _ _ Ho))); [by apply words_are_push|done|done|done]. }
  intros ? _. rewrite push_nil. split; [by apply words_are_push|].
  apply instance_known_push. by split_and!.
Qed.

Lemma emits_compression s us before :
  instance_known s → before_known (knows s) us before → position_ok layout f g start (pos i) before →
  emits (compression cells layout sel k us) s (compression_list before) (λ '(_, us') s',
    words_are (knows s') us'
      (compress (starting (before_value layout g start (pos i)) before) (block_bytes f (pos i)))
    ∧ instance_known s').
Proof.
  intros HK Hb [Hch Hbe Hst]. unfold compression. cbv zeta.
  set (st := starting (before_value layout g start (pos i)) before).
  assert (hash_state st) as Hs.
  { apply starting_hash_state. intros ws ->. destruct us; [apply Hb|done]. }
  eapply emits_bind.
  { apply (emits_selected_bits s sel n i pos (λ c j, cells_chunk cells (CHUNKS_PER_BLOCK * j + c))
      (λ c j, f (CHUNKS_PER_BLOCK * j + c)) _ _ CHUNKS_PER_BLOCK
      (λ s, instance_known s ∧ before_known (knows s) us before)).
    - intros s' vs [HK' Hb']. split; [by apply instance_known_push|].
      destruct us, before; try done. destruct Hb'. split; [by apply words_are_push|done].
    - done.
    - intros s' [(? & Hc & ?) _]. split_and!; [done|done|]. intros. apply (tc_chunks _ _ _ _ _ Hc).
    - exact Hch. }
  intros block [HB [HK' Hb']]. cbv beta in HB. rewrite block_bits in HB.
  eapply (emits_bind _ _ _ _ _ (λ us' s', words_are (knows s') us' st ∧
    bits_are (knows s') block (block_bytes f (pos i) ≫= byte_bits) ∧ instance_known s')).
  { destruct us as [us|], before as [ws|]; cbn in Hb'; try done.
    - apply emits_ret. split_and!; [apply Hb'|done|done].
    - eapply emits_bind_r.
      { apply (emits_selected_bits _ sel n i pos (λ h j, cells_state_before_in cells layout j h)
          (λ h j, before_value layout g start j h) _ _ 2
          (λ s, instance_known s ∧ bits_are (knows s) block (block_bytes f (pos i) ≫= byte_bits))).
        - intros s' vs [? ?]. split; [by apply instance_known_push|by apply bits_are_push].
        - done.
        - intros s' [(? & Hc & ?) _]. split_and!; [done|done|]. intros h i' Hh Hi'.
          apply (reads_before (knows s') (sem := knows_sem s' ltac:(done)) cells f);
            [done|done|by apply position_bound|done].
        - intros h Hh. by apply Hbe. }
      intros bs [HB' [HK'' HB'']]. cbv beta in HB'. apply emits_ret. split_and!; [|done|done].
      apply from_bits_words with (n := 8); [apply length_state_bytes|]. rewrite <- state_bits. exact HB'. }
  intros us' (Hus & HB' & HK''). cbv beta.
  eapply emits_bind.
  { apply emits_ns. rewrite <- bit_words_bytes.
    eapply compression_emits; [apply HK''|exact HB'| |exact Hus|apply Hs|apply Hs].
    by rewrite length_bind_byte_bits, length_block_bytes. }
  intros out Hout. cbv beta in Hout. rewrite bit_words_bytes in Hout.
  rewrite <- compress_fips in Hout by (done || apply length_block_bytes).
  eapply emits_bind_r.
  { apply (emits_state_after _ out (compress st (block_bytes f (pos i)))).
    - by apply instance_known_push.
    - done.
    - rewrite compress_fips by (done || apply length_block_bytes). apply fips_hash_state.
    - exact Hst. }
  intros ? [Ha HKa]. apply emits_ret. by split.
Qed.
End HonestCompression.
End StepHonest.

(** * The native values *)
Section NativeValues.
Context `{CompressionGadget} `{Sha2}.
Add Field scalar_field : scalar_field_theory (morphism of_int_morph, constants [scalar_const]).

Lemma select_values_app values n i (e : nat → Scalar) :
  i < n → select_values values n i e = (e i, values ++ (select_values [] n i e).2).
Proof.
  intros Hi. unfold select_values. cbn [snd app]. f_equal.
  destruct (bool_decide_reflect (1 ≤ i < n)) as [|N]; [ring|].
  replace i with 0 by lia. ring.
Qed.

Lemma value_low_bytes (values : Values) x :
  value_byte_bits values (low_bytes x) = values ++ (of_bool <$> int_bits 128 (repr x)).
Proof. by rewrite value_byte_bits_of_bool, low_bytes_be_bytes, bind_byte_bits_be_bytes. Qed.

Lemma foldl_selected (values : Values) acc n i pos (e : nat → nat → Scalar) l :
  i < n →
  foldl (λ '(values, block) c,
    let '(chunk, values) := select_values values n i (λ i, e c (pos i)) in
    let bytes := low_bytes chunk in
    (value_byte_bits values bytes, block ++ bytes)) (values, acc) l
  = (@pair Values _ (values ++ selected_bits n i pos e l)
       (acc ++ (l ≫= λ c, be_bytes 16 (repr (e c (pos i)))))).
Proof.
  intros Hi. revert values acc. induction l as [|c l IH]; intros values acc.
  - cbn. by rewrite !app_nil_r.
  - cbn [foldl]. rewrite select_values_app by done. cbv beta iota zeta.
    rewrite value_low_bytes, IH, low_bytes_be_bytes. unfold selected_bits.
    cbn [mbind list_bind]. by rewrite !app_assoc.
Qed.

Lemma foldl_select (values : Values) n i (e : nat → nat → Scalar) l :
  i < n →
  foldl (λ values h, (select_values values n i (e h)).2) values l
  = values ++ (l ≫= λ h, (select_values [] n i (e h)).2).
Proof.
  intros Hi. revert values. induction l as [|h l IH]; intros values; cbn [foldl].
  - cbn. by rewrite app_nil_r.
  - rewrite IH, select_values_app by done. cbn [mbind list_bind snd]. by rewrite app_assoc.
Qed.

Lemma compression_values_list t layout i k before (values : Values) :
  i < instances layout → (∀ ws, before = Some ws → hash_state ws) →
  let f := chunk_value t in
  let g := state_value t in
  let start := state_half (t_start t) in
  let j := (per_instance layout * i + k)%nat in
  compression_values values t layout i k before
  = ((block_bytes f j, compress (starting (before_value layout g start j) before) (block_bytes f j)),
     values ++ compression_list f g start layout i k before).
Proof.
  intros Hi Hb f g start j. unfold compression_values. cbv zeta.
  pose proof (foldl_selected values [] _ i (λ i, per_instance layout * i + k)
    (λ c j, chunk_value t (CHUNKS_PER_BLOCK * j + c)) (range CHUNKS_PER_BLOCK) Hi) as E.
  cbv beta zeta in E. rewrite E. clear E. cbv beta iota zeta.
  assert ((range CHUNKS_PER_BLOCK ≫= λ c, be_bytes 16 (repr (chunk_value t (CHUNKS_PER_BLOCK * (per_instance layout * i + k) + c))))
    = block_bytes f j) as Eb.
  { unfold block_bytes, chunk_bytes. cbn [range seq mbind list_bind CHUNKS_PER_BLOCK]. rewrite app_nil_r. by rewrite Nat.add_0_r. }
  rewrite Eb. cbn [app]. set (st := starting _ before).
  assert (hash_state st) as [Hs1 Hs2] by by apply starting_hash_state.
  set (v1 := values ++ selected_bits _ _ _ _ _).
  set (V := match before with Some _ => [] | None => selected_bits (instances layout) i
    (λ i, per_instance layout * i + k) (λ h j, before_value layout g start j h) (range 2) end).
  assert ((match before with
    | Some words => @pair Values _ v1 words
    | None =>
        let '(values, state) := foldl (λ '(values, state) h,
          let '(half, values) := select_values values (instances layout) i
            (λ i, state_before_value t layout (per_instance layout * i + k) h) in
          (value_byte_bits values (low_bytes half), state ++ low_bytes half)) (@pair Values _ v1 []) (range 2) in
        (values, words 8 state)
    end) = (@pair Values _ (v1 ++ V) st)) as ->.
  { destruct before as [ws|]; [unfold V, st; by rewrite app_nil_r|].
    pose proof (foldl_selected v1 [] _ i (λ i, per_instance layout * i + k)
      (λ h j, state_before_value t layout j h) (range 2) Hi) as E.
    cbv beta zeta in E. rewrite E. clear E. cbv beta iota zeta. f_equal. }
  rewrite words_lookup by apply length_block_bytes.
  destruct (bytes_to_words_range (block_bytes f j) 16 (length_block_bytes f j)) as [Hl _].
  rewrite (surjective_pairing (Sha256.compression _ _ _)), compression_traced, compression_fips by done.
  rewrite <- (compress_fips st) by (by split || apply length_block_bytes).
  rewrite (foldl_select _ _ _ (λ h i, state_value t (per_instance layout * i + k) h)) by done.
  f_equal. unfold v1, compression_list. by rewrite <- !app_assoc.
Qed.
End NativeValues.

(** * Honest tables *)
Section HonestTable.
Context `{Bellpepper} `{Sha2}.

(** The values of the shared segment. *)
Definition position_values (t : Table) (j : nat) : list Scalar :=
  ((λ k, chunk_value t (CHUNKS_PER_BLOCK * j + k)) <$> range CHUNKS_PER_BLOCK)
  ++ (state_value t j <$> range 2).
Definition table_values (t : Table) : list Scalar :=
  (range POSITIONS ≫= position_values t) ++ (state_half (t_start t) <$> range 2).

Lemma emits_alloc_cell s name v :
  emits (alloc_cell name (Some v)) s [v] (λ n s', knows s' (num n) v).
Proof.
  apply emits_ns. eapply emits_mono; [apply num_alloc_emits|].
  intros n [Ev En]. apply knows_num; [done|]. rewrite Ev. cbn. apply list_lookup_middle. done.
Qed.

Lemma emits_alloc_cells {A} s (name : A → string) (val : A → option Scalar) (v : A → Scalar) l :
  (∀ x, x ∈ l → val x = Some (v x)) →
  emits (mapM (λ x, alloc_cell (name x) (val x)) l) s (v <$> l)
    (λ ns s', Forall2 (knows s') (num <$> ns) (v <$> l)).
Proof.
  intros Hv. rewrite <- (bind_singleton v). eapply emits_mono.
  { apply (emits_mapM_Forall2 _ _ _ _ (λ _, True) (λ s x n, knows s (num n) (v x)));
      [done|by intros; apply knows_push|done|].
    intros x s' Hx _. rewrite Hv by done. apply emits_alloc_cell. }
  intros ns [_ HF]. rewrite bind_singleton. apply Forall2_fmap. by apply Forall2_flip.
Qed.

Lemma chunk_value_at t j k : j < POSITIONS → k < CHUNKS_PER_BLOCK →
  chunk_value t (CHUNKS_PER_BLOCK * j + k)
  = from_be (slice (CHUNK_BYTES * k) (CHUNK_BYTES * (k + 1)) (default [] (t_blocks t !! j))).
Proof.
  intros Hj Hk. unfold chunk_value. unfold CHUNKS_PER_BLOCK, POSITIONS in *.
  rewrite (proj2 (Nat.ltb_lt _ _)) by lia.
  rewrite <- (Nat.div_unique (4 * j + k) 4 j k), <- (Nat.mod_unique (4 * j + k) 4 j k) by lia. done.
Qed.

Lemma lookup_bind_fixed {A B} (g : A → list B) c l j k x :
  (∀ x, x ∈ l → length (g x) = c) → l !! j = Some x → k < c → (l ≫= g) !! (c * j + k) = g x !! k.
Proof.
  intros Hg. revert j. induction l as [|y l IH]; intros j Hj Hk; [done|].
  cbn [mbind list_bind]. destruct j as [|j].
  - injection Hj as ->. rewrite Nat.mul_0_r. apply lookup_app_l. rewrite Hg by constructor. done.
  - rewrite lookup_app_r by (rewrite Hg by constructor; nia).
    rewrite Hg by constructor. replace (c * S j + k - c) with (c * j + k) by nia.
    apply IH; [by intros; apply Hg; constructor|done|done].
Qed.

Lemma emits_allocate s t :
  emits (allocate (Some t)) s (table_values t) (λ cells s',
    table_cells (knows s') cells (chunk_value t) (state_value t) (state_half (t_start t))).
Proof.
  unfold allocate. eapply emits_bind.
  { apply (emits_mapM_Forall2 _ (position_values t) _ _ (λ _, True)
      (λ s j ns, Forall2 (knows s) (num <$> ns) (position_values t j))); [done| |done|].
    - intros s' vs j ns HF. eapply Forall2_impl; [exact HF|]. intros. by apply knows_push.
    - intros j s' Hj%elem_of_seq _. eapply emits_bind.
      { apply (emits_alloc_cells _ _ _ (λ k, chunk_value t (CHUNKS_PER_BLOCK * j + k))).
        intros k Hk%elem_of_seq. rewrite chunk_value_at by lia. done. }
      intros chunks HC. eapply emits_bind_r; [by apply (emits_alloc_cells _ _ _ (state_value t j))|].
      intros halves HH. apply emits_ret. rewrite fmap_app. apply Forall2_app; [|done].
      eapply Forall2_impl; [exact HC|]. intros. by apply knows_push. }
  intros pos [_ HP]. eapply emits_bind_r; [by apply (emits_alloc_cells _ _ _ (state_half (t_start t)))|].
  intros st HS. apply emits_ret. 
  match goal with |- table_cells (knows ?s) _ _ _ _ => set (s' := s) in * end.
  assert (Forall2 (knows s') (num <$> concat pos) (range POSITIONS ≫= position_values t)) as HC.
  { assert (Forall2 (λ j ns, Forall2 (knows s') (num <$> ns) (position_values t j)) (range POSITIONS) pos) as HP'.
    { eapply Forall2_impl; [exact HP|]. intros j ns HF. eapply Forall2_impl; [exact HF|]. intros. by apply knows_push. }
    clear HP HS. clearbody s'. revert HP'. generalize (range POSITIONS). intros js HP'.
    induction HP' as [|j ns js pos Hj _ IH]; [constructor|]. cbn [concat mbind list_bind].
    rewrite fmap_app. by apply Forall2_app. }
  assert (Forall2 (knows s') (num <$> concat pos ++ st) (table_values t)) as HT
    by (rewrite fmap_app; by apply Forall2_app).
  assert (∀ k v, table_values t !! k = Some v →
    ∃ x, (n ← index (concat pos ++ st) k; mret (num n)) = mret x ∧ knows s' x v) as Hcell.
  { intros k v Hk. destruct (Forall2_lookup_r _ _ _ _ _ HT Hk) as (x & Hx & Kx).
    rewrite list_lookup_fmap in Hx. destruct ((concat pos ++ st) !! k) as [n|] eqn:En; [|done].
    injection Hx as <-. exists (num n). split; [|done]. unfold index. by rewrite En. }
  assert (∀ j k, j < POSITIONS → k < 6 → table_values t !! (6 * j + k) = position_values t j !! k) as Hpos.
  { intros j k Hj Hk. unfold table_values. rewrite lookup_app_l.
    - apply lookup_bind_fixed; [done|by apply lookup_seq_lt|done].
    - assert (∀ l, length (l ≫= position_values t) = 6 * length l) as El
        by (induction l; [done|]; cbn [mbind list_bind]; rewrite length_app, IHl; cbn; lia).
      rewrite El. unfold range. rewrite length_seq. unfold POSITIONS in *. lia. }
  split.
  - intros c. unfold cells_chunk. destruct (Nat.ltb_spec c (CHUNKS_PER_BLOCK * POSITIONS)) as [L|L].
    + apply Hcell. unfold CELLS_PER_POSITION, CHUNKS_PER_BLOCK, POSITIONS in *. rewrite Hpos.
      * pose proof (Nat.mod_upper_bound c 4) as Hm. pose proof (Nat.div_mod_eq c 4) as Ed.
        unfold position_values. rewrite lookup_app_l by (unfold CHUNKS_PER_BLOCK; cbn; lia).
        rewrite lookup_range by (unfold CHUNKS_PER_BLOCK; lia). do 2 f_equal. unfold CHUNKS_PER_BLOCK. lia.
      * unfold POSITIONS. apply Nat.Div0.div_lt_upper_bound. lia.
      * pose proof (Nat.mod_upper_bound c 4). lia.
    + exists lc_of_zero. split; [done|]. unfold chunk_value. rewrite (proj2 (Nat.ltb_ge _ _)) by done. apply knows_zero.
  - intros j h Hj Hh. apply Hcell. unfold CELLS_PER_POSITION, CHUNKS_PER_BLOCK.
    replace ((4 + 2) * j + 4 + h) with (6 * j + (4 + h)) by lia. rewrite Hpos by lia.
    unfold position_values. rewrite lookup_app_r by (cbn; lia). cbn.
    destruct h as [|[|]]; [done|done|lia].
  - intros h Hh. apply Hcell. destruct h as [|[|]]; [reflexivity|reflexivity|lia].
Qed.
End HonestTable.

(** * Tables built from blocks *)
Section BuiltTables.
Context `{CompressionGadget} `{Sha2}.

(** The blocks of a table, of 64 bytes, and its start state. *)
Record blocks_ok (layout : Layout) (bs : list (list byte)) (start : list byte) : Prop := {
  bo_blocks : Forall (λ b, length b = 64) bs;
  bo_start : length start = 32;
  bo_layout : layout_ok layout;
  bo_one : per_instance layout = 1;
  bo_signed : starts_from_iv layout (first (signed layout)) = false;
}.

(** The state after position [j] is the compression of its block, from the
    state that starts there or from the state before. *)
Lemma chain_lookup layout start bs j st i b :
  bs !! i = Some b → hash_state st → length start = 32 → Forall (λ b, length b = 64) bs →
  ∃ st', hash_state st' ∧ (i = 0 → st' = st) ∧
    (∀ i', i = S i' → chain layout start j st bs !! i' = Some (words_to_bytes st')) ∧
    chain layout start j st bs !! i = Some (words_to_bytes (compress (default st' (starts layout start (j + i))) b)).
Proof.
  intros Hi Hst Hl HB. revert j st i Hi Hst. induction HB as [|b' bs Hb' HB IH]; intros j st i Hi Hst; [done|].
  rewrite chain_cons. cbv zeta. destruct i as [|i].
  - injection Hi as ->. exists st. rewrite Nat.add_0_r. by split_and!.
  - destruct (IH (S j) (compress (default st (starts layout start j)) b') i Hi) as (st' & Hs' & H0' & HS & E).
    + assert (hash_state (default st (starts layout start j))) as Hd.
      { unfold starts. destruct (starts_from_iv layout j); [apply IV_words|].
        destruct (Nat.eqb_spec j (first (signed layout))); [by apply bytes_to_words_state|done]. }
      rewrite compress_fips by done. apply fips_hash_state.
    + exists st'. split_and!; [done|done| |].
      * intros i' [= <-]. destruct i as [|i]; [by rewrite H0'|by apply HS].
      * cbn [lookup list_lookup]. by replace (j + S i) with (S j + i) by lia.
Qed.

Lemma half_small (l : list byte) h : (repr (state_half l h) < 2 ^ 128)%Z.
Proof.
  unfold state_half. set (s := slice _ _ l).
  assert (length s ≤ 16) as Hs by (unfold s, slice, CHUNK_BYTES; rewrite length_take; lia).
  rewrite from_be_of_int, repr_of_int by lia. pose proof (be_int_range s).
  assert (256 ^ Z.of_nat (length s) ≤ 256 ^ 16)%Z by (apply Z.pow_le_mono_r; lia).
  rewrite Z.mod_small by (unfold p; lia). lia.
Qed.

Lemma chunk_value_small t c : (repr (chunk_value t c) < 2 ^ 128)%Z.
Proof.
  unfold chunk_value. destruct (c <? _); [apply half_small|].
  rewrite <- of_int_0, repr_of_int. done.
Qed.

Lemma block_bytes_table t j b :
  j < POSITIONS → t_blocks t !! j = Some b → length b = 64 → block_bytes (chunk_value t) j = b.
Proof.
  intros Hj Eb Hl. unfold block_bytes, chunk_bytes. change 4 with CHUNKS_PER_BLOCK.
  replace (CHUNKS_PER_BLOCK * j) with (CHUNKS_PER_BLOCK * j + 0) at 1 by lia.
  rewrite !chunk_value_at by (unfold CHUNKS_PER_BLOCK; lia). rewrite Eb. cbn [default].
  assert (∀ k, k < 4 → be_bytes 16 (repr (from_be (slice (CHUNK_BYTES * k) (CHUNK_BYTES * (k + 1)) b)))
    = slice (16 * k) (16 * (k + 1)) b) as E.
  { intros k Hk. unfold CHUNK_BYTES. set (s := slice _ _ b).
    assert (length s = 16) as Hs by (unfold s; rewrite length_slice; lia).
    pose proof (be_int_range s) as R. rewrite Hs in R.
    rewrite from_be_of_int, repr_of_int by lia. rewrite Z.mod_small by (unfold p; lia). by apply be_bytes_be_int. }
  rewrite !E by lia. clear -Hl. do 64 (destruct b as [|? b]; [done|]). by destruct b.
Qed.

(** The compressions of a table that is built from blocks are right. *)
Lemma built_table_ok layout bs start t :
  blocks_ok layout bs start → from_blocks_in layout bs start = Ok t →
  table_ok (chunk_value t) (state_value t) (state_half (t_start t)) layout.
Proof.
  intros [HB Hl [Hf Hp0] Hp Hiv] Ht i Hi k Hk. unfold instances in Hi. rewrite Hp, Nat.div_1_r in Hi.
  assert (k = 0) as -> by lia. rewrite Hp, Nat.mul_1_l, Nat.add_0_r.
  unfold from_blocks_in in Ht. destruct (Nat.eqb_spec (length bs) POSITIONS) as [El|]; [|done].
  injection Ht as <-. destruct (lookup_lt_is_Some_2 bs i) as [b Eb]; [lia|].
  assert (length b = 64) as Hb by (rewrite list.Forall_forall in HB; eapply HB, list_elem_of_lookup_2, Eb).
  destruct (chain_lookup layout start bs 0 IV i b Eb IV_words Hl HB) as (st' & Hst' & H0' & HS & E).
  split.
  - intros c Hc. apply chunk_value_small.
  - intros h _ Hh. unfold before_value. destruct (i =? _); [apply half_small|].
    destruct (starts_from_iv layout i); apply half_small.
  - intros h Hh. unfold state_value at 1. cbn [t_states]. rewrite E. cbn [default].
    rewrite (block_bytes_table _ i b) by done. cbn [Nat.add result_before foldl range seq].
    cbn [t_start]. set (t := {| t_blocks := bs; t_states := _; t_start := _; t_layout := _ |}).
    assert (starting (before_value layout (state_value t) (state_half start) i) None
      = default st' (starts layout start i)) as Es; [|by rewrite Es].
    cbn [starting default]. unfold starts, before_value.
    destruct (Nat.eqb_spec i (first (signed layout))) as [->|N].
    + rewrite Hiv. change (bytes_to_words (state_bytes (state_half start)) = bytes_to_words start).
      by rewrite state_bytes_halves.
    + destruct (starts_from_iv layout i).
      * cbn [default]. rewrite (state_bytes_halves iv_bytes) by done.
        unfold iv_bytes. by rewrite bytes_to_words_to_bytes by apply IV_words.
      * cbn [default]. destruct i as [|i]; [lia|].
        rewrite (state_bytes_ext _ (state_half (words_to_bytes st'))).
        -- rewrite state_bytes_halves by (by rewrite length_words_to_bytes, (proj1 Hst')).
           by rewrite bytes_to_words_to_bytes by apply Hst'.
        -- intros h' _. unfold state_value. cbn [t_states t]. replace (S i - 1) with i by lia. by rewrite (HS i).
Qed.
End BuiltTables.

(** * An honest instance *)
Section HonestInstance.
Context `{CompressionGadget} `{Sha2}.
Variables (t : Table) (layout : Layout) (i : nat).
Local Abbreviation f := (chunk_value t).
Local Abbreviation g := (state_value t).
Local Abbreviation start := (state_half (t_start t)).
Hypotheses (Hok : layout_ok layout) (Hi : i < instances layout).

(** The values of the instance's compressions. *)
Definition instance_list (l : list nat) : list Scalar :=
  l ≫= λ k, compression_list f g start layout i k (result_before f g start layout i k).

Lemma result_before_S f' g' start' l j m :
  result_before f' g' start' l j (S m)
  = Some (compress (starting (before_value l g' start' (per_instance l * j + m)) (result_before f' g' start' l j m))
      (block_bytes f' (per_instance l * j + m))).
Proof. unfold result_before, range. rewrite seq_S, foldl_app. done. Qed.

Lemma result_before_hash_state m ws : result_before f g start layout i m = Some ws → hash_state ws.
Proof.
  revert ws. induction m as [|m IH]; intros ws Hw; [done|]. rewrite result_before_S in Hw. injection Hw as <-.
  rewrite compress_fips by (apply length_block_bytes || by apply starting_hash_state).
  apply fips_hash_state.
Qed.

Lemma instance_list_S m :
  instance_list (range (S m))
  = instance_list (range m) ++ compression_list f g start layout i m (result_before f g start layout i m).
Proof.
  unfold instance_list, range. rewrite seq_S, bind_app. cbn [mbind list_bind Nat.add]. by rewrite app_nil_r.
Qed.

Lemma compression_values_loop (values : Values) m :
  foldl (λ '(values, result) k,
    let '((_, words), values) := compression_values values t layout i k result in
    (values, Some words)) (values, None) (range m)
  = (@pair Values _ (values ++ instance_list (range m)) (result_before f g start layout i m)).
Proof.
  induction m as [|m IH]; [cbn; by rewrite app_nil_r|].
  unfold range at 1. rewrite seq_S, foldl_app. change (seq 0 m) with (range m). rewrite IH.
  cbn [foldl Nat.add]. rewrite compression_values_list by (done || apply result_before_hash_state).
  by rewrite instance_list_S, result_before_S, app_assoc.
Qed.

Lemma emits_compressions s cells sel :
  instance_known cells f g start layout sel i s → instance_ok f g start layout i →
  emits (foldM (λ result k,
    '(_, words) ← ns ("compression " +:+ pretty k) (compression cells layout sel k result);
    mret (Some words)) None (range (per_instance layout))) s
    (instance_list (range (per_instance layout))) (λ _ _, True).
Proof.
  intros HK HI. eapply emits_mono.
  { apply (emits_foldM _ instance_list _ _ _ (λ done us s',
      instance_known cells f g start layout sel i s' ∧
      before_known (knows s') us (result_before f g start layout i (length done)))).
    - done.
    - done.
    - intros done k us s' Hp [HK' Hb]. apply prefix_snoc_lookup in Hp as [Hx _].
      apply lookup_seq in Hx as [Hx Hlt]. cbn in Hx. subst k. eexists. split.
      { unfold instance_list. rewrite bind_app. cbn [mbind list_bind]. by rewrite app_nil_r. }
      eapply emits_bind_r.
      { apply emits_ns, (emits_compression cells f g start layout sel i); [done|done|done|done|done|by apply HI]. }
      intros [? us'] [HW HK'']. apply emits_ret. split; [done|].
      rewrite length_app. cbn [length]. rewrite Nat.add_1_r, result_before_S. split; [done|].
      rewrite compress_fips by (apply length_block_bytes ||
        (apply starting_hash_state; intros ws; apply result_before_hash_state)).
      apply fips_hash_state. }
  done.
Qed.
End HonestInstance.

(** * Properties *)
Section StepProperties.
Context `{CompressionGadget} `{Sha2}.

Lemma precommitted_values_new t i :
  layout_ok (t_layout t) → i < instances (t_layout t) →
  precommitted_values (step_new i t)
  = Ok (one_hot_values [] (instances (t_layout t)) i
        ++ instance_list t (t_layout t) i (range (per_instance (t_layout t)))).
Proof.
  intros Hok Hi. unfold precommitted_values, step_new. cbn [st_table st_layout st_position ok_or mbind outcome_bind].
  by rewrite compression_values_loop.
Qed.

Lemma instances_small layout : layout_ok layout → instances layout ≤ 32.
Proof.
  intros [_ Hp]. unfold instances. apply Nat.Div0.div_le_upper_bound. unfold POSITIONS. nia.
Qed.

Lemma allocates_step s t i :
  has_one s → layout_ok (t_layout t) → i < instances (t_layout t) →
  instance_ok (chunk_value t) (state_value t) (state_half (t_start t)) (t_layout t) i →
  allocates (synthesis (step_new i t)) s
    (table_values t ++ one_hot_values [] (instances (t_layout t)) i
       ++ instance_list t (t_layout t) i (range (per_instance (t_layout t))))
    [from_u64 (Z.of_nat i)] (λ _ _, True).
Proof.
  intros Ho Hok Hi HI. pose proof (instances_small _ Hok) as Hn. unfold synthesis.
  rewrite <- (app_nil_l [from_u64 _]). eapply allocates_bind.
  { apply allocates_ns, allocates_emits, emits_ns, emits_allocate. }
  intros cells HC. rewrite extend_nil in *. cbv beta in HC.
  rewrite <- (app_nil_r (_ ++ instance_list _ _ _ _)), <- (app_nil_r [from_u64 _]).
  eapply (allocates_bind _ _ _ _ _ _ _ (λ _ _, True)); [|by intros; apply allocates_ns, allocates_ret].
  apply allocates_ns. cbn [precommitted step_circuit]. unfold step_precommitted, step_new. cbn [st_layout st_position].
  rewrite <- (app_nil_l (_ ++ instance_list _ _ _ _)), <- (app_nil_l [from_u64 _]).
  eapply allocates_bind; [apply allocates_emits, emits_is_witness_generator|]. intros ? ->. cbv zeta.
  rewrite extend_nil, push_nil.
  rewrite <- (app_nil_l (_ ++ instance_list _ _ _ _)), <- (app_nil_r [from_u64 _]).
  eapply allocates_bind; [apply allocates_ns, allocates_input|]. intros position [Ev Ep].
  set (s1 := extend _ _ _) in *. eapply allocates_emits.
  assert (has_one s1) as Ho1 by by apply has_one_extend, has_one_push.
  eapply emits_bind; [apply emits_ns, emits_one_hot_alloc; [done|done|unfold p; lia]|]. intros sel Hs.
  cbv beta in Hs. eapply (emits_bind_l _ _ _ _ (λ _ _, True)).
  { apply emits_ns. eapply (emits_equal _ _ _ (of_int (Z.of_nat i))); [by apply has_one_push| |].
    - apply (index_sem _ (sem := knows_sem _ (has_one_push _ _ Ho1)) sel (instances (t_layout t))); [lia|done].
    - apply knows_push. rewrite from_u64_of_int in * by lia. by apply knows_num. }
  intros ? _. eapply (emits_bind_r _ _ _ _ (λ _ _, True)); [|by intros; apply emits_ret].
  apply emits_compressions; [done|done| |done]. split_and!; [by apply has_one_push| |done].
  apply table_cells_push. destruct HC as [Hf Hg Hst]. split.
  - intros c. destruct (Hf c) as (x & E & K). exists x. split; [done|by apply knows_extend].
  - intros j h Hj Hh. destruct (Hg j h Hj Hh) as (x & E & K). exists x. split; [done|by apply knows_extend].
  - intros h Hh. destruct (Hst h Hh) as (x & E & K). exists x. split; [done|by apply knows_extend].
Qed.

(** An honest step, from any state. *)
Lemma step_runs layout bs start t i st :
  blocks_ok layout bs start → from_blocks_in layout bs start = Ok t → i < instances layout →
  has_one (store st) → cs_broken st = None →
  ∃ values, precommitted_values (step_new i t) = Ok values ∧
    run (synthesis (step_new i t)) st
    = (Ok tt, cs_extend st (table_values t ++ values) [from_u64 (Z.of_nat i)]) ∧
    ∀ slots, instance (step_new i t) slots = step_assignment (step_new i t).
Proof.
  intros Hb Ht Hi Ho Hbr. pose proof (built_table_ok _ _ _ _ Hb Ht) as HT.
  assert (t_layout t = layout) as El by (unfold from_blocks_in in Ht; destruct (_ =? _); by simplify_eq).
  destruct Hb as [_ _ Hok _ _]. rewrite <- El in *.
  eexists. split; [by apply precommitted_values_new|]. split.
  - destruct (allocates_step (store st) t i Ho Hok Hi (HT i Hi) st eq_refl Hbr) as ([] & _ & R). exact R.
  - intros slots. unfold instance, step_assignment. cbn [precommitted synthesize public_values step_circuit].
    unfold step_precommitted. rewrite generate_bind. cbn [generate is_witness_generator].
    rewrite precommitted_values_new by done. generalize (one_hot_values [] (instances (t_layout t)) i ++
      instance_list t (t_layout t) i (range (per_instance (t_layout t)))). intros V.
    cbn. unfold since, mark. cbn. by rewrite drop_all.
Qed.

(** C29: For the table of a list of blocks, an honest step at any position
    breaks no rule, reports its position and allocates, after the shared
    segment, exactly the values that are computed natively; and a witness
    generator records the instance that [Step::assignment] computes. *)
Theorem step_native layout bs start t i st :
  blocks_ok layout bs start → from_blocks_in layout bs start = Ok t → i < instances layout →
  has_one (store st) → cs_broken st = None →
  ∃ values, precommitted_values (step_new i t) = Ok values ∧
    run (synthesis (step_new i t)) st
    = (Ok tt, cs_extend st (table_values t ++ values) [from_u64 (Z.of_nat i)]) ∧
    ∀ slots, instance (step_new i t) slots = step_assignment (step_new i t).
Proof. apply step_runs. Qed.

(** * Honest instances satisfy the rules *)
Lemma length_table_values t : length (table_values t) = START + 2.
Proof.
  unfold table_values. rewrite length_app.
  assert (∀ l, length (l ≫= position_values t) = 6 * length l) as El
    by (induction l; [done|]; cbn [mbind list_bind]; rewrite length_app, IHl; cbn; lia).
  rewrite El. unfold range. by rewrite length_fmap, !length_seq.
Qed.

(** The assignment of the instance at [i]. *)
Definition honest_step (t : Table) (i : nat) : Assignment :=
  recorded_as (run (synthesis (step_new i t)) check_new).2.

Lemma honest_steps_hold layout bs start t :
  blocks_ok layout bs start → from_blocks_in layout bs start = Ok t →
  steps_hold layout (honest_step t) (honest_step t 0).
Proof.
  intros Hb Ht i Hi.
  assert (t_layout t = layout) as El by (unfold from_blocks_in in Ht; destruct (_ =? _); by simplify_eq).
  assert (∀ i, i < instances layout → ∃ values,
    run (synthesis (step_new i t)) check_new
    = (Ok tt, cs_extend check_new (table_values t ++ values) [from_u64 (Z.of_nat i)])) as HR.
  { intros j Hj. destruct (step_runs layout bs start t j check_new Hb Ht Hj eq_refl eq_refl)
      as (values & _ & R & _). by exists values. }
  destruct (HR i Hi) as [vs R]. destruct (HR 0 ltac:(lia)) as [vs0 R0'].
  pose proof (length_table_values t) as Hl. split_and!.
  - intros k Hk. unfold honest_step. rewrite R, R0'.
    change (default ZERO ((table_values t ++ vs) !! k) = default ZERO ((table_values t ++ vs0) !! k)).
    by rewrite !lookup_app_l by lia.
  - unfold honest_step. rewrite R. reflexivity.
  - exists (step_new i t). split; [done|].
    apply (run_satisfies (honest_step t i) (synthesis (step_new i t)) check_new tt _ R); [done|].
    unfold honest_step. rewrite R. by apply agrees_recorded_as.
Qed.
End StepProperties.
