(* ===== verification/AgeFolded.v ===== *)
(** [mdoc_age_mc.rs]: the folded form of the first engine. The honest prover's
    blocks and digests, the step circuits over them, and the composition: from
    the two messages to steps that are satisfied and accepted. *)
From Stdlib Require Import ZArith Lia Strings.String Strings.Byte.
From stdpp Require Import base list numbers option strings pretty.
From S2P Require Import Prelude Bytes Field ConstraintSystem Shape CheckSystem Bellpepper Lc Bits Gadgets Select Limbs CborUint OneHotCursor DigestId Values Sha256 Table Window Circuit Step Sha256Var Packing Sha256Mc Hasher HonestSteps StepValues.

(** [mdoc_age::SIG_STRUCTURE_BLOCKS], [mdoc_age::MAX_SIG_STRUCTURE_BYTES] and
    [MAX_CLAIM_BYTES_V1]. *)
Definition SIG_STRUCTURE_BLOCKS : nat := 40.
Definition MAX_SIG_STRUCTURE_BYTES : nat := SIG_STRUCTURE_BLOCKS * 64 - 9.
Definition MAX_CLAIM_BYTES_V1 : nat := 176.

Definition layout : HashLayout := {| message_blocks := [SIG_STRUCTURE_BLOCKS; NUM_BLOCKS] |}.

(** [struct HashWitness]. *)
Record HashWitness := mkHashWitness { hw_blocks : list (list byte); hw_digests : list (list byte) }.

Definition HashWitness_check (h : HashWitness) : outcome SynthesisError unit :=
  let n := total_blocks layout in
  if negb (length (hw_blocks h) =? n)%nat || negb (length (hw_digests h) =? n)%nat then Err Unsatisfiable else Ok tt.

(** The loop over the blocks of one message. *)
Definition chain_block (acc : list Z * list (list byte * list byte)) (blk : list byte) : list Z * list (list byte * list byte) :=
  let state := compress_native acc.1 blk in
  (state, acc.2 ++ [(blk, state ≫= be_bytes 4)]).
Definition chain_message (padded : list byte) : list (list byte * list byte) :=
  (foldl chain_block (mc_IV, []) (chunks 64 padded)).2.

(** [HashWitness::from_witness], of the two messages that it reads. *)
Definition HashWitness_from_witness (sig_structure item_bytes : list byte) : outcome SynthesisError HashWitness :=
  out ← mapM (λ '(m, (msg, max)),
    let n := default 0%nat (message_blocks layout !! (m : nat)) in
    padded ← native_padded_buffer_sized msg (length msg) max n;
    Ok (chain_message padded))
    [(0, (sig_structure, MAX_SIG_STRUCTURE_BYTES)); (1, (item_bytes, MAX_CLAIM_BYTES_V1))]%nat;
  Ok {| hw_blocks := (concat out).*1; hw_digests := (concat out).*2 |}.

Section Circuits.
Context `{BooleanOps} `{!CompressionGadget} `{!PublicNums}.

(** [StepCircuit]: its shared vector, its rules and its public value; the
    vector of [CoreCircuit] is allocated in the same way. *)
Definition StepCircuit_shared (h : HashWitness) : Synth (list AllocatedNum) :=
  lift (HashWitness_check h) ;;
  alloc_shared (hw_blocks h) (hw_digests h).
Definition StepCircuit_synthesize (step : nat) (shared : list AllocatedNum) : Synth unit :=
  synthesize_step shared layout step.
Definition StepCircuit_public_values (step : nat) : list Scalar := [from_u64 (Z.of_nat step)].
End Circuits.

(** * The honest vector *)
Section Vector.
Context `{ScalarField}.

Definition packs_of (c : nat) (b : list byte) : list Scalar :=
  (λ k, pack_be (slice (k * BYTES_PER_PACK) ((k + 1) * BYTES_PER_PACK) b)) <$> range c.
Definition vector (blocks digests : list (list byte)) : list Scalar :=
  (blocks ≫= packs_of PACKS_PER_BLOCK) ++ (digests ≫= packs_of PACKS_PER_DIGEST).

Lemma length_packs_of c b : length (packs_of c b) = c.
Proof. unfold packs_of, range. by rewrite length_fmap, length_seq. Qed.

Lemma length_bind_packs c bs : length (bs ≫= packs_of c) = c * length bs.
Proof. induction bs as [|b bs IH]; [cbn; lia|]. rewrite bind_cons, length_app, length_packs_of, IH. cbn. lia. Qed.

Lemma length_vector blocks digests n :
  length blocks = n → length digests = n → length (vector blocks digests) = 6 * n.
Proof.
  intros Hb Hd. unfold vector. rewrite length_app, !length_bind_packs, Hb, Hd.
  change PACKS_PER_BLOCK with 4. change PACKS_PER_DIGEST with 2. lia.
Qed.

Lemma cell_packs c bs j k b rest pre :
  bs !! j = Some b → k < c →
  cell (pre ++ (bs ≫= packs_of c) ++ rest) (length pre + (j * c + k)) = of_int (be_int (slice (16 * k) (16 * (k + 1)) b)).
Proof.
  intros Hb Hk. pose proof (lookup_lt_Some _ _ _ Hb) as Hj. unfold cell.
  rewrite lookup_app_r by lia. replace (length pre + (j * c + k) - length pre) with (c * j + k) by lia.
  rewrite lookup_app_l by (rewrite length_bind_packs; nia).
  rewrite (lookup_bind_fixed _ c _ _ _ b) by (done || (intros; apply length_packs_of)).
  unfold packs_of, range. rewrite list_lookup_fmap, lookup_seq_lt by done. cbn [fmap option_fmap option_map default].
  rewrite pack_be_int. change BYTES_PER_PACK with 16. cbn [id]. by rewrite !(Nat.mul_comm 16).
Qed.

Lemma vector_block l blocks digests j b :
  length blocks = total_blocks l → blocks !! j = Some b → length b = 64 →
  shared_block l (vector blocks digests) j = b ∧
  ∀ k, k < 4 → (repr (cell (vector blocks digests) (block_pack (total_blocks l) j k)) < 2 ^ 128)%Z.
Proof.
  intros Hn Hb Hl. apply (packs_of_bytes _ 4); [done|]. intros k Hk.
  exact (cell_packs 4 blocks j k b _ [] Hb Hk).
Qed.

Lemma vector_digest l blocks digests j d :
  length blocks = total_blocks l → digests !! j = Some d → length d = 32 →
  shared_digest l (vector blocks digests) j = d ∧
  ∀ k, k < 2 → (repr (cell (vector blocks digests) (digest_pack (total_blocks l) j k)) < 2 ^ 128)%Z.
Proof.
  intros Hn Hd Hl. apply (packs_of_bytes _ 2); [done|]. intros k Hk.
  pose proof (cell_packs 2 digests j k d [] (blocks ≫= packs_of PACKS_PER_BLOCK) Hd Hk) as E.
  rewrite app_nil_r, length_bind_packs, Hn in E. unfold vector, digest_pack.
  by replace (total_blocks l * PACKS_PER_BLOCK + j * PACKS_PER_DIGEST + k)
    with (PACKS_PER_BLOCK * total_blocks l + (j * 2 + k)) by (change PACKS_PER_DIGEST with 2; lia).
Qed.

(** The chain of a message. *)
Lemma chain_message_blocks padded n :
  length padded = 64 * n →
  chain_message padded = (λ t, (block_at padded t, words_to_bytes (block_chain padded (S t)))) <$> range n.
Proof.
  intros Hl. unfold chain_message. rewrite (chunks_blocks n) by done.
  enough (∀ i, i ≤ n → foldl chain_block (mc_IV, []) (block_at padded <$> range i)
    = (block_chain padded i, (λ t, (block_at padded t, words_to_bytes (block_chain padded (S t)))) <$> range i)) as E
    by by rewrite (E n).
  induction i as [|i IH]; intros Hi; [done|]. unfold range in *.
  rewrite seq_S, !fmap_app, foldl_app, IH by lia. cbn [fmap list_fmap foldl Nat.add]. unfold chain_block at 1. cbv zeta. cbn [fst snd].
  rewrite compress_native_fips; [|apply chain_words|unfold block_at; rewrite length_slice; lia].
  by rewrite <-chain_S.
Qed.

(** The messages one after the other, and the place of a block. *)
Section Messages.
Variables (l : HashLayout) (msgs : list (list byte)).
Hypothesis (Hm : Forall2 (λ msg n, length msg = 64 * n) msgs (message_blocks l)).
Local Abbreviation chains := (concat (chain_message <$> msgs)).
Local Abbreviation v := (vector chains.*1 chains.*2).

Lemma block_position j :
  j < total_blocks l → ∃ m n t, message_blocks l !! m = Some n ∧ t < n ∧ j = message_start l m + t.
Proof.
  unfold total_blocks, message_start. generalize (message_blocks l). clear Hm. intros blocks. revert j.
  induction blocks as [|n blocks IH]; intros j Hj; [cbn in Hj; lia|]. cbn in Hj.
  destruct (decide (j < n)) as [L|L]; [by exists 0, n, j|].
  destruct (IH (j - n)) as (m & n' & t & E & Ht & Ej); [lia|].
  exists (S m), n', t. split_and!; [done..|]. cbn. lia.
Qed.

Lemma chains_lookup m n t msg :
  message_blocks l !! m = Some n → msgs !! m = Some msg → t < n →
  chains !! (message_start l m + t) = Some (block_at msg t, words_to_bytes (block_chain msg (S t))).
Proof.
  unfold message_start. revert Hm. generalize (message_blocks l), msgs. clear - H. intros blocks msgs HF. revert m.
  induction HF as [|msg' n' msgs blocks Hl HF IH]; intros m En Em Ht; [done|].
  cbn [fmap list_fmap concat]. rewrite (chain_message_blocks _ n' Hl).
  destruct m as [|m]; cbn in En, Em |- *.
  - injection En as ->. injection Em as ->. rewrite lookup_app_l by (rewrite length_fmap; unfold range; by rewrite length_seq).
    unfold range. by rewrite list_lookup_fmap, lookup_seq_lt by done.
  - rewrite lookup_app_r by (rewrite length_fmap; unfold range; rewrite length_seq; lia).
    rewrite length_fmap. unfold range. rewrite length_seq.
    replace (n' + sum_list (take m blocks) + t - n') with (sum_list (take m blocks) + t) by lia. by apply IH.
Qed.

Lemma length_chains : length chains = total_blocks l.
Proof.
  unfold total_blocks. revert Hm. generalize (message_blocks l), msgs. clear - H. intros blocks msgs HF.
  induction HF as [|msg n msgs blocks Hl HF IH]; [done|]. cbn [fmap list_fmap concat].
  rewrite length_app, IH, (chain_message_blocks _ n Hl), length_fmap. unfold range. rewrite length_seq. done.
Qed.

Lemma chain_at m n t msg :
  message_blocks l !! m = Some n → msgs !! m = Some msg → t < n →
  shared_block l v (message_start l m + t) = block_at msg t ∧
  shared_digest l v (message_start l m + t) = words_to_bytes (block_chain msg (S t)) ∧
  step_holds l v (message_start l m + t).
Proof.
  assert (∀ t, t < n → message_blocks l !! m = Some n → msgs !! m = Some msg →
    (shared_block l v (message_start l m + t) = block_at msg t ∧
      ∀ k, k < 4 → (repr (cell v (block_pack (total_blocks l) (message_start l m + t) k)) < 2 ^ 128)%Z) ∧
    (shared_digest l v (message_start l m + t) = words_to_bytes (block_chain msg (S t)) ∧
      ∀ k, k < 2 → (repr (cell v (digest_pack (total_blocks l) (message_start l m + t) k)) < 2 ^ 128)%Z)) as HA.
  { clear t. intros t Ht En Em. pose proof (chains_lookup m n t msg En Em Ht) as Ec.
    pose proof (Forall2_lookup_lr _ _ _ _ _ _ Hm Em En) as Hl. cbv beta in Hl. pose proof length_chains as Hc. split.
    - apply vector_block; [by rewrite length_fmap|by rewrite list_lookup_fmap, Ec|].
      unfold block_at. rewrite length_slice; lia.
    - apply vector_digest; [by rewrite length_fmap|by rewrite list_lookup_fmap, Ec|].
      by rewrite length_words_to_bytes, (proj1 (chain_words msg (S t))). }
  intros En Em Ht. destruct (HA t Ht En Em) as [[HB HB'] [HD HD']]. split_and!; [done..|].
  split; [done..|]. rewrite HB, HD, chain_S. do 2 f_equal. unfold shared_state.
  rewrite (first_of_message_start l m n t En Ht). destruct t as [|t]; [done|].
  rewrite bool_decide_eq_false_2 by lia. replace (message_start l m + S t - 1) with (message_start l m + t) by lia.
  destruct (HA t ltac:(lia) En Em) as [_ [-> _]]. symmetry. apply bytes_to_words_to_bytes, chain_words.
Qed.

Lemma chains_hold j : j < total_blocks l → step_holds l v j.
Proof.
  intros (m & n & t & En & Ht & ->)%block_position.
  destruct (Forall2_lookup_r _ _ _ _ _ Hm En) as (msg & Em & _). by apply (chain_at m n t msg).
Qed.
End Messages.
End Vector.

(** The two messages padded, and their layout. *)
Definition padded_messages (sig_structure item_bytes : list byte) : list (list byte) :=
  [buffer sig_structure (length sig_structure) (64 * SIG_STRUCTURE_BLOCKS);
   buffer item_bytes (length item_bytes) (64 * NUM_BLOCKS)].

Lemma padded_layout sig_structure item_bytes :
  Forall2 (λ msg n, length msg = 64 * n) (padded_messages sig_structure item_bytes) (message_blocks layout).
Proof.
  assert (∀ m n k, length (buffer m n k) = k) as Hl
    by (intros; unfold buffer, range; by rewrite length_fmap, length_seq).
  repeat constructor; apply Hl.
Qed.

Lemma from_witness_ok sig_structure item_bytes :
  match HashWitness_from_witness sig_structure item_bytes with
  | Ok h => length sig_structure ≤ MAX_SIG_STRUCTURE_BYTES ∧ length item_bytes ≤ MAX_CLAIM_BYTES_V1 ∧
      let chains := concat (chain_message <$> padded_messages sig_structure item_bytes) in
      hw_blocks h = chains.*1 ∧ hw_digests h = chains.*2
  | Err e => (MAX_SIG_STRUCTURE_BYTES < length sig_structure ∨ MAX_CLAIM_BYTES_V1 < length item_bytes) ∧ e = Unsatisfiable
  | Panic _ => False
  end.
Proof.
  unfold HashWitness_from_witness. cbn [mapM]. change (default 0 (message_blocks layout !! 0)) with SIG_STRUCTURE_BLOCKS.
  change (default 0 (message_blocks layout !! 1)) with NUM_BLOCKS.
  pose proof (native_buffer sig_structure (length sig_structure) MAX_SIG_STRUCTURE_BYTES SIG_STRUCTURE_BLOCKS) as H1.
  destruct (native_padded_buffer_sized sig_structure _ _ _) as [b1|e1|w1]; cbn [mbind outcome_bind];
    [| |by destruct H1 as [_ []%Zle_not_lt]].
  2: { destruct H1 as [N ->]. split; [|done]. left. apply Nat.nle_gt. intros L. apply N.
       unfold buffer_fits, MAX_SIG_STRUCTURE_BYTES, SIG_STRUCTURE_BLOCKS in *. lia. }
  destruct H1 as ((_ & _ & _ & L1 & _) & _ & ->).
  pose proof (native_buffer item_bytes (length item_bytes) MAX_CLAIM_BYTES_V1 NUM_BLOCKS) as H2.
  destruct (native_padded_buffer_sized item_bytes _ _ _) as [b2|e2|w2]; cbn [mbind outcome_bind];
    [| |by destruct H2 as [_ []%Zle_not_lt]].
  2: { destruct H2 as [N ->]. split; [|done]. right. apply Nat.nle_gt. intros L. apply N.
       unfold buffer_fits, MAX_CLAIM_BYTES_V1, NUM_BLOCKS in *. lia. }
  destruct H2 as ((_ & _ & _ & L2 & _) & _ & ->). by split_and!.
Qed.

Lemma from_witness_check `{ScalarField} sig_structure item_bytes h :
  HashWitness_from_witness sig_structure item_bytes = Ok h →
  HashWitness_check h = Ok tt ∧ (∀ j, j < total_blocks layout → step_holds layout (vector (hw_blocks h) (hw_digests h)) j).
Proof.
  intros E. pose proof (from_witness_ok sig_structure item_bytes) as HW. rewrite E in HW.
  destruct HW as (_ & _ & Eb & Ed). pose proof (padded_layout sig_structure item_bytes) as HP. split.
  - unfold HashWitness_check. by rewrite Eb, Ed, !length_fmap, (length_chains _ _ HP), Nat.eqb_refl.
  - intros j Hj. rewrite Eb, Ed. by apply chains_hold.
Qed.

(** * The honest steps *)
Section HonestFold.
Context `{BooleanOps} `{!CompressionGadget} `{!PublicNums}.

Lemma completes_packs s (name : nat → nat → string) bs c :
  completes (mapM (λ '(j, b), mapM (λ k,
    let v := pack_be (slice (k * BYTES_PER_PACK) ((k + 1) * BYTES_PER_PACK) b) in
    ns (name j k) (AllocatedNum_alloc (Ok v))) (range c)) (imap (λ j b, (j, b)) bs)) s
    (λ xs s', Forall2 (num_knows s') (concat xs) (bs ≫= packs_of c)).
Proof.
  eapply completes_mono.
  { apply (completes_mapM _ _ _ (λ jb xs s', Forall2 (num_knows s') xs (packs_of c jb.2))).
    - intros [j b] xs s' vs HF. eapply Forall2_impl; [exact HF|]. intros. by apply num_knows_push.
    - intros [j b] vs _. cbn [snd]. eapply completes_mono.
      { apply (completes_mapM _ _ _ (λ k x s', num_knows s' x (pack_be (slice (k * BYTES_PER_PACK) ((k + 1) * BYTES_PER_PACK) b)))).
        - intros. by apply num_knows_push.
        - intros k vs' _. cbv zeta. by apply completes_ns, completes_num. }
      intros xs vs' HF. cbv beta in HF. by apply Forall2_fmap_r, Forall2_flip. }
  intros xs vs HF. cbv beta in HF. generalize dependent (push s vs). clear s. intros s' HF.
  assert (bs = (imap (λ j b, (j, b)) bs).*2) as Ebs.
  { apply list_eq. intros i. rewrite list_lookup_fmap, list_lookup_imap. by destruct (bs !! i). }
  rewrite Ebs at 1. clear Ebs. induction HF as [|jb x l xs Hx HF IH]; [constructor|].
  cbn [concat fmap list_fmap]. rewrite bind_cons. by apply Forall2_app.
Qed.

Lemma completes_alloc_shared s blocks digests :
  completes (alloc_shared blocks digests) s (λ shared s', Forall2 (num_knows s') shared (vector blocks digests)).
Proof.
  unfold alloc_shared. eapply completes_bind; [apply completes_packs|]. intros bs vs Hb. cbv beta in Hb.
  eapply completes_bind; [apply completes_packs|]. intros ds vs' Hd. cbv beta in Hd.
  apply completes_ret, Forall2_app; [|exact Hd]. eapply Forall2_impl; [exact Hb|]. intros. by apply num_knows_push.
Qed.

Lemma in_order_honest k n : in_order k (StepCircuit_public_values <$> seq k n) = true.
Proof.
  revert k. induction n as [|n IH]; intros k; [done|]. cbn [seq fmap list_fmap in_order].
  rewrite bool_decide_eq_false_2; [apply IH|]. unfold StepCircuit_public_values. cbn. by intros [?|?].
Qed.

(** The instance of a step that the honest prover folds. *)
Lemma honest_instance l v st shared j :
  length v = 6 * total_blocks l → (Z.of_nat (total_blocks l) < 2 ^ 64)%Z → j < total_blocks l →
  (∀ i, i < total_blocks l → step_holds l v i) → has_one (store st) → cs_broken st = None →
  Forall2 (num_knows (store st)) shared v → step_instance l v (StepCircuit_public_values j).
Proof.
  intros Hl Hn Hj Hs Ho Hb Hv.
  destruct (honest_step_run shared v l Hl st j Hn Hj Hs Ho Hb Hv) as (vs & R).
  set (st' := cs_extend st vs [of_int (Z.of_nat j)]) in *. set (σ := recorded_as st').
  assert (has_one (store st')) as Ho' by exact (has_one_extend (store st) vs [of_int (Z.of_nat j)] Ho).
  assert (cs_broken st' = None) as Hb' by exact Hb.
  pose proof (agrees_recorded_as _ Ho') as Ha.
  pose proof (run_satisfies σ _ _ _ _ R Hb' Ha) as Hsat.
  destruct (run_unbroken σ _ _ _ _ R Hb') as (_ & _ & HU). specialize (HU Ha).
  exists σ, shared, j, (length (cs_aux st)), (length (cs_inputs st)). split_and!; [|exact Hsat|].
  - eapply Forall2_impl; [exact Hv|]. intros a x [_ Hx]. apply Ha. rewrite cs_lookup_store.
    exact (lookup_extend (store st) vs [of_int (Z.of_nat j)] _ _ Hx).
  - destruct (shape _ _ _) as [[rules r] slots]. destruct HU as (_ & _ & ->). cbn [fst snd].
    change (cs_inputs st') with (cs_inputs st ++ [of_int (Z.of_nat j)]). rewrite length_app. cbn [length].
    replace (length (cs_inputs st) + 1 - length (cs_inputs st)) with 1 by lia. cbn [seq fmap list_fmap].
    unfold StepCircuit_public_values. rewrite from_u64_of_int by lia. do 2 f_equal. symmetry. apply Ha. cbn.
    by rewrite list_lookup_middle.
Qed.

(** C23: Folding is complete: for every two messages within their budgets the
    prover derives a witness, the check on its shape accepts it, and the
    circuit of every step, run from its shared vector on, breaks no rule and
    publishes the step's index, as the verifier's order requires. Messages
    over their budget are rejected, and nothing panics. *)
Theorem honest_fold sig_structure item_bytes :
  match HashWitness_from_witness sig_structure item_bytes with
  | Ok h => length sig_structure ≤ MAX_SIG_STRUCTURE_BYTES ∧ length item_bytes ≤ MAX_CLAIM_BYTES_V1 ∧
      (∀ step, step < total_blocks layout → ∃ vs,
        run (shared ← StepCircuit_shared h; StepCircuit_synthesize step shared) check_new
        = (Ok tt, cs_extend check_new vs (StepCircuit_public_values step))) ∧
      check_step_values (total_blocks layout) (StepCircuit_public_values <$> range (total_blocks layout)) = Ok tt
  | Err e => (MAX_SIG_STRUCTURE_BYTES < length sig_structure ∨ MAX_CLAIM_BYTES_V1 < length item_bytes) ∧ e = Unsatisfiable
  | Panic _ => False
  end.
Proof.
  pose proof (from_witness_ok sig_structure item_bytes) as HW.
  pose proof (from_witness_check sig_structure item_bytes) as HC.
  destruct (HashWitness_from_witness sig_structure item_bytes) as [h|e|w]; [|done..].
  destruct HW as (L1 & L2 & Eb & Ed). destruct (HC h eq_refl) as [Hc Hs]. split_and!; [done..| |].
  - intros step Hstep. unfold StepCircuit_shared. rewrite Hc. cbn [lift].
    set (v := vector _ _) in Hs.
    assert (length v = 6 * total_blocks layout) as Hl.
    { pose proof (padded_layout sig_structure item_bytes) as HP. apply length_vector; [rewrite Eb|rewrite Ed];
        by rewrite length_fmap, (length_chains _ _ HP). }
    change check_new with (cs_extend check_new [] []) at 1.
    eapply run_step; [|done|].
    { apply (completes_bind _ _ _ (λ _ _, True)); [exact (completes_ret tt _ _ I)|].
      intros _ vs _. apply completes_alloc_shared. }
    intros shared w s' Es Hsh. cbv beta in Hsh. fold v in Hsh.
    destruct (honest_step_run shared v layout Hl (cs_extend check_new ([] ++ w) []) step) as (vs & R);
      [apply Z.ltb_lt; reflexivity|exact Hstep|exact Hs|done|done|by rewrite Es|].
    exists (w ++ vs). unfold StepCircuit_synthesize, StepCircuit_public_values.
    rewrite R. unfold cs_extend. cbn. by rewrite from_u64_of_int by (pose proof Hstep as HH; unfold total_blocks, layout in HH; cbn in HH; lia).
  - unfold check_step_values. unfold range at 1. rewrite length_fmap, length_seq, Nat.eqb_refl. cbn [negb].
    unfold range. by rewrite in_order_honest.
Qed.
End HonestFold.
