(* ===== verification/StepInstance.v ===== *)
(** A concrete instance of the class [CompressionGadget], for the witnesses: a
    circuit that fixes its known inputs and allocates the values of their
    compression, each fixed by a rule, and has no satisfying assignment when
    an input is unknown. *)
From Stdlib Require Import ZArith Lia Strings.String Strings.Byte.
From Stdlib Require Import Field_tac Ring.
From stdpp Require Import base list numbers option strings pretty.
From S2P Require Import Prelude Bytes Field ConstraintSystem Shape CheckSystem Bellpepper BellpepperInstance Lc Values Bits Select Sha256 Sha256Trace Table Window Circuit Step.

Section Outputs.
Context `{ScalarField}.

(** The low bits of a sum, least significant first. *)
Definition sum_bits (n : nat) (s : Z) : list Scalar :=
  (λ i, if Z.testbit s (Z.of_nat i) then ONE else ZERO) <$> range n.

Definition sums_bits (l : list (Z * nat)) : list Scalar := l ≫= λ '(s, n), sum_bits n s.
Definition sum_sizes : list nat := [35; 33; 33; 33; 35; 33; 33; 33].

Lemma sums_loop (after : list Z) (vs : Values) l :
  foldl (λ '(after, values) '(sum, n), (after ++ [as_u32 sum], low_bits values sum n)) (after, vs) l
  = (after ++ ((λ x, as_u32 x.1) <$> l), @app Scalar vs (sums_bits l)).
Proof.
  revert after vs. induction l as [|[s n] l IH]; intros after vs.
  - cbn. by rewrite !app_nil_r.
  - cbn [foldl]. rewrite IH. unfold low_bits, sums_bits, sum_bits. cbn [mbind list_bind fmap list_fmap fst].
    by rewrite <- !app_assoc.
Qed.

(** The values end with the bits of the eight sums, whose low 32 bits are the
    compression's words. *)
Lemma compression_sums block state : ∃ (V : list Scalar) l,
  l.*2 = sum_sizes ∧
  Sha256.compression [] block state = ((λ x, as_u32 x.1) <$> l, V ++ sums_bits l).
Proof.
  unfold Sha256.compression.
  match goal with |- context [foldl schedule_step ?a ?b] => destruct (foldl schedule_step a b) as [vs1 w] end.
  match goal with |- context [foldl (round_step w) ?a ?b] => destruct (foldl (round_step w) a b) as [[vs2 v] d] end.
  destruct (default (0%Z, 0%Z) d) as [e a].
  match goal with |- context [foldl _ _ ?l] => exists vs2, l end. split; [done|].
  match goal with |- foldl _ _ ?l = _ => generalize l end. intros l. by rewrite sums_loop.
Qed.

Lemma length_sum_bits n s : length (sum_bits n s) = n.
Proof. unfold sum_bits, range. by rewrite length_fmap, length_seq. Qed.

Lemma length_sums_bits l : length (sums_bits l) = sum_list l.*2.
Proof.
  induction l as [|[s n] l IH]; [done|]. unfold sums_bits in *. cbn. by rewrite length_app, length_sum_bits, IH.
Qed.

Lemma low_sum_bits n s : 32 ≤ n → reverse (take 32 (sum_bits n s)) = of_bool <$> int_bits 32 (as_u32 s).
Proof.
  intros Hn. change (as_u32 s) with (s mod 2 ^ Z.of_nat 32)%Z. rewrite int_bits_mod. unfold sum_bits, int_bits, range.
  replace n with (32 + (n - 32)) by lia. rewrite seq_app, fmap_app, take_app_length'
    by (by rewrite length_fmap, length_seq).
  rewrite <- fmap_reverse, <- list_fmap_compose. done.
Qed.

(** The word that the sum at index [i] gives. *)
Definition output (i : nat) {A} (vals : list A) : list A :=
  reverse (take 32 (drop (length vals - 268 + sum_list (take i sum_sizes)) vals)).

Lemma compression_output block state i w :
  (Sha256.compression [] block state).1 !! i = Some w →
  output i (Sha256.compression [] block state).2 = of_bool <$> int_bits 32 w.
Proof.
  destruct (compression_sums block state) as (V & l & Hl & ->). cbn [fst snd].
  rewrite list_lookup_fmap. intros Hw. destruct (l !! i) as [[s n]|] eqn:Ei; [|done]. injection Hw as <-.
  unfold output. rewrite length_app, length_sums_bits, Hl.
  replace (length V + sum_list sum_sizes - 268) with (length V) by (cbn; lia).
  assert (32 ≤ n) as Hn.
  { assert (sum_sizes !! i = Some n) as En by (rewrite <- Hl, list_lookup_fmap, Ei; done).
    unfold sum_sizes in En. do 8 (destruct i as [|i]; [cbn in En; injection En as <-; lia|]). done. }
  pose proof (take_drop_middle l i _ Ei) as Esplit.
  rewrite <- Hl, <- fmap_take, <- length_sums_bits, <- drop_drop, drop_app_length.
  rewrite <- Esplit at 2. unfold sums_bits at 2. rewrite bind_app.
  change (take i l ≫= _) with (sums_bits (take i l)). rewrite drop_app_length.
  cbn [mbind list_bind fst]. rewrite take_app_le by (rewrite length_sum_bits; lia). by apply low_sum_bits.
Qed.
End Outputs.

(** * The circuit *)
Section Circuit.
Context `{ScalarField}.
Add Field scalar_field : scalar_field_theory (morphism of_int_morph, constants [scalar_const]).
Local Abbreviation Bit := Bool.
#[local] Arguments bool_value : simpl never.

(** A sum that a rule fixes. *)
Definition bool_sum (b : Bit) : LinearCombination := bool_terms b one ONE.
Definition fix_sum (l : LinearCombination) (v : Scalar) : Synth unit :=
  enforce "fixed" l [(one, ONE)] [(one, v)].
Definition fixed_value (x : Scalar) : Synth Bit :=
  v ← alloc "value" (Ok x);
  let b := Is (v, Some (bool_decide (x = ONE))) in
  fix_sum (bool_sum b) x ;; mret b.

Definition compression_circuit (block : list Bit) (words : list (list Bit)) : Synth (list (list Bit)) :=
  match mapM bool_value block, mapM bool_value (concat words) with
  | Some bs, Some ws =>
      mapM (λ '(b, v), fix_sum (bool_sum b) (of_bool v)) (zip (block ++ concat words) (bs ++ ws)) ;;
      out ← mapM fixed_value (Sha256.compression [] (bit_words bs) (bit_words ws)).2;
      mret ((λ i, output i out) <$> range 8)
  | _, _ => enforce "an unknown input" [(one, ONE)] [(one, ONE)] [] ;; mret []
  end.

Lemma gadget_fix_sum (σ : Assignment) l v : gadget σ (fix_sum l v) (λ _, eval σ l = v).
Proof.
  eapply gadget_mono; [apply gadget_enforce|]. intros [] E.
  assert (eval (H0 := lc_terms) σ [(one, ONE)] = ONE) as Eo.
  { unfold eval. cbn. unfold one. rewrite assign_one. ring. }
  assert (eval (H0 := lc_terms) σ [(one, v)] = v) as Ev.
  { unfold eval. cbn. unfold one. rewrite assign_one. ring. }
  rewrite Eo, Ev in E. rewrite <- E. ring.
Qed.

Lemma valued_term s (x : Var) (c v : Scalar) :
  s_lookup s x = Some v → valued (H0 := lc_terms) s [(x, c)] (c * v)%S.
Proof.
  intros Hx. split.
  - apply Forall_singleton. by exists v.
  - unfold eval. cbn. rewrite (recorded_lookup s x v Hx). ring.
Qed.

Lemma emits_fix_sum s l v :
  has_one s → valued s l v → emits (fix_sum l v) s [] (λ _ _, True).
Proof.
  intros Ho Hl. eapply emits_enforce; [exact Hl|by apply valued_term|by apply valued_term|]. ring.
Qed.

Lemma bit_words_words ws : Forall word ws → bit_words (ws ≫= int_bits 32) = ws.
Proof. intros HW. rewrite <- words_bits, bit_words_bytes by done. by apply bytes_to_words_to_bytes. Qed.

Lemma concat_words (R : Lc → Scalar → Prop) words ws :
  Forall2 (λ u w, bits_are R u (int_bits 32 w)) words ws → bits_are R (concat words) (ws ≫= int_bits 32).
Proof. apply Forall2_concat_bind. Qed.

(** The outputs denote the words when the slots hold the values. *)
Section OutputsAre.
Variables (R : Lc → Scalar → Prop) (S : Scalar → Bit → Prop).
Hypothesis S_bit : ∀ v b, S (of_bool v) b → R (bit (b : Boolean)) (of_bool v).

Lemma output_denotes (out : list Bit) vals i bs :
  Forall2 S vals out → output i vals = of_bool <$> bs → bits_are R (output i out) bs.
Proof.
  intros HF E. assert (Forall2 S (output i vals) (output i out)) as HO.
  { unfold output. rewrite (Forall2_length _ _ _ HF).
    by apply Forall2_reverse, Forall2_take, Forall2_drop. }
  rewrite E in HO. rewrite Forall2_fmap_l in HO. apply Forall2_flip.
  eapply Forall2_impl; [exact HO|]. intros v b HS. by apply S_bit.
Qed.

Lemma outputs_are (out : list Bit) vals after :
  length after = 8%nat → Forall2 S vals out →
  (∀ i w, after !! i = Some w → output i vals = of_bool <$> int_bits 32 w) →
  Forall2 (λ u w, bits_are R u (int_bits 32 w)) ((λ i, output i out) <$> range 8) after.
Proof.
  intros Hl HF HO. apply Forall2_same_length_lookup_2; [by rewrite length_fmap|].
  intros i u w Hu Hw. rewrite list_lookup_fmap in Hu.
  destruct (range 8 !! i) as [j|] eqn:Ej; [|done]. injection Hu as <-.
  apply lookup_seq in Ej as [-> Hi]. cbn [Nat.add]. by eapply output_denotes, HO.
Qed.
End OutputsAre.

Lemma compression_words block ws i w :
  length block = 16%nat → fips_compress ws block !! i = Some w →
  output i (Sha256.compression [] block ws).2 = of_bool <$> int_bits 32 w.
Proof. intros Hl Hw. rewrite <- (compression_fips [] block ws Hl) in Hw. by apply compression_output. Qed.

Lemma bit_denotes (σ : Assignment) (b : Bit) v : denotes σ (bit (b : Boolean)) v ↔ eval σ (bool_sum b) = v.
Proof. done. Qed.

Lemma compression_circuit_rules (σ : Assignment) (block : list Bit) (words : list (list Bit)) bs ws :
  bits_are (denotes σ) block bs → length bs = 512%nat →
  Forall2 (λ u w, bits_are (denotes σ) u (int_bits 32 w)) words ws →
  length ws = 8%nat → Forall word ws →
  gadget σ (compression_circuit block words) (λ out,
    Forall2 (λ u w, bits_are (denotes σ) u (int_bits 32 w)) out (fips_compress ws (bit_words bs))).
Proof.
  intros HB Hlb HW Hlw Hws. apply concat_words in HW.
  assert (∀ bits vs vs', bits_are (denotes σ) bits vs → mapM bool_value bits = Some vs' →
    (∀ b v, (b, v) ∈ zip bits vs' → eval σ (bool_sum b) = of_bool v) → vs' = vs) as Hfix.
  { intros bits vs vs' HF. revert vs'. induction HF as [|b v bits vs Hb _ IH]; intros vs' Hm Hz.
    - by injection Hm as <-.
    - cbn in Hm. destruct (bool_value b) as [v'|]; [|done]. cbn in Hm.
      destruct (mapM bool_value bits) as [vs''|]; [|done]. cbn in Hm. injection Hm as <-. f_equal.
      + apply of_bool_inj. rewrite <- (Hz b v') by constructor. exact Hb.
      + apply IH; [done|]. intros b' w Hin. apply Hz. by constructor. }
  unfold compression_circuit.
  destruct (mapM bool_value block) as [bs'|] eqn:Eb, (mapM bool_value (concat words)) as [ws'|] eqn:Ew.
  2-4: eapply gadget_bind; [apply gadget_enforce|]; intros [] E; exfalso; apply one_nonzero;
    unfold eval in E; cbn in E; unfold one in E; rewrite assign_one in E;
    rewrite <- E; ring.
  eapply gadget_bind.
  { apply (gadget_mapM_Forall2 σ _ _ (λ '(b, v) _, eval σ (bool_sum b) = of_bool v)). intros [b v] _. apply gadget_fix_sum. }
  intros us HF. cbv beta in HF.
  assert (∀ b v, (b, v) ∈ zip (block ++ concat words) (bs' ++ ws') → eval σ (bool_sum b) = of_bool v) as Hz.
  { intros b v [i Hi]%list_elem_of_lookup_1. destruct (Forall2_lookup_l _ _ _ _ _ HF Hi) as (? & _ & E). exact E. }
  pose proof (length_mapM _ _ _ Eb) as Hl1. rewrite zip_with_app in Hz by done.
  assert (bs' = bs) as -> by (eapply Hfix; [done|done|]; intros; apply Hz, elem_of_app; by left).
  assert (ws' = ws ≫= int_bits 32) as -> by (eapply Hfix; [done|done|]; intros; apply Hz, elem_of_app; by right).
  rewrite bit_words_words by done.
  assert (length (bit_words bs) = 16%nat) as Hl16
    by (unfold bit_words; rewrite length_fmap, length_chunks, Hlb by lia; done).
  pose proof (λ i w, compression_words (bit_words bs) ws i w Hl16) as HC. revert HC.
  generalize (Sha256.compression [] (bit_words bs) ws).2. intros vals HC.
  eapply gadget_bind.
  { apply (gadget_mapM_Forall2 σ _ _ (λ x (b : Bit), eval σ (bool_sum b) = x)). intros x _.
    unfold fixed_value. eapply gadget_bind; [apply gadget_alloc|]. intros v _.
    eapply gadget_bind; [apply gadget_fix_sum|]. intros ? E. cbv beta in E. apply gadget_ret.
    exact E. }
  intros out HO. apply gadget_ret.
  eapply outputs_are; [|apply length_fips_compress|exact HO|exact HC]. intros. by apply bit_denotes.
Qed.

Lemma knows_bit_value s (b : Bit) v : knows s (bit (b : Boolean)) (of_bool v) →
  bool_value b = Some v ∧ valued s (bool_sum b) (of_bool v).
Proof.
  intros [Ev Hv]. split; [|exact Hv]. cbn in Ev. destruct (bool_value b) as [w|]; [|done].
  cbn in Ev. by injection Ev as ->%of_bool_inj.
Qed.

Lemma knows_bits_values s bits vs :
  bits_are (knows s) bits vs → mapM bool_value (bits : list Bit) = Some vs ∧
  ∀ b v, (b, v) ∈ zip (bits : list Bit) vs → valued s (bool_sum b) (of_bool v).
Proof.
  induction 1 as [|b v bits vs Hb _ [IH1 IH2]]; [split; [done|by intros ? ? []%not_elem_of_nil]|].
  apply knows_bit_value in Hb as [E1 E2]. split.
  - cbn. rewrite E1. cbn. by rewrite IH1.
  - cbn. intros b' v' [[= -> ->]|Hin]%elem_of_cons; [done|by apply IH2].
Qed.

Lemma compression_circuit_emits s (block : list Bit) (words : list (list Bit)) bs ws :
  has_one s → bits_are (knows s) block bs → length bs = 512%nat →
  Forall2 (λ u w, bits_are (knows s) u (int_bits 32 w)) words ws →
  length ws = 8%nat → Forall word ws →
  emits (compression_circuit block words) s (Sha256.compression [] (bit_words bs) ws).2
    (λ out s', Forall2 (λ u w, bits_are (knows s') u (int_bits 32 w)) out (fips_compress ws (bit_words bs))).
Proof.
  intros Ho HB Hlb HW Hlw Hws. apply concat_words in HW.
  apply knows_bits_values in HB as [Eb Hb], HW as [Ew Hw]. unfold compression_circuit. rewrite Eb.
  change (mapM bool_value (concat words) = Some (ws ≫= int_bits 32)) in Ew. rewrite Ew.
  rewrite bit_words_words by done.
  assert (length (bit_words bs) = 16%nat) as Hl16
    by (unfold bit_words; rewrite length_fmap, length_chunks, Hlb by lia; done).
  pose proof (λ i w, compression_words (bit_words bs) ws i w Hl16) as HC. revert HC.
  generalize (Sha256.compression [] (bit_words bs) ws).2. intros vals HC.
  assert (has_one s ∧ ∀ b v, (b, v) ∈ zip (block ++ concat words) (bs ++ ws ≫= int_bits 32) →
    valued s (bool_sum b) (of_bool v)) as HK.
  { split; [done|]. rewrite zip_with_app by (by eapply length_mapM).
    intros b v [Hin|Hin]%elem_of_app; [by apply Hb|by apply Hw]. }
  eapply (emits_bind_l _ _ _ _ (λ _ s', s' = s)).
  { assert ((zip (block ++ concat words) (bs ++ ws ≫= int_bits 32) ≫= λ _, []) = ([] : list Scalar)) as E
      by (generalize (zip (block ++ concat words) (bs ++ ws ≫= int_bits 32)); intros l; by induction l).
    rewrite <- E. apply (emits_mapM _ _ _ _ (λ _ _ s', s' = s)); [done|].
    intros done [b v] ys s' Hp ->. apply prefix_snoc_lookup in Hp as [Hin%list_elem_of_lookup_2 _].
    eapply emits_mono; [apply emits_fix_sum; [apply HK|by apply HK]|]. intros. apply push_nil. }
  intros ? _. rewrite <- (bind_one vals) at 2. eapply emits_bind_r.
  { apply (emits_mapM_Forall2 _ (λ x, [x]) _ _ has_one
      (λ s x (b : Bit), valued s (bool_sum b) x ∧ bool_value b = Some (bool_decide (x = ONE)))).
    - intros. by apply has_one_push.
    - intros s' vs x b [Hx Hb']. split; [by apply valued_push|done].
    - done.
    - intros x s' _ Ho'. unfold fixed_value. eapply emits_bind_r; [apply emits_alloc|].
      intros v [Ev Hv]. eapply (emits_bind_l _ _ _ _ (λ _ _, True)).
      { eapply emits_mono; [apply emits_fix_sum; [by apply has_one_push|]|done].
        eapply valued_eq; [by apply (valued_term _ v ONE x)|ring]. }
      intros ? _. apply emits_ret. split; [|done].
      eapply valued_eq; [by apply (valued_term _ v ONE x)|ring]. }
  intros out [Ho' HO]. apply emits_ret.
  eapply outputs_are; [|apply length_fips_compress|exact HO|exact HC].
  intros v b [Hx Eb']. split; [|exact Hx].
  cbn. rewrite Eb'. cbn. do 2 f_equal.
  destruct v; [by apply bool_decide_eq_true_2|].
  apply bool_decide_eq_false_2. intros E. by apply one_nonzero.
Qed.
End Circuit.

#[export, refine] Instance compression_fixed `{ScalarField} : CompressionGadget := {|
  UInt32 := list Bool;
  from_bits_be bs := bs;
  into_bits_be u := u;
  sha256_compression_function := compression_circuit;
|}.
Proof.
  - done.
  - apply compression_circuit_rules.
  - intros s block words bs ws Ho HB Hl HW Hl' Hw.
    assert (length (bit_words bs) = 16%nat) as Hl16
      by (unfold bit_words; rewrite length_fmap, length_chunks, Hl by lia; done).
    rewrite <-(app_nil_l (of_bool <$> _)), <-(compression_traced [] _ _ Hl16). by apply compression_circuit_emits.
Defined.
