(* ===== verification/Curve.v ===== *)
(** The curve of P-256 has no point of order two: no point of the curve has
    y = 0, that is x³ − 3x + b has no root.  A root is u + 1/u for a u whose
    cube is a root t of t² + bt + 1, and that t is not a cube, as its power
    (p − 1)/3 is not one. *)
From Stdlib Require Import ZArith Lia Znumtheory Zpow_facts Zmod.
From Stdlib Require Import Field_tac Ring.
From stdpp Require Import base list numbers option.
From S2P Require Import Prelude Bytes Field Primes.

(** The coefficient b of the curve y² = x³ − 3x + b. *)
Definition b256 : Z := 0x5ac635d8aa3a93e7b3ebbd55769886bc651d06b0cc53b0f63bce3c3e27d2604b.

(** A root of b² − 4, and t = (root − b)/2. *)
Definition root : Z := 0x283f4129ab6817d9211765b3cf8342c150a255c72f93ad42a112e5cc920087eb.
Definition cube : Z := 0xe6bc85a78096c1f9b695d42f2c755e0275c2a78c319ffe2632a254c7351713cf.

Lemma root_square : ((root * root) mod p = (b256 * b256 - 4) mod p)%Z.
Proof. by vm_compute. Qed.
Lemma cube_double : ((2 * cube) mod p = (root - b256) mod p)%Z.
Proof. by vm_compute. Qed.

Lemma cube_power : Zpow_mod cube ((p - 1) / 3) p ≠ 1%Z.
Proof. apply Z.eqb_neq. vm_compute. reflexivity. Qed.

Lemma cube_nonzero : (0 mod p ≠ cube mod p)%Z.
Proof. apply Z.eqb_neq. vm_compute. reflexivity. Qed.
Lemma three_thirds : (3 * ((p - 1) / 3) = p - 1)%Z.
Proof. vm_compute. reflexivity. Qed.

(** Not a cube, by Fermat's little theorem. *)
Lemma not_cube z : ((z * z * z) mod p ≠ cube mod p)%Z.
Proof.
  intros E. apply cube_power. rewrite Zpow_mod_correct by (pose proof p_pos; lia).
  rewrite <-Z.mod_pow_l, <-E, Z.mod_pow_l.
  replace (z * z * z)%Z with (z ^ 3)%Z by ring. rewrite <-Z.pow_mul_r by (vm_compute; congruence).
  rewrite three_thirds.
  apply ZmodInv.Z.fermat_nz; [apply prime_p|]. intros E0.
  rewrite <-(Z.mul_mod_idemp_r (z * z) z), E0, Z.mul_0_r in E by (pose proof p_pos; lia).
  by apply cube_nonzero.
Qed.

Section NoOrderTwo.
Context `{ScalarField}.
Add Field scalar_field : scalar_field_theory (morphism of_int_morph, constants [scalar_const]).

Lemma no_order_two x : (x * x * x - of_int 3 * x + of_int b256)%S ≠ ZERO.
Proof.
  intros Ex. set (b := of_int b256) in *.
  assert (x * x * x = of_int 3 * x - b)%S as Ex3.
  { transitivity (x * x * x - of_int 3 * x + b + (of_int 3 * x - b))%S; [ring|]. rewrite Ex. ring. }
  set (s := of_int root). set (d := (x * x - ONE)%S).
  assert (s * s = b * b - of_int 4)%S as Es.
  { unfold s, b. rewrite <-!of_int_mul, <-of_int_sub. apply of_int_eq, root_square. }
  assert (s * s = (x * x - of_int 4) * (d * d))%S as Es'.
  { rewrite Es. assert (b = of_int 3 * x - x * x * x)%S as -> by (rewrite Ex3; ring). unfold d. ring. }
  assert (s * s ≠ ZERO)%S as Ns.
  { unfold s. rewrite <-of_int_mul, <-of_int_mod. apply of_int_nonzero. by vm_compute. }
  assert (d ≠ ZERO) as Nd by (intros E; apply Ns; rewrite Es', E; ring).
  set (r := (s / d)%S).
  assert (r * d = s)%S as Er by (unfold r; by field).
  assert (r * r = x * x - of_int 4)%S as Er2.
  { apply (sc_mul_cancel (d * d)); [by apply sc_mul_nonzero|].
    transitivity (r * d * (r * d))%S; [ring|]. rewrite Er, Es'. ring. }
  set (u := ((x + r) / of_int 2)%S).
  assert (of_int 2 ≠ ZERO) as N2 by (apply of_int_nonzero; by vm_compute).
  assert (of_int 2 * u = x + r)%S as Eu by (unfold u; by field).
  assert (u * u * u = of_int cube)%S as Ec.
  { apply (sc_mul_cancel (of_int 8)); [apply of_int_nonzero; by vm_compute|].
    transitivity (of_int 4 * of_int (2 * cube))%S; [|rewrite of_int_mul; ring].
    rewrite (of_int_eq _ _ cube_double), of_int_sub. fold s b.
    transitivity (of_int 2 * u * (of_int 2 * u) * (of_int 2 * u))%S; [ring|]. rewrite Eu.
    transitivity (x * x * x + of_int 3 * x * (r * r) + r * (of_int 3 * (x * x) + r * r))%S; [ring|].
    rewrite Er2, <-Er. unfold d.
    transitivity (of_int 4 * (x * x * x) - of_int 12 * x + of_int 4 * (r * (x * x - ONE)))%S; [ring|].
    rewrite Ex3. ring. }
  apply (not_cube (repr u)), of_int_inj_mod. by rewrite !of_int_mul, !of_int_repr.
Qed.
End NoOrderTwo.
