(* ===== verification/P256.v ===== *)
(** [gadgets/p256.rs]: points of P-256 and ECDSA verification inside the rules.
    The rules compute with affine points by the incomplete chord and tangent
    formulas; [chord] and [tangent] are those formulas with their undefined
    cases as errors, and [multiply_ref] and [verify_point] the computations the
    rules stand for.  The native values come from Jacobian coordinates with
    batched inversions ([multiply_values], [generator_values]); the file shows
    that they are the values of the rules. *)
From Stdlib Require Import ZArith Lia Strings.String Strings.Byte.
From Stdlib Require Import Field_tac Ring.
From stdpp Require Import base list numbers option strings pretty.
From S2P Require Import Prelude Bytes Field ConstraintSystem Shape CheckSystem Bellpepper Lc Values Bits Select Sha256 Table Window Curve.

(** The order n of the P-256 group, big-endian. *)
Definition ORDER : list byte := [
  xff; xff; xff; xff; x00; x00; x00; x00; xff; xff; xff; xff; xff; xff; xff; xff;
  xbc; xe6; xfa; xad; xa7; x17; x9e; x84; xf3; xb9; xca; xc2; xfc; x63; x25; x51].

(** [struct PublicKey] and [struct Signature]. *)
Record PublicKey := mkPublicKey { key_x : list byte; key_y : list byte }.
Record Signature := mkSignature { sig_r : list byte; s_inv : list byte }.

(** * Scalars modulo the group order

    [halo2curves]'s [Fq]: the operations the sources call. [from_repr] takes
    the 32 little-endian bytes of an integer below n. *)
Class OrderField := {
  Fq : Type;
  fq_zero : Fq;
  fq_from_repr : list byte → option Fq;
  fq_to_repr : Fq → list byte;
  fq_invert : Fq → option Fq;
  fq_zero_repr : fq_to_repr fq_zero = replicate 32 x00;
  fq_repr_length x : length (fq_to_repr x) = 32;
  fq_repr_range x : (le_int (fq_to_repr x) < be_int ORDER)%Z;
  fq_from_repr_spec bs : length bs = 32 →
    match fq_from_repr bs with
    | Some x => fq_to_repr x = bs ∧ (le_int bs < be_int ORDER)%Z
    | None => (be_int ORDER ≤ le_int bs)%Z
    end;
  fq_invert_spec x : match fq_invert x with
    | Some y => (le_int (fq_to_repr y) * le_int (fq_to_repr x)) mod be_int ORDER = 1
    | None => x = fq_zero
    end%Z;
}.

Section Signatures.
Context `{OrderField}.

(** [scalar] and [scalar_to_be]. *)
Definition scalar (bytes : list byte) : option Fq := fq_from_repr (reverse bytes).
Definition scalar_to_be (s : Fq) : list byte := reverse (fq_to_repr s).

(** [Signature::from_rs]. *)
Definition from_rs (r s : list byte) : Signature := {|
  sig_r := r;
  s_inv := scalar_to_be (default fq_zero (scalar s ≫= fq_invert));
|}.
End Signatures.

(** * Points *)
Record Affine `{ScalarField} := mkAffine { ax : Scalar; ay : Scalar }.
Record Point `{LinearCombinations} := mkPoint { px : Lc; py : Lc }.

(** [struct Constants]; a window is its four entries. *)
Record Constants `{ScalarField} := mkConstants {
  c_start : Affine;
  c_start_removed : Affine;
  c_windows : list (Affine * Affine * Affine * Affine);
  c_offsets_removed : Affine;
}.

Section Rules.
Context `{Bellpepper}.

(** [Point::constant], [Point::alloc]. *)
Definition point_constant (p : Affine) : Point :=
  {| px := constant (ax p); py := constant (ay p) |}.
Definition point_alloc (key : option PublicKey) : Synth Point :=
  x ← ns "x" (alloc_lc ((λ k, from_be (key_x k)) <$> key));
  y ← ns "y" (alloc_lc ((λ k, from_be (key_y k)) <$> key));
  mret {| px := x; py := y |}.

Definition from_slope (lambda : Lc) (p : Point) (other_x : Lc) : Synth Point :=
  x ← ns "x" (alloc_lc (val [value lambda; value (px p); value other_x]
                          (on3 (λ l a b, l * l - a - b)%S)));
  ns "x rule" (product lambda lambda (add_lc (add_lc x (px p)) other_x)) ;;
  y ← ns "y" (alloc_lc (val [value lambda; value (px p); value x; value (py p)]
                          (on4 (λ l a x y, l * (a - x) - y)%S)));
  ns "y rule" (product lambda (sub_lc (px p) x) (add_lc y (py p))) ;;
  mret {| px := x; py := y |}.

Definition add (p q : Point) : Synth Point :=
  let dx := sub_lc (px q) (px p) in
  let dy := sub_lc (py q) (py p) in
  ns "different x" (nonzero dx) ;;
  lambda ← ns "slope" (alloc_lc (val [value dx; value dy] (on2 (λ dx dy, dy * inverse dx)%S)));
  ns "slope rule" (product lambda dx dy) ;;
  ns "sum" (from_slope lambda p (px q)).

Definition double (p : Point) : Synth Point :=
  xx ← ns "x squared" (mul (px p) (px p));
  let rise := sub_lc (scale xx (from_u64 3)) (small 3) in
  let run := scale (py p) (from_u64 2) in
  lambda ← ns "slope" (alloc_lc (val [value rise; value run]
                                   (on2 (λ rise run, rise * inverse run)%S)));
  ns "slope rule" (product lambda run rise) ;;
  ns "double" (from_slope lambda p (px p)).

Definition choose (b : Boolean) (if0 if1 : Point) : Synth Point :=
  let b := bit b in
  x ← ns "x" (mux b (px if0) (px if1));
  y ← ns "y" (mux b (py if0) (py if1));
  mret {| px := x; py := y |}.

Definition multiply (c : Constants) (bits : list Boolean) (p : Point) : Synth Point :=
  assert (length bits =? 256)%nat "assert_eq" ;;
  acc ← foldM (λ acc '(i, b),
    ns ("bit " +:+ pretty (i : nat)) (
      doubled ← ns "double" (double acc);
      added ← ns "add" (add doubled p);
      ns "choose" (choose b doubled added)))
    (point_constant (c_start c)) (imap (λ i b, (i, b)) bits);
  ns "remove start" (add acc (point_constant (c_start_removed c))).

(** The coordinate of a window's entry, as a sum of 1, low, high and both. *)
Definition coordinate (low high both : Lc) (c0 c1 c2 c3 : Scalar) : Lc :=
  add_lc (add_lc (add_lc (constant c0) (scale low (c1 - c0)%S)) (scale high (c2 - c0)%S))
         (scale both (c3 - c2 - c1 + c0)%S).

Definition multiply_generator (c : Constants) (bits : list Boolean) : Synth Point :=
  assert (length bits =? 256)%nat "assert_eq" ;;
  sum ← foldM (λ sum '(i, (e0, e1, e2, e3)),
    ns ("window " +:+ pretty (i : nat)) (
      high ← index bits (254 - 2 * i);
      low ← index bits (255 - 2 * i);
      both ← ns "both bits" (mul (bit high) (bit low));
      let entry := {|
        px := coordinate (bit low) (bit high) both (ax e0) (ax e1) (ax e2) (ax e3);
        py := coordinate (bit low) (bit high) both (ay e0) (ay e1) (ay e2) (ay e3);
      |} in
      match sum with
      | None => mret (Some entry)
      | Some sum => sum ← ns "add" (add sum entry); mret (Some sum)
      end))
    None (imap (λ i e, (i, e)) (c_windows c));
  match sum with
  | None => Panic' "there are 128 windows"
  | Some sum => ns "remove offsets" (add sum (point_constant (c_offsets_removed c)))
  end.
End Rules.

(** * Native values *)
Section Native.
Context `{ScalarField}.
Implicit Types p q : Affine.

(** [struct Jacobian] *)
Record Jacobian := mkJacobian { jx : Scalar; jy : Scalar; jz : Scalar }.
Definition from_affine p : Jacobian := {| jx := ax p; jy := ay p; jz := ONE |}.

(** [Jacobian::double], [Jacobian::add_affine]. *)
Definition jdouble (j : Jacobian) : Jacobian :=
  let delta := square (jz j) in
  let gamma := square (jy j) in
  let beta4 := Field.double (Field.double (jx j * gamma)%S) in
  let alpha := ((jx j - delta) * (jx j + delta))%S in
  let alpha := (Field.double alpha + alpha)%S in
  let x := (square alpha - Field.double beta4)%S in
  let z := (square (jy j + jz j) - gamma - delta)%S in
  let y := (alpha * (beta4 - x) - Field.double (Field.double (Field.double (square gamma))))%S in
  {| jx := x; jy := y; jz := z |}.
Definition add_affine (j : Jacobian) q : Jacobian :=
  let zz := square (jz j) in
  let h := (ax q * zz - jx j)%S in
  let r := (ay q * zz * jz j - jy j)%S in
  let hh := square h in
  let hhh := (hh * h)%S in
  let v := (jx j * hh)%S in
  let x := (square r - hhh - Field.double v)%S in
  let y := (r * (v - x) - jy j * hhh)%S in
  {| jx := x; jy := y; jz := (jz j * h)%S |}.

(** [invert_all] and [normalize]. *)
Definition invert_all (values : list Scalar) : option (list Scalar) :=
  if existsb is_zero values then None else Some (inverse_all values).
Definition normalize (points : list Jacobian) : option (list Affine) :=
  inverses ← invert_all (jz <$> points);
  Some ((λ '(p, z), let zz := square z in
                    {| ax := (jx p * zz)%S; ay := (jy p * zz * z)%S |}) <$> zip points inverses).

Definition add_values (values : Values) p q : Affine * Values :=
  let inv := inverse (ax q - ax p)%S in
  let lambda := ((ay q - ay p) * inv)%S in
  let x := (square lambda - ax p - ax q)%S in
  let y := (lambda * (ax p - x) - ay p)%S in
  ({| ax := x; ay := y |}, values ++ [inv; lambda; x; y]).

Definition double_values (values : Values) p : Affine * Values :=
  let xx := square (ax p) in
  let lambda := ((Field.double xx + xx - from_u64 3) * inverse (Field.double (ay p)))%S in
  let x := (square lambda - ax p - ax p)%S in
  let y := (lambda * (ax p - x) - ay p)%S in
  ({| ax := x; ay := y |}, values ++ [xx; lambda; x; y]).

Definition choose_values (values : Values) (b : bool) (if0 if1 : Affine) : Affine * Values :=
  let chosen := if b then if1 else if0 in
  (chosen, values ++ [ax chosen; ay chosen]).

(** [v[i]] of a list of points; the callers' indices are in range. *)
Definition origin : Affine := {| ax := ZERO; ay := ZERO |}.
Definition at_point (points : list Affine) (i : nat) : Affine := default origin (points !! i).

Definition multiply_chain (values : Values) (bits : list bool) (start p : Affine)
    : option (Affine * Values) :=
  let '(chain, _) := foldl (λ '(chain, acc) b,
    let doubled := jdouble acc in
    let added := add_affine doubled p in
    (chain ++ [doubled; added], if b : bool then added else doubled))
    ([], from_affine start) bits in
  points ← normalize chain;
  let chosen := (λ '(b, two), at_point two (if b : bool then 1 else 0)%nat)
                  <$> zip bits (chunks 2 points) in
  let accs := start :: chosen in
  inverses ← invert_all (range (length bits) ≫= λ i,
    [Field.double (ay (at_point accs i)); ax p - ax (at_point points (2 * i))]%S);
  let inverse_at i := default ZERO (inverses !! i) in
  let values := foldl (λ values '(i, b),
    let acc := at_point accs i in
    let doubled := at_point points (2 * i) in
    let added := at_point points (2 * i + 1) in
    let xx := square (ax acc) in
    let rise := (Field.double xx + xx - from_u64 3)%S in
    let inv := inverse_at (2 * i + 1)%nat in
    let values := values ++ [xx; (rise * inverse_at (2 * i)%nat)%S; ax doubled; ay doubled] in
    let values := values ++ [inv; ((ay p - ay doubled) * inv)%S; ax added; ay added] in
    (choose_values values b doubled added).2) values (imap (λ i b, (i, b)) bits) in
  Some (at_point accs (length bits), values).

(** The values of the rules, one slope after the other. *)
Definition multiply_steps (values : Values) (bits : list bool) (start p : Affine)
    : Affine * Values :=
  foldl (λ '(acc, values) b,
    let '(doubled, values) := double_values values acc in
    let '(added, values) := add_values values doubled p in
    choose_values values b doubled added) (start, values) bits.

Definition multiply_values (c : Constants) (values : Values) (bits : list bool) p
    : Affine * Values :=
  let '(acc, values) := default (multiply_steps values bits (c_start c) p)
                          (multiply_chain values bits (c_start c) p) in
  add_values values acc (c_start_removed c).

(** The entry of a window at a digit, and the digits of [bits]. *)
Definition window_entry (w : Affine * Affine * Affine * Affine) (high low : bool) : Affine :=
  let '(e0, e1, e2, e3) := w in
  if high then (if low then e3 else e2) else (if low then e1 else e0).
Definition digit (bits : list bool) (i : nat) : bool * bool :=
  (default false (bits !! (254 - 2 * i)%nat), default false (bits !! (255 - 2 * i)%nat)).

Definition generator_chain (values : Values) (entries : list Affine) (both : nat → bool)
    : option (Affine * Values) :=
  let '(chain, _) := foldl (λ '(chain, acc) entry,
    let acc := add_affine acc entry in (chain ++ [acc], acc))
    ([], from_affine (at_point entries 0)) (drop 1 entries) in
  sums ← normalize chain;
  let before i := if (i =? 1)%nat then at_point entries 0 else at_point sums (i - 2) in
  inverses ← invert_all
    ((λ i, ax (at_point entries i) - ax (before i))%S <$> seq 1 (length entries - 1));
  let values := value_bit values (both 0%nat) in
  let values := foldl (λ values i,
    let sum := before i in
    let entry := at_point entries i in
    let inv := default ZERO (inverses !! (i - 1)%nat) in
    let values := value_bit values (both i) in
    values ++ [inv; ((ay entry - ay sum) * inv)%S;
               ax (at_point sums (i - 1)); ay (at_point sums (i - 1))])
    values (seq 1 (length entries - 1)) in
  sum ← last sums;
  Some (sum, values).

Definition generator_steps (values : Values) (entries : list Affine) (both : nat → bool)
    : Affine * Values :=
  foldl (λ '(sum, values) '(i, entry), add_values (value_bit values (both i)) sum entry)
    (at_point entries 0, value_bit values (both 0%nat))
    (drop 1 (imap (λ i e, (i, e)) entries)).

Definition generator_values (c : Constants) (values : Values) (bits : list bool)
    : Affine * Values :=
  let both i := let '(high, low) := digit bits i in high && low in
  let entries := imap (λ i w, let '(high, low) := digit bits i in window_entry w high low)
                   (c_windows c) in
  let '(sum, values) := default (generator_steps values entries both)
                          (generator_chain values entries both) in
  add_values values sum (c_offsets_removed c).
End Native.

(** * Verification *)
Section Verify.
Context `{Bellpepper}.

(** [verify_values]. *)
Definition verify_values (c : Constants) (digest : list Boolean) (key : Point)
    (signature : option Signature) : outcome SynthesisError Values :=
  let known :=
    digest ← mapM Boolean_get_value digest;
    signature ← signature;
    x ← value (px key);
    y ← value (py key);
    Some (signature, digest, {| ax := x; ay := y |}) in
  '(signature, digest, key) ← ok_or AssignmentMissing known;
  let r := be_bits (sig_r signature) in
  let s_inv' := be_bits (s_inv signature) in
  let values := value_bits [] r in
  let values := value_bits values s_inv' in
  let values := foldl (λ values '(bits, bytes),
    value_push (less_than_values values bits ORDER) (inverse (from_be bytes)))
    values [(r, sig_r signature); (s_inv', s_inv signature)] in
  let '(z_g, values) := generator_values c values digest in
  let '(r_q, values) := multiply_values c values r key in
  let '(sum, values) := add_values values z_g r_q in
  let '(_, values) := multiply_values c values s_inv' sum in
  Ok values.

(** [verify]. *)
Definition verify (c : Constants) (digest : list Boolean) (key : Point)
    (signature : option Signature) : Synth unit :=
  generator ← is_witness_generator;
  if generator : bool then
    values ← lift (verify_values c digest key signature);
    extend_aux values
  else
    r ← ns "r" (alloc_bits ((λ s, be_bits (sig_r s)) <$> signature) 256);
    s_inv' ← ns "s inverse" (alloc_bits ((λ s, be_bits (s_inv s)) <$> signature) 256);
    mapM (λ '(name, bits),
      ns (name +:+ " below n") (less_than bits ORDER) ;;
      ns (name +:+ " not zero") (nonzero (pack bits)))
      [("r"%string, r); ("s inverse"%string, s_inv')] ;;
    z_g ← ns "z G" (multiply_generator c digest);
    r_q ← ns "r Q" (multiply c r key);
    sum ← ns "z G + r Q" (add z_g r_q);
    point ← ns "s inverse times the sum" (multiply c s_inv' sum);
    ns "x equals r" (equal (px point) (pack r)).
End Verify.

(** * The formulas as a reference *)
Inductive Undefined := EqualX | ZeroY.

Section Reference.
Context `{ScalarField}.
Implicit Types p q r : Affine.

(** The point of slope [l] through [p], and the chord and the tangent. *)
Definition on_slope (l : Scalar) p (other_x : Scalar) : Affine :=
  let x := (l * l - ax p - other_x)%S in {| ax := x; ay := (l * (ax p - x) - ay p)%S |}.
Definition chord p q : outcome Undefined Affine :=
  if decide (ax p = ax q) then Err EqualX
  else Ok (on_slope ((ay q - ay p) / (ax q - ax p))%S p (ax q)).
Definition tangent p : outcome Undefined Affine :=
  if decide (ay p = ZERO) then Err ZeroY
  else Ok (on_slope ((of_int 3 * (ax p * ax p) - of_int 3) / (of_int 2 * ay p))%S p (ax p)).

(** One bit of double-and-add, and the whole multiplication. *)
Definition multiply_bit p (acc : Affine) (b : bool) : outcome Undefined Affine :=
  doubled ← tangent acc;
  added ← chord doubled p;
  mret (if b then added else doubled).
Definition multiply_ref (c : Constants) (bits : list bool) p : outcome Undefined Affine :=
  acc ← foldM (multiply_bit p) (c_start c) bits;
  chord acc (c_start_removed c).

(** The selected entries of the generator's windows, and their sum. *)
Definition window_entries (c : Constants) (bits : list bool) : list Affine :=
  imap (λ i w, let '(high, low) := digit bits i in window_entry w high low) (c_windows c).
Definition generator_ref (c : Constants) (bits : list bool) : outcome Undefined Affine :=
  match window_entries c bits with
  | [] => Panic "there are 128 windows"
  | first :: entries => sum ← foldM chord first entries; chord sum (c_offsets_removed c)
  end.

(** s⁻¹ · (z · G + r · Q). *)
Definition verify_point (c : Constants) (digest r s_inv : list bool) (key : Affine)
    : outcome Undefined Affine :=
  z_g ← generator_ref c digest;
  r_q ← multiply_ref c r key;
  sum ← chord z_g r_q;
  multiply_ref c s_inv sum.

(** The curve y² = x³ − 3x + b. *)
Definition on_curve (b : Scalar) p : Prop :=
  (ay p * ay p)%S = (ax p * ax p * ax p - of_int 3 * ax p + b)%S.
End Reference.

(** * The formulas stay on the curve *)
Section CurveFacts.
Context `{ScalarField}.
Add Field scalar_field : scalar_field_theory (morphism of_int_morph, constants [scalar_const]).
Implicit Types p q r : Affine.

Lemma two_nonzero : of_int 2 ≠ ZERO.
Proof. apply of_int_nonzero. by vm_compute. Qed.

Lemma chord_on_curve b p q r :
  on_curve b p → on_curve b q → chord p q = Ok r → on_curve b r.
Proof.
  unfold on_curve, chord. intros Hp Hq. destruct (decide _) as [|N]; [done|]. intros [= <-].
  assert (ax q - ax p ≠ ZERO)%S as Hd by (intros E; apply N; symmetry; by apply sc_sub_0).
  unfold on_slope. cbn [ax ay]. set (l := ((ay q - ay p) / (ax q - ax p))%S).
  assert (l * (ax q - ax p) = ay q - ay p)%S as Hl by (unfold l; field; done).
  clearbody l.
  assert (ay q = ay p + l * (ax q - ax p))%S as Eq by (rewrite Hl; ring).
  rewrite Eq in Hq.
  set (X := ax p) in *. set (Y := ay p) in *. set (X' := ax q) in *. clearbody X Y X'.
  assert (b = Y * Y - X * X * X + of_int 3 * X)%S as -> by (rewrite Hp; ring).
  assert (l * l * (X' - X) + of_int 2 * Y * l = X' * X' + X' * X + X * X - of_int 3)%S as E.
  { apply (sc_mul_cancel (X' - X)%S); [done|].
    assert ((X' - X) * (l * l * (X' - X) + of_int 2 * Y * l)
      = (Y + l * (X' - X)) * (Y + l * (X' - X)) - Y * Y)%S as -> by ring.
    rewrite Hq. ring. }
  pose proof (proj2 (sc_sub_0 _ _) E) as E0. apply (proj1 (sc_sub_0 _ _)).
  match goal with |- ?g = _ => assert (g =
    (l * l * (X' - X) + of_int 2 * Y * l - (X' * X' + X' * X + X * X - of_int 3))
    * (l * l - X - X' - X))%S as -> by ring end.
  rewrite E0. ring.
Qed.

Lemma tangent_on_curve b p r : on_curve b p → tangent p = Ok r → on_curve b r.
Proof.
  unfold on_curve, tangent. intros Hp. destruct (decide _) as [|N]; [done|]. intros [= <-].
  unfold on_slope. cbn [ax ay].
  set (l := ((of_int 3 * (ax p * ax p) - of_int 3) / (of_int 2 * ay p))%S).
  assert (l * (of_int 2 * ay p) = of_int 3 * (ax p * ax p) - of_int 3)%S as Hl.
  { unfold l. field. split; [done|apply two_nonzero]. }
  clearbody l. set (X := ax p) in *. set (Y := ay p) in *. clearbody X Y.
  assert (b = Y * Y - X * X * X + of_int 3 * X)%S as -> by (rewrite Hp; ring).
  pose proof (proj2 (sc_sub_0 _ _) Hl) as Hl0. apply (proj1 (sc_sub_0 _ _)).
  match goal with |- ?g = _ => assert (g =
    (l * (of_int 2 * Y) - (of_int 3 * (X * X) - of_int 3)) * (l * l - X - X - X))%S as -> by ring end.
  rewrite Hl0. ring.
Qed.

Lemma foldM_invariant {A B E} (f : B → A → outcome E B) (P : B → Prop) l b b' :
  P b → (∀ b x b', P b → x ∈ l → f b x = Ok b' → P b') → foldM f b l = Ok b' → P b'.
Proof.
  revert b. induction l as [|x l IH]; intros b Hb Hf; [by intros [= <-]|]. cbn [foldM].
  destruct (f b x) as [b1| |] eqn:Ef; [|done..]. apply IH.
  - eapply Hf; [exact Hb|left|exact Ef].
  - intros b2 y b3 H2 Hy. apply Hf; [done|by right].
Qed.

Lemma multiply_on_curve b c bits p r :
  on_curve b (c_start c) → on_curve b (c_start_removed c) → on_curve b p →
  multiply_ref c bits p = Ok r → on_curve b r.
Proof.
  intros Hs Hr Hp. unfold multiply_ref.
  destruct (foldM _ _ _) as [acc| |] eqn:E; [|done..]. cbn [mbind outcome_bind].
  apply (foldM_invariant _ (on_curve b)) in E; [by apply chord_on_curve|done|].
  intros acc0 x acc1 H0 _. unfold multiply_bit.
  destruct (tangent acc0) as [d| |] eqn:Ed; [|done..]. cbn [mbind outcome_bind].
  destruct (chord d p) as [a| |] eqn:Ea; [|done..]. cbn [mbind outcome_bind]. intros [= <-].
  pose proof (tangent_on_curve _ _ _ H0 Ed). destruct x; [|done].
  by eapply chord_on_curve; [| |exact Ea].
Qed.
End CurveFacts.

(** * The batched native values are the sequential ones *)
Section Batched.
Context `{ScalarField}.
Add Field scalar_field : scalar_field_theory (morphism of_int_morph, constants [scalar_const]).
Implicit Types p q a d : Affine.

Lemma inverse_sc_inv (x : Scalar) : inverse x = sc_inv x.
Proof. done. Qed.

Lemma from_u64_3 : from_u64 3 = of_int 3.
Proof. by apply from_u64_of_int. Qed.

(** A Jacobian triple stands for an affine point. *)
Definition stands (j : Jacobian) a : Prop :=
  jz j ≠ ZERO ∧ jx j = (ax a * (jz j * jz j))%S ∧ jy j = (ay a * (jz j * jz j * jz j))%S.

Lemma stands_from_affine a : stands (from_affine a) a.
Proof. split; [apply one_nonzero|]. cbn [jx jy jz from_affine]. split; ring. Qed.

Definition dbl a : Affine := (double_values [] a).1.
Definition sum a p : Affine := (add_values [] a p).1.

Lemma nonzero_factors (x y : Scalar) : (x * y)%S ≠ ZERO → x ≠ ZERO ∧ y ≠ ZERO.
Proof. intros N. split; intros ->; apply N; ring. Qed.

Lemma stands_double j a : stands j a → jz (jdouble j) ≠ ZERO → stands (jdouble j) (dbl a).
Proof.
  intros (Nz & Ex & Ey) N. unfold stands. split; [done|].
  assert (jz (jdouble j) = of_int 2 * ay a * (jz j * jz j * jz j * jz j))%S as Ez.
  { unfold jdouble. cbn [jz]. rewrite !square_mul, Ey. ring. }
  rewrite Ez in N. apply nonzero_factors in N as [[N2 Ny]%nonzero_factors _].
  rewrite Ez. unfold jdouble, dbl, double_values. cbn [jx jy fst ax ay].
  rewrite !double_add, !square_mul, inverse_sc_inv, from_u64_3, Ex, Ey.
  replace (ay a + ay a)%S with (of_int 2 * ay a)%S by ring.
  replace (sc_inv (of_int 2 * ay a)) with (ONE / (of_int 2 * ay a))%S by (unfold sc_div; ring).
  split; field; (split; [done|apply two_nonzero]).
Qed.

Lemma stands_add j a p : stands j a → jz (add_affine j p) ≠ ZERO → stands (add_affine j p) (sum a p).
Proof.
  intros (Nz & Ex & Ey) N. unfold stands. split; [done|].
  assert (jz (add_affine j p) = (ax p - ax a) * (jz j * jz j * jz j))%S as Ez.
  { unfold add_affine. cbn [jz]. rewrite !square_mul, Ex. ring. }
  rewrite Ez in N. apply nonzero_factors in N as [Nd _].
  rewrite Ez. unfold add_affine, sum, add_values. cbn [jx jy fst ax ay].
  rewrite !double_add, !square_mul, inverse_sc_inv, Ex, Ey.
  replace (sc_inv (ax p - ax a)%S) with (ONE / (ax p - ax a))%S by (unfold sc_div; ring).
  split; field; done.
Qed.

(** [invert_all] is element by element, when it is defined. *)
Lemma invert_all_Some l inverses :
  invert_all l = Some inverses → Forall (λ x, x ≠ ZERO) l ∧ inverses = inverse <$> l.
Proof.
  unfold invert_all. destruct (existsb _ _) eqn:E; [done|]. intros [= <-].
  split; [|apply inverse_all_inverse]. apply list.Forall_forall. intros x Hx ->.
  assert (existsb is_zero l = true) as E'; [|congruence].
  apply existsb_exists. exists ZERO. split; [by apply list_elem_of_In|]. by apply is_zero_true.
Qed.

Lemma normalize_stands chain points l :
  normalize chain = Some points → Forall2 (λ j a, jz j ≠ ZERO → stands j a) chain l → points = l.
Proof.
  unfold normalize. destruct (invert_all _) as [inverses|] eqn:E; [|done]. intros [= <-] HF.
  apply invert_all_Some in E as [Nz ->].
  revert Nz. induction HF as [|j a chain l Hj HF IH]; intros Nz; [done|].
  rewrite fmap_cons in Nz. apply list.Forall_cons_1 in Nz as [Nj Nz].
  rewrite !fmap_cons. cbn [zip zip_with]. rewrite fmap_cons. f_equal; [|by apply IH].
  destruct (Hj Nj) as (_ & Ex & Ey). rewrite square_mul, inverse_sc_inv, Ex, Ey.
  replace (sc_inv (jz j)) with (ONE / jz j)%S by (unfold sc_div; ring).
  destruct a as [x y]. cbn [ax ay]. f_equal; field; done.
Qed.

(** The points before, at and after each bit, one after the other. *)
Fixpoint trace (bits : list bool) (acc p : Affine) : list (Affine * Affine * Affine * bool) :=
  match bits with
  | [] => []
  | b :: bits =>
      let d := dbl acc in
      let a := sum d p in
      (acc, d, a, b) :: trace bits (if b then a else d) p
  end.
Fixpoint final (bits : list bool) (acc p : Affine) : Affine :=
  match bits with
  | [] => acc
  | b :: bits => final bits (if b then sum (dbl acc) p else dbl acc) p
  end.
Definition row (p : Affine) (t : Affine * Affine * Affine * bool) : list Scalar :=
  let '(acc, d, a, b) := t in
  (double_values [] acc).2 ++ (add_values [] d p).2 ++ (choose_values [] b d a).2.

Lemma length_trace bits acc p : length (trace bits acc p) = length bits.
Proof. revert acc. induction bits as [|b bits IH]; intros acc; cbn; [done|]. by rewrite IH. Qed.

Lemma multiply_steps_trace values bits start p :
  multiply_steps values bits start p = (final bits start p, values ++ (trace bits start p ≫= row p)).
Proof.
  unfold multiply_steps. revert values start. induction bits as [|b bits IH]; intros values acc.
  - cbn. by rewrite app_nil_r.
  - cbn [foldl trace final]. rewrite bind_cons. etrans; [apply IH|]. unfold row at 2.
    unfold dbl, sum, double_values, add_values, choose_values. cbn [fst snd].
    rewrite <-!app_assoc. destruct b; reflexivity.
Qed.

(** The Jacobian chain stands for the points of the trace. *)
Definition trace_points (bits : list bool) (acc p : Affine) : list Affine :=
  trace bits acc p ≫= λ '(_, d, a, _), [d; a].

Fixpoint jchain (bits : list bool) (j : Jacobian) p : list Jacobian :=
  match bits with
  | [] => []
  | b :: bits =>
      let d := jdouble j in
      let a := add_affine d p in
      d :: a :: jchain bits (if b then a else d) p
  end.

Lemma foldl_jchain bits p chain j :
  (foldl (λ '(chain, acc) b,
    let doubled := jdouble acc in
    let added := add_affine doubled p in
    (chain ++ [doubled; added], if b : bool then added else doubled)) (chain, j) bits).1
  = chain ++ jchain bits j p.
Proof.
  revert chain j. induction bits as [|b bits IH]; intros chain j; cbn [foldl jchain].
  - by rewrite app_nil_r.
  - rewrite IH, <-app_assoc. done.
Qed.

Lemma jchain_stands bits p j acc :
  stands j acc → Forall (λ j, jz j ≠ ZERO) (jchain bits j p) →
  Forall2 stands (jchain bits j p) (trace_points bits acc p).
Proof.
  revert j acc. induction bits as [|b bits IH]; intros j acc Hj Nz; [constructor|].
  cbn [jchain] in *. unfold trace_points. cbn [trace]. rewrite bind_cons.
  apply list.Forall_cons_1 in Nz as [Nd [Na Nz]%list.Forall_cons_1].
  pose proof (stands_double _ _ Hj Nd) as Hd. pose proof (stands_add _ _ _ Hd Na) as Ha.
  apply Forall2_cons. split; [done|]. apply Forall2_cons. split; [done|].
  apply IH; [by destruct b|done].
Qed.

Lemma list_bind_ext_in {A B} (f g : A → list B) l :
  (∀ x, x ∈ l → f x = g x) → l ≫= f = l ≫= g.
Proof. intros Hf. apply Forall_bind_ext, list.Forall_forall, Hf. Qed.

Lemma foldl_seq_appends {A B} (f : list B → A → list B) (F : A → list B) values l :
  (∀ acc x, x ∈ l → f acc x = acc ++ F x) → foldl f values l = values ++ (l ≫= F).
Proof.
  revert values. induction l as [|x l IH]; intros values Hf; [by rewrite app_nil_r|].
  cbn [foldl]. rewrite Hf by left. rewrite IH by (intros; apply Hf; by right).
  by rewrite bind_cons, app_assoc.
Qed.

Lemma concat_fmap_bind {A B} (f : A → list B) l : concat (f <$> l) = l ≫= f.
Proof. induction l as [|x l IH]; [done|]. by rewrite bind_cons, fmap_cons, <-IH. Qed.

(** What [v[2 i]] and [v[2 i + 1]] hold. *)
Lemma lookup_pairs {A B} (f g : A → B) (l : list A) i t :
  l !! i = Some t →
  (l ≫= λ t, [f t; g t]) !! (2 * i) = Some (f t) ∧ (l ≫= λ t, [f t; g t]) !! (2 * i + 1) = Some (g t).
Proof.
  revert i. induction l as [|x l IH]; intros [|i]; [done..|by intros [= ->]|]. cbn [lookup list_lookup].
  intros Hi. rewrite bind_cons. destruct (IH i Hi) as [E1 E2].
  replace (2 * S i) with (S (S (2 * i))) by lia. replace (2 * S i + 1)%nat with (S (S (2 * i + 1))) by lia.
  done.
Qed.

Lemma chunks_pairs {A B} (f g : A → B) (l : list A) :
  chunks 2 (l ≫= λ t, [f t; g t]) = (λ t, [f t; g t]) <$> l.
Proof.
  induction l as [|x l IH]; [done|]. rewrite bind_cons, fmap_cons, <-IH.
  by rewrite chunks_app by (lia || done).
Qed.

(** A loop over an indexed list that appends. *)
Lemma foldl_imap_appends {A B} (f : list B → nat * A → list B) (F : nat → A → list B) values l :
  (∀ i x acc, l !! i = Some x → f acc (i, x) = acc ++ F i x) →
  foldl f values (imap (λ i x, (i, x)) l) = values ++ concat (imap F l).
Proof.
  induction l as [|x l IH] using rev_ind; intros Hf; [by rewrite app_nil_r|].
  rewrite !imap_app, foldl_app, IH, concat_app.
  - cbn [imap foldl concat compose]. rewrite app_nil_r, app_assoc. apply Hf.
    rewrite Nat.add_0_r. by apply list_lookup_middle.
  - intros i y acc Hi. apply Hf. by apply lookup_app_l_Some.
Qed.

Lemma trace_lookup_acc bits acc p i :
  i ≤ length bits →
  (acc :: ((λ '(_, d, a, b), if b : bool then a else d) <$> trace bits acc p)) !! i
  = match trace bits acc p !! i with
    | Some (acc, _, _, _) => Some acc
    | None => Some (final bits acc p)
    end.
Proof.
  revert acc i. induction bits as [|b bits IH]; intros acc i Hi.
  - cbn in Hi. by assert (i = 0) as -> by lia.
  - cbn [trace final]. destruct i as [|i]; [done|]. rewrite fmap_cons. cbn [lookup list_lookup].
    cbn in Hi. rewrite <-IH by lia. done.
Qed.

Lemma trace_bit bits acc p i acc' d a b :
  trace bits acc p !! i = Some (acc', d, a, b) →
  bits !! i = Some b ∧ d = dbl acc' ∧ a = sum d p.
Proof.
  revert acc i. induction bits as [|b0 bits IH]; intros acc i; [done|]. cbn [trace].
  destruct i as [|i]; cbn [lookup list_lookup]; [by intros [= <- <- <- <-]|apply IH].
Qed.

(** Two inversions give the values that one inversion a slope gives. *)
Lemma multiply_chain_steps values bits start p r :
  multiply_chain values bits start p = Some r → multiply_steps values bits start p = r.
Proof.
  unfold multiply_chain. rewrite multiply_steps_trace.
  destruct (foldl _ _ bits) as [chain last'] eqn:Ec.
  apply (f_equal fst) in Ec. rewrite foldl_jchain in Ec. cbn [app fst] in Ec. subst chain.
  destruct (normalize _) as [points|] eqn:En; [|done]. cbn [mbind option_bind].
  assert (points = trace_points bits start p) as ->.
  { eapply normalize_stands; [exact En|]. unfold normalize in En.
    destruct (invert_all _) eqn:Ei; [|done]. apply invert_all_Some in Ei as [Nz _].
    rewrite Forall_fmap in Nz. eapply Forall2_impl; [apply jchain_stands; [apply stands_from_affine|exact Nz]|].
    done. }
  set (T := trace bits start p).
  assert (trace_points bits start p = T ≫= λ t, [t.1.1.2; t.1.2]) as ->.
  { unfold trace_points. apply list_bind_ext; [|done]. by intros [[[? ?] ?] ?]. }
  rewrite chunks_pairs.
  set (accs := start :: _).
  assert (accs = start :: ((λ '(_, d, a, b), if b : bool then a else d) <$> T)) as Ea.
  { unfold accs. f_equal. apply list_eq. intros i. rewrite !list_lookup_fmap, lookup_zip_with, list_lookup_fmap.
    destruct (T !! i) as [[[[acc' d] a] b]|] eqn:Et.
    - destruct (trace_bit _ _ _ _ _ _ _ _ Et) as (-> & _). by destruct b.
    - by destruct (bits !! i). }
  assert (length T = length bits) as HlT by apply length_trace.
  assert (at_point accs (length bits) = final bits start p) as Ef.
  { unfold at_point. rewrite Ea. unfold T in *. rewrite trace_lookup_acc by done. by rewrite lookup_ge_None_2 by lia. }
  assert (∀ i acc' d a b, T !! i = Some (acc', d, a, b) →
    at_point accs i = acc' ∧
    at_point (T ≫= λ t, [t.1.1.2; t.1.2]) (2 * i) = d ∧
    at_point (T ≫= λ t, [t.1.1.2; t.1.2]) (2 * i + 1) = a) as Hat.
  { intros i acc' d a b Et. pose proof (lookup_lt_Some _ _ _ Et). split_and!.
    - unfold at_point. rewrite Ea. unfold T in *. rewrite trace_lookup_acc by lia. by rewrite Et.
    - unfold at_point. by rewrite (proj1 (lookup_pairs _ _ _ _ _ Et)).
    - unfold at_point. by rewrite (proj2 (lookup_pairs _ _ _ _ _ Et)). }
  destruct (invert_all _) as [inverses|] eqn:Ei; [|done]. cbn [mbind option_bind]. intros [= <-].
  rewrite Ef. f_equal. apply invert_all_Some in Ei as [_ ->].
  rewrite (foldl_imap_appends _ (λ i b, row p (default (origin, origin, origin, b) (T !! i)))).
  - f_equal. assert (imap (λ i b, row p (default (origin, origin, origin, b) (T !! i))) bits
      = row p <$> T) as ->; [|by rewrite concat_fmap_bind].
    apply list_eq. intros i. rewrite list_lookup_imap, list_lookup_fmap.
    destruct (T !! i) as [t|] eqn:Et; cbn [fmap option_fmap option_map default].
    + apply lookup_lt_Some in Et as Hi. destruct (lookup_lt_is_Some_2 bits i) as [b ->]; [lia|done].
    + apply lookup_ge_None in Et. by rewrite lookup_ge_None_2 by lia.
  - intros i b acc Hb. pose proof (lookup_lt_Some _ _ _ Hb).
    destruct (lookup_lt_is_Some_2 T i) as [[[[acc' d] a] b'] Et]; [lia|].
    destruct (Hat _ _ _ _ _ Et) as (E1 & E2 & E3).
    destruct (trace_bit _ _ _ _ _ _ _ _ Et) as (Eb & Ed & Es).
    assert (b' = b) as -> by congruence. rewrite Et. cbn [default].
    assert (∀ (f g : nat → Scalar) n, i < n →
      default ZERO ((inverse <$> (range n ≫= λ i, [f i; g i])) !! (2 * i)%nat) = inverse (f i) ∧
      default ZERO ((inverse <$> (range n ≫= λ i, [f i; g i])) !! (2 * i + 1)%nat) = inverse (g i)) as Hinv.
    { intros f g n Hn. assert (range n !! i = Some i) as Er by (apply lookup_seq; lia).
      rewrite !list_lookup_fmap, (proj1 (lookup_pairs f g _ _ _ Er)), (proj2 (lookup_pairs f g _ _ _ Er)).
      done. }
    cbv beta iota zeta. change (i + (i + 0))%nat with (2 * i)%nat.
        destruct (Hinv (λ i, Field.double (ay (at_point accs i)))
      (λ i, ax p - ax (at_point (T ≫= λ t, [t.1.1.2; t.1.2]) (2 * i)%nat))%S (length bits))
      as [-> ->]; [done|]. cbv beta. rewrite E1, E2, E3.
    unfold choose_values, row. cbn [snd]. rewrite <-!app_assoc, Es, Ed. reflexivity.
Qed.

Lemma multiply_values_steps c values bits p :
  multiply_values c values bits p
  = let '(acc, values) := multiply_steps values bits (c_start c) p in
    add_values values acc (c_start_removed c).
Proof.
  unfold multiply_values. destruct (multiply_chain _ _ _ _) as [r|] eqn:E; [|done].
  by rewrite (multiply_chain_steps _ _ _ _ _ E).
Qed.

(** The running sum of the generator's windows after [k] additions. *)
Definition psum (e0 : Affine) (es : list Affine) (k : nat) : Affine := foldl sum e0 (take k es).
Definition generator_row (both : nat → bool) (e0 : Affine) (es : list Affine) (k : nat) : list Scalar :=
  of_bool (both (S k)) :: (add_values [] (psum e0 es k) (at_point es k)).2.

Lemma psum_S e0 es k e : es !! k = Some e → psum e0 es (S k) = sum (psum e0 es k) e.
Proof. intros He. unfold psum. by rewrite (take_S_r _ _ _ He), foldl_snoc. Qed.

Lemma psum_app e0 es e k : k ≤ length es → psum e0 (es ++ [e]) k = psum e0 es k.
Proof. intros Hk. unfold psum. by rewrite take_app_le. Qed.

Lemma value_bit_app values b : value_bit values b = values ++ [of_bool b].
Proof. done. Qed.

Lemma generator_steps_rows values e0 es both :
  generator_steps values (e0 :: es) both
  = (psum e0 es (length es),
     value_bit values (both 0) ++ (range (length es) ≫= generator_row both e0 es)).
Proof.
  unfold generator_steps. rewrite imap_cons, skipn_cons, drop_0.
  change (at_point (e0 :: es) 0) with e0.
  induction es as [|e es IH] using rev_ind; [by rewrite app_nil_r|].
  rewrite imap_app, foldl_app, IH. cbn [imap foldl compose]. rewrite length_app, Nat.add_0_r, Nat.add_1_r.
  unfold range. rewrite seq_S, bind_app. cbn [Nat.add]. rewrite bind_cons. cbn [mbind list_bind]. rewrite app_nil_r.
  rewrite (psum_S _ _ _ e) by (by apply list_lookup_middle).
  rewrite psum_app by done. unfold add_values at 1. f_equal.
  unfold generator_row at 3. rewrite psum_app by done.
  assert (at_point (es ++ [e]) (length es) = e) as ->
    by (unfold at_point; by rewrite list_lookup_middle).
  rewrite value_bit_app, <-!app_assoc. f_equal. f_equal.
  apply list_bind_ext_in. intros k Hk%elem_of_seq. unfold generator_row. rewrite psum_app by lia.
  unfold at_point. by rewrite lookup_app_l by lia.
Qed.

Lemma foldl_sums es j chain :
  foldl (λ '(chain, acc) entry, let acc := add_affine acc entry in (chain ++ [acc], acc)) (chain, j) es
  = (chain ++ ((λ k, foldl add_affine j (take (S k) es)) <$> range (length es)), foldl add_affine j es).
Proof.
  induction es as [|e es IH] using rev_ind; [by rewrite app_nil_r|].
  rewrite !foldl_app, IH. cbn [foldl]. rewrite length_app, Nat.add_1_r. unfold range.
  rewrite seq_S, fmap_app, <-app_assoc. cbn [fmap list_fmap]. do 3 f_equal.
  - apply list_fmap_ext. intros _ k Hk%list_elem_of_lookup_2%elem_of_seq. by rewrite take_app_le by lia.
  - f_equal. rewrite Nat.add_0_l, take_ge by (rewrite length_app; cbn; lia). by rewrite foldl_snoc.
Qed.

Lemma generator_chain_steps values entries both r :
  generator_chain values entries both = Some r → generator_steps values entries both = r.
Proof.
  destruct entries as [|e0 es]; [done|]. rewrite generator_steps_rows.
  unfold generator_chain. rewrite skipn_cons, drop_0. cbn [length]. replace (S (length es) - 1) with (length es) by lia.
  change (at_point (e0 :: es) 0) with e0. rewrite foldl_sums. cbn [app].
  set (J k := foldl add_affine (from_affine e0) (take (S k) es)).
  destruct (normalize _) as [sums|] eqn:En; [|done]. cbn [mbind option_bind].
  assert (sums = (λ k, psum e0 es (S k)) <$> range (length es)) as ->.
  { eapply normalize_stands; [exact En|]. unfold normalize in En.
    destruct (invert_all _) eqn:Ei; [|done]. apply invert_all_Some in Ei as [Nz _].
    rewrite !Forall_fmap in Nz.
    assert (∀ k, k ≤ length es → stands (foldl add_affine (from_affine e0) (take k es)) (psum e0 es k)) as Hst.
    { induction k as [|k IH]; intros Hk; [apply stands_from_affine|].
      destruct (lookup_lt_is_Some_2 es k) as [e He]; [lia|].
      rewrite (psum_S _ _ _ _ He), (take_S_r _ _ _ He), foldl_snoc.
      apply stands_add; [apply IH; lia|]. rewrite <-foldl_snoc, <-(take_S_r _ _ _ He).
      rewrite list.Forall_forall in Nz. apply (Nz k), elem_of_seq. lia. }
    apply Forall2_fmap_l, Forall2_fmap_r, Forall_Forall2_diag, list.Forall_forall.
    intros k Hk%elem_of_seq _. apply Hst. lia. }
  destruct (invert_all _) as [inverses|] eqn:Ei; [|done]. cbn [mbind option_bind].
  destruct (last _) as [sum'|] eqn:El; [|done]. cbn [mbind option_bind]. intros [= <-].
  apply invert_all_Some in Ei as [_ ->].
  set (sums := (λ k, psum e0 es (S k)) <$> range (length es)) in *.
  set (before i := if (i =? 1)%nat then e0 else at_point sums (i - 2)).
  assert (∀ k, k < length es → before (S k) = psum e0 es k) as Hb.
  { intros k Hk. unfold before. destruct k as [|k]; [done|]. cbn [Nat.eqb].
    replace (S (S k) - 2) with k by lia. unfold at_point, sums. by rewrite lookup_range by lia. }
  assert (0 < length es) as Hpos by (destruct es; [done|cbn; lia]).
  f_equal.
  - unfold sums in El. rewrite last_lookup, length_fmap in El. unfold range in El. rewrite length_seq in El.
    rewrite list_lookup_fmap, lookup_seq_lt in El by lia. cbn in El. injection El as <-.
    f_equal. lia.
  - assert (seq 1 (length es) = S <$> range (length es)) as -> by (unfold range; by rewrite fmap_S_seq).
    rewrite foldl_fmap.
    symmetry. rewrite (foldl_seq_appends _ (generator_row both e0 es)); [done|].
    intros acc k Hk%elem_of_seq. cbv beta zeta.
    change (λ i, (ax (at_point (e0 :: es) i)
                  - ax (if (i =? 1)%nat then e0 else at_point sums (i - 2)))%S)
      with (λ i, (ax (at_point (e0 :: es) i) - ax (before i))%S).
    change (if (S k =? 1)%nat then e0 else at_point sums (S k - 2)) with (before (S k)).
    rewrite Hb by lia.
    replace (S k - 1) with k by lia.
    unfold sums. rewrite !list_lookup_fmap. unfold range. rewrite lookup_seq_lt by lia.
    cbn [fmap option_fmap option_map default]. rewrite Nat.add_0_l, Hb by lia.
    destruct (lookup_lt_is_Some_2 es k) as [e He]; [lia|].
    assert (at_point (e0 :: es) (S k) = e) as -> by (unfold at_point; exact (f_equal (default origin) He)).
    assert (at_point ((λ k, psum e0 es (S k)) <$> seq 0 (length es)) k = sum (psum e0 es k) e) as ->.
    { unfold at_point. rewrite list_lookup_fmap, lookup_seq_lt by lia. cbn. by apply psum_S. }
    unfold generator_row.
    assert (at_point es k = e) as -> by (unfold at_point; by rewrite He).
    rewrite value_bit_app, <-app_assoc. reflexivity.
Qed.

Lemma generator_values_steps c values bits :
  generator_values c values bits
  = let '(sum, values) := generator_steps values (window_entries c bits)
                            (λ i, (digit bits i).1 && (digit bits i).2) in
    add_values values sum (c_offsets_removed c).
Proof.
  unfold generator_values. fold (window_entries c bits).
  assert ((λ i, let '(high, low) := digit bits i in high && low)
    = λ i, (digit bits i).1 && (digit bits i).2) as -> by done.
  destruct (generator_chain _ _ _) as [r|] eqn:E; [|done].
  by rewrite (generator_chain_steps _ _ _ _ E).
Qed.
End Batched.

(** * What the rules force *)
Section PointSem.
Context `{Bellpepper} (R : Lc → Scalar → Prop).
Add Field scalar_field : scalar_field_theory (morphism of_int_morph, constants [scalar_const]).

(** A pair of sums denotes a point. *)
Definition pt (P : Point) (a : Affine) : Prop := R (px P) (ax a) ∧ R (py P) (ay a).

Lemma pt_constant {sem : LcSem R} a : pt (point_constant a) a.
Proof. split; apply sem_constant. Qed.

(** The entry of a window as a sum of 1, low, high and both bits. *)
Lemma coordinate_sem {sem : LcSem R} low high both (h l : bool) (c0 c1 c2 c3 : Scalar) :
  R low (of_bool l) → R high (of_bool h) → R both (of_bool h * of_bool l)%S →
  R (coordinate low high both c0 c1 c2 c3)
    (if h then (if l then c3 else c2) else (if l then c1 else c0)).
Proof.
  intros Hl Hh Hb.
  assert ((if h then (if l then c3 else c2) else (if l then c1 else c0))
    = c0 + of_bool l * (c1 - c0) + of_bool h * (c2 - c0)
      + of_bool h * of_bool l * (c3 - c2 - c1 + c0))%S as ->
    by (destruct h, l; cbn [of_bool]; ring).
  repeat first [apply sem_add|apply sem_scale|apply sem_constant]; assumption.
Qed.

Lemma window_sem {sem : LcSem R} low high both (h l : bool) e0 e1 e2 e3 :
  R low (of_bool l) → R high (of_bool h) → R both (of_bool h * of_bool l)%S →
  pt {| px := coordinate low high both (ax e0) (ax e1) (ax e2) (ax e3);
        py := coordinate low high both (ay e0) (ay e1) (ay e2) (ay e3) |}
     (window_entry (e0, e1, e2, e3) h l).
Proof.
  intros Hl Hh Hb. split; cbn [px py window_entry].
  - assert (ax (if h then (if l then e3 else e2) else (if l then e1 else e0))
      = if h then (if l then ax e3 else ax e2) else (if l then ax e1 else ax e0)) as ->
      by by destruct h, l. by apply coordinate_sem.
  - assert (ay (if h then (if l then e3 else e2) else (if l then e1 else e0))
      = if h then (if l then ay e3 else ay e2) else (if l then ay e1 else ay e0)) as ->
      by by destruct h, l. by apply coordinate_sem.
Qed.

(** The sums follow a computation, up to a vertical tangent, which leaves the
    slope free. *)
Definition follows (o : outcome Undefined Affine) (P : Point) : Prop :=
  ∃ a, pt P a ∧ (o = Ok a ∨ o = Err ZeroY).

Lemma follows_free P : (∀ x, ∃ v, R x v) → follows (Err ZeroY) P.
Proof.
  intros Hv. destruct (Hv (px P)) as [x Hx], (Hv (py P)) as [y Hy].
  exists {| ax := x; ay := y |}. split; [by split|by right].
Qed.
End PointSem.

Section PointRules.
Context `{Bellpepper} (σ : Assignment).
Add Field scalar_field : scalar_field_theory (morphism of_int_morph, constants [scalar_const]).
Local Abbreviation D := (denotes σ).
Local Abbreviation PT := (pt (denotes σ)).

Lemma gadget_from_slope lambda P other_x l p ox :
  D lambda l → PT P p → D other_x ox →
  gadget σ (from_slope lambda P other_x) (λ r, PT r (on_slope l p ox)).
Proof.
  unfold denotes. intros Hl [Hx Hy] Ho. unfold denotes in *. unfold from_slope.
  step gadget_alloc_lc as x _. step gadget_product as [] Ex.
  step gadget_alloc_lc as y _. step gadget_product as [] Ey. apply gadget_ret.
  rewrite ?lval_add, ?lval_sub, Hl, Hx, Ho in Ex. rewrite !lval_add, !lval_sub, Hl, Hx, Hy in Ey.
  assert (lval σ x = l * l - ax p - ox)%S as Ex' by (rewrite Ex; ring).
  split; cbn [px py on_slope ax ay]; unfold denotes; [done|].
  rewrite <-Ex', Ey. ring.
Qed.

(** A sum that meets its rules is the chord's, and the chord is defined. *)
Lemma gadget_add P Q p q :
  PT P p → PT Q q → gadget σ (add P Q) (λ R, ∃ r, chord p q = Ok r ∧ PT R r).
Proof.
  intros HP HQ. pose proof HP as [Hx Hy]. pose proof HQ as [Hx' Hy']. unfold denotes in *.
  unfold add. step gadget_nonzero as [] N. rewrite lval_sub, Hx, Hx' in N.
  step gadget_alloc_lc as lambda _. step gadget_product as [] El.
  rewrite !lval_sub, Hx, Hx', Hy, Hy' in El.
  eapply gadget_mono; [apply gadget_ns, (gadget_from_slope _ _ _ (lval σ lambda) p (ax q)); done|].
  intros R HR. unfold chord. rewrite decide_False by (intros E; apply N; rewrite E; ring).
  eexists. split; [done|].
  assert ((ay q - ay p) / (ax q - ax p) = lval σ lambda)%S as ->; [|done].
  rewrite <-El. field. done.
Qed.

Lemma gadget_double P p : PT P p → gadget σ (double P) (follows (denotes σ) (tangent p)).
Proof.
  intros HP. pose proof HP as [Hx Hy]. unfold denotes in *.
  unfold double. step gadget_mul as xx Exx. step gadget_alloc_lc as lambda _.
  step gadget_product as [] El.
  rewrite lval_sub, !lval_scale, lval_small, Exx, Hx, Hy, !from_u64_of_int in El by done.
  eapply gadget_mono; [apply gadget_ns, (gadget_from_slope _ _ _ (lval σ lambda) p (ax p)); done|].
  intros R HR. eexists. split; [exact HR|]. unfold tangent.
  destruct (decide (ay p = ZERO)) as [|N]; [by right|left]. f_equal.
  assert ((of_int 3 * (ax p * ax p) - of_int 3) / (of_int 2 * ay p) = lval σ lambda)%S as ->; [|done].
  assert (of_int 3 * (ax p * ax p) - of_int 3 = lval σ lambda * (ay p * of_int 2))%S as ->
    by (rewrite El; ring).
  field. split; [done|apply two_nonzero].
Qed.

Lemma gadget_choose b v P Q p q :
  D (bit b) (of_bool v) → PT P p → PT Q q →
  gadget σ (choose b P Q) (λ R, PT R (if v then q else p)).
Proof.
  intros Hb [Hx Hy] [Hx' Hy']. unfold denotes in *. unfold choose.
  step gadget_mux as x Ex. step gadget_mux as y Ey. apply gadget_ret.
  split; cbn [px py]; unfold denotes; [rewrite Ex, Hb, Hx, Hx'|rewrite Ey, Hb, Hy, Hy'];
    destruct v; cbn [of_bool]; ring.
Qed.

Lemma denotes_total x : ∃ v, D x v.
Proof. by eexists. Qed.

(** One bit of double-and-add. *)
Lemma gadget_multiply_bit acc P o p b v :
  follows (denotes σ) o acc → PT P p → D (bit b) (of_bool v) →
  gadget σ (doubled ← ns "double" (double acc);
            added ← ns "add" (add doubled P);
            ns "choose" (choose b doubled added))
    (follows (denotes σ) (a ← o; multiply_bit p a v)).
Proof.
  intros (a & Ha & Ho) HP Hb.
  eapply gadget_bind; [by apply gadget_ns, gadget_double|]. intros Dbl (d & Hd & Et).
  eapply gadget_bind; [apply gadget_ns, gadget_add; done|]. intros Add (s & Es & Hs).
  eapply gadget_mono; [by apply gadget_ns, gadget_choose|]. intros R HR.
  exists (if v then s else d). split; [done|].
  destruct Ho as [->| ->]; [|by right]. cbn [mbind outcome_bind]. unfold multiply_bit.
  destruct Et as [->| ->]; [|by right]. left. cbn [mbind outcome_bind]. by rewrite Es.
Qed.

Lemma gadget_multiply c bits vs P p :
  bits_are D bits vs → length vs = 256 → PT P p →
  gadget σ (multiply c bits P) (follows (denotes σ) (multiply_ref c vs p)).
Proof.
  intros HF Hl HP. pose proof (Forall2_length _ _ _ HF) as Hl'. unfold multiply.
  eapply gadget_bind; [apply gadget_assert, Nat.eqb_eq; lia|]. intros _ _.
  eapply gadget_bind.
  { apply (gadget_foldM σ _ _ _ (λ done acc,
      follows (denotes σ) (foldM (multiply_bit p) (c_start c) (take (length done) vs)) acc)).
    - exists (c_start c). split; [apply (pt_constant _)|by left].
    - intros done [i b] acc Hp Hacc. apply prefix_snoc_lookup in Hp as [Hi _].
      apply list_lookup_imap_Some in Hi as (b' & Eb & [= -> ->]).
      destruct (Forall2_lookup_l _ _ _ _ _ HF Eb) as (v & Ev & Hv).
      apply gadget_ns. eapply gadget_mono; [by apply gadget_multiply_bit|].
      intros R HR. rewrite length_app, Nat.add_1_r, (take_S_r _ _ _ Ev), foldM_app. cbn [foldM].
      destruct (foldM _ _ _); cbn [mbind outcome_bind] in HR |- *; [|done..].
      by destruct (multiply_bit p a v). }
  intros acc (a & Ha & Ho). rewrite length_imap in Ho.
  rewrite take_ge in Ho by lia. eapply gadget_mono; [apply gadget_ns, gadget_add; [exact Ha|apply (pt_constant _)]|].
  intros R (r & Er & HR). exists r. split; [done|]. unfold multiply_ref.
  destruct Ho as [->| ->]; [left|by right]. done.
Qed.

Lemma gadget_multiply_generator c bits vs :
  bits_are D bits vs → length vs = 256 → 0 < length (c_windows c) ≤ 128 →
  gadget σ (multiply_generator c bits) (λ R, ∃ r, generator_ref c vs = Ok r ∧ PT R r).
Proof.
  intros HF Hl Hw. pose proof (Forall2_length _ _ _ HF) as Hl'. unfold multiply_generator.
  eapply gadget_bind; [apply gadget_assert, Nat.eqb_eq; lia|]. intros _ _.
  set (sum_of (l : list Affine) := match l with
    | [] => None
    | e :: l => Some (foldM chord e l)
    end).
  eapply gadget_bind.
  { apply (gadget_foldM σ _ _ _ (λ done sum,
      match sum with
      | None => done = []
      | Some P => ∃ r, sum_of (take (length done) (window_entries c vs)) = Some (Ok r) ∧ PT P r
      end)); [done|].
    intros done [i [[[e0 e1] e2] e3]] sum Hp Hs. apply prefix_snoc_lookup in Hp as [Hi _].
    apply list_lookup_imap_Some in Hi as (w & Ew & [= -> <-]). set (i := length done) in *.
    assert (i < 128) as Hi by (apply lookup_lt_Some in Ew; lia).
    destruct (lookup_lt_is_Some_2 bits (254 - 2 * i)) as [bh Eh]; [lia|].
    destruct (lookup_lt_is_Some_2 bits (255 - 2 * i)) as [bl El]; [lia|].
    destruct (Forall2_lookup_l _ _ _ _ _ HF Eh) as (h & Eh' & Hh).
    destruct (Forall2_lookup_l _ _ _ _ _ HF El) as (l & El' & Hl0).
    assert (window_entries c vs !! i = Some (window_entry (e0, e1, e2, e3) h l)) as Ee.
    { unfold window_entries. rewrite list_lookup_imap, Ew. cbn [fmap option_fmap option_map].
      unfold digit. by rewrite Eh', El'. }
    apply gadget_ns.
    eapply gadget_bind; [by apply gadget_index_nth|]. intros ? ->.
    eapply gadget_bind; [by apply gadget_index_nth|]. intros ? ->.
    step gadget_mul as both Eboth.
    assert (D both (of_bool h * of_bool l)%S) as Hboth by (unfold denotes in *; by rewrite Eboth, Hh, Hl0).
    pose proof (window_sem D (bit bl) (bit bh) both h l e0 e1 e2 e3 Hl0 Hh Hboth) as He.
    rewrite length_app, Nat.add_1_r. fold i. rewrite (take_S_r _ _ _ Ee).
    destruct sum as [P|].
    - destruct Hs as (r & Er & HP).
      eapply gadget_bind; [apply gadget_ns, gadget_add; [exact HP|exact He]|].
      intros R (r' & Er' & HR). apply gadget_ret. exists r'. split; [|done].
      destruct (take i (window_entries c vs)) as [|e l'] eqn:Et; [done|].
      cbn [app sum_of] in *. injection Er as Er. rewrite foldM_app, Er. cbn [mbind outcome_bind foldM].
      by rewrite Er'.
    - unfold i. rewrite Hs. apply gadget_ret. exists (window_entry (e0, e1, e2, e3) h l). done. }
  intros sum Hs. destruct sum as [P|].
  2: { apply (f_equal length) in Hs. rewrite length_imap in Hs. cbn in Hs. lia. }
  destruct Hs as (r & Er & HP). rewrite length_imap, take_ge in Er
    by (unfold window_entries; by rewrite length_imap).
  eapply gadget_mono; [apply gadget_ns, gadget_add; [exact HP|apply (pt_constant _)]|].
  intros R (r' & Er' & HR). exists r'. split; [|done]. unfold generator_ref.
  destruct (window_entries c vs) as [|e l]; [done|]. cbn [sum_of] in Er. injection Er as ->. done.
Qed.
End PointRules.

Section VerifyRules.
Context `{Bellpepper} (σ : Assignment).
Local Abbreviation D := (denotes σ).

(** The scalars of an accepted signature lie in 1..n. *)
Definition in_order (k : list bool) : Prop := length k = 256 ∧ (0 < bits_int k < be_int ORDER)%Z.

Lemma be_int_ORDER_p : (be_int ORDER < p)%Z.
Proof. by vm_compute. Qed.

Lemma gadget_in_order name bits vs :
  bits_are D bits vs → length vs = 256 →
  gadget σ (ns (name +:+ " below n") (less_than bits ORDER) ;;
            ns (name +:+ " not zero") (nonzero (pack bits))) (λ _, in_order vs).
Proof.
  intros HF Hl. eapply gadget_bind; [apply gadget_ns, gadget_less_than; [done|by rewrite Hl]|].
  intros ? Hn. eapply gadget_mono; [apply gadget_ns, gadget_nonzero|].
  intros ? N. rewrite (pack_sem D _ _ HF) in N. split; [done|].
  pose proof (bits_int_range vs). split; [|done].
  destruct (Z.eq_dec (bits_int vs) 0%Z) as [E|]; [|lia]. rewrite E, of_int_0 in N. done.
Qed.

End VerifyRules.

(** * The native values are the reference's points *)
Section ReferenceValues.
Context `{ScalarField}.
Add Field scalar_field : scalar_field_theory (morphism of_int_morph, constants [scalar_const]).
Implicit Types p q a d : Affine.

Lemma chord_values p q r : chord p q = Ok r →
  (ax q - ax p)%S ≠ ZERO ∧
  (add_values [] p q).2 = [inverse (ax q - ax p); (ay q - ay p) / (ax q - ax p); ax r; ay r]%S ∧
  r = on_slope ((ay q - ay p) / (ax q - ax p))%S p (ax q) ∧ r = (add_values [] p q).1.
Proof.
  unfold chord. destruct (decide _) as [|N]; [done|]. intros [= <-].
  assert (ax q - ax p ≠ ZERO)%S as Nd by (intros E; apply N; symmetry; by apply sc_sub_0).
  assert ((ay q - ay p) * inverse (ax q - ax p) = (ay q - ay p) / (ax q - ax p))%S as El by done.
  unfold add_values, on_slope. cbn [fst snd app ax ay]. rewrite El, square_mul. done.
Qed.

Lemma tangent_values p r : tangent p = Ok r →
  let l := ((of_int 3 * (ax p * ax p) - of_int 3) / (of_int 2 * ay p))%S in
  ay p ≠ ZERO ∧
  (double_values [] p).2 = [(ax p * ax p)%S; l; ax r; ay r] ∧
  r = on_slope l p (ax p) ∧ r = (double_values [] p).1.
Proof.
  unfold tangent. destruct (decide _) as [|N]; [done|]. intros [= <-]. cbv zeta.
  set (l := ((of_int 3 * (ax p * ax p) - of_int 3) / (of_int 2 * ay p))%S). split; [done|].
  assert ((Field.double (square (ax p)) + square (ax p) - from_u64 3) * inverse (Field.double (ay p)) = l)%S as El.
  { rewrite !double_add, square_mul, from_u64_3, inverse_sc_inv. unfold l, sc_div.
    replace (ay p + ay p)%S with (of_int 2 * ay p)%S by ring. ring. }
  unfold double_values, on_slope. cbn [fst snd app ax ay]. rewrite El, !square_mul. done.
Qed.

(** One bit's values. *)
Definition bit_values a p (b : bool) : Affine * Values :=
  let '(doubled, values) := double_values [] a in
  let '(added, values) := add_values values doubled p in
  choose_values values b doubled added.

Lemma multiply_bit_values p a v r : multiply_bit p a v = Ok r →
  ∃ d e, tangent a = Ok d ∧ chord d p = Ok e ∧ r = (if v then e else d) ∧
    r = (bit_values a p v).1 ∧
    (bit_values a p v).2 = (double_values [] a).2 ++ (add_values [] d p).2 ++ (choose_values [] v d e).2.
Proof.
  unfold multiply_bit.
  destruct (tangent a) as [d| |] eqn:Ed; [|done..]. cbn [mbind outcome_bind].
  destruct (chord d p) as [e| |] eqn:Ee; [|done..]. cbn [mbind outcome_bind]. intros [= <-].
  exists d, e. do 3 (split; [done|]).
  destruct (tangent_values _ _ Ed) as (_ & _ & _ & E1). destruct (chord_values _ _ _ Ee) as (_ & _ & _ & E2).
  rewrite E2, E1. unfold bit_values, double_values, add_values, choose_values. cbn [fst snd].
  by rewrite <-!app_assoc.
Qed.

Lemma multiply_steps_snoc vs v start p :
  multiply_steps [] (vs ++ [v]) start p
  = let '(acc, values) := multiply_steps [] vs start p in
    ((bit_values acc p v).1, values ++ (bit_values acc p v).2).
Proof.
  unfold multiply_steps. rewrite foldl_app. destruct (foldl _ _ vs) as [acc values].
  cbn [foldl]. unfold bit_values, double_values, add_values, choose_values. cbn [fst snd].
  by rewrite <-!app_assoc.
Qed.

Lemma multiply_steps_ref vs start p r :
  foldM (multiply_bit p) start vs = Ok r → r = (multiply_steps [] vs start p).1.
Proof.
  revert r. induction vs as [|v vs IH] using rev_ind; intros r; [by intros [= <-]|].
  rewrite foldM_app, multiply_steps_snoc. destruct (foldM _ _ vs) as [a| |]; [|done..].
  specialize (IH a eq_refl). destruct (multiply_steps [] vs start p) as [acc values].
  cbn [fst mbind outcome_bind foldM] in *. subst a. destruct (multiply_bit p acc v) as [r'| |] eqn:E; [|done..].
  intros [= <-]. by destruct (multiply_bit_values _ _ _ _ E) as (? & ? & _ & _ & _ & ? & _).
Qed.

(** A loop that ends well went well up to every element. *)
Lemma foldM_prefix {A B E} (f : B → A → outcome E B) b l r k x :
  foldM f b l = Ok r → l !! k = Some x →
  ∃ y y' : B, foldM f b (take k l) = Ok y ∧ f y x = Ok y' ∧ foldM f b (take (S k) l) = Ok y'.
Proof.
  intros Hr Hx. rewrite <-(take_drop_middle _ _ _ Hx), foldM_app in Hr.
  destruct (foldM f b (take k l)) as [y| |] eqn:Ey; [|done..]. cbn [mbind outcome_bind foldM] in Hr.
  destruct (f y x) as [y'| |] eqn:Ef; [|done..]. exists y, y'. split_and!; [done..|].
  rewrite (take_S_r _ _ _ Hx), foldM_app, Ey. cbn [mbind outcome_bind foldM]. by rewrite Ef.
Qed.
End ReferenceValues.

(** * Honest runs *)
Section PointHonest.
Context `{Bellpepper}.
Add Field scalar_field : scalar_field_theory (morphism of_int_morph, constants [scalar_const]).

Lemma pt_push s vs P a : pt (knows s) P a → pt (knows (push s vs)) P a.
Proof. intros [? ?]. split; by apply knows_push. Qed.

Lemma emits_from_slope s lambda P other_x l p ox :
  knows s lambda l → pt (knows s) P p → knows s other_x ox →
  emits (from_slope lambda P other_x) s [ax (on_slope l p ox); ay (on_slope l p ox)]
    (λ r s', pt (knows s') r (on_slope l p ox)).
Proof.
  intros Hl [Hx Hy] Ho. unfold from_slope.
  rewrite (proj1 Hl), (proj1 Hx), (proj1 Hy), (proj1 Ho).
  cbn [val mapM fmap option_fmap option_map mbind option_bind mret option_ret on3].
  eapply (emits_bind _ _ _ [_] [_]); [apply emits_ns, emits_alloc_lc|]. intros x Kx.
  eapply emits_bind_l.
  { apply emits_ns. eapply emits_product; [by apply knows_push..| |].
    - apply knows_add; [apply knows_add; [exact Kx|by apply knows_push]|by apply knows_push].
    - unfold on_slope. cbn [ax]. ring. }
  intros [] _. rewrite (proj1 Kx). cbn [val mapM fmap option_fmap option_map mbind option_bind mret option_ret on4].
  eapply emits_bind_r; [apply emits_ns, emits_alloc_lc|]. intros y Ky.
  eapply emits_bind_l.
  { apply emits_ns. eapply emits_product; [by do 2 apply knows_push| | |].
    - apply knows_sub; [by do 2 apply knows_push|apply knows_push; exact Kx].
    - apply knows_add; [exact Ky|by do 2 apply knows_push].
    - unfold on_slope. cbn [ax ay]. ring. }
  intros [] _. apply emits_ret. split; [by apply knows_push|exact Ky].
Qed.

Lemma emits_add s P Q p q r :
  has_one s → pt (knows s) P p → pt (knows s) Q q → chord p q = Ok r →
  emits (add P Q) s (add_values [] p q).2 (λ R s', pt (knows s') R r).
Proof.
  intros Ho HP HQ Hr. destruct (chord_values _ _ _ Hr) as (Nd & Ev & Es & _). rewrite Ev.
  set (l := ((ay q - ay p) / (ax q - ax p))%S) in *.
  pose proof HP as [Hx Hy]. pose proof HQ as [Hx' Hy']. unfold add.
  assert (knows s (sub_lc (px Q) (px P)) (ax q - ax p)%S) as Kdx by by apply knows_sub.
  assert (knows s (sub_lc (py Q) (py P)) (ay q - ay p)%S) as Kdy by by apply knows_sub.
  eapply (emits_bind _ _ _ [_] [_; _; _]); [apply emits_ns, emits_nonzero; done|]. intros [] _.
  rewrite (proj1 Kdx), (proj1 Kdy). cbn [val mapM fmap option_fmap option_map mbind option_bind mret option_ret on2].
  change ((ay q - ay p) * inverse (ax q - ax p))%S with l.
  eapply (emits_bind _ _ _ [_] [_; _]); [apply emits_ns, emits_alloc_lc|]. intros lambda Kl.
  eapply emits_bind_l.
  { apply emits_ns. eapply emits_product; [exact Kl|by do 2 apply knows_push..|].
    unfold l. field. done. }
  intros [] _. subst r.
  apply emits_ns, emits_from_slope; [exact Kl|split; by do 2 apply knows_push|by do 2 apply knows_push].
Qed.

Lemma emits_double s P p r :
  has_one s → pt (knows s) P p → tangent p = Ok r →
  emits (double P) s (double_values [] p).2 (λ R s', pt (knows s') R r).
Proof.
  intros Ho HP Hr. destruct (tangent_values _ _ Hr) as (N & Ev & Es & _). rewrite Ev.
  set (l := ((of_int 3 * (ax p * ax p) - of_int 3) / (of_int 2 * ay p))%S) in *.
  pose proof HP as [Hx Hy]. unfold double.
  eapply (emits_bind _ _ _ [_] [_; _; _]); [apply emits_ns, emits_mul; done|]. intros xx Kxx.
  set (rise := sub_lc (scale xx (from_u64 3)) (small 3)). set (run := scale (py P) (from_u64 2)).
  assert (knows (push s [(ax p * ax p)%S]) rise (of_int 3 * (ax p * ax p) - of_int 3)%S) as Kr.
  { unfold rise, small. eapply knows_eq; [apply knows_sub; [apply knows_scale, Kxx|by apply knows_constant]|].
    rewrite from_u64_3. ring. }
  assert (knows (push s [(ax p * ax p)%S]) run (of_int 2 * ay p)%S) as Kn.
  { unfold run. eapply knows_eq; [apply knows_scale, knows_push, Hy|].
    rewrite from_u64_of_int by done. ring. }
  rewrite (proj1 Kr), (proj1 Kn). cbn [val mapM fmap option_fmap option_map mbind option_bind mret option_ret on2].
  change ((of_int 3 * (ax p * ax p) - of_int 3) * inverse (of_int 2 * ay p))%S with l.
  eapply (emits_bind _ _ _ [_] [_; _]); [apply emits_ns, emits_alloc_lc|]. intros lambda Kl.
  eapply emits_bind_l.
  { apply emits_ns. eapply emits_product; [exact Kl|by apply knows_push..|].
    unfold l. field. split; [done|apply two_nonzero]. }
  intros [] _. subst r.
  apply emits_ns, emits_from_slope; [exact Kl|split; by do 2 apply knows_push|by do 2 apply knows_push].
Qed.

Lemma emits_choose s b v P Q p q :
  knows s (bit b) (of_bool v) → pt (knows s) P p → pt (knows s) Q q →
  emits (choose b P Q) s (choose_values [] v p q).2
    (λ R s', pt (knows s') R (if v then q else p)).
Proof.
  intros Hb [Hx Hy] [Hx' Hy']. unfold choose, choose_values. cbn [snd app].
  assert (∀ f t : Scalar, (f + of_bool v * (t - f))%S = if v then t else f) as Hsel
    by (intros; destruct v; cbn [of_bool]; ring).
  pose proof (emits_mux s (bit b) (px Q) (px P) _ _ _ Hb Hx Hx') as E1. rewrite Hsel in E1.
  assert ([ax (if v then q else p); ay (if v then q else p)]
    = [if v then ax q else ax p] ++ [if v then ay q else ay p]) as -> by by destruct v.
  eapply emits_bind; [apply emits_ns, E1|]. intros x Kx.
  pose proof (emits_mux (push s [if v then ax q else ax p]) (bit b) (py Q) (py P) _ _ _
    (knows_push _ _ _ _ Hb) (knows_push _ _ _ _ Hy) (knows_push _ _ _ _ Hy')) as E2. rewrite Hsel in E2.
  eapply emits_bind_r; [apply emits_ns, E2|]. intros y Ky. apply emits_ret.
  split; cbn [px py]; [apply knows_push|]; by destruct v.
Qed.
End PointHonest.

Section MultiplyHonest.
Context `{Bellpepper}.

Lemma emits_multiply_bit s acc a P p b v r :
  has_one s → pt (knows s) acc a → pt (knows s) P p → knows s (bit b) (of_bool v) →
  multiply_bit p a v = Ok r →
  emits (doubled ← ns "double" (double acc);
         added ← ns "add" (add doubled P);
         ns "choose" (choose b doubled added)) s (bit_values a p v).2
    (λ R s', pt (knows s') R r).
Proof.
  intros Ho Ha HP Hb Hr. destruct (multiply_bit_values _ _ _ _ Hr) as (d & e & Ed & Ee & -> & _ & ->).
  eapply emits_bind; [by apply emits_ns, emits_double|]. intros Dbl KD.
  eapply emits_bind; [apply emits_ns, emits_add; [done|exact KD|by apply pt_push|exact Ee]|]. intros Add KA.
  apply emits_ns, emits_choose; [by do 2 apply knows_push|by apply pt_push|done].
Qed.

Lemma emits_multiply s c bits vs P p r :
  has_one s → bits_are (knows s) bits vs → length vs = 256 → pt (knows s) P p →
  multiply_ref c vs p = Ok r →
  r = (multiply_values c [] vs p).1 ∧
  emits (multiply c bits P) s (multiply_values c [] vs p).2 (λ R s', pt (knows s') R r).
Proof.
  intros Ho HF Hl HP. pose proof (Forall2_length _ _ _ HF) as Hl'. unfold multiply_ref.
  destruct (foldM _ _ _) as [acc| |] eqn:Eacc; [|done..]. cbn [mbind outcome_bind]. intros Er.
  rewrite multiply_values_steps. pose proof (multiply_steps_ref _ _ _ _ Eacc) as Ea.
  destruct (multiply_steps [] vs (c_start c) p) as [acc' values] eqn:Est. cbn [fst] in Ea. subst acc'.
  destruct (chord_values _ _ _ Er) as (_ & _ & _ & E1).
  assert (add_values values acc (c_start_removed c)
    = ((add_values [] acc (c_start_removed c)).1, values ++ (add_values [] acc (c_start_removed c)).2)) as -> by done.
  split; [done|]. cbn [snd]. unfold multiply.
  eapply emits_bind_l; [apply emits_assert, Nat.eqb_eq; lia|]. intros _ _.
  eapply emits_bind.
  { set (vals (l : list (nat * Boolean)) := (multiply_steps [] (take (length l) vs) (c_start c) p).2).
    assert (values = vals (imap (λ i b, (i, b)) bits)) as ->.
    { unfold vals. rewrite length_imap, take_ge by lia. by rewrite Est. }
    apply (emits_foldM _ vals _ _ _ (λ done P' s', ∃ a,
      has_one s' ∧ bits_are (knows s') bits vs ∧ pt (knows s') P p ∧
      foldM (multiply_bit p) (c_start c) (take (length done) vs) = Ok a ∧ pt (knows s') P' a)).
    - done.
    - exists (c_start c). split_and!; [done..|]. split; by apply knows_constant.
    - intros done [i b] P' s' Hp (a & Ho' & HF' & HP' & Hfold & Ka).
      apply prefix_snoc_lookup in Hp as [Hi _].
      apply list_lookup_imap_Some in Hi as (b' & Eb & [= -> ->]).
      destruct (Forall2_lookup_l _ _ _ _ _ HF' Eb) as (v & Ev & Hv).
      destruct (foldM_prefix _ _ _ _ _ _ Eacc Ev) as (a0 & a1 & E0 & Ebit & E2).
      rewrite Hfold in E0. injection E0 as <-.
      exists (bit_values a p v).2. rewrite length_app, Nat.add_1_r. split.
      + unfold vals. rewrite length_app, Nat.add_1_r, (take_S_r _ _ _ Ev), multiply_steps_snoc.
        pose proof (multiply_steps_ref _ _ _ _ Hfold) as Ea.
        destruct (multiply_steps [] (take (length done) vs) _ _) as [a' values']. cbn [fst snd] in *. by subst a'.
      + apply emits_ns. eapply emits_mono; [by apply emits_multiply_bit|]. intros R KR.
        exists a1. split_and!; [done|by apply bits_are_push|by apply pt_push|done|done]. }
  intros P' (a & Ho' & _ & _ & Hfold & Ka). rewrite length_imap, take_ge, Eacc in Hfold by lia.
  injection Hfold as <-. apply emits_ns, emits_add; [done|done|split; by apply knows_constant|done].
Qed.
End MultiplyHonest.

Section GeneratorHonest.
Context `{Bellpepper}.

Lemma emits_index_nth {A} (l : list A) i a s :
  l !! i = Some a → emits (index l i) s [] (λ b _, b = a).
Proof. intros E. unfold index. rewrite E. by apply emits_ret. Qed.

Lemma foldM_chord_psum e0 es r : foldM chord e0 es = Ok r → r = foldl sum e0 es.
Proof.
  revert r. induction es as [|e es IH] using rev_ind; intros r; [by intros [= <-]|].
  rewrite foldM_app, foldl_snoc. destruct (foldM chord e0 es) as [a| |]; [|done..].
  rewrite <-(IH a eq_refl). cbn [mbind outcome_bind foldM].
  destruct (chord a e) as [a'| |] eqn:E; [|done..]. intros [= <-]. by apply chord_values in E as (_ & _ & _ & ->).
Qed.

(** What the windows' loop carries: nothing, then the sum of the entries. *)
Definition summed (e0 : Affine) (es : list Affine) (s : Store) (k : nat) (sum : option Point) : Prop :=
  match k, sum with
  | 0, None => True
  | S k, Some P => ∃ r, foldM chord e0 (take k es) = Ok r ∧ pt (knows s) P r
  | _, _ => False
  end.

(** The values of the first [k] windows. *)
Definition window_values (both : nat → bool) (e0 : Affine) (es : list Affine) (k : nat) : list Scalar :=
  match k with 0 => [] | S k => of_bool (both 0%nat) :: (range k ≫= generator_row both e0 es) end.

Lemma emits_multiply_generator s c bits vs r :
  has_one s → bits_are (knows s) bits vs → length vs = 256 → length (c_windows c) ≤ 128 →
  generator_ref c vs = Ok r →
  r = (generator_values c [] vs).1 ∧
  emits (multiply_generator c bits) s (generator_values c [] vs).2 (λ R s', pt (knows s') R r).
Proof.
  intros Ho HF Hl Hw. pose proof (Forall2_length _ _ _ HF) as Hl'. unfold generator_ref.
  destruct (window_entries c vs) as [|e0 es] eqn:Een; [done|].
  destruct (foldM chord e0 es) as [a| |] eqn:Ea; [|done..]. cbn [mbind outcome_bind]. intros Er.
  rewrite generator_values_steps, Een, generator_steps_rows.
  set (both i := (digit vs i).1 && (digit vs i).2).
  pose proof (foldM_chord_psum _ _ _ Ea) as Ep.
  assert (psum e0 es (length es) = a) as -> by (unfold psum; by rewrite take_ge by lia).
  destruct (chord_values _ _ _ Er) as (_ & _ & _ & E1).
  assert (∀ values, add_values values a (c_offsets_removed c)
    = ((add_values [] a (c_offsets_removed c)).1, values ++ (add_values [] a (c_offsets_removed c)).2)) as -> by done.
  split; [done|]. cbn [snd]. unfold multiply_generator.
  assert (length (c_windows c) = S (length es)) as Elen
    by (apply (f_equal length) in Een; unfold window_entries in Een; by rewrite length_imap in Een).
  eapply emits_bind_l; [apply emits_assert, Nat.eqb_eq; lia|]. intros _ _.
  eapply (emits_bind _ _ _ (value_bit [] (both 0%nat) ++ (range (length es) ≫= generator_row both e0 es))).
  { assert (value_bit [] (both 0%nat) ++ (range (length es) ≫= generator_row both e0 es)
      = window_values both e0 es (length (imap (λ i e, (i, e)) (c_windows c)))) as ->
      by (rewrite length_imap, Elen; done).
    apply (emits_foldM _ (λ l, window_values both e0 es (length l)) _ _ _ (λ done sum s',
      has_one s' ∧ bits_are (knows s') bits vs ∧ summed e0 es s' (length done) sum)); [done..|].
    intros done [i [[[w0 w1] w2] w3]] sum s' Hp (Ho' & HF' & Hs).
    apply prefix_snoc_lookup in Hp as [Hi _].
    apply list_lookup_imap_Some in Hi as (w & Ew & [= -> <-]). set (i := length done) in *.
    assert (i < 128) as Hi by (apply lookup_lt_Some in Ew; lia).
    destruct (lookup_lt_is_Some_2 bits (254 - 2 * i)) as [bh Eh]; [lia|].
    destruct (lookup_lt_is_Some_2 bits (255 - 2 * i)) as [bl El]; [lia|].
    destruct (Forall2_lookup_l _ _ _ _ _ HF' Eh) as (h & Eh' & Hh).
    destruct (Forall2_lookup_l _ _ _ _ _ HF' El) as (l & El' & Hl0).
    assert (of_bool h * of_bool l = of_bool (both i))%S as Eb.
    { unfold both, digit. cbn [fst snd]. rewrite Eh', El'. apply of_bool_and. }
    assert ((e0 :: es) !! i = Some (window_entry (w0, w1, w2, w3) h l)) as Ee.
    { rewrite <-Een. unfold window_entries. rewrite list_lookup_imap, Ew. cbn [fmap option_fmap option_map].
      unfold digit. by rewrite Eh', El'. }
    rewrite length_app, Nat.add_1_r. fold i.
    (* the two bits and their product *)
    set (rest := match i with 0 => [] | S k => (add_values [] (psum e0 es k) (at_point es k)).2 end).
    exists (of_bool (both i) :: rest). split.
    { unfold rest. destruct i as [|k]; [done|]. cbn [window_values]. unfold range.
      rewrite (seq_S k 0), bind_app. cbn [mbind list_bind app Nat.add]. rewrite app_nil_r. done. }
    apply emits_ns.
    eapply emits_bind_l; [by apply emits_index_nth|]. intros ? ->.
    eapply emits_bind_l; [by apply emits_index_nth|]. intros ? ->.
    eapply (emits_bind _ _ _ [_] rest); [apply emits_ns; rewrite <-Eb; by apply emits_mul|].
    intros bb Kb. set (s2 := push s' _) in *.
    assert (has_one s2) as Ho2 by by apply has_one_push.
    assert (bits_are (knows s2) bits vs) as HF2 by by apply bits_are_push.
    pose proof (knows_sem s2 Ho2) as Hsem.
    pose proof (window_sem (sem := Hsem) (knows s2) (bit bl) (bit bh) bb h l w0 w1 w2 w3
      (knows_push _ _ _ _ Hl0) (knows_push _ _ _ _ Hh) Kb) as He.
    destruct sum as [P|], i as [|k] eqn:Ei; cbn [summed] in Hs; try done.
    - destruct Hs as (q & Eq & HP).
      destruct (foldM_prefix _ _ _ _ _ _ Ea Ee) as (q' & q'' & Eq' & Ec & Eq'').
      rewrite Eq in Eq'. injection Eq' as <-.
      assert (rest = (add_values [] q (window_entry (w0, w1, w2, w3) h l)).2) as ->.
      { unfold rest, psum, at_point. rewrite <-(foldM_chord_psum _ _ _ Eq).
        change (es !! k = Some (window_entry (w0, w1, w2, w3) h l)) in Ee. rewrite Ee. done. }
      eapply emits_bind_r; [apply emits_ns, emits_add; [done|by apply pt_push|exact He|exact Ec]|].
      intros R KR. apply emits_ret. split_and!; [by apply has_one_push|by apply bits_are_push|].
      cbn [summed]. by exists q''.
    - apply emits_ret. split_and!; [done..|]. cbn [summed]. cbn in Ee. injection Ee as ->.
      exists (window_entry (w0, w1, w2, w3) h l). done. }
  intros sum (Ho' & _ & Hs). rewrite length_imap, Elen in Hs. destruct sum as [P|]; [|done].
  destruct Hs as (q & Eq & HP). rewrite take_ge, Ea in Eq by lia. injection Eq as <-.
  apply emits_ns, emits_add; [done|exact HP|split; by apply knows_constant|done].
Qed.
End GeneratorHonest.

Section VerifyHonest.
Context `{Bellpepper}.

(** The native values are appended to those before. *)
Lemma multiply_values_app c values bits q :
  multiply_values c values bits q
  = ((multiply_values c [] bits q).1, values ++ (multiply_values c [] bits q).2).
Proof.
  rewrite !multiply_values_steps, !multiply_steps_trace. unfold add_values. cbn [fst snd].
  by rewrite <-!app_assoc.
Qed.

Lemma generator_values_app c values bits :
  c_windows c ≠ [] →
  generator_values c values bits
  = ((generator_values c [] bits).1, values ++ (generator_values c [] bits).2).
Proof.
  intros N. rewrite !generator_values_steps.
  assert (window_entries c bits ≠ []) as Ne.
  { intros E. apply N, nil_length_inv. apply (f_equal length) in E. unfold window_entries in E.
    by rewrite length_imap in E. }
  destruct (window_entries c bits) as [|e0 es]; [done|].
  rewrite !generator_steps_rows. unfold add_values, value_bit. cbn [fst snd app].
  by rewrite <-!app_assoc.
Qed.

(** The range checks of a scalar, and their values. *)
Definition in_order_values (bits : list bool) (bytes : list byte) : list Scalar :=
  less_than_values [] bits ORDER ++ [inverse (from_be bytes)].

Lemma emits_in_order s name bits bytes :
  has_one s → bits_are (knows s) bits (be_bits bytes) → length bytes = 32 →
  (0 < be_int bytes < be_int ORDER)%Z →
  emits (ns (name +:+ " below n") (less_than bits ORDER) ;;
         ns (name +:+ " not zero") (nonzero (pack bits))) s (in_order_values (be_bits bytes) bytes)
    (λ _ _, True).
Proof.
  intros Ho HF Hl Hr.
  assert (bits_int (be_bits bytes) = be_int bytes) as Ei by (rewrite be_bits_byte_bits; apply bits_int_bind_byte_bits).
  assert (of_int (be_int bytes) = from_be bytes) as Ef by (symmetry; apply from_be_of_int; lia).
  eapply (emits_bind _ _ _ _ _ (λ _ _, True)).
  { apply emits_ns, emits_less_than; [done..| |lia].
    by rewrite !be_bits_byte_bits, !length_bind_byte_bits, Hl. }
  intros _ _. set (s' := push s _).
  assert (has_one s') as Ho' by by apply has_one_push.
  pose proof (knows_sem s' Ho') as Hsem.
  apply emits_ns, emits_nonzero; [done| |].
  - rewrite <-Ef, <-Ei. apply (pack_sem (knows s')). by apply bits_are_push.
  - rewrite <-Ef. apply of_int_nonzero. pose proof be_int_ORDER_p. lia.
Qed.

(** Booleans with known bits carry them. *)
Lemma known_bits s bits vs : bits_are (knows s) bits vs → mapM Boolean_get_value bits = Some vs.
Proof.
  intros HF. apply mapM_Some. eapply Forall2_impl; [exact HF|]. intros b v [E _]. cbn [bit value] in E.
  destruct (Boolean_get_value b) as [w|]; [|done]. injection E as E. by apply of_bool_inj in E as ->.
Qed.

Lemma length_be_bits bytes : length bytes = 32 → length (be_bits bytes) = 256.
Proof. intros Hl. by rewrite be_bits_byte_bits, length_bind_byte_bits, Hl. Qed.

Lemma emits_verify s c digest z key q sig a :
  has_one s → bits_are (knows s) digest z → length z = 256 →
  0 < length (c_windows c) ≤ 128 → pt (knows s) key q →
  length (sig_r sig) = 32 → length (s_inv sig) = 32 →
  (0 < be_int (sig_r sig) < be_int ORDER)%Z → (0 < be_int (s_inv sig) < be_int ORDER)%Z →
  verify_point c z (be_bits (sig_r sig)) (be_bits (s_inv sig)) q = Ok a → ax a = from_be (sig_r sig) →
  ∃ values, verify_values c digest key (Some sig) = Ok values ∧
    emits (verify c digest key (Some sig)) s values (λ _ _, True).
Proof.
  intros Ho Hz Hlz Hw HQ Hlr Hls Hr Hs Hv Ha. unfold verify_point in Hv.
  destruct (generator_ref c z) as [zg| |] eqn:Ezg; [|done..]. cbn [mbind outcome_bind] in Hv.
  destruct (multiply_ref c (be_bits (sig_r sig)) q) as [rq| |] eqn:Erq; [|done..]. cbn [mbind outcome_bind] in Hv.
  destruct (chord zg rq) as [sm| |] eqn:Esm; [|done..]. cbn [mbind outcome_bind] in Hv.
  destruct (chord_values _ _ _ Esm) as (_ & _ & _ & E1).
  pose proof (length_be_bits _ Hlr) as Lr. pose proof (length_be_bits _ Hls) as Ls.
  set (r := be_bits (sig_r sig)) in *. set (t := be_bits (s_inv sig)) in *.
  set (V1 := in_order_values r (sig_r sig) ++ in_order_values t (s_inv sig)).
  destruct (emits_multiply_generator s c digest z zg Ho Hz Hlz ltac:(lia) Ezg) as [Eg _].
  exists ((of_bool <$> r) ++ (of_bool <$> t) ++ V1 ++ (generator_values c [] z).2
     ++ (multiply_values c [] r q).2 ++ (add_values [] zg rq).2 ++ (multiply_values c [] t sm).2).
  assert (rq = (multiply_values c [] r q).1) as Em.
  { unfold multiply_ref in Erq. destruct (foldM _ _ _) as [acc| |] eqn:Eacc; [|done..].
    rewrite multiply_values_steps. pose proof (multiply_steps_ref _ _ _ _ Eacc) as Ea.
    destruct (multiply_steps _ _ _ _) as [acc' values]. cbn [fst] in Ea. subst acc'.
    by destruct (chord_values _ _ _ Erq) as (_ & _ & _ & ->). }
  split.
  - unfold verify_values. rewrite (known_bits _ _ _ Hz), (proj1 (proj1 HQ)), (proj1 (proj2 HQ)).
    cbn [mbind option_bind mret option_ret ok_or outcome_bind foldl]. fold r t. rewrite !value_bits_of_bool.
    rewrite generator_values_app by (intros E; rewrite E in Hw; cbn in Hw; lia).
    assert ({| ax := ax q; ay := ay q |} = q) as -> by by destruct q.
    rewrite multiply_values_app, <-Em, <-Eg.
    assert (∀ l, add_values l zg rq = (sm, l ++ (add_values [] zg rq).2)) as -> by (intros; by rewrite E1).
    rewrite multiply_values_app. unfold value_push.
    rewrite (less_than_values_emits _ t), (less_than_values_emits _ r).
    unfold V1, in_order_values. by rewrite <-!app_assoc.
  - unfold verify. eapply emits_bind_l; [apply emits_is_witness_generator|]. intros ? ->. fold r t.
    cbn [fmap option_fmap option_map]. rewrite <-Lr.
    eapply emits_bind; [apply emits_ns, emits_alloc_bits, Ho|]. intros rb Kr. rewrite Lr, <-Ls.
    eapply emits_bind; [apply emits_ns, emits_alloc_bits; by apply has_one_push|]. intros tb Kt.
    set (s1 := push (push s _) _) in *.
    assert (has_one s1) as Ho1 by by do 2 apply has_one_push.
    assert (bits_are (knows s1) rb r) as Kr1 by by apply bits_are_push.
    assert (pt (knows s1) key q) as Kq1 by by do 2 apply pt_push.
    assert (bits_are (knows s1) digest z) as Kz1 by by do 2 apply bits_are_push.
    clear Ho Kr Hz HQ Eg.
    eapply (emits_bind _ _ _ V1 _ (λ _ _, True)).
    { cbn [mapM]. eapply (emits_bind _ _ _ _ _ (λ _ _, True)); [by apply emits_in_order|]. intros ? _.
      eapply (emits_bind_r _ _ _ _ (λ _ _, True)); [|intros ? ?; by apply emits_ret].
      eapply (emits_bind_r _ _ _ _ (λ _ _, True)); [|intros ? ?; by apply emits_ret].
      apply emits_in_order; [by apply has_one_push|by apply bits_are_push|done..]. }
    intros _ _. set (s2 := push s1 _) in *.
    assert (has_one s2) as Ho2 by by apply has_one_push.
    eapply emits_bind.
    { eapply emits_ns, (emits_multiply_generator s2 c digest z zg); [done|by apply bits_are_push|done|lia|done]. }
    intros ZG Kg. set (s3 := push s2 _) in *.
    assert (has_one s3) as Ho3 by by apply has_one_push.
    eapply emits_bind.
    { eapply emits_ns, (emits_multiply s3 c rb r key q rq);
        [done|by do 2 apply bits_are_push|done|by do 2 apply pt_push|done]. }
    intros RQ Kq. set (s4 := push s3 _) in *.
    eapply emits_bind.
    { eapply emits_ns, emits_add; [by apply has_one_push|apply pt_push, Kg|exact Kq|done]. }
    intros SM Ks. set (s5 := push s4 _) in *.
    assert (has_one s5) as Ho5 by by do 2 apply has_one_push.
    eapply emits_bind_r.
    { eapply emits_ns, (emits_multiply s5 c tb t SM sm a); [done|by do 4 apply bits_are_push|done|done|done]. }
    intros A Ka. set (s6 := push s5 _) in *.
    assert (has_one s6) as Ho6 by by apply has_one_push.
    apply emits_ns, (emits_equal _ _ _ (ax a)); [done|apply Ka|].
    pose proof (knows_sem s6 Ho6) as Hsem.
    rewrite Ha, from_be_of_int by lia. rewrite <-bits_int_bind_byte_bits, <-be_bits_byte_bits. fold r.
    apply (pack_sem (knows s6)). by do 5 apply bits_are_push.
Qed.
End VerifyHonest.

(** * On P-256 the formulas are defined *)
Section P256Curve.
Context `{ScalarField}.
Add Field scalar_field : scalar_field_theory (morphism of_int_morph, constants [scalar_const]).
Local Abbreviation on_p256 := (on_curve (of_int b256)).

(** The constants are points of the curve. *)
Record constants_on_curve (c : Constants) : Prop := {
  start_on_curve : on_p256 (c_start c);
  start_removed_on_curve : on_p256 (c_start_removed c);
  windows_on_curve : Forall (λ '(e0, e1, e2, e3), on_p256 e0 ∧ on_p256 e1 ∧ on_p256 e2 ∧ on_p256 e3) (c_windows c);
  offsets_removed_on_curve : on_p256 (c_offsets_removed c);
}.

Lemma chord_not_vertical p q : chord p q ≠ Err ZeroY.
Proof. unfold chord. by destruct (decide _). Qed.

Lemma chords_not_vertical a es : foldM chord a es ≠ Err ZeroY.
Proof.
  revert a. induction es as [|x es IH]; intros a; [done|]. cbn [foldM]. pose proof (chord_not_vertical a x).
  destruct (chord a x) as [b|[]|]; [apply IH|done..].
Qed.

Lemma tangent_defined p : on_p256 p → tangent p ≠ Err ZeroY.
Proof.
  unfold tangent, on_curve. destruct (decide _) as [E|]; [|done]. rewrite E. intros C _.
  apply (no_order_two (ax p)).
  transitivity (ax p * ax p * ax p - of_int 3 * ax p + of_int b256)%S; [done|]. rewrite <-C. ring.
Qed.

Lemma multiply_bit_defined p acc b : on_p256 acc → multiply_bit p acc b ≠ Err ZeroY.
Proof.
  intros Hc. unfold multiply_bit. pose proof (tangent_defined acc Hc) as N.
  destruct (tangent acc) as [d|[]|]; [|done..]. cbn [mbind outcome_bind].
  pose proof (chord_not_vertical d p). by destruct (chord d p) as [|[]|].
Qed.

Lemma multiply_defined c bits p :
  on_p256 (c_start c) → on_p256 p → multiply_ref c bits p ≠ Err ZeroY.
Proof.
  intros Hc Hp. unfold multiply_ref.
  assert (foldM (multiply_bit p) (c_start c) bits ≠ Err ZeroY) as N.
  { revert Hc. generalize (c_start c). induction bits as [|b bits IH]; intros acc Hc; [done|]. cbn [foldM].
    pose proof (multiply_bit_defined p acc b Hc) as N.
    destruct (multiply_bit p acc b) as [acc'|[]|] eqn:E; [|done..]. cbn [mbind outcome_bind]. apply IH.
    unfold multiply_bit in E. destruct (tangent acc) as [d| |] eqn:Ed; [|done..]. cbn [mbind outcome_bind] in E.
    destruct (chord d p) as [a| |] eqn:Ea; [|done..]. injection E as <-.
    pose proof (tangent_on_curve _ _ _ Hc Ed). destruct b; [|done]. by eapply (chord_on_curve _ d p). }
  destruct (foldM _ _ _) as [acc|[]|]; [|done..]. apply chord_not_vertical.
Qed.

Lemma generator_on_curve c bits r :
  constants_on_curve c → generator_ref c bits = Ok r → on_p256 r.
Proof.
  intros Hc. unfold generator_ref.
  assert (Forall on_p256 (window_entries c bits)) as HF.
  { apply list.Forall_forall. intros a Ha. apply list_elem_of_lookup in Ha as [i Hi].
    unfold window_entries in Hi. rewrite list_lookup_imap in Hi.
    destruct (c_windows c !! i) as [[[[e0 e1] e2] e3]|] eqn:Ew; [|done]. injection Hi as <-.
    pose proof (Forall_lookup_1 _ _ _ _ (windows_on_curve c Hc) Ew) as (?&?&?&?).
    by destruct (default false (bits !! (254 - _)%nat)), (default false (bits !! (255 - _)%nat)). }
  destruct (window_entries c bits) as [|e es]; [done|]. apply list.Forall_cons_1 in HF as [He HF].
  destruct (foldM chord e es) as [a| |] eqn:Ea; [|done..]. cbn [mbind outcome_bind]. intros Er.
  eapply chord_on_curve; [|apply (offsets_removed_on_curve c Hc)|exact Er].
  eapply (foldM_invariant chord on_p256); [exact He| |exact Ea].
  intros q x q' Hq Hx Eq. eapply chord_on_curve; [exact Hq| |exact Eq].
  by eapply (proj1 (list.Forall_forall _ _) HF).
Qed.

(** No run of the formulas meets a vertical tangent. *)
Lemma verify_defined c z r s q :
  constants_on_curve c → on_p256 q →
  verify_point c z r s q ≠ Err ZeroY.
Proof.
  intros Hc Hq. unfold verify_point.
  assert (generator_ref c z ≠ Err ZeroY) as Ng.
  { unfold generator_ref. destruct (window_entries c z) as [|e es]; [done|].
    pose proof (chords_not_vertical e es) as N.
    destruct (foldM chord e es) as [a|[]|]; [|done..]. apply chord_not_vertical. }
  destruct (generator_ref c z) as [zg|[]|] eqn:Ezg; [|done..]. cbn [mbind outcome_bind].
  pose proof (multiply_defined c r q (start_on_curve c Hc) Hq) as Nm.
  destruct (multiply_ref c r q) as [rq|[]|] eqn:Erq; [|done..]. cbn [mbind outcome_bind].
  pose proof (chord_not_vertical zg rq) as Nc.
  destruct (chord zg rq) as [sm|[]|] eqn:Esm; [|done..]. cbn [mbind outcome_bind]. apply multiply_defined; [apply (start_on_curve c Hc)|].
  eapply chord_on_curve; [| |exact Esm]; [by eapply generator_on_curve|].
  eapply multiply_on_curve; [apply (start_on_curve c Hc)|apply (start_removed_on_curve c Hc)|exact Hq|exact Erq].
Qed.
End P256Curve.

(** * Properties *)
Section VerifyProperties.
Context `{Bellpepper}.
Local Abbreviation on_p256 := (on_curve (of_int b256)).

(** The rules after the bits of r and s⁻¹ are allocated. *)
Definition verify_rules (c : Constants) (digest : list Boolean) (key : Point) (r s_inv : list Boolean)
    : Synth unit :=
  mapM (λ '(name, bits),
    ns (name +:+ " below n") (less_than bits ORDER) ;;
    ns (name +:+ " not zero") (nonzero (pack bits)))
    [("r"%string, r); ("s inverse"%string, s_inv)] ;;
  z_g ← ns "z G" (multiply_generator c digest);
  r_q ← ns "r Q" (multiply c r key);
  sum ← ns "z G + r Q" (add z_g r_q);
  point ← ns "s inverse times the sum" (multiply c s_inv sum);
  ns "x equals r" (equal (px point) (pack r)).

(** The equation that the rules stand for. *)
Definition accepts (c : Constants) (z r s : list bool) (q : Affine) : Prop :=
  in_order r ∧ in_order s ∧ ∃ a, verify_point c z r s q = Ok a ∧ ax a = of_int (bits_int r).

Lemma gadget_verify_rules (σ : Assignment) c digest z key q rb r sb s :
  constants_on_curve c → 0 < length (c_windows c) ≤ 128 →
  bits_are (denotes σ) digest z → length z = 256 → pt (denotes σ) key q →
  bits_are (denotes σ) rb r → length r = 256 → bits_are (denotes σ) sb s → length s = 256 →
  gadget σ (verify_rules c digest key rb sb) (λ _, on_p256 q → accepts c z r s q).
Proof.
  intros Hc Hw Hz Hlz Hq Hr Hlr Hs Hls. unfold verify_rules.
  eapply (gadget_bind _ _ _ (λ _, in_order r ∧ in_order s)).
  { cbn [mapM]. eapply gadget_bind; [by apply gadget_in_order|]. intros ? Hr0.
    eapply gadget_bind; [|intros l Hl; apply gadget_ret; exact Hl].
    eapply gadget_bind; [by apply gadget_in_order|]. intros ? Hs0. by apply gadget_ret. }
  intros ? [Hr0 Hs0].
  eapply gadget_bind; [apply gadget_ns, gadget_multiply_generator; done|]. intros zg (za & Ez & Hza).
  eapply gadget_bind; [apply gadget_ns, gadget_multiply; done|]. intros rq (ra & Hra & Er).
  eapply gadget_bind; [apply gadget_ns, gadget_add; done|]. intros sum (sa & Es & Hsa).
  eapply gadget_bind; [apply gadget_ns, gadget_multiply; done|]. intros P (pa & Ha & Ea).
  eapply gadget_mono; [apply gadget_ns, gadget_equal|]. intros [] Ex Hcq.
  pose proof (verify_defined c z r s q Hc Hcq) as Hdef. unfold verify_point in Hdef.
  split; [done|]. split; [done|]. exists pa.
  unfold verify_point. rewrite Ez in Hdef |- *. cbn [mbind outcome_bind] in Hdef |- *.
  destruct Er as [Er|Er]; rewrite Er in Hdef |- *; [|done]. cbn [mbind outcome_bind] in Hdef |- *.
  rewrite Es in Hdef |- *. cbn [mbind outcome_bind] in Hdef |- *.
  destruct Ea as [Ea|Ea]; rewrite Ea in Hdef |- *; [|done]. split; [done|].
  pose proof (pack_sem (denotes σ) _ _ Hr) as Ep. unfold denotes in Ep. rewrite Ep in Ex.
  rewrite <-Ex. symmetry. apply (proj1 Ha).
Qed.

(** The rules of [verify], for a key that need not be known to lie on the
    curve yet. *)
Lemma gadget_verify (σ : Assignment) c digest z key q signature :
  constants_on_curve c → 0 < length (c_windows c) ≤ 128 →
  bits_are (denotes σ) digest z → length z = 256 → pt (denotes σ) key q →
  (∀ s, signature = Some s → length (sig_r s) = 32 ∧ length (s_inv s) = 32) →
  gadget σ (verify c digest key signature) (λ _, on_p256 q → ∃ r s, accepts c z r s q).
Proof.
  intros Hc Hw Hz Hlz Hq Hsig. unfold verify. step gadget_is_witness_generator as ? ->.
  eapply gadget_bind; [apply gadget_ns, gadget_alloc_bits|].
  { intros bs. destruct signature as [s|]; [|done]. intros [= <-]. apply length_be_bits, (Hsig s), eq_refl. }
  intros r (rv & Hr & Hlr).
  eapply gadget_bind; [apply gadget_ns, gadget_alloc_bits|].
  { intros bs. destruct signature as [s|]; [|done]. intros [= <-]. apply length_be_bits, (Hsig s), eq_refl. }
  intros s (sv & Hs & Hls).
  eapply gadget_mono; [by apply (gadget_verify_rules σ c digest z key q r rv s sv)|].
  intros ? Ha Hcq. exists rv, sv. by apply Ha.
Qed.

(** C32: Whoever assigns the slots, the rules of [verify] force the equation of
    ECDSA: for some r and s⁻¹ from 1 to n − 1, the computation
    s⁻¹ · (z · G + r · Q) is defined at every step and its x-coordinate is r.
    The constants and the key are points of the curve, so that no doubling
    meets a vertical tangent, whose slope the rules would leave free. *)
Theorem verify_sound (σ : Assignment) c digest z key q signature :
  constants_on_curve c → 0 < length (c_windows c) ≤ 128 →
  bits_are (denotes σ) digest z → length z = 256 →
  pt (denotes σ) key q → on_p256 q →
  (∀ s, signature = Some s → length (sig_r s) = 32 ∧ length (s_inv s) = 32) →
  gadget σ (verify c digest key signature) (λ _, ∃ r s, accepts c z r s q).
Proof.
  intros Hc Hw Hz Hlz Hq Hcq Hsig.
  eapply gadget_mono; [by apply (gadget_verify σ c digest z key q)|]. intros ? Ha. by apply Ha.
Qed.

Lemma knows_denotes (σ : Assignment) st x v : agrees σ st → knows (store st) x v → denotes σ x v.
Proof.
  intros Hσ [_ [Hw Hv]]. unfold denotes, lval, eval in *. rewrite <-Hv. apply lc_eval_terms_agree.
  intros w Hin. destruct (within_out _ _ _ Hw Hin) as [y Hy].
  rewrite (recorded_lookup _ _ _ Hy). apply Hσ. by rewrite cs_lookup_store.
Qed.
Lemma knows_bits_denotes (σ : Assignment) st bs vs :
  agrees σ st → bits_are (knows (store st)) bs vs → bits_are (denotes σ) bs vs.
Proof. intros Hσ HF. eapply Forall2_impl; [exact HF|]. intros b v. by apply knows_denotes. Qed.

(** What a check recorded, as an assignment. *)
Lemma recorded_assignment st st' :
  has_one (store st) → continues st st' → ∃ σ : Assignment, agrees σ st'.
Proof.
  intros Ho [_ [l Hi]].
  assert (recorded (store st') (Input 0) = ONE) as E.
  { apply recorded_lookup. cbn. rewrite Hi. by apply lookup_app_l_Some. }
  exists {| assign := recorded (store st'); assign_one := E |}. apply agrees_recorded.
Qed.

(** An honest prover's run of [verify] on known values. *)
Section Exact.
Variables (st : CheckState) (c : Constants) (digest : list Boolean) (z : list bool).
Variables (key : Point) (q : Affine) (sig : Signature).
Hypotheses (Ho : has_one (store st)) (Hb : cs_broken st = None).
Hypotheses (Hc : constants_on_curve c) (Hw : 0 < length (c_windows c) ≤ 128).
Hypotheses (Hz : bits_are (knows (store st)) digest z) (Hlz : length z = 256).
Hypotheses (Hq : pt (knows (store st)) key q) (Hcq : on_p256 q).
Hypotheses (Hlr : length (sig_r sig) = 32) (Hls : length (s_inv sig) = 32).
Local Abbreviation accepted := (accepts c z (be_bits (sig_r sig)) (be_bits (s_inv sig)) q).

Lemma verify_complete :
  accepted →
  ∃ values, verify_values c digest key (Some sig) = Ok values ∧
    run (verify c digest key (Some sig)) st = (Ok tt, cs_push st values).
Proof.
  assert (∀ bytes, bits_int (be_bits bytes) = be_int bytes) as Ebits
    by (intros; by rewrite be_bits_byte_bits, bits_int_bind_byte_bits).
  intros ([_ Hr] & [_ Hs] & a & Ea & Ex). rewrite Ebits in Hr, Hs, Ex.
  destruct (emits_verify (store st) c digest z key q sig a) as (values & Ev & He); try done.
  { rewrite Ex. symmetry. apply from_be_of_int. lia. }
  exists values. split; [done|]. by apply emits_run in He as ([] & R & _).
Qed.

Lemma verify_unbroken st' :
  run (verify c digest key (Some sig)) st = (Ok tt, st') → cs_broken st' = None → accepted.
Proof.
  intros R Hb'. set (sr := be_bits (sig_r sig)) in *. set (ss := be_bits (s_inv sig)) in *.
  assert (verify c digest key (Some sig) = (generator ← is_witness_generator;
    if generator : bool then lift (verify_values c digest key (Some sig)) ≫= extend_aux
    else r ← ns "r" (alloc_bits (Some sr) 256); s ← ns "s inverse" (alloc_bits (Some ss) 256);
         verify_rules c digest key r s)) as E by done.
  rewrite E, run_bind in R. cbn [run is_witness_generator] in R.
  assert (length sr = 256) as Lr by by apply length_be_bits.
  assert (length ss = 256) as Ls by by apply length_be_bits.
  pose proof (emits_ns "r" _ _ _ _ (emits_alloc_bits (store st) sr Ho)) as He.
  apply emits_run in He as (rb & R1 & K1); [|done]. rewrite Lr in R1. rewrite run_bind, R1 in R.
  set (st1 := cs_push st _) in *.
  pose proof (has_one_push (store st) (of_bool <$> sr) Ho : has_one (store st1)) as Ho1.
  pose proof (emits_ns "s inverse" _ _ _ _ (emits_alloc_bits (store st1) ss Ho1)) as He.
  apply emits_run in He as (sb & R2 & K2); [|done]. rewrite Ls in R2. rewrite run_bind, R2 in R.
  set (st2 := cs_push st1 _) in *.
  pose proof (has_one_push (store st1) (of_bool <$> ss) Ho1 : has_one (store st2)) as Ho2.
  destruct (run_unbroken (recorded (store st')) _ _ _ _ R Hb') as (_ & Hcont & _).
  destruct (recorded_assignment st2 st' Ho2 Hcont) as [σ Hσ].
  pose proof (agrees_continues _ _ _ Hcont Hσ) as Hσ2.
  pose proof (run_satisfies σ _ _ _ _ R Hb' Hσ) as HS.
  eapply gadget_satisfies in HS as (? & _ & Ha); [by apply (Ha : on_p256 q → accepted)|].
  apply gadget_verify_rules; try done.
  - eapply knows_bits_denotes; [exact Hσ2|].
    exact (bits_are_push _ _ _ _ (bits_are_push _ _ _ _ Hz)).
  - destruct Hq. split; (eapply knows_denotes; [exact Hσ2|]; apply (knows_push (store st1)), (knows_push (store st)); done).
  - eapply knows_bits_denotes; [exact Hσ2|]. exact (bits_are_push _ _ _ _ K1).
  - by eapply knows_bits_denotes.
Qed.

(** C33: An honest prover's synthesis of [verify] breaks no rule exactly when r
    and s⁻¹ are from 1 to n − 1 and the point s⁻¹ · (z · G + r · Q) is defined
    at every step with x-coordinate r; and it then allocates the values that
    [verify_values] computes with batched inversions. *)
Theorem verify_exact :
  ((∃ st', run (verify c digest key (Some sig)) st = (Ok tt, st') ∧ cs_broken st' = None) ↔ accepted) ∧
  (∀ st', run (verify c digest key (Some sig)) st = (Ok tt, st') → cs_broken st' = None →
   ∃ values, verify_values c digest key (Some sig) = Ok values ∧ st' = cs_push st values).
Proof.
  split.
  - split; [by intros (st' & R & Hb'); eapply verify_unbroken|]. intros Ha.
    destruct (verify_complete Ha) as (values & _ & R). by exists (cs_push st values).
  - intros st' R Hb'. destruct (verify_complete (verify_unbroken _ R Hb')) as (values & Ev & R').
    exists values. split; [done|]. congruence.
Qed.
End Exact.

(** C34: The values computed with batched inversions in Jacobian coordinates are
    those of one slope after the other, for every input, also where a
    denominator is zero and the batch is abandoned. *)
Theorem batched_values c values bits q :
  multiply_values c values bits q
  = (let '(acc, values) := multiply_steps values bits (c_start c) q in
     add_values values acc (c_start_removed c)) ∧
  generator_values c values bits
  = (let '(sum, values) := generator_steps values (window_entries c bits)
                             (λ i, (digit bits i).1 && (digit bits i).2) in
     add_values values sum (c_offsets_removed c)).
Proof. split; [apply multiply_values_steps|apply generator_values_steps]. Qed.
End VerifyProperties.

Section SignatureProperties.
Context `{OrderField}.

(** [Signature::from_rs] keeps r and takes the inverse of s modulo n as 32
    bytes below n, when s is from 1 to n − 1, and zero, which the rules refuse,
    for any other s. *)
Lemma from_rs_inverse r s :
  length s = 32 →
  sig_r (from_rs r s) = r ∧ length (s_inv (from_rs r s)) = 32 ∧
  if decide (0 < be_int s < be_int ORDER)%Z
  then ((be_int (s_inv (from_rs r s)) * be_int s) mod be_int ORDER = 1
        ∧ 0 < be_int (s_inv (from_rs r s)) < be_int ORDER)%Z
  else s_inv (from_rs r s) = replicate 32 x00.
Proof.
  intros Hl. unfold from_rs. cbn [sig_r s_inv]. split; [done|]. unfold scalar_to_be.
  split; [by rewrite length_reverse, fq_repr_length|]. unfold scalar.
  assert (∀ x, be_int (reverse (fq_to_repr x)) = le_int (fq_to_repr x)) as Ele by done.
  assert (∀ x, 0 ≤ le_int (fq_to_repr x))%Z as Hpos by (intros; apply be_int_range).
  pose proof (fq_from_repr_spec (reverse s)) as Hs. rewrite length_reverse in Hs. specialize (Hs Hl).
  assert (le_int (reverse s) = be_int s) as Es by (unfold le_int; by rewrite reverse_involutive).
  rewrite Es in Hs. destruct (fq_from_repr (reverse s)) as [x|]; cbn [mbind option_bind].
  - destruct Hs as [Ex Hs]. pose proof (fq_invert_spec x) as Hx.
    assert (le_int (fq_to_repr x) = be_int s) as Ei by by rewrite Ex.
    destruct (fq_invert x) as [y|]; cbn [default].
    + rewrite Ei in Hx. pose proof (fq_repr_range y). pose proof (Hpos y).
      assert (1 < be_int ORDER)%Z by by vm_compute.
      assert (be_int s ≠ 0)%Z by (intros E; rewrite E, Z.mul_0_r in Hx; done).
      pose proof (Hpos x). rewrite decide_True by lia. change (id y) with y. rewrite Ele. split; [done|].
      assert (le_int (fq_to_repr y) ≠ 0)%Z by (intros E; rewrite E in Hx; done). lia.
    + subst x. rewrite fq_zero_repr in Ei.
      assert (be_int s = 0)%Z as E0 by (rewrite <-Ei; by vm_compute).
      rewrite decide_False by lia. by rewrite fq_zero_repr.
  - rewrite decide_False by lia. cbn [default]. by rewrite fq_zero_repr.
Qed.
End SignatureProperties.
