(* ===== verification/Ecc.v ===== *)
(** [p256_ecc.rs]: points of P-256 in a circuit over its coordinate field,
    with the point at infinity as a flag, complete addition, and the
    multiplication that adds incompletely except for the last bits.

    The curve's parameters come from the prover's library: the class
    [P256Group]. The reference is the group law over [option Affine], where
    [None] is the point at infinity. *)
From Stdlib Require Import ZArith Lia Strings.String Strings.Byte.
From Stdlib Require Import Field_tac Ring.
From stdpp Require Import base list numbers option strings pretty.
From S2P Require Import Prelude Bytes Field Primes ConstraintSystem Shape CheckSystem Bellpepper Lc Bits Gadgets Select Curve P256.

(** [vega_prover]'s P-256: [p256::Point::group_params] and the coordinates of
    [p256::Affine::generator], elements of the curve's base field, whose
    [to_le_bits] the circuits read. *)
Class P256Group `{ScalarField} := {
  Base : Type;
  to_le_bits : Base → list bool;
  group_params : Base * Base * Z * Z;
  generator : Base * Base;
  group_a : bits_int (reverse (to_le_bits group_params.1.1.1)) = (p - 3)%Z;
  group_b : bits_int (reverse (to_le_bits group_params.1.1.2)) = b256;
  group_order : group_params.1.2 = be_int ORDER;
  generator_on_curve :
    on_curve (of_int b256)
      {| ax := of_int (bits_int (reverse (to_le_bits generator.1)));
         ay := of_int (bits_int (reverse (to_le_bits generator.2))) |};
}.

Section Points.
Context `{NumOps} `{!P256Group}.

Definition p256_curve_params : Scalar * Scalar :=
  let '(a, b, _order, _base_size) := group_params in
  (field_switch (to_le_bits a), field_switch (to_le_bits b)).

Definition p256_generator : Scalar * Scalar :=
  (field_switch (to_le_bits generator.1), field_switch (to_le_bits generator.2)).

Definition p256_order : Z := group_params.1.2.

(** [struct AllocatedPoint]. *)
Record AllocatedPoint := mkAllocatedPoint {
  x : AllocatedNum;
  y : AllocatedNum;
  is_infinity : AllocatedNum;
}.
Implicit Types self other : AllocatedPoint.

(** [*n.get_value().get()?]. *)
Definition num_value (n : AllocatedNum) : outcome SynthesisError Scalar := get (get_value n).
(** [lc + n.get_variable()]. *)
Definition var (n : AllocatedNum) : LinearCombination := lc_add_var lc_zero (get_variable n).

(** [AllocatedPoint::alloc]. *)
Definition point_alloc (coords : option (Scalar * Scalar * bool)) : Synth AllocatedPoint :=
  x ← ns "x" (AllocatedNum_alloc (Ok (from_option (λ c, c.1.1) ZERO coords)));
  y ← ns "y" (AllocatedNum_alloc (Ok (from_option (λ c, c.1.2) ZERO coords)));
  is_infinity ← ns "is_infinity" (AllocatedNum_alloc
    (Ok (if from_option (λ c, c.2) true coords then ONE else ZERO)));
  enforce "is_infinity is bit"
    (var is_infinity)
    (lc_sub_var (lc_add_var lc_zero one) (get_variable is_infinity))
    lc_zero ;;
  mret {| x := x; y := y; is_infinity := is_infinity |}.

Definition check_on_curve self : Synth unit :=
  let '(a, b) := p256_curve_params in
  y_square ← ns "y_square" (AllocatedNum_square (y self));
  x_square ← ns "x_square" (AllocatedNum_square (x self));
  x_cube ← ns "x_cube" (AllocatedNum_mul (x self) x_square);
  rhs ← ns "rhs" (AllocatedNum_alloc (
    infinite ← is_one (is_infinity self);
    if (infinite : bool) then Ok ZERO
    else x_cube ← num_value x_cube; x ← num_value (x self); Ok (x_cube + x * a + b)%S));
  enforce "rhs = (1-is_infinity) * (x^3 + Ax + B)"
    (lc_add_term (lc_add_term (var x_cube) (a, get_variable (x self))) (b, one))
    (lc_sub_var (lc_add_var lc_zero one) (get_variable (is_infinity self)))
    (var rhs) ;;
  enforce "check that y_square * (1 - is_infinity) = rhs"
    (var y_square)
    (lc_sub_var (lc_add_var lc_zero one) (get_variable (is_infinity self)))
    (var rhs).

(** [AllocatedPoint::default]. *)
Definition point_default : Synth AllocatedPoint :=
  zero ← ns "zero" alloc_zero;
  one ← ns "one" (alloc_constant ONE);
  mret {| x := zero; y := zero; is_infinity := one |}.

Definition negate self : Synth AllocatedPoint :=
  y' ← ns "y" (AllocatedNum_alloc (y ← num_value (y self); Ok (- y)%S));
  enforce "check y = - self.y" (var (y self)) (lc_add_var lc_zero one)
    (lc_sub_var lc_zero (get_variable y')) ;;
  mret {| x := x self; y := y'; is_infinity := is_infinity self |}.

(** [AllocatedPoint::conditionally_select], [conditionally_select2]. *)
Definition point_conditionally_select (a b : AllocatedPoint) (condition : Boolean) : Synth AllocatedPoint :=
  x ← ns "select x" (conditionally_select (x a) (x b) condition);
  y ← ns "select y" (conditionally_select (y a) (y b) condition);
  is_infinity ← ns "select is_infinity" (conditionally_select (is_infinity a) (is_infinity b) condition);
  mret {| x := x; y := y; is_infinity := is_infinity |}.

Definition point_conditionally_select2 (a b : AllocatedPoint) (condition : AllocatedNum) : Synth AllocatedPoint :=
  x ← ns "select x" (conditionally_select2 (x a) (x b) condition);
  y ← ns "select y" (conditionally_select2 (y a) (y b) condition);
  is_infinity ← ns "select is_infinity" (conditionally_select2 (is_infinity a) (is_infinity b) condition);
  mret {| x := x; y := y; is_infinity := is_infinity |}.

Definition select_point_or_infinity (a : AllocatedPoint) (condition : Boolean) : Synth AllocatedPoint :=
  x ← ns "select x" (select_num_or_zero (x a) condition);
  y ← ns "select y" (select_num_or_zero (y a) condition);
  is_infinity ← ns "select is_infinity" (select_num_or_one (is_infinity a) condition);
  mret {| x := x; y := y; is_infinity := is_infinity |}.

(** The slope and the third point of the chord through two points, which the
    complete and the incomplete addition both build. *)
Definition lambda_x_y (lambda x1 y1 x2 : AllocatedNum) (x_rule y_rule : string)
    : Synth (AllocatedNum * AllocatedNum) :=
  x ← ns "x" (AllocatedNum_alloc (
    l ← num_value lambda; x1 ← num_value x1; x2 ← num_value x2; Ok (l * l - x1 - x2)%S));
  enforce x_rule (var lambda) (var lambda)
    (lc_add_var (lc_add_var (var x) (get_variable x1)) (get_variable x2)) ;;
  y ← ns "y" (AllocatedNum_alloc (
    l ← num_value lambda; x1 ← num_value x1; x ← num_value x; y1 ← num_value y1; Ok (l * (x1 - x) - y1)%S));
  enforce y_rule (var lambda) (lc_sub_var (var x1) (get_variable x))
    (lc_add_var (var y) (get_variable y1)) ;;
  mret (x, y).

Definition add_internal self other (equal_x : AllocatedBit) : Synth (AllocatedPoint * AllocatedNum) :=
  at_least_one_inf ← ns "at least one inf" (AllocatedNum_alloc (
    i ← num_value (is_infinity self); j ← num_value (is_infinity other);
    Ok (ONE - (ONE - i) * (ONE - j))%S));
  enforce "1 - at least one inf = (1-self.is_infinity) * (1-other.is_infinity)"
    (lc_sub_var (lc_add_var lc_zero one) (get_variable (is_infinity self)))
    (lc_sub_var (lc_add_var lc_zero one) (get_variable (is_infinity other)))
    (lc_sub_var (lc_add_var lc_zero one) (get_variable at_least_one_inf)) ;;
  x_diff_is_actual ← ns "allocate x_diff_is_actual" (AllocatedNum_alloc (
    equal_x ← get (bit_get_value equal_x);
    if (equal_x : bool) then Ok ONE else num_value at_least_one_inf));
  enforce "1 - x_diff_is_actual = (1-equal_x) * (1-at_least_one_inf)"
    (lc_sub_var (lc_add_var lc_zero one) (get_variable at_least_one_inf))
    (lc_sub_var (lc_add_var lc_zero one) (bit_get_variable equal_x))
    (lc_sub_var (lc_add_var lc_zero one) (get_variable x_diff_is_actual)) ;;
  x_diff ← ns "Compute x_diff" (select_one_or_diff2 (x other) (x self) x_diff_is_actual);
  lambda ← ns "lambda" (AllocatedNum_alloc (
    actual ← is_one x_diff_is_actual;
    x_diff_inv ←
      (if (actual : bool) then Ok ONE
       else x2 ← num_value (x other); x1 ← num_value (x self); invert_unwrap (x2 - x1)%S);
    y2 ← num_value (y other); y1 ← num_value (y self);
    Ok ((y2 - y1) * x_diff_inv)%S));
  enforce "Check that lambda is correct" (var lambda) (var x_diff)
    (lc_sub_var (var (y other)) (get_variable (y self))) ;;
  '(x', y') ← lambda_x_y lambda (x self) (y self) (x other) "check that x is correct" "Check that y is correct";
  x1 ← ns "x1 = other.is_infinity ? self.x : x" (conditionally_select2 (x self) x' (is_infinity other));
  x ← ns "x = self.is_infinity ? other.x : x1" (conditionally_select2 (x other) x1 (is_infinity self));
  y1 ← ns "y1 = other.is_infinity ? self.y : y" (conditionally_select2 (y self) y' (is_infinity other));
  y ← ns "y = self.is_infinity ? other.y : y1" (conditionally_select2 (y other) y1 (is_infinity self));
  is_infinity1 ← ns "is_infinity1 = other.is_infinity ? self.is_infinity : 0"
    (select_num_or_zero2 (is_infinity self) (is_infinity other));
  is_infinity ← ns "is_infinity = self.is_infinity ? other.is_infinity : is_infinity1"
    (conditionally_select2 (is_infinity other) is_infinity1 (is_infinity self));
  mret ({| x := x; y := y; is_infinity := is_infinity |}, at_least_one_inf).

Definition double self : Synth AllocatedPoint :=
  let '(a, _b) := p256_curve_params in
  tmp_actual ← ns "tmp_actual" (AllocatedNum_alloc (y1 ← num_value (y self); y2 ← num_value (y self); Ok (y1 + y2)%S));
  enforce "check tmp_actual" (lc_add_var (lc_add_var lc_zero one) one) (var (y self)) (var tmp_actual) ;;
  tmp ← ns "tmp" (select_one_or_num2 tmp_actual (is_infinity self));
  prod_1 ← ns "alloc prod 1" (AllocatedNum_alloc (
    x1 ← num_value (x self); x2 ← num_value (x self); Ok (from_u64 3 * x1 * x2)%S));
  enforce "Check prod 1" (lc_add_term lc_zero (from_u64 3, get_variable (x self))) (var (x self)) (var prod_1) ;;
  lambda ← ns "alloc lambda" (AllocatedNum_alloc (
    infinite ← is_one (is_infinity self);
    tmp_inv ← (if (infinite : bool) then Ok ONE else t ← num_value tmp; invert_unwrap t);
    prod ← num_value prod_1;
    Ok (tmp_inv * (prod + a))%S));
  enforce "Check lambda" (var tmp) (var lambda) (lc_add_term (var prod_1) (a, one)) ;;
  '(x', y') ← lambda_x_y lambda (x self) (y self) (x self) "Check x" "Check y";
  x ← ns "final x" (select_zero_or_num2 x' (is_infinity self));
  y ← ns "final y" (select_zero_or_num2 y' (is_infinity self));
  mret {| x := x; y := y; is_infinity := is_infinity self |}.

(** [AllocatedPoint::add]. *)
Definition add self other : Synth AllocatedPoint :=
  equal_x ← ns "check self.x == other.x" (alloc_num_equals (x self) (x other));
  equal_y ← ns "check self.y == other.y" (alloc_num_equals (y self) (y other));
  '(result_from_add, at_least_one_inf) ← ns "add internal" (add_internal self other equal_x);
  result_from_double ← ns "double" (double self);
  result_for_equal_x ← ns "equal_y ? result_from_double : infinity"
    (select_point_or_infinity result_from_double (Boolean_from equal_y));
  use_equal_x ← ns "equal_x and neither_inf" (AllocatedNum_alloc (
    e ← get (bit_get_value equal_x);
    i ← num_value at_least_one_inf;
    Ok ((if (e : bool) then ONE else ZERO) * (ONE - i))%S));
  enforce "use_equal_x = equal_x * (1 - at_least_one_inf)"
    (lc_add_var lc_zero (bit_get_variable equal_x))
    (lc_sub_var (lc_add_var lc_zero one) (get_variable at_least_one_inf))
    (var use_equal_x) ;;
  ns "use_equal_x ? result_for_equal_x : result_from_add"
    (point_conditionally_select2 result_for_equal_x result_from_add use_equal_x).

(** [AllocatedPoint::alloc_constant], [AllocatedPoint::enforce_equal]. *)
Definition point_alloc_constant (coords : Scalar * Scalar) (is_infinity : AllocatedNum) : Synth AllocatedPoint :=
  x ← ns "x" (alloc_constant coords.1);
  y ← ns "y" (alloc_constant coords.2);
  mret {| x := x; y := y; is_infinity := is_infinity |}.

Definition enforce_equal self other : Synth unit :=
  enforce "check x equality"
    (lc_sub_var (var (x self)) (get_variable (x other))) (lc_add_var lc_zero one) lc_zero ;;
  enforce "check y equality"
    (lc_sub_var (var (y self)) (get_variable (y other))) (lc_add_var lc_zero one) lc_zero ;;
  enforce "check is_inf equality"
    (lc_sub_var (var (is_infinity self)) (get_variable (is_infinity other))) (lc_add_var lc_zero one) lc_zero.

(** [struct AllocatedPointNonInfinity]. *)
Record AllocatedPointNonInfinity := mkNonInfinity { nx : AllocatedNum; ny : AllocatedNum }.

Definition from_allocated_point (q : AllocatedPoint) : AllocatedPointNonInfinity :=
  {| nx := x q; ny := y q |}.
Definition to_allocated_point (q : AllocatedPointNonInfinity) (is_infinity : AllocatedNum) : AllocatedPoint :=
  {| x := nx q; y := ny q; is_infinity := is_infinity |}.

Definition add_incomplete (self other : AllocatedPointNonInfinity) : Synth AllocatedPointNonInfinity :=
  lambda ← ns "lambda" (AllocatedNum_alloc (
    x2 ← num_value (nx other); x1 ← num_value (nx self);
    if bool_decide (x2 = x1) then Ok ONE
    else
      y2 ← num_value (ny other); y1 ← num_value (ny self);
      inv ← invert_unwrap (x2 - x1)%S;
      Ok ((y2 - y1) * inv)%S));
  enforce "Check that lambda is computed correctly" (var lambda)
    (lc_sub_var (var (nx other)) (get_variable (nx self)))
    (lc_sub_var (var (ny other)) (get_variable (ny self))) ;;
  '(x', y') ← lambda_x_y lambda (nx self) (ny self) (nx other) "check that x is correct" "Check that y is correct";
  mret {| nx := x'; ny := y' |}.

Definition double_incomplete (self : AllocatedPointNonInfinity) : Synth AllocatedPointNonInfinity :=
  let '(a, _b) := p256_curve_params in
  x_sq ← ns "x_sq" (AllocatedNum_square (nx self));
  lambda ← ns "lambda" (AllocatedNum_alloc (
    x_sq ← num_value x_sq;
    let n := (from_u64 3 * x_sq + a)%S in
    y ← num_value (ny self);
    let d := (from_u64 2 * y)%S in
    if bool_decide (d = ZERO) then Ok ONE else inv ← invert_unwrap d; Ok (n * inv)%S));
  enforce "Check that lambda is computed correctly" (var lambda)
    (lc_add_term lc_zero (from_u64 2, get_variable (ny self)))
    (lc_add_term (lc_add_term lc_zero (from_u64 3, get_variable x_sq)) (a, one)) ;;
  x' ← ns "x" (AllocatedNum_alloc (
    l ← num_value lambda; x ← num_value (nx self); Ok (l * l - x - x)%S));
  enforce "check that x is correct" (var lambda) (var lambda)
    (lc_add_term (var x') (from_u64 2, get_variable (nx self))) ;;
  y' ← ns "y" (AllocatedNum_alloc (
    l ← num_value lambda; x ← num_value (nx self); x' ← num_value x'; y ← num_value (ny self); Ok (l * (x - x') - y)%S));
  enforce "Check that y is correct" (var lambda) (lc_sub_var (var (nx self)) (get_variable x'))
    (lc_add_var (var y') (get_variable (ny self))) ;;
  mret {| nx := x'; ny := y' |}.

(** [AllocatedPointNonInfinity::conditionally_select]. *)
Definition non_infinity_conditionally_select (a b : AllocatedPointNonInfinity) (condition : Boolean)
    : Synth AllocatedPointNonInfinity :=
  x ← ns "select x" (conditionally_select (nx a) (nx b) condition);
  y ← ns "select y" (conditionally_select (ny a) (ny b) condition);
  mret {| nx := x; ny := y |}.

(** [AllocatedPoint::scalar_mul]; the bits, least significant first, up to
    [Scalar::NUM_BITS - 2] are added incompletely. *)
Definition scalar_mul self (scalar_bits : list AllocatedBit) : Synth AllocatedPoint :=
  let split_len := (length scalar_bits `min` (NUM_BITS - 2))%nat in
  let incomplete_bits := take split_len scalar_bits in
  let complete_bits := drop split_len scalar_bits in
  let acc := from_allocated_point self in
  p ← ns "double" (double_incomplete acc);
  '(acc, p) ← foldM (λ '(acc, p) '(i, bit),
    temp ← ns ("add " +:+ pretty (i : nat)) (add_incomplete acc p);
    acc ← ns ("acc_iteration_" +:+ pretty i) (non_infinity_conditionally_select temp acc (Boolean_from bit));
    p ← ns ("double " +:+ pretty i) (double_incomplete p);
    mret (acc, p)) (acc, p) (drop 1 (imap (λ i bit, (i, bit)) incomplete_bits));
  let acc := to_allocated_point acc (is_infinity self) in
  neg ← ns "negate" (negate self);
  acc_minus_initial ← ns "res minus self" (add acc neg);
  bit0 ← index scalar_bits 0;
  res ← ns "remove slack if necessary"
    (point_conditionally_select acc acc_minus_initial (Boolean_from bit0));
  default ← ns "default" point_default;
  x ← ns "check if self.is_infinity is zero (x)" (conditionally_select2 (x default) (x res) (is_infinity self));
  y ← ns "check if self.is_infinity is zero (y)" (conditionally_select2 (y default) (y res) (is_infinity self));
  let acc := {| x := x; y := y; is_infinity := is_infinity res |} in
  let p_complete := to_allocated_point p (is_infinity self) in
  '(acc, _) ← foldM (λ '(acc, p_complete) '(i, bit),
    temp ← ns ("add_complete " +:+ pretty (i : nat)) (add acc p_complete);
    acc ← ns ("acc_complete_iteration_" +:+ pretty i)
      (point_conditionally_select temp acc (Boolean_from bit));
    p_complete ← ns ("double_complete " +:+ pretty i) (double p_complete);
    mret (acc, p_complete)) (acc, p_complete) (imap (λ i bit, (i, bit)) complete_bits);
  mret acc.
End Points.

(** * The curve's parameters *)
Section Parameters.
Context `{ScalarField}.
Add Field scalar_field : scalar_field_theory (morphism of_int_morph, constants [scalar_const]).

(** Changing the field of an integer below both moduli keeps the integer. *)
Lemma field_switch_le bits : field_switch bits = of_int (bits_int (reverse bits)).
Proof.
  unfold field_switch.
  enough (foldl (λ '(num_value, mult) (bit : bool),
    (if bit then num_value + mult else num_value, mult + mult)%S) (ZERO, ONE) bits
    = (of_int (bits_int (reverse bits)), of_int (2 ^ Z.of_nat (length bits)))) as -> by done.
  induction bits as [|b bits IH] using rev_ind.
  - cbn. by rewrite of_int_1, of_int_0.
  - rewrite foldl_app, IH, reverse_app. cbn [foldl reverse rev_append app].
    change (reverse [b]) with [b]. cbn [app].
    rewrite bits_int_cons, length_reverse, length_app, Nat.add_1_r, Nat2Z.inj_succ, Z.pow_succ_r by lia.
    f_equal; [|rewrite !of_int_mul; ring].
    destruct b; rewrite of_int_add, of_int_mul; cbn [Z.b2z]; rewrite ?of_int_1, ?of_int_0; ring.
Qed.
End Parameters.

(** * The group law *)
Section Law.
Context `{ScalarField}.

(** Points of the curve, [None] at infinity. *)
Definition pdouble (o : option Affine) : option Affine :=
  match o with
  | Some q => match tangent q with Ok r => Some r | _ => None end
  | None => None
  end.
Definition padd (o o' : option Affine) : option Affine :=
  match o, o' with
  | None, _ => o'
  | _, None => o
  | Some q, Some r =>
      if decide (ax q = ax r) then if decide (ay q = ay r) then pdouble o else None
      else match chord q r with Ok s => Some s | _ => None end
  end.
Definition pneg (o : option Affine) : option Affine :=
  (λ q, {| ax := ax q; ay := - ay q |}%S) <$> o.
Definition at_infinity (o : option Affine) : bool := match o with None => true | Some _ => false end.
Definition pon (o : option Affine) : Prop := from_option (on_curve (of_int b256)) True o.
End Law.

(** * Multiplication as a reference *)
Section Multiple.
Context `{ScalarField}.

(** A bit added incompletely: the multiple so far, and the power of the point
    that the next bit adds. *)
Definition incomplete_step (s : Affine * Affine) (b : bool) : outcome Undefined (Affine * Affine) :=
  sum ← chord s.1 s.2;
  next ← tangent s.2;
  Ok (if b then sum else s.1, next).
Definition complete_step (s : option Affine * option Affine) (b : bool) : option Affine * option Affine :=
  (if b then padd s.1 s.2 else s.1, pdouble s.2).

(** The first bit counts as set, and the point is taken away afterwards when
    it is not; the bits from the 254th on are added by the group law. *)
Definition incomplete_ref (bits : list bool) (q : Affine) : outcome Undefined (Affine * Affine) :=
  p ← tangent q;
  foldM incomplete_step (q, p) (drop 1 (take (NUM_BITS - 2) bits)).
Definition scalar_mul_ref (bits : list bool) (q : Affine) : outcome Undefined (option Affine) :=
  '(acc, p) ← incomplete_ref bits q;
  let res := if default false (head bits) then Some acc else padd (Some acc) (pneg (Some q)) in
  Ok (foldl complete_step (res, Some p) (drop (NUM_BITS - 2) bits)).1.
End Multiple.

(** * What the rules force *)
Section PointRules.
Context `{NumOps} `{!P256Group} (σ : Assignment).
Add Field scalar_field : scalar_field_theory (morphism of_int_morph, constants [scalar_const]).
Local Abbreviation nval := (nval σ).
Local Abbreviation nbit := (nbit σ).
Local Abbreviation bbit := (bbit σ).
Implicit Types self other : AllocatedPoint.

Lemma params_a : p256_curve_params.1 = (- of_int 3)%S.
Proof.
  assert (p - 3 = - 3 mod p)%Z as Ep by by vm_compute.
  pose proof group_a as E. unfold p256_curve_params. destruct group_params as [[[a b] o] n].
  cbn [fst snd] in *. rewrite field_switch_le, E, Ep, of_int_mod.
  change (-3)%Z with (Z.opp 3). rewrite of_int_opp. reflexivity.
Qed.
Lemma params_b : p256_curve_params.2 = of_int b256.
Proof.
  pose proof group_b as E. unfold p256_curve_params. destruct group_params as [[[a b] o] n]. cbn [fst snd] in *.
  by rewrite field_switch_le, E.
Qed.

(** A point whose slots hold [o]: the flag is set at infinity, where the
    coordinates can be anything. *)
Definition point_is self (o : option Affine) : Prop :=
  nbit (is_infinity self) (at_infinity o) ∧
  match o with Some q => nval (x self) = ax q ∧ nval (y self) = ay q | None => True end.
Definition finite_is (self : AllocatedPointNonInfinity) (q : Affine) : Prop :=
  nval (nx self) = ax q ∧ nval (ny self) = ay q.

Lemma point_is_flag self o : point_is self o → ∀ q, o = Some q → nbit (is_infinity self) false.
Proof. by intros [Hf _] q ->. Qed.

Lemma gadget_lambda_x_y lambda x1 y1 x2 xr yr l q ox :
  nval lambda = l → nval x1 = ax q → nval y1 = ay q → nval x2 = ox →
  gadget σ (lambda_x_y lambda x1 y1 x2 xr yr)
    (λ r, nval r.1 = ax (on_slope l q ox) ∧ nval r.2 = ay (on_slope l q ox)).
Proof.
  unfold on_slope. cbn [ax ay]. intros <- <- <- <-. unfold lambda_x_y, var. alloc_rule. rule_as E1. alloc_rule. rule_as E2.
  apply gadget_ret. cbn [fst snd].
  assert (nval a = (nval lambda * nval lambda - nval x1 - nval x2)%S) as Ex by by_rule E1.
  split; [done|]. rewrite <-Ex. by_rule E2.
Qed.

Lemma gadget_point_choose2 a b condition c o :
  nbit condition c → point_is (if c then a else b) o →
  gadget σ (point_conditionally_select2 a b condition) (λ r, point_is r o).
Proof.
  intros Hc Hab. unfold point_conditionally_select2.
  step gadget_conditionally_select2 as x' Ex; [exact Hc|].
  step gadget_conditionally_select2 as y' Ey; [exact Hc|].
  step gadget_conditionally_select2 as i' Ei; [exact Hc|]. apply gadget_ret.
  unfold point_is, Gadgets.nbit in *. cbn [x y is_infinity]. rewrite Ex, Ey, Ei. by destruct c.
Qed.

Lemma gadget_point_choose a b r c o :
  bbit r c → point_is (if c then a else b) o →
  gadget σ (point_conditionally_select a b (Boolean_from r)) (λ r, point_is r o).
Proof.
  intros Hc Hab. unfold point_conditionally_select.
  step gadget_conditionally_select as x' Ex; [exact Hc|].
  step gadget_conditionally_select as y' Ey; [exact Hc|].
  step gadget_conditionally_select as i' Ei; [exact Hc|]. apply gadget_ret.
  unfold point_is, Gadgets.nbit in *. cbn [x y is_infinity]. rewrite Ex, Ey, Ei. by destruct c.
Qed.

Lemma gadget_point_or_infinity a r c o :
  point_is a o → bbit r c →
  gadget σ (select_point_or_infinity a (Boolean_from r)) (λ r, point_is r (if c then o else None)).
Proof.
  intros Ha Hc. unfold select_point_or_infinity.
  step gadget_select_num_or_zero as x' Ex; [exact Hc|].
  step gadget_select_num_or_zero as y' Ey; [exact Hc|].
  step gadget_select_num_or_one as i' Ei; [exact Hc|]. apply gadget_ret.
  unfold point_is, nbit in *. cbn [x y is_infinity]. rewrite Ex, Ey, Ei. by destruct c.
Qed.

(** The tangent and the chord by their rules. *)
Lemma slope_tangent q l :
  ay q ≠ ZERO → (of_int 2 * ay q * l = of_int 3 * (ax q * ax q) - of_int 3)%S →
  tangent q = Ok (on_slope l q (ax q)).
Proof.
  intros N E. unfold tangent. rewrite decide_False by done. rewrite <-E.
  assert (of_int 2 * ay q * l / (of_int 2 * ay q) = l)%S as ->; [|done].
  field. split; [done|apply two_nonzero].
Qed.
Lemma slope_chord q r l :
  ax q ≠ ax r → (l * (ax r - ax q) = ay r - ay q)%S → chord q r = Ok (on_slope l q (ax r)).
Proof.
  intros N E. unfold chord. rewrite decide_False by done. rewrite <-E.
  assert (l * (ax r - ax q) / (ax r - ax q) = l)%S as ->; [|done].
  field. apply sc_sub_nonzero. done.
Qed.

Lemma gadget_point_double self o :
  point_is self o → (∀ q, o = Some q → ay q ≠ ZERO) →
  gadget σ (Ecc.double self) (λ r, point_is r (pdouble o)).
Proof.
  intros [Hf Ho] Ny. unfold Ecc.double, var. pose proof params_a as Ea.
  destruct p256_curve_params as [a b]. cbn [fst] in Ea. subst a.
  alloc_rule. rename a into tmp_actual. rule_as E1. step gadget_select_one_or_num2 as tmp Et; [exact Hf|].
  alloc_rule. rename a into prod. rule_as E2. alloc_rule. rename a into lambda. rule_as E3.
  eapply gadget_bind; [by eapply (gadget_lambda_x_y lambda (x self) (y self) (x self) _ _ (nval lambda)
    {| ax := nval (x self); ay := nval (y self) |})|].
  intros [x' y'] [Ex Ey]. cbn [fst snd] in *.
  step gadget_select_zero_or_num2 as x'' Ex'; [exact Hf|].
  step gadget_select_zero_or_num2 as y'' Ey'; [exact Hf|]. apply gadget_ret.
  unfold point_is. cbn [x y is_infinity]. destruct o as [q|]; [|done]. destruct Ho as [Hx Hy].
  cbn [at_infinity] in *.
  unfold pdouble. rewrite (slope_tangent q (nval lambda)).
  - split; [exact Hf|]. rewrite Ex', Ey', Ex, Ey, Hx, Hy. by destruct q.
  - by apply Ny.
  - rewrite Et, <-E1, <-E2, from_u64_of_int, Hx, Hy in E3 by done. by_rule E3.
Qed.

(** Both points are finite and have one x coordinate. *)
Definition same_x (o o' : option Affine) : bool :=
  match o, o' with Some q, Some r => bool_decide (ax q = ax r) | _, _ => false end.

Lemma gadget_add_internal self other equal_x o o' :
  point_is self o → point_is other o' →
  bbit equal_x (bool_decide (nval (x self) = nval (x other))) →
  gadget σ (add_internal self other equal_x) (λ '(r, inf),
    nbit inf (at_infinity o || at_infinity o') ∧ (same_x o o' = false → point_is r (padd o o'))).
Proof.
  intros [Hf Ho] [Hf' Ho'] Heq. unfold add_internal, var.
  alloc_rule. rename a into inf. rule_as E1. alloc_rule. rename a into actual. rule_as E2.
  assert (nbit inf (at_infinity o || at_infinity o')) as Hinf.
  { unfold Gadgets.nbit in Hf, Hf' |- *. rewrite Hf, Hf' in E1.
    destruct (at_infinity o), (at_infinity o'); cbn [of_bool orb] in *; by_rule E1. }
  set (e := bool_decide (nval (x self) = nval (x other))) in *.
  assert (nbit actual (e || at_infinity o || at_infinity o')) as Hact.
  { unfold Gadgets.nbit, Gadgets.bbit in *. rewrite Hinf, Heq in E2. rewrite <-orb_assoc.
    destruct e, (at_infinity o || at_infinity o'); cbn [of_bool orb] in *; by_rule E2. }
  step gadget_select_one_or_diff2 as diff Ed; [exact Hact|].
  alloc_rule. rename a into lambda. rule_as E3.
  eapply gadget_bind; [by eapply (gadget_lambda_x_y lambda (x self) (y self) (x other) _ _ (nval lambda)
    {| ax := nval (x self); ay := nval (y self) |})|].
  intros [x' y'] [Ex Ey]. cbn [fst snd] in *.
  step gadget_conditionally_select2 as x1 Ex1; [exact Hf'|].
  step gadget_conditionally_select2 as x2 Ex2; [exact Hf|].
  step gadget_conditionally_select2 as y1 Ey1; [exact Hf'|].
  step gadget_conditionally_select2 as y2 Ey2; [exact Hf|].
  step gadget_select_num_or_zero2 as i1 Ei1; [exact Hf'|].
  step gadget_conditionally_select2 as i2 Ei2; [exact Hf|]. apply gadget_ret.
  split; [exact Hinf|]. intros Hs. unfold point_is. cbn [x y is_infinity]. unfold Gadgets.nbit in *.
  rewrite Ei2, Ei1, Ex2, Ey2, Ex1, Ey1, Hf, Hf'. destruct o as [q|], o' as [r|]; cbn [padd]; [|done..].
  destruct Ho as [Hx Hy], Ho' as [Hx' Hy']. cbn [same_x] in Hs. apply bool_decide_eq_false in Hs.
  rewrite decide_False by done. cbn [at_infinity orb of_bool] in *.
  assert (e = false) as -> by (apply bool_decide_eq_false; by rewrite Hx, Hx').
  cbn [orb] in Ed. rewrite (slope_chord q r (nval lambda)); [|done|].
  - split; [done|].
    rewrite Ex, Ey, Hx, Hy, Hx'. by destruct q.
  - rewrite Ed, Hx, Hx', Hy, Hy' in E3. by_rule E3.
Qed.

Lemma gadget_add_points self other o o' :
  point_is self o → point_is other o' → (∀ q, o = Some q → ay q ≠ ZERO) →
  gadget σ (Ecc.add self other) (λ r, point_is r (padd o o')).
Proof.
  intros Hp Hq Ny. unfold Ecc.add, var.
  step gadget_alloc_num_equals as equal_x Hx. step gadget_alloc_num_equals as equal_y Hy.
  eapply gadget_bind; [apply gadget_ns, (gadget_add_internal _ _ _ o o'); done|].
  intros [sum inf] [Hinf Hsum].
  eapply gadget_bind; [by apply gadget_ns, (gadget_point_double _ o)|]. intros dbl Hdbl.
  eapply gadget_bind; [eapply gadget_ns, gadget_point_or_infinity; [exact Hdbl|exact Hy]|]. intros equal Hequal.
  alloc_rule. rename a into use. rule_as E.
  assert (nbit use (same_x o o')) as Huse.
  { unfold Gadgets.nbit, Gadgets.bbit in *. rewrite Hinf, Hx in E. unfold point_is in Hp, Hq.
    destruct o as [q|], o' as [r|]; cbn [at_infinity orb same_x of_bool] in *; try by_rule E.
    destruct Hp as (_ & Ex & _), Hq as (_ & Ex' & _). rewrite Ex, Ex' in E. by_rule E. }
  apply gadget_ns, (gadget_point_choose2 _ _ _ _ _ Huse).
  destruct (same_x o o') eqn:Es; [|by apply Hsum].
  destruct o as [q|], o' as [r|]; [|done..]. cbn [same_x padd] in *. apply bool_decide_eq_true in Es.
  rewrite decide_True by done. destruct Hp as (_ & _ & Ey), Hq as (_ & _ & Ey').
  rewrite Ey, Ey' in Hequal. case_bool_decide as D; [rewrite decide_True by done|rewrite decide_False by done]; done.
Qed.

Lemma gadget_negate self o :
  point_is self o → gadget σ (negate self) (λ r, point_is r (pneg o)).
Proof.
  intros [Hf Ho]. unfold negate, var. alloc_rule. rule_as E. apply gadget_ret.
  destruct o as [q|]; (split; [exact Hf|]); [|done]. destruct Ho as [Hx Hy].
  cbn [x y fmap option_fmap option_map ax ay pneg]. split; [done|]. rewrite <-Hy. by_rule E.
Qed.

Lemma gadget_point_default : gadget σ point_default (λ r, point_is r None ∧ nval (x r) = ZERO ∧ nval (y r) = ZERO).
Proof.
  unfold point_default. step gadget_alloc_zero as z Ez. step gadget_alloc_constant as i Ei.
  by apply gadget_ret.
Qed.

(** A point allocated by anyone has a flag that is a bit. *)
Lemma gadget_flagged_point_alloc coords : gadget σ (point_alloc coords) (λ r, ∃ o, point_is r o).
Proof.
  unfold point_alloc, var. alloc_rule. rename a into x'. alloc_rule. rename a into y'.
  alloc_rule. rename a into i. rule_as E. apply gadget_ret.
  assert (nval i * (ONE - nval i) = ZERO)%S as [Z|Z]%sc_mul_0 by by_rule E.
  - exists (Some {| ax := nval x'; ay := nval y' |}). by split.
  - exists None. split; [|done]. cbn [is_infinity]. unfold Gadgets.nbit. cbn. symmetry. by apply sc_sub_0.
Qed.

(** The check accepts the points of the curve and the one at infinity. *)
Lemma gadget_check_on_curve self o :
  point_is self o → gadget σ (check_on_curve self) (λ _, pon o).
Proof.
  intros [Hf Ho]. unfold check_on_curve, var. pose proof params_a as Ea. pose proof params_b as Eb.
  destruct p256_curve_params as [a b]. cbn [fst snd] in Ea, Eb. subst a b.
  step num_square_rules as yy Ey. step num_square_rules as xx Ex. step num_mul_rules as xxx Exx.
  alloc_rule. rename a into rhs. rule_as E1. eapply gadget_mono; [apply gadget_enforce|].
  cbv beta in Ey, Ex, Exx. fold_nval Ey. fold_nval Ex. fold_nval Exx.
  intros [] E2. autorewrite with evals in E2. fold_nval E2.
  destruct o as [q|]; [|done]. destruct Ho as [Hx Hy]. cbn [pon from_option]. unfold on_curve.
  rewrite Hf in E1, E2. cbn [at_infinity of_bool] in *. rewrite <-E2, Ey, Exx, Ex, Hx, Hy in E1.
  by_rule E1.
Qed.

Lemma on_curve_nonzero q : on_curve (of_int b256) q → ay q ≠ ZERO.
Proof.
  unfold on_curve. intros E Z. apply (no_order_two (ax q)). rewrite <-E, Z. ring.
Qed.

(** The group law stays on the curve. *)
Lemma pon_double o : pon o → pon (pdouble o).
Proof.
  destruct o as [q|]; [|done]. cbn. intros Hq. destruct (tangent q) as [r| |] eqn:E; [|done..].
  by apply (tangent_on_curve _ q).
Qed.
Lemma pon_add o o' : pon o → pon o' → pon (padd o o').
Proof.
  intros Ho Ho'. destruct o as [q|], o' as [r|]; [|done..]. cbn [padd].
  destruct (decide _); [destruct (decide _); [by apply pon_double|done]|].
  destruct (chord q r) as [s| |] eqn:E; [|done..]. by apply (chord_on_curve _ q r).
Qed.
Lemma pon_neg o : pon o → pon (pneg o).
Proof.
  destruct o as [q|]; [|done]. cbn. unfold on_curve. cbn [ax ay]. intros <-. ring.
Qed.

(** The incomplete operations, when the reference's are defined. *)
Lemma gadget_add_incomplete (self other : AllocatedPointNonInfinity) q r s :
  finite_is self q → finite_is other r → chord q r = Ok s →
  gadget σ (add_incomplete self other) (λ t, finite_is t s).
Proof.
  intros [Hx Hy] [Hx' Hy'] Es. unfold add_incomplete, var. alloc_rule. rename a into lambda. rule_as E.
  eapply gadget_bind; [by eapply (gadget_lambda_x_y lambda (nx self) (ny self) (nx other) _ _ (nval lambda) q)|].
  intros [x' y'] [Ex Ey]. apply gadget_ret.
  assert (ax q ≠ ax r) as N by (intros N; unfold chord in Es; by rewrite decide_True in Es by done).
  rewrite (slope_chord q r (nval lambda)) in Es; [injection Es as <-|done|].
  - by split.
  - rewrite Hx, Hx', Hy, Hy' in E. by_rule E.
Qed.

Lemma gadget_double_incomplete (self : AllocatedPointNonInfinity) q s :
  finite_is self q → tangent q = Ok s → gadget σ (double_incomplete self) (λ t, finite_is t s).
Proof.
  intros [Hx Hy] Es. unfold double_incomplete, var. pose proof params_a as Ea.
  destruct p256_curve_params as [a b]. cbn [fst] in Ea. subst a.
  step num_square_rules as xx Exx. cbv beta in Exx. fold_nval Exx.
  alloc_rule. rename a into lambda. rule_as E1. alloc_rule. rename a into x'. rule_as E2.
  alloc_rule. rename a into y'. rule_as E3. apply gadget_ret.
  assert (ay q ≠ ZERO) as N by (intros N; unfold tangent in Es; by rewrite decide_True in Es by done).
  rewrite !from_u64_of_int in * by done. rewrite (slope_tangent q (nval lambda)) in Es; [injection Es as <-|done|].
  - assert (nval x' = nval lambda * nval lambda - ax q - ax q)%S as Ex by (rewrite Hx in E2; by_rule E2).
    split; cbn [nx ny on_slope ax ay]; [done|]. rewrite Hx, Hy, Ex in E3. by_rule E3.
  - rewrite Exx, Hx, Hy in E1. by_rule E1.
Qed.

Lemma gadget_finite_choose a b r c q :
  bbit r c → finite_is (if c then a else b) q →
  gadget σ (non_infinity_conditionally_select a b (Boolean_from r)) (λ t, finite_is t q).
Proof.
  intros Hc Hab. unfold non_infinity_conditionally_select.
  step gadget_conditionally_select as x' Ex; [exact Hc|].
  step gadget_conditionally_select as y' Ey; [exact Hc|]. apply gadget_ret.
  unfold finite_is in *. cbn [nx ny]. rewrite Ex, Ey. by destruct c.
Qed.
End PointRules.

(** Multiplication by bits whose slots hold [vs]. *)
Section MultiplyRules.
Context `{NumOps} `{!P256Group} (σ : Assignment).
Add Field scalar_field : scalar_field_theory (morphism of_int_morph, constants [scalar_const]).
Local Abbreviation point_is := (point_is σ).
Local Abbreviation finite_is := (finite_is σ).

Lemma gadget_incomplete_bits bits vs acc p q r s :
  Forall2 (bbit σ) bits vs → finite_is acc q → finite_is p r →
  foldM incomplete_step (q, r) (drop 1 vs) = Ok s →
  gadget σ (foldM (λ '(acc, p) '(i, bit),
    temp ← ns ("add " +:+ pretty (i : nat)) (add_incomplete acc p);
    acc ← ns ("acc_iteration_" +:+ pretty i) (non_infinity_conditionally_select temp acc (Boolean_from bit));
    p ← ns ("double " +:+ pretty i) (double_incomplete p);
    mret (acc, p)) (acc, p) (drop 1 (imap (λ i bit, (i, bit)) bits)))
    (λ t, finite_is t.1 s.1 ∧ finite_is t.2 s.2).
Proof.
  intros HF Hacc Hp Hs. set (f := foldM incomplete_step (q, r)) in *.
  assert (length (drop 1 (imap (λ i bit, (i, bit)) bits)) = length (drop 1 vs)) as Hl.
  { by rewrite !length_drop, length_imap, (Forall2_length _ _ _ HF). }
  eapply gadget_mono.
  { apply (gadget_foldM σ _ _ _ (λ done t, ∀ u, f (take (length done) (drop 1 vs)) = Ok u →
      finite_is t.1 u.1 ∧ finite_is t.2 u.2)).
    - by intros u [= <-].
    - intros done [i bit] [acc' p'] Hd IH. apply prefix_snoc_lookup in Hd as [Hi _].
      rewrite lookup_drop in Hi. apply list_lookup_imap_Some in Hi as (bit' & Eb & [= -> ->]).
      destruct (Forall2_lookup_l _ _ _ _ _ HF Eb) as (v & Ev & Hv).
      assert (drop 1 vs !! length done = Some v) as Ev' by by rewrite lookup_drop.
      destruct (foldM_prefix _ _ _ _ _ _ Hs Ev') as ([q1 r1] & u' & E1 & E2 & E3).
      destruct (IH _ E1) as [H1' H2']. cbn [fst snd] in *.
      unfold incomplete_step in E2. cbn [fst snd] in E2.
      destruct (chord q1 r1) as [c1| |] eqn:Ec; [|done..]. cbn [mbind outcome_bind] in E2.
      destruct (tangent r1) as [t1| |] eqn:Et; [|done..]. cbn [mbind outcome_bind] in E2.
      injection E2 as <-.
      eapply gadget_bind; [by eapply gadget_ns, gadget_add_incomplete|]. intros temp Htemp.
      eapply gadget_bind.
      { apply gadget_ns, (gadget_finite_choose σ _ _ _ v (if v then c1 else q1)); [exact Hv|].
        destruct v; [exact Htemp|exact H1']. }
      intros acc2 Hacc2. eapply gadget_bind; [by eapply gadget_ns, gadget_double_incomplete|].
      intros p2 Hp2. apply gadget_ret. intros u Hu. rewrite length_app, Nat.add_1_r in Hu.
      unfold f in Hu. rewrite E3 in Hu. injection Hu as <-. done. }
  intros [acc' p'] Ht. apply Ht. rewrite Hl, take_ge by lia. exact Hs.
Qed.

Lemma gadget_complete_bits bits vs acc p o o' :
  Forall2 (bbit σ) bits vs → point_is acc o → point_is p o' → pon o → pon o' →
  gadget σ (foldM (λ '(acc, p_complete) '(i, bit),
    temp ← ns ("add_complete " +:+ pretty (i : nat)) (Ecc.add acc p_complete);
    acc ← ns ("acc_complete_iteration_" +:+ pretty i)
      (point_conditionally_select temp acc (Boolean_from bit));
    p_complete ← ns ("double_complete " +:+ pretty i) (Ecc.double p_complete);
    mret (acc, p_complete)) (acc, p) (imap (λ i bit, (i, bit)) bits))
    (λ t, let s := foldl complete_step (o, o') vs in point_is t.1 s.1 ∧ pon s.1).
Proof.
  intros HF Hacc Hp Ho Ho'.
  eapply gadget_mono.
  { apply (gadget_foldM σ _ _ _ (λ done t,
      let s := foldl complete_step (o, o') (take (length done) vs) in
      point_is t.1 s.1 ∧ point_is t.2 s.2 ∧ pon s.1 ∧ pon s.2)); [done|].
    intros done [i bit] [acc' p'] Hd (H1' & H2' & H3' & H4'). apply prefix_snoc_lookup in Hd as [Hi _].
    apply list_lookup_imap_Some in Hi as (bit' & Eb & [= -> ->]).
    destruct (Forall2_lookup_l _ _ _ _ _ HF Eb) as (v & Ev & Hv).
    rewrite length_app, Nat.add_1_r, (take_S_r _ _ _ Ev), foldl_app. cbn [foldl].
    set (s := foldl complete_step (o, o') (take (length done) vs)) in *. cbn [fst snd] in *.
    eapply gadget_bind.
    { apply gadget_ns, (gadget_add_points σ _ _ s.1 s.2); [done..|]. intros q Eq.
      rewrite Eq in H3'. by apply on_curve_nonzero. }
    intros temp Htemp. eapply gadget_bind.
    { apply gadget_ns, (gadget_point_choose σ _ _ _ v (if v then padd s.1 s.2 else s.1)); [exact Hv|].
      destruct v; [exact Htemp|exact H1']. }
    intros acc2 Hacc2. eapply gadget_bind.
    { apply gadget_ns, (gadget_point_double σ _ s.2); [done|]. intros q Eq.
      rewrite Eq in H4'. by apply on_curve_nonzero. }
    intros p2 Hp2. apply gadget_ret. cbn [complete_step fst snd]. split; [exact Hacc2|]. split; [exact Hp2|].
    split; [destruct v; [by apply pon_add|done]|by apply pon_double]. }
  intros [acc' p'] (H1' & _ & H3' & _). rewrite length_imap, (Forall2_length _ _ _ HF), take_ge in H1', H3' by lia.
  done.
Qed.

(** The incomplete chain stays on the curve. *)
Lemma incomplete_on_curve bits q r s :
  on_curve (of_int b256) q → on_curve (of_int b256) r → foldM incomplete_step (q, r) bits = Ok s →
  on_curve (of_int b256) s.1 ∧ on_curve (of_int b256) s.2.
Proof.
  intros Hq Hr. apply (foldM_invariant _ (λ s, on_curve (of_int b256) s.1 ∧ on_curve (of_int b256) s.2)); [done|].
  intros [q1 r1] b s' [H1' H2'] _. unfold incomplete_step. cbn [fst snd] in *.
  destruct (chord q1 r1) as [c1| |] eqn:Ec; [|done..]. cbn [mbind outcome_bind].
  destruct (tangent r1) as [t1| |] eqn:Et; [|done..]. cbn [mbind outcome_bind]. intros [= <-].
  split; [|by apply (tangent_on_curve _ r1)]. destruct b; [by apply (chord_on_curve _ q1 r1)|done].
Qed.

Lemma split_take {A} (l : list A) n : take (length l `min` n) l = take n l ∧ drop (length l `min` n) l = drop n l.
Proof.
  destruct (decide (n ≤ length l)); [by rewrite Nat.min_r by done|].
  rewrite Nat.min_l, (take_ge _ n), (drop_ge _ n), take_ge, drop_ge by lia. done.
Qed.

Lemma gadget_scalar_mul self bits vs q o :
  Forall2 (bbit σ) bits vs → 0 < length vs → point_is self (Some q) → on_curve (of_int b256) q →
  scalar_mul_ref vs q = Ok o →
  gadget σ (scalar_mul self bits) (λ r, point_is r o ∧ pon o).
Proof.
  intros HF Hn Hs Hq. unfold scalar_mul_ref, incomplete_ref.
  destruct (tangent q) as [d| |] eqn:Ed; [|done..]. cbn [mbind outcome_bind].
  destruct (foldM _ _ _) as [[qa qp]| |] eqn:Ef; [|done..]. cbn [mbind outcome_bind]. intros [= <-].
  assert (finite_is (from_allocated_point self) q) as Hfin by apply Hs.
  pose proof (incomplete_on_curve _ _ _ _ Hq (tangent_on_curve _ _ _ Hq Ed) Ef) as [Cqa Cqp].
  cbn [fst snd] in Cqa, Cqp.
  unfold scalar_mul. destruct (split_take bits (NUM_BITS - 2)) as [-> ->].
  eapply gadget_bind; [by eapply gadget_ns, gadget_double_incomplete|]. intros p0 Hp0.
  eapply gadget_bind.
  { apply (gadget_incomplete_bits (take (NUM_BITS - 2) bits) (take (NUM_BITS - 2) vs) _ _ q d (qa, qp)).
    - by apply Forall2_take.
    - exact Hfin.
    - exact Hp0.
    - exact Ef. }
  intros [acc p1] [Hacc Hp1]. cbn [fst snd] in Hacc, Hp1.
  assert (point_is (to_allocated_point acc (is_infinity self)) (Some qa)) as Hacc'.
  { split; [apply Hs|exact Hacc]. }
  eapply gadget_bind; [by apply gadget_ns, (gadget_negate σ _ (Some q))|]. intros neg Hneg.
  eapply gadget_bind.
  { apply gadget_ns, (gadget_add_points σ _ _ (Some qa) (pneg (Some q))); [exact Hacc'|exact Hneg|].
    intros ? [= <-]. by apply on_curve_nonzero. }
  intros minus Hminus.
  destruct vs as [|v0 vs]; [simpl in Hn; lia|]. destruct bits as [|b0 bits]; [by apply Forall2_nil_inv_l in HF|].
  apply Forall2_cons in HF as [Hv0 HF]. cbn [head default] in *.
  eapply gadget_bind; [by apply gadget_index_nth|]. intros ? ->.
  set (res := if v0 then Some qa else padd (Some qa) (pneg (Some q))).
  assert (pon res) as Cres.
  { unfold res. destruct v0; [done|]. apply pon_add; [done|by apply pon_neg]. }
  eapply gadget_bind.
  { apply gadget_ns, (gadget_point_choose σ _ _ _ v0 res Hv0). unfold res. by destruct v0. }
  intros r Hr. eapply gadget_bind; [apply gadget_ns, gadget_point_default|]. intros dflt _.
  assert (nbit σ (is_infinity self) false) as Hf by apply Hs.
  eapply gadget_bind; [by apply gadget_ns, (gadget_conditionally_select2 σ _ _ _ false)|]. intros x' Ex.
  eapply gadget_bind; [by apply gadget_ns, (gadget_conditionally_select2 σ _ _ _ false)|]. intros y' Ey.
  eapply gadget_bind.
  { apply (gadget_complete_bits _ (drop (NUM_BITS - 2) (v0 :: vs)) _ _ res (Some qp)).
    - apply Forall2_drop. by constructor.
    - unfold Ecc.point_is in *. cbn [x y is_infinity]. by rewrite Ex, Ey.
    - split; [exact Hf|exact Hp1].
    - exact Cres.
    - exact Cqp. }
  intros [acc' p'] Hfinal. apply gadget_ret. exact Hfinal.
Qed.

(** The default point at infinity has y = 0, so the slope of its tangent has
    to satisfy 0 = a, which P-256's coefficient does not. *)
Lemma gadget_scalar_mul_infinity self bits :
  nval σ (x self) = ZERO → nval σ (y self) = ZERO → gadget σ (scalar_mul self bits) (λ _, False).
Proof.
  intros Hx Hy. unfold scalar_mul.
  eapply (gadget_bind _ _ _ (λ _, False)); [apply gadget_ns|done].
  unfold double_incomplete, var. pose proof params_a as Ea.
  destruct p256_curve_params as [a b]. cbn [fst] in Ea. subst a.
  step num_square_rules as xx Exx. cbv beta in Exx. fold_nval Exx.
  alloc_rule. rename a into lambda. rule_as E1. exfalso.
  cbn [from_allocated_point nx ny] in *. rewrite Exx, Hx, Hy in E1.
  rewrite !from_u64_of_int in E1 by done. apply (of_int_nonzero 3); [by vm_compute|]. by_rule E1.
Qed.
End MultiplyRules.

(** * Honest runs *)
Section PointRuns.
Context `{NumOpsRuns} `{!P256Group}.
Add Field scalar_field : scalar_field_theory (morphism of_int_morph, constants [scalar_const]).
Implicit Types self other : AllocatedPoint.

(** Slots that carry their values, which are the point's unless it is at
    infinity. *)
Definition point_knows (s : Store) self (o : option Affine) : Prop :=
  ∃ vx vy, num_knows s (x self) vx ∧ num_knows s (y self) vy ∧
    num_knows s (is_infinity self) (of_bool (at_infinity o)) ∧
    match o with Some q => q = {| ax := vx; ay := vy |} | None => True end.

Lemma point_knows_push s vs self o : point_knows s self o → point_knows (push s vs) self o.
Proof. intros (vx & vy & ? & ? & ? & ?). exists vx, vy. split_and!; try by apply num_knows_push. done. Qed.

Lemma completes_lambda_x_y s lambda x1 y1 x2 xr yr l q ox :
  has_one s → num_knows s lambda l → num_knows s x1 (ax q) → num_knows s y1 (ay q) →
  num_knows s x2 ox →
  completes (lambda_x_y lambda x1 y1 x2 xr yr) s (λ r s',
    num_knows s' r.1 (ax (on_slope l q ox)) ∧ num_knows s' r.2 (ay (on_slope l q ox))).
Proof.
  intros Ho Kl Kx Ky Kx2. unfold lambda_x_y, num_value, var, on_slope. cbn [ax ay].
  allocates (l * l - ax q - ox)%S. enforces; [ring|].
  allocates (l * (ax q - (l * l - ax q - ox)) - ay q)%S. enforces; [ring|].
  by apply completes_ret.
Qed.

(** Runs a part whose result is known; what is known of points is kept too. *)
Ltac keep_more vs ::=
  repeat match goal with K : point_knows ?s _ _ |- _ =>
    lazymatch s with push _ vs => fail | _ => apply (point_knows_push s vs) in K end end.
Ltac runs lem n K :=
  eapply completes_bind; [apply completes_ns; eapply lem; eassumption|];
  let vs := fresh "vs" in intros n vs K; cbv beta in K; keep vs.

Lemma completes_double s self o :
  has_one s → point_knows s self o → (∀ q, o = Some q → ay q ≠ ZERO) →
  completes (Ecc.double self) s (λ r s', point_knows s' r (pdouble o)).
Proof.
  intros Ho (vx & vy & Kx & Ky & Ki & Hq) Ny. set (i := at_infinity o) in *.
  assert (i = false → vy + vy ≠ ZERO)%S as Nd.
  { unfold i. destruct o as [q|]; [|done]. intros _. subst q. specialize (Ny _ eq_refl). cbn [ay] in Ny.
    replace (vy + vy)%S with (of_int 2 * vy)%S by ring. apply sc_mul_nonzero; [apply two_nonzero|done]. }
  unfold Ecc.double, num_value, var. pose proof params_a as Ea.
  destruct p256_curve_params as [a b]. cbn [fst] in Ea. subst a.
  allocates (vy + vy)%S. enforces; [ring|].
  runs completes_select_one_or_num2 tmp Kt.
  allocates (from_u64 3 * vx * vx)%S. enforces; [ring|].
  set (l := ((if i then ONE else sc_inv (vy + vy)) * (from_u64 3 * vx * vx + - of_int 3))%S).
  allocates l.
  { unfold l. destruct i; [done|].
    by rewrite invert_unwrap_knows by auto. }
  enforces.
  { unfold l. destruct i; [ring|]. transitivity ((sc_inv (vy + vy) * (vy + vy)) * (from_u64 3 * vx * vx + - of_int 3))%S;
    [ring|]. rewrite sc_inv_l by auto. ring. }
  eapply completes_bind.
  { by apply (completes_lambda_x_y _ _ _ _ _ _ _ l {| ax := vx; ay := vy |} vx). }
  intros [x' y'] vs [Kx' Ky']. cbn [fst snd] in *. keep vs.
  runs completes_select_zero_or_num2 x'' Kx''. runs completes_select_zero_or_num2 y'' Ky''.
  apply completes_ret. eexists _, _. cbn [x y is_infinity]. split_and!; [exact Kx''|exact Ky''| |].
  - destruct o as [q|]; [|exact Ki]. cbn [pdouble]. unfold tangent.
    rewrite decide_False by (by apply Ny). exact Ki.
  - unfold i in *. destruct o as [q|]; [|done]. cbn [pdouble at_infinity] in *. subst q.
    rewrite (slope_tangent _ l); [done|by apply Ny|]. cbn [ax ay]. unfold l.
    replace (of_int 2 * vy)%S with (vy + vy)%S by ring.
    transitivity ((sc_inv (vy + vy) * (vy + vy)) * (from_u64 3 * vx * vx + - of_int 3))%S; [ring|].
    rewrite sc_inv_l, from_u64_of_int by (done || auto). ring.
Qed.

Lemma completes_point_choose2 s a b condition c o o' :
  has_one s → point_knows s a o → point_knows s b o' → num_knows s condition (of_bool c) →
  completes (point_conditionally_select2 a b condition) s
    (λ r s', point_knows s' r (if c then o else o')).
Proof.
  intros Ho (vx & vy & Kx & Ky & Ki & Hq) (wx & wy & Kx' & Ky' & Ki' & Hq') Kc.
  unfold point_conditionally_select2. runs completes_conditionally_select2 x1 Kx1.
  runs completes_conditionally_select2 y1 Ky1. runs completes_conditionally_select2 i1 Ki1.
  apply completes_ret. eexists _, _. split_and!; [exact Kx1|exact Ky1| |]; by destruct c.
Qed.

Lemma completes_point_choose s a b r c o o' :
  has_one s → point_knows s a o → point_knows s b o' → bit_knows s r c →
  completes (point_conditionally_select a b (Boolean_from r)) s
    (λ r s', point_knows s' r (if c then o else o')).
Proof.
  intros Ho (vx & vy & Kx & Ky & Ki & Hq) (wx & wy & Kx' & Ky' & Ki' & Hq') Kc.
  unfold point_conditionally_select. runs completes_conditionally_select x1 Kx1.
  runs completes_conditionally_select y1 Ky1. runs completes_conditionally_select i1 Ki1.
  apply completes_ret. eexists _, _. split_and!; [exact Kx1|exact Ky1| |]; by destruct c.
Qed.

Lemma completes_point_or_infinity s a r c o :
  has_one s → point_knows s a o → bit_knows s r c →
  completes (select_point_or_infinity a (Boolean_from r)) s
    (λ r s', point_knows s' r (if c then o else None)).
Proof.
  intros Ho (vx & vy & Kx & Ky & Ki & Hq) Kc.
  unfold select_point_or_infinity. runs completes_select_num_or_zero x1 Kx1.
  runs completes_select_num_or_zero y1 Ky1. runs completes_select_num_or_one i1 Ki1.
  apply completes_ret. eexists _, _. split_and!; [exact Kx1|exact Ky1| |]; by destruct c.
Qed.

(** The sum that ignores the case of one finite x coordinate, and the flag. *)
Lemma completes_add_internal s self other equal_x o o' :
  has_one s → point_knows s self o → point_knows s other o' →
  (∀ vx vx', num_knows s (x self) vx → num_knows s (x other) vx' →
     bit_knows s equal_x (bool_decide (vx = vx'))) →
  completes (add_internal self other equal_x) s (λ r s',
    num_knows s' r.2 (of_bool (at_infinity o || at_infinity o')) ∧
    ∃ o'', point_knows s' r.1 o'' ∧ (same_x o o' = false → o'' = padd o o')).
Proof.
  intros Ho (vx & vy & Kx & Ky & Ki & Hq) (wx & wy & Kx' & Ky' & Ki' & Hq') He.
  specialize (He _ _ Kx Kx'). unfold add_internal, num_value, var.
  allocates (of_bool (at_infinity o || at_infinity o')).
  { f_equal. destruct (at_infinity o), (at_infinity o'); cbn; ring. }
  rename a into inf. enforces.
  { destruct (at_infinity o), (at_infinity o'); cbn; ring. }
  set (act := bool_decide (vx = wx) || (at_infinity o || at_infinity o')).
  allocates (of_bool act).
  { unfold act. by destruct (bool_decide _). }
  rename a into actual. enforces.
  { unfold act. destruct (bool_decide _), (at_infinity o || at_infinity o'); cbn; ring. }
  runs completes_select_one_or_diff2 diff Kd.
  set (l := ((wy - vy) * (if act then ONE else sc_inv (wx - vx)))%S).
  assert (act = false → wx - vx ≠ ZERO)%S as Nd.
  { intros [E _]%orb_false_elim. apply bool_decide_eq_false in E. by apply sc_sub_nonzero. }
  allocates l.
  { unfold l. destruct act; [done|]. cbn [mbind outcome_bind]. by rewrite invert_unwrap_knows by auto. }
  enforces.
  { unfold l. destruct act; [ring|]. transitivity ((wy - vy) * (sc_inv (wx - vx) * (wx - vx)))%S; [ring|].
    rewrite sc_inv_l by auto. ring. }
  eapply completes_bind.
  { by apply (completes_lambda_x_y _ _ _ _ _ _ _ l {| ax := vx; ay := vy |} wx). }
  intros [x' y'] vs [Kx'' Ky'']. cbn [fst snd] in *. keep vs.
  runs completes_conditionally_select2 x1 Kx1. runs completes_conditionally_select2 x2 Kx2.
  runs completes_conditionally_select2 y1 Ky1. runs completes_conditionally_select2 y2 Ky2.
  runs completes_select_num_or_zero2 i1 Ki1.
  replace (if at_infinity o' then of_bool (at_infinity o) else ZERO)
    with (of_bool (if at_infinity o' then at_infinity o else false)) in Ki1 by by destruct (at_infinity o').
  runs completes_conditionally_select2 i2 Ki2. apply completes_ret. cbn [fst snd].
  split; [eassumption|].
  exists (match o, o' with
    | None, _ => o'
    | _, None => o
    | Some q, Some r => Some (on_slope l q (ax r))
    end). split.
  - eexists _, _. cbn [x y is_infinity]. split_and!; [exact Kx2|exact Ky2| |].
    + by destruct o, o'.
    + destruct o as [q|], o' as [r|]; cbn [at_infinity]; try done. by subst q r.
  - destruct o as [q|], o' as [r|]; [|done..]. cbn [same_x padd]. intros E%bool_decide_eq_false.
    rewrite decide_False by done. subst q r. cbn [ax] in E. rewrite (slope_chord _ _ l); [done..|].
    cbn [ax ay]. unfold l, act. rewrite bool_decide_eq_false_2 by done. cbn [at_infinity orb].
    transitivity ((wy - vy) * (sc_inv (wx - vx) * (wx - vx)))%S; [ring|].
    rewrite sc_inv_l by by apply sc_sub_nonzero. ring.
Qed.

Lemma completes_add s self other o o' :
  has_one s → point_knows s self o → point_knows s other o' → (∀ q, o = Some q → ay q ≠ ZERO) →
  completes (Ecc.add self other) s (λ r s', point_knows s' r (padd o o')).
Proof.
  intros Ho Hp Hq Ny. pose proof Hp as (vx & vy & Kx & Ky & _ & Eq). pose proof Hq as (wx & wy & Kx' & Ky' & _ & Eq').
  unfold Ecc.add, var, num_value.
  runs completes_alloc_num_equals equal_x He. runs completes_alloc_num_equals equal_y He'.
  eapply completes_bind.
  { apply completes_ns, (completes_add_internal _ _ _ _ o o'); [done..|].
    intros v v' [E _] [E' _]. rewrite (proj1 Kx) in E. rewrite (proj1 Kx') in E'.
    injection E as <-. by injection E' as <-. }
  intros [sum inf] vs [Kinf (o2 & Hsum & Hpadd)]. cbn [fst snd] in *. keep vs.
  eapply completes_bind; [by apply completes_ns, (completes_double _ _ o)|].
  intros dbl vs Hdbl. cbv beta in Hdbl. keep vs.
  runs completes_point_or_infinity eqp Heqp.
  allocates (of_bool (same_x o o')).
  { f_equal. destruct o as [q|], o' as [r|]; cbn [at_infinity orb same_x of_bool] in *;
      repeat case_bool_decide; simpl; try ring; subst; done. }
  rename a into use. enforces.
  { destruct o as [q|], o' as [r|]; cbn [at_infinity orb same_x of_bool] in *; subst; cbn [ax];
      repeat case_bool_decide; simpl; try ring; done. }
  apply completes_ns.
  eapply completes_mono; [eapply completes_point_choose2; eassumption|].
  intros r vs Hr. cbv beta in Hr.
  replace (padd o o') with (if same_x o o' then if bool_decide (vy = wy) then pdouble o else None else o2); [done|].
  destruct (same_x o o') eqn:Es; [|by apply Hpadd].
  destruct o as [q|], o' as [r'|]; [|done..]. cbn [same_x padd] in *. apply bool_decide_eq_true in Es.
  rewrite decide_True by done. subst q r'. cbn [ay]. destruct (decide (vy = wy)) as [E|E]; [rewrite bool_decide_eq_true_2 by done|rewrite bool_decide_eq_false_2 by done]; cbn [ay]; done.
Qed.

Lemma completes_negate s self o :
  has_one s → point_knows s self o → completes (negate self) s (λ r s', point_knows s' r (pneg o)).
Proof.
  intros Ho (vx & vy & Kx & Ky & Ki & Hq). unfold negate, num_value, var. allocates (- vy)%S. enforces; [ring|].
  apply completes_ret. exists vx, (- vy)%S. split_and!; [done..| |]; destruct o as [q|]; [|done| |done].
  - exact Ki.
  - by subst q.
Qed.

Lemma completes_point_default s :
  has_one s → completes point_default s (λ r s', point_knows s' r None).
Proof.
  intros Ho. unfold point_default. runs completes_alloc_zero z Kz. runs completes_alloc_constant i Ki.
  apply completes_ret. exists ZERO, ZERO. done.
Qed.

Definition finite_knows (s : Store) (self : AllocatedPointNonInfinity) (q : Affine) : Prop :=
  num_knows s (nx self) (ax q) ∧ num_knows s (ny self) (ay q).

Lemma finite_knows_push s vs a q : finite_knows s a q → finite_knows (push s vs) a q.
Proof. intros [? ?]. split; by apply num_knows_push. Qed.

Lemma bits_known_push s vs bits l : Forall2 (bit_knows s) bits l → Forall2 (bit_knows (push s vs)) bits l.
Proof. intros HF. eapply Forall2_impl; [exact HF|]. intros. by apply bit_knows_push. Qed.

Lemma completes_add_incomplete s a b q r t :
  has_one s → finite_knows s a q → finite_knows s b r → chord q r = Ok t →
  completes (add_incomplete a b) s (λ u s', finite_knows s' u t).
Proof.
  intros Ho [Kx Ky] [Kx' Ky'] Et. unfold add_incomplete, num_value, var.
  assert (ax q ≠ ax r) as N by (intros N; unfold chord in Et; by rewrite decide_True in Et by done).
  set (l := ((ay r - ay q) * sc_inv (ax r - ax q))%S).
  assert (l * (ax r - ax q) = ay r - ay q)%S as El.
  { unfold l. transitivity ((ay r - ay q) * (sc_inv (ax r - ax q) * (ax r - ax q)))%S; [ring|].
    rewrite sc_inv_l by by apply sc_sub_nonzero. ring. }
  rewrite (slope_chord q r l N El) in Et. injection Et as <-.
  allocates l.
  { rewrite bool_decide_eq_false_2 by done. cbn [mbind outcome_bind].
    by rewrite invert_unwrap_knows by by apply sc_sub_nonzero. }
  enforces; [transitivity (l * (ax r - ax q))%S; [ring|]; rewrite El; ring|].
  eapply completes_bind; [by apply (completes_lambda_x_y _ _ _ _ _ _ _ l q (ax r))|].
  intros [x' y'] vs HK. by apply completes_ret.
Qed.

Lemma completes_double_incomplete s a q t :
  has_one s → finite_knows s a q → tangent q = Ok t →
  completes (double_incomplete a) s (λ u s', finite_knows s' u t).
Proof.
  intros Ho [Kx Ky] Et. unfold double_incomplete, num_value, var. pose proof params_a as Ea.
  destruct p256_curve_params as [ca cb]. cbn [fst] in Ea. subst ca.
  assert (ay q ≠ ZERO) as N by (intros N; unfold tangent in Et; by rewrite decide_True in Et by done).
  assert (of_int 2 * ay q ≠ ZERO)%S as Nd by (apply sc_mul_nonzero; [apply two_nonzero|done]).
  set (n := (of_int 3 * (ax q * ax q) + - of_int 3)%S).
  set (l := (n * sc_inv (of_int 2 * ay q))%S).
  assert (l * (of_int 2 * ay q) = n)%S as El.
  { unfold l. transitivity (n * (sc_inv (of_int 2 * ay q) * (of_int 2 * ay q)))%S; [ring|].
    rewrite sc_inv_l by done. ring. }
  rewrite (slope_tangent q l N) in Et by (transitivity n; [rewrite <-El|unfold n]; ring).
  injection Et as <-. rewrite !from_u64_of_int by done.
  eapply completes_bind; [apply completes_ns; eapply num_square_runs; apply Kx|].
  intros xx vs Kxx. change (num_knows (push s vs) xx (ax q * ax q)%S) in Kxx. keep vs.
  allocates l.
  { rewrite bool_decide_eq_false_2 by done. cbn [mbind outcome_bind]. by rewrite invert_unwrap_knows. }
  enforces; [transitivity (l * (of_int 2 * ay q))%S; [ring|]; rewrite El; unfold n; ring|].
  allocates (l * l - ax q - ax q)%S. enforces; [ring|].
  allocates (l * (ax q - (l * l - ax q - ax q)) - ay q)%S. enforces; [ring|].
  by apply completes_ret.
Qed.

Lemma completes_finite_choose s a b r c q q' :
  has_one s → finite_knows s a q → finite_knows s b q' → bit_knows s r c →
  completes (non_infinity_conditionally_select a b (Boolean_from r)) s
    (λ u s', finite_knows s' u (if c then q else q')).
Proof.
  intros Ho [Kx Ky] [Kx' Ky'] Kc. unfold non_infinity_conditionally_select.
  runs completes_conditionally_select x1 Kx1. runs completes_conditionally_select y1 Ky1.
  apply completes_ret. by destruct c.
Qed.
End PointRuns.

Ltac keep_more vs ::=
  repeat match goal with
  | K : point_knows ?s _ _ |- _ =>
      lazymatch s with push _ vs => fail | _ => apply (point_knows_push s vs) in K end
  | K : finite_knows ?s _ _ |- _ =>
      lazymatch s with push _ vs => fail | _ => apply (finite_knows_push s vs) in K end
  | K : Forall2 (bit_knows ?s) _ _ |- _ =>
      lazymatch s with push _ vs => fail | _ => apply (bits_known_push s vs) in K end
  end.
Ltac runs lem n K :=
  eapply completes_bind; [apply completes_ns; eapply lem; eassumption|];
  let vs := fresh "vs" in intros n vs K; cbv beta in K; keep vs.

Section MultiplyRuns.
Context `{NumOpsRuns} `{!P256Group}.

Lemma completes_incomplete_bits s bits vs acc p q r t :
  has_one s → Forall2 (bit_knows s) bits vs → finite_knows s acc q → finite_knows s p r →
  foldM incomplete_step (q, r) (drop 1 vs) = Ok t →
  completes (foldM (λ '(acc, p) '(i, bit),
    temp ← ns ("add " +:+ pretty (i : nat)) (add_incomplete acc p);
    acc ← ns ("acc_iteration_" +:+ pretty i) (non_infinity_conditionally_select temp acc (Boolean_from bit));
    p ← ns ("double " +:+ pretty i) (double_incomplete p);
    mret (acc, p)) (acc, p) (drop 1 (imap (λ i bit, (i, bit)) bits))) s
    (λ u s', finite_knows s' u.1 t.1 ∧ finite_knows s' u.2 t.2).
Proof.
  intros Ho HF Hacc Hp Ht. set (f := foldM incomplete_step (q, r)) in *.
  assert (length (drop 1 (imap (λ i bit, (i, bit)) bits)) = length (drop 1 vs)) as Hl.
  { by rewrite !length_drop, length_imap, (Forall2_length _ _ _ HF). }
  eapply completes_mono.
  { apply (completes_foldM _ _ _ _ (λ done u s', ∀ v, f (take (length done) (drop 1 vs)) = Ok v →
      finite_knows s' u.1 v.1 ∧ finite_knows s' u.2 v.2)).
    - by intros v [= <-].
    - intros done [i bit] [acc' p'] ws Hd IH. apply prefix_snoc_lookup in Hd as [Hi _].
      rewrite lookup_drop in Hi. apply list_lookup_imap_Some in Hi as (bit' & Eb & [= -> ->]).
      destruct (Forall2_lookup_l _ _ _ _ _ HF Eb) as (v & Ev & Hv).
      apply (bit_knows_push s ws) in Hv. apply (has_one_push s ws) in Ho.
      assert (drop 1 vs !! length done = Some v) as Ev' by by rewrite lookup_drop.
      destruct (foldM_prefix _ _ _ _ _ _ Ht Ev') as ([q1 r1] & u' & E1 & E2 & E3).
      destruct (IH _ E1) as [H1' H2']. cbn [fst snd] in *. clear IH.
      unfold incomplete_step in E2. cbn [fst snd] in E2.
      destruct (chord q1 r1) as [c1| |] eqn:Ec; [|done..]. cbn [mbind outcome_bind] in E2.
      destruct (tangent r1) as [t1| |] eqn:Et; [|done..]. cbn [mbind outcome_bind] in E2.
      injection E2 as <-. generalize dependent (push s ws). intros s1 Ho1 Hv H1' H2'.
      runs completes_add_incomplete temp Ktemp. runs completes_finite_choose acc2 Kacc2.
      runs completes_double_incomplete p2 Kp2. apply completes_ret. intros u Hu.
      rewrite length_app, Nat.add_1_r in Hu. unfold f in Hu. rewrite E3 in Hu. injection Hu as <-. done. }
  intros [acc' p'] ws Hf. apply Hf. rewrite Hl, take_ge by lia. exact Ht.
Qed.

Lemma completes_complete_bits s bits vs acc p o o' :
  has_one s → Forall2 (bit_knows s) bits vs → point_knows s acc o → point_knows s p o' →
  pon o → pon o' →
  completes (foldM (λ '(acc, p_complete) '(i, bit),
    temp ← ns ("add_complete " +:+ pretty (i : nat)) (Ecc.add acc p_complete);
    acc ← ns ("acc_complete_iteration_" +:+ pretty i)
      (point_conditionally_select temp acc (Boolean_from bit));
    p_complete ← ns ("double_complete " +:+ pretty i) (Ecc.double p_complete);
    mret (acc, p_complete)) (acc, p) (imap (λ i bit, (i, bit)) bits)) s
    (λ u s', point_knows s' u.1 (foldl complete_step (o, o') vs).1).
Proof.
  intros Hone HF Hacc Hp Ho Ho'. eapply completes_mono.
  { apply (completes_foldM _ _ _ _ (λ done u s',
      let t := foldl complete_step (o, o') (take (length done) vs) in
      point_knows s' u.1 t.1 ∧ point_knows s' u.2 t.2 ∧ pon t.1 ∧ pon t.2)); [done|].
    intros done [i bit] [acc' p'] ws Hd (H1' & H2' & H3' & H4'). apply prefix_snoc_lookup in Hd as [Hi _].
    apply list_lookup_imap_Some in Hi as (bit' & Eb & [= -> ->]).
    destruct (Forall2_lookup_l _ _ _ _ _ HF Eb) as (v & Ev & Hv).
    apply (bit_knows_push s ws) in Hv. apply (has_one_push s ws) in Hone.
    rewrite length_app, Nat.add_1_r, (take_S_r _ _ _ Ev), foldl_app. cbn [foldl].
    set (t := foldl complete_step (o, o') (take (length done) vs)) in *. cbn [fst snd] in *.
    generalize dependent (push s ws). intros s1 H1' H2' Hv Hone1.
    assert (∀ q, t.1 = Some q → ay q ≠ ZERO) as N1 by (intros q Eq; rewrite Eq in H3'; by apply on_curve_nonzero).
    assert (∀ q, t.2 = Some q → ay q ≠ ZERO) as N2 by (intros q Eq; rewrite Eq in H4'; by apply on_curve_nonzero).
    runs completes_add temp Ktemp. runs completes_point_choose acc2 Kacc2. runs completes_double p2 Kp2.
    apply completes_ret. cbn [complete_step fst snd]. split; [exact Kacc2|]. split; [exact Kp2|].
    split; [destruct v; [by apply pon_add|done]|by apply pon_double]. }
  intros [acc' p'] ws (H1' & _). by rewrite length_imap, (Forall2_length _ _ _ HF), take_ge in H1' by lia.
Qed.

(** An honest multiplication whose incomplete part is defined. *)
Lemma completes_scalar_mul s self bits vs q o :
  has_one s → Forall2 (bit_knows s) bits vs → 0 < length vs → point_knows s self (Some q) →
  on_curve (of_int b256) q → scalar_mul_ref vs q = Ok o →
  completes (scalar_mul self bits) s (λ r s', point_knows s' r o).
Proof.
  intros Hone HF Hn Hs Hq. unfold scalar_mul_ref, incomplete_ref.
  destruct (tangent q) as [d| |] eqn:Ed; [|done..]. cbn [mbind outcome_bind].
  destruct (foldM _ _ _) as [[qa qp]| |] eqn:Ef; [|done..]. cbn [mbind outcome_bind]. intros [= <-].
  pose proof (incomplete_on_curve _ _ _ _ Hq (tangent_on_curve _ _ _ Hq Ed) Ef) as [Cqa Cqp].
  cbn [fst snd] in Cqa, Cqp. pose proof Hs as (vx & vy & Kx & Ky & Ki & Eq).
  assert (finite_knows s (from_allocated_point self) q) as Hfin by (by subst q).
  unfold scalar_mul. destruct (split_take bits (NUM_BITS - 2)) as [-> ->].
  clear Kx Ky. runs completes_double_incomplete p0 Kp0.
  eapply completes_bind.
  { apply (completes_incomplete_bits _ (take (NUM_BITS - 2) bits) (take (NUM_BITS - 2) vs) _ _ q d (qa, qp)).
    - done.
    - by apply Forall2_take.
    - exact Hfin.
    - exact Kp0.
    - exact Ef. }
  intros [acc p1] ws [Kacc Kp1]. cbn [fst snd] in Kacc, Kp1. keep ws.
  match goal with Ka : finite_knows ?s1 acc qa |- _ =>
    assert (point_knows s1 (to_allocated_point acc (is_infinity self)) (Some qa)) as Kacc';
    [|assert (point_knows s1 (to_allocated_point p1 (is_infinity self)) (Some qp)) as Kp']
  end.
  { exists (ax qa), (ay qa). destruct Kacc. split_and!; [done..|exact Ki|by destruct qa]. }
  { exists (ax qp), (ay qp). destruct Kp1. split_and!; [done..|exact Ki|by destruct qp]. }
  runs completes_negate neg Kneg.
  assert (∀ q', Some qa = Some q' → ay q' ≠ ZERO) as Nqa by (intros ? [= <-]; by apply on_curve_nonzero).
  runs completes_add diff Kdiff.
  destruct vs as [|v0 vs]; [simpl in Hn; lia|]. destruct bits as [|b0 bits]; [by apply Forall2_nil_inv_l in HF|].
  cbn [head default index lookup list_lookup mbind].
  eapply completes_bind; [by apply (completes_ret b0 _ (λ b _, b = b0))|]. intros ? ws ->. keep ws.
  pose proof HF as HF0. apply Forall2_cons in HF0 as [Kv0 _].
  runs completes_point_choose res Kres.
  set (o := if v0 then Some qa else padd (Some qa) (pneg (Some q))) in *.
  assert (pon o) as Co by (unfold o; destruct v0; [done|]; apply pon_add; [done|by apply pon_neg]).
  runs completes_point_default dflt Kdflt.
  destruct Kdflt as (dx & dy & Kdx & Kdy & _), Kres as (rx & ry & Krx & Kry & Kri & Er).
  change (of_bool (at_infinity (Some q))) with (of_bool false) in Ki.
  runs completes_conditionally_select2 x' Kx. runs completes_conditionally_select2 y' Ky.
  eapply completes_bind.
  { apply (completes_complete_bits _ _ (drop (NUM_BITS - 2) (v0 :: vs)) _ _ o (Some qp)); [done| | |done..].
    - by apply Forall2_drop.
    - exists rx, ry. by split_and!. }
  intros [acc' p'] ws Hfinal. by apply completes_ret.
Qed.
End MultiplyRuns.

(** * Properties *)
Section EccProperties.
Context `{NumOpsRuns} `{!P256Group}.

(** C17: Addition is the complete group law of the curve: for points of the
    curve or at infinity, equal, opposite or neither, the rules of [add]
    force the sum whoever assigns the slots, and an honest run breaks no rule
    and computes the sum. *)
Theorem add_group_law o o' :
  pon o → pon o' →
  pon (padd o o') ∧
  (∀ (σ : Assignment) self other, point_is σ self o → point_is σ other o' →
    gadget σ (Ecc.add self other) (λ r, point_is σ r (padd o o'))) ∧
  (∀ st self other, has_one (store st) → cs_broken st = None →
    point_knows (store st) self o → point_knows (store st) other o' →
    ∃ r vs, run (Ecc.add self other) st = (Ok r, cs_push st vs) ∧
      point_knows (store (cs_push st vs)) r (padd o o')).
Proof.
  intros Ho Ho'. assert (∀ q, o = Some q → ay q ≠ ZERO) as N.
  { intros q ->. by apply on_curve_nonzero. }
  split; [by apply pon_add|]. split.
  - intros σ self other Hp Hq. by apply gadget_add_points.
  - intros st self other Hone Hb Hp Hq.
    destruct (completes_add _ _ _ _ _ Hone Hp Hq N) as [vs He].
    destruct (emits_run _ _ _ _ He Hb) as (r & Hr & Hk). by exists r, vs.
Qed.

(** C18: Multiplication by bits of a point of the curve: when no addition of
    its incomplete part meets two points of one x coordinate, the rules of
    [scalar_mul] force the reference's multiple, a point of the curve, and an
    honest run breaks no rule and computes it. *)
Theorem scalar_mul_exact vs q o :
  0 < length vs → on_curve (of_int b256) q → scalar_mul_ref vs q = Ok o →
  (∀ (σ : Assignment) self bits, point_is σ self (Some q) → Forall2 (bbit σ) bits vs →
    gadget σ (scalar_mul self bits) (λ r, point_is σ r o ∧ pon o)) ∧
  (∀ st self bits, has_one (store st) → cs_broken st = None →
    point_knows (store st) self (Some q) → Forall2 (bit_knows (store st)) bits vs →
    ∃ r ws, run (scalar_mul self bits) st = (Ok r, cs_push st ws) ∧
      point_knows (store (cs_push st ws)) r o).
Proof.
  intros Hn Hq Eo. split.
  - intros σ self bits Hs HF. by apply (gadget_scalar_mul σ _ _ vs q).
  - intros st self bits Hone Hb Hs HF.
    destruct (completes_scalar_mul _ _ _ _ _ _ Hone HF Hn Hs Hq Eo) as [ws He].
    destruct (emits_run _ _ _ _ He Hb) as (r & Hr & Hk). by exists r, ws.
Qed.

(** The point at infinity as [AllocatedPoint::default] writes it, (0, 0)
    with its flag set, cannot be multiplied: no assignment of the slots meets
    the rules, as its first doubling ignores the flag and asks that 0 be the
    curve's coefficient a. *)
Theorem scalar_mul_infinity (σ : Assignment) bits :
  gadget σ (p ← point_default; scalar_mul p bits) (λ _, False).
Proof.
  eapply gadget_bind; [apply gadget_point_default|].
  intros p (_ & Hx & Hy). by apply gadget_scalar_mul_infinity.
Qed.

(** Whoever allocates a point, the curve check passes only for a point of
    P-256 or the one at infinity. *)
Lemma point_checked (σ : Assignment) coords :
  gadget σ (p ← point_alloc coords; check_on_curve p ;; mret p) (λ p, ∃ o, point_is σ p o ∧ pon o).
Proof.
  eapply gadget_bind; [apply gadget_flagged_point_alloc|]. intros p [o Hp].
  eapply gadget_bind; [by apply (gadget_check_on_curve σ p o)|]. intros [] Ho.
  apply gadget_ret. by exists o.
Qed.
End EccProperties.
