(* ===== verification/Ecdsa.v ===== *)
(** [ecdsa.rs]: ECDSA over P-256 in a circuit over the coordinate field. The
    scalars are numbers in limbs ([BigNat]), the points native ([Ecc]). *)
From Stdlib Require Import ZArith Lia Strings.String Strings.Byte.
From Stdlib Require Import Field_tac Ring.
From stdpp Require Import base list numbers option strings pretty.
From S2P Require Import Prelude Bytes Field Primes ConstraintSystem Shape CheckSystem Bellpepper Lc Bits Gadgets Select Limbs BigNat BigNatRules Curve P256 Ecc.

Definition LIMB_WIDTH : nat := 64.
Definition N_LIMBS : nat := 4.

Section Ecdsa.
Context `{NumOps} `{!NonNative} `{!P256Group}.

(** [struct EcdsaP256Witness]. *)
Record EcdsaP256Witness := mkEcdsaP256Witness {
  w_qx : Scalar;
  w_qy : Scalar;
  w_r : Z;
  w_s : Z;
  w_z : Z;
  w_s_inv : Z;
}.

Definition verify_ecdsa_p256_with_digest (qx qy : AllocatedNum) (r s s_inv : Z) (z_bn : BigNat) : Synth unit :=
  let n := p256_order in
  n_bn ← ns "n" (alloc_bignat_constant n LIMB_WIDTH N_LIMBS);
  one_bn ← ns "one" (alloc_bignat_constant 1 LIMB_WIDTH N_LIMBS);
  r_bn ← ns "r" (alloc_from_nat (Ok r) LIMB_WIDTH N_LIMBS);
  ns "r well-formed" (assert_well_formed r_bn) ;;
  s_bn ← ns "s" (alloc_from_nat (Ok s) LIMB_WIDTH N_LIMBS);
  ns "s well-formed" (assert_well_formed s_bn) ;;
  s_inv_bn ← ns "s_inv" (alloc_from_nat (Ok s_inv) LIMB_WIDTH N_LIMBS);
  ns "s_inv well-formed" (assert_well_formed s_inv_bn) ;;
  '(_, s_times_s_inv_mod_n) ← ns "s * s_inv mod n" (mult_mod s_bn s_inv_bn n_bn);
  ns "s * s_inv == 1 (mod n)" (equal_when_carried_regroup s_times_s_inv_mod_n one_bn) ;;
  '(_, u1_bn) ← ns "u1 = z * s_inv mod n" (mult_mod z_bn s_inv_bn n_bn);
  '(_, u2_bn) ← ns "u2 = r * s_inv mod n" (mult_mod r_bn s_inv_bn n_bn);
  u1_bits ← ns "u1 bits" (decompose_allocated u1_bn);
  u2_bits ← ns "u2 bits" (decompose_allocated u2_bn);
  g_is_infinity ← ns "G is_infinity" (alloc_constant ZERO);
  g ← ns "G" (point_alloc_constant p256_generator g_is_infinity);
  q_is_infinity ← ns "Q is_infinity" (alloc_constant ZERO);
  let q := {| x := qx; y := qy; is_infinity := q_is_infinity |} in
  ns "Q on curve" (check_on_curve q) ;;
  u1_g ← ns "u1 * G" (scalar_mul g u1_bits);
  u2_q ← ns "u2 * Q" (scalar_mul q u2_bits);
  r_point ← ns "u1*G + u2*Q" (Ecc.add u1_g u2_q);
  let x_num := x r_point in
  x_bn ← ns "R'.x as BigNat" (from_num (Num_from x_num) LIMB_WIDTH N_LIMBS);
  x_mod_n ← ns "R'.x mod n" (red_mod x_bn n_bn);
  ns "R'.x mod n == r" (equal_when_carried_regroup x_mod_n r_bn).

Definition verify_ecdsa_p256 (w : EcdsaP256Witness) : Synth unit :=
  z_bn ← ns "z" (alloc_from_nat (Ok (w_z w)) LIMB_WIDTH N_LIMBS);
  ns "z well-formed" (assert_well_formed z_bn) ;;
  qx_num ← ns "qx" (AllocatedNum_alloc (Ok (w_qx w)));
  qy_num ← ns "qy" (AllocatedNum_alloc (Ok (w_qy w)));
  ns "verify" (verify_ecdsa_p256_with_digest qx_num qy_num (w_r w) (w_s w) (w_s_inv w) z_bn).
End Ecdsa.

(** * Numbers of four limbs of 64 bits *)
Section Numbers.
Context `{NumOps} `{!NonNative} (σ : Assignment).

(** The rounded logarithm is one of three integers. *)
Lemma carry_bits_cases m w :
  (0 < m)%Z → let c := Z.log2_up (m * 2) in
  carry_bits m w = Z.to_nat (c - 1 - Z.of_nat w) ∨ carry_bits m w = Z.to_nat (c - Z.of_nat w) ∨
  carry_bits m w = Z.to_nat (c + 1 - Z.of_nat w).
Proof.
  intros Hm c. pose proof (ceil_log2_f64_spec (m * 2) ltac:(lia)) as Hc. fold c in Hc. unfold carry_bits.
  assert (ceil_log2_f64 (m * 2) = c - 1 ∨ ceil_log2_f64 (m * 2) = c ∨ ceil_log2_f64 (m * 2) = c + 1)%Z
    as [-> | [-> | ->]] by lia; auto.
Qed.

(** Decides that groups and carries fit, for a concrete word. *)
Definition carries_fit_b (m : Z) (w cb : nat) : bool :=
  ((0 <=? m) && (2 ^ Z.of_nat (cb `max` 1) + 2 * m <? p) &&
   (2 ^ Z.of_nat w * 2 ^ Z.of_nat (cb `max` 1) + 2 ^ Z.of_nat w + m <? p) &&
   (2 ^ Z.of_nat w + 3 * m <? p))%Z.
Definition roundings (m : Z) (w : nat) : list nat :=
  let c := Z.log2_up (m * 2) in
  [Z.to_nat (c - 1 - Z.of_nat w); Z.to_nat (c - Z.of_nat w); Z.to_nat (c + 1 - Z.of_nat w)].
Definition regroup_fits_b (m : Z) (w : nat) : bool :=
  (0 <? m)%Z &&
  forallb (λ cb,
    let g := ((CAPACITY - cb) / w)%nat in
    (cb <=? CAPACITY)%nat && (0 <? g)%nat && (0 <? ones w g * m)%Z &&
    forallb (carries_fit_b (ones w g * m) (w * g)) (roundings (ones w g * m) (w * g))) (roundings m w).

Lemma carry_bits_rounding m w : (0 < m)%Z → In (carry_bits m w) (roundings m w).
Proof. intros Hm. unfold roundings. simpl. destruct (carry_bits_cases m w Hm) as [-> | [-> | ->]]; auto. Qed.

Lemma regroup_fits_decided m w : regroup_fits_b m w = true → regroup_fits m w.
Proof.
  unfold regroup_fits_b. rewrite andb_true_iff, Z.ltb_lt, forallb_forall. intros [Hm Hall].
  specialize (Hall _ (carry_bits_rounding m w Hm)). cbv zeta in Hall. fold (group_size m w) in Hall.
  rewrite !andb_true_iff, Nat.leb_le, Nat.ltb_lt, Z.ltb_lt, forallb_forall in Hall.
  destruct Hall as [[[? ?] Hg] Hall]. split; [done|]. split; [done|].
  specialize (Hall _ (carry_bits_rounding _ _ Hg)). unfold carries_fit_b in Hall.
  rewrite !andb_true_iff, Z.leb_le, !Z.ltb_lt in Hall. unfold carries_fit. tauto.
Qed.

Definition WORD : Z := (2 ^ 64 - 1)%Z.
Lemma new_word : max_word (params_new 64 4) = WORD.
Proof. by vm_compute. Qed.
Lemma quotient_8 :
  quotient_limbs (number_bits 64 4 WORD + number_bits 64 4 WORD - min_bits (params_new 64 4)) 64 = 8.
Proof. by vm_compute. Qed.
Lemma quotient_4 : quotient_limbs (number_bits 64 4 WORD - min_bits (params_new 64 4)) 64 = 4.
Proof. by vm_compute. Qed.
Lemma product_fits : regroup_fits (Z.max (Z.of_nat (4 `min` 4) * WORD * WORD) (right_word 64 8 4 WORD)) 64.
Proof. apply regroup_fits_decided. by vm_compute. Qed.
Lemma reduction_fits : regroup_fits (Z.max WORD (right_word 64 4 4 WORD)) 64.
Proof. apply regroup_fits_decided. by vm_compute. Qed.
Lemma equality_fits : regroup_fits (Z.max WORD WORD) 64.
Proof. apply regroup_fits_decided. by vm_compute. Qed.

(** A number of four limbs of 64 bits, whose limbs hold [v]. *)
Definition holds_int (b : BigNat) (v : Z) : Prop :=
  params b = params_new 64 4 ∧ ∃ zs, in_limbs σ 64 b zs ∧ length zs = 4 ∧ limbs_int 64 zs = v.

Lemma holds_int_word b v : holds_int b v → max_word (params b) = WORD.
Proof. by intros [-> _]. Qed.

Lemma holds_int_range b v : holds_int b v → (0 ≤ v < 2 ^ 256)%Z.
Proof.
  intros (Pb & zs & ((_ & _ & Hm) & _) & Hl & <-). rewrite Pb in Hm.
  pose proof (zeval_range 64 WORD zs Hm eq_refl) as Hr. by rewrite Hl in Hr.
Qed.

Lemma holds_int_new b zs : nat_is σ b zs → params b = params_new 64 4 → holds_int b (limbs_int 64 zs).
Proof.
  intros Hb Pb. destruct (new_number σ 64 4 b zs Hb Pb) as [Hn Hl]; [lia|]. split; [done|]. by exists zs.
Qed.

Lemma gadget_well_formed b :
  sized b → params b = params_new 64 4 → gadget σ (assert_well_formed b) (λ _, ∃ v, holds_int b v).
Proof.
  intros Hs Pb. eapply gadget_mono; [by apply (gadget_assert_well_formed σ b 64 4); [done|done|lia]|].
  intros _ (zs & Hz). exists (limbs_int 64 zs). by apply holds_int_new.
Qed.

Lemma gadget_constant v :
  (0 ≤ v < 2 ^ 256)%Z →
  gadget σ (alloc_bignat_constant v LIMB_WIDTH N_LIMBS) (λ b, holds_int b v ∧ nat_value b = Some v).
Proof.
  intros Hv. eapply gadget_mono; [apply gadget_alloc_bignat_constant; [exact Hv|unfold N_LIMBS; lia|unfold LIMB_WIDTH; lia]|].
  intros b (Pb & Hb & Ev). split; [|done].
  assert (limbs_int 64 (zdigits LIMB_WIDTH N_LIMBS v) = v) as <-.
  { unfold LIMB_WIDTH, N_LIMBS. rewrite zdigits_int. by apply Z.mod_small. }
  by apply holds_int_new.
Qed.

Lemma gadget_mult_mod_int a b m v w n :
  holds_int a v → holds_int b w → holds_int m n → nat_value m ≠ Some 0%Z →
  gadget σ (mult_mod a b m) (λ r, ∃ u, holds_int r.2 u ∧ (u mod n = (v * w) mod n)%Z).
Proof.
  intros (Pa & za & Ha & La & <-) (Pb & zb & Hb & Lb & <-) (Pm & zm & Hm & Lm & <-) Hm0.
  eapply gadget_mono.
  { apply (gadget_mult_mod σ 64 a b m za zb zm 8 ltac:(lia) Ha Hb Hm Hm0);
      rewrite ?Pa, ?Pb, ?Pm, ?La, ?Lb, ?Lm, ?new_word; [exact quotient_8|by vm_compute..|exact product_fits]. }
  intros [q r] (qs & rs & _ & _ & Hr & Pr & Lr & E). exists (limbs_int 64 rs). split.
  - rewrite Lm in Pr, Lr. split; [done|]. by exists rs.
  - rewrite E, Z.add_comm. symmetry. apply Z_mod_plus_full.
Qed.

Lemma gadget_red_mod_int a m v n :
  holds_int a v → holds_int m n → nat_value m ≠ Some 0%Z →
  gadget σ (red_mod a m) (λ r, ∃ u, holds_int r u ∧ (u mod n = v mod n)%Z).
Proof.
  intros (Pa & za & Ha & La & <-) (Pm & zm & Hm & Lm & <-) Hm0. eapply gadget_mono.
  { apply (gadget_red_mod σ 64 a m za zm 4 ltac:(lia) Ha Hm Hm0);
      rewrite ?Pa, ?Pm, ?La, ?Lm, ?new_word; [exact quotient_4|by vm_compute|exact reduction_fits]. }
  intros r (qs & rs & _ & Hr & Pr & Lr & E). exists (limbs_int 64 rs). split.
  - rewrite Lm in Pr, Lr. split; [done|]. by exists rs.
  - rewrite E, Z.add_comm. symmetry. apply Z_mod_plus_full.
Qed.

Lemma gadget_equal_int a b v w :
  holds_int a v → holds_int b w → gadget σ (equal_when_carried_regroup a b) (λ _, v = w).
Proof.
  intros (Pa & za & Ha & La & <-) (Pb & zb & Hb & Lb & <-).
  apply (gadget_numbers_equal σ 64 a b za zb ltac:(lia) Ha Hb). rewrite Pa, Pb, new_word. exact equality_fits.
Qed.

Lemma bits_le_reverse bs : bits_le bs = bits_int (reverse bs).
Proof.
  unfold bits_le. induction bs as [|b bs IH]; [done|]. rewrite reverse_cons, bits_int_app.
  change (Z.b2z b + 2 * zeval 2 (Z.b2z <$> bs) = bits_int (reverse bs) * 2 + Z.b2z b)%Z. rewrite IH. lia.
Qed.

Lemma gadget_decompose_int b v :
  holds_int b v → gadget σ (decompose_allocated b) (λ bits, Forall2 (bbit σ) bits (reverse (int_bits 256 v))).
Proof.
  intros (Pb & zs & Hb & Lb & <-). eapply gadget_mono; [by apply (gadget_decompose_allocated σ 64 4); [lia|..]|].
  intros bits (bs & Hbs & Hl & <-). rewrite bits_le_reverse, int_bits_bits_int by by rewrite length_reverse.
  by rewrite reverse_involutive.
Qed.

Lemma gadget_from_num_int num :
  gadget σ (from_num num LIMB_WIDTH N_LIMBS) (λ b, ∃ v, holds_int b v ∧ eval σ (n_num num) = of_int v).
Proof.
  eapply gadget_mono; [apply gadget_from_num; unfold LIMB_WIDTH, NUM_BITS; lia|].
  intros b (Pb & zs & Hb & Lb & E). exists (limbs_int 64 zs). split; [by apply holds_int_new|exact E].
Qed.
End Numbers.

(** * Circuits that always return *)
(** A circuit that adds its rules and allocates no public value, whatever the
    rules force. *)
Definition total `{LinearCombinations} (σ : Assignment) {A} (m : Synth A) : Prop := gadget σ m (λ _, True).

Section Total.
Context `{NumOps} (σ : Assignment).

Lemma total_bind {A B} (m : Synth A) (f : A → Synth B) : total σ m → (∀ a, total σ (f a)) → total σ (m ≫= f).
Proof. intros Hm Hf. eapply gadget_bind; [exact Hm|]. intros a _. apply Hf. Qed.
Lemma total_ret {A} (a : A) : total σ (mret a).
Proof. by apply gadget_ret. Qed.
Lemma total_ns {A} name (m : Synth A) : total σ m → total σ (ns name m).
Proof. apply gadget_ns. Qed.
Lemma total_of {A} (m : Synth A) P : gadget σ m P → total σ m.
Proof. intros Hm. by eapply gadget_mono. Qed.
Lemma gadget_total {A} (m : Synth A) (P : A → Prop) : total σ m → (∀ a, P a) → gadget σ m P.
Proof. intros Hm HP. by eapply gadget_mono. Qed.
Lemma total_enforce name a b c : total σ (enforce name a b c).
Proof. eapply total_of, gadget_enforce. Qed.
Lemma total_num v : total σ (AllocatedNum_alloc v).
Proof. eapply total_of, gadget_AllocatedNum_alloc. Qed.
Lemma total_bit v : total σ (AllocatedBit_alloc v).
Proof. eapply total_of, gadget_AllocatedBit_alloc. Qed.
Lemma total_infallible v : total σ (AllocatedNum_alloc_infallible v).
Proof. eapply total_of, num_alloc_infallible_rules. Qed.
Lemma total_mul a b : total σ (AllocatedNum_mul a b).
Proof. eapply total_of, num_mul_rules. Qed.
Lemma total_square a : total σ (AllocatedNum_square a).
Proof. eapply total_of, num_square_rules. Qed.
Lemma total_foldM {A B} (f : B → A → Synth B) b l : (∀ b a, total σ (f b a)) → total σ (foldM f b l).
Proof. intros Hf. apply (gadget_foldM σ f l b (λ _ _, True)); [done|]. intros. apply Hf. Qed.
End Total.

Create HintDb total discriminated.
#[export] Hint Resolve total_ret total_enforce total_num total_bit total_infallible total_mul total_square : total.

(** Follows the code of a circuit. *)
Ltac total :=
  repeat lazymatch goal with
  | |- total _ (_ ≫= _) => apply total_bind; [|intros]
  | |- total _ (ns _ _) => apply total_ns
  | |- total _ (foldM _ _ _) => apply total_foldM; intros
  | |- total _ (match ?x with _ => _ end) => destruct x
  | |- total _ (match ?x with _ => _ end _) => destruct x
  | |- total _ ((λ _, _) _) => cbv beta
  | |- total _ _ => solve [auto with total]
  end.

Section TotalPoints.
Context `{NumOps} `{!P256Group} (σ : Assignment).

Lemma total_alloc_zero : total σ alloc_zero.
Proof. unfold alloc_zero. total. Qed.
Lemma total_alloc_constant c : total σ (alloc_constant c).
Proof. unfold alloc_constant. total. Qed.
Lemma total_alloc_num_equals a b : total σ (alloc_num_equals a b).
Proof. unfold alloc_num_equals. total. Qed.
Lemma total_conditionally_select a b c : total σ (conditionally_select a b c).
Proof. unfold conditionally_select. total. Qed.
Lemma total_conditionally_select2 a b c : total σ (conditionally_select2 a b c).
Proof. unfold conditionally_select2. total. Qed.
Lemma total_select_zero_or_num2 a c : total σ (select_zero_or_num2 a c).
Proof. unfold select_zero_or_num2. total. Qed.
Lemma total_select_num_or_zero2 a c : total σ (select_num_or_zero2 a c).
Proof. unfold select_num_or_zero2. total. Qed.
Lemma total_select_num_or_zero a c : total σ (select_num_or_zero a c).
Proof. unfold select_num_or_zero. total. Qed.
Lemma total_select_one_or_num2 a c : total σ (select_one_or_num2 a c).
Proof. unfold select_one_or_num2. total. Qed.
Lemma total_select_one_or_diff2 a b c : total σ (select_one_or_diff2 a b c).
Proof. unfold select_one_or_diff2. total. Qed.
Lemma total_select_num_or_one a c : total σ (select_num_or_one a c).
Proof. unfold select_num_or_one. total. Qed.
Local Hint Resolve total_alloc_zero total_alloc_constant total_alloc_num_equals total_conditionally_select
  total_conditionally_select2 total_select_zero_or_num2 total_select_num_or_zero2 total_select_num_or_zero
  total_select_one_or_num2 total_select_one_or_diff2 total_select_num_or_one : total.

Lemma total_point_choose a b c : total σ (point_conditionally_select a b c).
Proof. unfold point_conditionally_select. total. Qed.
Lemma total_point_choose2 a b c : total σ (point_conditionally_select2 a b c).
Proof. unfold point_conditionally_select2. total. Qed.
Lemma total_point_or_infinity a c : total σ (select_point_or_infinity a c).
Proof. unfold select_point_or_infinity. total. Qed.
Lemma total_lambda_x_y l x1 y1 x2 xr yr : total σ (lambda_x_y l x1 y1 x2 xr yr).
Proof. unfold lambda_x_y. total. Qed.
Lemma total_negate a : total σ (negate a).
Proof. unfold negate. total. Qed.
Lemma total_point_default : total σ point_default.
Proof. unfold point_default. total. Qed.
Local Hint Resolve total_point_choose total_point_choose2 total_point_or_infinity total_lambda_x_y total_negate
  total_point_default : total.

Lemma total_add_internal a b e : total σ (add_internal a b e).
Proof. unfold add_internal. total. Qed.
Lemma total_point_double a : total σ (Ecc.double a).
Proof. unfold Ecc.double. total. Qed.
Local Hint Resolve total_add_internal total_point_double : total.
Lemma total_point_add a b : total σ (Ecc.add a b).
Proof. unfold Ecc.add. total. Qed.
Lemma total_add_incomplete a b : total σ (add_incomplete a b).
Proof. unfold add_incomplete. total. Qed.
Lemma total_double_incomplete a : total σ (double_incomplete a).
Proof. unfold double_incomplete. total. Qed.
Lemma total_finite_choose a b c : total σ (non_infinity_conditionally_select a b c).
Proof. unfold non_infinity_conditionally_select. total. Qed.
Local Hint Resolve total_point_add total_add_incomplete total_double_incomplete total_finite_choose : total.

Lemma total_index {A} (l : list A) i : i < length l → total σ (index l i).
Proof. apply gadget_index. Qed.

Lemma total_scalar_mul a bits : 0 < length bits → total σ (scalar_mul a bits).
Proof. intros Hl. unfold scalar_mul. cbv zeta. pose proof (total_index bits 0 Hl). total. Qed.
End TotalPoints.

(** * Points at infinity

    Whatever the slots hold, a point that the circuit computes with its flag
    set has the coordinates zero. *)
Section Infinity.
Context `{NumOps} `{!P256Group} (σ : Assignment).
Add Field scalar_field : scalar_field_theory (morphism of_int_morph, constants [scalar_const]).
Local Abbreviation nval := (nval σ).
Local Abbreviation nbit := (nbit σ).

Lemma gadget_and {A} (m : Synth A) P Q : gadget σ m P → gadget σ m Q → gadget σ m (λ a, P a ∧ Q a).
Proof.
  intros HP HQ na ni. apply wp_shape. intros Hs.
  destruct (proj1 (wp_shape _ _ _ _ _) (HP na ni) Hs) as (a & Ea & Hni & Ha).
  destruct (proj1 (wp_shape _ _ _ _ _) (HQ na ni) Hs) as (b & Eb & _ & Hb). rewrite Ea in Eb.
  injection Eb as <-. by exists a.
Qed.

Definition clean (r : AllocatedPoint) : Prop :=
  ∃ b : bool, nbit (is_infinity r) b ∧ (b = true → nval (x r) = ZERO ∧ nval (y r) = ZERO).

Lemma clean_finite r : nbit (is_infinity r) false → clean r.
Proof. intros Hf. by exists false. Qed.

Lemma clean_choose2 a b condition c :
  nbit condition c → clean a → clean b → gadget σ (point_conditionally_select2 a b condition) clean.
Proof.
  intros Hc (ba & Fa & Ca) (bb & Fb & Cb). unfold point_conditionally_select2.
  step gadget_conditionally_select2 as x' Ex; [exact Hc|].
  step gadget_conditionally_select2 as y' Ey; [exact Hc|].
  step gadget_conditionally_select2 as i' Ei; [exact Hc|]. apply gadget_ret.
  exists (if c then ba else bb). unfold Gadgets.nbit in *. cbn [x y is_infinity]. rewrite Ex, Ey, Ei. by destruct c.
Qed.

Lemma clean_choose a b r c :
  bbit σ r c → clean a → clean b → gadget σ (point_conditionally_select a b (Boolean_from r)) clean.
Proof.
  intros Hc (ba & Fa & Ca) (bb & Fb & Cb). unfold point_conditionally_select.
  step gadget_conditionally_select as x' Ex; [exact Hc|].
  step gadget_conditionally_select as y' Ey; [exact Hc|].
  step gadget_conditionally_select as i' Ei; [exact Hc|]. apply gadget_ret.
  exists (if c then ba else bb). unfold Gadgets.nbit in *. cbn [x y is_infinity]. rewrite Ex, Ey, Ei. by destruct c.
Qed.

Lemma clean_or_infinity a r c :
  bbit σ r c → clean a → gadget σ (select_point_or_infinity a (Boolean_from r)) clean.
Proof.
  intros Hc (ba & Fa & Ca). unfold select_point_or_infinity.
  step gadget_select_num_or_zero as x' Ex; [exact Hc|].
  step gadget_select_num_or_zero as y' Ey; [exact Hc|].
  step gadget_select_num_or_one as i' Ei; [exact Hc|]. apply gadget_ret.
  exists (if c then ba else true). unfold Gadgets.nbit in *. cbn [x y is_infinity]. rewrite Ex, Ey, Ei. by destruct c.
Qed.

Lemma clean_double self b : nbit (is_infinity self) b → gadget σ (Ecc.double self) (λ r, clean r ∧ nbit (is_infinity r) b).
Proof.
  intros Hf. unfold Ecc.double. destruct p256_curve_params as [a ?].
  alloc_rule. rule_as E1. step gadget_select_one_or_num2 as tmp Et; [exact Hf|].
  alloc_rule. rule_as E2. alloc_rule. rule_as E3.
  eapply gadget_bind; [eapply total_of, total_lambda_x_y|]. intros [x' y'] _.
  step gadget_select_zero_or_num2 as x'' Ex; [exact Hf|].
  step gadget_select_zero_or_num2 as y'' Ey; [exact Hf|]. apply gadget_ret. split; [|exact Hf].
  exists b. split; [exact Hf|]. intros ->. by cbn [x y].
Qed.

(** The sum of two points, by whether each is at infinity. *)
Lemma clean_add_internal self other equal_x e :
  clean self → clean other → bbit σ equal_x e →
  gadget σ (add_internal self other equal_x) (λ '(r, inf), clean r ∧ ∃ b : bool, nbit inf b).
Proof.
  intros (b & Hf & Hz) (b' & Hf' & Hz') He. unfold add_internal, var.
  alloc_rule. rename a into inf. rule_as E1. alloc_rule. rename a into actual. rule_as E2.
  assert (nbit inf (b || b')) as Hinf.
  { unfold Gadgets.nbit in *. rewrite Hf, Hf' in E1. destruct b, b'; cbn [of_bool orb] in *; by_rule E1. }
  assert (nbit actual (e || (b || b'))) as Hact.
  { unfold Gadgets.nbit, Gadgets.bbit in *. rewrite Hinf, He in E2. destruct e, (b || b'); cbn [of_bool orb] in *; by_rule E2. }
  step gadget_select_one_or_diff2 as diff Ed; [exact Hact|].
  alloc_rule. rename a into lambda. rule_as E3.
  eapply gadget_bind; [eapply total_of, total_lambda_x_y|]. intros [x' y'] _.
  step gadget_conditionally_select2 as x1 Ex1; [exact Hf'|].
  step gadget_conditionally_select2 as x2 Ex2; [exact Hf|].
  step gadget_conditionally_select2 as y1 Ey1; [exact Hf'|].
  step gadget_conditionally_select2 as y2 Ey2; [exact Hf|].
  step gadget_select_num_or_zero2 as i1 Ei1; [exact Hf'|].
  step gadget_conditionally_select2 as i2 Ei2; [exact Hf|]. apply gadget_ret.
  split; [|by exists (b || b')]. exists (b && b'). unfold Gadgets.nbit in *. cbn [x y is_infinity].
  rewrite Ei2, Ei1, Ex2, Ey2, Hf, Hf'. destruct b, b'; cbn [andb of_bool]; by split.
Qed.

Lemma clean_add self other : clean self → clean other → gadget σ (Ecc.add self other) clean.
Proof.
  intros Hs Ho. unfold Ecc.add, var. step gadget_alloc_num_equals as equal_x Hx. step gadget_alloc_num_equals as equal_y Hy.
  eapply gadget_bind; [by apply gadget_ns, (clean_add_internal _ _ _ _ Hs Ho Hx)|]. intros [sum inf] [Hsum (i & Hi)].
  pose proof Hs as (b & Hf & _). eapply gadget_bind; [by apply gadget_ns, clean_double|]. intros dbl [Hd _].
  eapply gadget_bind; [eapply gadget_ns, clean_or_infinity; [exact Hy|done]|]. intros equal Heq.
  alloc_rule. rename a into use. rule_as E.
  assert (∃ c : bool, nbit use c) as (c & Hc).
  { unfold Gadgets.nbit, Gadgets.bbit in *. rewrite Hi, Hx in E.
    exists (bool_decide (nval (x self) = nval (x other)) && negb i). destruct (bool_decide _), i; cbn [of_bool andb negb] in *; by_rule E. }
  by apply gadget_ns, (clean_choose2 _ _ _ c).
Qed.

Lemma clean_negate self : nbit (is_infinity self) false → gadget σ (negate self) (λ r, nbit (is_infinity r) false).
Proof. intros Hf. unfold negate, var. alloc_rule. rule_as E. by apply gadget_ret. Qed.

(** A multiple of a finite point. *)
Lemma clean_scalar_mul self bits vs :
  nbit (is_infinity self) false → Forall2 (bbit σ) bits vs → 0 < length bits → gadget σ (scalar_mul self bits) clean.
Proof.
  intros Hf HF Hl. unfold scalar_mul. cbv zeta.
  eapply gadget_bind; [eapply total_of, total_ns, total_double_incomplete|]. intros p0 _.
  eapply gadget_bind.
  { apply (total_foldM σ). intros [acc p] [i bit]. total; auto using total_add_incomplete, total_finite_choose, total_double_incomplete. }
  intros [acc p] _. cbv beta.
  assert (∀ acc, clean (to_allocated_point acc (is_infinity self))) as Hfin by (intros; by apply clean_finite).
  eapply gadget_bind; [apply gadget_ns, (clean_negate _ Hf)|]. intros neg Hneg.
  eapply gadget_bind; [apply gadget_ns, clean_add; [apply Hfin|by apply clean_finite]|]. intros minus Hminus.
  destruct HF as [|b0 v0 bits vs Hb0 HF]; [cbn in Hl; lia|].
  eapply gadget_bind; [by apply gadget_index_nth|]. intros ? ->.
  eapply gadget_bind; [by apply gadget_ns, (clean_choose _ _ _ v0)|]. intros res (rb & Hrf & Hrz).
  eapply gadget_bind; [apply gadget_ns, gadget_point_default|]. intros dflt _.
  step gadget_conditionally_select2 as x' Ex; [exact Hf|]. step gadget_conditionally_select2 as y' Ey; [exact Hf|].
  eapply gadget_bind.
  { apply (gadget_foldM σ _ _ _ (λ _ t, clean t.1 ∧ nbit (is_infinity t.2) false)).
    - split; [|exact Hf]. exists rb. cbn [fst x y is_infinity]. split; [exact Hrf|]. intros E. rewrite Ex, Ey. by apply Hrz.
    - intros done [i bit] [a q] Hd [Ha Hq]. apply prefix_snoc_lookup in Hd as [Hi _].
      apply list_lookup_imap_Some in Hi as (bit' & Eb & [= -> ->]).
      assert (∃ v, bbit σ bit' v) as (v & Hv).
      { eapply Forall2_lookup_l in Eb as (v & _ & Hv); [by exists v|]. apply Forall2_drop. by constructor. }
      cbn [fst snd] in *.
      eapply gadget_bind; [apply gadget_ns, clean_add; [exact Ha|by apply clean_finite]|]. intros temp Ht.
      eapply gadget_bind; [by apply gadget_ns, (clean_choose _ _ _ v)|]. intros a2 Ha2.
      eapply gadget_bind; [by apply gadget_ns, clean_double|]. intros q2 [_ Hq2]. by apply gadget_ret. }
  intros [acc' p'] [Hacc _]. by apply gadget_ret.
Qed.
End Infinity.

(** * Chains that meet

    The incomplete additions of a multiplication meet when the multiple so far
    and the power of the point that the next bit adds are one point. The rule of
    the addition then leaves its slope free. *)
Definition incomplete_part (bits : list bool) : list bool := drop 1 (take (NUM_BITS - 2) bits).
Definition incomplete_chain `{ScalarField} (bits : list bool) (q : Affine) (k : nat) : outcome Undefined (Affine * Affine) :=
  p ← tangent q; foldM incomplete_step (q, p) (take k (incomplete_part bits)).
Definition chain_meets `{ScalarField} (bits : list bool) (q : Affine) : Prop :=
  ∃ k r, k < length (incomplete_part bits) ∧ incomplete_chain bits q k = Ok (r, r).

Lemma foldM_stops {ER A B} (f : B → A → outcome ER B) b l :
  (∃ b', foldM f b l = Ok b') ∨
  (∃ k x b', l !! k = Some x ∧ foldM f b (take k l) = Ok b' ∧ ∀ b'', f b' x ≠ Ok b'').
Proof.
  induction l as [|x l IH] using rev_ind; [left; by exists b|]. rewrite foldM_app.
  destruct IH as [(b' & Eb)|(k & y & b' & Ek & Eb & Hf)].
  - rewrite Eb. cbn [mbind outcome_bind foldM]. destruct (f b' x) as [b''|e|w] eqn:E; [left; by exists b''|right..];
      (exists (length l), x, b'; split_and!; [by apply list_lookup_middle|by rewrite take_app_length|by rewrite E]).
  - right. exists k, y, b'. pose proof (lookup_lt_Some _ _ _ Ek). split_and!; [by apply lookup_app_l_Some| |done].
    by rewrite take_app_le by lia.
Qed.

Section Meets.
Context `{NumOps} `{!P256Group} (σ : Assignment).
Add Field scalar_field : scalar_field_theory (morphism of_int_morph, constants [scalar_const]).

(** The reference is defined, or an addition of its chain has one coordinate. *)
Lemma scalar_mul_cases vs q :
  on_curve (of_int b256) q →
  (∃ o, scalar_mul_ref vs q = Ok o) ∨
  (∃ k q1 r1, k < length (incomplete_part vs) ∧ incomplete_chain vs q k = Ok (q1, r1) ∧ ax q1 = ax r1).
Proof.
  intros Hq. unfold scalar_mul_ref, incomplete_ref, incomplete_chain. fold (incomplete_part vs).
  destruct (tangent q) as [p|e|w] eqn:Et; [|unfold tangent in Et; rewrite decide_False in Et by (by apply on_curve_nonzero); done..].
  cbn [mbind outcome_bind]. pose proof (tangent_on_curve _ _ _ Hq Et) as Hp.
  destruct (foldM_stops incomplete_step (q, p) (incomplete_part vs)) as [([a b] & ->)|(k & v & [q1 r1] & Ek & Ec & Hf)];
    [left; by eexists|right]. exists k, q1, r1. split; [by eapply lookup_lt_Some|]. split; [done|].
  pose proof (incomplete_on_curve _ _ _ _ Hq Hp Ec) as [_ Hr]. cbn [snd] in Hr. unfold incomplete_step in Hf. cbn [fst snd] in Hf.
  destruct (tangent r1) as [t|e|w] eqn:Er; [|unfold tangent in Er; rewrite decide_False in Er by (by apply on_curve_nonzero); done..].
  destruct (decide (ax q1 = ax r1)) as [E|N]; [done|]. unfold chord in Hf. rewrite decide_False in Hf by done.
  cbn [mbind outcome_bind] in Hf. by destruct (Hf _ eq_refl).
Qed.

Lemma gadget_add_same (self other : AllocatedPointNonInfinity) q r :
  finite_is σ self q → finite_is σ other r → ax q = ax r → gadget σ (add_incomplete self other) (λ _, ay q = ay r).
Proof.
  intros [Hx Hy] [Hx' Hy'] Ex. unfold add_incomplete, var. alloc_rule. rule_as E.
  assert (ay q = ay r) as Ey.
  { rewrite Hx, Hx', Hy, Hy', Ex in E. symmetry. by_rule E. }
  apply gadget_total; [|by intros _]. total; auto using total_lambda_x_y.
Qed.

(** An addition whose two points have one coordinate, in the loop. *)
Lemma gadget_incomplete_meets bits vs acc p q r k q1 r1 :
  Forall2 (bbit σ) bits vs → finite_is σ acc q → finite_is σ p r →
  foldM incomplete_step (q, r) (take k (drop 1 vs)) = Ok (q1, r1) → k < length (drop 1 vs) → ax q1 = ax r1 →
  gadget σ (foldM (λ '(acc, p) '(i, bit),
    temp ← ns ("add " +:+ pretty (i : nat)) (add_incomplete acc p);
    acc ← ns ("acc_iteration_" +:+ pretty i) (non_infinity_conditionally_select temp acc (Boolean_from bit));
    p ← ns ("double " +:+ pretty i) (double_incomplete p);
    mret (acc, p)) (acc, p) (drop 1 (imap (λ i bit, (i, bit)) bits)))
    (λ _, ay q1 = ay r1).
Proof.
  intros HF Hacc Hp Hs Hk Ex. set (f := foldM incomplete_step (q, r)) in *.
  assert (length (drop 1 (imap (λ i bit, (i, bit)) bits)) = length (drop 1 vs)) as Hl.
  { by rewrite !length_drop, length_imap, (Forall2_length _ _ _ HF). }
  eapply gadget_mono.
  { apply (gadget_foldM σ _ _ _ (λ done t,
      (length done ≤ k → ∀ u, f (take (length done) (drop 1 vs)) = Ok u → finite_is σ t.1 u.1 ∧ finite_is σ t.2 u.2) ∧
      (k < length done → ay q1 = ay r1))).
    - split; [by intros _ u [= <-]|cbn [length]; lia].
    - intros done [i bit] [acc' p'] Hd [IH IH']. apply prefix_snoc_lookup in Hd as [Hi _].
      rewrite lookup_drop in Hi. apply list_lookup_imap_Some in Hi as (bit' & Eb & [= -> ->]).
      destruct (Forall2_lookup_l _ _ _ _ _ HF Eb) as (v & Ev & Hv).
      assert (drop 1 vs !! length done = Some v) as Ev' by by rewrite lookup_drop.
      assert (∀ acc p, total σ (
        acc2 ← ns ("acc_iteration_" +:+ pretty (1 + length done)) (non_infinity_conditionally_select acc acc' (Boolean_from bit'));
        p2 ← ns ("double " +:+ pretty (1 + length done)) (double_incomplete p); mret (acc2, p2))) as Hrest.
      { intros. total; auto using total_finite_choose, total_double_incomplete. }
      rewrite length_app, Nat.add_1_r.
      destruct (decide (length done < k)) as [Hlt|Hge]; [|destruct (decide (length done = k)) as [He|Hne]].
      + assert (take k (drop 1 vs) !! length done = Some v) as Ev2 by by rewrite lookup_take_lt.
        destruct (foldM_prefix _ _ _ _ _ _ Hs Ev2) as ([q2 r2] & u' & E1 & E2 & E3).
        rewrite take_take, Nat.min_l in E1, E3 by lia.
        destruct (IH ltac:(lia) _ E1) as [H1' H2']. cbn [fst snd] in *.
        unfold incomplete_step in E2. cbn [fst snd] in E2.
        destruct (chord q2 r2) as [c1| |] eqn:Ec; [|done..]. cbn [mbind outcome_bind] in E2.
        destruct (tangent r2) as [t1| |] eqn:Et; [|done..]. cbn [mbind outcome_bind] in E2. injection E2 as <-.
        eapply gadget_bind; [by eapply gadget_ns, gadget_add_incomplete|]. intros temp Htemp.
        eapply gadget_bind.
        { apply gadget_ns, (gadget_finite_choose σ _ _ _ v (if v then c1 else q2)); [exact Hv|].
          destruct v; [exact Htemp|exact H1']. }
        intros acc2 Hacc2. eapply gadget_bind; [by eapply gadget_ns, gadget_double_incomplete|].
        intros p2 Hp2. apply gadget_ret. split; [|lia]. intros _ u Hu. unfold f in Hu. rewrite E3 in Hu. by injection Hu as <-.
      + subst k. destruct (IH ltac:(lia) _ Hs) as [H1' H2']. cbn [fst snd] in *.
        eapply gadget_bind; [by eapply gadget_ns, gadget_add_same|]. intros temp Ey.
        eapply gadget_mono; [apply Hrest|]. intros ? _. split; [lia|done].
      + eapply gadget_bind; [apply total_ns, total_add_incomplete|]. intros temp _.
        eapply gadget_mono; [apply Hrest|]. intros ? _. split; [lia|]. intros _. apply IH'. lia. }
  intros [acc' p'] [_ Ht]. apply Ht. rewrite Hl. exact Hk.
Qed.

Lemma gadget_chain_meets self bits vs q k q1 r1 :
  Forall2 (bbit σ) bits vs → point_is σ self (Some q) → on_curve (of_int b256) q →
  k < length (incomplete_part vs) → incomplete_chain vs q k = Ok (q1, r1) → ax q1 = ax r1 →
  gadget σ (scalar_mul self bits) (λ _, ay q1 = ay r1).
Proof.
  intros HF Hs Hq Hk Hc Ex. unfold incomplete_chain in Hc. destruct (tangent q) as [d|e|w] eqn:Et; [|done..]. cbn [mbind outcome_bind] in Hc.
  assert (0 < length bits) as Hl.
  { rewrite (Forall2_length _ _ _ HF). unfold incomplete_part in Hk. rewrite length_drop, length_take in Hk. lia. }
  unfold scalar_mul. cbv zeta. destruct (split_take bits (NUM_BITS - 2)) as [-> ->].
  eapply gadget_bind; [eapply gadget_ns, gadget_double_incomplete; [|exact Et]; apply Hs|]. intros p0 Hp0.
  eapply gadget_bind.
  { apply (gadget_incomplete_meets _ (take (NUM_BITS - 2) vs) _ _ q d k q1 r1);
      [by apply Forall2_take|apply Hs|exact Hp0|exact Hc|exact Hk|exact Ex]. }
  intros [acc p1] Ey. apply gadget_total; [|by intros _]. pose proof (total_index σ bits 0 Hl).
  total; auto using total_negate, total_point_add, total_point_choose, total_point_default, total_conditionally_select2, total_point_double.
Qed.

(** A multiplication computes the reference's multiple, or its chain meets. *)
Lemma gadget_scalar_mul_or self bits vs q :
  Forall2 (bbit σ) bits vs → 0 < length vs → point_is σ self (Some q) → on_curve (of_int b256) q →
  gadget σ (scalar_mul self bits) (λ r,
    clean σ r ∧ ((∃ o, scalar_mul_ref vs q = Ok o ∧ point_is σ r o ∧ pon o) ∨ chain_meets vs q)).
Proof.
  intros HF Hn Hs Hq. apply gadget_and.
  { apply (clean_scalar_mul σ self bits vs); [apply Hs|done|]. by rewrite (Forall2_length _ _ _ HF). }
  destruct (scalar_mul_cases vs q Hq) as [(o & Eo)|(k & q1 & r1 & Hk & Hc & Ex)].
  - eapply gadget_mono; [by apply (gadget_scalar_mul σ self bits vs q o)|]. intros r Hr. left. by exists o.
  - eapply gadget_mono; [by apply (gadget_chain_meets self bits vs q k q1 r1)|]. intros ? Ey. right.
    exists k, r1. split; [done|]. rewrite Hc. do 2 f_equal. destruct q1, r1. cbn in *. by subst.
Qed.
End Meets.

(** * Verification *)
(** The equation of ECDSA as the rules check it, over the integers: the
    scalars are four limbs, the congruences are modulo the group's order, and
    the coordinate of the sum is one of its representatives below [2^256]. The
    sum of the two multiples is that of the group, and at infinity its
    coordinate is zero: the code rejects neither an infinite sum nor [r = 0].
    The only other way out is a multiplication whose chain meets, which takes a
    point of an order below [2^254]. *)
Definition scalar_range (v : Z) : Prop := (0 ≤ v < 2 ^ 256)%Z.
Definition sum_x `{ScalarField} (o : option Affine) : Scalar := match o with Some c => ax c | None => ZERO end.
Definition scalar_bits (u : Z) : list bool := reverse (int_bits 256 u).
Definition sum_of_multiples `{ScalarField} (u1 u2 : Z) (g q : Affine) (v : Scalar) : Prop :=
  ∃ a b, scalar_mul_ref (scalar_bits u1) g = Ok a ∧ scalar_mul_ref (scalar_bits u2) q = Ok b ∧ v = sum_x (padd a b).
Definition ecdsa_equation `{ScalarField} (n z r : Z) (g q : Affine) : Prop :=
  (∃ s s_inv u1 u2, scalar_range s ∧ scalar_range s_inv ∧ scalar_range u1 ∧ scalar_range u2 ∧
    (s * s_inv) mod n = 1 ∧ u1 mod n = (z * s_inv) mod n ∧ u2 mod n = (r * s_inv) mod n ∧
    ((∃ x, scalar_range x ∧ sum_of_multiples u1 u2 g q (of_int x) ∧ x mod n = r mod n) ∨
     chain_meets (scalar_bits u1) g ∨ chain_meets (scalar_bits u2) q))%Z.

Section Verify.
Context `{NumOps} `{!NonNative} `{!P256Group} (σ : Assignment).
Add Field scalar_field : scalar_field_theory (morphism of_int_morph, constants [scalar_const]).
Local Abbreviation holds_int := (holds_int σ).

(** The generator, from the coordinates of the prover's library. *)
Definition base_point : Affine := {| ax := p256_generator.1; ay := p256_generator.2 |}.

Lemma ecdsa_base_on_curve : on_curve (of_int b256) base_point.
Proof. unfold base_point, p256_generator. cbn [fst snd]. rewrite !field_switch_le. apply generator_on_curve. Qed.

Lemma order_range : (1 < p256_order < 2 ^ 256)%Z.
Proof. unfold p256_order. rewrite group_order. by vm_compute. Qed.

Lemma gadget_point_alloc_constant coords inf :
  nbit σ inf false →
  gadget σ (point_alloc_constant coords inf) (λ g, point_is σ g (Some {| ax := coords.1; ay := coords.2 |})).
Proof.
  intros Hinf. unfold point_alloc_constant. step gadget_alloc_constant as gx Ex.
  step gadget_alloc_constant as gy Ey. by apply gadget_ret.
Qed.

(** A new number in range. *)
Lemma gadget_new_int name name' v (f : BigNat → Synth unit) P :
  (∀ b w, holds_int b w → gadget σ (f b) P) →
  gadget σ (b ← ns name (alloc_from_nat (Ok v) LIMB_WIDTH N_LIMBS); ns name' (assert_well_formed b) ;; f b) P.
Proof.
  intros Hf. eapply gadget_bind; [by apply gadget_ns, gadget_alloc_from_nat|]. intros b (Hs & Pb & _).
  eapply gadget_bind; [by apply gadget_ns, gadget_well_formed|]. intros [] (w & Hw). by eapply Hf.
Qed.

(** The multiples and their sum, whatever the chains do. *)
Lemma gadget_sum_points g q u1_bits u2_bits u1 u2 (G Q : Affine) :
  Forall2 (bbit σ) u1_bits (scalar_bits u1) → Forall2 (bbit σ) u2_bits (scalar_bits u2) →
  point_is σ g (Some G) → point_is σ q (Some Q) → on_curve (of_int b256) G → on_curve (of_int b256) Q →
  gadget σ (u1_g ← ns "u1 * G" (scalar_mul g u1_bits); u2_q ← ns "u2 * Q" (scalar_mul q u2_bits);
    ns "u1*G + u2*Q" (Ecc.add u1_g u2_q))
  (λ r, sum_of_multiples u1 u2 G Q (nval σ (x r)) ∨ chain_meets (scalar_bits u1) G ∨ chain_meets (scalar_bits u2) Q).
Proof.
  intros H1' H2' Hg Hq Cg Cq.
  assert (∀ u, 0 < length (scalar_bits u)) as Hl by (intros u; unfold scalar_bits; rewrite length_reverse, length_int_bits; lia).
  eapply gadget_bind; [by apply gadget_ns, (gadget_scalar_mul_or σ _ _ _ G H1')|]. intros u1_g [K1 [(a & Ea & Ha & Ca)|M1]].
  2: { eapply gadget_bind; [apply total_ns, total_scalar_mul; rewrite (Forall2_length _ _ _ H2'); apply Hl|]. intros u2_q _.
       apply gadget_total; [by apply total_ns, total_point_add|intros ?; by right; left]. }
  eapply gadget_bind; [by apply gadget_ns, (gadget_scalar_mul_or σ _ _ _ Q H2')|]. intros u2_q [K2 [(b & Eb & Hb & Cb)|M2]].
  2: { apply gadget_total; [by apply total_ns, total_point_add|intros ?; by right; right]. }
  eapply gadget_mono.
  { apply gadget_ns, gadget_and; [by apply clean_add|]. apply (gadget_add_points σ u1_g u2_q a b); [done|done|].
    intros r ->. by apply on_curve_nonzero. }
  intros r [(f & Hf & Hz) [Hf' Hr]]. left. exists a, b. split; [done|]. split; [done|].
  destruct (padd a b) as [c|]; [apply Hr|]. apply Hz. apply of_bool_inj. unfold Gadgets.nbit in *.
  by rewrite <-Hf, Hf'.
Qed.

Lemma gadget_bind3 {A B C D} (m1 : Synth A) (m2 : A → Synth B) (m3 : A → B → Synth C) (f : C → Synth D) P P' :
  gadget σ (a ← m1; b ← m2 a; m3 a b) P → (∀ c, P c → gadget σ (f c) P') →
  gadget σ (a ← m1; b ← m2 a; c ← m3 a b; f c) P'.
Proof.
  intros Hm Hf na ni. specialize (Hm na ni). apply wp_bind in Hm. apply wp_bind.
  eapply wp_mono; [exact Hm|]. intros a na1 ni1 Ha. apply wp_bind in Ha. apply wp_bind.
  eapply wp_mono; [exact Ha|]. intros b na2 ni2 Hb. apply wp_bind.
  eapply wp_mono; [exact Hb|]. intros c na3 ni3 [-> Hc]. by apply Hf.
Qed.

(** Whoever assigns the slots, the key is on the curve and the equation holds
    for some [r]. *)
Lemma gadget_verify_with_digest qx qy r s s_inv z_bn z :
  holds_int z_bn z →
  gadget σ (verify_ecdsa_p256_with_digest qx qy r s s_inv z_bn) (λ _,
    let q := {| ax := nval σ qx; ay := nval σ qy |} in
    on_curve (of_int b256) q ∧ ∃ r, scalar_range r ∧ ecdsa_equation p256_order z r base_point q).
Proof.
  intros Hz. unfold verify_ecdsa_p256_with_digest. pose proof order_range as Hn.
  step gadget_constant as n_bn [Hnb Hnv]; [lia|].
  assert (nat_value n_bn ≠ Some 0%Z) as Hn0 by (rewrite Hnv; intros [= E]; lia).
  step gadget_constant as one_bn [Hone _]; [by vm_compute|].
  apply gadget_new_int. intros r_bn vr Hr. apply gadget_new_int. intros s_bn vs Hs.
  apply gadget_new_int. intros s_inv_bn vi Hi.
  eapply gadget_bind; [apply gadget_ns, (gadget_mult_mod_int σ _ _ _ _ _ _ Hs Hi Hnb Hn0)|].
  intros [? t] (vt & Ht & Et). cbn [snd] in Ht.
  eapply gadget_bind; [apply gadget_ns, (gadget_equal_int σ _ _ _ _ Ht Hone)|]. intros [] E1. cbv beta in E1.
  eapply gadget_bind; [apply gadget_ns, (gadget_mult_mod_int σ _ _ _ _ _ _ Hz Hi Hnb Hn0)|].
  intros [? u1_bn] (u1 & Hu1 & Eu1). cbn [snd] in Hu1.
  eapply gadget_bind; [apply gadget_ns, (gadget_mult_mod_int σ _ _ _ _ _ _ Hr Hi Hnb Hn0)|].
  intros [? u2_bn] (u2 & Hu2 & Eu2). cbn [snd] in Hu2.
  eapply gadget_bind; [by apply gadget_ns, gadget_decompose_int|]. intros u1_bits B1.
  eapply gadget_bind; [by apply gadget_ns, gadget_decompose_int|]. intros u2_bits B2.
  step gadget_alloc_constant as gi Egi.
  eapply gadget_bind; [by apply gadget_ns, gadget_point_alloc_constant|]. intros g Hg. cbv beta in Hg.
  step gadget_alloc_constant as qi Eqi. cbv zeta.
  set (q := {| x := qx; y := qy; is_infinity := qi |}). set (Q := {| ax := nval σ qx; ay := nval σ qy |}).
  assert (point_is σ q (Some Q)) as Hq by done.
  eapply gadget_bind; [by apply gadget_ns, (gadget_check_on_curve σ q (Some Q))|]. intros [] CQ. cbv beta in CQ. simpl in CQ.
  eapply gadget_bind3; [exact (gadget_sum_points g q u1_bits u2_bits u1 u2 base_point Q B1 B2 Hg Hq ecdsa_base_on_curve CQ)|].
  intros rp Hsum. step gadget_from_num_int as x_bn (vx & Hx & Ex).
  eapply gadget_bind; [by apply gadget_ns, (gadget_red_mod_int σ _ _ _ _ Hx Hnb)|]. intros xm (vm & Hm & Em).
  eapply gadget_mono; [by apply gadget_ns, (gadget_equal_int σ _ _ _ _ Hm Hr)|]. intros [] E2. subst vm.
  split; [done|]. exists vr. split; [by eapply holds_int_range|]. exists vs, vi, u1, u2.
  split; [by eapply holds_int_range|]. split; [by eapply holds_int_range|].
  split; [by eapply holds_int_range|]. split; [by eapply holds_int_range|].
  rewrite <-Et, E1, Eu1, Eu2. split; [apply Z.mod_1_l; lia|]. split; [done|]. split; [done|].
  destruct Hsum as [Hsum|?]; [left|by right]. exists vx. split; [by eapply holds_int_range|]. split; [|done].
  assert (of_int vx = nval σ (x rp)) as ->; [|exact Hsum].
  rewrite <-Ex. cbn [Num_from n_num]. autorewrite with evals. unfold nval. ring.
Qed.
End Verify.

(** * Properties *)
Section EcdsaProperties.
Context `{NumOps} `{!NonNative} `{!P256Group}.

(** C11: Whoever assigns the slots, the rules of the verification force the key
    to be a point of the curve, and the equation of ECDSA for the digest and
    some [r]: an inverse of [s], the two scalars, and a coordinate congruent to
    [r] modulo the group's order, which is that of [u1 G + u2 Q] in the group,
    or zero when that sum is at infinity. Neither [r = 0] nor an infinite sum is
    excluded, since the code does not reject them: a digest of zero modulo the
    order meets the equation under every key. The one escape is a
    multiplication two of whose incompletely added points are the same. *)
Theorem ecdsa_sound (σ : Assignment) qx qy r s s_inv z_bn z :
  holds_int σ z_bn z →
  gadget σ (verify_ecdsa_p256_with_digest qx qy r s s_inv z_bn) (λ _,
    let q := {| ax := nval σ qx; ay := nval σ qy |} in
    on_curve (of_int b256) q ∧ ∃ r, scalar_range r ∧ ecdsa_equation p256_order z r base_point q).
Proof. apply gadget_verify_with_digest. Qed.
End EcdsaProperties.
