(* ===== verification/P256Constants.v ===== *)
(** The fixed points of [gadgets/p256.rs]: [hash_to_point] and [constants].
    The curve's arithmetic is [halo2curves]'s, the class [CurveLibrary].
    The search for a point never reaches its [expect], and it finds the first
    counter whose x-coordinate lies on the curve. *)
From Stdlib Require Import ZArith Lia Znumtheory Zmod Strings.String Strings.Byte.
From Stdlib Require Import Field_tac Ring.
From stdpp Require Import base list numbers option strings.
From S2P Require Import Prelude Bytes Field Primes Lc Table Curve P256.

#[export] Instance on_curve_decision `{ScalarField} b p : Decision (on_curve b p) := decide (_ = _).

(** The integer of 64-bit limbs, least significant first. *)
Definition limbs_int (limbs : list Z) : Z := foldr (λ l v, l + 2 ^ 64 * v)%Z 0%Z limbs.

(** [halo2curves]'s field and curve operations, as the sources call them. *)
Class CurveLibrary `{ScalarField} := {
  curve_a : Scalar;
  curve_b : Scalar;
  legendre : Scalar → Z;
  pow_vartime : Scalar → list Z → Scalar;
  is_odd : Scalar → bool;
  from_xy : Scalar → Scalar → option Affine;
  (** [Secp256r1], the points in projective coordinates. *)
  Secp256r1 : Type;
  secp_from : Affine → Secp256r1;
  secp_generator : Secp256r1;
  secp_identity : Secp256r1;
  secp_double : Secp256r1 → Secp256r1;
  secp_add : Secp256r1 → Secp256r1 → Secp256r1;
  secp_neg : Secp256r1 → Secp256r1;
  to_affine : Secp256r1 → Affine;
  batch_normalize : list Secp256r1 → list Affine;

  curve_a_spec : curve_a = of_int (-3);
  curve_b_spec : curve_b = of_int b256;
  legendre_spec x :
    legendre x = (-1)%Z ∧ (∀ y, (y * y)%S ≠ x) ∨ legendre x ≠ (-1)%Z ∧ ∃ y, (y * y)%S = x;
  pow_vartime_spec x limbs :
    (0 ≤ limbs_int limbs)%Z → pow_vartime x limbs = of_int (repr x ^ limbs_int limbs);
  is_odd_spec x : is_odd x = Z.odd (repr x);
  from_xy_spec x y :
    from_xy x y = if decide (on_curve (of_int b256) {| ax := x; ay := y |})
                  then Some {| ax := x; ay := y |} else None;
  (** The identity, which is not on the curve, has the coordinates 0 and 0. *)
  to_affine_spec g : to_affine g = origin ∨ on_curve (of_int b256) (to_affine g);
  batch_normalize_spec gs : batch_normalize gs = to_affine <$> gs;
}.

Section Constants.
Context `{CurveLibrary} `{Sha2}.

Definition SQRT_EXPONENT : list Z := [0; 0x40000000; 0x4000000000000000; 0x3fffffffc0000000]%Z.

(** [x³ + a x + b], and the candidate of a counter. *)
Definition y_squared (x : Scalar) : Scalar := (x * x * x + curve_a * x + curve_b)%S.
Definition candidate (label : list byte) (index counter : Z) : Scalar :=
  from_be (sha256_digest (label ++ be_bytes 8 index ++ be_bytes 8 counter)).

(** The search from [counter]; running out of fuel is the error. *)
Fixpoint search (fuel : nat) (label : list byte) (index counter : Z) : outcome unit Affine :=
  match fuel with
  | O => Err tt
  | S fuel =>
      let x := candidate label index counter in
      if (legendre (y_squared x) =? -1)%Z then search fuel label index (counter + 1)%Z
      else
        let y := pow_vartime (y_squared x) SQRT_EXPONENT in
        let y := if is_odd y then (- y)%S else y in
        match from_xy x y with
        | Some p => Ok p
        | None => Panic "the point is on the curve"
        end
  end.
Definition hash_to_point (fuel : nat) (label : list byte) (index : Z) : outcome unit Affine :=
  search fuel label index 0.

(** [w.as_chunks::<4>()], as windows. *)
Definition window_of (w : list Affine) : Affine * Affine * Affine * Affine :=
  (at_point w 0, at_point w 1, at_point w 2, at_point w 3).

Definition constants (fuel : nat) : outcome unit Constants :=
  start ← hash_to_point fuel (bytes_of "vega-age accumulator start") 0;
  let shifted := Nat.iter 256 secp_double (secp_from start) in
  '(_, offsets, entries) ← foldM (λ '(base, offsets, entries) i,
    offset ← secp_from <$> hash_to_point fuel (bytes_of "vega-age window offset") (Z.of_nat i);
    let new := (λ d, Nat.iter d (λ e, secp_add e base) offset) <$> range 4 in
    mret (secp_double (secp_double base), secp_add offsets offset, entries ++ new))
    (secp_generator, secp_identity, []) (range 128);
  let affine := batch_normalize entries in
  mret {| c_start := start;
          c_start_removed := to_affine (secp_neg shifted);
          c_windows := window_of <$> chunks 4 affine;
          c_offsets_removed := to_affine (secp_neg offsets) |}.
End Constants.

(** * The search *)
Section Search.
Context `{CurveLibrary} `{Sha2}.
Add Field scalar_field : scalar_field_theory (morphism of_int_morph, constants [scalar_const]).
Local Abbreviation on_p256 := (on_curve (of_int b256)).

Lemma sqrt_exponent : limbs_int SQRT_EXPONENT = ((p + 1) / 4)%Z.
Proof. by vm_compute. Qed.

Lemma y_squared_curve x : y_squared x = (x * x * x - of_int 3 * x + of_int b256)%S.
Proof. unfold y_squared. rewrite curve_a_spec, curve_b_spec, (of_int_opp 3). ring. Qed.

(** The power (p + 1)/4 of a square is a root of it. *)
Lemma sqrt_square y :
  let r := pow_vartime (y * y)%S SQRT_EXPONENT in (r * r)%S = (y * y)%S.
Proof.
  cbv zeta. rewrite pow_vartime_spec, sqrt_exponent by by vm_compute.
  set (k := ((p + 1) / 4)%Z). assert (0 ≤ k)%Z as Hk by by vm_compute.
  assert (4 * k = p + 1)%Z as Ek by by vm_compute. pose proof p_pos.
  assert (repr (y * y)%S = (repr y ^ 2) mod p)%Z as Er by (unfold repr; rewrite mul_repr; f_equal; ring).
  rewrite <-of_int_mul, <-Z.pow_add_r by done.
  transitivity (of_int (repr (y * y)%S)); [|apply of_int_repr]. apply of_int_eq.
  rewrite Er, Z.mod_pow_l, <-Z.pow_mul_r, Z.mod_mod by lia.
  replace (2 * (k + k))%Z with (p + 1)%Z by lia. rewrite Z.pow_add_r, Z.pow_1_r by lia.
  rewrite <-Z.mul_mod_idemp_l, ZmodInv.Z.fermat, Z.mul_mod_idemp_l by (apply prime_p || lia).
  f_equal. ring.
Qed.

Lemma even_neg y : is_odd y = true → is_odd (- y)%S = false.
Proof.
  rewrite !is_odd_spec. unfold repr. rewrite neg_repr. fold (repr y). intros Ho.
  pose proof (repr_range y) as Hr. destruct (Z.eq_dec (repr y) 0%Z) as [E|N]; [by rewrite E in Ho|].
  replace ((- repr y) mod p)%Z with (p - repr y)%Z.
  - rewrite Z.odd_sub, Ho. by vm_compute.
  - symmetry. rewrite <-(Z.mod_add _ 1) by lia. rewrite Z.mod_small by lia. lia.
Qed.

(** A point of the curve with even y, whose x comes from the first counter,
    from [counter] on, for which there is one. *)
Definition first_point (label : list byte) (index counter : Z) (n : nat) (a : Affine) : Prop :=
  on_p256 a ∧ Z.odd (repr (ay a)) = false ∧
  ax a = candidate label index (counter + Z.of_nat n) ∧
  ∀ m y, m < n → (y * y)%S ≠ y_squared (candidate label index (counter + Z.of_nat m)).

Lemma search_first fuel label index counter :
  match search fuel label index counter with
  | Ok a => ∃ n, n < fuel ∧ first_point label index counter n a
  | Err _ => ∀ m y, m < fuel → (y * y)%S ≠ y_squared (candidate label index (counter + Z.of_nat m))
  | Panic _ => False
  end.
Proof.
  revert counter. induction fuel as [|fuel IH]; intros counter; cbn [search]; [intros; lia|].
  set (x := candidate label index counter).
  assert (∀ (P : nat → Prop) n, P 0 → (∀ m, m < n → P (S m)) → ∀ m, m < S n → P m) as Hcases.
  { intros P n H0' HS [|m] Hm; [done|apply HS; lia]. }
  destruct (legendre_spec (y_squared x)) as [[-> N]|[Hl [y Ey]]].
  - assert (∀ y, (y * y)%S ≠ y_squared (candidate label index (counter + Z.of_nat 0))) as N0
      by (rewrite Z.add_0_r; exact N).
    assert (∀ m, counter + Z.of_nat (S m) = counter + 1 + Z.of_nat m)%Z as Es by lia.
    specialize (IH (counter + 1)%Z). cbn [Z.eqb]. destruct (search _ _ _ _) as [a|[]|]; [| |done].
    + destruct IH as (n & Hn & (Hc & Hodd & Hx & Hfirst)). exists (S n). split; [lia|].
      split_and!; [done..|by rewrite Es|]. intros m y. revert m.
      apply Hcases; [done|]. intros m Hm. rewrite Es. by apply Hfirst.
    + intros m y. revert m. apply Hcases; [done|]. intros m Hm. rewrite Es. by apply IH.
  - rewrite (proj2 (Z.eqb_neq _ _) Hl). rewrite <-Ey. set (r := pow_vartime _ _).
    pose proof (sqrt_square y) as Er. cbv zeta in Er. fold r in Er.
    set (y' := if is_odd r then (- r)%S else r).
    assert (y' * y' = y_squared x)%S as Ey'.
    { rewrite <-Ey, <-Er. unfold y'. destruct (is_odd r); ring. }
    assert (is_odd y' = false) as Hodd.
    { unfold y'. destruct (is_odd r) eqn:E; [by apply even_neg|done]. }
    assert (on_p256 {| ax := x; ay := y' |}) as Hc.
    { unfold on_curve. cbn [ax ay]. rewrite Ey', y_squared_curve. ring. }
    rewrite from_xy_spec, decide_True by done. exists 0. split; [lia|].
    split_and!; [done|by rewrite <-is_odd_spec|cbn [ax]; by rewrite Z.add_0_r|intros; lia].
Qed.
End Search.

Section Properties.
Context `{CurveLibrary} `{Sha2}.

(** The search of [hash_to_point] never reaches its panic, and it returns
    the point with even y whose x-coordinate is the hash of the first counter
    that gives a point of the curve; it runs out of fuel only when no counter
    up to there gives one. *)
Theorem hash_to_point_first fuel label index :
  match hash_to_point fuel label index with
  | Ok a => ∃ n, n < fuel ∧ first_point label index 0 n a
  | Err _ => ∀ m y, m < fuel → (y * y)%S ≠ y_squared (candidate label index (Z.of_nat m))
  | Panic _ => False
  end.
Proof. exact (search_first fuel label index 0). Qed.

(** The fixed points are points of the curve, if none of them is the identity. *)
Definition no_identity (c : Constants) : Prop :=
  c_start_removed c ≠ origin ∧ c_offsets_removed c ≠ origin ∧
  Forall (λ '(e0, e1, e2, e3), e0 ≠ origin ∧ e1 ≠ origin ∧ e2 ≠ origin ∧ e3 ≠ origin) (c_windows c).

Lemma foldM_length {B C X E} (f : B * C * list X → nat → outcome E (B * C * list X)) k l st st' :
  (∀ st i st', f st i = Ok st' → length st'.2 = length st.2 + k) →
  foldM f st l = Ok st' → length st'.2 = length st.2 + k * length l.
Proof.
  intros Hf. revert st. induction l as [|i l IH]; intros st; cbn [foldM length]; [intros [= ->]; lia|].
  intros (st1 & E1 & E2)%outcome_bind_ok. apply Hf in E1. apply IH in E2. lia.
Qed.

Lemma at_point_in (w : list Affine) i : i < length w → at_point w i ∈ w.
Proof.
  intros Hi. apply lookup_lt_is_Some_2 in Hi as [a Ha]. unfold at_point. rewrite Ha.
  by eapply list_elem_of_lookup_2.
Qed.

Lemma constants_Ok fuel c :
  constants fuel = Ok c →
  length (c_windows c) = 128 ∧ on_curve (of_int b256) (c_start c) ∧
  (no_identity c → constants_on_curve c).
Proof.
  unfold constants. generalize 256. intros rounds (start & Es & E)%outcome_bind_ok.
  apply outcome_bind_ok in E as ([[base offsets] entries] & Ee & E). injection E as <-. cbn.
  apply (foldM_length _ 4) in Ee; [|].
  2: { intros [[? ?] ?] i st' (off & _ & [= <-])%outcome_bind_ok. cbn. by rewrite length_app. }
  change (length entries = 512) in Ee.
  assert (on_curve (of_int b256) start) as Hs.
  { pose proof (search_first fuel (bytes_of "vega-age accumulator start") 0 0) as Hf.
    unfold hash_to_point in Es. rewrite Es in Hf. by destruct Hf as (n & _ & [? _]). }
  rewrite batch_normalize_spec.
  assert (length (to_affine <$> entries) = 128 * 4) as El by by rewrite length_fmap, Ee.
  destruct (chunks_lengths 4 128 _ ltac:(lia) El) as [HF4 Hn]. rewrite length_fmap.
  split_and!; [done..|]. intros (N1 & N2 & N3).
  assert (∀ g, to_affine g ≠ origin → on_curve (of_int b256) (to_affine g)) as Hon
    by (intros g N; by destruct (to_affine_spec g)).
  split; cbn [c_start c_start_removed c_windows c_offsets_removed]; [done|by apply Hon| |by apply Hon].
  assert (Forall (λ a, a ≠ origin → on_curve (of_int b256) a) (to_affine <$> entries)) as HF.
  { apply Forall_fmap, list.Forall_forall. intros g _ N. by apply Hon. }
  rewrite <-(concat_chunks 4) in HF by lia. rewrite Forall_concat in HF.
  cbn [c_windows] in N3. rewrite Forall_fmap in N3 |- *.
  apply list.Forall_forall. intros w Hw. pose proof (proj1 (list.Forall_forall _ _) N3 w Hw) as Nw.
  pose proof (proj1 (list.Forall_forall _ _) HF w Hw) as Cw.
  pose proof (proj1 (list.Forall_forall _ _) HF4 w Hw : length w = 4) as L4. cbn in Nw |- *.
  assert (∀ i, i < 4 → at_point w i ≠ origin → on_curve (of_int b256) (at_point w i)) as Hi.
  { intros i Hi. apply (proj1 (list.Forall_forall _ _) Cw), at_point_in. lia. }
  destruct Nw as (?&?&?&?). split_and!; apply Hi; done || lia.
Qed.
Lemma hash_to_point_no_panic fuel label index w : hash_to_point fuel label index ≠ Panic w.
Proof.
  intros E. pose proof (search_first fuel label index 0) as Hf. unfold hash_to_point in E. by rewrite E in Hf.
Qed.

Lemma foldM_no_panic {A B Er} (f : B → A → outcome Er B) l b w :
  (∀ b x w, f b x ≠ Panic w) → foldM f b l ≠ Panic w.
Proof.
  intros Hf. revert b. induction l as [|x l IH]; intros b; [done|]. cbn [foldM].
  destruct (f b x) as [b'| |] eqn:E; [apply IH|done|by apply Hf in E].
Qed.

(** With the fuel to find its points, [constants] gives 128 windows, and
    its points lie on the curve when none of them is the identity; the start
    of the accumulator always does.  No fuel makes it panic. *)
Theorem constants_valid fuel :
  match constants fuel with
  | Ok c => length (c_windows c) = 128 ∧ on_curve (of_int b256) (c_start c) ∧
            (no_identity c → constants_on_curve c)
  | Err _ => True
  | Panic _ => False
  end.
Proof.
  destruct (constants fuel) as [c| |w] eqn:E; [by apply (constants_Ok fuel)|done|].
  unfold constants in E. pose proof (hash_to_point_no_panic fuel (bytes_of "vega-age accumulator start") 0) as N.
  destruct (hash_to_point _ _ 0) as [start| |w']; [|done|by destruct (N w')]. cbn [mbind outcome_bind] in E.
  match type of E with context [foldM ?f ?b ?l] =>
    assert (∀ w, foldM f b l ≠ Panic w) as Nf; [intros w'; apply foldM_no_panic|destruct (foldM f b l) as [[[? ?] ?]| |w']]
  end; [|done..|by destruct (Nf w')].
  intros [[base offsets] entries] i w2 E2.
  pose proof (hash_to_point_no_panic fuel (bytes_of "vega-age window offset") (Z.of_nat i)) as Nh.
  destruct (hash_to_point _ _ _) as [a| |w3]; [done..|]. by destruct (Nh w3).
Qed.
End Properties.
