(* ===== verification/Cbor.v ===== *)
(** [fixtures/cbor.rs]: the CBOR encoder, and the reader that takes real
    credentials apart (RFC 8949).

    A [String] is its UTF-8 bytes. A slice of the input is the list of its
    bytes, so an item holds its own encoding. [usize] and [u64] have 64 bits. *)
From Stdlib Require Import ZArith Lia Strings.String Strings.Byte.
From stdpp Require Import base list numbers option strings pretty.
From S2P Require Import Prelude Bytes.
Local Open Scope Z_scope.

(** * UTF-8

    [std::str::from_utf8(..).is_err()], by the well-formed byte sequences of
    the Unicode standard (table 3-7). *)
Section Utf8.
Definition between (lo hi : Z) (b : byte) : bool := (lo <=? b2z b) && (b2z b <=? hi).
Definition tail (b : byte) : bool := between 0x80 0xbf b.

Fixpoint utf8_valid (l : list byte) : bool :=
  match l with
  | [] => true
  | a :: l1 =>
  if between 0 0x7f a then utf8_valid l1 else
  match l1 with
  | [] => false
  | b :: l2 =>
  if between 0xc2 0xdf a then tail b && utf8_valid l2 else
  match l2 with
  | [] => false
  | c :: l3 =>
  if between 0xe0 0xe0 a then between 0xa0 0xbf b && tail c && utf8_valid l3
  else if between 0xe1 0xec a || between 0xee 0xef a
  then tail b && tail c && utf8_valid l3
  else if between 0xed 0xed a then between 0x80 0x9f b && tail c && utf8_valid l3
  else match l3 with
  | [] => false
  | d :: l4 =>
  ((between 0xf0 0xf0 a && between 0x90 0xbf b)
  || (between 0xf1 0xf3 a && tail b)
  || (between 0xf4 0xf4 a && between 0x80 0x8f b))
  && tail c && tail d && utf8_valid l4
  end
  end
  end
  end.
End Utf8.

(** * The encoder *)
Inductive Value :=
  | Unsigned (n : Z)
  | Negative (n : Z)
  | Bytes (b : list byte)
  | Text (t : list byte)
  | Array (items : list Value)
  | Map (entries : list (Value * Value))
  | Tag (number : Z) (v : Value)
  | Bool (b : bool)
  | Encoded (bytes : list byte).

Definition int (i : Z) : Value := if 0 <=? i then Unsigned i else Negative (-1 - i).

(** A map with text keys. *)
Definition record (entries : list (list byte * Value)) : Value :=
  Map ((λ '(k, v), (Text k, v)) <$> entries).

(** The initial byte and the argument in its shortest form. *)
Definition head (major n : Z) : list byte :=
  let major := Z.shiftl major 5 in
  if n <=? 23 then [z2b (Z.lor major n)]
  else if n <=? 0xff then z2b (Z.lor major 24) :: be_bytes 1 n
  else if n <=? 0xffff then z2b (Z.lor major 25) :: be_bytes 2 n
  else if n <=? 0xffffffff then z2b (Z.lor major 26) :: be_bytes 4 n
  else z2b (Z.lor major 27) :: be_bytes 8 n.

Definition len {A} (l : list A) : Z := Z.of_nat (length l).

(** [Value::write], whose [out] grows by the encoding. *)
Fixpoint encode (v : Value) : list byte :=
  match v with
  | Unsigned n => head 0 n
  | Negative n => head 1 n
  | Bytes b => head 2 (len b) ++ b
  | Text t => head 3 (len t) ++ t
  | Array items => head 4 (len items) ++ List.flat_map encode items
  | Map entries =>
      head 5 (len entries) ++ List.flat_map (λ '(key, value), encode key ++ encode value) entries
  | Tag number value => head 6 number ++ encode value
  | Bool b => [if b then xf5 else xf4]
  | Encoded bytes => bytes
  end.

(** * The reader *)

(** [struct Item]. *)
Record Item := mkItem {
  item_bytes : list byte;
  major : Z;
  argument : Z;
  content_at : nat;
}.

Definition MAX_DEPTH : nat := 32.
Definition MAX_INPUT : Z := 2 ^ 20.

(** [bytes.get(a..b)] and [bytes.get(a..)]. *)
Definition get_slice (a b : nat) (l : list byte) : option (list byte) :=
  if (a <=? b)%nat && (b <=? length l)%nat then Some (slice a b l) else None.
Definition get_from (a : nat) (l : list byte) : option (list byte) :=
  if (a <=? length l)%nat then Some (drop a l) else None.

(** The head: the initial byte's parts, the argument and where the content
    starts. *)
Definition read_head (bytes : list byte) : outcome string (Z * Z * Z * nat) :=
  initial ← ok_or "no data item" (bytes !! 0%nat);
  let major := Z.shiftr (b2z initial) 5 in
  let info := Z.land (b2z initial) 31 in
  '(argument, content) ←
    (if info <=? 23 then Ok (info, 1%nat)
     else if info <=? 27 then
       let n := Z.to_nat (Z.shiftl 1 (info - 24)) in
       argument ← ok_or "a head cut short" (get_slice 1 (1 + n) bytes);
       Ok (be_int argument, (1 + n)%nat)
     else Err "the head, which has no definite length");
  mret (major, info, argument, content).

(** The number of children, with [checked_mul]. *)
Definition child_count (major argument : Z) : outcome string Z :=
  if major =? 4 then Ok argument
  else if major =? 5 then
    if argument * 2 <? 2 ^ 64 then Ok (argument * 2)
    else Err "a map with more entries than any input holds"
  else Ok 1.

(** [Item::read_at]: [levels] is how much deeper it may go, so a depth past
    [MAX_DEPTH] has none left. *)
Fixpoint read_at (levels : nat) (bytes : list byte) : outcome string Item :=
  match levels with
  | O => Err "CBOR nested deeper than 32"
  | S levels =>
      '(major, info, argument, content) ← read_head bytes;
      if (major =? 7) && (info =? 24)
         && match bytes !! 1%nat with Some v => b2z v <? 32 | None => false end
      then Err "a simple value encoded in the long form below 32"
      else
        end_ ←
          (if (major =? 2) || (major =? 3) then
             if Z.of_nat content + argument <? 2 ^ 64 then Ok (Z.of_nat content + argument)
             else Err "a string longer than the input"
           else if (4 <=? major) && (major <=? 6) then
             children ← child_count major argument;
             if len bytes - Z.of_nat content <? children
             then Err "more items declared than the input has bytes"
             else
               e ← foldM (λ (e : nat) _,
                 rest ← ok_or "an item cut short" (get_from e bytes);
                 child ← read_at levels rest;
                 Ok (e + length (item_bytes child))%nat) content (range (Z.to_nat children));
               Ok (Z.of_nat e)
           else Ok (Z.of_nat content));
        own ← ok_or "an item cut short"
                (if end_ <=? len bytes then Some (take (Z.to_nat end_) bytes) else None);
        if (major =? 3) && negb (utf8_valid (drop content own))
        then Err "a text string that is not valid UTF-8"
        else mret {| item_bytes := own; major := major; argument := argument; content_at := content |}
  end.

(** [Item::read]. *)
Definition read (bytes : list byte) : outcome string Item :=
  if MAX_INPUT <? len bytes then Err "more bytes of CBOR than allowed"
  else read_at (S MAX_DEPTH) bytes.

(** [Item::content]. *)
Definition item_content (i : Item) : list byte := drop (content_at i) (item_bytes i).

(** The loop of [children]; each child takes at least one byte, so the length
    is enough fuel. *)
Fixpoint children_from (fuel : nat) (rest : list byte) : list Item :=
  match fuel with
  | O => []
  | S fuel =>
      match rest with
      | [] => []
      | _ :: _ =>
          match read_at (S MAX_DEPTH) rest with
          | Ok child => child :: children_from fuel (drop (length (item_bytes child)) rest)
          | _ => []
          end
      end
  end.

(** [Item::children], [Item::try_children], [Item::at], [Item::get]. *)
Definition children (i : Item) : list Item :=
  if (4 <=? major i) && (major i <=? 6)
  then children_from (length (item_bytes i)) (item_content i) else [].

Definition try_children (i : Item) : outcome string (list Item) :=
  if (4 <=? major i) && (major i <=? 6) then Ok (children i)
  else Err "not an array, a map or a tag".

Definition item_at (i : Item) (k : nat) : outcome string Item :=
  if negb (major i =? 4) then Err "not an array"
  else ok_or ("no element " +:+ pretty k) (children i !! k).

(** [as_chunks::<2>().0]: the whole pairs. *)
Fixpoint pairs {A} (l : list A) : list (A * A) :=
  match l with a :: b :: l => (a, b) :: pairs l | _ => [] end.

(** [{:02x?}] of bytes. *)
Definition hex_text (b : byte) : string :=
  let digit d := default EmptyString (["0"; "1"; "2"; "3"; "4"; "5"; "6"; "7"; "8"; "9"; "a"; "b"; "c"; "d"; "e"; "f"]%string !! Z.to_nat d) in
  digit (b2z b / 16) +:+ digit (b2z b mod 16).
Definition debug_hex (bytes : list byte) : string := "[" +:+ String.concat ", " (hex_text <$> bytes) +:+ "]".

Definition item_get (i : Item) (key : Value) : outcome string Item :=
  if negb (major i =? 5) then Err "not a map"
  else
    let key := encode key in
    ok_or ("no key " +:+ debug_hex key)
      (snd <$> (snd <$> list_find (λ entry, item_bytes entry.1 = key) (pairs (children i)))).

(** [Item::embedded]. *)
Definition item_embedded (i : Item) : outcome string Item :=
  if negb (major i =? 6) || negb (argument i =? 24) then Err "not tag 24"
  else
    inner ← ok_or "an empty tag" (children i !! 0%nat);
    if negb (major inner =? 2) then Err "tag 24 does not wrap a byte string"
    else read (item_content inner).

(** * Lemmas: outcomes of the reader *)
Lemma ok_or_ok {E A} (e : E) (o : option A) a : ok_or e o = Ok a ↔ o = Some a.
Proof. destruct o; simpl; split; congruence. Qed.

Lemma bind_ok {E A B} (m : outcome E A) (f : A → outcome E B) b :
  (x ← m; f x) = Ok b → ∃ a, m = Ok a ∧ f a = Ok b.
Proof. by intros ?%outcome_bind_ok. Qed.

(** * The head *)
Section Head.
Lemma initial_byte m k :
  0 ≤ m < 8 → 0 ≤ k < 32 → b2z (z2b (Z.lor (Z.shiftl m 5) k)) = 32 * m + k.
Proof.
  intros Hm Hk. rewrite b2z_z2b.
  assert (Z.lor (Z.shiftl m 5) k = 32 * m + k) as ->.
  { rewrite <-Z.lxor_lor, <-Z.add_nocarry_lxor.
    - rewrite Z.shiftl_mul_pow2 by lia. lia.
    - apply Z.bits_inj'. intros n Hn. rewrite Z.land_spec, Z.bits_0.
      destruct (Z.lt_ge_cases n 5).
      + by rewrite Z.shiftl_spec_low.
      + rewrite <-(Z.mod_small k (2 ^ 5)) by lia. rewrite Z.mod_pow2_bits_high by lia.
        apply andb_false_r.
    - apply Z.bits_inj'. intros n Hn. rewrite Z.land_spec, Z.bits_0.
      destruct (Z.lt_ge_cases n 5).
      + by rewrite Z.shiftl_spec_low.
      + rewrite <-(Z.mod_small k (2 ^ 5)) by lia. rewrite Z.mod_pow2_bits_high by lia.
        apply andb_false_r. }
  apply Z.mod_small. lia.
Qed.

Lemma initial_parts m k :
  0 ≤ m < 8 → 0 ≤ k < 32 →
  Z.shiftr (32 * m + k) 5 = m ∧ Z.land (32 * m + k) 31 = k.
Proof.
  intros Hm Hk. split.
  - rewrite Z.shiftr_div_pow2 by lia. change (2 ^ 5) with 32.
    symmetry. apply Z.div_unique_pos with k; lia.
  - change 31 with (Z.ones 5). rewrite Z.land_ones by lia. change (2 ^ 5) with 32.
    symmetry. apply Z.mod_unique_pos with m; lia.
Qed.

Lemma get_slice_middle a l r n : length l = n → get_slice 1 (1 + n) (a :: l ++ r) = Some l.
Proof.
  intros <-. unfold get_slice. rewrite (proj2 (Nat.leb_le _ _)) by lia.
  rewrite (proj2 (Nat.leb_le _ _)) by (simpl; rewrite length_app; lia).
  simpl. unfold slice. simpl. by rewrite Nat.sub_0_r, drop_0, take_app_length.
Qed.

(** The encoder's head is read back, whatever follows it. *)
Lemma read_head_head m n rest :
  0 ≤ m < 8 → 0 ≤ n < 2 ^ 64 →
  ∃ info, read_head (head m n ++ rest) = Ok (m, info, n, length (head m n)).
Proof.
  intros Hm Hn.
  assert (∀ k j bs, k = 24 + j → 0 ≤ j < 4 → length bs = Z.to_nat (2 ^ j) →
    read_head ((z2b (Z.lor (Z.shiftl m 5) k) :: bs) ++ rest)
    = Ok (m, k, be_int bs, S (length bs))) as Hlong.
  { intros k j bs -> Hj Hl. unfold read_head. cbn [app lookup list_lookup ok_or mbind outcome_bind].
    rewrite initial_byte by lia. destruct (initial_parts m (24 + j)) as [-> ->]; [lia..|].
    rewrite (proj2 (Z.leb_gt _ _)) by lia. rewrite (proj2 (Z.leb_le _ _)) by lia.
    replace (24 + j - 24) with j by lia. rewrite Z.shiftl_1_l, <-Hl.
    by rewrite get_slice_middle by done. }
  assert (∀ k j, k = 24 + j → 0 ≤ j < 4 → n < 256 ^ 2 ^ j →
    ∃ info, read_head ((z2b (Z.lor (Z.shiftl m 5) k) :: be_bytes (Z.to_nat (2 ^ j)) n) ++ rest)
    = Ok (m, info, n, S (length (be_bytes (Z.to_nat (2 ^ j)) n)))) as Hbe.
  { intros k j Hk Hj Hb. exists k. rewrite (Hlong k j) by (try done; apply length_be_bytes).
    repeat f_equal. rewrite be_int_be_bytes, Z2Nat.id by lia. apply Z.mod_small. lia. }
  unfold head. destruct (Z.leb_spec n 23).
  { exists n. unfold read_head. cbn [app lookup list_lookup ok_or mbind outcome_bind].
    rewrite initial_byte by lia. destruct (initial_parts m n) as [-> ->]; [lia..|].
    by rewrite (proj2 (Z.leb_le _ _)) by lia. }
  destruct (Z.leb_spec n 0xff); [apply (Hbe _ 0); lia|].
  destruct (Z.leb_spec n 0xffff); [apply (Hbe _ 1); lia|].
  destruct (Z.leb_spec n 0xffffffff); [apply (Hbe _ 2); lia|].
  apply (Hbe _ 3); lia.
Qed.

(** A head depends on its own bytes only. *)
Lemma read_head_prefix bs m info n c :
  read_head bs = Ok (m, info, n, c) →
  (1 ≤ c ≤ length bs)%nat ∧ 0 ≤ m < 8 ∧ 0 ≤ n < 2 ^ 64 ∧
  (info = 24 → (2 ≤ c)%nat) ∧
  ∀ bs', take c bs' = take c bs → read_head bs' = Ok (m, info, n, c).
Proof.
  unfold read_head. intros (b & Hb%ok_or_ok & H)%bind_ok.
  destruct bs as [|b' bs]; [done|]. injection Hb as ->.
  pose proof (b2z_range b) as Rb.
  assert (0 ≤ Z.shiftr (b2z b) 5 < 8) as Hm.
  { rewrite Z.shiftr_div_pow2 by lia. change (2 ^ 5) with 32. split; [apply Z.div_pos; lia|].
    apply Z.div_lt_upper_bound; lia. }
  assert (0 ≤ Z.land (b2z b) 31 < 32) as Hi.
  { change 31 with (Z.ones 5). rewrite Z.land_ones by lia. apply Z.mod_pos_bound. lia. }
  cbv zeta in *. destruct (Z.leb_spec (Z.land (b2z b) 31) 23).
  - cbn [mbind outcome_bind] in H. injection H as <- <- <- <-. repeat split; try (simpl; lia).
    intros [|b2 bs'] E; [done|]. cbn [take] in E. injection E as ->.
    cbn [lookup list_lookup ok_or mbind outcome_bind]. by rewrite (proj2 (Z.leb_le _ _)) by lia.
  - destruct (Z.leb_spec (Z.land (b2z b) 31) 27); [|done].
    apply bind_ok in H as ((argument & content) & Ha & H). injection H as <- <- <- <-.
    apply bind_ok in Ha as (arg & Harg%ok_or_ok & Ha). injection Ha as <- <-.
    set (w := Z.to_nat (Z.shiftl 1 (Z.land (b2z b) 31 - 24))) in *.
    unfold get_slice in Harg. destruct (_ && _) eqn:E; [|done]. injection Harg as <-.
    apply andb_prop in E as [E1 E2]. apply Nat.leb_le in E1, E2.
    assert (length (slice 1 (1 + w) (b :: bs)) = w) as Hl.
    { unfold slice. rewrite length_take, length_drop. simpl in *. lia. }
    assert (w ≤ 8 ∧ 1 ≤ w)%nat as Hw.
    { unfold w. rewrite Z.shiftl_1_l. assert (1 = 2 ^ 0) as E0 by done.
      assert (2 ^ (Z.land (b2z b) 31 - 24) ≤ 2 ^ 3) by (apply Z.pow_le_mono_r; lia).
      assert (2 ^ 0 ≤ 2 ^ (Z.land (b2z b) 31 - 24)) by (apply Z.pow_le_mono_r; lia). lia. }
    pose proof (be_int_range (slice 1 (1 + w) (b :: bs))) as R. rewrite Hl in R.
    assert (256 ^ Z.of_nat w ≤ 256 ^ 8) by (apply Z.pow_le_mono_r; lia).
    change (256 ^ 8) with (2 ^ 64) in *. change (1 + w)%nat with (S w) in *.
    repeat split; try lia.
    intros [|b2 bs'] E; [done|]. cbn [take Nat.add] in E. injection E as -> E.
    cbn [lookup list_lookup ok_or mbind outcome_bind].
    rewrite (proj2 (Z.leb_gt _ _)) by lia. rewrite (proj2 (Z.leb_le _ _)) by lia. fold w.
    assert (get_slice 1 (1 + w) (b :: bs') = Some (slice 1 (1 + w) (b :: bs))) as ->; [|done].
    unfold get_slice, slice. simpl. rewrite !Nat.sub_0_r, !drop_0, E.
    rewrite (proj2 (Nat.leb_le _ _)); [done|].
    apply (f_equal length) in E. rewrite !length_take in E. simpl in E2. lia.
Qed.
End Head.

(** * Items are prefixes of the input and delimit themselves *)
Section Prefix.
(** The tail of [read_at] once the head and the end are known. *)
Definition close_item (bytes : list byte) (major argument : Z) (content : nat) (end_ : Z)
  : outcome string Item :=
  own ← ok_or "an item cut short"
  (if end_ <=? len bytes then Some (take (Z.to_nat end_) bytes) else None);
  if (major =? 3) && negb (utf8_valid (drop content own))
  then Err "a text string that is not valid UTF-8"
  else mret {| item_bytes := own; major := major; argument := argument; content_at := content |}.

(** The loop over the children from the position [e]. *)
Definition children_end (levels : nat) (bytes : list byte) (e n : nat) : outcome string nat :=
  foldM (λ (e : nat) _,
  rest ← ok_or "an item cut short" (get_from e bytes);
  child ← read_at levels rest;
  Ok (e + length (item_bytes child))%nat) e (range n).

(** What a successful reading went through. *)
Lemma read_at_inv levels bytes it :
  read_at levels bytes = Ok it →
  ∃ levels' info end_, levels = S levels' ∧
  read_head bytes = Ok (major it, info, argument it, content_at it) ∧
  ((major it =? 7) && (info =? 24)
  && match bytes !! 1%nat with Some v => b2z v <? 32 | None => false end) = false ∧
  close_item bytes (major it) (argument it) (content_at it) end_ = Ok it ∧
  (if (major it =? 2) || (major it =? 3) then
  end_ = Z.of_nat (content_at it) + argument it ∧ end_ < 2 ^ 64
  else if (4 <=? major it) && (major it <=? 6) then
  ∃ n e, child_count (major it) (argument it) = Ok n ∧
  n ≤ len bytes - Z.of_nat (content_at it) ∧ end_ = Z.of_nat e ∧
  children_end levels' bytes (content_at it) (Z.to_nat n) = Ok e
  else end_ = Z.of_nat (content_at it)).
Proof.
  destruct levels as [|levels]; [done|]. cbn [read_at].
  intros ([[[m info] n] c] & Hh & H)%bind_ok.
  destruct (_ && _ && _) eqn:E7 in H; [done|].
  apply bind_ok in H as (end_ & He & H).
  assert (major it = m ∧ argument it = n ∧ content_at it = c) as (-> & -> & ->).
  { apply bind_ok in H as (own & _ & H). destruct (_ && _) in H; [done|]. by injection H as <-. }
  exists levels, info, end_. repeat split; [done..|].
  destruct ((m =? 2) || (m =? 3)).
  - destruct (Z.ltb_spec (Z.of_nat c + n) (2 ^ 64)); [|done]. injection He as <-. done.
  - destruct ((4 <=? m) && (m <=? 6)).
    + apply bind_ok in He as (k & Hk & He). destruct (Z.ltb_spec (len bytes - Z.of_nat c) k); [done|].
      apply bind_ok in He as (e & He & [= <-]). exists k, e. done.
    + by injection He as <-.
Qed.

Lemma read_at_intro levels bytes it info end_ :
  read_head bytes = Ok (major it, info, argument it, content_at it) →
  ((major it =? 7) && (info =? 24)
  && match bytes !! 1%nat with Some v => b2z v <? 32 | None => false end) = false →
  close_item bytes (major it) (argument it) (content_at it) end_ = Ok it →
  (if (major it =? 2) || (major it =? 3) then
  end_ = Z.of_nat (content_at it) + argument it ∧ end_ < 2 ^ 64
  else if (4 <=? major it) && (major it <=? 6) then
  ∃ n e, child_count (major it) (argument it) = Ok n ∧
  n ≤ len bytes - Z.of_nat (content_at it) ∧ end_ = Z.of_nat e ∧
  children_end levels bytes (content_at it) (Z.to_nat n) = Ok e
  else end_ = Z.of_nat (content_at it)) →
  read_at (S levels) bytes = Ok it.
Proof.
  intros Hh H7 Hc He. cbn [read_at]. rewrite Hh. cbn [mbind outcome_bind]. rewrite H7.
  destruct ((major it =? 2) || (major it =? 3)).
  - destruct He as [-> He]. rewrite (proj2 (Z.ltb_lt _ _)) by done. exact Hc.
  - destruct ((4 <=? major it) && (major it <=? 6)).
    + destruct He as (n & e & -> & Hn & -> & He). cbn [mbind outcome_bind].
      rewrite (proj2 (Z.ltb_ge _ _)) by lia. unfold children_end in He. rewrite He. exact Hc.
    + subst end_. exact Hc.
Qed.

Lemma close_item_inv bytes m n c end_ it :
  close_item bytes m n c end_ = Ok it →
  end_ ≤ len bytes ∧ item_bytes it = take (Z.to_nat end_) bytes ∧
  ∀ bytes', item_bytes it = take (Z.to_nat end_) bytes' → end_ ≤ len bytes' →
  close_item bytes' m n c end_ = Ok it.
Proof.
  unfold close_item. destruct (Z.leb_spec end_ (len bytes)) as [L|]; [|done].
  cbn [ok_or mbind outcome_bind]. destruct (_ && _) eqn:E; [done|]. intros [= <-].
  split; [done|]. split; [done|]. cbn [item_bytes]. intros bytes' <- Hl.
  rewrite (proj2 (Z.leb_le _ _)) by done. cbn [ok_or mbind outcome_bind]. by rewrite E.
Qed.

Lemma range_S n : range (S n) = 0%nat :: (S <$> range n).
Proof. unfold range. by rewrite fmap_S_seq. Qed.

(** The index of the loop plays no part. *)
Lemma children_end_S levels bytes e n :
  children_end levels bytes e (S n) =
  (rest ← ok_or "an item cut short" (get_from e bytes);
  child ← read_at levels rest;
  children_end levels bytes (e + length (item_bytes child)) n).
Proof.
  unfold children_end. rewrite range_S. cbn [foldM].
  assert (∀ (l l' : list nat) (e : nat), length l = length l' →
    foldM (λ (e : nat) (_ : nat), rest ← ok_or "an item cut short" (get_from e bytes);
    child ← read_at levels rest; Ok (e + length (item_bytes child))%nat) e l
    = foldM (λ (e : nat) (_ : nat), rest ← ok_or "an item cut short" (get_from e bytes);
    child ← read_at levels rest; Ok (e + length (item_bytes child))%nat) e l') as Hg.
  { induction l as [|x l IH]; intros [|x' l'] e' Hl; try done. cbn [foldM].
    destruct (get_from e' bytes); cbn [ok_or mbind outcome_bind]; [|done].
    destruct (read_at levels _); cbn [mbind outcome_bind]; [|done..]. apply IH. by injection Hl. }
  destruct (get_from e bytes) as [rest|]; cbn [ok_or mbind outcome_bind]; [|done].
  destruct (read_at levels rest); cbn [mbind outcome_bind]; [|done..].
  apply Hg. by rewrite length_fmap.
Qed.
End Prefix.

Section Spec.
(** An item that [read_at] returns from its own encoding, whatever follows. *)
Definition reads (levels : nat) (it : Item) : Prop :=
  ∀ rest, read_at levels (item_bytes it ++ rest) = Ok it.

(** The content lies in the encoding, and the head's numbers have their
    widths. *)
Definition item_ok (it : Item) : Prop :=
  (1 ≤ content_at it ≤ length (item_bytes it))%nat ∧
  0 ≤ major it < 8 ∧ 0 ≤ argument it < 2 ^ 64.

Definition encodings (items : list Item) : list byte := concat (item_bytes <$> items).

Lemma encodings_length items :
  Forall item_ok items → (length items ≤ length (encodings items))%nat.
Proof.
  unfold encodings. induction 1 as [|it items (H1 & _) HF IH]; [done|].
  cbn [fmap list_fmap concat length] in *. rewrite length_app. lia.
Qed.

Lemma children_end_reads levels bytes e items rest :
  Forall (reads levels) items → (e ≤ length bytes)%nat →
  drop e bytes = encodings items ++ rest →
  children_end levels bytes e (length items) = Ok (e + length (encodings items))%nat.
Proof.
  intros HF. revert e. induction HF as [|it items Hr HF IH]; intros e He Hd.
  { simpl. by rewrite Nat.add_0_r. }
  cbn [length]. rewrite children_end_S. unfold get_from.
  rewrite (proj2 (Nat.leb_le _ _)) by done. cbn [ok_or mbind outcome_bind].
  unfold encodings in *. cbn [fmap list_fmap concat] in *. rewrite <-app_assoc in Hd.
  rewrite Hd, Hr. cbn [mbind outcome_bind]. rewrite IH.
  - f_equal. rewrite length_app. lia.
  - apply (f_equal length) in Hd. rewrite length_drop, !length_app in Hd. lia.
  - rewrite <-drop_drop, Hd. apply drop_app_length.
Qed.

Lemma children_end_inv levels bytes e n e' :
  (∀ bytes it, read_at levels bytes = Ok it →
  reads levels it ∧ item_ok it ∧ item_bytes it `prefix_of` bytes) →
  (e ≤ length bytes)%nat → children_end levels bytes e n = Ok e' →
  ∃ items, length items = n ∧ Forall (reads levels) items ∧ Forall item_ok items ∧
  e' = (e + length (encodings items))%nat ∧ drop e bytes = encodings items ++ drop e' bytes.
Proof.
  intros IH. revert e. induction n as [|n IHn]; intros e He H.
  { unfold children_end in H. simpl in H. injection H as <-.
    exists []. split_and!; [done|by constructor|by constructor|simpl; lia|done]. }
  rewrite children_end_S in H. apply bind_ok in H as (r & Hr%ok_or_ok & H).
  unfold get_from in Hr. rewrite (proj2 (Nat.leb_le _ _)) in Hr by done. injection Hr as <-.
  apply bind_ok in H as (c & Hc & H). destruct (IH _ _ Hc) as (Hrd & Hok & [rest Hp]).
  apply IHn in H as (items & Hl & HF & HFo & -> & Hd).
  2: { apply (f_equal length) in Hp. rewrite length_drop, length_app in Hp. lia. }
  exists (c :: items). unfold encodings in *. cbn [fmap list_fmap concat length].
  split_and!; [lia|by constructor|by constructor|rewrite length_app; lia|].
  by rewrite <-app_assoc, <-Hd, <-drop_drop, Hp, drop_app_length.
Qed.

Lemma read_at_spec levels bytes it :
  read_at levels bytes = Ok it →
  reads levels it ∧ item_ok it ∧ item_bytes it `prefix_of` bytes.
Proof.
  revert bytes it. induction levels as [|levels IH]; intros bytes it H; [done|].
  apply read_at_inv in H as (? & info & end_ & [= <-] & Hh & H7 & Hc & He).
  destruct (read_head_prefix _ _ _ _ _ Hh) as (Hcl & Hm & Hn & H24 & Hpre).
  destruct (close_item_inv _ _ _ _ _ _ Hc) as (Hle & Hb & Hclose).
  assert (Z.of_nat (content_at it) ≤ end_ ∧
    ∀ bytes', item_bytes it = take (Z.to_nat end_) bytes' → end_ ≤ len bytes' →
    (if (major it =? 2) || (major it =? 3) then
    end_ = Z.of_nat (content_at it) + argument it ∧ end_ < 2 ^ 64
    else if (4 <=? major it) && (major it <=? 6) then
    ∃ n e, child_count (major it) (argument it) = Ok n ∧
    n ≤ len bytes' - Z.of_nat (content_at it) ∧ end_ = Z.of_nat e ∧
    children_end levels bytes' (content_at it) (Z.to_nat n) = Ok e
    else end_ = Z.of_nat (content_at it))) as [Hce Hends].
  { destruct ((major it =? 2) || (major it =? 3)); [split; [lia|done]|].
    destruct ((4 <=? major it) && (major it <=? 6)); [|split; [lia|done]].
    destruct He as (n & e & Hcc & Hn' & -> & He).
    destruct (children_end_inv levels bytes _ _ _ IH (proj2 Hcl) He) as (items & Hl & HF & HFo & -> & Hd).
    split; [lia|]. intros bytes' E Hl'. rewrite Nat2Z.id in Hb, E. unfold len in *.
    pose proof (encodings_length _ HFo).
    exists n, (content_at it + length (encodings items))%nat. split; [done|]. split; [lia|].
    split; [done|]. rewrite <-Hl.
    apply (children_end_reads _ _ _ _ (drop (content_at it + length (encodings items)) bytes'));
      [done|lia|].
    rewrite <-(take_drop (length (encodings items)) (drop (content_at it) bytes')), drop_drop.
    f_equal. rewrite take_drop_commute, <-E, Hb, <-take_drop_commute, Hd.
    rewrite take_app_le by lia. by rewrite take_ge by lia. }
  unfold len in *.
  assert (length (item_bytes it) = Z.to_nat end_) as Hlen by (rewrite Hb, length_take; lia).
  assert (∀ bytes', item_bytes it = take (Z.to_nat end_) bytes' → end_ ≤ len bytes' →
    read_at (S levels) bytes' = Ok it) as Hre.
  { intros bytes' E Hl'. apply (read_at_intro _ _ _ info end_); [| |by apply Hclose|by apply Hends].
    - apply Hpre. apply (f_equal (take (content_at it))) in E. rewrite Hb in E.
      rewrite !take_take, !Nat.min_l in E by lia. done.
    - etrans; [|exact H7]. destruct (Z.eqb_spec info 24) as [E24|]; [|by rewrite !andb_false_r].
      specialize (H24 E24). assert (bytes' !! 1%nat = bytes !! 1%nat) as ->; [|done].
      rewrite <-(lookup_take_lt bytes (Z.to_nat end_)), <-Hb, E by lia.
      by rewrite lookup_take_lt by lia. }
  split; [|split].
  - intros rest. apply Hre; [|unfold len; rewrite length_app; lia].
    by rewrite <-Hlen, take_app_length.
  - unfold item_ok. rewrite Hlen. repeat split; lia.
  - rewrite Hb. apply take_prefix_of || (exists (drop (Z.to_nat end_) bytes); by rewrite take_drop).
Qed.
End Spec.

(** * The children of an item *)
Section Children.
Lemma children_end_mono levels levels' bytes e n e' :
  (∀ bytes it, read_at levels bytes = Ok it → read_at levels' bytes = Ok it) →
  children_end levels bytes e n = Ok e' → children_end levels' bytes e n = Ok e'.
Proof.
  intros IH. revert e. induction n as [|n IHn]; intros e H; [done|].
  rewrite children_end_S in H |- *. apply bind_ok in H as (r & -> & H).
  apply bind_ok in H as (c & Hc & H). cbn [mbind outcome_bind].
  rewrite (IH _ _ Hc). cbn [mbind outcome_bind]. by apply IHn.
Qed.

(** More room for nesting reads the same item. *)
Lemma read_at_mono levels levels' bytes it :
  (levels ≤ levels')%nat → read_at levels bytes = Ok it → read_at levels' bytes = Ok it.
Proof.
  revert levels' bytes it. induction levels as [|levels IH]; intros levels' bytes it Hl H; [done|].
  destruct levels' as [|levels']; [lia|].
  apply read_at_inv in H as (? & info & end_ & [= <-] & Hh & H7 & Hc & He).
  apply (read_at_intro _ _ _ info end_); try done.
  revert He. destruct ((major it =? 2) || (major it =? 3)); [done|].
  destruct ((4 <=? major it) && (major it <=? 6)); [|done].
  intros (n & e & ? & ? & ? & He). exists n, e. split_and!; try done.
  eapply children_end_mono; [|exact He]. intros ???. apply IH; [lia|done].
Qed.

Lemma reads_mono levels levels' it : (levels ≤ levels')%nat → reads levels it → reads levels' it.
Proof. intros Hl H rest. eapply read_at_mono; [exact Hl|apply H]. Qed.

Lemma children_from_encodings fuel items :
  Forall (reads (S MAX_DEPTH)) items → Forall item_ok items →
  (length (encodings items) ≤ fuel)%nat → children_from fuel (encodings items) = items.
Proof.
  intros HF. revert fuel. induction HF as [|it items Hr HF IH]; intros fuel HFo Hl.
  { by destruct fuel. }
  apply list.Forall_cons_1 in HFo as [(Hc & _) HFo].
  unfold encodings in *. cbn [fmap list_fmap concat] in *. rewrite length_app in Hl.
  destruct fuel as [|fuel]; [lia|]. cbn [children_from].
  destruct (item_bytes it ++ concat (item_bytes <$> items)) as [|b l] eqn:E.
  { apply (f_equal length) in E. rewrite length_app in E. simpl in E. lia. }
  rewrite <-E, Hr, drop_app_length, IH; [done|done|]. lia.
Qed.

(** An item read within the depth has as many children as its head says,
    their encodings one after the other are its content, and each reads
    back from its own encoding. *)
Lemma children_complete levels bytes it :
  (levels ≤ S MAX_DEPTH)%nat → read_at levels bytes = Ok it → 4 ≤ major it ≤ 6 →
  item_content it = encodings (children it) ∧
  child_count (major it) (argument it) = Ok (len (children it)) ∧
  Forall (reads (S MAX_DEPTH)) (children it) ∧ Forall item_ok (children it).
Proof.
  intros Hl H Hm. destruct (read_at_spec _ _ _ H) as (Hr & Hok & _).
  specialize (Hr []). rewrite app_nil_r in Hr.
  apply read_at_inv in Hr as (levels' & info & end_ & -> & Hh & _ & Hc & He).
  destruct (close_item_inv _ _ _ _ _ _ Hc) as (Hle & Hb & _).
  rewrite (proj2 (Z.eqb_neq (major it) 2)), (proj2 (Z.eqb_neq (major it) 3)) in He by lia.
  rewrite (proj2 (Z.leb_le 4 _)), (proj2 (Z.leb_le _ 6)) in He by lia.
  destruct He as (n & e & Hcc & Hn & -> & He). unfold len in *.
  destruct Hok as (Hcl & _).
  destruct (children_end_inv _ _ _ _ _ (λ b i, read_at_spec levels' b i) (proj2 Hcl) He)
    as (items & Hlen & HF & HFo & -> & Hd).
  assert (Forall (reads (S MAX_DEPTH)) items) as HF'.
  { eapply list.Forall_impl; [exact HF|]. intros it' Hr. eapply reads_mono; [|exact Hr]. lia. }
  rewrite Nat2Z.id in Hb.
  assert (item_content it = encodings items) as E.
  { unfold item_content. rewrite Hd. rewrite (drop_ge _ (_ + _)); [by rewrite app_nil_r|].
    rewrite Hb, length_take. lia. }
  unfold children. rewrite (proj2 (Z.leb_le 4 _)), (proj2 (Z.leb_le _ 6)) by lia.
  cbn [andb]. rewrite E, children_from_encodings; [|done..|].
  - split_and!; [done| |done|done]. rewrite Hcc. f_equal.
    assert (0 ≤ n); [|lia]. unfold child_count in Hcc.
    apply read_head_prefix in Hh as (_ & _ & ? & _).
    destruct (_ =? 4); [|destruct (_ =? 5)].
    + injection Hcc as <-. lia.
    + destruct (_ <? _); [|done]. injection Hcc as <-. lia.
    + by injection Hcc as <-.
  - rewrite <-E. unfold item_content. rewrite length_drop. lia.
Qed.
End Children.

(** * Round trip *)
Section RoundTrip.
(** Values that the reader takes, nested at most [levels] deep; an already
    encoded item is any bytes, so it is left out. *)
Inductive wf : nat → Value → Prop :=
  | wf_unsigned l n : 0 ≤ n < 2 ^ 64 → wf (S l) (Unsigned n)
  | wf_negative l n : 0 ≤ n < 2 ^ 64 → wf (S l) (Negative n)
  | wf_bytes l b : len b < 2 ^ 63 → wf (S l) (Bytes b)
  | wf_text l t : len t < 2 ^ 63 → utf8_valid t = true → wf (S l) (Text t)
  | wf_array l items : len items < 2 ^ 63 → Forall (wf l) items → wf (S l) (Array items)
  | wf_map l entries :
  len entries < 2 ^ 62 → Forall (λ kv, wf l kv.1 ∧ wf l kv.2) entries →
  wf (S l) (Map entries)
  | wf_tag l number v : 0 ≤ number < 2 ^ 64 → wf l v → wf (S l) (Tag number v)
  | wf_bool l b : wf (S l) (Bool b).

(** The values inside a value, in the order they are encoded. *)
Definition parts (v : Value) : list Value :=
  match v with
  | Array items => items
  | Map entries => entries ≫= λ '(key, value), [key; value]
  | Tag _ v => [v]
  | _ => []
  end.

Definition major_of (v : Value) : Z :=
  match v with
  | Unsigned _ => 0 | Negative _ => 1 | Bytes _ => 2 | Text _ => 3 | Array _ => 4
  | Map _ => 5 | Tag _ _ => 6 | Bool _ | Encoded _ => 7
  end.
Definition argument_of (v : Value) : Z :=
  match v with
  | Unsigned n | Negative n => n
  | Bytes b | Text b => len b
  | Array items => len items
  | Map entries => len entries
  | Tag number _ => number
  | Bool b => if b then 21 else 20
  | Encoded _ => 0
  end.
Definition content_of (v : Value) : list byte :=
  match v with
  | Bytes b | Text b => b
  | _ => List.flat_map encode (parts v)
  end.

(** The item that reading a value's encoding gives. *)
Definition item_of (v : Value) : Item := {|
  item_bytes := encode v;
  major := major_of v;
  argument := argument_of v;
  content_at := length (encode v) - length (content_of v);
  |}.

Lemma flat_map_parts entries :
  List.flat_map (λ '(key, value), encode key ++ encode value) entries
  = List.flat_map encode (entries ≫= λ '(key, value), [key; value]).
Proof.
  induction entries as [|[k v] entries IH]; [done|]. rewrite bind_cons.
  etrans; [apply (f_equal (app (encode k ++ encode v))), IH|]. by rewrite <-app_assoc.
Qed.

Lemma encode_head v :
  (∀ b, v ≠ Bool b) → (∀ b, v ≠ Encoded b) →
  encode v = head (major_of v) (argument_of v) ++ content_of v.
Proof.
  intros Hb He. destruct v; simpl; rewrite ?app_nil_r; try done.
  - apply (f_equal (app (head 5 (len entries)))), flat_map_parts.
  - by destruct (Hb b).
  - by destruct (He bytes).
Qed.

Lemma flat_map_encodings vs : List.flat_map encode vs = encodings (item_of <$> vs).
Proof.
  unfold encodings. induction vs as [|v vs IH]; [done|].
  cbn [List.flat_map fmap list_fmap concat]. by rewrite IH.
Qed.

Lemma length_parts_map entries :
  length (entries ≫= λ '((key, value) : Value * Value), [key; value]) = (length entries * 2)%nat.
Proof. induction entries as [|[] ? IH]; [done|]. rewrite bind_cons, length_app, IH. simpl. lia. Qed.

Lemma major_of_range v : 0 ≤ major_of v < 8.
Proof. destruct v; simpl; lia. Qed.

Lemma content_at_head v :
  (∀ b, v ≠ Bool b) → (∀ b, v ≠ Encoded b) →
  content_at (item_of v) = length (head (major_of v) (argument_of v)).
Proof. intros Hb He. simpl. rewrite encode_head, length_app by done. lia. Qed.

Lemma close_encode v rest :
  (∀ b, v ≠ Bool b) → (∀ b, v ≠ Encoded b) → (∀ t, v = Text t → utf8_valid t = true) →
  close_item (encode v ++ rest) (major_of v) (argument_of v) (content_at (item_of v))
  (len (encode v)) = Ok (item_of v).
Proof.
  intros Hb He Ht. unfold close_item, len. rewrite (proj2 (Z.leb_le _ _)) by (rewrite length_app; lia).
  cbn [ok_or mbind outcome_bind]. rewrite Nat2Z.id, take_app_length.
  destruct v; try done. cbn [major_of Z.eqb andb].
  assert (drop (content_at (item_of (Text t))) (encode (Text t)) = t) as ->.
  { by rewrite content_at_head, encode_head, drop_app_length by done. }
  by rewrite Ht.
Qed.

Lemma head_length m n : (1 ≤ length (head m n) ≤ 9)%nat.
Proof.
  unfold head. repeat (destruct (_ <=? _)); cbn [length]; rewrite ?length_be_bytes; lia.
Qed.

(** Reading the parts one after the other. *)
Lemma children_end_parts levels v rest :
  (∀ b, v ≠ Bool b) → (∀ b, v ≠ Encoded b) → content_of v = List.flat_map encode (parts v) →
  Forall (λ v, reads levels (item_of v)) (parts v) →
  children_end levels (encode v ++ rest) (content_at (item_of v)) (length (parts v))
  = Ok (length (encode v)).
Proof.
  intros Hb He Hc HF. rewrite content_at_head, encode_head by done.
  rewrite <-(length_fmap item_of), (children_end_reads _ _ _ (item_of <$> parts v) rest).
  - by rewrite <-flat_map_encodings, <-Hc, length_app.
  - by apply Forall_fmap.
  - rewrite !length_app. lia.
  - by rewrite <-app_assoc, drop_app_length, Hc, flat_map_encodings.
Qed.

Lemma parts_count v n :
  child_count (major_of v) (argument_of v) = Ok n → 4 ≤ major_of v ≤ 6 →
  n = len (parts v).
Proof.
  unfold child_count, len. destruct v; simpl; try lia.
  - by intros [= <-].
  - destruct (_ <? _); [|done]. intros [= <-] _. unfold len. rewrite length_parts_map. lia.
  - by intros [= <-].
Qed.

Lemma read_at_bool levels b rest :
  read_at (S levels) (encode (Bool b) ++ rest) = Ok (item_of (Bool b)).
Proof.
  apply (read_at_intro _ _ _ (argument_of (Bool b)) 1).
  - by destruct b.
  - by destruct b.
  - unfold close_item, len. rewrite (proj2 (Z.leb_le _ _)) by (simpl; lia). by destruct b.
  - by destruct b.
Qed.

Lemma read_at_encode levels v rest : wf levels v → read_at levels (encode v ++ rest) = Ok (item_of v).
Proof.
  revert v rest. induction levels as [|levels IH]; intros v rest Hw; [by inversion Hw|].
  assert (0 ≤ argument_of v < 2 ^ 64) as Ha by (inversion Hw; simpl; unfold len in *; try lia; by destruct b).
  assert (Forall (λ v, reads levels (item_of v)) (parts v)) as HF.
  { assert (Forall (wf levels) (parts v)) as HF.
    { inversion Hw; subst; simpl; try done; try by repeat constructor.
      rename select (Forall _ entries) into HF.
      clear -HF. induction HF as [|[k v] entries [H1 H2] HF IH]; [constructor|].
      rewrite bind_cons. by repeat constructor. }
    eapply list.Forall_impl; [exact HF|]. intros w Hv rest'. by apply IH. }
  assert ((∃ b, v = Bool b) ∨ (∀ b, v ≠ Bool b)) as [[b ->]|Hb].
  { destruct v; try (by right); left; eauto. }
  { by apply read_at_bool. }
  assert (∀ b, v ≠ Encoded b) as He by (by inversion Hw).
  destruct (read_head_head (major_of v) (argument_of v) (content_of v ++ rest)
    (major_of_range v) Ha) as [info Hh].
  apply (read_at_intro _ _ _ info (len (encode v))).
  - rewrite content_at_head by done. rewrite encode_head, <-app_assoc by done. exact Hh.
  - destruct v; try done; [by destruct (Hb b)|by destruct (He bytes)].
  - apply close_encode; [done|done|]. intros t ->. by inversion Hw.
  - cbn [major argument item_of].
    assert (argument_of v = len (content_of v) → len (encode v) < 2 ^ 64 →
      len (encode v) = Z.of_nat (content_at (item_of v)) + argument_of v ∧ len (encode v) < 2 ^ 64) as Hstr.
    { intros E ?. split; [|done]. rewrite E, content_at_head, encode_head by done.
      unfold len. rewrite length_app. lia. }
    assert (len (encode v) = Z.of_nat (length (head (major_of v) (argument_of v))) + len (content_of v)) as Hlen.
    { rewrite encode_head by done. unfold len. rewrite length_app. lia. }
    pose proof (head_length (major_of v) (argument_of v)).
    assert (4 ≤ major_of v ≤ 6 → content_of v = List.flat_map encode (parts v) →
      (∃ n, child_count (major_of v) (argument_of v) = Ok n) →
      ∃ n e, child_count (major_of v) (argument_of v) = Ok n ∧
      n ≤ len (encode v ++ rest) - Z.of_nat (content_at (item_of v)) ∧ len (encode v) = Z.of_nat e ∧
      children_end levels (encode v ++ rest) (content_at (item_of v)) (Z.to_nat n) = Ok e) as Hnest.
    { intros Hm Hc [n Hn]. exists n, (length (encode v)). pose proof (parts_count v n Hn Hm) as ->.
      split_and!; [done| |done|].
      - assert (length (parts v) ≤ length (content_of v))%nat.
        { rewrite Hc, flat_map_encodings, <-(length_fmap item_of). apply encodings_length.
          apply Forall_fmap. eapply list.Forall_impl; [exact HF|]. intros w Hr.
          specialize (Hr []). by apply read_at_spec in Hr as (_ & ? & _). }
        rewrite content_at_head by done. unfold len in *. rewrite length_app. lia.
      - unfold len. rewrite Nat2Z.id. by apply children_end_parts. }
    inversion Hw; subst; cbn [major_of argument_of content_of parts] in *; simpl (_ || _);
      try (apply Hstr; [done|unfold len in *; lia]).
    + rewrite content_at_head by done. unfold len in *. simpl in *. lia.
    + rewrite content_at_head by done. unfold len in *. simpl in *. lia.
    + apply Hnest; [lia|done|by eexists].
    + apply Hnest; [lia|apply flat_map_parts || done|]. eexists. unfold child_count.
      cbn [Z.eqb Pos.eqb]. rewrite (proj2 (Z.ltb_lt _ _)) by (unfold len in *; lia). done.
    + apply Hnest; [lia|done|by eexists].
    + by destruct (Hb b).
Qed.
End RoundTrip.

Section Items.
Lemma wf_parts levels v : wf (S levels) v → Forall (wf levels) (parts v).
Proof.
  intros Hw. inversion Hw; subst; simpl; try done; try by repeat constructor.
  rename select (Forall _ entries) into HF.
  clear -HF. induction HF as [|[k v] entries [H1 H2] HF IH]; [constructor|].
  rewrite bind_cons. by repeat constructor.
Qed.

Lemma wf_reads levels v : wf levels v → reads levels (item_of v) ∧ item_ok (item_of v).
Proof.
  intros Hw. assert (reads levels (item_of v)) as Hr by (intros rest; by apply read_at_encode).
  split; [done|]. specialize (Hr []). by apply read_at_spec in Hr as (_ & ? & _).
Qed.

Lemma children_item_of levels v :
  (levels ≤ S MAX_DEPTH)%nat → wf levels v → children (item_of v) = item_of <$> parts v.
Proof.
  intros Hl Hw. destruct levels as [|levels]; [by inversion Hw|]. pose proof (wf_parts _ _ Hw) as HF.
  unfold children. destruct (decide (4 ≤ major_of v ≤ 6)) as [Hm|Hm].
  - cbn [major item_of]. rewrite (proj2 (Z.leb_le 4 _)), (proj2 (Z.leb_le _ 6)) by lia.
    cbn [andb]. unfold item_content. cbn [item_bytes item_of].
    assert ((∀ b, v ≠ Bool b) ∧ ∀ b, v ≠ Encoded b) as [Hb He].
    { split; intros b ->; simpl in Hm; lia. }
    rewrite content_at_head, encode_head, drop_app_length by done.
    assert (content_of v = List.flat_map encode (parts v)) as -> by (destruct v; simpl in *; done || lia).
    rewrite flat_map_encodings. apply children_from_encodings.
    + apply Forall_fmap. eapply list.Forall_impl; [exact HF|]. intros w Hv.
      eapply reads_mono; [|apply wf_reads, Hv]. lia.
    + apply Forall_fmap. eapply list.Forall_impl; [exact HF|]. intros w Hv. eapply wf_reads, Hv.
    + rewrite length_app. lia.
  - cbn [major item_of]. destruct (_ && _) eqn:E.
    + apply andb_prop in E as [E1 E2]. apply Z.leb_le in E1, E2. lia.
    + destruct v; simpl in *; done || lia.
Qed.

Lemma pairs_flatten entries :
  pairs (item_of <$> (entries ≫= λ '((k, v) : Value * Value), [k; v]))
  = (λ '((k, v) : Value * Value), (item_of k, item_of v)) <$> entries.
Proof.
  induction entries as [|[k v] entries IH]; [done|]. rewrite bind_cons.
  cbn [app fmap list_fmap pairs]. f_equal. exact IH.
Qed.

(** An array nested [n] deep around a [true]. *)
Fixpoint nested (n : nat) : Value :=
  match n with O => Bool true | S n => Array [nested n] end.

Lemma nested_depth levels n rest it :
  read_at levels (encode (nested n) ++ rest) = Ok it → (n < levels)%nat.
Proof.
  revert levels rest it. induction n as [|n IH]; intros [|levels] rest it H; try lia; try done.
  apply read_at_inv in H as (? & info & end_ & [= <-] & Hh & _ & _ & He).
  cbn [nested encode List.flat_map] in *. rewrite app_nil_r, <-app_assoc in *.
  destruct (read_head_head 4 1 (encode (nested n) ++ rest)) as [info' Hh']; [lia|lia|].
  change (len [nested n]) with 1 in *. rewrite Hh' in Hh. injection Hh as Em _ Ea Ec.
  rewrite <-Em, <-Ea, <-Ec in He. simpl in He. destruct He as (k & e & [= <-] & _ & _ & He).
  change (Z.to_nat 1) with 1%nat in He. rewrite children_end_S in He.
  apply bind_ok in He as (r & Hr%ok_or_ok & He). apply bind_ok in He as (c & Hc & _).
  unfold get_from in Hr. destruct (_ <=? _)%nat; [|done]. injection Hr as <-.
  change (read_at levels (encode (nested n) ++ rest) = Ok c) in Hc. apply IH in Hc. lia.
Qed.

Lemma wf_nested n : wf (S n) (nested n).
Proof. induction n as [|n IH]; simpl; [constructor|]. constructor; [done|]. by constructor. Qed.

(** No encoding is the start of another. *)
Lemma encode_prefix_free levels v v' rest rest' :
  wf levels v → wf levels v' → encode v ++ rest = encode v' ++ rest' →
  encode v = encode v' ∧ rest = rest'.
Proof.
  intros Hv Hv' E. pose proof (read_at_encode _ _ rest Hv) as R.
  rewrite E, (read_at_encode _ _ rest' Hv') in R. injection R as R _ _ _.
  symmetry in R. split; [done|]. rewrite R in E. by apply app_inv_head in E.
Qed.

Lemma len_to_nat {A} (l : list A) : Z.to_nat (len l) = length l.
Proof. apply Nat2Z.id. Qed.

(** An item of the simple values and an array of items that read back. *)
Definition simple_item (b : byte) : Item :=
  {| item_bytes := [b]; major := 7; argument := Z.land (b2z b) 31; content_at := 1 |}.
Definition array_item (items : list Item) : Item := {|
  item_bytes := head 4 (len items) ++ encodings items;
  major := 4;
  argument := len items;
  content_at := length (head 4 (len items));
  |}.

Lemma reads_simple levels b : 0xe0 ≤ b2z b < 0xf8 → reads (S levels) (simple_item b).
Proof.
  intros Hb rest. pose proof (initial_parts 7 (b2z b - 224) ltac:(lia) ltac:(lia)) as [E1 E2].
  replace (32 * 7 + (b2z b - 224)) with (b2z b) in * by lia.
  apply (read_at_intro _ _ _ (b2z b - 224) 1); cbn [simple_item major argument content_at item_bytes app].
  - unfold read_head. cbn [lookup list_lookup ok_or mbind outcome_bind]. cbv zeta.
    rewrite E1, E2, (proj2 (Z.leb_le _ _)) by lia. done.
  - rewrite (proj2 (Z.eqb_neq _ 24)) by lia. done.
  - unfold close_item, len. rewrite (proj2 (Z.leb_le _ _)) by (simpl; lia). done.
  - done.
Qed.

Lemma reads_array levels items :
  len items < 2 ^ 63 → Forall (reads levels) items → Forall item_ok items →
  reads (S levels) (array_item items).
Proof.
  intros Hl HF HFo rest.
  destruct (read_head_head 4 (len items) (encodings items ++ rest)) as [info Hh];
    [lia|unfold len in *; lia|].
  apply (read_at_intro _ _ _ info (len (head 4 (len items) ++ encodings items)));
    cbn [array_item major argument content_at item_bytes].
  - by rewrite <-app_assoc.
  - done.
  - unfold close_item. rewrite (proj2 (Z.leb_le _ _)) by (unfold len; rewrite !length_app; lia).
    cbn [ok_or mbind outcome_bind]. rewrite len_to_nat. by rewrite take_app_length.
  - pose proof (encodings_length _ HFo). simpl (_ || _). cbn [Z.leb andb].
    exists (len items), (length (head 4 (len items) ++ encodings items)). split_and!; [done| |done|].
    + unfold len in *. rewrite !length_app. lia.
    + rewrite len_to_nat, (children_end_reads _ _ _ _ rest); [by rewrite length_app|done| |].
      * rewrite !length_app. lia.
      * by rewrite <-app_assoc, drop_app_length.
Qed.

(** Two items that read back, followed by anything, are told apart. *)
Lemma reads_prefix_free levels it it' rest rest' :
  reads levels it → reads levels it' → item_bytes it ++ rest = item_bytes it' ++ rest' →
  it = it' ∧ rest = rest'.
Proof.
  intros Hr Hr' E. specialize (Hr rest). rewrite E, (Hr' rest') in Hr. injection Hr as ->.
  split; [done|]. by apply app_inv_head in E.
Qed.
End Items.

(** * Properties *)
Section CborProperties.
(** C36: The reader takes back what the encoder writes, whatever bytes
    follow: the item is the value's own encoding, and its children are the
    items of the values inside it, in their order. *)
Theorem read_encode v rest :
  wf (S MAX_DEPTH) v → len (encode v ++ rest) ≤ MAX_INPUT →
  read (encode v ++ rest) = Ok (item_of v) ∧ children (item_of v) = item_of <$> parts v.
Proof.
  intros Hw Hl. unfold read. rewrite (proj2 (Z.ltb_ge _ _)) by done. split.
  - by apply read_at_encode.
  - by apply (children_item_of (S MAX_DEPTH)).
Qed.

(** C37: Reading any bytes, hostile ones included, gives an item that is a
    prefix of them, with its content inside it; it reads back from that
    prefix alone; and an array, a map or a tag has exactly the children its
    head declares, whose encodings are its content. *)
Theorem read_self_delimiting bytes it :
  read bytes = Ok it →
  item_bytes it `prefix_of` bytes ∧
  (1 ≤ content_at it ≤ length (item_bytes it))%nat ∧
  read (item_bytes it) = Ok it ∧
  (4 ≤ major it ≤ 6 →
  item_content it = concat (item_bytes <$> children it) ∧
  child_count (major it) (argument it) = Ok (len (children it)) ∧
  ∀ c, c ∈ children it → read (item_bytes c) = Ok c).
Proof.
  unfold read. destruct (Z.ltb_spec MAX_INPUT (len bytes)) as [|Hl]; [done|]. intros H.
  destruct (read_at_spec _ _ _ H) as (Hr & Hok & [rest Hp]). unfold len in *.
  assert (length (item_bytes it) ≤ length bytes)%nat as Hle.
  { rewrite Hp, length_app. lia. }
  split_and!; [by exists rest|apply Hok|apply Hok| |].
  - rewrite (proj2 (Z.ltb_ge _ _)) by lia. specialize (Hr []). by rewrite app_nil_r in Hr.
  - intros Hm. destruct (children_complete _ _ _ (le_n _) H Hm) as (Hc & Hn & HF & HFo).
    split_and!; [done..|]. intros c Hin. rewrite list.Forall_forall in HF.
    assert (length (item_bytes c) ≤ length (item_bytes it))%nat.
    { pose proof (f_equal length Hc) as E. unfold item_content in E. rewrite length_drop in E.
      apply list_elem_of_split in Hin as (l1 & l2 & El). unfold encodings in E. rewrite El in E.
      rewrite fmap_app, fmap_cons, concat_app, !length_app in E. cbn [concat] in E.
      rewrite length_app in E. lia. }
    rewrite (proj2 (Z.ltb_ge _ _)) by lia. specialize (HF _ Hin []). by rewrite app_nil_r in HF.
Qed.

(** Nesting is read up to the limit and refused past it: an array nested
    n deep is read exactly when n is at most [MAX_DEPTH]. *)
Theorem read_depth n :
  len (encode (nested n)) ≤ MAX_INPUT →
  (∃ it, read (encode (nested n)) = Ok it) ↔ (n ≤ MAX_DEPTH)%nat.
Proof.
  intros Hl. unfold read. rewrite (proj2 (Z.ltb_ge _ _)) by done.
  rewrite <-(app_nil_r (encode (nested n))). split.
  - intros [it H%nested_depth]. lia.
  - intros Hn. exists (item_of (nested n)). eapply read_at_mono; [|apply read_at_encode, wf_nested].
    lia.
Qed.

(** [get] returns the value of the first entry whose key encodes as the
    key asked for does, and an error when there is none. *)
Theorem item_get_first entries key :
  wf (S MAX_DEPTH) (Map entries) →
  item_get (item_of (Map entries)) key =
  ok_or ("no key " +:+ debug_hex (encode key)) ((λ '(_, kv), item_of kv.2) <$>
  list_find (λ kv, encode kv.1 = encode key) entries).
Proof.
  intros Hw. unfold item_get. cbn [major item_of major_of Z.eqb Pos.eqb negb].
  rewrite (children_item_of (S MAX_DEPTH)) by done. cbn [parts]. rewrite pairs_flatten.
  f_equal. clear Hw. rewrite list_find_fmap.
  rewrite <-!option_fmap_compose.
  assert (list_find ((λ entry, item_bytes entry.1 = encode key) ∘ (λ '((k, v) : Value * Value), (item_of k, item_of v))) entries
    = list_find (λ kv, encode kv.1 = encode key) entries) as ->.
  { apply list_find_ext. by intros []. }
  by destruct (list_find _ _) as [[? []]|].
Qed.
End CborProperties.
