(* ===== verification/OffsetBind.v ===== *)
(** [offset_bind.rs]: windows of the signed bytes at witnessed offsets, packed
    sixteen bytes at a time, and the landmarks of the digest region: the
    literal anchors, the masked windows that are published, the walk over the
    entries of a namespace, and the validity window. A [String] is its UTF-8
    bytes; [reject] prints its reason and returns [Unsatisfiable], and only the
    error is modelled. This file has the definitions and their facts that need no rules;
    [OffsetRules] says what the rules force. *)
From Stdlib Require Import ZArith Lia Strings.String Strings.Byte.
From stdpp Require Import base list numbers option strings pretty.
From S2P Require Import Prelude Bytes Field ConstraintSystem Shape CheckSystem Bellpepper Lc Bits Gadgets Select Limbs BigNat CborUint OneHotCursor DigestId Sha256Var Packing Sha256Mc.

(** * Literals *)
Definition VALUE_DIGESTS_OPEN_KEY : list byte := x6c :: bytes_of "valueDigests".

Definition map_header (n : nat) : list byte :=
  if (n <? 24)%nat then [z2b (Z.lor 0xa0 (Z.of_nat n))] else [xb8; z2b (Z.of_nat n)].

Definition DEVICE_KEY_INFO : list byte :=
  x6d :: bytes_of "deviceKeyInfo" ++ [xa1; x69] ++ bytes_of "deviceKey" ++ [xa4; x01; x02; x20; x01; x21; x58; x20].
Definition DEVICE_KEY_X_DELTA : nat := length DEVICE_KEY_INFO.
Definition DEVICE_KEY_Y_DELTA : nat := DEVICE_KEY_X_DELTA + 32 + 3.

Definition VALIDITY_OPEN : list byte :=
  x6c :: bytes_of "validityInfo" ++ [xa3; x66] ++ bytes_of "signed" ++ [xc0; x74].
Definition VALIDITY_MID_FROM : list byte := x69 :: bytes_of "validFrom" ++ [xc0; x74].
Definition VALIDITY_MID_UNTIL : list byte := x6a :: bytes_of "validUntil" ++ [xc0; x74].
Definition TIMESTAMP_LEN : nat := 20.
Definition VALID_FROM_DELTA : nat := 23 + TIMESTAMP_LEN + 12.
Definition VALID_UNTIL_DELTA : nat := VALID_FROM_DELTA + TIMESTAMP_LEN + 13.
Definition VALIDITY_WINDOW_LEN : nat := VALID_UNTIL_DELTA + TIMESTAMP_LEN.

Definition MAX_ANCHOR_WINDOW : nat := 48.
Definition MIN_BYTES_AFTER_DEVICE_KEY_INFO : nat := 124.
Definition DOC_TYPE_KEY : list byte := x67 :: bytes_of "docType".
Definition ANCHOR_TEXT_WINDOW : nat := 40.
Definition ANCHOR_TEXT_PACKS : nat := div_ceil ANCHOR_TEXT_WINDOW BYTES_PER_PACK.

(** The assertion on the constants at compile time. *)
Lemma device_key_fits :
  MAX_ANCHOR_WINDOW + DEVICE_KEY_Y_DELTA + 32 ≤ MIN_BYTES_AFTER_DEVICE_KEY_INFO + 32.
Proof. apply Nat.leb_le. reflexivity. Qed.

Definition tstr_header (len : nat) : outcome SynthesisError (list byte) :=
  if (256 <=? len)%nat then Err Unsatisfiable else
  Ok (if (len <? 24)%nat then [z2b (Z.lor 0x60 (Z.of_nat len))] else [x78; z2b (Z.of_nat len)]).

Definition namespace_prefix_len (namespace : list byte) (num_entries : nat) : outcome SynthesisError nat :=
  if (256 <=? num_entries)%nat then Err Unsatisfiable else
  header ← tstr_header (length namespace);
  Ok (length header + length namespace + length (map_header num_entries))%nat.

Definition doc_type_prefix_len (doc_type : list byte) : outcome SynthesisError nat :=
  header ← tstr_header (length doc_type);
  Ok (length DOC_TYPE_KEY + length header + length doc_type)%nat.

Definition MAX_NAMESPACE_ENTRIES : nat := 64.
Definition DIGEST_VALUE_LEN : nat := 34.
Definition ENTRY_HEAD_WINDOW : nat := 7.
Definition DIGEST_ID_WIDTHS : list (nat * option Z) := [(1, None); (2, Some 0x18%Z); (3, Some 0x19%Z); (5, Some 0x1a%Z)].

(** The width of the [digestID] at an offset. *)
Definition digest_id_width (native : list byte) (at_ : nat) : outcome SynthesisError nat :=
  match native !! at_ with
  | Some b =>
      if (b2z b <? 0x18)%Z then Ok 1%nat else
      if decide (b = x18) then Ok 2%nat else
      if decide (b = x19) then Ok 3%nat else
      if decide (b = x1a) then Ok 5%nat else Err Unsatisfiable
  | None => Err Unsatisfiable
  end.

Definition native_region_end (native : list byte) (region_start num_entries : nat) : outcome SynthesisError nat :=
  foldM (λ at_ (_ : nat),
    width ← digest_id_width native at_;
    ok_or Unsatisfiable (checked_usize (Z.of_nat at_ + Z.of_nat (width + DIGEST_VALUE_LEN))))
    region_start (range num_entries).

Definition window_end (at_ len native_len : nat) : outcome SynthesisError nat :=
  match checked_usize (Z.of_nat at_ + Z.of_nat len) with
  | Some end_ => if (end_ <=? native_len)%nat then Ok end_ else Err Unsatisfiable
  | None => Err Unsatisfiable
  end.

(** [a + b] on [usize], which panics when it overflows. *)
Definition add_usize (a b : nat) : outcome SynthesisError nat :=
  match checked_usize (Z.of_nat a + Z.of_nat b) with Some c => Ok c | None => Panic "attempt to add with overflow" end.

Definition window_offsets (len window_len : nat) : list nat :=
  if (len <? window_len)%nat then [] else range (len - window_len + 1).
Definition anchor_offsets (buffer_len : nat) : list nat := window_offsets buffer_len MAX_ANCHOR_WINDOW.

(** * What the prover claims *)
Record CredentialShape := mkCredentialShape {
  shape_namespace : list byte;
  shape_doc_type : list byte;
  shape_num_entries : nat;
}.

Record Landmarks := mkLandmarks {
  value_digests_key : nat;
  namespace_key : nat;
  region_start : nat;
  device_key_info : nat;
  doc_type_key : nat;
  validity_info : nat;
}.

(** * Weighted sums of the signed bits *)
Section OffsetBind.
Context `{BooleanOps}.

Definition byte_lc (bits : list Boolean) (byte_idx : nat) (scale : Scalar) : outcome SynthesisError LinearCombination :=
  foldM (λ lc j,
    b ← nth_value bits (byte_idx * 8 + j);
    Ok (lc_add lc (Boolean_lc b one (doublings (7 - j) scale)))) lc_zero (range 8).

Definition pack_at (bits : list Boolean) (start len total_bytes : nat) : outcome SynthesisError (list LinearCombination) :=
  mapM (λ p,
    let lo := (p * BYTES_PER_PACK)%nat in
    let hi := ((lo + BYTES_PER_PACK) `min` len)%nat in
    foldM (λ acc i,
      let coeff := byte_shifts (hi - 1 - i) ONE in
      let idx := (start + i)%nat in
      if (idx <? total_bytes)%nat then b ← byte_lc bits idx coeff; Ok (lc_add acc b) else Ok acc)
      lc_zero (seq lo (hi - lo))) (range (div_ceil len BYTES_PER_PACK)).

Definition pack_constant (window : list byte) : list Scalar := pack_be <$> chunks BYTES_PER_PACK window.

(** * Windows *)
Record SelectedWindow := mkSelectedWindow { packs : list AllocatedNum; offset : LinearCombination }.

Definition select_window (bits : list Boolean) (native : list byte) (candidates : list nat)
    (real_offset window_len : nat) : Synth SelectedWindow :=
  if negb (bool_decide (real_offset ∈ candidates)) then Fail' Unsatisfiable else
  one_hot ← ns "offset" (alloc_one_hot candidates real_offset);
  let n_packs := div_ceil window_len BYTES_PER_PACK in
  packs ← mapM (λ p,
    let lo := (p * BYTES_PER_PACK)%nat in
    let hi := ((lo + BYTES_PER_PACK) `min` window_len)%nat in
    let value := pack_be ((λ i, default x00 (native !! (real_offset + i)%nat)) <$> seq lo (hi - lo)) in
    out ← ns ("pack " +:+ pretty p) (AllocatedNum_alloc (Ok value));
    acc ← foldM (λ acc '(k, cand),
      ws ← lift (pack_at bits cand window_len (length native));
      w ← index ws p;
      term ← ns ("term " +:+ pretty p +:+ " " +:+ pretty (k : nat))
        (AllocatedNum_alloc (Ok (if (cand =? real_offset)%nat then value else ZERO)));
      b ← index one_hot k;
      enforce ("select " +:+ pretty p +:+ " " +:+ pretty k)
        (lc_add lc_zero (Boolean_lc b one ONE)) (lc_add lc_zero w) (lc_add_var lc_zero (get_variable term)) ;;
      mret (lc_add_var acc (get_variable term))) lc_zero (imap (λ k cand, (k, cand)) candidates);
    enforce ("pack " +:+ pretty p +:+ " is the selected window")
      (lc_add lc_zero acc) (lc_add_var lc_zero one) (lc_add_var lc_zero (get_variable out)) ;;
    mret out) (range n_packs);
  offset ← foldM (λ lc '(k, cand),
    b ← index one_hot k;
    mret (lc_add lc (Boolean_lc b one (from_u64 (Z.of_nat cand))))) lc_zero (imap (λ k cand, (k, cand)) candidates);
  mret {| packs := packs; offset := offset |}.

Definition unpack_window_bits (window : SelectedWindow) (total_len : nat) : Synth (list Boolean) :=
  out ← mapM (λ '(p, pack),
    let lo := (p * BYTES_PER_PACK)%nat in
    assert (lo <=? total_len)%nat "attempt to subtract with overflow" ;;
    let n := ((total_len - lo) `min` BYTES_PER_PACK)%nat in
    let value := get_value pack in
    bits ← mapM (λ i,
      let shift := (n - 1 - i)%nat in
      let native := (λ v, default x00 (to_repr v !! shift)) <$> value in
      mapM (λ bit_idx,
        b ← ns ("pack " +:+ pretty (p : nat) +:+ " byte " +:+ pretty i +:+ " bit " +:+ pretty bit_idx)
          (AllocatedBit_alloc ((λ byte, Z.testbit (b2z byte) (Z.of_nat (7 - bit_idx))) <$> native));
        mret (doublings (7 - bit_idx) (byte_shifts shift ONE), b)) (range 8)) (range n);
    let recomposed := foldl (λ lc '(coeff, b), lc_add_term lc (coeff, bit_get_variable b)) lc_zero (concat bits) in
    enforce ("pack " +:+ pretty p +:+ " recomposes from its bits")
      (lc_add lc_zero recomposed) (lc_add_var lc_zero one) (lc_add_var lc_zero (get_variable pack)) ;;
    mret ((λ '(_, b), Boolean_from b) <$> concat bits)) (imap (λ p pack, (p, pack)) (packs window));
  mret (concat out).

(** [byte_bits] of [offset_bind.rs]: the eight bits of a number. *)
Definition number_bits (byte : AllocatedNum) : Synth (list Boolean) :=
  let native := (λ v, default x00 (to_repr v !! 0%nat)) <$> get_value byte in
  bits ← mapM (λ i,
    b ← ns ("bit " +:+ pretty i)
      (AllocatedBit_alloc ((λ n, Z.testbit (b2z n) (Z.of_nat (7 - i))) <$> native));
    mret (doublings (7 - i) ONE, b)) (range 8);
  let recomposed := foldl (λ lc '(coeff, b), lc_add_term lc (coeff, bit_get_variable b)) lc_zero bits in
  enforce "byte recomposes from its bits"
    (lc_add lc_zero recomposed) (lc_add_var lc_zero one) (lc_add_var lc_zero (get_variable byte)) ;;
  mret ((λ '(_, b), Boolean_from b) <$> bits).

Definition enforce_window_equals (window : SelectedWindow) (expected : list byte) : Synth unit :=
  let packed := pack_constant expected in
  if negb (length packed =? length (packs window))%nat then Fail' Unsatisfiable else
  mapM (λ '(p, (var, expect)),
    enforce ("window pack " +:+ pretty (p : nat) +:+ " matches literal")
      (lc_add_var lc_zero (get_variable var)) (lc_add_var lc_zero one) (lc_add_term lc_zero (expect, one)))
    (imap (λ p x, (p, x)) (zip (packs window) packed)) ;;
  mret tt.

Definition select_anchor (bits : list Boolean) (native : list byte) (real_offset : nat)
    (expected : list byte) (expected_packs : nat) : Synth SelectedWindow :=
  if negb (div_ceil (length expected) BYTES_PER_PACK =? expected_packs)%nat then Fail' Unsatisfiable else
  window ← ns "select" (select_window bits native (anchor_offsets (length native)) real_offset (length expected));
  ns "literal" (enforce_window_equals window expected) ;;
  mret window.

Definition enforce_ge (value floor : LinearCombination) (native_difference bits_needed : nat) : Synth unit :=
  '(recomposed, _) ← foldM (λ '(recomposed, coeff) i,
    bit ← ns ("difference bit " +:+ pretty i)
      (AllocatedBit_alloc (Some (Z.testbit (Z.of_nat native_difference) (Z.of_nat i))));
    mret (lc_add_term recomposed (coeff, bit_get_variable bit), double coeff)) (lc_zero, ONE) (range bits_needed);
  enforce "difference is exactly the decomposed bits"
    (lc_sub (lc_add lc_zero value) floor) (lc_add_var lc_zero one) (lc_add lc_zero recomposed).

(** * Masked windows *)

Definition select_masked_text_anchor (bits : list Boolean) (native : list byte) (real_offset prefix_len : nat)
    : Synth (list AllocatedNum * AllocatedNum) :=
  if (prefix_len =? 0)%nat || (ANCHOR_TEXT_WINDOW <? prefix_len)%nat then Fail' Unsatisfiable else
  window ← ns "select" (select_window bits native (anchor_offsets (length native)) real_offset ANCHOR_TEXT_WINDOW);
  window_bits ← ns "unpack" (unpack_window_bits window ANCHOR_TEXT_WINDOW);
  len_sel ← mapM (λ n, ns ("length " +:+ pretty n) (AllocatedBit_alloc (Some (n =? prefix_len)%nat)))
    (seq 1 ANCHOR_TEXT_WINDOW);
  let sum := foldl (λ lc b, lc_add_var lc (bit_get_variable b)) lc_zero len_sel in
  let len_lc := foldl (λ lc '(i, b), lc_add_term lc (from_u64 (Z.of_nat (i + 1)), bit_get_variable b))
    lc_zero (imap (λ i b, (i, b)) len_sel) in
  enforce "exactly one length" (lc_add lc_zero sum) (lc_add_var lc_zero one) (lc_add_var lc_zero one) ;;
  prefix ← ns "prefix length" (AllocatedNum_alloc (Ok (from_u64 (Z.of_nat prefix_len))));
  enforce "the published length is the one that masks the window"
    (lc_add lc_zero len_lc) (lc_add_var lc_zero one) (lc_add_var lc_zero (get_variable prefix)) ;;
  masked_bytes ← mapM (λ j,
    let active := foldl (λ lc '(i, b), if (j <? i + 1)%nat then lc_add_var lc (bit_get_variable b) else lc)
      lc_zero (imap (λ i b, (i, b)) len_sel) in
    byte ← lift (byte_lc window_bits j ONE);
    let value := if (j <? prefix_len)%nat then default x00 (native !! (real_offset + j)%nat) else x00 in
    out ← ns ("masked byte " +:+ pretty j) (AllocatedNum_alloc (Ok (from_u64 (b2z value))));
    enforce ("byte " +:+ pretty j +:+ " survives only inside the prefix")
      (lc_add lc_zero byte) (lc_add lc_zero active) (lc_add_var lc_zero (get_variable out)) ;;
    mret out) (range ANCHOR_TEXT_WINDOW);
  packs ← mapM (λ p,
    let lo := (p * BYTES_PER_PACK)%nat in
    let n := ((ANCHOR_TEXT_WINDOW - lo) `min` BYTES_PER_PACK)%nat in
    '(lc, value) ← foldM (λ '(lc, value) i,
      let coeff := byte_shifts (n - 1 - i) ONE in
      b ← index masked_bytes (lo + i);
      mret (lc_add_term lc (coeff, get_variable b),
        a ← value; v ← get_value b; Some (a + coeff * v)%S)) (lc_zero, Some ZERO) (range n);
    out ← ns ("masked pack " +:+ pretty p) (AllocatedNum_alloc (ok_or AssignmentMissing value));
    enforce ("masked pack " +:+ pretty p +:+ " recombines")
      (lc_add lc_zero lc) (lc_add_var lc_zero one) (lc_add_var lc_zero (get_variable out)) ;;
    mret out) (range ANCHOR_TEXT_PACKS);
  mret (packs, prefix).

(** * The validity window *)
Definition ValidityWindow : Type := list AllocatedNum * list AllocatedNum.

(** The closure [take]: the number of each byte of a timestamp. *)
Definition take_timestamp (wb : list Boolean) (delta : nat) (tag : string) : Synth (list AllocatedNum) :=
  mapM (λ i,
    '(lc, _) ← foldM (λ '(lc, coeff) bit,
      b ← index wb ((delta + i) * 8 + bit);
      half ← lift (invert_unwrap (from_u64 2));
      mret (lc_add lc (Boolean_lc b one coeff), coeff * half)%S) (lc_zero, from_u64 128) (range 8);
    v ← ns (tag +:+ " " +:+ pretty i) (AllocatedNum_alloc (
      acc ← foldM (λ acc bit,
        b ← nth_value wb ((delta + i) * 8 + bit);
        v ← ok_or AssignmentMissing (Boolean_get_value b);
        Ok (if (v : bool) then Z.lor acc (Z.shiftl 1 (Z.of_nat (7 - bit))) else acc)) 0%Z (range 8);
      Ok (from_u64 acc)));
    enforce (tag +:+ " " +:+ pretty i +:+ " value")
      (lc_add lc_zero lc) (lc_add_var lc_zero one) (lc_add_var lc_zero (get_variable v)) ;;
    mret v) (range TIMESTAMP_LEN).

(** The bytes of the validity window that every credential has. *)
Definition validity_literals : list (nat * byte) :=
  imap (λ i b, (i, b)) VALIDITY_OPEN ++
  imap (λ i b, (length VALIDITY_OPEN + TIMESTAMP_LEN + i, b)%nat) VALIDITY_MID_FROM ++
  imap (λ i b, (VALID_FROM_DELTA + TIMESTAMP_LEN + i, b)%nat) VALIDITY_MID_UNTIL.

Definition bind_validity (bits : list Boolean) (native : list byte) (validity_info_offset : nat) : Synth ValidityWindow :=
  let window_end := checked_usize (Z.of_nat validity_info_offset + Z.of_nat VALIDITY_WINDOW_LEN) in
  if match window_end with None => true | Some end_ => (length native <? end_)%nat end then Fail' Unsatisfiable else
  window ← ns "validityInfo"
    (select_window bits native (anchor_offsets (length native)) validity_info_offset VALIDITY_WINDOW_LEN);
  wb ← ns "validity bytes" (unpack_window_bits window VALIDITY_WINDOW_LEN);
  mapM (λ '(at_, expect),
    mapM (λ bit,
      let want := Z.testbit (b2z expect) (Z.of_nat (7 - bit)) in
      b ← index wb (at_ * 8 + bit);
      enforce ("validityInfo literal byte " +:+ pretty (at_ : nat) +:+ " bit " +:+ pretty bit)
        (lc_sub_term (lc_add lc_zero (Boolean_lc b one ONE)) (if want then ONE else ZERO, one))
        (lc_add_var lc_zero one) lc_zero) (range 8)) validity_literals ;;
  from ← take_timestamp wb VALID_FROM_DELTA "validFrom";
  until ← take_timestamp wb VALID_UNTIL_DELTA "validUntil";
  mret (from, until).

(** * The entries of a namespace *)

(** The format [{:#04x}] of a byte. *)
Definition hex_char (d : Z) : string := nth (Z.to_nat d) ["0"; "1"; "2"; "3"; "4"; "5"; "6"; "7"; "8"; "9"; "a"; "b"; "c"; "d"; "e"; "f"]%string "".
Definition hex_byte (n : Z) : string := "0x" +:+ hex_char (n / 16) +:+ hex_char (n mod 16).

(** The rules of one width of a [digestID], when [sel] is set. *)
Definition width_rules (head_bits : list Boolean) (sel : Var) (w : nat) (head_byte : option Z) : Synth unit :=
  match head_byte with
  | None =>
      mapM (λ bit,
        b ← index head_bits bit;
        enforce ("width " +:+ pretty w +:+ ": head bit " +:+ pretty bit +:+ " is zero")
          (lc_add_var lc_zero sel) (lc_add lc_zero (Boolean_lc b one ONE)) lc_zero) [0; 1; 2]%nat ;;
      b4 ← index head_bits 3;
      b3 ← index head_bits 4;
      both ← ns "argument is 24 or more" (Boolean_and b4 b3);
      enforce ("width " +:+ pretty w +:+ ": the argument is below 24")
        (lc_add_var lc_zero sel) (lc_add lc_zero (Boolean_lc both one ONE)) lc_zero
  | Some expect =>
      b ← lift (byte_lc head_bits 0 ONE);
      enforce ("width " +:+ pretty w +:+ ": head byte is " +:+ hex_byte expect)
        (lc_add_var lc_zero sel) (lc_sub_term (lc_add lc_zero b) (from_u64 expect, one)) lc_zero
  end ;;
  mapM (λ '(rel, expect),
    b ← lift (byte_lc head_bits (w + rel) ONE);
    enforce ("width " +:+ pretty w +:+ ": value header byte " +:+ pretty (rel : nat) +:+ " is " +:+ hex_byte expect)
      (lc_add_var lc_zero sel) (lc_sub_term (lc_add lc_zero b) (from_u64 expect, one)) lc_zero)
    [(0%nat, 0x58%Z); (1%nat, 0x20%Z)] ;;
  mret tt.

(** The step at entry [i], from the place the walk has reached. *)
Definition walk_entry (bits : list Boolean) (native : list byte) (num_entries : nat) (count_sel : list AllocatedBit)
    (i : nat) (here : LinearCombination) (here_native : nat) : Synth (LinearCombination * nat) :=
  let live := foldl (λ lc '(n, b), if (i <? n + 1)%nat then lc_add_var lc (bit_get_variable b) else lc)
    lc_zero (imap (λ n b, (n, b)) count_sel) in
  let is_live := (i <? num_entries)%nat in
  end_ ← lift (add_usize here_native ENTRY_HEAD_WINDOW);
  let at_ := if (end_ <=? length native)%nat then here_native else 0%nat in
  head ← ns "head" (select_window bits native (window_offsets (length native) ENTRY_HEAD_WINDOW) at_ ENTRY_HEAD_WINDOW);
  enforce "the step reads where the walk has reached"
    (lc_sub (lc_add lc_zero (offset head)) here) (lc_add lc_zero live) lc_zero ;;
  head_bits ← ns "head bits" (unpack_window_bits head ENTRY_HEAD_WINDOW);
  real_width ← (if is_live then lift (digest_id_width native here_native) else mret 0%nat);
  width_sel ← mapM (λ '(w, _), ns ("width " +:+ pretty (w : nat)) (AllocatedBit_alloc (Some (is_live && (w =? real_width)%nat))))
    DIGEST_ID_WIDTHS;
  let width_sum := foldl (λ lc b, lc_add_var lc (bit_get_variable b)) lc_zero width_sel in
  enforce "one width while live" (lc_add lc_zero width_sum) (lc_add_var lc_zero one) (lc_add lc_zero live) ;;
  mapM (λ '(sel, (w, head_byte)), width_rules head_bits (bit_get_variable sel) w head_byte)
    (zip width_sel DIGEST_ID_WIDTHS) ;;
  let step := foldl (λ lc '(sel, (w, _)), lc_add_term lc (from_u64 (Z.of_nat (w + DIGEST_VALUE_LEN)), bit_get_variable sel))
    lc_zero (zip width_sel DIGEST_ID_WIDTHS) in
  here_native ← (if is_live then lift (add_usize here_native (real_width + DIGEST_VALUE_LEN)) else mret here_native);
  mret (lc_add here step, here_native).

Definition walk_namespace_entries (bits : list Boolean) (native : list byte) (region_start : LinearCombination)
    (region_start_native num_entries : nat) : Synth (LinearCombination * AllocatedNum) :=
  if (num_entries =? 0)%nat || (MAX_NAMESPACE_ENTRIES <? num_entries)%nat then Fail' Unsatisfiable else
  count_sel ← mapM (λ n, ns ("count " +:+ pretty n) (AllocatedBit_alloc (Some (n =? num_entries)%nat)))
    (seq 1 MAX_NAMESPACE_ENTRIES);
  let count_sum := foldl (λ lc b, lc_add_var lc (bit_get_variable b)) lc_zero count_sel in
  let count_lc := foldl (λ lc '(i, b), lc_add_term lc (from_u64 (Z.of_nat (i + 1)), bit_get_variable b))
    lc_zero (imap (λ i b, (i, b)) count_sel) in
  enforce "exactly one entry count" (lc_add lc_zero count_sum) (lc_add_var lc_zero one) (lc_add_var lc_zero one) ;;
  entries ← ns "entry count" (AllocatedNum_alloc (Ok (from_u64 (Z.of_nat num_entries))));
  enforce "the published entry count is the one that bounds the walk"
    (lc_add lc_zero count_lc) (lc_add_var lc_zero one) (lc_add_var lc_zero (get_variable entries)) ;;
  '(here, _) ← foldM (λ '(here, here_native) i,
    ns ("entry " +:+ pretty i) (walk_entry bits native num_entries count_sel i here here_native))
    (region_start, region_start_native) (range MAX_NAMESPACE_ENTRIES);
  mret (here, entries).

(** * The digest region *)
Record RegionBinding := mkRegionBinding {
  rb_region_start : LinearCombination;
  rb_region_end : LinearCombination;
  rb_doc_type : list AllocatedNum;
  rb_namespace : list AllocatedNum;
  rb_namespace_prefix_len : AllocatedNum;
  rb_num_entries : AllocatedNum;
  rb_device_key : AllocatedNum * AllocatedNum;
}.

(** The header of the namespace's map, found at its landmark, read twice: its
    offset by one selector, its bytes by another. *)
Definition bind_namespace (bits : list Boolean) (native : list byte) (shape : CredentialShape) (landmarks : Landmarks)
    : Synth (LinearCombination * (list AllocatedNum * AllocatedNum)) :=
  header ← lift (tstr_header (length (shape_namespace shape)));
  let ns_open := header ++ shape_namespace shape ++ map_header (shape_num_entries shape) in
  let ns_open_len := length ns_open in
  if (ANCHOR_TEXT_WINDOW <? ns_open_len)%nat then Fail' Unsatisfiable else
  lift (window_end (namespace_key landmarks) ANCHOR_TEXT_WINDOW (length native)) ;;
  ns_literal_end ← lift (window_end (namespace_key landmarks) ns_open_len (length native));
  if negb (bool_decide (slice (namespace_key landmarks) ns_literal_end native = ns_open)) then Fail' Unsatisfiable else
  ns_window ← ns "namespace offset"
    (select_window bits native (anchor_offsets (length native)) (namespace_key landmarks) 1);
  ns_anchor ← ns "namespace anchor"
    (select_masked_text_anchor bits native (namespace_key landmarks) ns_open_len);
  mret (offset ns_window, ns_anchor).

(** A coordinate of the device key, at its place after the anchor. *)
Definition bind_coordinate (bits : list Boolean) (native : list byte) (device_key_info_at : nat)
    (anchor : LinearCombination) (label : string) (delta : nat) : Synth AllocatedNum :=
  at_ ← lift (ok_or Unsatisfiable (checked_usize (Z.of_nat device_key_info_at + Z.of_nat delta)));
  lift (window_end at_ 32 (length native)) ;;
  w ← ns label (select_window bits native (anchor_offsets (length native)) at_ 32);
  enforce (label +:+ " sits at +" +:+ pretty delta +:+ " from deviceKeyInfo")
    (lc_sub_term (lc_sub (lc_add lc_zero (offset w)) anchor) (from_u64 (Z.of_nat delta), one))
    (lc_add_var lc_zero one) lc_zero ;;
  let shift := byte_shifts 16 ONE in
  p0 ← index (packs w) 0;
  p1 ← index (packs w) 1;
  let value := hi ← get_value p0; lo ← get_value p1; Some (hi * shift + lo)%S in
  coord ← ns (label +:+ " value") (AllocatedNum_alloc (ok_or AssignmentMissing value));
  enforce (label +:+ " recombines its packs")
    (lc_add_var (lc_add_term lc_zero (shift, get_variable p0)) (get_variable p1))
    (lc_add_var lc_zero one) (lc_add_var lc_zero (get_variable coord)) ;;
  mret coord.

(** The [docType] entry, found at its landmark. *)
Definition bind_doc_type (bits : list Boolean) (native : list byte) (shape : CredentialShape) (landmarks : Landmarks)
    : Synth (list AllocatedNum) :=
  header ← lift (tstr_header (length (shape_doc_type shape)));
  let expected := DOC_TYPE_KEY ++ header ++ shape_doc_type shape in
  if (ANCHOR_TEXT_WINDOW <? length expected)%nat then Fail' Unsatisfiable else
  lift (window_end (doc_type_key landmarks) ANCHOR_TEXT_WINDOW (length native)) ;;
  doc_literal_end ← lift (window_end (doc_type_key landmarks) (length expected) (length native));
  if negb (bool_decide (slice (doc_type_key landmarks) doc_literal_end native = expected)) then Fail' Unsatisfiable else
  '(doc_packs, _) ← ns "docType anchor"
    (select_masked_text_anchor bits native (doc_type_key landmarks) (length expected));
  mret doc_packs.

Definition bind_digest_region (bits : list Boolean) (native : list byte) (shape : CredentialShape)
    (landmarks : Landmarks) : Synth RegionBinding :=
  if (256 <=? shape_num_entries shape)%nat then Fail' Unsatisfiable else
  let open_len := (length VALUE_DIGESTS_OPEN_KEY + 1)%nat in
  table_window ← ns "valueDigests anchor"
    (select_anchor bits native (value_digests_key landmarks) VALUE_DIGESTS_OPEN_KEY 1);
  '(ns_offset, (ns_packs, ns_prefix_len)) ← bind_namespace bits native shape landmarks;
  let region_start_lc := lc_add_var ns_offset (get_variable ns_prefix_len) in
  table_body ← lift (ok_or Unsatisfiable (checked_usize (Z.of_nat (value_digests_key landmarks) + Z.of_nat open_len)));
  if (namespace_key landmarks <? table_body)%nat then Fail' Unsatisfiable else
  ns "namespace sits inside the table"
    (enforce_ge ns_offset (lc_add_term (offset table_window) (from_u64 (Z.of_nat open_len), one))
      (namespace_key landmarks - table_body) 16) ;;
  end_window ← ns "deviceKeyInfo anchor"
    (select_anchor bits native (device_key_info landmarks) DEVICE_KEY_INFO 3);
  if (device_key_info landmarks <=? region_start landmarks)%nat then Fail' Unsatisfiable else
  '(region_end, num_entries) ← ns "namespace entries"
    (walk_namespace_entries bits native region_start_lc (region_start landmarks) (shape_num_entries shape));
  walked_native ← lift (native_region_end native (region_start landmarks) (shape_num_entries shape));
  if (device_key_info landmarks <? walked_native)%nat then Fail' Unsatisfiable else
  ns "the namespace ends inside the table"
    (enforce_ge (offset end_window) region_end (device_key_info landmarks - walked_native) 16) ;;
  coords ← mapM (λ '(label, delta), bind_coordinate bits native (device_key_info landmarks) (offset end_window) label delta)
    [("device key x", DEVICE_KEY_X_DELTA); ("device key y", DEVICE_KEY_Y_DELTA)]%string;
  x ← index coords 0;
  y ← index coords 1;
  doc_packs ← bind_doc_type bits native shape landmarks;
  mret {|
    rb_region_start := region_start_lc;
    rb_region_end := region_end;
    rb_doc_type := doc_packs;
    rb_namespace := ns_packs;
    rb_namespace_prefix_len := ns_prefix_len;
    rb_num_entries := num_entries;
    rb_device_key := (x, y);
  |}.
End OffsetBind.
