(* ===== verification/AgeAcceptance.v ===== *)
(** The public values of the first engine and the checks of its verifier:
    [public_values], [check_public_values] and [verify_age] of
    [mdoc_age_circuit.rs] and [mdoc_age_mc.rs]. A [String] is its UTF-8 bytes; an array
    of [n] bytes is a list of that length. *)
From Stdlib Require Import ZArith Lia Strings.String Strings.Byte.
From stdpp Require Import base list numbers option strings pretty.
From S2P Require Import Prelude Bytes Field ConstraintSystem Shape CheckSystem Bellpepper Lc Bits Gadgets Select Limbs BigNat Ecdsa CborUint OneHotCursor DigestId Values Sha256 Table Window Circuit Step Sha256Var Packing Sha256Mc Hasher AgeFolded Cbor OffsetBind.

(** [enum VegaMdocError] of [lib.rs]; the errors of the prover's library are a
    type of its own. *)
Inductive VegaMdocError {VegaError RngError : Type} :=
  | TooManyClaims (max got : nat)
  | ClaimTooLong (max got : nat)
  | CircuitError (e : SynthesisError)
  | Vega (e : VegaError)
  | Rng (e : RngError).
Arguments VegaMdocError : clear implicits.

(** * What the prover holds ([mdoc_age.rs]) *)
Inductive DateEncoding := Bare | PhotoIdMap.
Definition VALUE_KEY_LEN : nat := 13.
Definition date_prefix (e : DateEncoding) : list byte :=
  match e with
  | Bare => [xd9; x03; xec; x6a]
  | PhotoIdMap => [xa1; x6a] ++ bytes_of "birth_date" ++ [xd9; x03; xec; x6a]
  end.
Definition date_rel (e : DateEncoding) : nat := VALUE_KEY_LEN + length (date_prefix e).

Record DeviceAuthWitness := mkDeviceAuthWitness { da_r : Z; da_s : Z; da_s_inv : Z }.

Record MdocAgeWitness := mkMdocAgeWitness {
  sig_structure : list byte;
  landmarks : Landmarks;
  namespace : list byte;
  doc_type : list byte;
  num_entries : nat;
  item_bytes : list byte;
  digest_offset : nat;
  element_value_key_offset : nat;
  date_encoding : DateEncoding;
  device_auth : DeviceAuthWitness;
}.

(** [slice.get(a..b)]. *)
Definition bytes_get {A} (a b : nat) (l : list A) : option (list A) :=
  if (a <=? b)%nat && (b <=? length l)%nat then Some (slice a b l) else None.

Definition birth_date_bytes (w : MdocAgeWitness) : option (list byte) :=
  at_ ← checked_usize (Z.of_nat (element_value_key_offset w) + Z.of_nat (date_rel (date_encoding w)));
  end_ ← checked_usize (Z.of_nat at_ + 10);
  bytes_get at_ end_ (item_bytes w).

(** [<=] of byte slices: by the first bytes that differ. *)
Fixpoint slice_le (a b : list byte) : bool :=
  match a, b with
  | [], _ => true
  | _ :: _, [] => false
  | x :: a, y :: b =>
      if (b2z x <? b2z y)%Z then true else if (b2z y <? b2z x)%Z then false else slice_le a b
  end.

(** * The public values ([mdoc_age_circuit.rs]) *)
Definition DOC_TYPE_OUT_PACKS : nat := ANCHOR_TEXT_PACKS.
Definition NAMESPACE_OUT_PACKS : nat := ANCHOR_TEXT_PACKS.
Definition PUBLIC_FROM_PRECOMMITTED : nat := 2 + DOC_TYPE_OUT_PACKS + NAMESPACE_OUT_PACKS + 2.
Definition PUBLIC_INPUT_LEN : nat := PUBLIC_FROM_PRECOMMITTED + 10 + TIMESTAMP_LEN + 2 + 1.

Section AgeValues.
Context `{ScalarField}.

Record MdocAgeCircuit := mkMdocAgeCircuit {
  witness : MdocAgeWitness;
  ecdsa : EcdsaP256Witness;
  cutoff : list byte;
  now : list byte;
  device_auth_digest : list byte;
}.

Definition pack16 (bytes : list byte) : list Scalar := pack_be <$> chunks 16 bytes.

(** A window of the signed bytes, with zeros past its prefix. *)
Definition masked (sig_structure : list byte) (at_ prefix : nat) : outcome SynthesisError (list Scalar) :=
  let W := ANCHOR_TEXT_WINDOW in
  end_ ← ok_or Unsatisfiable (checked_usize (Z.of_nat at_ + Z.of_nat W));
  bytes ← ok_or Unsatisfiable (bytes_get at_ end_ sig_structure);
  if (W <? prefix)%nat then Err Unsatisfiable else
  Ok (pack16 (take prefix bytes ++ replicate (length bytes - prefix) x00)).

Definition byte_scalars (l : list byte) : list Scalar := (λ b, from_u64 (b2z b)) <$> l.

Definition age_public_values (c : MdocAgeCircuit) : outcome SynthesisError (list Scalar) :=
  let w := witness c in
  ns_prefix ← namespace_prefix_len (namespace w) (num_entries w);
  doc_prefix ← doc_type_prefix_len (doc_type w);
  doc ← masked (sig_structure w) (doc_type_key (landmarks w)) doc_prefix;
  ns ← masked (sig_structure w) (namespace_key (landmarks w)) ns_prefix;
  let old_enough := default false ((λ d, slice_le d (cutoff c)) <$> birth_date_bytes w) in
  Ok ([w_qx (ecdsa c); w_qy (ecdsa c)] ++ doc ++ ns ++
      [from_u64 (Z.of_nat ns_prefix); from_u64 (Z.of_nat (num_entries w))] ++
      byte_scalars (cutoff c) ++ byte_scalars (now c) ++ pack16 (device_auth_digest c) ++
      [if old_enough then ONE else ZERO]).

(** * The verifier's checks *)
Inductive IssuerPolicy :=
  | Only (keys : list (list byte * list byte))
  | CallerChecksTrustList.

Record ExpectedContext := mkExpectedContext {
  e_device_auth_digest : list byte;
  e_cutoff : list byte;
  e_now : list byte;
  e_issuers : IssuerPolicy;
  e_accepted : list (list byte * list byte);
}.

Definition ExpectedContext_new (digest cutoff now doc_type namespace : list byte) : ExpectedContext :=
  {| e_device_auth_digest := digest; e_cutoff := cutoff; e_now := now;
     e_issuers := CallerChecksTrustList; e_accepted := [(doc_type, namespace)] |}.
Definition with_issuers (e : ExpectedContext) (keys : list (list byte * list byte)) : ExpectedContext :=
  {| e_device_auth_digest := e_device_auth_digest e; e_cutoff := e_cutoff e; e_now := e_now e;
     e_issuers := Only keys; e_accepted := e_accepted e |}.

Record VerifiedAgeProof := mkVerifiedAgeProof {
  v_issuer_qx : Scalar;
  v_issuer_qy : Scalar;
  v_doc_type : list byte;
  v_namespace : list byte;
}.

(** The closure [unpack_window]. *)
Definition unpack_window (packs : list Scalar) : list byte :=
  (foldl (λ '(out, left_) p,
    let n := (left_ `min` 16)%nat in
    (out ++ reverse (take n (to_repr p)), (left_ - n)%nat)) ([], ANCHOR_TEXT_WINDOW) packs).1.

Definition read_tstr (bytes : list byte) (at_ : nat) : option (list byte * nat) :=
  h ← bytes !! at_;
  '(start, len) ←
    (if (0x60 <=? b2z h)%Z && (b2z h <? 0x78)%Z then Some ((at_ + 1)%nat, Z.to_nat (Z.land (b2z h) 0x1f)) else
     if (b2z h =? 0x78)%Z then l ← bytes !! (at_ + 1)%nat; Some ((at_ + 2)%nat, Z.to_nat (b2z l)) else None);
  if (start =? at_ + 2)%nat && (len <? 24)%nat then None else
  end_ ← checked_usize (Z.of_nat start + Z.of_nat len);
  s ← bytes_get start end_ bytes;
  if utf8_valid s then Some (s, end_) else None.

(** The header of the entries' map: its size and the count it writes. *)
Definition read_map_header (bytes : list byte) (at_ : nat) : option (nat * nat) :=
  h ← bytes !! at_;
  if (0xa0 <=? b2z h)%Z && (b2z h <=? 0xb7)%Z then Some (1%nat, Z.to_nat (Z.land (b2z h) 0x1f)) else
  if (b2z h =? 0xb8)%Z then n ← bytes !! (at_ + 1)%nat; Some (2%nat, Z.to_nat (b2z n)) else None.

Context `{!NonNative} {VegaError RngError : Type}.
Local Abbreviation Err_ := (VegaMdocError VegaError RngError).
Definition rejected : Err_ := CircuitError Unsatisfiable.

Definition check_issuer (policy : IssuerPolicy) (qx qy : Scalar) : bool :=
  match policy with
  | Only keys => existsb (λ '(x, y),
      bool_decide (nat_to_f (be_int x) = Some qx) && bool_decide (nat_to_f (be_int y) = Some qy)) keys
  | CallerChecksTrustList => true
  end.

Definition check_public_values (v : list Scalar) (expected : ExpectedContext) : outcome Err_ VerifiedAgeProof :=
  if negb (length v =? PUBLIC_INPUT_LEN)%nat then Err rejected else
  let issuer_qx := default ZERO (v !! 0%nat) in
  let issuer_qy := default ZERO (v !! 1%nat) in
  let at_ := 2%nat in
  let doc_packs := slice at_ (at_ + DOC_TYPE_OUT_PACKS) v in
  let at_ := (at_ + DOC_TYPE_OUT_PACKS)%nat in
  let ns_packs := slice at_ (at_ + NAMESPACE_OUT_PACKS) v in
  let at_ := (at_ + NAMESPACE_OUT_PACKS)%nat in
  let ns_prefix_len := default ZERO (v !! at_) in
  let num_entries := default ZERO (v !! (at_ + 1)%nat) in
  let at_ := (at_ + 2)%nat in
  let cutoff := slice at_ (at_ + 10) v in
  let now := slice (at_ + 10) (at_ + 10 + TIMESTAMP_LEN) v in
  let digest_packs := slice (at_ + 10 + TIMESTAMP_LEN) (at_ + 12 + TIMESTAMP_LEN) v in
  let old_enough := default ZERO (v !! (at_ + 12 + TIMESTAMP_LEN)%nat) in
  if bool_decide (old_enough ≠ ONE) then Err rejected else
  if bool_decide (digest_packs ≠ pack16 (e_device_auth_digest expected)) then Err rejected else
  if bool_decide (cutoff ≠ byte_scalars (e_cutoff expected)) then Err rejected else
  if bool_decide (now ≠ byte_scalars (e_now expected)) then Err rejected else
  let doc_bytes := unpack_window doc_packs in
  if bool_decide (bytes_get 0 8 doc_bytes ≠ Some DOC_TYPE_KEY) then Err rejected else
  '(doc_type, _) ← ok_or rejected (read_tstr doc_bytes 8);
  let ns_bytes := unpack_window ns_packs in
  '(namespace, after_ns) ← ok_or rejected (read_tstr ns_bytes 0);
  '(map_header_len, entries) ← ok_or rejected (read_map_header ns_bytes after_ns);
  if (map_header_len =? 2)%nat && (entries <? 24)%nat then Err rejected else
  if bool_decide (ns_prefix_len ≠ from_u64 (Z.of_nat (after_ns + map_header_len))) then Err rejected else
  if bool_decide (num_entries ≠ from_u64 (Z.of_nat entries)) then Err rejected else
  if negb (existsb (λ '(d, n), bool_decide (d = doc_type) && bool_decide (n = namespace)) (e_accepted expected))
  then Err rejected else
  if negb (check_issuer (e_issuers expected) issuer_qx issuer_qy) then Err rejected else
  Ok {| v_issuer_qx := issuer_qx; v_issuer_qy := issuer_qy; v_doc_type := doc_type; v_namespace := namespace |}.
End AgeValues.

(** * Parsing what the prover encodes *)
Lemma bytes_get_Some {A} a b (l x : list A) :
  bytes_get a b l = Some x ↔ (a ≤ b ∧ b ≤ length l)%nat ∧ x = slice a b l.
Proof.
  unfold bytes_get. destruct (Nat.leb_spec a b), (Nat.leb_spec b (length l)); cbn; split; try (by intros [= <-]);
    try (by intros [_ ->]); try done; lia.
Qed.

Lemma slice_full {A} a b (l : list A) : length (slice a b l) = (b - a)%nat → (b ≤ a ∨ b ≤ length l)%nat.
Proof. unfold slice. rewrite length_take, length_drop. lia. Qed.

Lemma head_byte base n : (n < 24)%nat → base ∈ [0x60; 0xa0]%Z →
  b2z (z2b (Z.lor base (Z.of_nat n))) = (base + Z.of_nat n)%Z.
Proof.
  intros Hn Hb. do 24 (destruct n as [|n]; [by apply list_elem_of_In in Hb as [<-|[<-|[]]]|]). lia.
Qed.

Lemma low_bits_of_head (h base : Z) :
  base = 0x60%Z ∨ base = 0xa0%Z → (base ≤ h < base + 24)%Z → Z.land h 0x1f = (h - base)%Z.
Proof.
  intros Hb Hh. change 0x1f%Z with (Z.ones 5). rewrite Z.land_ones by lia. symmetry. change (2 ^ 5)%Z with 32%Z.
  destruct Hb as [-> | ->]; [apply (Z.mod_unique _ _ 3)|apply (Z.mod_unique _ _ 5)]; lia.
Qed.

Lemma slice_lookup {A} a b i (l : list A) : (a + i < b)%nat → slice a b l !! i = l !! (a + i)%nat.
Proof. intros Hi. unfold slice. rewrite lookup_take_lt by lia. apply lookup_drop. Qed.

Lemma slice_drop {A} a b k (l : list A) : drop k (slice a b l) = slice (a + k) b l.
Proof. unfold slice. rewrite skipn_firstn_comm, drop_drop. f_equal. lia. Qed.

Lemma slice_head {A} a b x (l : list A) : (a < b)%nat → l !! a = Some x → slice a b l = x :: slice (S a) b l.
Proof.
  intros Hab Hx. unfold slice. rewrite (drop_S _ _ _ Hx). replace (b - a)%nat with (S (b - S a)) by lia. done.
Qed.

(** The texts that [read_tstr] reads are those the prover's header opens. *)
Definition is_text bytes at_ (s : list byte) (e : nat) : Prop :=
  utf8_valid s = true ∧ ∃ h, tstr_header (length s) = Ok h ∧ e = (at_ + length h + length s)%nat ∧ slice at_ e bytes = h ++ s.

Lemma read_tstr_text bytes at_ s e :
  (Z.of_nat (length bytes) < 2 ^ 63)%Z → read_tstr bytes at_ = Some (s, e) → is_text bytes at_ s e.
Proof.
  intros Hl. unfold is_text, tstr_header.
  unfold read_tstr. destruct (bytes !! at_) as [h0|] eqn:E0; [|done]. cbn [mbind option_bind].
  pose proof (lookup_lt_Some _ _ _ E0) as L0. pose proof (b2z_range h0) as R0.
  destruct (Z.leb_spec 0x60 (b2z h0)) as [B1|B1], (Z.ltb_spec (b2z h0) 0x78) as [B2|B2]; cbn [andb]; try lia.
  - cbn [mbind option_bind]. rewrite (low_bits_of_head _ 0x60) by lia. set (len := Z.to_nat (b2z h0 - 0x60)).
    rewrite (proj2 (Nat.eqb_neq (at_ + 1) (at_ + 2))) by lia. cbn [andb].
    unfold checked_usize. destruct (Z.ltb_spec (Z.of_nat (at_ + 1) + Z.of_nat len) (2 ^ 64)) as [_|]; [|lia].
    cbn [mbind option_bind]. replace (Z.to_nat (Z.of_nat (at_ + 1) + Z.of_nat len)) with (at_ + 1 + len)%nat by lia.
    destruct (bytes_get _ _ _) as [s'|] eqn:Es; [|done]. cbn [mbind option_bind].
    destruct (utf8_valid s') eqn:Eu; [|done]. intros [= <- <-]. split; [done|].
    apply bytes_get_Some in Es as [[_ Le] ->].
    assert (length (slice (at_ + 1) (at_ + 1 + len) bytes) = len) as Hlen by (rewrite length_slice; lia).
    exists [h0]. rewrite Hlen. rewrite (proj2 (Nat.leb_gt 256 len)), (proj2 (Nat.ltb_lt len 24)) by lia. split_and!.
    + do 2 f_equal. rewrite <-(z2b_b2z h0) at 1. apply b2z_inj. rewrite z2b_b2z, head_byte by (lia || by left). lia.
    + cbn. lia.
    + rewrite (slice_head _ _ h0) by (done || lia). by rewrite Nat.add_1_r.
  - destruct (Z.eqb_spec (b2z h0) 0x78) as [E1|N1]; [|done]. cbn [mbind option_bind].
    destruct (bytes !! (at_ + 1)%nat) as [h1|] eqn:E2; [|done]. cbn [mbind option_bind].
    pose proof (b2z_range h1) as R1. set (len := Z.to_nat (b2z h1)). rewrite Nat.eqb_refl. cbn [andb].
    destruct (Nat.ltb_spec len 24) as [|B3]; [done|]. pose proof (lookup_lt_Some _ _ _ E2) as L2.
    unfold checked_usize. destruct (Z.ltb_spec (Z.of_nat (at_ + 2) + Z.of_nat len) (2 ^ 64)) as [_|]; [|lia].
    cbn [mbind option_bind]. replace (Z.to_nat (Z.of_nat (at_ + 2) + Z.of_nat len)) with (at_ + 2 + len)%nat by lia.
    destruct (bytes_get _ _ _) as [s'|] eqn:Es; [|done]. cbn [mbind option_bind].
    destruct (utf8_valid s') eqn:Eu; [|done]. intros [= <- <-]. split; [done|].
    apply bytes_get_Some in Es as [[_ Le] ->].
    assert (length (slice (at_ + 2) (at_ + 2 + len) bytes) = len) as Hlen by (rewrite length_slice; lia).
    exists [x78; h1]. rewrite Hlen. rewrite (proj2 (Nat.leb_gt 256 len)), (proj2 (Nat.ltb_ge len 24)) by lia. split_and!.
    + do 3 f_equal. unfold len. rewrite Z2Nat.id by lia. apply z2b_b2z.
    + cbn. lia.
    + rewrite (slice_head _ _ h0), (slice_head _ _ h1) by (lia || done || by rewrite <-Nat.add_1_r).
      replace h0 with x78 by (by apply b2z_inj). by replace (S (S at_)) with (at_ + 2)%nat by lia.
  - destruct (Z.eqb_spec (b2z h0) 0x78); [lia|done].
Qed.

Lemma text_read_tstr bytes at_ s e :
  (Z.of_nat (length bytes) < 2 ^ 63)%Z → is_text bytes at_ s e → read_tstr bytes at_ = Some (s, e).
Proof.
  intros Hl. unfold is_text, tstr_header.
  intros (Eu & h & Eh & Ee & Es). destruct (Nat.leb_spec 256 (length s)) as [|L]; [done|]. injection Eh as <-.
  assert (e ≤ length bytes)%nat as Le.
  { destruct (slice_full at_ e bytes) as [?|?]; [rewrite Es, length_app; lia| |done].
    destruct (length s <? 24)%nat; cbn in Ee; lia. }
  unfold read_tstr. destruct (Nat.ltb_spec (length s) 24) as [B|B]; cbn [length app] in Ee, Es.
  - pose proof (slice_lookup at_ e 0 bytes ltac:(lia)) as E0. rewrite Es, Nat.add_0_r in E0. cbn in E0. rewrite <-E0.
    cbn [mbind option_bind]. rewrite head_byte by (lia || by left).
    rewrite (proj2 (Z.leb_le _ _)), (proj2 (Z.ltb_lt _ _)) by lia. cbn [andb mbind option_bind].
    rewrite (low_bits_of_head _ 0x60) by lia. replace (Z.to_nat (0x60 + Z.of_nat (length s) - 0x60)) with (length s) by lia.
    rewrite (proj2 (Nat.eqb_neq (at_ + 1) (at_ + 2))) by lia. cbn [andb].
    unfold checked_usize. rewrite (proj2 (Z.ltb_lt _ _)) by lia. cbn [mbind option_bind].
    replace (Z.to_nat (Z.of_nat (at_ + 1) + Z.of_nat (length s))) with e by lia.
    rewrite (proj2 (bytes_get_Some (at_ + 1) e bytes s)); [cbn [mbind option_bind]; by rewrite Eu|].
    split; [lia|]. rewrite <-slice_drop, Es. done.
  - pose proof (slice_lookup at_ e 0 bytes ltac:(lia)) as E0. rewrite Es, Nat.add_0_r in E0. cbn in E0. rewrite <-E0.
    pose proof (slice_lookup at_ e 1 bytes ltac:(lia)) as E1. rewrite Es in E1. cbn in E1.
    cbn [mbind option_bind]. change (b2z x78) with 0x78%Z. cbn [Z.leb Z.ltb Z.compare Pos.compare Pos.compare_cont andb Z.eqb Pos.eqb].
    rewrite <-E1. cbn [mbind option_bind]. rewrite z2b_small by lia. rewrite Nat2Z.id, Nat.eqb_refl.
    rewrite (proj2 (Nat.ltb_ge _ _)) by lia. cbn [andb].
    unfold checked_usize. rewrite (proj2 (Z.ltb_lt _ _)) by lia. cbn [mbind option_bind].
    replace (Z.to_nat (Z.of_nat (at_ + 2) + Z.of_nat (length s))) with e by lia.
    rewrite (proj2 (bytes_get_Some (at_ + 2) e bytes s)); [cbn [mbind option_bind]; by rewrite Eu|].
    split; [lia|]. rewrite <-slice_drop, Es. done.
Qed.

(** The headers that [read_map_header] accepts are those the prover writes. *)
Definition is_map_header bytes at_ (k n : nat) : Prop :=
  (n < 256)%nat ∧ k = length (map_header n) ∧ slice at_ (at_ + k) bytes = map_header n.

Lemma read_map_header_iff bytes at_ k n :
  (read_map_header bytes at_ = Some (k, n) ∧ (k =? 2)%nat && (n <? 24)%nat = false) ↔ is_map_header bytes at_ k n.
Proof.
  unfold read_map_header, is_map_header, map_header. split.
  - intros [E Hc]. destruct (bytes !! at_) as [h|] eqn:E0; [|done]. cbn [mbind option_bind] in E. pose proof (b2z_range h) as R.
    destruct ((0xa0 <=? b2z h)%Z && (b2z h <=? 0xb7)%Z) eqn:EB.
    + apply andb_true_iff in EB as [B1%Z.leb_le B2%Z.leb_le]. rewrite (low_bits_of_head _ 0xa0) in E by lia.
      injection E as <- En. assert (n < 24)%nat as B by lia. rewrite (proj2 (Nat.ltb_lt _ _) B). split_and!; [lia|done|].
      rewrite (slice_head _ _ h) by (lia || done). f_equal.
      * apply b2z_inj. rewrite head_byte by (done || by right; left). lia.
      * unfold slice. by replace (at_ + 1 - S at_)%nat with 0%nat by lia.
    + destruct (Z.eqb_spec (b2z h) 0xb8) as [Eh|]; [|done]. destruct (bytes !! (at_ + 1)%nat) as [h1|] eqn:E1; [|done].
      cbn [mbind option_bind] in E. injection E as <- En. pose proof (b2z_range h1).
      destruct (Nat.ltb_spec n 24) as [|B]; [done|]. split_and!; [lia|done|].
      rewrite (slice_head _ _ h), (slice_head _ _ h1) by (lia || done || by rewrite <-Nat.add_1_r). f_equal; [by apply b2z_inj|]. f_equal.
      * rewrite <-En, Z2Nat.id by lia. symmetry. apply z2b_b2z.
      * unfold slice. by replace (at_ + 2 - S (S at_))%nat with 0%nat by lia.
  - intros (Ln & Ek & Es). destruct (Nat.ltb_spec n 24) as [B|B]; cbn in Ek; subst k.
    + pose proof (slice_lookup at_ (at_ + 1) 0 bytes ltac:(lia)) as E0. rewrite Es, Nat.add_0_r in E0. cbn in E0. rewrite <-E0.
      cbn [mbind option_bind]. rewrite head_byte by (lia || by right; left).
      rewrite (proj2 (Z.leb_le _ _)), (proj2 (Z.leb_le _ 0xb7)) by lia. cbn [andb]. split; [|done].
      rewrite (low_bits_of_head _ 0xa0) by lia. do 2 f_equal. lia.
    + pose proof (slice_lookup at_ (at_ + 2) 0 bytes ltac:(lia)) as E0. rewrite Es, Nat.add_0_r in E0. cbn in E0. rewrite <-E0.
      pose proof (slice_lookup at_ (at_ + 2) 1 bytes ltac:(lia)) as E1. rewrite Es in E1. cbn in E1. rewrite <-E1.
      split; [|done].
      cbn. rewrite z2b_small by lia. by rewrite Nat2Z.id.
Qed.

(** Slices as prefixes. *)
Lemma slice_prefix {A} a (x w : list A) : slice a (a + length x) w = x ↔ x `prefix_of` drop a w.
Proof.
  unfold slice. replace (a + length x - a)%nat with (length x) by lia. split.
  - intros E. exists (drop (length x) (drop a w)). by rewrite <-E at 1; rewrite take_drop.
  - intros [k ->]. by rewrite take_app_length.
Qed.

Lemma prefix_app_drop {A} (x y w : list A) : (x ++ y) `prefix_of` w ↔ x `prefix_of` w ∧ y `prefix_of` drop (length x) w.
Proof.
  split.
  - intros [k ->]. rewrite <-app_assoc. split; [by apply prefix_app_r|]. rewrite drop_app_length. by apply prefix_app_r.
  - intros [[k ->] Hy]. rewrite drop_app_length in Hy. by apply prefix_app.
Qed.

(** * What the checks establish *)
Section Acceptance.
Context `{ScalarField} `{!NonNative} {VegaError RngError : Type}.
Local Abbreviation rejected := (@rejected VegaError RngError).

(** The public values in their order. *)
Definition age_values (qx qy : Scalar) (doc ns : list Scalar) (prefix entries : Scalar)
    (cutoff now digest : list Scalar) (old : Scalar) : list Scalar :=
  [qx; qy] ++ doc ++ ns ++ [prefix; entries] ++ cutoff ++ now ++ digest ++ [old].
Definition age_sizes (doc ns cutoff now digest : list Scalar) : Prop :=
  length doc = 3 ∧ length ns = 3 ∧ length cutoff = 10 ∧ length now = 20 ∧ length digest = 2.

Lemma age_values_split v :
  length v = PUBLIC_INPUT_LEN → ∃ qx qy doc ns prefix entries cutoff now digest old,
    v = age_values qx qy doc ns prefix entries cutoff now digest old ∧ age_sizes doc ns cutoff now digest.
Proof.
  intros Hl. exists (default ZERO (v !! 0)), (default ZERO (v !! 1)), (slice 2 5 v), (slice 5 8 v),
    (default ZERO (v !! 8)), (default ZERO (v !! 9)), (slice 10 20 v), (slice 20 40 v), (slice 40 42 v), (default ZERO (v !! 42)).
  change PUBLIC_INPUT_LEN with 43 in Hl.
  do 43 (destruct v as [|? v]; [discriminate Hl|]). destruct v; [|discriminate Hl]. done.
Qed.

Lemma age_values_parts qx qy doc ns prefix entries cutoff now digest old :
  age_sizes doc ns cutoff now digest →
  let v := age_values qx qy doc ns prefix entries cutoff now digest old in
  length v = 43 ∧ v !! 0 = Some qx ∧ v !! 1 = Some qy ∧ slice 2 5 v = doc ∧ slice 5 8 v = ns ∧ v !! 8 = Some prefix ∧
  v !! 9 = Some entries ∧ slice 10 20 v = cutoff ∧ slice 20 40 v = now ∧ slice 40 42 v = digest ∧ v !! 42 = Some old.
Proof.
  intros (H1 & H2 & H3 & H4 & H5). cbv zeta.
  do 3 (destruct doc as [|? doc]; [discriminate H1|]). destruct doc; [|discriminate H1].
  do 3 (destruct ns as [|? ns]; [discriminate H2|]). destruct ns; [|discriminate H2].
  do 10 (destruct cutoff as [|? cutoff]; [discriminate H3|]). destruct cutoff; [|discriminate H3].
  do 20 (destruct now as [|? now]; [discriminate H4|]). destruct now; [|discriminate H4].
  do 2 (destruct digest as [|? digest]; [discriminate H5|]). destruct digest; [|discriminate H5]. done.
Qed.

(** What a verifier may conclude: the values are its own session digest, its
    cutoff, its clock and the predicate one, in their places; the two windows
    open with the encoding of the document type and of the namespace with its
    number of entries, whose length and count are published; the pair is one
    it accepts, and the issuer too. *)
Definition shown (v : list Scalar) (expected : ExpectedContext) (r : VerifiedAgeProof) : Prop :=
  ∃ doc ns dh nh entries,
    v = age_values (v_issuer_qx r) (v_issuer_qy r) doc ns
      (from_u64 (Z.of_nat (length (nh ++ v_namespace r ++ map_header entries)))) (from_u64 (Z.of_nat entries))
      (byte_scalars (e_cutoff expected)) (byte_scalars (e_now expected)) (pack16 (e_device_auth_digest expected)) ONE ∧
    length doc = 3 ∧ length ns = 3 ∧ (entries < 256)%nat ∧
    utf8_valid (v_doc_type r) = true ∧ utf8_valid (v_namespace r) = true ∧
    tstr_header (length (v_doc_type r)) = Ok dh ∧ (DOC_TYPE_KEY ++ dh ++ v_doc_type r) `prefix_of` unpack_window doc ∧
    tstr_header (length (v_namespace r)) = Ok nh ∧ (nh ++ v_namespace r ++ map_header entries) `prefix_of` unpack_window ns ∧
    (v_doc_type r, v_namespace r) ∈ e_accepted expected ∧
    check_issuer (e_issuers expected) (v_issuer_qx r) (v_issuer_qy r) = true.

(** The arrays of the context have their lengths. *)
Definition context_sizes (expected : ExpectedContext) : Prop :=
  length (e_device_auth_digest expected) = 32 ∧ length (e_cutoff expected) = 10 ∧ length (e_now expected) = 20.

Lemma length_unpack_window packs : length packs = 3 → length (unpack_window packs) = 40.
Proof.
  intros Hl. destruct packs as [|a [|b [|c []]]]; try discriminate Hl. unfold unpack_window.
  change ANCHOR_TEXT_WINDOW with 40. cbn [foldl fst Nat.min Nat.sub]. rewrite !length_app, !length_reverse, !length_take, !to_repr_length. done.
Qed.

Lemma text_prefix w a (s : list byte) e :
  is_text w a s e ↔ utf8_valid s = true ∧ ∃ h, tstr_header (length s) = Ok h ∧ e = (a + length h + length s)%nat ∧
    (h ++ s) `prefix_of` drop a w.
Proof.
  unfold is_text. split; intros (Hu & h & Eh & Ee & Hp); (split; [done|]); exists h; (split_and!; [done..|]).
  - rewrite Ee in Hp. replace (a + length h + length s)%nat with (a + length (h ++ s))%nat in Hp by (rewrite length_app; lia).
    by apply slice_prefix.
  - apply slice_prefix in Hp. rewrite length_app in Hp. rewrite Ee. by replace (a + length h + length s)%nat with (a + (length h + length s))%nat by lia.
Qed.

Lemma doc_window w s :
  length w = 40 →
  (bytes_get 0 8 w = Some DOC_TYPE_KEY ∧ ∃ e, read_tstr w 8 = Some (s, e)) ↔
  utf8_valid s = true ∧ ∃ h, tstr_header (length s) = Ok h ∧ (DOC_TYPE_KEY ++ h ++ s) `prefix_of` w.
Proof.
  intros Hl. assert (bytes_get 0 8 w = Some DOC_TYPE_KEY ↔ DOC_TYPE_KEY `prefix_of` w) as ->.
  { rewrite bytes_get_Some. etrans; [|apply (slice_prefix 0)]. change (0 + length DOC_TYPE_KEY)%nat with 8%nat.
    split; [by intros [_ ->]|]. intros E. split; [lia|done]. }
  assert (Z.of_nat (length w) < 2 ^ 63)%Z as Hw by (rewrite Hl; lia). split.
  - intros [HK (e & Hr)]. apply (read_tstr_text _ _ _ _ Hw), text_prefix in Hr as (Hu & h & Eh & _ & Hp).
    split; [done|]. exists h. split; [done|]. by apply prefix_app_drop.
  - intros (Hu & h & Eh & [HK Hp]%prefix_app_drop). split; [done|]. eexists. apply (text_read_tstr _ _ _ _ Hw), text_prefix.
    split; [done|]. by exists h.
Qed.

Lemma ns_window w s e k n :
  length w = 40 →
  (read_tstr w 0 = Some (s, e) ∧ read_map_header w e = Some (k, n) ∧ (k =? 2)%nat && (n <? 24)%nat = false) ↔
  utf8_valid s = true ∧ (n < 256)%nat ∧ ∃ h, tstr_header (length s) = Ok h ∧ e = (length h + length s)%nat ∧
    k = length (map_header n) ∧ (h ++ s ++ map_header n) `prefix_of` w.
Proof.
  intros Hl. assert (Z.of_nat (length w) < 2 ^ 63)%Z as Hw by (rewrite Hl; lia). rewrite read_map_header_iff. split.
  - intros [Hr (Hn & Ek & Es)]. apply (read_tstr_text _ _ _ _ Hw), text_prefix in Hr as (Hu & h & Eh & Ee & Hp).
    rewrite Ek in Es. apply slice_prefix in Es. split_and!; [done..|]. exists h. split_and!; [done..|].
    rewrite app_assoc. apply prefix_app_drop. split; [done|]. rewrite length_app. by rewrite Ee in Es.
  - intros (Hu & Hn & h & Eh & Ee & Ek & Hp). rewrite app_assoc in Hp. apply prefix_app_drop in Hp as [Hp Hm].
    split; [apply (text_read_tstr _ _ _ _ Hw), text_prefix; split; [done|]; by exists h|].
    split_and!; [done..|]. rewrite Ek. apply slice_prefix. by rewrite Ee, <-length_app.
Qed.

Lemma accepted_pair d n l :
  existsb (λ '(d', n'), bool_decide (d' = d) && bool_decide (n' = n)) l = true ↔ (d, n) ∈ (l : list (list byte * list byte)).
Proof.
  rewrite existsb_exists. split.
  - intros ([d' n'] & Hin & [->%bool_decide_eq_true ->%bool_decide_eq_true]%andb_true_iff). by apply list_elem_of_In.
  - intros Hin. exists (d, n). split; [by apply list_elem_of_In|]. by rewrite !bool_decide_eq_true_2.
Qed.

(** The checks on values in their places. *)
Ltac open_values HS :=
  let P := fresh "P" in
  match goal with |- context [age_values ?qx ?qy ?doc ?ns ?prefix ?entries ?cutoff ?now ?digest ?old] =>
    pose proof (age_values_parts qx qy doc ns prefix entries cutoff now digest old HS) as P end; cbv zeta in P;
  unfold check_public_values; cbv zeta;
  change PUBLIC_INPUT_LEN with 43 in *;
  change (2 + DOC_TYPE_OUT_PACKS)%nat with 5%nat in *;
  change (5 + NAMESPACE_OUT_PACKS)%nat with 8%nat in *;
  change (8 + 1)%nat with 9%nat in *; change (8 + 2)%nat with 10%nat in *;
  change (10 + 10)%nat with 20%nat in *; change (20 + TIMESTAMP_LEN)%nat with 40%nat in *;
  change (10 + 12 + TIMESTAMP_LEN)%nat with 42%nat in *;
  let P1 := fresh in let P2 := fresh in let P3 := fresh in let P4 := fresh in let P5 := fresh in let P6 := fresh in
  let P7 := fresh in let P8 := fresh in let P9 := fresh in let P10 := fresh in let P11 := fresh in
  destruct P as (P1 & P2 & P3 & P4 & P5 & P6 & P7 & P8 & P9 & P10 & P11);
  rewrite P1, P2, P3, P4, P5, P6, P7, P8, P9, P10, P11; cbn [default id negb Nat.eqb];
  clear P1 P2 P3 P4 P5 P6 P7 P8 P9 P10 P11.

Local Abbreviation checks v expected := (check_public_values v expected : outcome (VegaMdocError VegaError RngError) _).

Lemma check_rejects v expected :
  match checks v expected with Ok _ => True | Err e => e = rejected | Panic _ => False end.
Proof.
  unfold check_public_values. cbv zeta.
  repeat match goal with
  | |- context [if ?b then Err _ else _] => destruct b; [done|]
  | |- context [ok_or _ ?o ≫= _] => destruct o as [[? ?]|]; cbn [ok_or mbind outcome_bind]; [|done]
  end. done.
Qed.

(** One test that did not reject. *)
Ltac passed :=
  match goal with
  | |- (if bool_decide ?P then Err _ else _) = Ok _ → _ =>
      let H := fresh "C" in
      destruct (decide P) as [|H]; [by rewrite bool_decide_eq_true_2|rewrite bool_decide_eq_false_2 by done; apply dec_stable in H]
  | |- (if ?b then Err _ else _) = Ok _ → _ => let E := fresh "E" in destruct b eqn:E; [done|]
  end.

Lemma check_shown v expected r : checks v expected = Ok r → shown v expected r.
Proof.
  intros E. destruct (Nat.eqb_spec (length v) PUBLIC_INPUT_LEN) as [Hl|N].
  2: { unfold check_public_values in E. by rewrite (proj2 (Nat.eqb_neq _ _) N) in E. }
  destruct (age_values_split v Hl) as (qx & qy & doc & ns & prefix & entries & cutoff & now & digest & old & -> & HS).
  revert E. open_values HS. pose proof HS as (H1 & H2 & _). do 5 passed.
  destruct (read_tstr (unpack_window doc) 8) as [[d e]|] eqn:Ed; [|done]. cbn [ok_or mbind outcome_bind].
  destruct (read_tstr (unpack_window ns) 0) as [[n a]|] eqn:En; [|done]. cbn [ok_or mbind outcome_bind].
  destruct (read_map_header (unpack_window ns) a) as [[k c]|] eqn:Em; [|done]. cbn [ok_or mbind outcome_bind].
  do 5 passed. intros [= <-].
  destruct (proj1 (doc_window _ d (length_unpack_window _ H1))) as (U1 & dh & Edh & Pd); [by eauto|].
  destruct (proj1 (ns_window _ n a k c (length_unpack_window _ H2))) as (U2 & Lc & nh & Enh & -> & -> & Pn); [done|].
  exists doc, ns, dh, nh, c. cbn [v_issuer_qx v_issuer_qy v_doc_type v_namespace].
  rewrite !length_app, Nat.add_assoc. split_and!; try done; [by subst|by apply accepted_pair, negb_false_iff|by apply negb_false_iff].
Qed.

Lemma shown_checks v expected r : context_sizes expected → shown v expected r → checks v expected = Ok r.
Proof.
  intros (S1 & S2 & S3) (doc & ns & dh & nh & c & -> & H1 & H2 & Lc & U1 & U2 & Edh & Pd & Enh & Pn & Ha & Hi).
  assert (∀ l, length l = 32 → length (pack16 l) = 2) as Hp16.
  { intros l Hl. do 32 (destruct l as [|? l]; [discriminate Hl|]). by destruct l. }
  assert (age_sizes doc ns (byte_scalars (e_cutoff expected)) (byte_scalars (e_now expected)) (pack16 (e_device_auth_digest expected))) as HS.
  { unfold age_sizes, byte_scalars. by rewrite !length_fmap, Hp16. }
  open_values HS. do 4 (rewrite bool_decide_eq_false_2; [|by intros []]).
  destruct (proj2 (doc_window _ (v_doc_type r) (length_unpack_window _ H1))) as (-> & e & ->); [by eauto|].
  rewrite bool_decide_eq_false_2 by (by intros []). cbn [ok_or mbind outcome_bind].
  destruct (proj2 (ns_window _ (v_namespace r) (length nh + length (v_namespace r)) (length (map_header c)) c
    (length_unpack_window _ H2))) as (-> & Em & Ec); [by eauto 8|].
  cbn [ok_or mbind outcome_bind]. rewrite Em. cbn [ok_or mbind outcome_bind]. rewrite Ec.
  rewrite !length_app, Nat.add_assoc. do 2 (rewrite bool_decide_eq_false_2; [|by intros []]).
  rewrite (proj2 (accepted_pair _ _ _) Ha), Hi. cbn [negb]. by destruct r.
Qed.

(** C21: The verifier's checks accept the public values of a proof exactly
    when they show what it asked for, return what they show, and reject them
    otherwise; nothing panics. *)
Theorem check_public_values_iff v expected :
  context_sizes expected →
  match checks v expected with
  | Ok r => ∀ r', shown v expected r' ↔ r' = r
  | Err e => e = rejected ∧ ∀ r, ¬ shown v expected r
  | Panic _ => False
  end.
Proof.
  intros HS. pose proof (check_rejects v expected) as HR.
  assert (∀ r, shown v expected r ↔ checks v expected = Ok r) as Hr
    by (intros r; split; [by apply shown_checks|by apply check_shown]).
  destruct (checks v expected) as [r|e|w]; [|split; [done|]; by intros r [=]%Hr|done].
  intros r'. rewrite Hr. split; [by intros [=]|by intros ->].
Qed.
End Acceptance.

(** * The prover's values are accepted *)
Section Honest.
Context `{ScalarField} `{!NonNative} {VegaError RngError : Type}.

Lemma repr_low_bytes (x : Scalar) n : (n ≤ 32)%nat → reverse (take n (to_repr x)) = be_bytes n (repr x).
Proof.
  intros Hn. assert (length (reverse (take n (to_repr x))) = n) as Hl by (rewrite length_reverse, length_take, to_repr_length; lia).
  apply be_int_inj; [by rewrite Hl, length_be_bytes|]. rewrite be_int_be_bytes. unfold repr, le_int.
  rewrite <-(take_drop n (to_repr x)) at 2. rewrite reverse_app, be_int_app, Hl.
  pose proof (be_int_range (reverse (take n (to_repr x)))) as R. rewrite Hl in R.
  rewrite Z.add_comm, Z.mul_comm, Z.add_comm, Z.mul_comm. rewrite Z.add_comm, Z_mod_plus_full, Z.mod_small by lia. done.
Qed.

(** A window packed and unpacked. *)
Lemma unpack_pack16 w : length w = 40 → unpack_window (pack16 w) = w.
Proof.
  intros Hl. assert (pack16 w = (λ l, of_int (be_int l)) <$> [slice 0 16 w; slice 16 32 w; slice 32 40 w]) as ->.
  { assert (pack16 w = (λ l, of_int (be_int l)) <$> chunks 16 w) as -> by (apply list_fmap_ext; intros; apply pack_be_int).
    f_equal. do 40 (destruct w as [|? w]; [discriminate Hl|]). by destruct w. }
  unfold unpack_window. change ANCHOR_TEXT_WINDOW with 40. cbn [fmap list_fmap foldl fst Nat.min Nat.sub app].
  assert (∀ l n, length l = n → (n ≤ 16)%nat → reverse (take n (to_repr (of_int (be_int l)))) = l) as Hr.
  { intros l n Ln Hn. rewrite repr_low_bytes by lia. rewrite repr_of_int, Z.mod_small; [by apply be_bytes_be_int|].
    pose proof (be_int_range l) as R. rewrite Ln in R. split; [apply R|]. eapply Z.lt_le_trans; [apply R|].
    etrans; [apply (Z.pow_le_mono_r 256 _ 16); lia|]. apply Z.lt_le_incl, (lt_pow_p 128). lia. }
  rewrite !Hr by (rewrite ?length_slice; lia). unfold slice. cbn [Nat.sub drop].
  rewrite <-app_assoc. do 40 (destruct w as [|? w]; [discriminate Hl|]). by destruct w.
Qed.

Lemma masked_window sig at_ prefix l packs :
  masked sig at_ prefix = Ok packs → length l = prefix → l `prefix_of` drop at_ sig →
  length packs = 3 ∧ l `prefix_of` unpack_window packs.
Proof.
  unfold masked. intros E Hl Hp. destruct (checked_usize _) as [end_|] eqn:Ee; [|done]. cbn [ok_or mbind outcome_bind] in E.
  destruct (bytes_get at_ end_ sig) as [b|] eqn:Eb; [|done]. cbn [ok_or mbind outcome_bind] in E.
  destruct (Nat.ltb_spec ANCHOR_TEXT_WINDOW prefix) as [|Lp]; [done|]. injection E as <-.
  apply bytes_get_Some in Eb as [[L1 L2] ->]. unfold checked_usize in Ee. destruct (Z.ltb _ _); [|done].
  injection Ee as Ee. change ANCHOR_TEXT_WINDOW with 40 in *. assert (end_ = at_ + 40)%nat as -> by lia. clear Ee.
  assert (length (slice at_ (at_ + 40) sig) = 40) as Hs by (rewrite length_slice; lia).
  rewrite Hs. assert (take prefix (slice at_ (at_ + 40) sig) = l) as ->.
  { destruct Hp as [k Hp]. unfold slice. rewrite Hp, take_take. replace (prefix `min` (at_ + 40 - at_))%nat with (length l) by lia.
    by rewrite take_app_length. }
  set (w := l ++ replicate (40 - prefix) x00). assert (length w = 40) as Hw by (unfold w; rewrite length_app, length_replicate; lia).
  rewrite unpack_pack16 by done. split; [|by eexists].
  unfold pack16. rewrite length_fmap. do 40 (destruct w as [|? w]; [discriminate Hw|]). by destruct w.
Qed.

(** C22: The verifier accepts what an honest prover publishes: for landmarks
    at which the signed bytes open with the encoded document type and
    namespace, the public values are accepted by a verifier that named them
    exactly when the birth date is at most its cutoff. *)
Theorem honest_values_checked c expected v d dh nh :
  let w := witness c in
  age_public_values c = Ok v →
  context_sizes expected → e_device_auth_digest expected = device_auth_digest c →
  e_cutoff expected = cutoff c → e_now expected = now c → (doc_type w, namespace w) ∈ e_accepted expected →
  check_issuer (e_issuers expected) (w_qx (ecdsa c)) (w_qy (ecdsa c)) = true →
  utf8_valid (doc_type w) = true → utf8_valid (namespace w) = true →
  tstr_header (length (doc_type w)) = Ok dh → tstr_header (length (namespace w)) = Ok nh →
  (DOC_TYPE_KEY ++ dh ++ doc_type w) `prefix_of` drop (doc_type_key (landmarks w)) (sig_structure w) →
  (nh ++ namespace w ++ map_header (num_entries w)) `prefix_of` drop (namespace_key (landmarks w)) (sig_structure w) →
  birth_date_bytes w = Some d →
  check_public_values v expected =
    if slice_le d (cutoff c)
    then Ok {| v_issuer_qx := w_qx (ecdsa c); v_issuer_qy := w_qy (ecdsa c); v_doc_type := doc_type w; v_namespace := namespace w |}
    else Err (@rejected VegaError RngError).
Proof.
  intros w E HS Ed Ec En Ha Hi U1 U2 Edh Enh Pd Pn Eb. unfold age_public_values in E. fold w in E.
  unfold namespace_prefix_len, doc_type_prefix_len in E. destruct (Nat.leb_spec 256 (num_entries w)) as [|Lc]; [done|].
  rewrite Edh, Enh in E. cbn [mbind outcome_bind] in E.
  destruct (masked _ (doc_type_key _) _) as [doc| |] eqn:E1; [|done..]. cbn [mbind outcome_bind] in E.
  destruct (masked _ (namespace_key _) _) as [ns| |] eqn:E2; [|done..]. cbn [mbind outcome_bind] in E.
  apply (masked_window _ _ _ _ _ E1) in Pd as [L1 Pd]; [|rewrite !length_app; lia].
  apply (masked_window _ _ _ _ _ E2) in Pn as [L2 Pn]; [|rewrite !length_app; lia].
  rewrite Eb in E. cbn [fmap option_fmap option_map default id] in E.
  rewrite <-Ec, <-En, <-Ed in *.
  destruct (slice_le d (e_cutoff expected)) eqn:Eold.
  - apply shown_checks; [done|]. injection E as <-. exists doc, ns, dh, nh, (num_entries w).
    cbn [v_issuer_qx v_issuer_qy v_doc_type v_namespace]. rewrite !length_app, !Nat.add_assoc. by split_and!.
  - pose proof (check_rejects (VegaError := VegaError) (RngError := RngError) v expected) as HR.
    destruct (check_public_values v expected) as [r|e|] eqn:Er; [|by rewrite HR|done]. exfalso.
    apply check_shown in Er as (doc' & ns' & dh' & nh' & c' & Ev & _). rewrite Ev in E.
    apply (f_equal (λ o, match o with Ok l => last l | _ => None end)) in E. cbv beta iota in E. unfold age_values in E. rewrite !app_assoc, !last_snoc in E.
    injection E as E. symmetry in E. by apply one_nonzero.
Qed.
End Honest.

(** * The acceptance paths

    The prover's library is a parameter: what its [verify] returns. *)
Section Verify.
Context `{ScalarField} `{!NonNative} {VegaError RngError AgeProof FoldedAgeProof VerifierKey McVerifierKey : Type}.
Variables (verify : AgeProof → VerifierKey → outcome VegaError (list Scalar))
  (verify_mc : FoldedAgeProof → McVerifierKey → nat → outcome VegaError (list (list Scalar) * list Scalar)).
Local Abbreviation Result := (outcome (VegaMdocError VegaError RngError) VerifiedAgeProof).

(** [mdoc_age_circuit::verify_age] and [mdoc_age_mc::verify_age]. *)
Definition verify_age (proof : AgeProof) (vk : VerifierKey) (expected : ExpectedContext) : Result :=
  v ← map_err Vega (verify proof vk);
  check_public_values v expected.

Definition verify_age_folded (proof : FoldedAgeProof) (vk : McVerifierKey) (expected : ExpectedContext) : Result :=
  let n := total_blocks layout in
  '(step_values, core_values) ← map_err Vega (verify_mc proof vk n);
  map_err CircuitError (check_step_values n step_values) ;;
  check_public_values core_values expected.

Lemma check_step_values_iff n step_values :
  check_step_values n step_values = Ok tt ↔ step_values = StepCircuit_public_values <$> range n.
Proof.
  unfold check_step_values. split.
  - destruct (Nat.eqb_spec (length step_values) n) as [El|]; [|done]. cbn [negb].
    destruct (in_order 0 step_values) eqn:Eo; [|done]. intros _. apply list_eq. intros i.
    unfold range. rewrite list_lookup_fmap. destruct (step_values !! i) as [v|] eqn:Ev.
    + rewrite (in_order_lookup 0 step_values i v Eo Ev), lookup_seq_lt by (rewrite <-El; by eapply lookup_lt_Some). done.
    + symmetry. apply fmap_None, lookup_seq_ge. rewrite <-El. by apply lookup_ge_None.
  - intros ->. unfold range. by rewrite length_fmap, length_seq, Nat.eqb_refl, in_order_honest.
Qed.

Lemma ok_pair_inj {E A B} (a c : A) (b d : B) : @Ok E (A * B) (a, b) = Ok (c, d) → a = c ∧ b = d.
Proof. by intros [= -> ->]. Qed.

(** C20: The folded form and the single circuit accept the same statement: a
    folded proof is accepted exactly when the library verifies it for every
    block, its steps publish the indices of the blocks in order, each once,
    and its core shows what the verifier asked for. *)
Theorem verify_age_iff proof fproof vk fvk expected r :
  context_sizes expected →
  (verify_age proof vk expected = Ok r ↔ ∃ v, verify proof vk = Ok v ∧ shown v expected r) ∧
  (verify_age_folded fproof fvk expected = Ok r ↔ ∃ v,
    verify_mc fproof fvk (total_blocks layout) = Ok (StepCircuit_public_values <$> range (total_blocks layout), v) ∧
    shown v expected r).
Proof.
  intros HS. assert (∀ v, (check_public_values v expected : Result) = Ok r ↔ shown v expected r) as Hc
    by (intros v; split; [apply check_shown|by apply shown_checks]).
  split.
  - unfold verify_age. destruct (verify proof vk) as [v|e|w]; cbn [map_err mbind outcome_bind];
      [|split; [done|by intros (? & ? & _)]..].
    rewrite Hc. split; [by exists v|by intros (? & [= ->] & ?)].
  - unfold verify_age_folded. cbv zeta. destruct (verify_mc _ _ _) as [[steps v]|e|w]; cbn [map_err mbind outcome_bind];
      [|split; [done|by intros (? & ? & _)]..].
    destruct (check_step_values _ steps) as [[]|e|w] eqn:Es; cbn [map_err mbind outcome_bind].
    + apply check_step_values_iff in Es as ->. rewrite Hc. split; [by exists v|].
      by intros (? & [_ ->]%ok_pair_inj & ?).
    + split; [done|]. intros (? & [E _]%ok_pair_inj & _). apply check_step_values_iff in E. by rewrite Es in E.
    + split; [done|]. intros (? & [E _]%ok_pair_inj & _). apply check_step_values_iff in E. by rewrite Es in E.
Qed.
End Verify.
