(* ===== verification/OffsetRules.v ===== *)
(** What the rules of [offset_bind.rs] force of any assignment, when the bits
    denote a message: windows read at an offset among the candidates, masked
    windows and their published lengths, the walk over a namespace's entries,
    the landmarks of the digest region and the validity window. *)
From Stdlib Require Import ZArith Lia Strings.String Strings.Byte.
From Stdlib Require Import Field_tac Ring.
From stdpp Require Import base list numbers option strings pretty.
From S2P Require Import Prelude Bytes Field ConstraintSystem Shape CheckSystem Bellpepper Lc Bits Gadgets Select Limbs BigNat CborUint OneHotCursor DigestId Sha256Var Packing Sha256Mc OffsetBind.

(** * Windows and their packs *)

(** The bytes of a window; past the end of the message they read as zero. *)
Definition window_bytes (bytes : list byte) (at_ len : nat) : list byte :=
  (λ i, default x00 (bytes !! (at_ + i)%nat)) <$> range len.
Definition pack_of (w : list byte) (k : nat) : list byte := slice (16 * k) (16 * k + 16) w.

Lemma length_window_bytes m o n : length (window_bytes m o n) = n.
Proof. unfold window_bytes, range. by rewrite length_fmap, length_seq. Qed.

Lemma lookup_window_bytes m o n i : i < n → window_bytes m o n !! i = Some (default x00 (m !! (o + i))).
Proof. intros Hi. unfold window_bytes, range. by rewrite list_lookup_fmap, lookup_seq_lt. Qed.

Lemma window_bytes_slice m o n : o + n ≤ length m → window_bytes m o n = slice o (o + n) m.
Proof.
  intros Hl. apply list_eq. intros i. destruct (decide (i < n)) as [L|L].
  - rewrite lookup_window_bytes, lookup_slice by lia. by destruct (lookup_lt_is_Some_2 m (o + i)) as [b ->]; [lia|].
  - rewrite !lookup_ge_None_2; [done| |]; rewrite ?length_window_bytes, ?length_slice; lia.
Qed.

Lemma lookup_chunks {A} n (l : list A) i c : 0 < n → chunks n l !! i = Some c → c = slice (n * i) (n * i + n) l.
Proof.
  intros Hn. revert l c. induction i as [|i IH]; intros l c E.
  - destruct l as [|x l]; [done|]. rewrite chunks_cons in E by done. injection E as <-. unfold slice.
    by rewrite Nat.mul_0_r, drop_0, Nat.sub_0_r.
  - destruct l as [|x l]; [done|]. rewrite chunks_cons in E by done. cbn [lookup list_lookup] in E. apply IH in E as ->.
    unfold slice. rewrite drop_drop. f_equal; [lia|]. f_equal. lia.
Qed.

(** A run of bytes found one by one; runs one after the other. *)
Lemma literal_slice (l lit : list byte) o :
  (∀ i b, lit !! i = Some b → l !! (o + i) = Some b) → slice o (o + length lit) l = lit.
Proof.
  intros Hin. apply list_eq. intros i. destruct (lit !! i) as [b|] eqn:E.
  - pose proof (lookup_lt_Some _ _ _ E). rewrite lookup_slice by lia. by apply Hin.
  - apply lookup_ge_None in E. apply lookup_ge_None_2. unfold slice. rewrite length_take. lia.
Qed.

Lemma slice_app {A} (l : list A) a b c : a ≤ b ≤ c → slice a b l ++ slice b c l = slice a c l.
Proof.
  intros Hab. unfold slice. replace (c - a) with ((b - a) + (c - b)) by lia. rewrite <-take_take_drop.
  rewrite drop_drop. by replace (a + (b - a)) with b by lia.
Qed.

Lemma length_pack_of w k : length (pack_of w k) = 16 `min` (length w - 16 * k).
Proof. unfold pack_of, slice. rewrite length_take, length_drop. lia. Qed.

Lemma packs_determine w w' :
  length w = length w' → (∀ k, k < div_ceil (length w) 16 → pack_of w k = pack_of w' k) → w = w'.
Proof.
  intros Hl HP. apply list_eq. intros i. destruct (decide (i < length w)) as [L|L].
  - assert (i = 16 * (i / 16) + i mod 16) as Ei by (apply Nat.div_mod; lia).
    pose proof (Nat.mod_upper_bound i 16 ltac:(lia)) as Hm.
    assert (∀ l : list byte, pack_of l (i / 16) !! (i mod 16) = l !! i) as Hi.
    { intros l. unfold pack_of. rewrite lookup_slice by lia. by rewrite <-Ei. }
    rewrite <-!Hi, HP; [done|]. unfold div_ceil.
    pose proof (Nat.Div0.div_le_mono (i + 1 * 16) (length w + 16 - 1) 16 ltac:(lia)) as Hd.
    rewrite Nat.div_add in Hd; lia.
  - by rewrite !lookup_ge_None_2 by lia.
Qed.

Lemma pack_of_window m o len k :
  pack_of (window_bytes m o len) k = (λ i, default x00 (m !! (o + i)%nat)) <$> seq (16 * k) ((16 * k + 16) `min` len - 16 * k).
Proof.
  apply list_eq. intros i. rewrite list_lookup_fmap. unfold pack_of.
  destruct (decide (i < (16 * k + 16) `min` len - 16 * k)) as [L|L].
  - rewrite lookup_slice, lookup_window_bytes, lookup_seq_lt by lia. done.
  - rewrite !lookup_ge_None_2; [done| |]; rewrite ?length_seq; [lia|].
    fold (pack_of (window_bytes m o len) k). rewrite length_pack_of, length_window_bytes. lia.
Qed.

(** * The entries of a namespace *)

(** An entry opens with a [digestID] and the header of a string of 32 bytes:
    the width of its [digestID], and where [n] entries end. *)
Definition entry_width (msg : list byte) (at_ : nat) : option nat :=
  if (at_ + ENTRY_HEAD_WINDOW <=? length msg)%nat then
    '(_, w) ← decode_cbor_uint (drop at_ msg);
    if decide (slice (at_ + w) (at_ + w + 2) msg = [x58; x20]) then Some w else None
  else None.
Fixpoint entries_end (msg : list byte) (n at_ : nat) : option nat :=
  match n with
  | O => Some at_
  | S n => w ← entry_width msg at_; entries_end msg n (at_ + w + DIGEST_VALUE_LEN)
  end.

Lemma decode_width bytes v w : decode_cbor_uint bytes = Some (v, w) → w ≤ 5.
Proof.
  unfold decode_cbor_uint. destruct (head bytes) as [m|]; [|done]. cbn [mbind option_bind].
  repeat (case_match; try done); try (by intros [= _ <-]; lia); try (destruct (bytes !! 1)); try (destruct (get_range _ _ _)); try done; intros [= _ <-]; lia.
Qed.

Lemma entry_width_le msg at_ w : entry_width msg at_ = Some w → w ≤ 5.
Proof.
  unfold entry_width. destruct (_ <=? _)%nat; [|done]. destruct (decode_cbor_uint _) as [[v w']|] eqn:E; [|done].
  cbn [mbind option_bind]. destruct (decide _); [|done]. intros [= <-]. by eapply decode_width.
Qed.

Lemma entries_end_bound msg n at_ e : entries_end msg n at_ = Some e → at_ + 34 * n ≤ e ≤ at_ + 39 * n.
Proof.
  revert at_. induction n as [|n IH]; intros at_ E; [injection E; lia|]. cbn [entries_end] in E.
  destruct (entry_width msg at_) as [w|] eqn:Ew; [|done]. apply entry_width_le in Ew. apply IH in E.
  unfold DIGEST_VALUE_LEN in E. lia.
Qed.

Lemma entries_end_S msg n at_ h w :
  entries_end msg n at_ = Some h → entry_width msg h = Some w → entries_end msg (S n) at_ = Some (h + w + DIGEST_VALUE_LEN).
Proof.
  revert at_. induction n as [|n IH]; intros at_ E Ew.
  - injection E as ->. cbn [entries_end]. by rewrite Ew.
  - cbn [entries_end] in E |- *. destruct (entry_width msg at_) as [w'|]; [|done]. by apply IH.
Qed.

Lemma native_region_end_S native rs n e :
  native_region_end native rs (S n) = Ok e → ∃ at_ w, native_region_end native rs n = Ok at_ ∧
    digest_id_width native at_ = Ok w ∧ checked_usize (Z.of_nat at_ + Z.of_nat (w + DIGEST_VALUE_LEN)) = Some e.
Proof.
  unfold native_region_end, range. rewrite seq_S, foldM_app. destruct (foldM _ rs _) as [at_| |] eqn:E; try done.
  cbn [mbind outcome_bind foldM]. destruct (digest_id_width native at_) as [w| |] eqn:Ew; try done. cbn [mbind outcome_bind].
  destruct (checked_usize _) as [c|] eqn:Ec; [|done]. cbn [ok_or mbind outcome_bind]. intros [= <-]. by exists at_, w.
Qed.

Lemma checked_usize_Some a b c : checked_usize (Z.of_nat a + Z.of_nat b) = Some c → c = a + b.
Proof. unfold checked_usize. destruct (_ <? _)%Z; [|done]. intros [= <-]. lia. Qed.

Lemma native_region_end_prefix native rs n m e :
  native_region_end native rs n = Ok e → m ≤ n → ∃ at_, native_region_end native rs m = Ok at_ ∧ at_ ≤ e.
Proof.
  revert e. induction n as [|n IH]; intros e E Hm.
  - exists e. replace m with 0 by lia. done.
  - destruct (decide (m = S n)) as [->|N]; [by exists e|].
    destruct (native_region_end_S _ _ _ _ E) as (at_ & w & E' & _ & Ec). apply checked_usize_Some in Ec.
    destruct (IH at_ E') as (x & Ex & Hx); [lia|]. exists x. split; [done|lia].
Qed.

(** The places of a digest region: the key of the table, the place that the
    region is counted from, the window and the length that are published of
    the namespace, the number of its entries and their end, the device key and
    the document type. *)
Record RegionAt := mkRegionAt {
  at_table : nat;
  at_start : nat;
  at_namespace : nat;
  at_prefix : nat;
  at_count : nat;
  at_end : nat;
  at_device : nat;
  at_doc_type : nat;
}.

(** The entries that are counted lie between the table's key and the device
    key. The published namespace is not among these conditions. *)
Record region_at (msg : list byte) (ra : RegionAt) : Prop := {
  table_key : slice (at_table ra) (at_table ra + length VALUE_DIGESTS_OPEN_KEY) msg = VALUE_DIGESTS_OPEN_KEY;
  start_in_table : at_table ra + (length VALUE_DIGESTS_OPEN_KEY + 1) ≤ at_start ra;
  start_in_message : at_start ra + MAX_ANCHOR_WINDOW ≤ length msg;
  entry_count : 0 < at_count ra ≤ MAX_NAMESPACE_ENTRIES;
  entries_walk : entries_end msg (at_count ra) (at_start ra + at_prefix ra) = Some (at_end ra);
  end_in_table : at_end ra ≤ at_device ra;
  device_key : slice (at_device ra) (at_device ra + length DEVICE_KEY_INFO) msg = DEVICE_KEY_INFO;
  device_in_message : at_device ra + DEVICE_KEY_Y_DELTA + MAX_ANCHOR_WINDOW ≤ length msg;
}.

Definition coordinate_at (msg : list byte) (at_ : nat) : Z := be_int (slice at_ (at_ + 32) msg).

(** What selects a width: the head byte, and the header of the value. *)
Definition head_is (h : list byte) (w : nat) (head_byte : option Z) : Prop :=
  (∃ b, h !! 0 = Some b ∧ match head_byte with None => (b2z b < 24)%Z | Some e => b2z b = e end) ∧
  h !! w = Some x58 ∧ h !! (w + 1) = Some x20.

Lemma head_entry_width msg at_ w e :
  at_ + ENTRY_HEAD_WINDOW ≤ length msg → (w, e) ∈ DIGEST_ID_WIDTHS →
  head_is (slice at_ (at_ + ENTRY_HEAD_WINDOW) msg) w e → entry_width msg at_ = Some w.
Proof.
  unfold ENTRY_HEAD_WINDOW. intros Hl Hin [(b & Eb & Hb) [E1 E2]].
  unfold DIGEST_ID_WIDTHS in Hin. rewrite !elem_of_cons, elem_of_nil in Hin.
  assert (w ≤ 5) as Hw by (destruct Hin as [[= -> ->]|[[= -> ->]|[[= -> ->]|[[= -> ->]|[]]]]]; lia).
  rewrite lookup_slice in Eb, E1, E2 by lia. rewrite Nat.add_0_r in Eb.
  unfold entry_width, ENTRY_HEAD_WINDOW. rewrite (proj2 (Nat.leb_le _ _)) by lia.
  assert (∃ v, decode_cbor_uint (drop at_ msg) = Some (v, w)) as [v ->].
  { unfold decode_cbor_uint. rewrite (drop_S _ _ _ Eb). cbn [head mbind option_bind].
    assert (∀ k, k < 7 → ∃ x, msg !! (at_ + k) = Some x) as Hk by (intros k Lk; apply lookup_lt_is_Some_2; lia).
    assert (∀ n, n ≤ 7 → (n <= length (b :: drop (S at_) msg))%nat) as Hn by (intros n Ln; cbn [length]; rewrite length_drop; lia).
    destruct Hin as [[= -> ->]|[[= -> ->]|[[= -> ->]|[[= -> ->]|[]]]]].
    - rewrite (proj2 (Z.ltb_lt _ _)) by lia. by eexists.
    - assert (b = x18) as -> by by apply b2z_inj. destruct (Hk 1) as [x Ex]; [lia|].
      rewrite (drop_S msg x) by (by rewrite <-Ex; f_equal; lia). by eexists.
    - assert (b = x19) as -> by by apply b2z_inj. cbn [b2z Byte.to_N]. rewrite (proj2 (Z.ltb_ge _ _)) by done.
      rewrite decide_False, decide_True by done. unfold get_range. rewrite (proj2 (Nat.leb_le _ _)) by (apply Hn; lia). by eexists.
    - assert (b = x1a) as -> by by apply b2z_inj. cbn [b2z Byte.to_N]. rewrite (proj2 (Z.ltb_ge _ _)) by done.
      rewrite !decide_False, decide_True by done. unfold get_range. rewrite (proj2 (Nat.leb_le _ _)) by (apply Hn; lia). by eexists. }
  cbn [mbind option_bind]. rewrite decide_True; [done|]. unfold slice. replace (at_ + w + 2 - (at_ + w)) with 2 by lia.
  rewrite (drop_S _ _ _ E1), (drop_S msg x20); [done|]. by replace (S (at_ + w)) with (at_ + (w + 1)) by lia.
Qed.

Section Rules.
Context `{BooleanOps} (σ : Assignment).
Add Field scalar_field : scalar_field_theory (morphism of_int_morph, constants [scalar_const]).
Local Abbreviation D := (denotes σ).

(** * Bytes of bits *)
Lemma nth_value_ok {A} (l : list A) i a : l !! i = Some a → nth_value l i = Ok a.
Proof. unfold nth_value. by intros ->. Qed.

(** A loop over eight elements of a list is the pure loop over them. *)
Lemma foldM_nth {A B} (f : B → nat → A → B) (l : list A) at_ n acc :
  at_ + n ≤ length l →
  foldM (λ acc j, b ← nth_value l (at_ + j); Ok (f acc j b)) acc (range n)
  = Ok (foldl (λ acc '(j, b), f acc j b) acc (imap (λ j b, (j, b)) (slice at_ (at_ + n) l))) :> outcome SynthesisError B.
Proof.
  intros Hl. induction n as [|n IH]; [by rewrite Nat.add_0_r; unfold slice; rewrite Nat.sub_diag|].
  unfold range in *. rewrite seq_S, foldM_app, IH by lia. cbn [mbind outcome_bind foldM].
  destruct (lookup_lt_is_Some_2 l (at_ + n)) as [b Eb]; [lia|]. rewrite Nat.add_0_l, (nth_value_ok _ _ _ Eb).
  cbn [mbind outcome_bind]. assert (slice at_ (at_ + S n) l = slice at_ (at_ + n) l ++ [b]) as ->.
  { unfold slice. replace (at_ + S n - at_) with (S n) by lia. replace (at_ + n - at_) with n by lia.
    apply take_S_r. by rewrite lookup_drop. }
  rewrite imap_app, foldl_app, length_slice by lia. cbn [imap foldl].
  by replace (at_ + n - at_ + 0) with n by lia.
Qed.

Lemma byte_lc_value bits msg i b c :
  bits_are D bits (msg ≫= Prelude.byte_bits) → msg !! i = Some b →
  ∃ lc, byte_lc bits i (of_int c) = Ok lc ∧ eval σ lc = of_int (c * b2z b).
Proof.
  intros HB Hi. pose proof (Forall2_length _ _ _ HB) as Hl. rewrite length_bind_byte_bits in Hl.
  pose proof (lookup_lt_Some _ _ _ Hi) as L. eexists. split.
  { unfold byte_lc. apply (foldM_nth (λ lc j b, lc_add lc (Boolean_lc b one (doublings (7 - j) (of_int c))))). lia. }
  set (bs := slice (i * 8) (i * 8 + 8) bits).
  assert (bits_are D bs (Prelude.byte_bits b)) as Hbs.
  { replace (Prelude.byte_bits b) with (slice (8 * i) (8 * (i + 1)) (msg ≫= Prelude.byte_bits)).
    - unfold bs. replace (i * 8) with (8 * i) by lia. replace (8 * i + 8) with (8 * (i + 1)) by lia.
      by apply Forall2_take, Forall2_drop.
    - rewrite slice_bind_byte_bits. unfold slice. replace (i + 1 - i) with 1 by lia.
      rewrite (drop_S _ _ _ Hi). cbn [take]. cbn [mbind list_bind]. apply app_nil_r. }
  clearbody bs. rewrite (eval_terms σ _ (λ '(j, b) z, ∃ v, D (bit b) (of_bool v) ∧ (j < length bs)%nat ∧ z = Z.b2z v * (c * 2 ^ Z.of_nat (7 - j)))%Z
    _ (imap (λ j v, Z.b2z v * (c * 2 ^ Z.of_nat (7 - j)))%Z (Prelude.byte_bits b))).
  - rewrite eval_zero, <-of_int_0, <-of_int_add. f_equal.
    replace (imap _ (Prelude.byte_bits b)) with (Z.mul c <$> bit_weights (Prelude.byte_bits b)).
    + rewrite total_scale, total_bits, bits_int_byte_bits. lia.
    + unfold bit_weights. rewrite length_byte_bits, fmap_imap. apply imap_ext. intros j v _. cbn.
      replace (8 - 1 - j) with (7 - j) by lia. ring.
  - intros lc' [j x] z (v & Hv & _ & ->). rewrite doublings_int. by apply eval_boolean_term.
  - by apply weights_Forall2.
Qed.

(** The packs of the window at a constant offset. *)
Lemma pack_bytes_value bits msg start lo hi n :
  bits_are D bits (msg ≫= Prelude.byte_bits) → n ≤ hi - lo →
  ∃ acc, foldM (λ acc i,
      let coeff := byte_shifts (hi - 1 - i) ONE in
      let idx := (start + i)%nat in
      if (idx <? length msg)%nat then b ← byte_lc bits idx coeff; Ok (lc_add acc b) else Ok acc) lc_zero (seq lo n) = Ok acc ∧
    eval σ acc = of_int (be_int ((λ i, default x00 (msg !! (start + i)%nat)) <$> seq lo n) * 256 ^ Z.of_nat (hi - lo - n)).
Proof.
  intros HB. induction n as [|n IH]; intros Hn; [exists lc_zero; split; [done|]; by rewrite eval_zero, <-of_int_0|].
  destruct IH as (acc & E & V); [lia|]. rewrite seq_S, foldM_app, E. cbn [mbind outcome_bind foldM]. cbv zeta.
  rewrite fmap_app, be_int_app. cbn [fmap list_fmap length].
  replace (hi - 1 - (lo + n)) with (hi - lo - S n) by lia.
  assert (256 ^ Z.of_nat (hi - lo - n) = 256 * 256 ^ Z.of_nat (hi - lo - S n))%Z as E256
    by (rewrite <-Z.pow_succ_r by lia; f_equal; lia).
  rewrite E256 in V. change (256 ^ Z.of_nat 1)%Z with 256%Z.
  destruct (Nat.ltb_spec (start + (lo + n)) (length msg)) as [L|L].
  - destruct (lookup_lt_is_Some_2 msg _ L) as [b Eb]. rewrite Eb. 
    rewrite <-of_int_1, byte_shifts_int. destruct (byte_lc_value bits msg _ b (1 * 256 ^ Z.of_nat (hi - lo - S n))%Z HB Eb) as (l & El & Vl).
    rewrite El. cbn [mbind outcome_bind]. eexists. split; [done|]. rewrite eval_add, V, Vl, <-of_int_add. f_equal.
    change (be_int [default x00 (Some b)]) with (0 * 256 + b2z b)%Z. ring.
  - rewrite lookup_ge_None_2 by lia. eexists. split; [done|]. rewrite V. f_equal.
    change (be_int [default x00 None]) with 0%Z. ring.
Qed.

Lemma mapM_outcome {A B} (f : A → outcome SynthesisError B) l (R : A → B → Prop) :
  (∀ x, x ∈ l → ∃ y, f x = Ok y ∧ R x y) → ∃ ys, mapM f l = Ok ys ∧ Forall2 R l ys.
Proof.
  induction l as [|x l IH]; intros Hf; [by exists []|].
  destruct (Hf x) as (y & Ey & Hy); [by left|]. destruct IH as (ys & Eys & Hys); [by intros z Hz; apply Hf; right|].
  exists (y :: ys). cbn [mapM]. rewrite Ey. cbn [mbind outcome_bind]. rewrite Eys. split; [done|by constructor].
Qed.

Lemma pack_at_value bits msg start len :
  bits_are D bits (msg ≫= Prelude.byte_bits) →
  ∃ ws, pack_at bits start len (length msg) = Ok ws ∧
    Forall2 (λ k w, eval σ w = of_int (be_int (pack_of (window_bytes msg start len) k))) (range (div_ceil len 16)) ws.
Proof.
  intros HB. apply mapM_outcome. intros k _. cbv zeta. change BYTES_PER_PACK with 16.
  destruct (pack_bytes_value bits msg start (k * 16) ((k * 16 + 16) `min` len) ((k * 16 + 16) `min` len - k * 16) HB ltac:(lia)) as (acc & E & V).
  exists acc. split; [exact E|]. rewrite V, Nat.sub_diag, Z.mul_1_r, pack_of_window. by rewrite (Nat.mul_comm 16 k).
Qed.

(** * Windows at a witnessed offset *)
Definition packs_are (ps : list AllocatedNum) (w : list byte) : Prop :=
  Forall2 (λ k a, nval σ a = of_int (be_int (pack_of w k))) (range (div_ceil (length w) 16)) ps.

Lemma total_selected n k (f : nat → Z) :
  k < n → total (imap (λ j v, Z.b2z v * f j)%Z (one_hot n k)) = f k.
Proof. intros Hk. rewrite total_one_hot. by rewrite (proj2 (Nat.ltb_lt _ _)). Qed.

(** A loop that adds a term for each candidate, zero but for the selected one. *)
Lemma gadget_selected_sum {A} (f : LinearCombination → nat * A → Synth LinearCombination) (l : list A) k (v : nat → Scalar) :
  k < length l →
  (∀ acc j a, l !! j = Some a → gadget σ (f acc (j, a)) (λ acc',
    eval σ acc' = (eval σ acc + of_bool (bool_decide (j = k)) * v j)%S)) →
  gadget σ (foldM f lc_zero (imap (λ j a, (j, a)) l)) (λ acc, eval σ acc = v k).
Proof.
  intros Hk Hf. eapply gadget_mono.
  { apply (gadget_foldM σ _ _ _ (λ done acc, eval σ acc = if (k <? length done)%nat then v k else ZERO)).
    - by rewrite eval_zero.
    - intros done [j a] acc Hpre V. apply prefix_snoc_lookup in Hpre as [Hj _].
      apply list_lookup_imap_Some in Hj as (a' & Ea & [= -> ->]). eapply gadget_mono; [by apply Hf|].
      intros acc' V'. cbv beta in V'. rewrite V', V, length_app. cbn [length].
      destruct (Nat.ltb_spec k (length done)), (Nat.ltb_spec k (length done + 1)); try lia.
      + rewrite bool_decide_eq_false_2 by lia. cbn [of_bool]. ring.
      + assert (length done = k) as -> by lia. rewrite bool_decide_eq_true_2 by done. cbn [of_bool]. ring.
      + rewrite bool_decide_eq_false_2 by lia. cbn [of_bool]. ring. }
  intros acc V. by rewrite length_imap, (proj2 (Nat.ltb_lt _ _) Hk) in V.
Qed.

(** A selector, at each of its candidates. *)
Lemma one_hot_at bs n k :
  bits_are D bs (one_hot n k) →
  ∀ j, j < n → ∃ b, bs !! j = Some b ∧ eval σ (Boolean_lc b one ONE) = of_bool (bool_decide (j = k)).
Proof.
  intros HF j Hj. destruct (lookup_lt_is_Some_2 bs j) as [b Eb]; [by rewrite (Forall2_length _ _ _ HF), length_one_hot|].
  exists b. split; [done|]. exact (Forall2_lookup_lr _ _ _ _ _ _ HF Eb (lookup_one_hot n k j Hj)).
Qed.

Lemma gadget_select_window bits msg native candidates real_offset len :
  bits_are D bits (msg ≫= Prelude.byte_bits) → length native = length msg → real_offset ∈ candidates →
  (Z.of_nat (length candidates) < p)%Z → Forall (λ c, Z.of_nat c < 2 ^ 64)%Z candidates →
  gadget σ (select_window bits native candidates real_offset len) (λ w, ∃ o, o ∈ candidates ∧
    eval σ (offset w) = of_int (Z.of_nat o) ∧ packs_are (packs w) (window_bytes msg o len)).
Proof.
  intros HB Hl Hr Hp Hc. unfold select_window. rewrite bool_decide_eq_true_2 by done. cbn [negb].
  eapply gadget_bind; [apply gadget_ns; by apply gadget_one_hot|]. intros oh (k & Hk & Hoh). cbv beta zeta in Hoh |- *.
  destruct (lookup_lt_is_Some_2 candidates k Hk) as [o Eo]. pose proof (one_hot_at _ _ _ Hoh) as Hb.
  assert (∀ j c, candidates !! j = Some c → j < length candidates) as Hin by (intros j c; apply lookup_lt_Some).
  eapply gadget_bind; [apply (gadget_mapM_Forall2 σ _ _ (λ q a, nval σ a = of_int (be_int (pack_of (window_bytes msg o len) q))))|].
  { intros q Hq%elem_of_seq. eapply gadget_bind; [apply gadget_ns, gadget_AllocatedNum_alloc|]. intros out _.
    pose (v j := of_int (be_int (pack_of (window_bytes msg (default 0 (candidates !! j)) len) q))).
    eapply gadget_bind; [apply (gadget_selected_sum _ _ k v Hk)|].
    - intros acc j c Ec. destruct (pack_at_value bits msg c len HB) as (ws & Ew & HW). rewrite Hl.
      eapply gadget_bind; [by apply gadget_lift|]. intros ? ->.
      destruct (Forall2_lookup_l _ _ _ q q HW) as (w & Ewq & Vw); [unfold range; apply lookup_seq; change 16 with BYTES_PER_PACK; lia|].
      eapply gadget_bind; [by apply gadget_index_nth|]. intros ? ->.
      eapply gadget_bind; [apply gadget_ns, gadget_AllocatedNum_alloc|]. intros term _.
      destruct (Hb j (Hin j c Ec)) as (b & Eb & Vb). eapply gadget_bind; [by apply gadget_index_nth|]. intros ? ->.
      rule_as E. apply gadget_ret. rewrite Vb, Vw in E. unfold v. rewrite Ec. cbn [default id]. autorewrite with evals.
      change (σ (get_variable term)) with (nval σ term). by_rule E.
    - intros acc V. cbv beta in V. rule_as E. apply gadget_ret. rewrite V in E. unfold v in E. rewrite Eo in E. cbn [default id] in E. by_rule E. }
  intros ps HP. cbv beta in HP.
  eapply gadget_bind; [apply (gadget_selected_sum _ _ k (λ j, of_int (Z.of_nat (default 0 (candidates !! j)))) Hk)|].
  { intros acc j c Ec. destruct (Hb j (Hin j c Ec)) as (b & Eb & Vb). eapply gadget_bind; [by apply gadget_index_nth|]. intros ? ->.
    apply gadget_ret. rewrite Ec, eval_add, Boolean_lc_scaled, Vb, from_u64_of_int; [cbn [default id]; ring|].
    split; [lia|]. by apply (list.Forall_lookup_1 _ _ _ _ Hc Ec). }
  intros off V. cbv beta in V. rewrite Eo in V. apply gadget_ret.
  exists o. split_and!; [by eapply list_elem_of_lookup_2|done|]. unfold packs_are. by rewrite length_window_bytes.
Qed.

(** * Bits of a pack *)
Lemma Forall2_choose {A B C} (P : A → B → C → Prop) l k :
  Forall2 (λ x y, ∃ z, P x y z) l k → 
  ∃ zs, length zs = length l ∧ length k = length l ∧ Forall2 (λ x '(y, z), P x y z) l (zip k zs).
Proof.
  induction 1 as [|x y l k (z & Hz) _ (zs & Hl & Hk & IH)]; [by exists []|].
  exists (z :: zs). split_and!; [cbn; by f_equal..|]. by constructor.
Qed.

(** The terms of a byte, [shift] bytes before the last. *)
Definition byte_terms (shift : nat) (l : list (Scalar * AllocatedBit)) (b : byte) : Prop :=
  Forall2 (λ j '(c, r), c = doublings (7 - j) (byte_shifts shift ONE) ∧ bbit σ r (Z.testbit (b2z b) (Z.of_nat (7 - j))))
    (range 8) l.

Lemma byte_term_lookup shift l b i c r :
  byte_terms shift l b → l !! i = Some (c, r) →
  c = doublings (7 - i) (byte_shifts shift ONE) ∧ bbit σ r (Z.testbit (b2z b) (Z.of_nat (7 - i))).
Proof.
  intros HF Ei. apply (Forall2_lookup_lr _ _ _ i i (c, r) HF); [|done]. unfold range. apply lookup_seq. split; [done|].
  apply lookup_lt_Some in Ei. by rewrite <-(Forall2_length _ _ _ HF) in Ei.
Qed.

Lemma gadget_byte_terms shift (f : nat → Synth (Scalar * AllocatedBit)) :
  (∀ j, gadget σ (f j) (λ '(c, r), c = doublings (7 - j) (byte_shifts shift ONE) ∧ ∃ v, bbit σ r v)) →
  gadget σ (mapM f (range 8)) (λ l, ∃ b, byte_terms shift l b).
Proof.
  intros Hf. eapply gadget_mono.
  { apply (gadget_mapM_Forall2 σ _ _ (λ j x, ∃ v, x.1 = doublings (7 - j) (byte_shifts shift ONE) ∧ bbit σ x.2 v)).
    intros j _. eapply gadget_mono; [apply Hf|]. intros [c r] (E & v & Hv). by exists v. }
  intros l HF. apply Forall2_choose in HF as (vs & Hl & Ll & HF).
  destruct (bits_as_bytes 1 vs) as (bs & Hb & ->); [exact Hl|].
  destruct bs as [|b [|]]; try discriminate Hb. exists b.
  unfold byte_terms, range in *. rewrite length_seq in *.
  apply Forall2_same_length_lookup. split; [by rewrite length_seq|].
  intros i j [c r] Ej Er. pose proof Ej as L. apply lookup_seq in Ej as [-> L']. cbn [Nat.add] in *.
  assert (([b] ≫= Prelude.byte_bits) !! i = Some (Z.testbit (b2z b) (Z.of_nat (7 - i)))) as Eb.
  { cbn [mbind list_bind]. rewrite app_nil_r. unfold Prelude.byte_bits. rewrite lookup_int_bits by lia. done. }
  pose proof (Forall2_lookup_lr _ _ _ i i ((c, r), Z.testbit (b2z b) (Z.of_nat (7 - i))) HF L) as Hc. apply Hc.
  by rewrite lookup_zip_with, Er, Eb.
Qed.

Local Abbreviation add_term := (λ lc '(coeff, b), lc_add_term lc (coeff, bit_get_variable b)).

Lemma byte_terms_eval shift l b lc :
  byte_terms shift l b → eval σ (foldl add_term lc l) = (eval σ lc + of_int (b2z b * 256 ^ Z.of_nat shift))%S.
Proof.
  intros HF. pose proof (Forall2_length _ _ _ HF) as Hl. unfold range in Hl. rewrite length_seq in Hl.
  rewrite (eval_terms σ _ (λ x z, ∃ v e, x.1 = of_int e ∧ bbit σ x.2 v ∧ z = Z.b2z v * e)%Z _
    (Z.mul (256 ^ Z.of_nat shift) <$> bit_weights (Prelude.byte_bits b))).
  - rewrite total_scale, total_bits, bits_int_byte_bits. do 2 f_equal. ring.
  - intros lc' [c r] z (v & e & Ec & Hr & ->). cbn [fst snd] in *. rewrite Ec. by apply eval_slot_term.
  - apply Forall2_same_length_lookup. unfold bit_weights. rewrite fmap_imap. split; [by rewrite length_imap, length_byte_bits|].
    intros i [c r] z Ex Ez. apply list_lookup_imap_Some in Ez as (v & Ev & ->). cbn [compose].
    assert (i < 8) as Li by (apply lookup_lt_Some in Ex; lia).
    destruct (byte_term_lookup _ _ _ _ _ _ HF Ex) as [-> Hr].
    unfold Prelude.byte_bits in Ev. rewrite lookup_int_bits in Ev by done. injection Ev as <-.
    exists (Z.testbit (b2z b) (Z.of_nat (8 - 1 - i))), (1 * 256 ^ Z.of_nat shift * 2 ^ Z.of_nat (7 - i))%Z. cbn [fst snd].
    rewrite length_byte_bits. split_and!.
    + by rewrite <-of_int_1, byte_shifts_int, doublings_int.
    + by replace (8 - 1 - i) with (7 - i) by lia.
    + replace (8 - 1 - i) with (7 - i) by lia. ring.
Qed.

Lemma byte_terms_bits shift l b : byte_terms shift l b → bits_are D ((λ '(_, r), Boolean_from r) <$> l) (Prelude.byte_bits b).
Proof.
  intros HF. assert (Forall2 (bbit σ) l.*2 (Prelude.byte_bits b)) as HS.
  { apply Forall2_same_length_lookup. pose proof (Forall2_length _ _ _ HF) as Hl. unfold range in Hl. rewrite length_seq in Hl.
    split; [by rewrite length_fmap, length_byte_bits|]. intros i r v Er Ev. apply list_lookup_fmap_Some in Er as ([c r'] & -> & Ex).
    assert (i < 8) as Li by (apply lookup_lt_Some in Ex; lia).
    destruct (byte_term_lookup _ _ _ _ _ _ HF Ex) as [_ Hr].
    unfold Prelude.byte_bits in Ev. rewrite lookup_int_bits in Ev by done. injection Ev as <-.
    by replace (8 - 1 - i) with (7 - i) by lia. }
  apply slots_booleans in HS. rewrite <-list_fmap_compose in HS.
  erewrite list_fmap_ext; [exact HS|]. by intros _ [c r] _.
Qed.

Lemma bytes_terms_eval ls bs lc :
  length ls = length bs → (∀ i l b, ls !! i = Some l → bs !! i = Some b → byte_terms (length bs - 1 - i) l b) →
  eval σ (foldl add_term lc (concat ls)) = (eval σ lc + of_int (be_int bs))%S.
Proof.
  revert ls lc. induction bs as [|b bs IH]; intros ls lc Hl HT.
  - destruct ls; [|done]. cbn [concat foldl]. change (be_int []) with 0%Z. rewrite of_int_0. ring.
  - destruct ls as [|l ls]; [done|]. cbn [concat]. rewrite foldl_app. rewrite (IH ls); [|by injection Hl|].
    + rewrite (byte_terms_eval (length bs) l b) by (specialize (HT 0 l b eq_refl eq_refl); cbn [length] in HT;
        by replace (S (length bs) - 1 - 0) with (length bs) in HT by lia).
      rewrite be_int_cons, of_int_add. ring.
    + intros i l' b' El Eb. specialize (HT (S i) l' b' El Eb). cbn [length] in HT.
      by replace (S (length bs) - 1 - S i) with (length bs - 1 - i) in HT by lia.
Qed.

Lemma bytes_terms_bits ls bs :
  length ls = length bs → (∀ i l b, ls !! i = Some l → bs !! i = Some b → byte_terms (length bs - 1 - i) l b) →
  bits_are D ((λ '(_, r), Boolean_from r) <$> concat ls) (bs ≫= Prelude.byte_bits).
Proof.
  revert ls. induction bs as [|b bs IH]; intros ls Hl HT; [by destruct ls; [constructor|]|].
  destruct ls as [|l ls]; [done|]. cbn [concat]. rewrite fmap_app, bind_cons. apply Forall2_app.
  - by apply (byte_terms_bits (length (b :: bs) - 1 - 0)), (HT 0).
  - apply IH; [by injection Hl|]. intros i l' b' El Eb. specialize (HT (S i) l' b' El Eb). cbn [length] in HT.
    by replace (S (length bs) - 1 - S i) with (length bs - 1 - i) in HT by lia.
Qed.

(** Sixteen bytes at most are one field element only. *)
Lemma pack_inj bs bs' :
  length bs = length bs' → length bs ≤ 16 → of_int (be_int bs) = of_int (be_int bs') → bs = bs'.
Proof.
  intros Hl H16 E. apply be_int_inj; [done|].
  assert (∀ l : list byte, length l ≤ 16 → (0 ≤ be_int l < p)%Z) as R.
  { intros l Ll. pose proof (be_int_range l) as [R0 R1]. split; [done|]. eapply Z.lt_le_trans; [exact R1|].
    transitivity (256 ^ 16)%Z; [apply Z.pow_le_mono_r; lia|]. apply Z.lt_le_incl. change (256 ^ 16)%Z with (2 ^ 128)%Z.
    apply (lt_pow_p 128). lia. }
  apply of_int_inj in E; [done|apply R; lia..].
Qed.

Lemma bind_packs w : (range (div_ceil (length w) 16) ≫= pack_of w) = w.
Proof.
  transitivity (take (16 * div_ceil (length w) 16) w).
  - rewrite <-bind_slices. apply Forall_bind_ext, list.Forall_forall. intros k _. unfold pack_of. f_equal. lia.
  - apply take_ge. unfold div_ceil. pose proof (Nat.div_mod (length w + 16 - 1) 16 ltac:(lia)).
    pose proof (Nat.mod_upper_bound (length w + 16 - 1) 16 ltac:(lia)). lia.
Qed.

Lemma gadget_unpack_window_bits window w :
  packs_are (packs window) w →
  gadget σ (unpack_window_bits window (length w)) (λ bits, bits_are D bits (w ≫= Prelude.byte_bits)).
Proof.
  intros HP. unfold unpack_window_bits. pose proof (Forall2_length _ _ _ HP) as Hlp. unfold range in Hlp. rewrite length_seq in Hlp.
  eapply gadget_bind; [apply (gadget_mapM_Forall2 σ _ _ (λ '(q, _) bs, bits_are D bs (pack_of w q ≫= Prelude.byte_bits)))|].
  { intros [q0 a0] Hq. apply list_elem_of_lookup in Hq as (q & Ei). apply list_lookup_imap_Some in Ei as (a & Ea & [= -> ->]).
    assert (q < div_ceil (length w) 16) as Lq by (apply lookup_lt_Some in Ea; lia).
    assert (16 * q < length w) as Lw.
    { unfold div_ceil in Lq. pose proof (Nat.Div0.mul_div_le (length w + 16 - 1) 16). lia. }
    eapply gadget_bind; [apply gadget_assert; unfold BYTES_PER_PACK; apply Nat.leb_le; lia|]. intros _ _.
    change BYTES_PER_PACK with 16. replace ((length w - q * 16) `min` 16) with (length (pack_of w q)) by (rewrite length_pack_of; lia).
    set (n := length (pack_of w q)). eapply gadget_bind.
    { apply (gadget_mapM_Forall2 σ _ _ (λ i l, ∃ b, byte_terms (n - 1 - i) l b)). intros i _. cbv zeta.
      apply gadget_byte_terms. intros j. eapply gadget_bind; [apply gadget_ns, gadget_AllocatedBit_alloc|].
      intros r Hr. by apply gadget_ret. }
    intros ls HL. apply Forall2_choose in HL as (bs & Hb & Hls & HL). unfold range in Hb, Hls. rewrite length_seq in Hb, Hls.
    cbv zeta. rule_as E. apply gadget_ret.
    assert (∀ i l b, ls !! i = Some l → bs !! i = Some b → byte_terms (length bs - 1 - i) l b) as HT.
    { intros i l b El Eb. rewrite Hb. pose proof (lookup_lt_Some _ _ _ Eb).
      apply (Forall2_lookup_lr _ _ _ i i (l, b) HL); [unfold range; apply lookup_seq; lia|].
      by rewrite lookup_zip_with, El, Eb. }
    rewrite (bytes_terms_eval ls bs) in E by (done || congruence). autorewrite with evals in E.
    assert (nval σ a = of_int (be_int (pack_of w q))) as Ha.
    { apply (Forall2_lookup_lr _ _ _ q q a HP); [|done]. unfold range. by apply lookup_seq. }
    assert (bs = pack_of w q) as ->.
    { apply pack_inj; [done|rewrite Hb; unfold n; rewrite length_pack_of; lia|]. rewrite <-Ha. by_rule E. }
    by apply bytes_terms_bits. }
  intros out HF. apply gadget_ret. rewrite <-(bind_packs w), bind_bind. apply Forall2_concat_bind.
  apply Forall2_same_length_lookup. pose proof (Forall2_length _ _ _ HF) as Hl. rewrite length_imap in Hl.
  split; [unfold range; rewrite length_seq; lia|]. intros q bs q' Eb Eq. unfold range in Eq. apply lookup_seq in Eq as [-> Lq].
  destruct (lookup_lt_is_Some_2 (packs window) q) as [a Ea]; [lia|].
  apply (Forall2_lookup_lr _ _ _ q (q, a) bs HF); [|done]. by rewrite list_lookup_imap, Ea.
Qed.

Lemma gadget_number_bits a :
  gadget σ (number_bits a) (λ bits, ∃ b, nval σ a = of_int (b2z b) ∧ bits_are D bits (Prelude.byte_bits b)).
Proof.
  unfold number_bits. eapply gadget_bind; [apply (gadget_byte_terms 0)|].
  { intros j. eapply gadget_bind; [apply gadget_ns, gadget_AllocatedBit_alloc|]. intros r Hr. by apply gadget_ret. }
  intros l (b & Hb). cbv zeta. rule_as E. apply gadget_ret. exists b.
  split; [|by eapply byte_terms_bits]. rewrite (byte_terms_eval 0 l b) in E by done. autorewrite with evals in E.
  rewrite Z.mul_1_r in E. by_rule E.
Qed.

(** * Literals *)
Lemma gadget_enforce_window_equals window w expected :
  packs_are (packs window) w → length w = length expected →
  gadget σ (enforce_window_equals window expected) (λ _, w = expected).
Proof.
  intros HP Hl. unfold enforce_window_equals, pack_constant. pose proof (Forall2_length _ _ _ HP) as Hlp.
  unfold range in Hlp. rewrite length_seq in Hlp.
  assert (length (chunks BYTES_PER_PACK expected) = length (packs window)) as Hc
    by (rewrite length_chunks by (unfold BYTES_PER_PACK; lia); unfold BYTES_PER_PACK; congruence).
  rewrite length_fmap, Hc, Nat.eqb_refl. cbn [negb].
  eapply gadget_bind; [apply (gadget_mapM_Forall2 σ _ _ (λ '(_, (var, expect)) _, nval σ var = expect))|].
  { intros [q [a e]] _. eapply gadget_mono; [apply gadget_enforce|]. intros [] E. autorewrite with evals in E. fold_nval E. by_rule E. }
  intros us HF. apply gadget_ret. apply packs_determine; [done|]. intros k Hk. rewrite Hlp in Hk.
  destruct (lookup_lt_is_Some_2 (packs window) k Hk) as [a Ea].
  destruct (lookup_lt_is_Some_2 (chunks BYTES_PER_PACK expected) k) as [c Ec]; [lia|].
  destruct (lookup_lt_is_Some_2 us k) as [u Eu].
  { rewrite <-(Forall2_length _ _ _ HF), length_imap, length_zip, length_fmap. lia. }
  assert (nval σ a = pack_be c) as E.
  { apply (Forall2_lookup_lr _ _ _ k (k, (a, pack_be c)) u HF); [|done].
    by rewrite list_lookup_imap, lookup_zip_with, Ea, list_lookup_fmap, Ec. }
  assert (nval σ a = of_int (be_int (pack_of w k))) as Ha.
  { apply (Forall2_lookup_lr _ _ _ k k a HP); [|done]. unfold range. apply lookup_seq. lia. }
  rewrite pack_be_int in E. apply lookup_chunks in Ec; [|unfold BYTES_PER_PACK; lia]. change BYTES_PER_PACK with 16 in Ec.
  fold (pack_of expected k) in Ec. subst c.
  apply pack_inj; [by rewrite !length_pack_of, Hl|rewrite length_pack_of; lia|congruence].
Qed.

(** * Candidates *)
Lemma elem_of_window_offsets o len n : o ∈ window_offsets len n ↔ (o + n ≤ len)%nat.
Proof.
  unfold window_offsets. destruct (Nat.ltb_spec len n) as [L|L].
  - split; [by intros ?%elem_of_nil|lia].
  - unfold range. rewrite elem_of_seq. lia.
Qed.

(** What a selection needs of the length of the message. *)
Lemma offsets_small len n :
  (Z.of_nat len < 2 ^ 63)%Z →
  (Z.of_nat (length (window_offsets len n)) < p)%Z ∧ Forall (λ c, Z.of_nat c < 2 ^ 64)%Z (window_offsets len n).
Proof.
  intros Hl. split.
  - eapply Z.lt_trans; [|apply (lt_pow_p 64); lia]. unfold window_offsets, range. destruct (len <? n)%nat; cbn [length]; [lia|].
    rewrite length_seq. lia.
  - apply list.Forall_forall. intros c Hc%elem_of_window_offsets. lia.
Qed.

(** A window whose candidates are every place where [n] bytes fit. *)
Lemma gadget_select_at bits msg native n real_offset len :
  bits_are D bits (msg ≫= Prelude.byte_bits) → length native = length msg → (Z.of_nat (length msg) < 2 ^ 63)%Z →
  real_offset + n ≤ length msg →
  gadget σ (select_window bits native (window_offsets (length native) n) real_offset len) (λ w, ∃ o, o + n ≤ length msg ∧
    eval σ (offset w) = of_int (Z.of_nat o) ∧ packs_are (packs w) (window_bytes msg o len)).
Proof.
  intros HB Hl Hm Hr. destruct (offsets_small (length native) n ltac:(lia)) as [Hp Hc].
  eapply gadget_mono; [apply (gadget_select_window _ msg); try done|].
  - apply elem_of_window_offsets. lia.
  - intros w (o & Ho%elem_of_window_offsets & V & HP). exists o. rewrite Hl in Ho. done.
Qed.

Lemma gadget_select_anchor bits msg native real_offset expected k :
  bits_are D bits (msg ≫= Prelude.byte_bits) → length native = length msg → (Z.of_nat (length msg) < 2 ^ 63)%Z →
  real_offset + MAX_ANCHOR_WINDOW ≤ length msg → length expected ≤ MAX_ANCHOR_WINDOW → div_ceil (length expected) 16 = k →
  gadget σ (select_anchor bits native real_offset expected k) (λ w, ∃ o, o + MAX_ANCHOR_WINDOW ≤ length msg ∧
    eval σ (offset w) = of_int (Z.of_nat o) ∧ slice o (o + length expected) msg = expected).
Proof.
  intros HB Hl Hm Hr He Hk. unfold select_anchor. change BYTES_PER_PACK with 16. rewrite Hk, Nat.eqb_refl. cbn [negb].
  eapply gadget_bind; [apply gadget_ns; by eapply gadget_select_at|]. intros w (o & Ho & V & HP).
  eapply gadget_bind; [apply gadget_ns; apply (gadget_enforce_window_equals _ _ _ HP), length_window_bytes|].
  intros [] E. apply gadget_ret. exists o. rewrite window_bytes_slice in E by lia. done.
Qed.

(** * Order *)
Lemma gadget_enforce_ge value floor d n a b :
  eval σ value = of_int a → eval σ floor = of_int b → (0 ≤ a < 2 ^ 64)%Z → (0 ≤ b < 2 ^ 64)%Z → n ≤ 64 →
  gadget σ (enforce_ge value floor d n) (λ _, (0 ≤ a - b < 2 ^ Z.of_nat n)%Z).
Proof.
  intros Va Vb Ra Rb Hn. unfold enforce_ge. eapply gadget_bind.
  { apply (gadget_foldM σ _ _ _ (λ done '(lc, c), c = of_int (2 ^ Z.of_nat (length done)) ∧
      ∃ z, eval σ lc = of_int z ∧ 0 ≤ z < 2 ^ Z.of_nat (length done))%Z).
    - split; [by rewrite <-of_int_1|]. exists 0%Z. split; [|done]. by rewrite eval_zero, <-of_int_0.
    - intros done i [lc c] _ [-> (z & V & R)]. eapply gadget_bind; [apply gadget_ns, gadget_AllocatedBit_alloc|].
      intros r (v & Hr). apply gadget_ret. rewrite length_app. cbn [length].
      assert (2 ^ Z.of_nat (length done + 1) = 2 * 2 ^ Z.of_nat (length done))%Z as E2
        by (rewrite <-Z.pow_succ_r by lia; f_equal; lia).
      split; [by rewrite double_add, <-of_int_add; f_equal; lia|].
      exists (z + Z.b2z v * 2 ^ Z.of_nat (length done))%Z. split; [by rewrite (eval_slot_term σ _ _ v), V, <-of_int_add|].
      destruct v; cbn [Z.b2z]; lia. }
  intros [lc c] [_ (z & V & R)]. eapply gadget_mono; [apply gadget_enforce|]. intros [] E. autorewrite with evals in E.
  unfold range in R. rewrite length_seq in R. rewrite Va, Vb, V in E.
  assert (of_int (a - b) = of_int z) as E'.
  { rewrite of_int_sub. by_rule E. }
  assert (a = b + z)%Z as ->; [|lia].
  assert (2 ^ Z.of_nat n ≤ 2 ^ 64)%Z by (apply Z.pow_le_mono_r; lia).
  pose proof (lt_pow_p 65 ltac:(lia)) as Hp. 
  apply of_int_inj; [|split; [lia|]..|]; [lia|change (2 ^ 65)%Z with (2 ^ 64 + 2 ^ 64)%Z in Hp; lia|].
  rewrite of_int_add, <-E', of_int_sub. ring.
Qed.

(** * Selected numbers *)

(** The sum of the bits past place [j] says whether the selected place is. *)
Lemma eval_active sel size k j :
  selects_length σ sel size k →
  eval σ (foldl (λ lc '(i, b), if (j <? i + 1)%nat then lc_add_var lc (bit_get_variable b) else lc)
    lc_zero (imap (λ i b, (i, b)) sel)) = of_bool (j <? k + 1)%nat.
Proof.
  intros [Hk HS]. pose proof (Forall2_length _ _ _ HS) as Hl. rewrite length_one_hot in Hl.
  rewrite (eval_terms σ _ (λ '(i, b) z, ∃ v, bbit σ b v ∧ (i < length sel)%nat ∧ z = Z.b2z v * Z.b2z (j <? i + 1)%nat)%Z
    _ (imap (λ i v, Z.b2z v * Z.b2z (j <? i + 1)%nat)%Z (one_hot size k))).
  - rewrite total_selected by done. by rewrite eval_zero, of_bool_of_int, <-of_int_0, <-of_int_add.
  - intros lc [i b] z (v & Hv & _ & ->). destruct (j <? i + 1)%nat; cbn [Z.b2z].
    + rewrite eval_add_var, Hv, of_bool_of_int. f_equal. f_equal. lia.
    + rewrite Z.mul_0_r, of_int_0. ring.
  - by apply weights_Forall2.
Qed.

(** A one-hot over the numbers from one to [size], and the number itself. *)
Lemma gadget_length_selector (name : nat → string) (v : nat → bool) size :
  gadget σ (mapM (λ n, ns (name n) (AllocatedBit_alloc (Some (v n)))) (seq 1 size))
    (λ sel, ∃ vs, Forall2 (bbit σ) sel vs ∧ length vs = size).
Proof.
  eapply gadget_mono; [apply gadget_slots; intros n; apply gadget_ns, gadget_AllocatedBit_alloc|].
  intros sel (vs & HF & Hl). rewrite length_seq in Hl. by exists vs.
Qed.

Lemma eval_selected_number sel size k :
  selects_length σ sel size k → (Z.of_nat size < 2 ^ 63)%Z →
  eval σ (foldl (λ lc '(i, b), lc_add_term lc (from_u64 (Z.of_nat (i + 1)), bit_get_variable b))
    lc_zero (imap (λ i b, (i, b)) sel)) = of_int (Z.of_nat (k + 1)).
Proof.
  intros [Hk HS] Hs. rewrite (eval_selected_slots σ sel size k (λ i, Z.of_nat (i + 1))) by (done || (intros; lia)).
  rewrite eval_zero, <-of_int_0, <-of_int_add. done.
Qed.

(** * Masked windows *)
Definition zero_past (w : list byte) (n : nat) : list byte := take n w ++ replicate (length w - n) x00.

Lemma length_zero_past w n : n ≤ length w → length (zero_past w n) = length w.
Proof. intros Hn. unfold zero_past. rewrite length_app, length_take, length_replicate. lia. Qed.

Lemma lookup_masked_window w n j b :
  w !! j = Some b → zero_past w n !! j = Some (if (j <? n)%nat then b else x00).
Proof.
  intros Ej. pose proof (lookup_lt_Some _ _ _ Ej) as L. unfold zero_past. destruct (Nat.ltb_spec j n) as [Ln|Ln].
  - rewrite lookup_app_l by (rewrite length_take; lia). by rewrite lookup_take_lt.
  - rewrite lookup_app_r by (rewrite length_take; lia). rewrite length_take. apply lookup_replicate_2. lia.
Qed.

(** The loop that packs numbers that are bytes. *)
Lemma gadget_repack (bs : list AllocatedNum) l lo n value :
  Forall2 (λ a b, nval σ a = of_int (b2z b)) bs l → lo + n ≤ length l →
  gadget σ (foldM (λ '(lc, value) i,
      let coeff := byte_shifts (n - 1 - i) ONE in
      b ← index bs (lo + i);
      mret (lc_add_term lc (coeff, get_variable b),
        a ← value; v ← get_value b; Some (a + coeff * v)%S)) (lc_zero, value) (range n))
    (λ '(lc, _), eval σ lc = of_int (be_int (slice lo (lo + n) l))).
Proof.
  intros HF Hn. eapply gadget_mono.
  { apply (gadget_foldM σ _ _ _ (λ done '(lc, _), eval σ lc
      = of_int (be_int (slice lo (lo + length done) l) * 256 ^ Z.of_nat (n - length done)))).
    - rewrite Nat.add_0_r. unfold slice. by rewrite Nat.sub_diag, eval_zero, <-of_int_0.
    - intros done i [lc a] Hpre V. apply prefix_snoc_lookup in Hpre as [Hi _]. apply lookup_seq in Hi as [-> Li]. cbn [Nat.add] in *.
      set (k := length done) in *. destruct (lookup_lt_is_Some_2 l (lo + k)) as [x Ex]; [lia|].
      destruct (Forall2_lookup_r _ _ _ _ _ HF Ex) as (b & Eb & Hb). cbv zeta.
      eapply gadget_bind; [by apply gadget_index_nth|]. intros ? ->. apply gadget_ret.
      rewrite length_app. cbn [length]. fold k.
      assert (slice lo (lo + (k + 1)) l = slice lo (lo + k) l ++ [x]) as ->.
      { unfold slice. replace (lo + (k + 1) - lo) with (S k) by lia. replace (lo + k - lo) with k by lia.
        apply take_S_r. by rewrite lookup_drop. }
      rewrite eval_add_term, V, be_int_snoc. change (σ (get_variable b)) with (nval σ b). rewrite Hb, <-of_int_1, byte_shifts_int, <-of_int_mul, <-of_int_add.
      f_equal. replace (n - 1 - k) with (n - (k + 1)) by lia.
      assert (256 ^ Z.of_nat (n - k) = 256 * 256 ^ Z.of_nat (n - (k + 1)))%Z as ->
        by (rewrite <-Z.pow_succ_r by lia; f_equal; lia). ring. }
  intros [lc a] V. unfold range in V. rewrite length_seq, Nat.sub_diag, Z.mul_1_r in V. done.
Qed.

Lemma gadget_masked_text bits msg native real_offset prefix_len :
  bits_are D bits (msg ≫= Prelude.byte_bits) → length native = length msg → (Z.of_nat (length msg) < 2 ^ 63)%Z →
  real_offset + MAX_ANCHOR_WINDOW ≤ length msg → 0 < prefix_len ≤ ANCHOR_TEXT_WINDOW →
  gadget σ (select_masked_text_anchor bits native real_offset prefix_len) (λ '(packs, prefix), ∃ o n,
    o + MAX_ANCHOR_WINDOW ≤ length msg ∧ 0 < n ≤ ANCHOR_TEXT_WINDOW ∧ nval σ prefix = of_int (Z.of_nat n) ∧
    packs_are packs (zero_past (slice o (o + ANCHOR_TEXT_WINDOW) msg) n)).
Proof.
  intros HB Hl Hm Hr Hn. unfold select_masked_text_anchor.
  rewrite (proj2 (Nat.eqb_neq _ _)), (proj2 (Nat.ltb_ge _ _)) by lia. cbn [orb].
  eapply gadget_bind; [apply gadget_ns; by eapply gadget_select_at|]. intros window (o & Ho & _ & HP).
  rewrite window_bytes_slice in HP by (unfold MAX_ANCHOR_WINDOW, ANCHOR_TEXT_WINDOW in *; lia).
  set (w := slice o (o + ANCHOR_TEXT_WINDOW) msg) in *.
  assert (length w = ANCHOR_TEXT_WINDOW) as Hw by (unfold w; rewrite length_slice; unfold MAX_ANCHOR_WINDOW, ANCHOR_TEXT_WINDOW in *; lia).
  eapply gadget_bind; [apply gadget_ns; rewrite <-Hw; by apply gadget_unpack_window_bits|]. intros wb HWB.
  eapply gadget_bind; [apply gadget_length_selector|]. intros sel (vs & HS & Hvs). cbv zeta.
  rule_as E1. destruct (one_slot σ sel vs HS) as (k & Hsel).
  { rewrite Hvs. eapply Z.lt_trans; [|apply (lt_pow_p 63); lia]. done. }
  { by_rule E1. }
  rewrite Hvs in Hsel. pose proof Hsel as [Hk _]. eapply gadget_bind; [apply gadget_ns, gadget_AllocatedNum_alloc|]. intros prefix _.
  rule_as E2. rewrite (eval_selected_number _ _ _ Hsel) in E2 by done.
  eapply gadget_bind.
  { apply (gadget_mapM_Forall2 σ _ _ (λ j a, nval σ a = of_int (b2z (default x00 (zero_past w (k + 1) !! j))))).
    intros j Hj%elem_of_seq. destruct (lookup_lt_is_Some_2 w j) as [b Eb]; [lia|].
    destruct (byte_lc_value wb w j b 1 HWB Eb) as (lc & El & V). rewrite of_int_1 in El. rewrite El. cbn [lift].
    eapply gadget_bind; [by apply (gadget_ret σ lc (λ x, x = lc))|]. intros ? ->.
    eapply gadget_bind; [apply gadget_ns, gadget_AllocatedNum_alloc|]. intros out _. rule_as E. apply gadget_ret.
    rewrite (lookup_masked_window _ _ _ _ Eb). cbn [default].
    rewrite V, (eval_active _ _ _ j Hsel), Z.mul_1_l in E. destruct (j <? k + 1)%nat; cbn [of_bool] in E.
    - unfold id. by_rule E.
    - change (b2z (id x00)) with 0%Z. rewrite of_int_0. by_rule E. }
  intros masked HM. cbv beta in HM. set (m := zero_past w (k + 1)) in *.
  assert (length m = ANCHOR_TEXT_WINDOW) as Lm by (unfold m; rewrite length_zero_past; lia).
  assert (Forall2 (λ a b, nval σ a = of_int (b2z b)) masked m) as HF.
  { apply Forall2_same_length_lookup. pose proof (Forall2_length _ _ _ HM) as L. unfold range in L. rewrite length_seq in L.
    split; [lia|]. intros i a b Ea Eb. pose proof (lookup_lt_Some _ _ _ Ea).
    pose proof (Forall2_lookup_lr _ _ _ i i a HM) as HE. cbv beta in HE. rewrite Eb in HE. apply HE; [|done].
    unfold range. apply lookup_seq. lia. }
  eapply gadget_bind.
  { apply (gadget_mapM_Forall2 σ _ _ (λ q a, nval σ a = of_int (be_int (pack_of m q)))). intros q Hq%elem_of_seq.
    assert (q * BYTES_PER_PACK + (ANCHOR_TEXT_WINDOW - q * BYTES_PER_PACK) `min` BYTES_PER_PACK ≤ length m) as Hb.
    { rewrite Lm. change ANCHOR_TEXT_PACKS with 3 in Hq. change ANCHOR_TEXT_WINDOW with 40. change BYTES_PER_PACK with 16. lia. }
    eapply gadget_bind; [by apply (gadget_repack masked m)|]. intros [lc v] V. cbv beta in V.
    eapply gadget_bind; [apply gadget_ns, gadget_AllocatedNum_alloc|]. intros out _. rule_as E. apply gadget_ret.
    rewrite V in E. replace (pack_of m q) with (slice (q * BYTES_PER_PACK)
      (q * BYTES_PER_PACK + (ANCHOR_TEXT_WINDOW - q * BYTES_PER_PACK) `min` BYTES_PER_PACK) m); [by_rule E|].
    unfold pack_of, slice. rewrite (Nat.mul_comm 16 q). change BYTES_PER_PACK with 16.
    destruct (decide (ANCHOR_TEXT_WINDOW - q * 16 < 16)); [|f_equal; lia].
    rewrite !take_ge; [done| |]; rewrite length_drop; lia. }
  intros packs HPk. apply gadget_ret. exists o, (k + 1). split_and!; [done|lia|lia| |].
  - by_rule E2.
  - change (packs_are packs m). unfold packs_are. by rewrite Lm.
Qed.

(** * The validity window *)
Definition bytes_of_nums (nums : list AllocatedNum) (l : list byte) : Prop :=
  Forall2 (λ a b, nval σ a = of_int (b2z b)) nums l.

Lemma gadget_bit_at wb w i j b :
  bits_are D wb (w ≫= Prelude.byte_bits) → w !! i = Some b → j < 8 →
  ∃ x, wb !! (i * 8 + j) = Some x ∧ D (bit x) (of_bool (Z.testbit (b2z b) (Z.of_nat (7 - j)))).
Proof.
  intros HB Hi Hj. assert ((w ≫= Prelude.byte_bits) !! (i * 8 + j) = Some (Z.testbit (b2z b) (Z.of_nat (7 - j)))) as E.
  { pose proof (slice_bind_byte_bits i (i + 1) w) as Es. assert (slice i (i + 1) w = [b]) as Eb.
    { unfold slice. replace (i + 1 - i) with 1 by lia. by rewrite (drop_S _ _ _ Hi). }
    rewrite Eb in Es. replace (i * 8 + j) with (8 * i + j) by lia. rewrite <-lookup_slice with (b := 8 * (i + 1)) by lia.
    rewrite Es. cbn [mbind list_bind]. rewrite app_nil_r. unfold Prelude.byte_bits. by rewrite lookup_int_bits by lia. }
  destruct (Forall2_lookup_r _ _ _ _ _ HB E) as (x & Ex & Hx). by exists x.
Qed.

Lemma byte_bits_inj b b' : (∀ j, j < 8 → Z.testbit (b2z b) (Z.of_nat (7 - j)) = Z.testbit (b2z b') (Z.of_nat (7 - j))) → b = b'.
Proof.
  intros Hj. apply b2z_inj. rewrite <-!bits_int_byte_bits. f_equal. apply list_eq. intros i. unfold Prelude.byte_bits.
  destruct (decide (i < 8)) as [L|L]; [|by rewrite !lookup_ge_None_2 by (rewrite length_int_bits; lia)].
  rewrite !lookup_int_bits by done. f_equal. apply (Hj i L).
Qed.

Lemma gadget_timestamp_byte wb w i b :
  bits_are D wb (w ≫= Prelude.byte_bits) → w !! i = Some b →
  gadget σ (foldM (λ '(lc, coeff) bit,
      b ← index wb (i * 8 + bit);
      half ← lift (invert_unwrap (from_u64 2));
      mret (lc_add lc (Boolean_lc b one coeff), coeff * half)%S) (lc_zero, from_u64 128) (range 8))
    (λ '(lc, _), eval σ lc = of_int (b2z b)).
Proof.
  intros HB Hi. assert (of_int 2 ≠ ZERO) as H2n by (apply of_int_nonzero; split; [lia|apply (lt_pow_p 2); lia]).
  eapply gadget_mono.
  { apply (gadget_foldM σ _ _ _ (λ done '(lc, c), (length done < 8 → c = of_int (2 ^ Z.of_nat (7 - length done))) ∧
      eval σ lc = of_int (bits_int (take (length done) (Prelude.byte_bits b)) * 2 ^ Z.of_nat (8 - length done)))).
    - split; [intros _; by rewrite from_u64_of_int|]. by rewrite eval_zero, <-of_int_0.
    - intros done j [lc c] Hpre [Hc V]. apply prefix_snoc_lookup in Hpre as [Hj _]. apply lookup_seq in Hj as [-> Lj].
      cbn [Nat.add] in *. set (j := length done) in *. specialize (Hc Lj) as ->.
      destruct (gadget_bit_at _ _ _ j b HB Hi Lj) as (x & Ex & Hx).
      eapply gadget_bind; [by apply gadget_index_nth|]. intros ? ->.
      rewrite (from_u64_of_int 2), (invert_unwrap_knows (of_int 2)) by (done || lia). cbn [lift].
      eapply gadget_bind; [by apply (gadget_ret σ (sc_inv (of_int 2)) (λ y, y = sc_inv (of_int 2)))|]. intros ? ->.
      apply gadget_ret. rewrite length_app. cbn [length]. fold j. split.
      + intros L. replace (7 - j) with (S (7 - (j + 1))) by lia. rewrite Nat2Z.inj_succ, Z.pow_succ_r, (Z.mul_comm 2), of_int_mul by lia.
        pose proof (sc_inv_l _ H2n) as E2. transitivity (of_int (2 ^ Z.of_nat (7 - (j + 1))) * (sc_inv (of_int 2) * of_int 2))%S; [ring|].
        rewrite E2. ring.
      + rewrite (eval_boolean_term σ _ _ _ _ Hx), V, <-of_int_add. f_equal.
        assert (Prelude.byte_bits b !! j = Some (Z.testbit (b2z b) (Z.of_nat (7 - j)))) as Eb
          by (unfold Prelude.byte_bits; by rewrite lookup_int_bits by lia).
        replace (j + 1) with (S j) by lia. rewrite (take_S_r _ _ _ Eb), bits_int_app. cbn [length].
        change (bits_int [?v]) with (0 * 2 + Z.b2z v)%Z. replace (8 - S j) with (7 - j) by lia.
        replace (8 - j) with (S (7 - j)) by lia. rewrite Nat2Z.inj_succ, Z.pow_succ_r by lia.
        set (v := Z.testbit _ _). change (bits_int [v]) with (0 * 2 + Z.b2z v)%Z. change (2 ^ Z.of_nat 1)%Z with 2%Z. ring. }
  intros [lc c] [_ V]. rewrite V. unfold range. rewrite length_seq. cbn [Nat.sub]. f_equal.
  rewrite take_ge by (rewrite length_byte_bits; lia). rewrite bits_int_byte_bits. apply Z.mul_1_r.
Qed.

Lemma gadget_take_timestamp wb w delta tag :
  bits_are D wb (w ≫= Prelude.byte_bits) → delta + TIMESTAMP_LEN ≤ length w →
  gadget σ (take_timestamp wb delta tag) (λ ts, bytes_of_nums ts (slice delta (delta + TIMESTAMP_LEN) w)).
Proof.
  intros HB Hd. unfold take_timestamp. eapply gadget_mono.
  { apply (gadget_mapM_Forall2 σ _ _ (λ i a, ∃ b, w !! (delta + i) = Some b ∧ nval σ a = of_int (b2z b))).
    intros i Hi%elem_of_seq. destruct (lookup_lt_is_Some_2 w (delta + i)) as [b Eb]; [lia|].
    eapply gadget_bind; [by apply (gadget_timestamp_byte wb w _ b)|]. intros [lc c] V. cbv beta in V.
    eapply gadget_bind; [apply gadget_ns, gadget_AllocatedNum_alloc|]. intros v _. rule_as E. apply gadget_ret. exists b.
    split; [done|]. rewrite V in E. by_rule E. }
  intros ts HF. apply Forall2_same_length_lookup. pose proof (Forall2_length _ _ _ HF) as Hl. unfold range in Hl. rewrite length_seq in Hl.
  split; [rewrite length_slice; lia|]. intros i a b Ea Eb. pose proof (lookup_lt_Some _ _ _ Ea).
  rewrite lookup_slice in Eb by lia.
  destruct (Forall2_lookup_r _ _ _ _ _ HF Ea) as (j & Ej & b' & Eb' & Ha).
  unfold range in Ej. apply lookup_seq in Ej as [-> _]. cbn [Nat.add] in Eb'. rewrite Eb in Eb'. by injection Eb' as <-.
Qed.

(** The block that a validity window fills, past the end of the message zeros. *)
Definition validity_block (signed from until : list byte) : list byte :=
  VALIDITY_OPEN ++ signed ++ VALIDITY_MID_FROM ++ from ++ VALIDITY_MID_UNTIL ++ until.

Lemma validity_block_of w :
  length w = VALIDITY_WINDOW_LEN → (∀ i b, (i, b) ∈ validity_literals → w !! i = Some b) →
  ∃ signed from until, w = validity_block signed from until ∧
    length signed = TIMESTAMP_LEN ∧ length from = TIMESTAMP_LEN ∧ length until = TIMESTAMP_LEN ∧
    from = slice VALID_FROM_DELTA (VALID_FROM_DELTA + TIMESTAMP_LEN) w ∧
    until = slice VALID_UNTIL_DELTA (VALID_UNTIL_DELTA + TIMESTAMP_LEN) w.
Proof.
  intros Hl HL. change VALIDITY_WINDOW_LEN with 108 in Hl.
  assert (∀ l i (b : byte), l !! i = Some b → ∀ o, (o + i, b) ∈ imap (λ i b, (o + i, b)) l) as Hin.
  { intros l i b E o. apply list_elem_of_lookup. exists i. by rewrite list_lookup_imap, E. }
  exists (slice 23 43 w), (slice 55 75 w), (slice 88 108 w). unfold validity_block.
  assert (slice 0 23 w = VALIDITY_OPEN) as <-.
  { apply (literal_slice w VALIDITY_OPEN 0). intros i b E. apply HL, elem_of_app. left. exact (Hin _ _ _ E 0). }
  assert (slice 43 55 w = VALIDITY_MID_FROM) as <-.
  { apply (literal_slice w VALIDITY_MID_FROM 43). intros i b E. apply HL, elem_of_app. right. apply elem_of_app. left. exact (Hin _ _ _ E 43). }
  assert (slice 75 88 w = VALIDITY_MID_UNTIL) as <-.
  { apply (literal_slice w VALIDITY_MID_UNTIL 75). intros i b E. apply HL, elem_of_app. right. apply elem_of_app. right. exact (Hin _ _ _ E 75). }
  split_and!; try (rewrite length_slice; unfold TIMESTAMP_LEN; lia); try reflexivity.
  rewrite !slice_app by lia. unfold slice. by rewrite drop_0, take_ge by lia.
Qed.

Lemma gadget_bind_validity bits msg native at_ :
  bits_are D bits (msg ≫= Prelude.byte_bits) → length native = length msg → (Z.of_nat (length msg) < 2 ^ 63)%Z →
  at_ + VALIDITY_WINDOW_LEN ≤ length msg →
  gadget σ (bind_validity bits native at_) (λ '(from_nums, until_nums), ∃ o signed from until,
    o + MAX_ANCHOR_WINDOW ≤ length msg ∧ window_bytes msg o VALIDITY_WINDOW_LEN = validity_block signed from until ∧
    length signed = TIMESTAMP_LEN ∧ length from = TIMESTAMP_LEN ∧ length until = TIMESTAMP_LEN ∧
    bytes_of_nums from_nums from ∧ bytes_of_nums until_nums until).
Proof.
  intros HB Hl Hm Ha. unfold bind_validity.
  assert (checked_usize (Z.of_nat at_ + Z.of_nat VALIDITY_WINDOW_LEN) = Some (at_ + VALIDITY_WINDOW_LEN)) as ->.
  { unfold checked_usize. rewrite (proj2 (Z.ltb_lt _ _)) by lia. f_equal. lia. }
  rewrite (proj2 (Nat.ltb_ge _ _)) by lia.
  eapply gadget_bind; [apply gadget_ns; eapply gadget_select_at; try done; change MAX_ANCHOR_WINDOW with 48; change VALIDITY_WINDOW_LEN with 108 in Ha; lia|].
  intros window (o & Ho & _ & HP). set (w := window_bytes msg o VALIDITY_WINDOW_LEN) in *.
  assert (length w = VALIDITY_WINDOW_LEN) as Hw by apply length_window_bytes.
  eapply gadget_bind; [apply gadget_ns; rewrite <-Hw; by apply gadget_unpack_window_bits|]. intros wb HWB.
  eapply gadget_bind; [apply (gadget_mapM_Forall2 σ _ _ (λ '(i, b) _, w !! i = Some b))|].
  { intros [i e] Hin. assert (i < length w) as Li.
    { rewrite Hw. assert (Forall (λ x : nat * byte, x.1 < VALIDITY_WINDOW_LEN) validity_literals) as HF
        by (apply (bool_decide_unpack _); reflexivity).
      by apply (proj1 (list.Forall_forall _ _) HF (i, e)). }
    destruct (lookup_lt_is_Some_2 w i Li) as [b Eb]. eapply gadget_mono.
    { apply (gadget_mapM_Forall2 σ _ _ (λ j _, Z.testbit (b2z b) (Z.of_nat (7 - j)) = Z.testbit (b2z e) (Z.of_nat (7 - j)))).
      intros j Hj%elem_of_seq. destruct (gadget_bit_at _ _ _ j b HWB Eb) as (x & Ex & Hx); [lia|]. cbv zeta.
      eapply gadget_bind; [by apply gadget_index_nth|]. intros ? ->.
      eapply gadget_mono; [apply gadget_enforce|]. intros [] E. autorewrite with evals in E.
      unfold denotes, lval, bit in Hx. cbn [lc] in Hx. rewrite Hx in E. apply of_bool_inj.
      revert E. destruct (Z.testbit (b2z e) (Z.of_nat (7 - j))); cbn [of_bool]; intros E; by_rule E. }
    intros us HF. rewrite Eb. f_equal. apply byte_bits_inj. intros j Lj.
    destruct (Forall2_lookup_l _ _ _ j j HF) as (u & _ & E); [unfold range; by apply lookup_seq|exact E]. }
  intros us HL. destruct (validity_block_of w Hw) as (signed & from & until & Ew & L1 & L2 & L3 & Ef & Eu).
  { intros i b (k & Ek)%list_elem_of_lookup. destruct (Forall2_lookup_l _ _ _ _ _ HL Ek) as (u & _ & E). exact E. }
  eapply gadget_bind; [by apply (gadget_take_timestamp wb w); [|rewrite Hw; apply Nat.leb_le]|]. intros from_nums HFn. cbv beta in HFn.
  eapply gadget_bind; [by apply (gadget_take_timestamp wb w); [|rewrite Hw; apply Nat.leb_le]|]. intros until_nums HUn. cbv beta in HUn.
  apply gadget_ret. exists o, signed, from, until. subst from until. split_and!; assumption.
Qed.

(** * The walk *)
Lemma add_usize_ok a b : (Z.of_nat (a + b) < 2 ^ 64)%Z → add_usize a b = Ok (a + b).
Proof. intros Hb. unfold add_usize, checked_usize. rewrite <-Nat2Z.inj_add, (proj2 (Z.ltb_lt _ _)) by done. by rewrite Nat2Z.id. Qed.

(** A rule that a set selector switches on. *)
Lemma gadget_switched name sel lc v x :
  σ sel = of_bool v → eval σ lc = x →
  gadget σ (enforce name (lc_add_var lc_zero sel) lc lc_zero) (λ _, v = true → x = ZERO).
Proof.
  intros Hs Hx. eapply gadget_mono; [apply gadget_enforce|]. intros [] E ->. autorewrite with evals in E.
  rewrite Hs, Hx in E. cbn [of_bool] in E. by_rule E.
Qed.

Lemma gadget_head_byte name hb h sel v i b e :
  bits_are D hb (h ≫= Prelude.byte_bits) → h !! i = Some b → σ sel = of_bool v → (0 ≤ e < 256)%Z →
  gadget σ (b ← lift (byte_lc hb i ONE);
      enforce name (lc_add_var lc_zero sel) (lc_sub_term (lc_add lc_zero b) (from_u64 e, one)) lc_zero)
    (λ _, v = true → b2z b = e).
Proof.
  intros HB Hi Hs He. destruct (byte_lc_value hb h i b 1 HB Hi) as (lc & El & V). rewrite of_int_1 in El. rewrite El. cbn [lift].
  eapply gadget_bind; [by apply (gadget_ret σ lc (λ x, x = lc))|]. intros ? ->.
  eapply gadget_mono; [by apply (gadget_switched _ _ _ v _ Hs eq_refl)|]. intros [] E Hv. specialize (E Hv). autorewrite with evals in E.
  rewrite V, from_u64_of_int in E by lia. pose proof (b2z_range b).
  apply of_int_inj; [split; [lia|]; eapply Z.lt_trans; [|apply (lt_pow_p 8); lia]; lia..|].
  rewrite Z.mul_1_l in E. by_rule E.
Qed.

Lemma short_argument b :
  Z.testbit (b2z b) 7 = false → Z.testbit (b2z b) 6 = false → Z.testbit (b2z b) 5 = false →
  Z.testbit (b2z b) 4 && Z.testbit (b2z b) 3 = false → (b2z b < 24)%Z.
Proof. by destruct b. Qed.

Lemma gadget_width_rules hb h sel v w e :
  bits_are D hb (h ≫= Prelude.byte_bits) → length h = ENTRY_HEAD_WINDOW → σ sel = of_bool v → (w, e) ∈ DIGEST_ID_WIDTHS →
  gadget σ (width_rules hb sel w e) (λ _, v = true → head_is h w e).
Proof.
  intros HB Hl Hs Hin. unfold ENTRY_HEAD_WINDOW in Hl.
  assert (w + 1 < 7 ∧ (e = None ∨ ∃ z, e = Some z ∧ (0 ≤ z < 256)%Z)) as [Hw He].
  { unfold DIGEST_ID_WIDTHS in Hin. rewrite !elem_of_cons, elem_of_nil in Hin.
    destruct Hin as [[= -> ->]|[[= -> ->]|[[= -> ->]|[[= -> ->]|[]]]]]; split; eauto with lia. }
  destruct (lookup_lt_is_Some_2 h 0) as [b0 E0]; [lia|].
  unfold width_rules. eapply gadget_bind; [instantiate (1 := λ _, v = true → match e with None => (b2z b0 < 24)%Z | Some e => b2z b0 = e end)|].
  { destruct He as [->|(z & -> & Hz)]; [|by apply (gadget_head_byte _ _ h _ _ 0)].
    eapply gadget_bind; [apply (gadget_mapM_Forall2 σ _ _ (λ j _, v = true → Z.testbit (b2z b0) (Z.of_nat (7 - j)) = false))|].
    { intros j Hj. assert (j < 8) as Lj by (rewrite !elem_of_cons, elem_of_nil in Hj; lia).
      destruct (gadget_bit_at _ _ _ j b0 HB E0 Lj) as (x & Ex & Hx). cbn [Nat.mul Nat.add] in Ex.
      eapply gadget_bind; [by apply gadget_index_nth|]. intros ? ->.
      eapply gadget_mono; [by apply (gadget_switched _ _ _ v _ Hs eq_refl)|]. intros [] E Hv. specialize (E Hv). autorewrite with evals in E.
      unfold denotes, lval, bit in Hx. cbn [lc] in Hx. rewrite Hx in E. apply of_bool_inj. cbn [of_bool]. by_rule E. }
    intros us HF.
    destruct (gadget_bit_at _ _ _ 3 b0 HB E0) as (x3 & Ex3 & Hx3); [lia|]. destruct (gadget_bit_at _ _ _ 4 b0 HB E0) as (x4 & Ex4 & Hx4); [lia|].
    eapply gadget_bind; [by apply gadget_index_nth|]. intros ? ->. eapply gadget_bind; [by apply gadget_index_nth|]. intros ? ->.
    eapply gadget_bind; [apply gadget_ns; by apply (Boolean_and_rules σ _ _ _ _ Hx3 Hx4)|]. intros both Hboth. cbv beta in Hboth.
    eapply gadget_mono; [by apply (gadget_switched _ _ _ v _ Hs eq_refl)|]. intros [] E Hv. specialize (E Hv). autorewrite with evals in E.
    unfold denotes, lval, bit in Hboth. cbn [lc] in Hboth. rewrite Hboth in E.
    assert (∀ j, j ∈ [0; 1; 2] → Z.testbit (b2z b0) (Z.of_nat (7 - j)) = false) as Hz.
    { intros j (k & Ek)%list_elem_of_lookup. by destruct (Forall2_lookup_l _ _ _ _ _ HF Ek) as (u & _ & ->). }
    apply short_argument; [apply (Hz 0); by left|apply (Hz 1); right; by left|apply (Hz 2); do 2 right; by left|].
    apply of_bool_inj. cbn [of_bool]. change (Z.of_nat (7 - 3)) with 4%Z in E. change (Z.of_nat (7 - 4)) with 3%Z in E. by_rule E. }
  intros ? Hhead. cbv beta in Hhead.
  destruct (lookup_lt_is_Some_2 h w) as [b1 E1]; [lia|]. destruct (lookup_lt_is_Some_2 h (w + 1)) as [b2 E2]; [lia|].
  eapply gadget_bind; [apply (gadget_mapM_Forall2 σ _ _ (λ '(rel, x) _, v = true → ∃ b, h !! (w + rel) = Some b ∧ b2z b = x))|].
  { intros [rel x] Hr. rewrite !elem_of_cons, elem_of_nil in Hr.
    assert (∃ b, h !! (w + rel) = Some b) as [b Eb]
      by (destruct Hr as [[= -> ->]|[[= -> ->]|[]]]; [exists b1; by rewrite Nat.add_0_r|by exists b2]).
    eapply gadget_mono; [apply (gadget_head_byte _ _ h _ v _ b x HB Eb Hs); destruct Hr as [[= -> ->]|[[= -> ->]|[]]]; lia|].
    intros [] E Hv. exists b. split; [done|by apply E]. }
  intros us HF. apply gadget_ret. intros Hv. split; [exists b0; split; [done|by apply Hhead]|].
  destruct (Forall2_lookup_l _ _ _ 0 _ HF eq_refl) as (u1 & _ & R1). destruct (Forall2_lookup_l _ _ _ 1 _ HF eq_refl) as (u2 & _ & R2).
  destruct (R1 Hv) as (c1 & F1 & V1), (R2 Hv) as (c2 & F2 & V2). rewrite Nat.add_0_r in F1.
  split; [rewrite F1|rewrite F2]; f_equal; by apply b2z_inj.
Qed.

Lemma gadget_walk_entry bits msg native num sel size k i here h hn :
  bits_are D bits (msg ≫= Prelude.byte_bits) → length native = length msg → (Z.of_nat (length msg) < 2 ^ 63)%Z →
  ENTRY_HEAD_WINDOW ≤ length msg → selects_length σ sel size k → eval σ here = of_int (Z.of_nat h) → (Z.of_nat h < 2 ^ 64)%Z →
  (Z.of_nat (hn + ENTRY_HEAD_WINDOW) < 2 ^ 64)%Z →
  (i < num → ∃ w, digest_id_width native hn = Ok w ∧ (Z.of_nat (hn + (w + DIGEST_VALUE_LEN)) < 2 ^ 64)%Z) →
  gadget σ (walk_entry bits native num sel i here hn) (λ '(here', hn'),
    (if decide (i < k + 1) then ∃ w, entry_width msg h = Some w ∧ eval σ here' = of_int (Z.of_nat (h + w + DIGEST_VALUE_LEN))
     else eval σ here' = of_int (Z.of_nat h)) ∧
    (if decide (i < num) then ∃ w, digest_id_width native hn = Ok w ∧ hn' = hn + (w + DIGEST_VALUE_LEN) else hn' = hn)).
Proof.
  intros HB Hl Hm Hlen Hsel Vh Bh Bhn Hn. unfold walk_entry. cbv zeta.
  pose proof (eval_active sel size k i Hsel) as Vlive. set (live := foldl _ lc_zero (imap (λ i b, (i, b)) sel)) in *.
  eapply gadget_bind; [by apply gadget_lift, add_usize_ok|]. intros ? ->.
  eapply gadget_bind; [apply gadget_ns; eapply gadget_select_at; try done; rewrite Hl; destruct (Nat.leb_spec (hn + ENTRY_HEAD_WINDOW) (length msg)); lia|].
  intros head (o & Ho & Vo & HP). rewrite window_bytes_slice in HP by lia.
  set (hd := slice o (o + ENTRY_HEAD_WINDOW) msg) in *.
  assert (length hd = ENTRY_HEAD_WINDOW) as Lhd by (unfold hd; rewrite length_slice; lia).
  rule_as E1. rewrite Vo, Vh, Vlive in E1.
  eapply gadget_bind; [apply gadget_ns; rewrite <-Lhd; by apply gadget_unpack_window_bits|]. intros hb Hhb.
  eapply gadget_bind; [instantiate (1 := λ rw, if decide (i < num) then digest_id_width native hn = Ok rw else rw = 0)|].
  { destruct (decide (i < num)) as [L|L]; [rewrite (proj2 (Nat.ltb_lt _ _) L)|rewrite (proj2 (Nat.ltb_ge _ _)) by lia].
    - destruct (Hn L) as (w & Ew & _). rewrite Ew. cbn [lift]. by apply gadget_ret.
    - by apply gadget_ret. }
  intros rw Hrw. cbv beta in Hrw.
  eapply gadget_bind.
  { apply (gadget_mapM_Forall2 σ _ _ (λ _ b, ∃ v, bbit σ b v)). intros [w e] _. apply gadget_ns, gadget_AllocatedBit_alloc. }
  intros ws HW. cbv beta in HW.
  apply Forall2_cons_inv_l in HW as (s0 & ? & (v0 & Hs0) & HW & ->).
  apply Forall2_cons_inv_l in HW as (s1 & ? & (v1 & Hs1) & HW & ->).
  apply Forall2_cons_inv_l in HW as (s2 & ? & (v2 & Hs2) & HW & ->).
  apply Forall2_cons_inv_l in HW as (s3 & ? & (v3 & Hs3) & HW & ->).
  apply Forall2_nil_inv_l in HW as ->.
  rule_as E2. rewrite Vlive in E2. cbn [foldl] in E2. autorewrite with evals in E2.
  unfold bbit in Hs0, Hs1, Hs2, Hs3. rewrite Hs0, Hs1, Hs2, Hs3 in E2.
  eapply gadget_bind.
  { apply (gadget_mapM_Forall2 σ _ _ (λ '(sl, (w, e)) _, ∀ v, σ (bit_get_variable sl) = of_bool v → v = true → head_is hd w e)).
    intros [sl [w e]] Hin. assert ((w, e) ∈ DIGEST_ID_WIDTHS ∧ ∃ v, σ (bit_get_variable sl) = of_bool v) as [Hin' [v' Hv']].
    { unfold DIGEST_ID_WIDTHS in *. cbn [zip_with] in Hin. rewrite !elem_of_cons, elem_of_nil in Hin.
      destruct Hin as [[= -> -> ->]|[[= -> -> ->]|[[= -> -> ->]|[[= -> -> ->]|[]]]]]; (split; [by repeat first [left|right]|by eexists]). }
    eapply gadget_mono; [by apply (gadget_width_rules hb hd _ v')|]. intros [] HH v Hv Et. apply HH.
    rewrite Hv' in Hv. apply of_bool_inj in Hv. congruence. }
  intros us HU. cbv zeta.
  eapply gadget_bind; [instantiate (1 := λ hn', if decide (i < num) then ∃ w, digest_id_width native hn = Ok w ∧ hn' = hn + (w + DIGEST_VALUE_LEN) else hn' = hn)|].
  { destruct (decide (i < num)) as [L|L]; [rewrite (proj2 (Nat.ltb_lt _ _) L)|rewrite (proj2 (Nat.ltb_ge _ _)) by lia].
    - destruct (Hn L) as (w & Ew & Bw). rewrite Hrw in Ew. injection Ew as ->.
      rewrite add_usize_ok by done. cbn [lift]. apply gadget_ret. by exists w.
    - by apply gadget_ret. }
  intros hn' Hhn'. apply gadget_ret. split; [|exact Hhn'].
  assert (Z.b2z v0 + Z.b2z v1 + Z.b2z v2 + Z.b2z v3 = Z.b2z (i <? k + 1)%nat)%Z as Hsum.
  { assert (4 < p)%Z as Hp by (apply (lt_pow_p 2); lia).
    apply of_int_inj; [split; [destruct v0, v1, v2, v3|eapply Z.le_lt_trans; [|exact Hp]; destruct v0, v1, v2, v3]; cbn; lia
      |destruct (i <? k + 1)%nat; cbn; lia|].
    rewrite !of_int_add, <-!of_bool_of_int. by_rule E2. }
  set (step := foldl _ lc_zero (zip_with pair _ DIGEST_ID_WIDTHS)).
  assert (eval σ step = of_int (Z.b2z v0 * 35 + Z.b2z v1 * 36 + Z.b2z v2 * 37 + Z.b2z v3 * 39)) as Vstep.
  { unfold step. cbn [foldl zip_with DIGEST_ID_WIDTHS]. rewrite !from_u64_of_int by (unfold DIGEST_VALUE_LEN; lia). autorewrite with evals.
    rewrite Hs0, Hs1, Hs2, Hs3, !of_bool_of_int, !of_int_add, !of_int_mul. change (Z.of_nat (1 + DIGEST_VALUE_LEN)) with 35%Z.
    change (Z.of_nat (2 + DIGEST_VALUE_LEN)) with 36%Z. change (Z.of_nat (3 + DIGEST_VALUE_LEN)) with 37%Z.
    change (Z.of_nat (5 + DIGEST_VALUE_LEN)) with 39%Z. ring. }
  clearbody step. rewrite eval_add, Vh, Vstep, <-of_int_add.
  destruct (Nat.ltb_spec i (k + 1)) as [L|L]; cbn [of_bool Z.b2z] in *.
  - rewrite decide_True by done. assert (o = h) as ->.
    { apply Nat2Z.inj, of_int_inj; [| |by_rule E1]; (split; [lia|]; eapply Z.lt_trans; [|apply (lt_pow_p 64)]; lia). }
    assert (∀ j sl w e v, zip [s0; s1; s2; s3] DIGEST_ID_WIDTHS !! j = Some (sl, (w, e)) → DIGEST_ID_WIDTHS !! j = Some (w, e) →
      σ (bit_get_variable sl) = of_bool v → v = true → entry_width msg h = Some w) as Hj.
    { intros j sl w e v Ej Ew Hv Et. destruct (Forall2_lookup_l _ _ _ _ _ HU Ej) as (u & _ & R).
      apply (head_entry_width msg h w e Ho); [by eapply list_elem_of_lookup_2|]. by apply (R v). }
    destruct v0, v1, v2, v3; cbn in Hsum; try lia.
    + exists 1. split; [by apply (Hj 0 s0 1 None true)|]. f_equal. unfold DIGEST_VALUE_LEN. cbn [Z.b2z]. lia.
    + exists 2. split; [by apply (Hj 1 s1 2 (Some 0x18%Z) true)|]. f_equal. unfold DIGEST_VALUE_LEN. cbn [Z.b2z]. lia.
    + exists 3. split; [by apply (Hj 2 s2 3 (Some 0x19%Z) true)|]. f_equal. unfold DIGEST_VALUE_LEN. cbn [Z.b2z]. lia.
    + exists 5. split; [by apply (Hj 3 s3 5 (Some 0x1a%Z) true)|]. f_equal. unfold DIGEST_VALUE_LEN. cbn [Z.b2z]. lia.
  - rewrite decide_False by lia. f_equal. destruct v0, v1, v2, v3; cbn in Hsum |- *; lia.
Qed.

(** The walk ends where the published number of entries end. *)
Lemma gadget_walk bits msg native region_start rs rs_native num e :
  bits_are D bits (msg ≫= Prelude.byte_bits) → length native = length msg → (Z.of_nat (length msg) < 2 ^ 63)%Z →
  ENTRY_HEAD_WINDOW ≤ length msg → eval σ region_start = of_int (Z.of_nat rs) → (Z.of_nat rs < 2 ^ 63 + 2 ^ 32)%Z →
  0 < num ≤ MAX_NAMESPACE_ENTRIES → native_region_end native rs_native num = Ok e → e ≤ length native →
  gadget σ (walk_namespace_entries bits native region_start rs_native num) (λ '(here, entries), ∃ n end_,
    0 < n ≤ MAX_NAMESPACE_ENTRIES ∧ nval σ entries = of_int (Z.of_nat n) ∧
    entries_end msg n rs = Some end_ ∧ eval σ here = of_int (Z.of_nat end_)).
Proof.
  intros HB Hl Hm Hlen Vrs Brs Hnum Hend He. unfold walk_namespace_entries.
  rewrite (proj2 (Nat.eqb_neq _ _)), (proj2 (Nat.ltb_ge _ _)) by lia. cbn [orb].
  eapply gadget_bind; [apply gadget_length_selector|]. intros sel (vs & HS & Hvs). cbv zeta.
  rule_as E1. destruct (one_slot σ sel vs HS) as (k & Hsel).
  { rewrite Hvs. eapply Z.lt_trans; [|apply (lt_pow_p 63); lia]. done. }
  { by_rule E1. }
  rewrite Hvs in Hsel. pose proof Hsel as [Hk _]. eapply gadget_bind; [apply gadget_ns, gadget_AllocatedNum_alloc|]. intros entries _.
  rule_as E2. rewrite (eval_selected_number _ _ _ Hsel) in E2 by done.
  eapply gadget_bind.
  { apply (gadget_foldM σ _ _ _ (λ done '(here, hn), ∃ h, entries_end msg (length done `min` (k + 1)) rs = Some h ∧
      eval σ here = of_int (Z.of_nat h) ∧ native_region_end native rs_native (length done `min` num) = Ok hn)).
    - by exists rs.
    - intros done i [here hn] Hpre (h & Eh & Vh & En). apply prefix_snoc_lookup in Hpre as [Hi _]. apply lookup_seq in Hi as [-> Li].
      cbn [Nat.add] in *. set (i := length done) in *. rewrite length_app. cbn [length]. fold i.
      destruct (native_region_end_prefix _ _ _ (i `min` num) _ Hend) as (x & Ex & Hx); [lia|]. rewrite En in Ex. injection Ex as <-.
      pose proof (entries_end_bound _ _ _ _ Eh) as Bh. unfold MAX_NAMESPACE_ENTRIES in *.
      assert (i < num → ∃ w hn', digest_id_width native hn = Ok w ∧ hn' = hn + (w + DIGEST_VALUE_LEN) ∧ hn' ≤ e ∧
        native_region_end native rs_native (S i) = Ok hn') as Hlive.
      { intros L. destruct (native_region_end_prefix _ _ _ (S i) _ Hend) as (y & Ey & Hy); [lia|].
        destruct (native_region_end_S _ _ _ _ Ey) as (x & w & E' & Ew & Ec). replace (i `min` num) with i in En by lia.
        rewrite En in E'. injection E' as <-. apply checked_usize_Some in Ec. exists w, y. by subst. }
      eapply gadget_mono.
      { apply gadget_ns, (gadget_walk_entry bits msg native num sel 64 k i here h hn); try done; [lia|unfold ENTRY_HEAD_WINDOW; lia|].
        intros L. destruct (Hlive L) as (w & hn' & Ew & -> & Hy & _). exists w. split; [done|lia]. }
      intros [here' hn'] [Hspec Hnat]. destruct (decide (i < k + 1)) as [L|L].
      + destruct Hspec as (w & Ew & V). replace (i `min` (k + 1)) with i in Eh by lia. exists (h + w + DIGEST_VALUE_LEN). split_and!; [|done|].
        * replace ((i + 1) `min` (k + 1)) with (S i) by lia. by apply entries_end_S.
        * destruct (decide (i < num)) as [L'|L'].
          -- destruct Hnat as (w' & Ew' & ->), (Hlive L') as (w'' & hn'' & Ew'' & -> & _ & E'). rewrite Ew' in Ew''. injection Ew'' as ->.
             by replace ((i + 1) `min` num) with (S i) by lia.
          -- subst hn'. by replace ((i + 1) `min` num) with (i `min` num) by lia.
      + exists h. split_and!; [by replace ((i + 1) `min` (k + 1)) with (i `min` (k + 1)) by lia|done|].
        destruct (decide (i < num)) as [L'|L'].
        * destruct Hnat as (w' & Ew' & ->), (Hlive L') as (w'' & hn'' & Ew'' & -> & _ & E'). rewrite Ew' in Ew''. injection Ew'' as ->.
          by replace ((i + 1) `min` num) with (S i) by lia.
        * subst hn'. by replace ((i + 1) `min` num) with (i `min` num) by lia. }
  intros [here hn] (h & Eh & Vh & _). apply gadget_ret. unfold range in Eh. rewrite length_seq in Eh.
  replace (MAX_NAMESPACE_ENTRIES `min` (k + 1)) with (k + 1) in Eh by lia. exists (k + 1), h. split_and!; [lia|lia| |done|done].
  by_rule E2.
Qed.

(** * The digest region *)

(** A text that the witness points at, with room for a window. *)
Definition found (native : list byte) (at_ : nat) (text : list byte) : Prop :=
  slice at_ (at_ + length text) native = text ∧ length text ≤ ANCHOR_TEXT_WINDOW ∧
  at_ + MAX_ANCHOR_WINDOW ≤ length native.

(** What the code checks of a witness before and while it adds the rules. *)
Record region_checks (native : list byte) (shape : CredentialShape) (lm : Landmarks) : Prop := {
  rc_table : value_digests_key lm + MAX_ANCHOR_WINDOW ≤ length native;
  rc_namespace : ∃ h, tstr_header (length (shape_namespace shape)) = Ok h ∧
    found native (namespace_key lm) (h ++ shape_namespace shape ++ map_header (shape_num_entries shape));
  rc_order : value_digests_key lm + (length VALUE_DIGESTS_OPEN_KEY + 1) ≤ namespace_key lm;
  rc_entries : 0 < shape_num_entries shape ≤ MAX_NAMESPACE_ENTRIES;
  rc_region : region_start lm < device_key_info lm;
  rc_end : ∃ e, native_region_end native (region_start lm) (shape_num_entries shape) = Ok e ∧ e ≤ device_key_info lm;
  rc_device_key : device_key_info lm + DEVICE_KEY_Y_DELTA + MAX_ANCHOR_WINDOW ≤ length native;
  rc_doc_type : ∃ h, tstr_header (length (shape_doc_type shape)) = Ok h ∧
    found native (doc_type_key lm) (DOC_TYPE_KEY ++ h ++ shape_doc_type shape);
}.

Lemma window_end_ok at_ len n : (Z.of_nat n < 2 ^ 63)%Z → at_ + len ≤ n → window_end at_ len n = Ok (at_ + len).
Proof.
  intros Hn Ha. unfold window_end, checked_usize. rewrite (proj2 (Z.ltb_lt _ _)) by lia.
  rewrite <-Nat2Z.inj_add, Nat2Z.id. by rewrite (proj2 (Nat.leb_le _ _)).
Qed.

Lemma checked_usize_ok a b : (Z.of_nat (a + b) < 2 ^ 64)%Z → checked_usize (Z.of_nat a + Z.of_nat b) = Some (a + b).
Proof. intros Hb. unfold checked_usize. rewrite <-Nat2Z.inj_add, (proj2 (Z.ltb_lt _ _)) by done. by rewrite Nat2Z.id. Qed.

(** A window of text, masked past the published length. *)
Definition text_read (msg : list byte) (packs : list AllocatedNum) (o n : nat) : Prop :=
  o + MAX_ANCHOR_WINDOW ≤ length msg ∧ 0 < n ≤ ANCHOR_TEXT_WINDOW ∧
  packs_are packs (zero_past (slice o (o + ANCHOR_TEXT_WINDOW) msg) n).

Section Region.
Context (bits : list Boolean) (msg native : list byte).
Hypothesis (HB : bits_are D bits (msg ≫= Prelude.byte_bits)) (Hl : length native = length msg).
Hypothesis (Hm : (Z.of_nat (length msg) < 2 ^ 63)%Z).

(** The two selections of a namespace's header: nothing says that they select
    the same place. *)
Lemma gadget_bind_namespace shape lm :
  region_checks native shape lm →
  gadget σ (bind_namespace bits native shape lm) (λ '(start, (packs, prefix)), ∃ s o n,
    s + MAX_ANCHOR_WINDOW ≤ length msg ∧ eval σ start = of_int (Z.of_nat s) ∧
    nval σ prefix = of_int (Z.of_nat n) ∧ text_read msg packs o n).
Proof.
  intros HC. destruct (rc_namespace _ _ _ HC) as (h & Eh & Hs & Hn & Ha). unfold bind_namespace.
  eapply gadget_bind; [by apply gadget_lift|]. intros ? ->. cbv zeta. set (text := h ++ _) in *.
  rewrite (proj2 (Nat.ltb_ge _ _)) by done.
  assert (0 < length text) as Hpos.
  { unfold text, map_header. rewrite !length_app. destruct (_ <? _)%nat; cbn [length]; lia. }
  unfold MAX_ANCHOR_WINDOW, ANCHOR_TEXT_WINDOW in *.
  eapply gadget_bind; [apply gadget_lift, window_end_ok; lia|]. intros _ _.
  eapply gadget_bind; [apply gadget_lift, window_end_ok; lia|]. intros ? ->.
  rewrite bool_decide_eq_true_2 by done. cbn [negb].
  eapply gadget_bind; [apply gadget_ns; eapply gadget_select_at; try done; unfold MAX_ANCHOR_WINDOW; lia|].
  intros w (s & Hs' & V & _). eapply gadget_bind; [apply gadget_ns; apply (gadget_masked_text _ msg); try done; unfold MAX_ANCHOR_WINDOW, ANCHOR_TEXT_WINDOW; lia|].
  intros [packs prefix] (o & n & Ho & Hn' & E & HP). apply gadget_ret. by exists s, o, n.
Qed.

Lemma gadget_bind_doc_type shape lm :
  region_checks native shape lm →
  gadget σ (bind_doc_type bits native shape lm) (λ packs, ∃ o n, text_read msg packs o n).
Proof.
  intros HC. destruct (rc_doc_type _ _ _ HC) as (h & Eh & Hs & Hn & Ha). unfold bind_doc_type.
  eapply gadget_bind; [by apply gadget_lift|]. intros ? ->. cbv zeta. set (text := DOC_TYPE_KEY ++ _) in *.
  rewrite (proj2 (Nat.ltb_ge _ _)) by done.
  assert (0 < length text) as Hpos by (unfold text; rewrite length_app; cbn; lia).
  unfold MAX_ANCHOR_WINDOW, ANCHOR_TEXT_WINDOW in *.
  eapply gadget_bind; [apply gadget_lift, window_end_ok; lia|]. intros _ _.
  eapply gadget_bind; [apply gadget_lift, window_end_ok; lia|]. intros ? ->.
  rewrite bool_decide_eq_true_2 by done. cbn [negb].
  eapply gadget_bind; [apply gadget_ns; apply (gadget_masked_text _ msg); try done; unfold MAX_ANCHOR_WINDOW, ANCHOR_TEXT_WINDOW; lia|].
  intros [packs prefix] (o & n & Ho & Hn' & E & HP). apply gadget_ret. by exists o, n.
Qed.

Lemma gadget_bind_coordinate at_ anchor label delta d :
  at_ + delta + MAX_ANCHOR_WINDOW ≤ length native → eval σ anchor = of_int (Z.of_nat d) → d ≤ length msg → delta ≤ length msg →
  gadget σ (bind_coordinate bits native at_ anchor label delta) (λ c, d + delta + MAX_ANCHOR_WINDOW ≤ length msg ∧
    nval σ c = of_int (coordinate_at msg (d + delta))).
Proof.
  intros Ha Vd Hd Hdelta. unfold bind_coordinate, MAX_ANCHOR_WINDOW in *. eapply gadget_bind.
  { apply gadget_lift. rewrite checked_usize_ok by lia. reflexivity. }
  intros ? ->. eapply gadget_bind; [apply gadget_lift, window_end_ok; lia|]. intros _ _.
  eapply gadget_bind; [apply gadget_ns; eapply gadget_select_at; try done; unfold MAX_ANCHOR_WINDOW; lia|].
  intros w (o & Ho & V & HP). unfold MAX_ANCHOR_WINDOW in Ho. rule_as E. rewrite V, Vd, from_u64_of_int in E by lia.
  assert (o = d + delta) as ->.
  { apply Nat2Z.inj, of_int_inj; [| |rewrite Nat2Z.inj_add, of_int_add; by_rule E];
      (split; [lia|]; eapply Z.lt_trans; [|apply (lt_pow_p 65)]; lia). }
  rewrite window_bytes_slice in HP by lia. set (v := slice (d + delta) (d + delta + 32) msg) in *.
  assert (length v = 32) as Lv by (unfold v; rewrite length_slice; lia).
  unfold packs_are in HP. rewrite Lv in HP. change (range (div_ceil 32 16)) with [0; 1] in HP.
  destruct (packs w) as [|p0 [|p1 [|]]]; try (by apply Forall2_length in HP).
  apply Forall2_cons_1 in HP as [H0' HP]. apply Forall2_cons_1 in HP as [H1' _]. cbv zeta.
  eapply gadget_bind; [by apply gadget_index_nth|]. intros ? ->. eapply gadget_bind; [by apply gadget_index_nth|]. intros ? ->.
  eapply gadget_bind; [apply gadget_ns, gadget_AllocatedNum_alloc|]. intros c _. rule_as E3. apply gadget_ret. split; [lia|].
  rewrite H0', H1' in E3. rewrite <-of_int_1, byte_shifts_int, Z.mul_1_l in E3.
  unfold coordinate_at. fold v. rewrite <-(take_drop 16 v), be_int_app, length_drop, Lv, of_int_add, of_int_mul.
  assert (pack_of v 0 = take 16 v) as E0 by done.
  assert (pack_of v 1 = drop 16 v) as E1'.
  { unfold pack_of, slice. cbn [Nat.mul Nat.add Nat.sub]. apply take_ge. rewrite length_drop. lia. }
  rewrite E0, E1' in E3. change (32 - 16) with 16. by_rule E3.
Qed.

(** What the region's values are of the places. *)
Definition region_values (r : RegionBinding) (ra : RegionAt) : Prop :=
  eval σ (rb_region_start r) = of_int (Z.of_nat (at_start ra + at_prefix ra)) ∧
  eval σ (rb_region_end r) = of_int (Z.of_nat (at_end ra)) ∧
  nval σ (rb_namespace_prefix_len r) = of_int (Z.of_nat (at_prefix ra)) ∧
  nval σ (rb_num_entries r) = of_int (Z.of_nat (at_count ra)) ∧
  text_read msg (rb_namespace r) (at_namespace ra) (at_prefix ra) ∧
  (∃ n, text_read msg (rb_doc_type r) (at_doc_type ra) n) ∧
  nval σ (rb_device_key r).1 = of_int (coordinate_at msg (at_device ra + DEVICE_KEY_X_DELTA)) ∧
  nval σ (rb_device_key r).2 = of_int (coordinate_at msg (at_device ra + DEVICE_KEY_Y_DELTA)).

Lemma gadget_bind_digest_region shape lm :
  region_checks native shape lm → gadget σ (bind_digest_region bits native shape lm) (λ r, ∃ ra, region_at msg ra ∧ region_values r ra).
Proof.
  intros HC. pose proof (rc_table _ _ _ HC) as Ht. pose proof (rc_order _ _ _ HC) as Hord. pose proof (rc_entries _ _ _ HC) as Hn.
  pose proof (rc_region _ _ _ HC) as Hreg. destruct (rc_end _ _ _ HC) as (e_n & Een & He). pose proof (rc_device_key _ _ _ HC) as Hdk.
  change (length VALUE_DIGESTS_OPEN_KEY) with 13 in *.
  unfold bind_digest_region. cbv zeta. change (length VALUE_DIGESTS_OPEN_KEY + 1) with 14.
  unfold MAX_NAMESPACE_ENTRIES in *. rewrite (proj2 (Nat.leb_gt _ _)) by lia. 
  assert (MAX_ANCHOR_WINDOW ≤ length msg) as H48 by lia.
  eapply gadget_bind; [apply gadget_ns; eapply gadget_select_anchor; try done; [lia|apply Nat.leb_le; reflexivity]|].
  intros tw (t & Ht' & Vt & Et). eapply gadget_bind; [by apply gadget_bind_namespace|].
  intros [start [ns_packs prefix]] (s & o & n_ns & Hs & Vs & Vn & HT). pose proof HT as (Ho & Hns & _).
  unfold MAX_ANCHOR_WINDOW in *. unfold ANCHOR_TEXT_WINDOW in Hns.
  eapply gadget_bind; [apply gadget_lift; rewrite checked_usize_ok by lia; reflexivity|]. intros ? ->.
  rewrite (proj2 (Nat.ltb_ge _ _)) by lia.
  eapply gadget_bind; [apply gadget_ns; apply (gadget_enforce_ge _ _ _ _ (Z.of_nat s) (Z.of_nat (t + 14)))|]; try lia; [done| |].
  { rewrite eval_add_term, Vt, eval_one, from_u64_of_int, Nat2Z.inj_add, of_int_add by lia. ring. }
  intros [] Hge1. cbv beta in Hge1.
  assert (DEVICE_KEY_Y_DELTA = 68) as EY by reflexivity. assert (DEVICE_KEY_X_DELTA = 33) as EX by reflexivity. rewrite EY in Hdk.
  eapply gadget_bind; [apply gadget_ns; apply (gadget_select_anchor _ msg); try done; [unfold MAX_ANCHOR_WINDOW; lia|apply Nat.leb_le; reflexivity]|].
  intros dw (d & Hd & Vd & Ed). unfold MAX_ANCHOR_WINDOW in Hd.
  rewrite (proj2 (Nat.leb_gt _ _)) by lia.
  assert (eval σ (lc_add_var start (get_variable prefix)) = of_int (Z.of_nat (s + n_ns))) as Vstart.
  { rewrite eval_add_var, Vs, Nat2Z.inj_add, of_int_add. f_equal. exact Vn. }
  eapply gadget_bind; [apply gadget_ns; apply (gadget_walk bits msg native _ (s + n_ns) _ _ e_n); try done; [unfold ENTRY_HEAD_WINDOW|..]; lia|].
  intros [here entries] (n & e & Hn' & Ve & Eend & Vend). pose proof (entries_end_bound _ _ _ _ Eend) as Be. unfold MAX_NAMESPACE_ENTRIES in Hn'.
  eapply gadget_bind; [by apply gadget_lift|]. intros ? ->. rewrite (proj2 (Nat.ltb_ge _ _)) by lia.
  eapply gadget_bind; [apply gadget_ns; apply (gadget_enforce_ge _ _ _ _ (Z.of_nat d) (Z.of_nat e)); try done; lia|].
  intros [] Hge2. cbv beta in Hge2.
  eapply gadget_bind.
  { apply (gadget_mapM_Forall2 σ _ _ (λ '(_, delta) c, d + delta + 48 ≤ length msg ∧
      nval σ c = of_int (coordinate_at msg (d + delta)))).
    intros [label delta] Hin. rewrite !elem_of_cons, elem_of_nil in Hin.
    apply gadget_bind_coordinate; try done; unfold MAX_ANCHOR_WINDOW; destruct Hin as [[= -> ->]|[[= -> ->]|[]]]; lia. }
  intros coords HCo. apply Forall2_cons_inv_l in HCo as (x & ? & [_ Hx] & HCo & ->).
  apply Forall2_cons_inv_l in HCo as (y & ? & [Hy1 Hy] & HCo & ->). apply Forall2_nil_inv_l in HCo as ->.
  eapply gadget_bind; [by apply gadget_index_nth|]. intros ? ->. eapply gadget_bind; [by apply gadget_index_nth|]. intros ? ->.
  eapply gadget_bind; [by apply gadget_bind_doc_type|]. intros doc (o_doc & n_doc & Hdoc). apply gadget_ret.
  exists (mkRegionAt t s o n_ns n e d o_doc). unfold region_values, MAX_ANCHOR_WINDOW, MAX_NAMESPACE_ENTRIES in *.
  cbn [rb_region_start rb_region_end rb_doc_type rb_namespace rb_namespace_prefix_len rb_num_entries rb_device_key fst snd
    at_table at_start at_namespace at_prefix at_count at_end at_device at_doc_type].
  split; [split; cbn [at_table at_start at_namespace at_prefix at_count at_end at_device at_doc_type];
    change (length VALUE_DIGESTS_OPEN_KEY) with 13 in *; unfold MAX_NAMESPACE_ENTRIES, MAX_ANCHOR_WINDOW; done || lia|].
  split_and!; try done. by exists n_doc.
Qed.

(** C7: The digest region: whoever assigns the slots, the rules force places
    between the key of the digests' table and the device key, where as many
    entries as are published follow one another, and force the numbers
    returned to be those places, the published windows and the coordinates of
    the device key. *)
Theorem bind_digest_region_sound shape lm :
  region_checks native shape lm →
  gadget σ (bind_digest_region bits native shape lm) (λ r, ∃ ra, region_at msg ra ∧ region_values r ra).
Proof. apply gadget_bind_digest_region. Qed.
End Region.

(** C10: The validity window: whoever assigns the slots, the rules force a
    validity information inside the message, with the three dates at their
    places, and force the numbers returned to be the bytes of the second and
    the third. *)
Theorem bind_validity_sound bits msg native at_ :
  bits_are D bits (msg ≫= Prelude.byte_bits) → length native = length msg → (Z.of_nat (length msg) < 2 ^ 63)%Z →
  at_ + VALIDITY_WINDOW_LEN ≤ length msg →
  gadget σ (bind_validity bits native at_) (λ '(from_nums, until_nums), ∃ o signed from until,
    o + MAX_ANCHOR_WINDOW ≤ length msg ∧ window_bytes msg o VALIDITY_WINDOW_LEN = validity_block signed from until ∧
    length signed = TIMESTAMP_LEN ∧ length from = TIMESTAMP_LEN ∧ length until = TIMESTAMP_LEN ∧
    bytes_of_nums from_nums from ∧ bytes_of_nums until_nums until).
Proof. apply gadget_bind_validity. Qed.
End Rules.
