(* ===== verification/AgeDates.v ===== *)
(** [mdoc_age.rs], the parts of its rules: where the birth date is in an item,
    the rules that read it, and the comparison of two dates; with
    [bits_be_to_bignat] of [mdoc_core.rs], by which a digest becomes the number
    that a signature is over. *)
From Stdlib Require Import ZArith Lia Strings.String Strings.Byte Sorted.
From Stdlib Require Import Field_tac Ring.
From stdpp Require Import base list numbers option sorting strings pretty.
From S2P Require Import Prelude Bytes Field ConstraintSystem Shape CheckSystem Bellpepper Lc Bits Gadgets Select Limbs BigNat BigNatRules Ecdsa CborUint OneHotCursor DigestId Sha256Var Packing Sha256Mc AgeAcceptance OffsetBind OffsetRules.

(** What the comparison uses of [bellpepper_core]: negation, exclusive or, and
    the rule that two bits are equal. *)
Class BooleanLogic `{BooleanOps} := {
  Boolean_not : Boolean → Boolean;
  Boolean_xor : Boolean → Boolean → Synth Boolean;
  Boolean_enforce_equal : Boolean → Boolean → Synth unit;
  Boolean_not_denotes (σ : Assignment) b v :
    denotes σ (bit b) (of_bool v) → denotes σ (bit (Boolean_not b)) (of_bool (negb v));
  Boolean_xor_rules (σ : Assignment) a b v w :
    denotes σ (bit a) (of_bool v) → denotes σ (bit b) (of_bool w) →
    gadget σ (Boolean_xor a b) (λ c, denotes σ (bit c) (of_bool (xorb v w)));
  Boolean_enforce_equal_rules (σ : Assignment) a b v w :
    denotes σ (bit a) (of_bool v) → denotes σ (bit b) (of_bool w) →
    gadget σ (Boolean_enforce_equal a b) (λ _, v = w);
}.

(** * The layout of an item *)
Definition MIN_SALT_BYTES : nat := 16.
Definition MAX_SALT_BYTES : nat := 32.

(** [DIGEST_ID_WIDTHS] of [mdoc_age.rs]. *)
Definition ITEM_ID_WIDTHS : list nat := [1; 2; 3; 5]%nat.

(** The function [element_value_key_offset]. *)
Definition value_key_offset (salt_bytes digest_id_width : nat) : nat :=
  let salt_header := if (salt_bytes <? 24)%nat then 1%nat else 2%nat in
  (2 + 2 + 1 + 7 + salt_header + salt_bytes + 9 + digest_id_width)%nat.

Definition candidate_value_key_offsets : list nat :=
  dedup (merge_sort (≤) (seq MIN_SALT_BYTES (MAX_SALT_BYTES - MIN_SALT_BYTES + 1) ≫= λ s,
    value_key_offset s <$> ITEM_ID_WIDTHS)).

Definition IDENTIFIER_LITERAL : list byte := x71 :: bytes_of "elementIdentifier" ++ x6a :: bytes_of "birth_date".
Definition identifier_rel (e : DateEncoding) : nat := date_rel e + 10.
Definition item_len (e : DateEncoding) (value_key_offset : nat) : nat :=
  value_key_offset + identifier_rel e + length IDENTIFIER_LITERAL.
Definition DateEncoding_ALL : list DateEncoding := [Bare; PhotoIdMap].

#[export] Instance DateEncoding_eq_dec : EqDecision DateEncoding.
Proof. solve_decision. Defined.

(** The literals of an item, at their places after the key of its value. *)
Definition ELEMENT_VALUE_KEY : list byte := x6c :: bytes_of "elementValue".
Definition item_literals (enc : DateEncoding) : list (nat * byte) :=
  imap (λ i b, (i, b)) ELEMENT_VALUE_KEY ++
  imap (λ i b, (VALUE_KEY_LEN + i, b)%nat) (date_prefix enc) ++
  imap (λ i b, (identifier_rel enc + i, b)%nat) IDENTIFIER_LITERAL.

Definition date_candidates : list (nat * DateEncoding) :=
  candidate_value_key_offsets ≫= λ o, (λ e, (o, e)) <$> DateEncoding_ALL.

Section AgeDates.
Context `{BooleanLogic} `{!NumOps} `{!NonNative}.

(** The bits of bytes, each a new slot ([alloc_bits] of [mdoc_age.rs]). *)
Definition alloc_byte_bits (bytes : list byte) (tag : string) : Synth (list Boolean) :=
  mapM (λ '(i, b), x ← ns (tag +:+ " " +:+ pretty (i : nat)) (AllocatedBit_alloc (Some b)); mret (Boolean_from x))
    (imap (λ i b, (i, b)) (bytes ≫= Prelude.byte_bits)).

Definition extract_birth_date (item_bits : list Boolean) (item_bytes : list byte) (item_active : list Boolean)
    (value_key_offset : nat) (encoding : DateEncoding) : Synth (list AllocatedNum) :=
  match position_of (value_key_offset, encoding) date_candidates with
  | None => Fail' Unsatisfiable
  | Some real =>
      sel ← ns "elementValue offset and encoding" (alloc_one_hot (range (length date_candidates)) real);
      mapM (λ '(k, (base, enc)),
        let last := (base + identifier_rel enc + length IDENTIFIER_LITERAL - 1)%nat in
        s ← index sel k;
        a ← index item_active last;
        enforce ("cand " +:+ pretty (k : nat) +:+ " is covered by the hashed prefix")
          (lc_add lc_zero (Boolean_lc s one ONE))
          (lc_sub (lc_add_var lc_zero one) (Boolean_lc a one ONE)) lc_zero ;;
        mapM (λ '(rel, expect),
          s ← index sel k;
          b ← lift (byte_lc item_bits (base + rel) ONE);
          enforce ("cand " +:+ pretty k +:+ " literal at +" +:+ pretty (rel : nat))
            (lc_add lc_zero (Boolean_lc s one ONE))
            (lc_sub_term (lc_add lc_zero b) (from_u64 (b2z expect), one)) lc_zero) (item_literals enc))
        (imap (λ k c, (k, c)) date_candidates) ;;
      mapM (λ j,
        byte ← index item_bytes (value_key_offset + date_rel encoding + j);
        let value := from_u64 (b2z byte) in
        d ← ns ("date byte " +:+ pretty j) (AllocatedNum_alloc (Ok value));
        acc ← foldM (λ acc '(k, (base, enc)),
          term ← ns ("date " +:+ pretty j +:+ " term " +:+ pretty (k : nat))
            (AllocatedNum_alloc (Ok (if (k =? real)%nat then value else ZERO)));
          s ← index sel k;
          b ← lift (byte_lc item_bits (base + date_rel enc + j) ONE);
          enforce ("date " +:+ pretty j +:+ " select " +:+ pretty k)
            (lc_add lc_zero (Boolean_lc s one ONE)) (lc_add lc_zero b) (lc_add_var lc_zero (get_variable term)) ;;
          mret (lc_add_var acc (get_variable term))) lc_zero (imap (λ k c, (k, c)) date_candidates);
        enforce ("date " +:+ pretty j +:+ " is the selected byte")
          (lc_add lc_zero acc) (lc_add_var lc_zero one) (lc_add_var lc_zero (get_variable d)) ;;
        mret d) (range 10)
  end.

(** * Dates in order *)

(** One bit of two bytes, from the most significant. *)
Definition compare_bit (i : nat) (d_bits c_bits : list Boolean) (state : Boolean * Boolean) (b : nat)
    : Synth (Boolean * Boolean) :=
  let '(lt, eq_so_far) := state in
  dbit ← index d_bits (7 - b);
  cbit ← index c_bits (7 - b);
  let nd := Boolean_not dbit in
  t ← ns ("lt " +:+ pretty i +:+ " " +:+ pretty b +:+ " a") (Boolean_and eq_so_far nd);
  t ← ns ("lt " +:+ pretty i +:+ " " +:+ pretty b +:+ " b") (Boolean_and t cbit);
  lt ← ns ("lt or " +:+ pretty i +:+ " " +:+ pretty b) (Boolean_or lt t);
  x ← ns ("x " +:+ pretty i +:+ " " +:+ pretty b) (Boolean_xor dbit cbit);
  let same := Boolean_not x in
  eq_so_far ← ns ("eq " +:+ pretty i +:+ " " +:+ pretty b) (Boolean_and eq_so_far same);
  mret (lt, eq_so_far).

Definition date_not_after (date cutoff : list AllocatedNum) : Synth Boolean :=
  if negb (length date =? length cutoff)%nat then Fail' Unsatisfiable else
  '(is_before, still_equal) ← foldM (λ '(is_before, still_equal) i,
    di ← index date i;
    d_bits ← ns ("date bits " +:+ pretty i) (number_bits di);
    ci ← index cutoff i;
    c_bits ← ns ("cutoff bits " +:+ pretty i) (number_bits ci);
    '(lt, eq_so_far) ← foldM (compare_bit i d_bits c_bits) (Boolean_constant false, Boolean_constant true) (reverse (range 8));
    contributes ← ns ("c " +:+ pretty i) (Boolean_and still_equal lt);
    is_before ← ns ("acc " +:+ pretty i) (Boolean_or is_before contributes);
    still_equal ← ns ("se " +:+ pretty i) (Boolean_and still_equal eq_so_far);
    mret (is_before, still_equal)) (Boolean_constant false, Boolean_constant true) (range (length date));
  ns "le" (Boolean_or is_before still_equal).

(** * A digest as a number *)
(** One limb, the least significant first. *)
Definition be_limb (bits : list Boolean) (k : nat) : outcome SynthesisError (LinearCombination * option Scalar) :=
  '(lc, _, value) ← foldM (λ '(lc, coeff, value) j,
    bit ← nth_value bits (255 - 64 * k - j);
    Ok (lc_add lc (Boolean_lc bit one coeff), Field.double coeff,
      v ← value; b ← Boolean_get_value bit; Some (if b : bool then v + coeff else v)%S))
    (lc_zero, ONE, Some ZERO) (range LIMB_WIDTH);
  Ok (lc, value).

Definition bits_be_to_bignat (bits : list Boolean) : outcome SynthesisError BigNat :=
  if negb (length bits =? N_LIMBS * LIMB_WIDTH)%nat then Panic "assert_eq" else
  limbs ← mapM (be_limb bits) (range N_LIMBS);
  let limb_values := mapM snd limbs in
  Ok {| limbs := limbs.*1; limb_values := limb_values;
    nat_value := (λ vs, limbs_to_nat vs LIMB_WIDTH) <$> limb_values;
    params := params_new LIMB_WIDTH N_LIMBS |}.
End AgeDates.

(** * What the rules force *)

(** An item's run from the key of its value to its identifier. *)
Definition item_text (enc : DateEncoding) (date : list byte) : list byte :=
  ELEMENT_VALUE_KEY ++ date_prefix enc ++ date ++ IDENTIFIER_LITERAL.

Lemma item_text_of item base enc :
  base + identifier_rel enc + length IDENTIFIER_LITERAL ≤ length item →
  (∀ rel b, (rel, b) ∈ item_literals enc → item !! (base + rel) = Some b) →
  let date := slice (base + date_rel enc) (base + date_rel enc + 10) item in
  length date = 10 ∧ slice base (item_len enc base) item = item_text enc date.
Proof.
  intros Hl HL. cbv zeta. split; [rewrite length_slice; unfold identifier_rel in Hl; lia|].
  assert (∀ l i (b : byte), l !! i = Some b → ∀ o, (o + i, b) ∈ imap (λ i b, (o + i, b)) l) as Hin.
  { intros l i b E o. apply list_elem_of_lookup. exists i. by rewrite list_lookup_imap, E. }
  unfold item_text, item_len, identifier_rel, date_rel, VALUE_KEY_LEN in *.
  assert (slice base (base + 13) item = ELEMENT_VALUE_KEY) as <-.
  { apply (literal_slice item ELEMENT_VALUE_KEY base). intros i b E. apply HL, elem_of_app. left. exact (Hin _ _ _ E 0). }
  assert (slice (base + 13) (base + 13 + length (date_prefix enc)) item = date_prefix enc) as E1.
  { apply literal_slice. intros i b E. rewrite <-Nat.add_assoc. apply HL, elem_of_app. right. apply elem_of_app. left. exact (Hin _ _ _ E 13). }
  assert (slice (base + (13 + length (date_prefix enc) + 10)) (base + (13 + length (date_prefix enc) + 10) + length IDENTIFIER_LITERAL) item
    = IDENTIFIER_LITERAL) as E2.
  { apply literal_slice. intros i b E. rewrite <-Nat.add_assoc. apply HL, elem_of_app. right. apply elem_of_app. right. by apply Hin. }
  rewrite <-E2, <-E1 at 2. rewrite !(Nat.add_assoc base). rewrite !slice_app by lia. done.
Qed.

(** The last index that a rule reads is 127. *)
Lemma date_candidates_reach : (60, PhotoIdMap) ∈ date_candidates ∧ item_len PhotoIdMap 60 = 128.
Proof. split; [|reflexivity]. apply (bool_decide_unpack _). by vm_compute. Qed.

Lemma date_candidates_fit : Forall (λ '(base, e), item_len e base ≤ 128) date_candidates.
Proof. apply (bool_decide_unpack _). by vm_compute. Qed.

(** The state of a comparison: whether the bits, or the bytes, before are less,
    and whether they are equal. *)
Definition compare_step {A} (lt eq : A → A → bool) (state : bool * bool) (x : A * A) : bool * bool :=
  (state.1 || (state.2 && lt x.1 x.2), state.2 && eq x.1 x.2).
Definition bit_lt (d c : bool) : bool := negb d && c.
Definition bit_eq (d c : bool) : bool := negb (xorb d c).
Definition byte_lt (d c : byte) : bool := (b2z d <? b2z c)%Z.
Definition byte_eq (d c : byte) : bool := (b2z d =? b2z c)%Z.

Lemma compare_bits ds cs st :
  length ds = length cs →
  foldl (compare_step bit_lt bit_eq) st (zip ds cs)
  = (st.1 || (st.2 && (bits_int ds <? bits_int cs)%Z), st.2 && (bits_int ds =? bits_int cs)%Z).
Proof.
  revert cs st. induction ds as [|d ds IH]; intros [|c cs] [lt eq] Hl; try done.
  - cbn. by rewrite !andb_false_r, orb_false_r, andb_true_r.
  - injection Hl as Hl. cbn [zip_with foldl]. rewrite IH by done. unfold compare_step, bit_lt, bit_eq. cbn [fst snd].
    rewrite !bits_int_cons, Hl. pose proof (bits_int_range ds) as Rd. pose proof (bits_int_range cs) as Rc. rewrite Hl in Rd.
    destruct d, c, lt, eq; cbn [Z.b2z xorb negb andb orb];
      destruct (Z.ltb_spec (bits_int ds) (bits_int cs)), (Z.eqb_spec (bits_int ds) (bits_int cs)); cbn [andb orb];
      repeat (case_match; try lia); f_equal; try done;
      symmetry; rewrite ?Z.ltb_lt, ?Z.ltb_ge, ?Z.eqb_eq, ?Z.eqb_neq; lia.
Qed.

(** The order of byte strings of the same length. *)
Lemma compare_bytes ds cs st :
  length ds = length cs →
  let r := foldl (compare_step byte_lt byte_eq) st (zip ds cs) in r.1 || r.2 = st.1 || (st.2 && slice_le ds cs).
Proof.
  revert cs st. induction ds as [|d ds IH]; intros [|c cs] [lt eq] Hl; try done.
  - cbn. by rewrite andb_true_r.
  - injection Hl as Hl. cbn [zip_with foldl slice_le]. cbv zeta. rewrite IH by done. unfold compare_step, byte_lt, byte_eq. cbn [fst snd].
    destruct (Z.ltb_spec (b2z d) (b2z c)), (Z.ltb_spec (b2z c) (b2z d)), (Z.eqb_spec (b2z d) (b2z c)); try lia;
      destruct lt, eq; try done; cbn; by destruct (slice_le ds cs).
Qed.

Section Rules.
Context `{BooleanLogic} `{!NumOps} `{!NonNative} (σ : Assignment).
Add Field scalar_field : scalar_field_theory (morphism of_int_morph, constants [scalar_const]).
Local Abbreviation D := (denotes σ).

Lemma gadget_alloc_byte_bits bytes tag :
  gadget σ (alloc_byte_bits bytes tag) (λ bs, ∃ l, length l = length bytes ∧ bits_are D bs (l ≫= Prelude.byte_bits)).
Proof.
  unfold alloc_byte_bits. eapply gadget_mono.
  { apply (gadget_bit_list σ). intros [i b]. eapply gadget_bind; [apply gadget_ns, gadget_AllocatedBit_alloc|].
    intros r (v & Hr). apply gadget_ret. exists v. unfold denotes, lval, bit. cbn [lc]. by rewrite Boolean_lc_eval. }
  intros bs (vs & HB & Hl). rewrite length_imap, length_bind_byte_bits in Hl.
  destruct (bits_as_bytes (length bytes) vs) as (l & Ll & ->); [lia|]. by exists l.
Qed.

(** A rule that the selected candidate switches on. *)
Lemma gadget_selected name b sel lc x :
  eval σ (Boolean_lc b one ONE) = of_bool sel → eval σ lc = x →
  gadget σ (enforce name (lc_add lc_zero (Boolean_lc b one ONE)) lc lc_zero) (λ _, sel = true → x = ZERO).
Proof.
  intros Hb Hx. eapply gadget_mono; [apply gadget_enforce|]. intros [] E ->. autorewrite with evals in E.
  rewrite Hb, Hx in E. cbn [of_bool] in E. by_rule E.
Qed.

Lemma gadget_extract_birth_date ib item item_bytes active n off enc :
  bits_are D ib (item ≫= Prelude.byte_bits) → length item = 176 → length item_bytes = 176 →
  bits_are D active ((λ i, (i <? n)%nat) <$> range 176) → (off, enc) ∈ date_candidates →
  gadget σ (extract_birth_date ib item_bytes active off enc) (λ ds, ∃ base e date,
    (base, e) ∈ date_candidates ∧ item_len e base ≤ n ∧ length date = 10 ∧
    slice base (item_len e base) item = item_text e date ∧
    date = slice (base + date_rel e) (base + date_rel e + 10) item ∧ bytes_of_nums σ ds date).
Proof.
  intros HB Hl Hlb HA Hoff. unfold extract_birth_date. destruct (position_of_Some _ _ Hoff) as (real & -> & Ereal).
  pose proof (lookup_lt_Some _ _ _ Ereal) as Lreal.
  assert (∀ k base e, date_candidates !! k = Some (base, e) → item_len e base ≤ 128) as Hfit.
  { intros k base e E. exact (list.Forall_lookup_1 _ _ _ _ date_candidates_fit E). }
  eapply gadget_bind; [apply gadget_ns, gadget_one_hot|].
  { unfold range. apply elem_of_seq. lia. }
  { unfold range. rewrite length_seq. eapply Z.lt_trans; [|apply (lt_pow_p 16); lia]. by vm_compute. }
  intros sel (k & Hk & Hsel). unfold range in Hk, Hsel. rewrite length_seq in Hk, Hsel. pose proof (one_hot_at σ _ _ _ Hsel) as Hb.
  destruct (lookup_lt_is_Some_2 date_candidates k Hk) as [[base e] Ek].
  eapply gadget_bind.
  { apply (gadget_mapM_Forall2 σ _ _ (λ '(j, (base, e)) _, j = k →
      base + identifier_rel e + length IDENTIFIER_LITERAL - 1 < n ∧ ∀ rel b, (rel, b) ∈ item_literals e → item !! (base + rel) = Some b)).
    intros [j0 [base' e']] Hin. apply list_elem_of_lookup in Hin as (j & Ej). apply list_lookup_imap_Some in Ej as ([? ?] & Ec & [= -> <- <-]).
    specialize (Hfit _ _ _ Ec). unfold item_len in Hfit. set (last := base' + identifier_rel e' + length IDENTIFIER_LITERAL - 1).
    destruct (Hb j (lookup_lt_Some _ _ _ Ec)) as (b & Eb & Vb). cbv zeta.
    eapply gadget_bind; [by apply gadget_index_nth|]. intros ? ->.
    assert (((λ i, (i <? n)%nat) <$> range 176) !! last = Some (last <? n)%nat) as El
      by (unfold range; rewrite list_lookup_fmap, lookup_seq_lt by lia; done).
    destruct (Forall2_lookup_r _ _ _ _ _ HA El) as (a & Ea & Va).
    eapply gadget_bind; [by apply gadget_index_nth|]. intros ? ->.
    eapply gadget_bind; [by apply (gadget_selected _ b (bool_decide (j = k)) _ _ Vb eq_refl)|]. intros ? Ecov. cbv beta in Ecov.
    eapply gadget_mono.
    { apply (gadget_mapM_Forall2 σ _ _ (λ '(rel, x) _, j = k → item !! (base' + rel) = Some x)). intros [rel x] Hlit.
      assert (rel < identifier_rel e' + length IDENTIFIER_LITERAL) as Lrel.
      { assert (Forall (λ y : nat * byte, y.1 < identifier_rel e' + length IDENTIFIER_LITERAL) (item_literals e')) as HF
          by (destruct e'; apply (bool_decide_unpack _); reflexivity).
        exact (proj1 (list.Forall_forall _ _) HF _ Hlit). }
      destruct (lookup_lt_is_Some_2 item (base' + rel)) as [y Ey]; [lia|].
      destruct (byte_lc_value σ ib item _ y 1 HB Ey) as (lc & Elc & V). rewrite of_int_1 in Elc.
      eapply gadget_bind; [by apply gadget_index_nth|]. intros ? ->. eapply gadget_bind; [by apply gadget_lift|]. intros ? ->.
      eapply gadget_mono; [by apply (gadget_selected _ b (bool_decide (j = k)) _ _ Vb eq_refl)|]. intros ? E Ej.
      specialize (E (bool_decide_eq_true_2 _ Ej)). autorewrite with evals in E. pose proof (b2z_range x). pose proof (b2z_range y).
      rewrite V, from_u64_of_int, Z.mul_1_l in E by lia. rewrite Ey. f_equal. apply b2z_inj.
      apply of_int_inj; [split; [lia|]; eapply Z.lt_trans; [|apply (lt_pow_p 8); lia]; lia..|by_rule E]. }
    intros us HF Ej. split.
    - specialize (Ecov (bool_decide_eq_true_2 _ Ej)). autorewrite with evals in Ecov. unfold denotes, lval, bit in Va. cbn [lc] in Va.
      rewrite Va in Ecov. destruct (Nat.ltb_spec last n); [done|]. cbn [of_bool] in Ecov. exfalso. apply one_nonzero. by_rule Ecov.
    - intros rel x (q & Eq)%list_elem_of_lookup. destruct (Forall2_lookup_l _ _ _ _ _ HF Eq) as (u & _ & R). by apply R. }
  intros us HU.
  assert (base + identifier_rel e + length IDENTIFIER_LITERAL - 1 < n ∧ ∀ rel b, (rel, b) ∈ item_literals e → item !! (base + rel) = Some b) as [Hcov Hlits].
  { destruct (Forall2_lookup_l _ _ _ k (k, (base, e)) HU) as (u & _ & R); [by rewrite list_lookup_imap, Ek|]. by apply R. }
  pose proof (Hfit _ _ _ Ek) as Hf. unfold item_len in Hf.
  destruct (item_text_of item base e) as [Ld Et]; [lia|done|]. set (date := slice (base + date_rel e) (base + date_rel e + 10) item) in *.
  assert (∀ k' b' e', date_candidates !! k' = Some (b', e') → ∀ j, j < 10 → b' + date_rel e' + j < 176) as Hroom.
  { intros k' b' e' E j Lj. specialize (Hfit _ _ _ E). unfold item_len, identifier_rel in Hfit. lia. }
  eapply gadget_mono.
  { apply (gadget_mapM_Forall2 σ _ _ (λ j d, nval σ d = of_int (b2z (default x00 (item !! (base + date_rel e + j)))))).
    intros j Hj%elem_of_seq.
    destruct (lookup_lt_is_Some_2 item_bytes (off + date_rel enc + j)) as [hb Ehb]; [rewrite Hlb; eapply Hroom; [done|lia]|].
    eapply gadget_bind; [by apply gadget_index_nth|]. intros ? ->. cbv zeta.
    eapply gadget_bind; [apply gadget_ns, gadget_AllocatedNum_alloc|]. intros d _.
    pose (v q := of_int (b2z (default x00 (x ← date_candidates !! q; item !! (x.1 + date_rel x.2 + j))))).
    eapply gadget_bind; [apply (gadget_selected_sum σ _ _ k v Hk)|].
    - intros acc q [b' e'] Ec. eapply gadget_bind; [apply gadget_ns, gadget_AllocatedNum_alloc|]. intros term _.
      destruct (Hb q (lookup_lt_Some _ _ _ Ec)) as (b & Eb & Vb). eapply gadget_bind; [by apply gadget_index_nth|]. intros ? ->.
      destruct (lookup_lt_is_Some_2 item (b' + date_rel e' + j)) as [y Ey]; [rewrite Hl; eapply Hroom; [done|lia]|].
      destruct (byte_lc_value σ ib item _ y 1 HB Ey) as (lc & Elc & V). rewrite of_int_1 in Elc.
      eapply gadget_bind; [by apply gadget_lift|]. intros ? ->. rule_as E. apply gadget_ret.
      rewrite Vb, V, Z.mul_1_l in E. unfold v. rewrite Ec. cbn [mbind option_bind fst snd]. rewrite Ey. cbn [default id].
      rewrite eval_add_var. change (σ (get_variable term)) with (nval σ term). by_rule E.
    - intros acc V. cbv beta in V. rule_as E. apply gadget_ret. rewrite V in E. unfold v in E. rewrite Ek in E.
      cbn [mbind option_bind fst snd] in E. by_rule E. }
  intros ds HD. exists base, e, date. split_and!; [by eapply list_elem_of_lookup_2|unfold item_len; lia|done|done|done|].
  pose proof (Forall2_length _ _ _ HD) as Lds. unfold range in Lds. rewrite length_seq in Lds.
  apply Forall2_same_length_lookup. split; [lia|]. intros j d b Ed Eb. pose proof (lookup_lt_Some _ _ _ Ed).
  unfold date in Eb. rewrite lookup_slice in Eb by lia.
  pose proof (Forall2_lookup_lr _ _ _ j j d HD) as R. cbv beta in R. rewrite Eb in R. apply R; [|done]. unfold range. apply lookup_seq. lia.
Qed.

(** * Dates in order *)
Definition flags_are (bs : Boolean * Boolean) (vs : bool * bool) : Prop :=
  D (bit bs.1) (of_bool vs.1) ∧ D (bit bs.2) (of_bool vs.2).

Lemma gadget_compare_bit i db cb ds cs st vs b d c :
  flags_are st vs → bits_are D db ds → bits_are D cb cs → ds !! (7 - b) = Some d → cs !! (7 - b) = Some c →
  gadget σ (compare_bit i db cb st b) (λ st', flags_are st' (compare_step bit_lt bit_eq vs (d, c))).
Proof.
  destruct st as [lt eq], vs as [vl ve]. intros [Hlt Heq] HD HC Ed Ec. cbn [fst snd] in *. unfold compare_bit.
  destruct (Forall2_lookup_r _ _ _ _ _ HD Ed) as (x & Ex & Hx), (Forall2_lookup_r _ _ _ _ _ HC Ec) as (y & Ey & Hy).
  eapply gadget_bind; [by apply gadget_index_nth|]. intros ? ->. eapply gadget_bind; [by apply gadget_index_nth|]. intros ? ->. cbv zeta.
  pose proof (Boolean_not_denotes σ _ _ Hx) as Hnx.
  eapply gadget_bind; [apply gadget_ns; by apply (Boolean_and_rules σ _ _ _ _ Heq Hnx)|]. intros t Ht. cbv beta in Ht.
  eapply gadget_bind; [apply gadget_ns; by apply (Boolean_and_rules σ _ _ _ _ Ht Hy)|]. intros t' Ht'. cbv beta in Ht'.
  eapply gadget_bind; [apply gadget_ns; by apply (Boolean_or_rules σ _ _ _ _ Hlt Ht')|]. intros lt' Hlt'. cbv beta in Hlt'.
  eapply gadget_bind; [apply gadget_ns; by apply (Boolean_xor_rules σ _ _ _ _ Hx Hy)|]. intros z Hz. cbv beta in Hz.
  pose proof (Boolean_not_denotes σ _ _ Hz) as Hnz.
  eapply gadget_bind; [apply gadget_ns; by apply (Boolean_and_rules σ _ _ _ _ Heq Hnz)|]. intros eq' Heq'. cbv beta in Heq'.
  apply gadget_ret. unfold compare_step, bit_lt, bit_eq. split; cbn [fst snd]; [by rewrite andb_assoc|done].
Qed.

Lemma gadget_compare_bytes i db cb d c :
  bits_are D db (Prelude.byte_bits d) → bits_are D cb (Prelude.byte_bits c) →
  gadget σ (foldM (compare_bit i db cb) (Boolean_constant false, Boolean_constant true) (reverse (range 8)))
    (λ st, flags_are st (byte_lt d c, byte_eq d c)).
Proof.
  intros HD HC. change (reverse (range 8)) with [7; 6; 5; 4; 3; 2; 1; 0]. eapply gadget_mono.
  { apply (gadget_foldM σ _ _ _ (λ done st, flags_are st
      (foldl (compare_step bit_lt bit_eq) (false, true) (take (length done) (zip (Prelude.byte_bits d) (Prelude.byte_bits c)))))).
    - split; [exact (Boolean_constant_denotes σ false)|exact (Boolean_constant_denotes σ true)].
    - intros done b st Hpre Hst. apply prefix_snoc_lookup in Hpre as [Hb _]. set (k := length done) in *.
      assert (7 - b = k ∧ k < 8) as [Ek Lk].
      { apply lookup_lt_Some in Hb as L. cbn in L. do 8 (destruct k as [|k]; [injection Hb as <-; lia|]). lia. }
      assert (∀ x : byte, Prelude.byte_bits x !! k = Some (Z.testbit (b2z x) (Z.of_nat (8 - 1 - k)))) as Hx
        by (intros x; unfold Prelude.byte_bits; by rewrite lookup_int_bits).
      eapply gadget_mono; [by apply (gadget_compare_bit i db cb _ _ _ _ b (Z.testbit (b2z d) (Z.of_nat (8 - 1 - k))) (Z.testbit (b2z c) (Z.of_nat (8 - 1 - k))) Hst HD HC); rewrite Ek; apply Hx|].
      intros st' Hst'. cbv beta in Hst'. rewrite length_app. cbn [length]. fold k. replace (k + 1) with (S k) by lia.
      rewrite (take_S_r _ _ (Z.testbit (b2z d) (Z.of_nat (8 - 1 - k)), Z.testbit (b2z c) (Z.of_nat (8 - 1 - k))))
        by by rewrite lookup_zip_with, !Hx.
      by rewrite foldl_app. }
  intros st Hst. cbv beta in Hst. rewrite take_ge in Hst by (rewrite length_zip, !length_byte_bits; cbn; lia).
  rewrite compare_bits, !bits_int_byte_bits in Hst by by rewrite !length_byte_bits. exact Hst.
Qed.

Lemma gadget_date_not_after date cutoff :
  length date = length cutoff →
  gadget σ (date_not_after date cutoff) (λ r, ∃ d c, bytes_of_nums σ date d ∧ bytes_of_nums σ cutoff c ∧
    D (bit r) (of_bool (slice_le d c))).
Proof.
  intros Hl. unfold date_not_after. rewrite Hl, Nat.eqb_refl, <-Hl. cbn [negb]. eapply gadget_bind.
  { apply (gadget_foldM σ _ _ _ (λ done st, ∃ d c, bytes_of_nums σ (take (length done) date) d ∧
      bytes_of_nums σ (take (length done) cutoff) c ∧ flags_are st (foldl (compare_step byte_lt byte_eq) (false, true) (zip d c)))).
    - exists [], []. split_and!; [constructor..|]. split; [exact (Boolean_constant_denotes σ false)|exact (Boolean_constant_denotes σ true)].
    - intros done i [before equal] Hpre (d & c & Hd & Hc & [Hb He]). cbn [fst snd] in Hb, He.
      apply prefix_snoc_lookup in Hpre as [Hi _]. apply lookup_seq in Hi as [-> Li]. cbn [Nat.add] in *. set (i := length done) in *.
      destruct (lookup_lt_is_Some_2 date i) as [di Edi]; [lia|]. destruct (lookup_lt_is_Some_2 cutoff i) as [ci Eci]; [lia|].
      eapply gadget_bind; [by apply gadget_index_nth|]. intros ? ->.
      eapply gadget_bind; [apply gadget_ns, gadget_number_bits|]. intros db (x & Hx & HD).
      eapply gadget_bind; [by apply gadget_index_nth|]. intros ? ->.
      eapply gadget_bind; [apply gadget_ns, gadget_number_bits|]. intros cb (y & Hy & HC).
      eapply gadget_bind; [by apply (gadget_compare_bytes i db cb x y)|]. intros [lt eq] [Hlt Heq]. cbn [fst snd] in Hlt, Heq.
      eapply gadget_bind; [apply gadget_ns; by apply (Boolean_and_rules σ _ _ _ _ He Hlt)|]. intros t Ht. cbv beta in Ht.
      eapply gadget_bind; [apply gadget_ns; by apply (Boolean_or_rules σ _ _ _ _ Hb Ht)|]. intros b' Hb'. cbv beta in Hb'.
      eapply gadget_bind; [apply gadget_ns; by apply (Boolean_and_rules σ _ _ _ _ He Heq)|]. intros e' He'. cbv beta in He'.
      apply gadget_ret. exists (d ++ [x]), (c ++ [y]). rewrite length_app. cbn [length]. fold i. replace (i + 1) with (S i) by lia.
      rewrite (take_S_r _ _ _ Edi), (take_S_r _ _ _ Eci). pose proof (Forall2_length _ _ _ Hd) as Ld. pose proof (Forall2_length _ _ _ Hc) as Lc.
      rewrite length_take in Ld, Lc. rewrite zip_with_app by lia. rewrite foldl_app.
      split_and!; [apply Forall2_app; [done|by repeat constructor]..|]. by split. }
  intros [before equal] (d & c & Hd & Hc & [Hb He]). unfold range in *. rewrite length_seq in Hd, Hc. rewrite take_ge in Hd, Hc by lia.
  eapply gadget_mono; [apply gadget_ns; by apply (Boolean_or_rules σ _ _ _ _ Hb He)|]. intros r Hr. exists d, c. split_and!; [done..|].
  cbv beta in Hr. rewrite compare_bytes in Hr; [exact Hr|]. rewrite <-(Forall2_length _ _ _ Hd), <-(Forall2_length _ _ _ Hc). done.
Qed.

(** Numbers that are bytes are one byte only. *)
Lemma bytes_of_nums_inj nums d d' : bytes_of_nums σ nums d → bytes_of_nums σ nums d' → d = d'.
Proof.
  intros HF HF'. apply list_eq_same_length with (length nums); [by rewrite (Forall2_length _ _ _ HF')|by rewrite (Forall2_length _ _ _ HF)|].
  intros i b b' _ Eb Eb'. destruct (Forall2_lookup_r _ _ _ _ _ HF Eb) as (a & Ea & Ha). destruct (Forall2_lookup_r _ _ _ _ _ HF' Eb') as (a' & Ea' & Ha').
  rewrite Ea in Ea'. injection Ea' as <-. rewrite Ha in Ha'. pose proof (b2z_range b). pose proof (b2z_range b').
  apply b2z_inj, of_int_inj; [split; [lia|]; eapply Z.lt_trans; [|apply (lt_pow_p 8); lia]; lia..|done].
Qed.

(** * A digest as a number *)
Lemma be_limb_value bits vs k :
  bits_are D bits vs → length vs = 256 → k < 4 →
  ∃ lc v, be_limb bits k = Ok (lc, v) ∧ eval σ lc = of_int (bits_le (take 64 (drop (64 * k) (reverse vs)))).
Proof.
  intros HB Hl Hk. pose proof (Forall2_length _ _ _ HB) as Lb. unfold be_limb, LIMB_WIDTH.
  enough (∀ n, n ≤ 64 → ∃ lc c v, foldM (λ '(lc, coeff, value) j,
      bit ← nth_value bits (255 - 64 * k - j);
      Ok (lc_add lc (Boolean_lc bit one coeff), Field.double coeff,
        v ← value; b ← Boolean_get_value bit; Some (if b : bool then v + coeff else v)%S))
      (lc_zero, ONE, Some ZERO) (range n) = Ok (lc, c, v) ∧ c = of_int (2 ^ Z.of_nat n) ∧
    eval σ lc = of_int (bits_le (take n (drop (64 * k) (reverse vs))))) as HE.
  { destruct (HE 64 ltac:(lia)) as (lc & c & v & E & _ & V). exists lc, v. rewrite E. by split. }
  induction n as [|n IH]; intros Hn; [exists lc_zero, ONE, (Some ZERO); split_and!; [done|by rewrite <-of_int_1|by rewrite eval_zero, <-of_int_0]|].
  destruct IH as (lc & c & v & E & Ec & V); [lia|]. unfold range in *. rewrite seq_S, foldM_app, E. cbn [mbind outcome_bind foldM Nat.add].
  assert (drop (64 * k) (reverse vs) !! n = vs !! (255 - 64 * k - n)) as Ev.
  { rewrite lookup_drop, reverse_lookup by lia. f_equal. lia. }
  destruct (lookup_lt_is_Some_2 vs (255 - 64 * k - n)) as [x Ex]; [lia|]. rewrite Ex in Ev.
  destruct (Forall2_lookup_r _ _ _ _ _ HB Ex) as (b & Eb & Hb). rewrite (nth_value_ok _ _ _ Eb). cbn [mbind outcome_bind].
  eexists _, _, _. split_and!; [done| |].
  - rewrite Ec, double_add, <-of_int_add. f_equal. rewrite Nat2Z.inj_succ, Z.pow_succ_r by lia. lia.
  - rewrite Ec, (eval_boolean_term σ _ _ _ _ Hb), V, <-of_int_add, (take_S_r _ _ _ Ev). f_equal. unfold bits_le.
    rewrite fmap_app, zeval_app, length_fmap, length_take, length_drop, length_reverse, Hl.
    replace (n `min` (256 - 64 * k)) with n by lia. cbn [fmap list_fmap]. change (zeval 2 [Z.b2z x]) with (Z.b2z x + 2 * 0)%Z. ring.
Qed.

Lemma concat_blocks {A} w n (l : list A) : length l = w * n → concat ((λ k, take w (drop (w * k) l)) <$> range n) = l.
Proof.
  intros Hl. enough (∀ m, m ≤ n → concat ((λ k, take w (drop (w * k) l)) <$> range m) = take (w * m) l) as HE
    by (rewrite HE by done; by rewrite take_ge by lia).
  induction m as [|m IH]; intros Hm; [by rewrite Nat.mul_0_r|]. unfold range in *. rewrite seq_S, fmap_app, concat_app, IH by lia.
  cbn [fmap list_fmap concat Nat.add]. rewrite app_nil_r, take_take_drop. f_equal. lia.
Qed.

Lemma bits_bignat bits vs :
  bits_are D bits vs → length vs = 256 → ∃ b, bits_be_to_bignat bits = Ok b ∧ holds_int σ b (bits_int vs).
Proof.
  intros HB Hl. unfold bits_be_to_bignat. rewrite (Forall2_length _ _ _ HB), Hl. cbn [Nat.eqb negb N_LIMBS LIMB_WIDTH Nat.mul Nat.add].
  destruct (mapM_outcome (be_limb bits) (range N_LIMBS)
    (λ k x, eval σ x.1 = of_int (bits_le (take 64 (drop (64 * k) (reverse vs)))))) as (ls & E & HF).
  { intros k Hk%elem_of_seq. destruct (be_limb_value bits vs k HB Hl) as (lc & v & E & V); [unfold N_LIMBS in Hk; lia|].
    by exists (lc, v). }
  rewrite E. cbn [mbind outcome_bind]. eexists. split; [reflexivity|]. split; [done|].
  exists ((λ k, bits_le (take 64 (drop (64 * k) (reverse vs)))) <$> range 4).
  assert (length ls = 4) as L4 by by rewrite <-(Forall2_length _ _ _ HF). 
  split_and!; [split; [split; [|split]|split]|done|].
  - split; [symmetry; transitivity (length ls); [apply length_fmap|exact L4]|]. intros ws Ew.
    apply mapM_Some in Ew; apply Forall2_length in Ew; transitivity (length ls); [by rewrite Ew|symmetry; apply length_fmap].
  - cbn [limbs]. apply Forall2_fmap_r, Forall2_fmap_l, Forall2_flip. exact HF.
  - cbn [params]. apply list.Forall_fmap, list.Forall_forall. intros k Hk. cbn [compose].
    pose proof (bits_le_range (take 64 (drop (64 * k) (reverse vs)))) as R.
    assert (2 ^ Z.of_nat (length (take 64 (drop (64 * k) (reverse vs)))) ≤ 2 ^ 64)%Z by (apply Z.pow_le_mono_r; [lia|]; rewrite length_take; lia).
    split; [lia|]. change (max_word (params_new LIMB_WIDTH N_LIMBS)) with (2 ^ 64 - 1)%Z. lia.
  - done.
  - done.
  - transitivity (limbs_int 64 (bits_le <$> ((λ k, take 64 (drop (64 * k) (reverse vs))) <$> range 4))); [done|].
    rewrite limbs_int_bits.
    + rewrite concat_blocks by by rewrite length_reverse. by rewrite bits_le_reverse, reverse_involutive.
    + apply list.Forall_fmap, list.Forall_forall. intros k Hk%elem_of_seq. cbn [compose].
      rewrite length_take, length_drop, length_reverse. lia.
Qed.

(** C8: The birth date of an item: whoever assigns the slots, the rules force
    one of the layouts of an item, inside the bytes that the hash covers, and
    the ten numbers returned to be the bytes of its date. *)
Theorem extract_birth_date_sound ib item item_bytes active n off enc :
  bits_are D ib (item ≫= Prelude.byte_bits) → length item = 176 → length item_bytes = 176 →
  bits_are D active ((λ i, (i <? n)%nat) <$> range 176) → (off, enc) ∈ date_candidates →
  gadget σ (extract_birth_date ib item_bytes active off enc) (λ ds, ∃ base e date,
    (base, e) ∈ date_candidates ∧ item_len e base ≤ n ∧ length date = 10 ∧
    slice base (item_len e base) item = item_text e date ∧
    date = slice (base + date_rel e) (base + date_rel e + 10) item ∧ bytes_of_nums σ ds date).
Proof. apply gadget_extract_birth_date. Qed.

(** C9: The order of dates: whoever assigns the slots, the rules force the
    numbers of both dates to be bytes, and the bit returned to say whether the
    first is at most the second. *)
Theorem date_not_after_sound date cutoff :
  length date = length cutoff →
  gadget σ (date_not_after date cutoff) (λ r, ∃ d c, bytes_of_nums σ date d ∧ bytes_of_nums σ cutoff c ∧
    D (bit r) (of_bool (slice_le d c))).
Proof. apply gadget_date_not_after. Qed.
End Rules.
