(* ===== verification/AgeRules.v ===== *)
(** [mdoc_age.rs], [mdoc_age_circuit.rs] and [mdoc_age_mc.rs]: the rules of the
    half that is bound to the credential and of the half that is bound to a
    session, the circuits made of them, and what a satisfied circuit whose
    public values the verifier accepts shows of the credential. *)
From Stdlib Require Import ZArith Lia Strings.String Strings.Byte.
From Stdlib Require Import Field_tac Ring.
From stdpp Require Import base list numbers option strings pretty.
From S2P Require Import Prelude Bytes Field ConstraintSystem Shape CheckSystem Bellpepper Lc Bits Gadgets Select Limbs BigNat BigNatRules Ecc Ecdsa CborUint OneHotCursor DigestId Values Sha256 Table Window Circuit Step Sha256Var Packing Sha256Mc Hasher AgeFolded OffsetBind AgeAcceptance OffsetRules AgeDates.

(** [a.wrapping_sub(b) & 0xffff] on [usize]. *)
Definition wrapped_difference (a b : nat) : nat :=
  Z.to_nat (Z.land ((Z.of_nat a - Z.of_nat b) mod 2 ^ 64) 0xffff).

(** * The two halves ([mdoc_age.rs]) *)
Section AgeRules.
Context `{BooleanLogic} `{!NumOps} `{!NonNative} `{!P256Group} `{!CompressionGadget} `{!Uint32Constants} `{!PublicNums}.

Record CredentialBinding := mkCredentialBinding {
  cb_issuer_qx : AllocatedNum;
  cb_issuer_qy : AllocatedNum;
  cb_doc_type : list AllocatedNum;
  cb_namespace : list AllocatedNum;
  cb_namespace_prefix_len : AllocatedNum;
  cb_num_entries : AllocatedNum;
  cb_device_key : AllocatedNum * AllocatedNum;
  cb_birth_date : list AllocatedNum;
  cb_valid_from : list AllocatedNum;
  cb_valid_until : list AllocatedNum;
}.

(** The loop that packs sixteen bytes of a digest's bits. *)
Definition digest_pack_lc (bits : list Boolean) (p : nat) : outcome SynthesisError LinearCombination :=
  foldM (λ lc i,
    b ← byte_lc bits (p * BYTES_PER_PACK + i) (byte_shifts (BYTES_PER_PACK - 1 - i) ONE);
    Ok (lc_add lc b)) lc_zero (range BYTES_PER_PACK).

Definition synthesize_credential (w : MdocAgeWitness) (ecdsa : EcdsaP256Witness) (sig_hasher item_hasher : Hasher)
    : Synth CredentialBinding :=
  if (MAX_SIG_STRUCTURE_BYTES <? length (sig_structure w))%nat then Fail' Unsatisfiable else
  if (MAX_CLAIM_BYTES_V1 <? length (item_bytes w))%nat then Fail' Unsatisfiable else
  let padded := resize MAX_SIG_STRUCTURE_BYTES x00 (sig_structure w) in
  sig_bits ← alloc_byte_bits padded "sig";
  '(z_bits, _) ← ns "mso hash"
    (hash sig_hasher sig_bits (length (sig_structure w)) MAX_SIG_STRUCTURE_BYTES SIG_STRUCTURE_BLOCKS);
  issuer_qx ← ns "qx" (AllocatedNum_alloc (Ok (w_qx ecdsa)));
  issuer_qy ← ns "qy" (AllocatedNum_alloc (Ok (w_qy ecdsa)));
  z_bn ← lift (bits_be_to_bignat z_bits);
  ns "ecdsa" (verify_ecdsa_p256_with_digest issuer_qx issuer_qy (w_r ecdsa) (w_s ecdsa) (w_s_inv ecdsa) z_bn) ;;
  binding ← ns "region" (bind_digest_region sig_bits padded
    {| shape_namespace := namespace w; shape_doc_type := doc_type w; shape_num_entries := num_entries w |} (landmarks w));
  let candidates := window_offsets MAX_SIG_STRUCTURE_BYTES 32 in
  located ← ns "locate digest" (select_window sig_bits padded candidates (digest_offset w) 32);
  ns "digest starts inside the region" (enforce_ge (offset located) (rb_region_start binding)
    (wrapped_difference (digest_offset w) (region_start (landmarks w))) 16) ;;
  native_end ← lift (native_region_end padded (region_start (landmarks w)) (num_entries w));
  digest_end ← lift (add_usize (digest_offset w) 32);
  ns "digest ends inside the region" (enforce_ge (rb_region_end binding) (lc_add_term (offset located) (from_u64 32, one))
    (wrapped_difference native_end digest_end) 16) ;;
  let item_padded := resize MAX_CLAIM_BYTES_V1 x00 (item_bytes w) in
  item_bits ← alloc_byte_bits item_padded "item";
  '(item_digest_bits, item_active) ← ns "item hash"
    (hash item_hasher item_bits (length (item_bytes w)) MAX_CLAIM_BYTES_V1 NUM_BLOCKS);
  mapM (λ '(p, pack),
    lc ← lift (digest_pack_lc item_digest_bits p);
    enforce ("item digest pack " +:+ pretty (p : nat))
      (lc_add lc_zero lc) (lc_add_var lc_zero one) (lc_add_var lc_zero (get_variable pack)))
    (imap (λ p pack, (p, pack)) (packs located)) ;;
  date ← ns "extract" (extract_birth_date item_bits item_padded item_active
    (element_value_key_offset w) (date_encoding w));
  '(valid_from, valid_until) ← ns "validity" (bind_validity sig_bits padded (validity_info (landmarks w)));
  mret {|
    cb_issuer_qx := issuer_qx; cb_issuer_qy := issuer_qy;
    cb_doc_type := rb_doc_type binding; cb_namespace := rb_namespace binding;
    cb_namespace_prefix_len := rb_namespace_prefix_len binding; cb_num_entries := rb_num_entries binding;
    cb_device_key := rb_device_key binding; cb_birth_date := date;
    cb_valid_from := valid_from; cb_valid_until := valid_until;
  |}.

Record SessionOutputs := mkSessionOutputs {
  so_cutoff : list AllocatedNum;
  so_now : list AllocatedNum;
  so_old_enough : Boolean;
  so_device_auth_digest : list AllocatedNum;
}.

(** The numbers of bytes, each a new slot. *)
Definition alloc_byte_nums (bytes : list byte) (tag : string) : Synth (list AllocatedNum) :=
  mapM (λ '(i, b), ns (tag +:+ " byte " +:+ pretty (i : nat)) (AllocatedNum_alloc (Ok (from_u64 (b2z b)))))
    (imap (λ i b, (i, b)) bytes).

Definition synthesize_session (device_key : AllocatedNum * AllocatedNum) (birth_date valid_from valid_until : list AllocatedNum)
    (device_auth : DeviceAuthWitness) (cutoff now device_auth_digest : list byte) : Synth SessionOutputs :=
  device_auth_bits ← alloc_byte_bits device_auth_digest "device_auth";
  device_auth_bn ← lift (bits_be_to_bignat device_auth_bits);
  let '(device_qx, device_qy) := device_key in
  ns "device auth" (verify_ecdsa_p256_with_digest device_qx device_qy
    (da_r device_auth) (da_s device_auth) (da_s_inv device_auth) device_auth_bn) ;;
  device_auth_packed ← mapM (λ p,
    lc ← lift (digest_pack_lc device_auth_bits p);
    value ← foldM (λ acc i,
      b ← index device_auth_digest (p * BYTES_PER_PACK + i);
      mret (acc * from_u64 256 + from_u64 (b2z b))%S) ZERO (range BYTES_PER_PACK);
    out ← ns ("device auth pack " +:+ pretty p) (AllocatedNum_alloc (Ok value));
    enforce ("device auth pack " +:+ pretty p +:+ " recombines")
      (lc_add lc_zero lc) (lc_add_var lc_zero one) (lc_add_var lc_zero (get_variable out)) ;;
    mret out) (range 2);
  now_vars ← alloc_byte_nums now "now";
  started ← ns "validFrom <= now" (date_not_after valid_from now_vars);
  ns "credential has started" (Boolean_enforce_equal started (Boolean_constant true)) ;;
  not_expired ← ns "now <= validUntil" (date_not_after now_vars valid_until);
  ns "credential has not expired" (Boolean_enforce_equal not_expired (Boolean_constant true)) ;;
  cutoff_vars ← alloc_byte_nums cutoff "cutoff";
  old_enough ← ns "age" (date_not_after birth_date cutoff_vars);
  mret {| so_cutoff := cutoff_vars; so_now := now_vars; so_old_enough := old_enough;
    so_device_auth_digest := device_auth_packed |}.

(** [synthesize] of [mdoc_age.rs], both halves in one call, and its outputs. *)
Record MdocAgeOutputs := mkMdocAgeOutputs {
  mo_doc_type : list AllocatedNum;
  mo_issuer_qx : AllocatedNum;
  mo_issuer_qy : AllocatedNum;
  mo_cutoff : list AllocatedNum;
  mo_now : list AllocatedNum;
  mo_namespace : list AllocatedNum;
  mo_namespace_prefix_len : AllocatedNum;
  mo_num_entries : AllocatedNum;
  mo_old_enough : Boolean;
  mo_device_auth_digest : list AllocatedNum;
}.
Definition age_synthesize (w : MdocAgeWitness) (ecdsa : EcdsaP256Witness) (cutoff now device_auth_digest : list byte)
    : Synth MdocAgeOutputs :=
  cred ← synthesize_credential w ecdsa SingleCircuit SingleCircuit;
  sess ← synthesize_session (cb_device_key cred) (cb_birth_date cred) (cb_valid_from cred) (cb_valid_until cred)
    (device_auth w) cutoff now device_auth_digest;
  mret {| mo_doc_type := cb_doc_type cred; mo_issuer_qx := cb_issuer_qx cred; mo_issuer_qy := cb_issuer_qy cred;
    mo_cutoff := so_cutoff sess; mo_now := so_now sess; mo_namespace := cb_namespace cred;
    mo_namespace_prefix_len := cb_namespace_prefix_len cred; mo_num_entries := cb_num_entries cred;
    mo_old_enough := so_old_enough sess; mo_device_auth_digest := so_device_auth_digest sess |}.

(** * The circuits ([mdoc_age_circuit.rs], [mdoc_age_mc.rs]) *)
Definition PRECOMMITTED_LEN : nat := PUBLIC_FROM_PRECOMMITTED + 2 + 10 + 2 * TIMESTAMP_LEN.

Definition pack_precommitted (cred : CredentialBinding) : outcome SynthesisError (list AllocatedNum) :=
  let out := [cb_issuer_qx cred; cb_issuer_qy cred] ++ cb_doc_type cred ++ cb_namespace cred ++
    [cb_namespace_prefix_len cred; cb_num_entries cred; (cb_device_key cred).1; (cb_device_key cred).2] ++
    cb_birth_date cred ++ cb_valid_from cred ++ cb_valid_until cred in
  if negb (length out =? PRECOMMITTED_LEN)%nat then Err Unsatisfiable else Ok out.

Definition MdocAge_precommitted (c : MdocAgeCircuit) : Synth (list AllocatedNum) :=
  cred ← synthesize_credential (AgeAcceptance.witness c) (AgeAcceptance.ecdsa c) SingleCircuit SingleCircuit;
  lift (pack_precommitted cred).

(** [synthesize], the same in both forms. *)
Definition MdocAge_synthesize (c : MdocAgeCircuit) (precommitted : list AllocatedNum) : Synth unit :=
  if negb (length precommitted =? PRECOMMITTED_LEN)%nat then Fail' Unsatisfiable else
  mapM (λ '(i, p), ns ("inputize credential value " +:+ pretty (i : nat)) (AllocatedNum_inputize p))
    (imap (λ i p, (i, p)) (take PUBLIC_FROM_PRECOMMITTED precommitted)) ;;
  kx ← index precommitted PUBLIC_FROM_PRECOMMITTED;
  ky ← index precommitted (PUBLIC_FROM_PRECOMMITTED + 1);
  let TS := TIMESTAMP_LEN in
  let bd := (PUBLIC_FROM_PRECOMMITTED + 2)%nat in
  sess ← synthesize_session (kx, ky)
    (slice bd (bd + 10) precommitted) (slice (bd + 10) (bd + 10 + TS) precommitted)
    (slice (bd + 10 + TS) (bd + 10 + 2 * TS) precommitted)
    (device_auth (AgeAcceptance.witness c)) (AgeAcceptance.cutoff c) (AgeAcceptance.now c) (AgeAcceptance.device_auth_digest c);
  mapM (λ '(i, x), ns ("inputize cutoff " +:+ pretty (i : nat)) (AllocatedNum_inputize x)) (imap (λ i x, (i, x)) (so_cutoff sess)) ;;
  mapM (λ '(i, x), ns ("inputize now " +:+ pretty (i : nat)) (AllocatedNum_inputize x)) (imap (λ i x, (i, x)) (so_now sess)) ;;
  mapM (λ '(i, x), ns ("inputize device auth " +:+ pretty (i : nat)) (AllocatedNum_inputize x))
    (imap (λ i x, (i, x)) (so_device_auth_digest sess)) ;;
  old ← ns "old_enough" (AllocatedNum_alloc
    (ok_or AssignmentMissing ((λ b : bool, if b then ONE else ZERO) <$> Boolean_get_value (so_old_enough sess))));
  enforce "old_enough is the predicate's own result"
    (lc_add lc_zero (Boolean_lc (so_old_enough sess) one ONE)) (lc_add_var lc_zero one) (lc_add_var lc_zero (get_variable old)) ;;
  ns "inputize old_enough" (AllocatedNum_inputize old).

Definition SIG_MESSAGE : nat := 0.
Definition ITEM_MESSAGE : nat := 1.
(** [CoreCircuit] has the fields of [MdocAgeCircuit] and the vector it shares. *)
Definition CoreCircuit_precommitted (c : MdocAgeCircuit) (shared : list AllocatedNum) : Synth (list AllocatedNum) :=
  cred ← synthesize_credential (AgeAcceptance.witness c) (AgeAcceptance.ecdsa c)
    (Folded shared layout SIG_MESSAGE) (Folded shared layout ITEM_MESSAGE);
  lift (pack_precommitted cred).

(** [build]: the witness and the index of each step circuit, and the core. *)
Definition build_folded (w : MdocAgeWitness) (ecdsa : EcdsaP256Witness) (cutoff now device_auth_digest : list byte)
    : outcome SynthesisError (list (HashWitness * nat) * (HashWitness * MdocAgeCircuit)) :=
  hash ← HashWitness_from_witness (sig_structure w) (item_bytes w);
  Ok ((λ step, (hash, step)) <$> range (total_blocks layout),
      (hash, {| AgeAcceptance.witness := w; AgeAcceptance.ecdsa := ecdsa; AgeAcceptance.cutoff := cutoff;
                AgeAcceptance.now := now; AgeAcceptance.device_auth_digest := device_auth_digest |})).
End AgeRules.
