(* ===== verification/AgeSound.v ===== *)
(** What the rules of the first engine show of a credential and of a session:
    whoever assigns the slots, the halves of [mdoc_age.rs], with the hash in
    the circuit or folded; and what the verifier's checks on the public values
    add to it. *)
From Stdlib Require Import ZArith Lia Strings.String Strings.Byte.
From Stdlib Require Import Field_tac Ring.
From stdpp Require Import base list numbers option strings pretty.
From S2P Require Import Prelude Bytes Field ConstraintSystem Shape CheckSystem Bellpepper Lc Bits Gadgets Select Limbs BigNat BigNatRules Curve P256 Ecc Ecdsa CborUint OneHotCursor DigestId Values Sha256 Table Window Circuit Step Sha256Var Packing Sha256Mc Hasher AgeFolded OffsetBind AgeAcceptance OffsetRules AgeDates AgeRules.

(** * What a credential shows *)

(** A key signed a number: the key is on the curve and ECDSA's equation holds
    for some [r]. *)
Definition signed_by `{P256Group} (q : Affine) (z : Z) : Prop :=
  on_curve (of_int b256) q ∧ ∃ r, scalar_range r ∧ ecdsa_equation p256_order z r base_point q.

(** A message of which the issuer signed the first [n] bytes, the places of a
    digest region in the whole message, an item whose digest is inside the
    region, and the dates in the item and in the message. *)
Record credential_holds `{P256Group} (m : list byte) (n : nat) (ra : RegionAt) (item : list byte) (issuer : Affine)
    (date from until : list byte) : Prop := {
  message_size : length m = MAX_SIG_STRUCTURE_BYTES ∧ n ≤ MAX_SIG_STRUCTURE_BYTES;
  issuer_signed : signed_by issuer (be_int (fips_sha256 (take n m)));
  region_in_message : region_at m ra;
  digest_in_region : ∃ o, at_start ra + at_prefix ra ≤ o ∧ o + 32 ≤ at_end ra ∧ slice o (o + 32) m = fips_sha256 item;
  birth_date_in_item : length date = 10 ∧ ∃ base e, (base, e) ∈ date_candidates ∧
    slice base (item_len e base) item = item_text e date;
  validity_in_message : ∃ o signed, o + MAX_ANCHOR_WINDOW ≤ length m ∧
    window_bytes m o VALIDITY_WINDOW_LEN = validity_block signed from until ∧
    length signed = TIMESTAMP_LEN ∧ length from = TIMESTAMP_LEN ∧ length until = TIMESTAMP_LEN;
}.

(** What the code checks of the witness before and while it adds the rules. *)
Record credential_checks (w : MdocAgeWitness) : Prop := {
  ch_message : length (sig_structure w) ≤ MAX_SIG_STRUCTURE_BYTES;
  ch_item : length (item_bytes w) ≤ MAX_CLAIM_BYTES_V1;
  ch_region : region_checks (resize MAX_SIG_STRUCTURE_BYTES x00 (sig_structure w))
    {| shape_namespace := namespace w; shape_doc_type := doc_type w; shape_num_entries := num_entries w |} (landmarks w);
  ch_digest : digest_offset w + 32 ≤ MAX_SIG_STRUCTURE_BYTES;
  ch_date : (element_value_key_offset w, date_encoding w) ∈ date_candidates;
  ch_validity : validity_info (landmarks w) + VALIDITY_WINDOW_LEN ≤ MAX_SIG_STRUCTURE_BYTES;
}.

Section Sound.
Context `{BooleanLogic} `{!NumOps} `{!NonNative} `{!P256Group} `{!CompressionGadget} `{!Uint32Constants} `{!PublicNums}.
Context (σ : Assignment).
Add Field scalar_field : scalar_field_theory (morphism of_int_morph, constants [scalar_const]).
Local Abbreviation D := (denotes σ).

Definition key_of (x y : AllocatedNum) : Affine := {| ax := nval σ x; ay := nval σ y |}.

Definition credential_shown (cb : CredentialBinding) : Prop := ∃ m n ra item date from until rb,
  credential_holds m n ra item (key_of (cb_issuer_qx cb) (cb_issuer_qy cb)) date from until ∧
  region_values σ m rb ra ∧
  cb_doc_type cb = rb_doc_type rb ∧ cb_namespace cb = rb_namespace rb ∧
  cb_namespace_prefix_len cb = rb_namespace_prefix_len rb ∧ cb_num_entries cb = rb_num_entries rb ∧
  cb_device_key cb = rb_device_key rb ∧
  bytes_of_nums σ (cb_birth_date cb) date ∧ bytes_of_nums σ (cb_valid_from cb) from ∧ bytes_of_nums σ (cb_valid_until cb) until.

(** * A digest in packs *)
Lemma digest_pack_value bits m k :
  bits_are D bits (m ≫= Prelude.byte_bits) → k * 16 + 16 ≤ length m →
  ∃ lc, digest_pack_lc bits k = Ok lc ∧ eval σ lc = of_int (be_int (pack_of m k)).
Proof.
  intros HB Hk. destruct (pack_bytes_value σ bits m (k * 16) 0 16 16 HB) as (acc & E & V); [lia|]. exists acc. split.
  - rewrite <-E. unfold digest_pack_lc, BYTES_PER_PACK. change (range 16) with (seq 0 16).
    assert (∀ i, i ∈ seq 0 16 → (k * 16 + i <? length m)%nat = true) as Hi
      by (intros i Hi%elem_of_seq; apply Nat.ltb_lt; lia).
    generalize lc_zero. revert Hi. generalize (seq 0 16). intros l. induction l as [|i l IH]; intros Hi z; [done|].
    cbn [foldM]. cbv zeta. rewrite (Hi i) by by apply elem_of_cons; left.
    destruct (byte_lc bits (k * 16 + i) (byte_shifts (16 - 1 - i) ONE)); cbn [mbind outcome_bind]; try done.
    apply IH. intros j Hj. apply Hi. by apply elem_of_cons; right.
  - rewrite V. change (0 + 16 - 16) with 0. rewrite Z.mul_1_r. do 2 f_equal. unfold pack_of. apply list_eq. intros i.
    rewrite list_lookup_fmap. destruct (decide (i < 16)) as [L|L].
    + rewrite lookup_seq_lt, lookup_slice by lia. cbn [fmap option_fmap option_map].
      destruct (lookup_lt_is_Some_2 m (k * 16 + i)) as [b Eb]; [lia|]. replace (16 * k + i) with (k * 16 + i) by lia. by rewrite Nat.add_0_l, Eb.
    + rewrite !lookup_ge_None_2; [done| |]; rewrite ?length_seq; [|lia]. unfold slice. rewrite length_take. lia.
Qed.

(** The rules of the packs make the window the digest. *)
Lemma gadget_digest_packs name bits digest ps v :
  bits_are D bits (digest ≫= Prelude.byte_bits) → length digest = 32 → length v = 32 → packs_are σ ps v →
  gadget σ (mapM (λ '(p, pack),
    lc ← lift (digest_pack_lc bits p);
    enforce (name p) (lc_add lc_zero lc) (lc_add_var lc_zero one) (lc_add_var lc_zero (get_variable pack)))
    (imap (λ p pack, (p, pack)) ps)) (λ _, v = digest).
Proof.
  intros HB Ld Lv HP. pose proof (Forall2_length _ _ _ HP) as Lp. rewrite Lv in Lp. change (length (range (div_ceil 32 16))) with 2 in Lp.
  eapply gadget_mono; [apply (gadget_mapM_Forall2 σ _ _ (λ '(p, pack) _, of_int (be_int (pack_of digest p)) = nval σ pack))|].
  - intros [j a] Hin. apply list_elem_of_lookup in Hin as (i & Ei). apply list_lookup_imap_Some in Ei as (a' & Ea & [= -> ->]).
    apply lookup_lt_Some in Ea. destruct (digest_pack_value bits digest i HB) as (lc & E & V); [lia|].
    eapply gadget_bind; [by apply gadget_lift|]. intros ? ->. eapply gadget_mono; [apply gadget_enforce|]. intros [] Er. cbv beta in Er.
    autorewrite with evals in Er. rewrite V in Er. fold_nval Er. cbv beta iota. by_rule Er.
  - intros us HU. apply packs_determine; [lia|]. intros k Hk. rewrite Lv in Hk. change (div_ceil 32 16) with 2 in Hk.
    destruct (lookup_lt_is_Some_2 ps k) as [a Ea]; [lia|]. destruct (Forall2_lookup_l _ _ _ k (k, a) HU) as (u & _ & Ek).
    { by rewrite list_lookup_imap, Ea. }
    apply pack_inj; [rewrite !length_pack_of; lia|rewrite length_pack_of; lia|].
    rewrite Ek. symmetry. apply (Forall2_lookup_lr _ _ _ k k a HP); [|done]. rewrite Lv. change (range (div_ceil 32 16)) with [0; 1].
    destruct k as [|[|]]; done || lia.
Qed.

Lemma wrapped_difference_ok a b : b ≤ a → (Z.of_nat a < 2 ^ 16)%Z → wrapped_difference a b = a - b.
Proof.
  intros Hb Ha. unfold wrapped_difference. rewrite Z.mod_small by lia. change 0xffff%Z with (Z.ones 16).
  rewrite Z.land_ones, Z.mod_small by lia. lia.
Qed.

(** * The credential *)
Lemma length_fips_sha256 m : length (fips_sha256 m) = 32.
Proof.
  rewrite <-chain_fips. destruct (chain_words (fips_pad m) (terminal_block_for_len (length m))) as [Hl _].
  rewrite length_words_to_bytes, Hl. done.
Qed.

Lemma gadget_credential w e sig_hasher item_hasher :
  credential_checks w →
  compressions_done σ sig_hasher SIG_STRUCTURE_BLOCKS → compressions_done σ item_hasher NUM_BLOCKS →
  gadget σ (synthesize_credential w e sig_hasher item_hasher) credential_shown.
Proof.
  intros HC Hs Hi. unfold synthesize_credential.
  pose proof (ch_message _ HC) as Lm. pose proof (ch_item _ HC) as Lit. pose proof (ch_region _ HC) as Hreg.
  pose proof (ch_digest _ HC) as Hdig. pose proof (ch_validity _ HC) as Hval.
  rewrite !(proj2 (Nat.ltb_ge _ _)) by done. set (padded := resize _ _ (sig_structure w)) in *.
  assert (length padded = MAX_SIG_STRUCTURE_BYTES) as Lp by apply length_resize.
  assert (MAX_SIG_STRUCTURE_BYTES = 2551) as EM by reflexivity. assert (MAX_CLAIM_BYTES_V1 = 176) as EI by reflexivity.
  eapply gadget_bind; [apply gadget_alloc_byte_bits|]. intros sig_bits (m & Hm & HB). rewrite Lp in Hm.
  assert (Z.of_nat (S (length m)) < 2 ^ 63)%Z as H63' by (rewrite Hm, EM; by vm_compute).
  assert (Z.of_nat (length m) < 2 ^ 63)%Z as H63 by lia.
  eapply gadget_bind.
  { apply gadget_ns. rewrite <-Hm. apply (gadget_hash σ _ _ m); [done|done|lia|done|]. rewrite Hm, EM. by apply Nat.leb_le. }
  intros [z_bits act0] (n & Hn & HZ & _). rewrite Hm in Hn.
  eapply gadget_bind; [apply gadget_ns, gadget_AllocatedNum_alloc|]. intros qx _.
  eapply gadget_bind; [apply gadget_ns, gadget_AllocatedNum_alloc|]. intros qy _.
  destruct (bits_bignat σ _ _ HZ) as (z_bn & Ez & Hz); [rewrite length_bind_byte_bits, length_fips_sha256; done|].
  rewrite bits_int_bind_byte_bits in Hz.
  eapply gadget_bind; [by apply gadget_lift|]. intros ? ->.
  eapply gadget_bind; [by apply gadget_ns, gadget_verify_with_digest|]. intros [] Hsig. cbv beta zeta in Hsig.
  eapply gadget_bind; [apply gadget_ns, (gadget_bind_digest_region σ sig_bits m padded HB); [lia|exact H63|exact Hreg]|].
  intros rb (ra & Hra & Hrv). pose proof Hrv as (Vs & Ve & _). destruct (rc_end _ _ _ Hreg) as (e_n & Een & He). cbn [shape_num_entries] in Een.
  eapply gadget_bind; [apply gadget_ns; rewrite <-Lp; apply (gadget_select_at σ sig_bits m padded 32 _ _ HB); [lia|exact H63|lia]|].
  intros located (o & Ho & Vo & HP). rewrite window_bytes_slice in HP by lia.
  pose proof (entries_end_bound _ _ _ _ (entries_walk _ _ Hra)) as Be. pose proof (start_in_message _ _ Hra) as Bs.
  pose proof (end_in_table _ _ Hra) as Bd. pose proof (device_in_message _ _ Hra) as Bk.
  eapply gadget_bind; [apply gadget_ns; apply (gadget_enforce_ge _ _ _ _ _ (Z.of_nat o) (Z.of_nat (at_start ra + at_prefix ra))); try done; lia|].
  intros [] Hge1. cbv beta in Hge1.
  eapply gadget_bind; [by apply gadget_lift|]. intros ? ->.
  eapply gadget_bind; [apply gadget_lift, add_usize_ok; lia|]. intros ? ->.
  eapply gadget_bind; [apply gadget_ns; apply (gadget_enforce_ge _ _ _ _ _ (Z.of_nat (at_end ra)) (Z.of_nat (o + 32))); try done; try lia|].
  { autorewrite with evals. rewrite Vo, from_u64_of_int, Nat2Z.inj_add, of_int_add by lia. ring. }
  intros [] Hge2. cbv beta in Hge2. set (item_padded := resize _ _ (item_bytes w)).
  assert (length item_padded = MAX_CLAIM_BYTES_V1) as Lip by apply length_resize.
  eapply gadget_bind; [apply gadget_alloc_byte_bits|]. intros item_bits (it & Hit & HBi). rewrite Lip in Hit.
  eapply gadget_bind.
  { apply gadget_ns. rewrite <-Hit. apply (gadget_hash σ _ _ it); [done|done|lia|rewrite Hit; by vm_compute|].
    rewrite Hit. by apply Nat.leb_le. }
  intros [digest_bits active] (k & Hk & HD & HA). rewrite Hit in Hk, HA.
  eapply gadget_bind; [apply (gadget_digest_packs _ _ _ _ (slice o (o + 32) m) HD); [apply length_fips_sha256| |exact HP]; rewrite length_slice; lia|].
  intros us Edig. cbv beta in Edig. clear us.
  eapply gadget_bind; [apply gadget_ns, (gadget_extract_birth_date σ _ it _ _ k); [exact HBi|lia|lia|exact HA|exact (ch_date _ HC)]|].
  intros date (base & enc & d & Hb & Hbk & Ld & Et & _ & Hd).
  eapply gadget_bind; [apply gadget_ns, (gadget_bind_validity σ sig_bits m padded _ HB); [lia|exact H63|lia]|].
  intros [from until] (vo & signed & f & u & Hvo & Ev & L1 & L2 & L3 & Hf & Hu). apply gadget_ret.
  exists m, n, ra, (take k it), d, f, u, rb. split; [|by split_and!].
  split; [lia|done|done| | |by exists vo, signed].
  - exists o. split_and!; [lia|lia|done].
  - split; [done|]. exists base, enc. split; [done|]. rewrite <-Et. unfold slice. rewrite !skipn_firstn_comm, take_take. f_equal. lia.
Qed.

(** * The session *)

(** What a session shows: the device key signed the digest, the clock is in
    the validity window, and the answer compares the date with the cutoff. *)
Definition session_shown (device_key : AllocatedNum * AllocatedNum) (birth_date valid_from valid_until : list AllocatedNum)
    (so : SessionOutputs) : Prop := ∃ digest date from until now cutoff,
  length digest = 32 ∧ packs_are σ (so_device_auth_digest so) digest ∧
  signed_by (key_of device_key.1 device_key.2) (be_int digest) ∧
  bytes_of_nums σ birth_date date ∧ bytes_of_nums σ valid_from from ∧ bytes_of_nums σ valid_until until ∧
  bytes_of_nums σ (so_now so) now ∧ bytes_of_nums σ (so_cutoff so) cutoff ∧
  slice_le from now = true ∧ slice_le now until = true ∧
  D (bit (so_old_enough so)) (of_bool (slice_le date cutoff)).

Lemma gadget_alloc_byte_nums bytes tag : gadget σ (alloc_byte_nums bytes tag) (λ nums, length nums = length bytes).
Proof.
  eapply gadget_mono; [apply (gadget_mapM_Forall2 σ _ _ (λ _ _, True)); intros [i b] _; apply gadget_ns, gadget_AllocatedNum_alloc|].
  intros nums HF. by rewrite <-(Forall2_length _ _ _ HF), length_imap.
Qed.

(** A digest's packs, each a new slot. *)
Lemma gadget_published_digest bits digest given :
  bits_are D bits (digest ≫= Prelude.byte_bits) → length digest = 32 → length given = 32 →
  gadget σ (mapM (λ p,
    lc ← lift (digest_pack_lc bits p);
    value ← foldM (λ acc i,
      b ← index given (p * BYTES_PER_PACK + i);
      mret (acc * from_u64 256 + from_u64 (b2z b))%S) ZERO (range BYTES_PER_PACK);
    out ← ns ("device auth pack " +:+ pretty p) (AllocatedNum_alloc (Ok value));
    enforce ("device auth pack " +:+ pretty p +:+ " recombines")
      (lc_add lc_zero lc) (lc_add_var lc_zero one) (lc_add_var lc_zero (get_variable out)) ;;
    mret out) (range 2)) (λ ps, packs_are σ ps digest).
Proof.
  intros HB Ld Lg. unfold packs_are. rewrite Ld. change (div_ceil 32 16) with 2.
  apply (gadget_mapM_Forall2 σ). intros k Hk%elem_of_seq. destruct (digest_pack_value bits digest k HB) as (lc & E & V); [lia|].
  eapply gadget_bind; [by apply gadget_lift|]. intros ? ->. eapply gadget_bind.
  { apply (gadget_foldM σ _ _ _ (λ _ _, True)); [done|]. intros done i acc Hi _. apply prefix_snoc_lookup in Hi as [Hi _].
    apply lookup_seq in Hi as [-> Hi]. unfold BYTES_PER_PACK in *.
    destruct (lookup_lt_is_Some_2 given (k * 16 + (0 + length done))) as [b Eb]; [lia|].
    eapply gadget_bind; [by apply gadget_index_nth|]. intros ? _. by apply gadget_ret. }
  intros value _. eapply gadget_bind; [apply gadget_ns, gadget_AllocatedNum_alloc|]. intros out _.
  rule_as Er. apply gadget_ret. rewrite V in Er. fold_nval Er. by_rule Er.
Qed.

(** A comparison that is enforced. *)
Lemma gadget_enforced name b v : D (bit b) (of_bool v) →
  gadget σ (ns name (Boolean_enforce_equal b (Boolean_constant true))) (λ _, v = true).
Proof. intros Hb. apply gadget_ns. by apply (Boolean_enforce_equal_rules σ _ _ _ _ Hb), Boolean_constant_denotes. Qed.

Lemma gadget_session dk bd vf vu da cutoff now digest :
  length digest = 32 → length vf = length now → length vu = length now → length bd = length cutoff →
  gadget σ (synthesize_session dk bd vf vu da cutoff now digest) (λ so,
    length (so_cutoff so) = length cutoff ∧ length (so_now so) = length now ∧ session_shown dk bd vf vu so).
Proof.
  intros Ld Lf Lu Lb. unfold synthesize_session. destruct dk as [kx ky].
  eapply gadget_bind; [apply gadget_alloc_byte_bits|]. intros bits (z & Lz & HZ). rewrite Ld in Lz.
  destruct (bits_bignat σ _ _ HZ) as (z_bn & Ez & Hz); [by rewrite length_bind_byte_bits, Lz|]. rewrite bits_int_bind_byte_bits in Hz.
  eapply gadget_bind; [by apply gadget_lift|]. intros ? ->.
  eapply gadget_bind; [by apply gadget_ns, gadget_verify_with_digest|]. intros [] Hsig. cbv beta zeta in Hsig.
  eapply gadget_bind; [by apply gadget_published_digest|]. intros packed Hpacked. cbv beta in Hpacked.
  eapply gadget_bind; [apply gadget_alloc_byte_nums|]. intros now_vars Ln. cbv beta in Ln.
  eapply gadget_bind; [apply gadget_ns, gadget_date_not_after; lia|]. intros started (f & n1 & Hf & Hn1 & Hst).
  eapply gadget_bind; [by apply (gadget_enforced _ _ _ Hst)|]. intros [] E1. cbv beta in E1.
  eapply gadget_bind; [apply gadget_ns, gadget_date_not_after; lia|]. intros live (n2 & u & Hn2 & Hu & Hli).
  eapply gadget_bind; [by apply (gadget_enforced _ _ _ Hli)|]. intros [] E2. cbv beta in E2.
  rewrite <-(bytes_of_nums_inj σ _ _ _ Hn1 Hn2) in E2.
  eapply gadget_bind; [apply gadget_alloc_byte_nums|]. intros cutoff_vars Lc. cbv beta in Lc.
  eapply gadget_bind; [apply gadget_ns, gadget_date_not_after; lia|]. intros old (d & c & Hd & Hc & Hold).
  apply gadget_ret. split_and!; [done|done|]. by exists z, d, f, u, n1, c.
Qed.
End Sound.
