(* ===== verification/AgeStatement.v ===== *)
(** The circuits of the first engine and the verifier's checks together: a
    satisfied circuit, in either form, whose public values pass the checks
    shows the statement that the verifier asked for. *)
From Stdlib Require Import ZArith Lia Strings.String Strings.Byte.
From Stdlib Require Import Field_tac Ring.
From stdpp Require Import base list numbers option strings pretty.
From S2P Require Import Prelude Bytes Field ConstraintSystem Shape CheckSystem Bellpepper Lc Bits Gadgets Select Limbs BigNat BigNatRules Curve P256 Ecc Ecdsa CborUint OneHotCursor DigestId Values Sha256 Table Window Circuit Step Sha256Var Packing Sha256Mc Hasher AgeFolded OffsetBind AgeAcceptance OffsetRules AgeDates AgeRules AgeSound.

(** * The statement *)

(** The point of two coordinates in a message. *)
Definition device_point `{ScalarField} (m : list byte) (ra : RegionAt) : Affine :=
  {| ax := of_int (coordinate_at m (at_device ra + DEVICE_KEY_X_DELTA));
     ay := of_int (coordinate_at m (at_device ra + DEVICE_KEY_Y_DELTA)) |}.

(** What an accepted proof says for the verifier [expected]. The namespace
    that it names is in the message at a place of its own: the digest's region
    is counted from [at_start], which the rules do not tie to it. *)
Definition age_statement `{NonNative} `{!P256Group} (expected : ExpectedContext) (r : VerifiedAgeProof) : Prop :=
  ∃ m n ra item date from until,
  credential_holds m n ra item {| ax := v_issuer_qx r; ay := v_issuer_qy r |} date from until ∧
  signed_by (device_point m ra) (be_int (e_device_auth_digest expected)) ∧
  slice_le from (e_now expected) = true ∧ slice_le (e_now expected) until = true ∧
  slice_le date (e_cutoff expected) = true ∧
  (∃ h, tstr_header (length (v_namespace r)) = Ok h ∧
    let text := h ++ v_namespace r ++ map_header (at_count ra) in
    at_prefix ra = length text ∧ slice (at_namespace ra) (at_namespace ra + length text) m = text) ∧
  (∃ h, tstr_header (length (v_doc_type r)) = Ok h ∧
    let text := DOC_TYPE_KEY ++ h ++ v_doc_type r in
    x00 ∉ v_doc_type r → slice (at_doc_type ra) (at_doc_type ra + length text) m = text) ∧
  (v_doc_type r, v_namespace r) ∈ e_accepted expected ∧
  check_issuer (e_issuers expected) (v_issuer_qx r) (v_issuer_qy r) = true.

(** * Windows and texts *)
Lemma nums_pack16 `{BooleanOps} (σ : Assignment) ps w : packs_are σ ps w → nval σ <$> ps = pack16 w.
Proof.
  intros HP. pose proof (Forall2_length _ _ _ HP) as Lp. unfold range in Lp. rewrite length_seq in Lp.
  apply list_eq. intros k. unfold pack16. rewrite !list_lookup_fmap.
  assert (length (chunks 16 w) = length ps) as Lc by (by rewrite length_chunks by lia).
  destruct (decide (k < length ps)) as [L|L].
  - destruct (lookup_lt_is_Some_2 ps k L) as [a Ea]. destruct (lookup_lt_is_Some_2 (chunks 16 w) k) as [c Ec]; [lia|].
    rewrite Ea, Ec. cbn [fmap option_fmap option_map]. f_equal. rewrite pack_be_int. apply lookup_chunks in Ec as ->; [|lia].
    apply (Forall2_lookup_lr _ _ _ k k a HP); [|done]. unfold range. apply lookup_seq. lia.
  - by rewrite !lookup_ge_None_2 by lia.
Qed.

(** A text with no zero byte, found in a window that ends in zeros. *)
Lemma zero_past_prefix (text w : list byte) n :
  x00 ∉ text → text `prefix_of` zero_past w n → text `prefix_of` w.
Proof.
  intros Hz [rest E]. unfold zero_past in E. destruct (decide (length text ≤ length (take n w))) as [L|L].
  - exists (drop (length text) w). rewrite <-(take_drop (length text) w) at 1. f_equal.
    assert (take (length text) (take n w ++ replicate (length w - n) x00) = take (length text) (text ++ rest)) as Et by by rewrite E.
    rewrite take_app_length, take_app_le, take_take in Et by done. rewrite length_take in L. replace (length text `min` n) with (length text) in Et by lia. done.
  - destruct Hz. apply list_elem_of_lookup. exists (length (take n w)).
    assert (length (take n w) < length text) as L' by lia.
    rewrite <-(lookup_app_l text rest) by done. rewrite <-E, lookup_app_r, Nat.sub_diag by done.
    apply (f_equal length) in E. rewrite !length_app, length_replicate in E. rewrite lookup_replicate_2; [done|lia].
Qed.

Lemma length_zero_window m o n : o + 48 ≤ length m → n ≤ 40 → length (zero_past (slice o (o + ANCHOR_TEXT_WINDOW) m) n) = 40.
Proof.
  intros Ho Hn. assert (length (slice o (o + ANCHOR_TEXT_WINDOW) m) = 40) as Ls.
  { unfold ANCHOR_TEXT_WINDOW. rewrite length_slice; lia. }
  by rewrite length_zero_past by lia.
Qed.

(** A text as long as what is not zeroed, and the headers, which have no zero
    byte. *)
Lemma zero_past_full (text w : list byte) : length text ≤ length w → text `prefix_of` zero_past w (length text) → text `prefix_of` w.
Proof.
  intros Hl [rest E]. exists (drop (length text) w). rewrite <-(take_drop (length text) w) at 1. f_equal.
  apply (f_equal (take (length text))) in E. unfold zero_past in E.
  rewrite take_app_length, take_app_length' in E by (rewrite length_take; lia). done.
Qed.

Lemma doc_type_key_nonzero h s : tstr_header (length s) = Ok h → x00 ∉ s → x00 ∉ DOC_TYPE_KEY ++ h ++ s.
Proof.
  intros Eh Hs. rewrite !elem_of_app. intros [Hk|[Hh|]]; [|  |done].
  - revert Hk. apply (bool_decide_unpack _). by vm_compute.
  - unfold tstr_header in Eh. destruct (Nat.leb_spec 256 (length s)); [done|]. injection Eh as <-.
    destruct (Nat.ltb_spec (length s) 24) as [L|L].
    + apply list_elem_of_singleton in Hh. apply (f_equal b2z) in Hh. rewrite head_byte in Hh by (done || by left).
      change (b2z x00) with 0%Z in Hh. lia.
    + rewrite elem_of_cons, list_elem_of_singleton in Hh. destruct Hh as [?|Hh]; [done|].
      apply (f_equal b2z) in Hh. rewrite z2b_small in Hh by lia. change (b2z x00) with 0%Z in Hh. lia.
Qed.

Lemma window_text m o (text : list byte) :
  text `prefix_of` slice o (o + ANCHOR_TEXT_WINDOW) m → slice o (o + length text) m = text.
Proof.
  intros [rest E]. unfold slice in *. rewrite Nat.add_comm, Nat.add_sub in E.
  assert (take (length text) (take ANCHOR_TEXT_WINDOW (drop o m)) = text) as Et by by rewrite E, take_app_length.
  apply (f_equal length) in E. rewrite length_app, length_take in E. rewrite take_take in Et.
  replace (o + length text - o) with (length text) by lia. by replace (length text `min` ANCHOR_TEXT_WINDOW) with (length text) in Et by lia.
Qed.

Lemma slice_middle {A} (a b c : list A) n k : length a = n → length b = k → slice n (n + k) (a ++ b ++ c) = b.
Proof. intros <- <-. unfold slice. rewrite drop_app_length, Nat.add_comm, Nat.add_sub. apply take_app_length. Qed.

Section Statement.
Context `{BooleanLogic} `{!NumOps} `{!NonNative} `{!P256Group} `{!CompressionGadget} `{!Uint32Constants} `{!PublicNums}.
Context (σ : Assignment).
Add Field scalar_field : scalar_field_theory (morphism of_int_morph, constants [scalar_const]).
Local Abbreviation D := (denotes σ).

(** * Public values *)
(** The public values that slots from [ni] on hold. *)
Definition inputs (ni n : nat) : list Scalar := (λ k, σ (Input k)) <$> seq ni n.

Lemma inputs_app ni n n' : inputs ni (n + n') = inputs ni n ++ inputs (ni + n) n'.
Proof. unfold inputs. by rewrite seq_app, fmap_app. Qed.

Lemma wp_inputize_list {A} (name : A → string) xs na ni (Q : list unit → nat → nat → Prop) :
  (∀ us na', inputs ni (length xs) = (λ x, nval σ x.2) <$> xs → Q us na' (ni + length xs)) →
  wp σ (mapM (λ '(i, p), ns (name i) (AllocatedNum_inputize p)) xs) na ni Q.
Proof.
  revert na ni Q. induction xs as [|[i p] xs IH]; intros na ni Q HQ.
  - cbn [mapM wp]. cbn in HQ. rewrite Nat.add_0_r in HQ. by apply HQ.
  - cbn [mapM]. apply wp_bind, wp_ns, inputize_wp. intros Hp. apply wp_bind, IH. intros us na' Hxs.
    cbn [wp]. cbn [length] in HQ. rewrite Nat.add_succ_comm. apply HQ. unfold inputs in *. cbn [seq fmap list_fmap snd].
    by rewrite Hp, Hxs.
Qed.

Lemma wp_inputize_all (name : nat → string) ps na ni (Q : list unit → nat → nat → Prop) :
  (∀ us na', inputs ni (length ps) = nval σ <$> ps → Q us na' (ni + length ps)) →
  wp σ (mapM (λ '(i, p), ns (name i) (AllocatedNum_inputize p)) (imap (λ i p, (i, p)) ps)) na ni Q.
Proof.
  intros HQ. apply wp_inputize_list. rewrite length_imap, fmap_imap.
  assert (imap (λ (n : nat), (λ x : nat * AllocatedNum, nval σ x.2) ∘ (λ p, (n, p))) ps = nval σ <$> ps) as E by exact (imap_const (nval σ) ps).
  rewrite E. exact HQ.
Qed.

(** * The circuits *)
(** The parts that the verifier's values and the session are taken from. *)
Definition precommitted_parts (cb : CredentialBinding) (pre : list AllocatedNum) : Prop :=
  pre = [cb_issuer_qx cb; cb_issuer_qy cb] ++ cb_doc_type cb ++ cb_namespace cb ++
    [cb_namespace_prefix_len cb; cb_num_entries cb; (cb_device_key cb).1; (cb_device_key cb).2] ++
    cb_birth_date cb ++ cb_valid_from cb ++ cb_valid_until cb ∧
  length (cb_doc_type cb) = 3 ∧ length (cb_namespace cb) = 3 ∧ length (cb_birth_date cb) = 10 ∧
  length (cb_valid_from cb) = 20 ∧ length (cb_valid_until cb) = 20.

Lemma text_read_packs m ps o n : text_read σ m ps o n → length ps = 3.
Proof.
  intros (Ho & Hn & HP). pose proof (Forall2_length _ _ _ HP) as Lp. rewrite <-Lp. unfold range. rewrite length_seq.
  unfold MAX_ANCHOR_WINDOW, ANCHOR_TEXT_WINDOW in *. rewrite length_zero_past, length_slice by (rewrite ?length_slice; lia).
  replace (o + 40 - o) with 40 by lia. done.
Qed.

Lemma credential_parts cb : credential_shown σ cb → ∃ pre, pack_precommitted cb = Ok pre ∧ precommitted_parts cb pre.
Proof.
  intros (m & n & ra & item & date & from & until & rb & HC & (_ & _ & _ & _ & Hns & (k & Hdoc) & _) & Ed & En & _ & _ & _ & Hd & Hf & Hu).
  destruct (birth_date_in_item _ _ _ _ _ _ _ _ HC) as [Ld _]. destruct (validity_in_message _ _ _ _ _ _ _ _ HC) as (? & ? & _ & _ & _ & Lf & Lu).
  apply text_read_packs in Hns, Hdoc. rewrite <-En in Hns. rewrite <-Ed in Hdoc.
  apply Forall2_length in Hd, Hf, Hu. unfold TIMESTAMP_LEN in *. unfold pack_precommitted. cbv zeta.
  set (out := _ ++ _ ++ _ ++ _ ++ _ ++ _ ++ _). exists out.
  assert (length out = PRECOMMITTED_LEN) as Lo by (unfold out; rewrite !length_app; cbn [length]; change PRECOMMITTED_LEN with 62; lia).
  rewrite Lo, Nat.eqb_refl. split; [done|]. split_and!; done || lia.
Qed.

Lemma gadget_precommitted w e sig_hasher item_hasher :
  credential_checks w →
  compressions_done σ sig_hasher SIG_STRUCTURE_BLOCKS → compressions_done σ item_hasher NUM_BLOCKS →
  gadget σ (cred ← synthesize_credential w e sig_hasher item_hasher; lift (pack_precommitted cred)) (λ pre,
    ∃ cb, credential_shown σ cb ∧ precommitted_parts cb pre).
Proof.
  intros HC Hs Hi. eapply gadget_bind; [by apply gadget_credential|]. intros cb Hcb.
  destruct (credential_parts cb Hcb) as (pre & E & HP). eapply gadget_mono; [by apply gadget_lift|]. intros ? ->. by exists cb.
Qed.

(** * The rules of a session *)
Lemma wp_synthesize c cb pre na ni (Q : unit → nat → nat → Prop) :
  precommitted_parts cb pre →
  length (AgeAcceptance.cutoff c) = 10 → length (AgeAcceptance.now c) = 20 → length (AgeAcceptance.device_auth_digest c) = 32 →
  (∀ na' so old,
    session_shown σ (cb_device_key cb) (cb_birth_date cb) (cb_valid_from cb) (cb_valid_until cb) so →
    D (bit (so_old_enough so)) old →
    length (so_cutoff so) = 10 → length (so_now so) = 20 → length (so_device_auth_digest so) = 2 →
    inputs ni PUBLIC_INPUT_LEN = age_values (nval σ (cb_issuer_qx cb)) (nval σ (cb_issuer_qy cb))
      (nval σ <$> cb_doc_type cb) (nval σ <$> cb_namespace cb)
      (nval σ (cb_namespace_prefix_len cb)) (nval σ (cb_num_entries cb))
      (nval σ <$> so_cutoff so) (nval σ <$> so_now so) (nval σ <$> so_device_auth_digest so) old →
    Q tt na' (ni + PUBLIC_INPUT_LEN)) →
  wp σ (MdocAge_synthesize c pre) na ni Q.
Proof.
  intros (Epre & L1 & L2 & L3 & L4 & L5) Lc Ln Ld HQ. unfold MdocAge_synthesize. cbv zeta.
  set (head := [cb_issuer_qx cb; cb_issuer_qy cb] ++ cb_doc_type cb ++ cb_namespace cb ++ [cb_namespace_prefix_len cb; cb_num_entries cb]).
  assert (pre = head ++ [(cb_device_key cb).1; (cb_device_key cb).2] ++ cb_birth_date cb ++ cb_valid_from cb ++ cb_valid_until cb) as E.
  { rewrite Epre. unfold head. by rewrite <-!app_assoc. }
  assert (length head = PUBLIC_FROM_PRECOMMITTED) as Lh by (unfold head; rewrite !length_app; cbn [length]; rewrite L1, L2; done).
  assert (length pre = PRECOMMITTED_LEN) as Lp by (rewrite E, !length_app, Lh, L3, L4, L5; done).
  rewrite Lp, Nat.eqb_refl. cbn [negb]. rewrite E, take_app_length' by done. rewrite <-E.
  apply wp_bind, wp_inputize_all. intros us na1 Hin1. rewrite Lh in Hin1. rewrite Lh.
  assert (pre !! PUBLIC_FROM_PRECOMMITTED = Some (cb_device_key cb).1 ∧ pre !! (PUBLIC_FROM_PRECOMMITTED + 1) = Some (cb_device_key cb).2) as [Kx Ky].
  { rewrite E. split; rewrite lookup_app_r, Lh by (rewrite Lh; lia); reflexivity. }
  apply wp_bind. eapply wp_gadget; [by apply gadget_index_nth|]. intros ? na2 ->.
  apply wp_bind. eapply wp_gadget; [by apply gadget_index_nth|]. intros ? na3 ->. rewrite <-surjective_pairing.
  set (bd := cb_birth_date cb) in *. set (vf := cb_valid_from cb) in *. set (vu := cb_valid_until cb) in *.
  assert (slice (PUBLIC_FROM_PRECOMMITTED + 2) (PUBLIC_FROM_PRECOMMITTED + 2 + 10) pre = bd ∧
    slice (PUBLIC_FROM_PRECOMMITTED + 2 + 10) (PUBLIC_FROM_PRECOMMITTED + 2 + 10 + TIMESTAMP_LEN) pre = vf ∧
    slice (PUBLIC_FROM_PRECOMMITTED + 2 + 10 + TIMESTAMP_LEN) (PUBLIC_FROM_PRECOMMITTED + 2 + 10 + 2 * TIMESTAMP_LEN) pre = vu) as (-> & -> & ->).
  { rewrite E. split_and!.
    - rewrite app_assoc. apply slice_middle; [by rewrite length_app, Lh|done].
    - rewrite !app_assoc, <-(app_assoc _ vf). apply slice_middle; [by rewrite !length_app, Lh, L3|done].
    - rewrite !app_assoc, <-(app_nil_r (_ ++ vu)), <-app_assoc.
      apply (slice_middle _ vu [] (PUBLIC_FROM_PRECOMMITTED + 2 + 10 + TIMESTAMP_LEN) 20); [by rewrite !length_app, Lh, L3, L4|done]. }
  apply wp_bind. eapply wp_gadget; [by apply gadget_session; [done|rewrite Ln; exact L4|rewrite Ln; exact L5|rewrite Lc; exact L3]|].
  intros so na4 (Lsc & Lsn & HS). rewrite Lc in Lsc. rewrite Ln in Lsn.
  pose proof HS as (z & d & f & u & n & k & Lz & Hz & _ & _ & _ & _ & _ & _ & _ & _ & Hold).
  assert (length (so_device_auth_digest so) = 2) as Lsd by (by rewrite <-(Forall2_length _ _ _ Hz), Lz).
  apply wp_bind, wp_inputize_all. intros us1 na5 Hin2. rewrite Lsc in *.
  apply wp_bind, wp_inputize_all. intros us2 na6 Hin3. rewrite Lsn in *.
  apply wp_bind, wp_inputize_all. intros us3 na7 Hin4. rewrite Lsd in *.
  apply wp_bind. eapply wp_gadget; [apply gadget_ns, gadget_AllocatedNum_alloc|]. intros old na8 _.
  apply wp_bind. eapply wp_gadget; [apply gadget_enforce|]. intros [] na9 Er. cbv beta in Er.
  apply wp_ns, inputize_wp. intros Hin5.
  autorewrite with evals in Er. fold_nval Er.
  replace (S (ni + PUBLIC_FROM_PRECOMMITTED + 10 + 20 + 2)) with (ni + PUBLIC_INPUT_LEN) by (unfold PUBLIC_INPUT_LEN, TIMESTAMP_LEN; lia).
  apply (HQ na9 so (nval σ old) HS); try done.
  - unfold denotes, lval, bit. cbn [lc]. by_rule Er.
  - change PUBLIC_INPUT_LEN with (PUBLIC_FROM_PRECOMMITTED + (10 + (20 + (2 + 1)))). rewrite !inputs_app, Hin1.
    rewrite Hin2, Hin3, Hin4. unfold age_values, head. rewrite !fmap_app, <-!app_assoc. do 6 f_equal.
    unfold inputs. cbn [seq fmap list_fmap]. by rewrite Hin5.
Qed.

(** * What the verifier's checks add *)
Lemma nums_are_bytes nums l l' : bytes_of_nums σ nums l → nval σ <$> nums = byte_scalars l' → l = l'.
Proof.
  intros HF E. unfold byte_scalars in E. assert (length l = length l') as Hl.
  { apply (f_equal length) in E. rewrite !length_fmap in E. by rewrite <-E, (Forall2_length _ _ _ HF). }
  apply list_eq_same_length with (length l'); [done|done|]. intros i b b' _ Eb Eb'.
  destruct (Forall2_lookup_r _ _ _ _ _ HF Eb) as (a & Ea & Ha). apply (f_equal (λ l, l !! i)) in E.
  rewrite !list_lookup_fmap, Ea, Eb' in E. cbn [fmap option_fmap option_map] in E. injection E as E. rewrite Ha in E.
  pose proof (b2z_range b). pose proof (b2z_range b'). rewrite from_u64_of_int in E by lia.
  apply b2z_inj, of_int_inj; [split; [lia|]; eapply Z.lt_trans; [|apply (lt_pow_p 8); lia]; lia..|done].
Qed.

Lemma pack16_inj w w' : length w = length w' → pack16 w = pack16 w' → w = w'.
Proof.
  intros Hl E. apply packs_determine; [done|]. intros k Hk. apply (f_equal (λ l, l !! k)) in E. unfold pack16 in E.
  rewrite !list_lookup_fmap in E.
  destruct (lookup_lt_is_Some_2 (chunks 16 w) k) as [c Ec]; [by rewrite length_chunks by lia|].
  destruct (lookup_lt_is_Some_2 (chunks 16 w') k) as [c' Ec']; [by rewrite length_chunks, <-Hl by lia|].
  rewrite Ec, Ec' in E. cbn [fmap option_fmap option_map] in E. injection E as E. rewrite !pack_be_int in E.
  apply lookup_chunks in Ec as ->, Ec' as ->; [|lia..]. apply pack_inj; [by rewrite !length_pack_of, Hl|rewrite length_pack_of; lia|exact E].
Qed.

(** A count that is published. *)
Lemma count_published n n' : (Z.of_nat n < 2 ^ 64)%Z → (Z.of_nat n' < 2 ^ 64)%Z → of_int (Z.of_nat n) = from_u64 (Z.of_nat n') → n = n'.
Proof.
  intros Hn Hn' E. rewrite from_u64_of_int in E by lia. apply Nat2Z.inj, of_int_inj; [| |done];
    (split; [lia|]; eapply Z.lt_trans; [|apply (lt_pow_p 64); lia]; lia).
Qed.

Lemma age_values_inj qx qy doc nsw pre cnt cut now dig old qx' qy' doc' nsw' pre' cnt' cut' now' dig' old' :
  age_values qx qy doc nsw pre cnt cut now dig old = age_values qx' qy' doc' nsw' pre' cnt' cut' now' dig' old' →
  length doc = length doc' → length nsw = length nsw' → length cut = length cut' → length now = length now' →
  length dig = length dig' →
  (qx = qx' ∧ qy = qy' ∧ doc = doc' ∧ nsw = nsw' ∧ pre = pre') ∧ cnt = cnt' ∧ cut = cut' ∧ now = now' ∧ dig = dig' ∧ old = old'.
Proof.
  intros E L1 L2 L3 L4 L5. injection E as -> -> E. apply app_inj_1 in E as [-> E]; [|done].
  apply app_inj_1 in E as [-> E]; [|done]. injection E as -> -> E. apply app_inj_1 in E as [-> E]; [|done].
  apply app_inj_1 in E as [-> E]; [|done]. apply app_inj_1 in E as [-> E]; [|done]. injection E as ->. done.
Qed.

(** What the halves show, with the values that the verifier accepted. *)
Lemma shown_statement cb so old expected r :
  credential_shown σ cb →
  session_shown σ (cb_device_key cb) (cb_birth_date cb) (cb_valid_from cb) (cb_valid_until cb) so →
  D (bit (so_old_enough so)) old →
  length (e_device_auth_digest expected) = 32 →
  shown (age_values (nval σ (cb_issuer_qx cb)) (nval σ (cb_issuer_qy cb)) (nval σ <$> cb_doc_type cb) (nval σ <$> cb_namespace cb)
    (nval σ (cb_namespace_prefix_len cb)) (nval σ (cb_num_entries cb))
    (nval σ <$> so_cutoff so) (nval σ <$> so_now so) (nval σ <$> so_device_auth_digest so) old) expected r →
  length (cb_doc_type cb) = 3 → length (cb_namespace cb) = 3 →
  length (so_cutoff so) = 10 → length (so_now so) = 20 → length (so_device_auth_digest so) = 2 →
  length (e_cutoff expected) = 10 → length (e_now expected) = 20 →
  age_statement expected r.
Proof.
  intros (m & n & ra & item & date & from & until & rb & HC & (Vs & Ve & Vp & Vc & Hns & (k & Hdoc) & Vx & Vy) & Ed & En & Ep & Ec & Edk & Hd & Hf & Hu).
  intros (z & d' & f' & u' & now & cutoff & Lz & Hz & Hsig & Hd' & Hf' & Hu' & Hn & Hk & Hst & Hli & Hold) Hold' Le Hshown Ldoc Lns Lcut Lnow Ldig Lec Len.
  destruct Hshown as (doc & nsw & dh & nh & entries & Ev & Ldoc' & Lns' & Hent & Hu1 & Hu2 & Edh & Pdoc & Enh & Pns & Hacc & Hiss).
  assert (length (pack16 (e_device_auth_digest expected)) = 2) as L16.
  { unfold pack16. rewrite length_fmap, length_chunks, Le by lia. done. }
  apply age_values_inj in Ev as ((Eqx & Eqy & Edoc & Ens & Epre) & Ecnt & Ecut & Enow & Edig & Eold);
    [|unfold byte_scalars; rewrite ?length_fmap; lia..].
  rewrite (nums_pack16 σ _ _ Hz) in Edig. apply pack16_inj in Edig; [|lia]. subst z.
  apply (nums_are_bytes _ _ _ Hk) in Ecut. apply (nums_are_bytes _ _ _ Hn) in Enow. subst cutoff now.
  pose proof (bytes_of_nums_inj σ _ _ _ Hd' Hd) as ->. pose proof (bytes_of_nums_inj σ _ _ _ Hf' Hf) as ->.
  pose proof (bytes_of_nums_inj σ _ _ _ Hu' Hu) as ->. subst old.
  assert (slice_le date (e_cutoff expected) = true) as Hage.
  { apply of_bool_inj. unfold denotes, lval, bit in Hold, Hold'. cbn [lc] in Hold, Hold'. by rewrite <-Hold, Hold'. }
  rewrite Ep, Vp in Epre. rewrite Ec, Vc in Ecnt. pose proof (start_in_message _ _ (region_in_message _ _ _ _ _ _ _ _ HC)) as Hsm.
  pose proof (entry_count _ _ (region_in_message _ _ _ _ _ _ _ _ HC)) as Hcnt. unfold MAX_NAMESPACE_ENTRIES in Hcnt.
  apply count_published in Ecnt as <-; [|lia..].
  destruct Hns as (Ho1 & Hp & HPns), Hdoc as (Ho2 & Hk2 & HPdoc). unfold MAX_ANCHOR_WINDOW in Ho1, Ho2.
  rewrite Ed, (nums_pack16 σ _ _ HPdoc) in Edoc. rewrite En, (nums_pack16 σ _ _ HPns) in Ens. subst doc nsw.
  rewrite unpack_pack16 in Pdoc, Pns by (apply length_zero_window; unfold ANCHOR_TEXT_WINDOW in *; lia).
  set (ns_text := nh ++ v_namespace r ++ map_header (at_count ra)) in *.
  assert (length ns_text ≤ 40) as Lnt.
  { etransitivity; [by apply prefix_length|]. by rewrite length_zero_window by (unfold ANCHOR_TEXT_WINDOW in *; lia). }
  unfold ANCHOR_TEXT_WINDOW in Hp. apply count_published in Epre; [|lia..].
  unfold key_of in HC. rewrite Eqx, Eqy in HC. exists m, n, ra, item, date, from, until. split_and!; try done.
  - rewrite Edk in Hsig. unfold key_of in Hsig. rewrite Vx, Vy in Hsig. exact Hsig.
  - exists nh. split; [done|]. fold ns_text. split; [done|]. apply window_text. rewrite Epre in Pns.
    apply zero_past_full; [|exact Pns]. unfold ANCHOR_TEXT_WINDOW. rewrite length_slice; lia.
  - exists dh. split; [done|]. cbv zeta. intros Hz0. apply window_text. eapply zero_past_prefix; [|exact Pdoc]. by apply doc_type_key_nonzero.
Qed.

(** * The composition *)

(** The rules of the circuit of one form: the half of the credential, then the
    half of the session and the public values. The folded form has the vector
    that it shares with the steps. *)
Definition age_circuit (c : MdocAgeCircuit) (shared : option (list AllocatedNum)) : Synth unit :=
  pre ← match shared with None => MdocAge_precommitted c | Some shared => CoreCircuit_precommitted c shared end;
  MdocAge_synthesize c pre.

(** The steps that the verifier of the folded form accepted, over the vector. *)
Definition steps_accepted (shared : option (list AllocatedNum)) : Prop :=
  match shared with
  | None => True
  | Some shared => ∃ s step_values, Forall2 (λ a v, nval σ a = v) shared s ∧ length s = 6 * total_blocks layout ∧
      Forall (step_instance layout s) step_values ∧ check_step_values (total_blocks layout) step_values = Ok tt
  end.

(** The sizes of the arrays. *)
Definition circuit_sizes (c : MdocAgeCircuit) : Prop :=
  length (AgeAcceptance.cutoff c) = 10 ∧ length (AgeAcceptance.now c) = 20 ∧ length (AgeAcceptance.device_auth_digest c) = 32.

(** Whenever the slots satisfy the rules and the verifier accepts the public
    values, [P] holds of what it returns. *)
Definition accepted_shows {VegaError RngError : Type} (m : Synth unit) (expected : ExpectedContext)
    (P : VerifiedAgeProof → Prop) : Prop :=
  ∀ na ni r, satisfies σ m na ni →
    (check_public_values (inputs ni PUBLIC_INPUT_LEN) expected : outcome (VegaMdocError VegaError RngError) _) = Ok r → P r.

Lemma compressions_of_steps shared message blocks :
  message_blocks layout !! message = Some blocks → steps_accepted (Some shared) →
  compressions_done σ (Folded shared layout message) blocks.
Proof. intros Hb Hs. split; [done|]. split; [by vm_compute|exact Hs]. Qed.

Lemma gadget_age_precommitted c shared :
  credential_checks (AgeAcceptance.witness c) → steps_accepted shared →
  gadget σ (match shared with None => MdocAge_precommitted c | Some shared => CoreCircuit_precommitted c shared end)
    (λ pre, ∃ cb, credential_shown σ cb ∧ precommitted_parts cb pre).
Proof.
  intros HC Hs. destruct shared as [shared|]; apply gadget_precommitted; try done; by apply compressions_of_steps.
Qed.

(** C6: Whoever assigns the slots: when they satisfy the rules of the circuit,
    with the hashes in it or in steps that the verifier accepted, and the
    verifier's checks accept the public values, then the statement that the
    verifier asked for holds: an issuer's signature covers a prefix of a
    message, a digest in a namespace's entries is that of an item with a birth
    date not after the cutoff, the clock is in the validity window, and the
    device key of the message signed the verifier's digest. *)
Theorem age_sound {VegaError RngError : Type} c shared expected :
  credential_checks (AgeAcceptance.witness c) → circuit_sizes c → context_sizes expected → steps_accepted shared →
  accepted_shows (VegaError := VegaError) (RngError := RngError) (age_circuit c shared) expected (age_statement expected).
Proof.
  intros HC (Lc & Ln & Ld) (Le & Lec & Len) Hs na ni r Hsat Hcheck. apply check_shown in Hcheck.
  assert (wp σ (age_circuit c shared) na ni (λ _ _ _, age_statement expected r)) as Hwp.
  { unfold age_circuit. apply wp_bind. eapply wp_gadget; [by apply gadget_age_precommitted|]. intros pre na' (cb & Hcb & Hparts).
    pose proof Hparts as (_ & L1 & L2 & _). eapply wp_synthesize; [done..|]. intros na'' so old HS Hold L3 L4 L5 Hin.
    rewrite Hin in Hcheck. by eapply (shown_statement cb so old). }
  by destruct (proj1 (wp_shape _ _ _ _ _) Hwp Hsat) as (u & _ & Hst).
Qed.
End Statement.
