(* ===== verification/MsoSplice.v ===== *)
(** [mso_splice.rs]: the signed structure of an mdoc put together in a buffer
    of one size. Each of four entries is a digest identifier of one, two,
    three or five bytes and a tail of fixed size; the place of an entry is the
    sum of the widths before it, held by a chain of one-hot selectors. *)
From Stdlib Require Import ZArith Lia Strings.String Strings.Byte Btauto.
From Stdlib Require Import Field_tac Ring.
From stdpp Require Import base list numbers option strings pretty.
From S2P Require Import Prelude Bytes Field ConstraintSystem Shape CheckSystem Bellpepper Lc Bits Gadgets Select Limbs BigNat CborUint OneHotCursor DigestId AgeDates.

Definition DIGEST_ID_WIDTHS : list nat := [1; 2; 3; 5].
Definition ENTRY_TAIL_LEN : nat := 2 + 32.
Definition NUM_ENTRIES : nat := 4.
Definition MAX_DIGEST_SECTION_BYTES : nat := NUM_ENTRIES * (MAX_CBOR_UINT_BYTES + ENTRY_TAIL_LEN).

(** A call that cannot fail, where a failure is possible. *)
Definition infallible {E A} (m : outcome Empty_set A) : outcome E A :=
  map_err (λ e : Empty_set, match e with end) m.

(** [l[i]]. *)
Definition at_index {E A} (l : list A) (i : nat) : outcome E A :=
  match l !! i with Some a => Ok a | None => Panic "index out of bounds" end.

Definition native_mso_sig_structure_bytes (prefix : list byte) (digest_ids : list Z) (tails : list (list byte))
    (suffix : list byte) : outcome Empty_set (list byte) :=
  out ← foldM (λ out i,
    id ← at_index digest_ids i;
    tail ← at_index tails i;
    encoded ← encode_cbor_uint id;
    Ok (out ++ encoded ++ tail)) prefix (range NUM_ENTRIES);
  Ok (out ++ suffix).

Section MsoSplice.
Context `{BooleanLogic}.

Record DigestIdEntry := mkDigestIdEntry { digest_id : Z; tail_bits : list Boolean }.

(** A one-hot selector and the values that it selects from. *)
Definition Cursor : Type := list Boolean * list nat.

(** Bits at the offset that a cursor selects: the first bytes, as many as a
    second selector says, or all of them. *)
Inductive Placement :=
  | Variable' (cursor : Cursor) (width_onehot content : list Boolean)
  | Fixed (cursor : Cursor) (content : list Boolean).

(** The disjunction of the terms so far. *)
Definition or_term (name : string) (acc : option Boolean) (term : Boolean) : Synth (option Boolean) :=
  match acc with
  | None => mret (Some term)
  | Some prev => acc ← ns name (Boolean_or prev term); mret (Some acc)
  end.

(** What one placement adds to one bit of the output. *)
Definition place_bit (p_byte bit_idx : nat) (acc : option Boolean) '((p_idx, placement) : nat * Placement)
    : Synth (option Boolean) :=
  let name := " p" +:+ pretty p_idx +:+ " byte" +:+ pretty p_byte +:+ " bit" +:+ pretty bit_idx in
  match placement with
  | Variable' (cursor_onehot, cursor_values) width_onehot content =>
      foldM (λ acc '(k, c), foldM (λ acc '(w_idx, w),
        if (p_byte <? c)%nat || (c + w <=? p_byte)%nat then mret acc else
        let rel_byte := (p_byte - c)%nat in
        let name := name +:+ " k" +:+ pretty (k : nat) +:+ " w" +:+ pretty (w_idx : nat) in
        content_bit ← index content (rel_byte * 8 + bit_idx);
        cursor ← index cursor_onehot k;
        width ← index width_onehot w_idx;
        both ← ns ("splice" +:+ name +:+ " cursor-width") (Boolean_and cursor width);
        term ← ns ("splice" +:+ name +:+ " content") (Boolean_and both content_bit);
        or_term ("splice-or" +:+ name) acc term) acc (imap (λ w_idx w, (w_idx, w)) DIGEST_ID_WIDTHS))
        acc (imap (λ k c, (k, c)) cursor_values)
  | Fixed (cursor_onehot, cursor_values) content =>
      let content_len_bytes := (length content / 8)%nat in
      foldM (λ acc '(k, c),
        if (p_byte <? c)%nat || (c + content_len_bytes <=? p_byte)%nat then mret acc else
        let rel_byte := (p_byte - c)%nat in
        let name := name +:+ " k" +:+ pretty (k : nat) in
        content_bit ← index content (rel_byte * 8 + bit_idx);
        cursor ← index cursor_onehot k;
        term ← ns ("splice" +:+ name +:+ " content") (Boolean_and cursor content_bit);
        or_term ("splice-or" +:+ name) acc term) acc (imap (λ k c, (k, c)) cursor_values)
  end.

Definition assemble_from_placements (output_len_bytes : nat) '((lo, hi) : nat * nat) (placements : list Placement)
    : Synth (list Boolean) :=
  bytes ← mapM (λ p_byte,
    if (p_byte <? lo)%nat || (hi <=? p_byte)%nat then mret (replicate 8 (Boolean_constant false)) else
    mapM (λ bit_idx,
      acc ← foldM (place_bit p_byte bit_idx) None (imap (λ p_idx placement, (p_idx, placement)) placements);
      mret (default (Boolean_constant false) acc)) (range 8)) (range output_len_bytes);
  mret (concat bytes).

(** The starts of the entries and of the suffix, and the starts of the tails. *)
Definition cursor_chain (prefix_len : nat) (width_onehots : list (list Boolean)) : Synth (list Cursor * list Cursor) :=
  foldM (λ '(starts, ends) i,
    '(start_onehot, start_values) ← index starts i;
    width_onehot ← index width_onehots i;
    '(end_onehot, end_values) ←
      match start_values with
      | [start] => mret (width_onehot, (λ w, w + start)%nat <$> DIGEST_ID_WIDTHS)
      | _ => ns ("entry " +:+ pretty (i : nat) +:+ " end cursor")
          (convolve_sum start_onehot start_values width_onehot DIGEST_ID_WIDTHS)
      end;
    mret (starts ++ [(end_onehot, (λ v, v + ENTRY_TAIL_LEN)%nat <$> end_values)], ends ++ [(end_onehot, end_values)]))
    ([([Boolean_constant true], [prefix_len])], []) (range NUM_ENTRIES).

Definition assemble_mso_sig_structure (prefix_bits : list Boolean) (entries : list DigestIdEntry) (suffix_bits : list Boolean)
    : Synth (list Boolean * nat) :=
  assert (length prefix_bits mod 8 =? 0)%nat "assert_eq" ;;
  assert (length suffix_bits mod 8 =? 0)%nat "assert_eq" ;;
  mapM (λ e,
    assert (length (tail_bits e) =? ENTRY_TAIL_LEN * 8)%nat "tail_bits must be exactly ENTRY_TAIL_LEN bytes" ;;
    assert (digest_id e <=? MAX_DIGEST_ID)%Z "digestID must be < 2^31") entries ;;
  let prefix_len := (length prefix_bits / 8)%nat in
  let suffix_len := (length suffix_bits / 8)%nat in
  let output_len_bytes := (prefix_len + MAX_DIGEST_SECTION_BYTES + suffix_len)%nat in
  encodings ← mapM (λ '(i, e),
    encoded ← lift (infallible (encode_cbor_uint (digest_id e)));
    bits ← ns ("digest_id " +:+ pretty (i : nat) +:+ " encoded bytes")
      (alloc_byte_bits (resize MAX_CBOR_UINT_BYTES x00 encoded) "byte-bit");
    onehot ← ns ("digest_id " +:+ pretty i +:+ " width") (alloc_one_hot DIGEST_ID_WIDTHS (length encoded));
    mret (bits, onehot, length encoded)) (imap (λ i e, (i, e)) entries);
  let encoded_content := (λ '(bits, _, _), bits) <$> encodings in
  let width_onehots := (λ '(_, onehot, _), onehot) <$> encodings in
  let real_widths := (λ '(_, _, width), width) <$> encodings in
  '(starts, ends) ← cursor_chain prefix_len width_onehots;
  suffix_cursor ← index starts NUM_ENTRIES;
  variables ← mapM (λ i,
    start ← index starts i;
    width ← index width_onehots i;
    content ← index encoded_content i;
    mret (Variable' start width content)) (range NUM_ENTRIES);
  tails ← mapM (λ i,
    end_ ← index ends i;
    e ← index entries i;
    mret (Fixed end_ (tail_bits e))) (range NUM_ENTRIES);
  let placements := variables ++ tails ++ [Fixed suffix_cursor suffix_bits] in
  let real_digest_section_len := (sum_list real_widths + NUM_ENTRIES * ENTRY_TAIL_LEN)%nat in
  let real_len := (prefix_len + real_digest_section_len + suffix_len)%nat in
  assembled ← ns "assemble" (assemble_from_placements output_len_bytes
    (prefix_len, prefix_len + MAX_DIGEST_SECTION_BYTES + suffix_len)%nat placements);
  mret (prefix_bits ++ drop (length prefix_bits) assembled, real_len).
End MsoSplice.

(** * The native bytes *)
Lemma native_bytes_spec prefix digest_ids tails suffix encodings :
  Forall2 (λ id e, encode_cbor_uint id = Ok e) digest_ids encodings →
  length digest_ids = NUM_ENTRIES → length tails = NUM_ENTRIES →
  native_mso_sig_structure_bytes prefix digest_ids tails suffix =
    Ok (prefix ++ concat (zip_with app encodings tails) ++ suffix).
Proof.
  intros HF Li Lt. pose proof (Forall2_length _ _ _ HF) as Le. rewrite Li in Le. unfold NUM_ENTRIES in *.
  destruct HF as [|i1 e1 ids es E1 HF]; [done|]. destruct HF as [|i2 e2 ids es E2 HF]; [done|].
  destruct HF as [|i3 e3 ids es E3 HF]; [done|]. destruct HF as [|i4 e4 ids es E4 HF]; [done|].
  destruct HF; [|done]. destruct tails as [|t1 [|t2 [|t3 [|t4 [|]]]]]; try done.
  unfold native_mso_sig_structure_bytes, NUM_ENTRIES, range. cbn [seq foldM at_index lookup list_lookup mbind outcome_bind].
  rewrite E1. cbn [mbind outcome_bind]. rewrite E2. cbn [mbind outcome_bind]. rewrite E3. cbn [mbind outcome_bind].
  rewrite E4. cbn [mbind outcome_bind zip_with concat].
  rewrite !app_nil_r, <-!app_assoc. cbn [mbind outcome_bind mret outcome_ret]. by rewrite <-!app_assoc.
Qed.

(** * Lists of bits at a place *)

(** The bit at a place of the output, of bits that start at another. *)
Definition placed (s : nat) (l : list bool) (n : nat) : bool := (s <=? n)%nat && default false (l !! (n - s)%nat).

Lemma placed_app s l l' n : placed s (l ++ l') n = placed s l n || placed (s + length l) l' n.
Proof.
  unfold placed. destruct (Nat.leb_spec s n) as [L|L].
  2: { by rewrite (proj2 (Nat.leb_gt _ _)) by lia. }
  destruct (decide (n - s < length l)) as [B|B].
  - rewrite lookup_app_l by done. rewrite (proj2 (Nat.leb_gt _ _)) by lia. by rewrite orb_false_r.
  - rewrite lookup_app_r by lia. rewrite (lookup_ge_None_2 l) by lia. rewrite (proj2 (Nat.leb_le _ _)) by lia.
    replace (n - (s + length l)) with (n - s - length l) by lia. done.
Qed.

Lemma placed_out s l n : n < s ∨ s + length l ≤ n → placed s l n = false.
Proof.
  unfold placed. intros [L|L]; [by rewrite (proj2 (Nat.leb_gt _ _))|].
  rewrite (lookup_ge_None_2 l) by lia. apply andb_false_r.
Qed.

Lemma placed_nil s n : placed s [] n = false.
Proof. apply placed_out. cbn [length]. lia. Qed.

Lemma placed_in s l n b : s ≤ n → l !! (n - s) = Some b → placed s l n = b.
Proof. intros L E. unfold placed. by rewrite (proj2 (Nat.leb_le _ _)), E. Qed.

Lemma placed_range s l N : length l ≤ N → placed s l <$> seq s N = l ++ replicate (N - length l) false.
Proof.
  intros HN. apply list_eq. intros i. rewrite list_lookup_fmap. destruct (decide (i < N)) as [L|L].
  2: { rewrite (lookup_ge_None_2 (seq s N)) by (rewrite length_seq; lia).
    rewrite lookup_ge_None_2; [done|]. rewrite length_app, length_replicate. lia. }
  rewrite lookup_seq_lt by done. cbn [fmap option_fmap option_map]. destruct (decide (i < length l)) as [B|B].
  - rewrite lookup_app_l by done. destruct (lookup_lt_is_Some_2 l i B) as [b Eb]. rewrite Eb. f_equal.
    apply placed_in; [lia|]. by replace (s + i - s) with i by lia.
  - rewrite lookup_app_r, lookup_replicate_2 by lia. f_equal. apply placed_out. lia.
Qed.

Lemma bits_of_bytes_range (f : nat → bool) n :
  range n ≫= (λ p, (λ b, f (8 * p + b)%nat) <$> range 8) = f <$> range (8 * n).
Proof.
  unfold range. induction n as [|n IH]; [done|].
  rewrite (seq_S n 0), bind_app, IH. replace (8 * S n)%nat with (8 * n + 8)%nat by lia.
  rewrite (seq_app (8 * n) 8 0), fmap_app. f_equal. rewrite bind_cons. cbn [mbind list_bind]. rewrite app_nil_r.
  apply list_eq. intros i. rewrite !list_lookup_fmap. destruct (decide (i < 8)) as [L|L].
  - by rewrite !lookup_seq_lt by done.
  - by rewrite !lookup_ge_None_2 by (rewrite length_seq; lia).
Qed.

Lemma zero_bytes_bits n : replicate n x00 ≫= Prelude.byte_bits = replicate (8 * n) false.
Proof.
  induction n as [|n IH]; [done|]. cbn [replicate]. rewrite bind_cons, IH.
  replace (8 * S n)%nat with (8 + 8 * n)%nat by lia. by rewrite replicate_add.
Qed.

(** Where the entries and their tails start. *)
Fixpoint starts_from (s : nat) (ws : list nat) : list nat :=
  match ws with [] => [s] | w :: ws => s :: starts_from (s + w + ENTRY_TAIL_LEN) ws end.
Fixpoint ends_from (s : nat) (ws : list nat) : list nat :=
  match ws with [] => [] | w :: ws => (s + w)%nat :: ends_from (s + w + ENTRY_TAIL_LEN) ws end.

Lemma width_bound j w : DIGEST_ID_WIDTHS !! j = Some w → 0 < w ≤ MAX_CBOR_UINT_BYTES.
Proof. unfold DIGEST_ID_WIDTHS, MAX_CBOR_UINT_BYTES. destruct j as [|[|[|[|]]]]; intros [= <-]; lia. Qed.

Lemma length_starts_from s ws : length (starts_from s ws) = S (length ws).
Proof. revert s. induction ws as [|w ws IH]; intros s; [done|]. cbn. by rewrite IH. Qed.
Lemma length_ends_from s ws : length (ends_from s ws) = length ws.
Proof. revert s. induction ws as [|w ws IH]; intros s; [done|]. cbn. by rewrite IH. Qed.

Lemma starts_from_ge s ws i x : starts_from s ws !! i = Some x → s ≤ x.
Proof.
  revert s i. induction ws as [|w ws IH]; intros s [|i] E; cbn in E; try done.
  1, 2: by injection E as ->. apply IH in E. lia.
Qed.
Lemma ends_from_ge s ws i x : ends_from s ws !! i = Some x → s ≤ x.
Proof.
  revert s i. induction ws as [|w ws IH]; intros s [|i] E; cbn in E; try done.
  - injection E as <-. lia.
  - apply IH in E. lia.
Qed.

Lemma chain_next s ws i x w :
  starts_from s ws !! i = Some x → ws !! i = Some w →
  ends_from s ws !! i = Some (x + w) ∧ starts_from s ws !! S i = Some (x + w + ENTRY_TAIL_LEN).
Proof.
  revert s i. induction ws as [|w' ws IH]; intros s [|i] Ex Ew; try done.
  - cbn in Ex, Ew. injection Ex as ->. injection Ew as ->. cbn [starts_from ends_from]. split; [done|].
    by destruct ws.
  - cbn in Ex, Ew. by apply IH.
Qed.

(** * What the rules force *)
Section MsoSpliceRules.
Context `{BooleanLogic} (σ : Assignment).
Local Abbreviation D := (denotes σ).

(** A disjunction that has a value, with no term yet or some. *)
Definition or_is (acc : option Boolean) (v : bool) : Prop := ∃ seen, acc_is σ acc seen v.

Lemma gadget_or_term name acc term v w :
  or_is acc v → D (bit term) (of_bool w) → gadget σ (or_term name acc term) (λ acc, or_is acc (v || w)).
Proof.
  intros (seen & Hacc) Ht. eapply gadget_mono; [by eapply gadget_or_candidate|]. intros acc' Hacc'. by exists true.
Qed.

(** A loop that adds terms. *)
Lemma gadget_or_loop {A} (f : option Boolean → A → Synth (option Boolean)) (h : A → bool) l acc v :
  (∀ x acc v, x ∈ l → or_is acc v → gadget σ (f acc x) (λ acc, or_is acc (v || h x))) →
  or_is acc v → gadget σ (foldM f acc l) (λ acc, or_is acc (v || existsb h l)).
Proof.
  intros Hf Hacc. apply (gadget_foldM σ _ _ _ (λ done acc, or_is acc (v || existsb h done))).
  - cbn. by rewrite orb_false_r.
  - intros done x acc' Hp Hacc'. rewrite existsb_app. cbn [existsb]. rewrite orb_false_r, orb_assoc.
    apply Hf; [|done]. destruct Hp as [todo ->]. rewrite !elem_of_app, list_elem_of_singleton. auto.
Qed.

(** The terms of a selector's values: only the selected one counts. *)
Lemma existsb_selected (l : list nat) k c (h : nat → bool) :
  l !! k = Some c → existsb (λ '(i, x), (i =? k)%nat && h x) (imap (λ i x, (i, x)) l) = h c.
Proof.
  intros Ek. apply eq_true_iff_eq. rewrite existsb_exists. split.
  - intros ([i x] & Hin & [Hi%Nat.eqb_eq Hh]%andb_true_iff). apply list_elem_of_In, list_elem_of_lookup in Hin as [n Hn].
    apply list_lookup_imap_Some in Hn as (y & Ey & [= -> ->]). congruence.
  - intros Hh. exists (k, c). split; [|by rewrite Nat.eqb_refl].
    apply list_elem_of_In, list_elem_of_lookup. exists k. by rewrite list_lookup_imap, Ek.
Qed.

(** A cursor that selects a value. *)
Definition cursor_at (cur : Cursor) (v : nat) : Prop :=
  ∃ k, cur.2 !! k = Some v ∧ bits_are D cur.1 (one_hot (length cur.2) k).

Lemma cursor_bit (cur : Cursor) k i x :
  cur.2 !! i = Some x → bits_are D cur.1 (one_hot (length cur.2) k) →
  ∃ b, cur.1 !! i = Some b ∧ D (bit b) (of_bool (i =? k)%nat).
Proof.
  intros Ei HB. assert (i < length cur.2) as Li by by eapply lookup_lt_Some.
  destruct (Forall2_lookup_r _ _ _ _ _ HB (lookup_one_hot _ k _ Li)) as (b & Eb & Hb). exists b. split; [done|].
  cbv beta in Hb. assert (bool_decide (i = k) = (i =? k)%nat) as <-
    by (case_bool_decide; symmetry; by apply Nat.eqb_eq || apply Nat.eqb_neq). done.
Qed.

(** A placement adds the bits of a list at a place. *)
Definition places (placement : Placement) (s : nat) (l : list byte) : Prop :=
  ∀ p b acc v i, b < 8 → or_is acc v →
    gadget σ (place_bit p b acc (i, placement))
      (λ acc, or_is acc (v || placed (8 * s) (l ≫= Prelude.byte_bits) (8 * p + b))).

Lemma placed_byte_out s (l : list byte) p b :
  b < 8 → (p <? s)%nat || (s + length l <=? p)%nat = true → placed (8 * s) (l ≫= Prelude.byte_bits) (8 * p + b) = false.
Proof.
  intros Hb [L%Nat.ltb_lt|L%Nat.leb_le]%orb_true_iff; apply placed_out; rewrite length_bind_byte_bits; lia.
Qed.

(** The bit that a placement reads. *)
Lemma placed_byte_in content (l : list byte) s p b n :
  bits_are D content (l ≫= Prelude.byte_bits) → b < 8 → s ≤ p → p < s + n → n ≤ length l →
  ∃ c, content !! ((p - s) * 8 + b) = Some c ∧
    D (bit c) (of_bool (placed (8 * s) (take n l ≫= Prelude.byte_bits) (8 * p + b))).
Proof.
  intros HC Hb Ls Ln Ll. destruct (take_drop_bind_byte_bits n l) as [<- _].
  destruct (lookup_lt_is_Some_2 (l ≫= Prelude.byte_bits) ((p - s) * 8 + b)) as [v Ev]; [rewrite length_bind_byte_bits; lia|].
  destruct (Forall2_lookup_r _ _ _ _ _ HC Ev) as (c & Ec & Hc). exists c. split; [done|].
  rewrite (placed_in _ _ _ v); [done|lia|]. replace (8 * p + b - 8 * s) with ((p - s) * 8 + b) by lia.
  rewrite lookup_take_lt by lia. done.
Qed.

Lemma gadget_fixed cur content s l :
  cursor_at cur s → bits_are D content (l ≫= Prelude.byte_bits) → places (Fixed cur content) s l.
Proof.
  destruct cur as [onehot values]. intros (k & Ek & HK) HC p b acc v i Hb Hacc. cbn [fst snd] in *. unfold place_bit.
  assert (length content / 8 = length l) as El.
  { rewrite (Forall2_length _ _ _ HC), length_bind_byte_bits, Nat.mul_comm. by apply Nat.div_mul. }
  rewrite El. cbv zeta.
  rewrite <-(existsb_selected values k s (λ x, placed (8 * x) (l ≫= Prelude.byte_bits) (8 * p + b)) Ek).
  apply gadget_or_loop; [|done]. intros [j x] acc' v' [n Hn]%list_elem_of_lookup Hacc'.
  apply list_lookup_imap_Some in Hn as (x' & Ex & [= -> ->]).
  destruct (_ || _) eqn:Eo.
  { rewrite (placed_byte_out _ _ _ _ Hb Eo), andb_false_r, orb_false_r. by apply gadget_ret. }
  apply orb_false_iff in Eo as [L1%Nat.ltb_ge L2%Nat.leb_gt].
  destruct (placed_byte_in content l x' p b (length l) HC Hb L1) as (c & Ec & Hc); [lia..|]. rewrite firstn_all in Hc.
  destruct (cursor_bit (onehot, values) k n x' Ex HK) as (cb & Ecb & Hcb).
  eapply gadget_bind; [by apply gadget_index_nth|]. intros ? ->.
  eapply gadget_bind; [by apply gadget_index_nth|]. intros ? ->.
  eapply gadget_bind; [by eapply gadget_ns, Boolean_and_rules|]. intros term Ht. by apply gadget_or_term.
Qed.

Lemma gadget_variable cur width content s j w l :
  cursor_at cur s → DIGEST_ID_WIDTHS !! j = Some w → bits_are D width (one_hot (length DIGEST_ID_WIDTHS) j) →
  bits_are D content (l ≫= Prelude.byte_bits) → length l = MAX_CBOR_UINT_BYTES →
  places (Variable' cur width content) s (take w l).
Proof.
  destruct cur as [onehot values]. intros (k & Ek & HK) Ew HW HC Hl p b acc v i Hb Hacc. cbn [fst snd] in *. unfold place_bit.
  rewrite <-(existsb_selected values k s (λ x, placed (8 * x) (take w l ≫= Prelude.byte_bits) (8 * p + b)) Ek).
  apply gadget_or_loop; [|done]. intros [k' x] acc' v' [n Hn]%list_elem_of_lookup Hacc'.
  apply list_lookup_imap_Some in Hn as (x' & Ex & [= -> ->]).
  rewrite <-(existsb_selected DIGEST_ID_WIDTHS j w
    (λ w, (n =? k) && placed (8 * x') (take w l ≫= Prelude.byte_bits) (8 * p + b)) Ew).
  apply gadget_or_loop; [|done]. intros [j' w'] acc'' v'' [m Hm]%list_elem_of_lookup Hacc''.
  apply list_lookup_imap_Some in Hm as (w'' & Ew' & [= -> ->]).
  assert (w'' ≤ length l) as Lw by (rewrite Hl; by eapply width_bound).
  destruct (_ || _) eqn:Eo.
  { rewrite placed_byte_out, !andb_false_r, orb_false_r; [by apply gadget_ret|done|].
    rewrite length_take, Nat.min_l by done. done. }
  apply orb_false_iff in Eo as [L1%Nat.ltb_ge L2%Nat.leb_gt].
  destruct (placed_byte_in content l x' p b w'' HC Hb L1 L2 Lw) as (c & Ec & Hc).
  destruct (cursor_bit (onehot, values) k n x' Ex HK) as (cb & Ecb & Hcb).
  destruct (cursor_bit (width, DIGEST_ID_WIDTHS) j m w'' Ew' HW) as (wb & Ewb & Hwb).
  eapply gadget_bind; [by apply gadget_index_nth|]. intros ? ->.
  eapply gadget_bind; [by apply gadget_index_nth|]. intros ? ->.
  eapply gadget_bind; [by apply gadget_index_nth|]. intros ? ->.
  eapply gadget_bind; [by eapply gadget_ns, Boolean_and_rules|]. intros both Hboth. cbv beta in Hboth.
  eapply gadget_bind; [eapply gadget_ns, Boolean_and_rules; [exact Hboth|exact Hc]|]. intros term Ht. cbv beta in Ht.
  rewrite andb_assoc, (andb_comm (m =? j)). by apply gadget_or_term.
Qed.

(** The bits of segments, each at its place. *)
Definition segments_bit (segs : list (nat * list byte)) (n : nat) : bool :=
  existsb (λ '(s, l), placed (8 * s) (l ≫= Prelude.byte_bits) n) segs.

Lemma gadget_placements p b placements segs :
  Forall2 (λ pl '(s, l), places pl s l) placements segs → b < 8 →
  gadget σ (foldM (place_bit p b) None (imap (λ i pl, (i, pl)) placements)) (λ acc, or_is acc (segments_bit segs (8 * p + b))).
Proof.
  intros HP Hb. pose proof (Forall2_length _ _ _ HP) as Hl. eapply gadget_mono.
  { apply (gadget_foldM σ _ _ _ (λ done acc, or_is acc (segments_bit (take (length done) segs) (8 * p + b)))).
    - by exists false.
    - intros done [i pl] acc Hp Hacc. apply prefix_snoc_lookup in Hp as [Hi _].
      apply list_lookup_imap_Some in Hi as (pl' & Ei & [= -> ->]).
      destruct (Forall2_lookup_l _ _ _ _ _ HP Ei) as ([s l] & Es & Hpl). rewrite length_app, Nat.add_1_r, (take_S_r _ _ _ Es).
      unfold segments_bit at 1. rewrite existsb_app. cbn [existsb]. rewrite orb_false_r. by apply Hpl. }
  intros acc Hacc. cbv beta in Hacc. by rewrite length_imap, Hl, firstn_all in Hacc.
Qed.

Lemma gadget_assemble_from placements segs lo n :
  Forall2 (λ pl '(s, l), places pl s l) placements segs → Forall (λ seg, lo ≤ seg.1) segs →
  gadget σ (assemble_from_placements n (lo, n) placements)
    (λ buf, bits_are D buf (segments_bit segs <$> range (8 * n))).
Proof.
  intros HP Hlo. unfold assemble_from_placements. eapply gadget_bind.
  { apply (gadget_mapM_Forall2 _ _ _ (λ p bits, bits_are D bits ((λ b, segments_bit segs (8 * p + b)) <$> range 8))).
    intros p [_ Hp]%elem_of_seq. cbn in Hp. destruct (_ || _) eqn:Eo.
    - rewrite (proj2 (Nat.leb_gt _ _)), orb_false_r in Eo by lia. apply Nat.ltb_lt in Eo. apply gadget_ret.
      assert ((λ b, segments_bit segs (8 * p + b)) <$> range 8 = replicate 8 false) as ->.
      { apply list_eq. intros i. unfold range. rewrite list_lookup_fmap. destruct (decide (i < 8)) as [L|L].
        2: { by rewrite !lookup_ge_None_2 by (rewrite ?length_seq, ?length_replicate; lia). }
        rewrite lookup_seq_lt, lookup_replicate_2 by done. cbn [fmap option_fmap option_map]. f_equal.
        clear HP. unfold segments_bit. induction Hlo as [|[s l] segs Hs _ IH]; [done|]. cbn [existsb fst] in *. rewrite IH, orb_false_r.
        apply placed_out. left. lia. }
      apply Forall2_replicate. apply Boolean_constant_denotes.
    - eapply gadget_mono.
      { apply (gadget_mapM_Forall2 _ _ _ (λ b c, D (bit c) (of_bool (segments_bit segs (8 * p + b))))).
        intros b [_ Hb]%elem_of_seq. cbn in Hb. eapply gadget_bind; [by apply gadget_placements|].
        intros acc (seen & Hacc). apply gadget_ret. destruct acc as [c|]; cbn [default].
        - apply Hacc.
        - destruct Hacc as [_ E]. rewrite E. apply Boolean_constant_denotes. }
      intros bits HF. apply Forall2_fmap_r. by apply Forall2_flip. }
  intros bytes HF. apply gadget_ret. rewrite <-bits_of_bytes_range. apply Forall2_concat_bind. by apply Forall2_flip.
Qed.

(** The segments of entries one after the other. *)
Lemma segments_in_order s ids tails suf x n :
  Forall (λ t : list byte, length t = ENTRY_TAIL_LEN) tails → length tails = length ids →
  starts_from s (length <$> ids) !! length ids = Some x →
  segments_bit (zip (starts_from s (length <$> ids)) ids ++ zip (ends_from s (length <$> ids)) tails ++ [(x, suf)]) n
  = placed (8 * s) ((concat (zip_with app ids tails) ++ suf) ≫= Prelude.byte_bits) n.
Proof.
  intros HT. revert s ids. induction HT as [|t tails Ht _ IH]; intros s [|id ids] Hl Hx; try done.
  - cbn in Hx. injection Hx as <-. unfold segments_bit. cbn. by rewrite orb_false_r.
  - cbn [length] in Hl. injection Hl as Hl. specialize (IH (s + length id + ENTRY_TAIL_LEN) ids Hl Hx).
    unfold segments_bit in *. cbn [fmap list_fmap starts_from ends_from zip_with concat] in *.
    rewrite <-!app_assoc, (bind_app _ id), (bind_app _ t), !placed_app, !length_bind_byte_bits, Ht.
    replace (8 * s + 8 * length id + 8 * ENTRY_TAIL_LEN) with (8 * (s + length id + ENTRY_TAIL_LEN)) by lia.
    rewrite <-IH, !existsb_app. cbn [app existsb]. rewrite ?existsb_app. cbn [existsb].
    replace (8 * s + 8 * length id) with (8 * (s + length id)) by lia. btauto.
Qed.

(** * The chain of cursors *)
Definition width_selected (onehot : list Boolean) (w : nat) : Prop :=
  ∃ j, DIGEST_ID_WIDTHS !! j = Some w ∧ bits_are D onehot (one_hot (length DIGEST_ID_WIDTHS) j).

Lemma gadget_next_cursor name cur onehot s w :
  cursor_at cur s → width_selected onehot w →
  gadget σ (match cur.2 with
    | [start] => mret (onehot, (λ w, w + start)%nat <$> DIGEST_ID_WIDTHS)
    | _ => ns name (convolve_sum cur.1 cur.2 onehot DIGEST_ID_WIDTHS)
    end) (λ end_, cursor_at end_ (s + w)).
Proof.
  destruct cur as [bits values]. intros (k & Ek & HK) (j & Ej & HJ). cbn [fst snd] in *.
  assert (gadget σ (ns name (convolve_sum bits values onehot DIGEST_ID_WIDTHS)) (λ end_, cursor_at end_ (s + w))) as Hsum.
  { apply gadget_ns. eapply gadget_mono; [by apply (gadget_convolve_sum _ _ _ _ _ _ _ _ _ HK HJ Ek Ej)|].
    intros [bs vals] (_ & i & Ei & HI). by exists i. }
  destruct values as [|start [|]]; [done| |exact Hsum]. apply gadget_ret.
  apply list_lookup_singleton_Some in Ek as [-> ->]. exists j. cbn [fst snd]. split.
  - rewrite list_lookup_fmap, Ej. cbn. by rewrite Nat.add_comm.
  - by rewrite length_fmap.
Qed.

Lemma gadget_cursor_chain prefix_len onehots ws :
  Forall2 width_selected onehots ws → length ws = NUM_ENTRIES →
  gadget σ (cursor_chain prefix_len onehots) (λ '(starts, ends),
    Forall2 cursor_at starts (starts_from prefix_len ws) ∧ Forall2 cursor_at ends (ends_from prefix_len ws)).
Proof.
  intros HW Hl. eapply gadget_mono.
  { apply (gadget_foldM σ _ _ _ (λ done '(starts, ends),
      Forall2 cursor_at starts (take (S (length done)) (starts_from prefix_len ws)) ∧
      Forall2 cursor_at ends (take (length done) (ends_from prefix_len ws)))).
    - split; [|constructor]. cbn [length]. assert (take 1 (starts_from prefix_len ws) = [prefix_len]) as -> by (by destruct ws).
      constructor; [|constructor]. exists 0. split; [done|]. cbn [fst snd length]. constructor; [|constructor].
      apply Boolean_constant_denotes.
    - intros done i [starts ends] Hp [HS HE]. apply prefix_snoc_lookup in Hp as [[-> Hi]%lookup_seq _]. cbn [Nat.add] in *.
      set (i := length done) in *.
      destruct (lookup_lt_is_Some_2 (starts_from prefix_len ws) i) as [x Ex]; [rewrite length_starts_from; lia|].
      destruct (lookup_lt_is_Some_2 ws i) as [w Ew]; [lia|]. destruct (chain_next _ _ _ _ _ Ex Ew) as [Ee Es].
      destruct (Forall2_lookup_r _ _ _ i x HS) as ([so sv] & Ec & Hc); [by rewrite lookup_take_lt by lia|].
      destruct (Forall2_lookup_r _ _ _ _ _ HW Ew) as (oh & Eo & Ho).
      eapply gadget_bind; [by apply gadget_index_nth|]. intros ? ->.
      eapply gadget_bind; [by apply gadget_index_nth|]. intros ? ->.
      eapply gadget_bind; [by apply (gadget_next_cursor _ (so, sv) oh x w)|]. intros [eo ev] He. apply gadget_ret.
      rewrite length_app, Nat.add_1_r. fold i. rewrite (take_S_r _ _ _ Es), (take_S_r _ _ _ Ee).
      split; (apply Forall2_app; [done|]; constructor; [|constructor]); [|done].
      destruct He as (k & Ek & HK). exists k. cbn [fst snd] in *. rewrite list_lookup_fmap, Ek, length_fmap. done. }
  intros [starts ends] [HS HE]. cbv beta in *. unfold range in *. rewrite length_seq in *. rewrite !take_ge in * by
    (rewrite ?length_starts_from, ?length_ends_from; lia). done.
Qed.

(** * The assembly *)

(** The bytes that are put together. *)
Definition spliced (pre : list byte) (ids tails : list (list byte)) (suf : list byte) : list byte :=
  pre ++ concat (zip_with app ids tails) ++ suf.

Lemma length_entries ids tails :
  Forall (λ t : list byte, length t = ENTRY_TAIL_LEN) tails → length tails = length ids →
  length (concat (zip_with app ids tails)) = sum_list (length <$> ids) + length ids * ENTRY_TAIL_LEN.
Proof.
  intros HT. revert ids. induction HT as [|t tails Ht _ IH]; intros [|id ids] Hl; try done.
  injection Hl as Hl. cbn [zip_with concat]. rewrite !length_app, Ht, (IH ids Hl). cbn. lia.
Qed.

Lemma length_spliced pre ids tails suf :
  Forall (λ t : list byte, length t = ENTRY_TAIL_LEN) tails → length tails = length ids →
  length (spliced pre ids tails suf) =
    length pre + (sum_list (length <$> ids) + length ids * ENTRY_TAIL_LEN) + length suf.
Proof. intros HT Hl. unfold spliced. rewrite !length_app, length_entries by done. lia. Qed.

Lemma widths_bound (ids : list (list byte)) :
  Forall (λ id : list byte, length id ∈ DIGEST_ID_WIDTHS) ids → sum_list (length <$> ids) ≤ length ids * MAX_CBOR_UINT_BYTES.
Proof.
  induction 1 as [|id ids [j Hj]%list_elem_of_lookup _ IH]; [done|]. apply width_bound in Hj.
  change (sum_list (length <$> id :: ids)) with (length id + sum_list (length <$> ids)). cbn [length]. lia.
Qed.

Lemma encode_width v enc : (0 ≤ v)%Z → encode_cbor_uint v = Ok enc → length enc ∈ DIGEST_ID_WIDTHS.
Proof.
  intros Hv He. apply (decode_encode v enc []) in He as [Hw _]; [|done]. revert Hw. unfold class_byte_width.
  destruct (length_class v) as [|[|[|[|]]]]; intros Hw; try done; injection Hw as <-; unfold DIGEST_ID_WIDTHS;
    rewrite !elem_of_cons; auto.
Qed.

(** The bytes put together, in a buffer of the largest size. *)
Lemma buffer_bits pre ids tails suf last :
  Forall (λ t : list byte, length t = ENTRY_TAIL_LEN) tails → length tails = length ids →
  length ids = NUM_ENTRIES → Forall (λ id : list byte, length id ∈ DIGEST_ID_WIDTHS) ids →
  starts_from (length pre) (length <$> ids) !! length ids = Some last →
  let n := length pre + MAX_DIGEST_SECTION_BYTES + length suf in
  (pre ≫= Prelude.byte_bits) ++ drop (8 * length pre)
    (segments_bit (zip (starts_from (length pre) (length <$> ids)) ids ++
      zip (ends_from (length pre) (length <$> ids)) tails ++ [(last, suf)]) <$> range (8 * n))
  = resize n x00 (spliced pre ids tails suf) ≫= Prelude.byte_bits.
Proof.
  intros HT Ht Hl HW Hlast n. pose proof (length_spliced pre ids tails suf HT Ht) as Ls.
  pose proof (widths_bound ids HW) as Lw. set (rest := concat (zip_with app ids tails) ++ suf) in *.
  assert (length (spliced pre ids tails suf) = length pre + length rest) as Lr by (unfold spliced; by rewrite length_app).
  assert (length pre + length rest ≤ n) as Ln by (unfold n, MAX_DIGEST_SECTION_BYTES in *; rewrite Hl in *; lia).
  rewrite resize_ge by lia. rewrite bind_app, zero_bytes_bits. unfold spliced at 1. fold rest.
  rewrite bind_app, <-app_assoc. f_equal.
  unfold range. rewrite <-fmap_drop, drop_seq, Nat.add_0_l.
  transitivity (placed (8 * length pre) (rest ≫= Prelude.byte_bits) <$> seq (8 * length pre) (8 * n - 8 * length pre)).
  { apply list_fmap_ext. intros i x _. by apply segments_in_order. }
  rewrite placed_range by (rewrite length_bind_byte_bits; lia). f_equal. rewrite length_bind_byte_bits. f_equal. lia.
Qed.

Definition entry_ok (e : DigestIdEntry) (t : list byte) : Prop :=
  bits_are D (tail_bits e) (t ≫= Prelude.byte_bits) ∧ length t = ENTRY_TAIL_LEN ∧ (0 ≤ digest_id e ≤ MAX_DIGEST_ID)%Z.

(** The encoding and the width of an identifier: new slots, so any bytes and
    any width. *)
Lemma gadget_encodings entries encs :
  Forall2 (λ e enc, encode_cbor_uint (digest_id e) = Ok enc ∧ length enc ∈ DIGEST_ID_WIDTHS) entries encs →
  gadget σ (mapM (λ '(i, e),
    encoded ← lift (infallible (encode_cbor_uint (digest_id e)));
    bits ← ns ("digest_id " +:+ pretty (i : nat) +:+ " encoded bytes")
      (alloc_byte_bits (resize MAX_CBOR_UINT_BYTES x00 encoded) "byte-bit");
    onehot ← ns ("digest_id " +:+ pretty i +:+ " width") (alloc_one_hot DIGEST_ID_WIDTHS (length encoded));
    mret (bits, onehot, length encoded)) (imap (λ i e, (i, e)) entries)) (λ encodings,
    (λ '(_, _, width), width) <$> encodings = length <$> encs ∧
    ∃ ids ws, Forall2 (λ bits l, bits_are D bits (l ≫= Prelude.byte_bits) ∧ length l = MAX_CBOR_UINT_BYTES)
        ((λ '(bits, _, _), bits) <$> encodings) ids ∧
      Forall2 width_selected ((λ '(_, onehot, _), onehot) <$> encodings) ws ∧ length ids = length entries).
Proof.
  intros HF. pose proof (Forall2_length _ _ _ HF) as Lf. eapply gadget_mono; [apply (gadget_mapM σ _ _ (λ done encodings,
    (λ '(_, _, width), width) <$> encodings = length <$> take (length done) encs ∧
    ∃ ids ws, Forall2 (λ bits l, bits_are D bits (l ≫= Prelude.byte_bits) ∧ length l = MAX_CBOR_UINT_BYTES)
        ((λ '(bits, _, _), bits) <$> encodings) ids ∧
      Forall2 width_selected ((λ '(_, onehot, _), onehot) <$> encodings) ws ∧ length ids = length done))|].
  - split; [done|]. exists [], []. split_and!; constructor.
  - intros done [i e] ys Hp (Ew & ids & ws & HI & HW & Hl). apply prefix_snoc_lookup in Hp as [Hi _].
    apply list_lookup_imap_Some in Hi as (e' & Ee & [= -> ->]).
    destruct (Forall2_lookup_l _ _ _ _ _ HF Ee) as (enc & Eenc & Henc & Hwidth).
    eapply gadget_bind; [apply gadget_lift; by rewrite Henc|]. intros ? ->.
    eapply gadget_bind; [apply gadget_ns, gadget_alloc_byte_bits|]. intros bits (l & Ll & HL). rewrite length_resize in Ll.
    eapply gadget_bind; [apply gadget_ns, gadget_one_hot; [done|apply (lt_pow_p 2); lia]|]. intros onehot (j & Hj & HJ).
    destruct (lookup_lt_is_Some_2 DIGEST_ID_WIDTHS j Hj) as [w Ejw]. apply gadget_ret.
    rewrite !fmap_app, length_app, Nat.add_1_r, (take_S_r _ _ _ Eenc), fmap_app, Ew. split; [done|].
    exists (ids ++ [l]), (ws ++ [w]). rewrite length_app, Hl. cbn [length]. split_and!; [..|lia];
      (apply Forall2_app; [done|]; constructor; [|constructor]); [done|by exists j].
  - intros encodings. cbv beta. by rewrite length_imap, Lf, firstn_all.
Qed.

(** The placements of the entries, and of their tails. *)
Lemma zip_places i_from vals pls (f : list nat) (ls : list (list byte)) :
  Forall2 (λ i pl, ∀ x l, f !! i = Some x → ls !! i = Some l → places pl x l) (seq i_from vals) pls →
  i_from = 0 → length ls = vals → vals ≤ length f →
  Forall2 (λ pl '(s, l), places pl s l) pls (zip f ls).
Proof.
  intros [Hl HF]%Forall2_same_length_lookup -> Ll Lf. rewrite length_seq in Hl. apply Forall2_same_length_lookup.
  rewrite length_zip_with. split; [lia|]. intros i pl [x l] Ei Ex.
  apply lookup_zip_with_Some in Ex as (? & ? & [= <- <-] & Ex & El). eapply HF; [|done..].
  apply lookup_seq_lt. apply lookup_lt_Some in Ei. lia.
Qed.

Lemma gadget_entry_placements starts onehots contents s ws ids :
  Forall2 cursor_at starts (starts_from s ws) → Forall2 width_selected onehots ws →
  Forall2 (λ bits l, bits_are D bits (l ≫= Prelude.byte_bits) ∧ length l = MAX_CBOR_UINT_BYTES) contents ids →
  length ws = NUM_ENTRIES → length ids = NUM_ENTRIES →
  gadget σ (mapM (λ i,
      start ← index starts i;
      width ← index onehots i;
      content ← index contents i;
      mret (Variable' start width content)) (range NUM_ENTRIES)) (λ variables,
    Forall2 (λ pl '(s, l), places pl s l) variables (zip (starts_from s ws) (zip_with take ws ids))).
Proof.
  intros HS HW HC Lw Li. eapply gadget_mono.
  { apply (gadget_mapM_Forall2 _ _ _ (λ i pl, ∀ x l, starts_from s ws !! i = Some x → zip_with take ws ids !! i = Some l → places pl x l)).
    intros i [_ Hi]%elem_of_seq. cbn in Hi.
    destruct (lookup_lt_is_Some_2 ws i) as [w Ew]; [lia|]. destruct (lookup_lt_is_Some_2 ids i) as [l El]; [lia|].
    destruct (lookup_lt_is_Some_2 (starts_from s ws) i) as [x Ex]; [rewrite length_starts_from; lia|].
    destruct (Forall2_lookup_r _ _ _ _ _ HS Ex) as (cur & Ec & Hcur).
    destruct (Forall2_lookup_r _ _ _ _ _ HW Ew) as (oh & Eo & j & Ej & HJ).
    destruct (Forall2_lookup_r _ _ _ _ _ HC El) as (c & Ecc & Hc & Hl).
    eapply gadget_bind; [by apply gadget_index_nth|]. intros ? ->.
    eapply gadget_bind; [by apply gadget_index_nth|]. intros ? ->.
    eapply gadget_bind; [by apply gadget_index_nth|]. intros ? ->. apply gadget_ret.
    intros x' l' Ex' El'. rewrite Ex in Ex'. injection Ex' as <-. rewrite lookup_zip_with, Ew in El'. cbn in El'.
    rewrite El in El'. injection El' as <-. by eapply gadget_variable. }
  intros variables HV. apply (zip_places 0 NUM_ENTRIES); [done|done| |]; rewrite ?length_zip_with, ?length_starts_from; lia.
Qed.

Lemma gadget_tail_placements ends entries s ws tails :
  Forall2 cursor_at ends (ends_from s ws) → Forall2 entry_ok entries tails →
  length ws = NUM_ENTRIES → length entries = NUM_ENTRIES →
  gadget σ (mapM (λ i,
      end_ ← index ends i;
      e ← index entries i;
      mret (Fixed end_ (tail_bits e))) (range NUM_ENTRIES)) (λ placements,
    Forall2 (λ pl '(s, l), places pl s l) placements (zip (ends_from s ws) tails)).
Proof.
  intros HE HT Lw Le. pose proof (Forall2_length _ _ _ HT) as Lt. eapply gadget_mono.
  { apply (gadget_mapM_Forall2 _ _ _ (λ i pl, ∀ x t, ends_from s ws !! i = Some x → tails !! i = Some t → places pl x t)).
    intros i [_ Hi]%elem_of_seq. cbn in Hi. destruct (lookup_lt_is_Some_2 entries i) as [e Ee]; [lia|].
    destruct (lookup_lt_is_Some_2 (ends_from s ws) i) as [x Ex]; [rewrite length_ends_from; lia|].
    destruct (Forall2_lookup_r _ _ _ _ _ HE Ex) as (cur & Ec & Hcur).
    eapply gadget_bind; [by apply gadget_index_nth|]. intros ? ->.
    eapply gadget_bind; [by apply gadget_index_nth|]. intros ? ->. apply gadget_ret.
    intros x' t Ex' Et. rewrite Ex in Ex'. injection Ex' as <-.
    destruct (Forall2_lookup_lr _ _ _ _ _ _ HT Ee Et) as (HB & _). by apply gadget_fixed. }
  intros placements HP. apply (zip_places 0 NUM_ENTRIES); [done|done|lia|]. rewrite length_ends_from. lia.
Qed.

(** Four identifiers of some bytes, each in one of the four widths, whatever
    the prover claimed; the tails, the prefix and the suffix are the given
    ones, and what is left of the buffer is zero. *)
Lemma gadget_assemble prefix_bits pre entries tails suffix_bits suf encs :
  bits_are D prefix_bits (pre ≫= Prelude.byte_bits) → bits_are D suffix_bits (suf ≫= Prelude.byte_bits) →
  Forall2 entry_ok entries tails → length entries = NUM_ENTRIES →
  Forall2 (λ e enc, encode_cbor_uint (digest_id e) = Ok enc) entries encs →
  gadget σ (assemble_mso_sig_structure prefix_bits entries suffix_bits) (λ '(buf, real_len),
    real_len = length (spliced pre encs tails suf) ∧
    ∃ ids, length ids = NUM_ENTRIES ∧ Forall (λ id : list byte, length id ∈ DIGEST_ID_WIDTHS) ids ∧
      bits_are D buf (resize (length pre + MAX_DIGEST_SECTION_BYTES + length suf) x00 (spliced pre ids tails suf)
        ≫= Prelude.byte_bits)).
Proof.
  intros HP HS HE Le Henc. unfold assemble_mso_sig_structure. cbv zeta.
  pose proof (Forall2_length _ _ _ HE) as Lt. pose proof (Forall2_length _ _ _ Henc) as Lenc.
  pose proof (Forall2_length _ _ _ HP) as Lp. pose proof (Forall2_length _ _ _ HS) as Ls. rewrite length_bind_byte_bits in Lp, Ls.
  assert (Forall (λ t : list byte, length t = ENTRY_TAIL_LEN) tails) as HT.
  { apply Forall2_Forall_r with (1 := HE). apply list.Forall_forall. intros e _ t (_ & Ht & _). exact Ht. }
  rewrite Lp, Ls, !(Nat.mul_comm 8), !Nat.Div0.mod_mul, !Nat.div_mul by done.
  eapply gadget_bind; [by apply gadget_assert|]. intros _ _. eapply gadget_bind; [by apply gadget_assert|]. intros _ _.
  eapply gadget_bind.
  { apply (gadget_mapM_Forall2 _ _ _ (λ _ _, True)). intros e [i Ei]%list_elem_of_lookup.
    destruct (Forall2_lookup_l _ _ _ _ _ HE Ei) as (t & _ & HB & Ht & Hid).
    eapply gadget_bind; [apply gadget_assert, Nat.eqb_eq; rewrite (Forall2_length _ _ _ HB), length_bind_byte_bits; lia|].
    intros _ _. apply gadget_assert, Z.leb_le, Hid. }
  intros _ _. eapply gadget_bind.
  { apply (gadget_encodings entries encs). apply Forall2_same_length_lookup. split; [done|]. intros i e enc Ei Ec.
    pose proof (Forall2_lookup_lr _ _ _ _ _ _ Henc Ei Ec) as He. split; [done|].
    destruct (Forall2_lookup_l _ _ _ _ _ HE Ei) as (t & _ & _ & _ & Hid). eapply encode_width; [apply Hid|done]. }
  intros encodings (Ew & ids & ws & HI & HW & Li). rewrite Ew.
  assert (length ws = NUM_ENTRIES) as Lw.
  { pose proof (Forall2_length _ _ _ HW) as L1. pose proof (Forall2_length _ _ _ HI) as L2.
    rewrite length_fmap in L1, L2. lia. }
  eapply gadget_bind; [by apply gadget_cursor_chain|]. intros [starts ends] [HSt HEn].
  set (ids' := zip_with take ws ids). assert (length <$> ids' = ws) as Eids.
  { apply list_eq_same_length with (length ws); [done|by rewrite length_fmap; unfold ids'; rewrite length_zip_with; lia|].
    intros i x y _ Ex Ey. rewrite list_lookup_fmap in Ex. unfold ids' in Ex. rewrite lookup_zip_with, Ey in Ex. cbn in Ex.
    destruct (ids !! i) as [l|] eqn:El; [|done]. injection Ex as <-.
    destruct (Forall2_lookup_r _ _ _ _ _ HI El) as (_ & _ & _ & Hl). destruct (Forall2_lookup_r _ _ _ _ _ HW Ey) as (_ & _ & j & Ej & _).
    apply width_bound in Ej. rewrite length_take. lia. }
  assert (length ids' = NUM_ENTRIES) as Li' by (unfold ids'; rewrite length_zip_with; lia).
  assert (Forall (λ id : list byte, length id ∈ DIGEST_ID_WIDTHS) ids') as HWi.
  { apply Forall_lookup. intros i id Eid. apply (f_equal (λ l, l !! i)) in Eids. rewrite list_lookup_fmap, Eid in Eids.
    destruct (Forall2_lookup_r _ _ _ _ _ HW (eq_sym Eids)) as (_ & _ & j & Ej & _). by apply list_elem_of_lookup_2 in Ej. }
  destruct (lookup_lt_is_Some_2 (starts_from (length pre) ws) NUM_ENTRIES) as [last Elast]; [rewrite length_starts_from; lia|].
  destruct (Forall2_lookup_r _ _ _ _ _ HSt Elast) as (cur & Ecur & Hcur).
  eapply gadget_bind; [by apply gadget_index_nth|]. intros ? ->.
  eapply gadget_bind; [apply gadget_entry_placements; [exact HSt|exact HW|exact HI|done|lia]|]. intros variables HV.
  eapply gadget_bind; [apply gadget_tail_placements; [exact HEn|exact HE|done|done]|]. intros placements HPl. cbv beta in HV, HPl.
  eapply gadget_bind.
  { apply gadget_ns, (gadget_assemble_from _ (zip (starts_from (length pre) ws) ids' ++ zip (ends_from (length pre) ws) tails ++ [(last, suf)])).
    - apply Forall2_app; [done|]. apply Forall2_app; [done|]. constructor; [|constructor]. by apply gadget_fixed.
    - rewrite !Forall_app, !Forall_lookup. split_and!.
      + intros i [x l] (? & ? & [= <- <-] & Ex & _)%lookup_zip_with_Some. by eapply starts_from_ge.
      + intros i [x l] (? & ? & [= <- <-] & Ex & _)%lookup_zip_with_Some. by eapply ends_from_ge.
      + intros i y [-> <-]%list_lookup_singleton_Some. by eapply starts_from_ge. }
  intros buf HB. cbv beta in HB. apply gadget_ret. split.
  - rewrite length_spliced by (done || lia). lia.
  - exists ids'. split_and!; [done..|]. rewrite <-(buffer_bits pre ids' tails suf last); [|done|lia|done..|by rewrite Li', Eids].
    rewrite Eids, Nat.mul_comm. apply Forall2_app; [done|]. by apply Forall2_drop.
Qed.

(** Whoever assigns the slots: the assembled buffer is the prefix, four
    entries back to back, each some bytes in one of the four widths of a digest
    identifier and the tail that was given, the suffix, and zeros; the length
    that is returned is that of the bytes made of the claimed identifiers. *)
Theorem assemble_sound prefix_bits pre entries tails suffix_bits suf encs :
  bits_are D prefix_bits (pre ≫= Prelude.byte_bits) → bits_are D suffix_bits (suf ≫= Prelude.byte_bits) →
  Forall2 entry_ok entries tails → length entries = NUM_ENTRIES →
  Forall2 (λ e enc, encode_cbor_uint (digest_id e) = Ok enc) entries encs →
  gadget σ (assemble_mso_sig_structure prefix_bits entries suffix_bits) (λ '(buf, real_len),
    real_len = length (spliced pre encs tails suf) ∧
    ∃ ids, length ids = NUM_ENTRIES ∧ Forall (λ id : list byte, length id ∈ DIGEST_ID_WIDTHS) ids ∧
      bits_are D buf (resize (length pre + MAX_DIGEST_SECTION_BYTES + length suf) x00 (spliced pre ids tails suf)
        ≫= Prelude.byte_bits)).
Proof. apply gadget_assemble. Qed.
End MsoSpliceRules.
