(* ===== verification/Mso.v ===== *)
(** [mso.rs]: the bytes that the issuer of an mdoc signs, a [Sig_structure]
    around a mobile security object of one shape, natively and by rules. The
    digest identifiers are of variable width ([MsoSplice]), so the two lengths
    in the headers are part of the witness. *)
From Stdlib Require Import ZArith Lia Strings.String Strings.Byte.
From Stdlib Require Import Field_tac Ring.
From stdpp Require Import base list numbers option strings pretty.
From S2P Require Import Prelude Bytes Field ConstraintSystem Shape CheckSystem Bellpepper Lc Bits Gadgets Select Limbs BigNat CborUint OneHotCursor DigestId Cbor Sha256 Table Sha256Var AgeDates MsoSplice.

Definition TIMESTAMP_LEN : nat := 20.

Definition SEG_PREFIX_BASE : list byte :=
  [xa6; x67; x64; x6f; x63; x54; x79; x70; x65; x75; x6f; x72; x67; x2e; x69; x73; x6f; x2e; x31; x38; x30; x31; x33; x2e;
   x35; x2e; x31; x2e; x6d; x44; x4c; x67; x76; x65; x72; x73; x69; x6f; x6e; x63; x31; x2e; x30; x6c; x76; x61; x6c; x69;
   x64; x69; x74; x79; x49; x6e; x66; x6f; xa3; x66; x73; x69; x67; x6e; x65; x64; xc0; x74].
Definition SEG_BETWEEN_SIGNED_VALIDFROM : list byte :=
  [x69; x76; x61; x6c; x69; x64; x46; x72; x6f; x6d; xc0; x74].
Definition SEG_BETWEEN_VALIDFROM_VALIDUNTIL : list byte :=
  [x6a; x76; x61; x6c; x69; x64; x55; x6e; x74; x69; x6c; xc0; x74].
Definition SEG_BEFORE_DIGESTS : list byte :=
  [x6c; x76; x61; x6c; x75; x65; x44; x69; x67; x65; x73; x74; x73; xa1; x71; x6f; x72; x67; x2e; x69; x73; x6f; x2e; x31;
   x38; x30; x31; x33; x2e; x35; x2e; x31; xa4].
Definition SEG_AFTER_DIGESTS : list byte :=
  [x6d; x64; x65; x76; x69; x63; x65; x4b; x65; x79; x49; x6e; x66; x6f; xa1; x69; x64; x65; x76; x69; x63; x65; x4b; x65;
   x79; xa4; x01; x02; x20; x01; x21; x58; x20].
Definition SEG_BETWEEN_XY : list byte :=
  [x22; x58; x20].
Definition SEG_AFTER_DEVICE_KEY : list byte :=
  [x6f; x64; x69; x67; x65; x73; x74; x41; x6c; x67; x6f; x72; x69; x74; x68; x6d; x67; x53; x48; x41; x2d; x32; x35; x36].
Definition PAYLOAD_HEADER_NO_LEN : list byte :=
  [xd8; x18; x59].
Definition PROTECTED_HEADER : list byte :=
  [xa1; x01; x26].
Definition SIG_STRUCTURE_PREFIX_NO_LEN : list byte :=
  [x84; x6a; x53; x69; x67; x6e; x61; x74; x75; x72; x65; x31; x43; xa1; x01; x26; x40; x59].

Definition prefix_fixed_len : nat :=
  length SEG_PREFIX_BASE + TIMESTAMP_LEN + length SEG_BETWEEN_SIGNED_VALIDFROM + TIMESTAMP_LEN +
  length SEG_BETWEEN_VALIDFROM_VALIDUNTIL + TIMESTAMP_LEN + length SEG_BEFORE_DIGESTS.
Definition suffix_fixed_len : nat :=
  length SEG_AFTER_DIGESTS + 32 + length SEG_BETWEEN_XY + 32 + length SEG_AFTER_DEVICE_KEY.

(** [u16::try_from(..).expect(..)]. *)
Definition u16_expect (what : string) (n : nat) : outcome Empty_set Z :=
  if (Z.of_nat n <? 2 ^ 16)%Z then Ok (Z.of_nat n) else Panic what.
Definition compute_lengths (real_digest_section_len : nat) : outcome Empty_set (Z * Z) :=
  let mso_body_len := prefix_fixed_len + real_digest_section_len + suffix_fixed_len in
  let payload_len := length PAYLOAD_HEADER_NO_LEN + 2 + mso_body_len in
  mso ← u16_expect "mso_body_len fits in a u16 for any real credential this crate supports" mso_body_len;
  payload ← u16_expect "payload_len fits in a u16 for any real credential this crate supports" payload_len;
  Ok (mso, payload).

Definition MAX_SIG_STRUCTURE_BYTES : nat :=
  length SIG_STRUCTURE_PREFIX_NO_LEN + 2 + length PAYLOAD_HEADER_NO_LEN + 2 + length SEG_PREFIX_BASE + TIMESTAMP_LEN * 3 +
  length SEG_BETWEEN_SIGNED_VALIDFROM + length SEG_BETWEEN_VALIDFROM_VALIDUNTIL + length SEG_BEFORE_DIGESTS +
  MAX_DIGEST_SECTION_BYTES + length SEG_AFTER_DIGESTS + 32 + length SEG_BETWEEN_XY + 32 + length SEG_AFTER_DEVICE_KEY.
Definition SIG_STRUCTURE_NUM_BLOCKS : nat := terminal_block_for_len MAX_SIG_STRUCTURE_BYTES.

Record MsoBodyWitness := mkMsoBodyWitness {
  device_x : list byte;
  device_y : list byte;
  signed_ts : list byte;
  valid_from_ts : list byte;
  valid_until_ts : list byte;
}.

Definition make_tail (digest : list byte) : list byte := [x58; x20] ++ digest.

(** The sum of the identifiers' encodings and the tails. *)
Definition digest_section_len (digest_ids : list Z) : outcome Empty_set nat :=
  widths ← mapM (λ id, enc ← encode_cbor_uint id; Ok (length enc)) digest_ids;
  Ok (sum_list widths + NUM_ENTRIES * ENTRY_TAIL_LEN).

Definition native_sig_structure_bytes (digest_ids : list Z) (claim_digests : list (list byte)) (body : MsoBodyWitness)
    : outcome Empty_set (list byte) :=
  if negb (length claim_digests =? NUM_ENTRIES)
  then Panic "this module's fixed byte template is for exactly MAX_CLAIMS_V1 digestIDs" else
  let tails := make_tail <$> claim_digests in
  real_digest_section_len ← digest_section_len digest_ids;
  '(mso_body_len, payload_len) ← compute_lengths real_digest_section_len;
  let prefix := concat [SIG_STRUCTURE_PREFIX_NO_LEN; be_bytes 2 payload_len; PAYLOAD_HEADER_NO_LEN; be_bytes 2 mso_body_len;
    SEG_PREFIX_BASE; signed_ts body; SEG_BETWEEN_SIGNED_VALIDFROM; valid_from_ts body; SEG_BETWEEN_VALIDFROM_VALIDUNTIL;
    valid_until_ts body; SEG_BEFORE_DIGESTS] in
  let suffix := concat [SEG_AFTER_DIGESTS; device_x body; SEG_BETWEEN_XY; device_y body; SEG_AFTER_DEVICE_KEY] in
  native_mso_sig_structure_bytes prefix digest_ids tails suffix.

Section Mso.
Context `{BooleanLogic}.

Record AllocatedMsoBodyBits := mkAllocatedMsoBodyBits {
  a_device_x : list Boolean;
  a_device_y : list Boolean;
  a_signed_ts : list Boolean;
  a_valid_from_ts : list Boolean;
  a_valid_until_ts : list Boolean;
}.

Definition push_fixed (bits : list Boolean) (bytes : list byte) : list Boolean :=
  bits ++ (Boolean_constant <$> (bytes ≫= Prelude.byte_bits)).

Definition alloc_witness_bytes (bytes : list byte) (label : string) : Synth (list Boolean) :=
  bits ← mapM (λ '(byte_idx, byte),
    mapM (λ '(bit_idx, b),
      bit ← ns (label +:+ " byte " +:+ pretty (byte_idx : nat) +:+ " bit " +:+ pretty (bit_idx : nat)) (AllocatedBit_alloc (Some b));
      mret (Boolean_from bit)) (imap (λ i b, (i, b)) (Prelude.byte_bits byte))) (imap (λ i b, (i, b)) bytes);
  mret (concat bits).

Definition alloc_witness_u16 (value : Z) (label : string) : Synth (list Boolean) :=
  alloc_witness_bytes (be_bytes 2 value) label.

Definition alloc_sig_structure_bits (digest_ids : list Z) (claim_digests : list (list byte)) (body : MsoBodyWitness)
    : Synth (list Boolean * nat * AllocatedMsoBodyBits) :=
  assert (length claim_digests =? NUM_ENTRIES) "this module's fixed byte template is for exactly MAX_CLAIMS_V1 digestIDs" ;;
  real_digest_section_len ← lift (infallible (digest_section_len digest_ids));
  '(mso_body_len, payload_len) ← lift (infallible (compute_lengths real_digest_section_len));
  let prefix_bits := push_fixed [] SIG_STRUCTURE_PREFIX_NO_LEN in
  bits ← alloc_witness_u16 payload_len "payload_len";
  let prefix_bits := push_fixed (prefix_bits ++ bits) PAYLOAD_HEADER_NO_LEN in
  bits ← alloc_witness_u16 mso_body_len "mso_body_len";
  let prefix_bits := push_fixed (prefix_bits ++ bits) SEG_PREFIX_BASE in
  signed_ts_bits ← alloc_witness_bytes (signed_ts body) "signed_ts";
  valid_from_ts_bits ← alloc_witness_bytes (valid_from_ts body) "valid_from_ts";
  valid_until_ts_bits ← alloc_witness_bytes (valid_until_ts body) "valid_until_ts";
  let prefix_bits := push_fixed (prefix_bits ++ signed_ts_bits) SEG_BETWEEN_SIGNED_VALIDFROM in
  let prefix_bits := push_fixed (prefix_bits ++ valid_from_ts_bits) SEG_BETWEEN_VALIDFROM_VALIDUNTIL in
  let prefix_bits := push_fixed (prefix_bits ++ valid_until_ts_bits) SEG_BEFORE_DIGESTS in
  device_x_bits ← alloc_witness_bytes (device_x body) "device_x";
  device_y_bits ← alloc_witness_bytes (device_y body) "device_y";
  let suffix_bits := push_fixed [] SEG_AFTER_DIGESTS in
  let suffix_bits := push_fixed (suffix_bits ++ device_x_bits) SEG_BETWEEN_XY in
  let suffix_bits := push_fixed (suffix_bits ++ device_y_bits) SEG_AFTER_DEVICE_KEY in
  entries ← mapM (λ i,
    digest ← index claim_digests i;
    tail_bits ← alloc_witness_bytes (make_tail digest) ("entry " +:+ pretty (i : nat) +:+ " tail");
    id ← index digest_ids i;
    mret {| digest_id := id; tail_bits := tail_bits |}) (range NUM_ENTRIES);
  '(assembled, real_len) ← ns "mso sig_structure" (assemble_mso_sig_structure prefix_bits entries suffix_bits);
  assert (length assembled =? MAX_SIG_STRUCTURE_BYTES * 8) "assert_eq" ;;
  mret (assembled, real_len,
    {| a_device_x := device_x_bits; a_device_y := device_y_bits; a_signed_ts := signed_ts_bits;
       a_valid_from_ts := valid_from_ts_bits; a_valid_until_ts := valid_until_ts_bits |}).
End Mso.

(** * The parts of a structure *)

(** The bytes of the structure, from the two lengths and the variable parts. *)
Definition prefix_of (payload_len mso_body_len signed from until : list byte) : list byte :=
  concat [SIG_STRUCTURE_PREFIX_NO_LEN; payload_len; PAYLOAD_HEADER_NO_LEN; mso_body_len; SEG_PREFIX_BASE; signed;
    SEG_BETWEEN_SIGNED_VALIDFROM; from; SEG_BETWEEN_VALIDFROM_VALIDUNTIL; until; SEG_BEFORE_DIGESTS].
Definition suffix_of (x y : list byte) : list byte :=
  concat [SEG_AFTER_DIGESTS; x; SEG_BETWEEN_XY; y; SEG_AFTER_DEVICE_KEY].
Definition structure_of (payload_len mso_body_len : list byte) (body : MsoBodyWitness) (ids tails : list (list byte)) : list byte :=
  spliced (prefix_of payload_len mso_body_len (signed_ts body) (valid_from_ts body) (valid_until_ts body)) ids tails
    (suffix_of (device_x body) (device_y body)).

(** The sizes of the arrays. *)
Definition body_sizes (body : MsoBodyWitness) : Prop :=
  length (device_x body) = 32 ∧ length (device_y body) = 32 ∧ length (signed_ts body) = TIMESTAMP_LEN ∧
  length (valid_from_ts body) = TIMESTAMP_LEN ∧ length (valid_until_ts body) = TIMESTAMP_LEN.

(** The values of the structure: the mobile security object, and what is
    signed around it. *)
Definition date_time (t : list byte) : Value := Tag 0 (Text t).
Definition mso_value (digest_ids : list Z) (digests : list (list byte)) (body : MsoBodyWitness) : Value :=
  Cbor.record [
    (bytes_of "docType", Text (bytes_of "org.iso.18013.5.1.mDL"));
    (bytes_of "version", Text (bytes_of "1.0"));
    (bytes_of "validityInfo", Cbor.record [
      (bytes_of "signed", date_time (signed_ts body));
      (bytes_of "validFrom", date_time (valid_from_ts body));
      (bytes_of "validUntil", date_time (valid_until_ts body))]);
    (bytes_of "valueDigests", Cbor.record [
      (bytes_of "org.iso.18013.5.1", Map (zip_with (λ id digest, (Unsigned id, Cbor.Bytes digest)) digest_ids digests))]);
    (bytes_of "deviceKeyInfo", Cbor.record [
      (bytes_of "deviceKey", Map [(int 1, int 2); (int (-1), int 1); (int (-2), Cbor.Bytes (device_x body));
        (int (-3), Cbor.Bytes (device_y body))])]);
    (bytes_of "digestAlgorithm", Text (bytes_of "SHA-256"))].
Definition sig_structure_value (mso : Value) : Value :=
  Array [Text (bytes_of "Signature1"); Cbor.Bytes (encode (Map [(int 1, int (-7))])); Cbor.Bytes [];
    Cbor.Bytes (encode (Tag 24 (Cbor.Bytes (encode mso))))].

(** * The native bytes *)
Lemma encode_canonical v enc : (0 ≤ v)%Z → encode_cbor_uint v = Ok enc → enc = encode (Unsigned v).
Proof.
  intros Hv. unfold encode_cbor_uint. destruct (Z.leb_spec v MAX_DIGEST_ID) as [M|]; [|done]. cbn [negb].
  change MAX_DIGEST_ID with 2147483647%Z in M. intros <-%Ok_inj. cbn [encode]. unfold head. change (Z.shiftl 0 5) with 0%Z.
  destruct (class_ranges v) as [[-> C]|[[-> C]|[[-> C]|[-> C]]]].
  - by rewrite (proj2 (Z.leb_le _ _)) by lia.
  - rewrite (proj2 (Z.leb_gt v 23)), (proj2 (Z.leb_le v _)) by lia. cbn [be_bytes]. by rewrite Z.div_1_r.
  - by rewrite (proj2 (Z.leb_gt v 23)), (proj2 (Z.leb_gt v 0xff)), (proj2 (Z.leb_le v _)) by lia.
  - by rewrite (proj2 (Z.leb_gt v 23)), (proj2 (Z.leb_gt v 0xff)), (proj2 (Z.leb_gt v 0xffff)), (proj2 (Z.leb_le v _)) by lia.
Qed.

(** A head with a length of two bytes. *)
Lemma head_two_bytes n : (256 ≤ n < 2 ^ 16)%Z → head 2 n = x59 :: be_bytes 2 n.
Proof.
  intros Hn. unfold head. rewrite (proj2 (Z.leb_gt n 23)), (proj2 (Z.leb_gt n 0xff)), (proj2 (Z.leb_le n _)) by lia. done.
Qed.

Lemma encode_digest ids digests encs :
  Forall2 (λ id enc, (0 ≤ id)%Z ∧ encode_cbor_uint id = Ok enc) ids encs →
  Forall (λ d : list byte, length d = 32) digests → length digests = length ids →
  List.flat_map (λ '(key, value), encode key ++ encode value)
    (zip_with (λ id digest, (Unsigned id, Cbor.Bytes digest)) ids digests)
  = concat (zip_with app encs (make_tail <$> digests)).
Proof.
  intros HF. revert digests. induction HF as [|id enc ids encs [H0 He] _ IH]; intros [|d digests] HD Hl; try done.
  apply Forall_cons in HD as [Hd HD]. injection Hl as Hl. cbn [zip_with fmap list_fmap List.flat_map concat].
  rewrite (IH digests HD Hl), (encode_canonical id enc H0 He). unfold make_tail. f_equal. f_equal. cbn [encode]. unfold len. by rewrite Hd.
Qed.

(** The object, in the order of its keys. *)
Definition mso_bytes (body : MsoBodyWitness) (section : list byte) : list byte :=
  concat [SEG_PREFIX_BASE; signed_ts body; SEG_BETWEEN_SIGNED_VALIDFROM; valid_from_ts body;
    SEG_BETWEEN_VALIDFROM_VALIDUNTIL; valid_until_ts body; SEG_BEFORE_DIGESTS; section;
    suffix_of (device_x body) (device_y body)].

Lemma length_mso_bytes body section :
  body_sizes body → length (mso_bytes body section) = prefix_fixed_len + length section + suffix_fixed_len.
Proof.
  intros (L1 & L2 & L3 & L4 & L5). unfold mso_bytes, suffix_of, prefix_fixed_len, suffix_fixed_len. cbn [concat].
  rewrite !length_app, L1, L2, L3, L4, L5. cbn [length]. lia.
Qed.

Lemma encode_mso ids digests encs body :
  Forall2 (λ id enc, (0 ≤ id)%Z ∧ encode_cbor_uint id = Ok enc) ids encs →
  Forall (λ d : list byte, length d = 32) digests → length digests = NUM_ENTRIES → length ids = NUM_ENTRIES → body_sizes body →
  encode (mso_value ids digests body) = mso_bytes body (concat (zip_with app encs (make_tail <$> digests))).
Proof.
  intros HF HD Ld Li (L1 & L2 & L3 & L4 & L5). rewrite <-(encode_digest ids digests encs) by (done || lia).
  unfold mso_value, Cbor.record, date_time, mso_bytes, suffix_of. set (entries := zip_with _ ids digests).
  assert (len entries = 4%Z) as Le by (unfold entries, len; rewrite length_zip_with, Ld, Li; done).
  cbn [encode fmap list_fmap List.flat_map concat]. fold encode. rewrite Le. unfold len. rewrite L1, L2, L3, L4, L5.
  destruct body as [x y s f u]. cbn [device_x device_y signed_ts valid_from_ts valid_until_ts].
  change (Z.of_nat TIMESTAMP_LEN) with 20%Z. change (Z.of_nat 32) with 32%Z.
  rewrite ?app_nil_r, <-?app_assoc. reflexivity.
Qed.

(** The encodings of identifiers in range. *)
Lemma encodings_exist ids :
  Forall (λ id, 0 ≤ id ≤ MAX_DIGEST_ID)%Z ids →
  ∃ encs, Forall2 (λ id enc, (0 ≤ id)%Z ∧ encode_cbor_uint id = Ok enc) ids encs ∧
    mapM (λ id, enc ← encode_cbor_uint id; Ok (length enc)) ids = Ok (length <$> encs) ∧
    Forall (λ id : list byte, length id ∈ DIGEST_ID_WIDTHS) encs.
Proof.
  induction 1 as [|id ids [H0 H1] _ (encs & HF & EM & HW)]; [by exists []|].
  assert (∃ enc, encode_cbor_uint id = Ok enc) as [enc Eenc].
  { unfold encode_cbor_uint. rewrite (proj2 (Z.leb_le _ _)) by done. by eexists. }
  exists (enc :: encs). split_and!; [by constructor| |by constructor; [eapply encode_width|]].
  cbn [mapM]. rewrite Eenc. cbn [mbind outcome_bind]. by rewrite EM.
Qed.

Lemma lengths_fit n : n ≤ MAX_DIGEST_SECTION_BYTES →
  compute_lengths n = Ok (Z.of_nat (prefix_fixed_len + n + suffix_fixed_len), Z.of_nat (5 + (prefix_fixed_len + n + suffix_fixed_len))).
Proof.
  intros Hn. unfold compute_lengths, u16_expect. cbv zeta. change (length PAYLOAD_HEADER_NO_LEN + 2) with 5.
  change MAX_DIGEST_SECTION_BYTES with 156 in Hn. change prefix_fixed_len with 184. change suffix_fixed_len with 124.
  rewrite !(proj2 (Z.ltb_lt _ _)) by lia. done.
Qed.

(** The section of the digests. *)
Lemma section_bytes encs digests :
  Forall (λ id : list byte, length id ∈ DIGEST_ID_WIDTHS) encs → length encs = NUM_ENTRIES →
  Forall (λ d : list byte, length d = 32) digests → length digests = NUM_ENTRIES →
  length (concat (zip_with app encs (make_tail <$> digests))) = sum_list (length <$> encs) + NUM_ENTRIES * ENTRY_TAIL_LEN ∧
  sum_list (length <$> encs) + NUM_ENTRIES * ENTRY_TAIL_LEN ≤ MAX_DIGEST_SECTION_BYTES.
Proof.
  intros HW Le HD Ld. split.
  - rewrite length_entries, Le; [done| |by rewrite length_fmap, Le].
    apply Forall_fmap. eapply Forall_impl; [exact HD|]. intros d Hd. unfold compose, make_tail. by rewrite length_app, Hd.
  - pose proof (widths_bound encs HW) as L. rewrite Le in L. unfold MAX_DIGEST_SECTION_BYTES, NUM_ENTRIES in *. lia.
Qed.

(** What is signed: the structure around the object, in canonical CBOR. *)
Lemma native_structure ids digests body encs :
  Forall2 (λ id enc, (0 ≤ id)%Z ∧ encode_cbor_uint id = Ok enc) ids encs →
  mapM (λ id, enc ← encode_cbor_uint id; Ok (length enc)) ids = Ok (length <$> encs) →
  Forall (λ id : list byte, length id ∈ DIGEST_ID_WIDTHS) encs →
  length ids = NUM_ENTRIES → Forall (λ d : list byte, length d = 32) digests → length digests = NUM_ENTRIES → body_sizes body →
  let n := (sum_list (length <$> encs) + NUM_ENTRIES * ENTRY_TAIL_LEN)%nat in
  let mso_len := Z.of_nat (prefix_fixed_len + n + suffix_fixed_len) in
  digest_section_len ids = Ok n ∧ compute_lengths n = Ok (mso_len, (5 + mso_len)%Z) ∧
  native_sig_structure_bytes ids digests body =
    Ok (structure_of (be_bytes 2 (5 + mso_len)) (be_bytes 2 mso_len) body encs (make_tail <$> digests)) ∧
  structure_of (be_bytes 2 (5 + mso_len)) (be_bytes 2 mso_len) body encs (make_tail <$> digests)
    = encode (sig_structure_value (mso_value ids digests body)).
Proof.
  intros HF EM HW Li HD Ld HB n mso_len. pose proof (Forall2_length _ _ _ HF) as Le. rewrite Li in Le.
  destruct (section_bytes encs digests HW (eq_sym Le) HD Ld) as [Ls Lm]. fold n in Ls, Lm.
  assert (digest_section_len ids = Ok n) as En by (unfold digest_section_len; by rewrite EM).
  assert (compute_lengths n = Ok (mso_len, (5 + mso_len)%Z)) as Ec.
  { rewrite (lengths_fit n Lm). unfold mso_len. do 2 f_equal. lia. }
  split; [done|]. split; [done|]. split.
  - unfold native_sig_structure_bytes. rewrite Ld, Nat.eqb_refl. cbn [negb]. cbv zeta. rewrite En. cbn [mbind outcome_bind].
    rewrite Ec. cbn [mbind outcome_bind]. apply native_bytes_spec; [|done|by rewrite length_fmap].
    eapply Forall2_impl; [exact HF|]. by intros id enc [_ He].
  - unfold sig_structure_value. rewrite (encode_mso _ _ encs) by done. set (section := concat _) in *.
    cbn [encode List.flat_map]. fold encode. unfold len. rewrite !length_app, length_mso_bytes, Ls by done. fold mso_len.
    assert (256 ≤ mso_len < 2 ^ 10)%Z as Hm.
    { unfold mso_len. change MAX_DIGEST_SECTION_BYTES with 156 in Lm. change prefix_fixed_len with 184. change suffix_fixed_len with 124. lia. }
    rewrite (head_two_bytes mso_len) by lia. cbn [length]. rewrite length_be_bytes.
    change (length (head 6 24)) with 2. replace (Z.of_nat (2 + (3 + (prefix_fixed_len + n + suffix_fixed_len)))) with (5 + mso_len)%Z
      by (unfold mso_len; lia).
    rewrite (head_two_bytes (5 + mso_len)) by lia. unfold structure_of, spliced, prefix_of, mso_bytes. fold section.
    generalize (be_bytes 2 mso_len), (be_bytes 2 (5 + mso_len)), (suffix_of (device_x body) (device_y body)). intros b1 b2 suf.
    clear. cbn [concat app]. rewrite ?app_nil_r, <-?app_assoc. reflexivity.
Qed.





(** * What the rules force *)
Section MsoRules.
Context `{BooleanLogic} (σ : Assignment).
Local Abbreviation D := (denotes σ).
Local Abbreviation bytes_bits bs l := (bits_are D bs (l ≫= Prelude.byte_bits)).

Lemma constant_bytes l : bytes_bits (Boolean_constant <$> (l ≫= Prelude.byte_bits)) l.
Proof. apply Forall2_fmap_l, Forall_Forall2_diag, list.Forall_forall. intros b _. apply Boolean_constant_denotes. Qed.

Lemma push_fixed_bytes bits l fixed : bytes_bits bits l → bytes_bits (push_fixed bits fixed) (l ++ fixed).
Proof. intros HB. unfold push_fixed. rewrite bind_app. apply Forall2_app; [done|]. apply constant_bytes. Qed.

(** Some witness bytes and the fixed ones after them. *)
Lemma push_witness bits l wbits w fixed :
  bytes_bits bits l → bytes_bits wbits w → bytes_bits (push_fixed (bits ++ wbits) fixed) (l ++ w ++ fixed).
Proof.
  intros HB HW. rewrite app_assoc. apply push_fixed_bytes. rewrite bind_app. by apply Forall2_app.
Qed.

Lemma gadget_alloc_witness_bytes bytes label :
  gadget σ (alloc_witness_bytes bytes label) (λ bits, ∃ l, length l = length bytes ∧ bytes_bits bits l).
Proof.
  unfold alloc_witness_bytes. eapply gadget_bind.
  { apply (gadget_mapM_Forall2 _ _ _ (λ _ bits, ∃ v, length v = 8 ∧ bits_are D bits v)). intros [i b] _.
    eapply gadget_mono; [apply gadget_bit_list; intros [j v]; apply gadget_new_bit|]. intros bits (v & HB & Hl).
    exists v. split; [|done]. by rewrite Hl, length_imap, length_byte_bits. }
  intros bits HF. cbv beta in HF. apply gadget_ret. rewrite <-(length_imap (λ i b, (i, b)) bytes).
  induction HF as [|x bs l bits (v & Lv & HV) _ (k & Lk & HK)]; [exists []; split; [done|constructor]|].
  destruct (bits_as_bytes 1 v) as (one_byte & L1 & ->); [lia|]. destruct one_byte as [|b [|]]; try done.
  exists (b :: k). cbn [length concat]. rewrite Lk. split; [done|]. rewrite bind_cons. rewrite bind_cons, app_nil_r in HV.
  by apply Forall2_app.
Qed.

(** The entries: an identifier and a tail of new slots. *)
Lemma gadget_entries digest_ids claim_digests :
  Forall (λ id, 0 ≤ id ≤ MAX_DIGEST_ID)%Z digest_ids → length digest_ids = NUM_ENTRIES →
  Forall (λ d : list byte, length d = 32) claim_digests → length claim_digests = NUM_ENTRIES →
  gadget σ (mapM (λ i,
    digest ← index claim_digests i;
    tail_bits ← alloc_witness_bytes (make_tail digest) ("entry " +:+ pretty (i : nat) +:+ " tail");
    id ← index digest_ids i;
    mret {| digest_id := id; tail_bits := tail_bits |}) (range NUM_ENTRIES)) (λ entries,
    digest_id <$> entries = digest_ids ∧ ∃ tails, Forall2 (entry_ok σ) entries tails).
Proof.
  intros HI Li HD Ld. eapply gadget_mono.
  { apply (gadget_mapM_Forall2 _ _ _ (λ i e, digest_ids !! i = Some (digest_id e) ∧ ∃ t, entry_ok σ e t)).
    intros i [_ Hi]%elem_of_seq. cbn in Hi. destruct (lookup_lt_is_Some_2 claim_digests i) as [d Ed]; [lia|].
    destruct (lookup_lt_is_Some_2 digest_ids i) as [id Eid]; [lia|].
    rewrite Forall_lookup in HI. rewrite Forall_lookup in HD. specialize (HI _ _ Eid). specialize (HD _ _ Ed).
    eapply gadget_bind; [by apply gadget_index_nth|]. intros ? ->.
    eapply gadget_bind; [apply gadget_alloc_witness_bytes|]. intros bits (t & Lt & HT).
    eapply gadget_bind; [by apply gadget_index_nth|]. intros ? ->. apply gadget_ret. split; [done|].
    exists t. split; [done|]. split; [|done]. rewrite Lt. unfold make_tail. by rewrite length_app, HD. }
  intros entries [Hl HF]%Forall2_same_length_lookup. unfold range in *. rewrite length_seq in Hl. split.
  - apply list_eq_same_length with NUM_ENTRIES; [lia|by rewrite length_fmap|]. intros i x y Hi Ex Ey.
    rewrite list_lookup_fmap in Ex. destruct (entries !! i) as [e|] eqn:Ee; [|done]. injection Ex as <-.
    destruct (HF i i e) as [Eid _]; [by apply lookup_seq_lt|done|]. congruence.
  - assert (Forall (λ e, ∃ t, entry_ok σ e t) entries) as HE.
    { apply Forall_lookup. intros i e Ee. apply (HF i i e); [|done]. apply lookup_seq_lt. apply lookup_lt_Some in Ee. lia. }
    clear Hl HF. induction HE as [|e entries (t & Ht) _ (tails & IH)]; [by exists []|]. exists (t :: tails). by constructor.
Qed.

(** What the names of the groups stand for. *)
Definition body_bits (groups : AllocatedMsoBodyBits) (body : MsoBodyWitness) : Prop :=
  bytes_bits (a_device_x groups) (device_x body) ∧ bytes_bits (a_device_y groups) (device_y body) ∧
  bytes_bits (a_signed_ts groups) (signed_ts body) ∧ bytes_bits (a_valid_from_ts groups) (valid_from_ts body) ∧
  bytes_bits (a_valid_until_ts groups) (valid_until_ts body).

(** A buffer with the fixed bytes of the structure: the lengths, the times,
    the key, the identifiers and the tails are any bytes of their sizes. *)
Definition structure_shown (buf : list Boolean) (groups : AllocatedMsoBodyBits) : Prop :=
  ∃ payload_len mso_body_len body ids tails,
    length payload_len = 2 ∧ length mso_body_len = 2 ∧ body_sizes body ∧
    length ids = NUM_ENTRIES ∧ Forall (λ id : list byte, length id ∈ DIGEST_ID_WIDTHS) ids ∧
    length tails = NUM_ENTRIES ∧ Forall (λ t : list byte, length t = ENTRY_TAIL_LEN) tails ∧
    body_bits groups body ∧
    bytes_bits buf (resize MAX_SIG_STRUCTURE_BYTES x00 (structure_of payload_len mso_body_len body ids tails)).

Lemma gadget_sig_structure digest_ids claim_digests body :
  Forall (λ id, 0 ≤ id ≤ MAX_DIGEST_ID)%Z digest_ids → length digest_ids = NUM_ENTRIES →
  Forall (λ d : list byte, length d = 32) claim_digests → length claim_digests = NUM_ENTRIES → body_sizes body →
  gadget σ (alloc_sig_structure_bits digest_ids claim_digests body) (λ '(buf, real_len, groups),
    real_len ≤ MAX_SIG_STRUCTURE_BYTES ∧ structure_shown buf groups).
Proof.
  intros HI Li HD Ld HB. destruct (encodings_exist digest_ids HI) as (encs & HF & EM & HW).
  destruct (native_structure digest_ids claim_digests body encs HF EM HW Li HD Ld HB) as (En & Ec & _ & _).
  pose proof (Forall2_length _ _ _ HF) as Le. pose proof HB as (L1 & L2 & L3 & L4 & L5).
  unfold alloc_sig_structure_bits, alloc_witness_u16. cbv zeta.
  eapply gadget_bind; [by apply gadget_assert, Nat.eqb_eq|]. intros _ _.
  eapply gadget_bind; [apply gadget_lift; by rewrite En|]. intros ? ->.
  eapply gadget_bind; [apply gadget_lift; by rewrite Ec|]. intros ? ->.
  eapply gadget_bind; [apply gadget_alloc_witness_bytes|]. intros plb (pl & Lpl & Hpl). rewrite length_be_bytes in Lpl.
  eapply gadget_bind; [apply gadget_alloc_witness_bytes|]. intros mlb (ml & Lml & Hml). rewrite length_be_bytes in Lml.
  eapply gadget_bind; [apply gadget_alloc_witness_bytes|]. intros sb (s & Ls & Hs). rewrite L3 in Ls.
  eapply gadget_bind; [apply gadget_alloc_witness_bytes|]. intros fb (f & Lf & Hf). rewrite L4 in Lf.
  eapply gadget_bind; [apply gadget_alloc_witness_bytes|]. intros ub (u & Lu & Hu). rewrite L5 in Lu.
  eapply gadget_bind; [apply gadget_alloc_witness_bytes|]. intros xb (x & Lx & Hx). rewrite L1 in Lx.
  eapply gadget_bind; [apply gadget_alloc_witness_bytes|]. intros yb (y & Ly & Hy). rewrite L2 in Ly.
  eapply gadget_bind; [by apply gadget_entries|]. intros entries (Eid & tails & HE).
  set (body' := {| device_x := x; device_y := y; signed_ts := s; valid_from_ts := f; valid_until_ts := u |}).
  pose proof (push_fixed_bytes [] [] SIG_STRUCTURE_PREFIX_NO_LEN (List.Forall2_nil _)) as HP.
  pose proof (push_witness _ _ _ _ PAYLOAD_HEADER_NO_LEN HP Hpl) as HP1.
  pose proof (push_witness _ _ _ _ SEG_PREFIX_BASE HP1 Hml) as HP2.
  pose proof (push_witness _ _ _ _ SEG_BETWEEN_SIGNED_VALIDFROM HP2 Hs) as HP3.
  pose proof (push_witness _ _ _ _ SEG_BETWEEN_VALIDFROM_VALIDUNTIL HP3 Hf) as HP4.
  pose proof (push_witness _ _ _ _ SEG_BEFORE_DIGESTS HP4 Hu) as HP5. clear HP HP1 HP2 HP3 HP4.
  pose proof (push_fixed_bytes [] [] SEG_AFTER_DIGESTS (List.Forall2_nil _)) as HS.
  pose proof (push_witness _ _ _ _ SEG_BETWEEN_XY HS Hx) as HS1.
  pose proof (push_witness _ _ _ _ SEG_AFTER_DEVICE_KEY HS1 Hy) as HS2. clear HS HS1.
  match type of HP5 with bits_are _ _ (?l ≫= _) => replace l with (prefix_of pl ml s f u) in HP5
    by (unfold prefix_of; cbn [concat]; by rewrite <-!app_assoc, app_nil_l, app_nil_r) end.
  match type of HS2 with bits_are _ _ (?l ≫= _) => replace l with (suffix_of x y) in HS2
    by (unfold suffix_of; cbn [concat]; by rewrite <-!app_assoc, app_nil_l, app_nil_r) end.
  assert (length entries = NUM_ENTRIES) as Len by (by rewrite <-Li, <-Eid, length_fmap).
  eapply gadget_bind.
  { apply gadget_ns, (gadget_assemble σ _ _ entries tails _ _ encs HP5 HS2 HE Len). rewrite <-Eid in HF.
    apply Forall2_fmap_l in HF. eapply Forall2_impl; [exact HF|]. by intros e enc [_ He]. }
  intros [buf real_len] (Er & ids & Lids & HWi & HBuf). cbv beta in HBuf.
  assert (length (prefix_of pl ml s f u) + MAX_DIGEST_SECTION_BYTES + length (suffix_of x y) = MAX_SIG_STRUCTURE_BYTES) as Emax.
  { unfold prefix_of, suffix_of, MAX_SIG_STRUCTURE_BYTES. cbn [concat]. rewrite !length_app, Lpl, Lml, Ls, Lf, Lu, Lx, Ly.
    cbn [length]. unfold TIMESTAMP_LEN. lia. }
  rewrite Emax in HBuf.
  eapply gadget_bind.
  { apply gadget_assert, Nat.eqb_eq. rewrite (Forall2_length _ _ _ HBuf), length_bind_byte_bits, length_resize. lia. }
  intros _ _. apply gadget_ret.
  assert (Forall (λ t : list byte, length t = ENTRY_TAIL_LEN) tails) as HT.
  { apply Forall2_Forall_r with (1 := HE). apply list.Forall_forall. intros e _ t (_ & Ht & _). exact Ht. }
  pose proof (Forall2_length _ _ _ HE) as Lt. split.
  - rewrite Er, length_spliced by (done || lia). pose proof (widths_bound encs HW) as Lw. rewrite <-Le, Li in *.
    unfold MAX_DIGEST_SECTION_BYTES in Emax. lia.
  - exists pl, ml, body', ids, tails. by split_and!; try done; lia.
Qed.
End MsoRules.
