(* ===== verification/MdocCore.v ===== *)
(** [mdoc_core.rs] and the step circuit of [lib.rs]: the variant of the first
    engine that puts the signed structure together from its parts. A step
    hashes the item of one claim, the core checks the issuer's signature; each
    publishes the digest of a claim blinded with a nonce. *)
From Stdlib Require Import ZArith Lia Strings.String Strings.Byte.
From Stdlib Require Import Field_tac Ring.
From stdpp Require Import base list numbers option strings pretty.
From S2P Require Import Prelude Bytes Field ConstraintSystem Shape CheckSystem Bellpepper Lc Bits Gadgets Select Limbs BigNat BigNatRules Curve P256 Ecc Ecdsa CborUint OneHotCursor DigestId Values Sha256 Table Window Circuit Step Sha256Var Packing Sha256Mc Hasher AgeFolded OffsetBind AgeDates AgeSound AgeStatement MsoSplice Mso.

Definition MAX_CLAIMS_V1 : nat := 4.
Definition REAL_LEN_BITS : nat := 8.
Definition BLIND_NONCE_BYTES : nat := 23.

(** [bellpepper::gadgets::sha256::sha256], a hash of a message of known
    length. *)
Class Sha256Gadget `{Bellpepper} := {
  gadget_sha256 : list Boolean → Synth (list Boolean);
  gadget_sha256_rules (σ : Assignment) bits m :
    bits_are (denotes σ) bits (m ≫= Prelude.byte_bits) →
    gadget σ (gadget_sha256 bits) (λ out, bits_are (denotes σ) out (fips_sha256 m ≫= Prelude.byte_bits));
}.

Section Native.
Context `{ScalarField} `{!Sha2}.

Definition blind_digest_bytes (digest nonce : list byte) : list byte := sha256 (digest ++ nonce).

(** [native_bytes_to_bits], [native_u32_to_bits]. *)
Definition native_bytes_to_bits (bytes : list byte) : list Scalar := of_bool <$> (bytes ≫= Prelude.byte_bits).
Definition native_u32_to_bits (value : Z) : list Scalar :=
  (λ i, of_bool (Z.testbit value (Z.of_nat (31 - i)))) <$> range 32.

Record ClaimDigestStepCircuit := mkClaimDigestStepCircuit {
  step_bytes : list byte;
  step_real_len : nat;
  step_disclose : bool;
  step_digest_id : Z;
  step_nonce : list byte;
}.

Definition ClaimDigestStepCircuit_new (bytes : list byte) (real_len : nat) (disclose : bool) (digest_id : Z) (nonce : list byte)
    : outcome Empty_set ClaimDigestStepCircuit :=
  if negb (length bytes =? MAX_CLAIM_BYTES_V1)%nat then Panic "bytes must be exactly MAX_CLAIM_BYTES_V1 long" else
  if negb (real_len <=? MAX_CLAIM_BYTES_V1)%nat then Panic "real_len exceeds MAX_CLAIM_BYTES_V1" else
  Ok {| step_bytes := bytes; step_real_len := real_len; step_disclose := disclose; step_digest_id := digest_id; step_nonce := nonce |}.

Definition digest_bytes (c : ClaimDigestStepCircuit) : list byte := sha256 (take (step_real_len c) (step_bytes c)).

Definition blinded_digest_bits (c : ClaimDigestStepCircuit) : list bool :=
  blind_digest_bytes (digest_bytes c) (step_nonce c) ≫= Prelude.byte_bits.

Definition step_public_values (c : ClaimDigestStepCircuit) : list Scalar :=
  let len_byte := if step_disclose c then (Z.of_nat (step_real_len c) mod 256)%Z else 0%Z in
  (of_bool <$> blinded_digest_bits c) ++ [of_bool (step_disclose c)] ++
  ((λ i, of_bool (Z.testbit len_byte (Z.of_nat i))) <$> reverse (range REAL_LEN_BITS)) ++
  native_u32_to_bits (step_digest_id c).

Record MdocCoreCircuit := mkMdocCoreCircuit {
  core_qx : Scalar;
  core_qy : Scalar;
  core_r : Z;
  core_s : Z;
  core_s_inv : Z;
  core_digest_ids : list Z;
  core_claim_digests : list (list byte);
  core_mso_body : MsoBodyWitness;
  core_nonce : list byte;
}.

Definition native_z_bytes (c : MdocCoreCircuit) : outcome Empty_set (list byte) :=
  sig_structure ← native_sig_structure_bytes (core_digest_ids c) (core_claim_digests c) (core_mso_body c);
  Ok (sha256 sig_structure).

Definition core_public_values (c : MdocCoreCircuit) : list Scalar :=
  let body := core_mso_body c in
  [core_qx c; core_qy c] ++ native_bytes_to_bits (core_nonce c) ++
  native_bytes_to_bits (device_x body) ++ native_bytes_to_bits (device_y body) ++
  native_bytes_to_bits (signed_ts body) ++ native_bytes_to_bits (valid_from_ts body) ++
  native_bytes_to_bits (valid_until_ts body) ++
  (core_digest_ids c ≫= native_u32_to_bits) ++
  (core_claim_digests c ≫= λ digest, native_bytes_to_bits (blind_digest_bytes digest (core_nonce c))).
End Native.

Section MdocCore.
Context `{BooleanLogic} `{!NumOps} `{!NonNative} `{!P256Group} `{!CompressionGadget} `{!Uint32Constants} `{!PublicNums} `{!Sha256Gadget}.

Definition inputize_bits (bits : list Boolean) (label : string) : Synth unit :=
  mapM (λ '(i, bit),
    let value := (λ b : bool, if b then ONE else ZERO) <$> Boolean_get_value bit in
    num ← ns (label +:+ " bit " +:+ pretty (i : nat) +:+ " as num") (AllocatedNum_alloc (ok_or AssignmentMissing value));
    enforce (label +:+ " bit " +:+ pretty i +:+ " matches boolean")
      (lc_add lc_zero (Boolean_lc bit one ONE)) (lc_add_var lc_zero one) (lc_add_var lc_zero (get_variable num)) ;;
    ns ("inputize " +:+ label +:+ " bit " +:+ pretty i) (AllocatedNum_inputize num)) (imap (λ i b, (i, b)) bits) ;;
  mret tt.

Definition step_precommitted (c : ClaimDigestStepCircuit) : Synth (list AllocatedNum) :=
  input_bits ← alloc_byte_bits (step_bytes c) "claim byte-bit";
  '(digest_bits, _) ← ns "sha256_var(issuer_signed_item)" (sha256_var input_bits (step_real_len c));
  nonce_bits ← alloc_byte_bits (step_nonce c) "nonce byte-bit";
  blinded_digest_bits ← ns "blind(digest, nonce)" (gadget_sha256 (digest_bits ++ nonce_bits));
  inputize_bits blinded_digest_bits "digest" ;;
  disclose ← ns "disclose" (AllocatedBit_alloc (Some (step_disclose c)));
  let disclose_bit := Boolean_from disclose in
  inputize_bits [disclose_bit] "disclose" ;;
  real_len_bits ← mapM (λ i,
    bit ← ns ("real_len bit " +:+ pretty (i : nat)) (AllocatedBit_alloc (Some (Z.testbit (Z.of_nat (step_real_len c)) (Z.of_nat i))));
    mret (Boolean_from bit)) (reverse (range REAL_LEN_BITS));
  masked_real_len_bits ← mapM (λ '(i, b), ns ("mask real_len bit " +:+ pretty (i : nat)) (Boolean_and b disclose_bit))
    (imap (λ i b, (i, b)) real_len_bits);
  inputize_bits masked_real_len_bits "real_len" ;;
  extracted ← ns "digest_id_extract" (extract_digest_id input_bits DIGEST_ID_OFFSET_BYTES (step_digest_id c));
  inputize_bits (DigestId.value_bits extracted) "digest_id" ;;
  mret [].

Definition core_precommitted (c : MdocCoreCircuit) : Synth (list AllocatedNum) :=
  qx_num ← ns "qx" (AllocatedNum_alloc (Ok (core_qx c)));
  ns "inputize qx" (AllocatedNum_inputize qx_num) ;;
  qy_num ← ns "qy" (AllocatedNum_alloc (Ok (core_qy c)));
  ns "inputize qy" (AllocatedNum_inputize qy_num) ;;
  '(mso_bits, real_len, body_bits) ← alloc_sig_structure_bits (core_digest_ids c) (core_claim_digests c) (core_mso_body c);
  '(z_bits, _) ← ns "z = sha256_var(Sig_structure)"
    (sha256_var_sized mso_bits real_len Mso.MAX_SIG_STRUCTURE_BYTES SIG_STRUCTURE_NUM_BLOCKS);
  nonce_bits ← alloc_byte_bits (core_nonce c) "nonce byte-bit";
  inputize_bits nonce_bits "nonce" ;;
  inputize_bits (a_device_x body_bits) "device_x" ;;
  inputize_bits (a_device_y body_bits) "device_y" ;;
  inputize_bits (a_signed_ts body_bits) "signed_ts" ;;
  inputize_bits (a_valid_from_ts body_bits) "valid_from_ts" ;;
  inputize_bits (a_valid_until_ts body_bits) "valid_until_ts" ;;
  mapM (λ '(i, id),
    bits ← mapM (λ j,
      bit ← ns ("digest_id " +:+ pretty (i : nat) +:+ " bit " +:+ pretty (j : nat))
        (AllocatedBit_alloc (Some (Z.testbit id (Z.of_nat (31 - j)))));
      mret (Boolean_from bit)) (range 32);
    inputize_bits bits ("digest_id_" +:+ pretty i)) (imap (λ i id, (i, id)) (core_digest_ids c)) ;;
  mapM (λ '(i, digest),
    digest_bits ← alloc_byte_bits digest ("claim_digest " +:+ pretty (i : nat) +:+ " byte-bit");
    blinded ← ns ("blind(claim_digest " +:+ pretty i +:+ ", nonce)") (gadget_sha256 (digest_bits ++ nonce_bits));
    inputize_bits blinded ("blinded_claim_digest_" +:+ pretty i)) (imap (λ i d, (i, d)) (core_claim_digests c)) ;;
  z_bn ← lift (bits_be_to_bignat z_bits);
  ns "ecdsa" (verify_ecdsa_p256_with_digest qx_num qy_num (core_r c) (core_s c) (core_s_inv c) z_bn) ;;
  mret [].
End MdocCore.

Lemma bind_of_fmap {A B C} (f : A → B) (g : B → list C) l : (f <$> l) ≫= g = l ≫= λ x, g (f x).
Proof. induction l as [|x l IH]; [done|]. cbn [fmap list_fmap]. by rewrite !bind_cons, IH. Qed.

(** * The public values as numbers *)
Section Values.
Context `{ScalarField}.

(** What a step publishes: a blinded digest, whether the claim is disclosed,
    a length and a digest identifier. *)
Definition step_values (blinded : list byte) (disclosed : bool) (len digest_id : Z) : list Scalar :=
  native_bytes_to_bits blinded ++ [of_bool disclosed] ++ (of_bool <$> int_bits REAL_LEN_BITS len) ++
  (of_bool <$> int_bits 32 digest_id).

(** What the core publishes. *)
Definition core_values (qx qy : Scalar) (nonce : list byte) (body : MsoBodyWitness) (ids : list Z) (blinded : list (list byte))
    : list Scalar :=
  [qx; qy] ++ native_bytes_to_bits nonce ++
  native_bytes_to_bits (device_x body) ++ native_bytes_to_bits (device_y body) ++
  native_bytes_to_bits (signed_ts body) ++ native_bytes_to_bits (valid_from_ts body) ++
  native_bytes_to_bits (valid_until_ts body) ++
  (ids ≫= λ id, of_bool <$> int_bits 32 id) ++ (blinded ≫= native_bytes_to_bits).

Lemma int_bits_range n z : (λ i, Z.testbit z (Z.of_nat (n - 1 - i))) <$> range n = int_bits n z.
Proof.
  apply list_eq. intros i. rewrite list_lookup_fmap. unfold range. destruct (decide (i < n)) as [L|L].
  - by rewrite lookup_seq_lt, lookup_int_bits.
  - rewrite !lookup_ge_None_2; [done| |]; rewrite ?length_int_bits, ?length_seq; lia.
Qed.

Lemma native_u32 z : native_u32_to_bits z = of_bool <$> int_bits 32 z.
Proof. rewrite <-int_bits_range, <-list_fmap_compose. done. Qed.

Context `{!Sha2}.

Lemma step_public c :
  step_public_values c = step_values (blind_digest_bytes (digest_bytes c) (step_nonce c)) (step_disclose c)
    (if step_disclose c then Z.of_nat (step_real_len c) mod 256 else 0) (step_digest_id c).
Proof.
  unfold step_public_values, step_values, blinded_digest_bits, native_bytes_to_bits. cbv zeta. rewrite native_u32.
  by do 3 f_equal.
Qed.

Lemma core_public c :
  core_public_values c = core_values (core_qx c) (core_qy c) (core_nonce c) (core_mso_body c) (core_digest_ids c)
    ((λ d, blind_digest_bytes d (core_nonce c)) <$> core_claim_digests c).
Proof.
  unfold core_public_values, core_values. cbv zeta. do 7 f_equal.
  assert (∀ ids, (ids ≫= native_u32_to_bits) = (ids ≫= λ id, of_bool <$> int_bits 32 id)) as ->
    by (induction ids as [|id ids IH]; [done|]; by rewrite !bind_cons, IH, native_u32).
  by rewrite bind_of_fmap.
Qed.
End Values.

(** * What the rules force *)
Section MdocCoreRules.
Context `{BooleanLogic} `{!NumOps} `{!NonNative} `{!P256Group} `{!CompressionGadget} `{!Uint32Constants} `{!PublicNums} `{!Sha256Gadget}.
Context (σ : Assignment).
Add Field scalar_field : scalar_field_theory (morphism of_int_morph, constants [scalar_const]).
Local Abbreviation D := (denotes σ).
Local Abbreviation bytes_bits bs l := (bits_are D bs (l ≫= Prelude.byte_bits)).

(** The bits that are published. *)
Lemma wp_inputize_bits bits vs label na ni (Q : unit → nat → nat → Prop) :
  bits_are D bits vs →
  (∀ na', inputs σ ni (length vs) = of_bool <$> vs → Q tt na' (ni + length vs)) →
  wp σ (inputize_bits bits label) na ni Q.
Proof.
  intros HB HQ. unfold inputize_bits. apply wp_bind.
  enough (∀ k, wp σ (mapM (λ '(i, bit),
    let value := (λ b : bool, if b then ONE else ZERO) <$> Boolean_get_value bit in
    num ← ns (label +:+ " bit " +:+ pretty (i : nat) +:+ " as num") (AllocatedNum_alloc (ok_or AssignmentMissing value));
    enforce (label +:+ " bit " +:+ pretty i +:+ " matches boolean")
      (lc_add lc_zero (Boolean_lc bit one ONE)) (lc_add_var lc_zero one) (lc_add_var lc_zero (get_variable num)) ;;
    ns ("inputize " +:+ label +:+ " bit " +:+ pretty i) (AllocatedNum_inputize num)) (imap (λ i b, (k + i, b)) bits)) na ni
    (λ _ na' ni', Q tt na' ni')) as Hk by exact (Hk 0).
  revert na ni Q HQ. induction HB as [|b v bits vs Hb _ IH]; intros na ni Q HQ k.
  - cbn [imap mapM wp]. specialize (HQ na). cbn [length] in HQ. rewrite Nat.add_0_r in HQ. by apply HQ.
  - cbn [imap mapM]. apply wp_bind, wp_bind. eapply wp_gadget; [apply gadget_ns, gadget_AllocatedNum_alloc|]. intros num na1 _.
    apply wp_bind. eapply wp_gadget; [apply gadget_enforce|]. intros [] na2 E. cbv beta in E.
    apply wp_ns, inputize_wp. intros Hin. apply wp_bind.
    eapply wp_mono.
    { rewrite (imap_ext _ (λ i b, (S k + i, b))) by (intros; unfold compose; by rewrite Nat.add_succ_r).
      apply (IH na2 (S ni) (λ _ na' ni', inputs σ (S ni) (length vs) = of_bool <$> vs ∧ ni' = S ni + length vs)). by split. }
    intros us na3 ni3 [Hvs ->]. cbn [wp]. cbn [length] in HQ. rewrite Nat.add_succ_comm. apply HQ.
    unfold inputs in *. cbn [seq fmap list_fmap]. rewrite Hin, Hvs. f_equal.
    autorewrite with evals in E. fold_nval E. unfold denotes, lval, bit in Hb. cbn [lc] in Hb. rewrite Hb in E. by_rule E.
Qed.

(** * A step *)

(** The hash of a prefix of an item's bytes, blinded with some nonce; the
    digest identifier read at its place in the bytes; and a length of a claim
    that is disclosed. *)
Definition step_shown (vals : list Scalar) : Prop := ∃ item n nonce disclosed len id w,
  length item = MAX_CLAIM_BYTES_V1 ∧ n ≤ MAX_CLAIM_BYTES_V1 ∧ length nonce = BLIND_NONCE_BYTES ∧
  decode_cbor_uint (drop DIGEST_ID_OFFSET_BYTES item) = Some (id, w) ∧ (0 ≤ id < 2 ^ 31)%Z ∧
  vals = step_values (fips_sha256 (fips_sha256 (take n item) ++ nonce)) disclosed (if disclosed : bool then len else 0%Z) id.

Lemma masked_bits bits vs b d :
  bits_are D bits vs → D (bit b) (of_bool d) →
  gadget σ (mapM (λ '(i, x), ns ("mask real_len bit " +:+ pretty (i : nat)) (Boolean_and x b)) (imap (λ i x, (i, x)) bits))
    (λ masked, bits_are D masked ((λ v, v && d) <$> vs)).
Proof.
  intros HB Hd. eapply gadget_mono.
  { apply (gadget_mapM_Forall2 _ _ _ (λ '(i, x) m, ∀ v, vs !! i = Some v → D (bit m) (of_bool (v && d)))).
    intros [i x] [k Hk]%list_elem_of_lookup. apply list_lookup_imap_Some in Hk as (x' & Ex & [= -> ->]).
    destruct (Forall2_lookup_l _ _ _ _ _ HB Ex) as (v & Ev & Hv). eapply gadget_mono.
    - eapply gadget_ns, Boolean_and_rules; [exact Hv|exact Hd].
    - intros m Hm v' Ev'. rewrite Ev in Ev'. by injection Ev' as <-. }
  intros masked HF. apply Forall2_same_length_lookup in HF as [Hl HF]. rewrite length_imap, (Forall2_length _ _ _ HB) in Hl.
  apply Forall2_fmap_r, Forall2_same_length_lookup. split; [done|]. intros i m v Em Ev.
  destruct (Forall2_lookup_r _ _ _ _ _ HB Ev) as (x & Ex & _). apply (HF i (i, x) m); [by rewrite list_lookup_imap, Ex|done|done].
Qed.

Lemma mask_int vs d : length vs = REAL_LEN_BITS →
  (λ v, v && d) <$> vs = int_bits REAL_LEN_BITS (if d then bits_int vs else 0%Z).
Proof.
  intros Hl. destruct d.
  - rewrite int_bits_bits_int by done. rewrite <-(list_fmap_id vs) at 2. apply list_fmap_ext. intros i v _. apply andb_true_r.
  - assert (int_bits REAL_LEN_BITS 0 = replicate REAL_LEN_BITS false) as -> by done. rewrite <-Hl.
    clear Hl. induction vs as [|v vs IH]; [done|]. cbn [fmap list_fmap length replicate]. by rewrite andb_false_r, IH.
Qed.

Lemma gadget_hash_pair a abits b bbits name :
  bytes_bits abits a → bytes_bits bbits b →
  gadget σ (ns name (gadget_sha256 (abits ++ bbits))) (λ out, bytes_bits out (fips_sha256 (a ++ b))).
Proof. intros HA HB. apply gadget_ns, gadget_sha256_rules. rewrite bind_app. by apply Forall2_app. Qed.

Definition STEP_LEN : nat := 256 + 1 + REAL_LEN_BITS + 32.

(** The sizes of the arrays, and what the constructor checks. *)
Definition step_sizes (c : ClaimDigestStepCircuit) : Prop :=
  length (step_bytes c) = MAX_CLAIM_BYTES_V1 ∧ step_real_len c ≤ MAX_CLAIM_BYTES_V1 ∧
  (step_digest_id c ≤ MAX_DIGEST_ID)%Z ∧ length (step_nonce c) = BLIND_NONCE_BYTES.

Lemma wp_claim_step c na ni :
  step_sizes c → wp σ (step_precommitted c) na ni (λ _ _ _, step_shown (inputs σ ni STEP_LEN)).
Proof.
  intros (Lb & Lr & Lid & Ln). unfold step_precommitted. cbv zeta.
  apply wp_bind. eapply wp_gadget; [apply gadget_alloc_byte_bits|]. intros input na1 (item & Li & HI). rewrite Lb in Li.
  apply wp_bind. eapply wp_gadget.
  { apply gadget_ns, (gadget_sha256_var_sized σ _ item); [done|done|done|eapply Z.lt_trans; [|apply (lt_pow_p 9); lia]; by vm_compute|by apply Nat.leb_le]. }
  intros [digest act] na2 (n & Hn & HD & _).
  apply wp_bind. eapply wp_gadget; [apply gadget_alloc_byte_bits|]. intros nonce_bits na3 (nonce & Lnn & HN). rewrite Ln in Lnn.
  apply wp_bind. eapply wp_gadget; [by eapply gadget_hash_pair|]. intros blinded na4 HB. cbv beta in HB.
  apply wp_bind. eapply wp_inputize_bits; [exact HB|]. intros na5 In1. rewrite length_bind_byte_bits, length_fips_sha256 in *.
  apply wp_bind. eapply wp_gadget; [apply gadget_ns, gadget_bit|]. intros disclose na6 (d & Hd). cbv beta in Hd.
  apply wp_bind. apply (wp_inputize_bits _ [d]); [by constructor|]. intros na7 In2. cbn [length] in *.
  apply wp_bind. eapply wp_gadget; [apply gadget_bit_list; intros i; apply gadget_new_bit|]. intros lens na8 (lv & HL & Ll).
  rewrite length_reverse in Ll. change (length (range REAL_LEN_BITS)) with REAL_LEN_BITS in Ll.
  apply wp_bind. eapply wp_gadget; [by apply (masked_bits _ _ _ _ HL Hd)|]. intros masked na9 HM. cbv beta in HM.
  rewrite (mask_int _ _ Ll) in HM.
  apply wp_bind. eapply wp_inputize_bits; [exact HM|]. intros na10 In3. rewrite length_int_bits in *.
  apply wp_bind. eapply wp_gadget; [apply gadget_ns, (gadget_extract_digest_id σ _ item); [done|rewrite Li; by vm_compute; lia|done]|].
  intros ext na11 (id & w & Ed & Hid & HV & _).
  apply wp_bind. eapply wp_inputize_bits; [exact HV|]. intros na12 In4. rewrite length_int_bits in *. cbn [wp].
  exists item, n, nonce, d, (bits_int lv), id, w. split_and!; try done; try lia.
  change STEP_LEN with (8 * 32 + (1 + (REAL_LEN_BITS + 32)))%nat. rewrite !inputs_app, In1. rewrite <-!Nat.add_assoc in *.
  rewrite In2. unfold step_values, native_bytes_to_bits. do 2 f_equal.
  by rewrite In3, In4.
Qed.

(** * The core *)

(** The issuer signed a prefix of a buffer with the fixed bytes of the
    structure, of any identifiers and tails. *)
Definition structure_signed (issuer : Affine) (body : MsoBodyWitness) (ids tails : list (list byte)) : Prop :=
  ∃ payload_len mso_body_len n, length payload_len = 2 ∧ length mso_body_len = 2 ∧ n ≤ Mso.MAX_SIG_STRUCTURE_BYTES ∧
    signed_by issuer (be_int (fips_sha256 (take n
      (resize Mso.MAX_SIG_STRUCTURE_BYTES x00 (structure_of payload_len mso_body_len body ids tails))))).

(** What the core publishes: the issuer's key and the body of a structure that
    the issuer signed; a nonce, four identifiers and four digests blinded with
    the nonce, which no rule compares with those of the structure. *)
Definition core_shown (vals : list Scalar) : Prop := ∃ issuer nonce body ids tails shown_ids digests,
  body_sizes body ∧ length nonce = BLIND_NONCE_BYTES ∧
  length ids = NUM_ENTRIES ∧ Forall (λ id : list byte, length id ∈ DIGEST_ID_WIDTHS) ids ∧
  length tails = NUM_ENTRIES ∧ Forall (λ t : list byte, length t = ENTRY_TAIL_LEN) tails ∧
  structure_signed issuer body ids tails ∧
  length shown_ids = MAX_CLAIMS_V1 ∧ Forall (λ id, 0 ≤ id < 2 ^ 32)%Z shown_ids ∧
  length digests = MAX_CLAIMS_V1 ∧ Forall (λ d : list byte, length d = 32) digests ∧
  vals = core_values (ax issuer) (ay issuer) nonce body shown_ids ((λ d, fips_sha256 (d ++ nonce)) <$> digests).

(** Groups of bits of one length, published one after the other. *)
Lemma wp_inputize_groups {A B} (f : nat * A → Synth unit) (ok : A → Prop) (g : B → list Scalar) (good : B → Prop) n l na ni
    (Q : list unit → nat → nat → Prop) :
  (∀ i x na ni (Q : unit → nat → nat → Prop), ok x →
    (∀ y na', good y → inputs σ ni n = g y → Q tt na' (ni + n)) → wp σ (f (i, x)) na ni Q) →
  Forall ok l →
  (∀ us na' ys, length ys = length l → Forall good ys → inputs σ ni (n * length l) = (ys ≫= g) → Q us na' (ni + n * length l)) →
  wp σ (mapM f (imap (λ i x, (i, x)) l)) na ni Q.
Proof.
  intros Hf HF HQ. enough (∀ k, wp σ (mapM f (imap (λ i x, (k + i, x)) l)) na ni Q) as Hk by exact (Hk 0).
  revert na ni Q HQ. induction HF as [|x l Hx _ IH]; intros na ni Q HQ k.
  - cbn [imap mapM wp]. cbn [length] in HQ. rewrite Nat.mul_0_r, Nat.add_0_r in HQ. by apply (HQ [] na []).
  - cbn [imap mapM]. apply wp_bind, Hf; [done|]. intros y na1 Hy Hin. apply wp_bind.
    rewrite (imap_ext _ (λ i x, (S k + i, x))) by (intros; unfold compose; by rewrite Nat.add_succ_r).
    apply IH. intros us na2 ys Lys Hys Hins. cbn [wp]. cbn [length] in HQ.
    replace (ni + n + n * length l) with (ni + n * S (length l)) by lia.
    apply (HQ (tt :: us) na2 (y :: ys)); [cbn; by rewrite Lys|by constructor|].
    replace (n * S (length l)) with (n + n * length l) by lia. by rewrite inputs_app, Hin, Hins.
Qed.

Lemma bits_u32 vs : length vs = 32 → ∃ id, (0 ≤ id < 2 ^ 32)%Z ∧ vs = int_bits 32 id.
Proof.
  intros Hl. exists (bits_int vs). split; [|by rewrite int_bits_bits_int].
  pose proof (bits_int_range vs) as Hr. by rewrite Hl in Hr.
Qed.

Definition CORE_LEN : nat := 2 + BLIND_NONCE_BYTES * 8 + 256 + 256 + 3 * (TIMESTAMP_LEN * 8) + MAX_CLAIMS_V1 * 32 + MAX_CLAIMS_V1 * 256.

Definition core_sizes (c : MdocCoreCircuit) : Prop :=
  Forall (λ id, 0 ≤ id ≤ MAX_DIGEST_ID)%Z (core_digest_ids c) ∧ length (core_digest_ids c) = MAX_CLAIMS_V1 ∧
  Forall (λ d : list byte, length d = 32) (core_claim_digests c) ∧ length (core_claim_digests c) = MAX_CLAIMS_V1 ∧
  body_sizes (core_mso_body c) ∧ length (core_nonce c) = BLIND_NONCE_BYTES.

Lemma wp_core c na ni :
  core_sizes c → wp σ (core_precommitted c) na ni (λ _ _ _, core_shown (inputs σ ni CORE_LEN)).
Proof.
  intros (HI & Li & HD & Ld & HB & Ln). unfold core_precommitted.
  apply wp_bind. eapply wp_gadget; [apply gadget_ns, gadget_AllocatedNum_alloc|]. intros qx na1 _.
  apply wp_bind, wp_ns, inputize_wp. intros Inx.
  apply wp_bind. eapply wp_gadget; [apply gadget_ns, gadget_AllocatedNum_alloc|]. intros qy na2 _.
  apply wp_bind, wp_ns, inputize_wp. intros Iny.
  apply wp_bind. eapply wp_gadget; [by apply gadget_sig_structure|].
  intros [[buf real_len] groups] na3 (Lr & pl & ml & body & ids & tails & Lpl & Lml & Hbody & Lids & HW & Lt & HT & HG & HBuf).
  pose proof Hbody as (L1 & L2 & L3 & L4 & L5). pose proof HG as (G1 & G2 & G3 & G4 & G5).
  set (m := resize _ _ _) in HBuf. assert (length m = Mso.MAX_SIG_STRUCTURE_BYTES) as Lm by apply length_resize.
  apply wp_bind. eapply wp_gadget.
  { apply gadget_ns, (gadget_sha256_var_sized σ _ m); [done|done|done|eapply Z.lt_trans; [|apply (lt_pow_p 9); lia]; by vm_compute|by apply Nat.leb_le]. }
  intros [z_bits act] na4 (n & Hn & HZ & _).
  apply wp_bind. eapply wp_gadget; [apply gadget_alloc_byte_bits|]. intros nonce_bits na5 (nonce & Lnn & HN). rewrite Ln in Lnn.
  apply wp_bind. eapply wp_inputize_bits; [exact HN|]. intros na6 In1.
  apply wp_bind. eapply wp_inputize_bits; [exact G1|]. intros na7 In2.
  apply wp_bind. eapply wp_inputize_bits; [exact G2|]. intros na8 In3.
  apply wp_bind. eapply wp_inputize_bits; [exact G3|]. intros na9 In4.
  apply wp_bind. eapply wp_inputize_bits; [exact G4|]. intros na10 In5.
  apply wp_bind. eapply wp_inputize_bits; [exact G5|]. intros na11 In6.
  rewrite !length_bind_byte_bits in *. rewrite ?Lnn, ?L1, ?L2, ?L3, ?L4, ?L5 in *.
  apply wp_bind, (wp_inputize_groups _ (λ _, True) (λ id, of_bool <$> int_bits 32 id) (λ id, 0 ≤ id < 2 ^ 32)%Z 32).
  { intros i id na' ni' Q _ HQ. apply wp_bind. eapply wp_gadget; [apply gadget_bit_list; intros j; apply gadget_new_bit|].
    intros bits nb (vs & HV & Lv). change (length (range 32)) with 32 in Lv. destruct (bits_u32 vs Lv) as (v & Hv & ->).
    eapply wp_inputize_bits; [exact HV|]. intros nc Hin. rewrite length_int_bits in *. by apply (HQ v). }
  { by apply list.Forall_forall. }
  intros us na12 shown_ids Lsi Hsi In7. rewrite Li in *.
  apply wp_bind, (wp_inputize_groups _ (λ d : list byte, length d = 32) (λ d, native_bytes_to_bits (fips_sha256 (d ++ nonce)))
    (λ d, length d = 32) 256); [| exact HD |].
  { intros i d na' ni' Q Hd HQ. apply wp_bind. eapply wp_gadget; [apply gadget_alloc_byte_bits|]. intros bits nb (v & Lv & HV).
    apply wp_bind. eapply wp_gadget; [by eapply gadget_hash_pair|]. intros blinded nc HBl. cbv beta in HBl.
    eapply wp_inputize_bits; [exact HBl|]. intros nd Hin. rewrite length_bind_byte_bits, length_fips_sha256 in *.
    by apply (HQ v); [rewrite Lv|]. }
  intros us' na13 digests Lds Hds In8. rewrite Ld in *.
  destruct (bits_bignat σ _ _ HZ) as (z_bn & Ez & Hz); [rewrite length_bind_byte_bits, length_fips_sha256; done|].
  rewrite bits_int_bind_byte_bits in Hz.
  apply wp_bind. eapply wp_gadget; [by apply gadget_lift|]. intros ? na14 ->.
  apply wp_bind. eapply wp_gadget; [by apply gadget_ns, gadget_verify_with_digest|]. intros [] na15 Hsig. cbv beta zeta in Hsig. cbn [wp].
  exists (key_of σ qx qy), nonce, body, ids, tails, shown_ids, digests. split_and!; try done.
  - exists pl, ml, n. by split_and!.
  - replace (S (S ni)) with (ni + 1 + 1) in * by lia.
    change CORE_LEN with (1 + (1 + (8 * BLIND_NONCE_BYTES + (8 * 32 + (8 * 32 + (8 * TIMESTAMP_LEN + (8 * TIMESTAMP_LEN +
      (8 * TIMESTAMP_LEN + (32 * MAX_CLAIMS_V1 + 256 * MAX_CLAIMS_V1)))))))))%nat.
    rewrite !inputs_app, In1, In2, In3, In4, In5, In6, In7, In8. unfold core_values, native_bytes_to_bits, key_of. cbn [ax ay].
    rewrite <-Inx, <-Iny. unfold inputs at 1 2. rewrite Nat.add_1_r. cbn [seq fmap list_fmap app]. by rewrite bind_of_fmap.
Qed.
End MdocCoreRules.
