(* ===== verification/Binding.v ===== *)
(** [lib.rs]: the claims of a presentation padded to the size of the circuits,
    and the verifier's checks of the public values of the steps and of the
    core, which bind one to the other and to the bytes that are disclosed. *)
From Stdlib Require Import ZArith Lia Strings.String Strings.Byte.
From Stdlib Require Import Field_tac Ring.
From stdpp Require Import base list numbers option strings pretty.
From S2P Require Import Prelude Bytes Field ConstraintSystem Shape CheckSystem Bellpepper Lc Bits Gadgets Select Limbs BigNat BigNatRules Curve P256 Ecc Ecdsa CborUint OneHotCursor DigestId Values Sha256 Table Window Circuit Step Sha256Var Packing Sha256Mc Hasher AgeFolded OffsetBind AgeAcceptance AgeDates AgeSound AgeStatement MsoSplice Mso MdocCore.

Record ClaimWitness := mkClaimWitness {
  issuer_signed_item_bytes : list byte;
  cw_disclose : bool;
  cw_digest_id : Z;
}.

Record PaddedClaim := mkPaddedClaim {
  pc_bytes : list byte;
  pc_real_len : nat;
  pc_disclose : bool;
  pc_digest_id : Z;
}.

Record MdocEcdsaWitness `{ScalarField} := mkMdocEcdsaWitness {
  ew_qx : Scalar;
  ew_qy : Scalar;
  ew_r : Z;
  ew_s : Z;
  ew_s_inv : Z;
}.

Section Binding.
Context `{ScalarField} `{!Sha2} {VegaError RngError : Type}.
Local Abbreviation Err_ := (VegaMdocError VegaError RngError).

(** * What the prover pads *)
Definition claim_digest_bytes (bytes : list byte) : list byte := sha256 bytes.

Definition fixed_width_claim_bytes (bytes : list byte) : outcome Err_ (list byte * nat) :=
  if (MAX_CLAIM_BYTES_V1 <? length bytes)%nat then Err (ClaimTooLong MAX_CLAIM_BYTES_V1 (length bytes)) else
  Ok (resize MAX_CLAIM_BYTES_V1 x00 bytes, length bytes).

Definition padding_claim : PaddedClaim :=
  {| pc_bytes := replicate MAX_CLAIM_BYTES_V1 x00; pc_real_len := 0; pc_disclose := false; pc_digest_id := 0 |}.

Definition pad_claims (claims : list ClaimWitness) : outcome Err_ (list PaddedClaim) :=
  if (MAX_CLAIMS_V1 <? length claims)%nat then Err (TooManyClaims MAX_CLAIMS_V1 (length claims)) else
  padded ← mapM (λ c,
    '(bytes, real_len) ← fixed_width_claim_bytes (issuer_signed_item_bytes c);
    Ok {| pc_bytes := bytes; pc_real_len := real_len; pc_disclose := cw_disclose c; pc_digest_id := cw_digest_id c |}) claims;
  Ok (padded ++ replicate (MAX_CLAIMS_V1 - length padded) padding_claim).

Definition core_digest_ids_of (claims : list ClaimWitness) : outcome Err_ (list Z) :=
  padded ← pad_claims claims; Ok (pc_digest_id <$> (padded : list PaddedClaim)).

Definition core_claim_digests_of (claims : list ClaimWitness) : outcome Err_ (list (list byte)) :=
  padded ← pad_claims claims; Ok ((λ c, claim_digest_bytes (take (pc_real_len c) (pc_bytes c))) <$> (padded : list PaddedClaim)).

(** The circuits that [prep_prove] and [prove] give to the library. *)
Definition presentation_circuits (claims : list ClaimWitness) (ecdsa : MdocEcdsaWitness) (mso_body : MsoBodyWitness)
    (nonce : list byte) : outcome Err_ (list ClaimDigestStepCircuit * MdocCoreCircuit) :=
  padded ← pad_claims claims;
  step_circuits ← mapM (λ c, infallible (ClaimDigestStepCircuit_new (pc_bytes c) (pc_real_len c) (pc_disclose c) (pc_digest_id c) nonce)) padded;
  digest_ids ← core_digest_ids_of claims;
  claim_digests ← core_claim_digests_of claims;
  Ok (step_circuits,
    {| core_qx := ew_qx ecdsa; core_qy := ew_qy ecdsa; core_r := ew_r ecdsa; core_s := ew_s ecdsa; core_s_inv := ew_s_inv ecdsa;
       core_digest_ids := digest_ids; core_claim_digests := claim_digests; core_mso_body := mso_body; core_nonce := nonce |}).

(** * What the verifier checks *)
Definition all_boolean (values : list Scalar) : bool :=
  forallb (λ v, bool_decide (v = ONE) || bool_decide (v = ZERO)) values.

Definition bits_to_bytes (bits : list Scalar) : list byte :=
  (λ byte_bits, z2b (foldl (λ byte '(i, bit),
    if bool_decide (bit = ONE) then Z.lor byte (Z.shiftl 1 (7 - Z.of_nat i)) else byte) 0%Z (imap (λ i b, (i, b)) byte_bits)))
  <$> chunks 8 bits.

Record DisclosedClaim := mkDisclosedClaim {
  disclosed : bool;
  dc_digest : list byte;
  dc_real_len : nat;
  plaintext : list byte;
  dc_digest_id : Z;
}.

Record VerifiedPresentation := mkVerifiedPresentation {
  vp_qx : Scalar;
  vp_qy : Scalar;
  vp_claims : list DisclosedClaim;
  vp_device_x : list byte;
  vp_device_y : list byte;
  vp_signed_ts : list byte;
  vp_valid_from_ts : list byte;
  vp_valid_until_ts : list byte;
}.

Definition unsatisfiable : Err_ := CircuitError Unsatisfiable.
(** [try_into().unwrap()] to an array. *)
Definition to_array (n : nat) (l : list byte) : outcome Err_ (list byte) :=
  if (length l =? n)%nat then Ok l else Panic "unwrap".

(** One step's values: its blinded digest, the flag, the length and the
    identifier, against what the core published for the same claim. *)
Definition check_claim (nonce : list byte) (core_digest_ids : list Z) (core_blinded_digests : list (list byte))
    (disclosed_bytes : list (option (list byte))) (claims : list DisclosedClaim) (v : list Scalar)
    : outcome Err_ (list DisclosedClaim) :=
  if negb (length v =? STEP_LEN)%nat then Err unsatisfiable else
  if negb (all_boolean v) then Err unsatisfiable else
  let step_blinded_digest := bits_to_bytes (slice 0 256 v) in
  disclosed_scalar ← at_index v 256;
  let real_len_bits := slice 257 (257 + REAL_LEN_BITS) v in
  let step_digest_id_bits := slice (257 + REAL_LEN_BITS) STEP_LEN v in
  if negb (length step_blinded_digest =? 32)%nat then Err unsatisfiable else
  let disclosed := bool_decide (disclosed_scalar = ONE) in
  real_len_byte ← at_index (bits_to_bytes real_len_bits) 0;
  let real_len := Z.to_nat (b2z real_len_byte) in
  if (MAX_CLAIM_BYTES_V1 <? real_len)%nat then Err unsatisfiable else
  let step_digest_id_bytes := bits_to_bytes step_digest_id_bits in
  if negb (length step_digest_id_bytes =? 4)%nat then Err unsatisfiable else
  let step_digest_id := be_int step_digest_id_bytes in
  supplied ← at_index disclosed_bytes (length claims);
  '(digest, plaintext) ←
    match disclosed, supplied with
    | true, Some bytes =>
        let real_digest := claim_digest_bytes bytes in
        if bool_decide (blind_digest_bytes real_digest nonce ≠ step_blinded_digest) then Err unsatisfiable else
        if negb (length bytes =? real_len)%nat then Err unsatisfiable else
        Ok (real_digest, bytes)
    | false, None => Ok (replicate 32 x00, [])
    | _, _ => Err unsatisfiable
    end;
  core_blinded ← at_index core_blinded_digests (length claims);
  if bool_decide (step_blinded_digest ≠ core_blinded) then Err unsatisfiable else
  core_id ← at_index core_digest_ids (length claims);
  if bool_decide (step_digest_id ≠ core_id) then Err unsatisfiable else
  Ok (claims ++ [{| disclosed := disclosed; dc_digest := digest; dc_real_len := real_len; plaintext := plaintext;
    dc_digest_id := step_digest_id |}]).

(** [take], which moves a cursor over the core's values, as the slice between
    two places. *)
Definition verify_and_check_binding (step_public_values : list (list Scalar)) (core_public_values : list Scalar)
    (disclosed_bytes : list (option (list byte))) : outcome Err_ VerifiedPresentation :=
  if negb (length disclosed_bytes =? MAX_CLAIMS_V1)%nat then Err unsatisfiable else
  if negb (length core_public_values =? CORE_LEN)%nat then Err unsatisfiable else
  if negb (all_boolean (drop 2 core_public_values)) then Err unsatisfiable else
  qx ← at_index core_public_values 0;
  qy ← at_index core_public_values 1;
  let TS_BITS := (Mso.TIMESTAMP_LEN * 8)%nat in
  let c0 := 2%nat in let c1 := (c0 + BLIND_NONCE_BYTES * 8)%nat in
  nonce ← to_array BLIND_NONCE_BYTES (bits_to_bytes (slice c0 c1 core_public_values));
  let c2 := (c1 + 256)%nat in let c3 := (c2 + 256)%nat in
  device_x ← to_array 32 (bits_to_bytes (slice c1 c2 core_public_values));
  device_y ← to_array 32 (bits_to_bytes (slice c2 c3 core_public_values));
  let c4 := (c3 + TS_BITS)%nat in let c5 := (c4 + TS_BITS)%nat in let c6 := (c5 + TS_BITS)%nat in
  signed_ts ← to_array Mso.TIMESTAMP_LEN (bits_to_bytes (slice c3 c4 core_public_values));
  valid_from_ts ← to_array Mso.TIMESTAMP_LEN (bits_to_bytes (slice c4 c5 core_public_values));
  valid_until_ts ← to_array Mso.TIMESTAMP_LEN (bits_to_bytes (slice c5 c6 core_public_values));
  digest_ids ← mapM (λ i,
    bytes ← to_array 4 (bits_to_bytes (slice (c6 + i * 32) (c6 + (i + 1) * 32) core_public_values));
    Ok (be_int bytes)) (range MAX_CLAIMS_V1);
  let c7 := (c6 + MAX_CLAIMS_V1 * 32)%nat in
  core_blinded_digests ← mapM (λ i,
    to_array 32 (bits_to_bytes (slice (c7 + i * 256) (c7 + (i + 1) * 256) core_public_values))) (range MAX_CLAIMS_V1);
  if negb (length step_public_values =? MAX_CLAIMS_V1)%nat then Err unsatisfiable else
  claims ← foldM (check_claim nonce digest_ids core_blinded_digests disclosed_bytes) [] step_public_values;
  Ok {| vp_qx := qx; vp_qy := qy; vp_claims := claims; vp_device_x := device_x; vp_device_y := device_y;
    vp_signed_ts := signed_ts; vp_valid_from_ts := valid_from_ts; vp_valid_until_ts := valid_until_ts |}.
End Binding.

(** * Bits of bytes as numbers *)
Section Bits.
Context `{ScalarField}.

Lemma of_bool_is_one v : bool_decide (of_bool v = ONE) = v.
Proof.
  destruct v; cbn [of_bool]; [by rewrite bool_decide_eq_true_2|].
  apply bool_decide_eq_false_2. intros E. by apply one_nonzero.
Qed.

Lemma all_boolean_iff v : all_boolean v = true ↔ ∃ vs, v = of_bool <$> vs.
Proof.
  induction v as [|x v IH]; [split; [by exists []|done]|]. cbn [all_boolean forallb]. fold (all_boolean v).
  rewrite andb_true_iff, IH, orb_true_iff, !bool_decide_eq_true. split.
  - intros [[->| ->] (vs & ->)]; [by exists (true :: vs)|by exists (false :: vs)].
  - intros ([|b vs] & E); [done|]. injection E as -> ->. split; [|by exists vs]. destruct b; auto.
Qed.

(** The bytes of bits are read back. *)
Lemma read_byte b :
  foldl (λ byte '(i, bit), if bool_decide (bit = ONE) then Z.lor byte (Z.shiftl 1 (7 - Z.of_nat i)) else byte) 0%Z
    (imap (λ i b, (i, b)) (of_bool <$> Prelude.byte_bits b)) = b2z b.
Proof.
  assert (∀ vs z k, foldl (λ byte '(i, bit), if bool_decide (bit = ONE) then Z.lor byte (Z.shiftl 1 (7 - Z.of_nat i)) else byte) z
      (imap (λ i b, (k + i, b)) (of_bool <$> vs))
    = foldl (λ byte '(i, v), if v : bool then Z.lor byte (Z.shiftl 1 (7 - Z.of_nat i)) else byte) z (imap (λ i b, (k + i, b)) vs)) as E.
  { induction vs as [|v vs IH]; intros z k; [done|]. cbn [fmap list_fmap imap foldl]. rewrite of_bool_is_one.
    rewrite (imap_ext _ (λ i (b : Scalar), (S k + i, b))) by (intros; unfold compose; by rewrite Nat.add_succ_r).
    rewrite (imap_ext _ (λ i (b : bool), (S k + i, b))) by (intros; unfold compose; by rewrite Nat.add_succ_r). apply IH. }
  specialize (E (Prelude.byte_bits b) 0%Z 0). cbn [Nat.add] in E. rewrite E. by destruct b.
Qed.

Lemma bits_to_bytes_bytes l : bits_to_bytes (native_bytes_to_bits l) = l.
Proof.
  unfold bits_to_bytes, native_bytes_to_bits. induction l as [|b l IH]; [done|].
  rewrite bind_cons, fmap_app, chunks_app by (rewrite ?length_fmap, ?length_byte_bits; lia).
  cbn [fmap list_fmap]. rewrite read_byte, z2b_b2z. f_equal. exact IH.
Qed.

Lemma length_native l : length (native_bytes_to_bits l) = 8 * length l.
Proof. unfold native_bytes_to_bits. by rewrite length_fmap, length_bind_byte_bits. Qed.

Lemma native_app l l' : native_bytes_to_bits (l ++ l') = native_bytes_to_bits l ++ native_bytes_to_bits l'.
Proof. unfold native_bytes_to_bits. by rewrite bind_app, fmap_app. Qed.

Lemma native_slice a b l : slice (8 * a) (8 * b) (native_bytes_to_bits l) = native_bytes_to_bits (slice a b l).
Proof. unfold native_bytes_to_bits. rewrite <-slice_bind_byte_bits. unfold slice. by rewrite fmap_take, fmap_drop. Qed.

(** Boolean values of whole bytes. *)
Lemma boolean_bytes v n : all_boolean v = true → length v = 8 * n → ∃ l, length l = n ∧ v = native_bytes_to_bits l.
Proof.
  intros (vs & ->)%all_boolean_iff Hl. rewrite length_fmap in Hl. destruct (bits_as_bytes n vs Hl) as (l & Ll & ->). by exists l.
Qed.

Lemma native_boolean l : all_boolean (native_bytes_to_bits l) = true.
Proof. apply all_boolean_iff. by eexists. Qed.

Lemma all_boolean_app v w : all_boolean (v ++ w) = all_boolean v && all_boolean w.
Proof. apply forallb_app. Qed.

Lemma int_bits_bytes n z : of_bool <$> int_bits (8 * n) z = native_bytes_to_bits (be_bytes n z).
Proof. unfold native_bytes_to_bits. by rewrite bind_byte_bits_be_bytes. Qed.
End Bits.

(** * Slices of equal parts *)
Lemma slice_app_ge {A} (l l' : list A) a b : slice (length l + a) (length l + b) (l ++ l') = slice a b l'.
Proof. unfold slice. rewrite drop_app_ge by lia. f_equal; [lia|f_equal; lia]. Qed.

Lemma slice_skip {A} (l l' : list A) a b : length l ≤ a → slice a b (l ++ l') = slice (a - length l) (b - length l) l'.
Proof. intros. unfold slice. rewrite drop_app_ge by lia. f_equal. lia. Qed.

Lemma slice_first {A} (l l' : list A) a b : a = 0 → b = length l → slice a b (l ++ l') = l.
Proof. intros -> ->. unfold slice. by rewrite drop_0, Nat.sub_0_r, take_app_length. Qed.

Lemma slice_within {A} (l l' : list A) a b : b ≤ length l → slice a b (l ++ l') = slice a b l.
Proof.
  intros Hb. unfold slice. destruct (decide (a ≤ length l)) as [L|L].
  - rewrite drop_app_le by done. apply take_app_le. rewrite length_drop. lia.
  - by replace (b - a) with 0 by lia.
Qed.

Lemma slice_join {A} (l : list A) a b c : a ≤ b → b ≤ c → slice a b l ++ slice b c l = slice a c l.
Proof.
  intros Hab Hbc. unfold slice. replace b with (a + (b - a)) at 3 by lia. rewrite <-drop_drop.
  replace (c - a) with ((b - a) + (c - b)) by lia. by rewrite <-take_take_drop.
Qed.

Lemma slice_concat {A} (ls : list (list A)) n i l :
  Forall (λ l, length l = n) ls → ls !! i = Some l → slice (n * i) (n * i + n) (concat ls) = l.
Proof.
  intros HF. revert i. induction HF as [|x ls Hx _ IH]; intros [|i] E; cbn in E; try done.
  - injection E as ->. cbn [concat]. rewrite Nat.mul_0_r, <-Hx. unfold slice. by rewrite drop_0, Nat.add_0_l, Nat.sub_0_r, take_app_length.
  - cbn [concat]. replace (n * S i) with (length x + n * i) by lia. replace (length x + n * i + n) with (length x + (n * i + n)) by lia.
    rewrite slice_app_ge. by apply IH.
Qed.

Lemma slice_concat_at {A} (ls : list (list A)) n i l a b :
  Forall (λ l, length l = n) ls → ls !! i = Some l → a = n * i → b = n * i + n → slice a b (concat ls) = l.
Proof. intros HF E -> ->. by apply slice_concat. Qed.

Lemma concat_slices {A} (l : list A) a n k :
  concat ((λ i, slice (a + n * i) (a + n * i + n) l) <$> range k) = slice a (a + n * k) l.
Proof.
  unfold range. induction k as [|k IH].
  - rewrite Nat.mul_0_r, Nat.add_0_r. unfold slice. by rewrite Nat.sub_diag.
  - rewrite seq_S, fmap_app, concat_app, IH. cbn [fmap list_fmap concat Nat.add]. rewrite app_nil_r, slice_join by lia. f_equal. lia.
Qed.

(** * What the checks say *)
Section Checks.
Context `{ScalarField} `{!Sha2} {VegaError RngError : Type}.
Local Abbreviation Result A := (outcome (VegaMdocError VegaError RngError) A).

(** A claim with what its step published of it: the blinded digest of the
    bytes when it is disclosed, and the length and the identifier. *)
Definition claim_ok (nonce blinded : list byte) (c : DisclosedClaim) : Prop :=
  length blinded = 32 ∧ dc_real_len c ≤ MAX_CLAIM_BYTES_V1 ∧ (0 ≤ dc_digest_id c < 2 ^ 32)%Z ∧
  if disclosed c
  then length (plaintext c) = dc_real_len c ∧ dc_digest c = sha256 (plaintext c) ∧ blind_digest_bytes (dc_digest c) nonce = blinded
  else dc_digest c = replicate 32 x00 ∧ plaintext c = [].
Definition claim_values (c : DisclosedClaim) (blinded : list byte) : list Scalar :=
  step_values blinded (disclosed c) (Z.of_nat (dc_real_len c)) (dc_digest_id c).
Definition claim_supplied (c : DisclosedClaim) : option (list byte) :=
  if disclosed c then Some (plaintext c) else None.

(** The values of a step, in bytes. *)
Lemma step_values_bytes blinded d len id :
  step_values blinded d len id = native_bytes_to_bits blinded ++ [of_bool d] ++
    native_bytes_to_bits (be_bytes 1 len) ++ native_bytes_to_bits (be_bytes 4 id).
Proof. unfold step_values. by rewrite (int_bits_bytes 1), (int_bits_bytes 4). Qed.

Lemma step_values_parts blinded d len id :
  length blinded = 32 → (0 ≤ len < 256)%Z → (0 ≤ id < 2 ^ 32)%Z →
  let v := step_values blinded d len id in
  length v = STEP_LEN ∧ all_boolean v = true ∧ bits_to_bytes (slice 0 256 v) = blinded ∧ v !! 256 = Some (of_bool d) ∧
  bits_to_bytes (slice 257 (257 + REAL_LEN_BITS) v) = [z2b len] ∧
  bits_to_bytes (slice (257 + REAL_LEN_BITS) STEP_LEN v) = be_bytes 4 id ∧ be_int (be_bytes 4 id) = id.
Proof.
  intros Hb Hlen Hid v. unfold v. rewrite step_values_bytes.
  assert (length (native_bytes_to_bits blinded) = 256) as L1 by (by rewrite length_native, Hb).
  assert (length (native_bytes_to_bits (be_bytes 1 len)) = 8) as L2 by (by rewrite length_native, length_be_bytes).
  assert (length (native_bytes_to_bits (be_bytes 4 id)) = 32) as L3 by (by rewrite length_native, length_be_bytes).
  split_and!.
  - by rewrite !length_app, L1, L2, L3.
  - rewrite !all_boolean_app, !native_boolean, andb_true_r. apply all_boolean_iff. by exists [d].
  - unfold slice. rewrite drop_0, take_app_length' by done. apply bits_to_bytes_bytes.
  - rewrite lookup_app_r, L1 by lia. done.
  - rewrite app_assoc. rewrite (slice_middle _ _ _ 257 8); [|by rewrite length_app, L1|done]. rewrite bits_to_bytes_bytes.
    cbn [be_bytes]. by rewrite Z.div_1_r.
  - rewrite !app_assoc, <-(app_nil_r (_ ++ _)), <-app_assoc, (slice_middle _ _ [] 265 32); [|by rewrite !length_app, L1, L2|done].
    apply bits_to_bytes_bytes.
  - rewrite be_int_be_bytes. apply Z.mod_small. lia.
Qed.

(** Values of the right number that are bits are those of some step. *)
Lemma step_values_parse v :
  length v = STEP_LEN → all_boolean v = true →
  ∃ blinded d len id, length blinded = 32 ∧ (0 ≤ len < 256)%Z ∧ (0 ≤ id < 2 ^ 32)%Z ∧ v = step_values blinded d len id.
Proof.
  intros Hl Hb. rewrite <-(take_drop 256 v), <-(take_drop 1 (drop 256 v)), <-(take_drop 8 (drop 1 (drop 256 v))) in Hb.
  rewrite !all_boolean_app, !andb_true_iff in Hb. destruct Hb as (B1 & B2 & B3 & B4). change STEP_LEN with 297 in Hl.
  destruct (boolean_bytes _ 32 B1) as (b & Lb & E1); [rewrite length_take; lia|].
  apply all_boolean_iff in B2 as ([|d [|]] & E2); try (apply (f_equal length) in E2; rewrite length_take, length_drop, Hl in E2; done).
  destruct (boolean_bytes _ 1 B3) as (l & Ll & E3); [rewrite length_take, !length_drop; lia|].
  destruct (boolean_bytes _ 4 B4) as (i & Li & E4); [rewrite !length_drop; lia|].
  exists b, d, (be_int l), (be_int i). pose proof (be_int_range l) as R1. pose proof (be_int_range i) as R2.
  rewrite Ll in R1. rewrite Li in R2. split_and!; try done; try lia.
  rewrite step_values_bytes, (be_bytes_be_int l), (be_bytes_be_int i), <-E1, <-E3, <-E4 by done.
  change [of_bool d] with (of_bool <$> [d]). rewrite <-E2. by rewrite !take_drop.
Qed.

Lemma index_is_ok {E A} (l : list A) i x : (at_index l i : outcome E A) = Ok x ↔ l !! i = Some x.
Proof. unfold at_index. destruct (l !! i); [|done]. split; by intros [= ->]. Qed.

Lemma at_index_eq {E A} (l : list A) i x : l !! i = Some x → (at_index l i : outcome E A) = Ok x.
Proof. by intros ?%(index_is_ok (E := E)). Qed.

Lemma check_claim_iff nonce ids blindeds supplied claims v claims' :
  (check_claim nonce ids blindeds supplied claims v : Result _) = Ok claims' ↔
  ∃ c b, claims' = claims ++ [c] ∧ claim_ok nonce b c ∧ v = claim_values c b ∧
    supplied !! length claims = Some (claim_supplied c) ∧ blindeds !! length claims = Some b ∧
    ids !! length claims = Some (dc_digest_id c).
Proof.
  split.
  - unfold check_claim. destruct (Nat.eqb_spec (length v) STEP_LEN) as [Hl|]; [|done].
    destruct (all_boolean v) eqn:Hb; [|done]. cbn [negb].
    destruct (step_values_parse v Hl Hb) as (b & d & len & id & Lb & Hlen & Hid & ->).
    destruct (step_values_parts b d len id Lb Hlen Hid) as (_ & _ & -> & Ed & -> & -> & Ei). rewrite (at_index_eq _ _ _ Ed).
    cbn [mbind outcome_bind]. rewrite Lb. cbn [Nat.eqb negb at_index lookup list_lookup mbind outcome_bind].
    rewrite z2b_small by done. destruct (Nat.ltb_spec MAX_CLAIM_BYTES_V1 (Z.to_nat len)) as [|Hmax]; [done|].
    rewrite length_be_bytes, Ei. cbn [Nat.eqb negb]. rewrite of_bool_is_one. unfold at_index.
    destruct (supplied !! length claims) as [s|] eqn:Es; [|done]. cbn [mbind outcome_bind].
    intros Hrest. assert (∃ c, dc_real_len c = Z.to_nat len ∧ dc_digest_id c = id ∧ disclosed c = d ∧ s = claim_supplied c ∧
      claim_ok nonce b c ∧ claims' = claims ++ [c] ∧ blindeds !! length claims = Some b ∧ ids !! length claims = Some id)
      as (c & El & Eid & Edc & -> & Hok & -> & Eb & Eids).
    { destruct d, s as [bytes|]; try done.
      - case_bool_decide as Hbl; [done|]. destruct (Nat.eqb_spec (length bytes) (Z.to_nat len)) as [Hby|]; [|done].
        cbn [negb mbind outcome_bind] in Hrest. destruct (blindeds !! length claims) as [b'|] eqn:Eb; [|done]. cbn [mbind outcome_bind] in Hrest.
        case_bool_decide as Hb2; [done|]. subst b'.
        destruct (ids !! length claims) as [i'|] eqn:Eids; [|done]. cbn [mbind outcome_bind] in Hrest.
        case_bool_decide as Hi2; [done|]. subst i'. injection Hrest as <-.
        exists (mkDisclosedClaim true (claim_digest_bytes bytes) (Z.to_nat len) bytes id). split_and!; [done..| |done|done|done].
        unfold claim_ok. cbn [disclosed dc_digest dc_real_len plaintext dc_digest_id]. split_and!; done || lia.
      - cbn [negb mbind outcome_bind] in Hrest. destruct (blindeds !! length claims) as [b'|] eqn:Eb; [|done]. cbn [mbind outcome_bind] in Hrest.
        case_bool_decide as Hb2; [done|]. subst b'.
        destruct (ids !! length claims) as [i'|] eqn:Eids; [|done]. cbn [mbind outcome_bind] in Hrest.
        case_bool_decide as Hi2; [done|]. subst i'. injection Hrest as <-.
        exists (mkDisclosedClaim false (replicate 32 x00) (Z.to_nat len) [] id). split_and!; [done..| |done|done|done].
        unfold claim_ok. cbn [disclosed dc_digest dc_real_len plaintext dc_digest_id]. split_and!; done || lia. }
    exists c, b. unfold claim_values. rewrite El, Eid, Edc, Z2Nat.id by lia. by split_and!.
  - intros (c & b & -> & (Lb & Hmax & Hid & Hc) & -> & Es & Eb & Ei). unfold check_claim, claim_values, claim_supplied in *.
    assert (0 ≤ Z.of_nat (dc_real_len c) < 256)%Z as Hlen by (unfold MAX_CLAIM_BYTES_V1 in *; lia).
    destruct (step_values_parts b (disclosed c) _ _ Lb Hlen Hid) as (-> & -> & -> & Ed & -> & -> & Eint).
    rewrite (at_index_eq _ _ _ Ed), (at_index_eq _ _ _ Es), (at_index_eq _ _ _ Eb), (at_index_eq _ _ _ Ei).
    cbn [negb mbind outcome_bind]. rewrite Lb, length_be_bytes, Eint, of_bool_is_one.
    cbn [Nat.eqb negb at_index lookup list_lookup mbind outcome_bind]. rewrite Nat.eqb_refl. cbn [negb]. rewrite z2b_small, Nat2Z.id by done.
    rewrite (proj2 (Nat.ltb_ge _ _)) by done. rewrite !(bool_decide_eq_false_2 (_ ≠ _)) by (intros E; by apply E).
    destruct c as [d dig l pt id]. cbn [disclosed dc_digest dc_real_len plaintext dc_digest_id] in *. destruct d.
    + destruct Hc as (Lp & -> & Hbl). rewrite bool_decide_eq_false_2 by (intros E; by apply E).
      rewrite Lp, Nat.eqb_refl. done.
    + by destruct Hc as [-> ->].
Qed.

(** * The loop over the claims *)
Lemma check_claims_iff nonce ids blindeds supplied steps claims :
  (foldM (check_claim nonce ids blindeds supplied) [] steps : Result _) = Ok claims ↔
  ∃ bs, length bs = length claims ∧ steps = zip_with claim_values claims bs ∧ Forall2 (claim_ok nonce) bs claims ∧
    take (length claims) supplied = claim_supplied <$> claims ∧ take (length claims) blindeds = bs ∧
    take (length claims) ids = dc_digest_id <$> claims.
Proof.
  revert claims. induction steps as [|v steps IH] using rev_ind; intros claims.
  - cbn. split.
    + intros [= <-]. by exists [].
    + intros (bs & Lb & E & _). destruct claims, bs; done.
  - rewrite foldM_app, outcome_bind_ok. cbn [foldM]. split.
    + intros (claims0 & (bs & Lb & -> & HF & E1 & E2 & E3)%IH & Hc). rewrite outcome_bind_ok in Hc.
      destruct Hc as (claims1 & Hc & [= <-]). apply check_claim_iff in Hc as (c & b & -> & Hok & -> & Es & Eb & Ei).
      exists (bs ++ [b]). rewrite !length_app, Lb. cbn [length].
      rewrite Nat.add_1_r, (take_S_r _ _ _ Es), (take_S_r _ _ _ Eb), (take_S_r _ _ _ Ei), E1, E2, E3, !fmap_app.
      split_and!; try done; [by rewrite zip_with_app|]. apply Forall2_app; [done|by constructor].
    + intros (bs & Lb & E & HF & E1 & E2 & E3).
      assert (length claims = S (length steps)) as Lc.
      { apply (f_equal length) in E. rewrite length_app, length_zip_with, Lb in E. cbn in E. lia. }
      destruct claims as [|c cs _] using rev_ind; [done|]. destruct bs as [|b bs _] using rev_ind; [by rewrite length_app in Lb; cbn in Lb; lia|].
      rewrite (length_app bs), (length_app cs) in Lb. rewrite (length_app cs) in Lc. cbn [length] in Lb, Lc. rewrite (zip_with_app _ cs [c] bs [b]) in E by lia. apply app_inj_tail in E as [-> Ev].
      apply Forall2_app_inv in HF as [HF Hok]; [|lia]. apply Forall2_cons_1 in Hok as [Hok _].
      rewrite length_app, Nat.add_1_r in E1, E2, E3. rewrite fmap_app in E1. rewrite fmap_app in E3.
      assert (∀ A (l l' : list A) x n, take (S n) l = l' ++ [x] → length l' = n → take n l = l' ∧ l !! n = Some x) as Htake.
      { intros A l l' x n E Hl. split.
        - apply (f_equal (take n)) in E. rewrite take_take, Nat.min_l, take_app_length' in E by lia. done.
        - apply (f_equal (λ l, l !! n)) in E. rewrite lookup_take_lt in E by lia. rewrite E. apply list_lookup_middle. lia. }
      apply Htake in E1 as [E1 Es]; [|by rewrite length_fmap]. apply Htake in E2 as [E2 Eb]; [|lia]. apply Htake in E3 as [E3 Ei]; [|by rewrite length_fmap].
      exists cs. split; [apply IH; exists bs; split_and!; try done; lia|]. rewrite outcome_bind_ok. exists (cs ++ [c]). split; [|done].
      apply check_claim_iff. exists c, b. by split_and!.
Qed.

(** * The values of the core *)
Definition vp_body (p : VerifiedPresentation) : MsoBodyWitness :=
  {| device_x := vp_device_x p; device_y := vp_device_y p; signed_ts := vp_signed_ts p;
     valid_from_ts := vp_valid_from_ts p; valid_until_ts := vp_valid_until_ts p |}.

(** The bytes of the core's values, and the groups read from them. *)
Definition core_bytes (nonce : list byte) (body : MsoBodyWitness) (ids : list Z) (blinded : list (list byte)) : list byte :=
  nonce ++ device_x body ++ device_y body ++ signed_ts body ++ valid_from_ts body ++ valid_until_ts body ++
  concat (be_bytes 4 <$> ids) ++ concat blinded.
Definition read_body (w : list byte) : MsoBodyWitness :=
  {| device_x := slice 23 55 w; device_y := slice 55 87 w; signed_ts := slice 87 107 w;
     valid_from_ts := slice 107 127 w; valid_until_ts := slice 127 147 w |}.
Definition read_ids (w : list byte) : list Z := (λ i, be_int (slice (147 + 4 * i) (147 + 4 * i + 4) w)) <$> range MAX_CLAIMS_V1.
Definition read_blinded (w : list byte) : list (list byte) := (λ i, slice (163 + 32 * i) (163 + 32 * i + 32) w) <$> range MAX_CLAIMS_V1.

Lemma core_values_bytes qx qy nonce body ids blinded :
  core_values qx qy nonce body ids blinded = [qx; qy] ++ native_bytes_to_bits (core_bytes nonce body ids blinded).
Proof.
  unfold core_values, core_bytes. rewrite !native_app. do 9 f_equal.
  - induction ids as [|id ids IH]; [done|]. cbn [fmap list_fmap concat]. by rewrite bind_cons, IH, native_app, (int_bits_bytes 4).
  - induction blinded as [|b bs IH]; [done|]. cbn [concat]. by rewrite bind_cons, IH, native_app.
Qed.

Lemma core_bytes_read w : length w = 291 → core_bytes (slice 0 23 w) (read_body w) (read_ids w) (read_blinded w) = w.
Proof.
  intros Hl. unfold core_bytes, read_body, read_ids, read_blinded. cbn [device_x device_y signed_ts valid_from_ts valid_until_ts].
  assert (be_bytes 4 <$> ((λ i, be_int (slice (147 + 4 * i) (147 + 4 * i + 4) w)) <$> range MAX_CLAIMS_V1)
    = (λ i, slice (147 + 4 * i) (147 + 4 * i + 4) w) <$> range MAX_CLAIMS_V1) as ->.
  { rewrite <-list_fmap_compose. apply list_fmap_ext. intros j i [-> Hi]%lookup_seq. unfold MAX_CLAIMS_V1 in Hi. unfold compose.
    apply be_bytes_be_int. rewrite length_slice by lia. lia. }
  rewrite !concat_slices, !slice_join by (cbn; lia). unfold slice. rewrite drop_0. apply take_ge. rewrite Hl. cbn. lia.
Qed.

Lemma read_core_bytes nonce body ids blinded :
  length nonce = BLIND_NONCE_BYTES → body_sizes body → length ids = MAX_CLAIMS_V1 → Forall (λ id, 0 ≤ id < 2 ^ 32)%Z ids →
  length blinded = MAX_CLAIMS_V1 → Forall (λ b : list byte, length b = 32) blinded →
  let w := core_bytes nonce body ids blinded in
  length w = 291 ∧ slice 0 23 w = nonce ∧ read_body w = body ∧ read_ids w = ids ∧ read_blinded w = blinded.
Proof.
  intros Ln (L1 & L2 & L3 & L4 & L5) Li HI Lb HB w.
  assert (Forall (λ l, length l = 4) (be_bytes 4 <$> ids)) as HI4
    by (apply Forall_fmap, list.Forall_forall; intros id _; apply length_be_bytes).
  assert (∀ {A} n (ls : list (list A)), Forall (λ l, length l = n) ls → length (concat ls) = n * length ls) as Hcat.
  { intros A n ls HF. induction HF as [|l ls Hx _ IH]; [cbn; lia|]. cbn [concat length]. rewrite length_app, Hx, IH. lia. }
  pose proof (Hcat _ _ _ HI4) as L6. rewrite length_fmap, Li in L6. pose proof (Hcat _ _ _ HB) as L7. rewrite Lb in L7.
  assert (length w = 291) as Lw by (unfold w, core_bytes; by rewrite !length_app, Ln, L1, L2, L3, L4, L5, L6, L7).
  split; [done|]. unfold w, core_bytes, BLIND_NONCE_BYTES, TIMESTAMP_LEN, MAX_CLAIMS_V1 in *. split_and!.
  - by apply slice_first.
  - destruct body as [x y s f u]. cbn [device_x device_y signed_ts valid_from_ts valid_until_ts] in *. unfold read_body.
    f_equal; repeat rewrite slice_skip by lia; apply slice_first; lia.
  - unfold read_ids. apply list_eq_same_length with 4; [done|done|]. intros i a id Hi Ea Eid. rewrite list_lookup_fmap in Ea.
    unfold range in Ea. rewrite lookup_seq_lt in Ea by done. apply (inj Some) in Ea. rewrite <-Ea, Nat.add_0_l.
    repeat rewrite slice_skip by lia. rewrite slice_within by lia.
    rewrite (slice_concat_at _ 4 i (be_bytes 4 id)); [|done|by rewrite list_lookup_fmap, Eid|lia..].
    rewrite be_int_be_bytes. apply Z.mod_small. rewrite Forall_lookup in HI. apply (HI _ _ Eid).
  - unfold read_blinded. apply list_eq_same_length with 4; [done|done|]. intros i x b Hi Ex Eb. rewrite list_lookup_fmap in Ex.
    unfold range in Ex. rewrite lookup_seq_lt in Ex by done. apply (inj Some) in Ex. rewrite <-Ex, Nat.add_0_l.
    repeat rewrite slice_skip by lia. by apply (slice_concat_at _ 32 i b); [done..|lia|lia].
Qed.

(** * The verifier's checks *)
Lemma core_slice qx qy w a b A B :
  A = 2 + 8 * a → B = 2 + 8 * b → bits_to_bytes (slice A B ([qx; qy] ++ native_bytes_to_bits w)) = slice a b w.
Proof.
  intros -> ->. rewrite slice_skip by (cbn; lia). cbn [length].
  replace (2 + 8 * a - 2) with (8 * a) by lia. replace (2 + 8 * b - 2) with (8 * b) by lia.
  by rewrite native_slice, bits_to_bytes_bytes.
Qed.

Lemma mapM_all {E A B} (f : A → outcome E B) g l : (∀ x, x ∈ l → f x = Ok (g x)) → mapM f l = Ok (g <$> l).
Proof.
  induction l as [|x l IH]; intros Hf; [done|]. cbn [mapM fmap list_fmap]. rewrite (Hf x) by by left.
  cbn [mbind outcome_bind]. rewrite IH; [done|]. intros y Hy. apply Hf. by right.
Qed.

Lemma to_array_ok n l : length l = n → (to_array n l : Result _) = Ok l.
Proof. intros <-. unfold to_array. by rewrite Nat.eqb_refl. Qed.

(** The checks on the values of bytes. *)
Lemma verify_read steps qx qy w supplied :
  length w = 291 → length supplied = MAX_CLAIMS_V1 →
  (verify_and_check_binding steps ([qx; qy] ++ native_bytes_to_bits w) supplied : Result _) =
  if negb (length steps =? MAX_CLAIMS_V1)%nat then Err unsatisfiable else
  claims ← foldM (check_claim (slice 0 23 w) (read_ids w) (read_blinded w) supplied) [] steps;
  let body := read_body w in
  Ok {| vp_qx := qx; vp_qy := qy; vp_claims := claims; vp_device_x := device_x body; vp_device_y := device_y body;
    vp_signed_ts := signed_ts body; vp_valid_from_ts := valid_from_ts body; vp_valid_until_ts := valid_until_ts body |}.
Proof.
  intros Lw Ls. unfold verify_and_check_binding. cbv zeta. rewrite Ls, Nat.eqb_refl. cbn [negb].
  assert (length ([qx; qy] ++ native_bytes_to_bits w) = CORE_LEN) as -> by (by rewrite length_app, length_native, Lw).
  rewrite Nat.eqb_refl. cbn [negb]. rewrite drop_app_length', native_boolean by done. cbn [negb app].
  rewrite (at_index_eq _ 0 qx), (at_index_eq _ 1 qy) by done. cbn [mbind outcome_bind].
  change (qx :: qy :: native_bytes_to_bits w) with ([qx; qy] ++ native_bytes_to_bits w).
  assert (∀ n a b, b ≤ 291 → b - a = n → (to_array n (slice a b w) : Result _) = Ok (slice a b w)) as Harr
    by (intros n a b Hb <-; apply to_array_ok; rewrite length_slice; lia).
  repeat match goal with |- context [to_array ?n (bits_to_bytes (slice ?A ?B ?v))] =>
    let a := eval vm_compute in ((A - 2) / 8)%nat in let b := eval vm_compute in ((B - 2) / 8)%nat in
    rewrite (core_slice qx qy w a b A B) by done; rewrite (Harr n a b); [cbn [mbind outcome_bind]|lia|done] end.
  erewrite (mapM_all _ (λ i, be_int (slice (147 + 4 * i) (147 + 4 * i + 4) w))).
  2: { intros i [_ Hi]%elem_of_seq. unfold MAX_CLAIMS_V1 in Hi. unfold BLIND_NONCE_BYTES, TIMESTAMP_LEN.
    rewrite (core_slice _ _ w (147 + 4 * i) (147 + 4 * i + 4)) by lia. rewrite Harr; [done|lia|lia]. }
  cbn [mbind outcome_bind].
  erewrite (mapM_all _ (λ i, slice (163 + 32 * i) (163 + 32 * i + 32) w)).
  2: { intros i [_ Hi]%elem_of_seq. unfold MAX_CLAIMS_V1 in *. unfold BLIND_NONCE_BYTES, TIMESTAMP_LEN.
    rewrite (core_slice _ _ w (163 + 32 * i) (163 + 32 * i + 32)) by lia. rewrite Harr; [done|lia|lia]. }
  done.
Qed.

(** Values of the right number, bits from the third on, are two numbers and
    bytes. *)
Lemma core_parse v :
  length v = CORE_LEN → all_boolean (drop 2 v) = true → ∃ qx qy w, length w = 291 ∧ v = [qx; qy] ++ native_bytes_to_bits w.
Proof.
  intros Hl Hb. destruct v as [|qx [|qy v]]; try done. change (drop 2 (qx :: qy :: v)) with v in Hb.
  destruct (boolean_bytes v 291 Hb) as (w & Lw & ->); [injection Hl as ->; done|]. by exists qx, qy, w.
Qed.

(** What the verifier learns: the values of the core are those of the
    presentation and of some blinded digests; the values of each step are those
    of the claim with the same blinded digest; and the bytes supplied are the
    plaintexts of the claims that are disclosed, and no others. *)
Definition binding_shown (steps : list (list Scalar)) (core : list Scalar) (supplied : list (option (list byte)))
    (p : VerifiedPresentation) : Prop := ∃ nonce blinded,
  length nonce = BLIND_NONCE_BYTES ∧ body_sizes (vp_body p) ∧ length (vp_claims p) = MAX_CLAIMS_V1 ∧
  Forall2 (claim_ok nonce) blinded (vp_claims p) ∧
  core = core_values (vp_qx p) (vp_qy p) nonce (vp_body p) (dc_digest_id <$> vp_claims p) blinded ∧
  steps = zip_with claim_values (vp_claims p) blinded ∧ supplied = claim_supplied <$> vp_claims p.

Lemma verify_binding_iff steps core supplied p :
  (verify_and_check_binding steps core supplied : Result _) = Ok p ↔ binding_shown steps core supplied p.
Proof.
  split.
  - intros Hv. pose proof Hv as Hv'. unfold verify_and_check_binding in Hv'.
    destruct (Nat.eqb_spec (length supplied) MAX_CLAIMS_V1) as [Ls|]; [|done].
    destruct (Nat.eqb_spec (length core) CORE_LEN) as [Lc|]; [|done].
    destruct (all_boolean (drop 2 core)) eqn:Hb; [|done]. clear Hv'.
    destruct (core_parse core Lc Hb) as (qx & qy & w & Lw & ->). rewrite verify_read in Hv by done.
    destruct (Nat.eqb_spec (length steps) MAX_CLAIMS_V1) as [Lst|]; [|done]. cbn [negb] in Hv.
    apply outcome_bind_ok in Hv as (claims & Hclaims & [= <-]). apply check_claims_iff in Hclaims as (bs & Lb & -> & HF & E1 & E2 & E3).
    rewrite length_zip_with, Lb, Nat.min_id in Lst. rewrite Lst in E1, E2, E3.
    rewrite take_ge in E1 by (by rewrite Ls). rewrite take_ge in E2 by done. rewrite take_ge in E3 by done.
    exists (slice 0 23 w), bs. cbn [vp_claims vp_qx vp_qy]. split_and!; try done.
    + rewrite length_slice; [done|lia].
    + assert (∀ a b n, b ≤ 291 → b - a = n → length (slice a b w) = n) as Hsl by (intros a b n Hb' <-; apply length_slice; lia).
      unfold body_sizes, TIMESTAMP_LEN. split_and!; apply Hsl; lia.
    + rewrite core_values_bytes, <-E2, <-E3. f_equal. f_equal. symmetry. by apply core_bytes_read.
  - intros (nonce & blinded & Ln & HB & Lc & HF & -> & -> & ->). pose proof (Forall2_length _ _ _ HF) as Lb. rewrite Lc in Lb.
    assert (Forall (λ b : list byte, length b = 32) blinded) as H32.
    { apply Forall2_Forall_l with (1 := HF). apply list.Forall_forall. intros c _ b (Hb & _). exact Hb. }
    assert (Forall (λ id, 0 ≤ id < 2 ^ 32)%Z (dc_digest_id <$> vp_claims p)) as Hids.
    { apply Forall_fmap. apply Forall2_Forall_r with (1 := HF). apply list.Forall_forall. intros b _ c (_ & _ & Hid & _). exact Hid. }
    destruct (read_core_bytes nonce (vp_body p) (dc_digest_id <$> vp_claims p) blinded) as (Lw & E1 & E2 & E3 & E4);
      [done|done|by rewrite length_fmap|done..|].
    rewrite core_values_bytes, verify_read by (done || by rewrite length_fmap). rewrite length_zip_with, Lc, Lb, Nat.min_id, Nat.eqb_refl.
    cbn [negb]. rewrite E1, E2, E3, E4. rewrite (proj2 (check_claims_iff _ _ _ _ _ (vp_claims p))).
    + cbn [mbind outcome_bind]. by destruct p.
    + exists blinded. rewrite Lc, !take_ge by (rewrite ?length_fmap; lia). by split_and!.
Qed.

(** Values that are rejected are rejected as unsatisfied; nothing panics. *)
Lemma claim_rejected nonce ids blindeds supplied claims v :
  length claims < length supplied → length supplied = length ids → length supplied = length blindeds →
  match (check_claim nonce ids blindeds supplied claims v : Result _) with
  | Ok claims' => length claims' = S (length claims) | Err e => e = unsatisfiable | Panic _ => False
  end.
Proof.
  intros Hs Hi Hb. unfold check_claim. destruct (Nat.eqb_spec (length v) STEP_LEN) as [Hl|]; [|done].
  destruct (all_boolean v) eqn:Hbool; [|done]. cbn [negb].
  destruct (step_values_parse v Hl Hbool) as (b & d & len & id & Lb & Hlen & Hid & ->).
  destruct (step_values_parts b d len id Lb Hlen Hid) as (_ & _ & -> & Ed & -> & -> & Ei). rewrite (at_index_eq _ _ _ Ed).
  cbn [mbind outcome_bind]. rewrite Lb. cbn [Nat.eqb negb at_index lookup list_lookup mbind outcome_bind].
  destruct (_ <? _)%nat; [done|]. rewrite length_be_bytes. cbn [Nat.eqb negb].
  destruct (lookup_lt_is_Some_2 supplied (length claims)) as [s Es]; [done|].
  destruct (lookup_lt_is_Some_2 ids (length claims)) as [i Eid]; [lia|].
  destruct (lookup_lt_is_Some_2 blindeds (length claims)) as [bl Ebl]; [lia|].
  rewrite (at_index_eq _ _ _ Es), (at_index_eq _ _ _ Eid), (at_index_eq _ _ _ Ebl). cbn [mbind outcome_bind].
  destruct (bool_decide (of_bool d = ONE)), s as [bytes|]; try done;
    [destruct (bool_decide (blind_digest_bytes _ _ ≠ b)); [done|]; destruct (length bytes =? _)%nat; [|done]|];
    cbn [negb mbind outcome_bind]; destruct (bool_decide (b ≠ bl)); [done| |done|];
    (destruct (bool_decide (_ ≠ i)); [done|]); rewrite length_app; cbn; lia.
Qed.
End Checks.
