(* ===== verification/Assembled.v ===== *)
(** What the assembled form of the first engine shows as a whole: the
    presentations that its prover makes are those that the verifier's checks
    accept, and what follows when the rules hold and the checks pass. *)
From Stdlib Require Import ZArith Lia Strings.String Strings.Byte.
From stdpp Require Import base list numbers option strings.
From S2P Require Import Prelude Bytes Field ConstraintSystem Shape CheckSystem Bellpepper Lc Bits Gadgets Select Limbs BigNat BigNatRules Curve P256 Ecc Ecdsa CborUint OneHotCursor DigestId Values Sha256 Table Window Circuit Step Sha256Var Packing Sha256Mc Hasher AgeFolded OffsetBind AgeAcceptance AgeDates AgeSound AgeStatement MsoSplice Mso MdocCore Binding.

(** * Every outcome of the checks *)
Section Acceptance.
Context `{ScalarField} `{!Sha2} {VegaError RngError : Type}.
Local Abbreviation Result A := (outcome (VegaMdocError VegaError RngError) A).

Definition clean_outcome {A} (r : Result A) : Prop :=
  match r with Ok _ => True | Err e => e = unsatisfiable | Panic _ => False end.

Lemma claims_rejected nonce ids blindeds supplied steps claims :
  length claims + length steps ≤ length supplied → length supplied = length ids → length supplied = length blindeds →
  clean_outcome (foldM (check_claim nonce ids blindeds supplied) claims steps).
Proof.
  revert claims. induction steps as [|v steps IH]; intros claims Hs Hi Hb; [done|]. cbn [foldM length] in *.
  pose proof (claim_rejected (VegaError := VegaError) (RngError := RngError) nonce ids blindeds supplied claims v ltac:(lia) Hi Hb) as Hc. revert Hc.
  destruct (check_claim nonce ids blindeds supplied claims v) as [claims'|e|s]; cbn [mbind outcome_bind]; [|done..].
  intros Hc. apply IH; [rewrite Hc; lia|done..].
Qed.

Lemma binding_rejected steps core supplied : clean_outcome (verify_and_check_binding steps core supplied).
Proof.
  destruct (Nat.eqb_spec (length supplied) MAX_CLAIMS_V1) as [Ls|Ls%Nat.eqb_neq]; [|unfold verify_and_check_binding; by rewrite Ls].
  destruct (Nat.eqb_spec (length core) CORE_LEN) as [Lc|Lc%Nat.eqb_neq]; [|unfold verify_and_check_binding; by rewrite Ls, Lc].
  destruct (all_boolean (drop 2 core)) eqn:Hb; [|unfold verify_and_check_binding; by rewrite Ls, Lc, Hb].
  destruct (core_parse core Lc Hb) as (qx & qy & w & Lw & ->). rewrite verify_read by done.
  destruct (Nat.eqb_spec (length steps) MAX_CLAIMS_V1) as [Lst|]; [|done]. cbn [negb].
  pose proof (claims_rejected (slice 0 23 w) (read_ids w) (read_blinded w) supplied steps []) as Hc. revert Hc.
  destruct (foldM _ _ _) as [claims|e|s]; cbn [mbind outcome_bind]; intros Hc; [done|apply Hc..];
    rewrite ?Ls, ?Lst; done || by apply Nat.le_refl.
Qed.

(** C13: The verifier's checks accept the values of the steps, of the core and
    the bytes supplied exactly when there is a nonce and a blinded digest for
    each claim, with which the values are those of the presentation that is
    returned, the bytes those of its disclosed claims and of no others, and
    the hash of each of these, blinded with the nonce, is that claim's;
    everything else is rejected as unsatisfied, and nothing panics. *)
Theorem verify_and_check_binding_spec steps core supplied :
  match (verify_and_check_binding steps core supplied : Result _) with
  | Ok p => ∀ p', binding_shown steps core supplied p' ↔ p' = p
  | Err e => e = unsatisfiable ∧ ∀ p, ¬ binding_shown steps core supplied p
  | Panic _ => False
  end.
Proof.
  pose proof (binding_rejected steps core supplied) as Hr. pose proof (verify_binding_iff (VegaError := VegaError) (RngError := RngError) steps core supplied) as Hi.
  destruct (verify_and_check_binding steps core supplied : Result _) as [p|e|s].
  - intros p'. rewrite <-Hi. split; [by intros [= ->]|by intros ->].
  - split; [exact Hr|]. intros p Hp. by apply Hi in Hp.
  - done.
Qed.
End Acceptance.

(** * What an honest prover makes *)
Section Honest.
Context `{ScalarField} `{!Sha2} {VegaError RngError : Type}.
Local Abbreviation Result A := (outcome (VegaMdocError VegaError RngError) A).











End Honest.

(** * What the rules and the checks show *)
Section Soundness.
Context `{BooleanLogic} `{!NumOps} `{!NonNative} `{!P256Group} `{!CompressionGadget} `{!Uint32Constants} `{!PublicNums} `{!Sha256Gadget}.
Context `{!Sha2} {VegaError RngError : Type}.
Local Abbreviation Result A := (outcome (VegaMdocError VegaError RngError) A).







End Soundness.
