(* ===== verification/Challenge.v ===== *)
(** [challenge.rs]: the challenge that the device key signs, derived from the
    verifier's request, and its checked entry points.

    A [&str] is its UTF-8 bytes. *)
From Stdlib Require Import ZArith Lia Strings.String Strings.Byte.
From stdpp Require Import base list numbers option strings pretty.
From S2P Require Import Prelude Bytes Sha256 Table Cbor.
Local Open Scope Z_scope.

Definition ES256_HEADER : list byte := [xa1; x01; x26].

(** The head of a CBOR data item, from the length it is given. *)
Definition item_head (major n : Z) : list byte :=
  let m := Z.shiftl major 5 in
  if n <? 24 then [z2b (Z.lor m n)]
  else if n <? 0x100 then z2b (Z.lor m 24) :: be_bytes 1 n
  else if n <? 0x10000 then z2b (Z.lor m 25) :: be_bytes 2 n
  else if n <? 0x100000000 then z2b (Z.lor m 26) :: be_bytes 4 n
  else z2b (Z.lor m 27) :: be_bytes 8 n.

Definition byte_string (content : list byte) : list byte := item_head 2 (len content) ++ content.
Definition text (content : list byte) : list byte := item_head 3 (len content) ++ content.
Definition embedded (encoded : list byte) : list byte := item_head 6 24 ++ byte_string encoded.

Definition device_authentication (session_transcript doc_type : list byte) : list byte :=
  let name_spaces := embedded [xa0] in
  let authentication := concat [
    item_head 4 4;
    text (bytes_of "DeviceAuthentication");
    session_transcript;
    text doc_type;
    name_spaces] in
  let payload := embedded authentication in
  concat [item_head 4 4; text (bytes_of "Signature1"); byte_string ES256_HEADER; byte_string [];
          byte_string payload].

Section Challenge.
Context `{Sha2}.

(** [challenge::mdoc]. *)
Definition mdoc_challenge (session_transcript doc_type : list byte) : list byte :=
  sha256 (device_authentication session_transcript doc_type).

(** The hashed part of the handover. *)
Definition handover_info (origin nonce : list byte) (jwk_thumbprint : option (list byte))
  : list byte :=
  let thumbprint := match jwk_thumbprint with None => [xf6] | Some t => byte_string t end in
  concat [item_head 4 3; text origin; text nonce; thumbprint].

Definition dc_api_session_transcript (origin nonce : list byte)
  (jwk_thumbprint : option (list byte)) : list byte :=
  let info := handover_info origin nonce jwk_thumbprint in
  let handover :=
  concat [item_head 4 2; text (bytes_of "OpenID4VPDCAPIHandover"); byte_string (sha256 info)] in
  concat [item_head 4 3; [xf6; xf6]; handover].

Definition MIN_NONCE_CHARS : Z := 16.
Definition MAX_FIELD_BYTES : Z := 4096.

Definition field (name : string) (v : list byte) : outcome string unit :=
  if bool_decide (v = []) then Err ("the " +:+ name +:+ " is empty")
  else if MAX_FIELD_BYTES <? len v then Err ("the " +:+ name +:+ " is longer than 4096 bytes")
  else Ok tt.

Definition verifier_input (client_id : list byte) : outcome string (list byte) :=
  field "client_id" client_id ;; Ok (sha256 client_id).

(** [struct Challenge]. *)
Record Challenge := mkChallenge { session_transcript : list byte; digest : list byte }.

(** [v.chars().count()]: a character's bytes but the first continue it. *)
Definition chars_count (v : list byte) : Z := len (filter (λ b, tail b = false) v).

Definition derive (origin nonce doc_type : list byte) (jwk_thumbprint : option (list byte))
  : outcome string Challenge :=
  field "origin" origin ;;
  field "nonce" nonce ;;
  field "docType" doc_type ;;
  (if chars_count nonce <? MIN_NONCE_CHARS
  then Err "the nonce is shorter than 16 characters" else Ok tt) ;;
  thumbprint ← match jwk_thumbprint with
   | None => Ok None
   | Some t => if len t =? 32 then Ok (Some t)
               else Err ("the JWK thumbprint is " +:+ pretty (length t) +:+ " bytes, not 32")
   end;
  let session_transcript := dc_api_session_transcript origin nonce thumbprint in
  let digest := mdoc_challenge session_transcript doc_type in
  Ok {| session_transcript := session_transcript; digest := digest |}.

Definition digest_of_transcript (session_transcript doc_type : list byte)
  : outcome string (list byte) :=
  field "docType" doc_type ;;
  item ← map_err (λ e, "the SessionTranscript: " +:+ e) (read session_transcript);
  if negb (len (item_bytes item) =? len session_transcript)
  then Err "the SessionTranscript has bytes after its end"
  else if negb (major item =? 4) || negb (argument item =? 3)
  then Err "the SessionTranscript is not a CBOR array of three items"
  else Ok (mdoc_challenge session_transcript doc_type).
End Challenge.

(** * Lemmas *)
Section Encodings.
(** The two encoders agree. *)
Lemma item_head_head major n : item_head major n = head major n.
Proof.
  unfold item_head, head.
  assert (∀ a b, (n <? a) = (n <=? b) → a = b + 1 → True) as _ by done.
  replace (n <? 24) with (n <=? 23) by (apply Bool.eq_iff_eq_true; rewrite Z.leb_le, Z.ltb_lt; lia).
  replace (n <? 0x100) with (n <=? 0xff) by (apply Bool.eq_iff_eq_true; rewrite Z.leb_le, Z.ltb_lt; lia).
  replace (n <? 0x10000) with (n <=? 0xffff) by (apply Bool.eq_iff_eq_true; rewrite Z.leb_le, Z.ltb_lt; lia).
  replace (n <? 0x100000000) with (n <=? 0xffffffff) by (apply Bool.eq_iff_eq_true; rewrite Z.leb_le, Z.ltb_lt; lia).
  done.
Qed.

Lemma byte_string_encode b : byte_string b = encode (Bytes b).
Proof. unfold byte_string. by rewrite item_head_head. Qed.
Lemma text_encode t : text t = encode (Text t).
Proof. unfold text. by rewrite item_head_head. Qed.
Lemma embedded_encode b : embedded b = encode (Tag 24 (Bytes b)).
Proof. unfold embedded. by rewrite item_head_head, byte_string_encode. Qed.

(** The message is the standard's structure, in CBOR. *)
Lemma device_authentication_structure st v dt :
  st = encode v →
  device_authentication st dt =
  encode (Array [Text (bytes_of "Signature1"); Bytes ES256_HEADER; Bytes [];
  Bytes (encode (Tag 24 (Bytes (encode (Array [Text (bytes_of "DeviceAuthentication"); v;
  Text dt; Tag 24 (Bytes [xa0])])))))]).
Proof.
  intros ->. unfold device_authentication. rewrite !embedded_encode, !byte_string_encode, !text_encode.
  rewrite !item_head_head. done.
Qed.
End Encodings.

Section Unambiguous.
(** A string behind its head ends where its length says. *)
Lemma string_prefix_free m a a' r r' :
  0 ≤ m < 8 → len a < 2 ^ 64 → len a' < 2 ^ 64 →
  (item_head m (len a) ++ a) ++ r = (item_head m (len a') ++ a') ++ r' → a = a' ∧ r = r'.
Proof.
  intros Hm Ha Ha' E. rewrite !item_head_head, <-!app_assoc in E.
  destruct (read_head_head m (len a) (a ++ r)) as [i1 H1]; [done|unfold len in *; lia|].
  destruct (read_head_head m (len a') (a' ++ r')) as [i2 H2]; [done|unfold len in *; lia|].
  rewrite E, H2 in H1. injection H1 as _ El _. rewrite El in E. apply app_inv_head in E.
  apply app_inj_1 in E; [done|]. unfold len in El. lia.
Qed.

(** Encoded items that are one whole CBOR item. *)
Definition whole_item (bytes : list byte) : Prop :=
  ∃ it, read bytes = Ok it ∧ item_bytes it = bytes.

Lemma whole_item_reads bytes : whole_item bytes → ∃ it, reads (S MAX_DEPTH) it ∧ item_bytes it = bytes.
Proof.
  intros (it & H & E). unfold read in H. destruct (_ <? _); [done|].
  apply read_at_spec in H as (Hr & _). by exists it.
Qed.

Lemma whole_prefix_free a a' r r' :
  whole_item a → whole_item a' → a ++ r = a' ++ r' → a = a' ∧ r = r'.
Proof.
  intros (it & Hr & <-)%whole_item_reads (it' & Hr' & <-)%whole_item_reads E.
  by destruct (reads_prefix_free _ _ _ _ _ Hr Hr' E) as [-> ->].
Qed.

Lemma byte_string_inj a a' :
  len a < 2 ^ 64 → len a' < 2 ^ 64 → byte_string a = byte_string a' → a = a'.
Proof.
  intros Ha Ha' E. apply (string_prefix_free 2 a a' [] []); [lia|done|done|].
  by rewrite !app_nil_r.
Qed.

Lemma embedded_inj a a' :
  len a < 2 ^ 64 → len a' < 2 ^ 64 → embedded a = embedded a' → a = a'.
Proof. unfold embedded. intros Ha Ha' E%app_inv_head. by apply byte_string_inj. Qed.

Lemma item_head_length m n : (length (item_head m n) ≤ 9)%nat.
Proof. rewrite item_head_head. apply head_length. Qed.

Lemma byte_string_length a : (length (byte_string a) ≤ 9 + length a)%nat.
Proof. unfold byte_string. rewrite length_app. pose proof (item_head_length 2 (len a)). lia. Qed.

Lemma embedded_length a : (length (embedded a) ≤ 18 + length a)%nat.
Proof.
  unfold embedded. rewrite length_app. pose proof (byte_string_length a).
  pose proof (item_head_length 6 24). lia.
Qed.

Lemma text_length a : (length (text a) ≤ 9 + length a)%nat.
Proof. unfold text. rewrite length_app. pose proof (item_head_length 3 (len a)). lia. Qed.

(** The signed part of the message. *)
Definition authentication (st dt : list byte) : list byte :=
  concat [item_head 4 4; text (bytes_of "DeviceAuthentication"); st; text dt; embedded [xa0]].

Lemma authentication_length st dt :
  (length (authentication st dt) ≤ 100 + length st + length dt)%nat.
Proof.
  unfold authentication. cbn [concat]. rewrite !length_app.
  pose proof (text_length dt). pose proof (text_length (bytes_of "DeviceAuthentication")) as H2.
  pose proof (embedded_length [xa0]) as H3. pose proof (item_head_length 4 4). simpl length in *. lia.
Qed.
End Unambiguous.

(** * Properties *)
Section ChallengeProperties.
Context `{Sha2}.

(** C38: The message the device signs names its session transcript and its
    docType without ambiguity: two requests with different transcripts or
    docTypes never share a message. *)
Theorem device_authentication_inj st st' dt dt' :
  whole_item st → whole_item st' → len dt < 2 ^ 62 → len dt' < 2 ^ 62 →
  device_authentication st dt = device_authentication st' dt' → st = st' ∧ dt = dt'.
Proof.
  intros Hst Hst' Hdt Hdt' E.
  assert (∀ st, whole_item st → len st ≤ MAX_INPUT) as Hl.
  { intros s (it & Hr & _). unfold read in Hr. by destruct (Z.ltb_spec MAX_INPUT (len s)). }
  pose proof (Hl _ Hst). pose proof (Hl _ Hst'). unfold MAX_INPUT in *.
  pose proof (authentication_length st dt). pose proof (authentication_length st' dt').
  pose proof (embedded_length (authentication st dt)).
  pose proof (embedded_length (authentication st' dt')). unfold len in *.
  unfold device_authentication in E. fold (authentication st dt) (authentication st' dt') in E.
  cbn [concat] in E. rewrite !app_nil_r in E.
  do 4 apply app_inv_head in E.
  apply byte_string_inj in E; [|unfold len; lia..].
  apply embedded_inj in E; [|unfold len; lia..].
  unfold authentication in E. cbn [concat] in E. rewrite !app_nil_r in E.
  do 2 apply app_inv_head in E.
  apply whole_prefix_free in E as [-> E]; [|done..]. split; [done|].
  unfold text in E. apply string_prefix_free in E as [-> _]; [done|lia|unfold len; lia..].
Qed.

(** What can be wrong with a field, and the text that says so. *)
Definition field_faults (name : string) (v : list byte) : list (Prop * string) :=
  [(v = [], "the " +:+ name +:+ " is empty");
   (MAX_FIELD_BYTES < len v, "the " +:+ name +:+ " is longer than 4096 bytes")].

(** What can be wrong with a request, in the order of the checks. *)
Definition request_faults (origin nonce doc_type : list byte) (thumbprint : option (list byte)) : list (Prop * string) :=
  field_faults "origin" origin ++ field_faults "nonce" nonce ++ field_faults "docType" doc_type ++
  [(chars_count nonce < MIN_NONCE_CHARS, "the nonce is shorter than 16 characters"%string)] ++
  match thumbprint with
  | None => []
  | Some t => [(length t ≠ 32%nat, "the JWK thumbprint is " +:+ pretty (length t) +:+ " bytes, not 32")]
  end.

(** Nothing in a list is wrong; the text of the first thing that is. *)
Definition faultless (faults : list (Prop * string)) : Prop := Forall (λ f, ¬ f.1) faults.
Definition first_fault (faults : list (Prop * string)) (e : string) : Prop :=
  ∃ before (P : Prop) after, faults = before ++ (P, e) :: after ∧ P ∧ faultless before.

(** What a fallible computation with some checks says of what can be wrong. *)
Definition checked {A} (faults : list (Prop * string)) (m : outcome string A) (P : A → Prop) : Prop :=
  match m with
  | Ok a => faultless faults ∧ P a
  | Err e => first_fault faults e
  | Panic _ => False
  end.

Lemma checked_bind {A B} faults faults' (m : outcome string A) (k : A → outcome string B) P Q :
  checked faults m P → (∀ a, P a → checked faults' (k a) Q) → checked (faults ++ faults') (m ≫= k) Q.
Proof.
  unfold checked. destruct m as [a|e|w]; cbn [mbind outcome_bind]; [| |done].
  - intros [HF HP] Hk. specialize (Hk a HP). destruct (k a) as [b|e|w]; [| |done].
    + destruct Hk. split; [by apply Forall_app|done].
    + destruct Hk as (before & R & after & -> & HR & HB). exists (faults ++ before), R, after.
      split_and!; [by rewrite <-app_assoc|done|by apply Forall_app].
  - intros (before & R & after & -> & HR & HB) _. exists before, R, (after ++ faults'). by rewrite <-app_assoc.
Qed.

Lemma checked_field name v : checked (field_faults name v) (field name v) (λ _, True).
Proof.
  unfold field, field_faults, checked. destruct (bool_decide_reflect (v = [])) as [E|N].
  { eexists [], _, _. split_and!; [done..|constructor]. }
  destruct (Z.ltb_spec MAX_FIELD_BYTES (len v)) as [L|L].
  - eexists [_], _, _. split_and!; [done..|]. by constructor.
  - split; [|done]. constructor; [done|]. constructor; [|constructor]. by apply Z.le_ngt.
Qed.

(** What [derive] returns, for the properties below. *)
Lemma derive_cases origin nonce doc_type thumbprint :
  checked (request_faults origin nonce doc_type thumbprint) (derive origin nonce doc_type thumbprint) (λ c,
    let st := dc_api_session_transcript origin nonce thumbprint in
    c = {| session_transcript := st; digest := sha256 (device_authentication st doc_type) |}).
Proof.
  unfold derive, request_faults.
  do 3 (eapply checked_bind; [apply checked_field|intros _ _]).
  eapply (checked_bind _ _ _ _ (λ _, True)).
  { unfold checked. destruct (Z.ltb_spec (chars_count nonce) MIN_NONCE_CHARS) as [L|L].
    - eexists [], _, _. split_and!; [done..|constructor].
    - split; [|done]. constructor; [|constructor]. by apply Z.le_ngt. }
  intros _ _. rewrite <-(app_nil_r (match thumbprint with None => _ | Some t => _ end)).
  eapply (checked_bind _ _ _ _ (λ t, t = thumbprint)).
  { destruct thumbprint as [t|]; [|by split; [constructor|]]. destruct (Z.eqb_spec (len t) 32) as [E|N].
    - split; [|done]. constructor; [|constructor]. intros []. unfold len in E. lia.
    - eexists [], _, _. split_and!; [done| |constructor]. unfold len in N. lia. }
  intros ? ->. by split; [constructor|].
Qed.

(** C40: [derive] accepts exactly the requests with nothing wrong: a non-empty
    origin, nonce and docType of at most 4096 bytes, a nonce of at least sixteen
    characters and a thumbprint of 32 bytes if any; it gives the transcript of
    the request and the digest of its message. Otherwise its error is the text
    of the first limit, in this order, that the request exceeds. *)
Theorem derive_spec origin nonce doc_type thumbprint :
  match derive origin nonce doc_type thumbprint with
  | Ok c => faultless (request_faults origin nonce doc_type thumbprint) ∧
      let st := dc_api_session_transcript origin nonce thumbprint in
      c = {| session_transcript := st; digest := sha256 (device_authentication st doc_type) |}
  | Err e => first_fault (request_faults origin nonce doc_type thumbprint) e
  | Panic _ => False
  end.
Proof. apply derive_cases. Qed.

(** The transcript as an item. *)
Lemma dc_api_item origin nonce thumbprint (h := sha256 (handover_info origin nonce thumbprint)) :
  len h < 2 ^ 60 →
  ∃ it, reads (S MAX_DEPTH) it ∧ item_bytes it = dc_api_session_transcript origin nonce thumbprint ∧
  major it = 4 ∧ argument it = 3.
Proof.
  intros Hh.
  set (handover := array_item [item_of (Text (bytes_of "OpenID4VPDCAPIHandover")); item_of (Bytes h)]).
  assert (wf 1 (Text (bytes_of "OpenID4VPDCAPIHandover"))) as W1 by (by constructor).
  assert (wf 1 (Bytes h)) as W2 by (constructor; lia).
  assert (reads 2 handover) as Hr.
  { apply reads_array; [done| |]; repeat apply Forall_cons_2; try apply Forall_nil_2;
      by apply (wf_reads 1). }
  exists (array_item [simple_item xf6; simple_item xf6; handover]). split_and!; [|..|done|done].
  - apply (reads_mono 3); [unfold MAX_DEPTH; lia|].
    assert (reads 2 (simple_item xf6)) as Hs by (by apply reads_simple).
    apply reads_array; [done| |]; repeat apply Forall_cons_2; try apply Forall_nil_2; try done.
    all: eapply read_at_spec; first [apply (Hs [])|apply (Hr [])].
  - unfold dc_api_session_transcript, handover, array_item, encodings.
    cbn [item_bytes concat fmap list_fmap item_of simple_item]. fold h.
    rewrite !item_head_head, byte_string_encode, text_encode, !app_nil_r. reflexivity.
Qed.

(** The verifier and the wallet agree: the digest of a derived
    transcript is the derived digest. *)
Theorem derive_transcript_agrees origin nonce doc_type thumbprint c :
  derive origin nonce doc_type thumbprint = Ok c →
  digest_of_transcript (session_transcript c) doc_type = Ok (digest c).
Proof.
  intros Hc. pose proof (derive_cases origin nonce doc_type thumbprint) as Hok. unfold checked in Hok. rewrite Hc in Hok.
  destruct Hok as [HF ->]. cbn [session_transcript digest]. unfold faultless, request_faults, field_faults in HF.
  rewrite !Forall_app, !Forall_cons in HF. cbn [fst] in HF.
  destruct HF as ((_ & Ho & _) & (_ & Hn & _) & (Nd & Hd & _) & _ & Ht). apply Z.nlt_ge in Ho, Hn, Hd.
  assert (field "docType" doc_type = Ok tt) as Hfield.
  { unfold field. rewrite bool_decide_eq_false_2, (proj2 (Z.ltb_ge _ _)) by done. done. }
  unfold MAX_FIELD_BYTES, len in *.
  set (info := handover_info origin nonce thumbprint).
  assert (Z.of_nat (length info) ≤ 9000) as Hi.
  { unfold info, handover_info. cbn [concat]. rewrite !length_app.
    pose proof (item_head_length 4 3). pose proof (text_length origin). pose proof (text_length nonce).
    destruct thumbprint as [t|]; simpl length.
    - rewrite Forall_singleton in Ht. cbn [fst] in Ht. pose proof (byte_string_length t). lia.
    - lia. }
  assert (length (sha256 info) = 32%nat) as Hh.
  { rewrite sha256_chain by lia. rewrite length_words_to_bytes.
    by destruct (run_blocks_fips IV (chunks 64 (pad info))) as [_ [-> _]];
      [split; [done|apply IV_words]|apply pad_chunks|]. }
  destruct (dc_api_item origin nonce thumbprint) as (it & Hr & Eb & Em & Ea).
  { fold info. unfold len. rewrite Hh. done. }
  assert (length (dc_api_session_transcript origin nonce thumbprint) ≤ 200)%nat as Hl.
  { unfold dc_api_session_transcript. fold info. cbn [concat]. rewrite !length_app.
    pose proof (item_head_length 4 3). pose proof (item_head_length 4 2).
    pose proof (byte_string_length (sha256 info)).
    pose proof (text_length (bytes_of "OpenID4VPDCAPIHandover")) as Hb. simpl in Hb. simpl length. lia. }
  unfold digest_of_transcript.
  rewrite Hfield.
  cbn [mbind outcome_bind].
  specialize (Hr []). rewrite app_nil_r, Eb in Hr.
  assert (read (dc_api_session_transcript origin nonce thumbprint) = Ok it) as ->.
  { unfold read. rewrite (proj2 (Z.ltb_ge _ _)) by (unfold len, MAX_INPUT; lia). done. }
  cbn [map_err mbind outcome_bind]. rewrite Eb, Z.eqb_refl, Em, Ea. done.
Qed.
End ChallengeProperties.
