(* ===== verification/Request.v ===== *)
(** [request.rs]: the credential type and the attribute name that the verifier
    asks for, as patterns in windows of fixed length, and the rules that
    compare a window of the credential with a pattern.

    A [&str] is its UTF-8 bytes. Windows have at most [len] thermometer bytes;
    the subtractions of the code underflow otherwise. *)
From Stdlib Require Import ZArith Lia Strings.String Strings.Byte.
From Stdlib Require Import Field_tac Ring.
From stdpp Require Import base list numbers option strings pretty.
From S2P Require Import Prelude Bytes Field ConstraintSystem Shape CheckSystem Bellpepper Lc Values Bits Select.

Inductive Align := Left | Right.

(** [struct Window]. *)
Record Window := mkWindow {
  w_len : nat;
  thermometer : nat;
  align : Align;
  nonempty : bool;
}.

Definition LIMB : nat := 31.

(** [Window::fixed], [Window::position], [Window::public_count]. *)
Definition fixed (w : Window) : nat := w_len w - thermometer w.
Definition position (w : Window) (k : nat) : nat :=
  match align w with
  | Right => thermometer w - 1 - k
  | Left => fixed w + k
  end.
Definition public_count (w : Window) : nat := div_ceil (w_len w) LIMB + 1.

Definition DOC_TYPE_WINDOW : Window :=
  {| w_len := 48; thermometer := 48; align := Right; nonempty := false |}.
Definition IDENTIFIER_WINDOW : Window :=
  {| w_len := 40; thermometer := 40; align := Right; nonempty := false |}.
Definition VCT_WINDOW : Window :=
  {| w_len := 48; thermometer := 40; align := Left; nonempty := false |}.
Definition CLAIM_WINDOW : Window :=
  {| w_len := 19; thermometer := 16; align := Right; nonempty := true |}.

Definition DOC_TYPE_KEY : list byte := x67 :: bytes_of "docType".
Definition IDENTIFIER_KEY : list byte := x71 :: bytes_of "elementIdentifier".
Definition VCT_KEY : list byte := x22 :: bytes_of "vct" ++ [x22; x3a; x22].

(** The head of a CBOR text string. *)
Definition text_head (len : nat) : outcome string (list byte) :=
  if (len <? 24)%nat then Ok [z2b (0x60 + Z.of_nat len)]
  else if (len <? 256)%nat then Ok [x78; z2b (Z.of_nat len)]
  else Err ("a text of " +:+ pretty len +:+ " bytes is longer than any window").

(** [struct Pattern]. *)
Record Pattern := mkPattern { p_window : Window; p_bytes : list byte }.

Definition pattern_new (window : Window) (bytes : list byte) : outcome string Pattern :=
  if (w_len window <? length bytes)%nat
  then Err ("a pattern of " +:+ pretty (length bytes) +:+ " bytes is longer than its window of "
            +:+ pretty (w_len window))
  else if (length bytes <? fixed window)%nat
  then Err ("a pattern of " +:+ pretty (length bytes) +:+ " bytes is shorter than the "
            +:+ pretty (fixed window) +:+ " bytes its window always compares")
  else Ok {| p_window := window; p_bytes := bytes |}.

Definition pattern_doc_type (doc_type : list byte) : outcome string Pattern :=
  head ← text_head (length doc_type);
  pattern_new DOC_TYPE_WINDOW (concat [DOC_TYPE_KEY; head; doc_type]).

Definition pattern_identifier (identifier : list byte) : outcome string Pattern :=
  head ← text_head (length identifier);
  pattern_new IDENTIFIER_WINDOW (concat [IDENTIFIER_KEY; head; identifier]).

(** [Pattern::count], [Pattern::aligned]. *)
Definition pattern_count (p : Pattern) : nat := length (p_bytes p) - fixed (p_window p).
Definition pattern_at (p : Pattern) : nat :=
  match align (p_window p) with
  | Left => 0
  | Right => w_len (p_window p) - length (p_bytes p)
  end.
Definition aligned (p : Pattern) : list byte :=
  let window := replicate (w_len (p_window p)) x00 in
  let at_ := pattern_at p in
  take at_ window ++ p_bytes p ++ drop (at_ + length (p_bytes p)) window.

(** [struct Request]. *)
Record Request := mkRequest { credential_type : Pattern; request_attribute : Pattern }.

Definition request_mdoc (doc_type identifier : list byte) : outcome string Request :=
  credential_type ← pattern_doc_type doc_type;
  attribute ← pattern_identifier identifier;
  Ok {| credential_type := credential_type; request_attribute := attribute |}.

Definition windows (r : Request) : list Window :=
  [p_window (credential_type r); p_window (request_attribute r)].

Section Request.
Context `{Bellpepper}.

(** [Pattern::values]. *)
Definition pattern_values (p : Pattern) : list Scalar :=
  let values := from_be <$> chunks LIMB (aligned p) in
  let thermometer := foldl (λ sum _, double sum + ONE)%S ZERO (range (pattern_count p)) in
  values ++ [thermometer].

(** [Request::values]. *)
Definition request_values (r : Request) : list Scalar :=
  pattern_values (credential_type r) ++ pattern_values (request_attribute r).

(** A public value as a sum. *)
Definition public_input (values : option (list Scalar)) (i : nat) : Synth Lc :=
  value ← match values with
  | None => mret None
  | Some v => x ← index v i; mret (Some x)
  end;
  input ← ns ("public " +:+ pretty i) (AllocatedNum_alloc_input (known value));
  mret (num input).

(** The bit that switches each byte of the window; [switch[..] = ..] panics
    out of range. *)
Definition switches (window : Window) (bits : list Boolean) : Synth (list (option Lc)) :=
  foldM (λ switch k,
  b ← index bits (thermometer window - 1 - k);
  assert (position window k <? length switch)%nat "index out of bounds" ;;
  mret (<[position window k := Some (bit b)]> switch))
  (replicate (w_len window) None) (range (thermometer window)).

Definition check (window : Window) (credential : list AllocatedNum)
  (values : option (list Scalar)) : Synth unit :=
  assert (length credential =? w_len window)%nat "assert_eq" ;;
  inputs ← mapM (public_input values) (range (public_count window));
  let limbs := take (length inputs - 1) inputs in
  thermometer_lc ← index inputs (length inputs - 1);
  thermometer_bits ← ns "thermometer bits" (bits thermometer_lc (thermometer window));
  (if nonempty window
  then
  lowest ← index thermometer_bits (thermometer window - 1);
  ns "nonempty" (equal (bit lowest) (small 1))
  else mret tt) ;;
  switch ← switches window thermometer_bits;
  compared ← mapM (λ '(i, (byte, bit)),
  match bit : option Lc with
  | Some bit => ns ("byte " +:+ pretty (i : nat)) (mul bit (num byte))
  | None => mret (num byte)
  end) (imap (λ i x, (i, x)) (zip credential switch));
  mapM (λ '(l, (bytes, limb)), ns ("limb " +:+ pretty (l : nat)) (equal (pack_bytes bytes) limb))
  (imap (λ l x, (l, x)) (zip (chunks LIMB compared) limbs)) ;;
  mret tt.
End Request.

(** * Patterns *)
Section Patterns.
(** A pattern that its window admits ([Pattern::new] checks it). *)
Definition pattern_ok (p : Pattern) : Prop :=
  thermometer (p_window p) ≤ w_len (p_window p) ∧
  fixed (p_window p) ≤ length (p_bytes p) ≤ w_len (p_window p).

Lemma pattern_new_ok w bytes p :
  thermometer w ≤ w_len w → pattern_new w bytes = Ok p →
  p = {| p_window := w; p_bytes := bytes |} ∧ pattern_ok p.
Proof.
  intros Hw. unfold pattern_new. destruct (Nat.ltb_spec (w_len w) (length bytes)); [done|].
  destruct (Nat.ltb_spec (length bytes) (fixed w)); [done|]. intros [= <-].
  split; [done|]. unfold pattern_ok. simpl. lia.
Qed.

Lemma pattern_at_range p : pattern_ok p → pattern_at p + length (p_bytes p) ≤ w_len (p_window p).
Proof. unfold pattern_ok, pattern_at. destruct (align _); lia. Qed.

Lemma length_aligned p : pattern_ok p → length (aligned p) = w_len (p_window p).
Proof.
  intros Hp. pose proof (pattern_at_range p Hp). unfold aligned.
  rewrite !length_app, length_take, length_drop, length_replicate. lia.
Qed.

(** The pattern sits at its place in the window. *)
Lemma lookup_aligned p i :
  pattern_ok p → i < length (p_bytes p) → aligned p !! (pattern_at p + i) = p_bytes p !! i.
Proof.
  intros Hp Hi. pose proof (pattern_at_range p Hp). unfold aligned.
  rewrite lookup_app_r by (rewrite length_take, length_replicate; lia).
  rewrite length_take, length_replicate, Nat.min_l by lia.
  rewrite lookup_app_l by lia. f_equal. lia.
Qed.

(** The bytes outside the pattern are zero. *)
Lemma lookup_aligned_zero p i :
  pattern_ok p → i < w_len (p_window p) →
  (i < pattern_at p ∨ pattern_at p + length (p_bytes p) ≤ i) → aligned p !! i = Some x00.
Proof.
  intros Hp Hi Ho. pose proof (pattern_at_range p Hp). unfold aligned. destruct Ho.
  - rewrite lookup_app_l by (rewrite length_take, length_replicate; lia).
    rewrite lookup_take_lt, lookup_replicate_2 by lia. done.
  - rewrite !lookup_app_r by (rewrite ?length_take, ?length_replicate; lia).
    rewrite length_take, length_replicate, Nat.min_l by lia.
    rewrite lookup_drop. apply lookup_replicate_2. lia.
Qed.

(** The byte that bit [k] switches is in the pattern when [k] is below the
    count; every byte is switched by one bit or always compared. *)
Lemma position_in_pattern p k :
  pattern_ok p → k < thermometer (p_window p) →
  position (p_window p) k < w_len (p_window p) ∧
  (k < pattern_count p ↔
  pattern_at p ≤ position (p_window p) k < pattern_at p + length (p_bytes p)).
Proof.
  unfold pattern_ok, pattern_at, pattern_count, position, fixed. destruct (align _); lia.
Qed.

Lemma position_inj w k k' :
  k < thermometer w → k' < thermometer w → position w k = position w k' → k = k'.
Proof. unfold position. destruct (align w); lia. Qed.

Lemma always_compared p i :
  pattern_ok p → i < w_len (p_window p) →
  (∀ k, k < thermometer (p_window p) → position (p_window p) k ≠ i) →
  pattern_at p ≤ i < pattern_at p + length (p_bytes p).
Proof.
  unfold pattern_ok, pattern_at, position, fixed. intros Hp Hi Hk.
  destruct (align (p_window p)).
  - destruct (decide (i < w_len (p_window p) - thermometer (p_window p))); [lia|].
    destruct (Hk (i - (w_len (p_window p) - thermometer (p_window p)))); lia.
  - destruct (decide (thermometer (p_window p) ≤ i)); [lia|].
    destruct (Hk (thermometer (p_window p) - 1 - i)); lia.
Qed.
End Patterns.

(** * What the rules force *)
Section RequestRules.
Context `{Bellpepper} (σ : Assignment).

(** The public values, in their order. *)
Lemma wp_public_inputs values l na ni (Q : list Lc → nat → nat → Prop) :
  (∀ v, values = Some v → ∀ i, i ∈ l → i < length v) →
  (∀ xs na', length xs = length l →
  (∀ j x, xs !! j = Some x → lval σ x = σ (Input (ni + j))) → Q xs na' (ni + length l)) →
  wp σ (mapM (public_input values) l) na ni Q.
Proof.
  revert na ni Q. induction l as [|i l IH]; intros na ni Q Hv HQ.
  { specialize (HQ [] na). rewrite Nat.add_0_r in HQ. by apply HQ. }
  cbn [mapM]. apply wp_bind. unfold public_input at 1. apply wp_bind.
  apply (wp_gadget _ _ (λ _, True)).
  { destruct values as [v|]; [|by apply gadget_ret]. eapply gadget_bind; [apply gadget_index|].
    - apply (Hv v eq_refl). by left.
    - intros; by apply gadget_ret. }
  intros v na' _. apply wp_bind, wp_ns, num_alloc_input_wp. intros n En.
  change (wp σ (ys ← mapM (public_input values) l; mret (num n :: ys)) na' (S ni) Q).
  apply wp_bind, IH.
  { intros v' E j Hj. apply (Hv v' E). by right. }
  intros xs na'' Hl Hx. change (Q (num n :: xs) na'' (S ni + length l)).
  replace (S ni + length l) with (ni + length (i :: l)) by (simpl; lia).
  apply HQ; [simpl; lia|]. intros [|j] x; cbn [lookup list_lookup].
  - intros [= <-]. by rewrite lval_num, En, Nat.add_0_r.
  - intros Hj. rewrite (Hx _ _ Hj). f_equal. f_equal. lia.
Qed.

(** The bit that switches byte [i], when one does. *)
Definition switched (w : Window) (v : Z) (m i : nat) (x : option Lc) : Prop :=
  (∃ k b, k < m ∧ position w k = i ∧ x = Some b ∧
  denotes σ b (of_bool (Z.testbit v (Z.of_nat k)))) ∨
  ((∀ k, k < m → position w k ≠ i) ∧ x = None).

Lemma gadget_switches w v bs :
  thermometer w ≤ w_len w → bits_are (denotes σ) bs (int_bits (thermometer w) v) →
  gadget σ (switches w bs) (λ sw, length sw = w_len w ∧
  ∀ i x, sw !! i = Some x → switched w v (thermometer w) i x).
Proof.
  intros Hw HF. unfold switches. eapply gadget_mono.
  { apply (gadget_foldM _ _ _ _ (λ done sw, length sw = w_len w ∧
      ∀ i x, sw !! i = Some x → switched w v (length done) i x)).
    - split; [by rewrite length_replicate|]. intros i x [-> _]%lookup_replicate_1.
      right. split; [simpl; lia|done].
    - intros done k sw Hp [Hl Hsw]. apply prefix_snoc_lookup in Hp as [Hk _].
      unfold range in Hk. apply lookup_seq in Hk as [E Hk]. rewrite Nat.add_0_l in E. subst k.
      assert (thermometer w - 1 - length done < length bs) as Hb.
      { rewrite (Forall2_length _ _ _ HF), length_int_bits. lia. }
      destruct (lookup_lt_is_Some_2 bs _ Hb) as [b Eb].
      eapply gadget_bind; [by apply (gadget_index_nth _ _ _ b)|]. intros ? ->.
      assert (position w (length done) < w_len w) as Hpos.
      { unfold position, fixed. destruct (align w); lia. }
      eapply gadget_bind; [apply gadget_assert, Nat.ltb_lt; lia|]. intros _ _.
      apply gadget_ret. rewrite length_insert, length_app, Nat.add_1_r. split; [done|].
      intros i x [(<- & <- & _)|[N Hx]]%list_lookup_insert_Some.
      + left. exists (length done), (bit b). split_and!; [lia|done|done|].
        destruct (Forall2_lookup_l _ _ _ _ _ HF Eb) as (b' & Eb' & Hb').
        rewrite lookup_int_bits in Eb' by lia. injection Eb' as <-.
        by replace (thermometer w - 1 - (thermometer w - 1 - length done)) with (length done) in Hb' by lia.
      + destruct (Hsw _ _ Hx) as [(k & b' & Hk' & ?)|[Hn ->]].
        * left. exists k, b'. split; [lia|done].
        * right. split; [|done]. intros k Hk'. destruct (decide (k = length done)) as [->|]; [done|].
          apply Hn. lia. }
  intros sw [Hl Hsw]. split; [done|]. unfold range in Hsw. by rewrite length_seq in Hsw.
Qed.

(** The thermometer of a count. *)
Lemma thermometer_value c :
  foldl (λ sum (_ : nat), double sum + ONE)%S ZERO (range c) = of_int (2 ^ Z.of_nat c - 1).
Proof.
  unfold range. induction c as [|c IH]; [by rewrite <-of_int_0|].
  rewrite seq_S, foldl_app, IH. cbn [foldl]. rewrite double_add, <-of_int_1, <-!of_int_add.
  f_equal. rewrite Nat2Z.inj_succ, Z.pow_succ_r by lia. lia.
Qed.

Lemma thermometer_testbit c k :
  Z.testbit (2 ^ Z.of_nat c - 1) (Z.of_nat k) = bool_decide (k < c).
Proof.
  replace (2 ^ Z.of_nat c - 1)%Z with (Z.ones (Z.of_nat c)) by (rewrite Z.ones_equiv; lia).
  destruct (bool_decide_reflect (k < c)).
  - apply Z.ones_spec_low. lia.
  - apply Z.ones_spec_high. lia.
Qed.

Lemma thermometer_repr c :
  c < 256 → repr (of_int (2 ^ Z.of_nat c - 1)) = (2 ^ Z.of_nat c - 1)%Z.
Proof.
  intros Hc. rewrite repr_of_int. apply Z.mod_small.
  pose proof (lt_pow_p c Hc). assert (0 < 2 ^ Z.of_nat c)%Z by lia. lia.
Qed.

(** The credential's bytes with the pattern's place only. *)
Definition masked (p : Pattern) (cred : list byte) : list byte :=
  imap (λ i b, if bool_decide (pattern_at p ≤ i < pattern_at p + length (p_bytes p)) then b else x00) cred.

Lemma masked_slice p cred :
  pattern_ok p → length cred = w_len (p_window p) → masked p cred = aligned p →
  slice (pattern_at p) (pattern_at p + length (p_bytes p)) cred = p_bytes p.
Proof.
  intros Hp Hl E. pose proof (pattern_at_range p Hp). apply list_eq. intros i.
  destruct (decide (i < length (p_bytes p))) as [Hi|Hi].
  - rewrite lookup_slice by lia. rewrite <-lookup_aligned, <-E by done.
    unfold masked. rewrite list_lookup_imap.
    destruct (cred !! (pattern_at p + i)); simpl; [|done].
    by rewrite bool_decide_eq_true_2 by lia.
  - rewrite !lookup_ge_None_2; [done|lia|]. rewrite length_slice; lia.
Qed.

Lemma chunk_lengths_eq {A B} n (l : list A) (k : list B) j c d :
  0 < n → length l = length k → chunks n l !! j = Some c → chunks n k !! j = Some d →
  length c = length d ∧ length d ≤ n.
Proof.
  intros Hn Hl Hc Hd.
  assert (Forall2 (λ _ _, True) l k) as HF by by apply Forall2_same_length_lookup.
  pose proof (chunks_Forall2 _ n _ _ Hn HF) as HC.
  pose proof (Forall2_lookup_lr _ _ _ _ _ _ HC Hc Hd) as HCD. split; [by eapply Forall2_length|].
  clear -Hn Hd. revert j Hd. remember (length k) as m eqn:Em. revert k Em.
  induction (lt_wf m) as [m _ IH]. intros k -> j Hd. destruct k as [|x k]; [done|].
  rewrite chunks_cons in Hd by done. destruct j as [|j].
  - injection Hd as <-. rewrite length_take. lia.
  - eapply (IH (length (drop n (x :: k)))); [|done|exact Hd]. rewrite length_drop. simpl. lia.
Qed.

(** What the product of a byte and its bit is. *)
Lemma gadget_compare p v bit n b i :
  pattern_ok p → i < w_len (p_window p) → v = (2 ^ Z.of_nat (pattern_count p) - 1)%Z →
  switched (p_window p) v (thermometer (p_window p)) i bit → σ (get_variable n) = of_int (b2z b) →
  gadget σ (match bit with
        | Some bit => ns ("byte " +:+ pretty (i : nat)) (mul bit (num n))
        | None => mret (num n) end)
  (λ x, denotes σ x (of_int (b2z
   (if bool_decide (pattern_at p ≤ i < pattern_at p + length (p_bytes p)) then b else x00)))).
Proof.
  intros Hp Hi -> [(k & x & Hk & <- & -> & Hx)|[Hn ->]] Eb.
  - eapply gadget_mono; [apply gadget_ns, gadget_mul|]. intros c Hc. unfold denotes in *.
    rewrite Hc, lval_num, Eb, Hx, thermometer_testbit.
    destruct (position_in_pattern p k Hp Hk) as [_ Hiff].
    rewrite (bool_decide_ext (k < pattern_count p) _ Hiff).
    rewrite of_bool_of_int, <-of_int_mul. f_equal. destruct (bool_decide _); simpl; [lia|done].
  - apply gadget_ret. unfold denotes. rewrite lval_num, Eb. rewrite bool_decide_eq_true_2; [done|].
    by apply always_compared.
Qed.
End RequestRules.

(** * Properties *)
Section RequestProperties.
Context `{Bellpepper}.

Lemma length_pattern_values p :
  pattern_ok p → length (pattern_values p) = public_count (p_window p).
Proof.
  intros Hp. unfold pattern_values, public_count.
  rewrite length_app, length_fmap, length_chunks, length_aligned by (done || unfold LIMB; lia).
  done.
Qed.

(** The compared bytes are the credential's at the pattern's place. *)
Lemma gadget_compared (σ : Assignment) p credential cred sw :
  pattern_ok p → length cred = w_len (p_window p) → length sw = w_len (p_window p) →
  Forall2 (λ n b, σ (get_variable n) = of_int (b2z b)) credential cred →
  (∀ i x, sw !! i = Some x →
     switched σ (p_window p) (2 ^ Z.of_nat (pattern_count p) - 1) (thermometer (p_window p)) i x) →
  gadget σ (mapM (λ '(i, (byte, bit)),
      match bit : option Lc with
      | Some bit => ns ("byte " +:+ pretty (i : nat)) (mul bit (num byte))
      | None => mret (num byte)
      end) (imap (λ i x, (i, x)) (zip credential sw)))
    (λ compared, bytes_are (denotes σ) compared (masked p cred)).
Proof.
  intros Hp Hl Hsl HC Hsw. pose proof (Forall2_length _ _ _ HC) as Hlc. eapply gadget_mono.
  - apply (gadget_mapM _ _ _ (λ done ys, bytes_are (denotes σ) ys (take (length done) (masked p cred)))).
    + constructor.
    + intros done x ys Hpre HF. apply prefix_snoc_lookup in Hpre as [Hx _].
      apply lookup_imap_zip in Hx as (n & sb & -> & En & Es).
      destruct (Forall2_lookup_l _ _ _ _ _ HC En) as (b & Eb & Hn).
      assert (length done < w_len (p_window p)) as Hd by (apply lookup_lt_Some in Es; lia).
      eapply gadget_mono.
      { by apply (gadget_compare σ p (2 ^ Z.of_nat (pattern_count p) - 1) sb n b (length done)); auto. }
      intros y Hy. rewrite length_app, Nat.add_1_r.
      erewrite take_S_r by (unfold masked; rewrite list_lookup_imap, Eb; reflexivity).
      apply Forall2_app; [done|]. constructor; [exact Hy|constructor].
  - intros ys HF. rewrite take_ge in HF; [done|].
    unfold masked. rewrite !length_imap, length_zip_with. lia.
Qed.

(** Equal limbs are equal windows. *)
Lemma limbs_aligned (σ : Assignment) p cred compared limbs us :
  length (masked p cred) = length (aligned p) →
  bytes_are (denotes σ) compared (masked p cred) →
  Forall2 (denotes σ) limbs (from_be <$> chunks LIMB (aligned p)) →
  Forall2 (λ '(_, (bytes, limb)) (_ : unit), lval σ (pack_bytes bytes) = lval σ limb)
    (imap (λ l x, (l, x)) (zip (chunks LIMB compared) limbs)) us →
  masked p cred = aligned p.
Proof.
  intros Hla HF HL HU. assert (0 < LIMB) as Hlimb by (unfold LIMB; lia).
  pose proof (chunks_Forall2 _ LIMB _ _ Hlimb HF) as HFc.
  rewrite <-(concat_chunks LIMB (masked p cred)), <-(concat_chunks LIMB (aligned p)) by done.
  f_equal. apply list_eq. intros j.
  assert (length (chunks LIMB (masked p cred)) = length (chunks LIMB (aligned p))) as Hlc'.
  { rewrite !length_chunks by done. by rewrite Hla. }
  destruct (chunks LIMB (masked p cred) !! j) as [mc|] eqn:Em.
  2: { symmetry. apply lookup_ge_None. apply lookup_ge_None in Em. lia. }
  destruct (lookup_lt_is_Some_2 (chunks LIMB (aligned p)) j) as [ac Ea].
  { apply lookup_lt_Some in Em. lia. }
  rewrite Ea. f_equal.
  destruct (Forall2_lookup_r _ _ _ _ _ HFc Em) as (cc & Ecc & Hcc).
  destruct (Forall2_lookup_r _ _ _ j (from_be ac) HL) as (limb & El & Hlimb').
  { rewrite list_lookup_fmap, Ea. reflexivity. }
  assert (imap (λ l x, (l, x)) (zip (chunks LIMB compared) limbs) !! j = Some (j, (cc, limb))) as Ez.
  { rewrite list_lookup_imap, lookup_zip_with, Ecc. cbn. by rewrite El. }
  destruct (Forall2_lookup_l _ _ _ _ _ HU Ez) as (u & _ & Hu).
  assert (length mc = length ac ∧ length ac ≤ 31) as [Hmc Hac].
  { by apply (chunk_lengths_eq LIMB (masked p cred) (aligned p) j). }
  apply (pack_bytes_inj σ cc mc ac Hcc Hmc); [lia|].
  unfold denotes in *. rewrite Hu, Hlimb'. apply from_be_of_int. lia.
Qed.

(** The thermometer's bits count the pattern's bytes, not zero of a claim's. *)
Lemma gadget_nonempty (σ : Assignment) w bs c :
  (nonempty w = true → 0 < thermometer w) →
  bits_are (denotes σ) bs (int_bits (thermometer w) (2 ^ Z.of_nat c - 1)) →
  gadget σ (if nonempty w
            then lowest ← index bs (thermometer w - 1); ns "nonempty" (equal (bit lowest) (small 1))
            else mret tt) (λ _, nonempty w = true → 1 ≤ c).
Proof.
  intros Hne HB. pose proof (Forall2_length _ _ _ HB) as HlB. rewrite length_int_bits in HlB.
  destruct (nonempty w); [|by apply gadget_ret]. specialize (Hne eq_refl).
  destruct (lookup_lt_is_Some_2 bs (thermometer w - 1)) as [b Eb]; [lia|].
  destruct (Forall2_lookup_l _ _ _ _ _ HB Eb) as (v & Ev & Hb).
  rewrite lookup_int_bits in Ev by lia. injection Ev as <-.
  replace (thermometer w - 1 - (thermometer w - 1)) with 0 in Hb by lia.
  rewrite thermometer_testbit in Hb.
  eapply gadget_bind; [by apply (gadget_index_nth _ _ _ b)|]. intros ? ->.
  eapply gadget_mono; [apply gadget_ns, gadget_equal|]. intros [] E _.
  unfold denotes in Hb. rewrite Hb, lval_small, <-(of_bool_of_int true) in E by lia.
  apply of_bool_inj, bool_decide_eq_true in E. lia.
Qed.

(** The rules of [check], given the public values of a pattern. *)
Lemma wp_check (σ : Assignment) p credential cred values na ni :
  pattern_ok p → thermometer (p_window p) < 256 →
  (nonempty (p_window p) = true → 0 < thermometer (p_window p)) →
  Forall2 (λ n b, σ (get_variable n) = of_int (b2z b)) credential cred →
  length cred = w_len (p_window p) →
  (∀ v, values = Some v → public_count (p_window p) ≤ length v) →
  (∀ j v, pattern_values p !! j = Some v → σ (Input (ni + j)) = v) →
  wp σ (check (p_window p) credential values) na ni (λ _ _ ni',
    ni' = ni + public_count (p_window p) ∧
    masked p cred = aligned p ∧ (nonempty (p_window p) = true → 1 ≤ pattern_count p)).
Proof.
  intros Hp HT Hne HC Hl Hv Hpub. set (w := p_window p) in *. pose proof Hp as [Hw Hlen]. fold w in Hw, Hlen.
  pose proof (Forall2_length _ _ _ HC) as Hlc.
  set (c := pattern_count p). assert (c ≤ thermometer w) as HcT.
  { unfold c, pattern_count. fold w. unfold fixed in *. lia. }
  unfold check. apply wp_bind. apply (wp_gadget _ _ (λ _, True)).
  { apply gadget_assert, Nat.eqb_eq. lia. }
  intros _ na1 _. apply wp_bind, wp_public_inputs.
  { intros v E i [_ Hi]%elem_of_seq. specialize (Hv v E). lia. }
  unfold range. rewrite length_seq. intros inputs na2 Hli Hin.
  pose proof (length_pattern_values p Hp) as Hlv. fold w in Hlv.
  assert (Forall2 (denotes σ) inputs (pattern_values p)) as HI.
  { apply Forall2_same_length_lookup. split; [lia|]. intros j x v Hj E.
    unfold denotes. by rewrite (Hin _ _ Hj), (Hpub _ _ E). }
  unfold pattern_values in HI. apply Forall2_app_inv_r in HI as (limbs & last & HL & HT1 & ->).
  apply Forall2_cons_inv_r in HT1 as (t & l & Ht & Hnil & ->). apply Forall2_nil_inv_r in Hnil as ->.
  rewrite thermometer_value in Ht. fold c in Ht.
  rewrite length_app, Nat.add_sub, take_app_length.
  apply wp_bind. apply (wp_gadget _ _ (λ x, x = t)).
  { apply gadget_index_nth. by apply list_lookup_middle. }
  intros ? na3 ->. apply wp_bind, wp_ns.
  apply (wp_gadget _ _ (λ bs, bits_are (denotes σ) bs (int_bits (thermometer w) (2 ^ Z.of_nat c - 1)))).
  { eapply gadget_mono; [by apply gadget_bits|]. intros bs [HB _].
    unfold denotes in Ht. by rewrite Ht, thermometer_repr in HB by lia. }
  intros bs na4 HB. apply wp_bind. apply (wp_gadget _ _ _ _ _ _ (gadget_nonempty σ w bs c Hne HB)).
  intros _ na5 Hcount. apply wp_bind.
  apply (wp_gadget _ _ _ _ _ _ (gadget_switches σ w _ bs Hw HB)). intros sw na6 [Hsl Hsw].
  apply wp_bind.
  apply (wp_gadget _ _ _ _ _ _ (gadget_compared σ p credential cred sw Hp Hl Hsl HC Hsw)).
  intros compared na7 HF. apply wp_bind. eapply wp_gadget.
  { apply (gadget_mapM_Forall2 _ _ _ (λ '(_, (bytes, limb)) (_ : unit), lval σ (pack_bytes bytes) = lval σ limb)).
    intros [l' [bytes limb]] _. apply gadget_ns, gadget_equal. }
  intros us na8 HU. split; [done|]. split; [|done]. eapply limbs_aligned; [|exact HF|exact HL|exact HU].
  unfold masked. by rewrite length_imap, length_aligned.
Qed.

(** C30: The rules of [check] hold only when the credential's window holds the
    pattern that the public values name, at the end it is aligned to; for the
    name of a claim, only when the name is not empty. Nothing is asked of the
    window's other bytes. *)
Theorem check_sound (σ : Assignment) p credential cred values na ni :
  pattern_ok p → thermometer (p_window p) < 256 →
  (nonempty (p_window p) = true → 0 < thermometer (p_window p)) →
  Forall2 (λ n b, σ (get_variable n) = of_int (b2z b)) credential cred →
  length cred = w_len (p_window p) →
  (∀ v, values = Some v → public_count (p_window p) ≤ length v) →
  (∀ j v, pattern_values p !! j = Some v → σ (Input (ni + j)) = v) →
  satisfies σ (check (p_window p) credential values) na ni →
  slice (pattern_at p) (pattern_at p + length (p_bytes p)) cred = p_bytes p ∧
  (nonempty (p_window p) = true → 1 ≤ pattern_count p).
Proof.
  intros Hp HT Hne HC Hl Hv Hpub Hs.
  destruct (proj1 (wp_shape _ _ _ _ _) (wp_check σ p credential cred values na ni Hp HT Hne HC Hl Hv Hpub) Hs)
    as (_ & _ & _ & E & Hc).
  split; [|done]. by apply masked_slice.
Qed.

(** The patterns that are built name the whole value: a docType's pattern
    is its key, the CBOR head of the text and the text, it fits its window,
    and it is refused exactly when it would not fit. *)
Lemma doc_type_pattern doc_type :
  (length doc_type ≤ 38 →
  ∃ p head, pattern_doc_type doc_type = Ok p ∧ pattern_ok p ∧ text_head (length doc_type) = Ok head ∧
   p_bytes p = DOC_TYPE_KEY ++ head ++ doc_type) ∧
  (38 < length doc_type → ∃ e, pattern_doc_type doc_type = Err e).
Proof.
  assert (length DOC_TYPE_KEY = 8) as Hk by done.
  unfold pattern_doc_type. destruct (text_head (length doc_type)) as [head| |] eqn:E; cbn [mbind outcome_bind].
  - assert (concat [DOC_TYPE_KEY; head; doc_type] = DOC_TYPE_KEY ++ head ++ doc_type) as ->.
    { simpl concat. by rewrite app_nil_r. }
    assert ((length head = 1 ∧ length doc_type < 24) ∨ (length head = 2 ∧ 24 ≤ length doc_type)) as Hh.
    { unfold text_head in E. destruct (Nat.ltb_spec (length doc_type) 24); [injection E as <-; by left|].
      destruct (length doc_type <? 256); [|done]. injection E as <-. by right. }
    split.
    + intros Hl. destruct (pattern_new DOC_TYPE_WINDOW (DOC_TYPE_KEY ++ head ++ doc_type)) as [p| |] eqn:Ep.
      * apply pattern_new_ok in Ep as [-> Hp]; [|done]. by exists (mkPattern DOC_TYPE_WINDOW (DOC_TYPE_KEY ++ head ++ doc_type)), head.
      * exfalso. unfold pattern_new in Ep. revert Ep. rewrite !length_app, Hk.
        destruct (Nat.ltb_spec (w_len DOC_TYPE_WINDOW) (8 + (length head + length doc_type))) as [L|L];
          [simpl in L; lia|]. done.
      * exfalso. unfold pattern_new in Ep. repeat (destruct (_ <? _) in Ep; [done|]). done.
    + intros Hl. unfold pattern_new. rewrite (proj2 (Nat.ltb_lt _ _)); [eauto|].
      rewrite !length_app, Hk. simpl. lia.
  - split; [|eauto]. intros Hl. unfold text_head in E.
    destruct (Nat.ltb_spec (length doc_type) 24); [done|].
    destruct (Nat.ltb_spec (length doc_type) 256); [done|lia].
  - exfalso. unfold text_head in E. repeat (destruct (_ <? _) in E; [done|]). done.
Qed.
End RequestProperties.
