(* ===== verification/Calendar.v ===== *)
(** Dates and times: [Date] and [Time] of [presentation.rs], and the parsing,
    the day count and the age range of [statement.rs].

    A [&str] is its UTF-8 bytes; a [u32] is an integer of [Z]. [real] dates are
    the ones that [date] accepts: the file shows that parsing and writing are
    inverse to each other, that the numbers YYYYMMDD and YYYYMMDDhhmmss order
    dates and times, and that [days] counts days of the Gregorian calendar. *)
From Stdlib Require Import ZArith Lia Strings.String Strings.Byte.
From stdpp Require Import base list numbers option strings.
From S2P Require Import Prelude Bytes ConstraintSystem Bits.
Local Open Scope Z_scope.

(** [u64] arithmetic of release builds. *)
Definition u64 (v : Z) : Z := v mod 2 ^ 64.

(** * Dates and times *)
Record Date := mkDate { year : Z; month : Z; day : Z }.
Record Time := mkTime { time_date : Date; hour : Z; minute : Z; second : Z }.

#[export] Instance Date_eq_dec : EqDecision Date.
Proof. solve_decision. Defined.

(** [Date::digits], [Time::digits]. *)
Definition date_digits (d : Date) : Z := u64 (year d * 10000 + month d * 100 + day d).
Definition time_digits (t : Time) : Z :=
  u64 (date_digits (time_date t) * 1000000 + hour t * 10000 + minute t * 100 + second t).

(** [format!] of a [u32] with a minimal width and leading zeros; a [u32] has
    at most ten digits. *)
Definition digit_char (v : Z) : byte := z2b (48 + v).
Fixpoint decimal_digits (fuel : nat) (v : Z) : list byte :=
  match fuel with
  | O => []
  | S fuel => if v <? 10 then [digit_char v]
              else decimal_digits fuel (v / 10) ++ [digit_char (v mod 10)]
  end.
Definition format_width (width : nat) (v : Z) : list byte :=
  let text := decimal_digits 10 v in
  replicate (width - length text) "0"%byte ++ text.

(** [Date::text], [Time::text]. *)
Definition date_text (d : Date) : list byte :=
  format_width 4 (year d) ++ ["-"%byte] ++ format_width 2 (month d) ++ ["-"%byte]
    ++ format_width 2 (day d).
Definition time_text (t : Time) : list byte :=
  date_text (time_date t) ++ ["T"%byte] ++ format_width 2 (hour t) ++ [":"%byte]
    ++ format_width 2 (minute t) ++ [":"%byte] ++ format_width 2 (second t) ++ ["Z"%byte].

(** [enum TimeEncoding]. *)
Inductive TimeEncoding := Digits.
Definition time_encode (encoding : TimeEncoding) (t : Time) : Z :=
  match encoding with Digits => time_digits t end.

(** [DATE_DIGITS], [DATE_TIME_DIGITS], [NO_END]. *)
Definition DATE_DIGITS : list nat := [0; 1; 2; 3; 5; 6; 8; 9]%nat.
Definition DATE_TIME_DIGITS : list nat := [0; 1; 2; 3; 5; 6; 8; 9; 11; 12; 14; 15; 17; 18]%nat.
Definition NO_END : Z := 2 ^ 47 - 1.

(** * Parsing *)

(** The reasons of [Error::Input], with the values their texts show. *)
Inductive InputReason :=
  | WrongLength (what : string) (len expected : nat)
  | NotADate (text : list byte)
  | NotATime (text : list byte)
  | RangeTooShort (earliest cutoff : list byte) (window : Z)
  | NotAPoint
  | InvalidRequest (why : string)
  | IssuerSigned (why : string)
  | IssuerSignedTooLong (len : nat)
  | NoItem (id : list byte)
  | ProofTooLong (len : nat)
  | ProofUndecodable
  | ProofTrailing.

Definition is_digit (b : byte) : bool := (48 <=? b2z b) && (b2z b <=? 57).
Definition is_ascii (s : list byte) : bool := forallb (λ b, b2z b <? 128) s.

(** [number]: [str::parse] of digits fails only when the value is no [u32]. *)
Definition number (s : list byte) : option Z :=
  if bool_decide (s = []) || negb (forallb is_digit s) then None
  else let v := decimal_int s in if v <? 2 ^ 32 then Some v else None.

Definition days_in_month (year month : Z) : Z :=
  if bool_decide (month ∈ [1; 3; 5; 7; 8; 10; 12]) then 31
  else if bool_decide (month ∈ [4; 6; 9; 11]) then 30
  else if (year mod 4 =? 0) && (negb (year mod 100 =? 0) || (year mod 400 =? 0)) then 29
  else 28.

(** [days]; [i64::div_euclid] by 400 is [/], and [Z.quot] is the division of
    [i64]. *)
Definition days (d : Date) : Z :=
  let '(y, m, day) := (year d, month d, day d) in
  let y := if m <=? 2 then y - 1 else y in
  let era := y / 400 in
  let yoe := y - era * 400 in
  let doy := Z.quot (153 * (if 2 <? m then m - 3 else m + 9) + 2) 5 + day - 1 in
  let doe := yoe * 365 + Z.quot yoe 4 - Z.quot yoe 100 + doy in
  era * 146097 + doe - 719468.

(** [s.as_bytes()[i] == c], for an [i] in range. *)
Definition byte_at (s : list byte) (i : nat) (c : byte) : bool := bool_decide (s !! i = Some c).

Definition date (s : list byte) : outcome InputReason Date :=
  if negb (length s =? 10)%nat || negb (is_ascii s) || negb (byte_at s 4 "-"%byte)
     || negb (byte_at s 7 "-"%byte) then Err (NotADate s)
  else
    match number (slice 0 4 s), number (slice 5 7 s), number (slice 8 10 s) with
    | Some year, Some month, Some day =>
        if (1 <=? year) && ((1 <=? month) && (month <=? 12))
           && ((1 <=? day) && (day <=? days_in_month year month))
        then Ok {| year := year; month := month; day := day |}
        else Err (NotADate s)
    | _, _, _ => Err (NotADate s)
    end.

Definition time (s : list byte) : outcome InputReason Time :=
  if negb (length s =? 20)%nat || negb (is_ascii s) then Err (NotATime s)
  else if negb (byte_at s 10 "T"%byte) || negb (byte_at s 13 ":"%byte)
          || negb (byte_at s 16 ":"%byte) || negb (byte_at s 19 "Z"%byte) then Err (NotATime s)
  else
    match number (slice 11 13 s), number (slice 14 16 s), number (slice 17 19 s) with
    | Some hour, Some minute, Some second =>
        if (hour <? 24) && (minute <? 60) && (second <? 60)
        then d ← date (slice 0 10 s);
             Ok {| time_date := d; hour := hour; minute := minute; second := second |}
        else Err (NotATime s)
    | _, _, _ => Err (NotATime s)
    end.

(** * The age range *)
Definition MIN_WINDOW_DAYS : Z := 365.
Definition NO_LOWER_BOUND : list byte := bytes_of "0000-00-00".
Definition NO_UPPER_BOUND : list byte := bytes_of "9999-12-31".

Definition check_range (earliest cutoff : list byte) : outcome InputReason unit :=
  let e := negb (bool_decide (earliest = NO_LOWER_BOUND)) in
  let c := negb (bool_decide (cutoff = NO_UPPER_BOUND)) in
  earliest ← (if e then d ← date earliest; mret (Some d) else mret None);
  cutoff ← date cutoff;
  match earliest, c with
  | Some earliest, true =>
      let window := days cutoff - days earliest + 1 in
      if window <? MIN_WINDOW_DAYS
      then Err (RangeTooShort (date_text earliest) (date_text cutoff) window)
      else mret tt
  | _, _ => mret tt
  end.

(** * Decimal digits *)

(** The last [w] decimal digits of an integer. *)
Fixpoint fixed_digits (w : nat) (v : Z) : list byte :=
  match w with
  | O => []
  | S w => fixed_digits w (v / 10) ++ [digit_char (v mod 10)]
  end.

Lemma length_fixed_digits w v : length (fixed_digits w v) = w.
Proof. revert v. induction w as [|w IH]; intros v; cbn [fixed_digits]; rewrite ?length_app, ?IH; cbn; lia. Qed.

Lemma fixed_digits_zero w : fixed_digits w 0 = replicate w "0"%byte.
Proof.
  induction w as [|w IH]; [done|]. cbn [fixed_digits].
  rewrite Z.div_0_l, Z.mod_0_l, IH, <-replicate_cons_app by done. done.
Qed.

Lemma decimal_digits_fixed fuel w v :
  (0 < w ≤ fuel)%nat → 0 ≤ v < 10 ^ Z.of_nat w →
  (length (decimal_digits fuel v) ≤ w)%nat ∧
  replicate (w - length (decimal_digits fuel v)) "0"%byte ++ decimal_digits fuel v = fixed_digits w v.
Proof.
  revert w v. induction fuel as [|fuel IH]; intros [|w] v Hw Hv; [lia..|]. cbn [decimal_digits fixed_digits].
  destruct (Z.ltb_spec v 10).
  - cbn [length]. split; [lia|]. rewrite Z.div_small, Z.mod_small, fixed_digits_zero by lia.
    by replace (S w - 1)%nat with w by lia.
  - destruct w as [|w]; [cbn in Hv; lia|].
    assert (0 ≤ v / 10 < 10 ^ Z.of_nat (S w)) as Hd.
    { rewrite (Nat2Z.inj_succ (S w)), Z.pow_succ_r in Hv by lia.
      split; [apply Z.div_pos; lia|]. apply Z.div_lt_upper_bound; lia. }
    destruct (IH (S w) (v / 10) ltac:(lia) Hd) as [Hlen E]. rewrite length_app. cbn [length].
    split; [lia|]. rewrite app_assoc, <-E. f_equal. f_equal. f_equal. lia.
Qed.

Lemma format_width_fixed w v :
  (0 < w ≤ 10)%nat → 0 ≤ v < 10 ^ Z.of_nat w → format_width w v = fixed_digits w v.
Proof. intros Hw Hv. by apply (decimal_digits_fixed 10 w v). Qed.

Lemma decimal_int_snoc s b : decimal_int (s ++ [b]) = decimal_int s * 10 + (b2z b - 48).
Proof. unfold decimal_int, digits_int. by rewrite foldl_snoc. Qed.

Lemma digit_char_value v : 0 ≤ v < 10 → b2z (digit_char v) = 48 + v.
Proof. intros Hv. apply z2b_small. lia. Qed.

Lemma is_digit_range b : is_digit b = true ↔ 48 ≤ b2z b ≤ 57.
Proof. unfold is_digit. rewrite andb_true_iff, !Z.leb_le. done. Qed.

Lemma decimal_int_fixed w v : decimal_int (fixed_digits w v) = v mod 10 ^ Z.of_nat w.
Proof.
  revert v. induction w as [|w IH]; intros v; cbn [fixed_digits].
  - by rewrite Z.mod_1_r.
  - rewrite decimal_int_snoc, IH, digit_char_value by (apply Z.mod_pos_bound; lia).
    rewrite Nat2Z.inj_succ, Z.pow_succ_r, Z.rem_mul_r by lia. lia.
Qed.

Lemma fixed_digits_are_digits w v : forallb is_digit (fixed_digits w v) = true.
Proof.
  revert v. induction w as [|w IH]; intros v; [done|]. cbn [fixed_digits].
  rewrite forallb_app, IH. cbn [forallb]. rewrite andb_true_r. apply is_digit_range.
  pose proof (Z.mod_pos_bound v 10). rewrite digit_char_value by lia. lia.
Qed.

(** Digits are those of their number. *)
Lemma decimal_int_digits s :
  forallb is_digit s = true →
  s = fixed_digits (length s) (decimal_int s) ∧ 0 ≤ decimal_int s < 10 ^ Z.of_nat (length s).
Proof.
  induction s as [|b s IH] using rev_ind; [done|]. rewrite forallb_app. cbn [forallb].
  rewrite andb_true_r, andb_true_iff, is_digit_range. intros [Hs Hb].
  destruct (IH Hs) as [E Hr]. rewrite length_app, Nat.add_1_r, decimal_int_snoc.
  rewrite Nat2Z.inj_succ, Z.pow_succ_r by lia. split; [|lia]. cbn [fixed_digits].
  assert ((decimal_int s * 10 + (b2z b - 48)) / 10 = decimal_int s) as ->
    by (symmetry; apply (Z.div_unique _ _ _ (b2z b - 48)); lia).
  assert ((decimal_int s * 10 + (b2z b - 48)) mod 10 = b2z b - 48) as ->
    by (symmetry; apply (Z.mod_unique _ _ (decimal_int s)); lia).
  rewrite <-E. f_equal. f_equal. unfold digit_char. rewrite <-(z2b_b2z b) at 1. f_equal. lia.
Qed.

Lemma number_fixed w v :
  (0 < w ≤ 9)%nat → 0 ≤ v < 10 ^ Z.of_nat w → number (fixed_digits w v) = Some v.
Proof.
  intros Hw Hv. unfold number. rewrite bool_decide_eq_false_2, fixed_digits_are_digits.
  - rewrite decimal_int_fixed, Z.mod_small by done. cbn [negb orb].
    assert (10 ^ Z.of_nat w ≤ 10 ^ 9) by (apply Z.pow_le_mono_r; lia).
    by rewrite (proj2 (Z.ltb_lt _ _)) by lia.
  - intros E. apply (f_equal length) in E. rewrite length_fixed_digits in E. cbn in E. lia.
Qed.

Lemma number_Some w s v :
  length s = w → (0 < w ≤ 9)%nat → number s = Some v →
  s = fixed_digits w v ∧ 0 ≤ v < 10 ^ Z.of_nat w.
Proof.
  intros Hl Hw. unfold number. destruct (bool_decide _ || _) eqn:E; [done|].
  apply orb_false_iff in E as [_ E]. apply negb_false_iff in E.
  destruct (decimal_int s <? 2 ^ 32); [|done]. intros [= <-].
  rewrite <-Hl. by apply decimal_int_digits.
Qed.

(** * Parsing and writing *)

(** The dates of the calendar, in the years 1 to 9999. *)
Definition real (d : Date) : Prop :=
  1 ≤ year d ≤ 9999 ∧ 1 ≤ month d ≤ 12 ∧ 1 ≤ day d ≤ days_in_month (year d) (month d).
Definition real_time (t : Time) : Prop :=
  real (time_date t) ∧ 0 ≤ hour t < 24 ∧ 0 ≤ minute t < 60 ∧ 0 ≤ second t < 60.

Lemma days_in_month_range y m : 28 ≤ days_in_month y m ≤ 31.
Proof. unfold days_in_month. repeat case_bool_decide; repeat case_match; lia. Qed.

Lemma date_text_fixed d :
  real d → date_text d = fixed_digits 4 (year d) ++ ["-"%byte] ++ fixed_digits 2 (month d)
                          ++ ["-"%byte] ++ fixed_digits 2 (day d).
Proof.
  intros (Hy & Hm & Hd). pose proof (days_in_month_range (year d) (month d)).
  unfold date_text. by rewrite !format_width_fixed by (cbn; lia).
Qed.

Lemma time_text_fixed t :
  real_time t → time_text t = date_text (time_date t) ++ ["T"%byte] ++ fixed_digits 2 (hour t)
    ++ [":"%byte] ++ fixed_digits 2 (minute t) ++ [":"%byte] ++ fixed_digits 2 (second t) ++ ["Z"%byte].
Proof. intros (_ & Hh & Hm & Hs). unfold time_text. by rewrite !format_width_fixed by (cbn; lia). Qed.

Lemma digits_ascii s : forallb is_digit s = true → is_ascii s = true.
Proof.
  unfold is_ascii. rewrite !forallb_forall. intros Hs b Hb. specialize (Hs b Hb).
  apply is_digit_range in Hs. apply Z.ltb_lt. lia.
Qed.

Lemma fixed_digits_ascii w v : is_ascii (fixed_digits w v) = true.
Proof. apply digits_ascii, fixed_digits_are_digits. Qed.

(** A list of a known length, as its elements. *)
Ltac elements l :=
  repeat (destruct l as [|? l]; [discriminate|]); destruct l; [|discriminate].

Lemma date_fields a b c :
  length a = 4%nat → length b = 2%nat → length c = 2%nat →
  let s := a ++ ["-"%byte] ++ b ++ ["-"%byte] ++ c in
  length s = 10%nat ∧ byte_at s 4 "-"%byte = true ∧ byte_at s 7 "-"%byte = true ∧
  slice 0 4 s = a ∧ slice 5 7 s = b ∧ slice 8 10 s = c.
Proof. intros Ha Hb Hc. elements a. elements b. elements c. by split_and!. Qed.

Lemma date_fields_inv s :
  length s = 10%nat → byte_at s 4 "-"%byte = true → byte_at s 7 "-"%byte = true →
  s = slice 0 4 s ++ ["-"%byte] ++ slice 5 7 s ++ ["-"%byte] ++ slice 8 10 s.
Proof.
  intros Hs H4%bool_decide_eq_true_1 H7%bool_decide_eq_true_1. elements s.
  cbn in H4, H7. by simplify_eq.
Qed.

Lemma is_ascii_app s t : is_ascii (s ++ t) = is_ascii s && is_ascii t.
Proof. apply forallb_app. Qed.

Lemma date_iff s d : date s = Ok d ↔ real d ∧ s = date_text d.
Proof.
  unfold date. split.
  - destruct (negb _ || _ || _ || _) eqn:E; [done|].
    repeat apply orb_false_iff in E as [E ?]. apply negb_false_iff in E.
    repeat match goal with H : negb _ = false |- _ => apply negb_false_iff in H end.
    apply Nat.eqb_eq in E.
    destruct (number (slice 0 4 s)) as [y|] eqn:Ey; [|done].
    destruct (number (slice 5 7 s)) as [m|] eqn:Em; [|done].
    destruct (number (slice 8 10 s)) as [dy|] eqn:Ed; [|done].
    destruct (_ && _ && _) eqn:Er; [|done]. intros [= <-].
    rewrite !andb_true_iff, !Z.leb_le in Er.
    apply (number_Some 4) in Ey as [Ey ?]; [|rewrite length_slice; lia|lia].
    apply (number_Some 2) in Em as [Em ?]; [|rewrite length_slice; lia|lia].
    apply (number_Some 2) in Ed as [Ed ?]; [|rewrite length_slice; lia|lia].
    assert (real {| year := y; month := m; day := dy |}) as Hr.
    { unfold real. cbn in *. lia. }
    split; [done|]. rewrite (date_text_fixed _ Hr). cbn [year month day].
    rewrite <-Ey, <-Em, <-Ed. by apply date_fields_inv.
  - intros [Hr ->]. rewrite date_text_fixed by done. destruct d as [y m dy]. cbn [year month day].
    destruct (date_fields (fixed_digits 4 y) (fixed_digits 2 m) (fixed_digits 2 dy))
      as (-> & -> & -> & -> & -> & ->); [by rewrite length_fixed_digits..|].
    rewrite !is_ascii_app, !fixed_digits_ascii. cbn [negb orb andb is_ascii forallb Nat.eqb].
    unfold real in Hr. cbn [year month day] in Hr. destruct Hr as (Hy & Hm & Hd).
    pose proof (days_in_month_range y m).
    rewrite !number_fixed by (cbn; lia). rewrite !(proj2 (Z.leb_le _ _)) by lia. done.
Qed.

Lemma time_fields a b c d :
  length a = 10%nat → length b = 2%nat → length c = 2%nat → length d = 2%nat →
  let s := a ++ ["T"%byte] ++ b ++ [":"%byte] ++ c ++ [":"%byte] ++ d ++ ["Z"%byte] in
  length s = 20%nat ∧ byte_at s 10 "T"%byte = true ∧ byte_at s 13 ":"%byte = true ∧
  byte_at s 16 ":"%byte = true ∧ byte_at s 19 "Z"%byte = true ∧
  slice 0 10 s = a ∧ slice 11 13 s = b ∧ slice 14 16 s = c ∧ slice 17 19 s = d.
Proof. intros Ha Hb Hc Hd. elements a. elements b. elements c. elements d. by split_and!. Qed.

Lemma time_fields_inv s :
  length s = 20%nat → byte_at s 10 "T"%byte = true → byte_at s 13 ":"%byte = true →
  byte_at s 16 ":"%byte = true → byte_at s 19 "Z"%byte = true →
  s = slice 0 10 s ++ ["T"%byte] ++ slice 11 13 s ++ [":"%byte] ++ slice 14 16 s
        ++ [":"%byte] ++ slice 17 19 s ++ ["Z"%byte].
Proof.
  intros Hs H1%bool_decide_eq_true_1 H2%bool_decide_eq_true_1 H3%bool_decide_eq_true_1
    H4%bool_decide_eq_true_1. elements s. cbn in H1, H2, H3, H4. by simplify_eq.
Qed.

Lemma date_text_ascii d : real d → length (date_text d) = 10%nat ∧ is_ascii (date_text d) = true.
Proof.
  intros Hr. rewrite date_text_fixed, !is_ascii_app, !fixed_digits_ascii by done.
  by rewrite !length_app, !length_fixed_digits.
Qed.

Lemma time_iff s t : time s = Ok t ↔ real_time t ∧ s = time_text t.
Proof.
  unfold time. split.
  - destruct (negb _ || _) eqn:E; [done|]. apply orb_false_iff in E as [E1 E2].
    destruct (negb _ || _ || _ || _) eqn:E; [done|].
    repeat apply orb_false_iff in E as [E ?].
    repeat match goal with H : negb _ = false |- _ => apply negb_false_iff in H end.
    apply Nat.eqb_eq in E1.
    destruct (number (slice 11 13 s)) as [h|] eqn:Eh; [|done].
    destruct (number (slice 14 16 s)) as [m|] eqn:Em; [|done].
    destruct (number (slice 17 19 s)) as [sec|] eqn:Es; [|done].
    destruct (_ && _ && _) eqn:Er; [|done]. intros (d & Ed & [= <-])%outcome_bind_ok.
    rewrite !andb_true_iff, !Z.ltb_lt in Er. apply date_iff in Ed as [Hr Ed].
    apply (number_Some 2) in Eh as [Eh ?]; [|rewrite length_slice; lia|lia].
    apply (number_Some 2) in Em as [Em ?]; [|rewrite length_slice; lia|lia].
    apply (number_Some 2) in Es as [Es ?]; [|rewrite length_slice; lia|lia].
    assert (real_time {| time_date := d; hour := h; minute := m; second := sec |}) as Ht.
    { unfold real_time. cbn. split; [done|lia]. }
    split; [done|]. rewrite (time_text_fixed _ Ht). cbn [time_date hour minute second].
    rewrite <-Ed, <-Eh, <-Em, <-Es. by apply time_fields_inv.
  - intros [Ht ->]. rewrite time_text_fixed by done. destruct t as [d h m sec].
    destruct Ht as (Hr & Hh & Hm & Hs). cbn [time_date hour minute second] in *.
    destruct (date_text_ascii d Hr) as [Hl Ha].
    destruct (time_fields (date_text d) (fixed_digits 2 h) (fixed_digits 2 m) (fixed_digits 2 sec))
      as (-> & -> & -> & -> & -> & -> & -> & -> & ->); [done|by rewrite length_fixed_digits..|].
    rewrite !is_ascii_app, !fixed_digits_ascii, Ha. cbn [negb orb andb is_ascii forallb Nat.eqb].
    rewrite !number_fixed by (cbn; lia). rewrite (proj2 (Z.ltb_lt h 24)), (proj2 (Z.ltb_lt m 60)), (proj2 (Z.ltb_lt sec 60)) by lia. cbn [andb].
    rewrite (proj2 (date_iff _ _) (conj Hr eq_refl)). done.
Qed.

(** * Order *)

(** Dates and times in the order of the calendar. *)
Definition date_before (d e : Date) : Prop :=
  year d < year e ∨ year d = year e ∧ (month d < month e ∨ month d = month e ∧ day d < day e).
Definition seconds (t : Time) : Z := hour t * 3600 + minute t * 60 + second t.
Definition time_before (t u : Time) : Prop :=
  date_before (time_date t) (time_date u) ∨ time_date t = time_date u ∧ seconds t < seconds u.

Lemma real_bounds d : real d → 1 ≤ year d ≤ 9999 ∧ 1 ≤ month d ≤ 12 ∧ 1 ≤ day d ≤ 31.
Proof. intros (? & ? & ?). pose proof (days_in_month_range (year d) (month d)). lia. Qed.

Lemma date_digits_real d :
  real d → date_digits d = year d * 10000 + month d * 100 + day d ∧ 0 ≤ date_digits d < 10 ^ 8.
Proof.
  intros Hd%real_bounds. unfold date_digits, u64. rewrite Z.mod_small by lia. lia.
Qed.

Lemma time_digits_real t :
  real_time t →
  time_digits t = date_digits (time_date t) * 1000000 + hour t * 10000 + minute t * 100 + second t
  ∧ 0 ≤ time_digits t < 10 ^ 14.
Proof.
  intros (Hd & Hh & Hm & Hs). apply date_digits_real in Hd as [_ Hd].
  unfold time_digits, u64. rewrite Z.mod_small by lia. lia.
Qed.

Lemma date_digits_before d e : real d → real e → date_digits d < date_digits e ↔ date_before d e.
Proof.
  intros Hd He. destruct (date_digits_real d Hd) as [-> _], (date_digits_real e He) as [-> _].
  apply real_bounds in Hd, He. unfold date_before. lia.
Qed.

Lemma time_digits_before t u : real_time t → real_time u → time_digits t < time_digits u ↔ time_before t u.
Proof.
  intros Ht Hu. destruct (time_digits_real t Ht) as [-> _], (time_digits_real u Hu) as [-> _].
  destruct Ht as (Hd & Ht), Hu as (He & Hu). unfold time_before, seconds.
  pose proof (date_digits_before _ _ Hd He) as Hb.
  assert (date_digits (time_date t) = date_digits (time_date u) ↔ time_date t = time_date u) as Heq.
  { split; [|by intros ->]. destruct (date_digits_real _ Hd) as [-> _], (date_digits_real _ He) as [-> _].
    apply real_bounds in Hd, He. destruct (time_date t), (time_date u); cbn in *. intros E. f_equal; lia. }
  rewrite <-Hb, <-Heq. lia.
Qed.

(** * The day count *)

(** The day after, by the lengths of the months. *)
Definition next_day (d : Date) : Date :=
  if day d <? days_in_month (year d) (month d)
  then {| year := year d; month := month d; day := day d + 1 |}
  else if month d <? 12 then {| year := year d; month := month d + 1; day := 1 |}
  else {| year := year d + 1; month := 1; day := 1 |}.

(** The days before March of a year, since March of the year 0. *)
Definition march_days (y : Z) : Z := y * 365 + y / 4 - y / 100 + y / 400.

Lemma march_days_era y :
  y / 400 * 146097 + ((y - y / 400 * 400) * 365 + Z.quot (y - y / 400 * 400) 4
     - Z.quot (y - y / 400 * 400) 100) = march_days y.
Proof.
  unfold march_days. pose proof (Z.mod_pos_bound y 400 ltac:(lia)).
  rewrite Z.mod_eq in H by lia. rewrite !Z.quot_div_nonneg by lia.
  Z.to_euclidean_division_equations. lia.
Qed.

Lemma days_march d :
  days d = march_days (if month d <=? 2 then year d - 1 else year d)
    + Z.quot (153 * (if 2 <? month d then month d - 3 else month d + 9) + 2) 5 + day d - 719469.
Proof.
  unfold days. rewrite <-march_days_era. set (y := if month d <=? 2 then _ else _).
  cbv zeta. lia.
Qed.

Lemma march_days_succ y :
  march_days y = march_days (y - 1) + 337 + days_in_month y 2.
Proof.
  change (days_in_month y 2) with
    (if (y mod 4 =? 0) && (negb (y mod 100 =? 0) || (y mod 400 =? 0)) then 29 else 28).
  unfold march_days. destruct (Z.eqb_spec (y mod 4) 0), (Z.eqb_spec (y mod 100) 0), (Z.eqb_spec (y mod 400) 0);
    cbn [negb andb orb]; Z.to_euclidean_division_equations; lia.
Qed.

(** Computes the comparisons and the lengths of given months. *)
Ltac evaluate_months :=
  repeat match goal with
  | |- context [?a <=? ?b] => let v := eval vm_compute in (a <=? b) in change (a <=? b) with v
  | |- context [?a <? ?b] => let v := eval vm_compute in (a <? b) in change (a <? b) with v
  | |- context [days_in_month ?y ?m] =>
      let v := eval cbv in (days_in_month y m) in change (days_in_month y m) with v
  | |- context [Z.quot ?a ?b] => let v := eval vm_compute in (Z.quot a b) in change (Z.quot a b) with v
  end; cbv iota.

(** One more day is one more. *)
Lemma days_next d : 1 ≤ month d ≤ 12 → 1 ≤ day d ≤ days_in_month (year d) (month d) →
  days (next_day d) = days d + 1.
Proof.
  intros Hm Hd. rewrite !days_march. unfold next_day.
  destruct (Z.ltb_spec (day d) (days_in_month (year d) (month d))) as [L|L]; [cbn [year month day]; lia|].
  assert (day d = days_in_month (year d) (month d)) as -> by lia.
  destruct (Z.ltb_spec (month d) 12) as [L'|L']; cbn [year month day].
  - assert (1 ≤ month d ≤ 11) as Hr by lia. revert Hr. generalize (month d) (year d). clear.
    intros m y Hr. assert (days_in_month y 2 = march_days y - march_days (y - 1) - 337) as Hfeb
      by (pose proof (march_days_succ y); lia).
    assert (m = 1 ∨ m = 2 ∨ m = 3 ∨ m = 4 ∨ m = 5 ∨ m = 6 ∨ m = 7 ∨ m = 8 ∨ m = 9 ∨ m = 10 ∨ m = 11)
      as [->|[->|[->|[->|[->|[->|[->|[->|[->|[->| ->]]]]]]]]]] by lia;
      [|rewrite Hfeb|..]; evaluate_months; lia.
  - assert (month d = 12) as -> by lia. evaluate_months.
    replace (year d + 1 - 1) with (year d) by lia. lia.
Qed.

Lemma next_day_before d e :
  real d → real e → date_before d e →
  real (next_day d) ∧ (next_day d = e ∨ date_before (next_day d) e) ∧
  date_digits d < date_digits (next_day d).
Proof.
  intros Hd He Hb.
  assert (real (next_day d) ∧ (next_day d = e ∨ date_before (next_day d) e) ∧
    date_before d (next_day d)) as (Hr & Hn & Hlt).
  { pose proof (real_bounds _ He) as Be. destruct Hd as (Hy & Hm & Hd), He as (Hy' & Hm' & Hd').
    unfold next_day, date_before, real in *. destruct d as [y m x], e as [y' m' x'].
    cbn [year month day] in *. pose proof (days_in_month_range y m).
    destruct (Z.ltb_spec x (days_in_month y m)); [|destruct (Z.ltb_spec m 12)]; cbn [year month day].
    - split; [lia|]. split; [|lia].
      destruct (decide (y' = y ∧ m' = m ∧ x' = x + 1)) as [(-> & -> & ->)|]; [by left|right; lia].
    - pose proof (days_in_month_range y (m + 1)). split; [lia|]. split; [|lia].
      destruct (decide (y' = y ∧ m' = m + 1 ∧ x' = 1)) as [(-> & -> & ->)|]; [by left|right].
      destruct (decide (y' = y ∧ m' = m)) as [[-> ->]|]; lia.
    - assert (y < y') by (destruct (decide (y' = y ∧ m' = m)) as [[-> ->]|]; lia).
      change (days_in_month (y + 1) 1) with 31. split; [lia|]. split; [|lia].
      destruct (decide (y' = y + 1 ∧ m' = 1 ∧ x' = 1)) as [(-> & -> & ->)|]; [by left|right; lia]. }
  split_and!; [done..|]. by apply date_digits_before.
Qed.

Lemma days_iter n : ∀ d e,
  real d → real e → d = e ∨ date_before d e → (Z.to_nat (date_digits e - date_digits d) ≤ n)%nat →
  ∃ k : nat, days e = days d + Z.of_nat k ∧ Nat.iter k next_day d = e.
Proof.
  induction n as [|n IH]; intros d e Hd He [->|Hb] Hn; try (exists 0%nat; split; [lia|done]).
  - apply date_digits_before in Hb; [lia|done..].
  - destruct (next_day_before d e Hd He Hb) as (Hr & Hn' & Hlt).
    destruct (IH (next_day d) e Hr He Hn') as (k & Ek & Ei); [lia|].
    exists (S k). rewrite Nat.iter_succ_r. split; [|done].
    destruct Hd as (_ & Hm & Hd). rewrite Ek, days_next by done. lia.
Qed.

(** The day count is the number of days from one date to another. *)
Lemma days_between d e :
  real d → real e → d = e ∨ date_before d e →
  0 ≤ days e - days d ∧ Nat.iter (Z.to_nat (days e - days d)) next_day d = e.
Proof.
  intros Hd He Hb. destruct (days_iter _ d e Hd He Hb (Nat.le_refl _)) as (k & Ek & Ei).
  split; [lia|]. by replace (Z.to_nat (days e - days d)) with k by lia.
Qed.

Lemma date_total d e : d = e ∨ date_before d e ∨ date_before e d.
Proof.
  unfold date_before. destruct d as [y m x], e as [y' m' x']. cbn [year month day].
  destruct (decide (y = y' ∧ m = m' ∧ x = x')) as [(-> & -> & ->)|]; [by left|right; lia].
Qed.

(** Every date of a month is one more day than the date before. *)
Definition in_month (d : Date) : Prop :=
  1 ≤ month d ≤ 12 ∧ 1 ≤ day d ≤ days_in_month (year d) (month d).

Lemma next_in_month d : in_month d → in_month (next_day d).
Proof.
  unfold in_month, next_day. intros [Hm Hd].
  destruct (Z.ltb_spec (day d) (days_in_month (year d) (month d))); [|destruct (Z.ltb_spec (month d) 12)];
    cbn [year month day]; [lia| |].
  - pose proof (days_in_month_range (year d) (month d + 1)). lia.
  - change (days_in_month (year d + 1) 1) with 31. lia.
Qed.

Lemma days_iter_next n d : in_month d →
  in_month (Nat.iter n next_day d) ∧ days (Nat.iter n next_day d) = days d + Z.of_nat n.
Proof.
  intros Hd. induction n as [|n [IH E]]; [split; [done|cbn; lia]|].
  change (Nat.iter (S n) next_day d) with (next_day (Nat.iter n next_day d)).
  split; [by apply next_in_month|]. destruct IH. rewrite days_next by done. lia.
Qed.

(** * Properties *)

(** C35: [date] and [time] accept exactly the texts YYYY-MM-DD and
    YYYY-MM-DDThh:mm:ssZ of the calendar's dates and times, and read the date
    and the time that writes the text. *)
Theorem parse_iff :
  (∀ s d, date s = Ok d ↔ real d ∧ s = date_text d) ∧
  (∀ s t, time s = Ok t ↔ real_time t ∧ s = time_text t).
Proof. split; [apply date_iff|apply time_iff]. Qed.

(** The numbers YYYYMMDD and YYYYMMDDhhmmss that the rules compare order
    dates and times as the calendar does, and fit the 27 and the 47 bits of the
    rules' range checks; the latter are below [NO_END]. *)
Theorem digits_order :
  (∀ d e, real d → real e → date_digits d < date_digits e ↔ date_before d e) ∧
  (∀ t u, real_time t → real_time u → time_digits t < time_digits u ↔ time_before t u) ∧
  (∀ d, real d → 0 ≤ date_digits d < 2 ^ 27) ∧
  (∀ t, real_time t → 0 ≤ time_digits t < NO_END).
Proof.
  split_and!; [apply date_digits_before|apply time_digits_before|..].
  - intros d Hd. destruct (date_digits_real d Hd) as [_ ?]. lia.
  - intros t Ht. destruct (time_digits_real t Ht) as [_ ?]. unfold NO_END. lia.
Qed.

(** An age range is accepted exactly when its bounds are dates, or the
    marks of an absent bound, and the cutoff is at least 364 days of the
    calendar after the earliest date when neither is absent; the range then
    has 365 days or more. *)
Theorem check_range_spec earliest cutoff :
  check_range earliest cutoff = Ok tt ↔
  ∃ c, date cutoff = Ok c ∧
    (earliest = NO_LOWER_BOUND ∨ ∃ e, date earliest = Ok e ∧
       (cutoff = NO_UPPER_BOUND ∨ ∃ n : nat, 364 ≤ Z.of_nat n ∧ Nat.iter n next_day e = c)).
Proof.
  unfold check_range.
  destruct (bool_decide_reflect (earliest = NO_LOWER_BOUND)) as [E|E]; cbn [negb mbind outcome_bind mret outcome_ret].
  - split.
    + intros (c & Ec & _)%outcome_bind_ok. exists c. auto.
    + intros (c & -> & _). done.
  - split.
    + intros (o & (e & Ee & [= <-])%outcome_bind_ok & (c & Ec & R)%outcome_bind_ok)%outcome_bind_ok.
      exists c. split; [done|]. right. exists e. split; [done|].
      case_bool_decide as E'; [by left|]. right. cbn [negb] in R.
      destruct (Z.ltb_spec (days c - days e + 1) MIN_WINDOW_DAYS) as [|L]; [done|].
      unfold MIN_WINDOW_DAYS in L. apply date_iff in Ee as [Hre _], Ec as [Hrc _].
      destruct (date_total e c) as [->|[Hb|Hb]]; [lia| |].
      * destruct (days_between e c Hre Hrc (or_intror Hb)) as [_ Ei].
        exists (Z.to_nat (days c - days e)). split; [lia|done].
      * destruct (days_between c e Hrc Hre (or_intror Hb)) as [? _]. lia.
    + intros (c & Ec & [->|(e & Ee & Hw)]); [done|]. rewrite Ee, Ec. cbn [mbind outcome_bind mret outcome_ret].
      case_bool_decide as E'; [done|]. cbn [negb]. destruct Hw as [->|(n & Hn & Ei)]; [done|].
      apply date_iff in Ee as [(_ & Hre) _]. destruct (days_iter_next n e Hre) as [_ Ed].
      rewrite Ei in Ed. rewrite (proj2 (Z.ltb_ge _ _)); [done|]. unfold MIN_WINDOW_DAYS. lia.
Qed.
