(* ===== verification/Presentation.v ===== *)
(** [presentation.rs]: the values the verifier names, the facts a core circuit
    reads from the credential, and the rules of one presentation.  [Calendar]
    has its dates and times. *)
From Stdlib Require Import ZArith Lia Strings.String Strings.Byte.
From Stdlib Require Import Field_tac Ring.
From stdpp Require Import base list numbers option strings pretty.
From S2P Require Import Prelude Bytes Field ConstraintSystem Shape CheckSystem Bellpepper Lc Values Bits Select Sha256 Table Curve P256 Request Calendar.

#[export] Instance Align_eq_dec : EqDecision Align.
Proof. solve_decision. Defined.
#[export] Instance Window_eq_dec : EqDecision Window.
Proof. solve_decision. Defined.

(** [struct Public]. *)
Record Public := mkPublic {
  issuer_key : PublicKey;
  born_from : option Date;
  born_by : Date;
  now : Time;
  challenge : list byte;
  request : Request;
}.

Definition BASE_VALUES : nat := 7.

(** [struct Presentation]. *)
Record Presentation := mkPresentation { public : Public; device_signature : Signature }.

Section Presentation.
Context `{Bellpepper}.

(** [Public::values]. *)
Definition public_values (times : TimeEncoding) (p : Public) : list Scalar :=
  [from_be (key_x (issuer_key p)); from_be (key_y (issuer_key p));
   from_u64 (match born_from p with None => 0%Z | Some d => date_digits d end);
   from_u64 (date_digits (born_by p)); from_u64 (time_encode times (now p));
   from_be (take 16 (challenge p)); from_be (drop 16 (challenge p))]
  ++ request_values (request p).

(** [struct Facts]; the two windows are a pair. *)
Record Facts := mkFacts {
  f_issuer_key : Point;
  birth_date : Lc;
  valid_from : Lc;
  valid_until : Lc;
  device_key : Point;
  f_windows : list AllocatedNum * list AllocatedNum;
}.

(** [Facts::into_slots], [window_slots]. *)
Definition into_slots (f : Facts) : Synth (list AllocatedNum) :=
  slots ← mapM (λ '(name, fact), ns name (to_num fact))
    [("issuer key x"%string, px (f_issuer_key f)); ("issuer key y"%string, py (f_issuer_key f));
     ("birth date"%string, birth_date f); ("valid from"%string, valid_from f);
     ("valid until"%string, valid_until f); ("device key x"%string, px (device_key f));
     ("device key y"%string, py (device_key f))];
  mret (slots ++ (f_windows f).1 ++ (f_windows f).2).
Definition window_slots (bytes : list Lc) : Synth (list AllocatedNum) :=
  mapM (λ '(i, byte), ns ("byte " +:+ pretty (i : nat)) (to_num byte)) (imap (λ i x, (i, x)) bytes).

Definition public_names : list string :=
  ["issuer key x"; "issuer key y"; "born from"; "born by"; "now"; "challenge high"; "challenge low"]%string.

(** One public value as a sum. *)
Definition named_input (values : option (list Scalar)) (i : nat) (name : string) : Synth Lc :=
  value ← match values with
          | None => mret None
          | Some v => x ← index v i; mret (Some x)
          end;
  input ← ns ("public " +:+ name) (AllocatedNum_alloc_input (known value));
  mret (num input).

(** [check]. *)
Definition check (c : Constants) (facts : list AllocatedNum) (presentation : option Presentation)
    (times : TimeEncoding) (windows : Window * Window) : Synth unit :=
  let '(w0, w1) := windows in
  if match presentation with
     | Some p => negb (bool_decide (Request.windows (request (public p)) = [w0; w1]))
     | None => false
     end then Fail' Unsatisfiable else
  let values := public_values times ∘ public <$> presentation in
  public ← mapM (λ '(i, name), named_input values i name) (imap (λ i x, (i, x)) public_names);
  if negb (length facts =? BASE_VALUES + w_len w0 + w_len w1)%nat then Fail' AssignmentMissing else
  let bytes := drop BASE_VALUES facts in
  match num <$> take BASE_VALUES facts, public with
  | [issuer_x; issuer_y; birth_date; valid_from; valid_until; device_x; device_y],
    [public_x; public_y; born_from; born_by; now; challenge_high; challenge_low] =>
      let type_values := take (public_count w0) ∘ drop BASE_VALUES <$> values in
      let attribute_values := drop (public_count w0) ∘ drop BASE_VALUES <$> values in
      ns "type" (Request.check w0 (take (w_len w0) bytes) type_values) ;;
      ns "attribute" (Request.check w1 (drop (w_len w0) bytes) attribute_values) ;;
      ns "same issuer key x" (equal issuer_x public_x) ;;
      ns "same issuer key y" (equal issuer_y public_y) ;;
      ns "born from the earliest date" (range_check (sub_lc birth_date born_from) 27) ;;
      ns "born by the cutoff" (range_check (sub_lc born_by birth_date) 27) ;;
      ns "validity started" (range_check (sub_lc now valid_from) 47) ;;
      ns "not expired" (range_check (sub_lc (sub_lc valid_until now) (small 1)) 47) ;;
      bits ← ns "challenge bits" (digest_bits (challenge_high, challenge_low));
      ns "device signature" (P256.verify c bits {| px := device_x; py := device_y |}
                               (device_signature <$> presentation))
  | _, _ => Panic' "a core circuit reads seven facts"
  end.
End Presentation.

(** * What the rules force *)
Section PresentationRules.
Context `{Bellpepper} (σ : Assignment).

(** A patterned window of the credential. *)
Definition holds_pattern (p : Pattern) (cred : list byte) : Prop :=
  slice (pattern_at p) (pattern_at p + length (p_bytes p)) cred = p_bytes p ∧
  (nonempty (p_window p) = true → 1 ≤ pattern_count p).

(** The patterns are those that [Pattern::new] builds. *)
Definition request_ok (r : Request) : Prop :=
  ∀ p, p = credential_type r ∨ p = request_attribute r →
  pattern_ok p ∧ thermometer (p_window p) < 256 ∧
  (nonempty (p_window p) = true → 0 < thermometer (p_window p)).

Lemma length_public_values times p :
  request_ok (request p) →
  length (public_values times p)
  = BASE_VALUES + public_count (p_window (credential_type (request p)))
    + public_count (p_window (request_attribute (request p))).
Proof.
  intros Hr. unfold public_values, request_values. rewrite !length_app.
  rewrite !length_pattern_values by (apply Hr; auto). done.
Qed.

Lemma wp_named_inputs values l i na ni (Q : list Lc → nat → nat → Prop) :
  (∀ v, values = Some v → i + length l ≤ length v) →
  (∀ xs na', length xs = length l →
     (∀ j x, xs !! j = Some x → lval σ x = σ (Input (ni + j))) → Q xs na' (ni + length l)) →
  wp σ (mapM (λ '(i, name), named_input values i name) (imap (λ j x, (i + j, x)) l)) na ni Q.
Proof.
  revert i na ni Q. induction l as [|name l IH]; intros i na ni Q Hv HQ.
  - cbn [imap mapM]. specialize (HQ [] na eq_refl). rewrite Nat.add_0_r in HQ. apply HQ. intros j x E. done.
  - rewrite imap_cons. cbn [mapM]. apply wp_bind. unfold named_input at 1. apply wp_bind.
    apply (wp_gadget _ _ (λ _, True)).
    { destruct values as [v|]; [|by apply gadget_ret].
      eapply gadget_bind; [|intros ? ?; by apply gadget_ret].
      apply gadget_index. specialize (Hv v eq_refl). cbn in Hv. lia. }
    intros value na1 _. apply wp_bind, wp_ns, num_alloc_input_wp. intros n En.
    cbn [wp mret synth_mret]. apply wp_bind.
    assert (imap ((λ j (x : string), (i + j, x)) ∘ S) l = imap (λ j x, (S i + j, x)) l) as ->.
    { apply imap_ext. intros j x _. cbn. f_equal. lia. }
    apply IH.
    { intros v E. specialize (Hv v E). cbn in Hv. lia. }
    intros xs na2 Hl Hx. cbn [wp mret synth_mret].
    replace (S ni + length l) with (ni + length (name :: l)) by (cbn; lia).
    apply HQ; [cbn; lia|]. intros [|j] x; cbn [lookup list_lookup].
    + intros [= <-]. rewrite Nat.add_0_r. unfold lval, num. cbn [lc]. unfold eval.
      rewrite lc_from_variable_eval. by rewrite En.
    + intros E. rewrite (Hx _ _ E). do 2 f_equal. lia.
Qed.

(** A difference below 2^n is not negative. *)
Lemma difference_range (a b : Z) n :
  (Z.abs (a - b) < 2 ^ 200)%Z → n < 200 → (repr (of_int a - of_int b)%S < 2 ^ Z.of_nat n)%Z →
  (b ≤ a)%Z.
Proof.
  intros Ha Hn. rewrite <-of_int_sub, repr_of_int. intros Hr.
  assert (2 ^ Z.of_nat n < 2 ^ 200)%Z by (apply Z.pow_lt_mono_r; lia).
  assert (2 ^ 201 < p)%Z by by vm_compute.
  destruct (Z.le_gt_cases b a) as [|L]; [done|].
  rewrite <-(Z.mod_add _ 1) in Hr by (pose proof p_pos; lia). rewrite Z.mod_small in Hr by lia. lia.
Qed.

(** The slots of the facts, and what they hold. *)
Record credential := {
  cr_issuer : Affine;
  cr_birth : Z;
  cr_from : Z;
  cr_until : Z;
  cr_device : Affine;
  cr_type : list byte;
  cr_attribute : list byte;
}.
Definition facts_hold (facts : list AllocatedNum) (cr : credential) : Prop :=
  ∃ ix iy bd vf vu dx dy tn an, facts = [ix; iy; bd; vf; vu; dx; dy] ++ tn ++ an ∧
    pt (denotes σ) {| px := num ix; py := num iy |} (cr_issuer cr) ∧
    denotes σ (num bd) (of_int (cr_birth cr)) ∧ denotes σ (num vf) (of_int (cr_from cr)) ∧
    denotes σ (num vu) (of_int (cr_until cr)) ∧
    pt (denotes σ) {| px := num dx; py := num dy |} (cr_device cr) ∧
    Forall2 (λ n b, σ (get_variable n) = of_int (b2z b)) tn (cr_type cr) ∧
    Forall2 (λ n b, σ (get_variable n) = of_int (b2z b)) an (cr_attribute cr).

(** What the verifier accepts: the statement of one presentation. *)
Record accepted (c : Constants) (p : Public) (cr : credential) : Prop := {
  acc_type : holds_pattern (credential_type (request p)) (cr_type cr);
  acc_attribute : holds_pattern (request_attribute (request p)) (cr_attribute cr);
  acc_issuer : cr_issuer cr = {| ax := from_be (key_x (issuer_key p)); ay := from_be (key_y (issuer_key p)) |};
  acc_from : ∀ d, born_from p = Some d → (date_digits d ≤ cr_birth cr)%Z;
  acc_by : (cr_birth cr ≤ date_digits (born_by p))%Z;
  acc_valid : (cr_from cr ≤ time_digits (now p) < cr_until cr)%Z;
  acc_device : on_curve (of_int b256) (cr_device cr) → ∃ r s, accepts c (be_bits (challenge p)) r s (cr_device cr);
}.

(** Well-formed values, of the verifier and of the credential's facts; the
    numbers that ten and twenty bytes write are well below 2^64. *)
Definition public_ok (p : Public) : Prop :=
  request_ok (request p) ∧ length (challenge p) = 32 ∧ real (born_by p) ∧ real_time (now p) ∧
  (∀ d, born_from p = Some d → real d).
Definition credential_ok (p : Public) (cr : credential) : Prop :=
  (Z.abs (cr_birth cr) < 2 ^ 64)%Z ∧ (Z.abs (cr_from cr) < 2 ^ 64)%Z ∧ (Z.abs (cr_until cr) < 2 ^ 64)%Z ∧
  length (cr_type cr) = w_len (p_window (credential_type (request p))) ∧
  length (cr_attribute cr) = w_len (p_window (request_attribute (request p))).
Definition presentation_ok (w : Window * Window) (presentation : option Presentation) : Prop :=
  ∀ pr, presentation = Some pr →
    Request.windows (request (public pr)) = [w.1; w.2] ∧ request_ok (request (public pr)) ∧
    length (sig_r (device_signature pr)) = 32 ∧ length (s_inv (device_signature pr)) = 32.

(** The validity and age rules, on the verifier's values. *)
Lemma from_u64_digits (v : Z) : (0 ≤ v < 2 ^ 47)%Z → from_u64 v = of_int v.
Proof. intros Hv. apply from_u64_of_int. lia. Qed.

Lemma gadget_at_most x y a b n :
  denotes σ x (of_int a) → denotes σ y (of_int b) → (Z.abs (a - b) < 2 ^ 200)%Z → n < 200 →
  gadget σ (range_check (sub_lc x y) n) (λ _, (b ≤ a)%Z).
Proof.
  intros Hx Hy Hab Hn. eapply gadget_mono; [apply gadget_range_check; lia|]. intros ? Hr.
  rewrite lval_sub in Hr. unfold denotes in Hx, Hy. rewrite Hx, Hy in Hr.
  by eapply difference_range.
Qed.

Lemma challenge_bits ch :
  length ch = 32 →
  int_bits 128 (repr (from_be (take 16 ch))) ++ int_bits 128 (repr (from_be (drop 16 ch))) = be_bits ch.
Proof.
  intros Hl.
  assert (∀ l, length l = 16 → int_bits 128 (repr (from_be l)) = be_bits l) as Hh.
  { intros l Hl'. rewrite from_be_of_int, repr_of_int by lia. pose proof (be_int_range l) as Hr.
    rewrite Hl' in Hr. change (256 ^ Z.of_nat 16)%Z with (2 ^ 128)%Z in Hr.
    assert (2 ^ 128 < p)%Z by by vm_compute. rewrite Z.mod_small by lia.
    rewrite be_bits_byte_bits. apply bits_int_inj.
    - by rewrite length_int_bits, length_bind_byte_bits, Hl'.
    - rewrite bits_int_int_bits, bits_int_bind_byte_bits. apply Z.mod_small. lia. }
  rewrite !Hh by (rewrite ?length_take, ?length_drop; lia).
  unfold be_bits. by rewrite <-bind_app, take_drop.
Qed.

(** The rules that follow the request's, on the facts and the public values. *)
Lemma check_rules c pr p cr bits_in ix iy bd vf vu dx dy pk px' b0 b1 nw ch cl :
  constants_on_curve c → 0 < length (c_windows c) ≤ 128 →
  public_ok p → credential_ok p cr →
  (∀ s, pr = Some s → length (sig_r s) = 32 ∧ length (s_inv s) = 32) →
  pt (denotes σ) {| px := num ix; py := num iy |} (cr_issuer cr) →
  denotes σ (num bd) (of_int (cr_birth cr)) → denotes σ (num vf) (of_int (cr_from cr)) →
  denotes σ (num vu) (of_int (cr_until cr)) →
  pt (denotes σ) {| px := num dx; py := num dy |} (cr_device cr) →
  Forall2 (denotes σ) [pk; px'; b0; b1; nw; ch; cl] (take 7 (public_values Digits p)) →
  bits_in = (ch, cl) →
  gadget σ (
    ns "same issuer key x" (equal (num ix) pk) ;;
    ns "same issuer key y" (equal (num iy) px') ;;
    ns "born from the earliest date" (range_check (sub_lc (num bd) b0) 27) ;;
    ns "born by the cutoff" (range_check (sub_lc b1 (num bd)) 27) ;;
    ns "validity started" (range_check (sub_lc nw (num vf)) 47) ;;
    ns "not expired" (range_check (sub_lc (sub_lc (num vu) nw) (small 1)) 47) ;;
    bits ← ns "challenge bits" (digest_bits bits_in);
    ns "device signature" (P256.verify c bits {| px := num dx; py := num dy |} pr))
    (λ _, cr_issuer cr = {| ax := from_be (key_x (issuer_key p)); ay := from_be (key_y (issuer_key p)) |} ∧
      (∀ d, born_from p = Some d → (date_digits d ≤ cr_birth cr)%Z) ∧
      (cr_birth cr ≤ date_digits (born_by p))%Z ∧
      (cr_from cr ≤ time_digits (now p) < cr_until cr)%Z ∧
      (on_curve (of_int b256) (cr_device cr) → ∃ r s, accepts c (be_bits (challenge p)) r s (cr_device cr))).
Proof.
  intros Hc Hw (Hrq & Hch & Hby & Hnow & Hfrom) (Hb & Hf & Hu & _ & _) Hsig [Hix Hiy] Hbd Hvf Hvu Hd Hpub ->.
  destruct (date_digits_real _ Hby) as [_ Rby], (time_digits_real _ Hnow) as [_ Rnow].
  unfold NO_END in *.
  set (lo := match born_from p with None => 0%Z | Some d => date_digits d end).
  assert (0 ≤ lo < 10 ^ 8)%Z as Rlo.
  { unfold lo. destruct (born_from p) as [d|]; [|lia]. by apply date_digits_real, Hfrom. }
  cbn [take public_values app] in Hpub.
  repeat match goal with H : Forall2 _ (_ :: _) (_ :: _) |- _ => apply Forall2_cons_1 in H as [? H] end.
  rename select (denotes σ pk _) into Hpx. rename select (denotes σ px' _) into Hpy.
  rename select (denotes σ b0 _) into Hb0. rename select (denotes σ b1 _) into Hb1.
  rename select (denotes σ nw _) into Hnw. rename select (denotes σ ch _) into Hh.
  rename select (denotes σ cl _) into Hl.
  fold lo in Hb0. cbn [time_encode] in Hnw. rewrite from_u64_digits in Hb0, Hb1, Hnw by lia.
  step gadget_equal as ? Ex. step gadget_equal as ? Ey.
  eapply gadget_bind; [apply gadget_ns, (gadget_at_most _ _ (cr_birth cr) lo); done || lia|]. intros ? Hlo.
  eapply gadget_bind; [apply gadget_ns, (gadget_at_most _ _ (date_digits (born_by p)) (cr_birth cr)); done || lia|].
  intros ? Hhi.
  eapply gadget_bind; [apply gadget_ns, (gadget_at_most _ _ (time_digits (now p)) (cr_from cr)); done || lia|].
  intros ? Hstart.
  eapply gadget_bind; [apply gadget_ns, (gadget_at_most _ _ (cr_until cr - time_digits (now p)) 1); try (done || lia)|].
  { unfold denotes in *. by rewrite lval_sub, Hvu, Hnw, of_int_sub. }
  { unfold denotes. apply lval_small. lia. }
  intros ? Hend.
  eapply gadget_bind; [apply gadget_ns, gadget_digest_bits|]. intros bs (Hbs & _ & _).
  unfold denotes in Hh, Hl. rewrite Hh, Hl, challenge_bits in Hbs by done.
  eapply gadget_mono; [apply gadget_ns, (gadget_verify σ c bs (be_bits (challenge p)) _ (cr_device cr)); try done|].
  { by apply length_be_bits. }
  intros [] Hv. cbv beta in Hlo, Hhi, Hstart, Hend. split_and!; [|..|done]; [| |lia|lia|lia].
  - unfold denotes in *. destruct (cr_issuer cr) as [x y]. cbn [px py ax ay] in *. f_equal; congruence.
  - intros d E. unfold lo in Hlo. by rewrite E in Hlo.
Qed.
End PresentationRules.

(** * Properties *)
Section PresentationProperties.
Context `{Bellpepper}.

(** The rules of [check], and the public values that they read. *)
Lemma wp_check_facts (σ : Assignment) c facts presentation p cr na ni :
  constants_on_curve c → 0 < length (c_windows c) ≤ 128 →
  public_ok p → credential_ok p cr → facts_hold σ facts cr →
  let w := (p_window (credential_type (request p)), p_window (request_attribute (request p))) in
  presentation_ok w presentation →
  (∀ j v, public_values Digits p !! j = Some v → σ (Input (ni + j)) = v) →
  wp σ (check c facts presentation Digits w) na ni (λ _ _ ni',
    ni' = ni + length (public_values Digits p) ∧ accepted c p cr).
Proof.
  intros Hc Hw Hp Hcr Hfacts w Hpr Hpub. pose proof Hp as (Hrq & _).
  destruct (Hrq _ (or_introl eq_refl)) as (Ht & HtT & Htn), (Hrq _ (or_intror eq_refl)) as (Ha & HaT & Han).
  destruct Hfacts as (ix & iy & bd & vf & vu & dx & dy & tn & an & -> & Hi & Hbd & Hvf & Hvu & Hd & HT & HA).
  pose proof Hcr as (_ & _ & _ & Hlt & Hla).
  pose proof (Forall2_length _ _ _ HT) as HlT. pose proof (Forall2_length _ _ _ HA) as HlA.
  pose proof (length_public_values Digits p Hrq) as Hlp.
  set (w0 := p_window (credential_type (request p))) in *.
  set (w1 := p_window (request_attribute (request p))) in *. subst w. unfold presentation_ok in Hpr.
  cbn [fst snd] in Hpr.
  assert (∀ v, public_values Digits ∘ public <$> presentation = Some v →
    length v = BASE_VALUES + public_count w0 + public_count w1) as Hlv.
  { intros v Ev. destruct presentation as [pr|]; [|done]. injection Ev as <-.
    destruct (Hpr pr eq_refl) as (Ew & Hr & _). injection Ew as E1 E2.
    unfold compose. by rewrite length_public_values, E1, E2. }
  unfold check.
  assert (match presentation with
          | Some p => negb (bool_decide (Request.windows (request (public p)) = [w0; w1]))
          | None => false end = false) as ->.
  { destruct presentation as [pr|]; [|done]. apply negb_false_iff, bool_decide_eq_true_2, (Hpr pr eq_refl). }
  apply wp_bind, (wp_named_inputs σ _ _ 0).
  { intros v Ev. rewrite (Hlv v Ev). cbn. lia. }
  intros xs na1 Hlx Hxs. cbn [length public_names] in Hlx.
  assert (Forall2 (denotes σ) xs (take 7 (public_values Digits p))) as HF.
  { apply Forall2_same_length_lookup. split; [by rewrite length_take, Hlp, Hlx|]. intros j x v Hj Ev.
    apply lookup_take_Some in Ev as [Ev _]. unfold denotes. by rewrite (Hxs _ _ Hj), (Hpub _ _ Ev). }
  assert (length ([ix; iy; bd; vf; vu; dx; dy] ++ tn ++ an) = BASE_VALUES + w_len w0 + w_len w1) as Hlf.
  { rewrite !length_app. cbn [length]. unfold BASE_VALUES. lia. }
  rewrite (proj2 (Nat.eqb_eq _ _) Hlf). cbn [negb]. elements xs.
  change (take BASE_VALUES ([ix; iy; bd; vf; vu; dx; dy] ++ tn ++ an)) with [ix; iy; bd; vf; vu; dx; dy].
  change (drop BASE_VALUES ([ix; iy; bd; vf; vu; dx; dy] ++ tn ++ an)) with (tn ++ an).
  cbn [fmap list_fmap].
  assert (take (w_len w0) (tn ++ an) = tn ∧ drop (w_len w0) (tn ++ an) = an) as [-> ->].
  { rewrite <-Hlt, <-HlT. by rewrite take_app_length, drop_app_length. }
  apply wp_bind, wp_ns. eapply wp_mono.
  { apply (wp_check σ (credential_type (request p)) tn (cr_type cr)); try done.
    - intros v Ev. destruct (_ <$> presentation) as [v'|]; [|done]. injection Ev as <-.
      rewrite length_take, length_drop, (Hlv _ eq_refl). fold w0. lia.
    - intros j v Ev. replace (ni + length public_names + j) with (ni + (7 + j)) by (cbn; lia). apply Hpub.
      unfold public_values. rewrite lookup_app_r by (cbn; lia). cbn [length Nat.sub].
      replace (7 + j - 7) with j by lia. unfold request_values. by apply lookup_app_l_Some. }
  intros [] na2 ni2 (-> & Et & Hnt). apply wp_bind, wp_ns. eapply wp_mono.
  { apply (wp_check σ (request_attribute (request p)) an (cr_attribute cr)); try done.
    - intros v Ev. destruct (_ <$> presentation) as [v'|]; [|done]. injection Ev as <-.
      rewrite !length_drop, (Hlv _ eq_refl). fold w1. lia.
    - intros j v Ev. fold w0.
      replace (ni + length public_names + public_count w0 + j) with (ni + (7 + (public_count w0 + j))) by (cbn; lia).
      apply Hpub. unfold public_values. rewrite lookup_app_r by (cbn; lia). cbn [length Nat.sub].
      replace (7 + (public_count w0 + j) - 7) with (public_count w0 + j) by lia. unfold request_values.
      rewrite lookup_app_r; rewrite length_pattern_values by done; fold w0; [|lia].
      by replace (public_count w0 + j - public_count w0) with j by lia. }
  intros [] na3 ni3 (-> & Ea & Hna). eapply wp_gadget.
  { eapply (check_rules σ c _ p cr _ ix iy bd vf vu dx dy); try done.
    intros s Es. destruct presentation as [pr|]; [|done]. injection Es as <-. apply (Hpr pr eq_refl). }
  intros [] na4 (Ei & Hfrom & Hby & Hvalid & Hdev). split; [rewrite Hlp; fold w0 w1; unfold BASE_VALUES; cbn [length public_names] in *; lia|]. split; try done.
  - split; [by apply masked_slice|done].
  - split; [by apply masked_slice|done].
Qed.

(** C1: Whoever assigns the slots, if the rules of [check] hold and the public
    values are those the verifier names, then the credential's facts satisfy
    the verifier's statement: its type and attribute have the named patterns,
    the issuer's key is the named one, the birth date is in the named range,
    the credential is valid at the named time, and the device's key, if it is
    a point of the curve, signed the challenge. *)
Theorem presentation_sound (σ : Assignment) c facts presentation p cr na ni :
  constants_on_curve c → 0 < length (c_windows c) ≤ 128 →
  public_ok p → credential_ok p cr → facts_hold σ facts cr →
  let w := (p_window (credential_type (request p)), p_window (request_attribute (request p))) in
  presentation_ok w presentation →
  (∀ j v, public_values Digits p !! j = Some v → σ (Input (ni + j)) = v) →
  wp σ (check c facts presentation Digits w) na ni (λ _ _ _, accepted c p cr).
Proof.
  intros Hc Hw Hp Hcr Hf w Hpr Hpub. eapply wp_mono; [by eapply wp_check_facts|]. by intros ??? [_ ?].
Qed.
End PresentationProperties.
