(* ===== verification/Pseudonym.v ===== *)
(** [pseudonym.rs]: the pseudonym SHA-256(DST ‖ seed ‖ 0³² ‖ verifier_input),
    its messages and public values, and the rules that read them at their fixed
    positions in the table. *)
From Stdlib Require Import ZArith Lia Strings.String Strings.Byte.
From Stdlib Require Import Field_tac Ring.
From stdpp Require Import base list numbers option strings pretty.
From S2P Require Import Prelude Bytes Field ConstraintSystem Shape CheckSystem Bellpepper Lc Values Bits Select Sha256 Table Window P256 Request Calendar Presentation.

Definition FUNCTION : list byte := bytes_of "pseudonym-v1-sha256".
Definition CONFIG : list byte := bytes_of "known-offender-matching-ssc".
Definition DST : list byte := bytes_of "nym_auth/v1/known-offender-matching-ssc".
Definition PROVER_INPUT : list byte := replicate 32 x00.
Definition SEED_BYTES : nat := 16.
Definition SSC_BYTES : nat := 32.
Definition MDOC_IDENTIFIER : list byte := x71 :: bytes_of "elementIdentifier" ++ x63 :: bytes_of "ssc".
Definition MDOC_VALUE : list byte := x6c :: bytes_of "elementValue" ++ [x58; x20].
Definition VALUES : nat := 5.

(** [message]. *)
Definition message (seed verifier_input : list byte) : list byte :=
  concat [DST; seed; PROVER_INPUT; verifier_input].

(** [struct NymMessages] and [struct NymPublic]. *)
Record NymMessages := mkNymMessages {
  nm_ssc : list byte;
  secret_seed : list byte;
  nm_verifier_input : list byte;
}.
Record NymPublic := mkNymPublic { verifier_input : list byte; np_pseudonym : list byte }.

(** [NymMessages::table_messages]. *)
Definition table_messages (m : NymMessages) (regions : PseudonymRegions) : list (Region * list byte) :=
  [(ssc regions, nm_ssc m); (Table.seed regions, secret_seed m);
   (nym regions, message (secret_seed m) (nm_verifier_input m))].

Section Pseudonym.
Context `{Bellpepper} `{Sha2}.

(** [pseudonym]. *)
Definition pseudonym (seed verifier_input : list byte) : list byte :=
  sha256 (message seed verifier_input).

(** [NymPublic::verifier_values], [NymPublic::values]. *)
Definition verifier_values (verifier_input : list byte) : list Scalar :=
  [from_be (take 9 verifier_input); from_be (slice 9 25 verifier_input);
   from_be (drop 25 verifier_input)].
Definition nym_values (n : NymPublic) : list Scalar :=
  verifier_values (verifier_input n)
  ++ [from_be (take 16 (np_pseudonym n)); from_be (drop 16 (np_pseudonym n))].

(** [pseudonym_of]. *)
Definition pseudonym_of (values : list Scalar) : option (list byte) :=
  match reverse values with
  | low :: high :: _ =>
      let high := to_be high in
      let low := to_be low in
      if existsb (λ b, negb (bool_decide (b = x00))) (take 16 high ++ take 16 low) then None
      else Some (drop 16 high ++ drop 16 low)
  | _ => None
  end.

Definition two_72 : Scalar := square (from_u64 (2 ^ 36)).
Definition constant_bytes (bytes : list byte) : Lc := constant (from_be bytes).
Definition last_chunk_padding : Scalar := from_be (x80 :: be_bytes 8 (8 * 119)).

(** The padding of a seed's message, after its first chunk. *)
Definition seed_padding : list (list byte) :=
  [x80 :: replicate 15 x00; replicate 16 x00; replicate 15 x00 ++ [x80]].

(** [seed_and_nym]; an array of two sums is a pair. *)
Definition seed_and_nym (cells : Cells) (regions : PseudonymRegions) : Synth ((Lc * Lc) * list Lc) :=
  let chunk j c := cells_chunk cells (CHUNKS_PER_BLOCK * j + c) in
  let s := first (Table.seed regions) in
  seed ← chunk s 0;
  mapM (λ '(c, bytes),
    x ← chunk s (c + 1);
    ns ("seed padding " +:+ pretty (c + 1)) (equal x (constant_bytes bytes)))
    (imap (λ c bytes, (c, bytes)) seed_padding) ;;
  high_half ← cells_state cells s 0;
  low_half ← cells_state cells s 1;
  let n := first (nym regions) in
  x0 ← chunk n 0;
  ns "pseudonym dst 0" (equal x0 (constant_bytes (take 16 DST))) ;;
  x1 ← chunk n 1;
  ns "pseudonym dst 1" (equal x1 (constant_bytes (slice 16 32 DST))) ;;
  let low := (λ v, small_bits (be_int (drop 25 (to_be v))) 56) <$> value seed in
  low_bits ← ns "seed low bytes" (alloc_bits low 56);
  let low := pack low_bits in
  x3 ← chunk n 3;
  ns "pseudonym seed low" (equal x3 (scale low two_72)) ;;
  let high := scale (sub_lc seed low) (inverse (from_u64 (2 ^ 56))) in
  let dst_end := constant (from_be (drop 32 DST) * two_72)%S in
  x2 ← chunk n 2;
  ns "pseudonym seed high" (equal x2 (add_lc dst_end high)) ;;
  x4 ← chunk (n + 1) 0;
  ns "pseudonym prover input" (equal x4 lc_of_zero) ;;
  x5 ← chunk (n + 1) 1;
  x6 ← chunk (n + 1) 2;
  x7 ← chunk (n + 1) 3;
  h0 ← cells_state cells (n + 1) 0;
  h1 ← cells_state cells (n + 1) 1;
  mret ((high_half, low_half), [x5; x6; x7; h0; h1]).

Definition nym_names : list string :=
  ["verifier input high"; "verifier input middle"; "verifier input low";
   "pseudonym high"; "pseudonym low"]%string.

(** [into_slots]. *)
Definition nym_slots (facts : list Lc) : Synth (list AllocatedNum) :=
  mapM (λ '(name, fact), ns name (to_num fact)) (zip nym_names facts).

(** [commitment_and_slots]. *)
Definition commitment_and_slots (cells : Cells) (regions : PseudonymRegions) (ssc : Lc * Lc)
    : Synth (list AllocatedNum) :=
  '(seed_digest, facts) ← ns "seed and pseudonym" (seed_and_nym cells regions);
  mapM (λ '(h, (seed_half, ssc_half)),
    ns ("seed digest half " +:+ pretty (h : nat) +:+ " is ssc") (equal seed_half ssc_half))
    [(0, (seed_digest.1, ssc.1)); (1, (seed_digest.2, ssc.2))] ;;
  ns "facts" (nym_slots facts).

(** [check]. *)
Definition check (facts : list AllocatedNum) (n : option NymPublic) : Synth unit :=
  let values := nym_values <$> n in
  public ← mapM (λ '(i, name), named_input values i name) (imap (λ i x, (i, x)) nym_names);
  if negb (length facts =? VALUES)%nat then Fail' AssignmentMissing else
  match public with
  | [p0; p1; p2; p3; p4] =>
      let padded := add_lc (scale p2 two_72) (constant last_chunk_padding) in
      mapM (λ '(name, (fact, expected)), ns name (equal (num fact) expected))
        (zip nym_names (zip facts [p0; p1; padded; p3; p4])) ;;
      mret tt
  | _ => Panic' "index out of bounds"
  end.
End Pseudonym.

(** * The blocks of the messages *)
Section Blocks.
Context `{Bellpepper} `{Sha2}.

Lemma pad_seed seed : length seed = 16 → pad seed = seed ++ concat seed_padding.
Proof.
  intros Hl. rewrite pad_fips. unfold fips_pad. rewrite Hl. reflexivity.
Qed.

Lemma length_message seed vi : length seed = 16 → length vi = 32 → length (message seed vi) = 119.
Proof. intros Hs Hv. unfold message. cbn [concat]. rewrite !length_app, Hs, Hv. reflexivity. Qed.

(** The pseudonym's message fills two blocks. *)
Lemma pad_message seed vi :
  length seed = 16 → length vi = 32 →
  pad (message seed vi) = (take 16 DST ++ slice 16 32 DST ++ (drop 32 DST ++ take 9 seed)
      ++ (drop 9 seed ++ replicate 9 x00))
    ++ (replicate 16 x00 ++ (replicate 7 x00 ++ take 9 vi) ++ slice 9 25 vi
      ++ (drop 25 vi ++ x80 :: be_bytes 8 (8 * 119))).
Proof.
  intros Hs Hv. rewrite pad_fips. unfold fips_pad. rewrite length_message by done.
  unfold message. cbn [concat]. elements seed. elements vi. reflexivity.
Qed.
End Blocks.

(** * The split of the seed *)
Section Split.
Context `{ScalarField}.
Add Field scalar_field : scalar_field_theory (morphism of_int_morph, constants [scalar_const]).
Local Open Scope Z_scope.

Lemma of_int_inj_small a b : Z.abs a < 2 ^ 200 → Z.abs b < 2 ^ 200 → of_int a = of_int b → a = b.
Proof.
  intros Ha Hb E%of_int_inj_mod. assert (2 ^ 201 < p) by by vm_compute.
  assert ((a - b) mod p = 0) as E0.
  { rewrite Zminus_mod, E, Z.sub_diag. done. }
  apply Z.mod_divide in E0; [|pose proof p_pos; lia]. destruct E0 as [k Ek].
  assert (k = 0) by nia. lia.
Qed.

Lemma two_72_of_int : two_72 = of_int (2 ^ 72).
Proof. unfold two_72. rewrite square_mul, from_u64_of_int, <-of_int_mul by done. done. Qed.

(** The chunk that ends DST and starts the seed fixes the split. *)
Lemma seed_split (f2 : Scalar) dst sv low :
  0 ≤ dst < 2 ^ 56 → 0 ≤ sv < 2 ^ 128 → 0 ≤ low < 2 ^ 56 → repr f2 < 2 ^ 128 →
  f2 = (of_int dst * two_72 + (of_int sv - of_int low) * inverse (from_u64 (2 ^ 56)))%S →
  low = sv mod 2 ^ 56 ∧ repr f2 = dst * 2 ^ 72 + sv / 2 ^ 56.
Proof.
  intros Hd Hs Hl Hf E. pose proof (repr_range f2) as [Hf0 _].
  rewrite two_72_of_int, from_u64_of_int in E by done.
  assert (of_int (2 ^ 56) ≠ ZERO) as N by (apply of_int_nonzero; split; [lia|by vm_compute]).
  assert (of_int ((repr f2 - dst * 2 ^ 72) * 2 ^ 56) = of_int (sv - low)) as Ei.
  { rewrite of_int_mul, !of_int_sub, of_int_mul, of_int_repr, E. rewrite inverse_sc_inv. field. done. }
  apply of_int_inj_small in Ei; [|lia..].
  assert (sv = (repr f2 - dst * 2 ^ 72) * 2 ^ 56 + low) as Ev by lia.
  assert (low = sv mod 2 ^ 56) as El by (apply (Z.mod_unique _ _ (repr f2 - dst * 2 ^ 72)); lia).
  split; [done|].
  assert (repr f2 - dst * 2 ^ 72 = sv / 2 ^ 56) by (apply (Z.div_unique _ _ _ low); lia). lia.
Qed.

(** Bytes of integers, most significant first. *)
Lemma be_bytes_app n m hi lo :
  0 ≤ lo < 256 ^ Z.of_nat m → be_bytes (n + m) (hi * 256 ^ Z.of_nat m + lo) = be_bytes n hi ++ be_bytes m lo.
Proof.
  intros Hlo. apply be_int_inj; [by rewrite length_app, !length_be_bytes|].
  rewrite be_int_app, !be_int_be_bytes, length_be_bytes, (Z.mod_small lo) by done.
  rewrite Nat2Z.inj_add, Z.pow_add_r by lia.
  set (M := 256 ^ Z.of_nat m) in *. assert (0 < M) by (unfold M; lia).
  rewrite (Z.mul_comm (256 ^ Z.of_nat n)), Z.rem_mul_r by lia.
  assert ((hi * M + lo) mod M = lo) as -> by (symmetry; apply (Z.mod_unique _ _ hi); lia).
  assert ((hi * M + lo) / M = hi) as -> by (symmetry; apply (Z.div_unique _ _ _ lo); lia). lia.
Qed.
End Split.

(** * What the rules force *)
Section PseudonymRules.
Context `{Bellpepper} `{Sha2} (σ : Assignment).
Local Abbreviation D := (denotes σ).

Lemma gadget_chunk cells f c : holds_chunks D cells f → gadget σ (cells_chunk cells c) (λ x, D x (f c)).
Proof. intros Hf. destruct (Hf c) as (x & -> & Hx). by apply gadget_ret. Qed.

Lemma gadget_state cells g j h :
  holds_states D cells g → j < POSITIONS → h < 2 → gadget σ (cells_state cells j h) (λ x, D x (g j h)).
Proof. intros Hg Hj Hh. destruct (Hg j h Hj Hh) as (x & -> & Hx). by apply gadget_ret. Qed.

Lemma chunk_constant (f : nat → Scalar) c bytes :
  length bytes = 16 → f c = from_be bytes → chunk_bytes f c = bytes.
Proof.
  intros Hl E. unfold chunk_bytes. rewrite E, from_be_of_int, repr_of_int by lia.
  pose proof (be_int_range bytes) as Hr. rewrite Hl in Hr.
  assert (256 ^ Z.of_nat 16 < p)%Z by by vm_compute.
  rewrite Z.mod_small by lia. by apply be_bytes_be_int.
Qed.

Lemma equal_constant x (v : Scalar) bytes :
  D x v → gadget σ (equal x (constant_bytes bytes)) (λ _, v = from_be bytes).
Proof.
  intros Hx. eapply gadget_mono; [apply gadget_equal|]. intros [] E.
  unfold denotes in Hx. unfold constant_bytes in E. rewrite lval_constant in E. congruence.
Qed.

Lemma gadget_seed_padding cells (f : nat → Scalar) s :
  holds_chunks D cells f →
  gadget σ (mapM (λ '(c, bytes),
      x ← cells_chunk cells (CHUNKS_PER_BLOCK * s + (c + 1));
      ns ("seed padding " +:+ pretty (c + 1)%nat) (equal x (constant_bytes bytes)))
    (imap (λ c bytes, (c, bytes)) seed_padding))
    (λ _, chunk_bytes f (4 * s + 1) ++ chunk_bytes f (4 * s + 2) ++ chunk_bytes f (4 * s + 3)
          = concat seed_padding).
Proof.
  intros Hf. eapply gadget_mono.
  - apply (gadget_mapM_Forall2 _ _ _ (λ '(c, bytes) _, f (4 * s + (c + 1)) = from_be bytes)).
    intros [c bytes] _. eapply gadget_bind; [by apply gadget_chunk|]. intros x Hx.
    by apply gadget_ns, equal_constant.
  - intros l HF. cbn [imap seed_padding] in HF.
    repeat match goal with H : Forall2 _ (_ :: _) _ |- _ => apply Forall2_cons_inv_l in H as (? & ? & ? & H & ->) end.
    cbn [Nat.add compose] in *. cbn [concat seed_padding]. rewrite app_nil_r.
    f_equal; [|f_equal]; by apply chunk_constant.
Qed.

(** The blocks that the rules leave to the presentation. *)
Record nym_facts := {
  nf_seed : list byte;
  nf_digest : Scalar * Scalar;
  nf_facts : list Scalar;
}.

(** The seed's block is the padded seed; the pseudonym's first block is the
    message's first 64 bytes, with that seed; the second starts with the rest
    of prover_input. *)
Definition nym_blocks (f : nat → Scalar) (regions : PseudonymRegions) (seed : list byte) : Prop :=
  let s := first (Table.seed regions) in
  let n := first (nym regions) in
  length seed = 16 ∧ block_bytes f s = pad seed ∧
  block_bytes f n = DST ++ seed ++ replicate 9 x00 ∧
  chunk_bytes f (4 * (n + 1)) = replicate 16 x00.

Lemma chunk_split (f : nat → Scalar) c n m hi lo :
  n + m = 16 → (0 ≤ lo < 256 ^ Z.of_nat m)%Z → repr (f c) = (hi * 256 ^ Z.of_nat m + lo)%Z →
  chunk_bytes f c = be_bytes n hi ++ be_bytes m lo.
Proof. intros Hn Hlo E. unfold chunk_bytes. rewrite E, <-Hn. by apply be_bytes_app. Qed.

Lemma nym_blocks_intro (f : nat → Scalar) regions low :
  let s := first (Table.seed regions) in
  let n := first (nym regions) in
  (∀ c, repr (f c) < 2 ^ 128)%Z → (0 ≤ low < 2 ^ 56)%Z →
  chunk_bytes f (4 * s + 1) ++ chunk_bytes f (4 * s + 2) ++ chunk_bytes f (4 * s + 3) = concat seed_padding →
  f (4 * n) = from_be (take 16 DST) → f (4 * n + 1) = from_be (slice 16 32 DST) →
  f (4 * n + 2) = (from_be (drop 32 DST) * two_72 + (f (4 * s)%nat - of_int low) * inverse (from_u64 (2 ^ 56)))%S →
  f (4 * n + 3) = (of_int low * two_72)%S → f (4 * (n + 1)) = ZERO →
  nym_blocks f regions (chunk_bytes f (4 * s)).
Proof.
  intros s n Hf Hl Hpad E0 E1 E2 E3 E4. set (S0 := f (4 * s)) in *. set (sv := repr S0).
  assert (0 ≤ sv < 2 ^ 128)%Z as Hsv by (split; [apply repr_range|apply Hf]).
  rewrite <-(of_int_repr S0), from_be_of_int in E2 by (cbn; lia). fold sv in E2.
  destruct (seed_split (f (4 * n + 2)) (be_int (drop 32 DST)) sv low) as [El Ef]; [by vm_compute|done..|].
  assert (0 ≤ sv / 2 ^ 56 < 2 ^ 72)%Z as Hq.
  { split; [apply Z.div_pos; lia|]. apply Z.div_lt_upper_bound; lia. }
  assert (chunk_bytes f (4 * s) = be_bytes 9 (sv / 2 ^ 56) ++ be_bytes 7 low) as Es.
  { apply chunk_split; [done|exact Hl|]. fold S0 sv. rewrite El.
    rewrite (Z.div_mod sv (2 ^ 56)) at 1 by lia. change (256 ^ Z.of_nat 7)%Z with (2 ^ 56)%Z. lia. }
  assert (chunk_bytes f (4 * n + 2) = drop 32 DST ++ be_bytes 9 (sv / 2 ^ 56)) as E2'.
  { rewrite (chunk_split f _ 7 9 (be_int (drop 32 DST)) (sv / 2 ^ 56)); [|done|exact Hq|exact Ef].
    by rewrite be_bytes_be_int. }
  assert (chunk_bytes f (4 * n + 3) = be_bytes 7 low ++ replicate 9 x00) as E3'.
  { rewrite (chunk_split f _ 7 9 low 0); [done|done|done|]. rewrite E3, two_72_of_int, <-of_int_mul, repr_of_int.
    change (256 ^ Z.of_nat 9)%Z with (2 ^ 72)%Z. rewrite Z.mod_small; [lia|].
    assert (2 ^ 128 < p)%Z by by vm_compute. lia. }
  unfold nym_blocks. fold s n. split; [apply length_be_bytes|]. split.
  { unfold block_bytes. rewrite pad_seed by apply length_be_bytes. by rewrite Hpad. }
  split.
  2: { apply chunk_constant; [done|]. rewrite E4, from_be_of_int by (cbn; lia). symmetry. apply of_int_0. }
  unfold block_bytes. rewrite E2', E3', Es, (chunk_constant f (4 * n) (take 16 DST)),
    (chunk_constant f (4 * n + 1) (slice 16 32 DST)) by done.
  rewrite <-(take_drop 16 DST) at 4. rewrite <-!app_assoc. do 2 f_equal.
Qed.

Lemma gadget_seed_and_nym cells (f : nat → Scalar) (g : nat → nat → Scalar) regions :
  holds_chunks D cells f → holds_states D cells g → (∀ c, repr (f c) < 2 ^ 128)%Z →
  first (Table.seed regions) < POSITIONS → first (nym regions) + 1 < POSITIONS →
  gadget σ (seed_and_nym cells regions) (λ '(digest, facts),
    let s := first (Table.seed regions) in
    let n := first (nym regions) in
    nym_blocks f regions (chunk_bytes f (4 * s)) ∧
    D digest.1 (g s 0) ∧ D digest.2 (g s 1) ∧
    Forall2 D facts [f (4 * (n + 1) + 1); f (4 * (n + 1) + 2); f (4 * (n + 1) + 3);
                     g (n + 1) 0; g (n + 1) 1]).
Proof.
  intros Hf Hg Hrange Hs Hn. unfold seed_and_nym. set (s := first (Table.seed regions)) in *.
  set (n := first (nym regions)) in *.
  eapply gadget_bind; [by apply gadget_chunk|]. intros seed Hseed.
  eapply gadget_bind; [by apply gadget_seed_padding|]. intros ? Hpad.
  eapply gadget_bind; [apply (gadget_state _ g); [done|lia|lia]|]. intros d0 Hd0.
  eapply gadget_bind; [apply (gadget_state _ g); [done|lia|lia]|]. intros d1 Hd1.
  eapply gadget_bind; [by apply gadget_chunk|]. intros x0 Hx0.
  eapply gadget_bind; [by apply gadget_ns, equal_constant|]. intros ? E0.
  eapply gadget_bind; [by apply gadget_chunk|]. intros x1 Hx1.
  eapply gadget_bind; [by apply gadget_ns, equal_constant|]. intros ? E1.
  eapply gadget_bind; [apply gadget_ns, gadget_alloc_bits|].
  { intros bs E. destruct (value seed); [|done]. injection E as <-.
    by rewrite small_bits_int_bits, length_int_bits. }
  intros lb (lv & Hlb & Hll).
  pose proof (pack_sem D _ _ Hlb) as Hlow. pose proof (bits_int_range lv) as Hlr. rewrite Hll in Hlr.
  eapply gadget_bind; [by apply gadget_chunk|]. intros x3 Hx3. step gadget_equal as ? E3.
  eapply gadget_bind; [by apply gadget_chunk|]. intros x2 Hx2. step gadget_equal as ? E2.
  eapply gadget_bind; [by apply gadget_chunk|]. intros x4 Hx4. step gadget_equal as ? E4.
  eapply gadget_bind; [by apply gadget_chunk|]. intros x5 Hx5.
  eapply gadget_bind; [by apply gadget_chunk|]. intros x6 Hx6.
  eapply gadget_bind; [by apply gadget_chunk|]. intros x7 Hx7.
  eapply gadget_bind; [apply (gadget_state _ g); [done|lia|lia]|]. intros h0 Hh0.
  eapply gadget_bind; [apply (gadget_state _ g); [done|lia|lia]|]. intros h1 Hh1.
  apply gadget_ret. change CHUNKS_PER_BLOCK with 4 in *. rewrite !Nat.add_0_r in *.
  split_and!; [|done..|].
  2: { repeat (apply Forall2_cons_2; [done|]). apply Forall2_nil_2. }
  unfold denotes in Hseed, Hx2, Hx3, Hx4, Hlow.
  apply (nym_blocks_intro f regions (bits_int lv)); fold s n; try done.
  all: cbv beta in E0, E1, E2, E3, E4; rewrite lval_add, lval_constant, lval_scale, lval_sub in E2;
    rewrite lval_scale in E3; rewrite lval_zero in E4; congruence.
Qed.

Lemma gadget_nym_slots facts vs :
  length facts = VALUES → Forall2 D facts vs →
  gadget σ (nym_slots facts) (λ slots, Forall2 (λ n v, σ (get_variable n) = v) slots vs).
Proof.
  intros Hl HF. unfold nym_slots. eapply gadget_mono.
  - apply (gadget_mapM_Forall2 _ _ _ (λ '(_, fact) n, σ (get_variable n) = lval σ fact)).
    intros [name fact] _. apply gadget_ns, gadget_to_num.
  - intros slots HS. change VALUES with 5 in Hl. elements facts. cbn [zip nym_names zip_with] in HS.
    repeat match goal with H : Forall2 _ (_ :: _) _ |- _ => apply Forall2_cons_inv_l in H as (? & ? & ? & H & ->) end.
    apply Forall2_nil_inv_l in HF as ->. apply Forall2_nil_inv_l in HS as ->.
    unfold denotes in *. repeat (apply Forall2_cons_2; [congruence|]). apply Forall2_nil_2.
Qed.

(** The commitment and the pseudonym's first block, and the slots that the
    presentation compares. *)
Lemma gadget_commitment cells (f : nat → Scalar) (g : nat → nat → Scalar) regions ssc v w :
  holds_chunks D cells f → holds_states D cells g → (∀ c, repr (f c) < 2 ^ 128)%Z →
  first (Table.seed regions) < POSITIONS → first (nym regions) + 1 < POSITIONS →
  D ssc.1 v → D ssc.2 w →
  gadget σ (commitment_and_slots cells regions ssc) (λ slots,
    let s := first (Table.seed regions) in
    let n := first (nym regions) in
    nym_blocks f regions (chunk_bytes f (4 * s)) ∧ g s 0 = v ∧ g s 1 = w ∧
    Forall2 (λ n v, σ (get_variable n) = v) slots
      [f (4 * (n + 1) + 1); f (4 * (n + 1) + 2); f (4 * (n + 1) + 3); g (n + 1) 0; g (n + 1) 1]).
Proof.
  intros Hf Hg Hr Hs Hn Hv Hw. unfold commitment_and_slots.
  eapply gadget_bind; [apply gadget_ns; by apply gadget_seed_and_nym|].
  intros [digest facts] (Hblocks & Hd0 & Hd1 & HF). eapply gadget_bind.
  { apply (gadget_mapM_Forall2 _ _ _ (λ '(_, (a, b)) _, lval σ a = lval σ b)).
    intros [h [a b]] _. apply gadget_ns, gadget_equal. }
  intros l HE. cbn in HE.
  repeat match goal with H : Forall2 _ (_ :: _) l |- _ => apply Forall2_cons_inv_l in H as (? & ? & ? & H & ->)
         | H : Forall2 _ (_ :: _) ?l |- _ => is_var l; apply Forall2_cons_inv_l in H as (? & ? & ? & H & ->) end.
  eapply gadget_mono; [apply gadget_ns, gadget_nym_slots; [|exact HF]|].
  { by apply Forall2_length in HF. }
  intros slots HS. unfold denotes in *. split_and!; try done; congruence.
Qed.

(** The rest of the pseudonym's second block. *)
Lemma wp_check_nym slots n vs na ni :
  Forall2 (λ n v, σ (get_variable n) = v) slots vs → length vs = VALUES →
  (∀ j v, nym_values n !! j = Some v → σ (Input (ni + j)) = v) →
  ∀ o, wp σ (check slots o) na ni (λ _ _ ni', ni' = ni + VALUES ∧
    vs = [from_be (take 9 (verifier_input n)); from_be (slice 9 25 (verifier_input n));
          (from_be (drop 25 (verifier_input n)) * two_72 + last_chunk_padding)%S;
          from_be (take 16 (np_pseudonym n)); from_be (drop 16 (np_pseudonym n))]).
Proof.
  intros HS Hlv Hpub o. unfold check. apply wp_bind, (wp_named_inputs σ _ _ 0).
  { intros v E. destruct o as [o|]; [|done]. injection E as <-. cbn. lia. }
  intros xs na' Hlx Hxs. cbn [length nym_names] in *.
  pose proof (Forall2_length _ _ _ HS) as E. rewrite Hlv in E.
  rewrite (proj2 (Nat.eqb_eq _ _) E). cbn [negb]. change VALUES with 5 in E. elements xs. elements slots.
  repeat match goal with H : Forall2 _ (_ :: _) ?l |- _ =>
    apply Forall2_cons_inv_l in H as (? & ? & ? & H & ->) end.
  apply Forall2_nil_inv_l in HS as ->.
  apply wp_bind. eapply wp_gadget.
  { apply (gadget_mapM_Forall2 _ _ _ (λ '(_, (fact, expected)) _, lval σ (num fact) = lval σ expected)).
    intros [name [fact expected]] _. apply gadget_ns, gadget_equal. }
  intros us na2 HE. split; [done|]. cbn [zip zip_with nym_names] in HE.
  repeat match goal with H : Forall2 _ (_ :: _) ?l |- _ =>
    apply Forall2_cons_inv_l in H as (? & ? & ? & H & ->) end.
  cbv beta iota in *. rewrite !lval_num, ?lval_add, ?lval_scale, ?lval_constant in *.
  pose proof (Hxs 0 _ eq_refl). pose proof (Hxs 1 _ eq_refl). pose proof (Hxs 2 _ eq_refl).
  pose proof (Hxs 3 _ eq_refl). pose proof (Hxs 4 _ eq_refl).
  pose proof (Hpub 0 _ eq_refl). pose proof (Hpub 1 _ eq_refl). pose proof (Hpub 2 _ eq_refl).
  pose proof (Hpub 3 _ eq_refl). pose proof (Hpub 4 _ eq_refl). congruence.
Qed.

(** The two blocks of the pseudonym's message. *)
Lemma nym_message (f : nat → Scalar) regions seed vi :
  let n := first (nym regions) in
  nym_blocks f regions seed → length vi = 32 →
  f (4 * (n + 1) + 1) = from_be (take 9 vi) → f (4 * (n + 1) + 2) = from_be (slice 9 25 vi) →
  f (4 * (n + 1) + 3) = (from_be (drop 25 vi) * two_72 + last_chunk_padding)%S →
  block_bytes f n ++ block_bytes f (n + 1) = pad (message seed vi).
Proof.
  intros n (Hls & _ & Hn & Hz) Hlv E1 E2 E3. fold n in Hn, Hz.
  assert (256 ^ 16 < p)%Z as Hp by by vm_compute.
  assert (∀ l, length l ≤ 16 → repr (from_be l) = be_int l) as Hrepr.
  { intros l Hl. rewrite from_be_of_int, repr_of_int by lia. apply Z.mod_small.
    pose proof (be_int_range l). pose proof (Z.pow_le_mono_r 256 (Z.of_nat (length l)) 16). lia. }
  assert (chunk_bytes f (4 * (n + 1) + 1) = replicate 7 x00 ++ take 9 vi) as C1.
  { assert (length (take 9 vi) = 9) as L by (rewrite length_take; lia).
    pose proof (be_int_range (take 9 vi)) as Hr. rewrite L in Hr.
    rewrite (chunk_split f _ 7 9 0 (be_int (take 9 vi))); [|done|done|].
    - by rewrite (be_bytes_be_int (take 9 vi) 9).
    - rewrite E1, Hrepr by lia. lia. }
  assert (chunk_bytes f (4 * (n + 1) + 2) = slice 9 25 vi) as C2.
  { apply chunk_constant; [by rewrite length_slice; lia|done]. }
  assert (chunk_bytes f (4 * (n + 1) + 3) = drop 25 vi ++ x80 :: be_bytes 8 (8 * 119)) as C3.
  { assert (length (drop 25 vi) = 7) as L by (rewrite length_drop; lia).
    pose proof (be_int_range (drop 25 vi)) as Hr. rewrite L in Hr.
    rewrite (chunk_split f _ 7 9 (be_int (drop 25 vi)) (be_int (x80 :: be_bytes 8 (8 * 119)))); [|done|by vm_compute|].
    - by rewrite (be_bytes_be_int (drop 25 vi) 7), (be_bytes_be_int (x80 :: be_bytes 8 (8 * 119)) 9).
    - rewrite E3, two_72_of_int. unfold last_chunk_padding.
      rewrite !from_be_of_int, <-of_int_mul, <-of_int_add, repr_of_int by (rewrite ?L; cbn; lia).
      change (256 ^ Z.of_nat 9)%Z with (2 ^ 72)%Z. apply Z.mod_small.
      set (v := be_int (x80 :: be_bytes 8 (8 * 119))). vm_compute in v. subst v.
      change (256 ^ Z.of_nat 7)%Z with (2 ^ 56)%Z in Hr. change (256 ^ 16)%Z with (2 ^ 128)%Z in Hp. lia. }
  rewrite pad_message by done. unfold block_bytes at 2. rewrite Hz, C1, C2, C3, Hn.
  by elements seed.
Qed.
End PseudonymRules.

(** * Properties *)
Section PseudonymProperties.
Context `{Bellpepper}.

Lemma zeros_iff (l : list byte) : existsb (λ b, negb (bool_decide (b = x00))) l = false ↔ l = replicate (length l) x00.
Proof.
  induction l as [|b l IH]; [done|]. cbn [existsb length replicate]. rewrite orb_false_iff, IH, negb_false_iff,
    bool_decide_eq_true. split; [intros [-> E]; by rewrite E at 1|]. by intros [= -> E].
Qed.

(** A scalar whose high bytes are zero is that of its low ones. *)
Lemma low_half x l :
  length l = 16 → to_be x = replicate 16 x00 ++ l ↔ x = from_be l.
Proof.
  intros Hl. rewrite from_be_of_int by lia. pose proof (be_int_range l) as Hr. rewrite Hl in Hr.
  assert (256 ^ Z.of_nat 16 < p)%Z as Hp by by vm_compute.
  assert (be_int (replicate 16 x00 ++ l) = be_int l) as E.
  { rewrite be_int_app. change (be_int (replicate 16 x00)) with 0%Z. lia. }
  split.
  - intros Ex. rewrite <-(of_int_repr x), <-to_be_int, Ex, E. done.
  - intros ->. apply be_int_inj; [by rewrite length_to_be, length_app, length_replicate, Hl|].
    rewrite to_be_int, E, repr_of_int. apply Z.mod_small. lia.
Qed.

(** Which values give a pseudonym. *)
Lemma pseudonym_of_Some values ps :
  pseudonym_of values = Some ps ↔
  length ps = 32 ∧ ∃ before, values = before ++ [from_be (take 16 ps); from_be (drop 16 ps)].
Proof.
  unfold pseudonym_of. split.
  - destruct (reverse values) as [|low [|high before]] eqn:E; [done..|].
    destruct (existsb _ _) eqn:Ez; [done|]. intros [= <-]. rewrite zeros_iff in Ez.
    assert (length (take 16 (to_be high) ++ take 16 (to_be low)) = 32) as Hl32
      by by rewrite length_app, !length_take, !length_to_be.
    rewrite Hl32 in Ez. change (replicate 32 x00) with (replicate 16 x00 ++ replicate 16 x00) in Ez.
    apply app_inj_1 in Ez as [E1 E2]; [|by rewrite length_take, length_to_be].
    assert (∀ x, length (drop 16 (to_be x)) = 16) as Hd by (intros x; by rewrite length_drop, length_to_be).
    split; [by rewrite length_app, !Hd|]. exists (reverse before).
    rewrite take_app_length', drop_app_length' by done.
    rewrite <-(proj1 (low_half high _ (Hd high))), <-(proj1 (low_half low _ (Hd low))).
    + apply (f_equal reverse) in E. rewrite reverse_involutive in E. rewrite E, !reverse_cons. by rewrite <-app_assoc.
    + rewrite <-E2. by rewrite take_drop.
    + rewrite <-E1. by rewrite take_drop.
  - intros (Hl & before & ->). rewrite reverse_app. cbn [reverse rev_append app].
    rewrite (proj2 (low_half _ (take 16 ps) ltac:(rewrite length_take; lia)) eq_refl).
    rewrite (proj2 (low_half _ (drop 16 ps) ltac:(rewrite length_drop; lia)) eq_refl).
    rewrite !take_app_length', !drop_app_length' by done.
    rewrite (proj2 (zeros_iff _)) by done. by rewrite take_drop.
Qed.

(** The pseudonym is read back from exactly the core's public values that
    end with its two halves: no other value of the last two gives it, and a
    half of more than 128 bits is refused. *)
Theorem pseudonym_of_iff values ps :
  pseudonym_of values = Some ps ↔
  length ps = 32 ∧ ∃ before, values = before ++ [from_be (take 16 ps); from_be (drop 16 ps)].
Proof. apply pseudonym_of_Some. Qed.
End PseudonymProperties.
