(* ===== verification/Mdoc.v ===== *)
(** [mdoc.rs]: the core circuit of an ISO/IEC 18013-5 mdoc, and the witness that
    the prover builds for it: where each value sits in the signed message and
    in the items. *)
From Stdlib Require Import ZArith Lia Strings.String Strings.Byte.
From stdpp Require Import base list numbers option strings pretty.
From S2P Require Import Prelude Bytes Field ConstraintSystem Shape CheckSystem Bellpepper Lc Values Bits Select Sha256 Table Window Curve P256 Request Calendar Presentation Pseudonym Circuit Step.

Definition WINDOWS : Window * Window := (DOC_TYPE_WINDOW, IDENTIFIER_WINDOW).
Definition DIGEST : list byte := [x58; x20].
Definition VALUE : list byte := x6c :: bytes_of "elementValue" ++ [xd9; x03; xec; x6a].
Definition DEVICE_KEY : list byte :=
  x69 :: bytes_of "deviceKey" ++ [xa4; x01; x02; x20; x01; x21; x58; x20].
Definition DEVICE_KEY_Y : list byte := [x22; x58; x20].
Definition VALID_FROM : list byte := x69 :: bytes_of "validFrom" ++ [xc0; x74].
Definition VALID_UNTIL : list byte := x6a :: bytes_of "validUntil" ++ [xc0; x74].

(** [struct MdocNym]. *)
Record MdocNym := mkMdocNym {
  mn_last : nat;
  mn_digest_at : nat;
  mn_identifier_at : nat;
  mn_value_at : nat;
}.

(** [struct MdocWitness]. *)
Record MdocWitness := mkMdocWitness {
  w_table : Table;
  w_issuer_key : PublicKey;
  w_issuer_signature : Signature;
  w_skipped : nat;
  w_signed_last : nat;
  w_attribute_last : nat;
  w_doc_type_at : nat;
  w_digest_at : nat;
  w_device_key_at : nat;
  w_valid_from_at : nat;
  w_valid_until_at : nat;
  w_identifier_at : nat;
  w_value_at : nat;
  w_nym : option MdocNym;
}.

(** [window_at]. *)
Definition window_at (bytes key : list byte) (len : nat) (what : string) : outcome string nat :=
  at_ ← find bytes key what;
  let at_ := (at_ + length key)%nat in
  head ← ok_or (what +:+ " has no value") (bytes !! at_);
  '(head_len, text_len) ←
    (if (0x60 <=? b2z head)%Z && (b2z head <? 0x78)%Z then Ok (1, Z.to_nat (b2z head - 0x60))
     else if (b2z head =? 0x78)%Z then
       b ← ok_or (what +:+ " is cut") (bytes !! (at_ + 1)%nat);
       Ok (2, Z.to_nat (b2z b))
     else Err (what +:+ " is not a text shorter than 256 bytes"));
  let end_ := (at_ + head_len + text_len)%nat in
  if (length bytes <? end_)%nat then Err (what +:+ " is cut")
  else if (end_ <? len)%nat then Err (what +:+ " ends within " +:+ pretty len +:+ " bytes of the start")
  else Ok (end_ - len)%nat.

Section Witness.
Context `{Bellpepper} `{Sha2}.

(** [MdocWitness::build]; [offsets] has five or six elements. *)
Definition build (layout : Layout) (sig_structure item : list byte) (issuer_key : PublicKey)
    (issuer_signature : Signature) (nym : option NymMessages) : outcome string MdocWitness :=
  let listed := DIGEST ++ sha256 item in
  doc_type ← window_at sig_structure DOC_TYPE_KEY (w_len DOC_TYPE_WINDOW) "docType";
  digest ← find sig_structure listed "the item's digest";
  device_key ← find sig_structure DEVICE_KEY "deviceKey";
  valid_from ← find sig_structure VALID_FROM "validFrom";
  valid_until ← find sig_structure VALID_UNTIL "validUntil";
  let offsets := [doc_type; digest; device_key; valid_from; valid_until] in
  offsets ←
    match nym with
    | Some nym =>
        let listed := DIGEST ++ sha256 (nm_ssc nym) in
        at_ ← find sig_structure listed "the ssc item's digest";
        Ok (offsets ++ [at_])
    | None => Ok offsets
    end;
  let skipped := blocks_before (foldr Nat.min doc_type offsets) in
  let offsets := (λ at_, at_ - 64 * skipped)%nat <$> offsets in
  let messages := [(attribute layout, item)] in
  '(messages, nym) ←
    match nym, Table.pseudonym layout with
    | Some nym, Some regions =>
        identifier_at ← find (nm_ssc nym) MDOC_IDENTIFIER "the ssc identifier";
        value_at ← find (nm_ssc nym) MDOC_VALUE "the ssc value";
        Ok (messages ++ table_messages nym regions,
            Some {| mn_last := last_block (length (nm_ssc nym)); mn_digest_at := offsets !!! 5%nat;
                    mn_identifier_at := identifier_at; mn_value_at := value_at |})
    | None, None => Ok (messages, None)
    | _, _ => Err "the layout and the statement disagree"%string
    end;
  table ← with_messages layout sig_structure skipped messages;
  identifier_at ← window_at item IDENTIFIER_KEY (w_len IDENTIFIER_WINDOW) "the identifier";
  value_at ← find item VALUE "elementValue";
  Ok {| w_table := table; w_issuer_key := issuer_key; w_issuer_signature := issuer_signature;
        w_skipped := skipped; w_signed_last := (last_block (length sig_structure) - skipped)%nat;
        w_attribute_last := last_block (length item);
        w_doc_type_at := offsets !!! 0%nat; w_digest_at := offsets !!! 1%nat;
        w_device_key_at := offsets !!! 2%nat; w_valid_from_at := offsets !!! 3%nat;
        w_valid_until_at := offsets !!! 4%nat;
        w_identifier_at := identifier_at; w_value_at := value_at; w_nym := nym |}.

(** [MdocWitness::full]. *)
Definition full (sig_structure item : list byte) (nym : NymMessages) (issuer_key : PublicKey)
    (issuer_signature : Signature) : outcome string MdocWitness :=
  build FULL_MDOC sig_structure item issuer_key issuer_signature (Some nym).
End Witness.

Section Mdoc.
Context `{Bellpepper} (c : Constants).

(** [date_time]. *)
Definition date_time (message : Message) (at_ : option nat) (key : list byte) : Synth Lc :=
  window ← ns "window" (message_read message at_ (length key + 20));
  ns "key" (expect (take (length key) (w_bytes window)) key) ;;
  let time := drop (length key) (w_bytes window) in
  digits ← mapM (index time) DATE_TIME_DIGITS;
  mret (decimal digits).

(** The rules that the signed message lists an item's digest. *)
Definition listed_digest (what : string) (signed : Message) (at_ : option nat) (digest : Lc * Lc) : Synth unit :=
  listed ← ns (what +:+ " digest") (message_read signed at_ 34);
  ns (what +:+ " digest head") (expect (take 2 (w_bytes listed)) DIGEST) ;;
  mapM (λ '(h, half_digest),
    let half := pack_bytes (slice (2 + 16 * h) (18 + 16 * h) (w_bytes listed)) in
    ns (what +:+ " digest half " +:+ pretty (h : nat)) (equal half half_digest))
    [(0%nat, digest.1); (1%nat, digest.2)] ;;
  mret tt.

(** [age_part]. *)
Definition age_part (cells : Cells) (w : option MdocWitness) (layout : Layout) : Synth (Message * Facts) :=
  '(signed, signed_digest) ←
    ns "Sig_structure" (message_open cells (Table.signed layout) (w_signed_last <$> w));
  '(item, item_digest) ← ns "item" (message_open cells (attribute layout) (w_attribute_last <$> w));
  issuer_key ← ns "issuer key" (point_alloc (w_issuer_key <$> w));
  digest ← ns "Sig_structure digest bits" (digest_bits signed_digest);
  ns "issuer signature" (verify c digest issuer_key (w_issuer_signature <$> w)) ;;
  doc_type ← ns "doc type" (message_read signed (w_doc_type_at <$> w) (w_len DOC_TYPE_WINDOW));
  listed_digest "item" signed (w_digest_at <$> w) item_digest ;;
  identifier ← ns "element identifier" (message_read item (w_identifier_at <$> w) (w_len IDENTIFIER_WINDOW));
  value ← ns "element value" (message_read item (w_value_at <$> w) (length VALUE + 10));
  ns "element value head" (expect (take (length VALUE) (w_bytes value)) VALUE) ;;
  let date := drop (length VALUE) (w_bytes value) in
  digits ← mapM (index date) DATE_DIGITS;
  let birth_date := decimal digits in
  let key_len := (length DEVICE_KEY + 32 + length DEVICE_KEY_Y + 32)%nat in
  key ← ns "device key" (message_read signed (w_device_key_at <$> w) key_len);
  let x_at := length DEVICE_KEY in
  let y_at := (x_at + 32 + length DEVICE_KEY_Y)%nat in
  ns "device key head" (expect (take x_at (w_bytes key)) DEVICE_KEY) ;;
  ns "device key y head" (expect (slice (x_at + 32) y_at (w_bytes key)) DEVICE_KEY_Y) ;;
  let device_key := {| px := pack_bytes (slice x_at (x_at + 32) (w_bytes key));
                       py := pack_bytes (slice y_at (y_at + 32) (w_bytes key)) |} in
  valid_from ← ns "valid from" (date_time signed (w_valid_from_at <$> w) VALID_FROM);
  valid_until ← ns "valid until" (date_time signed (w_valid_until_at <$> w) VALID_UNTIL);
  type_slots ← ns "type" (window_slots (w_bytes doc_type));
  attribute_slots ← ns "attribute" (window_slots (w_bytes identifier));
  mret (signed, {| f_issuer_key := issuer_key; birth_date := birth_date; valid_from := valid_from;
                   valid_until := valid_until; device_key := device_key;
                   f_windows := (type_slots, attribute_slots) |}).

(** [nym_part]. *)
Definition nym_part (cells : Cells) (signed : Message) (w : option MdocWitness) (layout : Layout)
    : Synth (list AllocatedNum) :=
  regions ← lift (ok_or Unsatisfiable (Table.pseudonym layout));
  nym ← match w with
        | Some w => n ← lift (ok_or AssignmentMissing (w_nym w)); mret (Some n)
        | None => mret None
        end;
  '(item, item_digest) ← ns "ssc item" (message_open cells (ssc regions) (mn_last <$> nym));
  listed_digest "ssc" signed (mn_digest_at <$> nym) item_digest ;;
  identifier ← ns "ssc identifier" (message_read item (mn_identifier_at <$> nym) (length MDOC_IDENTIFIER));
  ns "ssc identifier bytes" (expect (w_bytes identifier) MDOC_IDENTIFIER) ;;
  value ← ns "ssc value" (message_read item (mn_value_at <$> nym) (length MDOC_VALUE + SSC_BYTES));
  let head := length MDOC_VALUE in
  ns "ssc value head" (expect (take head (w_bytes value)) MDOC_VALUE) ;;
  let half h := pack_bytes (slice (head + 16 * h) (head + 16 * (h + 1)) (w_bytes value)) in
  commitment_and_slots cells regions (half 0%nat, half 1%nat).

(** [struct MdocCore] and [struct MdocNymCore]. *)
Record MdocCore := mkMdocCore {
  mc_witness : option MdocWitness;
  mc_presentation : option Presentation;
}.
Record MdocNymCore := mkMdocNymCore {
  core_witness : option MdocWitness;
  core_presentation : option Presentation;
  core_nym : option NymPublic;
}.

(** [MdocNymCore::blank]. *)
Definition core_blank : MdocNymCore :=
  {| core_witness := None; core_presentation := None; core_nym := None |}.

(** [MdocNymCore::precommitted], [MdocNymCore::synthesize]. *)
Definition core_precommitted (core : MdocNymCore) (shared : list AllocatedNum) : Synth (list AllocatedNum) :=
  let w := core_witness core in
  let cells := shared in
  '(signed, facts) ← age_part cells w FULL_MDOC;
  slots ← ns "facts" (Presentation.into_slots facts);
  nym_slots ← ns "pseudonym" (nym_part cells signed w FULL_MDOC);
  mret (slots ++ nym_slots).
Definition core_synthesize (core : MdocNymCore) (facts : list AllocatedNum) : Synth unit :=
  let age := (BASE_VALUES + w_len WINDOWS.1 + w_len WINDOWS.2)%nat in
  if negb (length facts =? age + Pseudonym.VALUES)%nat then Fail' AssignmentMissing else
  let age_facts := take age facts in
  let nym_facts := drop age facts in
  ns "presentation" (Presentation.check c age_facts (core_presentation core) Digits WINDOWS) ;;
  ns "pseudonym check" (Pseudonym.check nym_facts (core_nym core)).

#[export] Instance core_circuit : VegaCircuit MdocNymCore := {|
  public_values core :=
    presentation ← ok_or AssignmentMissing (core_presentation core);
    nym ← ok_or AssignmentMissing (core_nym core);
    Ok (Presentation.public_values Digits (public presentation) ++ nym_values nym);
  shared core := ns "table" (allocate (w_table <$> core_witness core));
  precommitted := core_precommitted;
  num_challenges _ := 0;
  synthesize core _ facts _ := core_synthesize core facts;
|}.
End Mdoc.
