(* ===== verification/MdocRules.v ===== *)
(** [mdoc.rs]: what the rules of the core circuit force of the credential, over
    a table whose states are the hash chains of its blocks. *)
From Stdlib Require Import ZArith Lia Strings.String Strings.Byte.
From stdpp Require Import base list numbers option strings pretty.
From S2P Require Import Prelude Bytes Field ConstraintSystem Shape CheckSystem Bellpepper Lc Values Bits Select Sha256 Table Window Curve P256 Request Calendar Presentation Pseudonym Circuit Step Mdoc.

(** A rule of a gadget, by a lemma with arguments left open. *)
Local Tactic Notation "rule" open_constr(spec) "as" simple_intropattern_list(pats) :=
  eapply gadget_bind; [try apply gadget_ns; eapply spec|intros pats].

(** The bytes [bs] stand in [m] at [o]. *)
Definition window_in (m : list byte) (o : nat) (bs : list byte) : Prop :=
  slice o (o + length bs) m = bs.

Section Groups.
Context `{LinearCombinations}.

(** A gadget whose first rules another lemma describes as a group. *)
Lemma gadget_group3 (σ : Assignment) {A B C E} (m : Synth A) (m2 : A → Synth B) (m3 : A → Synth C) (k : C → Synth E)
    (P : E → Prop) (Q : C → Prop) :
  gadget σ (x ← m; m2 x ;; m3 x) Q → (∀ c, Q c → gadget σ (k c) P) →
  gadget σ (x ← m; m2 x ;; c ← m3 x; k c) P.
Proof.
  intros Hm Hk na ni. specialize (Hm na ni). rewrite wp_bind in Hm |- *. eapply wp_mono; [exact Hm|].
  intros x na1 ni1 H1. rewrite wp_bind in H1 |- *. eapply wp_mono; [exact H1|].
  intros y na2 ni2 H2. apply wp_bind. eapply wp_mono; [exact H2|]. intros c na3 ni3 [-> HQ]. by apply Hk.
Qed.

Lemma gadget_group4 (σ : Assignment) {A B C E F} (m : Synth A) (m2 : A → Synth B) (m3 : A → Synth C) (e : A → E)
    (k : A → Synth F) (P : F → Prop) (Q : E → Prop) :
  gadget σ (x ← m; m2 x ;; m3 x ;; mret (e x)) Q → (∀ x, Q (e x) → gadget σ (k x) P) →
  gadget σ (x ← m; m2 x ;; m3 x ;; k x) P.
Proof.
  intros Hm Hk na ni. specialize (Hm na ni). rewrite wp_bind in Hm |- *. eapply wp_mono; [exact Hm|].
  intros x na1 ni1 H1. rewrite wp_bind in H1 |- *. eapply wp_mono; [exact H1|].
  intros y na2 ni2 H2. rewrite wp_bind in H2 |- *. eapply wp_mono; [exact H2|].
  intros z na3 ni3 [-> HQ]. by apply Hk.
Qed.
End Groups.

(** * The messages of the table *)
Section Messages.
Context `{Bellpepper}.
Implicit Types f : nat → Scalar.

(** The blocks of the region [r] up to its block [k]. *)
Definition message_bytes f (r : Region) (k : nat) : list byte := concat (region_blocks f r (S k)).

Lemma block_cell_bytes f j : block_bytes f j = cell_byte f <$> seq (64 * j) 64.
Proof.
  replace (64 * j) with (16 * (4 * j)) by lia. change 64 with (16 * 4).
  rewrite <- cell_bytes_chunks. unfold block_bytes, chunk_bytes, range. cbn [seq fmap list_fmap concat].
  by rewrite app_nil_r, Nat.add_0_r.
Qed.

Lemma region_cell_bytes f a n :
  concat (block_bytes f <$> seq a n) = cell_byte f <$> seq (64 * a) (64 * n).
Proof.
  revert a. induction n as [|n IH]; intros a; [done|]. cbn [seq fmap list_fmap concat].
  replace (64 * S n) with (64 + 64 * n) by lia.
  rewrite IH, block_cell_bytes, seq_app, fmap_app. do 3 f_equal. lia.
Qed.

Lemma message_slice f r k o len :
  o + len ≤ 64 * (k + 1) →
  cell_byte f <$> seq (64 * first r + o) len = slice o (o + len) (message_bytes f r k).
Proof.
  intros Hle. unfold message_bytes, region_blocks. rewrite region_cell_bytes.
  unfold slice. rewrite <- fmap_drop, <- fmap_take, drop_seq, take_seq. f_equal. f_equal; lia.
Qed.

Lemma message_window f r k o len :
  o + len ≤ 64 * (k + 1) →
  window_in (message_bytes f r k) o (cell_byte f <$> seq (64 * first r + o) len).
Proof.
  intros Hle. unfold window_in. rewrite length_fmap, length_seq. by rewrite <- message_slice.
Qed.
End Messages.

(** * Reading the messages *)
Section Reading.
Context `{Bellpepper} `{Sha2} (σ : Assignment).
Local Abbreviation D := (denotes σ).

(** A message that is open up to its block [k]. *)
Record opened (f : nat → Scalar) (m : Message) (r : Region) (k : nat) : Prop := {
  op_chunks : holds_chunks D (m_cells m) f;
  op_region : m_region m = r;
  op_last : selects D (m_last m) (blocks r) k;
  op_blocks : (Z.of_nat (blocks r) ≤ 2 ^ 16)%Z;
}.

Lemma gadget_read f m r k at_ len :
  opened f m r k → (Z.of_nat len ≤ 2 ^ 16)%Z →
  gadget σ (message_read m at_ len) (λ w, ∃ o bs,
    length bs = len ∧ window_in (message_bytes f r k) o bs ∧ bytes_are D (w_bytes w) bs).
Proof.
  intros [Hf <- Hl Hb] Hlen. eapply gadget_mono; [by apply (gadget_message_read σ m at_ len f k)|].
  intros w (o & Hle & _ & HB). eexists o, _. split; [|split; [|exact HB]].
  - by rewrite length_fmap, length_seq.
  - by apply message_window.
Qed.

(** The first bytes of a window are a constant. *)
Lemma gadget_prefix xs bs pattern n :
  bytes_are D xs bs → length pattern = n → n ≤ length bs →
  gadget σ (expect (take n xs) pattern) (λ _, bs = pattern ++ drop n bs).
Proof.
  intros HB Hn Hle. eapply gadget_mono.
  { apply (gadget_expect σ _ (take n bs)); [by apply Forall2_take|]. rewrite length_take. lia. }
  intros ? E. rewrite <- E. by rewrite take_drop.
Qed.

(** Digits picked from a text. *)
Definition digits_at (ds : list nat) (bs : list byte) : Z :=
  decimal_int ((λ i, default x00 (bs !! i)) <$> ds).

Lemma gadget_digits xs bs ds :
  bytes_are D xs bs → Forall (λ i, i < length bs) ds →
  gadget σ (mapM (index xs) ds) (λ digits, D (decimal digits) (of_int (digits_at ds bs))).
Proof.
  intros HB Hds. eapply gadget_mono.
  { apply (gadget_mapM_Forall2 σ _ _ (λ i x, D x (of_int (b2z (default x00 (bs !! i)))))). intros i Hi.
    rewrite list.Forall_forall in Hds. destruct (lookup_lt_is_Some_2 bs i (Hds i Hi)) as [b Eb].
    destruct (Forall2_lookup_r _ _ _ _ _ HB Eb) as (x & Ex & Hx).
    eapply gadget_mono; [by apply gadget_index_nth|]. intros ? ->. by rewrite Eb. }
  intros digits HF. unfold digits_at. apply (decimal_sem D). apply Forall2_fmap_r, Forall2_flip. exact HF.
Qed.

Lemma digits_bound ds bs : length ds ≤ 14 → (Z.abs (digits_at ds bs) < 2 ^ 64)%Z.
Proof.
  intros Hl. unfold digits_at, decimal_int.
  assert (∀ l : list byte, Z.abs (digits_int 10 (λ b, b2z b - 48) l) ≤ 256 * (10 ^ Z.of_nat (length l) - 1))%Z as HA.
  { induction l as [|b l IH] using rev_ind; [done|].
    unfold digits_int in *. rewrite foldl_app. cbn [foldl]. rewrite length_app. cbn [length].
    pose proof (b2z_range b). replace (Z.of_nat (length l + 1)) with (Z.of_nat (length l) + 1)%Z by lia.
    rewrite Z.pow_add_r by lia. change (10 ^ 1)%Z with 10%Z. lia. }
  specialize (HA ((λ i, default x00 (bs !! i)) <$> ds)). rewrite length_fmap in HA.
  assert (10 ^ Z.of_nat (length ds) ≤ 10 ^ 14)%Z by (apply Z.pow_le_mono_r; lia). lia.
Qed.

(** The numbers of a digest's halves. *)
Lemma state_half_int l h : length l = 32 → h < 2 →
  state_half l h = of_int (be_int (slice (16 * h) (16 * (h + 1)) l)).
Proof.
  intros Hl Hh. unfold state_half, CHUNK_BYTES. apply from_be_of_int. rewrite length_slice; lia.
Qed.

Lemma gadget_half xs bs a l h digest :
  bytes_are D xs bs → a + 16 ≤ length bs → length l = 32 → h < 2 → D digest (state_half l h) →
  gadget σ (equal (pack_bytes (slice a (a + 16) xs)) digest)
    (λ _, slice a (a + 16) bs = slice (16 * h) (16 * (h + 1)) l).
Proof.
  intros HB Ha Hl Hh Hd. eapply gadget_mono; [apply gadget_equal|]. intros [] E. cbv beta in E.
  apply (pack_bytes_inj σ (slice a (a + 16) xs)).
  - by apply Forall2_take, Forall2_drop.
  - rewrite !length_slice; lia.
  - rewrite length_slice; lia.
  - unfold denotes in *. by rewrite E, Hd, state_half_int.
Qed.

(** The signed message lists the digest. *)
Lemma gadget_listed f what signed r k at_ digest l :
  opened f signed r k → length l = 32 → D digest.1 (state_half l 0) → D digest.2 (state_half l 1) →
  gadget σ (listed_digest what signed at_ digest)
    (λ _, ∃ o, window_in (message_bytes f r k) o (DIGEST ++ l)).
Proof.
  intros Ho Hl H1' H2'. unfold listed_digest.
  eapply gadget_bind; [apply gadget_ns, (gadget_read f _ _ _ _ _ Ho); lia|].
  intros listed (o & bs & Hlb & Hw & HB).
  eapply gadget_bind; [apply gadget_ns, (gadget_prefix _ _ _ _ HB); [done|lia]|]. intros ? E. cbv beta in E.
  eapply gadget_bind.
  { apply (gadget_mapM_Forall2 σ _ _ (λ '(h, _) _,
      slice (2 + 16 * h) (2 + 16 * h + 16) bs = slice (16 * h) (16 * (h + 1)) l)).
    intros [h d] Hin. apply gadget_ns. replace (18 + 16 * h) with (2 + 16 * h + 16) by lia.
    apply elem_of_cons in Hin as [[= -> ->]|Hin]; [by apply gadget_half; lia || done|].
    apply list_elem_of_singleton in Hin as [= -> ->]. apply gadget_half; done || lia. }
  intros us HF. apply gadget_ret. exists o.
  apply Forall2_cons_inv_l in HF as (? & us1 & E1 & HF & ->).
  apply Forall2_cons_inv_l in HF as (? & us2 & E2 & _ & ->).
  replace (DIGEST ++ l) with bs; [done|]. rewrite E. f_equal.
  change (slice 2 18 bs = slice 0 16 l) in E1. change (slice 18 34 bs = slice 16 32 l) in E2.
  unfold slice in *. cbn [Nat.sub drop] in *.
  rewrite <- (take_drop 16 l), <- (take_drop 16 (drop 2 bs)). rewrite E1, drop_drop. f_equal.
  rewrite <- (take_ge (drop (2 + 16) bs) 16), <- (take_ge (drop 16 l) 16); [exact E2|..];
    rewrite length_drop; lia.
Qed.

(** A date and time of twenty bytes after its key. *)
Lemma gadget_date_time f m r k at_ key :
  opened f m r k → (Z.of_nat (length key) ≤ 100)%Z →
  gadget σ (date_time m at_ key) (λ x, ∃ o text, length text = 20 ∧
    window_in (message_bytes f r k) o (key ++ text) ∧ D x (of_int (digits_at DATE_TIME_DIGITS text))).
Proof.
  intros Ho Hk. unfold date_time. rule (gadget_read f _ _ _ _ _ Ho) as window (o & bs & Hlb & Hw & HB); [lia|].
  rule (gadget_prefix _ _ key (length key) HB) as ? E; [done|lia|]. cbv beta in E.
  assert (bytes_are D (drop (length key) (w_bytes window)) (drop (length key) bs)) as HB' by by apply Forall2_drop.
  assert (length (drop (length key) bs) = 20) as H20 by (rewrite length_drop; lia).
  rule (gadget_digits _ _ DATE_TIME_DIGITS HB') as digits HD.
  { rewrite H20. repeat (constructor; [lia|]). constructor. }
  apply gadget_ret. exists o, (drop (length key) bs). by rewrite <- E.
Qed.

(** The state after each block of a region is the half of a digest. *)
Definition digests (g : nat → nat → Scalar) (digest : Region → nat → list byte) (r : Region) : Prop :=
  ∀ k, k < blocks r → length (digest r k) = 32 ∧
  ∀ h, h < 2 → g (first r + k) h = state_half (digest r k) h.

Lemma gadget_open cells f g digest r last :
  holds_chunks D cells f → holds_states D cells g → digests g digest r →
  in_table r → (Z.of_nat (blocks r) ≤ 2 ^ 16)%Z →
  gadget σ (message_open cells r last) (λ '(m, halves), ∃ k, k < blocks r ∧ opened f m r k ∧
    length (digest r k) = 32 ∧
    D halves.1 (state_half (digest r k) 0) ∧ D halves.2 (state_half (digest r k) 1)).
Proof.
  intros Hf Hg Hd Hin Hb. eapply gadget_mono.
  { apply (gadget_message_open σ cells r last g); try done. pose proof (lt_pow_p 16 ltac:(lia)). lia. }
  intros [m [high low]] (k & <- & <- & Hs & Hh & Hl). exists k.
  assert (k < blocks (m_region m)) as Hk by apply Hs.
  destruct (Hd k Hk) as [H32 HE]. rewrite HE in Hh, Hl by lia. split_and!; done.
Qed.
End Reading.

(** * The age credential *)
Section Age.
Context `{Bellpepper} `{Sha2} (σ : Assignment).
Local Abbreviation D := (denotes σ).

(** What the credential says, as bytes. *)
Record age_data := {
  ad_type : list byte;
  ad_identifier : list byte;
  ad_birth : list byte;
  ad_x : list byte;
  ad_y : list byte;
  ad_from : list byte;
  ad_until : list byte;
}.

(** Where the two messages say it, and where the first one lists the second
    one's digest. *)
Record age_reads (signed item digest : list byte) (d : age_data) : Prop := {
  ar_lengths : length (ad_type d) = 48 ∧ length (ad_identifier d) = 40 ∧ length (ad_birth d) = 10 ∧
    length (ad_x d) = 32 ∧ length (ad_y d) = 32 ∧ length (ad_from d) = 20 ∧ length (ad_until d) = 20;
  ar_type : ∃ o, window_in signed o (ad_type d);
  ar_listed : ∃ o, window_in signed o (DIGEST ++ digest);
  ar_identifier : ∃ o, window_in item o (ad_identifier d);
  ar_birth : ∃ o, window_in item o (VALUE ++ ad_birth d);
  ar_device_key : ∃ o, window_in signed o (DEVICE_KEY ++ ad_x d ++ DEVICE_KEY_Y ++ ad_y d);
  ar_from : ∃ o, window_in signed o (VALID_FROM ++ ad_from d);
  ar_until : ∃ o, window_in signed o (VALID_UNTIL ++ ad_until d);
}.

(** The facts of a presentation that the bytes give. *)
Definition credential_of (issuer : Affine) (d : age_data) : credential := {|
  cr_issuer := issuer;
  cr_birth := digits_at DATE_DIGITS (ad_birth d);
  cr_from := digits_at DATE_TIME_DIGITS (ad_from d);
  cr_until := digits_at DATE_TIME_DIGITS (ad_until d);
  cr_device := {| ax := from_be (ad_x d); ay := from_be (ad_y d) |};
  cr_type := ad_type d;
  cr_attribute := ad_identifier d;
|}.

(** The sums of the facts. *)
Record facts_denote (facts : Facts) (cr : credential) : Prop := {
  fd_issuer : pt D (f_issuer_key facts) (cr_issuer cr);
  fd_birth : D (birth_date facts) (of_int (cr_birth cr));
  fd_from : D (valid_from facts) (of_int (cr_from cr));
  fd_until : D (valid_until facts) (of_int (cr_until cr));
  fd_device : pt D (device_key facts) (cr_device cr);
  fd_type : Forall2 (λ n b, σ (get_variable n) = of_int (b2z b)) (f_windows facts).1 (cr_type cr);
  fd_attribute : Forall2 (λ n b, σ (get_variable n) = of_int (b2z b)) (f_windows facts).2 (cr_attribute cr);
}.

Lemma gadget_window_slots xs bs :
  bytes_are D xs bs →
  gadget σ (window_slots xs) (λ slots, Forall2 (λ n b, σ (get_variable n) = of_int (b2z b)) slots bs).
Proof.
  intros HB. eapply gadget_mono.
  - apply (gadget_mapM_Forall2 _ _ _ (λ '(_, x) n, σ (get_variable n) = lval σ x)).
    intros [i x] _. apply gadget_ns, gadget_to_num.
  - intros slots HS. apply Forall2_same_length_lookup in HB as [Hl HB].
    pose proof (Forall2_length _ _ _ HS) as Hls. rewrite length_imap in Hls.
    apply Forall2_same_length_lookup. split; [lia|]. intros i n b Hn Hb.
    destruct (lookup_lt_is_Some_2 xs i) as [x Ex]; [apply lookup_lt_Some in Hb; lia|].
    eapply Forall2_lookup_lr in HS; [|by rewrite list_lookup_imap, Ex|exact Hn]. cbv beta iota in HS.
    rewrite HS. by apply (HB i).
Qed.

Lemma gadget_into_slots facts cr :
  facts_denote facts cr → gadget σ (Presentation.into_slots facts) (λ slots, facts_hold σ slots cr).
Proof.
  intros [[Hix Hiy] Hb Hf Hu [Hdx Hdy] Ht Ha]. unfold Presentation.into_slots. eapply gadget_bind.
  - apply (gadget_mapM_Forall2 _ _ _ (λ '(_, fact) n, σ (get_variable n) = lval σ fact)).
    intros [name fact] _. apply gadget_ns, gadget_to_num.
  - intros slots HS.
    repeat match goal with H : Forall2 _ (_ :: _) _ |- _ => apply Forall2_cons_inv_l in H as (? & ? & ? & H & ->) end.
    apply Forall2_nil_inv_l in HS as ->. apply gadget_ret. cbn [app].
    do 9 eexists. split; [done|]. unfold pt, denotes in *. cbn [px py].
    rewrite !lval_num. split_and!; done || congruence.
Qed.

Lemma gadget_point_alloc key : gadget σ (point_alloc key) (λ q, ∃ a, pt D q a).
Proof.
  unfold point_alloc. rule (gadget_alloc_lc _) as x _. rule (gadget_alloc_lc _) as y _.
  apply gadget_ret. exists {| ax := lval σ x; ay := lval σ y |}. done.
Qed.

(** A key of 32 + 32 bytes after its heads. *)
Lemma slice_split {A} (l : list A) a b : a ≤ b → drop a l = slice a b l ++ drop b l.
Proof.
  intros Hab. unfold slice. replace b with (a + (b - a)) at 2 by lia. by rewrite <- drop_drop, take_drop.
Qed.

Lemma device_key_bytes bs :
  length bs = 85 → bs = DEVICE_KEY ++ drop 18 bs → slice 50 53 bs = DEVICE_KEY_Y →
  bs = DEVICE_KEY ++ slice 18 50 bs ++ DEVICE_KEY_Y ++ slice 53 85 bs.
Proof.
  intros Hl Hh Hy. rewrite Hh at 1. f_equal. rewrite (slice_split bs 18 50), (slice_split bs 50 53), Hy by lia.
  do 2 f_equal. unfold slice. by rewrite take_ge by (rewrite length_drop; lia).
Qed.

(** The witness that a prover passes has a signature of 32 + 32 bytes. *)
Definition signature_lengths (s : option Signature) : Prop :=
  ∀ s', s = Some s' → length (sig_r s') = 32 ∧ length (s_inv s') = 32.

(** The fields of the credential's messages. *)
Section Parts.
Variables (f : nat → Scalar) (signed item : Message) (rs ri : Region) (ks ki : nat).
Hypotheses (Hs : opened σ f signed rs ks) (Hi : opened σ f item ri ki).

Lemma gadget_birth at_ :
  gadget σ (value ← ns "element value" (message_read item at_ (length VALUE + 10));
    ns "element value head" (expect (take (length VALUE) (w_bytes value)) VALUE) ;;
    mapM (index (drop (length VALUE) (w_bytes value))) DATE_DIGITS)
    (λ digits, ∃ o text, length text = 10 ∧ window_in (message_bytes f ri ki) o (VALUE ++ text) ∧
      D (decimal digits) (of_int (digits_at DATE_DIGITS text))).
Proof.
  rule (gadget_read σ f _ _ _ _ _ Hi) as value (o & bs & Hlb & Hw & HB); [cbn; lia|].
  rule (gadget_prefix σ _ _ VALUE (length VALUE) HB) as ? E; [done|lia|]. cbv beta in E.
  assert (bytes_are D (drop (length VALUE) (w_bytes value)) (drop (length VALUE) bs)) as HB' by by apply Forall2_drop.
  assert (length (drop (length VALUE) bs) = 10) as H10 by (rewrite length_drop; lia).
  eapply gadget_mono; [apply (gadget_digits σ _ _ _ HB')|].
  { rewrite H10. repeat (constructor; [lia|]). constructor. }
  intros digits HD. exists o, (drop (length VALUE) bs). by rewrite <- E.
Qed.

Lemma gadget_device_key at_ :
  gadget σ (key ← ns "device key" (message_read signed at_ (length DEVICE_KEY + 32 + length DEVICE_KEY_Y + 32));
    let x_at := length DEVICE_KEY in
    let y_at := (x_at + 32 + length DEVICE_KEY_Y)%nat in
    ns "device key head" (expect (take x_at (w_bytes key)) DEVICE_KEY) ;;
    ns "device key y head" (expect (slice (x_at + 32) y_at (w_bytes key)) DEVICE_KEY_Y) ;;
    mret {| px := pack_bytes (slice x_at (x_at + 32) (w_bytes key));
            py := pack_bytes (slice y_at (y_at + 32) (w_bytes key)) |})
    (λ q, ∃ o x y, length x = 32 ∧ length y = 32 ∧
      window_in (message_bytes f rs ks) o (DEVICE_KEY ++ x ++ DEVICE_KEY_Y ++ y) ∧
      pt D q {| ax := from_be x; ay := from_be y |}).
Proof.
  rule (gadget_read σ f _ _ _ _ _ Hs) as key (o & bs & Hlb & Hw & HB); [cbn; lia|]. cbv zeta.
  change (length DEVICE_KEY) with 18 in *. change (length DEVICE_KEY_Y) with 3 in *. cbn [Nat.add] in *.
  rule (gadget_prefix σ _ _ DEVICE_KEY 18 HB) as ? E; [done|lia|]. cbv beta in E.
  rule (gadget_expect σ (slice 50 53 (w_bytes key)) (slice 50 53 bs) DEVICE_KEY_Y) as ? E'.
  { by apply Forall2_take, Forall2_drop. }
  { rewrite length_slice; cbn; lia. }
  cbv beta in E'. apply gadget_ret. exists o, (slice 18 50 bs), (slice 53 85 bs).
  rewrite !length_slice by lia. rewrite <- (device_key_bytes bs) by done.
  split_and!; [done..|]. split; cbn [px py ax ay]; rewrite from_be_of_int by (rewrite length_slice; lia);
    by apply (pack_bytes_sem D), Forall2_take, Forall2_drop.
Qed.
End Parts.

(** The bits of a digest, of its two halves. *)
Lemma halves_bits l :
  length l = 32 → int_bits 128 (repr (state_half l 0)) ++ int_bits 128 (repr (state_half l 1)) = be_bits l.
Proof.
  intros Hl. rewrite <- (challenge_bits l) by done. unfold state_half, slice, CHUNK_BYTES.
  change (16 * (0 + 1) - 16 * 0) with 16. change (16 * (1 + 1) - 16 * 1) with 16.
  change (16 * 0) with 0. change (16 * 1) with 16. rewrite drop_0.
  by rewrite (take_ge (drop 16 l)) by (rewrite length_drop; lia).
Qed.

(** The rules of the age credential: the signed message and the item say what
    the facts hold, the signed message lists the item's digest, and the issuer
    signed it, when the issuer's key is a point. *)
Lemma gadget_age_part c cells f g digest w layout :
  constants_on_curve c → 0 < length (c_windows c) ≤ 128 →
  signature_lengths (w_issuer_signature <$> w) →
  holds_chunks D cells f → holds_states D cells g →
  (∀ r, r = Table.signed layout ∨ r = attribute layout →
     digests g digest r ∧ in_table r ∧ (Z.of_nat (blocks r) ≤ 2 ^ 16)%Z) →
  gadget σ (age_part c cells w layout) (λ '(signed, facts), ∃ ks ki issuer d,
    ks < blocks (Table.signed layout) ∧ ki < blocks (attribute layout) ∧
    opened σ f signed (Table.signed layout) ks ∧
    age_reads (message_bytes f (Table.signed layout) ks) (message_bytes f (attribute layout) ki)
      (digest (attribute layout) ki) d ∧
    (on_curve (of_int b256) issuer →
       ∃ r s, accepts c (be_bits (digest (Table.signed layout) ks)) r s issuer) ∧
    facts_denote facts (credential_of issuer d)).
Proof.
  intros Hc Hcw Hsig Hf Hg Hr. unfold age_part.
  destruct (Hr (Table.signed layout)) as (Hd1 & Hin1 & Hb1); [by left|].
  destruct (Hr (attribute layout)) as (Hd2 & Hin2 & Hb2); [by right|].
  rule (gadget_open σ cells f g digest) as [signed [sh sl]] (ks & Hks & Hos & Hls & Hsh & Hsl); [done..|].
  rule (gadget_open σ cells f g digest) as [item [ih il]] (ki & Hki & Hoi & Hli & Hih & Hil); [done..|].
  cbn [fst snd] in Hsh, Hsl, Hih, Hil.
  rule (gadget_point_alloc _) as issuer_key (issuer & Hissuer).
  rule (gadget_digest_bits σ _ _) as bits (Hbits & _ & _).
  unfold denotes in Hsh, Hsl. rewrite Hsh, Hsl in Hbits. rewrite halves_bits in Hbits by done.
  rule (gadget_verify σ c _ _ _ issuer _ Hc Hcw Hbits) as ? Hver; [by apply length_be_bits|done|exact Hsig|].
  cbv beta in Hver.
  rule (gadget_read σ f _ _ _ _ _ Hos) as doc_type (ot & bt & Hlt & Hwt & HBt); [cbn; lia|].
  rule (gadget_listed σ f _ _ _ _ _ _ _ Hos Hli) as ? Hlisted; [done..|]. cbv beta in Hlisted.
  rule (gadget_read σ f _ _ _ _ _ Hoi) as identifier (oi & bi & Hlb & Hwi & HBi); [cbn; lia|].
  apply (gadget_group3 σ _ _ _ _ _ _ (gadget_birth f item _ _ Hoi _)).
  intros birth (ob & tb & Hltb & Hwb & HDb). cbv zeta.
  eapply (gadget_group4 σ _ _ _ _ _ _ _ (gadget_device_key f signed _ _ Hos _)).
  intros key (ok & x & y & Hlx & Hly & Hwk & Hkey).
  rule (gadget_date_time σ f _ _ _ _ _ Hos) as from (oa & tf & Hlf & Hwf & HDf); [cbn; lia|].
  rule (gadget_date_time σ f _ _ _ _ _ Hos) as until (ou & tu & Hlu & Hwu & HDu); [cbn; lia|].
  rule (gadget_window_slots _ _ HBt) as ts Hts. rule (gadget_window_slots _ _ HBi) as ids His.
  apply gadget_ret.
  exists ks, ki, issuer, (Build_age_data bt bi tb x y tf tu).
  split_and!; [done..| | |].
  - split; cbn [ad_type ad_identifier ad_birth ad_x ad_y ad_from ad_until]; eauto 10.
  - intros Hon. by apply Hver.
  - split; done.
Qed.
End Age.

(** * The pseudonym *)
Section Nym.
Context `{Bellpepper} `{Sha2} (σ : Assignment).
Local Abbreviation D := (denotes σ).

(** The signed message lists the ssc item, whose value is [commitment]. *)
Record nym_reads (signed item digest commitment : list byte) : Prop := {
  nr_length : length commitment = 32;
  nr_listed : ∃ o, window_in signed o (DIGEST ++ digest);
  nr_identifier : ∃ o, window_in item o MDOC_IDENTIFIER;
  nr_value : ∃ o, window_in item o (MDOC_VALUE ++ commitment);
}.

Lemma state_half_inj l l' :
  length l = 32 → length l' = 32 → (∀ h, h < 2 → state_half l h = state_half l' h) → l = l'.
Proof.
  intros Hl Hl' HE.
  assert (∀ h, h < 2 → slice (16 * h) (16 * (h + 1)) l = slice (16 * h) (16 * (h + 1)) l') as HS.
  { intros h Hh. specialize (HE h Hh). rewrite !state_half_int in HE by done.
    assert (∀ m : list byte, length m = 32 → length (slice (16 * h) (16 * (h + 1)) m) = 16) as H16.
    { intros m Hm. rewrite length_slice; lia. }
    apply be_int_inj; [by rewrite !H16|].
    pose proof (be_int_range (slice (16 * h) (16 * (h + 1)) l)) as B.
    pose proof (be_int_range (slice (16 * h) (16 * (h + 1)) l')) as B'. rewrite H16 in B, B' by done.
    change (256 ^ Z.of_nat 16)%Z with (2 ^ 128)%Z in *. apply of_int_inj_small; [lia..|done]. }
  assert (∀ m : list byte, length m = 32 → m = slice 0 16 m ++ slice 16 32 m) as Hcut.
  { intros m Hm. unfold slice. rewrite drop_0. rewrite (take_ge (drop 16 m)) by (rewrite length_drop; lia).
    by rewrite take_drop. }
  rewrite (Hcut l), (Hcut l') by done. f_equal; [apply (HS 0)|apply (HS 1)]; lia.
Qed.

(** The rules of the pseudonym's item: its value is the digest of the seed's
    block. *)
Lemma gadget_nym_part cells f g digest w layout regions signed ks :
  Table.pseudonym layout = Some regions → (∀ v, w = Some v → is_Some (w_nym v)) →
  holds_chunks D cells f → holds_states D cells g → (∀ c, repr (f c) < 2 ^ 128)%Z →
  opened σ f signed (Table.signed layout) ks →
  (∀ r, r = ssc regions ∨ r = Table.seed regions ∨ r = nym regions →
     digests g digest r ∧ in_table r ∧ (Z.of_nat (blocks r) ≤ 2 ^ 16)%Z) →
  blocks (Table.seed regions) = 1 → blocks (nym regions) = 2 →
  gadget σ (nym_part cells signed w layout) (λ slots, ∃ ki,
    let n := first (nym regions) in
    ki < blocks (ssc regions) ∧
    nym_reads (message_bytes f (Table.signed layout) ks) (message_bytes f (ssc regions) ki)
      (digest (ssc regions) ki) (digest (Table.seed regions) 0) ∧
    nym_blocks f regions (chunk_bytes f (4 * first (Table.seed regions))) ∧
    Forall2 (λ s v, σ (get_variable s) = v) slots
      [f (4 * (n + 1) + 1); f (4 * (n + 1) + 2); f (4 * (n + 1) + 3);
       state_half (digest (nym regions) 1) 0; state_half (digest (nym regions) 1) 1]).
Proof.
  intros Hreg Hw Hf Hg Hsmall Hos Hr Hseed Hnym. unfold nym_part. rewrite Hreg. cbn [ok_or].
  destruct (Hr (ssc regions)) as (Hd1 & Hin1 & Hb1); [by left|].
  destruct (Hr (Table.seed regions)) as (Hd2 & Hin2 & _); [by right; left|].
  destruct (Hr (nym regions)) as (Hd3 & Hin3 & _); [by right; right|].
  destruct (Hd2 0) as [Hls Hgs]; [lia|]. destruct (Hd3 1) as [Hln Hgn]; [lia|].
  unfold in_table in Hin2, Hin3.
  eapply gadget_bind; [by apply (gadget_ret σ _ (λ r, r = regions))|]. intros ? ->.
  eapply gadget_bind with (P := λ _, True).
  { destruct w as [v|]; [|by apply gadget_ret]. destruct (Hw v eq_refl) as [n ->]. by apply gadget_ret. }
  intros nymw _.
  rule (gadget_open σ cells f g digest) as [item [ih il]] (ki & Hki & Hoi & Hli & Hih & Hil); [done..|].
  rule (gadget_listed σ f _ _ _ _ _ _ _ Hos Hli) as ? Hlisted; [done..|]. cbv beta in Hlisted.
  rule (gadget_read σ f _ _ _ _ _ Hoi) as identifier (oi & bi & Hlb & Hwi & HBi); [cbn; lia|].
  rule (gadget_expect σ _ _ MDOC_IDENTIFIER HBi Hlb) as ? ->.
  rule (gadget_read σ f _ _ _ _ _ Hoi) as value (ov & bv & Hlv & Hwv & HBv); [by vm_compute|].
  rule (gadget_prefix σ _ _ MDOC_VALUE (length MDOC_VALUE) HBv) as ? E; [done|lia|]. cbv beta in E.
  set (commitment := drop (length MDOC_VALUE) bv) in *.
  assert (length commitment = 32) as Hlc by (unfold commitment; rewrite length_drop; unfold SSC_BYTES in *; lia).
  eapply gadget_mono.
  { apply (gadget_commitment σ cells f g regions _ (state_half commitment 0) (state_half commitment 1)); try done; [lia|lia|..];
      unfold denotes; rewrite state_half_int by (done || lia); unfold commitment, slice; rewrite drop_drop;
      apply (pack_bytes_sem D), Forall2_take, Forall2_drop, HBv. }
  intros slots (HB & Hv & Hw' & HF). exists ki. 
  assert (commitment = digest (Table.seed regions) 0) as Ec.
  { apply state_half_inj; [done..|]. intros [|[|h]] Hh; [| |lia].
    - rewrite <- Hv, <- (Nat.add_0_r (first _)). by apply Hgs.
    - rewrite <- Hw', <- (Nat.add_0_r (first _)). apply Hgs. lia. }
  rewrite <- Ec. rewrite <- !Hgn by lia. split_and!; try done. split; [done|eauto..|].
  exists ov. by rewrite <- E.
Qed.
End Nym.
