(* ===== verification/MdocSound.v ===== *)
(** The full statement about an mdoc: what the rules of the core circuit and of
    the step instances force together, on the table that they share. *)
From Stdlib Require Import ZArith Lia Strings.String Strings.Byte.
From stdpp Require Import base list numbers option strings pretty.
From S2P Require Import Prelude Bytes Field ConstraintSystem Shape CheckSystem Bellpepper Lc Values Bits Select Sha256 Table Window Curve P256 Request Calendar Presentation Pseudonym Circuit Step Mdoc MdocRules.

(** A region of the layout is in a list of regions. *)
Local Ltac region := repeat (apply list_elem_of_here || apply list_elem_of_further).

Section Statement.
Context `{Bellpepper} `{Sha2}.

(** The digest after the blocks, from the words [st]. *)
Definition chain_digest (st : list Z) (bs : list (list byte)) : list byte := words_to_bytes (run_blocks st bs).

(** The specification: the verifier's values [p] and [n] hold of messages that
    the issuer signed.  The signed message's chain starts from the state that
    the prover names, since the circuit covers only its last blocks. *)
Definition mdoc_statement (c : Constants) (p : Public) (n : NymPublic) : Prop :=
  ∃ (before : list Z) (signed item ssc_item : list (list byte)) (d : age_data) (seed : list byte),
    let issuer := {| ax := from_be (key_x (issuer_key p)); ay := from_be (key_y (issuer_key p)) |} in
    hash_state before ∧ Forall (λ b, length b = 64) (signed ++ item ++ ssc_item) ∧
    (on_curve (of_int b256) issuer → ∃ r s, accepts c (be_bits (chain_digest before signed)) r s issuer) ∧
    age_reads (concat signed) (concat item) (chain_digest IV item) d ∧
    accepted c p (credential_of issuer d) ∧
    length seed = SEED_BYTES ∧
    nym_reads (concat signed) (concat ssc_item) (chain_digest IV ssc_item) (sha256 seed) ∧
    np_pseudonym n = pseudonym seed (verifier_input n).

(** The numbers of a credential that is read have the lengths that the
    presentation's rules rely on. *)
Lemma credential_of_ok p issuer signed item digest d :
  Request.windows (request p) = [WINDOWS.1; WINDOWS.2] →
  age_reads signed item digest d → credential_ok p (credential_of issuer d).
Proof.
  intros Hw [(Ht & Hi & Hb & Hx & Hy & Hf & Hu) _ _ _ _ _ _ _]. injection Hw as E1 E2.
  unfold credential_ok. cbn [cr_birth cr_from cr_until cr_type cr_attribute credential_of].
  rewrite E1, E2. split_and!; [apply digits_bound; cbn; lia..|done|done].
Qed.

(** The words that a signed message's chain starts from, and the digest at a
    block of a region. *)
Definition region_digest (τ : Assignment) (r : Region) (k : nat) : list byte :=
  chain_digest (region_start (slot_state τ) (slot_start τ) FULL_MDOC r) (region_blocks (slot_chunk τ) r (S k)).

Lemma length_chain_digest st bs :
  hash_state st → Forall (λ b, length b = 64) bs → length (chain_digest st bs) = 32.
Proof.
  intros Hst Hbs. destruct (run_blocks_hash_state st bs Hst Hbs) as [Hl _]. unfold chain_digest.
  rewrite length_words_to_bytes, Hl. done.
Qed.

(** Blocks that spell a padded message. *)
Lemma chunks_concat (bs : list (list byte)) : Forall (λ b, length b = 64) bs → chunks 64 (concat bs) = bs.
Proof.
  induction 1 as [|b bs Hb _ IH]; [done|]. cbn [concat]. rewrite chunks_app by (done || lia). by rewrite IH.
Qed.

Lemma chain_sha256 bs m :
  Forall (λ b, length b = 64) bs → concat bs = pad m → (Z.of_nat (length m) < 2 ^ 61)%Z →
  chain_digest IV bs = sha256 m.
Proof. intros Hb E Hm. by rewrite sha256_chain, <- E, chunks_concat. Qed.

Definition full_regions : list Region :=
  [Table.signed FULL_MDOC; attribute FULL_MDOC; ssc FULL_REGIONS; Table.seed FULL_REGIONS; nym FULL_REGIONS].

Lemma full_layout_ok : layout_ok FULL_MDOC.
Proof. split; [done|cbn; lia]. Qed.

Lemma full_region r :
  r ∈ full_regions → in_table r ∧ unbroken FULL_MDOC r ∧ (Z.of_nat (blocks r) ≤ 2 ^ 16)%Z.
Proof.
  unfold full_regions. rewrite !elem_of_cons, elem_of_nil.
  intros [->|[->|[->|[->|[->|[]]]]]]; (split; [unfold in_table, POSITIONS; cbn; lia|split; [|cbn; lia]]);
    intros k Hk; cbn [first blocks Table.signed attribute ssc Table.seed nym FULL_MDOC FULL_REGIONS] in *; (split; [|lia]);
    unfold starts_from_iv; cbn [first Table.signed attribute ssc Table.seed nym Table.pseudonym FULL_MDOC FULL_REGIONS];
    by repeat (rewrite (proj2 (Nat.eqb_neq _ _)) by lia).
Qed.

(** Every region but the first starts from the initial value. *)
Lemma region_digest_iv τ r k :
  r ∈ tail full_regions → region_digest τ r k = chain_digest IV (region_blocks (slot_chunk τ) r (S k)).
Proof.
  intros Hr. unfold region_digest. rewrite region_start_iv; [done|..];
    cbn [tail full_regions] in Hr; rewrite !elem_of_cons, elem_of_nil in Hr;
    by destruct Hr as [->|[->|[->|[->|[]]]]].
Qed.
End Statement.

(** * The rules together *)
Section Together.
Context `{CompressionGadget} `{Sha2} (τ : Assignment).
Hypothesis HT : table_ok (slot_chunk τ) (slot_state τ) (slot_start τ) FULL_MDOC.

Lemma region_digests r : r ∈ full_regions → digests (slot_state τ) (region_digest τ) r.
Proof.
  intros Hr k Hk. destruct (full_region r Hr) as (Hin & Hu & _). split.
  - apply length_chain_digest; [apply region_start_hash|apply region_blocks_64].
  - intros h Hh. by apply (region_states (slot_chunk τ) (slot_state τ) (slot_start τ) FULL_MDOC r k).
Qed.

Lemma full_digests r :
  r ∈ full_regions → digests (slot_state τ) (region_digest τ) r ∧ in_table r ∧ (Z.of_nat (blocks r) ≤ 2 ^ 16)%Z.
Proof. intros Hr. destruct (full_region r Hr) as (? & _ & ?). split; [by apply region_digests|done]. Qed.

(** What the rules before the presentation force, in the slots of an instance
    that shares the table. *)
Record core_reads (c : Constants) (σ : Assignment) (slots : list AllocatedNum) (issuer : Affine)
    (d : age_data) (ks ki kc : nat) : Prop := {
  cr_facts : ∃ fs ns, slots = fs ++ ns ∧ facts_hold σ fs (credential_of issuer d) ∧
    Forall2 (λ s v, σ (get_variable s) = v) ns
      [slot_chunk τ 117; slot_chunk τ 118; slot_chunk τ 119;
       state_half (region_digest τ (nym FULL_REGIONS) 1) 0; state_half (region_digest τ (nym FULL_REGIONS) 1) 1];
  cr_age : age_reads (message_bytes (slot_chunk τ) (Table.signed FULL_MDOC) ks)
    (message_bytes (slot_chunk τ) (attribute FULL_MDOC) ki) (region_digest τ (attribute FULL_MDOC) ki) d;
  cr_signature : on_curve (of_int b256) issuer →
    ∃ r s, accepts c (be_bits (region_digest τ (Table.signed FULL_MDOC) ks)) r s issuer;
  cr_nym : nym_reads (message_bytes (slot_chunk τ) (Table.signed FULL_MDOC) ks)
    (message_bytes (slot_chunk τ) (ssc FULL_REGIONS) kc) (region_digest τ (ssc FULL_REGIONS) kc)
    (region_digest τ (Table.seed FULL_REGIONS) 0);
  cr_blocks : nym_blocks (slot_chunk τ) FULL_REGIONS (chunk_bytes (slot_chunk τ) 120);
}.

(** A core's witness, as [MdocNymCore::new] builds it. *)
Definition core_ok (core : MdocNymCore) : Prop :=
  (∀ w, core_witness core = Some w → is_Some (w_nym w)) ∧
  signature_lengths (w_issuer_signature <$> core_witness core) ∧
  presentation_ok WINDOWS (core_presentation core).

Lemma gadget_core_precommitted c (σ : Assignment) core cells :
  constants_on_curve c → 0 < length (c_windows c) ≤ 128 → core_ok core →
  table_cells (denotes σ) cells (slot_chunk τ) (slot_state τ) (slot_start τ) →
  gadget σ (core_precommitted c core cells)
    (λ slots, ∃ issuer d ks ki kc, core_reads c σ slots issuer d ks ki kc).
Proof.
  intros Hc Hcw (Hw & Hsig & _) [Hf Hg _]. unfold core_precommitted.
  pose proof (slot_chunks_small FULL_MDOC τ eq_refl HT) as Hsmall.
  eapply gadget_bind.
  { eapply (gadget_age_part σ c cells _ _ (region_digest τ) _ FULL_MDOC Hc Hcw Hsig Hf Hg).
    intros r [->| ->]; apply full_digests; region. }
  intros [signed facts] (ks & ki & issuer & d & Hks & Hki & Hos & Hage & Hiss & Hfacts). cbv beta iota.
  eapply gadget_bind; [by eapply gadget_ns, gadget_into_slots|]. intros fs Hfs.
  eapply gadget_bind.
  { eapply gadget_ns, (gadget_nym_part σ cells _ _ (region_digest τ) _ FULL_MDOC FULL_REGIONS signed ks
      eq_refl Hw Hf Hg Hsmall Hos); [|done|done].
    intros r [->|[->| ->]]; apply full_digests; region. }
  intros ns (kc & Hkc & Hnr & Hnb & Hns). apply gadget_ret. exists issuer, d, ks, ki, kc.
  split; [|done..]. by exists fs, ns.
Qed.

(** The statement, once the presentation's values are those of the facts. *)
Lemma core_statement c σ slots p n d ks ki kc :
  let issuer := {| ax := from_be (key_x (issuer_key p)); ay := from_be (key_y (issuer_key p)) |} in
  core_reads c σ slots issuer d ks ki kc → accepted c p (credential_of issuer d) →
  length (verifier_input n) = 32 → length (np_pseudonym n) = 32 →
  slot_chunk τ 117 = from_be (take 9 (verifier_input n)) →
  slot_chunk τ 118 = from_be (slice 9 25 (verifier_input n)) →
  slot_chunk τ 119 = (from_be (drop 25 (verifier_input n)) * two_72 + last_chunk_padding)%S →
  (∀ h, h < 2 → state_half (region_digest τ (nym FULL_REGIONS) 1) h = state_half (np_pseudonym n) h) →
  mdoc_statement c p n.
Proof.
  intros issuer [_ Hage Hsig Hnym Hb] Hacc Hlv Hln H117 H118 H119 Hps.
  set (f := slot_chunk τ) in *. set (seed := chunk_bytes f 120).
  pose proof Hb as (Hls & Hseed & _).
  assert (∀ r, r ∈ full_regions → in_table r) as Hin by (intros r Hr; by apply full_region).
  exists (region_start (slot_state τ) (slot_start τ) FULL_MDOC (Table.signed FULL_MDOC)),
    (region_blocks f (Table.signed FULL_MDOC) (S ks)), (region_blocks f (attribute FULL_MDOC) (S ki)),
    (region_blocks f (ssc FULL_REGIONS) (S kc)), d, seed.
  fold issuer. rewrite <- !(region_digest_iv τ) by region.
  split_and!; try done.
  - apply region_start_hash.
  - by rewrite !Forall_app; split_and!; apply region_blocks_64.
  - replace (sha256 seed) with (region_digest τ (Table.seed FULL_REGIONS) 0); [done|].
    rewrite region_digest_iv by region.
    apply chain_sha256; [apply region_blocks_64| |fold seed in Hls; rewrite Hls; lia].
    unfold region_blocks. cbn [seq fmap list_fmap concat]. by rewrite app_nil_r.
  - unfold pseudonym. rewrite <- (chain_sha256 (region_blocks f (nym FULL_REGIONS) 2)).
    + replace (chain_digest IV (region_blocks f (nym FULL_REGIONS) 2)) with (region_digest τ (nym FULL_REGIONS) 1)
        by (apply region_digest_iv; region).
      symmetry. apply state_half_inj; [|done|done].
      by apply (region_digests (nym FULL_REGIONS)); [region|cbn; lia].
    + apply region_blocks_64.
    + unfold region_blocks. cbn [seq fmap list_fmap concat]. rewrite app_nil_r.
      by apply (nym_message f FULL_REGIONS seed).
    + rewrite length_message by done. lia.
Qed.
End Together.

(** * The statement *)
Section Sound.
Context `{CompressionGadget} `{Sha2}.

Lemma age_reads_lengths signed item digest d issuer (σ : Assignment) fs :
  age_reads signed item digest d → facts_hold σ fs (credential_of issuer d) →
  length fs = BASE_VALUES + w_len WINDOWS.1 + w_len WINDOWS.2.
Proof.
  intros [(Ht & Hi & _) _ _ _ _ _ _ _] (ix & iy & bd & vf & vu & dx & dy & tn & an & -> & _ & _ & _ & _ & _ & HT & HA).
  apply Forall2_length in HT, HA. cbn [cr_type cr_attribute credential_of] in HT, HA.
  rewrite !length_app, HT, HA, Ht, Hi. done.
Qed.

Lemma wp_core_synthesize c σ τ core slots p n issuer d ks ki kc na :
  table_ok (slot_chunk τ) (slot_state τ) (slot_start τ) FULL_MDOC →
  constants_on_curve c → 0 < length (c_windows c) ≤ 128 → core_ok core →
  public_ok p → Request.windows (request p) = [WINDOWS.1; WINDOWS.2] →
  length (verifier_input n) = 32 → length (np_pseudonym n) = 32 →
  core_reads τ c σ slots issuer d ks ki kc →
  (∀ j v, (Presentation.public_values Digits p ++ nym_values n) !! j = Some v → σ (Input (1 + j)) = v) →
  wp σ (core_synthesize c core slots) na 1 (λ _ _ _, mdoc_statement c p n).
Proof.
  intros HT Hc Hcw (_ & _ & Hpr) Hp Hw Hlv Hlp HR Hpub.
  pose proof HR as [(fs & ns & -> & Hfs & Hns) Hage _ _ _].
  pose proof (age_reads_lengths _ _ _ _ _ _ _ Hage Hfs) as Hlf.
  pose proof (Forall2_length _ _ _ Hns) as Hln. unfold core_synthesize.
  rewrite (proj2 (Nat.eqb_eq _ _)) by (rewrite length_app, Hlf, Hln; done). cbn [negb]. cbv zeta.
  rewrite <- Hlf, take_app_length, drop_app_length.
  apply wp_bind, wp_ns. eapply wp_mono.
  { pose proof Hw as [= E1 E2].
    pose proof (wp_check_facts σ c fs (core_presentation core) p (credential_of issuer d) na 1 Hc Hcw Hp
      (credential_of_ok _ _ _ _ _ _ Hw Hage) Hfs) as HP. cbv zeta in HP. rewrite E1, E2 in HP. apply HP; [done|].
    intros j v E. apply Hpub. by apply lookup_app_l_Some. }
  intros [] na1 ni1 (-> & Hacc). cbv beta. apply wp_ns. eapply wp_mono.
  { apply (wp_check_nym σ ns n _ na1 _ Hns eq_refl). intros j v E. rewrite <- Nat.add_assoc. apply Hpub.
    rewrite lookup_app_r by lia. by replace (length (Presentation.public_values Digits p) + j - length (Presentation.public_values Digits p)) with j by lia. }
  intros [] na2 ni2 (_ & Hvs). injection Hvs as H117 H118 H119 Hh Hl.
  assert (issuer = {| ax := from_be (key_x (issuer_key p)); ay := from_be (key_y (issuer_key p)) |}) as ->
    by by apply (acc_issuer _ _ _ Hacc).
  eapply (core_statement τ HT c σ (fs ++ ns) p n d ks ki kc); try done.
  intros [|[|h]] Hh'; [| |lia]; [refine (eq_trans Hh _)|refine (eq_trans Hl _)]; unfold state_half, slice, CHUNK_BYTES; cbn [Nat.mul Nat.add Nat.sub].
  - by rewrite drop_0.
  - by rewrite (take_ge (drop 16 _)) by (rewrite length_drop; lia).
Qed.

(** The rules together, from the first slot. *)
Lemma wp_statement c (steps : nat → Assignment) (σ τ : Assignment) core p n :
  steps_hold FULL_MDOC steps τ → share_table σ τ →
  constants_on_curve c → 0 < length (c_windows c) ≤ 128 → core_ok core →
  public_ok p → Request.windows (request p) = [WINDOWS.1; WINDOWS.2] →
  length (verifier_input n) = 32 → length (np_pseudonym n) = 32 →
  (∀ j v, (Presentation.public_values Digits p ++ nym_values n) !! j = Some v → σ (Input (1 + j)) = v) →
  wp σ (synthesis (VegaCircuit0 := core_circuit c) core) 0 1 (λ _ _ _, mdoc_statement c p n).
Proof.
  intros Hsteps Hτ Hc Hcw Hcore Hp Hw Hlv Hlp Hpub.
  pose proof (steps_table_ok _ _ _ full_layout_ok Hsteps) as HT. unfold synthesis.
  apply wp_bind, wp_ns. cbn [shared core_circuit]. apply wp_ns. eapply wp_mono; [apply wp_allocate|].
  intros cells na ni (_ & -> & Hl & Hs). cbv beta. apply wp_bind, wp_ns. cbn [precommitted core_circuit].
  eapply wp_gadget.
  { eapply (gadget_core_precommitted τ HT c σ core cells Hc Hcw Hcore). by apply slots_table_cells. }
  intros slots na' (issuer & d & ks & ki & kc & HR). cbv beta. apply wp_ns. cbn [synthesize core_circuit].
  by eapply wp_core_synthesize.
Qed.

(** C3: Whoever assigns the slots, when every step instance holds its rules
    over the shared table and the core's public values are those that the
    verifier names, the rules of the core force the statement about the
    credential: a message that the issuer signed says the document type, the
    validity and the device's key and lists the digests of the item, which
    says the age attribute, and of the ssc item, whose value commits to the
    seed of the pseudonym; and the presentation's rules hold of them. *)
Theorem statement_sound c (steps : nat → Assignment) (σ τ : Assignment) core p n :
  steps_hold FULL_MDOC steps τ → share_table σ τ →
  constants_on_curve c → 0 < length (c_windows c) ≤ 128 → core_ok core →
  public_ok p → Request.windows (request p) = [WINDOWS.1; WINDOWS.2] →
  length (verifier_input n) = 32 → length (np_pseudonym n) = 32 →
  (∀ j v, (Presentation.public_values Digits p ++ nym_values n) !! j = Some v → σ (Input (1 + j)) = v) →
  wp σ (synthesis (VegaCircuit0 := core_circuit c) core) 0 1 (λ _ _ _, mdoc_statement c p n).
Proof. apply wp_statement. Qed.
End Sound.
