(* ===== verification/App.v ===== *)
(** [app.rs]: the witness of a proof, the search for the rule that a witness
    breaks, and the acceptance of a proof.

    The prover is third-party code: the class [VegaProver] has its operations
    and no law.  What acceptance relies on is a hypothesis of the theorems about
    it.  [Circuit] has segments, instances and their replays. *)
From Stdlib Require Import ZArith Lia Strings.String Strings.Byte.
From stdpp Require Import base list numbers option strings.
From S2P Require Import Prelude Bytes Field ConstraintSystem Shape CheckSystem Bellpepper Lc Values Table Window Pseudonym Circuit Step.

(** [rayon::join]: both run, and a panic of either is a panic. *)
Definition rayon_join {E A B} (a : outcome E A) (b : outcome E B) : outcome E (outcome E A * outcome E B) :=
  match a, b with
  | Panic w, _ | _, Panic w => Panic w
  | _, _ => Ok (a, b)
  end.

Section FirstBroken.
Context `{Bellpepper}.

(** [first_broken]. *)
Definition first_broken {C} `{!VegaCircuit C} (circuit : C) : outcome SynthesisError (option string) :=
  let cs := {| cs_aux := []; cs_inputs := [ONE]; cs_path := []; cs_broken := None |} in
  let '(synthesis, cs) := run (Circuit.synthesis circuit) cs in
  match synthesis, cs_broken cs with
  | Panic w, _ => Panic w
  | _, Some path => Ok (Some path)
  | _, None => synthesis ;; Ok None
  end.
End FirstBroken.

Section Witness.
Context `{CompressionGadget} `{Sha2}.

(** [struct Assignment], [Assignment::steps], [Assignment::core]. *)
Record Assignment := mkAssignment { a_shared : Segment; a_steps : list Instance; a_core : Instance }.
Definition replay_steps (a : Assignment) : list Replay :=
  (λ i, {| r_shared := a_shared a; r_instance := i |}) <$> a_steps a.
Definition replay_core (a : Assignment) : Replay := {| r_shared := a_shared a; r_instance := a_core a |}.

(** [steps]. *)
Definition steps (table : Table) : list Step :=
  (λ position, step_new position table) <$> range (instances (t_layout table)).

(** [witness]. *)
Definition witness {C} `{!VegaCircuit C} (steps : list Step) (core : C) : outcome SynthesisError Assignment :=
  first ← ok_or AssignmentMissing (head steps);
  let cs := generator_new in
  let start := mark cs in
  let '(shared_values, cs) := generate (shared first) cs in
  shared_values ← shared_values;
  let shared := since cs start in
  '(steps, core) ← rayon_join (mapM step_assignment steps) (instance core shared_values);
  steps ← steps;
  core ← core;
  Ok {| a_shared := shared; a_steps := steps; a_core := core |}.
End Witness.

(** * Acceptance *)

(** [vega_prover]: its keys, prepared states and proofs, and the calls. *)
Class VegaProver `{Bellpepper} := {
  VegaError : Type;
  (** [VegaError::InternalError { reason }], and [{e:?}]. *)
  InternalError : string → VegaError;
  vega_debug : VegaError → string;
  VegaMcProverKey : Type;
  VegaMcVerifierKey : Type;
  VegaMcPrepZkSNARK : Type;
  VegaMcZkSNARK : Type;
  vega_setup {S C} `{!VegaCircuit S} `{!VegaCircuit C} :
    S → C → nat → outcome VegaError (VegaMcProverKey * VegaMcVerifierKey);
  vega_prep_prove {S C} `{!VegaCircuit S} `{!VegaCircuit C} :
    VegaMcProverKey → list S → C → bool → outcome VegaError VegaMcPrepZkSNARK;
  vega_prove {S C} `{!VegaCircuit S} `{!VegaCircuit C} :
    VegaMcProverKey → list S → C → VegaMcPrepZkSNARK → bool → outcome VegaError (VegaMcZkSNARK * VegaMcPrepZkSNARK);
  (** The public values of the step instances, and of the core. *)
  vega_verify : VegaMcZkSNARK → VegaMcVerifierKey → nat → outcome VegaError (list (list Scalar) * list Scalar);
}.

Definition SMALL_VALUES : bool := false.

Section Acceptance.
Context `{VegaProver}.

(** [prepare], [prove]. *)
Definition prepare {S C} `{!VegaCircuit S} `{!VegaCircuit C} (pk : VegaMcProverKey) (steps : list S) (core : C)
    : outcome VegaError VegaMcPrepZkSNARK :=
  vega_prep_prove pk steps core SMALL_VALUES.
Definition prove {S C} `{!VegaCircuit S} `{!VegaCircuit C} (pk : VegaMcProverKey) (steps : list S) (core : C)
    (prepared : VegaMcPrepZkSNARK) : outcome VegaError (VegaMcZkSNARK * VegaMcPrepZkSNARK) :=
  vega_prove pk steps core prepared SMALL_VALUES.

(** [enum Rejection]. *)
Inductive Rejection :=
  | Invalid (e : VegaError)
  | Position (instance : nat) (reported : list Scalar)
  | PublicValues (reported : list Scalar).

(** [verified]. *)
Definition verified (layout : Layout) (vk : VegaMcVerifierKey) (proof : VegaMcZkSNARK)
    : outcome Rejection (list Scalar) :=
  '(steps, core) ← map_err Invalid (vega_verify proof vk (instances layout));
  foldM (λ _ '(instance, reported),
    if bool_decide (reported = [from_u64 (Z.of_nat instance)]) then Ok tt
    else Err (Position instance reported)) tt (imap (λ i reported, (i, reported)) steps) ;;
  Ok core.

(** [accept_pseudonym]. *)
Definition accept_pseudonym (layout : Layout) (vk : VegaMcVerifierKey) (proof : VegaMcZkSNARK)
    (expected : list Scalar) : outcome Rejection (list byte) :=
  core ← verified layout vk proof;
  let pseudonym :=
    if (length core =? length expected + 2)%nat && bool_decide (take (length expected) core = expected)
    then pseudonym_of core else None in
  ok_or (PublicValues core) pseudonym.
End Acceptance.

(** * The first broken rule *)
Section Named.
Context `{LinearCombinations}.

(** The rules of [shape], each with the path of its name. *)
Fixpoint named_rules {A} (m : Synth A) (path : list string) (na ni : nat) : list (string * Rule) :=
  match m with
  | Return _ | Fail' _ | Panic' _ | ExtendAux _ _ | ExtendInputs _ _ => []
  | Alloc _ _ k => named_rules (k (Aux na)) path (S na) ni
  | AllocInput _ _ k => named_rules (k (Input ni)) path na (S ni)
  | Enforce name a b c k =>
      (join "/" (path ++ [name]), {| rule_a := a; rule_b := b; rule_c := c |}) :: named_rules k path na ni
  | PushNamespace name k => named_rules k (path ++ [name]) na ni
  | PopNamespace k => named_rules k (take (length path - 1) path) na ni
  | IsWitnessGenerator k => named_rules (k false) path na ni
  end.

Lemma named_rules_shape {A} (m : Synth A) path na ni :
  (named_rules m path na ni).*2 = (shape m na ni).1.1.
Proof.
  revert path na ni. induction m as [a|e|w|n v k IH|n v k IH|n a b c k IH|n k IH|k IH|k IH|vs k IH|vs k IH];
    intros path na ni; cbn; auto.
  rewrite IH. by destruct (shape k na ni) as [[rs r] n'].
Qed.

(** After a rule broke, nothing more is recorded. *)
Lemma run_stopped {A} (m : Synth A) st w :
  cs_broken st = Some w →
  let st' := (run m st).2 in
  cs_broken st' = Some w ∧ cs_aux st' = cs_aux st ∧ cs_inputs st' = cs_inputs st.
Proof.
  revert st. induction m as [a|e|w'|n v k IH|n v k IH|n a b c k IH|n k IH|k IH|k IH|vs k IH|vs k IH];
    intros st Hb; cbn; try done.
  - unfold cs_alloc. by rewrite Hb.
  - unfold cs_alloc_input. by rewrite Hb.
  - unfold cs_enforce. rewrite Hb. by apply IH.
  - by apply (IH (cs_push_namespace n st)).
  - by apply (IH (cs_pop_namespace st)).
  - by apply IH.
Qed.

(** Where a run that starts whole ends: with the values of the first rule that
    they break, or with none broken. *)
Definition breaks_at (σ : Var → Scalar) (rules : list (string * Rule)) (path : string) : Prop :=
  ∃ before r after, rules = before ++ (path, r) :: after ∧ Forall (λ r, holds σ r.2) before ∧ ¬ holds σ r.

Lemma cs_enforce_cases name a b c st o st' :
  cs_enforce name a b c st = (o, st') → cs_broken st = None →
  (o = Ok tt ∧ st' = st ∧ ∀ σ, agrees σ st → holds σ {| rule_a := a; rule_b := b; rule_c := c |}) ∨
  (o = Ok tt ∧ cs_aux st' = cs_aux st ∧ cs_inputs st' = cs_inputs st ∧
     cs_broken st' = Some (join "/" (cs_path st ++ [name])) ∧
     ∀ σ, agrees σ st → ¬ holds σ {| rule_a := a; rule_b := b; rule_c := c |}) ∨
  (st' = st ∧ o ≠ Ok tt).
Proof.
  unfold cs_enforce. intros E Hb. rewrite Hb in E.
  destruct (cs_value st a) as [va|e|w] eqn:Ea; [|by right; right; simplify_eq/=..].
  destruct (cs_value st b) as [vb|e|w] eqn:Eb; [|by right; right; simplify_eq/=..].
  destruct (cs_value st c) as [vc|e|w] eqn:Ec; [|by right; right; simplify_eq/=..].
  cbn [mbind outcome_bind mret outcome_ret] in E.
  assert (∀ σ, agrees σ st → holds σ {| rule_a := a; rule_b := b; rule_c := c |} ↔ (va * vb)%S = vc) as HE.
  { intros σ Hσ. unfold holds. cbn [rule_a rule_b rule_c].
    by rewrite (cs_value_eval σ st a va), (cs_value_eval σ st b vb), (cs_value_eval σ st c vc). }
  case_bool_decide; simplify_eq/=.
  - left. split_and!; [done..|]. intros σ Hσ. by apply HE.
  - right; left. split_and!; [done..|]. intros σ Hσ. by rewrite HE.
Qed.

Lemma run_continues {A} (m : Synth A) st : continues st (run m st).2.
Proof.
  revert st. induction m as [a|e|w|n v k IH|n v k IH|n a b c k IH|n k IH|k IH|k IH|vs k IH|vs k IH];
    intros st; cbn; try by apply continues_refl.
  - unfold cs_alloc. destruct (cs_broken st); [by apply continues_refl|].
    destruct v as [x|e|w]; [|by apply continues_refl..]. eapply continues_trans; [|apply IH].
    split; [by exists [x]|exists []; by rewrite app_nil_r].
  - unfold cs_alloc_input. destruct (cs_broken st); [by apply continues_refl|].
    destruct v as [x|e|w]; [|by apply continues_refl..]. eapply continues_trans; [|apply IH].
    split; [exists []; by rewrite app_nil_r|by exists [x]].
  - assert (continues st (cs_enforce n a b c st).2) as HC.
    { unfold cs_enforce. destruct (cs_broken st); [by apply continues_refl|].
      destruct (va ← _; _) as [[]|e|w]; by apply continues_refl. }
    destruct (cs_enforce n a b c st) as [[u|e|w] st1]; [|done..]. eapply continues_trans; [exact HC|apply IH].
  - apply (IH (cs_push_namespace n st)).
  - apply (IH (cs_pop_namespace st)).
  - apply IH.
Qed.

Lemma run_breaks σ {A} (m : Synth A) st path :
  cs_broken st = None → cs_broken (run m st).2 = Some path → agrees σ (run m st).2 →
  breaks_at σ (named_rules m (cs_path st) (length (cs_aux st)) (length (cs_inputs st))) path.
Proof.
  revert st. induction m as [a|e|w|n v k IH|n v k IH|n a b c k IH|n k IH|k IH|k IH|vs k IH|vs k IH];
    intros st Hb Hbr Ha; cbn [run snd] in Hbr, Ha; cbn [named_rules]; try congruence.
  - unfold cs_alloc in Hbr, Ha. rewrite Hb in Hbr, Ha. destruct v as [x|e|w]; cbn [snd] in Hbr; [|congruence..].
    apply IH in Hbr; [|done|done]. cbn [cs_aux cs_inputs cs_path] in Hbr.
    by rewrite length_app, Nat.add_1_r in Hbr.
  - unfold cs_alloc_input in Hbr, Ha. rewrite Hb in Hbr, Ha. destruct v as [x|e|w]; cbn [snd] in Hbr; [|congruence..].
    apply IH in Hbr; [|done|done]. cbn [cs_aux cs_inputs cs_path] in Hbr.
    by rewrite length_app, Nat.add_1_r in Hbr.
  - destruct (cs_enforce n a b c st) as [o st1] eqn:E.
    destruct (cs_enforce_cases n a b c st o st1 E Hb) as [(-> & -> & Hh)|[(-> & Eaux & Ein & Eb & Hn)|[-> Ho]]].
    + specialize (IH _ Hb Hbr Ha) as (before & r & after & -> & HF & Hr).
      exists ((join "/" (cs_path st ++ [n]), {| rule_a := a; rule_b := b; rule_c := c |}) :: before), r, after.
      split_and!; [done| |done]. constructor; [|done]. apply Hh.
      eapply agrees_continues; [apply (run_continues k st)|done].
    + destruct (run_stopped k st1 _ Eb) as (Eb' & Eaux' & Ein'). rewrite Eb' in Hbr. injection Hbr as <-.
      eexists [], _, _. split_and!; [done|done|]. apply Hn.
      intros v x Hv. apply Ha. destruct v; cbn [cs_lookup] in *; congruence.
    + destruct o as [[]|e|w]; cbn [snd] in Hbr; [done|congruence..].
  - by apply (IH (cs_push_namespace n st)).
  - by apply (IH (cs_pop_namespace st)).
  - by apply IH.
Qed.
End Named.

(** * Properties *)
Section FirstBrokenProperties.
Context `{Bellpepper}.

(** C4: [first_broken] answers with the path of the first rule that the values
    of the synthesis break, in the order of the circuit's rules and after rules
    that they satisfy; it answers that there is none exactly when the synthesis
    succeeds and its values satisfy every rule of the shape; and its errors are
    the synthesis's own. *)
Theorem first_broken_exact {C} `{!VegaCircuit C} (circuit : C) :
  let rules := named_rules (synthesis circuit) [] 0 1 in
  let '(result, st) := run (synthesis circuit) check_new in
  let σ := recorded_as st in
  rules.*2 = (shape (synthesis circuit) 0 1).1.1 ∧
  (∀ path, first_broken circuit = Ok (Some path) → breaks_at σ rules path) ∧
  (first_broken circuit = Ok None ↔ result = Ok tt ∧ Forall (λ r, holds σ r.2) rules) ∧
  (∀ e, first_broken circuit = Err e → result = Err e ∧ cs_broken st = None).
Proof.
  cbv zeta. unfold first_broken. fold check_new. destruct (run (synthesis circuit) check_new) as [result st] eqn:E.
  assert (has_one (store st)) as Ho.
  { destruct (run_continues (synthesis circuit) check_new) as [_ [l Hl]]. rewrite E in Hl. cbn [snd] in Hl.
    unfold has_one, s_lookup. cbn [store s_inputs]. by rewrite Hl. }
  pose proof (agrees_recorded_as st Ho) as Ha. split; [apply named_rules_shape|].
  assert (∀ path, cs_broken st = Some path →
    breaks_at (recorded_as st) (named_rules (synthesis circuit) [] 0 1) path) as HB.
  { intros path Eb. pose proof (run_breaks (recorded_as st) (synthesis circuit) check_new path eq_refl) as HB.
    rewrite E in HB. by apply HB. }
  split_and!.
  - intros path Ep. assert (cs_broken st = Some path) as Eb.
    { destruct result as [[]|e|w], (cs_broken st) as [p'|]; cbn in Ep; simplify_eq; done. }
    by apply HB.
  - split.
    2: { intros [-> HF]. destruct (cs_broken st) as [path|] eqn:Eb; [|done]. exfalso.
         destruct (HB path eq_refl) as (before & r & after & Er & _ & Hr). rewrite Er in HF.
         apply Forall_app in HF as [_ HF]. by inversion HF. }
    intros Ep. destruct result as [[]|e|w], (cs_broken st) as [p'|] eqn:Eb; cbn in Ep; simplify_eq. split; [done|].
    pose proof (run_satisfies (recorded_as st) (synthesis circuit) check_new tt st E Eb Ha) as HS.
    unfold satisfies in HS. rewrite <- (named_rules_shape _ []) in HS. rewrite Forall_fmap in HS. exact HS.
  - intros e Ep. destruct result as [[]|e'|w], (cs_broken st) as [p'|] eqn:Eb; cbn in Ep; simplify_eq. done.
Qed.
End FirstBrokenProperties.

Section AcceptanceProperties.
Context `{VegaProver}.

Lemma positions_checked (steps : list (list Scalar)) k :
  foldM (λ _ '(instance, reported),
    if bool_decide (reported = [from_u64 (Z.of_nat instance)]) then Ok tt
    else Err (Position instance reported)) tt (imap (λ i reported, ((k + i)%nat, reported)) steps) = Ok tt ↔
  ∀ i reported, steps !! i = Some reported → reported = [from_u64 (Z.of_nat (k + i))].
Proof.
  revert k. induction steps as [|r steps IH]; intros k; [done|]. cbn [imap foldM]. rewrite Nat.add_0_r.
  case_bool_decide as Er; cbn [mbind outcome_bind].
  - rewrite (imap_ext _ (λ i reported, ((S k + i)%nat, reported))) by (intros; cbn; f_equal; lia).
    rewrite IH. split.
    + intros HI [|i] reported E; [cbn in E; simplify_eq; by rewrite Nat.add_0_r|].
      rewrite (HI i reported E). do 3 f_equal. lia.
    + intros HI i reported E. rewrite (HI (S i) reported E). do 3 f_equal. lia.
  - split; [done|]. intros HI. destruct Er. rewrite (HI 0%nat r eq_refl). by rewrite Nat.add_0_r.
Qed.

(** When a proof is accepted. *)
Lemma accept_pseudonym_Ok layout vk proof expected ps :
  accept_pseudonym layout vk proof expected = Ok ps ↔
  ∃ steps, vega_verify proof vk (instances layout)
      = Ok (steps, expected ++ [from_be (take 16 ps); from_be (drop 16 ps)]) ∧
    (∀ i reported, steps !! i = Some reported → reported = [from_u64 (Z.of_nat i)]) ∧
    length ps = 32%nat.
Proof.
  unfold accept_pseudonym, verified.
  destruct (vega_verify proof vk (instances layout)) as [[steps core]|e|w];
    [|by split; [|intros (? & ? & _)]..]. cbn [map_err mbind outcome_bind].
  pose proof (positions_checked steps 0) as HP. cbn [Nat.add] in HP.
  destruct (foldM _ tt _) as [[]|e|w] eqn:EF; cbn [mbind outcome_bind].
  - destruct (Nat.eqb_spec (length core) (length expected + 2)) as [Hl|Hl]; cbn [andb].
    + case_bool_decide as Ee.
      * split.
        -- intros Ep. destruct (pseudonym_of core) as [ps'|] eqn:E; [|done]. cbn in Ep. injection Ep as ->.
           apply pseudonym_of_Some in E as (Hps & before & ->). exists steps.
           rewrite length_app in Hl. cbn in Hl. assert (length before = length expected) as Hlb by lia.
           rewrite <- Hlb, take_app_length in Ee. subst before. split_and!; [done|by apply HP|done].
        -- intros (steps' & [= -> ->] & _ & Hps).
           by rewrite (proj2 (pseudonym_of_Some _ ps)) by (split; [done|by eexists]).
      * split; [done|]. intros (steps' & [= -> ->] & _). destruct Ee. by rewrite take_app_length.
    + split; [done|]. intros (steps' & [= -> ->] & _). destruct Hl. by rewrite length_app.
  - split; [done|]. intros (steps' & [= -> ->] & HI & _). pose proof (proj2 HP HI). congruence.
  - split; [done|]. intros (steps' & [= -> ->] & HI & _). pose proof (proj2 HP HI). congruence.
Qed.

(** C5: A proof is accepted, with a pseudonym, exactly when the prover's
    verification succeeds, every step instance reports its own position and
    nothing else, and the core reports the expected values followed by the two
    halves of the pseudonym's 32 bytes. *)
Theorem accept_pseudonym_iff layout vk proof expected ps :
  accept_pseudonym layout vk proof expected = Ok ps ↔
  ∃ steps, vega_verify proof vk (instances layout)
      = Ok (steps, expected ++ [from_be (take 16 ps); from_be (drop 16 ps)]) ∧
    (∀ i reported, steps !! i = Some reported → reported = [from_u64 (Z.of_nat i)]) ∧
    length ps = 32%nat.
Proof. apply accept_pseudonym_Ok. Qed.
End AcceptanceProperties.
