(* ===== verification/Setup.v ===== *)
(** [app.rs]: the circuits as data, and the setup of the keys from them.

    A stored shape is the prover's serialization of a circuit: its sizes and
    its three matrices as compressed sparse rows.  [validate] refuses an
    inconsistent one before anything is built from it, and [ShapeReplay] is the
    circuit that has its rows as rules.  Sizes are machine words, as [N]. *)
From Stdlib Require Import ZArith NArith Lia Strings.String Strings.Byte.
From Stdlib Require Import Field_tac Ring.
From stdpp Require Import base list numbers option strings pretty.
From S2P Require Import Prelude Bytes Field ConstraintSystem Shape CheckSystem Bellpepper Lc Table Circuit Step App.

Definition usize_bound : N := 2 ^ 64.

(** [usize::checked_add], and [+] in a release build. *)
Definition checked_add (a b : N) : option N := if (a + b <? usize_bound)%N then Some (a + b)%N else None.
Definition wrapping_add (a b : N) : N := ((a + b) mod usize_bound)%N.

Section Stored.
Context `{Bellpepper}.

(** [struct StoredMatrix], [struct StoredShape]. *)
Record StoredMatrix := mkStoredMatrix {
  data : list Scalar;
  indices : list N;
  indptr : list N;
  cols : N;
}.
Record StoredShape := mkStoredShape {
  num_cons : N;
  num_cons_unpadded : N;
  num_shared_unpadded : N;
  num_precommitted_unpadded : N;
  num_rest_unpadded : N;
  num_shared : N;
  num_precommitted : N;
  num_rest : N;
  num_public : N;
  s_num_challenges : N;
  s_a : StoredMatrix;
  s_b : StoredMatrix;
  s_c : StoredMatrix;
}.

(** [v.len()]. *)
Definition len {A} (l : list A) : N := N.of_nat (length l).

(** [StoredMatrix::validate]. *)
Definition matrix_validate (m : StoredMatrix) (name : string) (rows columns : N) : outcome string unit :=
  let entries := len (data m) in
  if negb (cols m =? columns)%N then
    Err (name +:+ " has " +:+ pretty (cols m) +:+ " columns, not " +:+ pretty columns)
  else if negb (len (indices m) =? entries)%N then
    Err (name +:+ " has " +:+ pretty (len (indices m)) +:+ " indices for " +:+ pretty entries +:+ " entries")
  else if negb (bool_decide (checked_add rows 1 = Some (len (indptr m)))) then
    Err (name +:+ " has " +:+ pretty (len (indptr m)) +:+ " row pointers for " +:+ pretty rows +:+ " rows")
  else if negb (bool_decide (head (indptr m) = Some 0%N)) || negb (bool_decide (last (indptr m) = Some entries)) then
    Err (name +:+ "'s row pointers do not span its entries")
  else if existsb (λ '(a, b), (b <? a)%N) (zip (indptr m) (tail (indptr m))) then
    Err (name +:+ "'s row pointers decrease")
  else if existsb (λ c, (columns <=? c)%N) (indices m) then
    Err (name +:+ " has a column index past its " +:+ pretty columns +:+ " columns")
  else Ok tt.

(** [StoredShape::validate]. *)
Definition shape_validate (s : StoredShape) : outcome string unit :=
  let pairs := [
    ("constraints"%string, num_cons_unpadded s, num_cons s);
    ("shared values"%string, num_shared_unpadded s, num_shared s);
    ("precommitted values"%string, num_precommitted_unpadded s, num_precommitted s);
    ("rest values"%string, num_rest_unpadded s, num_rest s)] in
  foldM (λ _ '(what, unpadded, padded),
    if (padded <? unpadded)%N then
      Err (pretty unpadded +:+ " unpadded " +:+ what +:+ " exceed " +:+ pretty padded +:+ " padded")
    else Ok tt) tt pairs ;;
  columns ← ok_or "sizes overflow"%string
    (n ← checked_add (num_shared s) (num_precommitted s);
     n ← checked_add n (num_rest s);
     n ← checked_add n (wrapping_add 1 (s_num_challenges s));
     checked_add n (num_public s));
  matrix_validate (s_a s) "A" (num_cons s) columns ;;
  matrix_validate (s_b s) "B" (num_cons s) columns ;;
  matrix_validate (s_c s) "C" (num_cons s) columns.

(** [StoredShape::variable]; the sums are of sizes that [validate] has added up
    without a carry. *)
Definition shape_variable (s : StoredShape) (column : N) : Var :=
  let precommitted := num_shared s in
  let rest := (precommitted + num_precommitted s)%N in
  let inputs := (rest + num_rest s)%N in
  if (column <? precommitted)%N then Aux (N.to_nat column)
  else if (column <? rest)%N then Aux (N.to_nat (num_shared_unpadded s + column - precommitted))
  else if (column <? inputs)%N then
    Aux (N.to_nat (num_shared_unpadded s + num_precommitted_unpadded s + column - rest))
  else Input (N.to_nat (column - inputs)).

(** [v[i]], which panics out of range. *)
Definition at_index {A} (l : list A) (i : nat) : outcome SynthesisError A :=
  match l !! i with Some x => Ok x | None => Panic "index out of bounds" end.

(** [StoredShape::row]. *)
Definition shape_row (s : StoredShape) (m : StoredMatrix) (r : nat) : outcome SynthesisError LinearCombination :=
  first ← at_index (indptr m) r;
  next ← at_index (indptr m) (r + 1);
  foldM (λ lc i,
    x ← at_index (data m) i;
    column ← at_index (indices m) i;
    Ok (lc_add_term lc (x, shape_variable s column)))
    lc_zero (seq (N.to_nat first) (N.to_nat next - N.to_nat first)).

(** [struct ShapeReplay], [ShapeReplay::allocate]. *)
Record ShapeReplay := mkShapeReplay { replayed : StoredShape }.
Definition replay_allocate (segment : string) (count : N) : Synth unit :=
  generator ← is_witness_generator;
  if generator : bool then Fail' AssignmentMissing else
  mapM (λ i, alloc (segment +:+ " " +:+ pretty (i : nat)) (Err AssignmentMissing)) (range (N.to_nat count)) ;;
  mret tt.

#[export] Instance shape_replay_circuit : VegaCircuit ShapeReplay := {|
  public_values _ := Err AssignmentMissing;
  shared r := replay_allocate "shared" (num_shared_unpadded (replayed r)) ;; mret [];
  precommitted r _ := replay_allocate "precommitted" (num_precommitted_unpadded (replayed r)) ;; mret [];
  num_challenges r := N.to_nat (s_num_challenges (replayed r));
  synthesize r _ _ _ :=
    let s := replayed r in
    replay_allocate "rest" (num_rest_unpadded s) ;;
    mapM (λ i, alloc_input ("input " +:+ pretty (i : nat)) (Err AssignmentMissing))
      (range (N.to_nat (wrapping_add (s_num_challenges s) (num_public s)))) ;;
    mapM (λ r,
      a ← lift (shape_row s (s_a s) r);
      b ← lift (shape_row s (s_b s) r);
      c ← lift (shape_row s (s_c s) r);
      enforce ("row " +:+ pretty (r : nat)) a b c) (range (N.to_nat (num_cons_unpadded s))) ;;
    mret tt;
|}.
End Stored.

(** * Setup *)

(** A core circuit, and the layout of its table. *)
Class Core `{Bellpepper} (C : Type) := {
  core_vega :: VegaCircuit C;
  LAYOUT : Layout;
}.

(** [vega_prover]'s shapes and their serialization by bincode, whose errors are
    texts. [shape_sizes] has the rules and the padded sizes of the segments. *)
Class ShapeCodec `{VegaProver} := {
  R1CSShape : Type;
  r1cs_shape {C} `{!VegaCircuit C} : C → outcome VegaError R1CSShape;
  shape_sizes : R1CSShape → N * N * N * N;
  serialize_shapes : R1CSShape * R1CSShape → outcome string (list byte);
  deserialize_shapes : list byte → outcome string (StoredShape * StoredShape);
}.

Definition BUDGET : nat := budget AGE.

Section Setup.
Context `{CompressionGadget} `{!VegaProver} `{!ShapeCodec} `{Sha2}.

(** [within_budget]. *)
Definition within_budget (circuit : string) (rules values : N) (budget : nat) : outcome VegaError unit :=
  if (N.of_nat budget <? rules)%N || (N.of_nat budget <? values)%N then
    Err (InternalError ("the " +:+ circuit +:+ " has " +:+ pretty rules +:+ " rules and " +:+ pretty values
                        +:+ " values, past " +:+ pretty budget))
  else Ok tt.

(** [shapes]. *)
Definition shapes {C} `{!Core C} (core : C) : outcome VegaError (list byte) :=
  let step := step_blank_in (LAYOUT (C := C)) 0 in
  step ← r1cs_shape step;
  core ← r1cs_shape core;
  foldM (λ _ '(circuit, shape),
    let '(rules, shared, precommitted, rest) := shape_sizes shape in
    within_budget circuit rules (shared + precommitted + rest) (budget (LAYOUT (C := C))))
    tt [("step"%string, step); ("core"%string, core)] ;;
  map_err (λ e, InternalError ("serializing the shapes: " +:+ e)) (serialize_shapes (step, core)).

(** [setup_from_shapes_in]; a tuple of both circuits is a list in its loops. *)
Definition setup_from_shapes_in (layout : Layout) (bytes : list byte)
    : outcome VegaError (VegaMcProverKey * VegaMcVerifierKey) :=
  '(step, core) ← map_err (λ e, InternalError ("reading the shapes: " +:+ e)) (deserialize_shapes bytes);
  foldM (λ _ '(circuit, s),
    map_err (λ reason, InternalError ("the " +:+ circuit +:+ " shape is inconsistent: " +:+ reason))
      (shape_validate s)) tt [("step"%string, step); ("core"%string, core)] ;;
  foldM (λ _ '(circuit, s),
    let values := (num_shared s + num_precommitted s + num_rest s)%N in
    within_budget circuit (num_cons s) values (budget layout)) tt
    [("step"%string, step); ("core"%string, core)] ;;
  vega_setup {| replayed := step |} {| replayed := core |} (instances layout).
End Setup.

(** * Valid shapes *)
(** A release build's wrap-around in [1 + num_challenges]: a shape with the
    largest number of challenges passes, over no columns at all. *)
Lemma challenges_wrap `{Bellpepper} :
  let empty := {| data := []; indices := []; indptr := [0%N]; cols := 0 |} in
  shape_validate {|
    num_cons := 0; num_cons_unpadded := 0; num_shared_unpadded := 0; num_precommitted_unpadded := 0;
    num_rest_unpadded := 0; num_shared := 0; num_precommitted := 0; num_rest := 0; num_public := 0;
    s_num_challenges := (usize_bound - 1)%N; s_a := empty; s_b := empty; s_c := empty |} = Ok tt.
Proof. reflexivity. Qed.

Section Valid.
Context `{Bellpepper}.

(** Compressed rows are well formed. *)
Record matrix_ok (m : StoredMatrix) (rows columns : N) : Prop := {
  mo_cols : cols m = columns;
  mo_indices : length (indices m) = length (data m);
  mo_rows : (rows + 1 < usize_bound)%N ∧ len (indptr m) = (rows + 1)%N;
  mo_first : head (indptr m) = Some 0%N;
  mo_last : last (indptr m) = Some (len (data m));
  mo_increasing : ∀ i a b, indptr m !! i = Some a → indptr m !! S i = Some b → (a ≤ b)%N;
  mo_columns : Forall (λ c, (c < columns)%N) (indices m);
}.

Lemma existsb_false {A} (f : A → bool) l : existsb f l = false ↔ Forall (λ x, f x = false) l.
Proof.
  induction l as [|x l IH]; cbn; [by split|]. rewrite orb_false_iff, IH, Forall_cons. done.
Qed.

Lemma windows_ordered (l : list N) :
  existsb (λ '(a, b), (b <? a)%N) (zip l (tail l)) = false ↔
  ∀ i a b, l !! i = Some a → l !! S i = Some b → (a ≤ b)%N.
Proof.
  rewrite existsb_false, list.Forall_lookup. split.
  - intros HF i a b Ea Eb. specialize (HF i (a, b)). cbv beta iota in HF.
    rewrite N.ltb_ge in HF. apply HF. apply lookup_zip_with_Some.
    exists a, b. by destruct l.
  - intros HF i [a b] E. apply N.ltb_ge. apply lookup_zip_with_Some in E as (a' & b' & [= <- <-] & Ea & Eb). apply (HF i); [done|].
    by destruct l.
Qed.

Lemma checked_add_Some a b c : checked_add a b = Some c ↔ (a + b < usize_bound)%N ∧ c = (a + b)%N.
Proof.
  unfold checked_add. destruct (N.ltb_spec (a + b) usize_bound) as [L|L]; split; intros HH; simplify_eq; try done.
  - by destruct HH as [_ ->].
  - lia.
Qed.

Lemma matrix_validate_iff m name rows columns :
  matrix_validate m name rows columns = Ok tt ↔ matrix_ok m rows columns.
Proof.
  unfold matrix_validate.
  destruct (N.eqb_spec (cols m) columns) as [Ec|Ec]; cbn [negb]; [|by split; [|intros []]].
  destruct (N.eqb_spec (len (indices m)) (len (data m))) as [Ei|Ei]; cbn [negb];
    [|split; [done|intros []; by unfold len in *; lia]].
  case_bool_decide as Er; cbn [negb].
  2: { split; [done|]. intros [_ _ [? Hr] _ _ _ _]. destruct Er. by apply checked_add_Some. }
  apply checked_add_Some in Er.
  case_bool_decide as E0; cbn [negb orb]; [|by split; [|intros []]].
  case_bool_decide as El; cbn [negb]; [|by split; [|intros []]].
  destruct (existsb _ (zip _ _)) eqn:Ew.
  { split; [done|]. intros [_ _ _ _ _ Hw _]. apply windows_ordered in Hw. congruence. }
  destruct (existsb _ (indices m)) eqn:Ex.
  { split; [done|]. intros [_ _ _ _ _ _ Hx]. exfalso. apply not_false_iff_true in Ex. destruct Ex.
    apply existsb_false. eapply Forall_impl; [exact Hx|]. intros c Hc. by apply N.leb_gt. }
  split; [|done]. intros _. split; try done.
  - unfold len in Ei. lia.
  - by apply windows_ordered.
  - apply existsb_false in Ex. eapply Forall_impl; [exact Ex|]. intros c Hc. by apply N.leb_gt.
Qed.

(** The padded columns of a shape. *)
Definition shape_columns (s : StoredShape) : N :=
  (num_shared s + num_precommitted s + num_rest s + (1 + s_num_challenges s) + num_public s)%N.

Record shape_ok (s : StoredShape) : Prop := {
  so_cons : (num_cons_unpadded s ≤ num_cons s)%N;
  so_shared : (num_shared_unpadded s ≤ num_shared s)%N;
  so_precommitted : (num_precommitted_unpadded s ≤ num_precommitted s)%N;
  so_rest : (num_rest_unpadded s ≤ num_rest s)%N;
  so_columns : (shape_columns s < usize_bound)%N;
  so_a : matrix_ok (s_a s) (num_cons s) (shape_columns s);
  so_b : matrix_ok (s_b s) (num_cons s) (shape_columns s);
  so_c : matrix_ok (s_c s) (num_cons s) (shape_columns s);
}.

Lemma outcome_seq_ok {E A B} (m : outcome E A) (k : outcome E B) b :
  (m ;; k) = Ok b ↔ (∃ a, m = Ok a) ∧ k = Ok b.
Proof.
  destruct m as [a|e|w]; cbn; split; try (intros [[? ?] ?]; congruence); try done. intros ->. by split; [exists a|].
Qed.

Lemma unpadded_within l :
  foldM (λ _ '(what, unpadded, padded),
    if (padded <? unpadded)%N then
      Err (pretty unpadded +:+ " unpadded " +:+ what +:+ " exceed " +:+ pretty padded +:+ " padded")
    else Ok tt) tt l = Ok tt ↔ Forall (λ x : string * N * N, (x.1.2 ≤ x.2)%N) l.
Proof.
  induction l as [|[[what unpadded] padded] l IH]; [done|]. cbn [foldM]. rewrite Forall_cons. cbn [fst snd].
  destruct (N.ltb_spec padded unpadded); cbn [mbind outcome_bind]; [split; [done|intros [? _]; lia]|].
  rewrite IH. tauto.
Qed.

Lemma columns_added s n :
  (1 + s_num_challenges s < usize_bound)%N →
  (n ← checked_add (num_shared s) (num_precommitted s);
   n ← checked_add n (num_rest s); n ← checked_add n (wrapping_add 1 (s_num_challenges s));
   checked_add n (num_public s)) = Some n ↔ (shape_columns s < usize_bound)%N ∧ n = shape_columns s.
Proof.
  intros Hch. unfold wrapping_add, shape_columns. rewrite N.mod_small by done. split.
  - intros E. repeat (apply bind_Some in E as (? & [? ->]%checked_add_Some & E)). apply checked_add_Some in E. lia.
  - intros [HL ->]. do 3 (rewrite (proj2 (checked_add_Some _ _ _)) by (split; [|reflexivity]; lia); cbn [mbind option_bind]).
    apply checked_add_Some. split; [lia|reflexivity].
Qed.

(** What [validate] accepts, when the number of challenges is not the largest
    word. *)
Lemma shape_validate_iff s :
  (1 + s_num_challenges s < usize_bound)%N → shape_validate s = Ok tt ↔ shape_ok s.
Proof.
  intros Hch. unfold shape_validate. cbv zeta. rewrite outcome_seq_ok.
  assert ((∃ a : unit, foldM (λ _ '(what, unpadded, padded),
      if (padded <? unpadded)%N then
        Err (pretty unpadded +:+ " unpadded " +:+ what +:+ " exceed " +:+ pretty padded +:+ " padded")
      else Ok tt) tt [("constraints"%string, num_cons_unpadded s, num_cons s);
    ("shared values"%string, num_shared_unpadded s, num_shared s);
    ("precommitted values"%string, num_precommitted_unpadded s, num_precommitted s);
    ("rest values"%string, num_rest_unpadded s, num_rest s)] = Ok a) ↔
    (num_cons_unpadded s ≤ num_cons s)%N ∧ (num_shared_unpadded s ≤ num_shared s)%N ∧
    (num_precommitted_unpadded s ≤ num_precommitted s)%N ∧ (num_rest_unpadded s ≤ num_rest s)%N) as ->.
  { split; [intros [[] E%unpadded_within]|intros HF; exists tt; apply unpadded_within].
    - by inversion_clear E as [|? ? ? E1]; inversion_clear E1 as [|? ? ? E2]; inversion_clear E2 as [|? ? ? E3];
        inversion_clear E3.
    - repeat (constructor; [cbn; tauto|]). constructor. }
  destruct (_ ≫= _ : option N) as [n|] eqn:E; cbn [ok_or mbind outcome_bind].
  - apply columns_added in E as [HL ->]; [|done]. rewrite !outcome_seq_ok, matrix_validate_iff. split.
    + intros ((? & ? & ? & ?) & [[] Ha%matrix_validate_iff] & [[] Hb%matrix_validate_iff] & Hc). by split.
    + intros []. split_and!; try done; exists tt; by apply matrix_validate_iff.
  - split; [by intros [_ ?]|]. intros Hs. exfalso.
    rewrite (proj2 (columns_added s (shape_columns s) Hch)) in E; [done|]. split; [apply Hs|reflexivity].
Qed.
End Valid.

(** * The rows as rules *)
Section Rows.
Context `{Bellpepper}.

(** The entries of a row, and their weighted sum. *)
Definition row_entries (m : StoredMatrix) (r : nat) : list (Scalar * N) :=
  let lo := N.to_nat (default 0%N (indptr m !! r)) in
  let hi := N.to_nat (default 0%N (indptr m !! S r)) in
  slice lo hi (zip (data m) (indices m)).

(** The values that the columns stand for, in the order of the prover's
    serialization: those of the three segments, of their padded sizes, from
    the first slot of each; then the constant one, the challenges and the
    public values. A segment's padding so reads the slots that follow it. *)
Definition column_values (σ : Var → Scalar) (s : StoredShape) : list Scalar :=
  let segment first size := (λ i, σ (Aux (N.to_nat first + i))) <$> range (N.to_nat size) in
  segment 0%N (num_shared s) ++
  segment (num_shared_unpadded s) (num_precommitted s) ++
  segment (num_shared_unpadded s + num_precommitted_unpadded s)%N (num_rest s) ++
  ((λ i, σ (Input i)) <$> range (N.to_nat (1 + s_num_challenges s + num_public s))).

Definition entries_value (σ : Var → Scalar) (s : StoredShape) (acc : Scalar) (l : list (Scalar * N)) : Scalar :=
  foldl (λ sum '(x, column), sum + x * default ZERO (column_values σ s !! N.to_nat column))%S acc l.
Definition row_value (σ : Var → Scalar) (s : StoredShape) (m : StoredMatrix) (r : nat) : Scalar :=
  entries_value σ s ZERO (row_entries m r).

Lemma at_index_ok {A} (l : list A) i x : l !! i = Some x → at_index l i = Ok x.
Proof. unfold at_index. by intros ->. Qed.

Lemma pointers_le_last (l : list N) z :
  (∀ i a b, l !! i = Some a → l !! S i = Some b → (a ≤ b)%N) → last l = Some z →
  ∀ i a, l !! i = Some a → (a ≤ z)%N.
Proof.
  intros Hw Hz i a Ea. rewrite last_lookup in Hz.
  assert (∀ d j b, pred (length l) = j + d → l !! j = Some b → (b ≤ z)%N) as HD.
  { induction d as [|d IH]; intros j b Hj Eb.
    - rewrite Hj, Nat.add_0_r in Hz. assert (b = z) by congruence. lia.
    - destruct (lookup_lt_is_Some_2 l (S j)) as [c Ec]; [lia|].
      etrans; [by apply (Hw j b c)|]. apply (IH (S j)); [lia|done]. }
  apply (HD (pred (length l) - i) i); [apply lookup_lt_Some in Ea; lia|done].
Qed.

(** A column is read as the slot that the code gives it. *)
Lemma column_slot σ s column : (column < shape_columns s)%N →
  column_values σ s !! N.to_nat column = Some (σ (shape_variable s column)).
Proof.
  intros Hc. unfold column_values, shape_variable. cbv zeta. unfold shape_columns in Hc.
  assert (∀ (f : nat → Scalar) (size : N) i, (i < size)%N → (f <$> range (N.to_nat size)) !! N.to_nat i = Some (f (N.to_nat i))) as Hseg.
  { intros f size i Hi. unfold range. rewrite list_lookup_fmap, lookup_seq_lt by lia. done. }
  assert (∀ (f : nat → Scalar) (size : N), length (f <$> range (N.to_nat size)) = N.to_nat size) as Hlen
    by (intros; unfold range; by rewrite length_fmap, length_seq).
  destruct (N.ltb_spec column (num_shared s)); [rewrite lookup_app_l by (rewrite Hlen; lia); by rewrite Hseg|].
  rewrite lookup_app_r, Hlen by (rewrite Hlen; lia). rewrite <-N2Nat.inj_sub.
  destruct (N.ltb_spec column (num_shared s + num_precommitted s)).
  { rewrite lookup_app_l by (rewrite Hlen; lia). rewrite Hseg by lia. do 3 f_equal. lia. }
  rewrite lookup_app_r, Hlen by (rewrite Hlen; lia). rewrite <-N2Nat.inj_sub.
  destruct (N.ltb_spec column (num_shared s + num_precommitted s + num_rest s)).
  { rewrite lookup_app_l by (rewrite Hlen; lia). rewrite Hseg by lia. do 3 f_equal. lia. }
  rewrite lookup_app_r, Hlen by (rewrite Hlen; lia). rewrite <-N2Nat.inj_sub. rewrite Hseg by lia. do 3 f_equal. lia.
Qed.

Lemma row_terms s m n : length (indices m) = length (data m) → Forall (λ c, (c < shape_columns s)%N) (indices m) →
  ∀ lo lc, lo + n ≤ length (data m) →
  ∃ lc', foldM (λ lc i,
      x ← at_index (data m) i;
      column ← at_index (indices m) i;
      Ok (lc_add_term lc (x, shape_variable s column))) lc (seq lo n) = Ok lc' ∧
    ∀ σ, eval σ lc' = entries_value σ s (eval σ lc) (slice lo (lo + n) (zip (data m) (indices m))).
Proof.
  intros Hl HF. induction n as [|n IH]; intros lo lc Hle.
  { exists lc. split; [done|]. intros σ. unfold slice. by rewrite Nat.add_0_r, Nat.sub_diag, take_0. }
  destruct (lookup_lt_is_Some_2 (data m) lo) as [x Ex]; [lia|].
  destruct (lookup_lt_is_Some_2 (indices m) lo) as [column Ec]; [lia|].
  cbn [seq foldM]. rewrite (at_index_ok _ _ _ Ex), (at_index_ok _ _ _ Ec). cbn [mbind outcome_bind].
  destruct (IH (S lo) (lc_add_term lc (x, shape_variable s column))) as (lc' & E & Hv); [lia|].
  exists lc'. split; [exact E|]. intros σ. rewrite Hv. unfold eval at 1. rewrite lc_add_term_eval. fold (eval σ lc).
  assert (zip (data m) (indices m) !! lo = Some (x, column)) as Ez.
  { apply lookup_zip_with_Some. by exists x, column. }
  unfold slice. replace (lo + S n - lo) with (S n) by lia. replace (S lo + n - S lo) with n by lia.
  rewrite (drop_S _ _ _ Ez). rewrite Forall_lookup in HF. unfold entries_value. cbn [take foldl].
  by rewrite (column_slot σ s column) by (by eapply HF).
Qed.

Lemma shape_row_ok s m rows columns r :
  matrix_ok m rows columns → columns = shape_columns s → (N.of_nat r < rows)%N →
  ∃ lc, shape_row s m r = Ok lc ∧ ∀ σ, eval σ lc = row_value σ s m r.
Proof.
  intros [_ Hi [_ Hr] _ Hlast Hw HF] -> Hlt. unfold len in Hr.
  destruct (lookup_lt_is_Some_2 (indptr m) r) as [lo El]; [lia|].
  destruct (lookup_lt_is_Some_2 (indptr m) (S r)) as [hi Eh]; [lia|].
  pose proof (Hw r lo hi El Eh) as Hle. pose proof (pointers_le_last _ _ Hw Hlast _ _ Eh) as Hhi. unfold len in Hhi.
  destruct (row_terms s m (N.to_nat hi - N.to_nat lo) Hi HF (N.to_nat lo) lc_zero) as (lc & E & Hv); [lia|].
  exists lc. split.
  - unfold shape_row. rewrite Nat.add_1_r, (at_index_ok _ _ _ El), (at_index_ok _ _ _ Eh). exact E.
  - intros σ. rewrite Hv. unfold row_value, row_entries. rewrite El, Eh. cbn [default].
    replace (N.to_nat lo + (N.to_nat hi - N.to_nat lo)) with (N.to_nat hi) by lia.
    f_equal. unfold eval. apply lc_zero_eval.
Qed.

(** What a circuit builds: its slots, and the rules' meaning. *)
Definition builds {A} (m : Synth A) (na ni na' ni' : nat) (P : (Var → Scalar) → Prop) : Prop :=
  ∃ a, (shape m na ni).1.2 = Ok a ∧ (shape m na ni).2 = (na', ni') ∧ ∀ σ, satisfies σ m na ni ↔ P σ.

Lemma shape_bind {A B} (m : Synth A) (f : A → Synth B) na ni :
  shape (m ≫= f) na ni =
  match shape m na ni with
  | (rules, Ok a, (na, ni)) => let '(rules', result, slots) := shape (f a) na ni in (rules ++ rules', result, slots)
  | (rules, Err e, slots) => (rules, Err e, slots)
  | (rules, Panic w, slots) => (rules, Panic w, slots)
  end.
Proof.
  change (m ≫= f) with (synth_bind f m). revert na ni.
  induction m as [a|e|w|n v k IH|n v k IH|n a b c k IH|n k IH|k IH|k IH|vs k IH|vs k IH]; intros na ni; cbn; auto.
  - by destruct (shape (f a) na ni) as [[? ?] ?].
  - rewrite IH. destruct (shape k na ni) as [[rs [x|e|w]] [na' ni']]; [|done..].
    by destruct (shape (f x) na' ni') as [[? ?] ?].
Qed.

Lemma builds_ret {A} (a : A) na ni : builds (mret a) na ni na ni (λ _, True).
Proof. exists a. split_and!; [done..|]. intros σ. split; [done|]. intros _. constructor. Qed.

Lemma builds_bind {A B} (m : Synth A) (f : A → Synth B) na ni na1 ni1 na2 ni2 P Q :
  builds m na ni na1 ni1 P → (∀ a, builds (f a) na1 ni1 na2 ni2 Q) →
  builds (m ≫= f) na ni na2 ni2 (λ σ, P σ ∧ Q σ).
Proof.
  intros (a & Ea & Es & HP) Hf. destruct (Hf a) as (b & Eb & Es' & HQ). exists b.
  unfold satisfies in *. rewrite shape_bind. destruct (shape m na ni) as [[rs r] [na' ni']]. cbn [fst snd] in *.
  subst r. injection Es as -> ->. destruct (shape (f a) na1 ni1) as [[rs' r'] slots]. cbn [fst snd] in *.
  split_and!; [done..|]. intros σ. by rewrite Forall_app, HP, HQ.
Qed.

Lemma builds_iff {A} (m : Synth A) na ni na' ni' P Q :
  builds m na ni na' ni' P → (∀ σ, P σ ↔ Q σ) → builds m na ni na' ni' Q.
Proof. intros (a & Ea & Es & HP) HPQ. exists a. split_and!; [done..|]. intros σ. by rewrite HP. Qed.

Lemma builds_ns {A} name (m : Synth A) na ni na' ni' P :
  builds m na ni na' ni' P → builds (ns name m) na ni na' ni' P.
Proof.
  intros HB. eapply builds_iff.
  - unfold ns, builds, satisfies. cbn [shape]. eapply builds_bind; [exact HB|].
    intros a. exact (builds_ret a na' ni').
  - intros σ. tauto.
Qed.
End Rows.

(** * Properties *)
Section ReplayProperties.
Context `{Bellpepper}.

Lemma builds_generator {B} (f : bool → Synth B) na ni na' ni' P :
  builds (f false) na ni na' ni' P → builds (generator ← is_witness_generator; f generator) na ni na' ni' P.
Proof. done. Qed.

Lemma builds_mapM_slots {B} (f : nat → Synth B) (da di : nat) (l : list nat) na ni :
  (∀ i na ni, builds (f i) na ni (na + da) (ni + di) (λ _, True)) →
  builds (mapM f l) na ni (na + length l * da) (ni + length l * di) (λ _, True).
Proof.
  intros Hf. revert na ni. induction l as [|i l IH]; intros na ni.
  { rewrite !Nat.mul_0_l, !Nat.add_0_r. apply builds_ret. }
  cbn [length Nat.mul]. rewrite !Nat.add_assoc.
  eapply builds_iff.
  - eapply builds_bind; [apply Hf|]. intros b. eapply builds_bind; [apply IH|intros bs; apply builds_ret].
  - tauto.
Qed.

Lemma builds_mapM_rules {B} (f : nat → Synth B) (P : nat → (Var → Scalar) → Prop) l na ni :
  (∀ r, r ∈ l → builds (f r) na ni na ni (P r)) →
  builds (mapM f l) na ni na ni (λ σ, ∀ r, r ∈ l → P r σ).
Proof.
  induction l as [|r l IH]; intros Hf.
  { eapply builds_iff; [apply builds_ret|]. intros σ. split; [intros _ r Hr; by apply elem_of_nil in Hr|done]. }
  eapply builds_iff.
  - eapply builds_bind; [apply Hf; by apply list_elem_of_here|]. intros b. cbv beta.
    eapply builds_bind; [apply IH; intros r' Hr'; apply Hf; by apply list_elem_of_further|intros bs; apply builds_ret].
  - intros σ. split.
    + intros (Hr & Hl & _) r'. rewrite elem_of_cons. intros [->|Hr']; auto.
    + intros HP. split_and!; [|intros r' Hr'|done]; apply HP; rewrite elem_of_cons; auto.
Qed.

Lemma builds_replay_allocate segment count na ni :
  builds (replay_allocate segment count) na ni (na + N.to_nat count) ni (λ _, True).
Proof.
  unfold replay_allocate. apply builds_generator. eapply builds_iff.
  - eapply builds_bind; [|intros ?; apply builds_ret].
    pose proof (builds_mapM_slots (λ i, alloc (segment +:+ " " +:+ pretty (i : nat)) (Err AssignmentMissing)) 1 0
      (range (N.to_nat count)) na ni) as HM.
    unfold range at 2 in HM. rewrite length_seq, Nat.mul_1_r, Nat.mul_0_r, Nat.add_0_r in HM. apply HM. intros i na' ni'.
    rewrite Nat.add_1_r, Nat.add_0_r. exists (Aux na'). split_and!; [done..|].
    intros σ. split; [done|intros _; constructor].
  - tauto.
Qed.

(** A row of a valid shape, as a rule. *)
Lemma builds_row s r na ni :
  shape_ok s → (N.of_nat r < num_cons s)%N →
  builds (a ← lift (shape_row s (s_a s) r);
          b ← lift (shape_row s (s_b s) r);
          c ← lift (shape_row s (s_c s) r);
          enforce ("row " +:+ pretty (r : nat)) a b c) na ni na ni
    (λ σ, (row_value σ s (s_a s) r * row_value σ s (s_b s) r)%S = row_value σ s (s_c s) r).
Proof.
  intros [_ _ _ _ _ Ha Hb Hc] Hr.
  destruct (shape_row_ok s _ _ _ r Ha eq_refl Hr) as (a & -> & Va), (shape_row_ok s _ _ _ r Hb eq_refl Hr) as (b & -> & Vb),
    (shape_row_ok s _ _ _ r Hc eq_refl Hr) as (c & -> & Vc).
  exists tt. split_and!; [done..|]. intros σ. unfold satisfies. cbn. rewrite list.Forall_singleton. unfold holds.
  cbn [rule_a rule_b rule_c]. by rewrite Va, Vb, Vc.
Qed.

(** C25: A stored shape that [validate] accepts, of fewer challenges than the
    largest word, is replayed without a panic: the replay allocates the unpadded
    values of its segments, the challenges and the public values, and the values
    that satisfy its rules are exactly those that satisfy each of the stored
    rows, as weighted sums of the columns in the order of the serialization: the
    slots of the shared, the precommitted and the rest segment, the constant
    one, the challenges and the public values. *)
Theorem replay_rules s :
  (1 + s_num_challenges s < usize_bound)%N → shape_validate s = Ok tt →
  builds (synthesis {| replayed := s |}) 0 1
    (N.to_nat (num_shared_unpadded s + num_precommitted_unpadded s + num_rest_unpadded s))
    (N.to_nat (1 + s_num_challenges s + num_public s))
    (λ σ, ∀ r, r < N.to_nat (num_cons_unpadded s) →
       (row_value σ s (s_a s) r * row_value σ s (s_b s) r)%S = row_value σ s (s_c s) r).
Proof.
  intros Hch Hv. apply shape_validate_iff in Hv as Hs; [|done]. unfold synthesis.
  cbn [shared precommitted synthesize shape_replay_circuit replayed].
  eapply builds_iff.
  - eapply builds_bind; [apply builds_ns; eapply builds_bind; [apply builds_replay_allocate|intros ?; apply builds_ret]|].
    intros ?. eapply builds_bind;
      [apply builds_ns; eapply builds_bind; [apply builds_replay_allocate|intros ?; apply builds_ret]|].
    intros ?. apply builds_ns. eapply builds_bind; [apply builds_replay_allocate|]. intros ?.
    replace (N.to_nat (num_shared_unpadded s + num_precommitted_unpadded s + num_rest_unpadded s))
      with (0 + N.to_nat (num_shared_unpadded s) + N.to_nat (num_precommitted_unpadded s)
            + N.to_nat (num_rest_unpadded s)) by lia.
    eapply (builds_bind _ _ _ _ _ (N.to_nat (1 + s_num_challenges s + num_public s))).
    { pose proof (builds_mapM_slots (λ i, alloc_input ("input " +:+ pretty (i : nat)) (Err AssignmentMissing)) 0 1
        (range (N.to_nat (wrapping_add (s_num_challenges s) (num_public s))))
        (0 + N.to_nat (num_shared_unpadded s) + N.to_nat (num_precommitted_unpadded s)
            + N.to_nat (num_rest_unpadded s)) 1) as HM.
      assert (wrapping_add (s_num_challenges s) (num_public s) = s_num_challenges s + num_public s)%N as Ew.
      { unfold wrapping_add. apply N.mod_small. destruct Hs as [_ _ _ _ Hc _ _ _]. unfold shape_columns in Hc. lia. }
      unfold range at 2 3 in HM. rewrite Ew, length_seq, Nat.mul_1_r, Nat.mul_0_r, Nat.add_0_r in HM.
      replace (N.to_nat (1 + s_num_challenges s + num_public s)) with (1 + N.to_nat (s_num_challenges s + num_public s)) by lia.
      rewrite Ew. apply HM. intros i na' ni'. rewrite Nat.add_1_r, Nat.add_0_r. exists (Input ni'). split_and!; [done..|].
      intros σ. split; [done|intros _; constructor]. }
    intros ?. eapply builds_bind; [|intros ?; apply builds_ret].
    apply builds_mapM_rules. intros r Hr%elem_of_seq. apply builds_row; [done|]. destruct Hs. lia.
  - intros σ. split.
    + intros (_ & _ & _ & _ & HR & _) r Hr. apply HR, elem_of_seq. lia.
    + intros HR. split_and!; try done. intros r Hr%elem_of_seq. apply HR. lia.
Qed.
End ReplayProperties.
