(* ===== verification/Statement.v ===== *)
(** [statement.rs]: the statement for mdoc credentials over plain bytes: the
    keys from the circuits as data, and [prove] and [verify].

    A [&str] is its UTF-8 bytes.  [Calendar] has the dates and times and the
    reasons of [Error::Input].  The prover, bincode and the curve library are
    parameters; [debug-rules] is off, as in the builds that ship. *)
From Stdlib Require Import ZArith Lia Strings.String Strings.Byte.
From Stdlib Require Import Field_tac Ring.
From stdpp Require Import base list numbers option strings pretty.
From S2P Require Import Prelude Bytes Field ConstraintSystem Shape CheckSystem Bellpepper Lc Values Bits Table Window Curve P256 Cbor Request Calendar Presentation Pseudonym Circuit Step Mdoc MdocRules MdocSound App Setup.

(** [struct ApprovedCircuit]. *)
Record ApprovedCircuit := mkApprovedCircuit {
  name : string;
  shapes_sha256 : list byte;
  layout : Layout;
  doc_type : list byte;
  birth_date_element : list byte;
  ssc_element : list byte;
}.

Definition APPROVED_SHAPES : list ApprovedCircuit := [{|
  name := "nymauth-vega-mdoc v1";
  shapes_sha256 := bytes_of "4da5e73afb9be2682e70be793c9956a73304e21f31246aa10da0d3e95c926425";
  layout := FULL_MDOC;
  doc_type := bytes_of "eu.europa.ec.eudi.nym_auth.1";
  birth_date_element := bytes_of "birth_date";
  ssc_element := bytes_of "ssc";
|}].

Definition MAX_ISSUER_SIGNED : Z := 64 * 1024.
Definition MAX_PROOF : Z := 512 * 1024.

(** [enum RefusalCode], [struct Refusal], [Refusal::new]. *)
Inductive RefusalCode := SeedMismatch | IssuerSignature | DeviceSignature | Credential.
Record Refusal := mkRefusal { code : RefusalCode }.
Definition refusal_new (code : RefusalCode) (_rule : string) : Refusal := {| code := code |}.

(** [str::contains]. *)
Definition contains (pattern text : string) : bool :=
  match String.index 0 pattern text with Some _ => true | None => false end.

(** [Refusal::of_rule]. *)
Definition of_rule (rule : string) : Refusal :=
  let code :=
    if contains "seed digest" rule then SeedMismatch
    else if contains "device signature" rule then DeviceSignature
    else if contains "issuer signature" rule then IssuerSignature
    else Credential in
  refusal_new code rule.

(** [enum Error]. *)
Module Error.
Inductive t :=
  | Input (reason : InputReason)
  | Shapes (text : string)
  | UnknownCircuit (digest : list byte)
  | Refused (refusal : Refusal)
  | Prover (text : string)
  | ProofInvalid (text : string)
  | Mismatch (text : string)
  | Internal (text : string).
End Error.

(** [struct Statement], [struct Holder], [struct Proved]. *)
Record Statement := mkStatement {
  issuer_key_x : list byte;
  issuer_key_y : list byte;
  st_time : list byte;
  earliest : list byte;
  cutoff : list byte;
  challenge_digest : list byte;
  st_verifier_input : list byte;
}.
Record Holder := mkHolder {
  issuer_signed : list byte;
  h_secret_seed : list byte;
  h_device_signature : list byte;
}.
Record Proved := mkProved { pr_proof : list byte; pr_pseudonym : list byte }.

(** [guarded]: a panic becomes an error. *)
Definition guarded {A} (f : outcome Error.t A) : outcome Error.t A :=
  match f with Panic what => Err (Error.Internal what) | result => result end.

(** [hex]: two lowercase digits for each byte. *)
Definition hex_digit (v : Z) : byte := if (v <? 10)%Z then z2b (48 + v) else z2b (87 + v).
Definition hex (bytes : list byte) : list byte :=
  bytes ≫= λ b, [hex_digit (b2z b / 16); hex_digit (b2z b mod 16)].

(** [fixed::<N>]. *)
Definition fixed (n : nat) (bytes : list byte) (what : string) : outcome Error.t (list byte) :=
  if (length bytes =? n)%nat then Ok bytes else Err (Error.Input (WrongLength what (length bytes) n)).

(** [halo2curves]'s P-256: [Fp::from_bytes] of 32 little-endian bytes, and
    whether [Secp256r1Affine::from_xy] gives a point.  The identity has the
    coordinates 0 and 0. *)
Class P256Library `{ScalarField} := {
  Fp : Type;
  fp_int : Fp → Z;
  fp_from_bytes : list byte → option Fp;
  affine_from_xy : Fp → Fp → bool;
  fp_from_bytes_spec le : length le = 32%nat →
    match fp_from_bytes le with
    | Some x => fp_int x = le_int le ∧ (le_int le < p)%Z
    | None => (p ≤ le_int le)%Z
    end;
  affine_from_xy_spec x y :
    affine_from_xy x y = true ↔
    (fp_int x = 0 ∧ fp_int y = 0)%Z ∨
    on_curve (of_int b256) {| ax := of_int (fp_int x); ay := of_int (fp_int y) |};
}.

Section Inputs.
Context `{P256Library}.

(** [check_issuer_key]. *)
Definition check_issuer_key (x y : list byte) : outcome Error.t unit :=
  let coordinate (be : list byte) := fp_from_bytes (reverse be) in
  let is_zero := forallb (λ b, bool_decide (b = x00)) in
  let on_curve :=
    match coordinate x, coordinate y with
    | Some x', Some y' => if negb (is_zero x && is_zero y) then affine_from_xy x' y' else false
    | _, _ => false
    end in
  if on_curve then Ok tt else Err (Error.Input NotAPoint).

(** [public]. *)
Definition public (statement : Statement) (circuit : ApprovedCircuit) : outcome Error.t (Public * list byte) :=
  x ← fixed 32 (issuer_key_x statement) "issuer key x";
  y ← fixed 32 (issuer_key_y statement) "issuer key y";
  check_issuer_key x y ;;
  map_err Error.Input (check_range (earliest statement) (cutoff statement)) ;;
  born_from ←
    (if bool_decide (earliest statement = NO_LOWER_BOUND) then Ok None
     else d ← map_err Error.Input (date (earliest statement)); Ok (Some d));
  born_by ← map_err Error.Input (date (cutoff statement));
  now ← map_err Error.Input (time (st_time statement));
  challenge ← fixed 32 (challenge_digest statement) "challenge digest";
  request ← map_err (λ e, Error.Input (InvalidRequest e))
              (request_mdoc (doc_type circuit) (birth_date_element circuit));
  verifier_input ← fixed 32 (st_verifier_input statement) "verifier input";
  Ok ({| issuer_key := {| key_x := x; key_y := y |}; born_from := born_from; born_by := born_by;
         now := now; challenge := challenge; request := request |}, verifier_input).
End Inputs.

(** [struct Mdoc]. *)
Record Mdoc := mkMdoc {
  sig_structure : list byte;
  r : list byte;
  s : list byte;
  items : list (list byte * list byte);
}.

(** [mdoc]. *)
Definition mdoc (issuer_signed : list byte) : outcome Error.t Mdoc :=
  let take {A} (m : outcome string A) := map_err (λ e, Error.Input (IssuerSigned e)) m in
  if (MAX_ISSUER_SIGNED <? Z.of_nat (length issuer_signed))%Z then
    Err (Error.Input (IssuerSignedTooLong (length issuer_signed))) else
  root ← take (Cbor.read issuer_signed);
  auth ← take (item_get root (Text (bytes_of "issuerAuth")));
  protected ← take (item_at auth 0);
  payload ← take (item_at auth 2);
  signature ← take (item_at auth 3);
  let signature := item_content signature in
  let sig_structure := encode (Array [
    Text (bytes_of "Signature1"); Bytes (item_content protected); Bytes []; Bytes (item_content payload)]) in
  signature ← fixed 64 signature "the issuer signature";
  name_spaces ← take (item_get root (Text (bytes_of "nameSpaces")));
  if negb (major name_spaces =? 5)%Z then Err (Error.Input (IssuerSigned "nameSpaces is not a map")) else
  items ← foldM (λ items '(_, entries),
    if negb (major entries =? 4)%Z then
      Err (Error.Input (IssuerSigned "a name space does not hold an array of items")) else
    foldM (λ items item,
      inner ← take (item_embedded item);
      id ← take (item_get inner (Text (bytes_of "elementIdentifier")));
      (if utf8_valid (item_content id) then Ok tt
       else Err (Error.Input (IssuerSigned "elementIdentifier is not UTF-8"))) ;;
      Ok (items ++ [(item_content id, item_bytes item)])) items (children entries))
    [] (pairs (children name_spaces));
  r ← fixed 32 (slice 0 32 signature) "r";
  s ← fixed 32 (drop 32 signature) "s";
  Ok {| sig_structure := sig_structure; r := r; s := s; items := items |}.

(** [Mdoc::item]. *)
Definition mdoc_item (m : Mdoc) (id : list byte) : outcome Error.t (list byte) :=
  ok_or (Error.Input (NoItem id)) (snd <$> (snd <$> list_find (λ item, item.1 = id) (items m))).

(** bincode's reading and writing of a proof, whose errors are texts. *)
Class ProofCodec `{VegaProver} := {
  deserialize_proof : list byte → outcome string VegaMcZkSNARK;
  serialize_proof : VegaMcZkSNARK → outcome string (list byte);
  serialized_size : VegaMcZkSNARK → outcome string nat;
}.

#[export] Instance full_core `{Bellpepper} `{Sha2} (c : Constants) : Setup.Core MdocNymCore :=
  {| core_vega := core_circuit c; LAYOUT := FULL_MDOC |}.

Section Api.
Context `{CompressionGadget} `{Sha2} `{!OrderField} `{!P256Library} `{!VegaProver} `{!ShapeCodec} `{!ProofCodec}.
(** The fixed points of [P256Constants]. *)
Variable c : Constants.
#[local] Instance core_in_use : Setup.Core MdocNymCore := full_core c.

(** [struct Keys], [Keys::from_shapes]. *)
Record Keys := mkKeys {
  k_prover : VegaMcProverKey;
  k_verifier : VegaMcVerifierKey;
  k_circuit : ApprovedCircuit;
}.
Definition from_shapes (shapes : list byte) : outcome Error.t Keys :=
  guarded (
    let digest := hex (sha256 shapes) in
    match snd <$> list_find (λ c, shapes_sha256 c = digest) APPROVED_SHAPES with
    | None => Err (Error.UnknownCircuit digest)
    | Some circuit =>
        '(prover, verifier) ← map_err (λ e, Error.Shapes (vega_debug e))
                                (setup_from_shapes_in (layout circuit) shapes);
        Ok {| k_prover := prover; k_verifier := verifier; k_circuit := circuit |}
    end).

(** [shapes]. *)
Definition shapes : outcome Error.t (list byte) :=
  guarded (map_err (λ e, Error.Shapes (vega_debug e)) (Setup.shapes core_blank)).

(** The public values that [prove] and [verify] expect of the core. *)
Definition expected_values (p : Public) (verifier_input : list byte) : list Scalar :=
  Presentation.public_values Digits p ++ verifier_values verifier_input.

(** [prove], after the seed's copy. *)
Definition prove_with (keys : Keys) (statement : Statement) (holder : Holder) (seed : list byte)
    : outcome Error.t Proved :=
  '(public, verifier_input) ← public statement (k_circuit keys);
  device ← fixed 64 (h_device_signature holder) "device signature";
  device_r ← fixed 32 (take 32 device) "device r";
  device_s ← fixed 32 (drop 32 device) "device s";
  let device := from_rs device_r device_s in
  m ← mdoc (issuer_signed holder);
  let pseudonym := Pseudonym.pseudonym seed verifier_input in
  ssc ← mdoc_item m (ssc_element (k_circuit keys));
  let messages := {| nm_ssc := ssc; secret_seed := seed; nm_verifier_input := verifier_input |} in
  let issuer := from_rs (r m) (s m) in
  item ← mdoc_item m (birth_date_element (k_circuit keys));
  witness ← map_err (λ e, Error.Refused (refusal_new Credential e))
    (full (sig_structure m) item messages (issuer_key public) issuer);
  let table := w_table witness in
  let core := {|
    core_witness := Some witness;
    core_presentation := Some {| Presentation.public := public; device_signature := device |};
    core_nym := Some {| verifier_input := verifier_input; np_pseudonym := pseudonym |} |} in
  rule ← map_err (λ _, Error.Prover "the witness could not be synthesized") (first_broken core);
  match rule with
  | Some rule => Err (Error.Refused (of_rule rule))
  | None =>
      assignment ← map_err (λ _, Error.Prover "the witness could not be synthesized")
                     (App.witness (App.steps table) core);
      let steps := replay_steps assignment in
      let core := replay_core assignment in
      prepared ← map_err (λ e, Error.Prover ("prepare: " +:+ vega_debug e)) (App.prepare (k_prover keys) steps core);
      '(proof, _) ← map_err (λ e, Error.Prover ("prove: " +:+ vega_debug e))
                      (App.prove (k_prover keys) steps core prepared);
      map_err (λ _, Error.Prover "the proof failed its own verification")
        (accept_pseudonym (layout (k_circuit keys)) (k_verifier keys) proof
           (expected_values public verifier_input)) ;;
      proof ← map_err (λ e, Error.Prover ("encoding: " +:+ e)) (serialize_proof proof);
      Ok {| pr_proof := proof; pr_pseudonym := pseudonym |}
  end.

(** [prove]. *)
Definition prove (keys : Keys) (statement : Statement) (holder : Holder) : outcome Error.t Proved :=
  seed ← fixed SEED_BYTES (h_secret_seed holder) "secret_seed";
  guarded (prove_with keys statement holder seed).

(** [verify]. *)
Definition verify (keys : Keys) (statement : Statement) (proof : list byte) : outcome Error.t (list byte) :=
  guarded (
    '(public, verifier_input) ← public statement (k_circuit keys);
    if (MAX_PROOF <? Z.of_nat (length proof))%Z then Err (Error.Input (ProofTooLong (length proof))) else
    decoded ← map_err (λ _, Error.Input ProofUndecodable) (deserialize_proof proof);
    (match serialized_size decoded with
     | Ok n => if (n =? length proof)%nat then Ok tt else Err (Error.Input ProofTrailing)
     | Err _ => Err (Error.Input ProofTrailing)
     | Panic w => Panic w
     end) ;;
    map_err (λ rejection, match rejection with
      | Invalid e => Error.ProofInvalid (vega_debug e)
      | Position instance _ =>
          Error.Mismatch ("step instance " +:+ pretty instance +:+ " reports another position")
      | PublicValues _ => Error.Mismatch "the proof's public values are not the named ones"
      end) (accept_pseudonym (layout (k_circuit keys)) (k_verifier keys) decoded
              (expected_values public verifier_input))).

(** [pseudonym_of]. *)
Definition pseudonym_of_seed (secret_seed verifier_input : list byte) : outcome Error.t (list byte) :=
  seed ← fixed SEED_BYTES secret_seed "secret_seed";
  verifier_input ← fixed 32 verifier_input "verifier input";
  Ok (Pseudonym.pseudonym seed verifier_input).
End Api.

(** * Lemmas: the inputs *)
Section InputLemmas.
Context `{Bellpepper} `{Sha2} `{!P256Library}.
Add Field scalar_field : scalar_field_theory (morphism of_int_morph, constants [scalar_const]).

Lemma map_err_ok {E E' A} (f : E → E') (m : outcome E A) a : map_err f m = Ok a ↔ m = Ok a.
Proof. destruct m; cbn; split; congruence. Qed.

Lemma fixed_ok n bytes what bytes' : fixed n bytes what = Ok bytes' ↔ bytes' = bytes ∧ length bytes = n.
Proof.
  unfold fixed. destruct (Nat.eqb_spec (length bytes) n).
  - split; [by intros [= <-]|by intros [-> _]].
  - split; [done|by intros [_ ?]].
Qed.

Lemma forallb_zero (l : list byte) : forallb (λ b, bool_decide (b = x00)) l = true ↔ be_int l = 0%Z.
Proof.
  induction l as [|b l IH]; [done|]. cbn [forallb]. rewrite andb_true_iff, bool_decide_eq_true, IH, be_int_cons.
  pose proof (be_int_range l) as Hl. pose proof (b2z_range b) as Hb. split.
  - intros [-> ->]. done.
  - intros E. assert (b2z b = 0)%Z as Eb by nia. split; [by apply b2z_inj|nia].
Qed.

(** A key is accepted exactly when its coordinates are below the prime and
    satisfy the curve's equation. *)
Lemma check_issuer_key_ok x y :
  length x = 32%nat → length y = 32%nat →
  check_issuer_key x y = Ok tt ↔
  (be_int x < p)%Z ∧ (be_int y < p)%Z ∧ on_curve (of_int b256) {| ax := from_be x; ay := from_be y |}.
Proof.
  intros Hx Hy. unfold check_issuer_key.
  assert (∀ l, le_int (reverse l) = be_int l) as Hle by (intros l; unfold le_int; by rewrite reverse_involutive).
  assert (∀ l : list byte, length l = 32%nat → length (reverse l) = 32%nat) as Hr by (intros l; by rewrite length_reverse).
  pose proof (fp_from_bytes_spec (reverse x) (Hr x Hx)) as Sx. pose proof (fp_from_bytes_spec (reverse y) (Hr y Hy)) as Sy.
  rewrite Hle in Sx, Sy. rewrite !from_be_of_int by lia.
  destruct (fp_from_bytes (reverse x)) as [fx|]; [|split; [done|lia]].
  destruct (fp_from_bytes (reverse y)) as [fy|]; [|split; [done|lia]].
  destruct Sx as [Ex Hxp], Sy as [Ey Hyp]. pose proof (affine_from_xy_spec fx fy) as HS. rewrite Ex, Ey in HS.
  destruct (forallb _ x && forallb _ y) eqn:Ez; cbn [negb].
  - apply andb_true_iff in Ez as [->%forallb_zero ->%forallb_zero]. split; [done|]. intros (_ & _ & Hon).
    exfalso. unfold on_curve in Hon. cbn [ax ay] in Hon. rewrite of_int_0 in Hon.
    apply (of_int_nonzero b256); [by vm_compute|]. transitivity (ZERO * ZERO * ZERO - of_int 3 * ZERO + of_int b256)%S.
    + rewrite <- of_int_0. ring.
    + rewrite <- Hon, <- of_int_0. ring.
  - assert (¬ (be_int x = 0 ∧ be_int y = 0)%Z) as Hn.
    { intros [Zx%forallb_zero Zy%forallb_zero]. by rewrite Zx, Zy in Ez. }
    destruct (affine_from_xy fx fy) eqn:EA.
    + split; [|done]. intros _. split_and!; [done..|]. by destruct (proj1 HS eq_refl).
    + split; [done|]. intros (_ & _ & Hon). pose proof (proj2 HS (or_intror Hon)). congruence.
Qed.

(** What the verifier's values mean: the texts they come from, and the issuer's
    key, which is a point of the curve. *)
Record named (st : Statement) (circuit : ApprovedCircuit) (p : Public) (vi : list byte) : Prop := {
  nd_issuer : issuer_key p = {| key_x := issuer_key_x st; key_y := issuer_key_y st |};
  nd_point : on_curve (of_int b256) {| ax := from_be (issuer_key_x st); ay := from_be (issuer_key_y st) |};
  nd_from : match born_from p with
            | None => earliest st = NO_LOWER_BOUND
            | Some d => earliest st = date_text d ∧ real d
            end;
  nd_by : cutoff st = date_text (born_by p) ∧ real (born_by p);
  nd_now : st_time st = time_text (now p) ∧ real_time (now p);
  nd_challenge : challenge p = challenge_digest st ∧ length (challenge p) = 32%nat;
  nd_type : ∃ head, text_head (length (doc_type circuit)) = Ok head ∧
    credential_type (request p) =
      {| p_window := DOC_TYPE_WINDOW; p_bytes := DOC_TYPE_KEY ++ head ++ doc_type circuit |};
  nd_attribute : ∃ head, text_head (length (birth_date_element circuit)) = Ok head ∧
    request_attribute (request p) =
      {| p_window := IDENTIFIER_WINDOW; p_bytes := IDENTIFIER_KEY ++ head ++ birth_date_element circuit |};
  nd_patterns : pattern_ok (credential_type (request p)) ∧ pattern_ok (request_attribute (request p));
  nd_input : vi = st_verifier_input st ∧ length vi = 32%nat;
}.

Lemma request_mdoc_ok doc_type identifier rq :
  request_mdoc doc_type identifier = Ok rq →
  ∃ h h', text_head (length doc_type) = Ok h ∧ text_head (length identifier) = Ok h' ∧
    credential_type rq = {| p_window := DOC_TYPE_WINDOW; p_bytes := DOC_TYPE_KEY ++ h ++ doc_type |} ∧
    request_attribute rq = {| p_window := IDENTIFIER_WINDOW; p_bytes := IDENTIFIER_KEY ++ h' ++ identifier |} ∧
    pattern_ok (credential_type rq) ∧ pattern_ok (request_attribute rq).
Proof.
  intros (ct & Ect & (ra & Era & [= <-])%bind_ok)%bind_ok.
  apply bind_ok in Ect as (h & Eh & [-> Hct]%pattern_new_ok); [|cbn; lia].
  apply bind_ok in Era as (h' & Eh' & [-> Hra]%pattern_new_ok); [|cbn; lia].
  exists h, h'. cbn [concat] in *. rewrite !app_nil_r in *. done.
Qed.

Lemma public_named st circuit pb vi : public st circuit = Ok (pb, vi) → named st circuit pb vi.
Proof.
  unfold public. intros (x & [-> Hx]%fixed_ok & E)%bind_ok.
  apply bind_ok in E as (y & [-> Hy]%fixed_ok & E). apply bind_ok in E as ([] & Hkey & E).
  apply check_issuer_key_ok in Hkey as (_ & _ & Hon); [|done..].
  apply bind_ok in E as ([] & _ & E). apply bind_ok in E as (bf & Ebf & E).
  apply bind_ok in E as (bb & Ebb%map_err_ok%date_iff & E). apply bind_ok in E as (nw & Enw%map_err_ok%time_iff & E).
  apply bind_ok in E as (ch & [-> Hch]%fixed_ok & E). apply bind_ok in E as (rq & Erq%map_err_ok & E).
  apply bind_ok in E as (v & [-> Hv]%fixed_ok & [= <- <-]).
  apply request_mdoc_ok in Erq as (h & h' & Eh & Eh' & Ect & Era & Hct & Hra).
  split; cbn [issuer_key born_from born_by now challenge request]; try done; try (by split; tauto); [|by eauto..].
  case_bool_decide as Ee.
  - by injection Ebf as <-.
  - apply bind_ok in Ebf as (d & Ed%map_err_ok%date_iff & [= <-]). tauto.
Qed.

Lemma named_public_ok st circuit pb vi : named st circuit pb vi → public_ok pb ∧
  Request.windows (request pb) = [WINDOWS.1; WINDOWS.2].
Proof.
  intros [_ _ Hf [_ Hb] [_ Hn] [_ Hc] (h & _ & Et) (h' & _ & Ea) [Hp1 Hp2] _].
  unfold public_ok, Request.windows. rewrite Et, Ea. split; [|done]. split_and!; try done.
  - intros q [->| ->]; [rewrite Et in *|rewrite Ea in *]; split_and!; try done; cbn; lia.
  - intros d E. rewrite E in Hf. tauto.
Qed.
End InputLemmas.

(** * Properties *)
Section ApiProperties.
Context `{CompressionGadget} `{Sha2} `{!OrderField} `{!P256Library} `{!VegaProver} `{!ShapeCodec} `{!ProofCodec}.
Variable c : Constants.

(** What the prover's verification promises of keys that were set up from the
    circuits: behind an accepted proof are values of the slots that satisfy the
    rules of every step instance and of the core, share the table's slots and
    have the reported public values. *)
Definition keys_sound (keys : Keys) : Prop :=
  ∀ proof reported core,
    vega_verify proof (k_verifier keys) (instances FULL_MDOC) = Ok (reported, core) →
  ∃ (steps : nat → Shape.Assignment) (σ τ : Shape.Assignment),
    length reported = instances FULL_MDOC ∧
    (∀ i public, reported !! i = Some public →
       share_table (steps i) τ ∧ (∀ j v, public !! j = Some v → steps i (Input (1 + j)) = v) ∧
       satisfies (steps i) (synthesis (step_blank_in FULL_MDOC 0)) 0 1) ∧
    share_table σ τ ∧ (∀ j v, core !! j = Some v → σ (Input (1 + j)) = v) ∧
    satisfies σ (synthesis (VegaCircuit0 := core_circuit c) core_blank) 0 1.

Lemma accepted_statement keys proof p vi ps :
  keys_sound keys → constants_on_curve c → 0 < length (c_windows c) ≤ 128 →
  public_ok p → Request.windows (request p) = [WINDOWS.1; WINDOWS.2] → length vi = 32 →
  accept_pseudonym FULL_MDOC (k_verifier keys) proof (expected_values p vi) = Ok ps →
  mdoc_statement c p {| verifier_input := vi; np_pseudonym := ps |}.
Proof.
  intros Hk Hc Hcw Hp Hw Hvi (reported & Ev & Hpos & Hps)%accept_pseudonym_Ok.
  destruct (Hk _ _ _ Ev) as (steps & σ & τ & Hl & Hsteps & Hσ & Hin & Hsat).
  pose proof (wp_statement c steps σ τ core_blank p {| verifier_input := vi; np_pseudonym := ps |}) as HP.
  rewrite wp_shape in HP. destruct HP as (_ & _ & HS); try done.
  - intros i Hi. destruct (lookup_lt_is_Some_2 reported i) as [public Ei]; [lia|].
    destruct (Hsteps i public Ei) as (Hs & Hv & Hst). split_and!; [done| |by exists (step_blank_in FULL_MDOC 0)].
    rewrite (Hpos i public Ei) in Hv. by apply (Hv 0).
  - intros j v E. apply Hin. unfold expected_values. rewrite <- app_assoc. exact E.
Qed.

(** C2: When a proof is accepted, the statement holds for the values that the
    verifier named, as texts and bytes, and for the pseudonym that is returned:
    a message that the issuer signed, with the named key, says what the named
    dates, type and challenge ask, and commits to the seed of the pseudonym.
    This relies on the prover's verification, for keys of these circuits. *)
Theorem verify_statement keys st proof :
  keys_sound keys → layout (k_circuit keys) = FULL_MDOC →
  constants_on_curve c → 0 < length (c_windows c) ≤ 128 →
  match verify keys st proof with
  | Ok ps => ∃ p vi, named st (k_circuit keys) p vi ∧
      mdoc_statement c p {| verifier_input := vi; np_pseudonym := ps |}
  | _ => True
  end.
Proof.
  intros Hk Hlay Hc Hcw. destruct (verify keys st proof) as [ps|e|w] eqn:E; [|done..].
  unfold verify, guarded in E.
  assert (∀ m : outcome Error.t (list byte), match m with Panic what => Err (Error.Internal what) | result => result end
    = Ok ps → m = Ok ps) as Hguard by (by intros []).
  apply Hguard in E. apply bind_ok in E as ([p vi] & Hn%public_named & E). cbv beta iota in E.
  destruct (_ <? _)%Z; [done|]. apply bind_ok in E as (decoded & _ & E). apply bind_ok in E as (? & _ & E).
  apply map_err_ok in E. rewrite Hlay in E. exists p, vi. split; [done|].
  destruct (named_public_ok _ _ _ _ Hn) as [Hp Hw].
  eapply accepted_statement; try done. apply Hn.
Qed.

(** C26: A proof that [prove] returns is one that [verify] accepts for the same
    statement, when it is within the limit on its length and the bytes are read
    back as the proof that was written. *)
Theorem prove_verifies keys st holder :
  (∀ proof bytes, serialize_proof proof = Ok bytes →
     deserialize_proof bytes = Ok proof ∧ serialized_size proof = Ok (length bytes)) →
  match prove c keys st holder with
  | Ok proved => (MAX_PROOF < Z.of_nat (length (pr_proof proved)))%Z ∨
      ∃ ps, verify keys st (pr_proof proved) = Ok ps
  | _ => True
  end.
Proof.
  intros Hcodec. destruct (prove c keys st holder) as [proved|e|w] eqn:Ep; [|done..].
  destruct (Z.ltb_spec MAX_PROOF (Z.of_nat (length (pr_proof proved)))) as [|Hlen]; [by left|right].
  unfold prove in Ep. apply bind_ok in Ep as (seed & _ & Ep).
  unfold guarded in Ep. destruct (prove_with _ _ _ _ _) as [pr|e|w] eqn:E; [|done..]. injection Ep as ->.
  unfold prove_with in E. apply bind_ok in E as ([p vi] & Hpub & E).
  do 8 (apply bind_ok in E as (? & _ & E); cbv beta iota in E).
  destruct x6 as [rule|]; [done|]. do 2 (apply bind_ok in E as (? & _ & E)).
  apply bind_ok in E as ([proof prepared] & _ & E). apply bind_ok in E as (ps & Hacc%map_err_ok & E).
  apply bind_ok in E as (bytes & Hb%map_err_ok & [= <-]). cbn [pr_proof] in *.
  destruct (Hcodec proof bytes Hb) as [Hd Hs]. exists ps.
  unfold verify. rewrite Hpub. cbn [mbind outcome_bind]. rewrite (proj2 (Z.ltb_ge _ _)) by done.
  rewrite Hd. cbn [map_err mbind outcome_bind]. rewrite Hs, Nat.eqb_refl. cbn [mbind outcome_bind].
  by rewrite Hacc.
Qed.
End ApiProperties.
