(* ===== verification/NymAuth.v ===== *)
(** [nymauth_vega.rs]: the prover and verifier of the statement as the bindings
    call them, and the values of a request.

    A [Vec<u8>] or [String] that a call receives by value is an argument; the
    holder, whose seed the call overwrites, is threaded through as state. *)
From Stdlib Require Import ZArith Lia Strings.String Strings.Byte.
From stdpp Require Import base list numbers option strings.
From S2P Require Import Prelude Bytes Field ConstraintSystem Shape CheckSystem Bellpepper Lc Values Table P256 Calendar Challenge Pseudonym Circuit Step Mdoc App Setup Statement.

(** The texts of [{:?}] of a code. *)
Definition code_text (c : RefusalCode) : string :=
  match c with
  | SeedMismatch => "SeedMismatch"
  | IssuerSignature => "IssuerSignature"
  | DeviceSignature => "DeviceSignature"
  | Credential => "Credential"
  end.

(** [enum NymAuthVegaError]; the detail of an invalid input is its reason, or
    the text of a request that is refused. *)
Inductive NymAuthVegaError :=
  | InvalidInput (detail : InputReason + string)
  | InvalidShapes (detail : string)
  | UnknownCircuit (detail : list byte)
  | Refused (detail : string)
  | ProverFailed (detail : string)
  | ProofInvalid (detail : string)
  | Mismatch (detail : string)
  | Internal (detail : string).

(** [From<Error>]. *)
Definition from_error (e : Error.t) : NymAuthVegaError :=
  match e with
  | Error.Input detail => InvalidInput (inl detail)
  | Error.Shapes detail => InvalidShapes detail
  | Error.UnknownCircuit detail => UnknownCircuit detail
  | Error.Refused r => Refused (code_text (code r))
  | Error.Prover detail => ProverFailed detail
  | Error.ProofInvalid detail => ProofInvalid detail
  | Error.Mismatch detail => Mismatch detail
  | Error.Internal detail => Internal detail
  end.

(** [struct NymAuthVegaStatement], [NymAuthVegaHolder], [NymAuthVegaProof]. *)
Record NymAuthVegaStatement := mkNymAuthVegaStatement {
  ns_issuer_key_x : list byte;
  ns_issuer_key_y : list byte;
  ns_time : list byte;
  ns_earliest : list byte;
  ns_cutoff : list byte;
  ns_challenge_digest : list byte;
  ns_verifier_input : list byte;
}.
Record NymAuthVegaHolder := mkNymAuthVegaHolder {
  nh_issuer_signed : list byte;
  nh_secret_seed : list byte;
  nh_device_signature : list byte;
}.
Record NymAuthVegaProof := mkNymAuthVegaProof { np_proof : list byte; nv_pseudonym : list byte }.

(** [statement_of]. *)
Definition statement_of (s : NymAuthVegaStatement) : Statement := {|
  issuer_key_x := ns_issuer_key_x s;
  issuer_key_y := ns_issuer_key_y s;
  st_time := ns_time s;
  earliest := ns_earliest s;
  cutoff := ns_cutoff s;
  challenge_digest := ns_challenge_digest s;
  st_verifier_input := ns_verifier_input s;
|}.

(** [v[..].zeroize()]. *)
Definition zeroize (bytes : list byte) : list byte := replicate (length bytes) x00.

Section Calls.
Context `{CompressionGadget} `{Sha2} `{!OrderField} `{!P256Library} `{!VegaProver} `{!ShapeCodec} `{!ProofCodec}.
Variable c : Constants.

(** [struct NymAuthVegaKeys], [nymauth_vega_load_keys]. *)
Record NymAuthVegaKeys := mkNymAuthVegaKeys { nk_keys : Keys }.
Definition nymauth_vega_load_keys (shapes : list byte) : outcome NymAuthVegaError NymAuthVegaKeys :=
  keys ← map_err from_error (from_shapes shapes);
  Ok {| nk_keys := keys |}.

(** [prove_zeroing]: the result, and the holder after the call. *)
Definition prove_zeroing (keys : NymAuthVegaKeys) (statement : NymAuthVegaStatement) (holder : NymAuthVegaHolder)
    : outcome NymAuthVegaError NymAuthVegaProof * NymAuthVegaHolder :=
  let result := Statement.prove c (nk_keys keys) (statement_of statement) {|
    issuer_signed := nh_issuer_signed holder;
    h_secret_seed := nh_secret_seed holder;
    h_device_signature := nh_device_signature holder |} in
  match result with
  | Panic w => (Panic w, holder)
  | _ =>
      let holder := {|
        nh_issuer_signed := nh_issuer_signed holder;
        nh_secret_seed := zeroize (nh_secret_seed holder);
        nh_device_signature := nh_device_signature holder |} in
      (proved ← map_err from_error result;
       Ok {| np_proof := pr_proof proved; nv_pseudonym := pr_pseudonym proved |}, holder)
  end.

(** [nymauth_vega_prove]. *)
Definition nymauth_vega_prove (keys : NymAuthVegaKeys) (statement : NymAuthVegaStatement)
    (holder : NymAuthVegaHolder) : outcome NymAuthVegaError NymAuthVegaProof * NymAuthVegaHolder :=
  prove_zeroing keys statement holder.

(** [nymauth_vega_verify]. *)
Definition nymauth_vega_verify (keys : NymAuthVegaKeys) (statement : NymAuthVegaStatement) (proof : list byte)
    : outcome NymAuthVegaError (list byte) :=
  map_err from_error (Statement.verify (nk_keys keys) (statement_of statement) proof).

(** [struct NymAuthChallenge], [nymauth_derive_challenge],
    [nymauth_challenge_digest], [nymauth_verifier_input]. *)
Record NymAuthChallenge := mkNymAuthChallenge {
  na_session_transcript : list byte;
  na_challenge_digest : list byte;
}.
Definition nymauth_derive_challenge (origin nonce doc_type : list byte) (jwk_thumbprint : option (list byte))
    : outcome NymAuthVegaError NymAuthChallenge :=
  d ← map_err (λ detail, InvalidInput (inr detail)) (derive origin nonce doc_type jwk_thumbprint);
  Ok {| na_session_transcript := session_transcript d; na_challenge_digest := digest d |}.
Definition nymauth_challenge_digest (session_transcript doc_type : list byte)
    : outcome NymAuthVegaError (list byte) :=
  map_err (λ detail, InvalidInput (inr detail)) (digest_of_transcript session_transcript doc_type).
Definition nymauth_verifier_input (client_id : list byte) : outcome NymAuthVegaError (list byte) :=
  map_err (λ detail, InvalidInput (inr detail)) (Challenge.verifier_input client_id).

(** * Properties *)

Lemma guarded_no_panic {A} (f : outcome Error.t A) w : guarded f ≠ Panic w.
Proof. by destruct f. Qed.

Lemma prove_no_panic keys st holder w : Statement.prove c keys st holder ≠ Panic w.
Proof.
  unfold Statement.prove, fixed. destruct (_ =? _)%nat; cbn [mbind outcome_bind]; [apply guarded_no_panic|done].
Qed.

(** C27: A call never panics, whatever its arguments and whatever the prover
    does, and every path of [prove], errors included, leaves the holder with a
    seed of zeros of the same length and everything else unchanged. *)
Theorem calls_are_safe keys statement holder proof :
  let '(result, holder') := nymauth_vega_prove keys statement holder in
  (∀ w, result ≠ Panic w) ∧
  (∀ w, nymauth_vega_verify keys statement proof ≠ Panic w) ∧
  (∀ shapes w, nymauth_vega_load_keys shapes ≠ Panic w) ∧
  nh_secret_seed holder' = replicate (length (nh_secret_seed holder)) x00 ∧
  nh_issuer_signed holder' = nh_issuer_signed holder ∧
  nh_device_signature holder' = nh_device_signature holder.
Proof.
  unfold nymauth_vega_prove, prove_zeroing.
  destruct (Statement.prove _ _ _ _) as [proved|e|w] eqn:E; [| |by apply prove_no_panic in E];
    (split; [done|split; [|split; [|done]]]).
  1, 3: unfold nymauth_vega_verify, Statement.verify; intros w Ev;
    destruct (guarded _) eqn:Eg in Ev; try done; by apply guarded_no_panic in Eg.
  all: intros shapes w Ev; unfold nymauth_vega_load_keys, from_shapes in Ev;
    destruct (guarded _) eqn:Eg in Ev; try done; by apply guarded_no_panic in Eg.
Qed.
End Calls.
