(* ===== verification/Witnesses.v ===== *)
(** Concrete inputs at which the hypotheses of the properties hold: the field
    of [FieldInstance], the weighted sums and slots of [BellpepperInstance] and
    the hash functions of FIPS 180-4. *)
From Stdlib Require Import ZArith Lia Strings.String Strings.Byte.
From Stdlib Require Import Field_tac Ring.
From stdpp Require Import base list numbers option strings pretty.
From S2P Require Import Prelude Bytes Field FieldInstance ConstraintSystem Shape CheckSystem Bellpepper BellpepperInstance Lc Values Bits Select Sha256 Table Window.
From S2P Require Cbor.
From S2P Require Import Challenge Request.

(** An assignment of the private slots by a list. *)
Definition assignment (aux : list Z) : Assignment := {|
  assign v := match v with
              | Input 0 => ONE
              | Input _ => ZERO
              | Aux i => of_int (default 0%Z (aux !! i))
              end;
  assign_one := eq_refl;
|}.

(** The state of a constraint system before any slot is allocated. *)
Definition start_state : CheckState :=
  {| cs_aux := []; cs_inputs := [ONE]; cs_path := []; cs_broken := None |}.

(** Whether an assignment satisfies the rules, by the integers of both sides. *)
Definition rules_checked (σ : Assignment) {A} (m : Synth A) : bool :=
  forallb (λ r, (repr (eval σ (rule_a r) * eval σ (rule_b r))%S =? repr (eval σ (rule_c r)))%Z) (shape m 0 1).1.1.

Lemma rules_checked_satisfies (σ : Assignment) {A} (m : Synth A) : rules_checked σ m = true → satisfies σ m 0 1.
Proof.
  unfold rules_checked, satisfies. intros H%Is_true_eq_left%forallb_True.
  eapply list.Forall_impl; [exact H|]. intros r Hr%Is_true_eq_true%Z.eqb_eq. by apply repr_inj.
Qed.

(** Equations of concrete scalars, by the canonical bytes. *)
Ltac scalar_compute := apply to_repr_inj; vm_compute; reflexivity.

Lemma bits_sound_witness :
  ∃ bs, (shape (bits (constant (of_int 5)) 3) 0 1).1.2 = Ok bs ∧
    bits_are (denotes (assignment [1; 0; 1]%Z)) bs
      (int_bits 3 (repr (lval (assignment [1; 0; 1]%Z) (constant (of_int 5))))) ∧
    (repr (lval (assignment [1; 0; 1]%Z) (constant (of_int 5))) < 2 ^ 3)%Z.
Proof.
  apply (bits_sound (assignment [1; 0; 1]%Z) (constant (of_int 5)) 3 0 1); [lia|].
  repeat apply Forall_cons_2; [scalar_compute..|apply Forall_nil_2].
Defined.

Lemma bits_complete_witness :
  ∃ bs, run (bits (constant (of_int 5)) 3) start_state
      = (Ok bs, cs_push start_state (of_bool <$> int_bits 3 (repr (of_int 5)))) ∧
    bits_are (knows (store (cs_push start_state (of_bool <$> int_bits 3 (repr (of_int 5))))))
      bs (int_bits 3 (repr (of_int 5))).
Proof.
  apply (bits_complete start_state (constant (of_int 5)) (of_int 5) 3);
    [reflexivity|reflexivity|lia|by apply knows_constant|vm_compute; reflexivity].
Defined.

(** The bits of 0x12 in the first eight private slots. *)
Definition example_bits : list bool := int_bits 8 18.
Definition example_booleans : list Boolean := imap (λ i b, Is (Aux i, Some b)) example_bits.
Definition example_state : CheckState := cs_push start_state (of_bool <$> example_bits).

Lemma example_booleans_known :
  bits_are (knows (store example_state)) example_booleans example_bits.
Proof.
  repeat apply Forall2_cons_2; [..|apply Forall2_nil_2];
    (split; [reflexivity|split; [|scalar_compute]]);
    (apply Forall_cons_2; [eexists; reflexivity|apply Forall_nil_2]).
Qed.

Lemma less_than_exact_witness :
  run (less_than example_booleans [x34]) example_state
  = (Ok tt, cs_push example_state (less_than_values [] example_bits [x34])).
Proof.
  apply (proj2 (less_than_exact example_booleans example_bits [x34] eq_refl));
    [reflexivity|reflexivity|apply example_booleans_known|vm_compute; reflexivity].
Defined.

Lemma expect_sound_witness : [x41] = [x41].
Proof.
  apply (expect_sound (assignment []) [constant (of_int 65)] [x41] [x41] 0 1); [|reflexivity|].
  - apply Forall2_cons_2; [apply lval_constant|apply Forall2_nil_2].
  - repeat apply Forall_cons_2; [scalar_compute..|apply Forall_nil_2].
Defined.

(** A selector of two entries set at the second. *)
Definition example_entries : list Lc := [constant (of_int 7); constant (of_int 9)].

Lemma select_sound_witness :
  let m := o ← one_hot_alloc 2 None; x ← select o example_entries; mret (o, x) in
  ∃ o x k, (shape m 0 1).1.2 = Ok (o, x) ∧ k < 2 ∧
    lval (assignment [0; 1; 2]%Z) (one_hot_index o) = of_int (Z.of_nat k) ∧
    [of_int 7; of_int 9] !! k = Some (lval (assignment [0; 1; 2]%Z) x).
Proof.
  apply (select_sound (assignment [0; 1; 2]%Z) 2 None example_entries [of_int 7; of_int 9] 0 1);
    [reflexivity|reflexivity| |].
  - repeat apply Forall2_cons_2; [apply lval_constant..|apply Forall2_nil_2].
  - repeat apply Forall_cons_2; [scalar_compute..|apply Forall_nil_2].
Defined.

Lemma select_native_witness :
  ∃ o x, run (o ← one_hot_alloc 2 (Some 1); x ← select o example_entries; mret (o, x)) start_state
           = (Ok (o, x), cs_push start_state
               (select_values (one_hot_values [] 2 1) 2 1
                  (λ j, default ZERO ([of_int 7; of_int 9] !! j))).2) ∧
    value x = Some (select_values (one_hot_values [] 2 1) 2 1
                  (λ j, default ZERO ([of_int 7; of_int 9] !! j))).1 ∧
    [of_int 7; of_int 9] !! 1 = Some (select_values (one_hot_values [] 2 1) 2 1
                  (λ j, default ZERO ([of_int 7; of_int 9] !! j))).1.
Proof.
  apply (select_native start_state 2 1 example_entries [of_int 7; of_int 9]);
    [reflexivity|reflexivity|lia|reflexivity|reflexivity|].
  repeat apply Forall2_cons_2; [by apply knows_constant..|apply Forall2_nil_2].
Defined.

(** * CBOR *)
Definition example_value : Cbor.Value :=
  Cbor.Map [(Cbor.Text (bytes_of "key"), Cbor.Tag 24 (Cbor.Bytes [x01; x02]));
            (Cbor.Unsigned 300, Cbor.Array [Cbor.Negative 6; Cbor.Bool true])].

Lemma example_value_wf : Cbor.wf (S Cbor.MAX_DEPTH) example_value.
Proof.
  repeat (constructor || lia || reflexivity).
Qed.

Lemma read_encode_witness :
  Cbor.read (Cbor.encode example_value ++ [x00]) = Ok (Cbor.item_of example_value) ∧
  Cbor.children (Cbor.item_of example_value) = Cbor.item_of <$> Cbor.parts example_value.
Proof.
  apply (Cbor.read_encode example_value [x00] example_value_wf). vm_compute. discriminate.
Defined.

Lemma read_self_delimiting_witness :
  let it := Cbor.item_of example_value in
  Cbor.item_bytes it `prefix_of` Cbor.encode example_value ∧
  (1 ≤ Cbor.content_at it ≤ length (Cbor.item_bytes it))%nat ∧
  Cbor.read (Cbor.item_bytes it) = Ok it ∧
  (4 ≤ Cbor.major it ≤ 6 →
     Cbor.item_content it = concat (Cbor.item_bytes <$> Cbor.children it) ∧
     Cbor.child_count (Cbor.major it) (Cbor.argument it) = Ok (Cbor.len (Cbor.children it)) ∧
     ∀ c, c ∈ Cbor.children it → Cbor.read (Cbor.item_bytes c) = Ok c)%Z.
Proof. apply (Cbor.read_self_delimiting (Cbor.encode example_value)). vm_compute. reflexivity. Defined.

Lemma read_depth_witness :
  (∃ it, Cbor.read (Cbor.encode (Cbor.nested 32)) = Ok it) ↔ (32 ≤ Cbor.MAX_DEPTH)%nat.
Proof. apply (Cbor.read_depth 32). vm_compute. discriminate. Defined.

Lemma item_get_first_witness :
  Cbor.item_get (Cbor.item_of example_value) (Cbor.Unsigned 300)
  = ok_or "no key [19, 01, 2c]" ((λ '(_, kv), Cbor.item_of kv.2) <$>
      list_find (λ kv : Cbor.Value * Cbor.Value, Cbor.encode kv.1 = Cbor.encode (Cbor.Unsigned 300))
        [(Cbor.Text (bytes_of "key"), Cbor.Tag 24 (Cbor.Bytes [x01; x02]));
         (Cbor.Unsigned 300, Cbor.Array [Cbor.Negative 6; Cbor.Bool true])]).
Proof. apply (Cbor.item_get_first _ (Cbor.Unsigned 300) example_value_wf). Defined.

(** * Challenges and requests *)
Lemma device_authentication_inj_witness :
  device_authentication [x80] (bytes_of "a") ≠ device_authentication [x80] (bytes_of "b").
Proof.
  intros E. assert (Challenge.whole_item [x80]) as Hw.
  { eexists. split; vm_compute; reflexivity. }
  destruct (device_authentication_inj [x80] [x80] (bytes_of "a") (bytes_of "b") Hw Hw
    eq_refl eq_refl E) as [_ E'].
  discriminate E'.
Defined.

Definition example_challenge : outcome string Challenge :=
  derive (bytes_of "https://verifier.example") (bytes_of "0123456789abcdef")
    (bytes_of "eu.europa.ec.eudi.pid.1") None.

Lemma derive_transcript_agrees_witness :
  ∃ c, example_challenge = Ok c ∧
    digest_of_transcript (session_transcript c) (bytes_of "eu.europa.ec.eudi.pid.1") = Ok (digest c).
Proof.
  eexists. split; [reflexivity|].
  apply (derive_transcript_agrees (bytes_of "https://verifier.example")
    (bytes_of "0123456789abcdef") (bytes_of "eu.europa.ec.eudi.pid.1") None).
  reflexivity.
Defined.

(** A window of two bytes, the first of which a thermometer bit switches. *)
Definition example_pattern : Pattern := {|
  p_window := {| w_len := 2; thermometer := 1; align := Request.Right; nonempty := true |};
  p_bytes := [x41; x42];
|}.
Definition check_assignment : Assignment := {|
  assign v := match v with
              | Input 0 => ONE
              | Input i => of_int (default 0%Z ([1; 16706; 1]%Z !! i))
              | Aux i => of_int (default 0%Z ([65; 66; 1; 65]%Z !! i))
              end;
  assign_one := eq_refl;
|}.

Definition example_cells : list AllocatedNum := [(Aux 0, None); (Aux 1, None)].

Lemma check_sound_witness : slice 0 2 [x41; x42] = [x41; x42] ∧ (true = true → 1 ≤ 1).
Proof.
  apply (check_sound check_assignment example_pattern example_cells [x41; x42] None 2 1).
  - vm_compute. lia.
  - vm_compute. lia.
  - vm_compute. lia.
  - repeat apply Forall2_cons_2; [scalar_compute..|apply Forall2_nil_2].
  - reflexivity.
  - discriminate.
  - intros [|[|j]] v; [| |done]; intros [= <-]; scalar_compute.
  - repeat apply Forall_cons_2; [scalar_compute..|apply Forall_nil_2].
Defined.

(** * Windows *)
Lemma find_first_witness :
  (∃ i, find [x61; x62; x61] [x62] "b" = Ok i ∧ i + 1 ≤ 3 ∧
     slice i (i + 1) [x61; x62; x61] = [x62] ∧
     ∀ j, j < i → slice j (j + 1) [x61; x62; x61] ≠ [x62]) ∨
  ((∃ e, find [x61; x62; x61] [x62] "b" = Err e) ∧
     ∀ j, j + 1 ≤ 3 → slice j (j + 1) [x61; x62; x61] ≠ [x62]).
Proof. apply (find_first [x61; x62; x61] [x62] "b"). discriminate. Defined.

(** A table whose chunks all hold the integer one, in the slot of the
    constant one, and a message of one block. *)
Definition ones_cells : Cells := replicate 194 (Input 0, Some ONE).
Definition ones_message : Message := {|
  m_cells := ones_cells;
  m_region := {| first := 0; blocks := 1 |};
  m_last := {| one_hot_bits := [Is (Input 0, Some true)] |};
|}.
Definition ones (c : nat) : Scalar := if (c <? 128)%nat then ONE else ZERO.

Lemma ones_held (R : Lc → Scalar → Prop) :
  R (num ((Input 0, Some ONE) : AllocatedNum)) ONE → R lc_of_zero ZERO →
  holds_chunks R ones_cells ones.
Proof.
  intros H1 H0 c. unfold cells_chunk, ones. destruct (Nat.ltb_spec c 128) as [L|L].
  - rewrite (proj2 (Nat.ltb_lt _ _)) by done. unfold index, ones_cells.
    assert (c / 4 < 32) by (apply Nat.Div0.div_lt_upper_bound; lia).
    pose proof (Nat.mod_upper_bound c 4).
    rewrite lookup_replicate_2 by (unfold CELLS_PER_POSITION, CHUNKS_PER_BLOCK; lia).
    by eexists.
  - rewrite (proj2 (Nat.ltb_ge _ _)) by done. by eexists.
Qed.

(** The slots of the window of one byte at offset 15. *)
Definition window_slots : list Z :=
  [1; 1; 0; 0; 0; 1; 1; 1; 1; 0; 0; 0; 0; 0; 1; 1; 0; 0; 0; 0; 0; 0; 0]%Z
  ++ replicate 127 0%Z ++ [1]%Z
  ++ [0; 0; 0; 0; 0; 0; 0; 1; 0; 0; 0; 1; 0; 1; 1]%Z.

Lemma read_sound_witness :
  ∃ w o, (shape (message_read ones_message None 1) 0 1).1.2 = Ok w ∧ o + 1 ≤ 64 * (0 + 1) ∧
    denotes (assignment window_slots) (w_offset w) (of_int (Z.of_nat o)) ∧
    bytes_are (denotes (assignment window_slots)) (w_bytes w) (cell_byte ones <$> seq (64 * 0 + o) 1).
Proof.
  apply (read_sound (assignment window_slots) ones_message None 1 ones 0 0 1); [done|done|..].
  - apply ones_held; scalar_compute.
  - split; [simpl; lia|]. apply Forall2_cons_2; [scalar_compute|apply Forall2_nil_2].
  - apply rules_checked_satisfies. vm_compute. reflexivity.
Defined.

Lemma read_native_witness :
  ∃ V W w,
    window_values ones_message 15 1 (window_chunks 1) = mret (V, W) ∧
    W = byte_scalars (cell_byte ones <$> seq (64 * 0 + 15) 1) ∧
    run (message_read ones_message (Some 15) 1) start_state =
      (Ok w, cs_push start_state (one_hot_values [] 1 (15 / 64) ++ one_hot_values [] 4 (15 mod 64 / 16)
        ++ (of_bool <$> small_bits (Z.of_nat (15 mod 16)) 4)
        ++ (of_bool <$> int_bits 11 (64 * (Z.of_nat 0 + 1) - Z.of_nat (15 + 1))) ++ V ++ W)) ∧
    value <$> w_bytes w = Some <$> W.
Proof.
  apply (read_native start_state ones_message ones 0 15 1); try done; [| | |simpl; lia].
  - apply ones_held; [by apply knows_num|apply knows_zero].
  - intros i. unfold ones. destruct (i <? 128)%nat; by vm_compute.
  - split; [simpl; lia|]. apply Forall2_cons_2; [|apply Forall2_nil_2].
    split; [done|split; [|scalar_compute]].
    apply Forall_cons_2; [eexists; reflexivity|apply Forall_nil_2].
Defined.
