(* ===== verification/GadgetInstance.v ===== *)
(** Concrete instances of [NumOps], [NumOpsRuns] and [BooleanOps] over the
    slots of [BellpepperInstance]: a product is a new slot with one rule, the
    conjunction and the disjunction of two bits likewise; and of [P256Group],
    whose base field is the integers. *)
From Stdlib Require Import ZArith Lia Strings.String.
From Stdlib Require Import Field_tac Ring.
From stdpp Require Import base list numbers option strings.
From S2P Require Import Prelude Bytes Field FieldInstance ConstraintSystem Shape CheckSystem Bellpepper BellpepperInstance Lc Bits Gadgets CborUint OneHotCursor DigestId Sha256 Table Step Sha256Var Packing Sha256Mc BigNat StepInstance Curve P256 Ecc AgeDates.

Section Products.
Context `{ScalarField}.
Add Field scalar_field : scalar_field_theory (morphism of_int_morph, constants [scalar_const]).

Definition num_mul (a b : Var * option Scalar) : Synth (Var * option Scalar) :=
  let v := x ← a.2; y ← b.2; Some (x * y)%S in
  c ← alloc "product num" (ok_or AssignmentMissing v);
  enforce "multiplication constraint" (lc_from_variable a.1) (lc_from_variable b.1) (lc_from_variable c) ;;
  mret (c, v).

Lemma num_mul_gadget (σ : Assignment) a b :
  gadget σ (num_mul a b) (λ c, σ c.1 = (σ a.1 * σ b.1)%S).
Proof.
  unfold num_mul. eapply gadget_bind; [apply gadget_alloc|]. intros c _.
  eapply gadget_bind; [apply gadget_enforce|]. intros [] E. apply gadget_ret.
  unfold eval in E. by rewrite !lc_from_variable_eval in E.
Qed.

Lemma num_mul_completes s (a b : Var * option Scalar) x y :
  a.2 = Some x → s_lookup s a.1 = Some x → b.2 = Some y → s_lookup s b.1 = Some y →
  completes (num_mul a b) s (λ c s', c.2 = Some (x * y)%S ∧ s_lookup s' c.1 = Some (x * y)%S).
Proof.
  intros Ea La Eb Lb. unfold num_mul. rewrite Ea, Eb. cbn [mbind option_bind ok_or].
  eapply completes_bind; [eexists; apply emits_alloc|]. intros c vs [_ Lc].
  eapply completes_bind.
  { eapply completes_enforce; [apply valued_variable; by apply lookup_push..|by apply valued_variable|done]. }
  intros [] vs' _. apply completes_ret. split; [done|]. by apply lookup_push.
Qed.

#[export, refine] Instance num_ops_terms : NumOps := {|
  AllocatedNum_alloc_infallible v := slot_alloc (Ok v);
  AllocatedNum_mul := num_mul;
  AllocatedNum_square a := num_mul a a;
|}.
Proof.
  - intros σ v. eapply gadget_bind; [apply gadget_alloc|]. intros x _. by apply gadget_ret.
  - intros σ a b. apply num_mul_gadget.
  - intros σ a. apply num_mul_gadget.
Defined.

#[export] Instance num_runs_terms : NumOpsRuns.
Proof.
  split.
  - intros s x. eapply emits_bind_r; [apply emits_alloc|]. intros v [_ L]. by apply emits_ret.
  - intros s a b x y. apply num_mul_completes.
  - intros s a x Ea La. by apply num_mul_completes.
Defined.

(** a · b = c, and (1 − a) · (1 − b) = 1 − c. *)
Definition boolean_and (a b : Bool) : Synth Bool :=
  let v := x ← bool_value a; y ← bool_value b; Some (x && y) in
  c ← alloc "and result" (ok_or AssignmentMissing (of_bool <$> v));
  enforce "and constraint" (bool_sum a) (bool_sum b) (lc_from_variable c) ;;
  mret (Is (c, v)).
Definition boolean_or (a b : Bool) : Synth Bool :=
  let v := x ← bool_value a; y ← bool_value b; Some (x || y) in
  let not_lc x := lc_sub (lc_add_var lc_zero one) x in
  c ← alloc "or result" (ok_or AssignmentMissing (of_bool <$> v));
  enforce "or constraint" (not_lc (bool_sum a)) (not_lc (bool_sum b)) (not_lc (lc_from_variable c)) ;;
  mret (Is (c, v)).

Lemma bool_sum_slot (σ : Assignment) x v : eval σ (bool_sum (Is (x, v))) = σ x.
Proof. unfold bool_sum, eval. cbn. ring. Qed.

#[export, refine] Instance boolean_ops_terms : BooleanOps := {|
  Boolean_constant := Constant;
  Boolean_and := boolean_and;
  Boolean_or := boolean_or;
|}.
Proof.
  - intros σ [|]; apply bit_denotes; unfold bool_sum, eval; cbn; [|ring]. unfold one. rewrite assign_one. ring.
  - intros σ [[x v]|[x v]|[|]] c; unfold eval; cbn; ring.
  - by intros [[x v]|[x v]|[|]] c y.
  - intros σ a b v w Ha Hb. apply (proj1 (bit_denotes _ _ _)) in Ha, Hb. unfold boolean_and.
    eapply gadget_bind; [apply gadget_alloc|]. intros c _.
    eapply gadget_bind; [apply gadget_enforce|]. intros [] E. apply gadget_ret. apply bit_denotes.
    unfold eval in E, Ha, Hb. rewrite !lc_from_variable_eval, Ha, Hb in E. rewrite bool_sum_slot, <-E.
    destruct v, w; simpl; ring.
  - intros σ a b v w Ha Hb. apply (proj1 (bit_denotes _ _ _)) in Ha, Hb. unfold boolean_or.
    eapply gadget_bind; [apply gadget_alloc|]. intros c _.
    eapply gadget_bind; [apply gadget_enforce|]. intros [] E. apply gadget_ret. apply bit_denotes.
    autorewrite with evals in E. rewrite Ha, Hb in E. unfold eval in E. rewrite lc_from_variable_eval in E. rewrite bool_sum_slot.
    destruct v, w; simpl in *; by_rule E.
Defined.

(** Negation changes no slot; (a + a) · b = a + b − c; a − b = 0. *)
Definition boolean_not (b : Bool) : Bool :=
  match b with Is b => Not b | Not b => Is b | Constant v => Constant (negb v) end.
Definition boolean_xor (a b : Bool) : Synth Bool :=
  let v := x ← bool_value a; y ← bool_value b; Some (xorb x y) in
  c ← alloc "xor result" (ok_or AssignmentMissing (of_bool <$> v));
  enforce "xor constraint" (lc_add (bool_sum a) (bool_sum a)) (bool_sum b)
    (lc_sub (lc_add (bool_sum a) (bool_sum b)) (lc_from_variable c)) ;;
  mret (Is (c, v)).
Definition boolean_enforce_equal (a b : Bool) : Synth unit :=
  enforce "enforce equal" (lc_sub (lc_add lc_zero (bool_sum a)) (bool_sum b)) (lc_add_var lc_zero one) lc_zero.

#[export, refine] Instance boolean_logic_terms : BooleanLogic := {|
  Boolean_not := boolean_not;
  Boolean_xor := boolean_xor;
  Boolean_enforce_equal := boolean_enforce_equal;
|}.
Proof.
  - intros σ b v Hb. apply (proj1 (bit_denotes _ _ _)) in Hb. apply bit_denotes. pose proof (assign_one σ) as E1.
    unfold bool_sum, eval in *. destruct b as [[x w]|[x w]|[|]]; cbn in *; unfold one in *; rewrite ?E1 in *;
      destruct v; simpl in *; first [ring | by_rule Hb | exfalso; apply one_nonzero; by symmetry].
  - intros σ a b v w Ha Hb. apply (proj1 (bit_denotes _ _ _)) in Ha, Hb. unfold boolean_xor.
    eapply gadget_bind; [apply gadget_alloc|]. intros c _.
    eapply gadget_bind; [apply gadget_enforce|]. intros [] E. apply gadget_ret. apply bit_denotes.
    autorewrite with evals in E. rewrite Ha, Hb in E. unfold eval in E. rewrite lc_from_variable_eval in E. rewrite bool_sum_slot.
    destruct v, w; simpl in *; by_rule E.
  - intros σ a b v w Ha Hb. apply (proj1 (bit_denotes _ _ _)) in Ha, Hb. unfold boolean_enforce_equal.
    eapply gadget_mono; [apply gadget_enforce|]. intros [] E. autorewrite with evals in E. rewrite Ha, Hb in E.
    apply of_bool_inj. by_rule E.
Defined.

#[export, refine] Instance uint32_constants_terms : Uint32Constants := {|
  UInt32_constant v := Constant <$> int_bits 32 v;
|}.
Proof.
  intros σ v _. apply Forall2_fmap_l, Forall_Forall2_diag, Forall_true. intros b.
  apply (Boolean_constant_denotes (BooleanOps := boolean_ops_terms)).
Defined.

(** A new public value, and the rule that it is the number. *)
Definition slot_inputize (a : Var * option Scalar) : Synth unit :=
  x ← alloc_input "input variable" (ok_or AssignmentMissing a.2);
  enforce "enforce input is correct" (lc_from_variable x) (lc_from_variable one) (lc_from_variable a.1).

#[export, refine] Instance public_nums_terms : PublicNums := {| AllocatedNum_inputize := slot_inputize |}.
Proof.
  - intros σ a na ni Q HQ. cbn. intros E. apply HQ. unfold eval, lc_eval_terms in E. cbn in E.
    unfold one in E. rewrite assign_one in E. change (nval σ a) with (σ a.1). by_rule E.
  - intros [a va] x st Ho [Ev El] Hb. cbn in Ev, El. subst va. unfold slot_inputize. rewrite run_bind. cbn.
    unfold cs_alloc_input. rewrite Hb. cbn.
    unfold cs_enforce. cbn. unfold has_one in Ho. cbn in Ho.
    rewrite (list_lookup_middle (cs_inputs st) [] x _ eq_refl), (lookup_app_l_Some _ [x] _ _ Ho). cbn.
    assert (∀ b, cs_lookup {| cs_aux := cs_aux st; cs_inputs := cs_inputs st ++ [x]; cs_path := cs_path st; cs_broken := b |} a
      = Some x) as -> by (intros b; destruct a; [by apply lookup_app_l_Some|done]).
    cbn. rewrite bool_decide_eq_true_2 by ring. unfold cs_push_input. by rewrite Hb.
Defined.

(** Constants denote their values. *)
Lemma constant_bits (σ : Assignment) bs : bits_are (denotes σ) (Constant <$> bs : list Boolean) bs.
Proof.
  apply Forall2_fmap_l, Forall_Forall2_diag, Forall_true. intros b.
  apply (Boolean_constant_denotes (BooleanOps := boolean_ops_terms)).
Qed.
End Products.

(** Decimal texts as the integers that they write, and an exact logarithm. *)
#[export, refine] Instance non_native_terms : NonNative (H := zp_field) := {|
  from_decimal n := if (n <? 0)%Z then None else Some (of_int n);
  ceil_log2_f64 := Z.log2_up;
  debug _ := "";
|}.
Proof.
  - done.
  - intros m _. lia.
Defined.

(** The base field as integers, with the parameters of P-256. *)
Definition generator_x : Z := 0x6b17d1f2e12c4247f8bce6e563a440f277037d812deb33a0f4a13945d898c296.
Definition generator_y : Z := 0x4fe342e2fe1a7f9b8ee7eb4a7c0f9e162bce33576b315ececbb6406837bf51f5.

Lemma le_bits_int n : (0 ≤ n < 2 ^ 256)%Z → bits_int (reverse (reverse (int_bits 256 n))) = n.
Proof. intros Hn. rewrite reverse_involutive, bits_int_int_bits. by apply Z.mod_small. Qed.

Definition base_le_bits (n : Z) : list bool := reverse (int_bits 256 n).
#[export, refine] Instance p256_integers : P256Group (H := zp_field) := {|
  Base := Z;
  to_le_bits := base_le_bits;
  group_params := ((p - 3)%Z, b256, be_int ORDER, p);
  generator := (generator_x, generator_y);
|}.
Proof.
  - apply le_bits_int. by vm_compute.
  - apply le_bits_int. by vm_compute.
  - done.
  - unfold base_le_bits. cbn [fst snd]. rewrite !le_bits_int by by vm_compute.
    unfold on_curve. apply to_repr_inj. by vm_compute.
Defined.
