(* ===== verification/CircuitWitnesses.v ===== *)
(** Concrete inputs for the properties of the circuits: the generator of the
    curve as key and constants, the integers modulo the order of the group, and
    a presentation with its public values. *)
From Stdlib Require Import ZArith Lia Zmod Strings.String Strings.Byte.
From stdpp Require Import base list numbers option strings.
From S2P Require Import Prelude Bytes Field Primes FieldInstance ConstraintSystem Shape CheckSystem Bellpepper BellpepperInstance Lc Values Bits Select Sha256 Table Window Curve P256 Request Calendar Presentation Witnesses.

(** * The order's field *)
Local Open Scope Z_scope.
Definition order : Z := be_int ORDER.
Definition zn_to_repr (x : Zmod order) : list byte := le_bytes 32 (Zmod.unsigned x).
Definition zn_from_repr (bs : list byte) : option (Zmod order) :=
  if le_int bs <? order then Some (Zmod.of_Z order (le_int bs)) else None.
Definition zn_invert (x : Zmod order) : option (Zmod order) :=
  if Zmod.eqb x Zmod.zero then None else Some (Zmod.inv x).

Lemma order_value : order = 115792089210356248762697446949407573529996955224135760342422259061068512044369.
Proof. vm_compute. reflexivity. Qed.

Lemma zn_range (x : Zmod order) : 0 ≤ Zmod.unsigned x < order.
Proof. apply Zmod.unsigned_pos_bound. rewrite order_value. lia. Qed.

Lemma zn_repr (x : Zmod order) : le_int (zn_to_repr x) = Zmod.unsigned x.
Proof.
  unfold zn_to_repr, le_int, le_bytes. rewrite reverse_involutive, be_int_be_bytes.
  apply Z.mod_small. pose proof (zn_range x) as [? Hl]. rewrite order_value in Hl. lia.
Qed.

#[export, refine] Instance zn_field : OrderField := {|
  Fq := Zmod order;
  fq_zero := Zmod.zero;
  fq_from_repr := zn_from_repr;
  fq_to_repr := zn_to_repr;
  fq_invert := zn_invert;
|}.
Proof.
  - vm_compute. reflexivity.
  - intros x. unfold zn_to_repr, le_bytes. by rewrite length_reverse, length_be_bytes.
  - intros x. rewrite zn_repr. apply zn_range.
  - intros bs Hl. unfold zn_from_repr. fold order. destruct (Z.ltb_spec (le_int bs) order); [|done].
    split; [|done]. unfold zn_to_repr. rewrite Zmod.unsigned_of_Z.
    pose proof (be_int_range (reverse bs)). rewrite Z.mod_small by (unfold le_int in *; lia).
    unfold le_bytes. rewrite <-(reverse_involutive bs) at 2. f_equal.
    apply be_int_inj; [by rewrite length_be_bytes, length_reverse|].
    rewrite be_int_be_bytes. unfold le_int. apply Z.mod_small. by rewrite length_reverse, Hl in *.
  - intros x. unfold zn_invert. destruct (Zmod.eqb x Zmod.zero) eqn:E; [by apply Zmod.eqb_eq in E|].
    rewrite !zn_repr. rewrite <-Zmod.unsigned_mul.
    rewrite Zmod.mul_inv_same_l_prime; [|rewrite order_value; apply prime_order|].
    + rewrite Zmod.unsigned_1, order_value. done.
    + intros ->. by rewrite Zmod.eqb_refl in E.
Defined.
Local Close Scope Z_scope.

Lemma from_rs_inverse_witness :
  let s := replicate 31 x00 ++ [x02] in
  let sig := from_rs (replicate 32 x01) s in
  sig_r sig = replicate 32 x01 ∧ length (s_inv sig) = 32 ∧
  if decide (0 < be_int s < be_int ORDER)%Z
  then ((be_int (s_inv sig) * be_int s) mod be_int ORDER = 1 ∧ 0 < be_int (s_inv sig) < be_int ORDER)%Z
  else s_inv sig = replicate 32 x00.
Proof. exact (from_rs_inverse (replicate 32 x01) (replicate 31 x00 ++ [x02]) eq_refl). Defined.

(** * Points *)
Definition generator : Affine := {|
  ax := of_int 0x6b17d1f2e12c4247f8bce6e563a440f277037d812deb33a0f4a13945d898c296;
  ay := of_int 0x4fe342e2fe1a7f9b8ee7eb4a7c0f9e162bce33576b315ececbb6406837bf51f5;
|}.

Lemma base_point_on_curve : on_curve (of_int b256) generator.
Proof. unfold on_curve. scalar_compute. Qed.

Definition generators : Constants := {|
  c_start := generator;
  c_start_removed := generator;
  c_windows := [(generator, generator, generator, generator)];
  c_offsets_removed := generator;
|}.

Lemma generators_on_curve : constants_on_curve generators.
Proof.
  split; try apply base_point_on_curve. apply Forall_cons_2; [|apply Forall_nil_2].
  split_and!; apply base_point_on_curve.
Qed.

(** A digest of zeros, in one slot. *)
Definition zero_bit : Boolean := Is (Aux 0, Some false).
Definition zero_digest : list Boolean := replicate 256 zero_bit.
Definition zero_bits : list bool := replicate 256 false.
Definition one_aux_state : CheckState :=
  {| cs_aux := [ZERO]; cs_inputs := [ONE]; cs_path := []; cs_broken := None |}.
Definition ones_signature : Signature := {| sig_r := replicate 32 x01; s_inv := replicate 32 x01 |}.

Lemma zero_digest_bits (R : Lc → Scalar → Prop) :
  R (bit zero_bit) ZERO → bits_are R zero_digest zero_bits.
Proof. intros HR. by apply Forall2_replicate. Qed.

Lemma verify_sound_witness :
  gadget (assignment [0]%Z) (verify generators zero_digest (point_constant generator) (Some ones_signature))
    (λ _, ∃ r s, accepts generators zero_bits r s generator).
Proof.
  apply verify_sound;
    [apply generators_on_curve|cbn; lia| |by vm_compute|apply (pt_constant _)|apply base_point_on_curve|].
  - apply zero_digest_bits. unfold denotes, lval. scalar_compute.
  - intros s [= <-]. done.
Defined.

Lemma verify_exact_witness :
  ((∃ st', run (verify generators zero_digest (point_constant generator) (Some ones_signature)) one_aux_state
       = (Ok tt, st') ∧ cs_broken st' = None)
   ↔ accepts generators zero_bits (be_bits (replicate 32 x01)) (be_bits (replicate 32 x01)) generator) ∧
  (∀ st', run (verify generators zero_digest (point_constant generator) (Some ones_signature)) one_aux_state
       = (Ok tt, st') → cs_broken st' = None →
   ∃ values, verify_values generators zero_digest (point_constant generator) (Some ones_signature) = Ok values ∧
     st' = cs_push one_aux_state values).
Proof.
  apply (verify_exact one_aux_state generators zero_digest zero_bits (point_constant generator) generator
    ones_signature); [reflexivity|reflexivity|apply generators_on_curve|cbn; lia| | |
    |apply base_point_on_curve|reflexivity..].
  - apply zero_digest_bits. split; [done|]. split; [|scalar_compute].
    apply Forall_cons_2; [eexists; reflexivity|apply Forall_nil_2].
  - by vm_compute.
  - split; by apply knows_constant.
Defined.

(** * A presentation *)
Definition shown_request : Request := {|
  credential_type := {| p_window := DOC_TYPE_WINDOW; p_bytes := DOC_TYPE_KEY ++ [x61; "a"%byte] |};
  request_attribute := {| p_window := IDENTIFIER_WINDOW; p_bytes := IDENTIFIER_KEY ++ [x61; "b"%byte] |};
|}.
Definition shown : Public := {|
  issuer_key := {| key_x := replicate 32 x01; key_y := replicate 32 x02 |};
  born_from := None;
  born_by := {| year := 2008; month := 2; day := 29 |};
  now := {| time_date := {| year := 2026; month := 1; day := 1 |}; hour := 12; minute := 0; second := 0 |};
  challenge := replicate 32 x03;
  request := shown_request;
|}.
Definition shown_values : list Scalar := public_values Digits shown.
Definition shown_facts : list Scalar :=
  [from_be (replicate 32 x01); from_be (replicate 32 x02); of_int 20000101; of_int 20200101000000;
   of_int 20300101000000; ax generator; ay generator].
Definition shown_assignment : Assignment := {|
  assign v := match v with
              | Input 0 => ONE
              | Input (S i) => default ZERO (shown_values !! i)
              | Aux i => default ZERO (shown_facts !! i)
              end;
  assign_one := eq_refl;
|}.
Definition shown_credential : credential := {|
  cr_issuer := {| ax := from_be (replicate 32 x01); ay := from_be (replicate 32 x02) |};
  cr_birth := 20000101;
  cr_from := 20200101000000;
  cr_until := 20300101000000;
  cr_device := generator;
  cr_type := replicate 48 x00;
  cr_attribute := replicate 40 x00;
|}.
Definition slot (i : nat) : AllocatedNum := (Aux i, None).
Definition shown_slots : list AllocatedNum :=
  [slot 0; slot 1; slot 2; slot 3; slot 4; slot 5; slot 6] ++ replicate 48 (slot 7) ++ replicate 40 (slot 7).

Lemma shown_request_ok : request_ok shown_request.
Proof.
  intros q [->| ->]; (split; [split; [|split]; vm_compute; repeat constructor|split; [vm_compute; repeat constructor|done]]).
Qed.

Lemma denotes_num (σ : Assignment) i (v : Scalar) : σ (Aux i) = v → denotes σ (num (slot i)) v.
Proof. intros E. unfold denotes. rewrite lval_num. exact E. Qed.

Lemma presentation_sound_witness :
  wp shown_assignment (Presentation.check generators shown_slots None Digits (DOC_TYPE_WINDOW, IDENTIFIER_WINDOW))
    0 1 (λ _ _ _, accepted generators shown shown_credential).
Proof.
  apply (Presentation.presentation_sound shown_assignment generators shown_slots None shown shown_credential).
  - apply generators_on_curve.
  - cbn; lia.
  - split_and!; [apply shown_request_ok|done| | |done]; repeat split; by vm_compute.
  - do 3 (split; [by vm_compute|]). done.
  - exists (slot 0), (slot 1), (slot 2), (slot 3), (slot 4), (slot 5), (slot 6),
      (replicate 48 (slot 7)), (replicate 40 (slot 7)).
    split; [done|]. unfold pt. cbn [px py]. split_and!; try (by apply denotes_num).
    all: apply Forall2_replicate; change (ZERO = of_int 0); by rewrite of_int_0.
  - done.
  - intros j v E. change (default ZERO (shown_values !! j) = v). unfold shown_values. by rewrite E.
Defined.
