(* ===== verification/GadgetWitnesses.v ===== *)
(** Concrete inputs for the properties of the gadgets over numbers and of the
    points over them: small sets of values, small numbers in limbs, the
    generator of the curve. *)
From Stdlib Require Import ZArith Lia Strings.String Strings.Byte.
From stdpp Require Import base list numbers option strings.
From S2P Require Import Prelude Bytes Field FieldInstance ConstraintSystem Shape CheckSystem Bellpepper BellpepperInstance Lc Bits Select CborUint OneHotCursor DigestId Sha256 Table Step Sha256Var StepInstance Gadgets Limbs BigNat BigNatRules Curve P256 Ecc Ecdsa GadgetInstance Witnesses CircuitWitnesses.

Lemma convolve_sum_selects_witness :
  gadget (assignment [1; 0; 1]%Z)
    (a ← ns "a" (alloc_one_hot [1; 2; 3; 5] 3);
     b ← ns "b" (alloc_one_hot [1; 2; 3; 5] 5);
     '(s, vals) ← ns "sum" (convolve_sum a [1; 2; 3; 5] b [1; 2; 3; 5]);
     mret (a, b, s, vals)) (λ '(a, b, s, vals),
    ∃ i j k x y, [1; 2; 3; 5] !! i = Some x ∧ [1; 2; 3; 5] !! j = Some y ∧ vals !! k = Some (x + y)%nat ∧
      bits_are (denotes (assignment [1; 0; 1]%Z)) a (one_hot 4 i) ∧
      bits_are (denotes (assignment [1; 0; 1]%Z)) b (one_hot 4 j) ∧
      bits_are (denotes (assignment [1; 0; 1]%Z)) s (one_hot (length vals) k) ∧ NoDup vals).
Proof.
  exact (convolve_sum_selects (assignment [1; 0; 1]%Z) [1; 2; 3; 5] 3 [1; 2; 3; 5] 5
    (list_elem_of_lookup_2 [1; 2; 3; 5] 2 3 eq_refl)
    (list_elem_of_lookup_2 [1; 2; 3; 5] 3 5 eq_refl) eq_refl eq_refl).
Defined.

(** The sums of two widths of a [digestID] are eight values. *)
Example width_sums : sums [1; 2; 3; 5] [1; 2; 3; 5] = [2; 3; 4; 5; 6; 7; 8; 10].
Proof. by vm_compute. Qed.

(** * Digest identifiers *)
(** Five in the form of one byte. *)
Definition five : list byte := [x05; x00; x00; x00; x00].
Definition byte_constants (l : list byte) : list Boolean := Constant <$> (l ≫= byte_bits).

Lemma extract_sound_witness :
  let σ := assignment [] in
  gadget σ (extract_digest_id (byte_constants five) 0 5) (λ r, ∃ v n,
    decode_cbor_uint five = Some (v, n) ∧ (0 ≤ v < 2 ^ 31)%Z ∧
    bits_are (denotes σ) (value_bits r) (int_bits 32 v) ∧
    bits_are (denotes σ) (encoded_bits r) ((take n five ++ replicate (MAX_CBOR_UINT_BYTES - n) x00) ≫= byte_bits)).
Proof.
  apply (extract_sound (assignment []) (byte_constants five) five 0 5);
    [apply constant_bits|apply Nat.leb_le; reflexivity|vm_compute; discriminate].
Defined.

(** The slots of an extraction whose prover chose the class [k] and the value
    [vs]: the classes, the places of the encoding, the value, then the
    operations on bits in the order of the rules. *)
Definition expected_slots (k : nat) (vs : list bool) (i j : nat) : option bool * list bool :=
  foldl (λ '(acc, slots) '(c, marker),
    if negb (byte_active_in_class i c) then (acc, slots) else
    let '(term, slots) :=
      if (i =? 0)%nat && negb (c =? 0)%nat then (Z.testbit marker (Z.of_nat (7 - j)) && (c =? k)%nat, slots)
      else let t := (c =? k)%nat && default false (value_byte_out_pos c i ≫= λ o, vs !! (o * 8 + j)%nat) in
        (t, slots ++ [t]) in
    match acc with
    | None => (Some term, slots)
    | Some prev => (Some (prev || term), slots ++ [prev || term])
    end) (None, []) (imap (λ c marker, (c, marker)) CLASS_MARKERS).

Definition extract_slots (item : list byte) (k : nat) (vs : list bool) : list bool :=
  let window := take 5 item ≫= byte_bits in
  let win i j := default false (window !! (i * 8 + j)%nat) in
  one_hot 4 k ++ ((λ i, byte_active_in_class i k) <$> range 5) ++ vs ++
  (range 5 ≫= λ i, range 8 ≫= λ j,
    (expected_slots k vs i j).2 ++ [win i j && byte_active_in_class i k]) ++
  let a := win 0%nat 0%nat || win 0%nat 1%nat in
  let b := a || win 0%nat 2%nat in
  let c := win 0%nat 3%nat && win 0%nat 4%nat in
  [a; b; c; b || c].

Definition long_five : list byte := [x18; x05; x00; x00; x00].
Definition long_slots : Assignment := assignment (Z.b2z <$> extract_slots long_five 1 (int_bits 32 5)).
Lemma long_rules : rules_checked long_slots (extract_digest_id (byte_constants long_five) 0 5) = true.
Proof. vm_compute. reflexivity. Qed.

(** The rules of an extraction accept a form longer than the canonical one. *)
Theorem extract_not_canonical :
  ∃ σ : Assignment, satisfies σ (extract_digest_id (byte_constants long_five) 0 5) 0 1 ∧
    decode_cbor_uint long_five = Some (5%Z, 2%nat) ∧ encode_cbor_uint 5 = Ok [x05] ∧
    ∃ r, (shape (extract_digest_id (byte_constants long_five) 0 5) 0 1).1.2 = Ok r ∧
      bits_are (denotes σ) (encoded_bits r) (long_five ≫= byte_bits).
Proof.
  exists long_slots. pose proof (rules_checked_satisfies _ _ long_rules) as Hs.
  split; [exact Hs|]. split; [done|]. split; [done|].
  destruct (gadget_satisfies _ _ _ _ _ (gadget_extract_digest_id long_slots (byte_constants long_five) long_five 0 5
    (constant_bits _ _) ltac:(apply Nat.leb_le; reflexivity) ltac:(vm_compute; discriminate)) Hs)
    as (r & Er & v & n & Ed & _ & _ & HE).
  exists r. split; [exact Er|]. assert (n = 2%nat) as -> by (vm_compute in Ed; by injection Ed). exact HE.
Qed.

(** The generator added to itself. *)
Lemma add_group_law_witness :
  let o := Some CircuitWitnesses.generator in
  pon (padd o o) ∧
  (∀ (σ : Assignment) self other, point_is σ self o → point_is σ other o →
    gadget σ (Ecc.add self other) (λ r, point_is σ r (padd o o))) ∧
  (∀ st self other, has_one (store st) → cs_broken st = None →
    point_knows (store st) self o → point_knows (store st) other o →
    ∃ r vs, run (Ecc.add self other) st = (Ok r, cs_push st vs) ∧
      point_knows (store (cs_push st vs)) r (padd o o)).
Proof. exact (add_group_law (Some generator) (Some generator) base_point_on_curve base_point_on_curve). Defined.

(** One bit, which is set: the point itself. *)
Lemma one_bit_ref : scalar_mul_ref [true] CircuitWitnesses.generator = Ok (Some CircuitWitnesses.generator).
Proof.
  unfold scalar_mul_ref, incomplete_ref, tangent. rewrite decide_False; [done|].
  apply on_curve_nonzero, base_point_on_curve.
Qed.

Lemma scalar_mul_exact_witness :
  (∀ (σ : Assignment) self bits,
    point_is σ self (Some CircuitWitnesses.generator) → Forall2 (bbit σ) bits [true] →
    gadget σ (scalar_mul self bits)
      (λ r, point_is σ r (Some CircuitWitnesses.generator) ∧ pon (Some CircuitWitnesses.generator))) ∧
  (∀ st self bits, has_one (store st) → cs_broken st = None →
    point_knows (store st) self (Some CircuitWitnesses.generator) → Forall2 (bit_knows (store st)) bits [true] →
    ∃ r ws, run (scalar_mul self bits) st = (Ok r, cs_push st ws) ∧
      point_knows (store (cs_push st ws)) r (Some CircuitWitnesses.generator)).
Proof.
  exact (scalar_mul_exact [true] CircuitWitnesses.generator (Some CircuitWitnesses.generator)
    (Nat.lt_0_succ 0) base_point_on_curve one_bit_ref).
Defined.

(** * Numbers in limbs *)
(** One limb of eight bits, as a constant. *)
Definition small_nat (v : Z) : BigNat := {|
  limbs := [lc_add_term lc_zero (of_int v, one)];
  limb_values := Some [of_int v];
  nat_value := Some v;
  params := params_new 8 1;
|}.

Lemma small_number (σ : Assignment) v : (0 ≤ v ≤ 255)%Z → in_limbs σ 8 (small_nat v) [v].
Proof.
  intros Hv. split; [|by split]. split; [split; [done|by intros vs [= <-]]|]. split.
  - apply Forall2_cons_2; [|apply Forall2_nil_2]. autorewrite with evals. rewrite <-of_int_1, <-of_int_0.
    rewrite <-of_int_mul, <-of_int_add. f_equal. lia.
  - apply Forall_cons_2; [|apply Forall_nil_2]. exact Hv.
Qed.

(** Seven times nine modulo ten. *)
Lemma mult_mod_sound_witness :
  let σ := assignment [] in
  gadget σ (mult_mod (small_nat 7) (small_nat 9) (small_nat 10)) (λ '(q, r), ∃ qs rs,
    in_limbs σ 8 q qs ∧ params q = params_new 8 2 ∧
    in_limbs σ 8 r rs ∧ params r = params_new 8 1 ∧ (length rs = 1)%nat ∧
    limbs_int 8 [7] * limbs_int 8 [9] = limbs_int 8 qs * limbs_int 8 [10] + limbs_int 8 rs)%Z.
Proof.
  apply (mult_mod_sound (assignment []) 8 (small_nat 7) (small_nat 9) (small_nat 10) [7%Z] [9%Z] [10%Z] 2).
  - lia.
  - apply small_number. lia.
  - apply small_number. lia.
  - apply small_number. lia.
  - discriminate.
  - vm_compute. reflexivity.
  - vm_compute. discriminate.
  - vm_compute. discriminate.
  - apply regroup_fits_decided. vm_compute. reflexivity.
Defined.

(** (1 + 2 X) (3 + 4 X). *)
Definition line (a b : Z) : Polynomial := {|
  coefficients := [lc_add_term lc_zero (of_int a, one); lc_add_term lc_zero (of_int b, one)];
  poly_values := Some [of_int a; of_int b];
|}.

Lemma line_is (σ : Assignment) a b : poly_is σ (line a b) [a; b].
Proof.
  split; [|by intros vs [= <-]].
  repeat apply Forall2_cons_2; [..|apply Forall2_nil_2]; autorewrite with evals; rewrite <-of_int_1, <-of_int_0;
    rewrite <-of_int_mul, <-of_int_add; f_equal; lia.
Qed.

Lemma alloc_product_exact_witness :
  let σ := assignment [] in
  gadget σ (alloc_product (line 1 2) (line 3 4)) (λ s, poly_is σ s [3; 10; 8]%Z ∧
    ∀ x, zeval x [3; 10; 8] = zeval x [1; 2] * zeval x [3; 4])%Z.
Proof.
  apply (alloc_product_exact (assignment []) (line 1 2) (line 3 4) [1; 2]%Z [3; 4]%Z);
    [apply line_is|apply line_is|discriminate|discriminate|vm_compute; discriminate].
Defined.

(** The digest zero. *)
Definition zero_digest : BigNat := {|
  limbs := replicate 4 lc_zero;
  limb_values := Some (replicate 4 ZERO);
  nat_value := Some 0%Z;
  params := params_new 64 4;
|}.

Lemma zero_digest_holds (σ : Assignment) : holds_int σ zero_digest 0.
Proof.
  split; [done|]. exists (replicate 4 0%Z). split; [|by split]. split; [|by split].
  split; [split; [done|by intros vs [= <-]]|]. split.
  - repeat apply Forall2_cons_2; [..|apply Forall2_nil_2]; by rewrite eval_zero, of_int_0.
  - repeat apply Forall_cons_2; [..|apply Forall_nil_2]; split; done.
Qed.

Lemma ecdsa_sound_witness :
  let σ := assignment [0; 1]%Z in
  gadget σ (verify_ecdsa_p256_with_digest (Aux 0, None) (Aux 1, None) 1 1 1 zero_digest) (λ _,
    let q := {| ax := of_int 0; ay := of_int 1 |} in
    on_curve (of_int b256) q ∧ ∃ r, scalar_range r ∧ ecdsa_equation p256_order 0 r base_point q).
Proof.
  exact (ecdsa_sound (assignment [0; 1]%Z) (Aux 0, None) (Aux 1, None) 1 1 1 zero_digest 0 (zero_digest_holds _)).
Defined.

(** * Numbers that are not the smallest *)
(** The slots of a number in range: the limb, and its bits but the first. *)
Definition ranged (w : nat) (v : Z) : list Z := v :: ((λ i, Z.b2z (Z.testbit v (Z.of_nat i))) <$> seq 1 (w - 1)).

#[local] Instance params_eq_dec : EqDecision BigNatParams.
Proof. solve_decision. Defined.

(** Whether a circuit returned a number with these limbs, by their integers. *)
Definition returned (σ : Assignment) (r : outcome SynthesisError BigNat) (w : nat) (zs : list Z) : bool :=
  match r with
  | Ok b =>
      (length (limbs b) =? length zs)%nat &&
      match limb_values b with Some vs => (length vs =? length zs)%nat | None => true end &&
      forallb (λ '(l, z), repr (eval σ l) =? z mod p)%Z (zip (limbs b) zs) &&
      bool_decide (params b = params_new w (length zs))
  | _ => false
  end.

Lemma returned_is (σ : Assignment) r w zs :
  returned σ r w zs = true → zs ≠ [] → Forall (between (max_word (params_new w (length zs)))) zs →
  ∃ b, r = Ok b ∧ in_limbs σ w b zs ∧ params b = params_new w (length zs).
Proof.
  destruct r as [b| |]; [|done..]. unfold returned. rewrite !andb_true_iff, Nat.eqb_eq, bool_decide_eq_true.
  intros [[[Hl Hv] Hz] Hp] Hne Hm. exists b. split; [done|]. split; [|done].
  split; [|split; [by rewrite Hp|done]]. split; [|split; [|by rewrite Hp]].
  - split; [by rewrite Hp|]. intros vs Evs. rewrite Evs in Hv. apply Nat.eqb_eq in Hv. congruence.
  - apply Forall2_same_length_lookup_2; [done|]. intros i l z El Ez.
    assert (zip (limbs b) zs !! i = Some (l, z)) as Ei by (apply lookup_zip_with_Some; eauto).
    apply Is_true_eq_left, forallb_True in Hz. pose proof (proj1 (list.Forall_lookup _ _) Hz _ _ Ei) as Hi.
    apply Is_true_eq_true, Z.eqb_eq in Hi. apply repr_inj. by rewrite Hi, repr_of_int.
Qed.

(** Whoever chooses the slots of a reduction chooses the quotient. *)
Definition unreduced : Assignment :=
  assignment (ranged 8 0 ++ ranged 8 5 ++ [0; (Limbs.ones 8 30 * 65280) / 2 ^ 240])%Z.
Lemma unreduced_rules : rules_checked unreduced (red_mod (small_nat 5) (small_nat 3)) = true.
Proof. vm_compute. reflexivity. Qed.
Lemma unreduced_result :
  returned unreduced (shape (red_mod (small_nat 5) (small_nat 3)) 0 1).1.2 8 [5%Z] = true.
Proof. vm_compute. reflexivity. Qed.

(** The four limbs of the prime, and then their bits. *)
Definition zero_num : Num := {| n_num := lc_zero; n_value := Some ZERO |}.
Definition second_integer : Assignment :=
  assignment (zdigits 64 4 p ++ (zdigits 64 4 p ≫= λ d, reverse (Z.b2z <$> int_bits 64 d))).
Lemma second_rules : rules_checked second_integer (from_num zero_num LIMB_WIDTH N_LIMBS) = true.
Proof. vm_compute. reflexivity. Qed.
Lemma second_result :
  returned second_integer (shape (from_num zero_num LIMB_WIDTH N_LIMBS) 0 1).1.2 64 (zdigits 64 4 p) = true.
Proof. vm_compute. reflexivity. Qed.

Lemma five_in_range : Forall (between (max_word (params_new 8 (length [5%Z])))) [5%Z].
Proof. apply Forall_cons_2; [|apply Forall_nil_2]. by split. Qed.
Lemma prime_in_range : Forall (between (max_word (params_new 64 (length (zdigits 64 4 p))))) (zdigits 64 4 p).
Proof. rewrite length_zdigits, new_word. apply (zdigits_between 64). Qed.

(** Reductions are congruences and no more, at two inputs: the rules of
    [red_mod] hold of the remainder five of five modulo three, and those of
    [from_num] of the field's prime as the integer of zero. *)
Theorem reductions_not_unique :
  (∃ σ : Assignment, satisfies σ (red_mod (small_nat 5) (small_nat 3)) 0 1 ∧
    ∃ r, (shape (red_mod (small_nat 5) (small_nat 3)) 0 1).1.2 = Ok r ∧ in_limbs σ 8 r [5%Z]) ∧
  (∃ σ : Assignment, satisfies σ (from_num zero_num LIMB_WIDTH N_LIMBS) 0 1 ∧
    ∃ b, (shape (from_num zero_num LIMB_WIDTH N_LIMBS) 0 1).1.2 = Ok b ∧ holds_int σ b p).
Proof.
  split.
  - exists unreduced. split; [apply rules_checked_satisfies, unreduced_rules|].
    destruct (returned_is _ _ _ _ unreduced_result) as (r & Er & Hr & _); [discriminate|exact five_in_range|].
    exists r. split; [exact Er|exact Hr].
  - exists second_integer. split; [apply rules_checked_satisfies, second_rules|].
    destruct (returned_is _ _ _ _ second_result) as (b & Eb & Hb & Pb); [discriminate|exact prime_in_range|].
    exists b. split; [exact Eb|]. split; [exact Pb|]. exists (zdigits 64 4 p).
    split; [exact Hb|]. split; [apply length_zdigits|]. rewrite zdigits_int. by vm_compute.
Qed.
