(* ===== verification/FoldedWitnesses.v ===== *)
(** Concrete inputs for the properties of the folded hash and of the verifier
    of the first engine: a message of one block, whose step the honest prover
    folds; the public values of a small credential. *)
From Stdlib Require Import ZArith Lia Strings.String Strings.Byte.
From stdpp Require Import base list numbers option strings.
From S2P Require Import Prelude Bytes Field FieldInstance ConstraintSystem Shape CheckSystem Bellpepper BellpepperInstance Lc Bits Select CborUint OneHotCursor DigestId Sha256 Table Circuit Step Sha256Var Packing Sha256Mc Hasher HonestSteps StepValues AgeFolded StepInstance Gadgets BigNat Ecdsa Cbor GadgetInstance GadgetWitnesses OffsetBind AgeAcceptance.

Definition one_block : HashLayout := {| message_blocks := [1] |}.
Definition one_message : list (list byte) := [buffer [x61; x62] 2 64].
Definition one_vector : list Scalar :=
  let chains := concat (chain_message <$> one_message) in vector chains.*1 chains.*2.
Definition one_shared : list AllocatedNum := imap (λ i x, (Aux i, Some x)) one_vector.
Definition one_state : CheckState := {| cs_aux := one_vector; cs_inputs := [ONE]; cs_path := []; cs_broken := None |}.

Lemma one_layout : Forall2 (λ msg n, length msg = 64 * n) one_message (message_blocks one_block).
Proof. repeat constructor. Qed.

Lemma shared_known v : Forall2 (num_knows {| s_aux := v; s_inputs := [ONE] |}) (imap (λ i x, (Aux i, Some x)) v) v.
Proof.
  apply Forall2_same_length_lookup_2; [by rewrite length_imap|]. intros i a x Ha Hx.
  rewrite list_lookup_imap, Hx in Ha. injection Ha as <-. by split.
Qed.

Lemma one_block_done : compressions_done (stored (store one_state)) (Folded one_shared one_block 0) 1.
Proof.
  assert (length one_vector = 6 * total_blocks one_block) as Hl.
  { apply length_vector; by rewrite length_fmap, (length_chains _ _ one_layout). }
  split; [done|]. split; [done|]. exists one_vector, [StepCircuit_public_values 0]. split_and!; [|exact Hl| |].
  - eapply Forall2_impl; [apply shared_known|]. intros a x [_ Hx]. by apply (stored_lookup (store one_state)).
  - constructor; [|constructor]. apply (honest_instance _ _ one_state one_shared); [exact Hl|done|apply Nat.ltb_lt; reflexivity| |done|done|apply shared_known].
    intros i. apply chains_hold, one_layout.
  - unfold check_step_values. change [StepCircuit_public_values 0] with (StepCircuit_public_values <$> seq 0 1).
    by rewrite in_order_honest.
Qed.

Lemma hash_sound_witness :
  let σ := stored (store one_state) in
  gadget σ (hash (Folded one_shared one_block 0) (byte_constants [x61; x62; x63]) 2 3 1) (λ '(digest, act), ∃ n, n ≤ 3 ∧
    bits_are (denotes σ) digest (fips_sha256 (take n [x61; x62; x63]) ≫= Prelude.byte_bits) ∧
    bits_are (denotes σ) act ((λ i, (i <? n)%nat) <$> range 3)).
Proof.
  apply (hash_sound (stored (store one_state)) (Folded one_shared one_block 0) (byte_constants [x61; x62; x63]) [x61; x62; x63] 2 1);
    [apply one_block_done|apply constant_bits|apply Nat.leb_le; reflexivity|reflexivity|apply Nat.leb_le; reflexivity].
Defined.

(** * The public values of a small credential *)
(** The two landmarks are at the same place of every signed structure: the
    document type [d], then the namespace [n] with one entry. *)
Definition small_window : list byte := DOC_TYPE_KEY ++ [x61; x64].
Definition small_signed : list byte :=
  small_window ++ replicate 40 x00 ++ [x61; x6e; xa1] ++ replicate 40 x00.
Definition small_date : list byte := bytes_of "2000-01-01".
Definition small_witness : MdocAgeWitness := {|
  sig_structure := small_signed;
  landmarks := {| value_digests_key := 0; namespace_key := 50; region_start := 53; device_key_info := 60; doc_type_key := 0; validity_info := 0 |};
  namespace := [x6e]; doc_type := [x64]; num_entries := 1;
  item_bytes := replicate 17 x00 ++ small_date; digest_offset := 53; element_value_key_offset := 0;
  date_encoding := Bare; device_auth := {| da_r := 1; da_s := 1; da_s_inv := 1 |};
|}.
Definition small_circuit : MdocAgeCircuit := {|
  witness := small_witness;
  ecdsa := {| w_qx := ONE; w_qy := ONE; w_r := 1; w_s := 1; w_z := 1; w_s_inv := 1 |};
  cutoff := bytes_of "2008-01-01"; now := bytes_of "2026-01-01T00:00:00Z"; device_auth_digest := replicate 32 x00;
|}.
Definition small_context : ExpectedContext :=
  ExpectedContext_new (replicate 32 x00) (bytes_of "2008-01-01") (bytes_of "2026-01-01T00:00:00Z") [x64] [x6e].

Lemma small_masked at_ prefix b : bytes_get at_ (at_ + 40) small_signed = Some b → (prefix ≤ 40)%nat → (at_ < 100)%nat →
  masked small_signed at_ prefix = Ok (pack16 (take prefix b ++ replicate (length b - prefix) x00)).
Proof.
  intros Hb Hp Ha. unfold masked, checked_usize. change ANCHOR_TEXT_WINDOW with 40%nat.
  destruct (Z.ltb_spec (Z.of_nat at_ + Z.of_nat 40) (2 ^ 64)); [|lia]. cbn [ok_or mbind outcome_bind].
  replace (Z.to_nat (Z.of_nat at_ + Z.of_nat 40)) with (at_ + 40)%nat by lia. rewrite Hb. cbn [ok_or mbind outcome_bind].
  by rewrite (proj2 (Nat.ltb_ge _ _)).
Qed.

Lemma small_values : ∃ v, age_public_values small_circuit = Ok v.
Proof.
  unfold age_public_values. cbn [witness small_circuit small_witness namespace num_entries doc_type sig_structure landmarks doc_type_key namespace_key].
  change (namespace_prefix_len [x6e] 1) with (Ok (E := SynthesisError) 3%nat). change (doc_type_prefix_len [x64]) with (Ok (E := SynthesisError) 10%nat).
  cbn [mbind outcome_bind]. rewrite (small_masked 0 10 _ eq_refl), (small_masked 50 3 _ eq_refl) by lia. by eexists.
Qed.

Lemma honest_values_checked_witness :
  ∃ v, age_public_values small_circuit = Ok v ∧
    check_public_values v small_context =
      Ok {| v_issuer_qx := ONE; v_issuer_qy := ONE; v_doc_type := [x64]; v_namespace := [x6e] |} :> outcome (VegaMdocError unit unit) _.
Proof.
  destruct small_values as [v E]. exists v. split; [exact E|].
  apply (honest_values_checked (VegaError := unit) (RngError := unit) small_circuit small_context v small_date [x61] [x61] E); try reflexivity.
  - split; [reflexivity|split; reflexivity].
  - apply list_elem_of_singleton. reflexivity.
  - exists (replicate 40 x00 ++ [x61; x6e; xa1] ++ replicate 40 x00). reflexivity.
  - exists (replicate 40 x00). reflexivity.
Defined.

Lemma check_public_values_iff_witness :
  context_sizes small_context ∧
  match check_public_values (default [] (Some (byte_scalars small_date))) small_context : outcome (VegaMdocError unit unit) _ with
  | Ok r => ∀ r', shown (byte_scalars small_date) small_context r' ↔ r' = r
  | Err e => e = rejected ∧ ∀ r, ¬ shown (byte_scalars small_date) small_context r
  | Panic _ => False
  end.
Proof.
  assert (context_sizes small_context) as HS by (split; [reflexivity|split; reflexivity]).
  split; [exact HS|]. exact (check_public_values_iff (VegaError := unit) (RngError := unit) (byte_scalars small_date) small_context HS).
Defined.

(** A library that verifies one proof, whose values are those of the small
    credential. *)
Lemma verify_age_iff_witness :
  let r := {| v_issuer_qx := ONE; v_issuer_qy := ONE; v_doc_type := [x64]; v_namespace := [x6e] |} in
  let v := byte_scalars small_date in
  let verify (_ : unit) (_ : unit) : outcome unit (list Scalar) := Ok v in
  let verify_mc (_ : unit) (_ : unit) (n : nat) : outcome unit _ := Ok (StepCircuit_public_values <$> range n, v) in
    (verify_age (RngError := unit) verify tt tt small_context = Ok r ↔
      ∃ v', verify tt tt = Ok v' ∧ shown v' small_context r) ∧
    (verify_age_folded (RngError := unit) verify_mc tt tt small_context = Ok r ↔ ∃ v',
      verify_mc tt tt (total_blocks layout) = Ok (StepCircuit_public_values <$> range (total_blocks layout), v') ∧
      shown v' small_context r).
Proof.
  intros r v verify verify_mc.
  exact (verify_age_iff verify verify_mc tt tt tt tt small_context r (conj eq_refl (conj eq_refl eq_refl))).
Defined.
