(* ===== verification/AgeWitnesses.v ===== *)
(** Concrete inputs for the properties of offset binding and of the circuits of
    the first engine: a small signed structure with one entry, its landmarks,
    an item, and dates of constant bits. *)
From Stdlib Require Import ZArith Lia Strings.String Strings.Byte.
From stdpp Require Import base list numbers option strings.
From S2P Require Import Prelude Bytes Field FieldInstance ConstraintSystem Shape CheckSystem Bellpepper BellpepperInstance Lc Bits Select CborUint OneHotCursor DigestId Sha256 Table Circuit Step Sha256Var Packing Sha256Mc Hasher HonestSteps StepValues AgeFolded StepInstance Gadgets BigNat P256 Ecc Ecdsa Cbor OffsetBind AgeAcceptance OffsetRules AgeDates AgeRules AgeSound AgeStatement GadgetInstance GadgetWitnesses FoldedWitnesses.

(** The table with one entry, the device key, the document type and the
    validity. *)
Definition demo_time (year : string) : list byte := bytes_of year ++ bytes_of "-01-01T00:00:00Z".
Definition demo_signed : list byte :=
  VALUE_DIGESTS_OPEN_KEY ++ [xa1] ++ [x61; x6e; xa1] ++ [x00; x58; x20] ++ replicate 32 x07 ++
  DEVICE_KEY_INFO ++ replicate 32 x01 ++ [x22; x58; x20] ++ replicate 32 x02 ++ DOC_TYPE_KEY ++ [x61; x64] ++
  validity_block (demo_time "2020") (demo_time "2020") (demo_time "2030").
Definition demo_landmarks : Landmarks :=
  {| value_digests_key := 0; namespace_key := 14; region_start := 17; device_key_info := 52; doc_type_key := 152; validity_info := 162 |}.
Definition demo_shape : CredentialShape := {| shape_namespace := [x6e]; shape_doc_type := [x64]; shape_num_entries := 1 |}.
Definition demo_item : list byte := replicate 39 x00 ++ item_text Bare (bytes_of "2000-01-01").

Ltac decide_nat := apply Nat.leb_le; vm_compute; reflexivity.

Lemma demo_region l : l = demo_signed ∨ l = resize MAX_SIG_STRUCTURE_BYTES x00 demo_signed → region_checks l demo_shape demo_landmarks.
Proof.
  intros [-> | ->]; (split;
    [decide_nat
    |exists [x61]; split; [reflexivity|split; [vm_compute; reflexivity|split; decide_nat]]
    |decide_nat
    |split; decide_nat
    |decide_nat
    |exists 52; split; [vm_compute; reflexivity|decide_nat]
    |decide_nat
    |exists [x61]; split; [reflexivity|split; [vm_compute; reflexivity|split; decide_nat]]]).
Qed.

Definition demo_witness : MdocAgeWitness := {|
  sig_structure := demo_signed; landmarks := demo_landmarks; namespace := [x6e]; doc_type := [x64]; num_entries := 1;
  item_bytes := demo_item; digest_offset := 20; element_value_key_offset := 39; date_encoding := Bare;
  device_auth := {| da_r := 1; da_s := 1; da_s_inv := 1 |};
|}.
Definition demo_circuit : MdocAgeCircuit := {|
  witness := demo_witness;
  ecdsa := {| w_qx := ONE; w_qy := ONE; w_r := 1; w_s := 1; w_z := 1; w_s_inv := 1 |};
  cutoff := bytes_of "2008-01-01"; now := bytes_of "2026-01-01T00:00:00Z"; device_auth_digest := replicate 32 x00;
|}.

Lemma demo_checks : credential_checks demo_witness.
Proof.
  split; [decide_nat|decide_nat|exact (demo_region _ (or_intror eq_refl))|decide_nat| |decide_nat].
  apply (bool_decide_unpack _). vm_compute. exact I.
Qed.

Definition demo_slots : Assignment := stored (store one_state).

Lemma bind_digest_region_sound_witness :
  gadget demo_slots (bind_digest_region (byte_constants demo_signed) demo_signed demo_shape demo_landmarks) (λ r, ∃ ra,
    region_at demo_signed ra ∧ region_values demo_slots demo_signed r ra).
Proof.
  apply (bind_digest_region_sound demo_slots (byte_constants demo_signed) demo_signed demo_signed);
    [apply constant_bits|reflexivity|vm_compute; reflexivity|exact (demo_region _ (or_introl eq_refl))].
Defined.

Lemma bind_validity_sound_witness :
  gadget demo_slots (bind_validity (byte_constants demo_signed) demo_signed 162) (λ '(from_nums, until_nums), ∃ o signed from until,
    o + MAX_ANCHOR_WINDOW ≤ length demo_signed ∧ window_bytes demo_signed o VALIDITY_WINDOW_LEN = validity_block signed from until ∧
    length signed = TIMESTAMP_LEN ∧ length from = TIMESTAMP_LEN ∧ length until = TIMESTAMP_LEN ∧
    bytes_of_nums demo_slots from_nums from ∧ bytes_of_nums demo_slots until_nums until).
Proof.
  apply (bind_validity_sound demo_slots (byte_constants demo_signed) demo_signed demo_signed 162);
    [apply constant_bits|reflexivity|vm_compute; reflexivity|decide_nat].
Defined.

Definition demo_padded : list byte := resize MAX_CLAIM_BYTES_V1 x00 demo_item.
Lemma extract_birth_date_sound_witness :
  gadget demo_slots (extract_birth_date (byte_constants demo_padded) demo_padded (Constant <$> ((λ i, (i <? 128)%nat) <$> range 176)) 39 Bare)
    (λ ds, ∃ base e date, (base, e) ∈ date_candidates ∧ item_len e base ≤ 128 ∧ length date = 10 ∧
      slice base (item_len e base) demo_padded = item_text e date ∧
      date = slice (base + date_rel e) (base + date_rel e + 10) demo_padded ∧ bytes_of_nums demo_slots ds date).
Proof.
  apply (extract_birth_date_sound demo_slots (byte_constants demo_padded) demo_padded demo_padded _ 128 39 Bare);
    [apply constant_bits|reflexivity|reflexivity|apply constant_bits|apply (bool_decide_unpack _); vm_compute; exact I].
Defined.

Definition demo_date : list AllocatedNum := [(Aux 0, None)].
Definition demo_cutoff : list AllocatedNum := [(Aux 1, None)].
Lemma date_not_after_sound_witness :
  gadget demo_slots (date_not_after demo_date demo_cutoff) (λ r, ∃ d c,
    bytes_of_nums demo_slots demo_date d ∧ bytes_of_nums demo_slots demo_cutoff c ∧
    denotes demo_slots (bit r) (of_bool (slice_le d c))).
Proof. apply (date_not_after_sound demo_slots demo_date demo_cutoff). reflexivity. Defined.

Lemma age_sound_witness :
  accepted_shows demo_slots (VegaError := unit) (RngError := unit) (age_circuit demo_circuit None) small_context (age_statement small_context).
Proof.
  apply (age_sound demo_slots demo_circuit None small_context);
    [exact demo_checks|split; [reflexivity|split; reflexivity]|split; [reflexivity|split; reflexivity]|exact I].
Defined.
