(* ===== verification/MsoWitnesses.v ===== *)
(** The library's hash of a message of known length over the slots of
    [BellpepperInstance], and the theorems of the assembled form at concrete
    presentations. *)
From Stdlib Require Import ZArith Lia Strings.String Strings.Byte.
From Stdlib Require Import Field_tac Ring.
From stdpp Require Import base list numbers option strings pretty.
From S2P Require Import Prelude Bytes Field FieldInstance ConstraintSystem Shape CheckSystem Bellpepper BellpepperInstance Lc Bits Gadgets Select Limbs BigNat BigNatRules Curve P256 Ecc Ecdsa CborUint OneHotCursor DigestId Values Sha256 Sha256Trace Table Window Circuit Step Sha256Var Packing Sha256Mc Hasher HonestSteps StepValues AgeFolded StepInstance Cbor OffsetBind AgeAcceptance AgeDates AgeSound AgeStatement MsoSplice Mso MdocCore Binding Assembled GadgetInstance GadgetWitnesses FoldedWitnesses AgeWitnesses.

(** * The hash *)
(** The message with its padding as constants, block by block. *)
Definition chained_sha256 (bits : list Boolean) : Synth (list Boolean) :=
  let n := (length bits / 8)%nat in
  let buf := bits ++ ((λ v, Constant v) <$> (drop n (fips_pad (replicate n x00)) ≫= Prelude.byte_bits)) in
  '(_, states) ← foldM (λ '(state, block_states) i,
    let block := slice (i * 512) ((i + 1) * 512) buf in
    state ← ns ("compress block " +:+ pretty (i : nat)) (sha256_compression_function block state);
    mret (state, block_states ++ [state])) (UInt32_constant <$> SHA256_IV, []) (range (terminal_block_for_len n));
  mret (default [] (last states) ≫= into_bits_be).

Lemma chained_sha256_rules (σ : Assignment) bits m :
  bits_are (denotes σ) bits (m ≫= Prelude.byte_bits) →
  gadget σ (chained_sha256 bits) (λ out, bits_are (denotes σ) out (fips_sha256 m ≫= Prelude.byte_bits)).
Proof.
  intros HB. unfold chained_sha256. cbv zeta.
  assert (length bits / 8 = length m) as ->.
  { rewrite (Forall2_length _ _ _ HB), length_bind_byte_bits, Nat.mul_comm. by apply Nat.div_mul. }
  assert (drop (length m) (fips_pad (replicate (length m) x00)) = drop (length m) (fips_pad m)) as ->.
  { unfold fips_pad. rewrite !drop_app_length' by (by rewrite ?length_replicate). by rewrite length_replicate. }
  assert (fips_pad m = m ++ drop (length m) (fips_pad m)) as Epad by (unfold fips_pad; by rewrite drop_app_length).
  eapply gadget_bind.
  { apply (gadget_block_states σ _ (fips_pad m)); [apply length_fips_pad|]. rewrite Epad at 2. rewrite bind_app.
    apply Forall2_app; [exact HB|]. apply constant_bits. }
  intros [state states] HS. cbn [snd] in HS. apply gadget_ret.
  pose proof (terminal_block_bounds (length m)) as [_ T1]. set (t := terminal_block_for_len (length m)) in *.
  destruct (last states) as [st|] eqn:El.
  2: { apply last_None in El as ->. apply Forall2_length in HS. unfold range in HS. rewrite length_seq in HS.
       rewrite <-HS in T1. by apply Nat.lt_irrefl in T1. }
  rewrite last_lookup, (Forall2_length _ _ _ HS) in El. unfold range in El. rewrite length_seq in El.
  destruct (Forall2_lookup_l _ _ _ _ _ HS El) as (k & Ek & Hst). unfold range in Ek. apply lookup_seq in Ek as [-> Ht].
  cbn [default from_option id]. replace (S (0 + Nat.pred t)) with t in Hst by lia.
  apply words_are_bits in Hst. rewrite <-words_bits, chain_fips in Hst by apply chain_words. exact Hst.
Qed.
#[export] Instance sha256_chained : Sha256Gadget := {|
  gadget_sha256 := chained_sha256;
  gadget_sha256_rules := chained_sha256_rules;
|}.








