(* ===== verification/StepWitnesses.v ===== *)
(** Concrete inputs for the properties of the step circuit: the table of empty
    blocks in the layout of the full statement. *)
From Stdlib Require Import ZArith Lia Strings.String Strings.Byte.
From stdpp Require Import base list numbers option strings.
From S2P Require Import Prelude Bytes Field FieldInstance ConstraintSystem Shape CheckSystem Bellpepper BellpepperInstance Lc Values Bits Select Sha256 Table Window Circuit Step StepValues StepInstance.

Definition empty_table : Table := {|
  t_blocks := replicate POSITIONS (replicate 64 x00);
  t_states := chain FULL_MDOC iv_bytes 0 IV (replicate POSITIONS (replicate 64 x00));
  t_start := iv_bytes;
  t_layout := FULL_MDOC;
|}.

Lemma empty_blocks_ok : blocks_ok FULL_MDOC (replicate POSITIONS (replicate 64 x00)) iv_bytes.
Proof. split; [by apply list.Forall_replicate|done|split; cbn; lia|done|done]. Qed.

Lemma empty_table_built :
  from_blocks_in FULL_MDOC (replicate POSITIONS (replicate 64 x00)) iv_bytes = Ok empty_table.
Proof. unfold from_blocks_in. by rewrite length_replicate. Qed.

Lemma step_native_witness :
  ∃ values, precommitted_values (step_new 5 empty_table) = Ok values ∧
    run (synthesis (step_new 5 empty_table)) check_new
    = (Ok tt, cs_extend check_new (table_values empty_table ++ values) [from_u64 5]) ∧
    ∀ slots, instance (step_new 5 empty_table) slots = step_assignment (step_new 5 empty_table).
Proof.
  apply (StepValues.step_native FULL_MDOC (replicate POSITIONS (replicate 64 x00)) iv_bytes empty_table 5 check_new).
  - apply empty_blocks_ok.
  - apply empty_table_built.
  - cbn. lia.
  - reflexivity.
  - reflexivity.
Defined.

Lemma steps_sound_witness :
  let τ := honest_step empty_table 0 in
  (∀ c, (repr (slot_chunk τ c) < 2 ^ 128)%Z) ∧
  ∀ r k, in_table r → unbroken FULL_MDOC r → k < blocks r →
    (first r = first (signed FULL_MDOC) ∨ starts_from_iv FULL_MDOC (first r) = true) →
    state_is (slot_state τ) (first r + k)
      (run_blocks (if bool_decide (first r = first (signed FULL_MDOC))
                   then bytes_to_words (state_bytes (slot_start τ)) else IV)
         (region_blocks (slot_chunk τ) r (S k))).
Proof.
  cbv zeta. apply (Step.steps_sound FULL_MDOC (honest_step empty_table) (honest_step empty_table 0)).
  - split; cbn; lia.
  - reflexivity.
  - exact (honest_steps_hold FULL_MDOC (replicate POSITIONS (replicate 64 x00)) iv_bytes empty_table
             empty_blocks_ok empty_table_built).
Defined.
