(* ===== verification/MdocWitnesses.v ===== *)
(** Concrete inputs for the properties of the mdoc circuits. *)
From Stdlib Require Import ZArith Lia Strings.String Strings.Byte.
From stdpp Require Import base list numbers option strings.
From S2P Require Import Prelude Bytes Field FieldInstance ConstraintSystem Shape CheckSystem Bellpepper BellpepperInstance Lc Values Bits Select Sha256 Table Window Circuit Step StepValues StepInstance Curve P256 Request Calendar Presentation Pseudonym Mdoc MdocRules MdocSound App Setup Witnesses CircuitWitnesses StepWitnesses.

Definition shown_nym : NymPublic :=
  {| verifier_input := replicate 32 x04; np_pseudonym := replicate 32 x05 |}.

(** The public values of a verifier over the table of empty blocks. *)
Definition full_values : list Scalar := Presentation.public_values Digits shown ++ nym_values shown_nym.
Definition full_assignment : Shape.Assignment := {|
  assign v := match v with
              | Input 0 => ONE
              | Input (S i) => default ZERO (full_values !! i)
              | Aux k => honest_step empty_table 0 (Aux k)
              end;
  assign_one := eq_refl;
|}.

Lemma statement_sound_witness :
  wp full_assignment (synthesis (VegaCircuit0 := core_circuit generators) core_blank) 0 1
    (λ _ _ _, mdoc_statement generators shown shown_nym).
Proof.
  apply (MdocSound.statement_sound generators (honest_step empty_table) full_assignment (honest_step empty_table 0)).
  - exact (honest_steps_hold FULL_MDOC (replicate POSITIONS (replicate 64 x00)) iv_bytes empty_table
             empty_blocks_ok empty_table_built).
  - intros k _. reflexivity.
  - apply generators_on_curve.
  - cbn; lia.
  - repeat split; done.
  - split_and!; [apply shown_request_ok|done| | |done]; repeat split; by vm_compute.
  - reflexivity.
  - reflexivity.
  - reflexivity.
  - intros j v E. change (default ZERO (full_values !! j) = v). unfold full_values. by rewrite E.
Defined.

(** A stored shape of one row, x * x = 1. *)
Definition one_entry (column : N) : StoredMatrix :=
  {| data := [ONE]; indices := [column]; indptr := [0; 1]%N; cols := 2 |}.
Definition one_row : StoredShape := {|
  num_cons := 1; num_cons_unpadded := 1; num_shared_unpadded := 1; num_precommitted_unpadded := 0;
  num_rest_unpadded := 0; num_shared := 1; num_precommitted := 0; num_rest := 0; num_public := 0;
  s_num_challenges := 0; s_a := one_entry 0; s_b := one_entry 0; s_c := one_entry 1;
|}.

Lemma replay_rules_witness :
  builds (synthesis {| replayed := one_row |}) 0 1 1 1
    (λ σ, ∀ r, r < 1 →
       (row_value σ one_row (s_a one_row) r * row_value σ one_row (s_b one_row) r)%S
       = row_value σ one_row (s_c one_row) r).
Proof. apply (Setup.replay_rules one_row); vm_compute; reflexivity. Defined.
