(* ===== verification/StatementWitnesses.v ===== *)
(** Concrete inputs for the properties of the statement: a prover whose proofs
    are the values of the slots, and whose verification checks every rule. *)
From Stdlib Require Import ZArith Lia Zmod Strings.String Strings.Byte.
From stdpp Require Import base list numbers option strings.
From S2P Require Import Prelude Bytes Field FieldInstance ConstraintSystem Shape CheckSystem Bellpepper BellpepperInstance Lc Values Bits Select Sha256 Table Window Circuit Step StepValues StepInstance Curve P256 P256Constants Request Calendar Presentation Pseudonym Mdoc MdocRules MdocSound App Setup Statement Witnesses CircuitWitnesses StepWitnesses MdocWitnesses.

(** * Proofs in the open *)
Definition values_of (proof : list byte) : list Scalar := from_be <$> chunks 32 proof.

(** The values of an instance: [n] public ones, then the private ones. *)
Definition slots_of (n : nat) (l : list Scalar) : Shape.Assignment := {|
  assign v := match v with
              | Input 0 => ONE
              | Input (S i) => default ZERO (l !! i)
              | Aux i => default ZERO (l !! (n + i))
              end;
  assign_one := eq_refl;
|}.
Definition CORE_PUBLIC : nat := 18.

(** The values are written in turn: one of each of the [n] step instances and
    one of the core. *)
Definition part (n : nat) (proof : list byte) (i : nat) : list Scalar :=
  (λ row, default ZERO (row !! i)) <$> chunks (n + 1) (values_of proof).

Definition shares (σ τ : Shape.Assignment) : bool :=
  forallb (λ k, bool_decide (σ (Aux k) = τ (Aux k))) (range (START + 2)).
#[export] Instance holds_decision σ r : Decision (holds σ r) := decide (_ = _).
Definition rules_hold {A} (σ : Shape.Assignment) (m : Synth A) : bool :=
  bool_decide (Forall (holds σ) (shape m 0 1).1.1).

Definition open_verify (proof : list byte) (n : nat) : outcome string (list (list Scalar) * list Scalar) :=
  let τ := slots_of 1 (part n proof 0) in
  let core := slots_of CORE_PUBLIC (part n proof n) in
  if forallb (λ i, let σ := slots_of 1 (part n proof i) in
                   shares σ τ && rules_hold σ (synthesis (step_blank_in FULL_MDOC 0))) (range n)
     && shares core τ && rules_hold core (synthesis (VegaCircuit0 := core_circuit generators) core_blank)
  then Ok ((λ i, take 1 (part n proof i)) <$> range n, take CORE_PUBLIC (part n proof n))
  else Err "a rule does not hold"%string.

#[export] Instance open_prover : VegaProver := {|
  VegaError := string;
  InternalError reason := reason;
  vega_debug e := e;
  VegaMcProverKey := unit;
  VegaMcVerifierKey := unit;
  VegaMcPrepZkSNARK := unit;
  VegaMcZkSNARK := list byte;
  vega_setup _ _ _ _ _ _ _ := Ok (tt, tt);
  vega_prep_prove _ _ _ _ _ _ _ _ := Ok tt;
  vega_prove _ _ _ _ _ _ _ _ _ := Err "no values"%string;
  vega_verify proof _ n := open_verify proof n;
|}.
#[export] Instance open_codec : ProofCodec :=
  {| deserialize_proof := Ok; serialize_proof := Ok; serialized_size proof := Ok (length proof) |}.
Definition open_from_bytes (le : list byte) : option Z := if (le_int le <? p)%Z then Some (le_int le) else None.
Definition open_from_xy (x y : Z) : bool :=
  (x =? 0)%Z && (y =? 0)%Z
  || @bool_decide (on_curve (of_int b256) {| ax := of_int x; ay := of_int y |}) (on_curve_decision _ _).

Lemma open_from_bytes_spec le :
  match open_from_bytes le with
  | Some x => x = le_int le ∧ (le_int le < p)%Z
  | None => (p ≤ le_int le)%Z
  end.
Proof. unfold open_from_bytes. destruct (Z.ltb_spec (le_int le) p); [done|lia]. Qed.

Lemma open_from_xy_spec x y :
  open_from_xy x y = true ↔ (x = 0 ∧ y = 0)%Z ∨ on_curve (of_int b256) {| ax := of_int x; ay := of_int y |}.
Proof. unfold open_from_xy. rewrite orb_true_iff, andb_true_iff, !Z.eqb_eq. by rewrite (@bool_decide_eq_true _ (on_curve_decision _ _)). Qed.

#[export] Instance open_p256 : P256Library := {|
  Fp := Z;
  fp_int x := x;
  fp_from_bytes := open_from_bytes;
  affine_from_xy := open_from_xy;
  fp_from_bytes_spec le _ := open_from_bytes_spec le;
  affine_from_xy_spec := open_from_xy_spec;
|}.

(** * The keys of the circuits *)
Definition open_keys : Keys :=
  {| k_prover := tt; k_verifier := tt;
     k_circuit := default {| name := ""; shapes_sha256 := []; layout := FULL_MDOC; doc_type := [];
                             birth_date_element := []; ssc_element := [] |} (head APPROVED_SHAPES) |}.

Lemma shares_ok σ τ : shares σ τ = true → share_table σ τ.
Proof.
  unfold shares. intros HF k Hk. rewrite forallb_forall in HF.
  apply (bool_decide_eq_true_1 _), HF, in_seq. lia.
Qed.

Lemma slots_of_public n l j v : take n l !! j = Some v → slots_of n l (Input (1 + j)) = v.
Proof. intros [E _]%lookup_take_Some. change (default ZERO (l !! j) = v). by rewrite E. Qed.

Lemma rules_hold_ok {A} σ (m : Synth A) : rules_hold σ m = true → satisfies σ m 0 1.
Proof. apply bool_decide_eq_true_1. Qed.

Lemma open_keys_sound : keys_sound generators open_keys.
Proof.
  intros proof reported core. cbn [vega_verify open_prover]. change (instances FULL_MDOC) with 32. unfold open_verify.
  destruct (_ && _ && _) eqn:E; [|done]. intros EO.
  assert (reported = (λ i, take 1 (part 32 proof i)) <$> range 32 ∧ core = take CORE_PUBLIC (part 32 proof 32))
    as [-> ->] by (by injection EO).
  apply andb_true_iff in E as [E Hcore]. apply andb_true_iff in E as [Hsteps Hshare].
  rewrite forallb_forall in Hsteps.
  exists (λ i, slots_of 1 (part 32 proof i)), (slots_of CORE_PUBLIC (part 32 proof 32)),
    (slots_of 1 (part 32 proof 0)).
  split; [|split; [|split; [|split]]].
  - rewrite length_fmap. apply length_seq.
  - intros i public Ei. rewrite list_lookup_fmap in Ei. apply fmap_Some in Ei as (i' & Ei & ->).
    apply lookup_seq in Ei as [-> Hi]. cbn [Nat.add].
    specialize (Hsteps i). apply andb_true_iff in Hsteps as [Hs Hr]; [|apply in_seq; lia].
    exact (conj (shares_ok _ _ Hs) (conj (λ j v, slots_of_public _ _ j v) (rules_hold_ok _ _ Hr))).
  - exact (shares_ok _ _ Hshare).
  - intros j v. apply slots_of_public.
  - exact (rules_hold_ok _ _ Hcore).
Qed.

Definition shown_statement : Statement := {|
  issuer_key_x := replicate 32 x01; issuer_key_y := replicate 32 x02;
  st_time := bytes_of "2026-01-01T12:00:00Z"; earliest := NO_LOWER_BOUND; cutoff := bytes_of "2008-02-29";
  challenge_digest := replicate 32 x03; st_verifier_input := replicate 32 x04;
|}.

Lemma verify_statement_witness :
  match verify open_keys shown_statement [] with
  | Ok ps => ∃ p vi, named shown_statement (k_circuit open_keys) p vi ∧
      mdoc_statement generators p {| verifier_input := vi; np_pseudonym := ps |}
  | _ => True
  end.
Proof.
  apply (Statement.verify_statement generators open_keys shown_statement []).
  - apply open_keys_sound.
  - reflexivity.
  - apply generators_on_curve.
  - cbn. lia.
Defined.

Definition shown_holder : Holder := {|
  issuer_signed := []; h_secret_seed := replicate 16 x01; h_device_signature := replicate 64 x01 |}.

Lemma prove_verifies_witness :
  match prove generators open_keys shown_statement shown_holder with
  | Ok proved => (MAX_PROOF < Z.of_nat (length (pr_proof proved)))%Z ∨
      ∃ ps, verify open_keys shown_statement (pr_proof proved) = Ok ps
  | _ => True
  end.
Proof.
  apply (Statement.prove_verifies generators open_keys shown_statement shown_holder). intros proof bytes [= <-]. done.
Defined.
